(* ===== verification/_CoqProject ===== *)
-Q . S2P
Prelude.v
Request.v
Utf8.v
Json.v
Policy.v
Rebac.v
Iga.v
LdapFilter.v
RateLimit.v
Push.v
Network.v
Tokens.v
Replay.v
WorkerQueue.v
Cluster.v
KeyRing.v
Backup.v
OpsCache.v
Risk.v
Continuation.v
Accounts.v
AuditChain.v
AuditArchive.v
Otp.v
Login.v
OAuth.v
Scim.v
Directory.v
Csv.v
StatusList.v
Ciam.v
Admin.v
Pep.v
PushFactor.v
Authorize.v
Dcr.v
