(* ===== verification/Prelude.v ===== *)
(** A verification library for qid, an identity provider written in Rust.

    qid is a workspace of crates.  HTTP routes (qid-oauth, qid-oidc, qid-session,
    qid-admin, ...) call engines that decide (qid-policy, qid-iga, qid-risk) and
    repositories that keep state (qid-storage, with a file and an SQL backend) over the
    records of qid-core; qid-ops and qid-worker keep the operational state around them.
    This library models the parts that decide, the parts that keep security-relevant
    state, and the routes that turn credentials into sessions and tokens.

    * Files

    Shared:
    - Prelude.v (this file): Rust's [Result] with [?], machine integers, strings, sorts,
      the shared lemmas, the tactics [qcases] and [cmp], the hint database [qid].
    - Request.v: the state and error monad in which a route is written, and its laws.
    - Utf8.v: [char], UTF-8 and trimming.  Json.v: serde_json values, their number type
      being a parameter with its documented laws ([JsonNumberLaws]).

    Decisions:
    - Policy.v, Module NativePolicy: qid-policy/src/models.rs and native.rs.  Contexts,
      bundles, the strict expression reader, three-valued evaluation and
      [NativePolicyEngine::decide].  It sees relationships only through the record
      [RebacEvaluator].
    - Rebac.v, Module Rebac: qid-iga/src/rebac.rs over any instance of the class
      [RebacRepository], the instance of qid-storage/src/file/rebac.rs, and the two
      [RebacEvaluator]s handed to the policy engine.
    - Iga.v, Module Iga: qid-iga/src/engine.rs, qid-storage/src/iga_grants.rs and the
      grant operations of qid-storage/src/file/iga.rs.
    - Risk.v, Module Risk: qid-risk/src/lib.rs.
    - LdapFilter.v, Module LdapFilter: qid-directory/src/ldap_filter.rs.
    - RateLimit.v: Module RateLimit for qid-http/src/ratelimit.rs and the limiters of
      qid-session built on it; Module FailureBudget for qid-core/src/throttle.rs.
    - Network.v, Module Network: qid-network/src/lib.rs.

    Stores:
    - Tokens.v, Module Tokens: qid-storage/src/file/token.rs with file/insert.rs,
      the rotation rules of domain/mod.rs, the persistence of file/mod.rs and the
      records of qid-core/src/models/oauth.rs.
    - Continuation.v, Module Continuation: file/oidc_continuation.rs.
    - Accounts.v, Module Accounts: file/user.rs, realm.rs, session.rs, credential.rs,
      client.rs and device.rs of qid-storage, over the tables of Tokens.v, Push.v and
      Continuation.v, with the deletion of users and realms across every table.
    - Push.v, Module Push: qid-storage/src/push.rs and file/push.rs with the records of
      qid-core/src/models/push.rs.
    - Replay.v: qid-core/src/cache.rs, its interface as a class, the in-process cache as
      an instance, and in Module Dpop the replay keys and nonces its clients use.
    - AuditChain.v, Module AuditChain: qid-core/src/models/audit.rs and file/audit.rs.
    - Scim.v, Module Scim: file/scim.rs, hr.rs and file/hr.rs of qid-storage: users,
      groups and profiles of directories, and the import batches.
    - Ciam.v, Module Ciam: file/ciam.rs with the rules of domain/mod.rs: consents,
      challenges, magic links, external identities, password resets and profiles.
    - StatusList.v, Module StatusList: qid-vc/src/bitstring_status_list.rs.

    Directories:
    - Directory.v, Module Directory: qid-directory/src/lib.rs, types.rs and webhook.rs:
      LDAP synchronisation, HR imports, dynamic groups, the expansion of groups and
      manager chains, and the HR webhook.  It is written against the class
      [ScimRepository], whose laws Scim.v's store satisfies.
    - Csv.v, Module Csv: qid-directory/src/csv.rs.

    Operations:
    - WorkerQueue.v, Cluster.v, KeyRing.v, Backup.v and OpsCache.v: lib.rs, cluster.rs,
      keyring.rs, backup.rs and cache.rs of qid-ops.
    - AuditArchive.v, Module AuditArchive: qid-worker/src/audit.rs and
      qid-observability/src/audit.rs, over AuditChain.v.

    Routes:
    - Otp.v, Module Otp: HOTP and TOTP of qid-crypto, qid-mfa/src/lib.rs and the
      confirmation and login of qid-session/src/totp_api.rs.
    - Login.v, Module Login: auth.rs, browser.rs and the password, refresh and
      revocation routes of qid-session, over Accounts.v and RateLimit.v.
    - OAuth.v, Module OAuth: qid-core/src/oauth.rs and pkce.rs, the resource-server
      checks of qid-core/src/config, qid-oauth/src/endpoints (token.rs, token_grant.rs,
      token_issue.rs, device_flow.rs, ciba.rs, introspect.rs, revoke.rs), and
      file/service_account.rs, over Tokens.v and Accounts.v.
    - Dcr.v, Module Dcr: endpoints/dcr.rs of qid-oauth, over the store and the signer of
      OAuth.v.
    - PushFactor.v, Module PushFactor: push.rs of qid-session and qid-mfa, and the routes
      api/push.rs and api/push_enrollment.rs, over Push.v, Accounts.v and Login.v.
    - Authorize.v, Module Authorize: provider.rs and push.rs of qid-oidc, over Login.v,
      PushFactor.v, Continuation.v and Tokens.v; the codes it stores are those OAuth.v
      redeems.
    - Admin.v, Module Admin: authz.rs, audit.rs, directory.rs, identity.rs and ops.rs of
      qid-admin with the admin tables of file/admin.rs, over Accounts.v and AuditChain.v.
    - Pep.v, Module Pep: qid-proxy/src/pep_decision.rs and pep_decision/decision.rs, the
      decision cache of qid-core/src/state.rs and the bundles of file/policy.rs, over
      Policy.v, Rebac.v, Risk.v and Replay.v.

    * Conventions

    An [async fn] is the function it computes; where calls interleave around a lock
    (Push.v, Tokens.v) each critical section is one step of an inductive step relation,
    and OAuth.v interleaves whole requests of every endpoint.  [&mut self] is explicit
    state passing; a route that threads a store through many fallible calls is a
    computation of the monad of Request.v, whose error keeps the store reached so far,
    as the source does (nothing is rolled back).  [QidResult] is [result _ QidError].  A
    clock read, a fresh identifier and the outcome of a persistence attempt are
    arguments, or fields of the record [World] of the route's file, so a statement about every
    argument covers every clock, every name and every failure.  A [u64] or [u32] is an
    [N]; saturating, checked and wrapping operations are written out.  A [HashMap] is a
    [gmap], and no statement depends on its iteration order.  Third-party code
    (serde_json numbers, the JSON writer, [subtle], digests and MACs, password hashes,
    signatures, Redis, trigonometry) is a parameter, and every theorem that assumes
    something of one has a witness at a concrete instance.

    * What is proved

    Policy.  [decide] refines the specification forbid, step-up, allow, default;
    an allow implies that no forbid or step-up rule matched; evaluation is monotone in
    the evidence; the expression reader accepts exactly the JSON forms of expressions;
    u64 thresholds compare exactly.

    Relationships.  [check] decides bounded reachability and terminates; [expand]
    agrees with it, is cycle-free, bounded in depth and bytes; the file store keeps
    tuple identities unique.

    Governance.  Exactly when a request is approved automatically, when a grant is
    issued, when it expires; packages combine their members; grant materialisation is
    atomic and idempotent; revocation leaves nothing active; exactly which subjects a
    review recommends to revoke or certify.

    Risk.  Every evaluation is well formed: its score is bounded and its outcome is the
    one the score and the signals call for.

    LDAP filters.  The parser terminates and inverts the printer; a sanitised filter
    reads as the given one, but that a substring filter of stars alone reads as an
    equality with the empty value.

    Admission control.  After any calls, the admissions of a key within an interval of
    one window length are bounded, what is given back apart; two axes are charged together or not at all; capacity holds; account keys do
    not collide; the failure budget evicts only its oldest windows.

    Push.  Every reachable store is valid; a redemption needs a live approval and
    happens at most once; quotas hold and cleanup does not weaken them.

    Wire formats.  RADIUS and TACACS+ round trips; the RADIUS parser never indexes out
    of range and never loops, and its packets re-encode to what was accepted unless the
    declared length is shorter than the header.

    Tokens.  Refresh rotation is an atomic compare-and-swap under every interleaving of
    calls, flushes and rollbacks; revocation is final; one-time credentials are
    consumed at most once.

    Accounts.  Deleting a user or a realm removes exactly its records, the continuations
    of a user being left; a continuation is consumed at most once.

    Replay and operations.  A key is accepted once while it lives, over any cache that
    keeps its laws; queued jobs are conserved and a due job is claimed; at most one
    leader per term; rotation plans, restores and cache commands do what they announce.

    Audit.  A log built by appending verifies; the two verifiers accept the same logs;
    the head hash binds the whole log, metadata included up to the order of keys, or
    exhibits a collision; an event is purged only
    when it is archived with evidence that verifies.

    Directories.  A synchronisation changes only rows of its own provider and realm and
    never deactivates a break-glass user the snapshot does not name; an ambiguous HR import is refused before its
    first write; a batch changes exactly its rows, once and in order; a retried webhook call
    applies once; group expansion returns exactly the users reachable and manager chains
    end, cycles included; SCIM identities are unique; the
    CSV reader inverts the quoting of fields; a status list reads back exactly the bits
    that were set.

    Logins.  A password or TOTP login creates a session only for a live, unlocked user
    who presented the credential and, for a password, has no push authenticator left
    that is not revoked; a code is accepted once, wrong passwords lock the
    account, and a session that was signed out authenticates nobody.

    OAuth.  Over every sequence of token, device, backchannel, introspection and
    revocation requests: a token is issued only to the client the request names,
    authenticated, for
    audiences and scopes its realm's resource servers allow; each grant is redeemed
    once; access tokens stay within their refresh family; a replayed refresh token ends
    its family; a revocation changes exactly the presented token of the proved caller,
    which is never active again; introspection answers active only for a live record and
    to a caller its resource server lists; a refresh token just issued works at the
    token endpoint.

    Authorization.  A code is issued only for a validated request of a registered client,
    to a user with a live session or a login just made, the push factor included where
    it is required; the token endpoint redeems it for the client of that request, with
    its redirection URI and PKCE verifier, and for the user who was authenticated.

    Push factor.  An approval is a decision signed by the enrolled device for that very
    challenge; a login completes once, in the browser that began it.

    Registration.  A request changes at most one client record, and that only with an
    initial access token or in the one open realm, or as the client itself; registered
    clients are sound and their identifiers unambiguous; an answer's token and secret
    work.

    CIAM.  A magic link signs in once, a reset token replaces a password once, and an
    external identity belongs to one user.

    Administration.  A mutation needs an admin of the tenant with the permission and an
    elevation that is live at the clock readings of the request, and where it is required an approval, which is spent; other tenants keep
    their records; what changed is in the audit log.

    Decision point.  An allow goes to an authenticated registration and is one its
    policy granted, now or for an earlier request of the same cache digest, or is the
    configured fail-open answer; an answer's obligations are exactly those due and within
    what its caller can enforce, and what a caller cannot carry out fails closed.

    * Fuel and bounds

    The loops that are not structural take fuel.  [check_loop] and [expand_loop] get the
    number of queue items the depth bound allows ([walk_size]); the LDAP parser gets the
    length of its input; [parse_attributes] gets the declared packet length and
    [extend_pad] the body length; the expression reader gets the depth of the value;
    [expand_group] gets two more than the number of groups and [manager_loop] one more
    than the number of users.
    For each a lemma or theorem shows that the fuel is enough, so no statement is about
    running out of it.  The export walk of AuditArchive.v is the exception: it is shown
    that the source's own loop does not end on some inputs, for every fuel.

    * Not modelled

    SQL statements, network clients and servers, cryptographic algorithms, logging,
    metrics, process entry points and the vendored crates.  The verification of DPoP
    proofs, client assertions, JWTs and SAML assertions is a parameter of the token
    endpoint.  Whole parts that are left out: discovery, userinfo, logout and shared
    signals of qid-oidc, the PAR endpoint, passkeys and magic-link routes, SAML, SCIM
    routes, verifiable credentials but for status lists, federation, proxy assertions,
    message delivery of the workers, and most of configuration validation.  Of the
    modelled crates: NAI parsing and attribute names of qid-network, the request,
    catalog and package tables of the IGA file store, the Redis client behind the cache
    interface, the device verification page, the exports, service accounts and SaaS
    routes of the admin API, and the SaaS and workload tables of the file store.

    * Left to do

    The SCIM filter and its routes, DPoP proofs, the PAR endpoint, the routes of passkeys
    and magic links, and the validation of configurations, in this order. *)

From stdpp Require Export base tactics option list strings gmap pretty sorting.
From Stdlib Require Export NArith Lia.

Declare Scope qid_scope.
Delimit Scope qid_scope with qid.
#[global] Open Scope string_scope.
#[global] Open Scope N_scope.
#[global] Open Scope list_scope.
#[global] Open Scope qid_scope.

(** * Results

    Rust's [Result<T, E>] and the workspace error type [QidError]. *)

Inductive result (A E : Type) : Type :=
| Ok (a : A)
| Err (e : E).
Arguments Ok {A E} _.
Arguments Err {A E} _.

Inductive QidError : Type :=
| Config (message : string)
| Crypto (message : string)
| Storage (message : string)
| NotFound (resource : string)
| Unauthorized (message : string)
| BadRequest (message : string)
| Internal (message : string)
| TooManyRequests (message : string)
| AttemptBudgetSpent (message : string)
| Conflict (message : string)
| DpopNonce (message : string).

(** The [Display] of an error, which [message()] returns. *)
Definition error_message (e : QidError) : string :=
  match e with
  | Config m => "config error: " +:+ m
  | Crypto m => "crypto error: " +:+ m
  | Storage m => "storage error: " +:+ m
  | NotFound r => r +:+ " not found"
  | Unauthorized m => "unauthorized: " +:+ m
  | BadRequest m => "bad request: " +:+ m
  | Internal m => "internal error: " +:+ m
  | TooManyRequests m => "too many requests: " +:+ m
  | AttemptBudgetSpent m => "attempt budget spent: " +:+ m
  | Conflict m => "conflict: " +:+ m
  | DpopNonce m => "bad request: " +:+ m
  end.

Definition QidResult (A : Type) : Type := result A QidError.

Definition res_bind {A B E : Type} (r : result A E) (k : A → result B E) : result B E :=
  match r with
  | Ok a => k a
  | Err e => Err e
  end.

(** [let? x := r in k] is Rust's [let x = r?; k]. *)
Notation "'let?' x ':=' r 'in' k" := (res_bind r (fun x => k))
  (at level 10, x pattern, r at level 100, k at level 200) : qid_scope.

(** [r ?; k] is Rust's [r?; k]. *)
Notation "r '?;' k" := (res_bind r (fun _ => k))
  (at level 100, right associativity) : qid_scope.

Definition res_map {A B E : Type} (f : A → B) (r : result A E) : result B E :=
  match r with Ok a => Ok (f a) | Err e => Err e end.

Definition map_err {A E F : Type} (f : E → F) (r : result A E) : result A F :=
  match r with Ok a => Ok a | Err e => Err (f e) end.

(** [Result::ok] *)
Definition res_ok {A E : Type} (r : result A E) : option A :=
  match r with Ok a => Some a | Err _ => None end.

(** [Option::ok_or] *)
Definition ok_or {A E : Type} (o : option A) (e : E) : result A E :=
  match o with Some a => Ok a | None => Err e end.

Definition is_ok {A E : Type} (r : result A E) : bool :=
  match r with Ok _ => true | Err _ => false end.

(** [iter().map(f).collect::<Result<Vec<_>, _>>()]: stops at the first error. *)
Fixpoint res_mapM {A B E : Type} (f : A → result B E) (l : list A) : result (list B) E :=
  match l with
  | [] => Ok []
  | x :: l' => let? y := f x in let? ys := res_mapM f l' in Ok (y :: ys)
  end.

(** A [for] loop whose body updates a state and may return early with [?]. *)
Fixpoint res_foldl {A S E : Type} (f : S → A → result S E) (s : S) (l : list A) : result S E :=
  match l with
  | [] => Ok s
  | x :: l' => let? s' := f s x in res_foldl f s' l'
  end.

#[global] Instance QidError_eq_dec : EqDecision QidError.
Proof. solve_decision. Defined.

(** * Machine integers

    A [u64], [u32] or [u8] value is an [N] below the bound of its width; the
    operations below are the ones of the standard library the code calls. *)

Definition u64_max : N := 18446744073709551615.
Definition u32_max : N := 4294967295.
Definition i64_max : N := 9223372036854775807.

Definition saturating_add64 (a b : N) : N := N.min (a + b) u64_max.
Definition saturating_add32 (a b : N) : N := N.min (a + b) u32_max.
Definition saturating_mul64 (a b : N) : N := N.min (a * b) u64_max.
Definition saturating_sub (a b : N) : N := a - b.
Definition checked_add64 (a b : N) : option N :=
  if a + b <=? u64_max then Some (a + b) else None.

(** The operator [+] of a release build, which wraps. *)
Definition add64 (a b : N) : N := (a + b) mod 18446744073709551616.
Definition add32 (a b : N) : N := (a + b) mod 4294967296.

Definition fits_i64 (a : N) : bool := a <=? i64_max.

(** * Strings

    A Rust [str] is the [string] of its UTF-8 bytes. *)

Fixpoint strip_prefix (p s : string) : option string :=
  match p, s with
  | EmptyString, _ => Some s
  | String c p', String d s' => if Ascii.eqb c d then strip_prefix p' s' else None
  | String _ _, EmptyString => None
  end.

Definition starts_with (p s : string) : bool :=
  match strip_prefix p s with Some _ => true | None => false end.

Fixpoint str_skip (n : nat) (s : string) : string :=
  match n, s with
  | O, _ => s
  | S n', String _ s' => str_skip n' s'
  | S _, EmptyString => EmptyString
  end.

Fixpoint str_take (n : nat) (s : string) : string :=
  match n, s with
  | O, _ => EmptyString
  | S n', String c s' => String c (str_take n' s')
  | S _, EmptyString => EmptyString
  end.

(** [strip_suffix]: the byte length of [s] decides where the suffix would start. *)
Definition strip_suffix (p s : string) : option string :=
  if (String.length p <=? String.length s)%nat then
    let k := (String.length s - String.length p)%nat in
    if String.eqb (str_skip k s) p then Some (str_take k s) else None
  else None.

Definition ends_with (p s : string) : bool :=
  match strip_suffix p s with Some _ => true | None => false end.

(** [str::split] on an ASCII character. *)
Fixpoint split_on (sep : Ascii.ascii) (s : string) : list string :=
  match s with
  | EmptyString => [""]
  | String c s' =>
      if Ascii.eqb c sep then "" :: split_on sep s'
      else match split_on sep s' with
           | [] => [String c ""]
           | x :: r => String c x :: r
           end
  end.

(** [str::split_once] at an ASCII character. *)
Fixpoint split_once (sep : Ascii.ascii) (s : string) : option (string * string) :=
  match s with
  | EmptyString => None
  | String c s' =>
      if Ascii.eqb c sep then Some ("", s')
      else match split_once sep s' with Some (a, b) => Some (String c a, b) | None => None end
  end.

Definition ascii_lower (c : Ascii.ascii) : Ascii.ascii :=
  let n := Ascii.N_of_ascii c in if (65 <=? n) && (n <=? 90) then Ascii.ascii_of_N (n + 32) else c.

Fixpoint to_ascii_lowercase (s : string) : string :=
  match s with EmptyString => EmptyString | String c s' => String (ascii_lower c) (to_ascii_lowercase s') end.

Definition eq_ignore_ascii_case (a b : string) : bool := String.eqb (to_ascii_lowercase a) (to_ascii_lowercase b).

(** [str::contains] of an ASCII character. *)
Fixpoint str_contains (sep : Ascii.ascii) (s : string) : bool :=
  match s with
  | EmptyString => false
  | String c s' => Ascii.eqb c sep || str_contains sep s'
  end.

Definition is_empty_str (s : string) : bool := String.eqb s "".

(** Byte order on strings, which is Rust's order on [str]. *)
Definition str_leb (a b : string) : bool :=
  match String.compare a b with Gt => false | _ => true end.

(** * Lists *)

(** [slice::sort_by] (a stable sort), as an insertion sort. *)
Fixpoint sort_insert {A : Type} (leb : A → A → bool) (x : A) (l : list A) : list A :=
  match l with
  | [] => [x]
  | y :: l' => if leb x y then x :: y :: l' else y :: sort_insert leb x l'
  end.

Definition sort_by {A : Type} (leb : A → A → bool) (l : list A) : list A :=
  foldr (sort_insert leb) [] l.

(** [Vec::dedup]: drops an element equal to the one before it. *)
Fixpoint dedup {A : Type} (eqb : A → A → bool) (l : list A) : list A :=
  match l with
  | [] => []
  | x :: l' =>
      match dedup eqb l' with
      | [] => [x]
      | y :: r => if eqb x y then y :: r else x :: y :: r
      end
  end.

(** [Iterator::min_by] returns the first of several minimal elements, [max_by] (and
    [max_by_key]) the last of several maximal ones. *)
Definition min_by {A : Type} (leb : A → A → bool) (l : list A) : option A :=
  match l with
  | [] => None
  | x :: l' => Some (foldl (fun a y => if leb a y then a else y) x l')
  end.

Definition max_by {A : Type} (leb : A → A → bool) (l : list A) : option A :=
  match l with
  | [] => None
  | x :: l' => Some (foldl (fun a y => if leb a y then y else a) x l')
  end.

Definition str_in (x : string) (l : list string) : bool := existsb (String.eqb x) l.

(** * Automation *)

(** Cases on every [match] and [if] of the goal and the hypotheses. *)
Ltac qcases :=
  repeat (case_match; simplify_eq/=; try done).

(** Decides a comparison in the goal by linear arithmetic. *)
Ltac cmp :=
  match goal with
  | |- context [(?a <? ?b)%nat] =>
      first [rewrite (proj2 (Nat.ltb_lt a b)) by lia | rewrite (proj2 (Nat.ltb_ge a b)) by lia]
  | |- context [(?a <=? ?b)%nat] =>
      first [rewrite (proj2 (Nat.leb_le a b)) by lia | rewrite (proj2 (Nat.leb_gt a b)) by lia]
  | |- context [?a <? ?b] =>
      first [rewrite (proj2 (N.ltb_lt a b)) by lia | rewrite (proj2 (N.ltb_ge a b)) by lia]
  | |- context [?a <=? ?b] =>
      first [rewrite (proj2 (N.leb_le a b)) by lia | rewrite (proj2 (N.leb_gt a b)) by lia]
  end.

(** Facts about what operations leave alone, closed by [auto with qid]. *)
Create HintDb qid.

(** * Generic lemmas *)

Lemma res_bind_Ok {A B E : Type} (r : result A E) (k : A → result B E) b :
  res_bind r k = Ok b ↔ ∃ a, r = Ok a ∧ k a = Ok b.
Proof. destruct r; simpl; naive_solver. Qed.

Lemma res_bind_Err {A B E : Type} (r : result A E) (k : A → result B E) e :
  res_bind r k = Err e ↔ r = Err e ∨ ∃ a, r = Ok a ∧ k a = Err e.
Proof. destruct r; simpl; naive_solver. Qed.

Lemma res_mapM_Ok {A B E : Type} (f : A → result B E) l k :
  res_mapM f l = Ok k ↔ Forall2 (fun x y => f x = Ok y) l k.
Proof.
  revert k. induction l as [|x l IH]; intros k; simpl.
  - split; [intros [= <-]; constructor | by inversion 1].
  - rewrite res_bind_Ok. split.
    + intros (y & Hy & (ys & Hys & [= <-])%res_bind_Ok). constructor; [done|]. by apply IH.
    + inversion 1 as [|? y ? ys Hy Hys]; subst. exists y. split; [done|].
      apply res_bind_Ok. exists ys. split; [by apply IH|done].
Qed.

Lemma strip_prefix_Some p s r : strip_prefix p s = Some r ↔ s = (p +:+ r)%string.
Proof.
  revert s. induction p as [|c p IH]; intros s; simpl.
  - split; [by intros [= ->]|by intros ->].
  - destruct s as [|d s]; simpl; [split; [done|intros H; by inversion H]|].
    destruct (Ascii.eqb_spec c d) as [->|Hne].
    + rewrite IH. split; [by intros ->|by intros [= ->]].
    + split; [done|]. intros H; inversion H; by subst.
Qed.

Lemma starts_with_spec p s : starts_with p s = true ↔ ∃ r, s = (p +:+ r)%string.
Proof.
  unfold starts_with. destruct (strip_prefix p s) as [r|] eqn:E.
  - apply strip_prefix_Some in E. naive_solver.
  - split; [done|]. intros [r H]. apply strip_prefix_Some in H. congruence.
Qed.

Lemma str_take_skip k s : (str_take k s +:+ str_skip k s)%string = s.
Proof. revert s. induction k as [|k IH]; intros [|c s]; simpl; [done..|]. exact (f_equal (String c) (IH s)). Qed.

Lemma str_length_app a b : String.length (a +:+ b) = (String.length a + String.length b)%nat.
Proof. induction a as [|c a IH]; [done|]. exact (f_equal S IH). Qed.

Lemma str_app_assoc a b c : (a +:+ (b +:+ c) = (a +:+ b) +:+ c)%string.
Proof. induction a as [|x a IH]; [done|]. exact (f_equal (String x) IH). Qed.

Lemma str_skip_app a b : str_skip (String.length a) (a +:+ b) = b.
Proof. by induction a. Qed.

Lemma str_take_app a b : str_take (String.length a) (a +:+ b) = a.
Proof. induction a as [|c a IH]; [by destruct b|]. exact (f_equal (String c) IH). Qed.

Lemma str_app_inj_suffix (a b p q : string) :
  String.length p = String.length q → (a +:+ p = b +:+ q)%string → a = b ∧ p = q.
Proof.
  intros Hl He. assert (String.length a = String.length b) as Hab.
  { apply (f_equal String.length) in He. rewrite !str_length_app in He. lia. }
  split.
  - rewrite <- (str_take_app a p), He, Hab. apply str_take_app.
  - rewrite <- (str_skip_app a p), He, Hab. apply str_skip_app.
Qed.

Lemma strip_suffix_Some p s r : strip_suffix p s = Some r ↔ s = (r +:+ p)%string.
Proof.
  unfold strip_suffix. split.
  - destruct (Nat.leb_spec (String.length p) (String.length s)); [|done].
    destruct (String.eqb_spec (str_skip (String.length s - String.length p) s) p) as [E|]; [|done].
    intros [= <-]. rewrite <- (str_take_skip (String.length s - String.length p) s) at 1.
    by rewrite E.
  - intros ->. rewrite str_length_app.
    replace (String.length r + String.length p - String.length p)%nat
      with (String.length r) by lia.
    rewrite str_skip_app, str_take_app, String.eqb_refl.
    by destruct (Nat.leb_spec (String.length p) (String.length r + String.length p)); [|lia].
Qed.

Lemma ends_with_spec p s : ends_with p s = true ↔ ∃ r, s = (r +:+ p)%string.
Proof.
  unfold ends_with. destruct (strip_suffix p s) as [r|] eqn:E.
  - apply strip_suffix_Some in E. naive_solver.
  - split; [done|]. intros [r H]. apply strip_suffix_Some in H. congruence.
Qed.

Lemma str_in_spec x l : str_in x l = true ↔ x ∈ l.
Proof.
  unfold str_in. rewrite existsb_exists, list_elem_of_In. split.
  - intros (y & Hy & ->%String.eqb_eq). done.
  - intros H. exists x. by rewrite String.eqb_refl.
Qed.

Lemma str_in_false x l : str_in x l = false ↔ x ∉ l.
Proof. rewrite <- str_in_spec. by destruct (str_in x l). Qed.

Lemma elem_of_map {A B} (f : A → B) l y : y ∈ map f l ↔ ∃ x, y = f x ∧ x ∈ l.
Proof. apply list_elem_of_fmap. Qed.

Lemma elem_of_lfilter {A} (p : A → bool) l x : x ∈ List.filter p l ↔ x ∈ l ∧ p x = true.
Proof. rewrite !list_elem_of_In. apply filter_In. Qed.

Lemma lfilter_nil {A} (p : A → bool) l : List.filter p l = [] ↔ ∀ x, x ∈ l → p x = false.
Proof.
  split.
  - intros H x Hx. apply not_true_iff_false. intros Hp.
    assert (x ∈ List.filter p l) as Hin by by apply elem_of_lfilter.
    rewrite H in Hin. by apply not_elem_of_nil in Hin.
  - intros H. destruct (List.filter p l) as [|x k] eqn:E; [done|].
    assert (x ∈ List.filter p l) as [Hx Hp]%elem_of_lfilter by (rewrite E; left).
    by rewrite H in Hp.
Qed.

Lemma map_lfilter_nil {A B} (f : A → B) (p : A → bool) l :
  map f (List.filter p l) = [] ↔ ∀ x, x ∈ l → p x = false.
Proof. rewrite <- lfilter_nil. by destruct (List.filter p l). Qed.

Lemma lfilter_all {A} (p : A → bool) l : (∀ x, x ∈ l → p x = true) → List.filter p l = l.
Proof.
  induction l as [|x l IH]; intros H; simpl; [done|].
  rewrite (H x) by left. f_equal. apply IH. intros y Hy. apply H. by right.
Qed.

Lemma existsb_elem_of {A} (p : A → bool) l : existsb p l = true ↔ ∃ x, x ∈ l ∧ p x = true.
Proof. rewrite existsb_exists. by setoid_rewrite list_elem_of_In. Qed.

Lemma existsb_false {A} (p : A → bool) l : existsb p l = false ↔ ∀ x, x ∈ l → p x = false.
Proof.
  rewrite <- not_true_iff_false, existsb_elem_of. split.
  - intros Hn x Hx. apply not_true_iff_false. naive_solver.
  - intros Hall (x & Hx & Hp). by rewrite Hall in Hp.
Qed.

Lemma forallb_elem_of {A} (p : A → bool) l : forallb p l = true ↔ ∀ x, x ∈ l → p x = true.
Proof. rewrite forallb_forall. by setoid_rewrite list_elem_of_In. Qed.

Lemma elem_of_concat_map {A B} (f : A → list B) l y :
  y ∈ concat (map f l) ↔ ∃ x, x ∈ l ∧ y ∈ f x.
Proof.
  rewrite list_elem_of_In, in_concat. setoid_rewrite in_map_iff.
  setoid_rewrite <- list_elem_of_In. naive_solver.
Qed.

Lemma list_max_elem_of (n : nat) l : n ∈ l → (n ≤ list_max l)%nat.
Proof.
  intros Hn. pose proof (proj1 (list_max_le l (list_max l)) (Nat.le_refl _)) as Hall.
  rewrite List.Forall_forall in Hall. by apply Hall, list_elem_of_In.
Qed.

(** Byte order is total, transitive and antisymmetric. *)
Lemma str_leb_total a b : str_leb a b = false → str_leb b a = true.
Proof. unfold str_leb. rewrite (String.compare_antisym b a). by destruct (String.compare a b). Qed.

Lemma str_leb_antisym a b : str_leb a b = true → str_leb b a = true → a = b.
Proof.
  unfold str_leb. rewrite (String.compare_antisym b a).
  destruct (String.compare a b) eqn:E; [|done..]. intros _ _. by apply String.compare_eq_iff.
Qed.

Lemma str_leb_trans a : ∀ b c, str_leb a b = true → str_leb b c = true → str_leb a c = true.
Proof.
  unfold str_leb. induction a as [|x a IH]; intros [|y b] [|z c] Hab Hbc; try done; simpl in *.
  unfold Ascii.compare in *.
  destruct (N.compare_spec (Ascii.N_of_ascii x) (Ascii.N_of_ascii y)) as [Exy|Hxy|Hxy]; [| |done];
    destruct (N.compare_spec (Ascii.N_of_ascii y) (Ascii.N_of_ascii z)) as [Eyz|Hyz|Hyz]; try done;
    destruct (N.compare_spec (Ascii.N_of_ascii x) (Ascii.N_of_ascii z)); try lia; try done.
  by eapply IH.
Qed.

#[export] Hint Resolve str_leb_total str_leb_trans : qid.

Lemma sort_insert_perm {A} leb (x : A) l : sort_insert leb x l ≡ₚ x :: l.
Proof.
  induction l as [|y l IH]; simpl; [done|]. case_match; [done|].
  rewrite IH. apply Permutation_swap.
Qed.

Lemma sort_by_perm {A} (leb : A → A → bool) l : sort_by leb l ≡ₚ l.
Proof. induction l as [|x l IH]; simpl; [done|]. by rewrite sort_insert_perm, IH. Qed.

Lemma elem_of_sort_by {A} (leb : A → A → bool) x l : x ∈ sort_by leb l ↔ x ∈ l.
Proof. by rewrite sort_by_perm. Qed.

(** [sort_by] sorts, for a total and transitive order. *)
Lemma sort_by_sorted {A} (leb : A → A → bool) l :
  (∀ a b, leb a b = false → leb b a = true) →
  (∀ a b c, leb a b = true → leb b c = true → leb a c = true) →
  StronglySorted (fun a b => leb a b = true) (sort_by leb l).
Proof.
  intros Htot Htrans. induction l as [|x l IH]; simpl; [constructor|].
  revert IH. generalize (sort_by leb l) as k. induction k as [|y k IHk]; simpl; intros Hs.
  - repeat constructor.
  - inversion Hs as [|? ? Hk Hy]; subst. destruct (leb x y) eqn:E.
    + constructor; [done|]. constructor; [done|]. eapply Forall_impl; [exact Hy|]. eauto.
    + constructor; [by apply IHk|]. rewrite sort_insert_perm. constructor; [by apply Htot|done].
Qed.

(** [min_by] and [max_by] find an extremal element, for a total and transitive order. *)
Lemma min_by_spec {A} (leb : A → A → bool) l :
  (∀ a b, leb a b = false → leb b a = true) →
  (∀ a b c, leb a b = true → leb b c = true → leb a c = true) →
  match min_by leb l with
  | None => l = []
  | Some m => m ∈ l ∧ ∀ y, y ∈ l → leb m y = true
  end.
Proof.
  intros Htot Htrans. destruct l as [|x l]; [done|]. unfold min_by.
  assert (∀ a, leb a a = true) as Hrefl by (intros a; destruct (leb a a) eqn:E; [done|rewrite <- E; by apply Htot]).
  revert x. induction l as [|y l IH]; intros x; simpl.
  - split; [left|]. intros y ->%list_elem_of_singleton. apply Hrefl.
  - destruct (leb x y) eqn:E.
    + destruct (IH x) as [Hin Hmin]. split; [set_solver|].
      intros z [->|[->|Hz]%elem_of_cons]%elem_of_cons; [apply Hmin; left| |apply Hmin; by right].
      eapply Htrans; [apply Hmin; left|exact E].
    + destruct (IH y) as [Hin Hmin]. split; [set_solver|].
      intros z [->|Hz]%elem_of_cons; [|by apply Hmin].
      eapply Htrans; [apply Hmin; left|by apply Htot].
Qed.

Lemma max_by_snoc {A} (leb : A → A → bool) l x :
  max_by leb (l ++ [x]) =
  Some (match max_by leb l with None => x | Some m => if leb m x then x else m end).
Proof. destruct l as [|y l]; [done|]. simpl. by rewrite foldl_app. Qed.

(** The maximum found is followed by strictly smaller elements only, and is no smaller
    than those before it. *)
Lemma max_by_split {A} (leb : A → A → bool) l :
  (∀ a b, leb a b = false → leb b a = true) →
  (∀ a b c, leb a b = true → leb b c = true → leb a c = true) →
  match max_by leb l with
  | None => l = []
  | Some m => ∃ p s, l = p ++ m :: s ∧ (∀ y, y ∈ p → leb y m = true) ∧ (∀ y, y ∈ s → leb m y = false)
  end.
Proof.
  intros Htot Htrans. induction l as [|x l IH] using rev_ind; [done|].
  rewrite max_by_snoc. destruct (max_by leb l) as [m|].
  - destruct IH as (p & s & -> & Hp & Hs). destruct (leb m x) eqn:E.
    + exists (p ++ m :: s), []. split; [done|]. split; [|by intros y ?%not_elem_of_nil].
      intros y [Hy|[->|Hy]%elem_of_cons]%elem_of_app; [by eapply Htrans, E; apply Hp|done|].
      eapply Htrans; [apply Htot, Hs, Hy|exact E].
    + exists p, (s ++ [x]). split; [by rewrite <- app_assoc|]. split; [done|].
      intros y [Hy| ->%list_elem_of_singleton]%elem_of_app; [by apply Hs|done].
  - subst l. exists [], []. split; [done|]. split; by intros y ?%not_elem_of_nil.
Qed.

(** Such a split determines what [max_by] returns. *)
Lemma max_by_unsplit {A} (leb : A → A → bool) p m s :
  (∀ a b, leb a b = false → leb b a = true) →
  (∀ y, y ∈ p → leb y m = true) → (∀ y, y ∈ s → leb m y = false) →
  max_by leb (p ++ m :: s) = Some m.
Proof.
  intros Htot Hp Hs. induction s as [|x s IH] using rev_ind.
  - rewrite max_by_snoc. f_equal. destruct (max_by leb p) as [m'|] eqn:E; [|done].
    destruct p as [|y p]; [done|]. injection E as <-.
    assert (∀ l a, (∀ z, z ∈ a :: l → leb z m = true) → leb (foldl (fun a y => if leb a y then y else a) a l) m = true) as Hf.
    { induction l as [|z l IHl]; intros a Ha; simpl; [apply Ha; left|].
      apply IHl. intros w [->|Hw]%elem_of_cons; [case_match; apply Ha; set_solver|apply Ha; set_solver]. }
    by rewrite Hf.
  - rewrite app_comm_cons, app_assoc, max_by_snoc, IH by (intros; apply Hs; set_solver).
    by rewrite Hs by set_solver.
Qed.

(** Removing other elements keeps the maximum. *)
Lemma max_by_sublist {A} (leb : A → A → bool) l l' m :
  (∀ a b, leb a b = false → leb b a = true) →
  (∀ a b c, leb a b = true → leb b c = true → leb a c = true) →
  sublist l l' → NoDup l' → max_by leb l' = Some m → m ∈ l → max_by leb l = Some m.
Proof.
  intros Htot Htrans Hsub Hnd Hm Hin. pose proof (max_by_split leb l' Htot Htrans) as Hsp.
  rewrite Hm in Hsp. destruct Hsp as (p & s & -> & Hp & Hs).
  apply sublist_app_r in Hsub as (l1 & l2 & -> & H1 & H2).
  apply NoDup_app in Hnd as (_ & Hdis & Hnd). apply NoDup_cons in Hnd as [Hms _].
  assert (m ∈ l2) as Hm2.
  { apply elem_of_app in Hin as [Hin|Hin]; [|done]. exfalso. apply (Hdis m); [|left].
    by eapply elem_of_submseteq, sublist_submseteq. }
  apply sublist_cons_r in H2 as [H2|(l2' & -> & H2)].
  - exfalso. apply Hms. by eapply elem_of_submseteq, sublist_submseteq.
  - apply max_by_unsplit; [done|intros y Hy; apply Hp|intros y Hy; apply Hs];
      by eapply elem_of_submseteq, sublist_submseteq.
Qed.

Lemma sorted_take_drop {A} (R : A → A → Prop) n l a b :
  StronglySorted R l → a ∈ take n l → b ∈ drop n l → R a b.
Proof.
  revert l. induction n as [|n IH]; intros l Hs Ha Hb; [by apply not_elem_of_nil in Ha|].
  destruct l as [|x l]; [by apply not_elem_of_nil in Ha|]. inversion Hs as [|? ? Hl Hx]; subst.
  simpl in *. apply elem_of_cons in Ha as [->|Ha]; [|by eapply IH].
  rewrite Forall_forall in Hx. apply Hx. rewrite <- (take_drop n l). apply elem_of_app. by right.
Qed.

Lemma elem_of_dedup (x : string) l : x ∈ dedup String.eqb l ↔ x ∈ l.
Proof.
  induction l as [|y l IH]; simpl; [done|].
  destruct (dedup String.eqb l) as [|z r] eqn:E.
  - rewrite list_elem_of_singleton, elem_of_cons, <- IH. set_solver.
  - destruct (String.eqb_spec y z) as [->|]; rewrite ?elem_of_cons, <- IH, ?elem_of_cons; naive_solver.
Qed.

Lemma sort_dedup_nil (l : list string) :
  dedup String.eqb (sort_by str_leb l) = [] ↔ l = [].
Proof.
  split; [|by intros ->]. intros H. destruct l as [|x l]; [done|].
  assert (x ∈ dedup String.eqb (sort_by str_leb (x :: l))) as Hx.
  { rewrite elem_of_dedup, elem_of_sort_by. set_solver. }
  rewrite H in Hx. set_solver.
Qed.

(** The keys of a [BTreeMap<String, _>] in its iteration order. *)
Definition btree_keys {A} (m : gmap string A) : list string := sort_by str_leb (map_to_list m).*1.

Lemma elem_of_btree_keys {A} (m : gmap string A) k : k ∈ btree_keys m ↔ is_Some (m !! k).
Proof.
  unfold btree_keys. rewrite elem_of_sort_by, list_elem_of_fmap. split.
  - intros ([j v] & -> & Hv%elem_of_map_to_list). by exists v.
  - intros [v Hv]. exists (k, v). by rewrite elem_of_map_to_list.
Qed.

Lemma add64_id a b : a + b ≤ u64_max → add64 a b = a + b.
Proof. unfold add64, u64_max. intros H. apply N.mod_small. lia. Qed.

Lemma add32_id a b : a + b ≤ u32_max → add32 a b = a + b.
Proof. unfold add32, u32_max. intros H. apply N.mod_small. lia. Qed.

Lemma elem_of_head {A} (l : list A) x : head l = Some x → x ∈ l.
Proof. destruct l; simpl; [done|]. intros [= ->]. left. Qed.

#[export] Hint Resolve elem_of_head : qid.

(** ** Length-prefixed encodings

    [format!("{}:{a}", a.len())] determines [a] and what follows it. *)

Definition COLON : Ascii.ascii := Ascii.ascii_of_N 58.

Fixpoint no_colon (s : string) : bool :=
  match s with
  | EmptyString => true
  | String c s' => negb (Ascii.eqb c COLON) && no_colon s'
  end.

Fixpoint before_colon (s : string) : string :=
  match s with
  | EmptyString => EmptyString
  | String c s' => if Ascii.eqb c COLON then EmptyString else String c (before_colon s')
  end.

Lemma before_colon_app p r : no_colon p = true → before_colon (p +:+ ":" +:+ r) = p.
Proof.
  induction p as [|c p IH]; [done|]. simpl. intros [Hc Hp]%andb_true_iff.
  change (before_colon (String c (p +:+ ":" +:+ r)) = String c p). simpl.
  apply negb_true_iff in Hc. rewrite Hc. f_equal. by apply IH.
Qed.

Lemma pretty_go_no_colon x : ∀ s, no_colon s = true → no_colon (pretty_N_go x s) = true.
Proof.
  induction (N.lt_wf_0 x) as [x _ IH]. intros s Hs.
  destruct (decide (x = 0)) as [->|Hx]; [by rewrite pretty_N_go_0|].
  rewrite pretty_N_go_step by lia. apply IH; [apply N.div_lt; lia|].
  simpl. rewrite Hs, andb_true_r. unfold pretty_N_char. by repeat case_match.
Qed.

Lemma pretty_no_colon (n : N) : no_colon (pretty n) = true.
Proof. unfold pretty, pretty_N. case_decide; [done|]. by apply pretty_go_no_colon. Qed.

Lemma str_app_inj_prefix (a b p q : string) :
  String.length a = String.length b → a +:+ p = b +:+ q → a = b ∧ p = q.
Proof.
  intros Hl He. split.
  - rewrite <- (str_take_app a p), He, Hl. apply str_take_app.
  - rewrite <- (str_skip_app a p), He, Hl. apply str_skip_app.
Qed.

Lemma length_prefix_inj (a b p q : string) :
  pretty (N.of_nat (String.length a)) +:+ ":" +:+ a +:+ p
  = pretty (N.of_nat (String.length b)) +:+ ":" +:+ b +:+ q → a = b ∧ p = q.
Proof.
  intros He. pose proof (f_equal before_colon He) as Hp.
  rewrite !before_colon_app in Hp by apply pretty_no_colon.
  rewrite Hp in He. apply str_app_inj_prefix in He as [_ He]; [|done].
  apply (inj pretty) in Hp. apply (str_app_inj_prefix ":" ":") in He as [_ He]; [|done].
  apply str_app_inj_prefix in He; [done|lia].
Qed.

(** ** Splitting at a character *)

Lemma str_contains_app sep a b : str_contains sep (a +:+ b) = str_contains sep a || str_contains sep b.
Proof.
  induction a as [|c a IH]; [done|]. change (String c a +:+ b) with (String c (a +:+ b)). simpl.
  by rewrite IH, orb_assoc.
Qed.

Lemma split_on_plain sep l : str_contains sep l = false → split_on sep l = [l].
Proof.
  induction l as [|c l IH]; [done|]. simpl. intros [Hc Hl]%orb_false_iff. rewrite Hc. by rewrite IH.
Qed.

Lemma split_on_line sep l rest :
  str_contains sep l = false → split_on sep (l +:+ String sep rest) = l :: split_on sep rest.
Proof.
  induction l as [|c l IH]; intros Hl.
  - change (split_on sep (String sep rest) = "" :: split_on sep rest). simpl. by rewrite Ascii.eqb_refl.
  - simpl in Hl. apply orb_false_iff in Hl as [Hc Hl].
    change (split_on sep (String c (l +:+ String sep rest)) = String c l :: split_on sep rest).
    simpl. rewrite Hc. by rewrite IH.
Qed.

Lemma split_once_pair sep k v : str_contains sep k = false → split_once sep (k +:+ String sep v) = Some (k, v).
Proof.
  induction k as [|c k IH]; intros Hk.
  - change (split_once sep (String sep v) = Some ("", v)). simpl. by rewrite Ascii.eqb_refl.
  - simpl in Hk. apply orb_false_iff in Hk as [Hc Hk].
    change (split_once sep (String c (k +:+ String sep v)) = Some (String c k, v)). simpl. by rewrite Hc, IH.
Qed.

(** ** Decimal numbers

    [str::parse::<u64>]: an optional plus sign, then one digit at least, below 2^64. *)

Definition digit_value (c : Ascii.ascii) : option N :=
  let n := Ascii.N_of_ascii c in if (48 <=? n) && (n <=? 57) then Some (n - 48) else None.

Fixpoint parse_digits (acc : N) (s : string) : option N :=
  match s with
  | EmptyString => Some acc
  | String c s' =>
      match digit_value c with
      | Some d => if acc * 10 + d <=? u64_max then parse_digits (acc * 10 + d) s' else None
      | None => None
      end
  end.

Definition PLUS : Ascii.ascii := Ascii.ascii_of_N 43.

Definition parse_u64 (s : string) : option N :=
  match s with
  | EmptyString => None
  | String c s' =>
      if Ascii.eqb c PLUS then (if is_empty_str s' then None else parse_digits 0 s') else parse_digits 0 s
  end.

Lemma digit_value_char d : d < 10 → digit_value (pretty_N_char d) = Some d.
Proof.
  intros Hd. assert (d ∈ [0; 1; 2; 3; 4; 5; 6; 7; 8; 9]) as H by (rewrite !elem_of_cons; lia).
  repeat (apply elem_of_cons in H as [->|H]; [done|]). by apply not_elem_of_nil in H.
Qed.

Lemma parse_digits_go x : ∀ s, x ≤ u64_max → parse_digits 0 (pretty_N_go x s) = parse_digits x s.
Proof.
  induction (N.lt_wf_0 x) as [x _ IH]. intros s Hx.
  destruct (decide (x = 0)) as [->|Hne]; [by rewrite pretty_N_go_0|].
  pose proof (N.div_mod x 10 ltac:(done)). pose proof (N.mod_lt x 10 ltac:(done)).
  rewrite pretty_N_go_step by lia. assert (x / 10 < x) as Hlt by (apply N.div_lt; lia).
  rewrite (IH (x / 10)); [|exact Hlt|exact (N.le_trans _ _ _ (N.lt_le_incl _ _ Hlt) Hx)].
  cbn [parse_digits]. rewrite digit_value_char by lia.
  replace (x / 10 * 10 + x mod 10) with x by lia. by rewrite (proj2 (N.leb_le _ _)).
Qed.

Lemma parse_u64_digits s n :
  s ≠ "" → parse_digits 0 s = Some n → parse_u64 s = Some n.
Proof.
  destruct s as [|c s]; [done|]. intros _ H. cbn [parse_u64].
  destruct (Ascii.eqb_spec c PLUS) as [->|]; [done|exact H].
Qed.

(** Printing then parsing a [u64] gives it back. *)
Lemma parse_u64_pretty (n : N) : n ≤ u64_max → parse_u64 (pretty n) = Some n.
Proof.
  intros Hn. destruct (decide (n = 0)) as [->|Hne]; [done|].
  assert (parse_digits 0 (pretty n) = Some n) as Hp.
  { unfold pretty, pretty_N. rewrite decide_False by done. by rewrite parse_digits_go. }
  apply parse_u64_digits; [|done]. intros E. rewrite E in Hp. simpl in Hp. congruence.
Qed.
