(* ===== verification/Request.v ===== *)
(** Requests that thread a state and may fail: the state and error monad in which the handlers
    of src/ are written here, an [async fn] returning [QidResult] over shared state. *)

From S2P Require Import Prelude.

Module Request.

Definition M (S A : Type) : Type := S → QidResult A * S.

Definition ret {S A} (a : A) : M S A := fun st => (Ok a, st).
Definition throw {S A} (e : QidError) : M S A := fun st => (Err e, st).
Definition bind {S A B} (m : M S A) (k : A → M S B) : M S B :=
  fun st => match m st with (Ok a, st') => k a st' | (Err e, st') => (Err e, st') end.
Definition get_state {S} : M S S := fun st => (Ok st, st).
Definition of_result {S A} (r : QidResult A) : M S A := fun st => (r, st).

(** [let _ = m.await;]: the outcome is dropped, its effects are not. *)
Definition ignore {S A} (m : M S A) : M S unit := fun st => (Ok tt, (m st).2).

(** [let! x := m in k] is [let x = m.await?; k]. *)
Notation "'let!' x := m 'in' k" := (bind m (fun x => k)) (at level 10, x name, k at level 200).
Notation "'let!' '_' := m 'in' k" := (bind m (fun _ => k)) (at level 10, k at level 200).

(** ** Lemmas *)

Lemma bind_inv {S A B} (m : M S A) (k : A → M S B) st b st' :
  bind m k st = (Ok b, st') → ∃ a st1, m st = (Ok a, st1) ∧ k a st1 = (Ok b, st').
Proof. unfold bind. destruct (m st) as [[a|e] st1]; [|done]. eauto. Qed.

Lemma bind_ok {S A B} (m : M S A) (k : A → M S B) st a st1 :
  m st = (Ok a, st1) → bind m k st = k a st1.
Proof. unfold bind. by intros ->. Qed.

Lemma of_result_inv {S A} (r : QidResult A) (st : S) a st' : of_result r st = (Ok a, st') → r = Ok a ∧ st' = st.
Proof. unfold of_result. by intros [= -> ->]. Qed.

(** What every state a request passes through satisfies. *)
Definition preserves {S A} (P : S → S → Prop) (m : M S A) : Prop := ∀ st, P st (m st).2.

Section Preserves.
Context {S : Type} (P : S → S → Prop) `{!PreOrder P}.

Lemma preserves_ret {A} (a : A) : preserves P (ret a).
Proof. intros st. cbn. reflexivity. Qed.
Lemma preserves_throw {A} e : preserves P (throw (A := A) e).
Proof. intros st. cbn. reflexivity. Qed.
Lemma preserves_get : preserves P get_state.
Proof. intros st. cbn. reflexivity. Qed.
Lemma preserves_of_result {A} (r : QidResult A) : preserves P (of_result r).
Proof. intros st. cbn. reflexivity. Qed.
Lemma preserves_ignore {A} (m : M S A) : preserves P m → preserves P (ignore m).
Proof. intros H st. apply H. Qed.

Lemma preserves_bind {A B} (m : M S A) (k : A → M S B) :
  preserves P m → (∀ a, preserves P (k a)) → preserves P (bind m k).
Proof.
  intros Hm Hk st. unfold bind. specialize (Hm st). destruct (m st) as [[a|e] st1]; cbn in *; [|done].
  by transitivity st1; [|apply Hk].
Qed.
End Preserves.

End Request.

Create HintDb request.
#[export] Hint Resolve Request.preserves_ret Request.preserves_throw Request.preserves_get Request.preserves_of_result
  Request.preserves_ignore Request.preserves_bind : request.
