(* ===== verification/Utf8.v ===== *)
(** Characters and UTF-8: what the code uses of Rust's [char], [str::chars],
    [char::encode_utf8], [String::from_utf8] and [str::trim].  A [char] is the
    [N] of its Unicode scalar value. *)

From S2P Require Import Prelude.

Module Utf8.

Definition char : Type := N.

(** Unicode scalar values. *)
Definition is_scalar (c : char) : bool :=
  (c <? 0xD800) || ((0xE000 <=? c) && (c <=? 0x10FFFF)).

(** [char::encode_utf8] *)
Definition encode_char (c : char) : list N :=
  if c <? 0x80 then [c]
  else if c <? 0x800 then [0xC0 + c / 64; 0x80 + c mod 64]
  else if c <? 0x10000 then [0xE0 + c / 4096; 0x80 + (c / 64) mod 64; 0x80 + c mod 64]
  else [0xF0 + c / 262144; 0x80 + (c / 4096) mod 64; 0x80 + (c / 64) mod 64; 0x80 + c mod 64].

Definition encode (cs : list char) : list N := concat (map encode_char cs).

Definition is_cont (b : N) : bool := (0x80 <=? b) && (b <=? 0xBF).

(** [String::from_utf8]: no overlong form, no surrogate, nothing above U+10FFFF. *)
Fixpoint decode (bytes : list N) : option (list char) :=
  match bytes with
  | [] => Some []
  | b0 :: r0 =>
    if b0 <? 0x80 then cons b0 <$> decode r0
    else if (0xC2 <=? b0) && (b0 <=? 0xDF) then
      match r0 with
      | b1 :: r1 =>
          if is_cont b1 then cons ((b0 - 0xC0) * 64 + (b1 - 0x80)) <$> decode r1 else None
      | _ => None
      end
    else if (0xE0 <=? b0) && (b0 <=? 0xEF) then
      match r0 with
      | b1 :: b2 :: r2 =>
          let c := (b0 - 0xE0) * 4096 + (b1 - 0x80) * 64 + (b2 - 0x80) in
          if is_cont b1 && is_cont b2 && (0x800 <=? c) && is_scalar c
          then cons c <$> decode r2 else None
      | _ => None
      end
    else if (0xF0 <=? b0) && (b0 <=? 0xF4) then
      match r0 with
      | b1 :: b2 :: b3 :: r3 =>
          let c := (b0 - 0xF0) * 262144 + (b1 - 0x80) * 4096 + (b2 - 0x80) * 64 + (b3 - 0x80) in
          if is_cont b1 && is_cont b2 && is_cont b3 && (0x10000 <=? c) && (c <=? 0x10FFFF)
          then cons c <$> decode r3 else None
      | _ => None
      end
    else None
  end.

(** The bytes of a [str], and back. *)
Fixpoint str_bytes (s : string) : list N :=
  match s with
  | EmptyString => []
  | String a s' => Ascii.N_of_ascii a :: str_bytes s'
  end.

Fixpoint bytes_str (bs : list N) : string :=
  match bs with
  | [] => EmptyString
  | b :: bs' => String (Ascii.ascii_of_N b) (bytes_str bs')
  end.

(** [str::chars] (a Rust [str] is valid UTF-8). *)
Definition chars (s : string) : list char := default [] (decode (str_bytes s)).

(** [char::is_whitespace]: the Unicode property White_Space. *)
Definition is_whitespace (c : char) : bool :=
  ((9 <=? c) && (c <=? 13)) || (c =? 32) || (c =? 0x85) || (c =? 0xA0) || (c =? 0x1680)
  || ((0x2000 <=? c) && (c <=? 0x200A)) || (c =? 0x2028) || (c =? 0x2029) || (c =? 0x202F)
  || (c =? 0x205F) || (c =? 0x3000).

(** [char::is_control]: the general category Cc. *)
Definition is_control (c : char) : bool := (c <? 32) || ((127 <=? c) && (c <=? 159)).

Fixpoint trim_start (cs : list char) : list char :=
  match cs with
  | [] => []
  | c :: cs' => if is_whitespace c then trim_start cs' else cs
  end.

(** [str::trim] on characters. *)
Definition trim (cs : list char) : list char := rev (trim_start (rev (trim_start cs))).

(** [str::trim] *)
Definition trim_str (s : string) : string := bytes_str (encode (trim (chars s))).

(** [s.trim().is_empty()] *)
Definition blank (s : string) : bool := forallb is_whitespace (chars s).

(** [require_non_empty] of src/qid-core/src/models/validation.rs. *)
Definition require_non_empty (label value : string) : QidResult unit :=
  if blank value then Err (BadRequest (label +:+ " must not be empty")) else Ok tt.

(** * Lemmas *)

Ltac Zify.zify_post_hook ::= Z.to_euclidean_division_equations.

Lemma decode_encode_char c rest :
  is_scalar c = true → decode (encode_char c ++ rest) = cons c <$> decode rest.
Proof.
  unfold is_scalar, encode_char. intros Hs.
  destruct (N.ltb_spec c 0x80) as [H1|H1].
  { simpl. by rewrite (proj2 (N.ltb_lt c 0x80)). }
  destruct (N.ltb_spec c 0x800) as [H2|H2].
  { cbn [app decode]. unfold is_cont.
    rewrite (proj2 (N.ltb_ge (0xC0 + c / 64) 0x80)) by lia.
    rewrite !(proj2 (N.leb_le _ _)) by lia. cbn [andb].
    do 2 f_equal. lia. }
  destruct (N.ltb_spec c 0x10000) as [H3|H3].
  { cbn [app decode]. unfold is_cont.
    rewrite (proj2 (N.ltb_ge (0xE0 + c / 4096) 0x80)) by lia.
    rewrite (proj2 (N.leb_gt (0xE0 + c / 4096) 0xDF)) by lia. rewrite andb_false_r.
    replace ((0xE0 + c / 4096 - 0xE0) * 4096 + (0x80 + (c / 64) mod 64 - 0x80) * 64
      + (0x80 + c mod 64 - 0x80)) with c by lia.
    unfold is_scalar. rewrite Hs.
    by rewrite !(proj2 (N.leb_le _ _)) by lia. }
  cbn [app decode]. unfold is_cont.
  assert (c ≤ 0x10FFFF) as Hc.
  { apply orb_true_iff in Hs as [Hs%N.ltb_lt|[_ Hs%N.leb_le]%andb_true_iff]; lia. }
  rewrite (proj2 (N.ltb_ge (0xF0 + c / 262144) 0x80)) by lia.
  rewrite (proj2 (N.leb_gt (0xF0 + c / 262144) 0xDF)) by lia.
  rewrite (proj2 (N.leb_gt (0xF0 + c / 262144) 0xEF)) by lia. rewrite !andb_false_r.
  replace ((0xF0 + c / 262144 - 0xF0) * 262144 + (0x80 + (c / 4096) mod 64 - 0x80) * 4096
    + (0x80 + (c / 64) mod 64 - 0x80) * 64 + (0x80 + c mod 64 - 0x80)) with c by lia.
  by rewrite !(proj2 (N.leb_le _ _)) by lia.
Qed.

(** Decoding inverts encoding on scalar values. *)
Lemma decode_encode cs : Forall (fun c => is_scalar c = true) cs → decode (encode cs) = Some cs.
Proof.
  unfold encode. induction 1 as [|c cs Hc Hcs IH]; [done|].
  cbn [map concat]. rewrite decode_encode_char by done. by rewrite IH.
Qed.

Lemma encode_app a b : encode (a ++ b) = encode a ++ encode b.
Proof. unfold encode. by rewrite map_app, concat_app. Qed.

Lemma trim_start_suffix cs : ∃ p, cs = p ++ trim_start cs ∧ Forall (fun c => is_whitespace c = true) p.
Proof.
  induction cs as [|c cs [p [Hp HF]]]; simpl; [by exists []|].
  destruct (is_whitespace c) eqn:Hc; [|by exists []].
  exists (c :: p). split; [exact (f_equal (cons c) Hp)|by constructor].
Qed.

(** A text that starts and ends with non-blank characters is its own trim. *)
Lemma trim_id c cs d :
  is_whitespace c = false → is_whitespace d = false → trim (c :: cs ++ [d]) = c :: cs ++ [d].
Proof.
  intros Hc Hd. unfold trim. simpl. rewrite Hc. simpl. rewrite rev_app_distr. simpl. rewrite Hd.
  simpl. rewrite rev_app_distr, rev_involutive. done.
Qed.

Lemma cons_fmap_Some {A} (x : A) o cs : cons x <$> o = Some cs → ∃ r, o = Some r ∧ cs = x :: r.
Proof. destruct o; simpl; naive_solver. Qed.

(** Decoding yields scalar values only, one at least per byte sequence. *)
Lemma decode_scalar bs : ∀ cs,
  decode bs = Some cs → Forall (fun c => is_scalar c = true) cs ∧ (cs = [] → bs = []).
Proof.
  induction bs as [bs IH] using (induction_ltof1 _ (@length N)). unfold ltof in IH.
  intros cs H. destruct bs as [|b0 r0]; [by injection H as <-|].
  cbn [decode] in H.
  assert (∀ c r, (length r < length (b0 :: r0))%nat → is_scalar c = true →
    cons c <$> decode r = Some cs → Forall (fun c => is_scalar c = true) cs ∧ (cs = [] → b0 :: r0 = [])) as Hcons.
  { intros c r Hr Hc (cs' & Hd & ->)%cons_fmap_Some. split; [|done].
    constructor; [done|]. by apply (IH r Hr). }
  destruct (N.ltb_spec b0 0x80).
  { apply (Hcons b0 r0); [simpl; lia| |done]. unfold is_scalar. by rewrite (proj2 (N.ltb_lt b0 _)) by lia. }
  destruct ((0xC2 <=? b0) && (b0 <=? 0xDF)) eqn:E1.
  { apply andb_true_iff in E1 as [?%N.leb_le ?%N.leb_le]. destruct r0 as [|b1 r1]; [done|].
    destruct (is_cont b1) eqn:E; [|done]. apply andb_true_iff in E as [?%N.leb_le ?%N.leb_le].
    eapply Hcons; [| |exact H]; [simpl; lia|]. unfold is_scalar. by rewrite (proj2 (N.ltb_lt _ 0xD800)) by lia. }
  destruct ((0xE0 <=? b0) && (b0 <=? 0xEF)) eqn:E2.
  { destruct r0 as [|b1 [|b2 r2]]; [done..|]. cbv zeta in H.
    destruct (_ && is_scalar _) eqn:E; [|done]. apply andb_true_iff in E as [_ E].
    eapply Hcons; [| |exact H]; [simpl; lia|done]. }
  destruct ((0xF0 <=? b0) && (b0 <=? 0xF4)) eqn:E3; [|done].
  destruct r0 as [|b1 [|b2 [|b3 r3]]]; [done..|]. cbv zeta in H.
  destruct (_ && (_ <=? 0x10FFFF)) eqn:E; [|done].
  apply andb_true_iff in E as [[_ E1'%N.leb_le]%andb_true_iff E2'%N.leb_le].
  eapply Hcons; [| |exact H]; [simpl; lia|].
  unfold is_scalar. apply orb_true_iff. right. apply andb_true_iff. split; apply N.leb_le; lia.
Qed.

Lemma str_bytes_app a b : str_bytes (a +:+ b) = str_bytes a ++ str_bytes b.
Proof. induction a as [|c a IH]; [done|]. exact (f_equal (cons _) IH). Qed.

(** ASCII texts are their own characters. *)
Lemma decode_ascii bs : Forall (fun b => b < 128) bs → decode bs = Some bs.
Proof.
  induction 1 as [|b bs Hb _ IH]; [done|]. cbn [decode].
  rewrite (proj2 (N.ltb_lt b 0x80)) by done. by rewrite IH.
Qed.

Lemma encode_ascii bs : Forall (fun b => b < 128) bs → encode bs = bs.
Proof.
  induction 1 as [|b bs Hb _ IH]; [done|]. unfold encode in *. cbn [map concat].
  rewrite IH. unfold encode_char. by rewrite (proj2 (N.ltb_lt b 0x80)) by done.
Qed.

Lemma bytes_str_of_bytes s : bytes_str (str_bytes s) = s.
Proof. induction s as [|a s IH]; [done|]. cbn. by rewrite Ascii.ascii_N_embedding, IH. Qed.

Lemma bytes_str_inj a : ∀ b, Forall (fun x => x < 256) a → Forall (fun x => x < 256) b →
  bytes_str a = bytes_str b → a = b.
Proof.
  induction a as [|x a IH]; intros [|y b]; try done. intros Ha Hb [= Hx Hs].
  apply Forall_cons in Ha as [Hx' Ha]. apply Forall_cons in Hb as [Hy' Hb]. f_equal; [|by apply IH].
  rewrite <- (Ascii.N_ascii_embedding x), <- (Ascii.N_ascii_embedding y) by done. congruence.
Qed.

End Utf8.
