(* ===== verification/Json.v ===== *)
(** JSON values as the policy engine sees them.

    [serde_json] is a third-party crate: its number type is opaque and is used
    only through [as_u64], [as_i64], [as_f64] and equality, so it is a parameter
    here, with the documented behaviour the code relies on as the class
    [JsonNumberLaws].  [SerdeNumber] is a concrete instance.  An object is the
    list of its entries in the crate's iteration order (keys in byte order, one
    entry per key). *)

From S2P Require Import Prelude.
From Stdlib Require Import ZArith SpecFloat.

(** ** Numbers *)

Class JsonNumber (Num : Type) : Type := {
  as_u64 : Num → option N;
  as_i64 : Num → option Z;
  as_f64 : Num → option spec_float;
  num_eqb : Num → Num → bool;
  num_from_u64 : N → Num
}.

(** What the code relies on: a number built from a [u64] reads back as that
    [u64], and equal numbers are the only ones that compare equal to it. *)
Class JsonNumberLaws (Num : Type) `{JsonNumber Num} : Prop := {
  as_u64_from_u64 : ∀ n, n ≤ u64_max → as_u64 (num_from_u64 n) = Some n;
  num_eqb_from_u64 : ∀ n m, n ≤ u64_max → m ≤ u64_max →
    num_eqb (num_from_u64 n) (num_from_u64 m) = (n =? m)
}.

(** Rust's [f64::partial_cmp] on binary64 values. *)
Definition f64_partial_cmp (x y : spec_float) : option comparison := SFcompare x y.

(** Rust's [as f64]: round to nearest, ties to even. *)
Definition z_to_f64 (z : Z) : spec_float := binary_normalize 53 1024 z 0 false.

(** ** Values *)

Inductive Value (Num : Type) : Type :=
| VNull
| VBool (b : bool)
| VNumber (n : Num)
| VString (s : string)
| VArray (items : list (Value Num))
| VObject (entries : list (string * Value Num)).
Arguments VNull {Num}.
Arguments VBool {Num} _.
Arguments VNumber {Num} _.
Arguments VString {Num} _.
Arguments VArray {Num} _.
Arguments VObject {Num} _.

Section Value.
Context {Num : Type} `{JsonNumber Num}.

(** [Value == Value] *)
Fixpoint value_eqb (a b : Value Num) {struct a} : bool :=
  match a, b with
  | VNull, VNull => true
  | VBool x, VBool y => Bool.eqb x y
  | VNumber x, VNumber y => num_eqb x y
  | VString x, VString y => String.eqb x y
  | VArray xs, VArray ys =>
      (fix go (xs ys : list (Value Num)) : bool :=
         match xs, ys with
         | [], [] => true
         | x :: xs', y :: ys' => value_eqb x y && go xs' ys'
         | _, _ => false
         end) xs ys
  | VObject xs, VObject ys =>
      (fix go (xs ys : list (string * Value Num)) : bool :=
         match xs, ys with
         | [], [] => true
         | (k, x) :: xs', (l, y) :: ys' => String.eqb k l && value_eqb x y && go xs' ys'
         | _, _ => false
         end) xs ys
  | _, _ => false
  end.

(** [Map::get] *)
Fixpoint obj_get (entries : list (string * Value Num)) (key : string) : option (Value Num) :=
  match entries with
  | [] => None
  | (k, v) :: rest => if String.eqb k key then Some v else obj_get rest key
  end.

(** [Map::contains_key] *)
Definition obj_contains_key (entries : list (string * Value Num)) (key : string) : bool :=
  str_in key (map fst entries).

(** Nesting depth, the fuel of the recursive readers below. *)
Fixpoint value_depth (v : Value Num) : nat :=
  match v with
  | VArray items => S (list_max (map value_depth items))
  | VObject entries => S (list_max (map (fun e => value_depth (snd e)) entries))
  | _ => 1%nat
  end.

End Value.

(** ** A concrete number type: the crate's three shapes *)

Inductive SerdeNumber : Type :=
| PosInt (n : N)
| NegInt (z : Z)
| Float (f : spec_float).

#[global] Instance SerdeNumber_JsonNumber : JsonNumber SerdeNumber := {|
  as_u64 x := match x with PosInt n => Some n | _ => None end;
  as_i64 x := match x with
              | PosInt n => if fits_i64 n then Some (Z.of_N n) else None
              | NegInt z => Some z
              | Float _ => None
              end;
  as_f64 x := match x with
              | PosInt n => Some (z_to_f64 (Z.of_N n))
              | NegInt z => Some (z_to_f64 z)
              | Float f => Some f
              end;
  num_eqb x y := match x, y with
                 | PosInt a, PosInt b => a =? b
                 | NegInt a, NegInt b => Z.eqb a b
                 | Float a, Float b => SFeqb a b
                 | _, _ => false
                 end;
  num_from_u64 n := PosInt n
|}.

#[global] Instance SerdeNumber_JsonNumberLaws : JsonNumberLaws SerdeNumber.
Proof. by split. Qed.

(** ** Lemmas *)

Section ValueLemmas.
Context {Num : Type} `{JsonNumber Num}.

Lemma value_eqb_string (s t : string) :
  value_eqb (VString s) (VString t : Value Num) = String.eqb s t.
Proof. done. Qed.

Lemma obj_contains_key_get (o : list (string * Value Num)) k :
  obj_contains_key o k = true ↔ is_Some (obj_get o k).
Proof.
  unfold obj_contains_key. rewrite str_in_spec.
  induction o as [|[k' v] o IH]; simpl.
  - split; [by intros ?%not_elem_of_nil | by intros [? ?]].
  - rewrite elem_of_cons. destruct (String.eqb_spec k' k) as [->|Hne].
    + split; [by eexists | by left].
    + rewrite IH. naive_solver.
Qed.

Lemma value_depth_item items (v : Value Num) :
  v ∈ items → (value_depth v < value_depth (VArray items))%nat.
Proof.
  intros Hv. simpl. apply Nat.lt_succ_r, list_max_elem_of.
  by apply list_elem_of_In, in_map, list_elem_of_In.
Qed.

Lemma value_depth_get o k (v : Value Num) :
  obj_get o k = Some v → (value_depth v < value_depth (VObject o))%nat.
Proof.
  intros Hv. simpl. apply Nat.lt_succ_r, list_max_elem_of.
  induction o as [|[k' w] o IH]; simpl in *; [done|].
  rewrite elem_of_cons.
  destruct (String.eqb k' k); [simplify_eq; by left | right; by auto].
Qed.

End ValueLemmas.

(** ** Values as trees

    With a countable number type, values can be compared and encoded: a value as a tree whose leaves are
    its scalars and keys. *)

Section ValueTree.
Context {Num : Type} `{Countable Num}.

Abbreviation leaf := (bool + Num + string)%type.

Fixpoint value_tree (v : Value Num) : gen_tree leaf :=
  match v with
  | VNull => GenNode 0 []
  | VBool b => GenLeaf (inl (inl b))
  | VNumber n => GenLeaf (inl (inr n))
  | VString s => GenLeaf (inr s)
  | VArray items => GenNode 1 (map value_tree items)
  | VObject entries => GenNode 2 (map (fun e => GenNode 3 [GenLeaf (inr (fst e)); value_tree (snd e)]) entries)
  end.

Fixpoint tree_value (t : gen_tree leaf) : Value Num :=
  match t with
  | GenLeaf (inl (inl b)) => VBool b
  | GenLeaf (inl (inr n)) => VNumber n
  | GenLeaf (inr s) => VString s
  | GenNode 1 l => VArray (map tree_value l)
  | GenNode 2 l => VObject (map (fun t => match t with
                                         | GenNode _ [GenLeaf (inr k); v] => (k, tree_value v)
                                         | _ => (""%string, VNull)
                                         end) l)
  | GenNode _ _ => VNull
  end.

Fixpoint tree_value_tree (v : Value Num) : tree_value (value_tree v) = v.
Proof.
  destruct v as [|b|n|s|items|entries]; cbn; try done.
  - f_equal. induction items as [|v items IH]; cbn; [done|]. by rewrite tree_value_tree, IH.
  - f_equal. induction entries as [|[k v] entries IH]; cbn; [done|]. by rewrite tree_value_tree, IH.
Qed.

#[export] Instance value_eq_dec : EqDecision (Value Num).
Proof.
  refine (fun a b => match decide (value_tree a = value_tree b) with left e => left _ | right n => right _ end).
  - rewrite <- (tree_value_tree a), <- (tree_value_tree b). by rewrite e.
  - intros ->. done.
Defined.

#[export] Instance value_countable : Countable (Value Num) := inj_countable' value_tree tree_value tree_value_tree.
End ValueTree.

(** ** Building and reading objects *)

Section Objects.
Context {Num : Type}.

(** [Map::insert]: replaces the value of a key, or adds the key at its place in the order. *)
Fixpoint obj_insert (key : string) (v : Value Num) (entries : list (string * Value Num)) : list (string * Value Num) :=
  match entries with
  | [] => [(key, v)]
  | (k, w) :: rest =>
      if String.eqb k key then (key, v) :: rest
      else if str_leb key k then (key, v) :: (k, w) :: rest
      else (k, w) :: obj_insert key v rest
  end.

(** [Map::remove] *)
Definition obj_remove (key : string) (entries : list (string * Value Num)) : list (string * Value Num) :=
  List.filter (fun e => negb (String.eqb (fst e) key)) entries.

(** [Value::get] of a key, which is absent unless the value is an object. *)
Definition value_get (key : string) (v : Value Num) : option (Value Num) :=
  match v with VObject o => obj_get o key | _ => None end.

Definition value_str (v : Value Num) : option string := match v with VString s => Some s | _ => None end.
Definition value_bool (v : Value Num) : option bool := match v with VBool b => Some b | _ => None end.

(** [as_array().into_iter().flatten()] *)
Definition value_items (v : Value Num) : list (Value Num) := match v with VArray l => l | _ => [] end.

(** [as_object().cloned().unwrap_or_default()] *)
Definition obj_or_default (v : Value Num) : list (string * Value Num) := match v with VObject o => o | _ => [] end.

Lemma obj_get_insert key v (o : list (string * Value Num)) j :
  obj_get (obj_insert key v o) j = if String.eqb key j then Some v else obj_get o j.
Proof.
  induction o as [|[k w] o IH]; cbn; [done|].
  destruct (String.eqb_spec k key) as [->|Hk]; cbn; [by destruct (String.eqb key j)|].
  destruct (str_leb key k); cbn; [done|]. rewrite IH.
  destruct (String.eqb_spec k j) as [->|]; [|done]. by rewrite (proj2 (String.eqb_neq key j)) by done.
Qed.

Lemma obj_get_remove key (o : list (string * Value Num)) j :
  obj_get (obj_remove key o) j = if String.eqb key j then None else obj_get o j.
Proof.
  unfold obj_remove. induction o as [|[k w] o IH]; cbn; [by destruct (String.eqb key j)|].
  destruct (String.eqb_spec k key) as [->|Hk]; cbn; rewrite IH; [by destruct (String.eqb key j)|].
  destruct (String.eqb_spec k j) as [->|]; [|done]. by rewrite (proj2 (String.eqb_neq key j)) by done.
Qed.
End Objects.
