(* ===== verification/Policy.v ===== *)
(** The native policy engine (src/qid-policy/src/models.rs and native.rs):
    decisions, policy contexts, the strict JSON reader of expressions, the
    three-valued evaluation of conditions and expressions, and
    [NativePolicyEngine::decide].

    The JSON number type is a parameter (see Json.v) and the ReBAC evaluator a
    value of the record [RebacEvaluator], which Rebac.v implements.  Futures are
    awaited one after the other, so an [async fn] is the function it computes;
    the duration metric is not modelled. *)

From S2P Require Import Prelude Json.
From Stdlib Require Import ZArith SpecFloat.

Module NativePolicy.

(** * Data *)

Inductive Decision : Type :=
| Allow
| Deny
| StepUp
| ConsentRequired
| LocalResponse
| ApprovalRequired
| Quarantine
| AuditOnly
| Conditional.

#[global] Instance Decision_eq_dec : EqDecision Decision.
Proof. solve_decision. Defined.

Inductive DecisionCacheClass : Type := Positive | Negative.

Definition decision_as_str (d : Decision) : string :=
  match d with
  | Allow => "allow"
  | Deny => "deny"
  | StepUp => "step_up"
  | ConsentRequired => "consent_required"
  | LocalResponse => "local_response"
  | ApprovalRequired => "approval_required"
  | Quarantine => "quarantine"
  | AuditOnly => "audit_only"
  | Conditional => "conditional"
  end.

Definition decision_cache_class (d : Decision) : DecisionCacheClass :=
  match d with
  | Allow | AuditOnly | Quarantine => Positive
  | Deny | StepUp | ConsentRequired | LocalResponse | ApprovalRequired | Conditional => Negative
  end.

Definition decision_parse (name : string) : option Decision :=
  if String.eqb name "allow" then Some Allow
  else if String.eqb name "deny" then Some Deny
  else if String.eqb name "step_up" then Some StepUp
  else if String.eqb name "consent_required" then Some ConsentRequired
  else if String.eqb name "local_response" then Some LocalResponse
  else if String.eqb name "approval_required" then Some ApprovalRequired
  else if String.eqb name "quarantine" then Some Quarantine
  else if String.eqb name "audit_only" then Some AuditOnly
  else if String.eqb name "conditional" then Some Conditional
  else None.

Record PepPolicyActions : Type := {
  override_upstream : option string;
  timeout_override_ms : option N;
  mirror_upstreams : list string;
  force_inspect : option bool;
  force_tunnel : option bool;
  cache_bypass : option bool
}.

Definition pep_default : PepPolicyActions := {|
  override_upstream := None; timeout_override_ms := None; mirror_upstreams := [];
  force_inspect := None; force_tunnel := None; cache_bypass := None
|}.

Definition is_none {A} (o : option A) : bool :=
  match o with Some _ => false | None => true end.

Definition pep_is_empty (p : PepPolicyActions) : bool :=
  is_none (override_upstream p) && is_none (timeout_override_ms p)
  && match mirror_upstreams p with [] => true | _ => false end
  && is_none (force_inspect p) && is_none (force_tunnel p) && is_none (cache_bypass p).

Inductive RuleType : Type := RAllow | RForbid | RStepUp.

#[global] Instance RuleType_eq_dec : EqDecision RuleType.
Proof. solve_decision. Defined.

(** The trait [RebacEvaluator]: one asynchronous check that may fail. *)
Record RebacEvaluator : Type := {
  evaluator_check : string → string → string → string → string → QidResult bool
}.

Record PolicyContext : Type := {
  subject_id : option string;
  groups : list string;
  roles : list string;
  entitlements : list string;
  device_id : option string;
  posture : list string;
  acr : option string;
  auth_age_seconds : option N;
  risk_score : option N;
  resource_host : option string;
  resource_action : option string;
  pep_registration : option string
}.

Definition context_default : PolicyContext := {|
  subject_id := None; groups := []; roles := []; entitlements := []; device_id := None;
  posture := []; acr := None; auth_age_seconds := None; risk_score := None;
  resource_host := None; resource_action := None; pep_registration := None
|}.

Definition in_group (ctx : PolicyContext) (group_name : string) : bool :=
  existsb (fun g => String.eqb g group_name) (groups ctx).

Definition ctx_action_matches (ctx : PolicyContext) (action_pattern : string) : bool :=
  match resource_action ctx with
  | Some actual => if String.eqb action_pattern "*" then true else String.eqb action_pattern actual
  | None => false
  end.

Definition glob_match (pattern value : string) : bool :=
  if String.eqb pattern "*" then true
  else match strip_prefix "*." pattern with
  | Some suffix => String.eqb value suffix || ends_with ("." +:+ suffix) value
  | None =>
      match strip_suffix "/*" pattern with
      | Some prefix => String.eqb value prefix || starts_with (prefix +:+ "/") value
      | None => String.eqb pattern value
      end
  end.

Definition ctx_host_matches (ctx : PolicyContext) (host_pattern : string) : bool :=
  match resource_host ctx with
  | Some actual => glob_match host_pattern actual
  | None => false
  end.

Section Policy.
Context {Num : Type} `{JsonNumber Num}.

Record TypedObligation : Type := {
  ob_namespace : string; ob_version : string; ob_name : string;
  ob_capability : option string; ob_payload : Value Num
}.

Record DecisionContextExtension : Type := {
  ext_evaluator : option string; ext_reason_admin : option string;
  ext_reason_user : option string; ext_extra : gmap string (Value Num)
}.

Record DecisionDetails : Type := {
  decision : Decision;
  policy_id : string;
  dd_rate_limit_profile : option string;
  policy_tags : list string;
  dd_inject_headers : option (gmap string string);
  dd_pep : PepPolicyActions;
  matched_rules : list string;
  trace : list string;
  obligations : list TypedObligation;
  context : option DecisionContextExtension
}.

Record Condition : Type := {
  field : string;
  op : string;
  value : Value Num
}.

Inductive Expression : Type :=
| ECondition (c : Condition)
| EAnd (and : list Expression)
| EOr (or : list Expression)
| ENot (not : Expression)
| EInGroup (in_group : string)
| EMatchAction (action : string)
| ERebacCheck (namespace object_id relation subject_namespace : string).

Record Rule : Type := {
  name : string;
  rule_type : RuleType;
  action : string;
  rule_resource_host : option string;
  conditions : list Condition;
  expression : option Expression;
  rate_limit_profile : option string;
  inject_headers : option (gmap string string);
  pep : PepPolicyActions
}.

Record PolicyBundle : Type := {
  version : string;
  rules : list Rule;
  default_decision : Decision
}.

Record NativePolicyEngine : Type := {
  bundle : option PolicyBundle;
  bundle_id : string;
  rebac_evaluator : option RebacEvaluator
}.

(** * Reading an expression from JSON *)

Definition EXPRESSION_SHAPES : list (string * list string) := [
  ("and", ["and"]);
  ("or", ["or"]);
  ("not", ["not"]);
  ("in_group", ["in_group"]);
  ("action", ["action"]);
  ("condition", ["field"; "op"; "value"]);
  ("rebac", ["namespace"; "object_id"; "relation"; "subject_namespace"])
].

Definition expression_value (object : list (string * Value Num)) (key : string)
  : result (Value Num) string :=
  ok_or (obj_get object key) ("policy expression is missing key `" +:+ key +:+ "`").

Definition expression_string (object : list (string * Value Num)) (key : string)
  : result string string :=
  let? v := expression_value object key in
  match v with
  | VString s => Ok s
  | _ => Err ("policy expression key `" +:+ key +:+ "` must be a string")
  end.

(** [enumerate().map(...).collect()] of [expression_list], from index [i]. *)
Fixpoint expression_items (parse : Value Num → result Expression string) (key : string)
    (i : nat) (items : list (Value Num)) : result (list Expression) string :=
  match items with
  | [] => Ok []
  | item :: rest =>
      let? e := map_err (fun error => "policy expression key `" +:+ key +:+ "` entry "
                                        +:+ pretty i +:+ ": " +:+ error) (parse item) in
      let? es := expression_items parse key (S i) rest in
      Ok (e :: es)
  end.

Definition expression_list (parse : Value Num → result Expression string)
    (object : list (string * Value Num)) (key : string) : result (list Expression) string :=
  let? v := expression_value object key in
  match v with
  | VArray items => expression_items parse key 0 items
  | _ => Err ("policy expression key `" +:+ key +:+ "` must be a list")
  end.

(** The recursion of [parse_expression] on nested values, with the nesting depth
    as fuel ([parse_expression] gives it enough, lemma [parse_fuel_enough]). *)
Fixpoint parse_expression_fuel (fuel : nat) (v : Value Num) : result Expression string :=
  match fuel with
  | O => Err "policy expression is nested too deeply"
  | S fuel' =>
    match v with
    | VObject object =>
      let known := concat (map snd EXPRESSION_SHAPES) in
      match List.find (fun key => negb (str_in key known)) (map fst object) with
      | Some unknown => Err ("policy expression has unknown key `" +:+ unknown +:+ "`")
      | None =>
        let selected := List.filter (fun '(_, keys) =>
            existsb (fun key => obj_contains_key object key) keys) EXPRESSION_SHAPES in
        match selected with
        | [] => Err "policy expression must carry `and`, `or`, `not`, `in_group`, `action`, `field`, or `namespace`"
        | [(nm, _)] =>
          if String.eqb nm "and" then
            let? l := expression_list (parse_expression_fuel fuel') object "and" in Ok (EAnd l)
          else if String.eqb nm "or" then
            let? l := expression_list (parse_expression_fuel fuel') object "or" in Ok (EOr l)
          else if String.eqb nm "not" then
            let? w := expression_value object "not" in
            let? e := parse_expression_fuel fuel' w in Ok (ENot e)
          else if String.eqb nm "in_group" then
            let? g := expression_string object "in_group" in Ok (EInGroup g)
          else if String.eqb nm "action" then
            let? a := expression_string object "action" in Ok (EMatchAction a)
          else if String.eqb nm "condition" then
            let? f := expression_string object "field" in
            let? o := expression_string object "op" in
            let? w := expression_value object "value" in
            Ok (ECondition {| field := f; op := o; value := w |})
          else
            let? n := expression_string object "namespace" in
            let? o := expression_string object "object_id" in
            let? r := expression_string object "relation" in
            let? s := expression_string object "subject_namespace" in
            Ok (ERebacCheck n o r s)
        | (n1, _) :: (n2, _) :: _ =>
            Err ("policy expression mixes `" +:+ n1 +:+ "` with `" +:+ n2 +:+ "`")
        end
      end
    | _ => Err "policy expression must be a JSON object"
    end
  end.

Definition parse_expression (v : Value Num) : result Expression string :=
  parse_expression_fuel (value_depth v) v.

(** * Evaluation *)

Definition resolve_field_path (ctx : PolicyContext) (path : string) : option (list (Value Num)) :=
  let normalized := default path (strip_prefix "context." path) in
  if str_in normalized ["group"; "groups"] then Some (map VString (groups ctx))
  else if str_in normalized ["role"; "roles"] then Some (map VString (roles ctx))
  else if str_in normalized ["posture"; "device.posture"] then Some (map VString (posture ctx))
  else if str_in normalized ["acr"; "auth.acr"] then (fun a => [VString a]) <$> acr ctx
  else if str_in normalized ["auth_age_seconds"; "auth.age_seconds"] then
    (fun a => [VNumber (num_from_u64 a)]) <$> auth_age_seconds ctx
  else if str_in normalized ["risk_score"; "risk.score"] then
    (fun s => [VNumber (num_from_u64 s)]) <$> risk_score ctx
  else if str_in normalized ["resource.host"] then (fun h => [VString h]) <$> resource_host ctx
  else if str_in normalized ["resource.action"] then (fun a => [VString a]) <$> resource_action ctx
  else if str_in normalized ["subject_id"; "subject"; "principal"] then
    (fun s => [VString s]) <$> subject_id ctx
  else if str_in normalized ["device_id"; "device.id"] then (fun d => [VString d]) <$> device_id ctx
  else if str_in normalized ["pep_registration"; "pep.registration"] then
    (fun r => [VString r]) <$> pep_registration ctx
  else None.

Definition numeric_compare (a b : Num) : option comparison :=
  match as_u64 a, as_u64 b with
  | Some x, Some y => Some (N.compare x y)
  | _, _ =>
    match as_i64 a, as_i64 b with
    | Some x, Some y => Some (Z.compare x y)
    | _, _ =>
      match as_f64 a, as_f64 b with
      | Some x, Some y => f64_partial_cmp x y
      | _, _ => None
      end
    end
  end.

(** The four ordering operators share one shape: the first evidence value and
    the threshold are numbers and [ord] accepts their order. *)
Definition compare_first (ord : comparison → bool) (vs : list (Value Num)) (threshold : Value Num) : bool :=
  match head vs, threshold with
  | Some (VNumber a), VNumber b =>
      match numeric_compare a b with Some o => ord o | None => false end
  | _, _ => false
  end.

Definition condition_matches (condition : Condition) (ctx : PolicyContext) : option bool :=
  match resolve_field_path ctx (field condition) with
  | None => None
  | Some vs =>
    let o := op condition in
    let w := value condition in
    Some (
      if str_in o ["equals"; "=="] then existsb (fun v => value_eqb v w) vs
      else if str_in o ["contains"; "has"] then
        existsb (fun v => match v, w with
                          | VString s, VString target => String.eqb s target
                          | _, _ => false
                          end) vs
      else if str_in o ["in"; "member_of"] then
        match w with
        | VArray arr => existsb (fun v => existsb (fun x => value_eqb x v) arr) vs
        | VString group => in_group ctx group
        | _ => false
        end
      else if str_in o ["like"; "matches"] then
        match head vs, w with
        | Some (VString s), VString pattern => glob_match pattern s
        | _, _ => false
        end
      else if str_in o ["lt"; "<"] then
        compare_first (fun c => match c with Lt => true | _ => false end) vs w
      else if str_in o ["gt"; ">"] then
        compare_first (fun c => match c with Gt => true | _ => false end) vs w
      else if str_in o ["gte"; ">="] then
        compare_first (fun c => match c with Lt => false | _ => true end) vs w
      else if str_in o ["lte"; "<="] then
        compare_first (fun c => match c with Gt => false | _ => true end) vs w
      else false)
  end.

Fixpoint evaluate_expression (ctx : PolicyContext) (rebac : option RebacEvaluator)
    (expr : Expression) {struct expr} : option bool :=
  match expr with
  | ECondition c => condition_matches c ctx
  | EAnd es =>
      (fix loop (unknown : bool) (es : list Expression) : option bool :=
         match es with
         | [] => if unknown then None else Some true
         | e :: es' =>
             match evaluate_expression ctx rebac e with
             | Some false => Some false
             | None => loop true es'
             | Some true => loop unknown es'
             end
         end) false es
  | EOr es =>
      (fix loop (unknown : bool) (es : list Expression) : option bool :=
         match es with
         | [] => if unknown then None else Some false
         | e :: es' =>
             match evaluate_expression ctx rebac e with
             | Some true => Some true
             | None => loop true es'
             | Some false => loop unknown es'
             end
         end) false es
  | ENot e => negb <$> evaluate_expression ctx rebac e
  | EInGroup g => Some (in_group ctx g)
  | EMatchAction a => Some (ctx_action_matches ctx a)
  | ERebacCheck n o r sn =>
      match rebac with
      | None => None
      | Some ev =>
          match subject_id ctx with
          | None => None
          | Some sid => res_ok (evaluator_check ev n o r sn sid)
          end
      end
  end.

(** * The engine *)

Definition engine_new : NativePolicyEngine :=
  {| bundle := None; bundle_id := "default"; rebac_evaluator := None |}.

Definition engine_load (e : NativePolicyEngine) (b : PolicyBundle) (id : string) : NativePolicyEngine :=
  {| bundle := Some b; bundle_id := id; rebac_evaluator := rebac_evaluator e |}.

Definition with_rebac_evaluator (e : NativePolicyEngine) (ev : RebacEvaluator) : NativePolicyEngine :=
  {| bundle := bundle e; bundle_id := bundle_id e; rebac_evaluator := Some ev |}.

Definition native_action_matches (pattern action : string) : bool :=
  String.eqb pattern "*" || String.eqb pattern action.

Definition native_host_matches (pattern host : string) : bool :=
  if String.eqb pattern "*" then true
  else if starts_with "*." pattern then ends_with (str_skip 1 pattern) host
  else String.eqb pattern host.

Definition rule_matches (rule : Rule) (ctx : PolicyContext) (rebac : option RebacEvaluator) : bool :=
  if negb (native_action_matches (action rule) (default "" (resource_action ctx))) then false
  else if match rule_resource_host rule with
          | Some host => negb (native_host_matches host (default "" (resource_host ctx)))
          | None => false
          end then false
  else if negb (forallb (fun c => match condition_matches c ctx with
                                  | Some true => true | _ => false end) (conditions rule)) then false
  else if match expression rule with
          | Some expr => match evaluate_expression ctx rebac expr with
                         | Some true => false | _ => true end
          | None => false
          end then false
  else true.

(** One of the three loops of [decide]: every rule of type [ty] is traced and
    tested in order, until one matches. *)
Fixpoint scan_rules (ty : RuleType) (label : string) (ctx : PolicyContext)
    (rebac : option RebacEvaluator) (rs : list Rule) (tr : list string)
    : option Rule * list string :=
  match rs with
  | [] => (None, tr)
  | rule :: rs' =>
      if decide (rule_type rule = ty) then
        let tr1 := tr ++ ["Evaluating " +:+ label +:+ " rule: " +:+ name rule] in
        if rule_matches rule ctx rebac then
          (Some rule, tr1 ++ ["Rule " +:+ name rule +:+ ": MATCH (" +:+ label +:+ ")"])
        else scan_rules ty label ctx rebac rs' (tr1 ++ ["Rule " +:+ name rule +:+ ": no match"])
      else scan_rules ty label ctx rebac rs' tr
  end.

Definition matched_details (d : Decision) (label : string) (rule : Rule)
    (rl : option string) (hdrs : option (gmap string string)) (tr : list string) : DecisionDetails := {|
  obligations := []; context := None; decision := d; policy_id := name rule;
  dd_rate_limit_profile := rl;
  policy_tags := ["qid:" +:+ label +:+ ":" +:+ name rule];
  dd_inject_headers := hdrs; dd_pep := pep rule;
  matched_rules := [name rule]; trace := tr
|}.

Definition engine_decide (e : NativePolicyEngine) (ctx : PolicyContext) : DecisionDetails :=
  let rebac := rebac_evaluator e in
  let fallback tr :=
    let dflt := match bundle e with Some b => default_decision b | None => Deny end in
    {| obligations := []; context := None; decision := dflt; policy_id := bundle_id e;
       dd_rate_limit_profile := None;
       policy_tags := ["qid:default-" +:+ decision_as_str dflt];
       dd_inject_headers := None; dd_pep := pep_default; matched_rules := [];
       trace := tr ++ ["No matching rule; default " +:+ decision_as_str dflt] |} in
  match bundle e with
  | None => fallback []
  | Some b =>
      match scan_rules RForbid "forbid" ctx rebac (rules b) [] with
      | (Some rule, tr) => matched_details Deny "forbid" rule None None tr
      | (None, tr) =>
          match scan_rules RStepUp "step-up" ctx rebac (rules b) tr with
          | (Some rule, tr) => matched_details StepUp "step-up" rule None None tr
          | (None, tr) =>
              match scan_rules RAllow "allow" ctx rebac (rules b) tr with
              | (Some rule, tr) =>
                  matched_details Allow "allow" rule (rate_limit_profile rule) (inject_headers rule) tr
              | (None, tr) => fallback tr
              end
          end
      end
  end.

(** The trait's default method. *)
Definition engine_explain (e : NativePolicyEngine) (ctx : PolicyContext) : DecisionDetails :=
  engine_decide e ctx.

End Policy.

Arguments Expression : clear implicits.
Arguments Condition : clear implicits.
Arguments Rule : clear implicits.
Arguments PolicyBundle : clear implicits.
Arguments NativePolicyEngine : clear implicits.
Arguments DecisionDetails : clear implicits.

(** * Reference semantics *)

(** Kleene's strong three-valued connectives on [Some true], [Some false] and
    the unknown [None]. *)
Definition and3 (a b : option bool) : option bool :=
  match a, b with
  | Some false, _ | _, Some false => Some false
  | Some true, Some true => Some true
  | _, _ => None
  end.

Definition or3 (a b : option bool) : option bool :=
  match a, b with
  | Some true, _ | _, Some true => Some true
  | Some false, Some false => Some false
  | _, _ => None
  end.

(** [ctx'] holds at least the evidence of [ctx]: what [ctx] knows is unchanged. *)
Definition opt_le {A} (a b : option A) : Prop := a = None ∨ a = b.

Definition evidence_le (ctx ctx' : PolicyContext) : Prop :=
  opt_le (subject_id ctx) (subject_id ctx') ∧ groups ctx = groups ctx' ∧
  roles ctx = roles ctx' ∧ opt_le (device_id ctx) (device_id ctx') ∧
  posture ctx = posture ctx' ∧ opt_le (acr ctx) (acr ctx') ∧
  opt_le (auth_age_seconds ctx) (auth_age_seconds ctx') ∧
  opt_le (risk_score ctx) (risk_score ctx') ∧
  opt_le (resource_host ctx) (resource_host ctx') ∧
  opt_le (resource_action ctx) (resource_action ctx') ∧
  opt_le (pep_registration ctx) (pep_registration ctx').

(** Expressions without an action test. *)
Fixpoint no_action_test {Num} (e : Expression Num) : bool :=
  match e with
  | EMatchAction _ => false
  | EAnd es | EOr es => forallb no_action_test es
  | ENot e => no_action_test e
  | _ => true
  end.

(** The rule a priority class contributes: its first matching rule. *)
Definition first_match {Num} `{JsonNumber Num} (ty : RuleType) (ctx : PolicyContext)
    (rebac : option RebacEvaluator) (rs : list (Rule Num)) : option (Rule Num) :=
  List.find (fun r => bool_decide (rule_type r = ty) && rule_matches r ctx rebac) rs.

(** What [decide] promises: forbid before step-up before allow before the default. *)
Definition decision_spec {Num} `{JsonNumber Num} (b : PolicyBundle Num) (ctx : PolicyContext)
    (rebac : option RebacEvaluator) : Decision * option (Rule Num) :=
  match first_match RForbid ctx rebac (rules b) with
  | Some r => (Deny, Some r)
  | None =>
      match first_match RStepUp ctx rebac (rules b) with
      | Some r => (StepUp, Some r)
      | None =>
          match first_match RAllow ctx rebac (rules b) with
          | Some r => (Allow, Some r)
          | None => (default_decision b, None)
          end
      end
  end.

(** The JSON form of an expression, keys in byte order. *)
Fixpoint expression_to_value {Num} (e : Expression Num) : Value Num :=
  match e with
  | ECondition c =>
      VObject [("field", VString (field c)); ("op", VString (op c)); ("value", value c)]
  | EAnd es => VObject [("and", VArray (map expression_to_value es))]
  | EOr es => VObject [("or", VArray (map expression_to_value es))]
  | ENot e => VObject [("not", expression_to_value e)]
  | EInGroup g => VObject [("in_group", VString g)]
  | EMatchAction a => VObject [("action", VString a)]
  | ERebacCheck n o r s =>
      VObject [("namespace", VString n); ("object_id", VString o);
               ("relation", VString r); ("subject_namespace", VString s)]
  end.

(** Every object of a [serde_json] value lists its keys in strictly increasing
    byte order. *)
Definition str_ltb (a b : string) : bool :=
  match String.compare a b with Lt => true | _ => false end.

Fixpoint keys_increasing (ks : list string) : bool :=
  match ks with
  | [] => true
  | k :: ks' => forallb (str_ltb k) ks' && keys_increasing ks'
  end.

Fixpoint canonical {Num} (v : Value Num) : bool :=
  match v with
  | VArray items => forallb canonical items
  | VObject o => keys_increasing (map fst o) && forallb (fun e => canonical (snd e)) o
  | _ => true
  end.

(** * Lemmas *)

Section Lemmas.
Context {Num : Type} `{JsonNumber Num}.

(** Induction over expressions with a hypothesis for every list element. *)
Lemma Expression_rect_list (P : Expression Num → Prop) :
  (∀ c, P (ECondition c)) →
  (∀ es, Forall P es → P (EAnd es)) →
  (∀ es, Forall P es → P (EOr es)) →
  (∀ e, P e → P (ENot e)) →
  (∀ g, P (EInGroup g)) →
  (∀ a, P (EMatchAction a)) →
  (∀ n o r s, P (ERebacCheck n o r s)) →
  ∀ e, P e.
Proof.
  intros Hc Ha Ho Hn Hg Hm Hr. fix IH 1. intros [c|es|es|e|g|a|n o r s].
  - apply Hc.
  - apply Ha. induction es as [|x es IHes]; constructor; [apply IH|apply IHes].
  - apply Ho. induction es as [|x es IHes]; constructor; [apply IH|apply IHes].
  - apply Hn, IH.
  - apply Hg.
  - apply Hm.
  - apply Hr.
Qed.

Lemma evaluate_and ctx rebac (es : list (Expression Num)) :
  evaluate_expression ctx rebac (EAnd es)
  = foldr and3 (Some true) (map (evaluate_expression ctx rebac) es).
Proof.
  cut (∀ u, (fix loop (unknown : bool) (es : list (Expression Num)) : option bool :=
         match es with
         | [] => if unknown then None else Some true
         | e :: es' =>
             match evaluate_expression ctx rebac e with
             | Some false => Some false
             | None => loop true es'
             | Some true => loop unknown es'
             end
         end) u es
    = and3 (if u then None else Some true) (foldr and3 (Some true) (map (evaluate_expression ctx rebac) es))).
  { intros Hcut. simpl. rewrite Hcut. by destruct (foldr _ _ _) as [[]|]. }
  induction es as [|e es IH]; intros u; simpl; [by destruct u|].
  destruct (evaluate_expression ctx rebac e) as [[]|]; rewrite ?IH;
    destruct (foldr _ _ _) as [[]|], u; done.
Qed.

Lemma evaluate_or ctx rebac (es : list (Expression Num)) :
  evaluate_expression ctx rebac (EOr es)
  = foldr or3 (Some false) (map (evaluate_expression ctx rebac) es).
Proof.
  cut (∀ u, (fix loop (unknown : bool) (es : list (Expression Num)) : option bool :=
         match es with
         | [] => if unknown then None else Some false
         | e :: es' =>
             match evaluate_expression ctx rebac e with
             | Some true => Some true
             | None => loop true es'
             | Some false => loop unknown es'
             end
         end) u es
    = or3 (if u then None else Some false) (foldr or3 (Some false) (map (evaluate_expression ctx rebac) es))).
  { intros Hcut. simpl. rewrite Hcut. by destruct (foldr _ _ _) as [[]|]. }
  induction es as [|e es IH]; intros u; simpl; [by destruct u|].
  destruct (evaluate_expression ctx rebac e) as [[]|]; rewrite ?IH;
    destruct (foldr _ _ _) as [[]|], u; done.
Qed.

(** Kleene's connectives are monotone in the information order. *)
Lemma and3_mono a a' b b' : opt_le a a' → opt_le b b' → opt_le (and3 a b) (and3 a' b').
Proof.
  unfold opt_le. intros [->| ->] [->| ->]; destruct a' as [[]|], b' as [[]|]; auto.
Qed.

Lemma or3_mono a a' b b' : opt_le a a' → opt_le b b' → opt_le (or3 a b) (or3 a' b').
Proof.
  unfold opt_le. intros [->| ->] [->| ->]; destruct a' as [[]|], b' as [[]|]; auto.
Qed.

Lemma opt_le_refl {A} (a : option A) : opt_le a a.
Proof. by right. Qed.

Lemma opt_le_fmap {A B} (f : A → B) a b : opt_le a b → opt_le (f <$> a) (f <$> b).
Proof. by intros [->| ->]; [left|right]. Qed.

Lemma resolve_mono ctx ctx' path :
  evidence_le ctx ctx' →
  opt_le (resolve_field_path (Num:=Num) ctx path) (resolve_field_path ctx' path).
Proof.
  intros (Hs & Hg & Hr & Hd & Hp & Ha & Hage & Hrisk & Hh & Hact & Hpep).
  unfold resolve_field_path. rewrite Hg, Hr, Hp.
  repeat (case_match; [first [by right | by apply opt_le_fmap] |]). by right.
Qed.

Lemma condition_mono c ctx ctx' :
  evidence_le ctx ctx' → opt_le (condition_matches (Num:=Num) c ctx) (condition_matches c ctx').
Proof.
  intros Hle. pose proof (resolve_mono ctx ctx' (field c) Hle) as [Hn|He].
  - left. unfold condition_matches. by rewrite Hn.
  - right. unfold condition_matches. rewrite He. destruct Hle as (_ & Hg & _).
    unfold in_group. by rewrite Hg.
Qed.

Lemma foldr_mono (f : option bool → option bool → option bool) (u : option bool) g g'
    (es : list (Expression Num)) :
  (∀ a a' b b', opt_le a a' → opt_le b b' → opt_le (f a b) (f a' b')) →
  Forall (fun e => opt_le (g e) (g' e)) es →
  opt_le (foldr f u (map g es)) (foldr f u (map g' es)).
Proof. intros Hf. induction 1; simpl; [apply opt_le_refl|]. by apply Hf. Qed.

Lemma Forall_no_action (P : Expression Num → Prop) es :
  Forall (fun e => no_action_test e = true → P e) es →
  forallb no_action_test es = true → Forall P es.
Proof.
  induction 1; simpl; [constructor|]. intros [? ?]%andb_true_iff. constructor; auto.
Qed.

Lemma evaluate_opt_le ctx ctx' rebac (e : Expression Num) :
  evidence_le ctx ctx' → no_action_test e = true →
  opt_le (evaluate_expression ctx rebac e) (evaluate_expression ctx' rebac e).
Proof.
  intros Hle. induction e as [c|es IH|es IH|e IH|g|a|n o r s] using Expression_rect_list; intros Hna.
  - by apply condition_mono.
  - rewrite !evaluate_and. apply foldr_mono; [apply and3_mono|]. by apply Forall_no_action.
  - rewrite !evaluate_or. apply foldr_mono; [apply or3_mono|]. by apply Forall_no_action.
  - simpl. apply opt_le_fmap. by apply IH.
  - simpl. destruct Hle as (_ & Hg & _). unfold in_group. rewrite Hg. apply opt_le_refl.
  - done.
  - simpl. destruct rebac; [|apply opt_le_refl].
    destruct Hle as ([-> | ->] & _); [by left|apply opt_le_refl].
Qed.

Lemma scan_rules_spec ty label ctx rebac (rs : list (Rule Num)) tr :
  fst (scan_rules ty label ctx rebac rs tr) = first_match ty ctx rebac rs.
Proof.
  revert tr. unfold first_match. induction rs as [|r rs IH]; intros tr; simpl; [done|].
  case_decide as Ht; [|by rewrite bool_decide_false].
  rewrite bool_decide_true by done. simpl.
  destruct (rule_matches r ctx rebac); [done|]. apply IH.
Qed.

Lemma first_match_Some ty ctx rebac (rs : list (Rule Num)) r :
  first_match ty ctx rebac rs = Some r →
  r ∈ rs ∧ rule_type r = ty ∧ rule_matches r ctx rebac = true.
Proof.
  unfold first_match. intros [Hin Hb]%find_some. rewrite <- list_elem_of_In in Hin.
  apply andb_true_iff in Hb as [Ht Hm]. by apply bool_decide_eq_true in Ht.
Qed.

Lemma first_match_None ty ctx rebac (rs : list (Rule Num)) :
  first_match ty ctx rebac rs = None ↔
  ∀ r, r ∈ rs → rule_type r = ty → rule_matches r ctx rebac = false.
Proof.
  unfold first_match. split.
  - intros Hn r Hin Ht. pose proof (find_none _ _ Hn r (proj1 (list_elem_of_In _ _) Hin)) as Hb.
    simpl in Hb. by rewrite bool_decide_true in Hb.
  - intros Hall. destruct (List.find _ rs) as [r|] eqn:E; [|done].
    apply first_match_Some in E as (Hin & Ht & Hm). by rewrite Hall in Hm.
Qed.

Lemma engine_decide_spec (e : NativePolicyEngine Num) b ctx :
  bundle e = Some b →
  decision (engine_decide e ctx) = fst (decision_spec b ctx (rebac_evaluator e)) ∧
  matched_rules (engine_decide e ctx)
    = match snd (decision_spec b ctx (rebac_evaluator e)) with Some r => [name r] | None => [] end ∧
  policy_id (engine_decide e ctx)
    = match snd (decision_spec b ctx (rebac_evaluator e)) with Some r => name r | None => bundle_id e end.
Proof.
  intros Hb. unfold engine_decide, decision_spec. rewrite Hb.
  rewrite <- (scan_rules_spec RForbid "forbid" ctx _ (rules b) []).
  destruct (scan_rules RForbid _ _ _ _ _) as [[rf|] tr1]; simpl; [done|].
  rewrite <- (scan_rules_spec RStepUp "step-up" ctx _ (rules b) tr1).
  destruct (scan_rules RStepUp _ _ _ _ _) as [[rs|] tr2]; simpl; [done|].
  rewrite <- (scan_rules_spec RAllow "allow" ctx _ (rules b) tr2).
  by destruct (scan_rules RAllow _ _ _ _ _) as [[ra|] tr3].
Qed.

(** ** Reading expressions *)

Lemma expression_items_ext f g key i (items : list (Value Num)) :
  (∀ v, v ∈ items → f v = g v) →
  expression_items f key i items = expression_items g key i items.
Proof.
  revert i. induction items as [|v items IH]; intros i Hfg; simpl; [done|].
  rewrite Hfg by set_solver. rewrite IH by set_solver. done.
Qed.

Lemma expression_list_ext f g (o : list (string * Value Num)) key :
  (∀ items v, obj_get o key = Some (VArray items) → v ∈ items → f v = g v) →
  expression_list f o key = expression_list g o key.
Proof.
  intros Hfg. unfold expression_list, expression_value.
  destruct (obj_get o key) as [[]|] eqn:E; simpl; try done.
  apply expression_items_ext. intros v Hv. by eapply Hfg.
Qed.

Lemma parse_fuel_enough n m (v : Value Num) :
  (value_depth v ≤ n)%nat → (value_depth v ≤ m)%nat →
  parse_expression_fuel n v = parse_expression_fuel m v.
Proof.
  revert m v. induction n as [|n IH]; intros m v Hn Hm.
  { destruct v; simpl in Hn; lia. }
  destruct m as [|m]; [destruct v; simpl in Hm; lia|].
  destruct v as [| | | |items|o]; try done.
  assert (∀ key items w, obj_get o key = Some (VArray items) → w ∈ items →
    parse_expression_fuel n w = parse_expression_fuel m w) as Hitems.
  { intros key items w Hg%value_depth_get Hw%value_depth_item. apply IH; lia. }
  assert (∀ w, obj_get o "not" = Some w →
    parse_expression_fuel n w = parse_expression_fuel m w) as Hnot.
  { intros w Hg%value_depth_get. apply IH; lia. }
  cbn [parse_expression_fuel].
  rewrite !(expression_list_ext (parse_expression_fuel n) (parse_expression_fuel m)) by eauto.
  unfold expression_value.
  destruct (obj_get o "not") as [w|]; simpl; [|done]. by rewrite (Hnot w).
Qed.

(** [parse_expression] on an object calls itself on the nested values. *)
Lemma parse_expression_nested n (v : Value Num) :
  (value_depth v ≤ n)%nat → parse_expression_fuel n v = parse_expression v.
Proof. intros. by apply parse_fuel_enough. Qed.

Lemma expression_items_to_value n key i (es : list (Expression Num)) :
  Forall (fun e => parse_expression_fuel n (expression_to_value e) = Ok e) es →
  expression_items (parse_expression_fuel n) key i (map expression_to_value es) = Ok es.
Proof.
  intros Hes. revert i. induction Hes as [|e es He Hes IH]; intros i; simpl; [done|].
  rewrite He. simpl. by rewrite IH.
Qed.

Lemma Forall_at_depth n (P : nat → Expression Num → Prop) es :
  Forall (fun e => ∀ n, value_depth (expression_to_value e) ≤ n → P n e)%nat es →
  (list_max (map value_depth (map expression_to_value es)) ≤ n)%nat →
  Forall (P n) es.
Proof.
  rewrite map_map, list_max_le, List.Forall_map, !List.Forall_forall. intros HP Hd e He.
  by apply HP, Hd.
Qed.

Lemma parse_to_value n (e : Expression Num) :
  (value_depth (expression_to_value e) ≤ n)%nat →
  parse_expression_fuel n (expression_to_value e) = Ok e.
Proof.
  revert n. induction e as [c|es IH|es IH|e IH|g|a|nn o r s] using Expression_rect_list;
    intros n Hn; (destruct n as [|n]; [simpl in Hn; lia|]).
  - by destruct c.
  - cbn in *. rewrite expression_items_to_value; [done|].
    apply (Forall_at_depth n (fun n e => parse_expression_fuel n (expression_to_value e) = Ok e));
      [done|lia].
  - cbn in *. rewrite expression_items_to_value; [done|].
    apply (Forall_at_depth n (fun n e => parse_expression_fuel n (expression_to_value e) = Ok e));
      [done|lia].
  - cbn. rewrite IH; [done|]. cbn in Hn. lia.
  - done.
  - done.
  - done.
Qed.

(** ** Strictness of the reader *)

Lemma str_ltb_irrefl k : str_ltb k k = false.
Proof.
  unfold str_ltb. enough (String.compare k k = Eq) as -> by done.
  induction k as [|c k IH]; [done|]. simpl. unfold Ascii.compare. by rewrite N.compare_refl.
Qed.

#[local] Instance str_ltb_antisymm : AntiSymm (=) (fun a b => str_ltb a b = true).
Proof.
  intros a b. unfold str_ltb. rewrite (String.compare_antisym b a).
  by destruct (String.compare a b).
Qed.

Lemma keys_increasing_sorted ks :
  keys_increasing ks = true →
  StronglySorted (fun a b => str_ltb a b = true) ks ∧ NoDup ks.
Proof.
  induction ks as [|k ks IH]; simpl; [repeat constructor|].
  intros [Hk [Hs Hd]%IH]%andb_true_iff. rewrite forallb_forall in Hk. split.
  - constructor; [done|]. rewrite List.Forall_forall. auto.
  - constructor; [|done]. intros Hin%list_elem_of_In%Hk. by rewrite str_ltb_irrefl in Hin.
Qed.

(** Two increasing key lists with the same keys are the same list. *)
Lemma keys_increasing_unique ks ls :
  keys_increasing ks = true → keys_increasing ls = true →
  (∀ k, k ∈ ks ↔ k ∈ ls) → ks = ls.
Proof.
  intros [Hs1 Hd1]%keys_increasing_sorted [Hs2 Hd2]%keys_increasing_sorted Heq.
  eapply (StronglySorted_unique _); [done..|]. by apply NoDup_Permutation.
Qed.

(** When exactly one shape is selected and no key is unknown, every key of the
    object belongs to that shape. *)
Lemma one_shape_keys (o : list (string * Value Num)) nm keys :
  List.find (fun key => negb (str_in key (concat (map snd EXPRESSION_SHAPES)))) (map fst o) = None →
  List.filter (fun '(_, ks) => existsb (fun key => obj_contains_key o key) ks) EXPRESSION_SHAPES
    = [(nm, keys)] →
  (nm, keys) ∈ EXPRESSION_SHAPES ∧ ∀ k, k ∈ map fst o → k ∈ keys.
Proof.
  intros Hknown Hsel.
  assert (∀ s, In s [(nm, keys)] ↔ In s EXPRESSION_SHAPES ∧
    existsb (fun key => obj_contains_key o key) (snd s) = true) as Hin.
  { intros [n ks]. rewrite <- Hsel, filter_In. done. }
  split.
  { apply list_elem_of_In, Hin. by left. }
  intros k Hk. pose proof (find_none _ _ Hknown k (proj1 (list_elem_of_In _ _) Hk)) as Hkn.
  cbv beta in Hkn. apply negb_false_iff, str_in_spec, list_elem_of_In, in_concat in Hkn as (ks & Hks & Hkks).
  apply in_map_iff in Hks as ([n ks'] & <- & Hshape). simpl in Hkks.
  assert (In (n, ks') [(nm, keys)]) as [[= <- <-]|[]].
  { apply Hin. split; [done|]. simpl. apply existsb_exists. exists k. split; [done|].
    unfold obj_contains_key. by apply str_in_spec. }
  by apply list_elem_of_In.
Qed.

(** ... and when all of its keys can be read, the object has exactly these keys. *)
Lemma one_shape_exact (o : list (string * Value Num)) keys :
  keys_increasing (map fst o) = true → keys_increasing keys = true →
  (∀ k, k ∈ map fst o → k ∈ keys) → Forall (fun k => is_Some (obj_get o k)) keys →
  map fst o = keys.
Proof.
  intros Ho Hk Hsub Hall. apply keys_increasing_unique; [done..|]. intros k. split; [apply Hsub|].
  intros Hin. rewrite Forall_forall in Hall. apply str_in_spec.
  by apply (obj_contains_key_get o k), Hall.
Qed.

Lemma expression_value_Ok (o : list (string * Value Num)) k v :
  expression_value o k = Ok v ↔ obj_get o k = Some v.
Proof. unfold expression_value, ok_or. destruct (obj_get o k); naive_solver. Qed.

Lemma expression_string_Ok (o : list (string * Value Num)) k s :
  expression_string o k = Ok s ↔ obj_get o k = Some (VString s).
Proof.
  unfold expression_string. rewrite res_bind_Ok. setoid_rewrite expression_value_Ok.
  split; [|naive_solver]. intros (v & Hv & Hm). destruct v; naive_solver.
Qed.

Lemma expression_items_Ok f key i (items : list (Value Num)) es :
  expression_items f key i items = Ok es → Forall2 (fun v e => f v = Ok e) items es.
Proof.
  revert i es. induction items as [|v items IH]; intros i es; simpl.
  - intros [= <-]. constructor.
  - intros (e & He & (es' & Hes & [= <-])%res_bind_Ok)%res_bind_Ok.
    constructor; [|by eapply IH]. destruct (f v); naive_solver.
Qed.

Lemma expression_list_Ok f (o : list (string * Value Num)) key es :
  expression_list f o key = Ok es →
  ∃ items, obj_get o key = Some (VArray items) ∧ Forall2 (fun v e => f v = Ok e) items es.
Proof.
  unfold expression_list. intros (v & Hv%expression_value_Ok & Hm)%res_bind_Ok.
  destruct v; try done. eexists. split; [done|]. by eapply expression_items_Ok.
Qed.

Lemma items_canonical n (items : list (Value Num)) es :
  (∀ (v : Value Num) (e : Expression Num), canonical v = true → parse_expression_fuel n v = Ok e → v = expression_to_value e) →
  canonical (VArray items) = true →
  Forall2 (fun v e => parse_expression_fuel n v = Ok e) items es →
  items = map expression_to_value es.
Proof.
  intros IH Hc HF. simpl in Hc. induction HF as [|v e items es Hve HF IHF]; simpl; [done|].
  simpl in Hc. apply andb_true_iff in Hc as [Hv Hc]. f_equal; auto.
Qed.

(** Concludes a case of [parse_fuel_canonical]: the object has the keys of the
    selected shape, and the values that were read. *)
Ltac exact_shape o Hkeys :=
  match type of Hkeys with
  | ∀ k, _ → k ∈ ?ks =>
      let Hm := fresh "Hm" in
      assert (map fst o = ks) as Hm by (apply one_shape_exact; [done..|repeat constructor; by eexists]);
      clear Hkeys; repeat (destruct o as [|[? ?] o]; simplify_eq/=); done
  end.

(** The reader accepts one JSON form per expression. *)
Lemma parse_fuel_canonical n (v : Value Num) e :
  canonical v = true → parse_expression_fuel n v = Ok e → v = expression_to_value e.
Proof.
  revert v e. induction n as [|n IH]; intros v e Hcan; [done|].
  destruct v as [| | | |items|o]; try done. cbn [parse_expression_fuel].
  simpl in Hcan. apply andb_true_iff in Hcan as [Hinc Hsub].
  destruct (List.find _ _) eqn:Hknown; [done|].
  destruct (List.filter _ EXPRESSION_SHAPES) as [|[nm keys] [|[]]] eqn:Hsel; try done.
  destruct (one_shape_keys _ _ _ Hknown Hsel) as [Hshape Hkeys]. clear Hknown Hsel.
  assert (∀ k w, obj_get o k = Some w → canonical w = true) as Hget.
  { intros k w. rewrite forallb_forall in Hsub. clear -Hsub.
    induction o as [|[k' x] o IHo]; simpl; [done|]. case_match.
    - intros [= ->]. by apply (Hsub (k', w)); left.
    - apply IHo. intros y Hy. apply Hsub. by right. }
  unfold EXPRESSION_SHAPES in Hshape. rewrite !elem_of_cons, elem_of_nil in Hshape.
  assert (∀ key es, expression_list (parse_expression_fuel n) o key = Ok es →
    obj_get o key = Some (VArray (map expression_to_value es))) as Hlist.
  { intros key es (items & Hg & HF)%expression_list_Ok. rewrite Hg. repeat f_equal.
    apply (items_canonical n); [done| |done]. by apply (Hget key). }
  destruct Hshape as [[= -> ->]|[[= -> ->]|[[= -> ->]|[[= -> ->]|[[= -> ->]|[[= -> ->]|[[= -> ->]|[]]]]]]]];
    cbn [String.eqb Ascii.eqb Bool.eqb].
  - intros (es & Hes%Hlist & [= <-])%res_bind_Ok. exact_shape o Hkeys.
  - intros (es & Hes%Hlist & [= <-])%res_bind_Ok. exact_shape o Hkeys.
  - intros (w & Hw%expression_value_Ok & (e' & He & [= <-])%res_bind_Ok)%res_bind_Ok.
    apply IH in He as ->; [|by eapply Hget]. exact_shape o Hkeys.
  - intros (g & Hg%expression_string_Ok & [= <-])%res_bind_Ok. exact_shape o Hkeys.
  - intros (a & Ha%expression_string_Ok & [= <-])%res_bind_Ok. exact_shape o Hkeys.
  - intros (f & Hf%expression_string_Ok & (p & Hp%expression_string_Ok &
      (w & Hw%expression_value_Ok & [= <-])%res_bind_Ok)%res_bind_Ok)%res_bind_Ok.
    exact_shape o Hkeys.
  - intros (a & Ha%expression_string_Ok & (b & Hb%expression_string_Ok &
      (c & Hc%expression_string_Ok & (d & Hd%expression_string_Ok & [= <-])
      %res_bind_Ok)%res_bind_Ok)%res_bind_Ok)%res_bind_Ok.
    exact_shape o Hkeys.
Qed.

Lemma condition_gt_u64 `{!JsonNumberLaws Num} ctx s t :
  risk_score ctx = Some s → s ≤ u64_max → t ≤ u64_max →
  condition_matches {| field := "risk_score"; op := "gt"; value := VNumber (num_from_u64 t) |} ctx
  = Some (t <? s).
Proof.
  intros Hs Hsm Htm. unfold condition_matches, resolve_field_path. simpl. rewrite Hs. simpl.
  unfold compare_first, numeric_compare. simpl. rewrite !as_u64_from_u64 by done.
  f_equal. unfold N.ltb. rewrite (N.compare_antisym s t). by destruct (s ?= t).
Qed.

Lemma decision_spec_perm (b b' : PolicyBundle Num) ctx rebac :
  rules b ≡ₚ rules b' → default_decision b = default_decision b' →
  fst (decision_spec b ctx rebac) = fst (decision_spec b' ctx rebac).
Proof.
  intros Hp Hd. unfold decision_spec. rewrite Hd.
  assert (∀ ty, first_match ty ctx rebac (rules b) = None ↔ first_match ty ctx rebac (rules b') = None)
    as Hnone.
  { intros ty. rewrite !first_match_None. by setoid_rewrite Hp. }
  pose proof (Hnone RForbid) as Hf. pose proof (Hnone RStepUp) as Hs. pose proof (Hnone RAllow) as Ha.
  destruct (first_match RForbid ctx rebac (rules b)), (first_match RForbid ctx rebac (rules b')),
    (first_match RStepUp ctx rebac (rules b)), (first_match RStepUp ctx rebac (rules b')),
    (first_match RAllow ctx rebac (rules b)), (first_match RAllow ctx rebac (rules b')); naive_solver.
Qed.

End Lemmas.

(** * Properties *)

Section Properties.
Context {Num : Type} `{JsonNumber Num}.

(** C1: [decide] implements its priority specification: the first matching
    forbid rule denies, else the first matching step-up rule steps up, else the
    first matching allow rule allows, else the bundle's default applies; the
    reported rule and policy id are that rule's (or the bundle's id). *)
Theorem decide_refines_spec (e : NativePolicyEngine Num) b ctx :
  bundle e = Some b →
  let r := engine_decide e ctx in
  let s := decision_spec b ctx (rebac_evaluator e) in
  decision r = fst s ∧
  matched_rules r = match snd s with Some r => [name r] | None => [] end ∧
  policy_id r = match snd s with Some r => name r | None => bundle_id e end.
Proof. apply engine_decide_spec. Qed.

(** An allow is never granted over a matching forbid or step-up rule: when
    the decision is allow, no forbid and no step-up rule of the bundle matches,
    and either an allow rule of the bundle matches or no rule matches and the
    bundle's default is allow. Without a bundle nothing is allowed. *)
Theorem decide_allow_sound (e : NativePolicyEngine Num) ctx :
  decision (engine_decide e ctx) = Allow →
  ∃ b, bundle e = Some b ∧
    (∀ r, r ∈ rules b → rule_type r ≠ RAllow → rule_matches r ctx (rebac_evaluator e) = false) ∧
    ((∃ r, r ∈ rules b ∧ rule_type r = RAllow ∧ rule_matches r ctx (rebac_evaluator e) = true) ∨
     ((∀ r, r ∈ rules b → rule_matches r ctx (rebac_evaluator e) = false) ∧
      default_decision b = Allow)).
Proof.
  destruct (bundle e) as [b|] eqn:Hb; [|by unfold engine_decide; rewrite Hb].
  destruct (engine_decide_spec e b ctx Hb) as (Hd & _). rewrite Hd. unfold decision_spec.
  destruct (first_match RForbid _ _ _) eqn:Hf; [done|].
  destruct (first_match RStepUp _ _ _) eqn:Hs; [done|].
  rewrite first_match_None in Hf, Hs. intros Hallow. exists b. split; [done|].
  assert (∀ r, r ∈ rules b → rule_type r ≠ RAllow → rule_matches r ctx (rebac_evaluator e) = false)
    as Hno by (intros r Hr Ht; destruct (rule_type r) eqn:Hty; auto; done).
  split; [done|]. destruct (first_match RAllow _ _ _) as [ra|] eqn:Ha.
  - left. exists ra. by apply first_match_Some in Ha.
  - right. rewrite first_match_None in Ha. split; [|done]. intros r Hr.
    destruct (decide (rule_type r = RAllow)); auto.
Qed.

(** The order of a bundle's rules never changes its decision. *)
Theorem decide_rule_order_irrelevant (e e' : NativePolicyEngine Num) b b' ctx :
  bundle e = Some b → bundle e' = Some b' →
  rebac_evaluator e = rebac_evaluator e' →
  rules b ≡ₚ rules b' → default_decision b = default_decision b' →
  decision (engine_decide e ctx) = decision (engine_decide e' ctx).
Proof.
  intros Hb Hb' Hr Hp Hd.
  destruct (engine_decide_spec e b ctx Hb) as (-> & _).
  destruct (engine_decide_spec e' b' ctx Hb') as (-> & _).
  rewrite <- Hr. by apply decision_spec_perm.
Qed.

(** Missing evidence is never evidence. For an expression without an action
    test, what the evaluation establishes (true or false) from a context is
    established by every context that knows more; so no answer rests on the
    absence of an input, not even under negation. *)
Theorem evaluate_evidence_monotone ctx ctx' rebac (e : Expression Num) v :
  evidence_le ctx ctx' → no_action_test e = true →
  evaluate_expression ctx rebac e = Some v →
  evaluate_expression ctx' rebac e = Some v.
Proof.
  intros Hle Hna Hv. destruct (evaluate_opt_le ctx ctx' rebac e Hle Hna) as [Hn|Heq]; congruence.
Qed.

(** The strict reader and the JSON form of expressions are inverse: a JSON
    value is read as the expression [e] exactly when it is the form of [e], so
    unknown, missing or mixed keys and wrong value types are always rejected. *)
Theorem parse_expression_exact (v : Value Num) (e : Expression Num) :
  canonical v = true →
  parse_expression v = Ok e ↔ v = expression_to_value e.
Proof.
  intros Hc. split.
  - by apply parse_fuel_canonical.
  - intros ->. by apply parse_to_value.
Qed.

(** Numeric thresholds over [u64] inputs compare exactly at full width:
    ["risk_score" gt t] holds exactly when the score is above [t]. *)
Theorem risk_threshold_exact `{!JsonNumberLaws Num} ctx s t :
  risk_score ctx = Some s → s ≤ u64_max → t ≤ u64_max →
  condition_matches {| field := "risk_score"; op := "gt"; value := VNumber (num_from_u64 t) |} ctx
    = Some true ↔ t < s.
Proof.
  intros Hs Hsm Htm. rewrite (condition_gt_u64 ctx s t Hs Hsm Htm).
  rewrite <- N.ltb_lt. split; [by intros [= ->]|by intros ->].
Qed.

End Properties.

(** An action test is decided by an absent action. The negation of any
    action test is established as true in the empty context, and an allow rule
    guarded by it allows a request that carries no action at all. *)
Theorem absent_action_satisfies_negation (a : string) :
  evaluate_expression (Num:=SerdeNumber) context_default None (ENot (EMatchAction a)) = Some true ∧
  decision (engine_decide (Num:=SerdeNumber)
    {| bundle := Some {| version := "1"; default_decision := Deny; rules := [
         {| name := "r"; rule_type := RAllow; action := "*"; rule_resource_host := None;
            conditions := []; expression := Some (ENot (EMatchAction a));
            rate_limit_profile := None; inject_headers := None; pep := pep_default |}] |};
       bundle_id := "b"; rebac_evaluator := None |} context_default) = Allow.
Proof. done. Qed.

(** ** Witnesses *)

Definition w_rule (ty : RuleType) (nm : string) : Rule SerdeNumber :=
  {| name := nm; rule_type := ty; action := "*"; rule_resource_host := Some "*.example.com";
     conditions := [{| field := "risk_score"; op := "gt"; value := VNumber (PosInt 10) |}];
     expression := Some (ENot (EInGroup "guests"));
     rate_limit_profile := None; inject_headers := None; pep := pep_default |}.

Definition w_ctx : PolicyContext :=
  {| subject_id := Some "alice"; groups := ["staff"]; roles := []; entitlements := [];
     device_id := None; posture := []; acr := None; auth_age_seconds := None;
     risk_score := Some 11; resource_host := Some "api.example.com";
     resource_action := Some "read"; pep_registration := None |}.

Definition w_bundle (rs : list (Rule SerdeNumber)) : PolicyBundle SerdeNumber :=
  {| version := "1"; rules := rs; default_decision := Deny |}.

Definition w_engine (rs : list (Rule SerdeNumber)) : NativePolicyEngine SerdeNumber :=
  engine_load engine_new (w_bundle rs) "main".

Lemma decide_refines_spec_witness :
  let e := w_engine [w_rule RAllow "a"; w_rule RForbid "f"; w_rule RForbid "g"] in
  decision (engine_decide e w_ctx) = Deny ∧ policy_id (engine_decide e w_ctx) = "f".
Proof.
  intros e. destruct (decide_refines_spec e _ w_ctx eq_refl) as (Hd & _ & Hp).
  rewrite Hd, Hp. split; vm_compute; reflexivity.
Defined.

Lemma decide_allow_sound_witness :
  ∃ b, bundle (w_engine [w_rule RAllow "a"]) = Some b ∧ length (rules b) = 1%nat.
Proof.
  destruct (decide_allow_sound (w_engine [w_rule RAllow "a"]) w_ctx) as (b & Hb & _).
  - vm_compute. reflexivity.
  - exists b. split; [exact Hb|]. by injection Hb as <-.
Defined.

Lemma decide_rule_order_irrelevant_witness :
  decision (engine_decide (w_engine [w_rule RAllow "a"; w_rule RStepUp "s"]) w_ctx)
  = decision (engine_decide (w_engine [w_rule RStepUp "s"; w_rule RAllow "a"]) w_ctx).
Proof.
  eapply decide_rule_order_irrelevant; [reflexivity..| |reflexivity].
  apply Permutation_swap.
Defined.

Lemma evaluate_evidence_monotone_witness :
  evaluate_expression (Num:=SerdeNumber) w_ctx None
    (EOr [ENot (EInGroup "guests"); ERebacCheck "doc" "1" "view" "user"]) = Some true.
Proof.
  apply (evaluate_evidence_monotone
    {| subject_id := None; groups := ["staff"]; roles := []; entitlements := [];
       device_id := None; posture := []; acr := None; auth_age_seconds := None;
       risk_score := None; resource_host := None; resource_action := None;
       pep_registration := None |}); [|reflexivity..].
  repeat split; try (left; reflexivity); right; reflexivity.
Defined.

Lemma parse_expression_exact_witness :
  parse_expression (VObject [("not", VObject [("in_group", VString "guests")])])
  = Ok (ENot (EInGroup "guests") : Expression SerdeNumber).
Proof. by apply parse_expression_exact. Defined.

Lemma risk_threshold_exact_witness :
  condition_matches {| field := "risk_score"; op := "gt"; value := VNumber (num_from_u64 10 : SerdeNumber) |} w_ctx
  = Some true.
Proof. by apply (risk_threshold_exact w_ctx 11 10). Defined.

End NativePolicy.
