(* ===== verification/Rebac.v ===== *)
(** The relationship-based access engine (src/qid-iga/src/rebac.rs) over the
    tuple repository interface, and the file-backed repository that implements
    the interface (src/qid-storage/src/file/rebac.rs).

    A repository is a type with an instance of the class [RebacRepository];
    reads and writes may fail.  [check] and [expand] are the breadth-first loops
    of the source with the number of queue items ever processed as fuel, bounded
    by [walk_size]; the lemmas show that the bound is enough.  The JSON writer of
    the expand response is third-party code: it is the parameter [chunks], the
    sizes of the pieces it writes for a tree. *)

From S2P Require Import Prelude Json Policy.

Module Rebac.

(** * Data *)

Record RelationshipTuple : Type := {
  namespace : string;
  object_id : string;
  relation : string;
  subject_namespace : string;
  subject_id : string;
  subject_relation : string;
  created_at_epoch_seconds : N
}.

Record SubjectRef : Type := { sr_namespace : string; sr_subject_id : string }.

Record CheckRequest : Type := {
  cr_namespace : string; cr_object_id : string; cr_relation : string; cr_subject : SubjectRef
}.

Inductive ExpandNode : Type :=
| Leaf (namespace subject_id : string) (subject_relation : option string)
| Branch (namespace object_id relation : string) (children : list ExpandNode).

Inductive ExpandError : Type :=
| Repository (e : QidError)
| ResponseTooLarge (limit_bytes : nat).

(** [TupleGroupKey]: an object and one of its relations. *)
Definition node : Type := string * string * string.

Definition MAX_DEPTH : nat := 10.

Definition is_userset (t : RelationshipTuple) : bool := negb (is_empty_str (subject_relation t)).

Definition sub_key (t : RelationshipTuple) : node :=
  (subject_namespace t, subject_id t, subject_relation t).

(** The trait [RebacRepository]. *)
Class RebacRepository (R : Type) : Type := {
  list_relationship_tuples : R → string → string → option string → QidResult (list RelationshipTuple);
  create_relationship_tuple : RelationshipTuple → R → QidResult unit * R;
  delete_relationship_tuple : RelationshipTuple → R → QidResult unit * R
}.

Section Engine.
Context {R : Type} `{RebacRepository R}.

(** The tuples of one node, as [check] and [expand] read them. *)
Definition node_tuples (repo : R) (k : node) : QidResult (list RelationshipTuple) :=
  let '(ns, oid, rel) := k in list_relationship_tuples repo ns oid (Some rel).

(** The usersets a node points at, in the order they are queued. *)
Definition subnodes (ts : list RelationshipTuple) : list node :=
  map sub_key (List.filter is_userset ts).

(** The number of items a walk of [d] more levels from [k] can queue. *)
Fixpoint walk_size (repo : R) (d : nat) (k : node) : nat :=
  match d with
  | O => 1%nat
  | S d' => S (match node_tuples repo k with
               | Ok ts => list_sum (map (walk_size repo d') (subnodes ts))
               | Err _ => O
               end)
  end.

(** * Check *)

Definition direct_match (sns sid : string) (t : RelationshipTuple) : bool :=
  String.eqb (subject_namespace t) sns && String.eqb (subject_id t) sid
  && is_empty_str (subject_relation t).

Fixpoint check_loop (repo : R) (sns sid : string) (fuel : nat) (visited : gset node)
    (queue : list (node * nat)) : option (QidResult bool) :=
  match queue with
  | [] => Some (Ok false)
  | (k, depth) :: queue' =>
    match fuel with
    | O => None
    | S fuel' =>
      if (MAX_DEPTH <? depth)%nat then check_loop repo sns sid fuel' visited queue'
      else if bool_decide (k ∈ visited) then check_loop repo sns sid fuel' visited queue'
      else
        let visited' := {[k]} ∪ visited in
        match node_tuples repo k with
        | Err e => Some (Err e)
        | Ok ts =>
            if existsb (direct_match sns sid) ts then Some (Ok true)
            else check_loop repo sns sid fuel' visited'
                   (queue' ++ map (fun c => (c, S depth)) (subnodes ts))
        end
    end
  end.

Definition check (repo : R) (ns oid rel sns sid : string) : QidResult bool :=
  match check_loop repo sns sid (walk_size repo (S MAX_DEPTH) (ns, oid, rel)) ∅
          [((ns, oid, rel), O)] with
  | Some r => r
  | None => Ok false
  end.

Definition check_batch (repo : R) (checks : list CheckRequest) : QidResult (list bool) :=
  res_mapM (fun c => check repo (cr_namespace c) (cr_object_id c) (cr_relation c)
                       (sr_namespace (cr_subject c)) (sr_subject_id (cr_subject c))) checks.

(** * Expand *)

(** The inner [for] of the first phase: queue the usersets not seen before. *)
Fixpoint enqueue_unseen (depth : nat) (subs : list node) (seen : gset node)
    (queue : list (node * nat)) : gset node * list (node * nat) :=
  match subs with
  | [] => (seen, queue)
  | k :: subs' =>
      if bool_decide (k ∈ seen) then enqueue_unseen depth subs' seen queue
      else enqueue_unseen depth subs' ({[k]} ∪ seen) (queue ++ [(k, S depth)])
  end.

Fixpoint expand_loop (repo : R) (fuel : nat) (seen : gset node) (queue : list (node * nat))
    (groups : gmap node (list RelationshipTuple))
    : option (QidResult (gmap node (list RelationshipTuple))) :=
  match queue with
  | [] => Some (Ok groups)
  | (k, depth) :: queue' =>
    match fuel with
    | O => None
    | S fuel' =>
      match node_tuples repo k with
      | Err e => Some (Err e)
      | Ok ts =>
          let '(seen', queue'') :=
            if (depth <? MAX_DEPTH)%nat then enqueue_unseen depth (subnodes ts) seen queue'
            else (seen, queue') in
          expand_loop repo fuel' seen' queue'' (<[k := ts]> groups)
      end
    end
  end.

(** [ExpandChildren::nodes], materialized; [fuel] is [S MAX_DEPTH] less the
    length of the ancestry. *)
Fixpoint expand_children (fuel : nat) (groups : gmap node (list RelationshipTuple)) (k : node)
    (ancestry : list node) : list ExpandNode :=
  map (fun t =>
    let leaf := Leaf (subject_namespace t) (subject_id t)
                  (if is_userset t then Some (subject_relation t) else None) in
    if is_userset t && (length ancestry <=? MAX_DEPTH)%nat then
      match groups !! sub_key t with
      | Some (_ :: _) =>
          if bool_decide (sub_key t ∈ ancestry) then leaf
          else match fuel with
               | O => leaf
               | S fuel' =>
                   let '(ns, oid, rel) := sub_key t in
                   Branch ns oid rel
                     (expand_children fuel' groups (sub_key t) (ancestry ++ [sub_key t]))
               end
      | _ => leaf
      end
    else leaf) (default [] (groups !! k)).

Definition expand_tree (groups : gmap node (list RelationshipTuple)) (root : node) : ExpandNode :=
  let '(ns, oid, rel) := root in
  Branch ns oid rel (expand_children MAX_DEPTH groups root [root]).

(** [ByteBudget::write] over the pieces a writer produces. *)
Fixpoint budget_write (budget : nat) (pieces : list nat) : option nat :=
  match pieces with
  | [] => Some budget
  | n :: pieces' => if (n <=? budget)%nat then budget_write (budget - n) pieces' else None
  end.

Definition expand (chunks : ExpandNode → list nat) (repo : R) (ns oid rel : string)
    (max_response_bytes : nat) : result ExpandNode ExpandError :=
  let root := (ns, oid, rel) in
  match expand_loop repo (walk_size repo MAX_DEPTH root) {[root]} [(root, O)] ∅ with
  | None => Err (Repository (Internal "unreachable"))
  | Some (Err e) => Err (Repository e)
  | Some (Ok groups) =>
      let tree := expand_tree groups root in
      match budget_write max_response_bytes (chunks tree) with
      | None => Err (ResponseTooLarge max_response_bytes)
      | Some _ => Ok tree
      end
  end.

(** * Writes *)

(** [write_tuples]: [now i] is the clock read for the [i]-th tuple. *)
Fixpoint write_tuples_from (now : nat → N) (i : nat) (tuples : list RelationshipTuple) (repo : R)
    : QidResult unit * R :=
  match tuples with
  | [] => (Ok tt, repo)
  | t :: rest =>
      let tuple := if created_at_epoch_seconds t =? 0 then
        {| namespace := namespace t; object_id := object_id t; relation := relation t;
           subject_namespace := subject_namespace t; subject_id := subject_id t;
           subject_relation := subject_relation t; created_at_epoch_seconds := now i |} else t in
      match create_relationship_tuple tuple repo with
      | (Ok _, repo') => write_tuples_from now (S i) rest repo'
      | (Err e, repo') => (Err e, repo')
      end
  end.

Definition write_tuples (now : nat → N) (tuples : list RelationshipTuple) (repo : R) :=
  write_tuples_from now 0 tuples repo.

Fixpoint delete_tuples (tuples : list RelationshipTuple) (repo : R) : QidResult unit * R :=
  match tuples with
  | [] => (Ok tt, repo)
  | t :: rest =>
      match delete_relationship_tuple t repo with
      | (Ok _, repo') => delete_tuples rest repo'
      | (Err e, repo') => (Err e, repo')
      end
  end.

(** * Evaluators for the policy engine *)

Definition rebac_evaluator_from_repo (repo : R) : NativePolicy.RebacEvaluator :=
  {| NativePolicy.evaluator_check := check repo |}.

Definition scoped (tenant_id ns : string) : string :=
  let prefix := tenant_id +:+ "::" in
  if starts_with prefix ns then ns else prefix +:+ ns.

Definition tenant_scoped_rebac_evaluator (repo : R) (tenant_id : string) : NativePolicy.RebacEvaluator :=
  {| NativePolicy.evaluator_check ns oid rel sns sid :=
       check repo (scoped tenant_id ns) oid rel (scoped tenant_id sns) sid |}.

End Engine.

(** * The file-backed repository

    The part of [Store] the trait uses, with the outcomes of the coming [save]
    calls (none left means success). A failed save is reported but the store in
    memory keeps the change. *)

Record FileStore : Type := {
  relationship_tuples : list RelationshipTuple;
  saves : list (QidResult unit)
}.

Definition file_save (ts : list RelationshipTuple) (st : FileStore) : QidResult unit * FileStore :=
  (default (Ok tt) (head (saves st)),
   {| relationship_tuples := ts; saves := tail (saves st) |}).

Definition same_relationship_tuple_identity (a b : RelationshipTuple) : bool :=
  String.eqb (namespace a) (namespace b) && String.eqb (object_id a) (object_id b)
  && String.eqb (relation a) (relation b) && String.eqb (subject_namespace a) (subject_namespace b)
  && String.eqb (subject_id a) (subject_id b) && String.eqb (subject_relation a) (subject_relation b).

Definition file_create_relationship_tuple (tuple : RelationshipTuple) (st : FileStore)
    : QidResult unit * FileStore :=
  if existsb (fun stored => same_relationship_tuple_identity stored tuple) (relationship_tuples st)
  then (Err (Conflict "relationship tuple already exists"), st)
  else file_save (relationship_tuples st ++ [tuple]) st.

Definition file_delete_relationship_tuple (tuple : RelationshipTuple) (st : FileStore)
    : QidResult unit * FileStore :=
  file_save (List.filter (fun stored => negb (same_relationship_tuple_identity stored tuple))
               (relationship_tuples st)) st.

Definition by_created_at (a b : RelationshipTuple) : bool :=
  created_at_epoch_seconds a <=? created_at_epoch_seconds b.

Definition file_list_relationship_tuples (st : FileStore) (ns oid : string) (rel : option string)
    : QidResult (list RelationshipTuple) :=
  Ok (sort_by by_created_at
        (List.filter (fun t => match rel with Some r => String.eqb (relation t) r | None => true end)
          (List.filter (fun t => String.eqb (namespace t) ns && String.eqb (object_id t) oid)
            (relationship_tuples st)))).

Definition file_list_relationship_tuples_by_subject (st : FileStore) (ns oid rel sns sid : string)
    (srel : option string) : QidResult (list RelationshipTuple) :=
  Ok (sort_by by_created_at
        (List.filter (fun t => match srel with
                               | Some r => String.eqb (subject_relation t) r | None => true end)
          (List.filter (fun t => String.eqb (namespace t) ns && String.eqb (object_id t) oid
                                 && String.eqb (relation t) rel
                                 && String.eqb (subject_namespace t) sns
                                 && String.eqb (subject_id t) sid)
            (relationship_tuples st)))).

#[export] Instance FileStore_RebacRepository : RebacRepository FileStore := {|
  list_relationship_tuples := file_list_relationship_tuples;
  create_relationship_tuple := file_create_relationship_tuple;
  delete_relationship_tuple := file_delete_relationship_tuple
|}.

(** * Specification *)

Section Spec.
Context {R : Type} `{RebacRepository R}.

(** [hops repo n a b]: node [b] is reached from [a] through [n] userset tuples. *)
Inductive hops (repo : R) : nat → node → node → Prop :=
| hops_0 k : hops repo 0 k k
| hops_S n a ts b c :
    node_tuples repo a = Ok ts → b ∈ subnodes ts → hops repo n b c → hops repo (S n) a c.

(** The subject is named directly by a tuple of [k]. *)
Definition member (repo : R) (sns sid : string) (k : node) : Prop :=
  ∃ ts, node_tuples repo k = Ok ts ∧ existsb (direct_match sns sid) ts = true.

(** The access [check] decides: membership within [MAX_DEPTH] userset hops. *)
Definition granted (repo : R) (sns sid : string) (root : node) : Prop :=
  ∃ n k, (n ≤ MAX_DEPTH)%nat ∧ hops repo n root k ∧ member repo sns sid k.

End Spec.

(** The direct subjects of an expand tree. *)
Fixpoint direct_leaves (t : ExpandNode) : list (string * string) :=
  match t with
  | Leaf ns sid None => [(ns, sid)]
  | Leaf _ _ (Some _) => []
  | Branch _ _ _ children => concat (map direct_leaves children)
  end.

(** Branch nesting, and no branch below a branch for the same node. *)
Fixpoint tree_depth (t : ExpandNode) : nat :=
  match t with
  | Leaf _ _ _ => O
  | Branch _ _ _ children => S (list_max (map tree_depth children))
  end.

Fixpoint no_repeat (above : list node) (t : ExpandNode) : Prop :=
  match t with
  | Leaf _ _ _ => True
  | Branch ns oid rel children =>
      ((ns, oid, rel) ∉ above) ∧
      (fix all (l : list ExpandNode) : Prop :=
         match l with [] => True | c :: l' => no_repeat (above ++ [(ns, oid, rel)]) c ∧ all l' end)
        children
  end.

(** * Lemmas: userset paths *)

Section Paths.
Context {R : Type} `{RebacRepository R}.

Lemma hops_snoc repo n a b ts c :
  hops repo n a b → node_tuples repo b = Ok ts → c ∈ subnodes ts → hops repo (S n) a c.
Proof.
  intros Hab Hb Hc. induction Hab as [k|n a ts' a' k Ha Ha' Hh IH].
  - econstructor; [done..|constructor].
  - econstructor; [done..|]. by apply IH.
Qed.

Lemma hops_S_inv repo n a c :
  hops repo (S n) a c → ∃ b ts, hops repo n a b ∧ node_tuples repo b = Ok ts ∧ c ∈ subnodes ts.
Proof.
  revert a. induction n as [|n IH]; intros a Hac; inv Hac as [|? ? ts b ? Ha Hb Hbc].
  - inv Hbc. exists a, ts. split; [constructor|done].
  - apply IH in Hbc as (b' & ts' & Hb' & Hts & Hc). exists b', ts'.
    split; [by econstructor|done].
Qed.

(** ** Fuel *)

Lemma walk_size_pos repo d k : (1 ≤ walk_size repo d k)%nat.
Proof. destruct d; simpl; lia. Qed.

Definition queue_size (repo : R) (levels : nat) (q : list (node * nat)) : nat :=
  list_sum (map (fun '(k, d) => walk_size repo (levels - d) k) q).

Lemma queue_size_app repo n q1 q2 :
  queue_size repo n (q1 ++ q2) = (queue_size repo n q1 + queue_size repo n q2)%nat.
Proof. unfold queue_size. by rewrite map_app, list_sum_app. Qed.

Lemma queue_size_cons repo n k d q :
  queue_size repo n ((k, d) :: q) = (walk_size repo (n - d) k + queue_size repo n q)%nat.
Proof. done. Qed.

Lemma queue_size_subnodes repo n d k ts :
  (d < n)%nat → node_tuples repo k = Ok ts →
  walk_size repo (n - d) k = S (queue_size repo n (map (fun c => (c, S d)) (subnodes ts))).
Proof.
  intros Hd Hts. replace (n - d)%nat with (S (n - S d)) by lia. simpl. rewrite Hts.
  unfold queue_size. by rewrite map_map.
Qed.

Lemma check_loop_fuel repo sns sid fuel visited q :
  (queue_size repo (S MAX_DEPTH) q ≤ fuel)%nat →
  is_Some (check_loop repo sns sid fuel visited q).
Proof.
  revert visited q. induction fuel as [|fuel IH]; intros visited [|[k d] q] Hq; try done;
    rewrite queue_size_cons in Hq; pose proof (walk_size_pos repo (S MAX_DEPTH - d) k); [lia|].
  cbn [check_loop]. destruct (Nat.ltb_spec MAX_DEPTH d); [apply IH; lia|].
  case_bool_decide; [apply IH; lia|].
  destruct (node_tuples repo k) as [ts|e] eqn:Hts; [|done].
  destruct (existsb _ ts); [done|]. apply IH. rewrite queue_size_app.
  rewrite (queue_size_subnodes repo (S MAX_DEPTH) d k ts) in Hq; [lia|lia|done].
Qed.

(** ** The invariant of the breadth-first walk

    [seen_at] records the depth each node was visited at.  Queue depths are
    sorted and span at most two levels, so a node is first visited at its least
    depth, and every userset of a visited node is visited or queued one level
    deeper at most. *)

Definition covered (seen_at : gmap node nat) (q : list (node * nat)) (k : node) (n : nat) : Prop :=
  (∃ d, seen_at !! k = Some d ∧ (d ≤ n)%nat) ∨ (∃ d, (k, d) ∈ q ∧ (d ≤ n)%nat).

Record walk_inv (repo : R) (root : node) (q : list (node * nat)) (seen_at : gmap node nat) : Prop := {
  wi_seen : ∀ k d, seen_at !! k = Some d →
    hops repo d root k ∧ (d ≤ MAX_DEPTH)%nat ∧
    ∃ ts, node_tuples repo k = Ok ts ∧
      ∀ c, c ∈ subnodes ts → (S d ≤ MAX_DEPTH)%nat → covered seen_at q c (S d);
  wi_root : covered seen_at q root 0;
  wi_hops : ∀ k d, (k, d) ∈ q → hops repo d root k;
  wi_sorted : StronglySorted le (map snd q);
  wi_span : ∀ k d k' d', (k, d) ∈ q → (k', d') ∈ q → (d' ≤ S d)%nat;
  wi_least : ∀ k d k' d', (k, d) ∈ q → seen_at !! k' = Some d' → (d' ≤ d)%nat
}.

Lemma walk_inv_init repo root : walk_inv repo root [(root, O)] ∅.
Proof.
  split; try done.
  - right. exists O. split; [set_solver|done].
  - intros k d [-> ->]%list_elem_of_singleton%pair_equal_spec. constructor.
  - repeat constructor.
  - intros k d k' d' [_ ->]%list_elem_of_singleton%pair_equal_spec
      [_ ->]%list_elem_of_singleton%pair_equal_spec. lia.
Qed.

(** A queue item that is too deep or already visited can be dropped. *)
Lemma walk_inv_drop repo root k d q seen_at :
  walk_inv repo root ((k, d) :: q) seen_at →
  (MAX_DEPTH < d)%nat ∨ is_Some (seen_at !! k) →
  walk_inv repo root q seen_at.
Proof.
  intros [Hseen Hroot Hhops Hsort Hspan Hleast] Hdrop.
  assert (∀ c n, (n ≤ MAX_DEPTH)%nat → covered seen_at ((k, d) :: q) c n → covered seen_at q c n)
    as Hcov.
  { intros c n Hn [Hc|(d' & Hin & Hd')]; [by left|].
    apply elem_of_cons in Hin as [[= -> ->]|Hin]; [|by right; exists d'].
    destruct Hdrop as [?|[d0 Hd0]]; [lia|]. left. exists d0. split; [done|].
    pose proof (Hleast k d k d0 ltac:(set_solver) Hd0). lia. }
  split.
  - intros k' d' (? & ? & ts & ? & Hall)%Hseen. split_and!; [done..|]. exists ts. auto.
  - apply Hcov; [lia|done].
  - intros. apply Hhops. set_solver.
  - by inv Hsort.
  - intros k1 d1 k2 d2 H1 H2. apply (Hspan k1 d1 k2 d2); by apply elem_of_cons; right.
  - intros k1 d1 k2 d2 H1. apply (Hleast k1 d1). by apply elem_of_cons; right.
Qed.

(** Visiting a fresh node queues usersets of it one level deeper; every userset
    that is not queued must be covered already. *)
Lemma walk_inv_visit repo root k d q q' seen_at ts :
  walk_inv repo root ((k, d) :: q) seen_at →
  seen_at !! k = None → (d ≤ MAX_DEPTH)%nat → node_tuples repo k = Ok ts →
  (∀ c n, (c, n) ∈ q' → c ∈ subnodes ts ∧ n = S d) →
  (∀ c, c ∈ subnodes ts → (S d ≤ MAX_DEPTH)%nat →
     covered (<[k := d]> seen_at) (q ++ q') c (S d)) →
  walk_inv repo root (q ++ q') (<[k := d]> seen_at).
Proof.
  intros [Hseen Hroot Hhops Hsort Hspan Hleast] Hk Hd Hts Hq' Hsub.
  assert (∀ c n, covered seen_at ((k, d) :: q) c n → covered (<[k:=d]> seen_at) (q ++ q') c n) as Hcov.
  { intros c n [(d' & Hc & Hd')|(d' & Hin & Hd')].
    - left. exists d'. rewrite lookup_insert_ne; [done|congruence].
    - apply elem_of_cons in Hin as [[= -> ->]|Hin].
      + left. exists d. by rewrite lookup_insert_eq.
      + right. exists d'. set_solver. }
  assert (∀ k' d', (k', d') ∈ q → (d ≤ d' ≤ S d)%nat) as Hqd.
  { intros k' d' Hin. split; [|eapply Hspan; [by left|by right]].
    inv Hsort as [|? ? ? HF]. rewrite Forall_forall in HF. apply HF.
    apply elem_of_map. by exists (k', d'). }
  assert (∀ k' d', (k', d') ∈ q ++ q' → (d ≤ d' ≤ S d)%nat) as Hqq.
  { intros k' d' [?%Hqd|[_ ->]%Hq']%elem_of_app; lia. }
  split.
  - intros k' d'. rewrite lookup_insert. case_decide as Hkk; [intros [= <-]; subst k'|].
    + split_and!; [apply Hhops; set_solver|done|]. eauto.
    + intros (? & ? & ts' & ? & Hall)%Hseen. split_and!; [done..|]. exists ts'. auto.
  - by apply Hcov.
  - intros k' d' [Hin|[Hin ->]%Hq']%elem_of_app; [apply Hhops; set_solver|].
    apply (hops_snoc repo d root k ts); [apply Hhops; set_solver|done..].
  - rewrite map_app. apply StronglySorted_app. split_and!; [|by inv Hsort|].
    + intros x y ([k1 d1] & -> & Hin%Hqd)%elem_of_map ([k2 d2] & -> & [_ ->]%Hq')%elem_of_map.
      simpl. lia.
    + assert (∀ n, n ∈ map snd q' → n = S d) as Hn
        by (intros n ([? ?] & -> & [_ ->]%Hq')%elem_of_map; done).
      clear -Hn. induction (map snd q') as [|n l IH]; constructor; [apply IH; set_solver|].
      rewrite Forall_forall. intros m Hm. rewrite (Hn n), (Hn m); set_solver.
  - intros k1 d1 k2 d2 H1%Hqq H2%Hqq. lia.
  - intros k1 d1 k2 d2 Hin%Hqq. rewrite lookup_insert. case_decide; [intros [= <-]; lia|].
    intros Hs. pose proof (Hleast k d k2 d2 ltac:(set_solver) Hs). lia.
Qed.

(** When the queue is empty, everything within [MAX_DEPTH] hops was visited. *)
Lemma walk_inv_done repo root seen_at n k :
  walk_inv repo root [] seen_at → (n ≤ MAX_DEPTH)%nat → hops repo n root k →
  ∃ d, seen_at !! k = Some d ∧ (d ≤ n)%nat.
Proof.
  intros [Hseen Hroot _ _ _ _]. assert (∀ c m, covered seen_at [] c m →
    ∃ d, seen_at !! c = Some d ∧ (d ≤ m)%nat) as Hcov.
  { intros c m [?|(? & ?%not_elem_of_nil & _)]; done. }
  revert k. induction n as [|n IH]; intros k Hn Hk.
  - inv Hk. by apply Hcov.
  - apply hops_S_inv in Hk as (b & ts & Hb & Hts & Hc).
    destruct (IH b) as (d & Hd & Hdn); [lia|done|].
    destruct (Hseen _ _ Hd) as (_ & _ & ts' & Hts' & Hall).
    assert (ts' = ts) as -> by congruence.
    destruct (Hcov k (S d)) as (d' & ? & ?); [apply Hall; [done|lia]|].
    exists d'. split; [done|lia].
Qed.

(** ** Check *)

Record check_inv (repo : R) (sns sid : string) (root : node) (visited : gset node)
    (q : list (node * nat)) (seen_at : gmap node nat) : Prop := {
  ci_walk : walk_inv repo root q seen_at;
  ci_dom : ∀ k, k ∈ visited ↔ is_Some (seen_at !! k);
  ci_none : ∀ k, k ∈ visited → ¬ member repo sns sid k
}.

Definition check_answer (repo : R) (sns sid : string) (root : node) (r : QidResult bool) : Prop :=
  match r with
  | Ok true => granted repo sns sid root
  | Ok false => ¬ granted repo sns sid root
  | Err e => ∃ n k, (n ≤ MAX_DEPTH)%nat ∧ hops repo n root k ∧ node_tuples repo k = Err e
  end.

Lemma check_loop_sound repo sns sid root fuel visited q seen_at r :
  check_inv repo sns sid root visited q seen_at →
  check_loop repo sns sid fuel visited q = Some r →
  check_answer repo sns sid root r.
Proof.
  revert visited q seen_at. induction fuel as [|fuel IH]; intros visited [|[k d] q] seen_at Hinv;
    try done; cbn [check_loop].
  1,2: intros [= <-]; destruct Hinv as [Hw Hdom Hno]; intros (n & k & Hn & Hk & Hm);
    destruct (walk_inv_done repo root seen_at n k Hw Hn Hk) as (d & Hd & _);
    apply (Hno k); [apply Hdom; by eexists|done].
  destruct Hinv as [Hw Hdom Hno].
  destruct (Nat.ltb_spec MAX_DEPTH d) as [Hd|Hd].
  { apply (IH _ _ seen_at). split; [|done..]. eapply walk_inv_drop; eauto. }
  case_bool_decide as Hvis.
  { apply (IH _ _ seen_at). split; [|done..]. eapply walk_inv_drop; [done|]. right. by apply Hdom. }
  assert (hops repo d root k) as Hk by (eapply wi_hops; [done|set_solver]).
  destruct (node_tuples repo k) as [ts|e] eqn:Hts; [|intros [= <-]; simpl; eauto 6].
  destruct (existsb (direct_match sns sid) ts) eqn:Hex.
  { intros [= <-]. simpl. exists d, k. split_and!; [done..|]. by exists ts. }
  assert (seen_at !! k = None) as Hkn.
  { apply eq_None_not_Some. by rewrite <- Hdom. }
  apply (IH _ _ (<[k := d]> seen_at)). split.
  - eapply walk_inv_visit; eauto.
    + intros c n (c' & [= -> ->] & ?)%elem_of_map. done.
    + intros c Hc _. right. exists (S d). split; [|done]. apply elem_of_app. right.
      apply elem_of_map. eauto.
  - intros k'. rewrite elem_of_union, elem_of_singleton, Hdom, lookup_insert.
    case_decide; naive_solver.
  - intros k' [->%elem_of_singleton|?]%elem_of_union; [|by apply Hno].
    intros (ts' & Hts' & Hm). congruence.
Qed.

Lemma check_answers repo ns oid rel sns sid :
  check_answer repo sns sid (ns, oid, rel) (check repo ns oid rel sns sid).
Proof.
  unfold check. destruct (check_loop_fuel repo sns sid
    (walk_size repo (S MAX_DEPTH) (ns, oid, rel)) ∅ [((ns, oid, rel), O)]) as [r Hr].
  { rewrite queue_size_cons, Nat.sub_0_r. unfold queue_size. simpl. lia. }
  rewrite Hr. eapply check_loop_sound; [|done]. split.
  - apply walk_inv_init.
  - intros k. rewrite lookup_empty. split; [set_solver|by intros [? ?]].
  - set_solver.
Qed.

(** ** Expand, first phase *)

Lemma enqueue_unseen_spec d subs seen q :
  ∃ new, enqueue_unseen d subs seen q = (list_to_set new ∪ seen, q ++ map (fun c => (c, S d)) new) ∧
    new `sublist_of` subs ∧ NoDup new ∧ (∀ c, c ∈ new → c ∉ seen) ∧
    (∀ c, c ∈ subs → c ∈ seen ∨ c ∈ new).
Proof.
  revert seen q. induction subs as [|k subs IH]; intros seen q; simpl.
  - exists []. simpl. rewrite app_nil_r. split_and!; [f_equal; set_solver|done|constructor|set_solver..].
  - case_bool_decide as Hk.
    + destruct (IH seen q) as (new & -> & Hs & Hn & Hf & Hall). exists new.
      split_and!; [done|by constructor|done|done|set_solver].
    + destruct (IH ({[k]} ∪ seen) (q ++ [(k, S d)])) as (new & -> & Hs & Hn & Hf & Hall).
      exists (k :: new). simpl. rewrite <- app_assoc. split_and!.
      * f_equal. set_solver.
      * by constructor.
      * constructor; [intros ?%Hf; set_solver|done].
      * set_solver.
      * set_solver.
Qed.

Lemma list_sum_sublist (f : node → nat) l1 l2 :
  l1 `sublist_of` l2 → (list_sum (map f l1) ≤ list_sum (map f l2))%nat.
Proof.
  unfold list_sum. induction 1; simpl; lia.
Qed.

Lemma queue_size_sublist repo n d k ts new :
  (d < n)%nat → node_tuples repo k = Ok ts → new `sublist_of` subnodes ts →
  (queue_size repo n (map (fun c => (c, S d)) new) < walk_size repo (n - d) k)%nat.
Proof.
  intros Hd Hts Hsub. rewrite (queue_size_subnodes repo n d k ts Hd Hts).
  unfold queue_size. rewrite !map_map. apply Nat.lt_succ_r.
  by apply (list_sum_sublist (fun c => walk_size repo (n - S d) c)).
Qed.

(** What one iteration leaves to queue. *)
Definition expand_step (depth : nat) (ts : list RelationshipTuple) (seen : gset node)
    (q : list (node * nat)) : gset node * list (node * nat) :=
  if (depth <? MAX_DEPTH)%nat then enqueue_unseen depth (subnodes ts) seen q else (seen, q).

Lemma expand_step_spec repo d k ts seen q :
  node_tuples repo k = Ok ts →
  ∃ new, expand_step d ts seen q = (list_to_set new ∪ seen, q ++ map (fun c => (c, S d)) new) ∧
    (∀ c, c ∈ new → c ∈ subnodes ts ∧ (c ∉ seen) ∧ (S d ≤ MAX_DEPTH)%nat) ∧ NoDup new ∧
    (∀ c, c ∈ subnodes ts → (S d ≤ MAX_DEPTH)%nat → c ∈ seen ∨ c ∈ new) ∧
    (queue_size repo MAX_DEPTH (map (fun c => (c, S d)) new) < walk_size repo (MAX_DEPTH - d) k)%nat.
Proof.
  intros Hts. unfold expand_step. destruct (Nat.ltb_spec d MAX_DEPTH).
  - destruct (enqueue_unseen_spec d (subnodes ts) seen q) as (new & -> & Hs & Hn & Hf & Hall).
    exists new. split_and!; [done| |done|auto|by eapply queue_size_sublist].
    intros c Hc. split_and!; [by eapply elem_of_submseteq, sublist_submseteq|auto|lia].
  - exists []. simpl. rewrite app_nil_r. split_and!; [f_equal; set_solver|set_solver|constructor|lia|].
    apply walk_size_pos.
Qed.

Lemma expand_loop_unfold repo fuel seen k d q groups :
  expand_loop repo (S fuel) seen ((k, d) :: q) groups =
  match node_tuples repo k with
  | Err e => Some (Err e)
  | Ok ts => let '(seen', q') := expand_step d ts seen q in
             expand_loop repo fuel seen' q' (<[k := ts]> groups)
  end.
Proof. done. Qed.

Lemma expand_loop_fuel repo fuel seen q groups :
  (queue_size repo MAX_DEPTH q ≤ fuel)%nat →
  is_Some (expand_loop repo fuel seen q groups).
Proof.
  revert seen q groups. induction fuel as [|fuel IH]; intros seen [|[k d] q] groups Hq; try done;
    rewrite queue_size_cons in Hq; pose proof (walk_size_pos repo (MAX_DEPTH - d) k); [lia|].
  rewrite expand_loop_unfold. destruct (node_tuples repo k) as [ts|e] eqn:Hts; [|done].
  destruct (expand_step_spec repo d k ts seen q Hts) as (new & -> & _ & _ & _ & Hsz).
  apply IH. rewrite queue_size_app. lia.
Qed.

Record expand_inv (repo : R) (root : node) (seen : gset node) (q : list (node * nat))
    (groups : gmap node (list RelationshipTuple)) (seen_at : gmap node nat) : Prop := {
  ei_walk : walk_inv repo root q seen_at;
  ei_seen : ∀ k, k ∈ seen ↔ is_Some (seen_at !! k) ∨ ∃ d, (k, d) ∈ q;
  ei_groups : ∀ k ts, groups !! k = Some ts ↔ is_Some (seen_at !! k) ∧ node_tuples repo k = Ok ts;
  ei_fresh : ∀ k d, (k, d) ∈ q → seen_at !! k = None ∧ (d ≤ MAX_DEPTH)%nat;
  ei_nodup : NoDup (map fst q)
}.

Lemma expand_inv_step repo root seen k d q groups seen_at ts new :
  expand_inv repo root seen ((k, d) :: q) groups seen_at →
  node_tuples repo k = Ok ts →
  (∀ c, c ∈ new → c ∈ subnodes ts ∧ (c ∉ seen) ∧ (S d ≤ MAX_DEPTH)%nat) → NoDup new →
  (∀ c, c ∈ subnodes ts → (S d ≤ MAX_DEPTH)%nat → c ∈ seen ∨ c ∈ new) →
  expand_inv repo root (list_to_set new ∪ seen) (q ++ map (fun c => (c, S d)) new)
    (<[k := ts]> groups) (<[k := d]> seen_at).
Proof.
  intros [Hw Hseen Hgr Hfresh Hnd] Hts Hnew Hndn Hall.
  destruct (Hfresh k d) as [Hk Hd]; [set_solver|].
  assert (∀ c n, (c, n) ∈ map (fun c => (c, S d)) new ↔ c ∈ new ∧ n = S d) as Hq'.
  { intros c n. rewrite elem_of_map. naive_solver. }
  simpl in Hnd. apply NoDup_cons in Hnd as [Hkq Hnd].
  assert (k ∈ seen) as Hkseen by (apply Hseen; right; exists d; set_solver).
  split.
  - apply (walk_inv_visit repo root k d q _ seen_at ts); [done..| |].
    + intros c n [Hc ->]%Hq'. split; [by apply Hnew|done].
    + intros c Hc HSd. destruct (Hall c Hc HSd) as [Hs|Hn].
      * apply Hseen in Hs as [[d' Hd']|[d' Hd']].
        { left. exists d'. destruct (decide (c = k)) as [->|Hck]; [congruence|].
          rewrite lookup_insert_ne by done. split; [done|].
          pose proof (wi_least _ _ _ _ Hw k d c d' ltac:(set_solver) Hd'). lia. }
        apply elem_of_cons in Hd' as [[= -> ->]|Hd'].
        { left. exists d. rewrite lookup_insert_eq. split; [done|lia]. }
        right. exists d'. split; [set_solver|].
        apply (wi_span _ _ _ _ Hw k d c d'); set_solver.
      * right. exists (S d). split; [|done]. apply elem_of_app. right. by apply Hq'.
  - intros k'. rewrite elem_of_union, elem_of_list_to_set, Hseen, lookup_insert.
    setoid_rewrite elem_of_app. setoid_rewrite Hq'. setoid_rewrite elem_of_cons.
    case_decide; naive_solver.
  - intros k' ts'. rewrite !lookup_insert. case_decide; [|by apply Hgr]. subst.
    split; [intros [= ->]; by split|]. intros [_ ?]. congruence.
  - intros k' d' [Hin|[Hin ->]%Hq']%elem_of_app.
    + destruct (Hfresh k' d') as [? ?]; [set_solver|]. split; [|done].
      rewrite lookup_insert_ne; [done|]. intros ->. apply Hkq. apply elem_of_map. by exists (k', d').
    + destruct (Hnew k' Hin) as (_ & Hns & ?). split; [|done].
      rewrite lookup_insert_ne by (intros ->; done).
      apply eq_None_not_Some. intros Hs. apply Hns, Hseen. by left.
  - rewrite map_app, map_map, map_id. apply NoDup_app. split_and!; [done| |done].
    intros c ([c' d'] & -> & Hc)%elem_of_map Hn%Hnew. simpl in Hn.
    apply Hn, Hseen. right. exists d'. set_solver.
Qed.

(** The groups read by the first phase are the nodes within [MAX_DEPTH] hops,
    and [dist] is the least number of hops to each of them. *)
Definition groups_complete (repo : R) (root : node)
    (groups : gmap node (list RelationshipTuple)) (dist : gmap node nat) : Prop :=
  (∀ k ts, groups !! k = Some ts ↔ is_Some (dist !! k) ∧ node_tuples repo k = Ok ts) ∧
  (∀ k d, dist !! k = Some d → hops repo d root k ∧ (d ≤ MAX_DEPTH)%nat ∧
     is_Some (groups !! k)) ∧
  (∀ k n, (n ≤ MAX_DEPTH)%nat → hops repo n root k → ∃ d, dist !! k = Some d ∧ (d ≤ n)%nat).

Lemma expand_loop_sound repo root fuel seen q groups seen_at r :
  expand_inv repo root seen q groups seen_at →
  expand_loop repo fuel seen q groups = Some r →
  match r with
  | Ok groups' => ∃ dist, groups_complete repo root groups' dist
  | Err e => ∃ n k, (n ≤ MAX_DEPTH)%nat ∧ hops repo n root k ∧ node_tuples repo k = Err e
  end.
Proof.
  revert seen q groups seen_at.
  induction fuel as [|fuel IH]; intros seen [|[k d] q] groups seen_at Hinv; try done.
  1,2: intros [= <-]; destruct Hinv as [Hw _ Hgr _ _]; exists seen_at; split_and!; [done| |];
    [intros k d Hk; destruct (wi_seen _ _ _ _ Hw k d Hk) as (? & ? & ts & Hts & _);
     split_and!; [done..|]; exists ts; apply Hgr; by split; [eexists|]
    |intros k n Hn Hk; by eapply walk_inv_done].
  rewrite expand_loop_unfold. destruct (node_tuples repo k) as [ts|e] eqn:Hts.
  - destruct (expand_step_spec repo d k ts seen q Hts) as (new & -> & Hnew & Hnd & Hall & _).
    apply IH with (seen_at := <[k := d]> seen_at). by apply expand_inv_step.
  - intros [= <-]. exists d, k. destruct Hinv as [Hw _ _ Hfresh _]. split_and!; [|by eapply wi_hops; [|left]|done].
    apply (Hfresh k d). set_solver.
Qed.

Lemma expand_inv_init repo root : expand_inv repo root {[root]} [(root, O)] ∅ ∅.
Proof.
  split.
  - apply walk_inv_init.
  - intros k. rewrite lookup_empty, elem_of_singleton. split.
    + intros ->. right. exists O. set_solver.
    + intros [[? ?]|[d [-> _]%list_elem_of_singleton%pair_equal_spec]]; done.
  - intros k ts. rewrite !lookup_empty. split; [done|by intros [[? ?] _]].
  - intros k d [-> ->]%list_elem_of_singleton%pair_equal_spec. rewrite lookup_empty. split; [done|lia].
  - simpl. repeat constructor. apply not_elem_of_nil.
Qed.

(** ** Expand, second phase *)

(** The node one tuple contributes to its branch. *)
Definition child_node (fuel : nat) (groups : gmap node (list RelationshipTuple))
    (ancestry : list node) (t : RelationshipTuple) : ExpandNode :=
  let leaf := Leaf (subject_namespace t) (subject_id t)
                (if is_userset t then Some (subject_relation t) else None) in
  if is_userset t && (length ancestry <=? MAX_DEPTH)%nat then
    match groups !! sub_key t with
    | Some (_ :: _) =>
        if bool_decide (sub_key t ∈ ancestry) then leaf
        else match fuel with
             | O => leaf
             | S fuel' =>
                 Branch (subject_namespace t) (subject_id t) (subject_relation t)
                   (expand_children fuel' groups (sub_key t) (ancestry ++ [sub_key t]))
             end
    | _ => leaf
    end
  else leaf.

Lemma expand_children_eq fuel groups k ancestry :
  expand_children fuel groups k ancestry
  = map (child_node fuel groups ancestry) (default [] (groups !! k)).
Proof. by destruct fuel. Qed.

(** A child is a leaf, or the branch of a node that is not an ancestor. *)
Lemma child_node_cases fuel groups ancestry t :
  child_node fuel groups ancestry t
    = Leaf (subject_namespace t) (subject_id t)
        (if is_userset t then Some (subject_relation t) else None) ∨
  ∃ fuel', fuel = S fuel' ∧ is_userset t = true ∧ (length ancestry ≤ MAX_DEPTH)%nat ∧
    (sub_key t ∉ ancestry) ∧ is_Some (groups !! sub_key t) ∧
    child_node fuel groups ancestry t
      = Branch (subject_namespace t) (subject_id t) (subject_relation t)
          (expand_children fuel' groups (sub_key t) (ancestry ++ [sub_key t])).
Proof.
  unfold child_node. destruct (is_userset t) eqn:Hu; simpl; [|by left].
  destruct (Nat.leb_spec (length ancestry) MAX_DEPTH); [|by left].
  destruct (groups !! sub_key t) as [[|]|] eqn:Hg; [by left| |by left].
  case_bool_decide; [by left|]. destruct fuel as [|fuel']; [by left|].
  right. exists fuel'. by split_and!.
Qed.

Lemma direct_match_leaf sns sid t :
  direct_match sns sid t = true ↔
  is_userset t = false ∧ subject_namespace t = sns ∧ subject_id t = sid.
Proof.
  unfold direct_match, is_userset. rewrite !andb_true_iff, !String.eqb_eq.
  rewrite negb_false_iff. tauto.
Qed.

(** A direct leaf of a node within the depth bound is a grant. *)
Lemma leaf_granted repo root n k ts t sns sid :
  hops repo n root k → (n ≤ MAX_DEPTH)%nat → node_tuples repo k = Ok ts → t ∈ ts →
  (sns, sid) ∈ direct_leaves (Leaf (subject_namespace t) (subject_id t)
                 (if is_userset t then Some (subject_relation t) else None)) →
  granted repo sns sid root.
Proof.
  intros Hk Hn Hts Ht Hin. simpl in Hin. destruct (is_userset t) eqn:Hu; [set_solver|].
  apply list_elem_of_singleton in Hin as [= -> ->]. exists n, k. split_and!; [done..|].
  exists ts. split; [done|]. apply existsb_elem_of. exists t. by rewrite direct_match_leaf.
Qed.

Lemma leaves_granted repo root groups dist sns sid fuel k anc :
  groups_complete repo root groups dist →
  hops repo (MAX_DEPTH - fuel) root k → (fuel ≤ MAX_DEPTH)%nat →
  (sns, sid) ∈ concat (map direct_leaves (expand_children fuel groups k anc)) →
  granted repo sns sid root.
Proof.
  intros Hgc. pose proof Hgc as (Hgr & Hdist & _). revert k anc.
  induction fuel as [fuel IH] using lt_wf_ind; intros k anc Hk Hf.
  rewrite expand_children_eq, elem_of_concat_map. intros (x & (t & -> & Ht)%elem_of_map & Hin).
  destruct (groups !! k) as [ts|] eqn:Hts; simpl in Ht; [|set_solver].
  pose proof (proj1 (Hgr k ts) Hts) as [_ Hnt].
  destruct (child_node_cases fuel groups anc t) as [Hc|(f & -> & Hu & _ & _ & _ & Hc)];
    rewrite Hc in Hin.
  - by eapply leaf_granted; [exact Hk|lia| | |].
  - apply (IH f ltac:(lia) (sub_key t) (anc ++ [sub_key t])); [|lia|exact Hin].
    replace (MAX_DEPTH - f)%nat with (S (MAX_DEPTH - S f)) by lia.
    apply (hops_snoc repo _ root k ts); [done..|]. unfold subnodes. apply elem_of_map. exists t.
    by rewrite elem_of_lfilter.
Qed.

(** Every nonempty node at distance [d] is a branch of the tree, on a path of
    nodes at distance at most [d]. *)
Lemma branch_in_tree repo root groups dist d k ts :
  groups_complete repo root groups dist →
  dist !! k = Some d → groups !! k = Some ts → ts ≠ [] →
  ∃ anc, length anc = S d ∧ (∀ a, a ∈ anc → ∃ d', dist !! a = Some d' ∧ (d' ≤ d)%nat) ∧
    ∀ x, x ∈ concat (map direct_leaves (expand_children (MAX_DEPTH - d) groups k anc)) →
         x ∈ direct_leaves (expand_tree groups root).
Proof.
  intros Hgc. pose proof Hgc as (Hgr & Hdist & Hall). revert k ts.
  induction d as [|d IH]; intros k ts Hk Hts Hne; destruct (Hdist _ _ Hk) as (Hh & Hd & _).
  - inv Hh. exists [k]. split_and!; [done| |].
    + intros a ->%list_elem_of_singleton. eauto.
    + destruct k as [[? ?] ?]. done.
  - apply hops_S_inv in Hh as (b & tb & Hb & Htb & Hkb).
    destruct (Hall b d) as (db & Hdb & Hle); [lia|done|].
    assert (db = d) as ->.
    { destruct (Hdist _ _ Hdb) as (Hhb & _ & _).
      destruct (Hall k (S db)) as (d' & Hd' & ?); [lia|by eapply hops_snoc|].
      assert (d' = S d) by congruence. lia. }
    assert (groups !! b = Some tb) as Hgb by (apply Hgr; split; [by eexists|done]).
    destruct (IH b tb Hdb Hgb) as (anc & Hlen & Hanc & Hin); [by intros ->; set_solver|].
    unfold subnodes in Hkb. apply elem_of_map in Hkb as (t & -> & [Ht Hu]%elem_of_lfilter).
    exists (anc ++ [sub_key t]). split_and!.
    + rewrite length_app. simpl. lia.
    + intros a [Ha| ->%list_elem_of_singleton]%elem_of_app; [|eauto].
      destruct (Hanc a Ha) as (d' & ? & ?). exists d'. split; [done|lia].
    + intros x Hx. apply Hin. rewrite expand_children_eq, Hgb. simpl.
      apply elem_of_concat_map. exists (child_node (MAX_DEPTH - d) groups anc t).
      split; [by apply elem_of_map; exists t|]. unfold child_node. rewrite Hu, Hts.
      assert ((length anc <=? MAX_DEPTH)%nat = true) as -> by (apply Nat.leb_le; lia). simpl.
      destruct ts as [|t0 ts]; [done|].
      rewrite bool_decide_false by (intros (d' & ? & ?)%Hanc; assert (d' = S d) by congruence; lia).
      replace (MAX_DEPTH - d)%nat with (S (MAX_DEPTH - S d)) by lia. exact Hx.
Qed.

Lemma tree_leaves_granted repo root groups dist sns sid :
  groups_complete repo root groups dist →
  (sns, sid) ∈ direct_leaves (expand_tree groups root) ↔ granted repo sns sid root.
Proof.
  intros Hgc. split.
  - destruct root as [[ns oid] rel]. intros Hin.
    apply (leaves_granted repo _ groups dist sns sid MAX_DEPTH (ns, oid, rel) [(ns, oid, rel)]);
      [done| |lia|exact Hin].
    rewrite Nat.sub_diag. constructor.
  - intros (n & k & Hn & Hk & ts & Hts & (t & Ht & Hm)%existsb_elem_of).
    pose proof Hgc as (Hgr & Hdist & Hall). destruct (Hall k n Hn Hk) as (d & Hd & _).
    assert (groups !! k = Some ts) as Hg by (apply Hgr; split; [by eexists|done]).
    destruct (branch_in_tree repo root groups dist d k ts Hgc Hd Hg) as (anc & _ & _ & Hin);
      [by intros ->; set_solver|].
    apply Hin. rewrite expand_children_eq, Hg. simpl. apply elem_of_concat_map.
    exists (child_node (MAX_DEPTH - d) groups anc t). split; [by apply elem_of_map; exists t|].
    apply direct_match_leaf in Hm as (Hu & <- & <-). unfold child_node. rewrite Hu. simpl. set_solver.
Qed.

(** ** The shape of the tree *)

Lemma no_repeat_children above k l :
  no_repeat above (Branch k.1.1 k.1.2 k.2 l) ↔
  (k ∉ above) ∧ ∀ c, c ∈ l → no_repeat (above ++ [k]) c.
Proof.
  destruct k as [[ns oid] rel]. simpl. apply and_iff_compat_l.
  induction l as [|c l IH]; [set_solver|]. rewrite IH. set_solver.
Qed.

Lemma expand_children_shape fuel groups k anc c :
  c ∈ expand_children fuel groups k anc → no_repeat anc c ∧ (tree_depth c ≤ fuel)%nat.
Proof.
  revert k anc c. induction fuel as [fuel IH] using lt_wf_ind; intros k anc c.
  rewrite expand_children_eq. intros (t & -> & _)%elem_of_map.
  destruct (child_node_cases fuel groups anc t) as [->|(f & -> & _ & _ & Hna & _ & ->)];
    [split; [done|simpl; lia]|]. split.
  - apply (no_repeat_children anc (sub_key t)). split; [done|]. intros c Hc.
    apply IH in Hc; [|lia]. apply Hc.
  - simpl. apply le_n_S, list_max_le, List.Forall_forall. intros n Hn%list_elem_of_In.
    apply elem_of_map in Hn as (c & -> & Hc). apply IH in Hc; [|lia]. apply Hc.
Qed.

Lemma expand_tree_shape groups root :
  no_repeat [] (expand_tree groups root) ∧ (tree_depth (expand_tree groups root) ≤ S MAX_DEPTH)%nat.
Proof.
  destruct root as [[ns oid] rel]. unfold expand_tree. split.
  - apply (no_repeat_children [] (ns, oid, rel)). split; [set_solver|].
    intros c Hc%expand_children_shape. apply Hc.
  - cbn [tree_depth]. apply le_n_S, list_max_le, List.Forall_forall. intros n Hn%list_elem_of_In.
    apply elem_of_map in Hn as (c & -> & [_ ?]%expand_children_shape). done.
Qed.

(** ** The composed results *)

Lemma expand_groups repo root r :
  expand_loop repo (walk_size repo MAX_DEPTH root) {[root]} [(root, O)] ∅ = Some r →
  match r with
  | Ok groups => ∃ dist, groups_complete repo root groups dist
  | Err e => ∃ n k, (n ≤ MAX_DEPTH)%nat ∧ hops repo n root k ∧ node_tuples repo k = Err e
  end.
Proof. apply expand_loop_sound with (seen_at := ∅), expand_inv_init. Qed.

Lemma expand_Ok chunks repo ns oid rel limit tree :
  expand chunks repo ns oid rel limit = Ok tree →
  ∃ groups dist, groups_complete repo (ns, oid, rel) groups dist ∧
    tree = expand_tree groups (ns, oid, rel) ∧ is_Some (budget_write limit (chunks tree)).
Proof.
  unfold expand. destruct (expand_loop _ _ _ _ _) as [[groups|e]|] eqn:E; [|done..].
  apply expand_groups in E as [dist Hgc].
  destruct (budget_write _ _) eqn:Hb; [|done]. intros [= <-]. exists groups, dist.
  split_and!; [done..|]. by eexists.
Qed.

Lemma budget_write_spec limit pieces :
  is_Some (budget_write limit pieces) ↔ (list_sum pieces ≤ limit)%nat.
Proof.
  unfold list_sum. revert limit. induction pieces as [|n l IH]; intros limit; simpl.
  - split; [lia|by eexists].
  - destruct (Nat.leb_spec n limit).
    + rewrite IH. lia.
    + split; [by intros [? ?]|lia].
Qed.

End Paths.

(** * Lemmas: the file store *)

Lemma same_identity_refl t : same_relationship_tuple_identity t t = true.
Proof. unfold same_relationship_tuple_identity. by rewrite !String.eqb_refl. Qed.

Lemma same_identity_sym a b :
  same_relationship_tuple_identity a b = same_relationship_tuple_identity b a.
Proof.
  unfold same_relationship_tuple_identity.
  by rewrite (String.eqb_sym (namespace a)), (String.eqb_sym (object_id a)), (String.eqb_sym (relation a)),
    (String.eqb_sym (subject_namespace a)), (String.eqb_sym (subject_id a)), (String.eqb_sym (subject_relation a)).
Qed.

(** No two stored tuples have the same identity. *)
Fixpoint unique_identities (l : list RelationshipTuple) : Prop :=
  match l with
  | [] => True
  | t :: l' => (∀ u, u ∈ l' → same_relationship_tuple_identity t u = false) ∧ unique_identities l'
  end.

Lemma unique_identities_snoc l t :
  unique_identities l → existsb (fun s => same_relationship_tuple_identity s t) l = false →
  unique_identities (l ++ [t]).
Proof.
  rewrite existsb_false. induction l as [|x l IH]; simpl; [intros; split; [set_solver|done]|].
  intros [Hx Hu] Hno. split.
  - intros u [?| ->%list_elem_of_singleton]%elem_of_app; [by apply Hx|apply Hno; set_solver].
  - apply IH; [done|]. intros y Hy. apply Hno. set_solver.
Qed.

Lemma unique_identities_filter p l : unique_identities l → unique_identities (List.filter p l).
Proof.
  induction l as [|x l IH]; simpl; [done|]. intros [Hx Hu]. case_match; [|by apply IH].
  split; [|by apply IH]. intros u [Hu' _]%elem_of_lfilter. by apply Hx.
Qed.

(** Membership in the listing of one node. *)
Lemma elem_of_file_list st ns oid rel ts t :
  file_list_relationship_tuples st ns oid (Some rel) = Ok ts →
  t ∈ ts ↔ t ∈ relationship_tuples st ∧ namespace t = ns ∧ object_id t = oid ∧ relation t = rel.
Proof.
  intros [= <-]. rewrite elem_of_sort_by, !elem_of_lfilter, andb_true_iff, !String.eqb_eq. tauto.
Qed.

(** * Properties *)

Section Properties.
Context {R : Type} `{RebacRepository R}.

(** C2: [check] decides bounded userset reachability on every repository: it
    answers true exactly when the subject is named directly by a node within
    [MAX_DEPTH] userset hops of the requested object and relation (cycles and
    shared usersets included), false when there is none, and fails only with the
    failure of a read of a node within that distance. The walk always ends. *)
Theorem check_decides_bounded_reachability (repo : R) ns oid rel sns sid :
  match check repo ns oid rel sns sid with
  | Ok true => granted repo sns sid (ns, oid, rel)
  | Ok false => ¬ granted repo sns sid (ns, oid, rel)
  | Err e => ∃ n k, (n ≤ MAX_DEPTH)%nat ∧ hops repo n (ns, oid, rel) k ∧ node_tuples repo k = Err e
  end ∧
  is_Some (check_loop repo sns sid (walk_size repo (S MAX_DEPTH) (ns, oid, rel)) ∅
             [((ns, oid, rel), O)]).
Proof.
  split; [apply check_answers|]. apply check_loop_fuel.
  rewrite queue_size_cons, Nat.sub_0_r. unfold queue_size. simpl. lia.
Qed.

(** C34: [expand] and [check] agree: whenever an expand tree is returned, a
    subject is a direct leaf of the tree exactly when [check] allows it, and
    [check] does not fail. *)
Theorem expand_agrees_with_check chunks (repo : R) ns oid rel limit tree sns sid :
  expand chunks repo ns oid rel limit = Ok tree →
  check repo ns oid rel sns sid = Ok (bool_decide ((sns, sid) ∈ direct_leaves tree)).
Proof.
  intros (groups & dist & Hgc & -> & _)%expand_Ok.
  pose proof (check_answers repo ns oid rel sns sid) as Ha.
  pose proof (tree_leaves_granted repo (ns, oid, rel) groups dist sns sid Hgc) as Ht.
  destruct (check repo ns oid rel sns sid) as [[]|e]; simpl in Ha.
  - by rewrite bool_decide_true by by apply Ht.
  - rewrite bool_decide_false; [done|]. by rewrite Ht.
  - destruct Ha as (n & k & Hn & Hk & He). destruct Hgc as (Hgr & Hdist & Hall).
    destruct (Hall k n Hn Hk) as (d & (_ & _ & [ts Hts])%Hdist & _).
    apply Hgr in Hts as [_ ?]. congruence.
Qed.

(** An expand tree is finite and cycle-free whatever the stored tuples: no
    branch lies below a branch for the same object and relation, branches nest
    at most [S MAX_DEPTH] deep, and the tree is returned only when the pieces
    of its response fit in the byte limit. *)
Theorem expand_tree_bounded chunks (repo : R) ns oid rel limit tree :
  expand chunks repo ns oid rel limit = Ok tree →
  no_repeat [] tree ∧ (tree_depth tree ≤ S MAX_DEPTH)%nat ∧ (list_sum (chunks tree) ≤ limit)%nat.
Proof.
  intros (groups & dist & _ & -> & Hb)%expand_Ok.
  destruct (expand_tree_shape groups (ns, oid, rel)). by rewrite <- budget_write_spec.
Qed.

End Properties.

(** The file store never holds two tuples of one identity, creation of a
    new tuple makes exactly it listed, and deletion makes exactly its identity
    disappear, for every outcome of the save. *)
Theorem file_store_tuple_identity t st :
  unique_identities (relationship_tuples st) →
  (unique_identities (relationship_tuples (file_create_relationship_tuple t st).2) ∧
   unique_identities (relationship_tuples (file_delete_relationship_tuple t st).2)) ∧
  (∀ u, u ∈ relationship_tuples (file_create_relationship_tuple t st).2 ↔
     u ∈ relationship_tuples st ∨
     (u = t ∧ existsb (fun s => same_relationship_tuple_identity s t) (relationship_tuples st) = false)) ∧
  (∀ u, u ∈ relationship_tuples (file_delete_relationship_tuple t st).2 ↔
     u ∈ relationship_tuples st ∧ same_relationship_tuple_identity u t = false).
Proof.
  intros Hu. unfold file_create_relationship_tuple, file_delete_relationship_tuple.
  destruct (existsb _ _) eqn:Hex; simpl; split_and!; try done.
  - by apply unique_identities_filter.
  - intros u. split; [by left|]. intros [?|[_ ?]]; done.
  - intros u. by rewrite elem_of_lfilter, negb_true_iff.
  - by apply unique_identities_snoc.
  - by apply unique_identities_filter.
  - intros u. rewrite elem_of_app, list_elem_of_singleton. naive_solver.
  - intros u. by rewrite elem_of_lfilter, negb_true_iff.
Qed.

(** ** Witnesses *)

Definition w_tuple (ns oid rel sns sid srel : string) : RelationshipTuple :=
  {| namespace := ns; object_id := oid; relation := rel; subject_namespace := sns;
     subject_id := sid; subject_relation := srel; created_at_epoch_seconds := 1 |}.

(** A cyclic pair of groups below one document. *)
Definition w_store : FileStore := {|
  relationship_tuples := [
    w_tuple "doc" "1" "viewer" "group" "eng" "member";
    w_tuple "group" "eng" "member" "group" "ops" "member";
    w_tuple "group" "ops" "member" "group" "eng" "member";
    w_tuple "group" "ops" "member" "user" "alice" ""];
  saves := [] |}.

Example w_check : check w_store "doc" "1" "viewer" "user" "alice" = Ok true.
Proof. vm_compute. reflexivity. Qed.

Lemma expand_agrees_with_check_witness :
  ∃ tree, expand (fun _ => [10%nat]) w_store "doc" "1" "viewer" 64 = Ok tree ∧
    check w_store "doc" "1" "viewer" "user" "alice"
    = Ok (bool_decide (("user", "alice") ∈ direct_leaves tree)).
Proof.
  eexists. split; [vm_compute; reflexivity|].
  apply (expand_agrees_with_check (fun _ => [10%nat]) w_store "doc" "1" "viewer" 64).
  vm_compute. reflexivity.
Defined.

Lemma expand_tree_bounded_witness :
  ∃ tree, expand (fun _ => [10%nat]) w_store "doc" "1" "viewer" 64 = Ok tree ∧
    (tree_depth tree ≤ S MAX_DEPTH)%nat.
Proof.
  eexists. split; [vm_compute; reflexivity|].
  apply (expand_tree_bounded (fun _ => [10%nat]) w_store "doc" "1" "viewer" 64).
  vm_compute. reflexivity.
Defined.

Lemma file_store_tuple_identity_witness :
  unique_identities (relationship_tuples
    (file_delete_relationship_tuple (w_tuple "group" "ops" "member" "user" "alice" "") w_store).2).
Proof.
  apply (file_store_tuple_identity (w_tuple "group" "ops" "member" "user" "alice" "") w_store).
  simpl. split_and!; try done; intros u Hu;
    repeat (apply elem_of_cons in Hu as [->|Hu]; [reflexivity|]); by apply not_elem_of_nil in Hu.
Defined.

End Rebac.
