(* ===== verification/Iga.v ===== *)
(** Identity governance: the access-request engine (src/qid-iga/src/engine.rs),
    the reconciliation of approved requests with stored grants
    (src/qid-storage/src/iga_grants.rs) and the grant operations of the file
    store (src/qid-storage/src/file/iga.rs).

    Fresh identifiers ([Ulid::new]) and clock reads are arguments.  A [HashMap]
    or [HashSet] is a [gmap] or the list it was collected from, used through
    lookup and membership only.  A persistence attempt is an argument: its
    outcome. *)

From S2P Require Import Prelude Utf8 Json.

Module Iga.

(** * Data *)

Inductive EntitlementRiskLevel : Type := Low | Medium | High | Critical.

Definition risk_rank (l : EntitlementRiskLevel) : nat :=
  match l with Low => 0 | Medium => 1 | High => 2 | Critical => 3 end.

(** The derived [Ord] on [EntitlementRiskLevel]. *)
Definition risk_geb (a b : EntitlementRiskLevel) : bool := (risk_rank b <=? risk_rank a)%nat.

Inductive AccessRequestStatus : Type := AutoApproved | ApprovalRequired | Rejected.

#[global] Instance AccessRequestStatus_eq_dec : EqDecision AccessRequestStatus.
Proof. solve_decision. Defined.

Inductive AccessApprovalDecision : Type := Approved | RejectedDecision.

Inductive AccessReviewRecommendation : Type := Certify | Revoke | Investigate.

Record Entitlement : Type := {
  id : string;
  display_name : string;
  owner : string;
  risk_level : EntitlementRiskLevel;
  conflicting_entitlements : list string;
  max_duration_seconds : option N
}.

Record ApprovalStep : Type := { approver : string; step_reason : string }.

Record AccessRequestEvaluation : Type := {
  request_id : string;
  subject : string;
  entitlement : string;
  status : AccessRequestStatus;
  approval_steps : list ApprovalStep;
  violations : list string;
  expires_at_epoch_seconds : option N
}.

Record AccessPackageEvaluation : Type := {
  pkg_request_id : string;
  pkg_subject : string;
  access_package_id : string;
  pkg_status : AccessRequestStatus;
  pkg_approval_steps : list ApprovalStep;
  pkg_violations : list string;
  pkg_expires_at_epoch_seconds : option N;
  pkg_entitlements : list AccessRequestEvaluation
}.

Record AccessApprovalRecord : Type := {
  ap_id : string;
  ap_request_id : string;
  ap_approver : string;
  ap_decision : AccessApprovalDecision;
  approved_at_epoch_seconds : N;
  ap_expires_at_epoch_seconds : option N;
  ap_reason : option string
}.

Record ApprovalValidation : Type := {
  valid : bool;
  missing_approvers : list string;
  rejected_approvers : list string;
  av_violations : list string
}.

Record TimeBoundAccessGrant : Type := {
  tb_id : string;
  tb_request_id : string;
  tb_subject : string;
  tb_entitlement : string;
  granted_at_epoch_seconds : N;
  tb_expires_at_epoch_seconds : option N;
  tb_approvals : list string
}.

Record AccessReviewSubject : Type := {
  rv_subject : string;
  rv_entitlements : list string;
  recommendation : AccessReviewRecommendation;
  reasons : list string
}.

Record AccessReviewCampaign : Type := {
  rc_id : string; reviewer : string; subjects : list AccessReviewSubject
}.

(** * The access-request engine *)

Definition approval_steps_for (e : Entitlement) (vs : list string) : list ApprovalStep :=
  (if risk_geb (risk_level e) Medium
   then [{| approver := owner e; step_reason := "owner_approval_required" |}] else [])
  ++ (if risk_geb (risk_level e) High || match vs with [] => false | _ => true end
      then [{| approver := "security-admin"; step_reason := "security_approval_required" |}] else []).

(** Conflicts the requested entitlement declares against held ones. *)
Definition declared_conflicts (e : Entitlement) (entitlement_id : string) (current : list string)
    : list string :=
  map (fun conflict => "sod_conflict:" +:+ conflict)
    (List.filter (fun conflict => negb (String.eqb conflict entitlement_id) && str_in conflict current)
       (conflicting_entitlements e)).

(** Conflicts held entitlements declare against the requested one. *)
Definition held_conflicts (e : Entitlement) (entitlement_id : string) (current : list string)
    (catalog : list Entitlement) : list string :=
  map (fun held => "sod_conflict:" +:+ id held)
    (List.filter (fun held =>
        negb (String.eqb (id held) (id e)) && str_in (id held) current
        && existsb (fun i => String.eqb i entitlement_id) (conflicting_entitlements held)
        && negb (str_in (id held) (conflicting_entitlements e))) catalog).

Definition effective_duration (requested max : option N) : option N * list string :=
  match requested, max with
  | Some r, Some m => if m <? r then (Some m, ["duration_exceeds_entitlement_max"]) else (Some r, [])
  | Some r, None => (Some r, [])
  | None, m => (m, [])
  end.

Definition evaluate_access_request (new_id : string) (now : N) (subj entitlement_id : string)
    (current_entitlements : list string) (requested_duration_seconds : option N)
    (catalog : list Entitlement) : AccessRequestEvaluation :=
  match List.find (fun item => String.eqb (id item) entitlement_id) catalog with
  | None =>
      {| request_id := new_id; subject := subj; entitlement := entitlement_id; status := Rejected;
         approval_steps := []; violations := ["unknown_entitlement"]; expires_at_epoch_seconds := None |}
  | Some e =>
      let v1 := declared_conflicts e entitlement_id current_entitlements in
      let v2 := held_conflicts e entitlement_id current_entitlements catalog in
      let '(duration, v3) := effective_duration requested_duration_seconds (max_duration_seconds e) in
      let '(expires, overflow) :=
        match duration with
        | Some d => match checked_add64 now d with
                    | Some x => (Some x, false)
                    | None => (None, true)
                    end
        | None => (None, false)
        end in
      let vs := v1 ++ v2 ++ v3 ++ (if overflow : bool then ["duration_overflow"] else []) in
      let steps := approval_steps_for e vs in
      let st :=
        if overflow || (match vs with [] => false | _ => true end && risk_geb (risk_level e) High)
        then Rejected
        else match steps with [] => AutoApproved | _ => ApprovalRequired end in
      {| request_id := new_id; subject := subj; entitlement := entitlement_id; status := st;
         approval_steps := steps; violations := vs; expires_at_epoch_seconds := expires |}
  end.

(** The state of the loop of [build_access_package_evaluation]. *)
Record package_acc : Type := {
  acc_steps : list ApprovalStep;
  acc_seen : gset string;
  acc_violations : list string;
  acc_expires : option N;
  acc_status : AccessRequestStatus
}.

Definition add_step (acc : list ApprovalStep * gset string) (step : ApprovalStep)
    : list ApprovalStep * gset string :=
  let key := approver step +:+ ":" +:+ step_reason step in
  if bool_decide (key ∈ acc.2) then acc else (acc.1 ++ [step], {[key]} ∪ acc.2).

Definition min_expiry (current candidate : option N) : option N :=
  match current, candidate with
  | Some a, Some b => Some (N.min a b)
  | None, Some b => Some b
  | a, None => a
  end.

Definition combine_status (st ev : AccessRequestStatus) : AccessRequestStatus :=
  match st, ev with
  | _, Rejected => Rejected
  | AutoApproved, ApprovalRequired => ApprovalRequired
  | s, _ => s
  end.

Definition package_step (acc : package_acc) (ev : AccessRequestEvaluation) : package_acc :=
  let '(steps, seen) := foldl add_step (acc_steps acc, acc_seen acc) (approval_steps ev) in
  {| acc_steps := steps; acc_seen := seen;
     acc_violations := acc_violations acc
       ++ map (fun v => entitlement ev +:+ ":" +:+ v) (violations ev);
     acc_expires := min_expiry (acc_expires acc) (expires_at_epoch_seconds ev);
     acc_status := combine_status (acc_status acc) (status ev) |}.

Definition build_access_package_evaluation (rid subj package_id : string)
    (ents : list AccessRequestEvaluation) : AccessPackageEvaluation :=
  let acc := foldl package_step
    {| acc_steps := []; acc_seen := ∅; acc_violations := []; acc_expires := None;
       acc_status := AutoApproved |} ents in
  {| pkg_request_id := rid; pkg_subject := subj; access_package_id := package_id;
     pkg_status := acc_status acc; pkg_approval_steps := acc_steps acc;
     pkg_violations := acc_violations acc; pkg_expires_at_epoch_seconds := acc_expires acc;
     pkg_entitlements := ents |}.

(** What one approval record adds: violations, an approving name, a rejecting name. *)
Definition approval_expired (o : option N) (now : N) : bool :=
  match o with Some x => x <=? now | None => false end.

Definition approval_violations (ev : AccessRequestEvaluation) (now : N) (a : AccessApprovalRecord)
    : list string :=
  (if Utf8.blank (ap_id a) then ["approval_id_empty"] else [])
  ++ (if negb (String.eqb (ap_request_id a) (request_id ev))
      then ["approval_request_mismatch:" +:+ ap_id a]
      else (if String.eqb (ap_approver a) (subject ev)
            then ["self_approval:" +:+ ap_approver a] else [])
           ++ (if now <? approved_at_epoch_seconds a
               then ["approval_in_future:" +:+ ap_id a] else [])
           ++ (if approval_expired (ap_expires_at_epoch_seconds a) now
               then ["approval_expired:" +:+ ap_id a] else [])).

Definition counted (ev : AccessRequestEvaluation) (a : AccessApprovalRecord) : bool :=
  String.eqb (ap_request_id a) (request_id ev).

Definition approving (a : AccessApprovalRecord) : bool :=
  match ap_decision a with Approved => true | RejectedDecision => false end.

Definition sort_dedup (l : list string) : list string := dedup String.eqb (sort_by str_leb l).

Definition validate_access_request_approvals (ev : AccessRequestEvaluation)
    (approvals : list AccessApprovalRecord) (now : N) : ApprovalValidation :=
  let vs :=
    (if bool_decide (status ev = Rejected) then ["request_rejected"] else [])
    ++ (if approval_expired (expires_at_epoch_seconds ev) now then ["request_expired"] else [])
    ++ concat (map (approval_violations ev now) approvals) in
  let mine := List.filter (counted ev) approvals in
  let approved_by := map ap_approver (List.filter approving mine) in
  let rejected := map ap_approver (List.filter (fun a => negb (approving a)) mine) in
  let missing := map approver
    (List.filter (fun step => negb (str_in (approver step) approved_by)) (approval_steps ev)) in
  let missing' := sort_dedup missing in
  let rejected' := sort_dedup rejected in
  let vs' := sort_dedup vs in
  {| valid := match vs', missing', rejected' with [], [], [] => true | _, _, _ => false end;
     missing_approvers := missing'; rejected_approvers := rejected'; av_violations := vs' |}.

Definition issue_time_bound_access_grant (new_id : string) (ev : AccessRequestEvaluation)
    (approvals : list AccessApprovalRecord) (now : N)
    : result TimeBoundAccessGrant ApprovalValidation :=
  let validation := validate_access_request_approvals ev approvals now in
  if negb (valid validation) then Err validation
  else Ok {| tb_id := new_id; tb_request_id := request_id ev; tb_subject := subject ev;
             tb_entitlement := entitlement ev; granted_at_epoch_seconds := now;
             tb_expires_at_epoch_seconds := expires_at_epoch_seconds ev;
             tb_approvals := map ap_id (List.filter (counted ev) approvals) |}.

Definition with_entitlement (ev : AccessRequestEvaluation) (member_id : string)
    : AccessRequestEvaluation :=
  {| request_id := request_id ev; subject := subject ev; entitlement := member_id;
     status := status ev; approval_steps := approval_steps ev; violations := violations ev;
     expires_at_epoch_seconds := expires_at_epoch_seconds ev |}.

(** [new_id m] is the fresh grant id for member [m]. *)
Definition issue_package_member_grants (new_id : string → string) (ev : AccessRequestEvaluation)
    (member_ids : list string) (approvals : list AccessApprovalRecord) (now : N)
    : QidResult (list TimeBoundAccessGrant) :=
  res_mapM (fun member_id =>
    map_err (fun _ => Internal ("package member " +:+ member_id
                        +:+ " failed grant validation after package approval"))
      (issue_time_bound_access_grant (new_id member_id) (with_entitlement ev member_id) approvals now))
    member_ids.

(** * Access reviews *)

Definition sod_conflicts (assigned : list string) (catalog : list Entitlement) : list string :=
  sort_dedup (concat (map (fun e =>
    if str_in (id e) assigned then
      map (fun conflict => id e +:+ "+" +:+ conflict)
        (List.filter (fun conflict => str_in conflict assigned) (conflicting_entitlements e))
    else []) catalog)).

Definition review_reasons (catalog : list Entitlement) (dormant orphan : list string)
    (subj : string) (ents : list string) : list string :=
  let high_risk := map id (List.filter (fun e => risk_geb (risk_level e) High) catalog) in
  (if str_in subj dormant then ["dormant_subject"] else [])
  ++ (if str_in subj orphan then ["orphan_subject"] else [])
  ++ (if existsb (fun e => str_in e high_risk) ents then ["high_risk_entitlement"] else [])
  ++ map (fun conflict => "sod_conflict:" +:+ conflict) (sod_conflicts ents catalog).

Definition recommend (rs : list string) : AccessReviewRecommendation :=
  if existsb (fun reason => String.eqb reason "orphan_subject" || starts_with "sod_conflict:" reason) rs
  then Revoke
  else match rs with [] => Certify | _ => Investigate end.

Definition build_access_review_campaign (cid rev : string) (assignments : gmap string (list string))
    (catalog : list Entitlement) (dormant orphan : list string) : AccessReviewCampaign :=
  {| rc_id := cid; reviewer := rev;
     subjects := sort_by (fun a b => str_leb (rv_subject a) (rv_subject b))
       (map (fun '(subj, ents) =>
          let rs := review_reasons catalog dormant orphan subj ents in
          {| rv_subject := subj; rv_entitlements := ents; recommendation := recommend rs; reasons := rs |})
        (map_to_list assignments)) |}.

(** * Catalog records *)

Record IgaEntitlementRecord : Type := {
  er_id : string; er_tenant_id : string; er_display_name : string; er_owner : string;
  er_risk_level : string; er_conflicting_entitlements : list string;
  er_max_duration_seconds : option N; er_active : bool
}.

Definition risk_level_as_str (l : EntitlementRiskLevel) : string :=
  match l with Low => "low" | Medium => "medium" | High => "high" | Critical => "critical" end.

Definition risk_level_from_str (value : string) : EntitlementRiskLevel :=
  if String.eqb value "medium" then Medium
  else if String.eqb value "high" then High
  else if String.eqb value "critical" then Critical
  else Low.

Definition entitlement_from_record (r : IgaEntitlementRecord) : Entitlement :=
  {| id := er_id r; display_name := er_display_name r; owner := er_owner r;
     risk_level := risk_level_from_str (er_risk_level r);
     conflicting_entitlements := er_conflicting_entitlements r;
     max_duration_seconds := er_max_duration_seconds r |}.

(** [catalog_for_tenant], from the outcome of [list_iga_entitlements]. *)
Definition catalog_for_tenant (stored : QidResult (list IgaEntitlementRecord)) : QidResult (list Entitlement) :=
  let? rs := stored in Ok (map entitlement_from_record (List.filter er_active rs)).

(** * Stored grants *)

Record IgaAccessGrantRecord : Type := {
  gr_id : string;
  gr_tenant_id : string;
  gr_request_id : string;
  gr_subject : string;
  gr_entitlement : string;
  gr_granted_at_epoch_seconds : N;
  gr_expires_at_epoch_seconds : option N;
  gr_approval_ids : list string;
  gr_revoked : bool
}.

Definition grant_validate (g : IgaAccessGrantRecord) : QidResult unit :=
  Utf8.require_non_empty "IGA access grant id" (gr_id g) ?;
  Utf8.require_non_empty "IGA access grant tenant_id" (gr_tenant_id g) ?;
  Utf8.require_non_empty "IGA access grant request_id" (gr_request_id g) ?;
  Utf8.require_non_empty "IGA access grant subject" (gr_subject g) ?;
  Utf8.require_non_empty "IGA access grant entitlement" (gr_entitlement g) ?;
  if gr_granted_at_epoch_seconds g =? 0
  then Err (BadRequest "IGA access grant granted_at_epoch_seconds must be set")
  else if match gr_expires_at_epoch_seconds g with
          | Some x => x <=? gr_granted_at_epoch_seconds g | None => false end
  then Err (BadRequest "IGA access grant expires_at_epoch_seconds must be after granted_at_epoch_seconds")
  else res_foldl (fun _ a => Utf8.require_non_empty "IGA access grant approval_id" a) tt (gr_approval_ids g).

Section Grants.
Context {Num : Type}.

Record IgaAccessRequestRecord : Type := {
  rq_id : string;
  rq_tenant_id : string;
  rq_subject : string;
  rq_entitlement : string;
  rq_reason : option string;
  rq_status : string;
  rq_approval_steps_json : Value Num;
  rq_violations_json : Value Num;
  rq_package_entitlement_ids_json : Value Num;
  rq_expires_at_epoch_seconds : option N;
  rq_created_at_epoch_seconds : N
}.

(** [serde_json::from_value::<Vec<String>>] *)
Definition value_strings (v : Value Num) : option (list string) :=
  match v with
  | VArray items => mapM (fun i => match i with VString s => Some s | _ => None end) items
  | _ => None
  end.

Definition same_binding (a b : IgaAccessGrantRecord) : bool :=
  String.eqb (gr_tenant_id a) (gr_tenant_id b) && String.eqb (gr_request_id a) (gr_request_id b)
  && String.eqb (gr_subject a) (gr_subject b).

Definition invalid (message : string) : QidError := BadRequest message.

Definition validate_candidates (candidates : list IgaAccessGrantRecord) : QidResult IgaAccessGrantRecord :=
  match candidates with
  | [] => Err (invalid "IGA grant candidates must not be empty")
  | first :: _ =>
      let? _ := res_foldl (fun '(ents, ids) c =>
        grant_validate c ?;
        if gr_revoked c || negb (same_binding c first)
           || bool_decide (gr_entitlement c ∈ ents) || bool_decide (gr_id c ∈ ids)
        then Err (invalid "IGA grant candidates have mixed or duplicate bindings")
        else Ok ({[gr_entitlement c]} ∪ ents, {[gr_id c]} ∪ ids))
        (∅ : gset string, ∅ : gset string) candidates in
      Ok first
  end.

(** The loop over the incumbents: the entitlements already granted. *)
Definition present_step (first : IgaAccessGrantRecord) (candidates : list IgaAccessGrantRecord)
    (present : gset string) (i : IgaAccessGrantRecord) : QidResult (gset string) :=
  grant_validate i ?;
  if negb (same_binding i first)
     || negb (str_in (gr_entitlement i) (map gr_entitlement candidates))
     || bool_decide (gr_entitlement i ∈ present)
     || existsb (fun c => String.eqb (gr_id c) (gr_id i)
                          && negb (String.eqb (gr_entitlement c) (gr_entitlement i))) candidates
  then Err (invalid "IGA access request has inconsistent incumbent grant bindings")
  else Ok ({[gr_entitlement i]} ∪ present).

Definition missing_grants (candidates : list IgaAccessGrantRecord) (request : IgaAccessRequestRecord)
    (incumbents : list IgaAccessGrantRecord) : QidResult (list IgaAccessGrantRecord) :=
  match candidates with
  | [] => Err (invalid "IGA grant candidates must not be empty")
  | first :: _ =>
      if negb (String.eqb (rq_status request) "approved")
         || negb (String.eqb (rq_tenant_id request) (gr_tenant_id first))
         || negb (String.eqb (rq_id request) (gr_request_id first))
         || negb (String.eqb (rq_subject request) (gr_subject first))
      then Err (invalid "IGA grant candidates do not match their access request")
      else
        let? expected :=
          if starts_with "access_package:" (rq_entitlement request)
          then ok_or (value_strings (rq_package_entitlement_ids_json request))
                 (invalid "IGA access package snapshot is malformed")
          else Ok [rq_entitlement request] in
        let bindings : gset string := list_to_set (map gr_entitlement candidates) in
        if match expected with [] => true | _ => false end
           || negb (length expected =? size bindings)%nat
           || negb (bool_decide ((list_to_set expected : gset string) = bindings))
        then Err (invalid "IGA grant candidates must cover the complete request snapshot")
        else
          let? present := res_foldl (present_step first candidates) ∅ incumbents in
          Ok (List.filter (fun c => negb (bool_decide (gr_entitlement c ∈ present))) candidates)
  end.

(** The part of the file [Store] these operations use. *)
Record GrantStore : Type := {
  iga_access_requests : gmap string IgaAccessRequestRecord;
  iga_access_grants : gmap string IgaAccessGrantRecord;
  dirty : bool
}.

Inductive FileFlushMode : Type := Immediate | Interval.

Definition with_grants (st : GrantStore) (g : gmap string IgaAccessGrantRecord) : GrantStore :=
  {| iga_access_requests := iga_access_requests st; iga_access_grants := g; dirty := dirty st |}.

Definition mark_dirty (st : GrantStore) : GrantStore :=
  {| iga_access_requests := iga_access_requests st; iga_access_grants := iga_access_grants st;
     dirty := true |}.

Definition insert_grants (gs : list IgaAccessGrantRecord) (m : gmap string IgaAccessGrantRecord) :=
  foldl (fun m g => <[gr_id g := g]> m) m gs.

Definition foreign_binding (m : gmap string IgaAccessGrantRecord) (c : IgaAccessGrantRecord) : bool :=
  match m !! gr_id c with
  | Some i => negb (same_binding i c) || negb (String.eqb (gr_entitlement i) (gr_entitlement c))
  | None => false
  end.

(** [ensure_iga_access_grants] with its inner function; [write] is the outcome of
    the persistence attempt of immediate mode. *)
Definition ensure_iga_access_grants (mode : FileFlushMode) (write : QidResult unit)
    (candidates : list IgaAccessGrantRecord) (st : GrantStore)
    : QidResult (list IgaAccessGrantRecord) * GrantStore :=
  match validate_candidates candidates with
  | Err e => (Err e, st)
  | Ok first =>
    match iga_access_requests st !! gr_request_id first with
    | None => (Err (BadRequest "IGA access request not found"), st)
    | Some request =>
      if negb (String.eqb (rq_tenant_id request) (gr_tenant_id first))
      then (Err (BadRequest "IGA access request not found"), st)
      else
        let incumbents := List.filter (fun g =>
            String.eqb (gr_tenant_id g) (gr_tenant_id first)
            && String.eqb (gr_request_id g) (gr_request_id first))
          (map snd (map_to_list (iga_access_grants st))) in
        match missing_grants candidates request incumbents with
        | Err e => (Err e, st)
        | Ok missing =>
          if existsb (foreign_binding (iga_access_grants st)) candidates
          then (Err (BadRequest "IGA grant ID belongs to another binding"), st)
          else match missing with
          | [] => (Ok missing, st)
          | _ =>
            let st' := with_grants st (insert_grants missing (iga_access_grants st)) in
            match mode with
            | Immediate => match write with
                           | Ok _ => (Ok missing, st')
                           | Err e => (Err e, st)
                           end
            | Interval => (Ok missing, mark_dirty st')
            end
          end
        end
    end
  end.

Definition list_iga_access_grants (st : GrantStore) (tenant_id : string) (subj : option string)
    : list IgaAccessGrantRecord :=
  sort_by (fun a b =>
      match N.compare (gr_granted_at_epoch_seconds b) (gr_granted_at_epoch_seconds a) with
      | Lt => true | Gt => false | Eq => str_leb (gr_id a) (gr_id b) end)
    (List.filter (fun g => String.eqb (gr_tenant_id g) tenant_id
        && match subj with Some v => String.eqb (gr_subject g) v | None => true end)
      (map snd (map_to_list (iga_access_grants st)))).

Definition revoked_grant (g : IgaAccessGrantRecord) : IgaAccessGrantRecord :=
  {| gr_id := gr_id g; gr_tenant_id := gr_tenant_id g; gr_request_id := gr_request_id g;
     gr_subject := gr_subject g; gr_entitlement := gr_entitlement g;
     gr_granted_at_epoch_seconds := gr_granted_at_epoch_seconds g;
     gr_expires_at_epoch_seconds := gr_expires_at_epoch_seconds g;
     gr_approval_ids := gr_approval_ids g; gr_revoked := true |}.

Definition revoke_iga_access_grant (save : QidResult unit) (tenant_id gid : string) (st : GrantStore)
    : QidResult unit * GrantStore :=
  (save,
   match iga_access_grants st !! gid with
   | Some g => if String.eqb (gr_tenant_id g) tenant_id
               then with_grants st (<[gid := revoked_grant g]> (iga_access_grants st)) else st
   | None => st
   end).

(** The revocation loop of [revoke_active_grants_for_subject_entitlements];
    [saves] are the outcomes of its saves (none left means success). *)
Fixpoint revoke_all (saves : list (QidResult unit)) (tenant_id : string) (ids done_ids : list string)
    (st : GrantStore) : QidResult (list string) * GrantStore :=
  match ids with
  | [] => (Ok done_ids, st)
  | gid :: rest =>
      match revoke_iga_access_grant (default (Ok tt) (head saves)) tenant_id gid st with
      | (Err e, st') => (Err e, st')
      | (Ok _, st') => revoke_all (tail saves) tenant_id rest (done_ids ++ [gid]) st'
      end
  end.

Definition revoke_active_grants_for_subject_entitlements (saves : list (QidResult unit))
    (tenant_id subj : string) (ents : list string) (st : GrantStore)
    : QidResult (list string) * GrantStore :=
  let grants := List.filter (fun g => negb (gr_revoked g)
      && (match ents with [] => true | _ => false end || str_in (gr_entitlement g) ents))
    (list_iga_access_grants st tenant_id (Some subj)) in
  revoke_all saves tenant_id (map gr_id grants) [] st.

End Grants.
Arguments IgaAccessRequestRecord : clear implicits.
Arguments GrantStore : clear implicits.

(** * Access decisions *)

(** The contract of an automatic approval. *)
Definition sod_free (e : Entitlement) (entitlement_id : string) (current : list string)
    (catalog : list Entitlement) : Prop :=
  (∀ c, c ∈ conflicting_entitlements e → c ≠ entitlement_id → c ∉ current) ∧
  (∀ held, held ∈ catalog → id held ≠ entitlement_id → id held ∈ current →
     entitlement_id ∉ conflicting_entitlements held).

Definition within_max (requested max : option N) : Prop :=
  ∀ r m, requested = Some r → max = Some m → r ≤ m.

Definition expiry_representable (now : N) (requested max : option N) : Prop :=
  ∀ d, (effective_duration requested max).1 = Some d → now + d ≤ u64_max.

Lemma declared_conflicts_nil e i current :
  declared_conflicts e i current = [] ↔
  ∀ c, c ∈ conflicting_entitlements e → c ≠ i → c ∉ current.
Proof.
  unfold declared_conflicts. rewrite map_lfilter_nil.
  apply forall_proper; intros c. apply forall_proper; intros _.
  rewrite andb_false_iff, negb_false_iff, String.eqb_eq, str_in_false.
  destruct (decide (c = i)); naive_solver.
Qed.

Lemma conflicts_nil e i current catalog :
  id e = i →
  declared_conflicts e i current = [] ∧ held_conflicts e i current catalog = [] ↔
  sod_free e i current catalog.
Proof.
  intros Hid. unfold sod_free. rewrite declared_conflicts_nil. unfold held_conflicts.
  rewrite map_lfilter_nil. split; intros [Hd H]; (split; [done|]); intros h Hh.
  - intros Hne Hcur Hin. specialize (H h Hh).
    rewrite !andb_false_iff, !negb_false_iff, String.eqb_eq, str_in_false, Hid, str_in_spec in H.
    destruct H as [[[?|?]|He]|Hdecl]; [done..| |by apply (Hd _ Hdecl)].
    rewrite existsb_false in He. specialize (He i Hin). by rewrite String.eqb_refl in He.
  - rewrite !andb_false_iff, !negb_false_iff, String.eqb_eq, str_in_false, Hid.
    destruct (decide (id h = i)) as [|Hne]; [by do 3 left|].
    destruct (decide (id h ∈ current)) as [Hc|]; [|by left; left; right].
    left; right. apply existsb_false. intros x Hx. apply String.eqb_neq. intros ->.
    by apply (H h Hh Hne Hc).
Qed.

Lemma effective_duration_ok requested max :
  (effective_duration requested max).2 = [] ↔ within_max requested max.
Proof.
  unfold within_max. destruct requested as [r|], max as [m|]; simpl; [|naive_solver..].
  destruct (N.ltb_spec m r); simpl; split; try naive_solver.
  intros H'. specialize (H' r m eq_refl eq_refl). lia.
Qed.

Lemma find_id i catalog (e : Entitlement) :
  List.find (fun item => String.eqb (id item) i) catalog = Some e → id e = i ∧ e ∈ catalog.
Proof. intros [Hin Heq%String.eqb_eq]%find_some. by rewrite list_elem_of_In. Qed.

Lemma risk_low l : risk_geb l Medium = false ↔ l = Low.
Proof. by destruct l. Qed.

Lemma approval_steps_nil e vs :
  approval_steps_for e vs = [] ↔ risk_level e = Low ∧ vs = [].
Proof. unfold approval_steps_for. destruct (risk_level e), vs; simpl; naive_solver. Qed.

Lemma app4_nil {A} (a b c d : list A) : a ++ b ++ c ++ d = [] ↔ (a = [] ∧ b = []) ∧ c = [] ∧ d = [].
Proof. destruct a, b, c, d; naive_solver. Qed.

(** The evaluation of a known entitlement, with the loop results named. *)
Lemma evaluate_known nid now subj i current req catalog e :
  List.find (fun item => String.eqb (id item) i) catalog = Some e →
  let ev := evaluate_access_request nid now subj i current req catalog in
  let d := (effective_duration req (max_duration_seconds e)).1 in
  let fits := match d with Some d => now + d <=? u64_max | None => true end in
  expires_at_epoch_seconds ev = (if fits then (N.add now) <$> d else None) ∧
  violations ev = declared_conflicts e i current ++ held_conflicts e i current catalog
    ++ (effective_duration req (max_duration_seconds e)).2
    ++ (if fits then [] else ["duration_overflow"]) ∧
  approval_steps ev = approval_steps_for e (violations ev) ∧
  status ev = (if negb fits || (match violations ev with [] => false | _ => true end
                                && risk_geb (risk_level e) High) then Rejected
               else match approval_steps ev with [] => AutoApproved | _ => ApprovalRequired end).
Proof.
  intros Hf. unfold evaluate_access_request. rewrite Hf.
  destruct (effective_duration req (max_duration_seconds e)) as [[d|] v3]; simpl; [|done].
  unfold checked_add64. destruct (now + d <=? u64_max); simpl; done.
Qed.

Lemma fits_spec now req max :
  match (effective_duration req max).1 with Some d => now + d <=? u64_max | None => true end = true ↔
  expiry_representable now req max.
Proof.
  unfold expiry_representable. destruct (effective_duration req max).1 as [d|]; [|naive_solver].
  rewrite N.leb_le. naive_solver.
Qed.

(** A request is approved without any human step exactly when the catalog
    knows the entitlement, its risk is low, neither it nor a held entitlement
    declares a segregation-of-duties conflict with the other, the requested
    duration is within the entitlement's maximum, and the expiry is a [u64]. *)
Theorem auto_approval_exact nid now subj i current req catalog :
  status (evaluate_access_request nid now subj i current req catalog) = AutoApproved ↔
  ∃ e, List.find (fun item => String.eqb (id item) i) catalog = Some e ∧
       risk_level e = Low ∧ sod_free e i current catalog ∧
       within_max req (max_duration_seconds e) ∧
       expiry_representable now req (max_duration_seconds e).
Proof.
  destruct (List.find (fun item => String.eqb (id item) i) catalog) as [e|] eqn:Hf.
  - destruct (find_id _ _ _ Hf) as [Hid _].
    destruct (evaluate_known nid now subj i current req catalog e Hf) as (_ & Hv & Hs & ->).
    assert (∀ P : Entitlement → Prop, (∃ e', Some e = Some e' ∧ P e') ↔ P e) as -> by naive_solver.
    rewrite <- (conflicts_nil e i current catalog Hid), <- effective_duration_ok, <- fits_spec.
    rewrite Hs. pose proof (approval_steps_nil e (violations
      (evaluate_access_request nid now subj i current req catalog))) as Hnil.
    rewrite Hv, app4_nil in Hnil. rewrite Hv. clear Hv Hs.
    set (fits := match _ with Some d => now + d <=? u64_max | None => true end) in *.
    destruct fits; simpl in *; [|naive_solver].
    destruct (approval_steps_for _ _) eqn:E.
    + destruct Hnil as [[Hlow ([-> ->] & -> & _)] _]; [done|]. rewrite Hlow. simpl. naive_solver.
    + rewrite <- E in *. split; [qcases|]. intros (? & ? & ? & _).
      rewrite (proj2 Hnil) in E; naive_solver.
  - unfold evaluate_access_request. rewrite Hf. simpl. naive_solver.
Qed.

(** A request that is not rejected for an entitlement with a maximum
    duration always carries an expiry, at most [max] seconds from now; a
    request of a high-risk entitlement with any violation is rejected. *)
Theorem accepted_requests_expire nid now subj i current req catalog e :
  List.find (fun item => String.eqb (id item) i) catalog = Some e →
  let ev := evaluate_access_request nid now subj i current req catalog in
  (status ev ≠ Rejected → ∀ m, max_duration_seconds e = Some m →
     ∃ x, expires_at_epoch_seconds ev = Some x ∧ x ≤ now + m ∧
          (∀ r, req = Some r → x = now + N.min r m)) ∧
  (risk_geb (risk_level e) High = true → violations ev ≠ [] → status ev = Rejected).
Proof.
  intros Hf ev. destruct (evaluate_known nid now subj i current req catalog e Hf) as (Hx & _ & _ & Hst).
  fold ev in Hx, Hst. split.
  - intros Hr m Hm. rewrite Hm in *. rewrite Hst in Hr. rewrite Hx.
    destruct req as [r|]; simpl in *; [destruct (N.ltb_spec m r)|]; simpl in *.
    all: destruct (_ <=? u64_max) eqn:E; simpl in *; [|done].
    all: eexists; split; [reflexivity|]; split; [lia|]; intros r' [= <-]; lia.
  - intros Hh Hv. rewrite Hst, Hh. destruct (violations ev); [done|].
    by rewrite orb_true_r.
Qed.


(** * Approvals and grants *)

(** What an approval record must satisfy to be usable for an evaluation. *)
Definition approval_acceptable (ev : AccessRequestEvaluation) (now : N) (a : AccessApprovalRecord) : Prop :=
  Utf8.blank (ap_id a) = false ∧ ap_request_id a = request_id ev ∧ ap_approver a ≠ subject ev ∧
  approved_at_epoch_seconds a ≤ now ∧ (∀ x, ap_expires_at_epoch_seconds a = Some x → now < x) ∧
  ap_decision a = Approved.

Definition grant_permitted (ev : AccessRequestEvaluation) (approvals : list AccessApprovalRecord)
    (now : N) : Prop :=
  status ev ≠ Rejected ∧ (∀ x, expires_at_epoch_seconds ev = Some x → now < x) ∧
  (∀ a, a ∈ approvals → approval_acceptable ev now a) ∧
  (∀ step, step ∈ approval_steps ev → ∃ a, a ∈ approvals ∧ ap_approver a = approver step).

Lemma approval_expired_false o now :
  approval_expired o now = false ↔ ∀ x, o = Some x → now < x.
Proof.
  destruct o as [x|]; simpl; [|naive_solver]. rewrite N.leb_gt. naive_solver.
Qed.

Lemma guard_nil (b : bool) (x : string) : (if b then [x] else []) = [] ↔ b = false.
Proof. by destruct b. Qed.

Lemma concat_map_nil {A B} (f : A → list B) l : concat (map f l) = [] ↔ ∀ x, x ∈ l → f x = [].
Proof.
  induction l as [|y l IH]; simpl; [set_solver|]. split.
  - intros [Hy Hl]%app_eq_nil x [->|Hx]%elem_of_cons; [done|]. by apply IH.
  - intros H. rewrite (H y) by left. apply IH. intros x Hx. apply H. by right.
Qed.

Lemma app_nil_iff {A} (a b : list A) : a ++ b = [] ↔ a = [] ∧ b = [].
Proof. destruct a, b; naive_solver. Qed.

Lemma approval_violations_nil ev now a :
  approval_violations ev now a = [] ∧ (counted ev a = true → approving a = true) ↔
  approval_acceptable ev now a.
Proof.
  unfold approval_violations, approval_acceptable, counted, approving.
  rewrite app_nil_iff, guard_nil.
  destruct (String.eqb_spec (ap_request_id a) (request_id ev)) as [He|Hne]; simpl; [|naive_solver].
  rewrite !app_nil_iff, !guard_nil, String.eqb_neq, N.ltb_ge, approval_expired_false.
  destruct (ap_decision a); naive_solver.
Qed.

Lemma three_nil {A B C} (a : list A) (b : list B) (c : list C) :
  match a, b, c with [], [], [] => true | _, _, _ => false end = true ↔ a = [] ∧ b = [] ∧ c = [].
Proof. destruct a, b, c; naive_solver. Qed.

Lemma validation_exact ev approvals now :
  valid (validate_access_request_approvals ev approvals now) = true ↔ grant_permitted ev approvals now.
Proof.
  unfold validate_access_request_approvals. cbn [valid]. unfold sort_dedup.
  rewrite three_nil, !sort_dedup_nil, !app_nil_iff, !guard_nil, bool_decide_eq_false,
    approval_expired_false, concat_map_nil, !map_lfilter_nil.
  unfold grant_permitted. split.
  - intros ((Hst & Hx & Hv) & Hm & Hr).
    assert (∀ a, a ∈ approvals → approval_acceptable ev now a) as Hacc.
    { intros a Ha. apply approval_violations_nil. split; [by apply Hv|]. intros Hc.
      specialize (Hr a). rewrite negb_false_iff in Hr. by apply Hr, elem_of_lfilter. }
    repeat (split; [done|]). intros step Hs. specialize (Hm step Hs).
    apply negb_false_iff, str_in_spec, elem_of_map in Hm as (a & Ha & Hin).
    apply elem_of_lfilter in Hin as [[Hin _]%elem_of_lfilter _]. by exists a.
  - intros (Hst & Hx & Hacc & Hsteps). setoid_rewrite <- approval_violations_nil in Hacc.
    split; [|split].
    + repeat (split; [done|]). intros a Ha. by apply Hacc.
    + intros step Hs. destruct (Hsteps step Hs) as (a & Ha & He).
      apply negb_false_iff, str_in_spec, elem_of_map. exists a. split; [done|].
      pose proof (proj1 (approval_violations_nil ev now a) (Hacc a Ha)) as (_ & Heq & _ & _ & _ & Hd).
      apply elem_of_lfilter. unfold approving. rewrite Hd. split; [|done].
      apply elem_of_lfilter. unfold counted. by rewrite Heq, String.eqb_refl.
    + intros a [Ha Hc]%elem_of_lfilter. apply negb_false_iff. by apply Hacc.
Qed.

(** C3: A time-bound grant is issued exactly when the evaluation is neither
    rejected nor expired, every submitted approval is for this request, from
    someone else than the subject, already made, unexpired and approving, and
    every step's approver is among them; the grant is for the evaluated subject
    and entitlement, carries the evaluation's expiry and lists all approvals. *)
Theorem grant_issued_iff_permitted nid ev approvals now g :
  issue_time_bound_access_grant nid ev approvals now = Ok g ↔
  grant_permitted ev approvals now ∧
  g = {| tb_id := nid; tb_request_id := request_id ev; tb_subject := subject ev;
         tb_entitlement := entitlement ev; granted_at_epoch_seconds := now;
         tb_expires_at_epoch_seconds := expires_at_epoch_seconds ev;
         tb_approvals := map ap_id approvals |}.
Proof.
  rewrite <- validation_exact. unfold issue_time_bound_access_grant.
  destruct (valid _) eqn:E; simpl; [|naive_solver].
  apply validation_exact in E as (_ & _ & Hall & _).
  rewrite lfilter_all; [naive_solver|]. intros a Ha. unfold counted.
  destruct (Hall a Ha) as (_ & -> & _). apply String.eqb_refl.
Qed.

(** * Access packages *)

Definition is_min_expiry (o : option N) (os : list (option N)) : Prop :=
  match o with
  | None => ∀ p, p ∈ os → p = None
  | Some x => Some x ∈ os ∧ ∀ y, Some y ∈ os → x ≤ y
  end.

Lemma min_expiry_snoc o os p :
  is_min_expiry o os → is_min_expiry (min_expiry o p) (os ++ [p]).
Proof.
  unfold is_min_expiry. destruct o as [x|], p as [y|]; simpl.
  - intros [Hin Hmin]. split.
    + rewrite elem_of_app, list_elem_of_singleton. destruct (N.min_spec x y) as [[_ ->]|[_ ->]]; auto.
    + intros z [Hz|Hz%list_elem_of_singleton]%elem_of_app; [specialize (Hmin z Hz); lia|].
      injection Hz as ->. lia.
  - intros [Hin Hmin]. split; [set_solver|]. intros z [Hz|Hz%list_elem_of_singleton]%elem_of_app; auto. done.
  - intros Hn. split; [set_solver|]. intros z [Hz%Hn|Hz%list_elem_of_singleton]%elem_of_app; [done|].
    injection Hz as ->. lia.
  - intros Hn p [Hp|Hp%list_elem_of_singleton]%elem_of_app; auto.
Qed.

Lemma combine_status_rejected s v : combine_status s v = Rejected ↔ s = Rejected ∨ v = Rejected.
Proof. destruct s, v; naive_solver. Qed.

Lemma combine_status_auto s v : combine_status s v = AutoApproved ↔ s = AutoApproved ∧ v = AutoApproved.
Proof. destruct s, v; naive_solver. Qed.

Definition step_key (s : ApprovalStep) : string := approver s +:+ ":" +:+ step_reason s.

(** The deduplicated steps: their keys are exactly the seen ones, without
    repetition, and they come from [all]. *)
Definition steps_inv (acc : list ApprovalStep * gset string) (all : list ApprovalStep) : Prop :=
  acc.2 = list_to_set (map step_key acc.1) ∧ NoDup (map step_key acc.1) ∧
  (∀ s, s ∈ acc.1 → s ∈ all) ∧ (∀ s, s ∈ all → step_key s ∈ map step_key acc.1).

Lemma add_step_inv acc all s : steps_inv acc all → steps_inv (add_step acc s) (all ++ [s]).
Proof.
  destruct acc as [steps seen]. unfold add_step, steps_inv. simpl.
  intros (-> & Hnd & Hfrom & Hall). fold (step_key s). case_bool_decide as Hin; simpl.
  - rewrite elem_of_list_to_set in Hin. split; [done|]. split; [done|]. split; [set_solver|].
    intros t [Ht| ->%list_elem_of_singleton]%elem_of_app; auto.
  - rewrite elem_of_list_to_set in Hin. rewrite map_app. simpl. split; [set_solver|]. split.
    { apply NoDup_app. split; [done|]. split; [|apply NoDup_singleton]. set_solver. }
    split; [set_solver|].
    intros t [Ht| ->%list_elem_of_singleton]%elem_of_app; apply elem_of_app; [left; auto|right; left].
Qed.

Lemma add_steps_inv acc all l : steps_inv acc all → steps_inv (foldl add_step acc l) (all ++ l).
Proof.
  revert acc all. induction l as [|s l IH]; intros acc all H; simpl; [by rewrite app_nil_r|].
  rewrite cons_middle, app_assoc. by apply IH, add_step_inv.
Qed.

Definition package_inv (acc : package_acc) (evs : list AccessRequestEvaluation) : Prop :=
  steps_inv (acc_steps acc, acc_seen acc) (concat (map approval_steps evs)) ∧
  is_min_expiry (acc_expires acc) (map expires_at_epoch_seconds evs) ∧
  (acc_status acc = Rejected ↔ Rejected ∈ map status evs) ∧
  (acc_status acc = AutoApproved ↔ ∀ s, s ∈ map status evs → s = AutoApproved).

Lemma package_step_inv acc evs ev :
  package_inv acc evs → package_inv (package_step acc ev) (evs ++ [ev]).
Proof.
  intros (Hs & Hx & Hr & Ha). unfold package_inv, package_step.
  rewrite !map_app, concat_app. simpl.
  destruct (foldl add_step _ _) as [steps seen] eqn:E; simpl. rewrite app_nil_r, <- E.
  split; [by apply add_steps_inv|]. split; [by apply min_expiry_snoc|]. split.
  - rewrite combine_status_rejected, Hr. set_solver.
  - rewrite combine_status_auto, Ha. set_solver.
Qed.

Lemma package_fold_inv evs : ∀ acc pre,
  package_inv acc pre → package_inv (foldl package_step acc evs) (pre ++ evs).
Proof.
  induction evs as [|ev evs IH]; intros acc pre H; simpl; [by rewrite app_nil_r|].
  rewrite cons_middle, app_assoc. by apply IH, package_step_inv.
Qed.

Lemma package_inv_final rid subj pid evs :
  let p := build_access_package_evaluation rid subj pid evs in
  ∃ seen, steps_inv (pkg_approval_steps p, seen) (concat (map approval_steps evs)) ∧
  is_min_expiry (pkg_expires_at_epoch_seconds p) (map expires_at_epoch_seconds evs) ∧
  (pkg_status p = Rejected ↔ Rejected ∈ map status evs) ∧
  (pkg_status p = AutoApproved ↔ ∀ s, s ∈ map status evs → s = AutoApproved).
Proof.
  intros p. eexists. unshelve eapply (package_fold_inv evs _ []).
  unfold package_inv, steps_inv. simpl. split; [|set_solver].
  split; [done|]. split; [constructor|set_solver].
Qed.

(** A package is rejected exactly when a member is, needs no approval
    exactly when no member does, and expires at the earliest member expiry (never,
    exactly when no member expires). *)
Theorem package_status_and_expiry rid subj pid evs :
  let p := build_access_package_evaluation rid subj pid evs in
  (pkg_status p = Rejected ↔ Rejected ∈ map status evs) ∧
  (pkg_status p = AutoApproved ↔ ∀ s, s ∈ map status evs → s = AutoApproved) ∧
  is_min_expiry (pkg_expires_at_epoch_seconds p) (map expires_at_epoch_seconds evs).
Proof. destruct (package_inv_final rid subj pid evs) as (? & _ & ? & ? & ?). done. Qed.

(** The reasons the engine gives a step are two literals, so keys are injective. *)
Definition engine_step (s : ApprovalStep) : Prop :=
  step_reason s = "owner_approval_required" ∨ step_reason s = "security_approval_required".

Lemma evaluate_engine_steps nid now subj i current req catalog s :
  s ∈ approval_steps (evaluate_access_request nid now subj i current req catalog) → engine_step s.
Proof.
  destruct (List.find (fun item => String.eqb (id item) i) catalog) as [e|] eqn:Hf.
  - destruct (evaluate_known nid now subj i current req catalog e Hf) as (_ & _ & -> & _).
    unfold approval_steps_for, engine_step. rewrite elem_of_app.
    repeat case_match; set_solver.
  - unfold evaluate_access_request. rewrite Hf. set_solver.
Qed.

Lemma owner_security_distinct a b :
  a +:+ ":" +:+ "owner_approval_required" ≠ b +:+ ":" +:+ "security_approval_required".
Proof.
  intros He. change (":" +:+ "security_approval_required") with (":se" +:+ "curity_approval_required") in He.
  rewrite (str_app_assoc b) in He. by apply str_app_inj_suffix in He as [_ ?].
Qed.

Lemma step_key_inj s t : engine_step s → engine_step t → step_key s = step_key t → s = t.
Proof.
  destruct s as [a r], t as [b r']. unfold engine_step, step_key. simpl.
  intros [-> | ->] [-> | ->] He.
  - by apply str_app_inj_suffix in He as [-> _].
  - by apply owner_security_distinct in He.
  - by apply eq_sym, owner_security_distinct in He.
  - by apply str_app_inj_suffix in He as [-> _].
Qed.

(** When the members are evaluations of the engine, the package asks for
    exactly the approval steps of its members, each once. *)
Theorem package_requires_member_steps rid subj pid evs :
  (∀ ev, ev ∈ evs → ∃ nid now s i current req catalog,
     ev = evaluate_access_request nid now s i current req catalog) →
  let p := build_access_package_evaluation rid subj pid evs in
  NoDup (pkg_approval_steps p) ∧
  ∀ step, step ∈ pkg_approval_steps p ↔ ∃ ev, ev ∈ evs ∧ step ∈ approval_steps ev.
Proof.
  intros Hev p. destruct (package_inv_final rid subj pid evs) as (seen & (_ & Hnd & Hfrom & Hall) & _).
  fold p in Hnd, Hfrom, Hall. simpl in *. split; [by apply NoDup_fmap_1 in Hnd|].
  setoid_rewrite elem_of_concat_map in Hfrom. setoid_rewrite elem_of_concat_map in Hall.
  assert (∀ ev s, ev ∈ evs → s ∈ approval_steps ev → engine_step s) as Heng.
  { intros ev s Hin Hs. destruct (Hev ev Hin) as (? & ? & ? & ? & ? & ? & ? & ->).
    by eapply evaluate_engine_steps. }
  intros s. split; [apply Hfrom|]. intros (ev & Hin & Hs).
  destruct (proj1 (elem_of_map step_key _ _) (Hall s ltac:(eauto))) as (t & Hk & Ht).
  destruct (Hfrom t Ht) as (ev' & Hin' & Ht').
  by rewrite (step_key_inj s t) by eauto.
Qed.

(** * Materialising grants *)

Section GrantProofs.
Context {Num : Type}.
Implicit Types (st : GrantStore Num) (c i g first : IgaAccessGrantRecord).

Definition candidate_ok first c : Prop :=
  grant_validate c = Ok tt ∧ gr_revoked c = false ∧ same_binding c first = true.

Definition incumbent_ok first (candidates : list IgaAccessGrantRecord) i : Prop :=
  grant_validate i = Ok tt ∧ same_binding i first = true ∧
  gr_entitlement i ∈ map gr_entitlement candidates ∧
  ∀ c, c ∈ candidates → gr_id c = gr_id i → gr_entitlement c = gr_entitlement i.

Lemma candidates_fold_Ok first l : ∀ ents ids r,
  res_foldl (fun '(ents, ids) c =>
        grant_validate c ?;
        if gr_revoked c || negb (same_binding c first)
           || bool_decide (gr_entitlement c ∈ ents) || bool_decide (gr_id c ∈ ids)
        then Err (invalid "IGA grant candidates have mixed or duplicate bindings")
        else Ok ({[gr_entitlement c]} ∪ ents, {[gr_id c]} ∪ ids))
        (ents : gset string, ids : gset string) l = Ok r →
  Forall (candidate_ok first) l ∧ NoDup (map gr_entitlement l) ∧ NoDup (map gr_id l) ∧
  (∀ c, c ∈ l → (gr_entitlement c ∉ ents) ∧ gr_id c ∉ ids).
Proof.
  induction l as [|c l IH]; intros ents ids r; simpl; [intros _; set_solver by constructor|].
  intros (s & (u & Hv & Hs)%res_bind_Ok & Hl)%res_bind_Ok. destruct u.
  destruct (gr_revoked c) eqn:Er; [done|]. destruct (same_binding c first) eqn:Eb; [|done].
  simpl in Hs. case_bool_decide; [done|]. case_bool_decide; [done|]. simplify_eq/=.
  destruct (IH _ _ _ Hl) as (Hall & Hne & Hni & Hdis).
  split; [by constructor|]. split; [|split].
  - constructor; [|done]. intros (d & He & Hd)%elem_of_map. specialize (Hdis d Hd). set_solver.
  - constructor; [|done]. intros (d & He & Hd)%elem_of_map. specialize (Hdis d Hd). set_solver.
  - intros d [->|Hd]%elem_of_cons; [done|]. specialize (Hdis d Hd). set_solver.
Qed.

Lemma same_binding_spec a b :
  same_binding a b = true ↔ gr_tenant_id a = gr_tenant_id b ∧ gr_request_id a = gr_request_id b
                            ∧ gr_subject a = gr_subject b.
Proof. unfold same_binding. rewrite !andb_true_iff, !String.eqb_eq. tauto. Qed.

Lemma validate_candidates_Ok candidates first :
  validate_candidates candidates = Ok first →
  head candidates = Some first ∧ Forall (candidate_ok first) candidates ∧
  NoDup (map gr_entitlement candidates) ∧ NoDup (map gr_id candidates).
Proof.
  unfold validate_candidates. destruct candidates as [|c l]; [done|].
  intros (r & Hf & [= <-])%res_bind_Ok. apply candidates_fold_Ok in Hf. naive_solver.
Qed.

Lemma present_step_Ok first candidates P i P' :
  present_step first candidates P i = Ok P' ↔
  incumbent_ok first candidates i ∧ (gr_entitlement i ∉ P) ∧ P' = {[gr_entitlement i]} ∪ P.
Proof.
  unfold present_step, incumbent_ok, QidResult. rewrite res_bind_Ok.
  assert (existsb (fun c => String.eqb (gr_id c) (gr_id i)
            && negb (String.eqb (gr_entitlement c) (gr_entitlement i))) candidates = false ↔
          ∀ c, c ∈ candidates → gr_id c = gr_id i → gr_entitlement c = gr_entitlement i) as <-.
  { rewrite existsb_false. apply forall_proper; intros c. apply forall_proper; intros _.
    rewrite andb_false_iff, negb_false_iff, String.eqb_eq, String.eqb_neq.
    destruct (decide (gr_id c = gr_id i)); naive_solver. }
  rewrite <- str_in_spec. destruct (existsb _ _); case_bool_decide;
    destruct (same_binding i first), (str_in _ _), (grant_validate i) as [[]|]; simpl;
    split; try naive_solver.
Qed.

Lemma present_fold_Ok first candidates l : ∀ P P',
  res_foldl (present_step first candidates) P l = Ok P' ↔
  Forall (incumbent_ok first candidates) l ∧ NoDup (map gr_entitlement l) ∧
  (∀ i, i ∈ l → gr_entitlement i ∉ P) ∧ P' = list_to_set (map gr_entitlement l) ∪ P.
Proof.
  induction l as [|i l IH]; intros P P'; simpl.
  - split; [intros [= <-]|intros (_ & _ & _ & ->); f_equal; set_solver].
    split; [done|]. split; [constructor|]. split; [|set_solver]. by intros i ?%not_elem_of_nil.
  - rewrite res_bind_Ok. setoid_rewrite present_step_Ok. setoid_rewrite IH.
    rewrite Forall_cons, NoDup_cons. split.
    + intros (_ & (Hi & Hn & ->) & Hl & Hnd & Hdis & ->).
      split; [done|]. split.
      { split; [|done]. intros (j & He & Hj)%elem_of_map. specialize (Hdis j Hj). set_solver. }
      split.
      * intros j [->|Hj]%elem_of_cons; [done|]. specialize (Hdis j Hj). set_solver.
      * set_solver.
    + intros ((Hi & Hl) & (Hni & Hnd) & Hdis & ->). eexists. split.
      { split; [done|]. split; [apply Hdis; left|done]. }
      split; [done|]. split; [done|]. split; [|set_solver].
      intros j Hj. assert (gr_entitlement j ≠ gr_entitlement i).
      { intros He. apply Hni, elem_of_map. by exists j. }
      specialize (Hdis j). set_solver.
Qed.

Definition incumbents_of st first : list IgaAccessGrantRecord :=
  List.filter (fun g => String.eqb (gr_tenant_id g) (gr_tenant_id first)
            && String.eqb (gr_request_id g) (gr_request_id first))
          (map snd (map_to_list (iga_access_grants st))).

Lemma incumbents_of_elem st first g :
  g ∈ incumbents_of st first ↔
  (∃ k, iga_access_grants st !! k = Some g) ∧ gr_tenant_id g = gr_tenant_id first
  ∧ gr_request_id g = gr_request_id first.
Proof.
  unfold incumbents_of. rewrite elem_of_lfilter, elem_of_map, andb_true_iff, !String.eqb_eq.
  setoid_rewrite <- elem_of_map_to_list. split.
  - intros [([k g'] & -> & Hin) ?]. split; [|done]. by exists k.
  - intros [[k Hk] ?]. split; [|done]. by exists (k, g).
Qed.

Definition granted_none (candidates incumbents : list IgaAccessGrantRecord) : list IgaAccessGrantRecord :=
  List.filter (fun c => negb (str_in (gr_entitlement c) (map gr_entitlement incumbents))) candidates.

Definition incumbents_ok first candidates incumbents : Prop :=
  Forall (incumbent_ok first candidates) incumbents ∧ NoDup (map gr_entitlement incumbents).

Lemma present_fold_filter first candidates incumbents ms :
  res_bind (res_foldl (present_step first candidates) ∅ incumbents)
    (fun present => Ok (List.filter (fun c => negb (bool_decide (gr_entitlement c ∈ present))) candidates))
  = Ok ms ↔
  incumbents_ok first candidates incumbents ∧ ms = granted_none candidates incumbents.
Proof.
  rewrite res_bind_Ok. setoid_rewrite present_fold_Ok.
  assert (∀ P : gset string, P = list_to_set (map gr_entitlement incumbents) ∪ ∅ →
    List.filter (fun c => negb (bool_decide (gr_entitlement c ∈ P))) candidates
    = granted_none candidates incumbents) as Hext.
  { intros P ->. apply List.filter_ext. intros c. f_equal.
    apply Bool.eq_iff_eq_true. rewrite bool_decide_eq_true, str_in_spec. set_solver. }
  split.
  - intros (P & (Hf & Hnd & _ & HP) & Hms). rewrite (Hext _ HP) in Hms. by injection Hms as <-.
  - intros [[Hf Hnd] ->]. eexists. split; [|by rewrite Hext].
    split; [done|]. split; [done|]. split; [|done]. intros i _. apply not_elem_of_empty.
Qed.

Lemma missing_grants_Ok candidates (request : IgaAccessRequestRecord Num) incumbents ms first :
  head candidates = Some first →
  missing_grants candidates request incumbents = Ok ms →
  incumbents_ok first candidates incumbents ∧ ms = granted_none candidates incumbents.
Proof.
  destruct candidates as [|c l]; [done|]. intros [= ->]. unfold missing_grants.
  case_match; [done|]. intros (expected & _ & Hm)%res_bind_Ok. cbv zeta in Hm.
  case_match; [done|]. by apply present_fold_filter in Hm.
Qed.

Lemma missing_grants_other candidates (request : IgaAccessRequestRecord Num) incumbents incumbents' ms first :
  head candidates = Some first →
  missing_grants candidates request incumbents = Ok ms →
  incumbents_ok first candidates incumbents' →
  missing_grants candidates request incumbents' = Ok (granted_none candidates incumbents').
Proof.
  destruct candidates as [|c l]; [done|]. intros [= ->]. unfold missing_grants.
  case_match; [done|]. intros (expected & He & Hm)%res_bind_Ok Hok.
  apply res_bind_Ok. exists expected. split; [done|]. cbv zeta in *. case_match; [done|]. by apply present_fold_filter.
Qed.

(** Every step of a successful [ensure_iga_access_grants]. *)
Definition ensured st candidates first ms : Prop :=
  head candidates = Some first ∧ Forall (candidate_ok first) candidates ∧
  NoDup (map gr_entitlement candidates) ∧ NoDup (map gr_id candidates) ∧
  incumbents_ok first candidates (incumbents_of st first) ∧
  ms = granted_none candidates (incumbents_of st first) ∧
  (∀ c, c ∈ candidates → foreign_binding (iga_access_grants st) c = false).

Lemma ensure_Ok mode write candidates st ms st' :
  ensure_iga_access_grants mode write candidates st = (Ok ms, st') →
  ∃ first request, ensured st candidates first ms ∧
    validate_candidates candidates = Ok first ∧
    iga_access_requests st !! gr_request_id first = Some request ∧
    rq_tenant_id request = gr_tenant_id first ∧
    missing_grants candidates request (incumbents_of st first) = Ok ms ∧
    iga_access_requests st' = iga_access_requests st ∧
    iga_access_grants st' = insert_grants ms (iga_access_grants st).
Proof.
  unfold ensure_iga_access_grants.
  destruct (validate_candidates candidates) as [first|] eqn:Hv; [|done].
  destruct (iga_access_requests st !! _) as [request|] eqn:Hrq; [|done].
  destruct (String.eqb_spec (rq_tenant_id request) (gr_tenant_id first)); [|done]. simpl.
  fold (incumbents_of st first).
  destruct (missing_grants _ _ _) as [missing|] eqn:Hm; [|done].
  destruct (existsb _ candidates) eqn:He; [done|]. rewrite existsb_false in He.
  destruct (validate_candidates_Ok _ _ Hv) as (Hh & Hall & Hnd & Hni).
  destruct (missing_grants_Ok _ _ _ _ _ Hh Hm) as [Hinc ->].
  intros H. exists first, request.
  assert (ms = granted_none candidates (incumbents_of st first) ∧
     iga_access_requests st' = iga_access_requests st ∧
     iga_access_grants st' = insert_grants ms (iga_access_grants st)) as (-> & ? & ?).
  { destruct (granted_none _ _); [naive_solver|]. destruct mode; [|naive_solver].
    destruct write; naive_solver. }
  unfold ensured. naive_solver.
Qed.

Lemma insert_grants_lookup ms : ∀ m k,
  NoDup (map gr_id ms) →
  insert_grants ms m !! k = match List.find (fun g => String.eqb (gr_id g) k) ms with
                            | Some g => Some g | None => m !! k end.
Proof.
  induction ms as [|g ms IH]; intros m k Hnd; simpl; [done|].
  apply NoDup_cons in Hnd as [Hn Hnd]. unfold insert_grants in *. simpl. rewrite IH by done.
  destruct (String.eqb_spec (gr_id g) k) as [<-|Hne].
  - destruct (List.find _ ms) as [h|] eqn:E; [|by rewrite lookup_insert_eq].
    apply find_some in E as [Hin Heq%String.eqb_eq]. exfalso. apply Hn, elem_of_map.
    exists h. by rewrite list_elem_of_In.
  - destruct (List.find _ ms); [done|]. by rewrite lookup_insert_ne.
Qed.

(** A missing candidate's id is not in the store. *)
Lemma missing_fresh st candidates first ms c :
  ensured st candidates first ms → c ∈ ms → iga_access_grants st !! gr_id c = None.
Proof.
  intros (_ & Hall & _ & _ & _ & -> & Hfor) [Hc Hmiss]%elem_of_lfilter.
  specialize (Hfor c Hc). unfold foreign_binding in Hfor.
  destruct (iga_access_grants st !! gr_id c) as [i|] eqn:E; [|done].
  apply orb_false_iff in Hfor as [Hb%negb_false_iff He%negb_false_iff].
  apply same_binding_spec in Hb as (Ht & Hr & _). apply String.eqb_eq in He.
  rewrite Forall_forall in Hall. destruct (Hall c Hc) as (_ & _ & Hcb).
  apply same_binding_spec in Hcb as (Ht' & Hr' & _).
  apply negb_true_iff, str_in_false in Hmiss. exfalso. apply Hmiss, elem_of_map.
  exists i. split; [done|]. apply incumbents_of_elem. split; [eauto|]. split; congruence.
Qed.


Lemma insert_grants_perm ms : ∀ m,
  NoDup (map gr_id ms) → (∀ g, g ∈ ms → m !! gr_id g = None) →
  map_to_list (insert_grants ms m) ≡ₚ map (fun g => (gr_id g, g)) ms ++ map_to_list m.
Proof.
  induction ms as [|g ms IH]; intros m Hnd Hfresh; [done|].
  apply NoDup_cons in Hnd as [Hn Hnd]. unfold insert_grants in *. simpl. rewrite IH; [|done|].
  - rewrite map_to_list_insert by (apply Hfresh; left). by rewrite Permutation_middle.
  - intros h Hh. rewrite lookup_insert_ne; [apply Hfresh; by right|].
    intros He. apply Hn, elem_of_map. by exists h.
Qed.

Lemma lfilter_perm {A} (p : A → bool) (l k : list A) : l ≡ₚ k → List.filter p l ≡ₚ List.filter p k.
Proof.
  induction 1; simpl; repeat case_match; try done; try (by constructor); by etransitivity.
Qed.

Lemma map_NoDup_lfilter {A B} (f : A → B) (p : A → bool) l : NoDup (map f l) → NoDup (map f (List.filter p l)).
Proof.
  induction l as [|x l IH]; simpl; [done|]. intros [Hx Hl]%NoDup_cons.
  destruct (p x); simpl; [constructor|]; [|auto..].
  intros (y & Hy & [Hin _]%elem_of_lfilter)%elem_of_map. apply Hx, elem_of_map. eauto.
Qed.

Lemma incumbents_of_ensured st st' candidates first ms :
  ensured st candidates first ms →
  iga_access_grants st' = insert_grants ms (iga_access_grants st) →
  incumbents_of st' first ≡ₚ ms ++ incumbents_of st first.
Proof.
  intros H Hst. unfold incumbents_of. rewrite Hst.
  assert (NoDup (map gr_id ms)) as Hnd.
  { destruct H as (_ & _ & _ & ? & _ & -> & _). by apply map_NoDup_lfilter. }
  etransitivity.
  { apply lfilter_perm, Permutation_map, insert_grants_perm; [done|].
    intros g. by eapply missing_fresh. }
  rewrite map_app, List.filter_app, map_map. simpl. rewrite map_id.
  rewrite (lfilter_all _ ms); [done|]. intros g Hg.
  destruct H as (_ & Hall & _ & _ & _ & -> & _). apply elem_of_lfilter in Hg as [Hg _].
  rewrite Forall_forall in Hall. destruct (Hall g Hg) as (_ & _ & (-> & -> & _)%same_binding_spec).
  by rewrite !String.eqb_refl.
Qed.

Lemma NoDup_map_eq {A B} (f : A → B) l x y :
  NoDup (map f l) → x ∈ l → y ∈ l → f x = f y → x = y.
Proof.
  induction l as [|z l IH]; simpl; [by intros _ ?%not_elem_of_nil|].
  intros [Hz Hl]%NoDup_cons [->|Hx]%elem_of_cons [->|Hy]%elem_of_cons He; auto.
  - destruct Hz. apply elem_of_map. eauto.
  - destruct Hz. apply elem_of_map. eauto.
Qed.

Lemma ensured_after st st' candidates first ms :
  ensured st candidates first ms →
  iga_access_grants st' = insert_grants ms (iga_access_grants st) →
  incumbents_ok first candidates (incumbents_of st' first) ∧
  granted_none candidates (incumbents_of st' first) = [].
Proof.
  intros H Hst. pose proof (incumbents_of_ensured _ _ _ _ _ H Hst) as Hp.
  destruct H as (_ & Hall & Hnd & Hni & [Hinc Hincnd] & Hms & _).
  assert (∀ c, c ∈ ms ↔ c ∈ candidates ∧ gr_entitlement c ∉ map gr_entitlement (incumbents_of st first)) as Hin.
  { intros c. rewrite Hms. unfold granted_none. by rewrite elem_of_lfilter, negb_true_iff, str_in_false. }
  pose proof (Permutation_map gr_entitlement Hp) as Hpe. rewrite map_app in Hpe.
  split; [split|].
  - rewrite Hp. apply Forall_app. split; [|done]. apply Forall_forall. intros c [Hc _]%Hin.
    rewrite Forall_forall in Hall. destruct (Hall c Hc) as (? & ? & ?).
    split; [done|]. split; [done|]. split; [apply elem_of_map; eauto|].
    intros d Hd He. by rewrite (NoDup_map_eq gr_id candidates d c).
  - rewrite Hpe. apply NoDup_app. split; [rewrite Hms; by apply map_NoDup_lfilter|]. split; [|done].
    intros x (c & -> & Hc)%elem_of_map. by apply Hin in Hc as [_ ?].
  - unfold granted_none. apply lfilter_nil. intros c Hc. apply negb_false_iff, str_in_spec.
    rewrite Hpe, elem_of_app.
    destruct (decide (gr_entitlement c ∈ map gr_entitlement (incumbents_of st first))); [by right|].
    left. apply elem_of_map. exists c. split; [done|]. by apply Hin.
Qed.

Lemma ensured_foreign st st' candidates first ms c :
  ensured st candidates first ms →
  iga_access_grants st' = insert_grants ms (iga_access_grants st) →
  c ∈ candidates → foreign_binding (iga_access_grants st') c = false.
Proof.
  intros Hen Hst Hc. pose proof Hen as (_ & Hall & _ & Hni & _ & Hms & Hfor).
  assert (NoDup (map gr_id ms)) as Hnd by (rewrite Hms; by apply map_NoDup_lfilter).
  unfold foreign_binding. rewrite Hst, insert_grants_lookup by done.
  destruct (List.find _ ms) as [h|] eqn:E; [|by apply Hfor].
  apply find_some in E as [Hh%list_elem_of_In He%String.eqb_eq].
  rewrite Hms in Hh. apply elem_of_lfilter in Hh as [Hh _].
  rewrite (NoDup_map_eq gr_id candidates h c) by done.
  unfold same_binding. by rewrite !String.eqb_refl.
Qed.

(** A failed materialisation leaves the store as it was; a successful one
    changes no request and no stored grant, adds only candidates under their own
    ids, and leaves exactly one grant per candidate entitlement for the request. *)
Theorem ensure_grants_atomic mode write candidates st r st' :
  ensure_iga_access_grants mode write candidates st = (r, st') →
  match r with
  | Err _ => st' = st
  | Ok ms =>
      iga_access_requests st' = iga_access_requests st ∧
      (∀ k g, iga_access_grants st !! k = Some g → iga_access_grants st' !! k = Some g) ∧
      (∀ k g, iga_access_grants st' !! k = Some g →
         iga_access_grants st !! k = Some g ∨ (g ∈ ms ∧ g ∈ candidates ∧ k = gr_id g)) ∧
      ∃ first, head candidates = Some first ∧
        NoDup (map gr_entitlement (incumbents_of st' first)) ∧
        (∀ x, x ∈ map gr_entitlement candidates ↔ x ∈ map gr_entitlement (incumbents_of st' first))
  end.
Proof.
  destruct r as [ms|e]; intros H.
  - apply ensure_Ok in H as (first & request & Hen & _ & _ & _ & _ & Hrq & Hst).
    destruct (ensured_after _ _ _ _ _ Hen Hst) as [[Hf Hnd'] Hnone].
    assert (NoDup (map gr_id ms)) as Hnd.
    { destruct Hen as (_ & _ & _ & ? & _ & -> & _). by apply map_NoDup_lfilter. }
    split; [done|]. rewrite Hst. split; [|split].
    + intros k g Hk. rewrite insert_grants_lookup by done.
      destruct (List.find _ ms) as [h|] eqn:E; [|done].
      apply find_some in E as [Hh%list_elem_of_In <-%String.eqb_eq].
      pose proof (missing_fresh _ _ _ _ _ Hen Hh). congruence.
    + intros k g. rewrite insert_grants_lookup by done.
      destruct (List.find _ ms) as [h|] eqn:E; [|by left].
      intros [= ->]. apply find_some in E as [Hh%list_elem_of_In <-%String.eqb_eq].
      right. split; [done|]. split; [|done].
      destruct Hen as (_ & _ & _ & _ & _ & -> & _). by apply elem_of_lfilter in Hh as [? _].
    + exists first. split; [by destruct Hen|]. split; [done|]. intros x. split.
      * intros (c & -> & Hc)%elem_of_map. apply str_in_spec, negb_false_iff.
        unfold granted_none in Hnone. rewrite lfilter_nil in Hnone. by apply Hnone.
      * intros (i & -> & Hi)%elem_of_map. rewrite Forall_forall in Hf.
        by destruct (Hf i Hi) as (_ & _ & ? & _).
  - unfold ensure_iga_access_grants in H. repeat case_match; congruence.
Qed.

(** Materialisation is idempotent: repeating a successful call, in any
    flush mode, creates nothing and leaves the store unchanged. *)
Theorem ensure_grants_idempotent mode write mode' write' candidates st ms st' :
  ensure_iga_access_grants mode write candidates st = (Ok ms, st') →
  ensure_iga_access_grants mode' write' candidates st' = (Ok [], st').
Proof.
  intros H. apply ensure_Ok in H as (first & request & Hen & Hv & Hrq & Ht & Hm & Hrq' & Hst).
  destruct (ensured_after _ _ _ _ _ Hen Hst) as [Hok Hnone].
  pose proof (proj1 Hen) as Hh.
  pose proof (missing_grants_other _ _ _ _ _ _ Hh Hm Hok) as Hm'. rewrite Hnone in Hm'.
  unfold ensure_iga_access_grants. rewrite Hv, Hrq', Hrq, Ht, String.eqb_refl. simpl negb. cbv iota.
  fold (incumbents_of st' first). rewrite Hm'.
  replace (existsb _ candidates) with false; [done|]. symmetry. apply existsb_false. intros c Hc.
  apply (ensured_foreign st st' candidates first ms c Hen Hst Hc).
Qed.


(** * Revocation *)

Definition grants_keyed st : Prop := ∀ k g, iga_access_grants st !! k = Some g → gr_id g = k.

Definition revoke_in (tenant_id : string) (ids : list string) (k : string) g : IgaAccessGrantRecord :=
  if str_in k ids && String.eqb (gr_tenant_id g) tenant_id then revoked_grant g else g.

Lemma revoke_one_lookup save tenant_id gid st k :
  iga_access_grants (revoke_iga_access_grant save tenant_id gid st).2 !! k
  = revoke_in tenant_id [gid] k <$> iga_access_grants st !! k.
Proof.
  unfold revoke_iga_access_grant, revoke_in. simpl. destruct (String.eqb_spec k gid) as [->|Hne].
  - destruct (iga_access_grants st !! gid) as [g|] eqn:E; simpl; [|by rewrite E].
    destruct (String.eqb (gr_tenant_id g) tenant_id); simpl; [by rewrite lookup_insert_eq|].
    by rewrite E.
  - simpl. rewrite option_fmap_id. destruct (iga_access_grants st !! gid) as [g|] eqn:E; [|done].
    case_match; [|done]. simpl. by rewrite lookup_insert_ne.
Qed.

Lemma revoke_all_lookup tenant_id ids : ∀ saves done_ids st r st' k,
  revoke_all saves tenant_id ids done_ids st = (Ok r, st') →
  r = done_ids ++ ids ∧
  iga_access_grants st' !! k = revoke_in tenant_id ids k <$> iga_access_grants st !! k.
Proof.
  induction ids as [|i ids IH]; intros saves done_ids st r st' k; cbn [revoke_all].
  - intros [= <- <-]. rewrite app_nil_r. split; [done|]. unfold revoke_in. simpl.
    by destruct (iga_access_grants st !! k).
  - destruct (revoke_iga_access_grant _ _ _ _) as [[?|?] st1] eqn:E; [|done].
    intros [-> Hk]%(IH _ _ _ _ _ k). split; [by rewrite <- app_assoc|].
    rewrite Hk. pose proof (revoke_one_lookup (default (Ok tt) (head saves)) tenant_id i st k) as H1.
    rewrite E in H1. simpl in H1. rewrite H1. destruct (iga_access_grants st !! k) as [g|]; [|done].
    simpl. f_equal. unfold revoke_in. simpl. destruct (String.eqb k i), (str_in k ids); simpl;
      repeat case_match; simpl in *; try done; by rewrite H in *.
Qed.

(** After a successful revocation for a subject, no active grant of that
    tenant and subject covers one of the entitlements (any, when the list is
    empty); every other grant is untouched, and the returned ids are exactly those
    of the grants that were active before. *)
Theorem revoke_leaves_none_active saves tenant_id subj ents st r st' :
  grants_keyed st →
  revoke_active_grants_for_subject_entitlements saves tenant_id subj ents st = (Ok r, st') →
  let covered g := gr_tenant_id g = tenant_id ∧ gr_subject g = subj
                   ∧ (ents = [] ∨ gr_entitlement g ∈ ents) in
  (∀ k g, iga_access_grants st' !! k = Some g → covered g → gr_revoked g = true) ∧
  (∀ k g, iga_access_grants st !! k = Some g → ¬ covered g → iga_access_grants st' !! k = Some g) ∧
  (∀ k, k ∈ r ↔ ∃ g, iga_access_grants st !! k = Some g ∧ covered g ∧ gr_revoked g = false).
Proof.
  intros Hkey Hr covered. unfold revoke_active_grants_for_subject_entitlements in Hr.
  set (active := List.filter _ _) in Hr.
  assert (∀ k, k ∈ map gr_id active ↔
    ∃ g, iga_access_grants st !! k = Some g ∧ covered g ∧ gr_revoked g = false) as Hact.
  { intros k. rewrite elem_of_map. unfold active, list_iga_access_grants.
    setoid_rewrite elem_of_lfilter. setoid_rewrite elem_of_sort_by. setoid_rewrite elem_of_lfilter.
    setoid_rewrite elem_of_map. setoid_rewrite andb_true_iff. setoid_rewrite String.eqb_eq.
    setoid_rewrite negb_true_iff. setoid_rewrite orb_true_iff. setoid_rewrite str_in_spec.
    assert (match ents with [] => true | _ => false end = true ↔ ents = []) as He by (destruct ents; naive_solver).
    setoid_rewrite He. unfold covered. split.
    - intros (g & -> & (([k' g'] & -> & Hk%elem_of_map_to_list) & ? & ?) & ? & ?). simpl in *.
      rewrite (Hkey _ _ Hk). eauto 10.
    - intros (g & Hk & (? & ? & ?) & ?). exists g. rewrite (Hkey _ _ Hk). split; [done|].
      split; [|done]. split; [|done]. exists (k, g). split; [done|]. by apply elem_of_map_to_list. }
  pose proof (fun k => revoke_all_lookup tenant_id _ _ _ _ _ _ k Hr) as Hall. simpl in Hall.
  split; [|split].
  - intros k g Hk Hc. destruct (Hall k) as [_ Hk']. rewrite Hk' in Hk.
    apply fmap_Some in Hk as (g0 & Hg0 & ->). unfold revoke_in in *.
    destruct (str_in k _ && _) eqn:E; [done|].
    destruct (gr_revoked g0) eqn:Er; [done|]. exfalso. destruct Hc as (Ht & Hc).
    rewrite Ht, String.eqb_refl, andb_true_r in E. apply str_in_false in E.
    apply E, Hact. exists g0. done.
  - intros k g Hk Hn. destruct (Hall k) as [_ ->]. rewrite Hk. simpl. unfold revoke_in.
    destruct (str_in k _) eqn:E; [|done]. apply str_in_spec, Hact in E as (g' & Hg' & Hc & _).
    naive_solver.
  - intros k. destruct (Hall k) as [-> _]. apply Hact.
Qed.


End GrantProofs.


(** * Access reviews *)

Definition holds_conflict (catalog : list Entitlement) (ents : list string) : Prop :=
  ∃ e c, e ∈ catalog ∧ id e ∈ ents ∧ c ∈ conflicting_entitlements e ∧ c ∈ ents.

Definition holds_high_risk (catalog : list Entitlement) (ents : list string) : Prop :=
  ∃ e, e ∈ catalog ∧ id e ∈ ents ∧ risk_geb (risk_level e) High = true.

Lemma sod_conflicts_spec ents catalog : sod_conflicts ents catalog ≠ [] ↔ holds_conflict catalog ents.
Proof.
  transitivity (∃ x, x ∈ sod_conflicts ents catalog).
  { destruct (sod_conflicts ents catalog) as [|x l]; [set_solver|]. split; [|done]. exists x. left. }
  unfold sod_conflicts, sort_dedup, holds_conflict. setoid_rewrite elem_of_dedup.
  setoid_rewrite elem_of_sort_by. setoid_rewrite elem_of_concat_map. split.
  - intros (x & e & He & Hx). destruct (str_in (id e) ents) eqn:E; [|by apply not_elem_of_nil in Hx].
    apply str_in_spec in E. apply elem_of_map in Hx as (c & _ & [Hc Hin]%elem_of_lfilter).
    apply str_in_spec in Hin. eauto 10.
  - intros (e & c & He & Hin & Hc & Hcin). exists (id e +:+ "+" +:+ c), e. split; [done|].
    rewrite (proj2 (str_in_spec _ _) Hin). apply elem_of_map. exists c. split; [done|].
    apply elem_of_lfilter. by rewrite str_in_spec.
Qed.

Lemma high_risk_held catalog ents :
  existsb (fun e => str_in e (map id (List.filter (fun e => risk_geb (risk_level e) High) catalog))) ents
  = true ↔ holds_high_risk catalog ents.
Proof.
  rewrite existsb_elem_of. setoid_rewrite str_in_spec. setoid_rewrite elem_of_map.
  setoid_rewrite elem_of_lfilter. unfold holds_high_risk. naive_solver.
Qed.

Lemma recommend_exact catalog dormant orphan subj ents :
  let r := recommend (review_reasons catalog dormant orphan subj ents) in
  (r = Revoke ↔ subj ∈ orphan ∨ holds_conflict catalog ents) ∧
  (r = Certify ↔ (subj ∉ orphan) ∧ (subj ∉ dormant) ∧ ¬ holds_conflict catalog ents
                 ∧ ¬ holds_high_risk catalog ents).
Proof.
  simpl. unfold recommend, review_reasons.
  rewrite <- sod_conflicts_spec, <- high_risk_held, <- !str_in_spec.
  rewrite !existsb_app. destruct (sod_conflicts ents catalog) as [|x l]; simpl.
  - destruct (str_in subj dormant), (str_in subj orphan), (existsb _ ents); simpl; naive_solver.
  - change (starts_with "sod_conflict:" ("sod_conflict:" +:+ x)) with (starts_with "" x).
    replace (starts_with "" x) with true by (by destruct x). rewrite orb_true_r, !orb_true_r.
    split; [naive_solver|]. split; [done|naive_solver].
Qed.

(** A review campaign has one entry per assigned subject, with its
    entitlements; revocation is recommended exactly for an orphan subject or one
    holding two conflicting entitlements, certification exactly when the subject is
    neither orphan nor dormant and holds no conflict and no high-risk entitlement. *)
Theorem review_recommendations_exact cid rev assignments catalog dormant orphan :
  let c := build_access_review_campaign cid rev assignments catalog dormant orphan in
  map rv_subject (subjects c) ≡ₚ map fst (map_to_list assignments) ∧
  ∀ s, s ∈ subjects c →
    assignments !! rv_subject s = Some (rv_entitlements s) ∧
    (recommendation s = Revoke ↔
       rv_subject s ∈ orphan ∨ holds_conflict catalog (rv_entitlements s)) ∧
    (recommendation s = Certify ↔
       (rv_subject s ∉ orphan) ∧ (rv_subject s ∉ dormant) ∧
       ¬ holds_conflict catalog (rv_entitlements s) ∧ ¬ holds_high_risk catalog (rv_entitlements s)).
Proof.
  simpl. split.
  - rewrite sort_by_perm, map_map. apply reflexive_eq, map_ext. by intros [? ?].
  - intros s. rewrite elem_of_sort_by. intros ([k l] & -> & Hin%elem_of_map_to_list)%elem_of_map.
    simpl. split; [done|]. apply recommend_exact.
Qed.

(** * Witnesses *)

Definition default_entitlement_catalog : list Entitlement :=
  [ {| id := "app:erp:read"; display_name := "ERP read access"; owner := "finance-ops";
       risk_level := Low; conflicting_entitlements := [];
       max_duration_seconds := Some (90 * 24 * 60 * 60) |};
    {| id := "app:erp:admin"; display_name := "ERP administrator"; owner := "finance-ops";
       risk_level := High; conflicting_entitlements := ["app:erp:audit"];
       max_duration_seconds := Some (7 * 24 * 60 * 60) |};
    {| id := "app:erp:audit"; display_name := "ERP audit reviewer"; owner := "internal-audit";
       risk_level := High; conflicting_entitlements := ["app:erp:admin"];
       max_duration_seconds := Some (30 * 24 * 60 * 60) |} ].

Definition erp_read (req : option N) : AccessRequestEvaluation :=
  evaluate_access_request "r1" 100 "alice" "app:erp:read" [] req default_entitlement_catalog.

Definition erp_admin (held : list string) : AccessRequestEvaluation :=
  evaluate_access_request "r2" 100 "alice" "app:erp:admin" held None default_entitlement_catalog.

Lemma accepted_requests_expire_witness :
  expires_at_epoch_seconds (erp_read (Some 60)) = Some 160 ∧
  ∃ x, expires_at_epoch_seconds (erp_read (Some 60)) = Some x ∧ x ≤ 100 + 90 * 24 * 60 * 60
       ∧ (∀ r, Some 60 = Some r → x = 100 + N.min r (90 * 24 * 60 * 60)).
Proof.
  split; [reflexivity|].
  apply (proj1 (accepted_requests_expire "r1" 100 "alice" "app:erp:read" [] (Some 60)
    default_entitlement_catalog (default (Build_Entitlement "" "" "" Low [] None)
      (head default_entitlement_catalog)) eq_refl)); [discriminate|reflexivity].
Defined.

Lemma package_requires_member_steps_witness :
  let p := build_access_package_evaluation "r3" "alice" "p" [erp_read None; erp_admin []] in
  length (pkg_approval_steps p) = 2%nat ∧ NoDup (pkg_approval_steps p).
Proof.
  split; [reflexivity|].
  apply (package_requires_member_steps "r3" "alice" "p" [erp_read None; erp_admin []]).
  intros ev [->|[->|H%not_elem_of_nil]%elem_of_cons]%elem_of_cons; [..|done].
  - unfold erp_read. do 7 eexists. reflexivity.
  - unfold erp_admin. do 7 eexists. reflexivity.
Defined.

Definition ex_grant (gid ent : string) : IgaAccessGrantRecord :=
  {| gr_id := gid; gr_tenant_id := "t"; gr_request_id := "q"; gr_subject := "alice";
     gr_entitlement := ent; gr_granted_at_epoch_seconds := 100;
     gr_expires_at_epoch_seconds := Some 200; gr_approval_ids := ["a1"]; gr_revoked := false |}.

Definition ex_request : IgaAccessRequestRecord unit :=
  {| rq_id := "q"; rq_tenant_id := "t"; rq_subject := "alice"; rq_entitlement := "access_package:p";
     rq_reason := None; rq_status := "approved"; rq_approval_steps_json := VNull;
     rq_violations_json := VNull;
     rq_package_entitlement_ids_json := VArray [VString "e1"; VString "e2"];
     rq_expires_at_epoch_seconds := None; rq_created_at_epoch_seconds := 50 |}.

Definition ex_store : GrantStore unit :=
  {| iga_access_requests := {["q" := ex_request]};
     iga_access_grants := {["g1" := ex_grant "g1" "e1"]}; dirty := false |}.

Definition ex_candidates : list IgaAccessGrantRecord := [ex_grant "n1" "e1"; ex_grant "n2" "e2"].

Definition ex_after : GrantStore unit :=
  (ensure_iga_access_grants Immediate (Ok tt) ex_candidates ex_store).2.

Lemma ensure_grants_atomic_witness :
  ensure_iga_access_grants Immediate (Ok tt) ex_candidates ex_store = (Ok [ex_grant "n2" "e2"], ex_after) ∧
  (∀ k g, iga_access_grants ex_store !! k = Some g → iga_access_grants ex_after !! k = Some g).
Proof.
  split; [vm_compute; reflexivity|].
  apply (ensure_grants_atomic Immediate (Ok tt) ex_candidates ex_store (Ok [ex_grant "n2" "e2"]) ex_after).
  vm_compute. reflexivity.
Defined.

Lemma ensure_grants_idempotent_witness :
  ensure_iga_access_grants Interval (Ok tt) ex_candidates ex_after = (Ok [], ex_after).
Proof.
  apply (ensure_grants_idempotent Immediate (Ok tt) Interval (Ok tt) ex_candidates ex_store
    [ex_grant "n2" "e2"] ex_after).
  vm_compute. reflexivity.
Defined.

Lemma revoke_leaves_none_active_witness :
  let r := revoke_active_grants_for_subject_entitlements [] "t" "alice" [] ex_store in
  r.1 = Ok ["g1"] ∧
  ∀ k g, iga_access_grants r.2 !! k = Some g →
    gr_tenant_id g = "t" ∧ gr_subject g = "alice" ∧ (@nil string = [] ∨ gr_entitlement g ∈ @nil string) →
    gr_revoked g = true.
Proof.
  split; [vm_compute; reflexivity|].
  apply (revoke_leaves_none_active [] "t" "alice" [] ex_store ["g1"]).
  - intros k g H. simpl in H. by apply lookup_singleton_Some in H as [<- <-].
  - vm_compute. reflexivity.
Defined.


End Iga.
