(* ===== verification/LdapFilter.v ===== *)
(** The RFC 4515 LDAP filter parser and serialiser
    (src/qid-directory/src/ldap_filter.rs).

    A [&str] is the list of its characters; the parser's cursor is the list of
    the characters that remain.  Error values keep the kind of the message; the
    byte position some messages print is left out.  The parser's recursion takes
    fuel; [parse_never_out_of_fuel] shows the fuel [parse_ldap_filter] gives is
    always enough. *)

From S2P Require Import Prelude Utf8.

Module LdapFilter.
Import Utf8.

Local Abbreviation STAR := 42 (only parsing).
Local Abbreviation LPAREN := 40 (only parsing).
Local Abbreviation RPAREN := 41 (only parsing).
Local Abbreviation BACKSLASH := 92 (only parsing).
Local Abbreviation AMP := 38 (only parsing).
Local Abbreviation PIPE := 124 (only parsing).
Local Abbreviation BANG := 33 (only parsing).
Local Abbreviation EQUALS := 61 (only parsing).
Local Abbreviation TILDE := 126 (only parsing).
Local Abbreviation GT := 62 (only parsing).
Local Abbreviation LT := 60 (only parsing).
Local Abbreviation COLON := 58 (only parsing).

Definition text : Type := list char.

Record SubstringValue : Type := { initial : option text; any : list text; final_ : option text }.

Inductive LdapFilter : Type :=
| And (children : list LdapFilter)
| Or (children : list LdapFilter)
| Not (child : LdapFilter)
| Present (attr : text)
| Equality (attr value : text)
| Substring (attr : text) (sub : SubstringValue)
| GreaterOrEqual (attr value : text)
| LessOrEqual (attr value : text).

(** The [BadRequest] messages of the parser. *)
Inductive FilterError : Type :=
| ExpectedChar (expected got : char)
| UnexpectedEnd (expected : char)
| EmptyAnd
| EmptyOr
| ApproximateMatch (attr : text)
| ExtensibleMatch (attr : text)
| UnexpectedAfterAttribute (c : char) (attr : text)
| EndAfterAttribute (attr : text)
| EmptyAttribute
| InvalidEscape
| InvalidUtf8
| TrailingContent (rest : text)
| OutOfFuel.

Definition FilterResult (A : Type) : Type := result A FilterError.

(** * Values *)

(** [char::to_digit(16)] *)
Definition to_digit16 (c : char) : option N :=
  if (48 <=? c) && (c <=? 57) then Some (c - 48)
  else if (97 <=? c) && (c <=? 102) then Some (c - 87)
  else if (65 <=? c) && (c <=? 70) then Some (c - 55)
  else None.

Fixpoint unescape_bytes (raw : text) : FilterResult (list N) :=
  match raw with
  | [] => Ok []
  | c :: rest =>
      if c =? BACKSLASH then
        match rest with
        | h :: l :: rest' =>
            match to_digit16 h, to_digit16 l with
            | Some hi, Some lo => let? bs := unescape_bytes rest' in Ok ((hi * 16 + lo) :: bs)
            | _, _ => Err InvalidEscape
            end
        | _ => Err InvalidEscape
        end
      else let? bs := unescape_bytes rest in Ok (encode_char c ++ bs)
  end.

Definition unescape_filter_value (raw : text) : FilterResult text :=
  let? bs := unescape_bytes raw in ok_or (decode bs) InvalidUtf8.

Definition hex_digit (d : N) : char := if d <? 10 then 48 + d else 87 + d.

(** [format!("\\{byte:02x}")] *)
Definition escape_byte (b : N) : text := [BACKSLASH; hex_digit (b / 16); hex_digit (b mod 16)].

Definition escape_char (c : char) : text :=
  if c =? STAR then [BACKSLASH; 50; 97]
  else if c =? LPAREN then [BACKSLASH; 50; 56]
  else if c =? RPAREN then [BACKSLASH; 50; 57]
  else if c =? BACKSLASH then [BACKSLASH; 53; 99]
  else if c =? 0 then [BACKSLASH; 48; 48]
  else if c <? 0x20 then escape_byte c
  else if 0x7f <? c then concat (map escape_byte (encode_char c))
  else [c].

Definition escape_filter_value_value (input : text) : text := concat (map escape_char input).

(** * The parser *)

Definition peek (s : text) : option char := head s.
Definition advance (s : text) : text := tail s.

Definition expect_char (expected : char) (s : text) : FilterResult text :=
  match peek s with
  | Some c => if c =? expected then Ok (advance s) else Err (ExpectedChar expected c)
  | None => Err (UnexpectedEnd expected)
  end.

Definition is_attr_char (c : char) : bool :=
  ((48 <=? c) && (c <=? 57)) || ((65 <=? c) && (c <=? 90)) || ((97 <=? c) && (c <=? 122))
  || (c =? 45) || (c =? 46).

Fixpoint take_attr (s : text) : text * text :=
  match s with
  | [] => ([], [])
  | c :: r => if is_attr_char c then let '(a, rest) := take_attr r in (c :: a, rest) else ([], s)
  end.

Definition parse_attr (s : text) : FilterResult (text * text) :=
  let '(a, rest) := take_attr s in
  match a with [] => Err EmptyAttribute | _ => Ok (a, rest) end.

Fixpoint take_value (s : text) : text * text :=
  match s with
  | [] => ([], [])
  | c :: r => if c =? RPAREN then ([], s) else let '(v, rest) := take_value r in (c :: v, rest)
  end.

Definition parse_value (s : text) : FilterResult (text * text) :=
  let '(v, rest) := take_value s in
  let? u := unescape_filter_value v in Ok (u, rest).

Definition check_substring_only_star (s : text) : bool :=
  match s with c :: d :: _ => (c =? STAR) && (d =? RPAREN) | _ => false end.

(** The scan of [parse_equality_or_substring]: the raw value, whether it has a
    wildcard, and what follows.  An escape spans the two characters after it. *)
Fixpoint scan_value (s : text) : text * bool * text :=
  match s with
  | [] => ([], false, [])
  | c :: r =>
      if c =? RPAREN then ([], false, s)
      else if c =? BACKSLASH then
        match r with
        | [] => ([c], false, [])
        | [q] => ([c; q], false, [])
        | q1 :: q2 :: r' => let '(v, w, rest) := scan_value r' in (c :: q1 :: q2 :: v, w, rest)
        end
      else let '(v, w, rest) := scan_value r in (c :: v, (c =? STAR) || w, rest)
  end.

(** The state of the loop that splits a value at its stars. *)
Record split_state : Type := {
  s_initial : option text; s_any : list text; s_current : text; after_star : bool
}.

Definition split_step (st : split_state) (ch : char) : split_state :=
  if ch =? STAR then
    if negb (after_star st) then
      if match s_initial st with None => true | _ => false end
         && match s_any st with [] => true | _ => false end
      then {| s_initial := Some (s_current st); s_any := s_any st; s_current := []; after_star := true |}
      else {| s_initial := s_initial st; s_any := s_any st ++ [s_current st]; s_current := [];
              after_star := true |}
    else {| s_initial := s_initial st; s_any := s_any st ++ [s_current st]; s_current := [];
            after_star := after_star st |}
  else {| s_initial := s_initial st; s_any := s_any st; s_current := s_current st ++ [ch];
          after_star := after_star st |}.

Definition nonempty (t : text) : bool := match t with [] => false | _ => true end.

(** [opt.filter(|s| !s.is_empty()).map(unescape).transpose()] *)
Definition unescape_opt (o : option text) : FilterResult (option text) :=
  match o with
  | Some t => if nonempty t then let? u := unescape_filter_value t in Ok (Some u) else Ok None
  | None => Ok None
  end.

Definition parse_equality_or_substring (attr s : text) : FilterResult (LdapFilter * text) :=
  let '(value, has_wildcard, rest) := scan_value s in
  if negb has_wildcard then
    let? unescaped := unescape_filter_value value in Ok (Equality attr unescaped, rest)
  else
    let st := foldl split_step
      {| s_initial := None; s_any := []; s_current := []; after_star := false |} value in
    let fin := if nonempty (s_current st) || negb (after_star st) then Some (s_current st) else None in
    let? i := unescape_opt (s_initial st) in
    let? a := res_mapM unescape_filter_value (List.filter nonempty (s_any st)) in
    let? f := unescape_opt fin in
    Ok (Substring attr {| initial := i; any := a; final_ := f |}, rest).

Definition parse_simple_filter (s : text) : FilterResult (LdapFilter * text) :=
  let? (attr, s1) := parse_attr s in
  match peek s1 with
  | None => Err (EndAfterAttribute attr)
  | Some c =>
      if c =? EQUALS then
        let s2 := advance s1 in
        if check_substring_only_star s2 then Ok (Present attr, advance s2)
        else parse_equality_or_substring attr s2
      else if c =? TILDE then Err (ApproximateMatch attr)
      else if c =? GT then
        let? s2 := expect_char EQUALS (advance s1) in
        let? (value, rest) := parse_value s2 in Ok (GreaterOrEqual attr value, rest)
      else if c =? LT then
        let? s2 := expect_char EQUALS (advance s1) in
        let? (value, rest) := parse_value s2 in Ok (LessOrEqual attr value, rest)
      else if c =? COLON then Err (ExtensibleMatch attr)
      else Err (UnexpectedAfterAttribute c attr)
  end.

(** [while self.peek() == Some('(') { children.push(self.parse_filter()?) }] *)
Fixpoint parse_children (pf : text → FilterResult (LdapFilter * text)) (n : nat) (s : text)
    : FilterResult (list LdapFilter * text) :=
  match n with
  | O => Err OutOfFuel
  | S n' =>
      if match peek s with Some c => c =? LPAREN | None => false end then
        let? (f, s1) := pf s in
        let? (fs, s2) := parse_children pf n' s1 in Ok (f :: fs, s2)
      else Ok ([], s)
  end.

Definition parse_filter_inner (pf : text → FilterResult (LdapFilter * text)) (n : nat) (s : text)
    : FilterResult (LdapFilter * text) :=
  match peek s with
  | Some c =>
      if c =? AMP then
        let? (children, s1) := parse_children pf n (advance s) in
        match children with [] => Err EmptyAnd | _ => Ok (And children, s1) end
      else if c =? PIPE then
        let? (children, s1) := parse_children pf n (advance s) in
        match children with [] => Err EmptyOr | _ => Ok (Or children, s1) end
      else if c =? BANG then
        let? (child, s1) := pf (advance s) in Ok (Not child, s1)
      else parse_simple_filter s
  | None => parse_simple_filter s
  end.

Fixpoint parse_filter (fuel : nat) (s : text) : FilterResult (LdapFilter * text) :=
  match fuel with
  | O => Err OutOfFuel
  | S n =>
      let? s1 := expect_char LPAREN s in
      let? (filter, s2) := parse_filter_inner (parse_filter n) (S n) s1 in
      let? s3 := expect_char RPAREN s2 in
      Ok (filter, s3)
  end.

Definition parse_ldap_filter (input : text) : FilterResult LdapFilter :=
  let s := trim input in
  let? (filter, rest) := parse_filter (S (length s)) s in
  match trim rest with
  | [] => Ok filter
  | t => Err (TrailingContent t)
  end.

Definition validate_ldap_filter (input : text) : FilterResult unit :=
  let? _ := parse_ldap_filter input in Ok tt.

(** * The serialiser *)

Definition substring_body (sub : SubstringValue) : text :=
  let star t := STAR :: escape_filter_value_value t in
  let i := default [] (escape_filter_value_value <$> initial sub) in
  let a := concat (map star (any sub)) in
  let f := default [] (star <$> final_ sub) in
  let trailing :=
    match final_ sub, initial sub, any sub with
    | Some _, _, _ => []
    | None, None, [] => []
    | None, _, _ => [STAR]
    end in
  i ++ a ++ f ++ trailing.

Fixpoint to_filter_string (f : LdapFilter) : text :=
  match f with
  | And children => [LPAREN; AMP] ++ concat (map to_filter_string children) ++ [RPAREN]
  | Or children => [LPAREN; PIPE] ++ concat (map to_filter_string children) ++ [RPAREN]
  | Not child => [LPAREN; BANG] ++ to_filter_string child ++ [RPAREN]
  | Present attr => [LPAREN] ++ attr ++ [EQUALS; STAR; RPAREN]
  | Equality attr value => [LPAREN] ++ attr ++ [EQUALS] ++ escape_filter_value_value value ++ [RPAREN]
  | Substring attr sub => [LPAREN] ++ attr ++ [EQUALS] ++ substring_body sub ++ [RPAREN]
  | GreaterOrEqual attr value =>
      [LPAREN] ++ attr ++ [GT; EQUALS] ++ escape_filter_value_value value ++ [RPAREN]
  | LessOrEqual attr value =>
      [LPAREN] ++ attr ++ [LT; EQUALS] ++ escape_filter_value_value value ++ [RPAREN]
  end.

Definition sanitize_admin_search_filter (filter : text) : FilterResult text :=
  let? ast := parse_ldap_filter filter in Ok (to_filter_string ast).

(** * Well-formed filters *)

Definition attr_wf (a : text) : bool := nonempty a && forallb is_attr_char a.
Definition value_wf (v : text) : bool := forallb is_scalar v.
Definition component_wf (v : text) : bool := nonempty v && value_wf v.

Definition opt_wf (o : option text) : bool := match o with Some v => component_wf v | None => true end.

Fixpoint wf (f : LdapFilter) : bool :=
  match f with
  | And cs | Or cs => match cs with [] => false | _ => true end && forallb wf cs
  | Not c => wf c
  | Present a => attr_wf a
  | Equality a v | GreaterOrEqual a v | LessOrEqual a v => attr_wf a && value_wf v
  | Substring a sub =>
      attr_wf a && opt_wf (initial sub) && forallb component_wf (any sub) && opt_wf (final_ sub)
  end.

Definition sub_empty (sub : SubstringValue) : bool :=
  match initial sub, any sub, final_ sub with None, [], None => true | _, _, _ => false end.

(** What a filter becomes when it is printed and parsed again: a substring filter
    without components reads back as an equality with the empty value. *)
Fixpoint normalise (f : LdapFilter) : LdapFilter :=
  match f with
  | And cs => And (map normalise cs)
  | Or cs => Or (map normalise cs)
  | Not c => Not (normalise c)
  | Substring a sub => if sub_empty sub then Equality a [] else f
  | _ => f
  end.

Section LdapFilterInd.
Variable P : LdapFilter → Prop.
Hypothesis HAnd : ∀ cs, Forall P cs → P (And cs).
Hypothesis HOr : ∀ cs, Forall P cs → P (Or cs).
Hypothesis HNot : ∀ c, P c → P (Not c).
Hypothesis HPresent : ∀ a, P (Present a).
Hypothesis HEquality : ∀ a v, P (Equality a v).
Hypothesis HSubstring : ∀ a s, P (Substring a s).
Hypothesis HGreater : ∀ a v, P (GreaterOrEqual a v).
Hypothesis HLess : ∀ a v, P (LessOrEqual a v).

Fixpoint filter_ind (f : LdapFilter) : P f :=
  let all := fix all (l : list LdapFilter) : Forall P l :=
    match l with [] => Forall_nil_2 P | c :: l' => Forall_cons_2 P c l' (filter_ind c) (all l') end in
  match f with
  | And cs => HAnd cs (all cs)
  | Or cs => HOr cs (all cs)
  | Not c => HNot c (filter_ind c)
  | Present a => HPresent a
  | Equality a v => HEquality a v
  | Substring a s => HSubstring a s
  | GreaterOrEqual a v => HGreater a v
  | LessOrEqual a v => HLess a v
  end.
End LdapFilterInd.

(** * Escaping *)

Lemma hex_digit_ge d : 48 ≤ hex_digit d.
Proof. unfold hex_digit. case_match; lia. Qed.

Lemma to_digit16_hex d : d < 16 → to_digit16 (hex_digit d) = Some d.
Proof.
  intros Hd. unfold hex_digit, to_digit16. destruct (N.ltb_spec d 10).
  - rewrite !(proj2 (N.leb_le _ _)) by lia. simpl. f_equal. lia.
  - rewrite (proj2 (N.leb_gt (87 + d) 57)) by lia. rewrite andb_false_r.
    rewrite !(proj2 (N.leb_le _ _)) by lia. simpl. f_equal. lia.
Qed.

Lemma encode_char_bytes c : is_scalar c = true → Forall (fun b => b < 256) (encode_char c).
Proof.
  unfold is_scalar, encode_char. intros Hs.
  assert (c ≤ 0x10FFFF) as Hc.
  { apply orb_true_iff in Hs as [Hs%N.ltb_lt|[_ Hs%N.leb_le]%andb_true_iff]; lia. }
  repeat case_match; repeat constructor;
    repeat match goal with H : (_ <? _) = _ |- _ => apply N.ltb_lt in H || apply N.ltb_ge in H end; lia.
Qed.

Lemma unescape_escape_byte b s : b < 256 →
  unescape_bytes (escape_byte b ++ s) = let? bs := unescape_bytes s in Ok (b :: bs).
Proof.
  intros Hb. unfold escape_byte. cbn [app unescape_bytes]. rewrite N.eqb_refl.
  rewrite !to_digit16_hex by lia. by replace (b / 16 * 16 + b mod 16) with b by lia.
Qed.

Lemma unescape_escape_bytes bs s : Forall (fun b => b < 256) bs →
  unescape_bytes (concat (map escape_byte bs) ++ s) = let? r := unescape_bytes s in Ok (bs ++ r).
Proof.
  induction 1 as [|b bs Hb Hbs IH]; cbn [map concat]; [by simpl; destruct (unescape_bytes s)|].
  rewrite <- app_assoc, unescape_escape_byte, IH by done. by destruct (unescape_bytes s).
Qed.

Ltac char_cases c :=
  unfold escape_char;
  destruct (N.eqb_spec c 42) as [->|]; [|destruct (N.eqb_spec c 40) as [->|];
    [|destruct (N.eqb_spec c 41) as [->|]; [|destruct (N.eqb_spec c 92) as [->|];
      [|destruct (N.eqb_spec c 0) as [->|]; [|destruct (N.ltb_spec c 0x20);
        [|destruct (N.ltb_spec 0x7f c)]]]]]].

Lemma unescape_escape_char c s : is_scalar c = true →
  unescape_bytes (escape_char c ++ s) = let? bs := unescape_bytes s in Ok (encode_char c ++ bs).
Proof.
  intros Hc. char_cases c; try reflexivity.
  - rewrite unescape_escape_byte by lia. unfold encode_char. by rewrite (proj2 (N.ltb_lt c 0x80)) by lia.
  - by apply unescape_escape_bytes, encode_char_bytes.
  - cbn [app unescape_bytes]. by rewrite (proj2 (N.eqb_neq c 92)).
Qed.

Lemma unescape_escape v : value_wf v = true →
  unescape_filter_value (escape_filter_value_value v) = Ok v.
Proof.
  unfold value_wf. rewrite forallb_elem_of. intros Hv. unfold unescape_filter_value.
  assert (unescape_bytes (escape_filter_value_value v) = Ok (encode v)) as ->.
  { unfold escape_filter_value_value, encode. induction v as [|c v IH]; [done|].
    cbn [map concat]. rewrite unescape_escape_char by (apply Hv; left).
    rewrite IH; [done|]. intros x Hx. apply Hv. by right. }
  simpl. rewrite decode_encode; [done|]. by apply Forall_forall.
Qed.

Lemma escape_byte_clean b x : x ∈ escape_byte b → x ≠ 41 ∧ x ≠ 42.
Proof.
  pose proof (hex_digit_ge (b / 16)). pose proof (hex_digit_ge (b mod 16)).
  unfold escape_byte. rewrite !elem_of_cons, elem_of_nil. intros [->|[->|[->|[]]]]; lia.
Qed.

(** An escaped value holds no parenthesis and no star. *)
Lemma escape_char_clean c x : x ∈ escape_char c → x ≠ 41 ∧ x ≠ 42.
Proof.
  char_cases c; try (rewrite !elem_of_cons, elem_of_nil; intros [->|[->|[->|[]]]]; lia).
  - apply escape_byte_clean.
  - intros (b & _ & Hb)%elem_of_concat_map. by eapply escape_byte_clean.
  - rewrite list_elem_of_singleton. by intros ->.
Qed.

Lemma escape_clean v x : x ∈ escape_filter_value_value v → x ≠ 41 ∧ x ≠ 42.
Proof. intros (c & _ & Hc)%elem_of_concat_map. by eapply escape_char_clean. Qed.

Lemma escape_char_nonempty c : is_scalar c = true → escape_char c ≠ [].
Proof.
  intros _. char_cases c; try done. unfold encode_char. repeat case_match; done.
Qed.

Lemma escape_nonempty v : component_wf v = true →
  ∃ x r, escape_filter_value_value v = x :: r ∧ x ≠ 41 ∧ x ≠ 42.
Proof.
  intros [Hn Hv]%andb_true_iff. destruct v as [|c v]; [done|].
  simpl in Hv. apply andb_true_iff in Hv as [Hc _].
  destruct (escape_char c) as [|x r] eqn:E; [by apply escape_char_nonempty in Hc|].
  exists x, (r ++ escape_filter_value_value v). split.
  - change (escape_char c ++ escape_filter_value_value v = x :: r ++ escape_filter_value_value v).
    by rewrite E.
  - apply (escape_char_clean c). rewrite E. left.
Qed.


(** * Scanning printed values *)

Definition scan_prepend (t : text) (r : text * bool * text) : text * bool * text :=
  (t ++ r.1.1, r.1.2, r.2).

Lemma scan_escape_byte b s : scan_value (escape_byte b ++ s) = scan_prepend (escape_byte b) (scan_value s).
Proof.
  unfold escape_byte. cbn [app scan_value]. simpl (_ =? _). cbv iota.
  by destruct (scan_value s) as [[v w] r].
Qed.

Lemma scan_escape_bytes bs s :
  scan_value (concat (map escape_byte bs) ++ s)
  = scan_prepend (concat (map escape_byte bs)) (scan_value s).
Proof.
  induction bs as [|b bs IH]; cbn [map concat]; [by simpl; destruct (scan_value s) as [[? ?] ?]|].
  rewrite <- app_assoc, scan_escape_byte, IH. unfold scan_prepend. simpl. done.
Qed.

Lemma scan_escape_char c s : scan_value (escape_char c ++ s) = scan_prepend (escape_char c) (scan_value s).
Proof.
  char_cases c.
  - apply (scan_escape_byte 42).
  - apply (scan_escape_byte 40).
  - apply (scan_escape_byte 41).
  - apply (scan_escape_byte 92).
  - apply (scan_escape_byte 0).
  - apply scan_escape_byte.
  - apply scan_escape_bytes.
  - cbn [app scan_value]. rewrite !(proj2 (N.eqb_neq c _)) by done. by destruct (scan_value s) as [[? ?] ?].
Qed.

Lemma scan_escape v s :
  scan_value (escape_filter_value_value v ++ s)
  = scan_prepend (escape_filter_value_value v) (scan_value s).
Proof.
  unfold escape_filter_value_value. induction v as [|c v IH]; cbn [map concat].
  - by simpl; destruct (scan_value s) as [[? ?] ?].
  - rewrite <- app_assoc, scan_escape_char, IH. unfold scan_prepend. simpl. by rewrite app_assoc.
Qed.

Definition star (t : text) : text := STAR :: t.

Lemma scan_stars vs s :
  scan_value (concat (map (fun v => star (escape_filter_value_value v)) vs) ++ s)
  = let '(v, w, r) := scan_value s in
    (concat (map (fun v => star (escape_filter_value_value v)) vs) ++ v,
     match vs with [] => w | _ => true end, r).
Proof.
  induction vs as [|u vs IH]; cbn [map concat]; [by simpl; destruct (scan_value s) as [[? ?] ?]|].
  rewrite <- app_assoc. unfold star at 1. cbn [app scan_value]. simpl (42 =? _). cbv iota.
  rewrite scan_escape, IH. destruct (scan_value s) as [[v w] r]. simpl.
  by rewrite <- app_assoc.
Qed.

Lemma take_value_clean t s :
  (∀ x, x ∈ t → x ≠ 41) → take_value (t ++ RPAREN :: s) = (t, RPAREN :: s).
Proof.
  induction t as [|c t IH]; intros Ht; [done|]. cbn [app take_value].
  rewrite (proj2 (N.eqb_neq c 41)) by (apply Ht; left). rewrite IH; [done|].
  intros x Hx. apply Ht. by right.
Qed.

Lemma parse_value_print v s : value_wf v = true →
  parse_value (escape_filter_value_value v ++ RPAREN :: s) = Ok (v, RPAREN :: s).
Proof.
  intros Hv. unfold parse_value. rewrite take_value_clean by (intros x Hx; by apply escape_clean in Hx as [? _]).
  by rewrite unescape_escape.
Qed.

Lemma split_clean t : ∀ st,
  (∀ x, x ∈ t → x ≠ 42) →
  foldl split_step st t =
  {| s_initial := s_initial st; s_any := s_any st; s_current := s_current st ++ t;
     after_star := after_star st |}.
Proof.
  induction t as [|c t IH]; intros st Ht; simpl; [rewrite app_nil_r; by destruct st|].
  rewrite IH by (intros x Hx; apply Ht; by right). unfold split_step.
  rewrite (proj2 (N.eqb_neq c 42)) by (apply Ht; left). simpl. by rewrite <- app_assoc.
Qed.

(** After the first star, each further piece pushes the piece before it. *)
Lemma split_pieces ps : ∀ i a cur,
  (∀ p x, p ∈ ps → x ∈ p → x ≠ 42) →
  foldl split_step {| s_initial := i; s_any := a; s_current := cur; after_star := true |}
    (concat (map star ps))
  = {| s_initial := i; s_any := a ++ removelast (cur :: ps); s_current := List.last (cur :: ps) [];
       after_star := true |}.
Proof.
  induction ps as [|p ps IH]; intros i a cur Hps; simpl.
  - by rewrite app_nil_r.
  - unfold split_step at 2. simpl. rewrite foldl_app, (split_clean p) by (intros x; apply Hps; left).
    simpl. rewrite IH by (intros q x Hq; apply Hps; by right).
    by rewrite <- app_assoc.
Qed.

Lemma split_all i q ps :
  (∀ x, x ∈ i → x ≠ 42) → (∀ p x, p ∈ q :: ps → x ∈ p → x ≠ 42) →
  foldl split_step {| s_initial := None; s_any := []; s_current := []; after_star := false |}
    (i ++ concat (map star (q :: ps)))
  = {| s_initial := Some i; s_any := removelast (q :: ps); s_current := List.last (q :: ps) [];
       after_star := true |}.
Proof.
  intros Hi Hps. rewrite foldl_app, (split_clean i) by done. cbn [map concat].
  unfold star at 1. cbn [app foldl]. unfold split_step at 2. simpl.
  rewrite foldl_app, (split_clean q) by (intros x; apply Hps; left). simpl.
  rewrite split_pieces by (intros p x Hp; apply Hps; by right). done.
Qed.

(** * Printed simple filters *)

Lemma take_attr_print a s :
  forallb is_attr_char a = true → match s with c :: _ => is_attr_char c = false | [] => True end →
  take_attr (a ++ s) = (a, s).
Proof.
  intros Ha Hs. induction a as [|c a IH]; simpl in *.
  - destruct s as [|c s]; [done|]. simpl. by rewrite Hs.
  - apply andb_true_iff in Ha as [Hc Ha]. by rewrite Hc, IH.
Qed.

Lemma parse_attr_print a s :
  attr_wf a = true → match s with c :: _ => is_attr_char c = false | [] => True end →
  parse_attr (a ++ s) = Ok (a, s).
Proof.
  intros [Hn Ha]%andb_true_iff Hs. unfold parse_attr. rewrite take_attr_print by done.
  by destruct a.
Qed.

(** The pieces between the stars of a printed substring filter. *)
Definition pieces (sub : SubstringValue) : list text :=
  map escape_filter_value_value (any sub) ++ [default [] (escape_filter_value_value <$> final_ sub)].

Lemma substring_body_pieces sub : sub_empty sub = false →
  substring_body sub
  = default [] (escape_filter_value_value <$> initial sub) ++ concat (map star (pieces sub)).
Proof.
  intros Hne. unfold substring_body, pieces. f_equal.
  rewrite map_app, concat_app, map_map. unfold star at 2.
  destruct sub as [i a [f|]]; simpl; rewrite ?app_nil_r; [done|].
  unfold sub_empty in Hne. simpl in *. by destruct i, a.
Qed.

Lemma pieces_clean sub p x : p ∈ pieces sub → x ∈ p → x ≠ 42.
Proof.
  unfold pieces. rewrite elem_of_app, elem_of_map, list_elem_of_singleton.
  intros [(v & -> & _)| ->]; [by intros [_ ?]%escape_clean|].
  destruct (final_ sub); simpl; [by intros [_ ?]%escape_clean|]. by intros ?%not_elem_of_nil.
Qed.

Lemma nonempty_escape v : component_wf v = true → nonempty (escape_filter_value_value v) = true.
Proof. intros H. destruct (escape_nonempty v H) as (x & r & -> & _). done. Qed.

Lemma component_value v : component_wf v = true → value_wf v = true.
Proof. by intros [_ ?]%andb_true_iff. Qed.

Lemma unescape_opt_print o : opt_wf o = true →
  unescape_opt (Some (default [] (escape_filter_value_value <$> o))) = Ok o.
Proof.
  destruct o as [v|]; simpl; [|done]. intros Hv.
  by rewrite nonempty_escape, unescape_escape by (done || by apply component_value).
Qed.

Lemma unescape_any_print vs : forallb component_wf vs = true →
  res_mapM unescape_filter_value (List.filter nonempty (map escape_filter_value_value vs)) = Ok vs.
Proof.
  rewrite forallb_elem_of. intros Hvs. rewrite lfilter_all.
  - apply res_mapM_Ok. induction vs as [|v vs IH]; [constructor|]. constructor.
    + apply unescape_escape, component_value, Hvs. left.
    + apply IH. intros x Hx. apply Hvs. by right.
  - intros t (v & -> & Hv)%elem_of_map. by apply nonempty_escape, Hvs.
Qed.


Lemma scan_body sub s : sub_empty sub = false →
  scan_value (substring_body sub ++ RPAREN :: s) = (substring_body sub, true, RPAREN :: s).
Proof.
  intros Hne. rewrite substring_body_pieces by done. unfold pieces.
  assert (map escape_filter_value_value (any sub)
    ++ [default [] (escape_filter_value_value <$> final_ sub)]
    = map escape_filter_value_value (any sub ++ [default [] (final_ sub)])) as ->.
  { rewrite map_app. by destruct (final_ sub). }
  rewrite (map_map escape_filter_value_value star), <- app_assoc.
  assert (∀ o t, scan_value (default [] (escape_filter_value_value <$> o) ++ t)
    = scan_prepend (default [] (escape_filter_value_value <$> o)) (scan_value t)) as ->.
  { intros [v|] t; simpl; [apply scan_escape|]. by destruct (scan_value t) as [[? ?] ?]. }
  rewrite scan_stars. simpl. rewrite app_nil_r. unfold scan_prepend. simpl.
  by destruct (any sub).
Qed.

Lemma final_print o : opt_wf o = true →
  let t := default [] (escape_filter_value_value <$> o) in
  unescape_opt (if nonempty t then Some t else None) = Ok o.
Proof.
  intros Ho. simpl. destruct o as [f|]; [|done]. rewrite <- (unescape_opt_print (Some f)) by done.
  simpl. rewrite nonempty_escape by done. simpl. by rewrite nonempty_escape.
Qed.

Lemma parse_substring_print a sub s :
  opt_wf (initial sub) = true → forallb component_wf (any sub) = true →
  opt_wf (final_ sub) = true → sub_empty sub = false →
  parse_equality_or_substring a (substring_body sub ++ RPAREN :: s) = Ok (Substring a sub, RPAREN :: s).
Proof.
  intros Hi Ha Hf Hne. unfold parse_equality_or_substring. rewrite scan_body by done. simpl negb. cbv iota.
  assert (∃ q ps, pieces sub = q :: ps) as (q & ps & Hp).
  { unfold pieces. destruct (map _ (any sub)); simpl; eauto. }
  rewrite substring_body_pieces, Hp by done. cbv zeta. rewrite split_all.
  - rewrite <- Hp. unfold pieces. rewrite removelast_last, last_last.
    cbn [s_initial s_any s_current after_star].
    rewrite unescape_opt_print, unescape_any_print, orb_false_r, final_print by done.
    by destruct sub.
  - destruct (initial sub); simpl; [by intros x [_ ?]%escape_clean|]. by intros x ?%not_elem_of_nil.
  - intros p x. rewrite <- Hp. apply pieces_clean.
Qed.

Lemma only_star_equality v s :
  check_substring_only_star (escape_filter_value_value v ++ RPAREN :: s) = false.
Proof.
  destruct (escape_filter_value_value v) as [|x t] eqn:E; [by destruct s|].
  assert (x ≠ 42) as Hx by (apply (escape_clean v); rewrite E; left).
  simpl. destruct (t ++ RPAREN :: s); [done|]. by rewrite (proj2 (N.eqb_neq x 42)).
Qed.

Lemma only_star_substring sub s :
  opt_wf (initial sub) = true → forallb component_wf (any sub) = true → opt_wf (final_ sub) = true →
  sub_empty sub = false → check_substring_only_star (substring_body sub ++ RPAREN :: s) = false.
Proof.
  intros Hi Ha Hf Hne. rewrite substring_body_pieces by done. unfold pieces.
  destruct sub as [[i|] a f]; simpl in *.
  { destruct (escape_nonempty i Hi) as (x & r & -> & _ & Hx). simpl.
    rewrite (proj2 (N.eqb_neq x 42)) by done. by case_match. }
  destruct a as [|v vs]; simpl in *.
  - destruct f as [f|]; [|done]. destruct (escape_nonempty f Hf) as (x & r & Hr & Hx & _).
    simpl. rewrite Hr. simpl. by rewrite (proj2 (N.eqb_neq x 41)).
  - apply andb_true_iff in Ha as [Ha _]. destruct (escape_nonempty v Ha) as (x & r & -> & Hx & _).
    simpl. by rewrite (proj2 (N.eqb_neq x 41)).
Qed.

Definition simple (f : LdapFilter) : bool :=
  match f with And _ | Or _ | Not _ => false | _ => true end.

(** The text between the parentheses. *)
Definition body (f : LdapFilter) : text := removelast (tail (to_filter_string f)).

Lemma body_eq f t : to_filter_string f = LPAREN :: t ++ [RPAREN] → body f = t.
Proof. intros H. unfold body. rewrite H. apply removelast_last. Qed.

Lemma parse_simple_print f s : simple f = true → wf f = true →
  parse_simple_filter (body f ++ RPAREN :: s) = Ok (normalise f, RPAREN :: s).
Proof.
  destruct f as [| | |a|a v|a sub|a v|a v]; intros Hs Hw; try done; simpl in Hw.
  - rewrite (body_eq _ (a ++ [61; 42])) by (simpl; by rewrite <- !app_assoc).
    rewrite <- app_assoc. unfold parse_simple_filter. by rewrite parse_attr_print.
  - apply andb_true_iff in Hw as [Ha Hv].
    rewrite (body_eq _ (a ++ 61 :: escape_filter_value_value v)) by (simpl; by rewrite <- !app_assoc).
    rewrite <- app_assoc. unfold parse_simple_filter. rewrite parse_attr_print by done. simpl.
    rewrite only_star_equality. unfold parse_equality_or_substring. rewrite scan_escape.
    unfold scan_prepend. simpl. by rewrite app_nil_r, unescape_escape.
  - apply andb_true_iff in Hw as [[[Ha Hi]%andb_true_iff Hany]%andb_true_iff Hf].
    rewrite (body_eq _ (a ++ 61 :: substring_body sub)) by (simpl; by rewrite <- !app_assoc).
    rewrite <- app_assoc. unfold parse_simple_filter. rewrite parse_attr_print by done. simpl.
    destruct (sub_empty sub) eqn:E.
    + unfold sub_empty in E. destruct sub as [[|] [|] [|]]; try done. by destruct s.
    + rewrite only_star_substring by done. by apply parse_substring_print.
  - apply andb_true_iff in Hw as [Ha Hv].
    rewrite (body_eq _ (a ++ 62 :: 61 :: escape_filter_value_value v)) by (simpl; by rewrite <- !app_assoc).
    rewrite <- app_assoc. unfold parse_simple_filter. rewrite parse_attr_print by done. simpl.
    by rewrite parse_value_print.
  - apply andb_true_iff in Hw as [Ha Hv].
    rewrite (body_eq _ (a ++ 60 :: 61 :: escape_filter_value_value v)) by (simpl; by rewrite <- !app_assoc).
    rewrite <- app_assoc. unfold parse_simple_filter. rewrite parse_attr_print by done. simpl.
    by rewrite parse_value_print.
Qed.

(** * The round trip *)

Lemma print_shape f : ∃ t, to_filter_string f = LPAREN :: t ++ [RPAREN].
Proof.
  destruct f; simpl; eexists; f_equal;
    rewrite ?(app_comm_cons _ _ _), ?app_assoc, ?app_comm_cons; try reflexivity.
  by rewrite (app_assoc _ [61; 42] [41]).
Qed.

Lemma print_body f : to_filter_string f = LPAREN :: body f ++ [RPAREN].
Proof. destruct (print_shape f) as [t Ht]. rewrite Ht. by rewrite (body_eq f t Ht). Qed.

Lemma simple_body_head f : simple f = true → wf f = true →
  ∃ c r, body f = c :: r ∧ is_attr_char c = true.
Proof.
  intros Hs Hw.
  assert (∃ a t, to_filter_string f = LPAREN :: (a ++ t) ++ [RPAREN] ∧ attr_wf a = true) as (a & t & Hp & Ha).
  { destruct f as [| | |a|a v|a sub|a v|a v]; try done; simpl in Hw; rewrite ?andb_true_iff in Hw;
      exists a; eexists; (split; [|tauto]); simpl; rewrite <- app_assoc; do 2 f_equal;
      rewrite ?app_comm_cons; try reflexivity.
    by instantiate (1 := [61; 42]). }
  rewrite (body_eq _ _ Hp). apply andb_true_iff in Ha as [Hn Ha]. destruct a as [|c a]; [done|].
  simpl in Ha. apply andb_true_iff in Ha as [Hc _]. by exists c, (a ++ t).
Qed.

Lemma inner_simple pf n s c r : s = c :: r → is_attr_char c = true →
  parse_filter_inner pf n s = parse_simple_filter s.
Proof.
  intros -> Hc. unfold parse_filter_inner. simpl peek. cbv iota.
  destruct (N.eqb_spec c 38) as [->|]; [done|]. destruct (N.eqb_spec c 124) as [->|]; [done|].
  by destruct (N.eqb_spec c 33) as [->|].
Qed.

Lemma children_print pf cs : ∀ m s,
  (∀ c t, c ∈ cs → pf (to_filter_string c ++ t) = Ok (normalise c, t)) →
  (length cs < m)%nat →
  parse_children pf m (concat (map to_filter_string cs) ++ RPAREN :: s)
  = Ok (map normalise cs, RPAREN :: s).
Proof.
  induction cs as [|c cs IH]; intros [|m] s Hpf Hm; simpl in Hm; try lia; [done|].
  cbn [map concat parse_children]. rewrite <- app_assoc.
  assert (peek (to_filter_string c ++ concat (map to_filter_string cs) ++ 41 :: s) = Some LPAREN) as ->.
  { destruct (print_shape c) as [t ->]. done. }
  simpl (40 =? 40). cbv iota. rewrite Hpf by left. cbn [res_bind].
  rewrite IH; [done| |lia]. intros d t Hd. apply Hpf. by right.
Qed.

Lemma length_concat_print cs c :
  c ∈ cs → (length (to_filter_string c) ≤ length (concat (map to_filter_string cs)))%nat.
Proof.
  induction cs as [|d cs IH]; [by intros ?%not_elem_of_nil|]. cbn [map concat]. rewrite length_app.
  intros [->|Hc]%elem_of_cons; [lia|]. specialize (IH Hc). lia.
Qed.

Lemma length_children cs : (length cs ≤ length (concat (map to_filter_string cs)))%nat.
Proof.
  induction cs as [|c cs IH]; cbn [map concat length]; [lia|]. rewrite length_app.
  destruct (print_shape c) as [t ->]. simpl. rewrite length_app. simpl. lia.
Qed.

Lemma expect_hit c s : expect_char c (c :: s) = Ok s.
Proof. unfold expect_char. simpl. by rewrite N.eqb_refl. Qed.

Lemma inner_and pf n s : parse_filter_inner pf n (AMP :: s) =
  let? (children, s1) := parse_children pf n s in
  match children with [] => Err EmptyAnd | _ => Ok (And children, s1) end.
Proof. done. Qed.

Lemma inner_or pf n s : parse_filter_inner pf n (PIPE :: s) =
  let? (children, s1) := parse_children pf n s in
  match children with [] => Err EmptyOr | _ => Ok (Or children, s1) end.
Proof. done. Qed.

Lemma inner_not pf n s : parse_filter_inner pf n (BANG :: s) =
  let? (child, s1) := pf s in Ok (Not child, s1).
Proof. done. Qed.

(** The step of [parse_filter] on a printed filter, from the parse of its body. *)
Lemma parse_filter_step n f s g :
  parse_filter_inner (parse_filter n) (S n) (body f ++ RPAREN :: s) = Ok (g, RPAREN :: s) →
  parse_filter (S n) (to_filter_string f ++ s) = Ok (g, s).
Proof.
  intros H. rewrite print_body. cbn [app parse_filter]. rewrite <- app_assoc.
  apply res_bind_Ok. eexists. split; [apply expect_hit|].
  apply res_bind_Ok. eexists. split; [exact H|]. done.
Qed.

(** Parsing the print of a filter, with enough fuel, gives back its normal form. *)
Lemma parse_print f : ∀ n s, wf f = true → (length (to_filter_string f) < n)%nat →
  parse_filter n (to_filter_string f ++ s) = Ok (normalise f, s).
Proof.
  induction f as [cs IH|cs IH|c IH|a|a v|a sub|a v|a v] using filter_ind;
    intros [|n] s Hw Hn; try lia; apply parse_filter_step.
  4-8: edestruct simple_body_head as (c & r & Hb & Hc); [|exact Hw|]; [done|];
    rewrite (inner_simple _ _ _ c (r ++ RPAREN :: s)) by (rewrite ?Hb; done);
    by rewrite parse_simple_print.
  1-2: simpl in Hw; apply andb_true_iff in Hw as [Hne Hw]; rewrite forallb_elem_of in Hw;
    cbn [to_filter_string app length] in Hn; rewrite length_app in Hn;
    pose proof (length_children cs); erewrite body_eq by (cbn; by rewrite app_comm_cons);
    cbn [app]; rewrite ?inner_and, ?inner_or, children_print;
    [by destruct cs
    |intros c t Hc; rewrite Forall_forall in IH; apply IH; [done|by apply Hw|];
     pose proof (length_concat_print cs c Hc); lia
    |lia].
  simpl in Hw, Hn. rewrite length_app in Hn. simpl in Hn.
  erewrite body_eq by (cbn; by rewrite app_comm_cons). cbn [app].
  rewrite inner_not, IH by (done || lia). done.
Qed.

Lemma trim_print f : trim (to_filter_string f) = to_filter_string f.
Proof. rewrite print_body. by apply trim_id. Qed.

Lemma parse_ldap_print f : wf f = true → parse_ldap_filter (to_filter_string f) = Ok (normalise f).
Proof.
  intros Hw. unfold parse_ldap_filter. rewrite trim_print.
  rewrite <- (app_nil_r (to_filter_string f)) at 2. rewrite parse_print by (done || lia). done.
Qed.


(** * What the parser yields *)

Lemma unescape_bytes_nil raw : unescape_bytes raw = Ok [] → raw = [].
Proof.
  destruct raw as [|c r]; [done|]. cbn [unescape_bytes]. destruct (c =? BACKSLASH).
  - destruct r as [|h [|l r]]; [done..|]. destruct (to_digit16 h), (to_digit16 l); try done.
    by intros (bs & _ & ?)%res_bind_Ok.
  - intros (bs & _ & [= H])%res_bind_Ok. exfalso. revert H. unfold encode_char. by repeat case_match.
Qed.

Lemma unescape_wf raw v : unescape_filter_value raw = Ok v →
  value_wf v = true ∧ (nonempty raw = true → component_wf v = true).
Proof.
  intros (bs & Hb & Hd)%res_bind_Ok. destruct (decode bs) as [cs|] eqn:E; [|done].
  injection Hd as ->. destruct (decode_scalar bs v E) as [Hs Hn].
  assert (value_wf v = true) as Hv.
  { apply forallb_elem_of. by apply Forall_forall. }
  split; [done|]. intros Hr. unfold component_wf. rewrite Hv. destruct v; [|done].
  rewrite Hn in Hb by done. apply unescape_bytes_nil in Hb. by subst.
Qed.

Lemma unescape_opt_wf o u : unescape_opt o = Ok u → opt_wf u = true.
Proof.
  destruct o as [t|]; simpl; [|by intros [= <-]].
  destruct (nonempty t) eqn:E; [|by intros [= <-]].
  intros (v & Hv & [= <-])%res_bind_Ok. by apply (unescape_wf t v Hv).
Qed.

Lemma unescape_any_wf l vs :
  res_mapM unescape_filter_value (List.filter nonempty l) = Ok vs → forallb component_wf vs = true.
Proof.
  intros H%res_mapM_Ok. apply forallb_elem_of. intros v Hv.
  apply list_elem_of_lookup in Hv as [i Hi].
  destruct (Forall2_lookup_r _ _ _ _ _ H Hi) as (t & Ht & Hu).
  apply list_elem_of_lookup_2, elem_of_lfilter in Ht as [_ Ht]. by apply (unescape_wf t v Hu).
Qed.

Lemma take_attr_wf s : forallb is_attr_char (take_attr s).1 = true ∧ (length (take_attr s).2 ≤ length s)%nat.
Proof.
  induction s as [|c s [IH1 IH2]]; simpl; [done|]. destruct (is_attr_char c) eqn:E; simpl; [|lia].
  destruct (take_attr s) as [a r]. simpl in *. by rewrite E, IH1; split; [|lia].
Qed.

Lemma parse_attr_wf s a r :
  parse_attr s = Ok (a, r) → attr_wf a = true ∧ (length r ≤ length s)%nat.
Proof.
  unfold parse_attr. pose proof (take_attr_wf s) as [Ha Hr]. destruct (take_attr s) as [a' r'].
  destruct a'; [done|]. intros [= <- <-]. by split.
Qed.

Lemma take_value_length s : (length (take_value s).2 ≤ length s)%nat.
Proof.
  induction s as [|c s IH]; simpl; [done|]. destruct (c =? RPAREN); simpl; [lia|].
  destruct (take_value s). simpl in *. lia.
Qed.

Lemma scan_value_length s : (length (scan_value s).2 ≤ length s)%nat.
Proof.
  induction s as [s IH] using (induction_ltof1 _ (@length char)). unfold ltof in IH.
  destruct s as [|c r]; [done|]. cbn [scan_value]. destruct (c =? RPAREN); [done|].
  destruct (c =? BACKSLASH).
  - destruct r as [|q1 [|q2 r]]; [simpl; lia..|]. specialize (IH r). simpl in *.
    destruct (scan_value r) as [[? ?] ?]. simpl in *. lia.
  - specialize (IH r). simpl in *. destruct (scan_value r) as [[? ?] ?]. simpl in *. lia.
Qed.

Lemma parse_value_wf s v r : parse_value s = Ok (v, r) → value_wf v = true ∧ (length r ≤ length s)%nat.
Proof.
  unfold parse_value. pose proof (take_value_length s). destruct (take_value s) as [t r'].
  intros (u & Hu & [= <- <-])%res_bind_Ok. by apply unescape_wf in Hu as [? _].
Qed.

Lemma expect_char_length c s r : expect_char c s = Ok r → length s = S (length r).
Proof. unfold expect_char. destruct s; [done|]. simpl. case_match; [|done]. by intros [= <-]. Qed.

Lemma parse_equality_or_substring_wf a s f r : attr_wf a = true →
  parse_equality_or_substring a s = Ok (f, r) → wf f = true ∧ (length r ≤ length s)%nat.
Proof.
  intros Ha. unfold parse_equality_or_substring. pose proof (scan_value_length s).
  destruct (scan_value s) as [[v w] rest]. simpl in *. destruct w; simpl.
  - intros (i & Hi & (an & Han & (fi & Hfi & [= <- <-])%res_bind_Ok)%res_bind_Ok)%res_bind_Ok. simpl.
    by rewrite Ha, (unescape_opt_wf _ _ Hi), (unescape_any_wf _ _ Han), (unescape_opt_wf _ _ Hfi).
  - intros (u & Hu & [= <- <-])%res_bind_Ok. simpl. rewrite Ha. by apply unescape_wf in Hu as [-> _].
Qed.

Lemma parse_simple_wf s f r : parse_simple_filter s = Ok (f, r) → wf f = true ∧ (length r ≤ length s)%nat.
Proof.
  intros ([a s1] & Ha & H)%res_bind_Ok. apply parse_attr_wf in Ha as [Ha Hl].
  destruct s1 as [|c s1]; [done|]. simpl in H, Hl.
  destruct (c =? EQUALS).
  { destruct (check_substring_only_star s1) eqn:E.
    - injection H as <- <-. split; [done|]. destruct s1; simpl in *; lia.
    - apply parse_equality_or_substring_wf in H as [? ?]; [|done]. split; [done|lia]. }
  destruct (c =? TILDE); [done|].
  destruct (c =? GT); [|destruct (c =? LT); [|by destruct (c =? COLON)]].
  all: apply res_bind_Ok in H as (s2 & He & ([v r'] & Hv & [= <- <-])%res_bind_Ok);
    apply expect_char_length in He; apply parse_value_wf in Hv as [Hv ?]; simpl;
    rewrite Ha, Hv; split; [done|lia].
Qed.

Lemma parse_children_wf pf :
  (∀ s f r, pf s = Ok (f, r) → wf f = true ∧ (length r < length s)%nat) →
  ∀ n s fs r, parse_children pf n s = Ok (fs, r) → forallb wf fs = true ∧ (length r ≤ length s)%nat.
Proof.
  intros Hpf. induction n as [|n IH]; intros s fs r; [done|]. cbn [parse_children].
  case_match; [|by intros [= <- <-]].
  intros ([f s1] & Hf & ([fs' s2] & Hfs & [= <- <-])%res_bind_Ok)%res_bind_Ok.
  apply Hpf in Hf as [Hw ?]. apply IH in Hfs as [Hws ?]. simpl. rewrite Hw, Hws. split; [done|lia].
Qed.

Lemma parse_filter_wf n : ∀ s f r,
  parse_filter n s = Ok (f, r) → wf f = true ∧ (length r < length s)%nat.
Proof.
  induction n as [|n IH]; intros s f r; [done|]. cbn [parse_filter].
  intros (s1 & H1 & ([f' s2] & H2 & (s3 & H3 & [= <- <-])%res_bind_Ok)%res_bind_Ok)%res_bind_Ok.
  apply expect_char_length in H1, H3.
  assert (wf f' = true ∧ (length s2 ≤ length s1)%nat) as [? ?]; [|split; [done|lia]].
  revert H2. unfold parse_filter_inner. destruct s1 as [|c s1]; simpl peek; cbv iota; [apply parse_simple_wf|].
  destruct (c =? AMP); [|destruct (c =? PIPE)].
  1-2: intros ([fs r'] & Hc & H)%res_bind_Ok; apply (parse_children_wf _ IH) in Hc as [Hw ?]; simpl in *;
    destruct fs; [done|]; injection H as <- <-; by split; [|lia].
  destruct (c =? BANG); [|apply parse_simple_wf].
  intros ([g r'] & Hg & [= <- <-])%res_bind_Ok. apply IH in Hg as [? ?]. simpl in *. by split; [|lia].
Qed.

(** * Fuel *)

(** The result is not the one of an exhausted fuel. *)
Definition in_fuel {A} (r : FilterResult A) : Prop :=
  match r with Err OutOfFuel => False | _ => True end.

Lemma bind_fuel {A B} (r : FilterResult A) (k : A → FilterResult B) :
  in_fuel r → (∀ a, r = Ok a → in_fuel (k a)) → in_fuel (res_bind r k).
Proof. destruct r as [a|[]]; simpl; auto. Qed.

Create HintDb fuel.
Local Hint Resolve bind_fuel : fuel.
Local Hint Extern 1 (in_fuel (Ok _)) => exact I : fuel.
Local Hint Extern 1 (in_fuel (Err _)) => exact I : fuel.

Lemma unescape_fuel raw : in_fuel (unescape_filter_value raw).
Proof.
  apply bind_fuel; [|intros bs _; by destruct (decode bs)].
  induction raw as [raw IH] using (induction_ltof1 _ (@length char)). unfold ltof in IH.
  destruct raw as [|c r]; [done|]. cbn [unescape_bytes]. destruct (c =? BACKSLASH).
  - destruct r as [|h [|l r]]; [done..|]. destruct (to_digit16 h), (to_digit16 l); try done.
    apply bind_fuel; [|auto with fuel]. apply IH. simpl. lia.
  - apply bind_fuel; [|auto with fuel]. apply IH. simpl. lia.
Qed.
Local Hint Resolve unescape_fuel : fuel.

Lemma unescape_opt_fuel o : in_fuel (unescape_opt o).
Proof. destruct o as [t|]; simpl; [|done]. destruct (nonempty t); auto with fuel. Qed.

Lemma unescape_all_fuel l : in_fuel (res_mapM unescape_filter_value l).
Proof. induction l; simpl; auto with fuel. Qed.
Local Hint Resolve unescape_opt_fuel unescape_all_fuel : fuel.

Lemma parse_value_fuel t : in_fuel (parse_value t).
Proof. unfold parse_value. destruct (take_value t). auto with fuel. Qed.

Lemma expect_char_fuel c t : in_fuel (expect_char c t).
Proof. unfold expect_char. destruct (peek t); [|done]. by case_match. Qed.

Lemma parse_equality_or_substring_fuel a t : in_fuel (parse_equality_or_substring a t).
Proof.
  unfold parse_equality_or_substring. destruct (scan_value t) as [[v w] r].
  destruct w; simpl; auto 8 with fuel.
Qed.
Local Hint Resolve parse_value_fuel expect_char_fuel parse_equality_or_substring_fuel : fuel.

Lemma parse_simple_fuel s : in_fuel (parse_simple_filter s).
Proof.
  apply bind_fuel.
  { unfold parse_attr. destruct (take_attr s) as [[] ?]; done. }
  intros [a s1] _. destruct (peek s1) as [c|]; [|done].
  cbv zeta. repeat case_match; auto with fuel.
  all: apply bind_fuel; [auto with fuel|]; intros; apply bind_fuel; [auto with fuel|].
  all: by intros [? ?] _.
Qed.

Lemma parse_children_fuel pf :
  (∀ s f r, pf s = Ok (f, r) → (length r < length s)%nat) →
  ∀ n s, (length s < n)%nat → (∀ t, (length t ≤ length s)%nat → in_fuel (pf t)) →
  in_fuel (parse_children pf n s).
Proof.
  intros Hlen. induction n as [|n IH]; intros s Hs Hpf; [lia|]. cbn [parse_children].
  case_match; [|done]. apply bind_fuel; [by apply Hpf|]. intros [f s1] Hf%Hlen.
  apply bind_fuel; [|by intros [? ?] _]. apply IH; [lia|]. intros t Ht. apply Hpf. lia.
Qed.

Lemma parse_filter_fuel n : ∀ s, (length s < n)%nat → in_fuel (parse_filter n s).
Proof.
  induction n as [|n IH]; intros s Hs; [lia|]. cbn [parse_filter].
  apply bind_fuel; [auto with fuel|]. intros s1 H1%expect_char_length.
  apply bind_fuel; [|intros [? ?] _; auto with fuel].
  unfold parse_filter_inner. destruct s1 as [|c s1]; simpl peek; cbv iota; [apply parse_simple_fuel|].
  simpl in H1.
  assert (in_fuel (parse_children (parse_filter n) (S n) s1)) as Hc.
  { apply parse_children_fuel; [|simpl in *; lia|intros t Ht; apply IH; lia].
    intros t f r Hf. by apply parse_filter_wf in Hf as [_ ?]. }
  destruct (c =? AMP); [apply bind_fuel; [done|]; by intros [[] ?] _|].
  destruct (c =? PIPE); [apply bind_fuel; [done|]; by intros [[] ?] _|].
  destruct (c =? BANG); [|apply parse_simple_fuel].
  apply bind_fuel; [|by intros [? ?] _]. apply IH. simpl. lia.
Qed.

(** * Theorems *)

(** The recursive-descent parser always terminates with a verdict: with the
    fuel [parse_ldap_filter] gives it, no input runs out of it. *)
Theorem parse_never_out_of_fuel input : parse_ldap_filter input ≠ Err OutOfFuel.
Proof.
  assert (in_fuel (parse_ldap_filter input)) as H; [|by intros E; rewrite E in H].
  unfold parse_ldap_filter. cbv zeta. apply bind_fuel; [apply parse_filter_fuel; lia|].
  intros [f r] _. by destruct (trim r).
Qed.

Lemma parse_ldap_filter_wf input f : parse_ldap_filter input = Ok f → wf f = true.
Proof.
  unfold parse_ldap_filter. cbv zeta. intros ([g r] & Hg & H)%res_bind_Ok.
  destruct (trim r); [|done]. injection H as <-. by apply parse_filter_wf in Hg as [? _].
Qed.

Lemma normalise_print f : to_filter_string (normalise f) = to_filter_string f.
Proof.
  induction f as [cs IH|cs IH|c IH|a|a v|a sub|a v|a v] using filter_ind; try done; simpl.
  1-2: rewrite map_map; do 4 f_equal; apply map_ext_in; intros c Hc%list_elem_of_In;
    rewrite Forall_forall in IH; by apply IH.
  - by rewrite IH.
  - destruct (sub_empty sub) eqn:E; [|done]. destruct sub as [[|] [|] [|]]; done.
Qed.

(** Printing then parsing a well-formed filter gives the filter back, where a
    substring filter without components counts as an equality with the empty value. *)
Theorem parse_print_roundtrip f : wf f = true → parse_ldap_filter (to_filter_string f) = Ok (normalise f).
Proof. apply parse_ldap_print. Qed.

(** A substring filter without components, which a value of stars alone gives. *)
Fixpoint has_bare (f : LdapFilter) : bool :=
  match f with
  | And cs | Or cs => existsb has_bare cs
  | Not c => has_bare c
  | Substring _ sub => sub_empty sub
  | _ => false
  end.

(** [g] has the structure, the attributes and the values of [f], where a bare substring filter of [f] may be an equality with
    the empty value. *)
Inductive reads_as : LdapFilter → LdapFilter → Prop :=
| reads_and cs ds : Forall2 reads_as cs ds → reads_as (And cs) (And ds)
| reads_or cs ds : Forall2 reads_as cs ds → reads_as (Or cs) (Or ds)
| reads_not c d : reads_as c d → reads_as (Not c) (Not d)
| reads_present a : reads_as (Present a) (Present a)
| reads_equality a v : reads_as (Equality a v) (Equality a v)
| reads_greater a v : reads_as (GreaterOrEqual a v) (GreaterOrEqual a v)
| reads_less a v : reads_as (LessOrEqual a v) (LessOrEqual a v)
| reads_substring a sub : sub_empty sub = false → reads_as (Substring a sub) (Substring a sub)
| reads_bare a : reads_as (Substring a {| initial := None; any := []; final_ := None |}) (Equality a []).

Lemma normalise_reads f : reads_as f (normalise f).
Proof.
  induction f as [cs IH|cs IH|c IH|a|a v|a sub|a v|a v] using filter_ind; simpl; try (by constructor).
  1-2: constructor; induction IH; simpl; by constructor.
  destruct (sub_empty sub) eqn:E; [|by constructor]. destruct sub as [[|] [|] [|]]; try done. constructor.
Qed.

Lemma normalise_id f : has_bare f = false → normalise f = f.
Proof.
  induction f as [cs IH|cs IH|c IH|a|a v|a sub|a v|a v] using filter_ind; simpl; try done.
  1-2: intros Hb; f_equal; revert Hb; induction IH as [|c cs Hc _ IHcs]; simpl; [done|]; intros [H1 H2]%orb_false_iff;
    by rewrite (Hc H1), (IHcs H2).
  - intros Hb. by rewrite IH.
  - by intros ->.
Qed.

(** C35: Sanitisation keeps the filter.  On every text, it fails exactly as parsing does; otherwise its output parses again, to a
    filter with the same structure, attributes and values, so that no value can add structure; that filter is the parsed one
    itself unless it has a substring filter without components (a value of stars alone), each of which then reads as the
    equality of the attribute with the empty value; and sanitising the output changes nothing. *)
Theorem sanitize_keeps_filter input :
  match parse_ldap_filter input with
  | Err e => sanitize_admin_search_filter input = Err e
  | Ok f => ∃ out g, sanitize_admin_search_filter input = Ok out ∧ parse_ldap_filter out = Ok g ∧
      reads_as f g ∧ (has_bare f = false → g = f) ∧ sanitize_admin_search_filter out = Ok out
  end.
Proof.
  destruct (parse_ldap_filter input) as [f|e] eqn:Ef; unfold sanitize_admin_search_filter at 1; rewrite Ef; [|done].
  pose proof (parse_ldap_filter_wf _ _ Ef) as Hw. exists (to_filter_string f), (normalise f). simpl.
  split_and!; [done|by apply parse_ldap_print|apply normalise_reads|apply normalise_id|].
  unfold sanitize_admin_search_filter. rewrite parse_ldap_print by done. simpl. by rewrite normalise_print.
Qed.

Lemma parse_star_only a : attr_wf a = true →
  parse_ldap_filter ([LPAREN] ++ a ++ [EQUALS; STAR; STAR; RPAREN])
  = Ok (Substring a {| initial := None; any := []; final_ := None |}).
Proof.
  intros Ha. unfold parse_ldap_filter.
  assert ([40] ++ a ++ [61; 42; 42; 41] = 40 :: (a ++ [61; 42; 42]) ++ [41]) as Hs.
  { simpl. by rewrite <- app_assoc. }
  rewrite Hs, trim_id by done. cbv zeta. rewrite <- app_assoc.
  cbn [app parse_filter length]. rewrite expect_hit.
  assert (∃ c r, a = c :: r ∧ is_attr_char c = true) as (c & r & Hr & Hc).
  { unfold attr_wf in Ha. destruct a as [|c r]; [done|]. simpl in Ha.
    apply andb_true_iff in Ha as [Hc _]. by exists c, r. }
  cbn [res_bind]. rewrite (inner_simple _ _ _ c (r ++ [61; 42; 42; 41])) by (rewrite ?Hr; done).
  unfold parse_simple_filter. by rewrite parse_attr_print.
Qed.

(** A value made of two stars is accepted as a substring filter without
    components, which any value matches, but its sanitised form is the equality of
    the attribute with the empty value. *)
Theorem sanitize_changes_star_only a :
  attr_wf a = true →
  let input := [LPAREN] ++ a ++ [EQUALS; STAR; STAR; RPAREN] in
  parse_ldap_filter input = Ok (Substring a {| initial := None; any := []; final_ := None |}) ∧
  ∃ out, sanitize_admin_search_filter input = Ok out ∧ parse_ldap_filter out = Ok (Equality a []).
Proof.
  intros Ha input. split; [by apply parse_star_only|]. eexists. split.
  - apply res_bind_Ok. eexists. split; [by apply parse_star_only|reflexivity].
  - rewrite parse_ldap_print; [done|]. simpl. by rewrite Ha.
Qed.

(** * Witnesses *)

Definition ex_filter : LdapFilter :=
  And [Equality [99; 110] [42; 233]; Not (Present [117; 105; 100]);
       Substring [111; 117] {| initial := Some [97]; any := [[98]; [41]]; final_ := None |}].

Lemma parse_print_roundtrip_witness :
  parse_ldap_filter (to_filter_string ex_filter) = Ok ex_filter.
Proof. apply (parse_print_roundtrip ex_filter). vm_compute. reflexivity. Defined.

Lemma sanitize_changes_star_only_witness :
  ∃ out, sanitize_admin_search_filter [40; 99; 110; 61; 42; 42; 41] = Ok out
         ∧ parse_ldap_filter out = Ok (Equality [99; 110] []).
Proof. apply (sanitize_changes_star_only [99; 110]). vm_compute. reflexivity. Defined.

End LdapFilter.
