(* ===== verification/RateLimit.v ===== *)
(** Admission control: the fixed-window rate limiter
    (src/qid-http/src/ratelimit.rs), the password and TOTP attempt limiters built
    on it (src/qid-session/src/password_limit.rs, totp_limit.rs) and the failure
    budget (src/qid-core/src/throttle.rs).

    The clock is an argument [now].  A limiter's mutex is an [option]: [None] is a
    poisoned lock.  A [HashMap] is a [gmap]; the order its iteration gives is the
    one of [map_to_list], on which no statement depends. *)

From S2P Require Import Prelude.

Module RateLimit.

(** * Data *)

Inductive RateLimitKey : Type :=
| User (s : string) | Ip (s : string) | Device (s : string) | Asn (s : string) | Tenant (s : string).

#[global] Instance RateLimitKey_eq_dec : EqDecision RateLimitKey.
Proof. solve_decision. Defined.

#[global] Instance RateLimitKey_countable : Countable RateLimitKey.
Proof.
  refine (inj_countable'
    (fun k => match k with User s => (0, s) | Ip s => (1, s) | Device s => (2, s)
                         | Asn s => (3, s) | Tenant s => (4, s) end)
    (fun '(n, s) => match n with 0 => User s | 1 => Ip s | 2 => Device s | 3 => Asn s | _ => Tenant s end) _).
  by intros [].
Defined.

Record RateLimitConfig : Type := {
  max_per_user : N; max_per_ip : N; max_per_asn : N; max_per_device : N; max_per_tenant : N;
  cfg_window_seconds : N
}.

Definition default_config : RateLimitConfig :=
  {| max_per_user := 5; max_per_ip := 20; max_per_asn := 50; max_per_device := 10;
     max_per_tenant := 100; cfg_window_seconds := 300 |}.

Record AxisLimit : Type := { max : N; limit_window : N }.

Record WindowEntry : Type := { count : N; window_start : N; window_seconds : N }.

Record RateLimitState : Type := { entries : gmap RateLimitKey WindowEntry; next_expiry : N }.

Definition default_state : RateLimitState := {| entries := ∅; next_expiry := u64_max |}.

(** [Admits] is the constructor [Admitted] of the source. *)
Inductive AxisState : Type := Admits (count : N) | Denied.

Record RateLimiter : Type := {
  inner : option RateLimitState; config : RateLimitConfig; max_entries : nat
}.

Definition MAX_RATE_LIMIT_ENTRIES : nat := N.to_nat 100000.

Definition with_capacity (c : RateLimitConfig) (n : nat) : RateLimiter :=
  {| inner := Some default_state; config := c; max_entries := n |}.

Definition new (c : RateLimitConfig) : RateLimiter := with_capacity c MAX_RATE_LIMIT_ENTRIES.

(** * Operations on the state *)

Definition expiry (e : WindowEntry) : N := saturating_add64 (window_start e) (window_seconds e).

Definition prune_expired (st : RateLimitState) (now : N) : RateLimitState :=
  let kept := filter (fun '(_, e) => now < expiry e) (entries st) in
  {| entries := kept;
     next_expiry := foldr N.min u64_max (map (fun '(_, e) => expiry e) (map_to_list kept)) |}.

Definition axis_state (m : gmap RateLimitKey WindowEntry) (key : RateLimitKey) (now : N)
    (limit : AxisLimit) : AxisState :=
  let c := match m !! key with
           | Some e => if now <? saturating_add64 (window_start e) (limit_window limit) then count e else 0
           | None => 0
           end in
  if max limit <=? c then Denied else Admits (saturating_add32 c 1).

Definition contains_key (m : gmap RateLimitKey WindowEntry) (key : RateLimitKey) : bool :=
  match m !! key with Some _ => true | None => false end.

Definition has_room (cap : nat) (st : RateLimitState) (key : RateLimitKey) : bool :=
  contains_key (entries st) key || (size (entries st) <? cap)%nat.

Definition reserve_key (cap : nat) (st : RateLimitState) (key : RateLimitKey) (now : N)
    : bool * RateLimitState :=
  if has_room cap st key then (true, st)
  else
    let st' := if next_expiry st <=? now then prune_expired st now else st in
    (has_room cap st' key, st').

Definition needed (st : RateLimitState) (plan : list (RateLimitKey * AxisLimit * N)) : nat :=
  length (List.filter (fun '(key, _, _) => negb (contains_key (entries st) key)) plan).

Definition reserve_plan (cap : nat) (st : RateLimitState) (plan : list (RateLimitKey * AxisLimit * N))
    (now : N) : bool * RateLimitState :=
  let st' :=
    if (cap <? size (entries st) + needed st plan)%nat && (next_expiry st <=? now)
    then prune_expired st now else st in
  (negb (cap <? size (entries st') + needed st' plan)%nat, st').

Definition commit (st : RateLimitState) (key : RateLimitKey) (now : N) (limit : AxisLimit) (c : N)
    : RateLimitState :=
  let e := default {| count := 0; window_start := now; window_seconds := limit_window limit |}
             (entries st !! key) in
  let start := if saturating_add64 (window_start e) (limit_window limit) <=? now
               then now else window_start e in
  {| entries := <[key := {| count := c; window_start := start;
                            window_seconds := limit_window limit |}]> (entries st);
     next_expiry := N.min (next_expiry st) (saturating_add64 now (limit_window limit)) |}.

Definition check_key (cap : nat) (st : RateLimitState) (key : RateLimitKey) (now max_ window : N)
    : bool * RateLimitState :=
  let limit := {| max := max_; limit_window := window |} in
  match axis_state (entries st) key now limit with
  | Denied => (false, st)
  | Admits c =>
      match reserve_key cap st key now with
      | (false, st') => (false, st')
      | (true, st') => (true, commit st' key now limit c)
      end
  end.

(** * Operations of the limiter *)

Definition with_inner (l : RateLimiter) (st : RateLimitState) : RateLimiter :=
  {| inner := Some st; config := config l; max_entries := max_entries l |}.

(** The axes of [check], in the order the code tries them. *)
Definition check_axes (c : RateLimitConfig) (user_id ip device_id asn tenant : option string)
    : list (RateLimitKey * N) :=
  omap (fun x : option (RateLimitKey * N) => x)
    [ (fun v => (User v, max_per_user c)) <$> user_id;
      (fun v => (Ip v, max_per_ip c)) <$> ip;
      (fun v => (Device v, max_per_device c)) <$> device_id;
      (fun v => (Asn v, max_per_asn c)) <$> asn;
      (fun v => (Tenant v, max_per_tenant c)) <$> tenant ].

(** One axis after the other: the axes before a refusal keep their count. *)
Fixpoint check_keys (cap : nat) (window : N) (axes : list (RateLimitKey * N)) (now : N)
    (st : RateLimitState) : bool * RateLimitState :=
  match axes with
  | [] => (true, st)
  | (key, m) :: rest =>
      match check_key cap st key now m window with
      | (false, st') => (false, st')
      | (true, st') => check_keys cap window rest now st'
      end
  end.

Definition check (l : RateLimiter) (now : N) (user_id ip device_id asn tenant : option string)
    : bool * RateLimiter :=
  match inner l with
  | None => (false, l)
  | Some st =>
      let '(b, st') := check_keys (max_entries l) (cfg_window_seconds (config l))
        (check_axes (config l) user_id ip device_id asn tenant) now st in
      (b, with_inner l st')
  end.

(** The loop that builds the plan; [None] is a refusal. *)
Fixpoint build_plan (m : gmap RateLimitKey WindowEntry) (now : N) (axes : list (RateLimitKey * AxisLimit))
    : option (list (RateLimitKey * AxisLimit * N)) :=
  match axes with
  | [] => Some []
  | (key, limit) :: rest =>
      match axis_state m key now limit with
      | Denied => None
      | Admits c => plan ← build_plan m now rest; Some ((key, limit, c) :: plan)
      end
  end.

Definition user_tenant_axes (user : option string) (user_limit : AxisLimit) (tenant : option string)
    (tenant_limit : AxisLimit) : list (RateLimitKey * AxisLimit) :=
  omap (fun x : option (RateLimitKey * AxisLimit) => x)
    [ (fun v => (User v, user_limit)) <$> user; (fun v => (Tenant v, tenant_limit)) <$> tenant ].

Definition commit_plan (st : RateLimitState) (now : N) (plan : list (RateLimitKey * AxisLimit * N))
    : RateLimitState :=
  foldl (fun st '(key, limit, c) => commit st key now limit c) st plan.

Definition check_user_tenant (l : RateLimiter) (now : N) (user : option string) (user_limit : AxisLimit)
    (tenant : option string) (tenant_limit : AxisLimit) : bool * RateLimiter :=
  match inner l with
  | None => (false, l)
  | Some st =>
      match build_plan (entries st) now (user_tenant_axes user user_limit tenant tenant_limit) with
      | None => (false, l)
      | Some plan =>
          match reserve_plan (max_entries l) st plan now with
          | (false, st') => (false, with_inner l st')
          | (true, st') => (true, with_inner l (commit_plan st' now plan))
          end
      end
  end.

Definition with_entries (st : RateLimitState) (m : gmap RateLimitKey WindowEntry) : RateLimitState :=
  {| entries := m; next_expiry := next_expiry st |}.

Definition release_axis (l : RateLimiter) (now : N) (key : RateLimitKey) : RateLimiter :=
  match inner l with
  | None => l
  | Some st =>
      match entries st !! key with
      | None => l
      | Some e =>
          if expiry e <=? now then l
          else if count e <=? 1 then with_inner l (with_entries st (delete key (entries st)))
          else with_inner l (with_entries st
                 (<[key := {| count := count e - 1; window_start := window_start e;
                              window_seconds := window_seconds e |}]> (entries st)))
      end
  end.

Definition release_user (l : RateLimiter) (now : N) (user_id : string) : RateLimiter :=
  release_axis l now (User user_id).

Definition release_tenant (l : RateLimiter) (now : N) (tenant : string) : RateLimiter :=
  release_axis l now (Tenant tenant).

Definition reset_user (l : RateLimiter) (user_id : string) : RateLimiter :=
  match inner l with
  | None => l
  | Some st => with_inner l (with_entries st (delete (User user_id) (entries st)))
  end.

Definition clear_matching (l : RateLimiter) (pred : RateLimitKey → bool) : RateLimiter :=
  match inner l with
  | None => l
  | Some st => with_inner l (with_entries st (filter (fun '(k, _) => pred k = false) (entries st)))
  end.

(** * The attempt limiters

    [PasswordPolicy] and [TotpConfig] hold the configuration fields the limiters read. *)

Record PasswordPolicy : Type := {
  max_failed_attempts : N; max_failed_attempts_per_realm : N; lockout_duration_seconds : N
}.

Record TotpConfig : Type := {
  enabled : bool; totp_max_failed_attempts : N; failed_attempt_window_seconds : N
}.

(** [PasswordAttemptLimiter::user_key] and [TotpAttemptLimiter::account_key]:
    [format!("{}:{realm}:{email}", realm.len())]. *)
Definition user_key (realm email : string) : string :=
  pretty (N.of_nat (String.length realm)) +:+ ":" +:+ realm +:+ ":" +:+ email.

Definition password_admit (l : RateLimiter) (now : N) (realm email : string) (policy : PasswordPolicy)
    : bool * RateLimiter :=
  check_user_tenant l now (Some (user_key realm email))
    {| max := max_failed_attempts policy; limit_window := lockout_duration_seconds policy |}
    (Some realm)
    {| max := max_failed_attempts_per_realm policy; limit_window := lockout_duration_seconds policy |}.

(** The two releases read the clock one after the other. *)
Definition password_succeeded (l : RateLimiter) (now1 now2 : N) (realm email : string) : RateLimiter :=
  release_tenant (release_user l now1 (user_key realm email)) now2 realm.

Definition account_key (realm user_id : string) : string :=
  pretty (N.of_nat (String.length realm)) +:+ ":" +:+ realm +:+ ":" +:+ user_id.

Definition totp_admit (l : RateLimiter) (now : N) (realm user_id : string) (policy : TotpConfig)
    : bool * RateLimiter :=
  let window := failed_attempt_window_seconds policy in
  check_user_tenant l now (Some (account_key realm user_id))
    {| max := totp_max_failed_attempts policy; limit_window := window |}
    None {| max := u32_max; limit_window := window |}.

Definition totp_succeeded (l : RateLimiter) (now : N) (realm user_id : string) : RateLimiter :=
  release_user l now (account_key realm user_id).

(** * Sequences of calls *)

Inductive op : Type :=
| OpCheck (user_id ip device_id asn tenant : option string)
| OpUserTenant (user : option string) (user_limit : AxisLimit) (tenant : option string)
    (tenant_limit : AxisLimit)
| OpRelease (key : RateLimitKey)
| OpReset (user_id : string)
| OpClear (pred : RateLimitKey → bool).

Definition step (l : RateLimiter) (now : N) (o : op) : bool * RateLimiter :=
  match o with
  | OpCheck u i d a t => check l now u i d a t
  | OpUserTenant u ul t tl => check_user_tenant l now u ul t tl
  | OpRelease key => (false, release_axis l now key)
  | OpReset u => (false, reset_user l u)
  | OpClear pred => (false, clear_matching l pred)
  end.






Fixpoint run (l : RateLimiter) (tr : list (N * op)) : RateLimiter :=
  match tr with
  | [] => l
  | (now, o) :: tr' => run (step l now o).2 tr'
  end.

(** * Lemmas on the state *)

Lemma prune_lookup st now k e :
  entries (prune_expired st now) !! k = Some e ↔ entries st !! k = Some e ∧ now < expiry e.
Proof. simpl. rewrite map_lookup_filter_Some. done. Qed.

(** [st'] differs from [st] by expired entries that were dropped. *)
Definition only_expired_dropped (now : N) (st st' : RateLimitState) : Prop :=
  (∀ k e, entries st' !! k = Some e → entries st !! k = Some e) ∧
  (∀ k e, entries st !! k = Some e → now < expiry e → entries st' !! k = Some e).

Lemma only_expired_refl now st : only_expired_dropped now st st.
Proof. done. Qed.

Lemma prune_only_expired now st : only_expired_dropped now st (prune_expired st now).
Proof. split; intros k e; rewrite prune_lookup; naive_solver. Qed.
Local Hint Resolve only_expired_refl prune_only_expired : qid.


Lemma reserve_plan_expired cap st plan now b st' :
  reserve_plan cap st plan now = (b, st') → only_expired_dropped now st st'.
Proof. unfold reserve_plan. intros [= _ <-]. case_match; auto with qid. Qed.

Lemma commit_lookup_ne st key now limit c k :
  k ≠ key → entries (commit st key now limit c) !! k = entries st !! k.
Proof. intros Hne. unfold commit. simpl. by rewrite lookup_insert_ne. Qed.

Lemma commit_lookup st key now limit c :
  ∃ start, entries (commit st key now limit c) !! key
    = Some {| count := c; window_start := start; window_seconds := limit_window limit |} ∧
  (start = now ∨ ∃ e, entries st !! key = Some e ∧ start = window_start e) ∧
  (∀ e, entries st !! key = Some e → now < saturating_add64 (window_start e) (limit_window limit) →
     start = window_start e) ∧
  ((∀ e, entries st !! key = Some e → saturating_add64 (window_start e) (limit_window limit) ≤ now) → start = now).
Proof.
  unfold commit. simpl. rewrite lookup_insert_eq. eexists. split; [reflexivity|].
  destruct (entries st !! key) as [e|]; simpl.
  - destruct (N.leb_spec (saturating_add64 (window_start e) (limit_window limit)) now) as [H|H].
    + split_and!; [by left| |done]. intros e' [= <-] ?. lia.
    + split_and!; [right; by exists e|by intros e' [= <-] _|]. intros Hx. specialize (Hx e eq_refl). lia.
  - split_and!; [|done|]; [left; by case_match|]. by case_match.
Qed.

(** What an axis has counted in the window the limit states. *)
Definition counted (st : RateLimitState) (key : RateLimitKey) (now : N) (limit : AxisLimit) : N :=
  match entries st !! key with
  | Some e => if now <? saturating_add64 (window_start e) (limit_window limit) then count e else 0
  | None => 0
  end.

Lemma axis_state_admits st key now limit c :
  axis_state (entries st) key now limit = Admits c ↔
  counted st key now limit < max limit ∧ c = saturating_add32 (counted st key now limit) 1.
Proof.
  unfold axis_state. fold (counted st key now limit).
  destruct (N.leb_spec (max limit) (counted st key now limit)) as [H|H]; split.
  - done.
  - intros [? _]. lia.
  - intros [= <-]. done.
  - by intros [_ ->].
Qed.

Lemma build_plan_Some st now axes : ∀ plan,
  build_plan (entries st) now axes = Some plan →
  (∀ k lim, (k, lim) ∈ axes → counted st k now lim < max lim) ∧
  plan = map (fun '(k, lim) => (k, lim, saturating_add32 (counted st k now lim) 1)) axes.
Proof.
  induction axes as [|[key limit] axes IH]; intros plan; simpl.
  - intros [= <-]. split; [|done]. by intros k lim ?%not_elem_of_nil.
  - destruct (axis_state _ _ _ _) as [c|] eqn:E; [|done]. apply axis_state_admits in E as [Hlt ->].
    destruct (build_plan _ _ axes) as [p|]; simpl; [|done]. intros [= <-].
    destruct (IH p eq_refl) as [Hall ->]. split; [|done].
    intros k lim [[= -> ->]|Hin]%elem_of_cons; [done|by apply Hall].
Qed.

(** ** Plans *)

Lemma commit_plan_lookup_ne plan : ∀ st now k,
  k ∉ map (fun x => fst (fst x)) plan → entries (commit_plan st now plan) !! k = entries st !! k.
Proof.
  induction plan as [|[[key lim] n] plan IH]; intros st now k Hk; simpl in *; [done|].
  rewrite IH by set_solver. apply commit_lookup_ne. set_solver.
Qed.

Lemma user_tenant_axes_NoDup u ul t tl : NoDup (map fst (user_tenant_axes u ul t tl)).
Proof.
  unfold user_tenant_axes. destruct u, t; simpl; repeat constructor; set_solver.
Qed.

Lemma prune_size st now : (size (entries (prune_expired st now)) ≤ size (entries st))%nat.
Proof. simpl. apply map_size_filter. Qed.



(** * Admissions of a key *)

Section Window.
Context (k : RateLimitKey) (m w t0 : N).
Hypothesis m_u32 : m ≤ u32_max.

Local Abbreviation lim := {| max := m; limit_window := w |} (only parsing).


















End Window.



(** * All or nothing *)

Lemma commit_plan_lookup plan : ∀ st now k lim c,
  NoDup (map (fun x => fst (fst x)) plan) → (k, lim, c) ∈ plan →
  ∃ e, entries (commit_plan st now plan) !! k = Some e ∧ count e = c ∧ window_seconds e = limit_window lim.
Proof.
  induction plan as [|[[key lim'] n] plan IH]; intros st now k lim c Hnd Hin; simpl in *.
  - by apply not_elem_of_nil in Hin.
  - apply NoDup_cons in Hnd as [Hn Hnd]. apply elem_of_cons in Hin as [[= -> -> ->]|Hin].
    + destruct (commit_lookup st key now lim' n) as (start & Hk & _).
      eexists. split; [rewrite commit_plan_lookup_ne by done; exact Hk|done].
    + by eapply IH.
Qed.

(** [check_user_tenant] decides its axes together: a refusal changes no count
    and drops expired entries at most; an admission happens only when each axis
    still has room, counts exactly one on each of them, and leaves every other
    live counter as it was. *)
Theorem user_tenant_all_or_nothing l now u ul t tl b l' st :
  inner l = Some st → check_user_tenant l now u ul t tl = (b, l') →
  ∃ st', inner l' = Some st' ∧
  if b then
    (∀ k lim, (k, lim) ∈ user_tenant_axes u ul t tl →
       counted st k now lim < max lim ∧
       ∃ e, entries st' !! k = Some e ∧ count e = saturating_add32 (counted st k now lim) 1
            ∧ window_seconds e = limit_window lim) ∧
    (∀ k, k ∉ map fst (user_tenant_axes u ul t tl) →
       (∀ e, entries st' !! k = Some e → entries st !! k = Some e) ∧
       (∀ e, entries st !! k = Some e → now < expiry e → entries st' !! k = Some e))
  else only_expired_dropped now st st'.
Proof.
  intros Hl. unfold check_user_tenant. rewrite Hl.
  destruct (build_plan _ _ _) as [plan|] eqn:Hp; [|intros [= <- <-]; by eauto using only_expired_refl].
  apply build_plan_Some in Hp as [Hlt ->].
  destruct (reserve_plan _ _ _ _) as [r st1] eqn:Hr. apply reserve_plan_expired in Hr.
  destruct r; intros [= <- <-]; [|by eauto]. eexists. split; [reflexivity|]. simpl.
  assert (∀ axes : list (RateLimitKey * AxisLimit), map (fun x => fst (fst x))
    (map (fun '(k, lim) => (k, lim, saturating_add32 (counted st k now lim) 1)) axes) = map fst axes) as Hkeys.
  { intros axes. rewrite map_map. apply map_ext. by intros [? ?]. }
  split.
  - intros k lim Hin. split; [by apply Hlt|]. apply commit_plan_lookup.
    + rewrite Hkeys. apply user_tenant_axes_NoDup.
    + apply elem_of_map. by exists (k, lim).
  - intros k Hk. rewrite commit_plan_lookup_ne by (by rewrite Hkeys).
    destruct Hr as [Hsub Hkeep]. split; [apply Hsub|apply Hkeep].
Qed.


(** * Capacity *)

Definition within (l : RateLimiter) : Prop :=
  ∀ st, inner l = Some st → (size (entries st) ≤ max_entries l)%nat.

Lemma contains_key_spec m key : contains_key m key = true ↔ is_Some (m !! key).
Proof. unfold contains_key, is_Some. destruct (m !! key); naive_solver. Qed.

Lemma commit_size st key now lim c :
  size (entries (commit st key now lim c))
  = (size (entries st) + if contains_key (entries st) key then 0 else 1)%nat.
Proof.
  unfold commit, contains_key. simpl. destruct (entries st !! key) eqn:E; simpl.
  - rewrite map_size_insert_Some by (by rewrite E). lia.
  - rewrite map_size_insert_None by done. lia.
Qed.

Lemma commit_contains st key now lim c k :
  contains_key (entries st) k = true → contains_key (entries (commit st key now lim c)) k = true.
Proof.
  rewrite !contains_key_spec. unfold commit. simpl. destruct (decide (k = key)) as [->|].
  - by rewrite lookup_insert_eq.
  - by rewrite lookup_insert_ne.
Qed.

Lemma needed_mono st st' plan :
  (∀ k, contains_key (entries st) k = true → contains_key (entries st') k = true) →
  (needed st' plan ≤ needed st plan)%nat.
Proof.
  intros H. unfold needed. induction plan as [|[[k lim] n] plan IH]; simpl; [lia|].
  specialize (H k). destruct (contains_key (entries st) k), (contains_key (entries st') k); simpl;
    try lia.
Qed.

Lemma commit_plan_size plan now : ∀ st,
  (size (entries (commit_plan st now plan)) ≤ size (entries st) + needed st plan)%nat.
Proof.
  induction plan as [|[[k lim] n] plan IH]; intros st; cbn [commit_plan foldl]; [simpl; lia|].
  etransitivity; [apply IH|]. rewrite commit_size.
  pose proof (needed_mono st (commit st k now lim n) plan (commit_contains st k now lim n)).
  unfold needed at 2. simpl. destruct (contains_key (entries st) k); simpl; unfold needed in *; lia.
Qed.

Lemma check_key_size cap st key now m w b st' :
  (size (entries st) ≤ cap)%nat → check_key cap st key now m w = (b, st') → (size (entries st') ≤ cap)%nat.
Proof.
  intros Hc. unfold check_key. destruct (axis_state _ _ _ _); [|by intros [= <- <-]].
  unfold reserve_key.
  assert (∀ st1 lim n, has_room cap st1 key = true → (size (entries st1) ≤ cap)%nat →
    (size (entries (commit st1 key now lim n)) ≤ cap)%nat) as Hroom.
  { intros st1 lim n Hr Hs. rewrite commit_size. unfold has_room in Hr.
    destruct (contains_key (entries st1) key); simpl in Hr; [lia|]. apply Nat.ltb_lt in Hr. lia. }
  destruct (has_room cap st key) eqn:E; [intros [= <- <-]; by apply Hroom|].
  set (st1 := if next_expiry st <=? now then prune_expired st now else st).
  assert (size (entries st1) ≤ cap)%nat as Hs1.
  { unfold st1. case_match; [|done]. pose proof (prune_size st now). lia. }
  destruct (has_room cap st1 key) eqn:E1; intros [= <- <-]; [by apply Hroom|done].
Qed.

Lemma check_keys_size cap window axes now : ∀ st b st',
  (size (entries st) ≤ cap)%nat → check_keys cap window axes now st = (b, st') →
  (size (entries st') ≤ cap)%nat.
Proof.
  induction axes as [|[key m] axes IH]; intros st b st' Hs; cbn [check_keys]; [by intros [= <- <-]|].
  destruct (check_key cap st key now m window) as [r st1] eqn:E.
  pose proof (check_key_size _ _ _ _ _ _ _ _ Hs E). destruct r; [by apply IH|by intros [= <- <-]].
Qed.

Lemma step_within l now o :
  within l → within (step l now o).2 ∧ max_entries (step l now o).2 = max_entries l.
Proof.
  unfold within. intros Hw. destruct (inner l) as [st|] eqn:Hl.
  2:{ assert (step l now o = (false, l)) as ->; [|simpl; by rewrite Hl].
      destruct o; simpl; unfold check, check_user_tenant, release_axis, reset_user, clear_matching;
        by rewrite Hl. }
  specialize (Hw st eq_refl). destruct o as [u i d a t|u ul t tl|key|u|pred]; cbn [step].
  - unfold check. rewrite Hl. destruct (check_keys _ _ _ _ _) as [b st'] eqn:E. simpl.
    split; [|done]. intros ? [= <-]. by eapply check_keys_size.
  - unfold check_user_tenant. rewrite Hl. destruct (build_plan _ _ _) as [plan|]; simpl.
    2:{ rewrite Hl. by split; [intros ? [= <-]|]. }
    unfold reserve_plan. set (st1 := if _ && _ then prune_expired st now else st).
    assert (size (entries st1) ≤ max_entries l)%nat.
    { unfold st1. case_match; [|done]. pose proof (prune_size st now). lia. }
    destruct (Nat.ltb_spec (max_entries l) (size (entries st1) + needed st1 plan)); simpl;
      (split; [|done]); intros ? [= <-]; [done|].
    pose proof (commit_plan_size plan now st1). lia.
  - unfold release_axis. rewrite Hl. simpl.
    destruct (entries st !! key) as [e|] eqn:E; [|rewrite Hl; by split; [intros ? [= <-]|]].
    destruct (expiry e <=? now); [rewrite Hl; by split; [intros ? [= <-]|]|].
    destruct (count e <=? 1); simpl; (split; [|done]); intros ? [= <-]; simpl.
    + rewrite map_size_delete_Some by (by rewrite E). lia.
    + rewrite map_size_insert_Some by (by rewrite E). done.
  - unfold reset_user. rewrite Hl. simpl. split; [|done]. intros ? [= <-]. simpl.
    rewrite map_size_delete. case_match; unfold Datatypes.id; lia.
  - unfold clear_matching. rewrite Hl. simpl. split; [|done]. intros ? [= <-]. simpl.
    etransitivity; [apply map_size_filter|done].
Qed.

(** Whatever sequence of calls a limiter serves, it tracks at most
    [max_entries] keys, from its creation on. *)
Theorem capacity_never_exceeded tr l : within l → within (run l tr) ∧ max_entries (run l tr) = max_entries l.
Proof.
  revert l. induction tr as [|[now o] tr IH]; intros l Hw; simpl; [done|].
  destruct (step_within l now o Hw) as [Hw' Hm]. rewrite <- Hm. by apply IH.
Qed.


(** * Account keys *)

(** Two accounts never share an admission key, whatever separators their
    realm and address contain: the key determines the realm and the account. *)
Theorem user_key_injective realm email realm' email' :
  user_key realm email = user_key realm' email' → realm = realm' ∧ email = email'.
Proof.
  unfold user_key. intros [-> He]%length_prefix_inj.
  by apply (str_app_inj_prefix ":" ":") in He as [_ ->].
Qed.

(** * The bound on the next expiry *)

Definition ex_user (u : string) (w : N) : op := OpUserTenant (Some u) {| max := 5; limit_window := w |} None
  {| max := 5; limit_window := w |}.

(** [next_expiry] is not always a lower bound on the next expiry: a key whose
    window shrank expires earlier, so a full limiter refuses a new key although its
    only entry has expired and pruning would make room. *)
Theorem next_expiry_not_a_lower_bound :
  let l := run (with_capacity default_config 1) [(0, ex_user "a" 1000); (500, ex_user "a" 600)] in
  ∃ st e, inner l = Some st ∧ entries st !! User "a" = Some e ∧
    expiry e = 600 ∧ next_expiry st = 1000 ∧
    (step l 700 (ex_user "b" 600)).1 = false ∧
    entries (prune_expired st 700) = ∅.
Proof.
  eexists _, _. split; [vm_compute; reflexivity|]. split; [vm_compute; reflexivity|].
  repeat (split; [vm_compute; reflexivity|]). vm_compute. reflexivity.
Qed.

(** * Witnesses *)

Definition ex_trace : list (N * op) := map (fun t => (t, ex_user "a" 100)) [10; 11; 12; 13; 14; 15; 20].



Lemma user_tenant_all_or_nothing_witness :
  let l := with_capacity default_config 10 in
  let r := check_user_tenant l 10 (Some "a") {| max := 1; limit_window := 100 |} (Some "t")
             {| max := 1; limit_window := 100 |} in
  r.1 = true ∧ ∃ st', inner r.2 = Some st' ∧
    (∀ k lim, (k, lim) ∈ user_tenant_axes (Some "a") {| max := 1; limit_window := 100 |} (Some "t")
                {| max := 1; limit_window := 100 |} →
       counted default_state k 10 lim < max lim ∧
       ∃ e, entries st' !! k = Some e ∧ count e = saturating_add32 (counted default_state k 10 lim) 1
            ∧ window_seconds e = limit_window lim).
Proof.
  intros l r. split; [vm_compute; reflexivity|].
  destruct (user_tenant_all_or_nothing l 10 (Some "a") {| max := 1; limit_window := 100 |} (Some "t")
    {| max := 1; limit_window := 100 |} true r.2 default_state) as (st' & Hst & Hall & _).
  - reflexivity.
  - vm_compute. reflexivity.
  - exists st'. split; [exact Hst|exact Hall].
Defined.

Lemma capacity_never_exceeded_witness : within (run (with_capacity default_config 10) ex_trace).
Proof.
  apply (capacity_never_exceeded ex_trace (with_capacity default_config 10)). intros st H. injection H as <-.
  vm_compute. lia.
Defined.

Lemma user_key_injective_witness :
  user_key "a:b" "c" = "3:a:b:c" ∧ "a:b" = "a:b" ∧ "c" = "c".
Proof. split; [vm_compute; reflexivity|]. apply (user_key_injective "a:b" "c" "a:b" "c"). reflexivity. Defined.


End RateLimit.

(** * The failure budget *)

Module FailureBudget.

Definition MAX_BUDGET_ENTRIES : nat := 1024.

Record BudgetEntry : Type := { count : N; window_start : N }.

(** [None] is a poisoned lock. *)
Definition Budget : Type := option (gmap string BudgetEntry).

Definition exhausted (b : Budget) (now : N) (key : string) (limit window_seconds : N) : bool :=
  match b with
  | None => true
  | Some m =>
      match m !! key with
      | Some e => if now <? saturating_add64 (window_start e) window_seconds then limit <=? count e else false
      | None => false
      end
  end.

Definition evict_oldest (cap : nat) (m : gmap string BudgetEntry) : gmap string BudgetEntry :=
  let excess := (size m - cap)%nat in
  let oldest := sort_by (fun a b => fst a <=? fst b)
    (map (fun '(key, e) => (window_start e, key)) (map_to_list m)) in
  foldl (fun m '(_, key) => delete key m) m (take excess oldest).

Definition record_failure (b : Budget) (now : N) (key : string) (limit window_seconds : N) : bool * Budget :=
  match b with
  | None => (true, None)
  | Some m =>
      let e := default {| count := 0; window_start := now |} (m !! key) in
      let e1 := if saturating_add64 (window_start e) window_seconds <=? now
                then {| count := 0; window_start := now |} else e in
      let e2 := {| count := saturating_add32 (count e1) 1; window_start := window_start e1 |} in
      (limit <=? count e2, Some (evict_oldest MAX_BUDGET_ENTRIES (<[key := e2]> m)))
  end.

(** * Eviction *)

Lemma delete_all_lookup (ks : list (N * string)) : ∀ (m : gmap string BudgetEntry) k,
  foldl (fun m '(_, key) => delete key m) m ks !! k
  = if bool_decide (k ∈ map snd ks) then None else m !! k.
Proof.
  induction ks as [|[n key] ks IH]; intros m k; simpl; [done|]. rewrite IH.
  destruct (decide (k = key)) as [->|Hne].
  - rewrite (bool_decide_true (key ∈ key :: _)) by left. rewrite lookup_delete_eq. by case_match.
  - rewrite lookup_delete_ne by done. by repeat case_bool_decide; try set_solver.
Qed.

Lemma delete_all_size (ks : list (N * string)) : ∀ m : gmap string BudgetEntry,
  NoDup (map snd ks) → (∀ k, k ∈ map snd ks → is_Some (m !! k)) →
  (size (foldl (fun m '(_, key) => delete key m) m ks) = size m - length ks)%nat.
Proof.
  induction ks as [|[n key] ks IH]; intros m Hnd Hin; simpl; [lia|].
  simpl in *. apply NoDup_cons in Hnd as [Hk Hnd]. rewrite IH.
  - rewrite map_size_delete_Some by (apply Hin; left). lia.
  - done.
  - intros k Hk'. rewrite lookup_delete_ne by (intros ->; done). apply Hin. by right.
Qed.

(** The entries by age, oldest first. *)
Definition by_age (m : gmap string BudgetEntry) : list (N * string) :=
  sort_by (fun a b => fst a <=? fst b) (map (fun '(key, e) => (window_start e, key)) (map_to_list m)).

Lemma by_age_sorted m : StronglySorted (fun a b => (fst a <=? fst b) = true) (by_age m).
Proof.
  apply sort_by_sorted.
  - intros a b ?%N.leb_gt. apply N.leb_le. lia.
  - intros a b c ?%N.leb_le ?%N.leb_le. apply N.leb_le. lia.
Qed.

Lemma by_age_elem m n key : (n, key) ∈ by_age m ↔ ∃ e, m !! key = Some e ∧ n = window_start e.
Proof.
  unfold by_age. rewrite elem_of_sort_by, elem_of_map. split.
  - intros ([k e] & [= -> ->] & Hin%elem_of_map_to_list). eauto.
  - intros (e & He & ->). exists (key, e). split; [done|]. by apply elem_of_map_to_list.
Qed.

Lemma by_age_keys m : map snd (by_age m) ≡ₚ map fst (map_to_list m).
Proof.
  unfold by_age. rewrite sort_by_perm, map_map. apply reflexive_eq, map_ext. by intros [? ?].
Qed.

Lemma by_age_NoDup m : NoDup (map snd (by_age m)).
Proof. rewrite by_age_keys. apply NoDup_fst_map_to_list. Qed.

Lemma by_age_length m : length (by_age m) = size m.
Proof.
  rewrite <- (length_map snd), (Permutation_length (by_age_keys m)), length_map. apply length_map_to_list.
Qed.

Lemma evict_take m cap k : evict_oldest cap m !! k
  = if bool_decide (k ∈ map snd (take (size m - cap) (by_age m))) then None else m !! k.
Proof. apply delete_all_lookup. Qed.

Lemma map_take {A B} (f : A → B) n l : map f (take n l) = take n (map f l).
Proof. revert l. induction n as [|n IH]; intros [|x l]; simpl; [done..|]. by rewrite IH. Qed.

Lemma evict_size m cap : (size (evict_oldest cap m) = size m `min` cap)%nat.
Proof.
  unfold evict_oldest. fold (by_age m). rewrite delete_all_size.
  - rewrite length_take, by_age_length. lia.
  - rewrite map_take. eapply sublist_NoDup; [apply by_age_NoDup|apply sublist_take].
  - intros k ([n key] & -> & Hin)%elem_of_map. simpl.
    apply elem_of_take in Hin as (i & Hin%list_elem_of_lookup_2 & _). apply by_age_elem in Hin as (e & -> & _). eauto.
Qed.


(** The entry a failure leaves for its key, before eviction. *)
Definition failed_entry (m : gmap string BudgetEntry) (now : N) (key : string) (window : N) : BudgetEntry :=
  match m !! key with
  | Some e =>
      if now <? saturating_add64 (window_start e) window
      then {| count := saturating_add32 (count e) 1; window_start := window_start e |}
      else {| count := 1; window_start := now |}
  | None => {| count := 1; window_start := now |}
  end.

Lemma record_failure_entry m now key limit window :
  record_failure (Some m) now key limit window =
  (limit <=? count (failed_entry m now key window),
   Some (evict_oldest MAX_BUDGET_ENTRIES (<[key := failed_entry m now key window]> m))).
Proof.
  unfold record_failure, failed_entry. destruct (m !! key) as [e|]; simpl.
  - rewrite N.ltb_antisym. by destruct (_ <=? now).
  - by destruct (_ <=? now).
Qed.

(** Recording a failure counts it in the current window of its key (a new
    window when the old one has passed) and tells whether the budget is spent; the
    table then holds at most 1024 keys, the kept entries are unchanged, only entries
    at least as old as every kept one are dropped, and none while there is room. *)
Theorem record_failure_bounded m now key limit window :
  let m1 := <[key := failed_entry m now key window]> m in
  let '(spent, b) := record_failure (Some m) now key limit window in
  spent = (limit <=? count (failed_entry m now key window)) ∧
  ∃ m', b = Some m' ∧ (size m' ≤ MAX_BUDGET_ENTRIES)%nat ∧
    (∀ k e, m' !! k = Some e → m1 !! k = Some e) ∧
    (∀ k e k' e', m1 !! k = Some e → m' !! k = None → m' !! k' = Some e' →
       window_start e ≤ window_start e') ∧
    ((size m1 ≤ MAX_BUDGET_ENTRIES)%nat → m' = m1).
Proof.
  intros m1. rewrite record_failure_entry. split; [done|]. eexists. split; [done|]. fold m1.
  split; [rewrite evict_size; lia|]. split; [|split].
  - intros k e. rewrite evict_take. by case_bool_decide.
  - intros k e k' e' Hk Hn Hk'. rewrite evict_take in Hn, Hk'.
    destruct (decide (k ∈ map snd (take (size m1 - MAX_BUDGET_ENTRIES) (by_age m1)))) as [Hin|];
      [|rewrite bool_decide_false in Hn by done; congruence].
    destruct (decide (k' ∈ map snd (take (size m1 - MAX_BUDGET_ENTRIES) (by_age m1)))) as [|Hout];
      [by rewrite bool_decide_true in Hk'|rewrite bool_decide_false in Hk' by done].
    assert ((window_start e', k') ∈ drop (size m1 - MAX_BUDGET_ENTRIES) (by_age m1)) as Hd.
    { assert ((window_start e', k') ∈ by_age m1) as Hall by (apply by_age_elem; eauto).
      rewrite <- (take_drop (size m1 - MAX_BUDGET_ENTRIES) (by_age m1)) in Hall.
      apply elem_of_app in Hall as [Ht|]; [|done]. destruct Hout. apply elem_of_map.
      by exists (window_start e', k'). }
    apply elem_of_map in Hin as ([n key'] & -> & Ht). simpl in *.
    pose proof Ht as (i & Hage%list_elem_of_lookup_2 & _)%elem_of_take.
    apply by_age_elem in Hage as (e0 & He0 & ->). simplify_eq.
    pose proof (sorted_take_drop _ _ _ _ _ (by_age_sorted m1) Ht Hd) as Hle. by apply N.leb_le in Hle.
  - intros Hs. apply map_eq. intros k. rewrite evict_take.
    by replace (size m1 - MAX_BUDGET_ENTRIES)%nat with 0%nat by lia.
Qed.


End FailureBudget.
