(* ===== verification/Push.v ===== *)
(** Push-factor storage: the state transitions shared by the backends
    (src/qid-storage/src/push.rs), the records they act on
    (src/qid-core/src/models/push.rs) and the file store's operations
    (src/qid-storage/src/file/push.rs and the push part of
    [Store::remove_auth_state] in src/qid-storage/src/file/user.rs).

    A closure passed to [mutate_push] is a function from the store to its outcome
    and the store it leaves, so the rollback of the code is a step of the model;
    [write] is the outcome of the persistence attempt.  Times are arguments, the
    admission clock's sample included.  [constant_time_eq] (the [subtle] crate) is
    a parameter with its documented meaning. *)

From S2P Require Import Prelude Utf8.

(** [subtle]'s [ct_eq] as [qid_core::util::constant_time_eq] hands it on, unchanged. *)
Class ConstantTimeEq : Type := {
  constant_time_eq : string → string → bool;
  constant_time_eq_spec : ∀ a b, constant_time_eq a b = true ↔ a = b
}.

Module Push.

(** * Records *)

Inductive PushPublicJwk : Type :=
| EC (crv x y : string)
| OKP (crv x : string)
| RSA (n e : string).

Record PushAuthenticator : Type := {
  a_id : string; a_realm_id : string; a_user_id : string; destination : string;
  device_name : string; device_platform : string; public_jwk : PushPublicJwk;
  a_created_at : N; revoked_at : option N
}.

Record PushRegistrationChallenge : Type := {
  authenticator : PushAuthenticator; r_nonce_verifier : string; r_expires_at : N;
  r_max_attempts : N; r_attempt_count : N
}.

Inductive PushAuthenticatorRecord : Type :=
| Pending (c : PushRegistrationChallenge)
| Enrolled (a : PushAuthenticator).

Definition row_authenticator (row : PushAuthenticatorRecord) : PushAuthenticator :=
  match row with Pending c => authenticator c | Enrolled a => a end.

Inductive PushPurpose : Type := PasswordLogin.
Inductive PushDecision : Type := Approve | Deny.

Record PushLoginChallenge : Type := {
  id : string; realm_id : string; user_id : string; authenticator_id : string;
  purpose : PushPurpose; nonce_verifier : string; browser_binding_verifier : string;
  resend_admitted_at : list N; created_at : N; expires_at : N;
  max_attempts : N; attempt_count : N;
  decision : option PushDecision; decided_at : option N; consumed_at : option N
}.

#[global] Instance PushPublicJwk_eq_dec : EqDecision PushPublicJwk.
Proof. solve_decision. Defined.
#[global] Instance PushAuthenticator_eq_dec : EqDecision PushAuthenticator.
Proof. solve_decision. Defined.
#[global] Instance PushPurpose_eq_dec : EqDecision PushPurpose.
Proof. solve_decision. Defined.
#[global] Instance PushDecision_eq_dec : EqDecision PushDecision.
Proof. solve_decision. Defined.
#[global] Instance PushLoginChallenge_eq_dec : EqDecision PushLoginChallenge.
Proof. solve_decision. Defined.

Definition PUSH_DEVICE_METADATA_MAX : nat := 64.

Definition valid_push_device_metadata (s : string) : bool :=
  negb (is_empty_str s)
  && (length (take (PUSH_DEVICE_METADATA_MAX + 1) (Utf8.chars s)) <=? PUSH_DEVICE_METADATA_MAX)%nat
  && bool_decide (Utf8.trim (Utf8.chars s) = Utf8.chars s)
  && negb (existsb Utf8.is_control (Utf8.chars s)).

(** * Validation *)

Definition conflict : QidError := Conflict "push record unavailable or ID already used".
Definition bad : QidError := BadRequest "invalid initial push record".
Definition corrupt : QidError := Internal "corrupt push storage record".

Definition nonempty (s : string) : bool := negb (Utf8.blank s).

Definition is_lower_hex (b : N) : bool :=
  ((48 <=? b) && (b <=? 57)) || ((97 <=? b) && (b <=? 102)).

Definition verifier (s : string) : bool :=
  (String.length s =? 64)%nat && forallb is_lower_hex (Utf8.str_bytes s).

Definition key_valid (k : PushPublicJwk) : bool :=
  match k with
  | EC crv x y => forallb nonempty [crv; x; y]
  | OKP crv x => forallb nonempty [crv; x]
  | RSA n e => forallb nonempty [n; e]
  end.

Definition is_none {A} (o : option A) : bool := match o with None => true | Some _ => false end.
Definition is_some {A} (o : option A) : bool := negb (is_none o).

Definition authenticator_fields_valid (a : PushAuthenticator) : bool :=
  forallb nonempty [a_id a; a_realm_id a; a_user_id a; destination a]
  && valid_push_device_metadata (device_name a)
  && valid_push_device_metadata (device_platform a)
  && key_valid (public_jwk a)
  && negb (a_created_at a =? 0)
  && fits_i64 (a_created_at a).

Definition registration_fields_valid (c : PushRegistrationChallenge) : bool :=
  authenticator_fields_valid (authenticator c)
  && is_none (revoked_at (authenticator c))
  && verifier (r_nonce_verifier c)
  && (a_created_at (authenticator c) <? r_expires_at c)
  && fits_i64 (r_expires_at c)
  && negb (r_max_attempts c =? 0).

(** [slice.windows(2).all(|pair| pair[0] < pair[1])] *)
Fixpoint increasing (l : list N) : bool :=
  match l with
  | a :: ((b :: _) as l') => (a <? b) && increasing l'
  | _ => true
  end.

Definition login_fields_valid (c : PushLoginChallenge) : bool :=
  forallb nonempty [id c; realm_id c; user_id c; authenticator_id c]
  && verifier (nonce_verifier c)
  && verifier (browser_binding_verifier c)
  && negb (created_at c =? 0)
  && fits_i64 (created_at c)
  && (created_at c <? expires_at c)
  && (expires_at c - created_at c <=? 600)
  && (length (resend_admitted_at c) <=? 600)%nat
  && forallb (fun at_ => (created_at c <=? at_) && (at_ <? expires_at c) && fits_i64 at_)
       (resend_admitted_at c)
  && increasing (resend_admitted_at c)
  && match decided_at c with
     | Some at_ => match last (resend_admitted_at c) with Some l => l <=? at_ | None => true end
     | None => true
     end
  && fits_i64 (expires_at c)
  && negb (max_attempts c =? 0).

Definition validate_registration (c : PushRegistrationChallenge) : QidResult unit :=
  if negb (registration_fields_valid c) || negb (r_attempt_count c =? 0) then Err bad else Ok tt.

Definition validate_login (c : PushLoginChallenge) : QidResult unit :=
  if negb (login_fields_valid c) || negb (attempt_count c =? 0)
     || match resend_admitted_at c with [] => false | _ => true end
     || is_some (decision c) || is_some (decided_at c) || is_some (consumed_at c)
  then Err bad else Ok tt.

Definition validate_authenticator_record (a : PushAuthenticator) : QidResult unit :=
  if negb (authenticator_fields_valid a)
     || match revoked_at a with Some t => t <? a_created_at a | None => false end
  then Err corrupt else Ok tt.

Definition validate_registration_record (c : PushRegistrationChallenge) : QidResult unit :=
  if negb (registration_fields_valid c) || (r_max_attempts c <? r_attempt_count c)
  then Err corrupt else Ok tt.

Definition lifecycle_invalid (c : PushLoginChallenge) : bool :=
  match decision c, decided_at c, consumed_at c with
  | None, None, None => false
  | Some d, Some t, consumed =>
      (t <? created_at c) || (expires_at c <=? t) || (attempt_count c =? 0)
      || match consumed with
         | Some u => negb (bool_decide (d = Approve)) || (u <? t) || (expires_at c <=? u)
         | None => false
         end
  | _, _, _ => true
  end.

Definition validate_login_record (c : PushLoginChallenge) : QidResult unit :=
  if negb (login_fields_valid c) || (max_attempts c <? attempt_count c) || lifecycle_invalid c
  then Err corrupt else Ok tt.

Definition current (a : PushAuthenticator) (c : PushLoginChallenge) : bool :=
  String.eqb (a_id a) (authenticator_id c) && String.eqb (a_realm_id a) (realm_id c)
  && String.eqb (a_user_id a) (user_id c) && (a_created_at a <=? created_at c)
  && is_none (revoked_at a).

Definition live (created expires now : N) : bool := (created <=? now) && (now <? expires).

Definition authenticator_record (row : PushAuthenticatorRecord) (rid : string)
    : QidResult PushAuthenticator :=
  let? _ := match row with
            | Pending c => validate_registration_record c
            | Enrolled a => validate_authenticator_record a
            end in
  let a := row_authenticator row in
  if negb (String.eqb (a_id a) rid) then Err corrupt else Ok a.

Definition enrolled (row : PushAuthenticatorRecord) (rid : string) : QidResult (option PushAuthenticator) :=
  let? _ := authenticator_record row rid in
  Ok (match row with Enrolled a => Some a | Pending _ => None end).

(** * Transitions *)

Definition with_a_created_at (a : PushAuthenticator) (t : N) : PushAuthenticator :=
  {| a_id := a_id a; a_realm_id := a_realm_id a; a_user_id := a_user_id a; destination := destination a;
     device_name := device_name a; device_platform := device_platform a; public_jwk := public_jwk a;
     a_created_at := t; revoked_at := revoked_at a |}.

Definition with_revoked_at (a : PushAuthenticator) (t : option N) : PushAuthenticator :=
  {| a_id := a_id a; a_realm_id := a_realm_id a; a_user_id := a_user_id a; destination := destination a;
     device_name := device_name a; device_platform := device_platform a; public_jwk := public_jwk a;
     a_created_at := a_created_at a; revoked_at := t |}.

Definition registration_attempt (row : PushAuthenticatorRecord) (expected : PushRegistrationChallenge)
    (verified : bool) (now : N) : bool * PushAuthenticatorRecord :=
  match row with
  | Enrolled _ => (false, row)
  | Pending c =>
      if negb (bool_decide (authenticator c = authenticator expected))
         || negb (String.eqb (r_nonce_verifier c) (r_nonce_verifier expected))
         || negb (r_expires_at c =? r_expires_at expected)
         || negb (r_max_attempts c =? r_max_attempts expected)
         || negb (live (a_created_at (authenticator c)) (r_expires_at c) now)
         || (r_max_attempts c <=? r_attempt_count c)
      then (false, row)
      else if verified then (true, Enrolled (with_a_created_at (authenticator c) now))
      else (true, Pending {| authenticator := authenticator c; r_nonce_verifier := r_nonce_verifier c;
                             r_expires_at := r_expires_at c; r_max_attempts := r_max_attempts c;
                             r_attempt_count := r_attempt_count c + 1 |})
  end.

(** A login challenge with its mutable attempt, decision and redemption state replaced. *)
Definition with_progress (c : PushLoginChallenge) (n : N) (d : option PushDecision) (t u : option N)
    : PushLoginChallenge :=
  {| id := id c; realm_id := realm_id c; user_id := user_id c; authenticator_id := authenticator_id c;
     purpose := purpose c; nonce_verifier := nonce_verifier c;
     browser_binding_verifier := browser_binding_verifier c;
     resend_admitted_at := resend_admitted_at c; created_at := created_at c; expires_at := expires_at c;
     max_attempts := max_attempts c; attempt_count := n; decision := d; decided_at := t; consumed_at := u |}.

Definition same_login (c expected : PushLoginChallenge) : bool :=
  bool_decide (with_progress c (attempt_count expected) (decision expected) (decided_at expected)
                 (consumed_at expected) = expected).

Definition login_attempt (c expected : PushLoginChallenge) (d : option PushDecision) (now : N)
    : bool * PushLoginChallenge :=
  if negb (same_login c expected) || negb (live (created_at c) (expires_at c) now)
     || is_some (decision c) || is_some (consumed_at c) || (max_attempts c <=? attempt_count c)
  then (false, c)
  else
    (true, match d with
           | Some d => with_progress c (attempt_count c + 1) (Some d) (Some now) (consumed_at c)
           | None => with_progress c (attempt_count c + 1) (decision c) (decided_at c) (consumed_at c)
           end).

Section Transitions.
Context `{CT : ConstantTimeEq}.

Definition redeem (c expected : PushLoginChallenge) (binding_verifier : string) (now : N)
    : bool * PushLoginChallenge :=
  if negb (verifier binding_verifier) || negb (same_login c expected)
     || negb (live (created_at c) (expires_at c) now)
     || negb (bool_decide (decision c = Some Approve)) || is_some (consumed_at c)
     || match decided_at c with Some t => now <? t | None => true end
     || negb (constant_time_eq (browser_binding_verifier c) binding_verifier)
  then (false, c)
  else (true, with_progress c (attempt_count c) (decision c) (decided_at c) (Some now)).

Definition resend (c expected : PushLoginChallenge) (binding_verifier nonce : string)
    (issued cooldown now : N) : bool * PushLoginChallenge :=
  if (cooldown =? 0) || negb (verifier binding_verifier)
     || negb (constant_time_eq (browser_binding_verifier c) binding_verifier)
     || negb (verifier nonce) || String.eqb nonce (nonce_verifier c)
     || negb (same_login c expected) || negb (live (created_at c) (expires_at c) now)
     || is_some (decision c) || is_some (consumed_at c) || (max_attempts c <=? attempt_count c)
     || (saturating_sub now (default issued (last (resend_admitted_at c))) <? cooldown)
  then (false, c)
  else
    (true,
     {| id := id c; realm_id := realm_id c; user_id := user_id c; authenticator_id := authenticator_id c;
        purpose := purpose c; nonce_verifier := nonce;
        browser_binding_verifier := browser_binding_verifier c;
        resend_admitted_at := resend_admitted_at c ++ [now]; created_at := created_at c;
        expires_at := expires_at c; max_attempts := max_attempts c; attempt_count := attempt_count c;
        decision := decision c; decided_at := decided_at c; consumed_at := consumed_at c |}).

End Transitions.

Definition MAX_PUSH_WINDOW_SECONDS : N := 86400.

Definition login_purpose_str (p : PushPurpose) : string :=
  match p with PasswordLogin => "password_login" end.

Definition quota_window_start (created expires admitted_at max_issuances window_seconds : N) : QidResult N :=
  if (max_issuances =? 0)
     || negb ((1 <=? window_seconds) && (window_seconds <=? MAX_PUSH_WINDOW_SECONDS))
     || negb (live created expires admitted_at)
     || negb (fits_i64 admitted_at) || negb (fits_i64 created) || negb (fits_i64 expires)
  then Err (BadRequest "invalid push issuance budget or timestamp")
  else Ok (saturating_sub admitted_at (window_seconds - 1)).

Definition cleanup_cutoff (now limit : N) : QidResult N :=
  if negb ((1 <=? limit) && (limit <=? 1000)) || negb (fits_i64 now)
  then Err (BadRequest "invalid push cleanup bound")
  else Ok (saturating_sub now MAX_PUSH_WINDOW_SECONDS).

Definition validate_login_issued (c : PushLoginChallenge) (issued : N) : QidResult unit :=
  if (issued <? created_at c) || (expires_at c <=? issued)
     || match head (resend_admitted_at c) with Some t => t <=? issued | None => false end
  then Err corrupt else Ok tt.

Definition send_count (c : PushLoginChallenge) (issued start : N) : QidResult N :=
  validate_login_record c ?;
  validate_login_issued c issued ?;
  Ok ((if start <=? issued then 1 else 0)
      + N.of_nat (length (List.filter (fun t => start <=? t) (resend_admitted_at c)))).

(** * The file store *)

Record PushStore : Type := {
  authenticators : gmap string PushAuthenticatorRecord;
  logins : gmap string PushLoginChallenge;
  registration_issued_at : gmap string N;
  login_issued_at : gmap string N
}.

(** The parts of [Store] the push operations use; a user row is its realm. *)
Record Store : Type := { users : gmap string string; push : PushStore }.

Definition with_push (s : Store) (p : PushStore) : Store := {| users := users s; push := p |}.

Definition set_authenticators (p : PushStore) m : PushStore :=
  {| authenticators := m; logins := logins p; registration_issued_at := registration_issued_at p;
     login_issued_at := login_issued_at p |}.
Definition set_logins (p : PushStore) m : PushStore :=
  {| authenticators := authenticators p; logins := m;
     registration_issued_at := registration_issued_at p; login_issued_at := login_issued_at p |}.
Definition set_registration_issued (p : PushStore) m : PushStore :=
  {| authenticators := authenticators p; logins := logins p; registration_issued_at := m;
     login_issued_at := login_issued_at p |}.
Definition set_login_issued (p : PushStore) m : PushStore :=
  {| authenticators := authenticators p; logins := logins p;
     registration_issued_at := registration_issued_at p; login_issued_at := m |}.

Definition registration_issued (p : PushStore) (rid : string) (row : PushAuthenticatorRecord) : QidResult N :=
  let? issued := ok_or (registration_issued_at p !! rid) corrupt in
  let valid := match row with
               | Pending c => (a_created_at (authenticator c) <=? issued) && (issued <? r_expires_at c)
               | Enrolled a => negb (issued =? 0) && (issued <=? a_created_at a)
               end in
  if negb valid then Err corrupt else Ok issued.

Definition login_issued (p : PushStore) (lid : string) (c : PushLoginChallenge) : QidResult N :=
  let? issued := ok_or (login_issued_at p !! lid) corrupt in
  validate_login_issued c issued ?;
  Ok issued.

(** [BinaryHeap] as the ascending list of its elements: [peek] is the last one. *)
Definition key_leb (a b : N * string) : bool :=
  match N.compare (fst a) (fst b) with Lt => true | Gt => false | Eq => str_leb (snd a) (snd b) end.

Definition key_ltb (a b : N * string) : bool := negb (key_leb b a).

Definition heap_step (limit : nat) (selected : list (N * string)) (key : N * string) : list (N * string) :=
  if (length selected <? limit)%nat then sort_insert key_leb key selected
  else match last selected with
       | Some largest => if key_ltb key largest then sort_insert key_leb key (removelast selected) else selected
       | None => selected
       end.

Definition select_oldest (candidates : list (N * string)) (limit : nat) : list string :=
  map snd (foldl (heap_step limit) [] candidates).

(** The closures of the code: an outcome and the store they leave behind. *)
Definition closure (T : Type) : Type := Store → QidResult (bool * T) * PushStore.

Definition mutate_push_value {T : Type} (write : QidResult unit) (f : closure T) (s : Store)
    : QidResult T * Store :=
  let before := push s in
  match f s with
  | (Err e, p) => (Err e, with_push (with_push s p) before)
  | (Ok (changed, value), p) =>
      if negb changed then (Ok value, with_push s p)
      else match write with
           | Err e => (Err e, with_push (with_push s p) before)
           | Ok _ => (Ok value, with_push s p)
           end
  end.

Definition mutate_push (write : QidResult unit) (f : Store → QidResult bool * PushStore) (s : Store)
    : QidResult bool * Store :=
  mutate_push_value write (fun s => let '(r, p) := f s in (res_map (fun b => (b, b)) r, p)) s.

(** [let! x := r otherwise p in k]: the [?] of a closure that has left the push store [p]. *)
Local Notation "'let!' x ':=' r 'otherwise' p 'in' k" :=
  (match r with Ok x => k | Err e => (Err e, p) end)
  (at level 10, x name, r at level 100, p at level 100, k at level 200).

Definition user_in_realm (s : Store) (u realm : string) : bool :=
  match users s !! u with Some r => String.eqb r realm | None => false end.

Definition attempt_push_registration (write : QidResult unit) (expected : PushRegistrationChallenge)
    (verified : bool) (now : N) : Store → QidResult bool * Store :=
  mutate_push write (fun s =>
    let p := push s in
    let a := authenticator expected in
    if negb (user_in_realm s (a_user_id a) (a_realm_id a)) then (Ok false, p)
    else
      let! _u := validate_registration_record expected otherwise p in
      match authenticators p !! a_id a with
      | None => (Ok false, p)
      | Some c =>
          let! _a := authenticator_record c (a_id a) otherwise p in
          let! issued := registration_issued p (a_id a) c otherwise p in
          if now <? issued then (Ok false, p)
          else
            let '(accepted, c') := registration_attempt c expected verified now in
            let p' := set_authenticators p (<[a_id a := c']> (authenticators p)) in
            if negb accepted then (Ok false, p')
            else
              let! _b := authenticator_record c' (a_id a) otherwise p' in
              (Ok true, p')
      end).

Definition revoke_push_authenticator (write : QidResult unit) (realm user aid : string) (now : N)
    : Store → QidResult bool * Store :=
  mutate_push write (fun s =>
    let p := push s in
    match authenticators p !! aid with
    | None => (Ok false, p)
    | Some row =>
        let! _a := authenticator_record row aid otherwise p in
        match row with
        | Pending _ => (Ok false, p)
        | Enrolled a =>
            if negb (String.eqb (a_realm_id a) realm) || negb (String.eqb (a_user_id a) user)
               || is_some (revoked_at a) || (now <? a_created_at a)
            then (Ok false, p)
            else
              let a' := with_revoked_at a (Some now) in
              let p' := set_authenticators p (<[aid := Enrolled a']> (authenticators p)) in
              let! _u := validate_authenticator_record a' otherwise p' in
              (Ok true, p')
        end
    end).

(** The common prefix of the login operations: the enrolled, current authenticator. *)
Definition current_authenticator (p : PushStore) (expected : PushLoginChallenge) : QidResult bool :=
  match authenticators p !! authenticator_id expected with
  | None => Ok false
  | Some row =>
      let? o := enrolled row (authenticator_id expected) in
      Ok (match o with Some a => current a expected | None => false end)
  end.

(** The stored login row of [expected], validated. *)
Definition stored_login (p : PushStore) (expected : PushLoginChallenge) : QidResult (option PushLoginChallenge) :=
  match logins p !! id expected with
  | None => Ok None
  | Some c =>
      let? _ := login_issued p (id expected) c in
      validate_login_record c ?;
      if negb (String.eqb (id c) (id expected)) then Err corrupt else Ok (Some c)
  end.

Definition attempt_push_login (write : QidResult unit) (expected : PushLoginChallenge)
    (d : option PushDecision) (now : N) : Store → QidResult bool * Store :=
  mutate_push write (fun s =>
    let p := push s in
    let! _u := validate_login_record expected otherwise p in
    let! ok := current_authenticator p expected otherwise p in
    if negb ok then (Ok false, p)
    else
      let! o := stored_login p expected otherwise p in
      match o with
      | None => (Ok false, p)
      | Some c =>
          let '(accepted, c') := login_attempt c expected d now in
          let p' := set_logins p (<[id expected := c']> (logins p)) in
          if accepted then let! _v := validate_login_record c' otherwise p' in (Ok accepted, p')
          else (Ok accepted, p')
      end).

Section Operations.
Context `{CT : ConstantTimeEq}.

Definition redeem_push_login (write : QidResult unit) (expected : PushLoginChallenge) (binding : string)
    (now : N) : Store → QidResult bool * Store :=
  mutate_push write (fun s =>
    let p := push s in
    let! _u := validate_login_record expected otherwise p in
    if negb (verifier binding) then (Ok false, p)
    else
      let! ok := current_authenticator p expected otherwise p in
      if negb ok then (Ok false, p)
      else
        let! o := stored_login p expected otherwise p in
        match o with
        | None => (Ok false, p)
        | Some c =>
            let '(accepted, c') := redeem c expected binding now in
            let p' := set_logins p (<[id expected := c']> (logins p)) in
            if accepted then let! _v := validate_login_record c' otherwise p' in (Ok accepted, p')
            else (Ok accepted, p')
        end).

(** The quota loops: registrations and sends of one user inside the window. *)
Definition count_registrations (p : PushStore) (realm user : string) (start : N) : QidResult N :=
  res_foldl (fun n '(rid, row) =>
    let? r := authenticator_record row rid in
    if String.eqb (a_realm_id r) realm && String.eqb (a_user_id r) user then
      let? issued := registration_issued p rid row in
      Ok (if start <=? issued then n + 1 else n)
    else Ok n) 0 (map_to_list (authenticators p)).

Definition count_sends (p : PushStore) (realm user : string) (pur : PushPurpose) (start : N) : QidResult N :=
  res_foldl (fun n '(lid, row) =>
    validate_login_record row ?;
    if negb (String.eqb (id row) lid) then Err corrupt
    else if String.eqb (realm_id row) realm && String.eqb (user_id row) user
            && bool_decide (purpose row = pur)
    then
      let? issued := login_issued p lid row in
      let? k := send_count row issued start in
      Ok (n + k)
    else Ok n) 0 (map_to_list (logins p)).

Definition issue_push_registration (write : QidResult unit) (c : PushRegistrationChallenge)
    (max_issuances window_seconds sample : N) (s : Store) : QidResult bool * Store :=
  let! _u := validate_registration c otherwise s in
  mutate_push write (fun s =>
    let p := push s in
    let a := authenticator c in
    let! start := quota_window_start (a_created_at a) (r_expires_at c) sample max_issuances window_seconds otherwise p in
    if negb (user_in_realm s (a_user_id a) (a_realm_id a)) then (Err conflict, p)
    else if is_some (authenticators p !! a_id a) then (Err conflict, p)
    else
      let! n := count_registrations p (a_realm_id a) (a_user_id a) start otherwise p in
      if max_issuances <=? n then (Ok false, p)
      else
        (Ok true, set_registration_issued
           (set_authenticators p (<[a_id a := Pending c]> (authenticators p)))
           (<[a_id a := sample]> (registration_issued_at p)))) s.

Definition issue_push_login (write : QidResult unit) (c : PushLoginChallenge)
    (max_issuances window_seconds sample : N) (s : Store) : QidResult bool * Store :=
  let! _u := validate_login c otherwise s in
  mutate_push write (fun s =>
    let p := push s in
    let! start := quota_window_start (created_at c) (expires_at c) sample max_issuances window_seconds otherwise p in
    if is_some (logins p !! id c) then (Err conflict, p)
    else
      let! ok := current_authenticator p c otherwise p in
      if negb ok then (Err conflict, p)
      else
        let! n := count_sends p (realm_id c) (user_id c) (purpose c) start otherwise p in
        if max_issuances <=? n then (Ok false, p)
        else
          (Ok true, set_logins (set_login_issued p (<[id c := sample]> (login_issued_at p)))
             (<[id c := c]> (logins p)))) s.

Definition resend_push_login (write : QidResult unit) (expected : PushLoginChallenge)
    (binding nonce : string) (max_issuances window_seconds cooldown sample : N) (s : Store)
    : QidResult (option PushLoginChallenge) * Store :=
  let! _u := validate_login_record expected otherwise s in
  mutate_push_value write (fun s =>
    let p := push s in
    let now := sample in
    if (now <? created_at expected) || (expires_at expected <=? now) then (Ok (false, None), p)
    else
      let! start := quota_window_start (created_at expected) (expires_at expected) now max_issuances
                 window_seconds otherwise p in
      let! ok := current_authenticator p expected otherwise p in
      if negb ok then (Ok (false, None), p)
      else
        let! n := count_sends p (realm_id expected) (user_id expected) (purpose expected) start otherwise p in
        if max_issuances <=? n then (Ok (false, None), p)
        else
          match logins p !! id expected with
          | None => (Ok (false, None), p)
          | Some c =>
              let! issued := login_issued p (id expected) c otherwise p in
              let '(accepted, c') := resend c expected binding nonce issued cooldown now in
              let p' := set_logins p (<[id expected := c']> (logins p)) in
              if negb accepted then (Ok (false, None), p')
              else let! _v := validate_login_record c' otherwise p' in (Ok (true, Some c'), p')
          end) s.

End Operations.

(** The validation pass of the cleanup. *)
Definition validate_registrations (p : PushStore) : QidResult unit :=
  res_foldl (fun _ '(rid, row) =>
    let? _ := authenticator_record row rid in
    let? _ := registration_issued p rid row in Ok tt) tt (map_to_list (authenticators p)).

Definition validate_logins (p : PushStore) : QidResult unit :=
  res_foldl (fun _ '(lid, c) =>
    validate_login_record c ?;
    if negb (String.eqb (id c) lid) then Err corrupt
    else let? _ := login_issued p lid c in Ok tt) tt (map_to_list (logins p)).

(** The candidates; the issuance of a validated row is present. *)
Definition expired_registrations (p : PushStore) (now cutoff : N) : list (N * string) :=
  omap (fun '(rid, row) =>
    match row with
    | Pending c =>
        let issued := default 0 (registration_issued_at p !! rid) in
        if (r_expires_at c <=? now) && (issued <? cutoff) then Some (issued, rid) else None
    | Enrolled _ => None
    end) (map_to_list (authenticators p)).

Definition expired_logins (p : PushStore) (cutoff : N) : list (N * string) :=
  omap (fun '(lid, c) =>
    let issued := default 0 (login_issued_at p !! lid) in
    if expires_at c <? cutoff then Some (issued, lid) else None) (map_to_list (logins p)).

Definition remove_registrations (p : PushStore) (ids : list string) : PushStore :=
  foldl (fun p rid => set_registration_issued
           (set_authenticators p (delete rid (authenticators p)))
           (delete rid (registration_issued_at p))) p ids.

Definition remove_logins (p : PushStore) (ids : list string) : PushStore :=
  foldl (fun p lid => set_login_issued (set_logins p (delete lid (logins p)))
           (delete lid (login_issued_at p))) p ids.

(** The rollback: the removed rows are inserted again. *)
Definition restore_registrations (p before : PushStore) (ids : list string) : PushStore :=
  foldl (fun p rid =>
    match authenticators before !! rid, registration_issued_at before !! rid with
    | Some row, Some issued =>
        set_authenticators (set_registration_issued p (<[rid := issued]> (registration_issued_at p)))
          (<[rid := row]> (authenticators p))
    | _, _ => p
    end) p ids.

Definition restore_logins (p before : PushStore) (ids : list string) : PushStore :=
  foldl (fun p lid =>
    match logins before !! lid, login_issued_at before !! lid with
    | Some c, Some issued =>
        set_logins (set_login_issued p (<[lid := issued]> (login_issued_at p))) (<[lid := c]> (logins p))
    | _, _ => p
    end) p ids.

Definition cleanup_expired_push_records (write : QidResult unit) (now limit : N) (s : Store)
    : QidResult N * Store :=
  let! cutoff := cleanup_cutoff now limit otherwise s in
  let p := push s in
  let! _u := validate_registrations p otherwise s in
  let! _v := validate_logins p otherwise s in
  let regs := select_oldest (expired_registrations p now cutoff) (N.to_nat limit) in
  let remaining := (N.to_nat limit - length regs)%nat in
  let lgs := match remaining with O => [] | _ => select_oldest (expired_logins p cutoff) remaining end in
  let deleted := N.of_nat (length regs + length lgs) in
  if deleted =? 0 then (Ok 0, s)
  else
    let p' := remove_logins (remove_registrations p regs) lgs in
    match write with
    | Err e => (Err e, with_push s (restore_logins (restore_registrations p' p regs) p lgs))
    | Ok _ => (Ok deleted, with_push s p')
    end.

(** Reads. *)
Definition get_push_registration (s : Store) (realm user rid : string)
    : QidResult (option PushRegistrationChallenge) :=
  match authenticators (push s) !! rid with
  | None => Ok None
  | Some row =>
      let? a := authenticator_record row rid in
      if negb (String.eqb (a_realm_id a) realm) || negb (String.eqb (a_user_id a) user) then Ok None
      else Ok (match row with Pending c => Some c | Enrolled _ => None end)
  end.

Definition get_push_authenticator (s : Store) (realm user aid : string) : QidResult (option PushAuthenticator) :=
  match authenticators (push s) !! aid with
  | None => Ok None
  | Some row =>
      let? o := enrolled row aid in
      match o with
      | None => Ok None
      | Some a =>
          if negb (String.eqb (a_realm_id a) realm) || negb (String.eqb (a_user_id a) user) then Ok None
          else Ok (Some a)
      end
  end.

Definition list_push_authenticators (s : Store) (realm user : string) : QidResult (list PushAuthenticator) :=
  let? rows := res_foldl (fun rows '(aid, row) =>
    let? o := enrolled row aid in
    Ok (match o with
        | Some a => if String.eqb (a_realm_id a) realm && String.eqb (a_user_id a) user
                    then rows ++ [a] else rows
        | None => rows
        end)) [] (map_to_list (authenticators (push s))) in
  Ok (sort_by (fun a b => str_leb (a_id a) (a_id b)) rows).

Definition get_push_login (s : Store) (realm user lid : string) : QidResult (option PushLoginChallenge) :=
  match logins (push s) !! lid with
  | None => Ok None
  | Some c =>
      validate_login_record c ?;
      if negb (String.eqb (id c) lid) then Err corrupt
      else
        let? _ := login_issued (push s) lid c in
        if negb (String.eqb (realm_id c) realm) || negb (String.eqb (user_id c) user) then Ok None
        else Ok (Some c)
  end.

(** The push part of [Store::remove_auth_state]: deletion of users or of a realm. *)
Definition remove_auth_state (gone : gset string) (realm : option string) (s : Store) : Store :=
  let p := push s in
  let in_realm r := bool_decide (realm = Some r) in
  let auths := filter (fun '(_, row) =>
      (a_user_id (row_authenticator row) ∉ gone) ∧ in_realm (a_realm_id (row_authenticator row)) = false)
    (authenticators p) in
  let lgs := filter (fun '(_, c) => (user_id c ∉ gone) ∧ in_realm (realm_id c) = false) (logins p) in
  with_push s
    {| authenticators := auths; logins := lgs;
       registration_issued_at := filter (fun '(rid, _) => is_Some (auths !! rid)) (registration_issued_at p);
       login_issued_at := filter (fun '(lid, _) => is_Some (lgs !! lid)) (login_issued_at p) |}.

(** * Valid stores *)

Definition auth_row_ok (issued : gmap string N) (rid : string) (row : PushAuthenticatorRecord) : Prop :=
  authenticator_record row rid = Ok (row_authenticator row) ∧
  ∃ i, issued !! rid = Some i ∧
    match row with
    | Pending c => a_created_at (authenticator c) ≤ i ∧ i < r_expires_at c
    | Enrolled a => i ≠ 0 ∧ i ≤ a_created_at a
    end.

Definition login_row_ok (issued : gmap string N) (lid : string) (c : PushLoginChallenge) : Prop :=
  validate_login_record c = Ok tt ∧ id c = lid ∧
  ∃ i, issued !! lid = Some i ∧ validate_login_issued c i = Ok tt.

Definition store_ok (p : PushStore) : Prop :=
  (∀ rid row, authenticators p !! rid = Some row → auth_row_ok (registration_issued_at p) rid row) ∧
  (∀ lid c, logins p !! lid = Some c → login_row_ok (login_issued_at p) lid c).

Lemma authenticator_record_Ok row rid a :
  authenticator_record row rid = Ok a → a = row_authenticator row ∧ a_id a = rid.
Proof.
  unfold authenticator_record. intros (u & _ & H)%res_bind_Ok. cbv zeta in H.
  destruct (String.eqb_spec (a_id (row_authenticator row)) rid); [|done]. by injection H as <-.
Qed.

Lemma registration_issued_Ok p rid row i :
  registration_issued p rid row = Ok i ↔
  registration_issued_at p !! rid = Some i ∧
    match row with
    | Pending c => a_created_at (authenticator c) ≤ i ∧ i < r_expires_at c
    | Enrolled a => i ≠ 0 ∧ i ≤ a_created_at a
    end.
Proof.
  unfold registration_issued. destruct (registration_issued_at p !! rid) as [j|]; simpl; [|naive_solver].
  destruct row as [c|a].
  - destruct (N.leb_spec (a_created_at (authenticator c)) j), (N.ltb_spec j (r_expires_at c)); simpl;
      split; intros Hx; (destruct_and? ); simplify_eq/=; try done; lia.
  - destruct (N.eqb_spec j 0), (N.leb_spec j (a_created_at a)); simpl;
      split; intros Hx; (destruct_and? ); simplify_eq/=; try done; lia.
Qed.

Lemma login_issued_Ok p lid c i :
  login_issued p lid c = Ok i ↔ login_issued_at p !! lid = Some i ∧ validate_login_issued c i = Ok tt.
Proof.
  unfold login_issued. destruct (login_issued_at p !! lid) as [j|]; simpl; [|naive_solver].
  split.
  - intros ([] & Hv & [= <-])%res_bind_Ok. done.
  - intros [[= ->] Hv]. by rewrite Hv.
Qed.

Lemma login_issued_ok p lid c : login_issued p lid c ≠ Err corrupt →
  ∃ i, login_issued p lid c = Ok i.
Proof.
  destruct (login_issued p lid c) as [i|e] eqn:E; [by eauto|]. intros Hne. exfalso. apply Hne.
  unfold login_issued in E. destruct (login_issued_at p !! lid); simpl in E; [|by injection E as <-].
  unfold validate_login_issued in E. case_match; simpl in E; by simplify_eq.
Qed.

(** * What the operations do to the store *)

Section Steps.
Context `{CT : ConstantTimeEq}.
Implicit Types (s : Store) (p : PushStore) (c : PushLoginChallenge).

(** A mutation either fails and leaves the store as it was, or leaves what its
    closure left. *)
Lemma mutate_cases {T} write (f : closure T) s r s' :
  mutate_push_value write f s = (r, s') →
  users s' = users s ∧
  ((∃ e, r = Err e ∧ push s' = push s) ∨ (∃ b v, f s = (Ok (b, v), push s') ∧ r = Ok v)).
Proof.
  unfold mutate_push_value. destruct (f s) as [[[b v]|e] p] eqn:E.
  - destruct b; simpl; [|intros [= <- <-]; by eauto 10].
    destruct write; intros [= <- <-]; simpl; split; [done|right|done|left]; eauto.
  - intros [= <- <-]. simpl. split; [done|]. left. eauto.
Qed.

Lemma mutate_bool_cases write (f : Store → QidResult bool * PushStore) s r s' :
  mutate_push write f s = (r, s') →
  users s' = users s ∧
  ((∃ e, r = Err e ∧ push s' = push s) ∨ (∃ b, f s = (Ok b, push s') ∧ r = Ok b)).
Proof.
  unfold mutate_push. intros H%mutate_cases. destruct H as [Hu [?|(b & v & Hf & ->)]]; [by auto|].
  split; [done|]. right. destruct (f s) as [[v'|e] p] eqn:E; simpl in Hf; [|done].
  injection Hf as <- <- <-. eauto.
Qed.

(** One step of the invariant checks that open the login operations. *)
Lemma current_authenticator_true p expected :
  current_authenticator p expected = Ok true →
  ∃ a, authenticators p !! authenticator_id expected = Some (Enrolled a) ∧ current a expected = true.
Proof.
  unfold current_authenticator. destruct (authenticators p !! _) as [row|]; [|done].
  intros (o & Ho & H)%res_bind_Ok. unfold enrolled in Ho. apply res_bind_Ok in Ho as (a & _ & [= <-]).
  destruct row as [c|a']; [done|]. injection H as H. eauto.
Qed.

Lemma stored_login_Some p expected c :
  stored_login p expected = Ok (Some c) →
  logins p !! id expected = Some c ∧ login_row_ok (login_issued_at p) (id expected) c.
Proof.
  unfold stored_login. destruct (logins p !! id expected) as [c'|] eqn:E; [|done].
  intros (i & Hi & (u & Hv & H)%res_bind_Ok)%res_bind_Ok. destruct u.
  destruct (String.eqb_spec (id c') (id expected)); simpl in H; [|done]. injection H as ->.
  apply login_issued_Ok in Hi as [? ?]. unfold login_row_ok. eauto 10.
Qed.

Lemma set_logins_same p lid c : logins p !! lid = Some c → set_logins p (<[lid := c]> (logins p)) = p.
Proof. intros H. unfold set_logins. rewrite insert_id by done. by destruct p. Qed.

Lemma set_authenticators_same p rid row :
  authenticators p !! rid = Some row → set_authenticators p (<[rid := row]> (authenticators p)) = p.
Proof. intros H. unfold set_authenticators. rewrite insert_id by done. by destruct p. Qed.

(** A login row that was moved on by a transition. *)
Definition login_moved p p' (lid : string) c (c' : PushLoginChallenge) : Prop :=
  logins p !! lid = Some c ∧ login_row_ok (login_issued_at p) lid c ∧
  validate_login_record c' = Ok tt ∧ p' = set_logins p (<[lid := c']> (logins p)).

Lemma login_attempt_same c expected d now c' : login_attempt c expected d now = (false, c') → c' = c.
Proof. unfold login_attempt. case_match; [by intros [= <-]|done]. Qed.

Lemma redeem_same c expected b now c' : redeem c expected b now = (false, c') → c' = c.
Proof. unfold redeem. case_match; [by intros [= <-]|done]. Qed.

Lemma resend_same c expected b n i cd now c' : resend c expected b n i cd now = (false, c') → c' = c.
Proof. unfold resend. case_match; [by intros [= <-]|done]. Qed.

Lemma registration_attempt_same row expected v now row' :
  registration_attempt row expected v now = (false, row') → row' = row.
Proof. unfold registration_attempt. destruct row; [|by intros [= <-]]. repeat case_match; intros [= <-]; done. Qed.

Lemma attempt_push_login_cases write expected d now s r s' :
  attempt_push_login write expected d now s = (r, s') →
  users s' = users s ∧
  ((r ≠ Ok true ∧ push s' = push s) ∨
   (r = Ok true ∧ current_authenticator (push s) expected = Ok true ∧
    ∃ c c', login_attempt c expected d now = (true, c') ∧
            login_moved (push s) (push s') (id expected) c c')).
Proof.
  unfold attempt_push_login.
  intros [Hu [(e & -> & Hp)|(b & Hf & ->)]]%mutate_bool_cases; (split; [done|]); [by left|].
  destruct (validate_login_record expected); [|done].
  destruct (current_authenticator (push s) expected) as [ok|] eqn:Hc; [|done].
  destruct ok; simpl in Hf; [|by injection Hf as <- <-; left].
  destruct (stored_login (push s) expected) as [[c|]|] eqn:Hs; [|by injection Hf as <- <-; left|done].
  apply stored_login_Some in Hs as [Hl Hok].
  destruct (login_attempt c expected d now) as [[] c'] eqn:Ha.
  - destruct (validate_login_record c') as [[]|] eqn:Hv; [|done]. injection Hf as <- Hp. right.
    unfold login_moved. eauto 10.
  - apply login_attempt_same in Ha as ->. injection Hf as <- Hp. left. split; [done|].
    rewrite <- Hp. by apply set_logins_same.
Qed.

Lemma redeem_push_login_cases write expected binding now s r s' :
  redeem_push_login write expected binding now s = (r, s') →
  users s' = users s ∧
  ((r ≠ Ok true ∧ push s' = push s) ∨
   (r = Ok true ∧ current_authenticator (push s) expected = Ok true ∧
    ∃ c c', redeem c expected binding now = (true, c') ∧
            login_moved (push s) (push s') (id expected) c c')).
Proof.
  unfold redeem_push_login.
  intros [Hu [(e & -> & Hp)|(b & Hf & ->)]]%mutate_bool_cases; (split; [done|]); [by left|].
  destruct (validate_login_record expected); [|done].
  destruct (verifier binding); simpl in Hf; [|by injection Hf as <- <-; left].
  destruct (current_authenticator (push s) expected) as [ok|] eqn:Hc; [|done].
  destruct ok; simpl in Hf; [|by injection Hf as <- <-; left].
  destruct (stored_login (push s) expected) as [[c|]|] eqn:Hs; [|by injection Hf as <- <-; left|done].
  apply stored_login_Some in Hs as [Hl Hok].
  destruct (redeem c expected binding now) as [[] c'] eqn:Ha.
  - destruct (validate_login_record c') as [[]|] eqn:Hv; [|done]. injection Hf as <- Hp. right.
    unfold login_moved. eauto 10.
  - apply redeem_same in Ha as ->. injection Hf as <- Hp. left. split; [done|].
    rewrite <- Hp. by apply set_logins_same.
Qed.

(** * Quotas *)

Definition sum (l : list N) : N := foldr N.add 0 l.

Lemma sum_perm l k : l ≡ₚ k → sum l = sum k.
Proof. induction 1; simpl; lia. Qed.

(** The sends of one row that fall in the window. *)
Definition row_sends p (realm user : string) (pur : PushPurpose) (start : N) (row : string * PushLoginChallenge) : N :=
  let '(lid, c) := row in
  if String.eqb (realm_id c) realm && String.eqb (user_id c) user && bool_decide (purpose c = pur) then
    (if start <=? default 0 (login_issued_at p !! lid) then 1 else 0)
    + N.of_nat (length (List.filter (fun t => start <=? t) (resend_admitted_at c)))
  else 0.

(** Sends (first issuances and resends) of a user for a purpose since [start]. *)
Definition sends_in_window p (realm user : string) (pur : PushPurpose) (start : N) : N :=
  sum (map (row_sends p realm user pur start) (map_to_list (logins p))).

Definition row_registrations p (realm user : string) (start : N) (row : string * PushAuthenticatorRecord) : N :=
  let '(rid, r) := row in
  if String.eqb (a_realm_id (row_authenticator r)) realm && String.eqb (a_user_id (row_authenticator r)) user
     && (start <=? default 0 (registration_issued_at p !! rid)) then 1 else 0.

Definition registrations_in_window p (realm user : string) (start : N) : N :=
  sum (map (row_registrations p realm user start) (map_to_list (authenticators p))).

Lemma fold_sum {A} (f : N → A → QidResult N) (g : A → N) l : ∀ n m,
  (∀ n a m, f n a = Ok m → m = n + g a) → res_foldl f n l = Ok m → m = n + sum (map g l).
Proof.
  induction l as [|a l IH]; intros n m Hf; simpl; [intros [= ->]; lia|].
  intros (k & Hk & Hl)%res_bind_Ok. rewrite (IH k m Hf Hl), (Hf _ _ _ Hk). lia.
Qed.

Lemma count_sends_Ok p realm user pur start n :
  count_sends p realm user pur start = Ok n → n = sends_in_window p realm user pur start.
Proof.
  unfold count_sends. intros H.
  apply (fold_sum _ (row_sends p realm user pur start)) in H; [rewrite H; unfold sends_in_window; lia|].
  clear. intros n [lid c] m (u & _ & H)%res_bind_Ok. unfold row_sends.
  destruct (negb _); [done|].
  destruct (String.eqb (realm_id c) realm && String.eqb (user_id c) user && bool_decide (purpose c = pur));
    [|injection H as <-; lia].
  apply res_bind_Ok in H as (i & Hi & (k & Hk & [= <-])%res_bind_Ok).
  apply login_issued_Ok in Hi as [-> _]. unfold send_count in Hk.
  apply res_bind_Ok in Hk as (_ & _ & (_ & _ & [= <-])%res_bind_Ok). done.
Qed.

Lemma count_registrations_Ok p realm user start n :
  count_registrations p realm user start = Ok n → n = registrations_in_window p realm user start.
Proof.
  unfold count_registrations. intros H.
  apply (fold_sum _ (row_registrations p realm user start)) in H; [rewrite H; unfold registrations_in_window; lia|].
  clear. intros n [rid row] m (a & Ha & H)%res_bind_Ok. apply authenticator_record_Ok in Ha as [-> _].
  unfold row_registrations.
  destruct (String.eqb (a_realm_id (row_authenticator row)) realm
            && String.eqb (a_user_id (row_authenticator row)) user); simpl; [|injection H as <-; lia].
  apply res_bind_Ok in H as (i & Hi & [= <-]). apply registration_issued_Ok in Hi as [-> _]. simpl.
  case_match; lia.
Qed.

Lemma quota_window_start_Ok created expires t mx w start :
  quota_window_start created expires t mx w = Ok start →
  start = t - (w - 1) ∧ 1 ≤ w ∧ w ≤ MAX_PUSH_WINDOW_SECONDS ∧ 0 < mx ∧ created ≤ t ∧ t < expires.
Proof.
  unfold quota_window_start, live, saturating_sub.
  destruct (N.eqb_spec mx 0), (N.leb_spec 1 w), (N.leb_spec w MAX_PUSH_WINDOW_SECONDS),
    (N.leb_spec created t), (N.ltb_spec t expires); simpl; try done.
  case_match; [done|]. intros [= <-]. repeat split; lia.
Qed.

Lemma issue_push_login_cases write c mx w sample s r s' :
  issue_push_login write c mx w sample s = (r, s') →
  users s' = users s ∧
  ((r ≠ Ok true ∧ push s' = push s) ∨
   (r = Ok true ∧ validate_login c = Ok tt ∧ current_authenticator (push s) c = Ok true ∧
    logins (push s) !! id c = None ∧
    (∃ start, quota_window_start (created_at c) (expires_at c) sample mx w = Ok start ∧
              sends_in_window (push s) (realm_id c) (user_id c) (purpose c) start < mx) ∧
    push s' = set_logins (set_login_issued (push s) (<[id c := sample]> (login_issued_at (push s))))
                (<[id c := c]> (logins (push s))))).
Proof.
  unfold issue_push_login. destruct (validate_login c) as [[]|] eqn:Hv; [|by intros [= <- <-]; auto].
  intros [Hu [(e & -> & Hp)|(b & Hf & ->)]]%mutate_bool_cases; (split; [done|]); [by left|].
  destruct (quota_window_start _ _ _ _ _) as [start|] eqn:Hq; [|done].
  destruct (logins (push s) !! id c) eqn:Hl; simpl in Hf; [done|].
  destruct (current_authenticator (push s) c) as [ok|]; [|done]. destruct ok; simpl in Hf; [|done].
  destruct (count_sends _ _ _ _ _) as [n|] eqn:Hn; [|done]. apply count_sends_Ok in Hn as ->.
  destruct (N.leb_spec mx (sends_in_window (push s) (realm_id c) (user_id c) (purpose c) start)).
  - injection Hf as <- <-. by left.
  - injection Hf as <- <-. right. eauto 10.
Qed.

Lemma issue_push_registration_cases write (c : PushRegistrationChallenge) mx w sample s r s' :
  issue_push_registration write c mx w sample s = (r, s') →
  users s' = users s ∧
  ((r ≠ Ok true ∧ push s' = push s) ∨
   (r = Ok true ∧ validate_registration c = Ok tt ∧
    authenticators (push s) !! a_id (authenticator c) = None ∧
    (∃ start, quota_window_start (a_created_at (authenticator c)) (r_expires_at c) sample mx w = Ok start ∧
       registrations_in_window (push s) (a_realm_id (authenticator c)) (a_user_id (authenticator c)) start < mx) ∧
    push s' = set_registration_issued
      (set_authenticators (push s) (<[a_id (authenticator c) := Pending c]> (authenticators (push s))))
      (<[a_id (authenticator c) := sample]> (registration_issued_at (push s))))).
Proof.
  unfold issue_push_registration. destruct (validate_registration c) as [[]|] eqn:Hv; [|by intros [= <- <-]; auto].
  intros [Hu [(e & -> & Hp)|(b & Hf & ->)]]%mutate_bool_cases; (split; [done|]); [by left|].
  destruct (quota_window_start _ _ _ _ _) as [start|] eqn:Hq; [|done].
  destruct (user_in_realm _ _ _); simpl in Hf; [|done].
  destruct (authenticators (push s) !! _) eqn:Hl; simpl in Hf; [done|].
  destruct (count_registrations _ _ _ _) as [n|] eqn:Hn; [|done]. apply count_registrations_Ok in Hn as ->.
  destruct (N.leb_spec mx (registrations_in_window (push s) (a_realm_id (authenticator c))
    (a_user_id (authenticator c)) start)).
  - injection Hf as <- <-. by left.
  - injection Hf as <- <-. right. eauto 10.
Qed.

Lemma resend_push_login_cases write expected binding nonce mx w cooldown sample s r s' :
  resend_push_login write expected binding nonce mx w cooldown sample s = (r, s') →
  users s' = users s ∧
  ((push s' = push s ∧ ∀ x, r ≠ Ok (Some x)) ∨
   (∃ c c' issued start, r = Ok (Some c') ∧ current_authenticator (push s) expected = Ok true ∧
    quota_window_start (created_at expected) (expires_at expected) sample mx w = Ok start ∧
    sends_in_window (push s) (realm_id expected) (user_id expected) (purpose expected) start < mx ∧
    login_issued (push s) (id expected) c = Ok issued ∧
    resend c expected binding nonce issued cooldown sample = (true, c') ∧
    logins (push s) !! id expected = Some c ∧ validate_login_record c' = Ok tt ∧
    push s' = set_logins (push s) (<[id expected := c']> (logins (push s))))).
Proof.
  unfold resend_push_login. destruct (validate_login_record expected) as [[]|] eqn:Hv.
  2:{ intros [= <- <-]. split; [done|]. by left. }
  intros [Hu [(e & -> & Hp)|(b & v & Hf & ->)]]%mutate_cases; (split; [done|]); [by left|].
  destruct (_ || _); [injection Hf as <- <- <-; by left|].
  destruct (quota_window_start _ _ _ _ _) as [start|] eqn:Hq; [|done].
  destruct (current_authenticator (push s) expected) as [ok|]; [|done].
  destruct ok; simpl in Hf; [|injection Hf as <- <- <-; by left].
  destruct (count_sends _ _ _ _ _) as [n|] eqn:Hn; [|done]. apply count_sends_Ok in Hn as ->.
  destruct (N.leb_spec mx (sends_in_window (push s) (realm_id expected) (user_id expected)
    (purpose expected) start)); [injection Hf as <- <- <-; by left|].
  destruct (logins (push s) !! id expected) as [c|] eqn:Hl; [|injection Hf as <- <- <-; by left].
  destruct (login_issued (push s) (id expected) c) as [i|] eqn:Hi; [|done].
  destruct (resend c expected binding nonce i cooldown sample) as [[] c'] eqn:Hr; simpl in Hf.
  - destruct (validate_login_record c') as [[]|] eqn:Hv'; [|done]. injection Hf as <- <- <-. right. eauto 15.
  - apply resend_same in Hr as ->. injection Hf as <- <- <-. left.
    split; [by apply set_logins_same|done].
Qed.


Lemma map_to_list_replace {A} (m : gmap string A) k x :
  map_to_list (<[k := x]> m) ≡ₚ (k, x) :: map_to_list (delete k m).
Proof. rewrite <- insert_delete_eq. apply map_to_list_insert, lookup_delete_eq. Qed.

Lemma map_to_list_split {A} (m : gmap string A) k x :
  m !! k = Some x → map_to_list m ≡ₚ (k, x) :: map_to_list (delete k m).
Proof. intros H. rewrite <- (insert_id m k x H) at 1. apply map_to_list_replace. Qed.

Lemma sum_map_ext {A} (f g : A → N) l : (∀ a, a ∈ l → f a = g a) → sum (map f l) = sum (map g l).
Proof.
  intros H. f_equal. apply map_ext_in. intros a Ha. by apply H, list_elem_of_In.
Qed.

Lemma sends_other p p' realm user pur start lid l :
  (∀ k, k ≠ lid → login_issued_at p' !! k = login_issued_at p !! k) →
  (∀ c', (lid, c') ∉ l) →
  sum (map (row_sends p' realm user pur start) l) = sum (map (row_sends p realm user pur start) l).
Proof.
  intros Hi Hl. apply sum_map_ext. intros [k c] Hk. unfold row_sends.
  rewrite Hi; [done|]. intros ->. by apply (Hl c).
Qed.

Lemma not_in_deleted {A} (m : gmap string A) k x : (k, x) ∉ map_to_list (delete k m).
Proof. rewrite elem_of_map_to_list. by rewrite lookup_delete_eq. Qed.

Lemma sends_after_issue p c sample start :
  logins p !! id c = None → resend_admitted_at c = [] → start ≤ sample →
  sends_in_window (set_logins (set_login_issued p (<[id c := sample]> (login_issued_at p)))
      (<[id c := c]> (logins p))) (realm_id c) (user_id c) (purpose c) start
  = sends_in_window p (realm_id c) (user_id c) (purpose c) start + 1.
Proof.
  intros Hn Hr Hle. unfold sends_in_window. simpl.
  rewrite (sum_perm _ _ (Permutation_map _ (map_to_list_replace (logins p) (id c) c))).
  rewrite delete_id by done. cbn [map sum foldr]. fold (sum (map (row_sends
    (set_logins (set_login_issued p (<[id c := sample]> (login_issued_at p))) (<[id c := c]> (logins p)))
    (realm_id c) (user_id c) (purpose c) start) (map_to_list (logins p)))).
  rewrite (sends_other p _ _ _ _ _ (id c)).
  - unfold row_sends at 1. simpl. rewrite !String.eqb_refl, bool_decide_true, lookup_insert_eq, Hr by done.
    simpl. rewrite (proj2 (N.leb_le start sample)) by done. lia.
  - intros k Hk. simpl. by rewrite lookup_insert_ne.
  - intros c'. rewrite elem_of_map_to_list. by rewrite Hn.
Qed.

Lemma sends_after_resend p lid c c' now start realm user :
  logins p !! lid = Some c → realm_id c = realm → user_id c = user →
  realm_id c' = realm_id c → user_id c' = user_id c → purpose c' = purpose c →
  resend_admitted_at c' = resend_admitted_at c ++ [now] → start ≤ now →
  sends_in_window (set_logins p (<[lid := c']> (logins p))) realm user (purpose c) start
  = sends_in_window p realm user (purpose c) start + 1.
Proof.
  intros Hl <- <- Hr Hu Hp Ha Hle. unfold sends_in_window. simpl.
  rewrite (sum_perm _ _ (Permutation_map _ (map_to_list_replace (logins p) lid c'))).
  rewrite (sum_perm _ _ (Permutation_map _ (map_to_list_split (logins p) lid c Hl))).
  cbn [map sum foldr]. fold (sum (map (row_sends p (realm_id c) (user_id c) (purpose c) start)
    (map_to_list (delete lid (logins p))))).
  match goal with |- _ + ?x = _ => assert (x = sum (map (row_sends p (realm_id c) (user_id c) (purpose c) start)
    (map_to_list (delete lid (logins p))))) as -> end.
  { apply (sends_other p _ _ _ _ _ lid); [done|]. intros x. apply not_in_deleted. }
  unfold row_sends at 1 3. simpl. rewrite Hr, Hu, Hp, !String.eqb_refl, bool_decide_true, Ha by done.
  simpl. rewrite List.filter_app, length_app. simpl. rewrite (proj2 (N.leb_le start now)) by done. simpl. lia.
Qed.

Lemma registrations_after_issue p (c : PushRegistrationChallenge) sample start :
  let a := authenticator c in
  authenticators p !! a_id a = None → start ≤ sample →
  registrations_in_window (set_registration_issued
      (set_authenticators p (<[a_id a := Pending c]> (authenticators p)))
      (<[a_id a := sample]> (registration_issued_at p))) (a_realm_id a) (a_user_id a) start
  = registrations_in_window p (a_realm_id a) (a_user_id a) start + 1.
Proof.
  intros a Hn Hle. unfold registrations_in_window. simpl.
  rewrite (sum_perm _ _ (Permutation_map _ (map_to_list_replace (authenticators p) (a_id a) (Pending c)))).
  rewrite delete_id by done. cbn [map sum foldr].
  match goal with |- _ + ?x = _ => assert (x = sum (map (row_registrations p (a_realm_id a) (a_user_id a) start)
    (map_to_list (authenticators p)))) as -> end.
  { apply sum_map_ext. intros [k row] Hk%elem_of_map_to_list. unfold row_registrations. simpl.
    rewrite lookup_insert_ne; [done|]. intros <-. congruence. }
  unfold row_registrations at 1. simpl. rewrite !String.eqb_refl, lookup_insert_eq. simpl.
  rewrite (proj2 (N.leb_le start sample)) by done. lia.
Qed.

Lemma resend_true c expected b n i cd now c' :
  resend c expected b n i cd now = (true, c') →
  same_login c expected = true ∧ b = browser_binding_verifier c ∧ live (created_at c) (expires_at c) now = true ∧
  0 < cd ∧ default i (last (resend_admitted_at c)) + cd ≤ now ∧
  decision c = None ∧ consumed_at c = None ∧ attempt_count c < max_attempts c ∧
  realm_id c' = realm_id c ∧ user_id c' = user_id c ∧ purpose c' = purpose c ∧ id c' = id c ∧
  created_at c' = created_at c ∧ expires_at c' = expires_at c ∧
  resend_admitted_at c' = resend_admitted_at c ++ [now] ∧ consumed_at c' = None.
Proof.
  unfold resend. case_match eqn:E; [done|]. intros [= <-]. simpl.
  rewrite !orb_false_iff, !negb_false_iff in E. (destruct_and! E).
  repeat match goal with
    | H : (_ =? _) = false |- _ => apply N.eqb_neq in H
    | H : (_ <? _) = false |- _ => apply N.ltb_ge in H
    | H : (_ <=? _) = false |- _ => apply N.leb_gt in H
    | H : is_some ?o = false |- _ => unfold is_some in H; let H1 := fresh in destruct o eqn:H1; [done|]
    | H : constant_time_eq _ _ = true |- _ => apply constant_time_eq_spec in H
    end.
  unfold saturating_sub in *. repeat split; try done; lia.
Qed.


Lemma same_login_true c expected :
  same_login c expected = true →
  expected = with_progress c (attempt_count expected) (decision expected) (decided_at expected)
               (consumed_at expected).
Proof. unfold same_login. by intros ?%bool_decide_eq_true. Qed.

(** The issuance quotas hold at every admission: when a login challenge is
    issued or resent, or a registration is issued, the user's sends (first
    issuances and resends together; registrations for a registration) in the window
    that ends at the admission grow by exactly one and are then at most
    [max_issuances]. *)
Theorem push_quota_respected write mx w sample s :
  (∀ c s', issue_push_login write c mx w sample s = (Ok true, s') →
     let n q := sends_in_window (push q) (realm_id c) (user_id c) (purpose c) (sample - (w - 1)) in
     n s' = n s + 1 ∧ n s' ≤ mx) ∧
  (∀ expected binding nonce cooldown c' s',
     resend_push_login write expected binding nonce mx w cooldown sample s = (Ok (Some c'), s') →
     let n q := sends_in_window (push q) (realm_id expected) (user_id expected) (purpose expected)
                  (sample - (w - 1)) in
     n s' = n s + 1 ∧ n s' ≤ mx) ∧
  (∀ (c : PushRegistrationChallenge) s', issue_push_registration write c mx w sample s = (Ok true, s') →
     let n q := registrations_in_window (push q) (a_realm_id (authenticator c))
                  (a_user_id (authenticator c)) (sample - (w - 1)) in
     n s' = n s + 1 ∧ n s' ≤ mx).
Proof.
  split; [|split].
  - intros c s' [_ [[? _]|(_ & Hv & _ & Hl & (start & Hq & Hlt) & Hp)]]%issue_push_login_cases; [done|].
    apply quota_window_start_Ok in Hq as (-> & _). simpl. rewrite Hp, sends_after_issue; [lia|done| |lia].
    unfold validate_login in Hv. destruct (resend_admitted_at c); [done|].
    rewrite orb_true_r in Hv. done.
  - intros expected binding nonce cooldown c' s'
      [_ [[_ Hn]|(c & c'' & i & start & _ & _ & Hq & Hlt & _ & Hr & Hl & _ & Hp)]]%resend_push_login_cases;
      [by destruct (Hn c')|].
    apply quota_window_start_Ok in Hq as (-> & _). simpl.
    apply resend_true in Hr as (Hs & _ & _ & _ & _ & _ & _ & _ & Hrr & Hru & Hrp & _ & _ & _ & Hra & _).
    pose proof (same_login_true _ _ Hs) as He.
    assert (realm_id expected = realm_id c ∧ user_id expected = user_id c ∧ purpose expected = purpose c)
      as (Her & Heu & Hep) by (by rewrite He).
    rewrite Hp, Hep, (sends_after_resend (push s) (id expected) c c'' sample) by (done || lia).
    rewrite Hep in Hlt. lia.
  - intros c s' [_ [[? _]|(_ & Hv & Hl & (start & Hq & Hlt) & Hp)]]%issue_push_registration_cases; [done|].
    apply quota_window_start_Ok in Hq as (-> & _). simpl. rewrite Hp, registrations_after_issue by (done || lia). lia.
Qed.

Lemma attempt_push_registration_cases write (expected : PushRegistrationChallenge) verified now s r s' :
  attempt_push_registration write expected verified now s = (r, s') →
  users s' = users s ∧
  ((r ≠ Ok true ∧ push s' = push s) ∨
   (r = Ok true ∧ ∃ row row' issued,
      authenticators (push s) !! a_id (authenticator expected) = Some row ∧
      registration_issued (push s) (a_id (authenticator expected)) row = Ok issued ∧ issued ≤ now ∧
      registration_attempt row expected verified now = (true, row') ∧
      (∃ a, authenticator_record row' (a_id (authenticator expected)) = Ok a) ∧
      push s' = set_authenticators (push s)
        (<[a_id (authenticator expected) := row']> (authenticators (push s))))).
Proof.
  unfold attempt_push_registration.
  intros [Hu [(e & -> & Hp)|(b & Hf & ->)]]%mutate_bool_cases; (split; [done|]); [by left|].
  cbv zeta in Hf. destruct (negb _); [injection Hf as <- <-; by left|].
  destruct (validate_registration_record expected); [|done].
  destruct (authenticators (push s) !! _) as [row|] eqn:Hl; [|injection Hf as <- <-; by left].
  destruct (authenticator_record row _); [|done].
  destruct (registration_issued _ _ _) as [i|] eqn:Hi; [|done].
  destruct (N.ltb_spec now i); [injection Hf as <- <-; by left|].
  destruct (registration_attempt row expected verified now) as [[] row'] eqn:Ha; simpl in Hf.
  - destruct (authenticator_record row' _) eqn:Hv; [|done]. injection Hf as <- <-. right. eauto 15.
  - apply registration_attempt_same in Ha as ->. injection Hf as <- <-. left. split; [done|].
    by apply set_authenticators_same.
Qed.

Lemma revoke_push_authenticator_cases write realm user aid now s r s' :
  revoke_push_authenticator write realm user aid now s = (r, s') →
  users s' = users s ∧
  ((r ≠ Ok true ∧ push s' = push s) ∨
   (r = Ok true ∧ ∃ a, authenticators (push s) !! aid = Some (Enrolled a) ∧ a_id a = aid ∧
      a_realm_id a = realm ∧ a_user_id a = user ∧ revoked_at a = None ∧ a_created_at a ≤ now ∧
      validate_authenticator_record (with_revoked_at a (Some now)) = Ok tt ∧
      push s' = set_authenticators (push s)
        (<[aid := Enrolled (with_revoked_at a (Some now))]> (authenticators (push s))))).
Proof.
  unfold revoke_push_authenticator.
  intros [Hu [(e & -> & Hp)|(b & Hf & ->)]]%mutate_bool_cases; (split; [done|]); [by left|].
  destruct (authenticators (push s) !! aid) as [row|] eqn:Hl; [|injection Hf as <- <-; by left].
  destruct (authenticator_record row aid) as [a0|] eqn:Hr; [|done].
  destruct row as [c|a]; [injection Hf as <- <-; by left|].
  apply authenticator_record_Ok in Hr as [-> Hid]. simpl in Hid.
  destruct (negb (String.eqb (a_realm_id a) realm) || _ || _ || _) eqn:E; [injection Hf as <- <-; by left|].
  rewrite !orb_false_iff, !negb_false_iff, !String.eqb_eq, N.ltb_ge in E.
  destruct E as (((Hre & Hus) & Hrev) & Hnow).
  destruct (validate_authenticator_record (with_revoked_at a (Some now))) as [[]|] eqn:Hv; [|done].
  injection Hf as <- <-. right. split; [done|]. exists a.
  unfold is_some, is_none in Hrev. destruct (revoked_at a); [done|]. eauto 15.
Qed.


(** * Cleanup *)

Lemma heap_step_spec limit selected key :
  (length selected ≤ limit)%nat →
  (length (heap_step limit selected key) ≤ limit)%nat ∧
  ∀ x, x ∈ heap_step limit selected key → x = key ∨ x ∈ selected.
Proof.
  intros Hl. unfold heap_step. destruct (Nat.ltb_spec (length selected) limit) as [H|H].
  - rewrite (Permutation_length (sort_insert_perm key_leb key selected)). simpl. split; [lia|].
    intros x. rewrite sort_insert_perm, elem_of_cons. done.
  - destruct (last selected) as [largest|] eqn:E; [|auto]. case_match; [|auto].
    apply last_Some in E as [l ->]. rewrite removelast_last, length_app in *. simpl in *.
    rewrite (Permutation_length (sort_insert_perm key_leb key l)). simpl. split; [lia|].
    intros x. rewrite sort_insert_perm, elem_of_cons, elem_of_app. tauto.
Qed.

Lemma select_oldest_spec candidates limit :
  (length (select_oldest candidates limit) ≤ limit)%nat ∧
  ∀ x, x ∈ select_oldest candidates limit → ∃ n, (n, x) ∈ candidates.
Proof.
  unfold select_oldest. rewrite length_map.
  assert (∀ sel, (length sel ≤ limit)%nat → (length (foldl (heap_step limit) sel candidates) ≤ limit)%nat ∧
    ∀ y, y ∈ foldl (heap_step limit) sel candidates → y ∈ sel ∨ y ∈ candidates) as H.
  { induction candidates as [|k l IH]; intros sel Hs; simpl; [auto|].
    destruct (heap_step_spec limit sel k Hs) as [Hs' Hin]. destruct (IH _ Hs') as [? Hl].
    split; [done|]. intros y [Hy%Hin|Hy]%Hl; rewrite elem_of_cons; naive_solver. }
  destruct (H []) as [Hlen Hin]; [simpl; lia|]. split; [done|].
  intros x ([n y] & -> & Hy%Hin)%elem_of_map. destruct Hy as [Hy|Hy]; [by apply not_elem_of_nil in Hy|].
  by exists n.
Qed.

Lemma res_foldl_each {A} (f : unit → A → QidResult unit) l u :
  res_foldl f u l = Ok tt → ∀ a, a ∈ l → f tt a = Ok tt.
Proof.
  destruct u. induction l as [|x l IH]; simpl; [by intros _ a ?%not_elem_of_nil|].
  intros ([] & Hx & Hl)%res_bind_Ok a [->|Ha]%elem_of_cons; auto.
Qed.

Lemma validated_store p : validate_registrations p = Ok tt → validate_logins p = Ok tt → store_ok p.
Proof.
  intros Hr Hl. split.
  - intros rid row Hrow. pose proof (res_foldl_each _ _ _ Hr (rid, row)) as H.
    apply res_bind_Ok in H as (a & Ha & (i & Hi & _)%res_bind_Ok); [|by apply elem_of_map_to_list].
    destruct (authenticator_record_Ok _ _ _ Ha) as [-> _]. split; [done|].
    apply registration_issued_Ok in Hi. eauto.
  - intros lid c Hc. pose proof (res_foldl_each _ _ _ Hl (lid, c)) as H.
    apply res_bind_Ok in H as ([] & Hv & H); [|by apply elem_of_map_to_list].
    destruct (String.eqb_spec (id c) lid); simpl in H; [|done].
    apply res_bind_Ok in H as (i & Hi & _). apply login_issued_Ok in Hi. unfold login_row_ok. eauto.
Qed.

Lemma remove_registrations_lookup ids : ∀ p,
  logins (remove_registrations p ids) = logins p ∧
  login_issued_at (remove_registrations p ids) = login_issued_at p ∧
  ∀ k, authenticators (remove_registrations p ids) !! k
         = (if bool_decide (k ∈ ids) then None else authenticators p !! k) ∧
       registration_issued_at (remove_registrations p ids) !! k
         = (if bool_decide (k ∈ ids) then None else registration_issued_at p !! k).
Proof.
  induction ids as [|i ids IH]; intros p; [done|]. unfold remove_registrations in *. simpl.
  destruct (IH (set_registration_issued (set_authenticators p (delete i (authenticators p)))
    (delete i (registration_issued_at p)))) as (-> & -> & Hk).
  split; [done|]. split; [done|]. intros k. destruct (Hk k) as [-> ->]. simpl.
  destruct (decide (k = i)) as [->|Hne].
  - rewrite !lookup_delete_eq, (bool_decide_true (i ∈ i :: ids)) by left. by case_match.
  - rewrite !lookup_delete_ne by done. by repeat case_bool_decide; try set_solver.
Qed.

Lemma remove_logins_lookup ids : ∀ p,
  authenticators (remove_logins p ids) = authenticators p ∧
  registration_issued_at (remove_logins p ids) = registration_issued_at p ∧
  ∀ k, logins (remove_logins p ids) !! k = (if bool_decide (k ∈ ids) then None else logins p !! k) ∧
       login_issued_at (remove_logins p ids) !! k
         = (if bool_decide (k ∈ ids) then None else login_issued_at p !! k).
Proof.
  induction ids as [|i ids IH]; intros p; [done|]. unfold remove_logins in *. simpl.
  destruct (IH (set_login_issued (set_logins p (delete i (logins p)))
    (delete i (login_issued_at p)))) as (-> & -> & Hk).
  split; [done|]. split; [done|]. intros k. destruct (Hk k) as [-> ->]. simpl.
  destruct (decide (k = i)) as [->|Hne].
  - rewrite !lookup_delete_eq, (bool_decide_true (i ∈ i :: ids)) by left. by case_match.
  - rewrite !lookup_delete_ne by done. by repeat case_bool_decide; try set_solver.
Qed.

Lemma restore_registrations_lookup before ids : ∀ p,
  (∀ k, k ∈ ids → is_Some (authenticators before !! k) ∧ is_Some (registration_issued_at before !! k)) →
  logins (restore_registrations p before ids) = logins p ∧
  login_issued_at (restore_registrations p before ids) = login_issued_at p ∧
  ∀ k, authenticators (restore_registrations p before ids) !! k
         = (if bool_decide (k ∈ ids) then authenticators before !! k else authenticators p !! k) ∧
       registration_issued_at (restore_registrations p before ids) !! k
         = (if bool_decide (k ∈ ids) then registration_issued_at before !! k
            else registration_issued_at p !! k).
Proof.
  induction ids as [|i ids IH]; intros p Hids; [done|]. unfold restore_registrations in *. simpl.
  destruct (Hids i) as [[row Hrow] [n Hn]]; [left|]. rewrite Hrow, Hn.
  destruct (IH (set_authenticators (set_registration_issued p (<[i := n]> (registration_issued_at p)))
    (<[i := row]> (authenticators p)))) as (-> & -> & Hk); [intros k Hk; apply Hids; by right|].
  split; [done|]. split; [done|]. intros k. destruct (Hk k) as [-> ->]. simpl.
  destruct (decide (k = i)) as [->|Hne].
  - rewrite !lookup_insert_eq, (bool_decide_true (i ∈ i :: ids)) by left. rewrite Hrow, Hn. by case_match.
  - rewrite !lookup_insert_ne by done. by repeat case_bool_decide; try set_solver.
Qed.

Lemma restore_logins_lookup before ids : ∀ p,
  (∀ k, k ∈ ids → is_Some (logins before !! k) ∧ is_Some (login_issued_at before !! k)) →
  authenticators (restore_logins p before ids) = authenticators p ∧
  registration_issued_at (restore_logins p before ids) = registration_issued_at p ∧
  ∀ k, logins (restore_logins p before ids) !! k
         = (if bool_decide (k ∈ ids) then logins before !! k else logins p !! k) ∧
       login_issued_at (restore_logins p before ids) !! k
         = (if bool_decide (k ∈ ids) then login_issued_at before !! k else login_issued_at p !! k).
Proof.
  induction ids as [|i ids IH]; intros p Hids; [done|]. unfold restore_logins in *. simpl.
  destruct (Hids i) as [[c Hc] [n Hn]]; [left|]. rewrite Hc, Hn.
  destruct (IH (set_logins (set_login_issued p (<[i := n]> (login_issued_at p)))
    (<[i := c]> (logins p)))) as (-> & -> & Hk); [intros k Hk; apply Hids; by right|].
  split; [done|]. split; [done|]. intros k. destruct (Hk k) as [-> ->]. simpl.
  destruct (decide (k = i)) as [->|Hne].
  - rewrite !lookup_insert_eq, (bool_decide_true (i ∈ i :: ids)) by left. rewrite Hc, Hn. by case_match.
  - rewrite !lookup_insert_ne by done. by repeat case_bool_decide; try set_solver.
Qed.


Lemma expired_registrations_spec p now cutoff n rid :
  (n, rid) ∈ expired_registrations p now cutoff →
  ∃ c : PushRegistrationChallenge, authenticators p !! rid = Some (Pending c) ∧ n = default 0 (registration_issued_at p !! rid) ∧
       r_expires_at c ≤ now ∧ n < cutoff.
Proof.
  unfold expired_registrations. rewrite list_elem_of_omap. intros ([k row] & Hin%elem_of_map_to_list & H).
  destruct row as [c|a]; [|done]. cbv zeta in H.
  destruct (N.leb_spec (r_expires_at c) now), (N.ltb_spec (default 0 (registration_issued_at p !! k)) cutoff);
    simpl in H; try done. injection H as <- <-. eauto.
Qed.

Lemma expired_logins_spec p cutoff n lid :
  (n, lid) ∈ expired_logins p cutoff →
  ∃ c, logins p !! lid = Some c ∧ expires_at c < cutoff.
Proof.
  unfold expired_logins. rewrite list_elem_of_omap. intros ([k c] & Hin%elem_of_map_to_list & H).
  cbv zeta in H. destruct (N.ltb_spec (expires_at c) cutoff); [|done]. injection H as _ <-. eauto.
Qed.

(** The rows a cleanup with this cutoff may remove. *)
Definition removable p (now cutoff : N) (regs lgs : list string) : Prop :=
  (∀ k, k ∈ regs → ∃ c : PushRegistrationChallenge, authenticators p !! k = Some (Pending c) ∧ r_expires_at c ≤ now ∧
     default 0 (registration_issued_at p !! k) < cutoff) ∧
  (∀ k, k ∈ lgs → ∃ c, logins p !! k = Some c ∧ expires_at c < cutoff).

(** Rolling back a cleanup gives the store back. *)
Lemma restored p now cutoff regs lgs :
  store_ok p → removable p now cutoff regs lgs →
  restore_logins (restore_registrations (remove_logins (remove_registrations p regs) lgs) p regs) p lgs = p.
Proof.
  intros [Hauth Hlog] [Hregs Hlgs].
  assert (∀ k, k ∈ regs → is_Some (authenticators p !! k) ∧ is_Some (registration_issued_at p !! k)) as Hr.
  { intros k (c & Hk & _)%Hregs. destruct (Hauth _ _ Hk) as (_ & i & Hi & _). eauto. }
  assert (∀ k, k ∈ lgs → is_Some (logins p !! k) ∧ is_Some (login_issued_at p !! k)) as Hl.
  { intros k (c & Hk & _)%Hlgs. destruct (Hlog _ _ Hk) as (_ & _ & i & Hi & _). eauto. }
  destruct (restore_logins_lookup p lgs (restore_registrations
    (remove_logins (remove_registrations p regs) lgs) p regs) Hl) as (H1 & H2 & H3).
  destruct (restore_registrations_lookup p regs (remove_logins (remove_registrations p regs) lgs) Hr)
    as (H4 & H5 & H6).
  destruct (remove_logins_lookup lgs (remove_registrations p regs)) as (H7 & H8 & H9).
  destruct (remove_registrations_lookup regs p) as (H10 & H11 & H12).
  set (q := restore_logins _ _ _) in *. rewrite H4 in H3. rewrite H5 in H3. rewrite H7, H8 in H6.
  rewrite H10, H11 in H9. clear H4 H5 H7 H8 H10 H11 Hauth Hlog Hregs Hlgs.
  assert (authenticators q = authenticators p ∧ registration_issued_at q = registration_issued_at p
    ∧ logins q = logins p ∧ login_issued_at q = login_issued_at p) as (E1 & E2 & E3 & E4).
  { rewrite H1, H2. repeat split; apply map_eq; intros k;
      destruct (H3 k) as [H3a H3b], (H6 k) as [H6a H6b], (H9 k) as [H9a H9b], (H12 k) as [H12a H12b].
    - rewrite H6a, H12a. by destruct (bool_decide (k ∈ regs)).
    - rewrite H6b, H12b. by destruct (bool_decide (k ∈ regs)).
    - rewrite H3a, H9a. by destruct (bool_decide (k ∈ lgs)).
    - rewrite H3b, H9b. by destruct (bool_decide (k ∈ lgs)). }
  clear -E1 E2 E3 E4. clearbody q. destruct q, p; simpl in *; congruence.
Qed.

Lemma cleanup_cases write now limit s r s' :
  cleanup_expired_push_records write now limit s = (r, s') →
  users s' = users s ∧
  (push s' = push s ∧ (∀ n, r = Ok n → n = 0) ∨
   ∃ regs lgs, store_ok (push s) ∧ removable (push s) now (now - MAX_PUSH_WINDOW_SECONDS) regs lgs ∧
     N.of_nat (length regs + length lgs) ≤ limit ∧
     r = Ok (N.of_nat (length regs + length lgs)) ∧
     push s' = remove_logins (remove_registrations (push s) regs) lgs).
Proof.
  assert (∀ e (Q : Prop), (Err e, s) = (r, s') → users s' = users s ∧
    (push s' = push s ∧ (∀ n, r = Ok n → n = 0) ∨ Q)) as unchanged.
  { intros e Q [= <- <-]. split; [done|]. by left. }
  unfold cleanup_expired_push_records, cleanup_cutoff.
  destruct (_ || negb (fits_i64 now)) eqn:E; [by apply unchanged|].
  destruct (validate_registrations (push s)) as [[]|] eqn:Hr; [|by apply unchanged].
  destruct (validate_logins (push s)) as [[]|] eqn:Hl; [|by apply unchanged].
  pose proof (validated_store _ Hr Hl) as Hok. unfold saturating_sub. cbv zeta.
  set (cutoff := now - MAX_PUSH_WINDOW_SECONDS).
  set (regs := select_oldest (expired_registrations (push s) now cutoff) (N.to_nat limit)).
  set (lgs := match (N.to_nat limit - length regs)%nat with O => [] | _ => _ end).
  assert (length regs ≤ N.to_nat limit ∧ ∀ k, k ∈ regs → ∃ n, (n, k) ∈ expired_registrations (push s) now cutoff)%nat
    as [Hrl Hrin] by apply select_oldest_spec.
  assert (length lgs ≤ N.to_nat limit - length regs ∧ ∀ k, k ∈ lgs → ∃ n, (n, k) ∈ expired_logins (push s) cutoff)%nat
    as [Hll Hlin].
  { unfold lgs. destruct (N.to_nat limit - length regs)%nat eqn:E'; [|apply select_oldest_spec].
    split; [done|]. by intros k ?%not_elem_of_nil. }
  assert (removable (push s) now cutoff regs lgs) as Hrem.
  { split; intros k Hk.
    - apply Hrin in Hk as [n Hk]. apply expired_registrations_spec in Hk as (c & ? & -> & ? & ?). eauto.
    - apply Hlin in Hk as [n Hk]. by apply expired_logins_spec in Hk. }
  clearbody regs lgs.
  destruct (N.of_nat (length regs + length lgs) =? 0); [intros [= <- <-]; split; [done|]; left; by split; [|intros n [= <-]]|].
  destruct write as [u|e]; intros [= <- <-]; simpl; (split; [done|]).
  - right. exists regs, lgs. repeat (split; [done|]). split; [lia|]. done.
  - left. split; [|done]. by eapply restored.
Qed.


Lemma sum_filter_zero {A} (f : A → N) (q : A → bool) l :
  (∀ a, a ∈ l → q a = false → f a = 0) → sum (map f (List.filter q l)) = sum (map f l).
Proof.
  induction l as [|a l IH]; intros H; simpl; [done|].
  destruct (q a) eqn:E; simpl; rewrite IH by (intros b Hb; apply H; by right); [done|].
  rewrite (H a) by (done || left). lia.
Qed.

Lemma submap_list {A} (m m' : gmap string A) :
  m' ⊆ m → map_to_list m' ≡ₚ List.filter (fun '(k, _) => bool_decide (is_Some (m' !! k))) (map_to_list m).
Proof.
  intros Hsub. apply NoDup_Permutation.
  - apply NoDup_map_to_list.
  - assert (∀ (q : string * A → bool) l, NoDup l → NoDup (List.filter q l)) as Hf; [|apply Hf, NoDup_map_to_list].
    intros q l. induction l as [|x l IH]; simpl; [done|]. intros [Hx Hl]%NoDup_cons.
    destruct (q x); [|auto]. constructor; [|auto]. by intros [? _]%elem_of_lfilter.
  - intros [k x]. rewrite elem_of_lfilter, !elem_of_map_to_list, bool_decide_eq_true. split.
    + intros Hk. split; [by eapply lookup_weaken|by eauto].
    + intros [Hk [y Hy]]. pose proof (lookup_weaken _ _ _ _ Hy Hsub). congruence.
Qed.

Lemma sends_submap p p' realm user pur start :
  logins p' ⊆ logins p →
  (∀ k c, logins p' !! k = Some c → login_issued_at p' !! k = login_issued_at p !! k) →
  (∀ k c, logins p !! k = Some c → logins p' !! k = None → row_sends p realm user pur start (k, c) = 0) →
  sends_in_window p' realm user pur start = sends_in_window p realm user pur start.
Proof.
  intros Hsub Hi H0. unfold sends_in_window.
  transitivity (sum (map (row_sends p realm user pur start) (map_to_list (logins p')))).
  - apply sum_map_ext. intros [k c] Hk%elem_of_map_to_list. unfold row_sends. by rewrite (Hi k c Hk).
  - rewrite (sum_perm _ _ (Permutation_map _ (submap_list _ _ Hsub))). apply sum_filter_zero.
    intros [k c] Hk%elem_of_map_to_list Hn%bool_decide_eq_false. apply H0; [done|].
    destruct (logins p' !! k); [|done]. destruct Hn. eauto.
Qed.

Lemma registrations_submap p p' realm user start :
  authenticators p' ⊆ authenticators p →
  (∀ k row, authenticators p' !! k = Some row → registration_issued_at p' !! k = registration_issued_at p !! k) →
  (∀ k row, authenticators p !! k = Some row → authenticators p' !! k = None →
     row_registrations p realm user start (k, row) = 0) →
  registrations_in_window p' realm user start = registrations_in_window p realm user start.
Proof.
  intros Hsub Hi H0. unfold registrations_in_window.
  transitivity (sum (map (row_registrations p realm user start) (map_to_list (authenticators p')))).
  - apply sum_map_ext. intros [k row] Hk%elem_of_map_to_list. unfold row_registrations. by rewrite (Hi k row Hk).
  - rewrite (sum_perm _ _ (Permutation_map _ (submap_list _ _ Hsub))). apply sum_filter_zero.
    intros [k row] Hk%elem_of_map_to_list Hn%bool_decide_eq_false. apply H0; [done|].
    destruct (authenticators p' !! k); [|done]. destruct Hn. eauto.
Qed.

(** What is left after the removal of [regs] and [lgs]. *)
Lemma removed_lookup p regs lgs :
  let p' := remove_logins (remove_registrations p regs) lgs in
  (∀ k, authenticators p' !! k = (if bool_decide (k ∈ regs) then None else authenticators p !! k) ∧
        registration_issued_at p' !! k = (if bool_decide (k ∈ regs) then None else registration_issued_at p !! k)) ∧
  (∀ k, logins p' !! k = (if bool_decide (k ∈ lgs) then None else logins p !! k) ∧
        login_issued_at p' !! k = (if bool_decide (k ∈ lgs) then None else login_issued_at p !! k)).
Proof.
  intros p'. destruct (remove_logins_lookup lgs (remove_registrations p regs)) as (H1 & H2 & H3).
  destruct (remove_registrations_lookup regs p) as (H4 & H5 & H6). fold p' in H1, H2, H3.
  rewrite H1, H2. split; [done|]. intros k. by rewrite <- H4, <- H5.
Qed.

Lemma login_row_times issued lid c t :
  login_row_ok issued lid c → t ∈ resend_admitted_at c ∨ issued !! lid = Some t → t < expires_at c.
Proof.
  intros (Hv & _ & i & Hi & Hiss) [Ht|Ht].
  - unfold validate_login_record, login_fields_valid in Hv.
    destruct (negb _) eqn:E; [done|]. apply negb_false_iff in E.
    rewrite !andb_true_iff in E. destruct E as [[[[[_ Hall] _] _] _] _].
    rewrite forallb_elem_of in Hall. specialize (Hall t Ht).
    rewrite !andb_true_iff in Hall. destruct Hall as [[_ Hlt%N.ltb_lt] _]. done.
  - rewrite Hi in Ht. injection Ht as ->. unfold validate_login_issued in Hiss.
    destruct (N.leb_spec (expires_at c) t); [|done]. rewrite orb_true_r in Hiss. done.
Qed.

Lemma row_sends_zero c p lid realm user pur start :
  login_row_ok (login_issued_at p) lid c → expires_at c ≤ start →
  row_sends p realm user pur start (lid, c) = 0.
Proof.
  intros Hok Hx. unfold row_sends. case_match; [|done].
  pose proof Hok as (_ & _ & i & Hi & _). rewrite Hi. simpl.
  pose proof (login_row_times _ _ _ i Hok (or_intror Hi)).
  rewrite (proj2 (N.leb_gt start i)) by lia.
  replace (List.filter _ _) with (@nil N); [done|]. symmetry. apply lfilter_nil. intros t Ht.
  pose proof (login_row_times _ _ _ t Hok (or_introl Ht)). apply N.leb_gt. lia.
Qed.

(** Expiry cleanup deletes at most [limit] rows, and only pending
    registrations and logins that have expired; no deletion can be noticed by a
    quota: for every window the admission operations accept that ends at the cleanup
    or later, the counts of sends and registrations are unchanged.  When the write
    fails the store is exactly what it was. *)
Theorem cleanup_preserves_quotas write now limit s r s' :
  cleanup_expired_push_records write now limit s = (r, s') →
  users s' = users s ∧ authenticators (push s') ⊆ authenticators (push s) ∧
  logins (push s') ⊆ logins (push s) ∧
  (∀ k a, authenticators (push s) !! k = Some (Enrolled a) → authenticators (push s') !! k = Some (Enrolled a)) ∧
  (∀ k c, logins (push s) !! k = Some c → now < expires_at c → logins (push s') !! k = Some c) ∧
  (∀ n, r = Ok n → n ≤ limit) ∧ (∀ e, r = Err e → push s' = push s) ∧
  ∀ realm user pur t w, now ≤ t → 1 ≤ w → w ≤ MAX_PUSH_WINDOW_SECONDS →
    sends_in_window (push s') realm user pur (t - (w - 1)) = sends_in_window (push s) realm user pur (t - (w - 1)) ∧
    registrations_in_window (push s') realm user (t - (w - 1))
      = registrations_in_window (push s) realm user (t - (w - 1)).
Proof.
  intros [Hu [[Hp Hn]|(regs & lgs & [Hauth Hlog] & [Hregs Hlgs] & Hlim & -> & Hp)]]%cleanup_cases.
  { rewrite Hp. repeat (split; [done|]). split; [intros n Hr; rewrite (Hn n Hr); lia|done]. }
  destruct (removed_lookup (push s) regs lgs) as [Ha Hl]. rewrite <- Hp in Ha, Hl.
  unfold MAX_PUSH_WINDOW_SECONDS in *.
  split; [done|]. split; [|split; [|split; [|split; [|split; [|split]]]]].
  - apply map_subseteq_spec. intros k x. destruct (Ha k) as [-> _]. by case_bool_decide.
  - apply map_subseteq_spec. intros k x. destruct (Hl k) as [-> _]. by case_bool_decide.
  - intros k a Hk. destruct (Ha k) as [-> _]. case_bool_decide as Hin; [|done].
    destruct (Hregs k Hin) as (c & Hc & _). congruence.
  - intros k c Hk Hx. destruct (Hl k) as [-> _]. case_bool_decide as Hin; [|done].
    destruct (Hlgs k Hin) as (c' & Hc & ?). simplify_eq. lia.
  - by intros n [= <-].
  - done.
  - intros realm user pur t w Ht H1 Hw. split.
    + apply sends_submap.
      * apply map_subseteq_spec. intros k x. destruct (Hl k) as [-> _]. by case_bool_decide.
      * intros k c. destruct (Hl k) as [-> ->]. by case_bool_decide.
      * intros k c Hk Hnone. destruct (Hl k) as [Hlk _]. rewrite Hlk in Hnone.
        case_bool_decide as Hin; [|congruence]. destruct (Hlgs k Hin) as (c' & Hc & Hx).
        assert (c' = c) as -> by congruence. apply (row_sends_zero c); [by apply Hlog|lia].
    + apply registrations_submap.
      * apply map_subseteq_spec. intros k x. destruct (Ha k) as [-> _]. by case_bool_decide.
      * intros k c. destruct (Ha k) as [-> ->]. by case_bool_decide.
      * intros k row Hk Hnone. destruct (Ha k) as [Hak _]. rewrite Hak in Hnone.
        case_bool_decide as Hin; [|congruence]. destruct (Hregs k Hin) as (c' & _ & _ & Hx).
        unfold row_registrations. destruct (N.leb_spec (t - (w - 1)) (default 0 (registration_issued_at (push s) !! k)));
          [lia|by rewrite andb_false_r].
Qed.


(** * The push state machine *)

(** The operations of registration and login: one row each, none removed. *)
Inductive login_step : Store → Store → Prop :=
| lstep_issue_registration write ch mx w sample s r s' :
    issue_push_registration write ch mx w sample s = (r, s') → login_step s s'
| lstep_attempt_registration write expected verified now s r s' :
    attempt_push_registration write expected verified now s = (r, s') → login_step s s'
| lstep_revoke write realm user aid now s r s' :
    revoke_push_authenticator write realm user aid now s = (r, s') → login_step s s'
| lstep_issue_login write c mx w sample s r s' :
    issue_push_login write c mx w sample s = (r, s') → login_step s s'
| lstep_attempt_login write expected d now s r s' :
    attempt_push_login write expected d now s = (r, s') → login_step s s'
| lstep_redeem write expected binding now s r s' :
    redeem_push_login write expected binding now s = (r, s') → login_step s s'
| lstep_resend write expected binding nonce mx w cooldown sample s r s' :
    resend_push_login write expected binding nonce mx w cooldown sample s = (r, s') → login_step s s'.

Inductive push_step : Store → Store → Prop :=
| step_login s s' : login_step s s' → push_step s s'
| step_cleanup write now limit s r s' :
    cleanup_expired_push_records write now limit s = (r, s') → push_step s s'
| step_remove_auth gone realm s : push_step s (remove_auth_state gone realm s).

Lemma store_ok_login p lid c :
  store_ok p → login_row_ok (login_issued_at p) lid c → store_ok (set_logins p (<[lid := c]> (logins p))).
Proof.
  intros [Ha Hl] Hc. split; [done|]. intros k c'. simpl. destruct (decide (k = lid)) as [->|Hne].
  - rewrite lookup_insert_eq. by intros [= <-].
  - rewrite lookup_insert_ne by done. apply Hl.
Qed.

Lemma store_ok_authenticator p rid row :
  store_ok p → auth_row_ok (registration_issued_at p) rid row →
  store_ok (set_authenticators p (<[rid := row]> (authenticators p))).
Proof.
  intros [Ha Hl] Hc. split; [|done]. intros k row'. simpl. destruct (decide (k = rid)) as [->|Hne].
  - rewrite lookup_insert_eq. by intros [= <-].
  - rewrite lookup_insert_ne by done. apply Ha.
Qed.

Lemma authenticator_record_same row rid a :
  authenticator_record row rid = Ok a → authenticator_record row rid = Ok (row_authenticator row).
Proof. intros H. by destruct (authenticator_record_Ok _ _ _ H) as [<- _]. Qed.

Lemma ok_issue_registration write ch mx w sample s r s' :
  issue_push_registration write ch mx w sample s = (r, s') → store_ok (push s) → store_ok (push s').
Proof.
  intros [_ [[_ ->]|(_ & Hv & Hn & (start & Hq & _) & ->)]]%issue_push_registration_cases; [done|].
  intros [Ha Hl]. split; [|done]. apply quota_window_start_Ok in Hq as (_ & _ & _ & _ & Hc & Hx).
  intros k row. simpl. destruct (decide (k = a_id (authenticator ch))) as [->|Hne].
  - rewrite lookup_insert_eq. intros [= <-]. split; [|exists sample; by rewrite lookup_insert_eq].
    unfold authenticator_record, validate_registration_record, validate_registration in *. simpl.
    destruct (registration_fields_valid ch); simpl in *; [|done].
    destruct (N.eqb_spec (r_attempt_count ch) 0) as [->|]; [|done].
    rewrite (proj2 (N.ltb_ge _ 0)) by lia. simpl. by rewrite String.eqb_refl.
  - unfold auth_row_ok. rewrite !lookup_insert_ne by done. apply Ha.
Qed.

Lemma ok_attempt_registration write expected verified now s r s' :
  attempt_push_registration write expected verified now s = (r, s') → store_ok (push s) → store_ok (push s').
Proof.
  intros [_ [[_ ->]|(_ & row & row' & i & Hrow & Hi & Hle & Hatt & [a Ha] & ->)]]%attempt_push_registration_cases;
    [done|].
  intros Hok. apply store_ok_authenticator; [done|]. split; [by eapply authenticator_record_same|].
  apply registration_issued_Ok in Hi as [Hi Hrange]. exists i. split; [done|].
  unfold registration_attempt in Hatt. destruct row as [c|a']; [|done].
  case_match; [done|]. destruct verified; injection Hatt as <-; simpl; [|done].
  destruct Hok as [Hauth _]. destruct (Hauth _ _ Hrow) as [Hrec _].
  unfold authenticator_record, validate_registration_record in Hrec.
  destruct (registration_fields_valid c) eqn:Hf; [|done].
  unfold registration_fields_valid, authenticator_fields_valid in Hf. rewrite !andb_true_iff in Hf.
  destruct Hf as [[[[[[[_ Hz] _] _] _] _] _] _]. apply negb_true_iff, N.eqb_neq in Hz. lia.
Qed.

Lemma ok_revoke write realm user aid now s r s' :
  revoke_push_authenticator write realm user aid now s = (r, s') → store_ok (push s) → store_ok (push s').
Proof.
  intros [_ [[_ ->]|(_ & a & Ha & Hid & _ & _ & _ & _ & Hv & ->)]]%revoke_push_authenticator_cases; [done|].
  intros Hok. apply store_ok_authenticator; [done|]. destruct Hok as [Hauth _].
  destruct (Hauth _ _ Ha) as (_ & i & Hi & Hr). split.
  - unfold authenticator_record. simpl. rewrite Hv. simpl. by rewrite Hid, String.eqb_refl.
  - exists i. done.
Qed.

Lemma ok_issue_login write c mx w sample s r s' :
  issue_push_login write c mx w sample s = (r, s') → store_ok (push s) → store_ok (push s').
Proof.
  intros [_ [[_ ->]|(_ & Hv & _ & Hn & (start & Hq & _) & ->)]]%issue_push_login_cases; [done|].
  intros [Ha Hl]. split; [done|]. apply quota_window_start_Ok in Hq as (_ & _ & _ & _ & Hc & Hx).
  intros k c'. simpl. destruct (decide (k = id c)) as [->|Hne].
  - rewrite lookup_insert_eq. intros [= <-]. unfold login_row_ok. rewrite lookup_insert_eq.
    unfold validate_login in Hv. destruct (_ || is_some (consumed_at c)) eqn:E; [done|].
    rewrite !orb_false_iff, !negb_false_iff, N.eqb_eq in E.
    destruct E as [[[[[Hf Hac] Hra] Hd] Hda] Hco]. split; [|split; [done|]].
    + unfold validate_login_record, lifecycle_invalid. rewrite Hf, Hac. simpl.
      rewrite (proj2 (N.ltb_ge _ 0)) by lia. unfold is_some, is_none in *.
      by destruct (decision c), (decided_at c), (consumed_at c).
    + exists sample. split; [done|]. unfold validate_login_issued.
      rewrite (proj2 (N.ltb_ge _ _)), (proj2 (N.leb_gt _ _)) by lia. by destruct (resend_admitted_at c).
  - unfold login_row_ok. rewrite !lookup_insert_ne by done. apply Hl.
Qed.

Lemma with_progress_issued c n d t u i :
  validate_login_issued (with_progress c n d t u) i = validate_login_issued c i.
Proof. done. Qed.

(** A transition that keeps id, resends and times keeps the row's issuance valid. *)
Lemma ok_moved p p' lid c n d t u :
  login_moved p p' lid c (with_progress c n d t u) → store_ok p → store_ok p'.
Proof.
  intros (Hl & (_ & Hid & i & Hi & Hiss) & Hv & ->) Hok. apply store_ok_login; [done|].
  split; [done|]. split; [done|]. by exists i.
Qed.

Lemma login_attempt_true c expected d now c' :
  login_attempt c expected d now = (true, c') →
  consumed_at c = None ∧ ∃ d' t', c' = with_progress c (attempt_count c + 1) d' t' None.
Proof.
  unfold login_attempt. destruct (_ || (max_attempts c <=? attempt_count c)) eqn:E; [done|].
  rewrite !orb_false_iff in E. destruct E as [[_ Hc] _].
  unfold is_some, is_none in Hc. destruct (consumed_at c); [done|].
  destruct d; intros [= <-]; eauto.
Qed.

Lemma redeem_true c expected b now c' :
  redeem c expected b now = (true, c') →
  same_login c expected = true ∧ live (created_at c) (expires_at c) now = true ∧
  decision c = Some Approve ∧ consumed_at c = None ∧ (∃ t, decided_at c = Some t ∧ t ≤ now) ∧
  b = browser_binding_verifier c ∧
  c' = with_progress c (attempt_count c) (decision c) (decided_at c) (Some now).
Proof.
  unfold redeem. destruct (_ || negb (constant_time_eq _ _)) eqn:E; [done|].
  rewrite !orb_false_iff, !negb_false_iff, bool_decide_eq_true in E.
  destruct E as [[[[[[_ Hs] Hl] Hd] Hc] Ht] Hb]. intros [= <-].
  apply constant_time_eq_spec in Hb. unfold is_some, is_none in Hc.
  destruct (consumed_at c); [done|]. destruct (decided_at c) as [t|]; [|done]. apply N.ltb_ge in Ht.
  repeat (split; [done|]). split; [by eauto|]. by split.
Qed.

Lemma ok_resend write expected binding nonce mx w cooldown sample s r s' :
  resend_push_login write expected binding nonce mx w cooldown sample s = (r, s') →
  store_ok (push s) → store_ok (push s').
Proof.
  intros [_ [[-> _]|(c & c' & i & start & _ & _ & _ & _ & Hi & Hr & Hl & Hv & ->)]]%resend_push_login_cases; [done|].
  intros Hok. apply store_ok_login; [done|]. apply login_issued_Ok in Hi as [Hi Hiss].
  apply resend_true in Hr as (_ & _ & _ & Hcd & Hlast & _ & _ & _ & _ & _ & _ & Hid & Hcr & Hex & Hra & _).
  destruct Hok as [_ Hlog]. destruct (Hlog _ _ Hl) as (_ & Hcid & _).
  split; [done|]. split; [congruence|]. exists i. split; [done|].
  unfold validate_login_issued in *. rewrite Hcr, Hex, Hra.
  destruct (resend_admitted_at c) as [|t l]; simpl in *; [|done].
  destruct ((i <? created_at c) || (expires_at c <=? i)); [done|]. simpl.
  by rewrite (proj2 (N.leb_gt sample i)) by lia.
Qed.

Lemma ok_cleanup write now limit s r s' :
  cleanup_expired_push_records write now limit s = (r, s') → store_ok (push s) → store_ok (push s').
Proof.
  intros [_ [[-> _]|(regs & lgs & [Hauth Hlog] & _ & _ & _ & Hp)]]%cleanup_cases; [done|]. intros _.
  destruct (removed_lookup (push s) regs lgs) as [Ha Hl]. rewrite <- Hp in Ha, Hl. split.
  - intros k row. destruct (Ha k) as [-> Hi]. case_bool_decide; [done|]. intros Hk.
    unfold auth_row_ok. rewrite Hi. by apply Hauth.
  - intros k c. destruct (Hl k) as [-> Hi]. case_bool_decide; [done|]. intros Hk.
    unfold login_row_ok. rewrite Hi. by apply Hlog.
Qed.

Lemma ok_remove_auth gone realm s : store_ok (push s) → store_ok (push (remove_auth_state gone realm s)).
Proof.
  intros [Ha Hl]. split; simpl.
  - intros k row Hk. pose proof Hk as [Hk' _]%map_lookup_filter_Some.
    destruct (Ha _ _ Hk') as (Hrec & i & Hi & Hrange). split; [done|]. exists i. split; [|done].
    apply map_lookup_filter_Some. split; [done|]. by rewrite Hk.
  - intros k c Hk. pose proof Hk as [Hk' _]%map_lookup_filter_Some.
    destruct (Hl _ _ Hk') as (Hv & Hid & i & Hi & Hiss). split; [done|]. split; [done|]. exists i.
    split; [|done]. apply map_lookup_filter_Some. split; [done|]. by rewrite Hk.
Qed.

Lemma login_step_store_ok s s' : login_step s s' → store_ok (push s) → store_ok (push s').
Proof.
  destruct 1 as [write ch mx w sample s r s' H|write e v now s r s' H|write re us ai now s r s' H
    |write c mx w sample s r s' H|write e d now s r s' H|write e b now s r s' H
    |write e b n mx w cd sample s r s' H].
  - by eapply ok_issue_registration.
  - by eapply ok_attempt_registration.
  - by eapply ok_revoke.
  - by eapply ok_issue_login.
  - apply attempt_push_login_cases in H as [_ [[_ ->]|(_ & _ & c & c' & Ha & Hm)]]; [done|].
    apply login_attempt_true in Ha as (_ & d' & t' & ->). by eapply ok_moved.
  - apply redeem_push_login_cases in H as [_ [[_ ->]|(_ & _ & c & c' & Ha & Hm)]]; [done|].
    apply redeem_true in Ha as (_ & _ & _ & _ & _ & _ & ->). by eapply ok_moved.
  - by eapply ok_resend.
Qed.

Lemma step_store_ok s s' : push_step s s' → store_ok (push s) → store_ok (push s').
Proof.
  destruct 1 as [s s' H|write now limit s r s' H|gone realm s].
  - by apply login_step_store_ok.
  - by eapply ok_cleanup.
  - apply ok_remove_auth.
Qed.

Definition empty_push : PushStore :=
  {| authenticators := ∅; logins := ∅; registration_issued_at := ∅; login_issued_at := ∅ |}.

(** In every store reachable from an empty push store by any sequence of
    operations, with any persistence outcomes and any clock values, every row
    passes the storage validation: attempts are at most their maximum, a decision is
    made inside the challenge's life, a redemption follows an approval, resends are
    increasing, and every row has its issuance time on record. *)
Theorem push_store_always_valid u s :
  rtc push_step {| users := u; push := empty_push |} s → store_ok (push s).
Proof.
  intros H. remember {| users := u; push := empty_push |} as s0 eqn:E.
  assert (store_ok (push s0)) as H0 by (subst; split; intros k x Hx; simpl in Hx; by rewrite lookup_empty in Hx).
  clear E. induction H as [s|s s1 s2 Hstep _ IH]; [done|]. by apply IH, (step_store_ok s s1).
Qed.


(** * Redemption *)

(** A redemption is granted only to a caller who presents the browser
    binding of a stored, unexpired challenge that was approved and not redeemed yet,
    for an enrolled authenticator that is current and not revoked; it records the
    redemption and nothing else. *)
Theorem redeem_requires_approval write expected binding now s s' :
  redeem_push_login write expected binding now s = (Ok true, s') →
  ∃ a c, authenticators (push s) !! authenticator_id expected = Some (Enrolled a) ∧
    revoked_at a = None ∧ a_user_id a = user_id c ∧ a_realm_id a = realm_id c ∧
    a_created_at a ≤ created_at c ∧
    logins (push s) !! id expected = Some c ∧ binding = browser_binding_verifier c ∧
    decision c = Some Approve ∧ consumed_at c = None ∧
    (∃ t, decided_at c = Some t ∧ t ≤ now) ∧ created_at c ≤ now ∧ now < expires_at c ∧
    push s' = set_logins (push s) (<[id expected :=
      with_progress c (attempt_count c) (decision c) (decided_at c) (Some now)]> (logins (push s))).
Proof.
  intros [_ [[? _]|(_ & Hcur & c & c' & Hr & Hl & _ & _ & Hp)]]%redeem_push_login_cases; [done|].
  apply redeem_true in Hr as (Hs & Hlive & Hd & Hc & Ht & Hb & ->).
  apply current_authenticator_true in Hcur as (a & Ha & Hcur).
  unfold current in Hcur. rewrite !andb_true_iff, !String.eqb_eq, N.leb_le in Hcur.
  destruct Hcur as ((((Hid & Hre) & Hus) & Hcr) & Hrev).
  apply andb_true_iff in Hlive as [?%N.leb_le ?%N.ltb_lt].
  pose proof (same_login_true _ _ Hs) as He. exists a, c. rewrite He in Hre, Hus, Hcr. simpl in *.
  split; [done|]. split; [by destruct (revoked_at a)|]. by repeat (split; [done|]).
Qed.

(** Redeemed rows are kept as they are. *)
Definition keeps_rows (s s' : Store) : Prop :=
  ∀ lid c, logins (push s) !! lid = Some c → consumed_at c ≠ None → logins (push s') !! lid = Some c.

Lemma moved_keeps s s' lid c c' :
  login_moved (push s) (push s') lid c c' → consumed_at c = None → keeps_rows s s'.
Proof.
  intros (Hl & _ & _ & Hp) Hc k x Hk Hx. rewrite Hp. simpl.
  destruct (decide (k = lid)) as [->|Hne]; [congruence|by rewrite lookup_insert_ne].
Qed.

Lemma keeps_refl s s' : push s' = push s → keeps_rows s s'.
Proof. intros Hp k c. by rewrite Hp. Qed.

Lemma login_step_keeps s s' : login_step s s' → keeps_rows s s'.
Proof.
  destruct 1 as [write ch mx w sample s r s' H|write e v now s r s' H|write re us ai now s r s' H
    |write c mx w sample s r s' H|write e d now s r s' H|write e b now s r s' H|write e b n mx w cd sample s r s' H].
  - apply issue_push_registration_cases in H as [_ [[_ Hp]|(_ & _ & _ & _ & Hp)]]; [by apply keeps_refl|].
    intros k c. by rewrite Hp.
  - apply attempt_push_registration_cases in H as [_ [[_ Hp]|(_ & row & row' & i & _ & _ & _ & _ & _ & Hp)]];
      [by apply keeps_refl|]. intros k c. by rewrite Hp.
  - apply revoke_push_authenticator_cases in H as [_ [[_ Hp]|(_ & a & _ & _ & _ & _ & _ & _ & _ & Hp)]];
      [by apply keeps_refl|]. intros k c. by rewrite Hp.
  - apply issue_push_login_cases in H as [_ [[_ Hp]|(_ & _ & _ & Hn & _ & Hp)]]; [by apply keeps_refl|].
    intros k x Hk _. rewrite Hp. simpl. rewrite lookup_insert_ne; [done|congruence].
  - apply attempt_push_login_cases in H as [_ [[_ Hp]|(_ & _ & c & c' & Ha & Hm)]]; [by apply keeps_refl|].
    apply login_attempt_true in Ha as [Hc _]. by eapply moved_keeps.
  - apply redeem_push_login_cases in H as [_ [[_ Hp]|(_ & _ & c & c' & Ha & Hm)]]; [by apply keeps_refl|].
    apply redeem_true in Ha as (_ & _ & _ & Hc & _). by eapply moved_keeps.
  - apply resend_push_login_cases in H as [_ [[Hp _]|(c & c' & i & st & _ & _ & _ & _ & _ & Hr & Hl & _ & Hp)]];
      [by apply keeps_refl|].
    apply resend_true in Hr as (_ & _ & _ & _ & _ & _ & Hc & _). intros k x Hk Hx. rewrite Hp. simpl.
    destruct (decide (k = id e)) as [->|Hne]; [congruence|by rewrite lookup_insert_ne].
Qed.

(** A push approval is redeemed at most once: after a successful redemption,
    whatever operations follow (attempts, resends, new issuances, revocations, other
    redemptions) short of the row's removal, no second redemption of the same
    challenge succeeds. *)
Theorem redeem_at_most_once write expected binding now s s1 s2 write' expected' binding' now' :
  redeem_push_login write expected binding now s = (Ok true, s1) →
  rtc login_step s1 s2 → id expected' = id expected →
  (redeem_push_login write' expected' binding' now' s2).1 ≠ Ok true.
Proof.
  intros Hr Hsteps Hid.
  assert (∃ c, logins (push s1) !! id expected = Some c ∧ consumed_at c ≠ None) as (c & Hc & Hn).
  { apply redeem_push_login_cases in Hr as [_ [[? _]|(_ & _ & c & c' & Hr & _ & _ & _ & ->)]]; [done|].
    apply redeem_true in Hr as (_ & _ & _ & _ & _ & _ & ->). simpl. eexists.
    split; [apply lookup_insert_eq|done]. }
  assert (logins (push s2) !! id expected = Some c) as Hc2.
  { clear Hr. induction Hsteps as [s1|s1 s2 s3 Hstep _ IH]; [done|]. apply IH. by eapply login_step_keeps. }
  destruct (redeem_push_login write' expected' binding' now' s2) as [r s3] eqn:E. simpl. intros ->.
  apply redeem_push_login_cases in E as [_ [[? _]|(_ & _ & c' & c'' & Hr' & Hl & _)]]; [done|].
  apply redeem_true in Hr' as (_ & _ & _ & Hcons & _). rewrite Hid in Hl. congruence.
Qed.


End Steps.

(** * Witnesses *)

#[local] Instance eqb_constant_time : ConstantTimeEq := {|
  constant_time_eq := String.eqb; constant_time_eq_spec := String.eqb_eq |}.

Definition ex_hex (c : string) : string := Nat.iter 64 (String.append c) "".

Definition ex_authenticator : PushAuthenticator :=
  {| a_id := "dev1"; a_realm_id := "r"; a_user_id := "u"; destination := "push:1";
     device_name := "Phone"; device_platform := "ios"; public_jwk := OKP "Ed25519" "x";
     a_created_at := 100; revoked_at := None |}.

Definition ex_registration : PushRegistrationChallenge :=
  {| authenticator := ex_authenticator; r_nonce_verifier := ex_hex "a"; r_expires_at := 400;
     r_max_attempts := 3; r_attempt_count := 0 |}.

Definition ex_login : PushLoginChallenge :=
  {| id := "l1"; realm_id := "r"; user_id := "u"; authenticator_id := "dev1"; purpose := PasswordLogin;
     nonce_verifier := ex_hex "b"; browser_binding_verifier := ex_hex "c"; resend_admitted_at := [];
     created_at := 200; expires_at := 500; max_attempts := 3; attempt_count := 0;
     decision := None; decided_at := None; consumed_at := None |}.

Definition ex_s0 : Store := {| users := {["u" := "r"]}; push := empty_push |}.
Definition ex_s1 : Store := (issue_push_registration (Ok tt) ex_registration 5 600 110 ex_s0).2.
Definition ex_s2 : Store := (attempt_push_registration (Ok tt) ex_registration true 120 ex_s1).2.
Definition ex_s3 : Store := (issue_push_login (Ok tt) ex_login 2 600 210 ex_s2).2.
Definition ex_s4 : Store := (attempt_push_login (Ok tt) ex_login (Some Approve) 220 ex_s3).2.
Definition ex_s5 : Store := (redeem_push_login (Ok tt) ex_login (ex_hex "c") 230 ex_s4).2.

Lemma ex_redeem : redeem_push_login (Ok tt) ex_login (ex_hex "c") 230 ex_s4 = (Ok true, ex_s5).
Proof. vm_compute. reflexivity. Qed.

Lemma ex_steps : rtc push_step ex_s0 ex_s5.
Proof.
  eapply rtc_l; [apply step_login; eapply (lstep_issue_registration (Ok tt) ex_registration 5 600 110); apply surjective_pairing|].
  eapply rtc_l; [apply step_login; eapply (lstep_attempt_registration (Ok tt) ex_registration true 120); apply surjective_pairing|].
  eapply rtc_l; [apply step_login; eapply (lstep_issue_login (Ok tt) ex_login 2 600 210); apply surjective_pairing|].
  eapply rtc_l; [apply step_login; eapply (lstep_attempt_login (Ok tt) ex_login (Some Approve) 220); apply surjective_pairing|].
  apply rtc_once, step_login. eapply (lstep_redeem (Ok tt) ex_login (ex_hex "c") 230). apply surjective_pairing.
Qed.

Lemma push_store_always_valid_witness :
  is_some (logins (push ex_s5) !! "l1") = true ∧ store_ok (push ex_s5).
Proof.
  split; [vm_compute; reflexivity|]. apply (push_store_always_valid {["u" := "r"]} ex_s5). exact ex_steps.
Defined.

Lemma push_quota_respected_witness :
  sends_in_window (push ex_s3) "r" "u" PasswordLogin (210 - (600 - 1)) = 1 ∧
  sends_in_window (push ex_s3) "r" "u" PasswordLogin (210 - (600 - 1)) ≤ 2.
Proof.
  split; [vm_compute; reflexivity|].
  apply (proj1 (push_quota_respected (Ok tt) 2 600 210 ex_s2) ex_login ex_s3).
  vm_compute. reflexivity.
Defined.

Lemma redeem_requires_approval_witness :
  ∃ a c, authenticators (push ex_s4) !! "dev1" = Some (Enrolled a) ∧
    logins (push ex_s4) !! "l1" = Some c ∧ decision c = Some Approve ∧ consumed_at c = None.
Proof.
  destruct (redeem_requires_approval (Ok tt) ex_login (ex_hex "c") 230 ex_s4 ex_s5)
    as (a & c & Ha & _ & _ & _ & _ & Hc & _ & Hd & Hn & _).
  - vm_compute. reflexivity.
  - exists a, c. split; [exact Ha|]. split; [exact Hc|]. split; [exact Hd|exact Hn].
Defined.

Lemma redeem_at_most_once_witness :
  (redeem_push_login (Ok tt) ex_login (ex_hex "c") 240 ex_s5).1 ≠ Ok true.
Proof.
  apply (redeem_at_most_once (Ok tt) ex_login (ex_hex "c") 230 ex_s4 ex_s5 ex_s5).
  - vm_compute. reflexivity.
  - apply rtc_refl.
  - reflexivity.
Defined.

Lemma cleanup_preserves_quotas_witness :
  let r := cleanup_expired_push_records (Ok tt) 100000 10 ex_s5 in
  r.1 = Ok 1 ∧
  sends_in_window (push r.2) "r" "u" PasswordLogin (100000 - (86400 - 1))
  = sends_in_window (push ex_s5) "r" "u" PasswordLogin (100000 - (86400 - 1)).
Proof.
  intros r. split; [vm_compute; reflexivity|].
  destruct (cleanup_preserves_quotas (Ok tt) 100000 10 ex_s5 _ _ (surjective_pairing _))
    as (_ & _ & _ & _ & _ & _ & _ & H).
  refine (proj1 (H "r" "u" PasswordLogin 100000 86400 _ _ _)); vm_compute; discriminate.
Defined.


End Push.
