(* ===== verification/Network.v ===== *)
(** The network-AAA wire formats (src/qid-network/src/lib.rs): RADIUS packets,
    EAP frames, TACACS+ headers, bodies and obfuscation and message authenticators.

    A byte is an [N] below 256 and an [as u8] or [as u16] cast is a reduction modulo
    the width.  A function that indexes a slice returns an [option]: [None] is the
    panic of an index out of range, or a loop that did not end within the fuel of
    one step per byte.  HMAC-SHA256 and MD5 are parameters. *)

From S2P Require Import Prelude Utf8.

Module Network.

Definition byte_ok (b : N) : bool := b <? 256.
Definition bytes_ok (bs : list N) : bool := forallb byte_ok bs.

Definition as_u8 (n : N) : N := n mod 256.
Definition as_u16 (n : N) : N := n mod 65536.

(** [to_be_bytes] and [from_be_bytes] *)
Definition u16_be (n : N) : list N := [n / 256; n mod 256].
Definition u32_be (n : N) : list N := [n / 16777216; (n / 65536) mod 256; (n / 256) mod 256; n mod 256].
Definition u16_from_be (a b : N) : N := a * 256 + b.
Definition u32_from_be (a b c d : N) : N := a * 16777216 + b * 65536 + c * 256 + d.

(** [&bytes[i..j]] *)
Definition slice (bytes : list N) (i j : nat) : option (list N) :=
  if (i <=? j)%nat && (j <=? length bytes)%nat then Some (take (j - i) (drop i bytes)) else None.

(** * RADIUS *)

Inductive RadiusCode : Type :=
| AccessRequest | AccessAccept | AccessReject | AccessChallenge | AccountingRequest
| AccountingResponse | CoARequest | CoAACK | CoANAK | DisconnectRequest | DisconnectACK
| DisconnectNAK | OtherCode (code : N).

Definition radius_code_as_byte (c : RadiusCode) : N :=
  match c with
  | AccessRequest => 1 | AccessAccept => 2 | AccessReject => 3 | AccessChallenge => 11
  | AccountingRequest => 4 | AccountingResponse => 5 | CoARequest => 43 | CoAACK => 44
  | CoANAK => 45 | DisconnectRequest => 46 | DisconnectACK => 47 | DisconnectNAK => 48
  | OtherCode code => code
  end.

Definition radius_code_from_byte (b : N) : RadiusCode :=
  match b with
  | 1 => AccessRequest | 2 => AccessAccept | 3 => AccessReject | 4 => AccountingRequest
  | 5 => AccountingResponse | 11 => AccessChallenge | 43 => CoARequest | 44 => CoAACK
  | 45 => CoANAK | 46 => DisconnectRequest | 47 => DisconnectACK | 48 => DisconnectNAK
  | other => OtherCode other
  end.

Record RadiusAttribute : Type := { kind : N; value : list N }.

Record RadiusPacket : Type := {
  code : RadiusCode; identifier : N; authenticator : list N; attributes : list RadiusAttribute
}.

Definition radius_error (message : string) : QidError := BadRequest message.

(** The attribute loop, from byte [cursor] to byte [len]. *)
Fixpoint parse_attributes (fuel : nat) (bytes : list N) (len cursor : nat)
    : option (QidResult (list RadiusAttribute)) :=
  if (cursor <? len)%nat then
    match fuel with
    | O => None
    | S fuel' =>
        if (len <? cursor + 2)%nat
        then Some (Err (radius_error "RADIUS attribute header extends past packet length"))
        else
          k ← bytes !! cursor;
          l ← bytes !! (cursor + 1)%nat;
          let attr_len := N.to_nat l in
          if (attr_len <? 2)%nat || (len <? cursor + attr_len)%nat
          then Some (Err (radius_error "RADIUS attribute length exceeds packet length"))
          else
            v ← slice bytes (cursor + 2) (cursor + attr_len);
            rest ← parse_attributes fuel' bytes len (cursor + attr_len);
            Some (let? more := rest in Ok ({| kind := k; value := v |} :: more))
    end
  else Some (Ok []).

Definition parse_radius_packet (bytes : list N) : option (QidResult RadiusPacket) :=
  if (length bytes <? 20)%nat then Some (Err (radius_error "RADIUS packet is shorter than 20 bytes"))
  else
    b2 ← bytes !! 2%nat;
    b3 ← bytes !! 3%nat;
    let len := N.to_nat (u16_from_be b2 b3) in
    if (length bytes <? len)%nat
    then Some (Err (radius_error ("RADIUS packet is shorter than declared length " +:+ pretty (N.of_nat len))))
    else
      auth ← slice bytes 4 20;
      attrs ← parse_attributes len bytes len 20;
      b0 ← bytes !! 0%nat;
      b1 ← bytes !! 1%nat;
      Some (let? ats := attrs in
            Ok {| code := radius_code_from_byte b0; identifier := b1; authenticator := auth;
                  attributes := ats |}).

Definition attribute_bytes (a : RadiusAttribute) : list N :=
  [kind a; as_u8 (N.of_nat (length (value a)) + 2)] ++ value a.

Definition body_len (l : list RadiusAttribute) : nat :=
  foldr (fun a n => (length (value a) + 2 + n)%nat) 0%nat l.

Definition encode_radius_packet (p : RadiusPacket) : list N :=
  [radius_code_as_byte (code p); identifier p]
  ++ u16_be (as_u16 (N.of_nat (20 + body_len (attributes p))))
  ++ authenticator p
  ++ concat (map attribute_bytes (attributes p)).

(** * EAP *)

Inductive EapCode : Type := Request | Response | Success | Failure | OtherEapCode (c : N).

Definition eap_code_as_byte (c : EapCode) : N :=
  match c with Request => 1 | Response => 2 | Success => 3 | Failure => 4 | OtherEapCode c => c end.

Definition eap_code_from_byte (b : N) : EapCode :=
  match b with 1 => Request | 2 => Response | 3 => Success | 4 => Failure | other => OtherEapCode other end.

Inductive EapMethod : Type :=
| Identity | Notification | Nak | Md5Challenge | Tls | Ttls | Aka | AkaPrime | Teap | OtherMethod (c : N).

Definition eap_method_as_byte (m : EapMethod) : N :=
  match m with
  | Identity => 1 | Notification => 2 | Nak => 3 | Md5Challenge => 4 | Tls => 13 | Ttls => 21
  | Aka => 23 | AkaPrime => 50 | Teap => 55 | OtherMethod c => c
  end.

Definition eap_method_from_byte (b : N) : EapMethod :=
  match b with
  | 1 => Identity | 2 => Notification | 3 => Nak | 4 => Md5Challenge | 13 => Tls | 21 => Ttls
  | 23 => Aka | 50 => AkaPrime | 55 => Teap | other => OtherMethod other
  end.

Record EapFrame : Type := {
  eap_code : EapCode; eap_identifier : N; eap_length : N; method : option EapMethod; method_data : list N
}.

Definition parse_eap_frame (bytes : list N) : option (QidResult EapFrame) :=
  if (length bytes <? 4)%nat then Some (Err (BadRequest "EAP frame is shorter than 4 bytes"))
  else
    b2 ← bytes !! 2%nat;
    b3 ← bytes !! 3%nat;
    let len := u16_from_be b2 b3 in
    if (len <? 4) || (length bytes <? N.to_nat len)%nat
    then Some (Err (BadRequest "EAP frame length mismatch"))
    else
      b0 ← bytes !! 0%nat;
      b1 ← bytes !! 1%nat;
      let frame m d := {| eap_code := eap_code_from_byte b0; eap_identifier := b1; eap_length := len;
                          method := m; method_data := d |} in
      match eap_code_from_byte b0 with
      | Request | Response =>
          if len <? 5 then Some (Err (BadRequest "EAP Request/Response frame is missing Type field"))
          else
            b4 ← bytes !! 4%nat;
            data ← slice bytes 5 (N.to_nat len);
            Some (Ok (frame (Some (eap_method_from_byte b4)) data))
      | _ => Some (Ok (frame None []))
      end.

(** * TACACS+ *)

Inductive TacacsType : Type := Authentication | Authorization | Accounting | OtherType (c : N).

Definition tacacs_type_as_byte (t : TacacsType) : N :=
  match t with Authentication => 1 | Authorization => 2 | Accounting => 3 | OtherType c => c end.

Definition tacacs_type_from_byte (b : N) : TacacsType :=
  match b with 1 => Authentication | 2 => Authorization | 3 => Accounting | other => OtherType other end.

Record TacacsHeader : Type := {
  version : N; tacacs_type : TacacsType; sequence_number : N; flags : N; session_id : N; tac_length : N
}.

Definition TACACS_HEADER_LEN : nat := 12.
Definition TACACS_VERSION : N := 0xc1.

Definition hex_digit_str (d : N) : string :=
  String (Ascii.ascii_of_N (if d <? 10 then 48 + d else 87 + d)) "".

Definition parse_tacacs_header (bytes : list N) : option (QidResult TacacsHeader) :=
  if (length bytes <? TACACS_HEADER_LEN)%nat
  then Some (Err (BadRequest "TACACS+ header is shorter than 12 bytes"))
  else
    match bytes with
    | b0 :: b1 :: b2 :: b3 :: b4 :: b5 :: b6 :: b7 :: b8 :: b9 :: b10 :: b11 :: _ =>
        if negb (b0 =? TACACS_VERSION)
        then Some (Err (BadRequest ("unsupported TACACS+ version byte 0x"
                          +:+ hex_digit_str (b0 / 16) +:+ hex_digit_str (b0 mod 16))))
        else
          let len := u32_from_be b8 b9 b10 b11 in
          if (N.of_nat (length bytes) <? 12 + len)
          then Some (Err (BadRequest "TACACS+ body is shorter than declared length"))
          else Some (Ok {| version := b0; tacacs_type := tacacs_type_from_byte b1; sequence_number := b2;
                           flags := b3; session_id := u32_from_be b4 b5 b6 b7; tac_length := len |})
    | _ => None
    end.

Definition encode_tacacs_header (h : TacacsHeader) : list N :=
  [TACACS_VERSION; tacacs_type_as_byte (tacacs_type h); sequence_number h; flags h]
  ++ u32_be (session_id h) ++ u32_be (tac_length h).

Definition push_tacacs_string (v : string) : list N :=
  as_u8 (N.of_nat (String.length v)) :: Utf8.str_bytes v.

Record TacacsAuthenticationStart : Type := {
  st_action : N; st_privilege_level : N; st_authentication_type : N; st_service : string;
  st_port : string; st_remote_address : string; st_user : string
}.

Definition encode_tacacs_authentication_start (h : TacacsHeader) (s : TacacsAuthenticationStart) : list N :=
  encode_tacacs_header h
  ++ [st_action s; st_privilege_level s; st_authentication_type s]
  ++ push_tacacs_string (st_service s) ++ push_tacacs_string (st_port s)
  ++ push_tacacs_string (st_remote_address s) ++ push_tacacs_string (st_user s).

Definition push_pairs (l : list (N * string)) : list N :=
  concat (map (fun '(k, v) => k :: push_tacacs_string v) l).

Record TacacsAccountingRequest : Type := {
  ac_flags : N; ac_privilege_level : N; ac_authentication_type : N; ac_service : string;
  ac_port : string; ac_remote_address : string; ac_user : string; ac_attributes : list (N * string)
}.

Definition encode_tacacs_accounting_request (h : TacacsHeader) (r : TacacsAccountingRequest) : list N :=
  encode_tacacs_header h
  ++ [ac_flags r; ac_privilege_level r; ac_authentication_type r]
  ++ push_tacacs_string (ac_service r) ++ push_tacacs_string (ac_port r)
  ++ push_tacacs_string (ac_remote_address r) ++ push_tacacs_string (ac_user r)
  ++ push_pairs (ac_attributes r).

Record TacacsAuthorizationRequest : Type := {
  az_action : N; az_privilege_level : N; az_authentication_type : N; az_service : string;
  az_port : string; az_remote_address : string; az_user : string; az_arguments : list (N * string)
}.

Definition encode_tacacs_authorization_request (h : TacacsHeader) (r : TacacsAuthorizationRequest) : list N :=
  encode_tacacs_header h
  ++ [az_action r; az_privilege_level r; az_authentication_type r]
  ++ push_tacacs_string (az_service r) ++ push_tacacs_string (az_port r)
  ++ push_tacacs_string (az_remote_address r) ++ push_tacacs_string (az_user r)
  ++ push_pairs (az_arguments r).

(** * Keyed functions *)

Section Keyed.
(** MD5 and HMAC-SHA256: 16 and 32 bytes of output. *)
Context (md5 : list N → list N) (hmac_sha256 : list N → list N → list N).
(** [subtle]'s [ct_eq] on byte arrays, which [constant_time_eq] hands on. *)
Context (ct_eq : list N → list N → bool).

(** [while pad.len() < body.len()] *)
Fixpoint extend_pad (fuel : nat) (pad : list N) (n : nat) : option (list N) :=
  if (length pad <? n)%nat then
    match fuel with
    | O => None
    | S fuel' => extend_pad fuel' (pad ++ md5 pad) n
    end
  else Some pad.

Definition tacacs_obfuscate_body (body key : list N) (sid ver seq : N) : option (QidResult (list N)) :=
  if (65535 <? N.of_nat (length body))
  then Some (Err (Crypto ("TACACS+ body length " +:+ pretty (N.of_nat (length body))
                          +:+ " exceeds maximum 65535")))
  else
    pad ← extend_pad (length body) (md5 (u32_be sid ++ [ver; seq] ++ key)) (length body);
    Some (Ok (zip_with N.lxor body (take (length body) pad))).

Definition tacacs_deobfuscate_body (body key : list N) (sid ver seq : N) : option (QidResult (list N)) :=
  tacacs_obfuscate_body body key sid ver seq.

Definition tacacs_packet_checksum (body key : list N) (sid ver seq : N) : list N :=
  let pad_len := ((16 - length body mod 16) mod 16)%nat in
  md5 (u32_be sid ++ [ver; seq] ++ key ++ body ++ replicate pad_len 0).

Definition radius_response_authenticator (secret request_authenticator body : list N) : list N :=
  take 16 (hmac_sha256 secret (request_authenticator ++ body)).

Definition verify_radius_request_authenticator (secret : list N) (p : RadiusPacket) (body : list N) : bool :=
  ct_eq (take 16 (hmac_sha256 secret body)) (authenticator p).

(** HMAC accepts keys of every length, so the key error of the source does not arise. *)
Definition radius_message_authenticator (secret packet : list N) : QidResult (list N) :=
  Ok (hmac_sha256 secret packet).

(** [None]: [authenticator_offset + 32] is beyond [usize]. *)
Definition verify_radius_message_authenticator (secret packet : list N) (offset : N) (expected : list N)
    : option (QidResult bool) :=
  last ← checked_add64 offset 32;
  if (N.of_nat (length packet) <? last)
  then Some (Err (BadRequest "RADIUS Message-Authenticator is outside the packet"))
  else
    let zeroed := take (N.to_nat offset) packet ++ replicate 32 0 ++ drop (N.to_nat last) packet in
    Some (let? computed := radius_message_authenticator secret zeroed in Ok (ct_eq computed expected)).

End Keyed.


(** * Lemmas *)

Lemma lookup_at {A} (pre : list A) x post n : length pre = n → (pre ++ x :: post) !! n = Some x.
Proof. intros <-. by rewrite list_lookup_middle. Qed.

Lemma slice_middle (pre mid post : list N) i j :
  length pre = i → (i + length mid)%nat = j → slice (pre ++ mid ++ post) i j = Some mid.
Proof.
  intros <- <-. unfold slice. rewrite !length_app.
  do 2 cmp. simpl.
  rewrite drop_app_length, Nat.add_comm, Nat.add_sub. by rewrite take_app_length.
Qed.

Lemma slice_Some (bytes : list N) i j :
  (i ≤ j)%nat → (j ≤ length bytes)%nat → slice bytes i j = Some (take (j - i) (drop i bytes)).
Proof. intros. unfold slice. by do 2 cmp. Qed.

Lemma lookup_in_range (bytes : list N) i : (i < length bytes)%nat → ∃ b, bytes !! i = Some b.
Proof. intros H%lookup_lt_is_Some. done. Qed.

Lemma length_attributes l : length (concat (map attribute_bytes l)) = body_len l.
Proof. induction l as [|a l IH]; simpl; [done|]. rewrite length_app, IH. lia. Qed.

Lemma u16_roundtrip n : n < 65536 → u16_from_be (n / 256) (n mod 256) = n.
Proof. intros. unfold u16_from_be. pose proof (N.div_mod n 256). lia. Qed.

Lemma u16_from_be_inv a b :
  a < 256 → b < 256 → u16_be (u16_from_be a b) = [a; b].
Proof.
  intros Ha Hb. unfold u16_be, u16_from_be. rewrite N.div_add_l, N.div_small by lia.
  rewrite (N.add_comm _ b), N.Div0.mod_add, N.mod_small by lia. by rewrite N.add_0_r.
Qed.

Lemma u32_roundtrip n :
  n < 4294967296 →
  u32_from_be (n / 16777216) ((n / 65536) mod 256) ((n / 256) mod 256) (n mod 256) = n.
Proof.
  intros. unfold u32_from_be.
  replace (n / 16777216) with (n / 256 / 256 / 256) by (rewrite !N.Div0.div_div; done).
  replace (n / 65536) with (n / 256 / 256) by (rewrite N.Div0.div_div; done).
  pose proof (N.div_mod n 256). pose proof (N.div_mod (n / 256) 256).
  pose proof (N.div_mod (n / 256 / 256) 256). lia.
Qed.

Lemma radius_code_as_from b : radius_code_as_byte (radius_code_from_byte b) = b.
Proof. unfold radius_code_from_byte. by repeat case_match. Qed.

Lemma bytes_ok_lookup bs i b : bytes_ok bs = true → bs !! i = Some b → b < 256.
Proof.
  intros Hok Hb%list_elem_of_lookup_2. unfold bytes_ok in Hok. rewrite forallb_elem_of in Hok.
  by apply N.ltb_lt, Hok.
Qed.

(** Encoding then parsing the attributes, at any place in a buffer. *)
Lemma parse_attributes_encoded fuel l pre post :
  Forall (fun a => (length (value a) ≤ 253)%nat) l →
  (body_len l ≤ fuel)%nat →
  parse_attributes fuel (pre ++ concat (map attribute_bytes l) ++ post)
    (length pre + body_len l) (length pre) = Some (Ok l).
Proof.
  revert fuel pre. induction l as [|a l IH]; intros fuel pre Hl Hf.
  - destruct fuel; simpl; by rewrite Nat.add_0_r, Nat.ltb_irrefl.
  - inversion Hl as [|? ? Ha Hl']; subst. destruct a as [k v]; simpl in *.
    destruct fuel as [|fuel]; [lia|]. simpl.
    cmp.
    cmp.
    rewrite (lookup_at pre k _ (length pre)) by done. simpl.
    replace (pre ++ k :: as_u8 (N.of_nat (length v) + 2) :: (v ++ concat (map attribute_bytes l)) ++ post)
      with ((pre ++ [k]) ++ as_u8 (N.of_nat (length v) + 2) :: (v ++ concat (map attribute_bytes l) ++ post))
      by (by rewrite <- !(assoc_L app)).
    rewrite lookup_at by (rewrite length_app; simpl; lia). simpl.
    unfold as_u8. rewrite N.mod_small by lia.
    replace (N.to_nat (N.of_nat (length v) + 2)) with (length v + 2)%nat by lia.
    do 2 cmp. simpl.
    replace ((pre ++ [k]) ++ (N.of_nat (length v) + 2) :: v ++ concat (map attribute_bytes l) ++ post)
      with ((pre ++ [k; N.of_nat (length v) + 2]) ++ v ++ concat (map attribute_bytes l) ++ post)
      by (by rewrite <- !(assoc_L app)).
    rewrite slice_middle by (rewrite ?length_app; simpl; lia). simpl.
    rewrite (assoc_L app (pre ++ _)). set (pre' := (pre ++ _) ++ v).
    assert (length pre' = (length pre + (length v + 2))%nat) as Hpre
      by (unfold pre'; rewrite !length_app; simpl; lia).
    replace (length pre + (length v + 2 + body_len l))%nat with (length pre' + body_len l)%nat by lia.
    rewrite <- Hpre.
    rewrite IH by (done || lia). done.
Qed.

(** The attribute loop ends, never indexes out of range, and what it accepts is
    exactly what the encoder writes. *)
Lemma parse_attributes_total fuel bytes len cursor :
  (len ≤ length bytes)%nat → (len - cursor ≤ fuel)%nat →
  ∃ r, parse_attributes fuel bytes len cursor = Some r.
Proof.
  revert cursor. induction fuel as [|fuel IH]; intros cursor Hlen Hf; simpl.
  - cmp. by eexists.
  - destruct (Nat.ltb_spec cursor len); [|by eexists].
    destruct (Nat.ltb_spec len (cursor + 2)); [by eexists|].
    destruct (lookup_in_range bytes cursor) as [k ->]; [lia|].
    destruct (lookup_in_range bytes (cursor + 1)) as [l ->]; [lia|]. simpl.
    destruct (Nat.ltb_spec (N.to_nat l) 2); [by eexists|]. simpl.
    destruct (Nat.ltb_spec len (cursor + N.to_nat l)); [by eexists|].
    rewrite slice_Some by lia. simpl.
    destruct (IH (cursor + N.to_nat l)%nat) as [r ->]; [lia..|]. by eexists.
Qed.

Lemma take_split_attr (bytes : list N) cursor k l len :
  bytes !! cursor = Some k → bytes !! (cursor + 1)%nat = Some l →
  (2 ≤ N.to_nat l)%nat → (cursor + N.to_nat l ≤ len)%nat → (len ≤ length bytes)%nat →
  take (len - cursor) (drop cursor bytes)
  = [k; l] ++ take (N.to_nat l - 2) (drop (cursor + 2) bytes)
    ++ take (len - (cursor + N.to_nat l)) (drop (cursor + N.to_nat l) bytes).
Proof.
  intros Hk Hl H2 Hle Hlen.
  rewrite (drop_S bytes k cursor Hk). rewrite (drop_S bytes l (S cursor)) by (rewrite <- Hl; f_equal; lia).
  replace (len - cursor)%nat with (S (S (len - cursor - 2))) by lia. simpl. do 2 f_equal.
  replace (S (S cursor)) with (cursor + 2)%nat by lia.
  replace (drop (cursor + N.to_nat l) bytes) with (drop (N.to_nat l - 2) (drop (cursor + 2) bytes))
    by (rewrite drop_drop; f_equal; lia).
  rewrite <- (take_drop (N.to_nat l - 2) (drop (cursor + 2) bytes)) at 1.
  rewrite take_app_ge by (rewrite length_take; lia). f_equal. f_equal.
  rewrite length_take, length_drop. lia.
Qed.

Lemma parse_attributes_exact fuel bytes len cursor l :
  bytes_ok bytes = true → (len ≤ length bytes)%nat → (cursor ≤ len)%nat →
  parse_attributes fuel bytes len cursor = Some (Ok l) →
  concat (map attribute_bytes l) = take (len - cursor) (drop cursor bytes)
  ∧ Forall (fun a => (length (value a) ≤ 253)%nat) l.
Proof.
  intros Hok Hlen. revert cursor l.
  assert (∀ c, (len ≤ c)%nat → take (len - c) (drop c bytes) = []) as Hnil.
  { intros c Hc. by replace (len - c)%nat with 0%nat by lia. }
  induction fuel as [|fuel IH]; intros cursor l Hc; simpl.
  - destruct (Nat.ltb_spec cursor len); [done|]. intros [= <-]. by rewrite Hnil.
  - destruct (Nat.ltb_spec cursor len); [|intros [= <-]; by rewrite Hnil].
    destruct (Nat.ltb_spec len (cursor + 2)); [done|].
    destruct (lookup_in_range bytes cursor) as [k Hk]; [lia|].
    destruct (lookup_in_range bytes (cursor + 1)) as [b Hb]; [lia|]. rewrite Hk, Hb. simpl.
    destruct (Nat.ltb_spec (N.to_nat b) 2); [done|]. simpl.
    destruct (Nat.ltb_spec len (cursor + N.to_nat b)); [done|].
    rewrite slice_Some by lia. simpl.
    destruct (parse_attributes fuel bytes len _) as [[rest|]|] eqn:E; simpl; [|done..].
    intros [= <-]. apply IH in E as [He Hall]; [|lia].
    pose proof (bytes_ok_lookup _ _ _ Hok Hb).
    assert (length (take (cursor + N.to_nat b - (cursor + 2)) (drop (cursor + 2) bytes))
            = (N.to_nat b - 2)%nat) as Hv by (rewrite length_take, length_drop; lia).
    split; [|constructor; [simpl; rewrite Hv; lia|done]].
    rewrite (take_split_attr _ _ _ _ _ Hk Hb) by lia. rewrite <- He. simpl. unfold as_u8.
    rewrite Hv. f_equal. f_equal.
    + rewrite N.mod_small; lia.
    + f_equal. f_equal. lia.
Qed.


(** The packets [encode_radius_packet] can represent: a 16-byte authenticator, values
    whose length fits the length byte, a total that fits the [u16] length field, and a
    code that is the decoding of its own byte ([Other(1)] is not). *)
Definition radius_representable (p : RadiusPacket) : Prop :=
  length (authenticator p) = 16%nat
  ∧ Forall (fun a => (length (value a) ≤ 253)%nat) (attributes p)
  ∧ (N.of_nat (20 + body_len (attributes p)) < 65536)
  ∧ radius_code_from_byte (radius_code_as_byte (code p)) = code p.

(** The length field of a packet. *)
Definition declared_length (bytes : list N) : nat :=
  match bytes with
  | _ :: _ :: b2 :: b3 :: _ => N.to_nat (u16_from_be b2 b3)
  | _ => 0%nat
  end.

Lemma encode_radius_packet_length p :
  length (authenticator p) = 16%nat →
  length (encode_radius_packet p) = (20 + body_len (attributes p))%nat.
Proof. intros Ha. unfold encode_radius_packet. rewrite !length_app, length_attributes, Ha. done. Qed.

Lemma parse_encoded_radius p t :
  radius_representable p → parse_radius_packet (encode_radius_packet p ++ t) = Some (Ok p).
Proof.
  intros (Ha & Hv & Hl & Hc). unfold parse_radius_packet.
  rewrite length_app, encode_radius_packet_length by done.
  cmp.
  set (hdr := [radius_code_as_byte (code p); identifier p]
              ++ u16_be (as_u16 (N.of_nat (20 + body_len (attributes p))))).
  assert (encode_radius_packet p ++ t
          = (hdr ++ authenticator p) ++ concat (map attribute_bytes (attributes p)) ++ t) as ->.
  { unfold encode_radius_packet, hdr. by rewrite <- !(assoc_L app). }
  assert (length (hdr ++ authenticator p) = 20%nat) as H20 by (rewrite length_app, Ha; done).
  assert (slice ((hdr ++ authenticator p) ++ concat (map attribute_bytes (attributes p)) ++ t) 4 20
          = Some (authenticator p)) as ->.
  { rewrite <- (assoc_L app). apply slice_middle; [done|by rewrite Ha]. }
  pose proof (parse_attributes_encoded (20 + body_len (attributes p)) (attributes p)
                (hdr ++ authenticator p) t Hv ltac:(lia)) as Hp.
  rewrite H20 in Hp. unfold hdr in *. cbn [app u16_be lookup list_lookup mbind option_bind] in *.
  unfold as_u16. rewrite N.mod_small by done. rewrite u16_roundtrip by done. rewrite Nat2N.id.
  cmp. simpl (20 + _)%nat in *. unfold as_u16 in Hp.
  rewrite N.mod_small in Hp by done. rewrite Hp. cbn. rewrite Hc. by destruct p.
Qed.


Lemma four_bytes (bytes : list N) :
  (4 ≤ length bytes)%nat → ∃ b0 b1 b2 b3 r, bytes = b0 :: b1 :: b2 :: b3 :: r.
Proof. destruct bytes as [|b0 [|b1 [|b2 [|b3 r]]]]; simpl; try lia. intros _. by do 5 eexists. Qed.

Lemma parse_radius_total bytes : ∃ r, parse_radius_packet bytes = Some r.
Proof.
  unfold parse_radius_packet. destruct (Nat.ltb_spec (length bytes) 20); [by eexists|].
  destruct (four_bytes bytes) as (b0 & b1 & b2 & b3 & r & ->); [lia|].
  cbn [lookup list_lookup mbind option_bind].
  set (len := N.to_nat (u16_from_be b2 b3)). set (bs := b0 :: b1 :: b2 :: b3 :: r) in *.
  destruct (Nat.ltb_spec (length bs) len); [by eexists|].
  rewrite slice_Some by lia. cbn [mbind option_bind].
  destruct (parse_attributes_total len bs len 20) as [x ->]; [lia..|]. by eexists.
Qed.

Lemma take_split {A} (l : list A) n m :
  (n ≤ m)%nat → take m l = take n l ++ take (m - n) (drop n l).
Proof.
  intros. rewrite <- skipn_firstn_comm. rewrite <- (take_drop n (take m l)) at 1.
  by rewrite take_take, Nat.min_l by done.
Qed.

Lemma encode_radius_unfold c i a l :
  encode_radius_packet {| code := c; identifier := i; authenticator := a; attributes := l |}
  = [radius_code_as_byte c; i] ++ u16_be (as_u16 (N.of_nat (20 + body_len l))) ++ a
    ++ concat (map attribute_bytes l).
Proof. done. Qed.

Lemma parse_radius_accepts bytes p :
  bytes_ok bytes = true → parse_radius_packet bytes = Some (Ok p) →
  (20 ≤ declared_length bytes)%nat →
  encode_radius_packet p = take (declared_length bytes) bytes ∧ radius_representable p.
Proof.
  intros Hok. unfold parse_radius_packet. destruct (Nat.ltb_spec (length bytes) 20); [done|].
  destruct (four_bytes bytes) as (b0 & b1 & b2 & b3 & r & Hb); [lia|].
  assert (bytes !! 0%nat = Some b0 ∧ bytes !! 1%nat = Some b1 ∧ bytes !! 2%nat = Some b2
          ∧ bytes !! 3%nat = Some b3) as (L0 & L1 & L2 & L3) by by rewrite Hb.
  rewrite L0, L1, L2, L3. cbn [mbind option_bind].
  assert (declared_length bytes = N.to_nat (u16_from_be b2 b3)) as Hd by by rewrite Hb.
  rewrite <- Hd. destruct (Nat.ltb_spec (length bytes) (declared_length bytes)); [done|].
  rewrite slice_Some by lia. cbn [mbind option_bind].
  destruct (parse_attributes _ _ _ _) as [[ats|]|] eqn:E; cbn [mbind option_bind res_bind]; [|done..].
  intros [= <-] H20. apply parse_attributes_exact in E as [He Hv]; [|done|lia..].
  assert (length (concat (map attribute_bytes ats)) = (declared_length bytes - 20)%nat) as Hlen.
  { rewrite He, length_take, length_drop. lia. }
  rewrite length_attributes in Hlen.
  assert (b2 < 256 ∧ b3 < 256) as [H2 H3].
  { split; by eapply (bytes_ok_lookup bytes). }
  assert (u16_from_be b2 b3 < 65536) by (unfold u16_from_be; lia).
  assert (length (take (20 - 4) (drop 4 bytes)) = 16%nat) as H16 by (rewrite length_take, length_drop; lia).
  split; [|repeat split; cbn [code authenticator attributes];
             [done|done|rewrite Hlen; lia|by rewrite radius_code_as_from]].
  rewrite encode_radius_unfold, Hlen, radius_code_as_from, He. unfold as_u16. rewrite N.mod_small by lia.
  replace (N.of_nat (20 + (declared_length bytes - 20))) with (u16_from_be b2 b3) by lia.
  rewrite u16_from_be_inv by done.
  rewrite (take_split bytes 4 (declared_length bytes)) by lia.
  rewrite (take_split (drop 4 bytes) 16 (declared_length bytes - 4)) by lia.
  rewrite drop_drop, <- Nat.sub_add_distr.
  assert (take 4 bytes = [b0; b1; b2; b3]) as -> by by rewrite Hb. done.
Qed.

(** Parsing inverts encoding for RADIUS: every representable packet, whatever
    follows it in the buffer, is parsed back to itself. *)
Theorem radius_roundtrip p t :
  radius_representable p → parse_radius_packet (encode_radius_packet p ++ t) = Some (Ok p).
Proof. apply parse_encoded_radius. Qed.

Definition sample_packet : RadiusPacket :=
  {| code := AccessRequest; identifier := 7; authenticator := replicate 16 9;
     attributes := [{| kind := 1; value := [98; 111; 98] |}; {| kind := 4; value := [] |}] |}.

Lemma radius_roundtrip_witness :
  radius_representable sample_packet
  ∧ parse_radius_packet (encode_radius_packet sample_packet ++ [255; 0]) = Some (Ok sample_packet).
Proof.
  assert (radius_representable sample_packet) as H by (repeat split; cbn; repeat constructor; lia).
  split; [exact H|]. exact (radius_roundtrip sample_packet [255; 0] H).
Defined.

(** A length field below the 20 bytes of the header is taken for a packet without attributes. *)
Lemma parse_radius_short bytes p :
  parse_radius_packet bytes = Some (Ok p) → (declared_length bytes < 20)%nat →
  encode_radius_packet p = take 2 bytes ++ [0; 20] ++ take 16 (drop 4 bytes) ∧ attributes p = [] ∧ radius_representable p.
Proof.
  unfold parse_radius_packet. destruct (Nat.ltb_spec (length bytes) 20) as [|Hl]; [done|].
  destruct (four_bytes bytes) as (b0 & b1 & b2 & b3 & r & Hb); [lia|]. intros Hp Hd.
  assert (declared_length bytes = N.to_nat (u16_from_be b2 b3)) as Hdl by by rewrite Hb.
  assert (bytes !! 0%nat = Some b0 ∧ bytes !! 1%nat = Some b1 ∧ bytes !! 2%nat = Some b2
          ∧ bytes !! 3%nat = Some b3) as (L0 & L1 & L2 & L3) by by rewrite Hb.
  rewrite L0, L1, L2, L3 in Hp. cbn [mbind option_bind] in Hp. rewrite <- Hdl in Hp.
  destruct (Nat.ltb_spec (length bytes) (declared_length bytes)); [done|].
  rewrite slice_Some in Hp by lia. cbn [mbind option_bind] in Hp.
  assert (∀ fuel, parse_attributes fuel bytes (declared_length bytes) 20 = Some (Ok [])) as E.
  { intros fuel. destruct fuel; cbn [parse_attributes]; by rewrite (proj2 (Nat.ltb_ge 20 (declared_length bytes))) by lia. }
  rewrite E in Hp. cbn [mbind option_bind res_bind] in Hp. injection Hp as <-.
  rewrite encode_radius_unfold, radius_code_as_from, app_nil_r. split_and!; [by rewrite Hb|done|].
  repeat split; cbn [code authenticator attributes]; try done; [rewrite length_take, length_drop; lia|by rewrite radius_code_as_from].
Qed.

(** C36: The RADIUS parser is total and exact.  It never panics and never loops, on any bytes.  Whatever the encoder writes for a
    packet it can represent, followed by anything, is parsed to that packet.  And what is accepted has at least the declared
    length and gives a representable packet whose encoding is, byte for byte, the input up to that length; except that a
    declared length below the 20 bytes of the header, which the parser does not refuse, gives the packet without attributes
    whose encoding is that header with the length corrected to 20. *)
Theorem radius_parse_total_and_exact bytes :
  bytes_ok bytes = true →
  (∃ r, parse_radius_packet bytes = Some r) ∧
  (∀ p t, radius_representable p → bytes = encode_radius_packet p ++ t → parse_radius_packet bytes = Some (Ok p)) ∧
  (∀ p, parse_radius_packet bytes = Some (Ok p) →
     radius_representable p ∧ (declared_length bytes ≤ length bytes)%nat ∧
     if (declared_length bytes <? 20)%nat
     then attributes p = [] ∧ encode_radius_packet p = take 2 bytes ++ [0; 20] ++ take 16 (drop 4 bytes)
     else encode_radius_packet p = take (declared_length bytes) bytes).
Proof.
  intros Hok. split_and!; [apply parse_radius_total|intros p t Hp ->; by apply parse_encoded_radius|]. intros p Hp.
  assert (declared_length bytes ≤ length bytes)%nat as Hlen.
  { unfold parse_radius_packet in Hp. destruct (Nat.ltb_spec (length bytes) 20); [done|].
    destruct (four_bytes bytes) as (b0 & b1 & b2 & b3 & r & ->); [lia|]. cbn [lookup list_lookup mbind option_bind] in Hp.
    destruct (Nat.ltb_spec (length (b0 :: b1 :: b2 :: b3 :: r)) (N.to_nat (u16_from_be b2 b3))); [done|]. done. }
  destruct (Nat.ltb_spec (declared_length bytes) 20) as [Hd|Hd].
  - by destruct (parse_radius_short bytes p Hp Hd) as (? & ? & ?).
  - by destruct (parse_radius_accepts bytes p Hok Hp Hd).
Qed.

Lemma radius_parse_total_and_exact_witness :
  let bytes := encode_radius_packet sample_packet ++ [255; 0] in
  bytes_ok bytes = true
  ∧ encode_radius_packet sample_packet = take 27 bytes.
Proof.
  intros bytes. assert (bytes_ok bytes = true) as Hok by reflexivity. split; [exact Hok|].
  assert (radius_representable sample_packet) as H by (repeat split; cbn; repeat constructor; lia).
  destruct (radius_parse_total_and_exact bytes Hok) as (_ & H1 & H2).
  exact (proj2 (proj2 (H2 sample_packet (H1 sample_packet [255; 0] H eq_refl)))).
Defined.

(** A length field of zero is accepted. *)
Theorem radius_short_length_accepted :
  let bytes := [1; 7; 0; 0] ++ replicate 16 9 in
  ∃ p, parse_radius_packet bytes = Some (Ok p) ∧ encode_radius_packet p ≠ bytes.
Proof. eexists. split; [vm_compute; reflexivity|]. vm_compute. discriminate. Qed.


(** * TACACS+ *)

Lemma tacacs_header_roundtrip h body :
  version h = TACACS_VERSION →
  tacacs_type_from_byte (tacacs_type_as_byte (tacacs_type h)) = tacacs_type h →
  session_id h < 4294967296 → tac_length h < 4294967296 →
  tac_length h ≤ N.of_nat (length body) →
  parse_tacacs_header (encode_tacacs_header h ++ body) = Some (Ok h).
Proof.
  intros Hv Ht Hs Hl Hb. unfold parse_tacacs_header.
  assert (length (encode_tacacs_header h ++ body) = (12 + length body)%nat) as Hlen
    by (rewrite length_app; done).
  rewrite Hlen, (proj2 (Nat.ltb_ge _ _)) by (unfold TACACS_HEADER_LEN; lia).
  cbn [encode_tacacs_header u32_be app]. rewrite N.eqb_refl. cbn [negb].
  rewrite !u32_roundtrip by done. cmp.
  rewrite Ht, <- Hv. by destruct h.
Qed.

Lemma lxor_pad_involutive (body pad : list N) :
  (length body ≤ length pad)%nat → zip_with N.lxor (zip_with N.lxor body pad) pad = body.
Proof.
  revert pad. induction body as [|b body IH]; intros [|x pad] H; simpl in *; try done; [lia|].
  rewrite N.lxor_assoc, N.lxor_nilpotent, N.lxor_0_r. f_equal. apply IH. lia.
Qed.

Section Obfuscation.
Context (md5 : list N → list N) (md5_len : ∀ m, length (md5 m) = 16%nat).

(** One step of fuel per missing byte is enough, since a digest has 16 bytes. *)
Lemma extend_pad_total fuel pad n :
  (n - length pad ≤ fuel)%nat → ∃ pad', extend_pad md5 fuel pad n = Some pad' ∧ (n ≤ length pad')%nat.
Proof.
  revert pad. induction fuel as [|fuel IH]; intros pad Hf; simpl.
  - destruct (Nat.ltb_spec (length pad) n); [lia|]. by exists pad.
  - destruct (Nat.ltb_spec (length pad) n); [|by exists pad].
    apply IH. rewrite length_app, md5_len. lia.
Qed.

Lemma obfuscate_spec body key sid ver seq :
  N.of_nat (length body) ≤ 65535 →
  ∃ pad, tacacs_obfuscate_body md5 body key sid ver seq = Some (Ok (zip_with N.lxor body pad))
  ∧ length pad = length body
  ∧ ∀ other, length other = length body →
    tacacs_obfuscate_body md5 other key sid ver seq = Some (Ok (zip_with N.lxor other pad)).
Proof.
  intros Hb.
  destruct (extend_pad_total (length body) (md5 (u32_be sid ++ [ver; seq] ++ key)) (length body))
    as (pad & Hp & Hl); [lia|].
  assert (∀ other, length other = length body →
    tacacs_obfuscate_body md5 other key sid ver seq
    = Some (Ok (zip_with N.lxor other (take (length body) pad)))) as Hall.
  { intros other Ho. unfold tacacs_obfuscate_body. rewrite Ho, (proj2 (N.ltb_ge _ _)) by lia.
    rewrite Hp. done. }
  exists (take (length body) pad). split_and!; [by apply Hall| |done].
  rewrite length_take. lia.
Qed.

Lemma obfuscate_involutive body key sid ver seq :
  N.of_nat (length body) ≤ 65535 →
  ∃ wire, tacacs_obfuscate_body md5 body key sid ver seq = Some (Ok wire)
  ∧ length wire = length body
  ∧ tacacs_deobfuscate_body md5 wire key sid ver seq = Some (Ok body).
Proof.
  intros Hb. destruct (obfuscate_spec body key sid ver seq Hb) as (pad & Ho & Hl & Hall).
  assert (length (zip_with N.lxor body pad) = length body) as Hw
    by (rewrite length_zip_with; lia).
  eexists. split_and!; [exact Ho|exact Hw|]. unfold tacacs_deobfuscate_body.
  rewrite Hall by done. by rewrite lxor_pad_involutive by lia.
Qed.

End Obfuscation.

(** A TACACS+ packet survives the wire.  When MD5 yields 16-byte digests, a body of
    at most 65535 bytes is obfuscated to as many bytes, the header written in front of
    them is parsed back to itself, and deobfuscating what follows it with the same key
    gives the body; a longer body is refused, and no input makes the pad loop run on. *)
Theorem tacacs_packet_roundtrip (md5 : list N → list N) h body key :
  (∀ m, length (md5 m) = 16%nat) →
  version h = TACACS_VERSION →
  tacacs_type_from_byte (tacacs_type_as_byte (tacacs_type h)) = tacacs_type h →
  session_id h < 4294967296 →
  tac_length h = N.of_nat (length body) →
  if N.of_nat (length body) <=? 65535 then
    ∃ wire, tacacs_obfuscate_body md5 body key (session_id h) (version h) (sequence_number h)
            = Some (Ok wire)
    ∧ parse_tacacs_header (encode_tacacs_header h ++ wire) = Some (Ok h)
    ∧ tacacs_deobfuscate_body md5 (drop TACACS_HEADER_LEN (encode_tacacs_header h ++ wire)) key
        (session_id h) (version h) (sequence_number h) = Some (Ok body)
  else
    ∃ e, tacacs_obfuscate_body md5 body key (session_id h) (version h) (sequence_number h) = Some (Err e).
Proof.
  intros Hmd5 Hv Ht Hs Hl. destruct (N.leb_spec (N.of_nat (length body)) 65535) as [Hb|Hb].
  - destruct (obfuscate_involutive md5 Hmd5 body key (session_id h) (version h) (sequence_number h) Hb)
      as (wire & Ho & Hw & Hd).
    exists wire. split_and!; [done| |done].
    apply tacacs_header_roundtrip; [done..|lia|lia].
  - unfold tacacs_obfuscate_body. cmp. by eexists.
Qed.

Definition sample_md5 (m : list N) : list N := replicate 16 (N.of_nat (length m) mod 256).

Definition sample_header : TacacsHeader :=
  {| version := 0xc1; tacacs_type := Accounting; sequence_number := 3; flags := 0;
     session_id := 0xdeadbeef; tac_length := 20 |}.

Lemma tacacs_packet_roundtrip_witness :
  ∃ wire, parse_tacacs_header (encode_tacacs_header sample_header ++ wire) = Some (Ok sample_header)
  ∧ tacacs_deobfuscate_body sample_md5 wire [1; 2] 0xdeadbeef 0xc1 3 = Some (Ok (replicate 20 77)).
Proof.
  destruct (tacacs_packet_roundtrip sample_md5 sample_header (replicate 20 77) [1; 2])
    as (wire & _ & Hh & Hd).
  - intros m. apply length_replicate.
  - reflexivity.
  - reflexivity.
  - vm_compute. reflexivity.
  - reflexivity.
  - exists wire. split; [exact Hh|exact Hd].
Defined.

End Network.
