(* ===== verification/Tokens.v ===== *)
(** The token tables of the file repository (src/qid-storage/src/file/token.rs, with
    file/insert.rs, the rotation rules of domain/mod.rs and the records of
    src/qid-core/src/models/oauth.rs): authorization codes, refresh-token families,
    access tokens, pushed authorization requests, device and backchannel grants.

    An operation takes the outcome of the final [save] and returns its result with the
    new tables.  The refresh rotation is also modelled as the interleaving it is: the
    rotation mutates the tables before it is persisted, other calls may change them
    while it writes, and a failed write is rolled back; [file_step] is the step
    relation of one repository in memory, its lock and the file on disk.

    [J] is [serde_json::Value], which the operations store without reading. *)

From S2P Require Import Prelude.

Module Tokens.

Section Tokens.
Context {J : Type}.

Record AuthorizationCode : Type := {
  code_hash : string; ac_client_id : string; ac_user_id : string; ac_realm_id : string;
  redirect_uri : string; state : option string; ac_nonce : option string; ac_auth_time : option N;
  ac_acr : option string; ac_amr : list string; code_challenge : option string;
  code_challenge_method : option string; ac_scopes : list string; ac_resource : list string;
  ac_authorization_details : option J; ac_expires_at : N; ac_used : bool; ac_created_at : N;
  ac_session_id : option string
}.

Record TokenFamily : Type := {
  tf_id : string; tf_user_id : string; tf_client_id : string; tf_realm_id : string;
  current_refresh_hash : string; tf_scopes : list string; tf_auth_time : option N;
  tf_acr : option string; tf_amr : list string; tf_audience : list string; tf_resource : list string;
  tf_authorization_details : option J; tf_sender_constraint : option J; tf_issued_at : N;
  refresh_expires_at : option N; tf_session_id : option string; tf_revoked : bool
}.

Inductive TokenFormat : Type := Jwt | Opaque.

Record AccessToken : Type := {
  jti : string; family_id : option string; at_user_id : string; at_client_id : string;
  at_realm_id : string; at_scopes : list string; at_audience : list string; at_resource : list string;
  at_authorization_details : option J; at_cnf : option J; at_auth_time : option N; at_acr : option string;
  at_amr : list string; at_nonce : option string; at_sender_constraint : option J;
  token_format : TokenFormat; at_expires_at : N; at_revoked : bool; at_issued_at : N
}.

Record ParRequest : Type := {
  request_uri : string; par_client_id : string; par_realm_id : string; params_json : J;
  par_expires_at : N; par_used : bool; par_created_at : N
}.

Record DeviceAuthorizationGrant : Type := {
  device_code_hash : string; user_code : string; dg_client_id : string; dg_realm_id : string;
  dg_scopes : list string; dg_resource : list string; dg_audience : list string;
  dg_user_id : option string; dg_expires_at : N; dg_approved_at : option N; dg_consumed : bool;
  dg_last_poll_at : option N; dg_poll_interval_seconds : N; dg_created_at : N
}.

Record BackchannelAuthenticationGrant : Type := {
  auth_req_id_hash : string; bg_client_id : string; bg_realm_id : string; login_hint : string;
  binding_message : option string; bg_scopes : list string; bg_resource : list string;
  bg_audience : list string; bg_user_id : option string; bg_expires_at : N; bg_approved_at : option N;
  bg_consumed : bool; bg_last_poll_at : option N; bg_poll_interval_seconds : N; bg_created_at : N
}.

(** The tables of [Store] these operations touch. *)
Record Store : Type := {
  authorization_codes : gmap string AuthorizationCode;
  token_families : gmap string TokenFamily;
  access_tokens : gmap string AccessToken;
  par_requests : gmap string ParRequest;
  device_authorization_grants : gmap string DeviceAuthorizationGrant;
  backchannel_authentication_grants : gmap string BackchannelAuthenticationGrant
}.

Definition empty_store : Store :=
  {| authorization_codes := ∅; token_families := ∅; access_tokens := ∅; par_requests := ∅;
     device_authorization_grants := ∅; backchannel_authentication_grants := ∅ |}.

(** Field updates of [&mut] records. *)
Definition with_codes (s : Store) m : Store :=
  {| authorization_codes := m; token_families := token_families s; access_tokens := access_tokens s;
     par_requests := par_requests s; device_authorization_grants := device_authorization_grants s;
     backchannel_authentication_grants := backchannel_authentication_grants s |}.
Definition with_families (s : Store) m : Store :=
  {| authorization_codes := authorization_codes s; token_families := m; access_tokens := access_tokens s;
     par_requests := par_requests s; device_authorization_grants := device_authorization_grants s;
     backchannel_authentication_grants := backchannel_authentication_grants s |}.
Definition with_tokens (s : Store) m : Store :=
  {| authorization_codes := authorization_codes s; token_families := token_families s; access_tokens := m;
     par_requests := par_requests s; device_authorization_grants := device_authorization_grants s;
     backchannel_authentication_grants := backchannel_authentication_grants s |}.
Definition with_pars (s : Store) m : Store :=
  {| authorization_codes := authorization_codes s; token_families := token_families s;
     access_tokens := access_tokens s; par_requests := m;
     device_authorization_grants := device_authorization_grants s;
     backchannel_authentication_grants := backchannel_authentication_grants s |}.
Definition with_devices (s : Store) m : Store :=
  {| authorization_codes := authorization_codes s; token_families := token_families s;
     access_tokens := access_tokens s; par_requests := par_requests s; device_authorization_grants := m;
     backchannel_authentication_grants := backchannel_authentication_grants s |}.
Definition with_backchannels (s : Store) m : Store :=
  {| authorization_codes := authorization_codes s; token_families := token_families s;
     access_tokens := access_tokens s; par_requests := par_requests s;
     device_authorization_grants := device_authorization_grants s; backchannel_authentication_grants := m |}.

Definition code_used (c : AuthorizationCode) : AuthorizationCode :=
  {| code_hash := code_hash c; ac_client_id := ac_client_id c; ac_user_id := ac_user_id c;
     ac_realm_id := ac_realm_id c; redirect_uri := redirect_uri c; state := state c; ac_nonce := ac_nonce c;
     ac_auth_time := ac_auth_time c; ac_acr := ac_acr c; ac_amr := ac_amr c;
     code_challenge := code_challenge c; code_challenge_method := code_challenge_method c;
     ac_scopes := ac_scopes c; ac_resource := ac_resource c;
     ac_authorization_details := ac_authorization_details c; ac_expires_at := ac_expires_at c;
     ac_used := true; ac_created_at := ac_created_at c; ac_session_id := ac_session_id c |}.

Definition with_refresh (f : TokenFamily) (h : string) (deadline : option N) : TokenFamily :=
  {| tf_id := tf_id f; tf_user_id := tf_user_id f; tf_client_id := tf_client_id f;
     tf_realm_id := tf_realm_id f; current_refresh_hash := h; tf_scopes := tf_scopes f;
     tf_auth_time := tf_auth_time f; tf_acr := tf_acr f; tf_amr := tf_amr f; tf_audience := tf_audience f;
     tf_resource := tf_resource f; tf_authorization_details := tf_authorization_details f;
     tf_sender_constraint := tf_sender_constraint f; tf_issued_at := tf_issued_at f;
     refresh_expires_at := deadline; tf_session_id := tf_session_id f; tf_revoked := tf_revoked f |}.

Definition family_or_revoked (f : TokenFamily) (b : bool) : TokenFamily :=
  {| tf_id := tf_id f; tf_user_id := tf_user_id f; tf_client_id := tf_client_id f;
     tf_realm_id := tf_realm_id f; current_refresh_hash := current_refresh_hash f; tf_scopes := tf_scopes f;
     tf_auth_time := tf_auth_time f; tf_acr := tf_acr f; tf_amr := tf_amr f; tf_audience := tf_audience f;
     tf_resource := tf_resource f; tf_authorization_details := tf_authorization_details f;
     tf_sender_constraint := tf_sender_constraint f; tf_issued_at := tf_issued_at f;
     refresh_expires_at := refresh_expires_at f; tf_session_id := tf_session_id f;
     tf_revoked := tf_revoked f || b |}.

Definition token_or_revoked (t : AccessToken) (b : bool) : AccessToken :=
  {| jti := jti t; family_id := family_id t; at_user_id := at_user_id t; at_client_id := at_client_id t;
     at_realm_id := at_realm_id t; at_scopes := at_scopes t; at_audience := at_audience t;
     at_resource := at_resource t; at_authorization_details := at_authorization_details t;
     at_cnf := at_cnf t; at_auth_time := at_auth_time t; at_acr := at_acr t; at_amr := at_amr t;
     at_nonce := at_nonce t; at_sender_constraint := at_sender_constraint t;
     token_format := token_format t; at_expires_at := at_expires_at t; at_revoked := at_revoked t || b;
     at_issued_at := at_issued_at t |}.

Definition par_mark_used (p : ParRequest) : ParRequest :=
  {| request_uri := request_uri p; par_client_id := par_client_id p; par_realm_id := par_realm_id p;
     params_json := params_json p; par_expires_at := par_expires_at p; par_used := true;
     par_created_at := par_created_at p |}.

Definition device_update (g : DeviceAuthorizationGrant) u a c lp pi : DeviceAuthorizationGrant :=
  {| device_code_hash := device_code_hash g; user_code := user_code g; dg_client_id := dg_client_id g;
     dg_realm_id := dg_realm_id g; dg_scopes := dg_scopes g; dg_resource := dg_resource g;
     dg_audience := dg_audience g; dg_user_id := u; dg_expires_at := dg_expires_at g;
     dg_approved_at := a; dg_consumed := c; dg_last_poll_at := lp; dg_poll_interval_seconds := pi;
     dg_created_at := dg_created_at g |}.

Definition backchannel_update (g : BackchannelAuthenticationGrant) u a c lp pi : BackchannelAuthenticationGrant :=
  {| auth_req_id_hash := auth_req_id_hash g; bg_client_id := bg_client_id g; bg_realm_id := bg_realm_id g;
     login_hint := login_hint g; binding_message := binding_message g; bg_scopes := bg_scopes g;
     bg_resource := bg_resource g; bg_audience := bg_audience g; bg_user_id := u;
     bg_expires_at := bg_expires_at g; bg_approved_at := a; bg_consumed := c; bg_last_poll_at := lp;
     bg_poll_interval_seconds := pi; bg_created_at := bg_created_at g |}.

(** * Create-only inserts *)

Definition reject_duplicate_id (exists_ : bool) (message : string) : QidResult unit :=
  if exists_ then Err (Conflict message) else Ok tt.

Definition unique_match {T : Type} (matches : list T) (message : string) : QidResult (option T) :=
  reject_duplicate_id (match matches with _ :: _ :: _ => true | _ => false end) message ?;
  Ok (head matches).

Class InsertIdentity (T : Type) : Type := {
  RECORD : string; IDENTITY : string; GLOBAL_IDENTITY : bool;
  ins_id : T → string; identity : T → option (string * string)
}.

Definition insert_new {T : Type} `{InsertIdentity T} (m : gmap string T) (record : T)
    : QidResult (gmap string T) :=
  reject_duplicate_id (bool_decide (is_Some (m !! ins_id record)))
    (RECORD +:+ " record ID " +:+ ins_id record +:+ " already exists") ?;
  match identity record with
  | Some (owner, ident) =>
      if existsb (fun '(_, stored) => bool_decide (identity stored = Some (owner, ident))) (map_to_list m)
      then Err (Conflict
             (if GLOBAL_IDENTITY then IDENTITY +:+ " " +:+ ident +:+ " already exists globally"
              else IDENTITY +:+ " " +:+ ident +:+ " already exists in realm " +:+ owner))
      else Ok (<[ins_id record := record]> m)
  | None => Ok (<[ins_id record := record]> m)
  end.

#[global] Instance par_identity : InsertIdentity ParRequest := {|
  RECORD := "PAR request"; IDENTITY := "PAR request URI"; GLOBAL_IDENTITY := false;
  ins_id := request_uri; identity := fun _ => None
|}.

#[global] Instance device_identity : InsertIdentity DeviceAuthorizationGrant := {|
  RECORD := "device authorization grant"; IDENTITY := "device user code"; GLOBAL_IDENTITY := true;
  ins_id := device_code_hash; identity := fun g => Some ("", user_code g)
|}.

#[global] Instance backchannel_identity : InsertIdentity BackchannelAuthenticationGrant := {|
  RECORD := "backchannel authentication grant"; IDENTITY := "backchannel authentication grant";
  GLOBAL_IDENTITY := false; ins_id := auth_req_id_hash; identity := fun _ => None
|}.

(** * Operations

    [saved] is what [save] (or the locked flush) returned at the end of the call. *)

Definition create_authorization_code (saved : QidResult unit) (code : AuthorizationCode) (s : Store)
    : QidResult unit * Store :=
  match authorization_codes s !! code_hash code with
  | Some _ => (Err (Storage ("duplicate code " +:+ code_hash code)), s)
  | None => (saved, with_codes s (<[code_hash code := code]> (authorization_codes s)))
  end.

Definition get_authorization_code (h : string) (s : Store) : QidResult (option AuthorizationCode) :=
  Ok (authorization_codes s !! h).

Definition auth_code_owner_matches (cur exp : AuthorizationCode) : bool :=
  String.eqb (ac_realm_id cur) (ac_realm_id exp) && String.eqb (ac_client_id cur) (ac_client_id exp)
  && String.eqb (ac_user_id cur) (ac_user_id exp).

(** [Option::filter] *)
Definition opt_filter {A : Type} (p : A → bool) (o : option A) : option A :=
  match o with Some a => if p a then Some a else None | None => None end.

Definition mark_authorization_code_used (saved : QidResult unit) (code : AuthorizationCode) (s : Store)
    : QidResult unit * Store :=
  match opt_filter (fun stored => auth_code_owner_matches stored code)
          (authorization_codes s !! code_hash code) with
  | None => (Err (NotFound ("authorization code " +:+ code_hash code)), s)
  | Some stored =>
      if ac_used stored then (Err (Conflict "authorization code already consumed"), s)
      else (saved, with_codes s (<[code_hash code := code_used stored]> (authorization_codes s)))
  end.

Definition create_token_family (saved : QidResult unit) (family : TokenFamily) (s : Store)
    : QidResult unit * Store :=
  match token_families s !! tf_id family with
  | Some _ => (Err (Storage ("duplicate family " +:+ tf_id family)), s)
  | None => (saved, with_families s (<[tf_id family := family]> (token_families s)))
  end.

Definition get_token_family (id : string) (s : Store) : QidResult (option TokenFamily) :=
  Ok (token_families s !! id).

Definition validate_token_family_rotation (f : TokenFamily) (expected new_hash : string) : QidResult unit :=
  if tf_revoked f then Err (Conflict ("token family " +:+ tf_id f +:+ " is revoked"))
  else if negb (String.eqb (current_refresh_hash f) expected)
  then Err (Conflict ("token family " +:+ tf_id f +:+ " refresh token already consumed"))
  else if String.eqb new_hash expected || String.eqb (current_refresh_hash f) new_hash
  then Err (Conflict ("token family " +:+ tf_id f +:+ " refresh hash reuse detected"))
  else Ok tt.

(** The rotation up to the release of the store lock: the tables with the tentative
    fields, and the previous fields. *)
Definition rotate_begin (id realm_id expected new_hash : string) (deadline : N) (s : Store)
    : QidResult (Store * (string * option N)) :=
  match opt_filter (fun f => String.eqb (tf_realm_id f) realm_id) (token_families s !! id) with
  | None => Err (NotFound ("token family " +:+ id))
  | Some f =>
      validate_token_family_rotation f expected new_hash ?;
      Ok (with_families s (<[id := with_refresh f new_hash (Some deadline)]> (token_families s)),
          (current_refresh_hash f, refresh_expires_at f))
  end.

(** What a failed flush undoes: the two rotation fields of the family, if it is still
    there. *)
Definition rotate_rollback (id : string) (previous : string * option N) (s : Store) : Store :=
  match token_families s !! id with
  | Some f => with_families s (<[id := with_refresh f previous.1 previous.2]> (token_families s))
  | None => s
  end.

Inductive FileFlushMode : Type := Immediate | Interval (seconds : N).

(** A whole rotation with nothing in between; [flushed] is the outcome of the locked
    flush, which only immediate mode performs. *)
Definition update_token_family_refresh_hash (mode : FileFlushMode) (flushed : QidResult unit)
    (id realm_id expected new_hash : string) (deadline : N) (s : Store) : QidResult unit * Store :=
  match rotate_begin id realm_id expected new_hash deadline s with
  | Err e => (Err e, s)
  | Ok (s', previous) =>
      match mode with
      | Interval _ => (Ok tt, s')
      | Immediate =>
          match flushed with
          | Ok tt => (Ok tt, s')
          | Err e => (Err e, rotate_rollback id previous s')
          end
      end
  end.

Definition revoke_token_family (saved : QidResult unit) (id realm_id : string) (s : Store)
    : QidResult unit * Store :=
  (saved,
   match token_families s !! id with
   | Some f => with_families s (<[id := family_or_revoked f (String.eqb (tf_realm_id f) realm_id)]>
                                  (token_families s))
   | None => s
   end).

Definition is_none_or {A : Type} (o : option A) (p : A → bool) : bool :=
  match o with Some a => p a | None => true end.

(** Families of equal [issued_at] come in the order of the map. *)
Definition list_token_families (realm_id : string) (user client : option string) (s : Store)
    : QidResult (list TokenFamily) :=
  let families :=
    List.filter (fun f => is_none_or client (fun c => String.eqb (tf_client_id f) c))
      (List.filter (fun f => is_none_or user (fun u => String.eqb (tf_user_id f) u))
        (List.filter (fun f => String.eqb (tf_realm_id f) realm_id)
          (map snd (map_to_list (token_families s))))) in
  Ok (sort_by (fun a b => tf_issued_at b <=? tf_issued_at a) families).

Definition create_access_token (saved : QidResult unit) (t : AccessToken) (s : Store)
    : QidResult unit * Store :=
  match access_tokens s !! jti t with
  | Some _ => (Err (Storage ("duplicate token " +:+ jti t)), s)
  | None => (saved, with_tokens s (<[jti t := t]> (access_tokens s)))
  end.

Definition get_access_token (id : string) (s : Store) : QidResult (option AccessToken) :=
  Ok (access_tokens s !! id).

Definition revoke_access_token (saved : QidResult unit) (id realm_id : string) (s : Store)
    : QidResult unit * Store :=
  (saved,
   match access_tokens s !! id with
   | Some t => with_tokens s (<[id := token_or_revoked t (String.eqb (at_realm_id t) realm_id)]>
                                (access_tokens s))
   | None => s
   end).

Definition store_par_request (saved : QidResult unit) (req : ParRequest) (s : Store)
    : QidResult unit * Store :=
  match insert_new (par_requests s) req with
  | Err e => (Err e, s)
  | Ok m => (saved, with_pars s m)
  end.

Definition get_par_request (uri : string) (s : Store) : QidResult (option ParRequest) :=
  Ok (par_requests s !! uri).

Definition mark_par_request_used (saved : QidResult unit) (uri : string) (s : Store)
    : QidResult unit * Store :=
  match par_requests s !! uri with
  | None => (Err (NotFound ("PAR request " +:+ uri)), s)
  | Some req =>
      if par_used req then (Err (Conflict "PAR request already consumed"), s)
      else (saved, with_pars s (<[uri := par_mark_used req]> (par_requests s)))
  end.

Definition store_device_authorization_grant (saved : QidResult unit) (g : DeviceAuthorizationGrant) (s : Store)
    : QidResult unit * Store :=
  match insert_new (device_authorization_grants s) g with
  | Err e => (Err e, s)
  | Ok m => (saved, with_devices s m)
  end.

Definition get_device_authorization_grant (h : string) (s : Store)
    : QidResult (option DeviceAuthorizationGrant) :=
  Ok (device_authorization_grants s !! h).

Definition devices_with_code (code : string) (s : Store) : list (string * DeviceAuthorizationGrant) :=
  List.filter (fun '(_, g) => String.eqb (user_code g) code) (map_to_list (device_authorization_grants s)).

Definition get_device_authorization_grant_by_user_code (code : string) (s : Store)
    : QidResult (option DeviceAuthorizationGrant) :=
  let? found := unique_match (devices_with_code code s) "ambiguous device user code" in
  Ok (snd <$> found).

Definition approve_device_authorization_grant (saved : QidResult unit) (code user_id : string)
    (approved_at : N) (s : Store) : QidResult unit * Store :=
  match unique_match (devices_with_code code s) "ambiguous device user code" with
  | Err e => (Err e, s)
  | Ok None => (Err (NotFound "device authorization grant"), s)
  | Ok (Some (k, g)) =>
      (saved, with_devices s
        (<[k := device_update g (Some user_id) (Some approved_at) (dg_consumed g) (dg_last_poll_at g)
                  (dg_poll_interval_seconds g)]> (device_authorization_grants s)))
  end.

Definition record_device_authorization_poll (saved : QidResult unit) (h : string) (polled_at interval : N)
    (s : Store) : QidResult unit * Store :=
  (saved,
   match device_authorization_grants s !! h with
   | Some g => with_devices s
       (<[h := device_update g (dg_user_id g) (dg_approved_at g) (dg_consumed g) (Some polled_at) interval]>
          (device_authorization_grants s))
   | None => s
   end).

Definition consume_device_authorization_grant (saved : QidResult unit) (h : string) (s : Store)
    : QidResult unit * Store :=
  match device_authorization_grants s !! h with
  | None => (Err (NotFound ("device authorization grant " +:+ h)), s)
  | Some g =>
      if dg_consumed g then (Err (Conflict "device authorization grant already consumed"), s)
      else (saved, with_devices s
        (<[h := device_update g (dg_user_id g) (dg_approved_at g) true (dg_last_poll_at g)
                  (dg_poll_interval_seconds g)]> (device_authorization_grants s)))
  end.

Definition store_backchannel_authentication_grant (saved : QidResult unit)
    (g : BackchannelAuthenticationGrant) (s : Store) : QidResult unit * Store :=
  match insert_new (backchannel_authentication_grants s) g with
  | Err e => (Err e, s)
  | Ok m => (saved, with_backchannels s m)
  end.

Definition get_backchannel_authentication_grant (h : string) (s : Store)
    : QidResult (option BackchannelAuthenticationGrant) :=
  Ok (backchannel_authentication_grants s !! h).

Definition approve_backchannel_authentication_grant (saved : QidResult unit) (h user_id : string)
    (approved_at : N) (s : Store) : QidResult unit * Store :=
  match backchannel_authentication_grants s !! h with
  | None => (Err (NotFound "backchannel authentication grant"), s)
  | Some g =>
      (saved, with_backchannels s
        (<[h := backchannel_update g (Some user_id) (Some approved_at) (bg_consumed g) (bg_last_poll_at g)
                  (bg_poll_interval_seconds g)]> (backchannel_authentication_grants s)))
  end.

Definition record_backchannel_authentication_poll (saved : QidResult unit) (h : string)
    (polled_at interval : N) (s : Store) : QidResult unit * Store :=
  (saved,
   match backchannel_authentication_grants s !! h with
   | Some g => with_backchannels s
       (<[h := backchannel_update g (bg_user_id g) (bg_approved_at g) (bg_consumed g) (Some polled_at)
                 interval]> (backchannel_authentication_grants s))
   | None => s
   end).

Definition consume_backchannel_authentication_grant (saved : QidResult unit) (h : string) (s : Store)
    : QidResult unit * Store :=
  match backchannel_authentication_grants s !! h with
  | None => (Err (NotFound ("backchannel authentication grant " +:+ h)), s)
  | Some g =>
      if bg_consumed g then (Err (Conflict "backchannel authentication grant already consumed"), s)
      else (saved, with_backchannels s
        (<[h := backchannel_update g (bg_user_id g) (bg_approved_at g) true (bg_last_poll_at g)
                  (bg_poll_interval_seconds g)]> (backchannel_authentication_grants s)))
  end.

(** A call of the repository that changes the tables, apart from the rotation. *)
Inductive TokenOp : Type :=
| OpCreateCode (c : AuthorizationCode)
| OpUseCode (c : AuthorizationCode)
| OpRevokeFamily (id realm_id : string)
| OpCreateToken (t : AccessToken)
| OpRevokeToken (id realm_id : string)
| OpStorePar (r : ParRequest)
| OpUsePar (uri : string)
| OpStoreDevice (g : DeviceAuthorizationGrant)
| OpApproveDevice (code user_id : string) (approved_at : N)
| OpPollDevice (h : string) (polled_at interval : N)
| OpConsumeDevice (h : string)
| OpStoreBackchannel (g : BackchannelAuthenticationGrant)
| OpApproveBackchannel (h user_id : string) (approved_at : N)
| OpPollBackchannel (h : string) (polled_at interval : N)
| OpConsumeBackchannel (h : string).

Definition run_op (o : TokenOp) (saved : QidResult unit) (s : Store) : QidResult unit * Store :=
  match o with
  | OpCreateCode c => create_authorization_code saved c s
  | OpUseCode c => mark_authorization_code_used saved c s
  | OpRevokeFamily id r => revoke_token_family saved id r s
  | OpCreateToken t => create_access_token saved t s
  | OpRevokeToken id r => revoke_access_token saved id r s
  | OpStorePar r => store_par_request saved r s
  | OpUsePar uri => mark_par_request_used saved uri s
  | OpStoreDevice g => store_device_authorization_grant saved g s
  | OpApproveDevice c u t => approve_device_authorization_grant saved c u t s
  | OpPollDevice h t i => record_device_authorization_poll saved h t i s
  | OpConsumeDevice h => consume_device_authorization_grant saved h s
  | OpStoreBackchannel g => store_backchannel_authentication_grant saved g s
  | OpApproveBackchannel h u t => approve_backchannel_authentication_grant saved h u t s
  | OpPollBackchannel h t i => record_backchannel_authentication_poll saved h t i s
  | OpConsumeBackchannel h => consume_backchannel_authentication_grant saved h s
  end.


(** * The repository under interleaving

    A call changes the tables in memory in one step, under the store lock, and
    persists them afterwards: a flush takes [save_lock], copies the tables, and
    replaces the file by the copy or fails without touching it.  In immediate mode a
    family creation and a rotation own [save_lock] from before their mutation until
    their flush has ended. *)

Inductive Purpose : Type :=
| Saving
| CreatingFamily
| Rotating (id expected new_hash : string) (previous : string * option N).

Record Holder : Type := { purpose : Purpose; snapshot : option Store }.

Record FileRepository : Type := {
  flush_mode : FileFlushMode; store : Store; disk : Store; save_lock : option Holder
}.

Definition opened (mode : FileFlushMode) : FileRepository :=
  {| flush_mode := mode; store := empty_store; disk := empty_store; save_lock := None |}.

(** What callers are told. *)
Inductive Event : Type :=
| EvCall (o : TokenOp) (r : QidResult unit)
| EvInserted (id hash : string)
| EvRotated (id expected new_hash : string).

Definition rotation_reported (p : Purpose) : list Event :=
  match p with Rotating id e n _ => [EvRotated id e n] | _ => [] end.

Definition flush_failed (p : Purpose) (s : Store) : Store :=
  match p with Rotating id _ _ previous => rotate_rollback id previous s | _ => s end.

Inductive file_step : FileRepository → list Event → FileRepository → Prop :=
| step_call r o saved :
    file_step r [EvCall o (run_op o saved (store r)).1]
      {| flush_mode := flush_mode r; store := (run_op o saved (store r)).2; disk := disk r;
         save_lock := save_lock r |}
| step_create_immediate r f s' :
    flush_mode r = Immediate → save_lock r = None →
    create_token_family (Ok tt) f (store r) = (Ok tt, s') →
    file_step r [EvInserted (tf_id f) (current_refresh_hash f)]
      {| flush_mode := flush_mode r; store := s'; disk := disk r;
         save_lock := Some {| purpose := CreatingFamily; snapshot := None |} |}
| step_create_interval r f s' :
    flush_mode r ≠ Immediate →
    create_token_family (Ok tt) f (store r) = (Ok tt, s') →
    file_step r [EvInserted (tf_id f) (current_refresh_hash f)]
      {| flush_mode := flush_mode r; store := s'; disk := disk r; save_lock := save_lock r |}
| step_rotate_begin r id realm_id e n d s' previous :
    flush_mode r = Immediate → save_lock r = None →
    rotate_begin id realm_id e n d (store r) = Ok (s', previous) →
    file_step r []
      {| flush_mode := flush_mode r; store := s'; disk := disk r;
         save_lock := Some {| purpose := Rotating id e n previous; snapshot := None |} |}
| step_rotate_interval r id realm_id e n d s' :
    flush_mode r ≠ Immediate →
    update_token_family_refresh_hash (flush_mode r) (Ok tt) id realm_id e n d (store r) = (Ok tt, s') →
    file_step r [EvRotated id e n]
      {| flush_mode := flush_mode r; store := s'; disk := disk r; save_lock := save_lock r |}
| step_lock r :
    save_lock r = None →
    file_step r []
      {| flush_mode := flush_mode r; store := store r; disk := disk r;
         save_lock := Some {| purpose := Saving; snapshot := None |} |}
| step_snapshot r p :
    save_lock r = Some {| purpose := p; snapshot := None |} →
    file_step r []
      {| flush_mode := flush_mode r; store := store r; disk := disk r;
         save_lock := Some {| purpose := p; snapshot := Some (store r) |} |}
| step_written r p content :
    save_lock r = Some {| purpose := p; snapshot := Some content |} →
    file_step r (rotation_reported p)
      {| flush_mode := flush_mode r; store := store r; disk := content; save_lock := None |}
| step_failed r h :
    save_lock r = Some h →
    file_step r []
      {| flush_mode := flush_mode r; store := flush_failed (purpose h) (store r); disk := disk r;
         save_lock := None |}.

(** An execution with what callers were told, the latest first. *)
Inductive exec : FileRepository → list Event → FileRepository → Prop :=
| exec_nil r : exec r [] r
| exec_step r evs r1 ev r2 : exec r evs r1 → file_step r1 ev r2 → exec r (ev ++ evs) r2.

(** The hashes a family was given, the latest first, and the hashes presented by the
    rotations that were accepted. *)
Fixpoint history (evs : list Event) (id : string) : list string :=
  match evs with
  | [] => []
  | EvInserted i h :: evs' => if String.eqb i id then h :: history evs' id else history evs' id
  | EvRotated i _ n :: evs' => if String.eqb i id then n :: history evs' id else history evs' id
  | EvCall _ _ :: evs' => history evs' id
  end.

Fixpoint presented (evs : list Event) (id : string) : list string :=
  match evs with
  | [] => []
  | EvRotated i e _ :: evs' => if String.eqb i id then e :: presented evs' id else presented evs' id
  | _ :: evs' => presented evs' id
  end.

(** The refresh hash of a family: the one before the rotation while it is pending. *)
Definition committed (r : FileRepository) (id : string) : option string :=
  match save_lock r with
  | Some {| purpose := Rotating i e _ _ |} =>
      if String.eqb i id then Some e else current_refresh_hash <$> token_families (store r) !! id
  | _ => current_refresh_hash <$> token_families (store r) !! id
  end.

(** The one-time credentials and whether they are spent. *)
Inductive OneTime : Type :=
| KCode (h : string) | KPar (uri : string) | KDevice (h : string) | KBackchannel (h : string).

#[global] Instance OneTime_eq_dec : EqDecision OneTime.
Proof. solve_decision. Defined.

Definition consumes (o : TokenOp) : option OneTime :=
  match o with
  | OpUseCode c => Some (KCode (code_hash c))
  | OpUsePar uri => Some (KPar uri)
  | OpConsumeDevice h => Some (KDevice h)
  | OpConsumeBackchannel h => Some (KBackchannel h)
  | _ => None
  end.

Definition spent (s : Store) (k : OneTime) : bool :=
  match k with
  | KCode h => match authorization_codes s !! h with Some c => ac_used c | None => false end
  | KPar u => match par_requests s !! u with Some p => par_used p | None => false end
  | KDevice h => match device_authorization_grants s !! h with Some g => dg_consumed g | None => false end
  | KBackchannel h =>
      match backchannel_authentication_grants s !! h with Some g => bg_consumed g | None => false end
  end.

(** How many calls that consume [k] were told they succeeded. *)
Fixpoint accepted (evs : list Event) (k : OneTime) : nat :=
  match evs with
  | [] => 0
  | EvCall o (Ok tt) :: evs' =>
      ((if bool_decide (consumes o = Some k) then 1 else 0) + accepted evs' k)%nat
  | _ :: evs' => accepted evs' k
  end.


(** * Lemmas: one-time credentials *)

Lemma unique_match_Ok {T} (l : list T) msg x :
  unique_match l msg = Ok (Some x) → l = [x].
Proof. unfold unique_match. destruct l as [|a [|b l]]; simpl; [done| |done]. by intros [= ->]. Qed.

Lemma insert_new_Ok {T} `{InsertIdentity T} (m m' : gmap string T) x :
  insert_new m x = Ok m' → m !! ins_id x = None ∧ m' = <[ins_id x := x]> m.
Proof.
  unfold insert_new, reject_duplicate_id. case_bool_decide as Hd; simpl; [done|].
  rewrite <- eq_None_not_Some in Hd. intros Hr. split; [done|].
  destruct (identity x) as [[owner ident]|]; [|by injection Hr].
  destruct (existsb _ _); [done|]. by injection Hr.
Qed.

(** Tables only gain records, and a record's [p] never falls. *)
Definition flag_grows {T : Type} (p : T → bool) (m m' : gmap string T) : Prop :=
  ∀ k x, m !! k = Some x → ∃ y, m' !! k = Some y ∧ (p x = true → p y = true).

Lemma flag_grows_refl {T} (p : T → bool) m : flag_grows p m m.
Proof. intros k x Hk. eauto. Qed.

Lemma flag_grows_new {T} (p : T → bool) m k x : m !! k = None → flag_grows p m (<[k := x]> m).
Proof.
  intros Hn j y Hj. exists y. split; [|done]. rewrite lookup_insert_ne; [done|]. intros ->. by rewrite Hn in Hj.
Qed.

Lemma flag_grows_update {T} (p : T → bool) m k x y :
  m !! k = Some x → (p x = true → p y = true) → flag_grows p m (<[k := y]> m).
Proof.
  intros Hk Hp j z Hj. destruct (decide (k = j)) as [->|Hne].
  - exists y. rewrite lookup_insert_eq. split; [done|]. rewrite Hk in Hj. by injection Hj as <-.
  - exists z. by rewrite lookup_insert_ne.
Qed.

Lemma flag_grows_insert_new {T} `{InsertIdentity T} (p : T → bool) m m' x :
  insert_new m x = Ok m' → flag_grows p m m'.
Proof. intros [Hn ->]%insert_new_Ok. by apply flag_grows_new. Qed.

Definition store_grows (s s' : Store) : Prop :=
  flag_grows ac_used (authorization_codes s) (authorization_codes s')
  ∧ flag_grows par_used (par_requests s) (par_requests s')
  ∧ flag_grows dg_consumed (device_authorization_grants s) (device_authorization_grants s')
  ∧ flag_grows bg_consumed (backchannel_authentication_grants s) (backchannel_authentication_grants s').

Lemma store_grows_refl s : store_grows s s.
Proof. split_and!; apply flag_grows_refl. Qed.

Lemma store_grows_families s m : store_grows s (with_families s m).
Proof. split_and!; apply flag_grows_refl. Qed.

Lemma store_grows_spent s s' k : store_grows s s' → spent s k = true → spent s' k = true.
Proof.
  intros (Hc & Hp & Hd & Hb) Hs. destruct k as [h|h|h|h]; simpl in *;
    destruct (_ !! h) as [x|] eqn:E in Hs; try done;
    [apply Hc in E|apply Hp in E|apply Hd in E|apply Hb in E]; destruct E as (y & -> & Hy); auto.
Qed.

Lemma devices_with_code_lookup code s k g :
  (k, g) ∈ devices_with_code code s → device_authorization_grants s !! k = Some g.
Proof. intros [H _]%elem_of_lfilter. by apply elem_of_map_to_list. Qed.

#[local] Hint Resolve store_grows_refl store_grows_families flag_grows_refl flag_grows_new
  flag_grows_update flag_grows_insert_new : qid.

Ltac grows := auto with qid; split_and!; simpl; eauto with qid.

Lemma run_op_grows o saved s : store_grows s (run_op o saved s).2.
Proof.
  destruct o; simpl.
  - unfold create_authorization_code. destruct (_ !! _) eqn:E; simpl; grows.
  - unfold mark_authorization_code_used, opt_filter. destruct (_ !! _) eqn:E; simpl; [|grows].
    destruct (auth_code_owner_matches _ _); simpl; [|grows]. destruct (ac_used _); simpl; grows.
  - unfold revoke_token_family. destruct (_ !! _); simpl; grows.
  - unfold create_access_token. destruct (_ !! _); simpl; grows.
  - unfold revoke_access_token. destruct (_ !! _); simpl; grows.
  - unfold store_par_request. destruct (insert_new _ _) eqn:E; simpl; grows.
  - unfold mark_par_request_used. destruct (_ !! _) eqn:E; simpl; [|grows].
    destruct (par_used _); simpl; grows.
  - unfold store_device_authorization_grant. destruct (insert_new _ _) eqn:E; simpl; grows.
  - unfold approve_device_authorization_grant. destruct (unique_match _ _) as [[[k g]|]|] eqn:E; simpl; [|grows..].
    apply unique_match_Ok in E.
    assert (device_authorization_grants s !! k = Some g) as Hk
      by (apply (devices_with_code_lookup code); rewrite E; left).
    grows.
  - unfold record_device_authorization_poll. destruct (_ !! _) eqn:E; simpl; grows.
  - unfold consume_device_authorization_grant. destruct (_ !! _) eqn:E; simpl; [|grows].
    destruct (dg_consumed _); simpl; grows.
  - unfold store_backchannel_authentication_grant. destruct (insert_new _ _) eqn:E; simpl; grows.
  - unfold approve_backchannel_authentication_grant. destruct (_ !! _) eqn:E; simpl; grows.
  - unfold record_backchannel_authentication_poll. destruct (_ !! _) eqn:E; simpl; grows.
  - unfold consume_backchannel_authentication_grant. destruct (_ !! _) eqn:E; simpl; [|grows].
    destruct (bg_consumed _); simpl; grows.
Qed.

Lemma run_op_consumes o saved s k :
  consumes o = Some k → (run_op o saved s).1 = Ok tt →
  spent s k = false ∧ spent (run_op o saved s).2 k = true.
Proof.
  destruct o as [|c| | | | |u| | | |h| | | |h]; simpl; intros [= <-]; simpl;
    unfold mark_authorization_code_used, mark_par_request_used, consume_device_authorization_grant,
      consume_backchannel_authentication_grant, opt_filter;
    destruct (_ !! _) as [x|] eqn:E; simpl; try done.
  - destruct (auth_code_owner_matches x c); simpl; [|done]. destruct (ac_used x); simpl; [done|].
    intros _. by rewrite lookup_insert_eq.
  - destruct (par_used x); simpl; [done|]. intros _. by rewrite lookup_insert_eq.
  - destruct (dg_consumed x); simpl; [done|]. intros _. by rewrite lookup_insert_eq.
  - destruct (bg_consumed x); simpl; [done|]. intros _. by rewrite lookup_insert_eq.
Qed.


Lemma create_family_Ok f s s' :
  create_token_family (Ok tt) f s = (Ok tt, s') →
  token_families s !! tf_id f = None ∧ s' = with_families s (<[tf_id f := f]> (token_families s)).
Proof. unfold create_token_family. destruct (_ !! _) eqn:E; [done|]. by intros [= <-]. Qed.

Lemma rotate_begin_Ok id realm_id e n d s s' previous :
  rotate_begin id realm_id e n d s = Ok (s', previous) →
  ∃ f, token_families s !! id = Some f ∧ tf_revoked f = false ∧ current_refresh_hash f = e ∧ e ≠ n
  ∧ previous = (e, refresh_expires_at f)
  ∧ s' = with_families s (<[id := with_refresh f n (Some d)]> (token_families s)).
Proof.
  unfold rotate_begin, opt_filter. destruct (_ !! id) as [f|] eqn:E; [|done].
  destruct (String.eqb (tf_realm_id f) realm_id); [|done].
  intros (? & Hv & [= <- <-])%res_bind_Ok. revert Hv. unfold validate_token_family_rotation.
  destruct (tf_revoked f) eqn:Er; [done|].
  destruct (String.eqb_spec (current_refresh_hash f) e) as [<-|]; [|done]. simpl.
  destruct (String.eqb_spec n (current_refresh_hash f)) as [|Hne]; [done|]. intros _.
  exists f. by split_and!.
Qed.

Lemma rollback_families id previous s :
  rotate_rollback id previous s = s ∨ ∃ m, rotate_rollback id previous s = with_families s m.
Proof. unfold rotate_rollback. destruct (_ !! id); eauto. Qed.

Lemma rotate_interval_Ok mode id realm_id e n d s s' :
  mode ≠ Immediate →
  update_token_family_refresh_hash mode (Ok tt) id realm_id e n d s = (Ok tt, s') →
  ∃ previous, rotate_begin id realm_id e n d s = Ok (s', previous).
Proof.
  intros Hm. unfold update_token_family_refresh_hash.
  destruct (rotate_begin _ _ _ _ _ _) as [[s1 previous]|] eqn:E; [|done].
  destruct mode; [done|]. intros [= <-]. eauto.
Qed.

(** A step other than a call leaves the one-time credentials alone. *)
Lemma file_step_grows r evs r' : file_step r evs r' → store_grows (store r) (store r').
Proof.
  destruct 1 as [| r f s' _ _ H| r f s' _ H | r ? ? ? ? ? s' p _ _ H | r ? ? ? ? ? s' Hm H | | | | r h Hl];
    simpl; try apply store_grows_refl.
  - apply run_op_grows.
  - apply create_family_Ok in H as [_ ->]. apply store_grows_families.
  - apply create_family_Ok in H as [_ ->]. apply store_grows_families.
  - apply rotate_begin_Ok in H as (f & _ & _ & _ & _ & _ & ->). apply store_grows_families.
  - apply rotate_interval_Ok in H as [p H]; [|done].
    apply rotate_begin_Ok in H as (f & _ & _ & _ & _ & _ & ->). apply store_grows_families.
  - destruct (purpose h) as [| |id e n p]; simpl; try apply store_grows_refl.
    destruct (rollback_families id p (store r)) as [->|[m ->]];
      [apply store_grows_refl|apply store_grows_families].
Qed.

Lemma accepted_app a b k : accepted (a ++ b) k = (accepted a k + accepted b k)%nat.
Proof. induction a as [|[o [[]|]|? ?|? ? ?] a IH]; simpl; rewrite ?IH; lia. Qed.

Lemma file_step_accepted r evs r' k :
  file_step r evs r' →
  (accepted evs k + Nat.b2n (spent (store r) k) ≤ Nat.b2n (spent (store r') k))%nat.
Proof.
  intros Hs. assert (spent (store r) k = true → spent (store r') k = true) as Hg
    by (apply store_grows_spent; by eapply file_step_grows).
  assert (accepted evs k = 0%nat →
    (accepted evs k + Nat.b2n (spent (store r) k) ≤ Nat.b2n (spent (store r') k))%nat) as H0.
  { intros ->. destruct (spent (store r) k); [by rewrite Hg|]. simpl. lia. }
  destruct Hs as [r o saved| | | | | | |r p content Hl|]; try by apply H0.
  - simpl in *. destruct (run_op o saved (store r)).1 as [[]|] eqn:E; [|by apply H0].
    case_bool_decide as Hc; [|by apply H0].
    destruct (run_op_consumes o saved _ k Hc E) as [-> ->]. simpl. lia.
  - apply H0. by destruct p.
Qed.

Lemma exec_accepted r evs r' k :
  exec r evs r' →
  (accepted evs k + Nat.b2n (spent (store r) k) ≤ Nat.b2n (spent (store r') k))%nat.
Proof.
  induction 1 as [|r evs r1 ev r2 _ IH Hs]; simpl; [lia|].
  rewrite accepted_app. apply (file_step_accepted _ _ _ k) in Hs. lia.
Qed.

(** * Lemmas: refresh rotation *)

Lemma history_app a b id : history (a ++ b) id = history a id ++ history b id.
Proof.
  induction a as [|[o x|i h|i e n] a IH]; simpl; [done|done|..]; by destruct (String.eqb i id); rewrite IH.
Qed.

Lemma run_op_families o saved s id :
  ∃ g : TokenFamily → bool, token_families (run_op o saved s).2 !! id
    = (fun f => family_or_revoked f (g f)) <$> token_families s !! id.
Proof.
  assert (∀ m : gmap string TokenFamily, m !! id
            = (fun f => family_or_revoked f false) <$> m !! id) as Hid.
  { intros m. destruct (m !! id) as [f|]; [|done]. simpl. f_equal. destruct f; unfold family_or_revoked; simpl.
    by rewrite orb_false_r. }
  destruct o; simpl;
    try (exists (fun _ => false);
         unfold create_authorization_code, mark_authorization_code_used, create_access_token,
           revoke_access_token, store_par_request, mark_par_request_used,
           store_device_authorization_grant, approve_device_authorization_grant,
           record_device_authorization_poll, consume_device_authorization_grant,
           store_backchannel_authentication_grant, approve_backchannel_authentication_grant,
           record_backchannel_authentication_poll, consume_backchannel_authentication_grant;
         repeat case_match; apply Hid).
  unfold revoke_token_family. simpl. destruct (token_families s !! id0) as [f|] eqn:E; simpl.
  - destruct (decide (id0 = id)) as [->|Hne].
    + exists (fun f => String.eqb (tf_realm_id f) realm_id). by rewrite lookup_insert_eq, E.
    + exists (fun _ => false). rewrite lookup_insert_ne by done. apply Hid.
  - exists (fun _ => false). apply Hid.
Qed.

Lemma run_op_hash o saved s id :
  current_refresh_hash <$> token_families (run_op o saved s).2 !! id
  = current_refresh_hash <$> token_families s !! id.
Proof. destruct (run_op_families o saved s id) as [g ->]. by destruct (_ !! id). Qed.


Definition mem_hash (s : Store) (id : string) : option string :=
  current_refresh_hash <$> token_families s !! id.

Record rotation_inv (r : FileRepository) (evs : list Event) : Prop := {
  inv_chain : ∀ id, presented evs id = tail (history evs id);
  inv_committed : ∀ id, committed r id = head (history evs id);
  inv_pending : ∀ id e n p sn,
    save_lock r = Some {| purpose := Rotating id e n p; snapshot := sn |} →
    flush_mode r = Immediate ∧ p.1 = e ∧ mem_hash (store r) id = Some n;
  inv_disk : ∀ id h, mem_hash (disk r) id = Some h → h ∈ history evs id;
  inv_snapshot : ∀ p content id h,
    save_lock r = Some {| purpose := p; snapshot := Some content |} →
    mem_hash content id = Some h →
    h ∈ history evs id ∨ ∃ e p', p = Rotating id e h p'
}.

Lemma committed_unlocked r id :
  (∀ h, save_lock r = Some h → rotation_reported (purpose h) = []) →
  committed r id = mem_hash (store r) id.
Proof.
  intros H. unfold committed. destruct (save_lock r) as [[p sn]|]; [|done].
  specialize (H _ eq_refl). by destruct p.
Qed.

Lemma committed_rotating r i e n p sn id :
  save_lock r = Some {| purpose := Rotating i e n p; snapshot := sn |} →
  committed r id = if String.eqb i id then Some e else mem_hash (store r) id.
Proof. intros H. unfold committed. by rewrite H. Qed.

Lemma history_not_rotating r evs :
  rotation_inv r evs → (∀ h, save_lock r = Some h → rotation_reported (purpose h) = []) →
  ∀ id, mem_hash (store r) id = head (history evs id).
Proof. intros I H id. rewrite <- (inv_committed _ _ I). symmetry. by apply committed_unlocked. Qed.

Lemma not_rotating_interval r evs :
  rotation_inv r evs → flush_mode r ≠ Immediate →
  ∀ h, save_lock r = Some h → rotation_reported (purpose h) = [].
Proof.
  intros I Hm [p sn] Hl. destruct p as [| |id e n p]; [done..|].
  by destruct (inv_pending _ _ I _ _ _ _ _ Hl).
Qed.

Lemma mem_hash_insert s k f id :
  mem_hash (with_families s (<[k := f]> (token_families s))) id
  = if String.eqb k id then Some (current_refresh_hash f) else mem_hash s id.
Proof.
  unfold mem_hash. simpl. destruct (String.eqb_spec k id) as [->|Hne];
    [by rewrite lookup_insert_eq|by rewrite lookup_insert_ne].
Qed.

(** A step that keeps lock, mode and disk, and moves the hashes as its events say. *)
Lemma inv_memory_step r evs s' ev :
  rotation_inv r evs →
  (∀ id, presented ev id ++ presented evs id = tail (history ev id ++ history evs id)) →
  (∀ id, committed {| flush_mode := flush_mode r; store := s'; disk := disk r; save_lock := save_lock r |} id
         = head (history ev id ++ history evs id)) →
  (∀ id e n p sn, save_lock r = Some {| purpose := Rotating id e n p; snapshot := sn |} →
     mem_hash s' id = mem_hash (store r) id) →
  rotation_inv {| flush_mode := flush_mode r; store := s'; disk := disk r; save_lock := save_lock r |}
    (ev ++ evs).
Proof.
  intros I Hp Hc Hm. split; simpl; try setoid_rewrite history_app.
  - intros id. rewrite <- Hp. clear. induction ev as [|[o x|i h|i e n] ev IH]; simpl; [done..|].
    by destruct (String.eqb i id); simpl; rewrite IH.
  - exact Hc.
  - intros id e n p sn Hl. rewrite (Hm _ _ _ _ _ Hl). by eapply inv_pending.
  - intros id h Hh. apply elem_of_app. right. by eapply inv_disk.
  - intros p content id h Hl Hh. destruct (inv_snapshot _ _ I _ _ _ _ Hl Hh); [|by right].
    left. apply elem_of_app. by right.
Qed.

Lemma inv_call r evs o saved :
  rotation_inv r evs →
  rotation_inv {| flush_mode := flush_mode r; store := (run_op o saved (store r)).2; disk := disk r;
                  save_lock := save_lock r |} (EvCall o (run_op o saved (store r)).1 :: evs).
Proof.
  intros I. apply (inv_memory_step r evs _ [_] I); simpl.
  - apply (inv_chain _ _ I).
  - intros id. rewrite <- (inv_committed _ _ I id). unfold committed. simpl. by rewrite run_op_hash.
  - intros. apply run_op_hash.
Qed.

Lemma insert_extends r evs f s' :
  rotation_inv r evs → (∀ h, save_lock r = Some h → rotation_reported (purpose h) = []) →
  create_token_family (Ok tt) f (store r) = (Ok tt, s') →
  let ev := [EvInserted (tf_id f) (current_refresh_hash f)] in
  (∀ id, presented ev id ++ presented evs id = tail (history ev id ++ history evs id)) ∧
  (∀ id, mem_hash s' id = head (history ev id ++ history evs id)).
Proof.
  intros I Hl [Hn ->]%create_family_Ok. simpl.
  pose proof (history_not_rotating _ _ I Hl (tf_id f)) as Hh. unfold mem_hash in Hh. rewrite Hn in Hh.
  split; intros id.
  - rewrite (inv_chain _ _ I). destruct (String.eqb_spec (tf_id f) id) as [<-|]; [|done].
    by destruct (history evs (tf_id f)).
  - rewrite mem_hash_insert. destruct (String.eqb (tf_id f) id); [done|].
    by apply history_not_rotating.
Qed.

Lemma rotate_extends r evs id realm_id e n d s' p :
  rotation_inv r evs → (∀ h, save_lock r = Some h → rotation_reported (purpose h) = []) →
  rotate_begin id realm_id e n d (store r) = Ok (s', p) →
  p.1 = e ∧ head (history evs id) = Some e
  ∧ ∀ i, mem_hash s' i = if String.eqb id i then Some n else head (history evs i).
Proof.
  intros I Hl (f & Hf & _ & He & _ & -> & ->)%rotate_begin_Ok.
  pose proof (history_not_rotating _ _ I Hl) as Hh.
  split; [done|]. split.
  - rewrite <- Hh. unfold mem_hash. rewrite Hf. by rewrite <- He.
  - intros i. rewrite mem_hash_insert. by destruct (String.eqb id i).
Qed.


(** Steps that begin, move or end the ownership of [save_lock]. *)
Lemma inv_relock r evs s' ev lk :
  rotation_inv r evs →
  (∀ id, presented (ev ++ evs) id = tail (history (ev ++ evs) id)) →
  (∀ id, committed {| flush_mode := flush_mode r; store := s'; disk := disk r; save_lock := lk |} id
         = head (history (ev ++ evs) id)) →
  (∀ id e n p sn, lk = Some {| purpose := Rotating id e n p; snapshot := sn |} →
     flush_mode r = Immediate ∧ p.1 = e ∧ mem_hash s' id = Some n) →
  (∀ p content id h, lk = Some {| purpose := p; snapshot := Some content |} →
     mem_hash content id = Some h → h ∈ history evs id ∨ ∃ e p', p = Rotating id e h p') →
  rotation_inv {| flush_mode := flush_mode r; store := s'; disk := disk r; save_lock := lk |} (ev ++ evs).
Proof.
  intros I Hp Hc Hl Hs. split; simpl; [done..| |].
  - intros id h Hh. rewrite history_app. apply elem_of_app. right. by eapply inv_disk.
  - intros p content id h Hlk Hh. rewrite history_app, elem_of_app.
    destruct (Hs _ _ _ _ Hlk Hh); auto.
Qed.

Lemma inv_step_create_immediate r evs f s' :
  rotation_inv r evs → save_lock r = None →
  create_token_family (Ok tt) f (store r) = (Ok tt, s') →
  rotation_inv {| flush_mode := flush_mode r; store := s'; disk := disk r;
                  save_lock := Some {| purpose := CreatingFamily; snapshot := None |} |}
    ([EvInserted (tf_id f) (current_refresh_hash f)] ++ evs).
Proof.
  intros I Hl Hc. destruct (insert_extends r evs f s' I) as [Hp Hh]; [by rewrite Hl|done|].
  apply inv_relock; [done| | |done..].
  - intros id. specialize (Hp id). rewrite history_app. rewrite <- Hp. by simpl.
  - intros id. rewrite history_app. rewrite <- Hh. by apply committed_unlocked; intros ? [= <-].
Qed.

Lemma inv_step_create_interval r evs f s' :
  rotation_inv r evs → flush_mode r ≠ Immediate →
  create_token_family (Ok tt) f (store r) = (Ok tt, s') →
  rotation_inv {| flush_mode := flush_mode r; store := s'; disk := disk r; save_lock := save_lock r |}
    ([EvInserted (tf_id f) (current_refresh_hash f)] ++ evs).
Proof.
  intros I Hm Hc. pose proof (not_rotating_interval _ _ I Hm) as Hl.
  destruct (insert_extends r evs f s' I Hl Hc) as [Hp Hh].
  apply (inv_memory_step r evs s' _ I Hp).
  - intros id. rewrite <- Hh. by apply committed_unlocked.
  - intros id e n p sn H. by specialize (Hl _ H).
Qed.

Lemma inv_step_rotate_begin r evs id realm_id e n d s' p :
  rotation_inv r evs → flush_mode r = Immediate → save_lock r = None →
  rotate_begin id realm_id e n d (store r) = Ok (s', p) →
  rotation_inv {| flush_mode := flush_mode r; store := s'; disk := disk r;
                  save_lock := Some {| purpose := Rotating id e n p; snapshot := None |} |} ([] ++ evs).
Proof.
  intros I Hm Hl Hr. destruct (rotate_extends r evs id realm_id e n d s' p I) as (Hp & He & Hh);
    [by rewrite Hl|done|].
  apply inv_relock; [done| | | |done].
  - apply (inv_chain _ _ I).
  - intros i. rewrite (committed_rotating _ id e n p None) by done. simpl. rewrite Hh.
    by destruct (String.eqb_spec id i) as [->|].
  - intros i e' n' p' sn [= <- <- <- <- <-]. split_and!; [done..|]. by rewrite Hh, String.eqb_refl.
Qed.

Lemma chain_rotated evs id e n :
  (∀ i, presented evs i = tail (history evs i)) → head (history evs id) = Some e →
  ∀ i, presented (EvRotated id e n :: evs) i = tail (history (EvRotated id e n :: evs) i).
Proof.
  intros Hc He i. simpl. rewrite Hc. destruct (String.eqb_spec id i) as [<-|]; [|done]. simpl.
  destruct (history evs id); simpl in *; congruence.
Qed.

Lemma inv_step_rotate_interval r evs id realm_id e n d s' :
  rotation_inv r evs → flush_mode r ≠ Immediate →
  update_token_family_refresh_hash (flush_mode r) (Ok tt) id realm_id e n d (store r) = (Ok tt, s') →
  rotation_inv {| flush_mode := flush_mode r; store := s'; disk := disk r; save_lock := save_lock r |}
    ([EvRotated id e n] ++ evs).
Proof.
  intros I Hm [p Hr]%rotate_interval_Ok; [|done]. pose proof (not_rotating_interval _ _ I Hm) as Hl.
  destruct (rotate_extends r evs id realm_id e n d s' p I Hl Hr) as (Hp & He & Hh).
  apply inv_relock; [done| | | |].
  - apply chain_rotated; [|done]. apply (inv_chain _ _ I).
  - intros i. rewrite committed_unlocked by done. simpl. rewrite Hh. by destruct (String.eqb id i).
  - intros i e' n' p' sn H. by specialize (Hl _ H).
  - intros. by eapply inv_snapshot.
Qed.

Lemma inv_step_snapshot r evs p :
  rotation_inv r evs → save_lock r = Some {| purpose := p; snapshot := None |} →
  rotation_inv {| flush_mode := flush_mode r; store := store r; disk := disk r;
                  save_lock := Some {| purpose := p; snapshot := Some (store r) |} |} ([] ++ evs).
Proof.
  intros I Hl. apply inv_relock; [done|apply (inv_chain _ _ I)| | |].
  - intros id. rewrite <- (inv_committed _ _ I). unfold committed. simpl. by rewrite Hl.
  - intros id e n p' sn [= -> _]. by eapply inv_pending.
  - intros p' content id h [= <- <-] Hh.
    pose proof (inv_committed _ _ I id) as Hc. destruct p as [| |i e n p].
    1, 2: left; apply elem_of_head; rewrite <- Hc, committed_unlocked; [done|by rewrite Hl; intros ? [= <-]].
    rewrite (committed_rotating _ _ _ _ _ _ _ Hl) in Hc.
    destruct (String.eqb_spec i id) as [->|]; [|left; apply elem_of_head; congruence].
    right. apply (inv_pending _ _ I) in Hl as (_ & _ & Hn). exists e, p. congruence.
Qed.

Lemma inv_step_written r evs p content :
  rotation_inv r evs → save_lock r = Some {| purpose := p; snapshot := Some content |} →
  rotation_inv {| flush_mode := flush_mode r; store := store r; disk := content; save_lock := None |}
    (rotation_reported p ++ evs).
Proof.
  intros I Hl. destruct p as [| |i e n p]; simpl.
  1, 2: split; simpl; [apply (inv_chain _ _ I)| |done| |done].
  1, 3: intros id; rewrite <- (inv_committed _ _ I); unfold committed; simpl; by rewrite Hl.
  1, 2: intros id h Hh; by destruct (inv_snapshot _ _ I _ _ _ _ Hl Hh) as [|(? & ? & [=])].
  assert (committed r i = Some e) as He
    by (rewrite (committed_rotating _ _ _ _ _ _ _ Hl); by rewrite String.eqb_refl).
  rewrite (inv_committed _ _ I) in He. pose proof (inv_pending _ _ I _ _ _ _ _ Hl) as (_ & _ & Hn).
  split; [by apply chain_rotated; [apply (inv_chain _ _ I)|]| |done| |done]; simpl.
  - intros id. rewrite committed_unlocked by done. simpl.
    destruct (String.eqb_spec i id) as [<-|Hne]; [done|].
    rewrite <- (inv_committed _ _ I), (committed_rotating _ _ _ _ _ _ _ Hl).
    by destruct (String.eqb_spec i id).
  - intros id h Hh. destruct (inv_snapshot _ _ I _ _ _ _ Hl Hh) as [Hin|(e' & p' & [= <- <- <- <-])].
    + destruct (String.eqb i id); [by right|done].
    + rewrite String.eqb_refl. left.
Qed.

Lemma mem_hash_rollback id previous s i :
  mem_hash (rotate_rollback id previous s) i
  = if String.eqb id i then (fun _ => previous.1) <$> mem_hash s id else mem_hash s i.
Proof.
  unfold rotate_rollback. destruct (token_families s !! id) as [f|] eqn:E.
  - rewrite mem_hash_insert. unfold mem_hash. by rewrite E.
  - destruct (String.eqb_spec id i) as [<-|]; [|done]. unfold mem_hash. by rewrite E.
Qed.

Lemma inv_step_failed r evs h :
  rotation_inv r evs → save_lock r = Some h →
  rotation_inv {| flush_mode := flush_mode r; store := flush_failed (purpose h) (store r); disk := disk r;
                  save_lock := None |} ([] ++ evs).
Proof.
  intros I Hl. apply inv_relock; [done|apply (inv_chain _ _ I)| |done..].
  intros id. simpl. rewrite <- (inv_committed _ _ I), committed_unlocked by done. simpl.
  destruct h as [p sn]. destruct p as [| |i e n p]; simpl;
    [by rewrite committed_unlocked; [|rewrite Hl; intros ? [= <-]]..|].
  rewrite (committed_rotating _ _ _ _ _ _ _ Hl), mem_hash_rollback.
  destruct (inv_pending _ _ I _ _ _ _ _ Hl) as (_ & -> & ->). done.
Qed.

Lemma rotation_inv_step r evs ev r' :
  rotation_inv r evs → file_step r ev r' → rotation_inv r' (ev ++ evs).
Proof.
  intros I Hs. destruct Hs.
  - by apply inv_call.
  - by apply inv_step_create_immediate.
  - by apply inv_step_create_interval.
  - by eapply inv_step_rotate_begin.
  - by eapply inv_step_rotate_interval.
  - apply inv_relock; [done|apply (inv_chain _ _ I)| |done..].
    intros id. simpl. rewrite <- (inv_committed _ _ I). unfold committed. simpl. by rewrite H.
  - by apply inv_step_snapshot.
  - by apply inv_step_written.
  - by apply inv_step_failed.
Qed.

Lemma rotation_inv_exec mode evs r : exec (opened mode) evs r → rotation_inv r evs.
Proof.
  intros H. remember (opened mode) as r0 eqn:E. induction H as [|r0 evs r1 ev r2 _ IH Hs].
  - subst r. by split.
  - eapply rotation_inv_step; eauto.
Qed.


(** * Lemmas: revocation *)

Definition pending (r : FileRepository) (id : string) : nat :=
  match save_lock r with
  | Some {| purpose := Rotating i _ _ _ |} => if String.eqb i id then 1 else 0
  | _ => 0
  end.

Definition revoked_in (s : Store) (id : string) : Prop :=
  ∃ f, token_families s !! id = Some f ∧ tf_revoked f = true.

Lemma revoked_insert s k f id :
  revoked_in s id → (k = id → tf_revoked f = true) →
  revoked_in (with_families s (<[k := f]> (token_families s))) id.
Proof.
  intros (g & Hg & Hr) Hf. unfold revoked_in. simpl. destruct (decide (k = id)) as [->|Hne].
  - exists f. rewrite lookup_insert_eq. auto.
  - exists g. by rewrite lookup_insert_ne.
Qed.

Lemma revoked_run_op o saved s id : revoked_in s id → revoked_in (run_op o saved s).2 id.
Proof.
  intros (f & Hf & Hr). destruct (run_op_families o saved s id) as [g Hg]. rewrite Hf in Hg.
  eexists. split; [exact Hg|]. simpl. by rewrite Hr.
Qed.

Lemma revoked_rotate id' realm_id e n d s s' p id :
  revoked_in s id → rotate_begin id' realm_id e n d s = Ok (s', p) →
  id' ≠ id ∧ revoked_in s' id.
Proof.
  intros Hrev (f & Hf & Hnr & _ & _ & _ & ->)%rotate_begin_Ok.
  assert (id' ≠ id) as Hne. { intros ->. destruct Hrev as (g & Hg & Hr). congruence. }
  split; [done|]. by apply revoked_insert.
Qed.

Lemma revoked_create f s s' id :
  revoked_in s id → create_token_family (Ok tt) f s = (Ok tt, s') → revoked_in s' id.
Proof.
  intros Hrev [Hn ->]%create_family_Ok. apply revoked_insert; [done|].
  intros <-. destruct Hrev as (g & Hg & _). congruence.
Qed.

Lemma revoked_step r ev r' id :
  revoked_in (store r) id → file_step r ev r' →
  revoked_in (store r') id ∧ (length (presented ev id) + pending r' id ≤ pending r id)%nat.
Proof.
  intros Hrev Hs. destruct Hs as [r o saved|r f s' _ Hl Hc|r f s' _ Hc|r i realm_id e n d s' p _ Hl Hr
    |r i realm_id e n d s' Hm Hr|r Hl|r p Hl|r p content Hl|r [p sn] Hl]; unfold pending; simpl; try rewrite Hl.
  - by split; [apply revoked_run_op|].
  - by split; [eapply revoked_create|].
  - by split; [eapply revoked_create|].
  - eapply revoked_rotate in Hr as [Hne ?]; [|done]. split; [done|].
    by rewrite (proj2 (String.eqb_neq _ _)).
  - apply rotate_interval_Ok in Hr as [p Hr]; [|done]. eapply revoked_rotate in Hr as [Hne ?]; [|done].
    split; [done|]. by rewrite (proj2 (String.eqb_neq _ _)).
  - split; [done|lia].
  - done.
  - split; [done|]. destruct p as [| |i e n p]; simpl; try lia. by destruct (String.eqb i id).
  - split; [|destruct p as [| |i e n p]; [done..|case_match; lia]].
    destruct p as [| |i e n p]; simpl; [done..|].
    unfold rotate_rollback. destruct (token_families (store r) !! i) as [g|] eqn:E; [|done].
    apply revoked_insert; [done|]. intros ->. destruct Hrev as (g' & Hg' & Hr). simpl. congruence.
Qed.

Lemma presented_app a b id : presented (a ++ b) id = presented a id ++ presented b id.
Proof.
  induction a as [|[o x|i h|i e n] a IH]; simpl; [done..|]. by destruct (String.eqb i id); rewrite IH.
Qed.

Lemma revoked_exec r evs r' id :
  revoked_in (store r) id → exec r evs r' →
  revoked_in (store r') id ∧ (length (presented evs id) + pending r' id ≤ pending r id)%nat.
Proof.
  intros Hrev Hx. induction Hx as [r|r evs r1 ev r2 _ IH Hs]; [by split|].
  destruct (IH Hrev) as [H1 Hle]. destruct (revoked_step _ _ _ _ H1 Hs) as [H2 Hle'].
  split; [done|]. rewrite presented_app, length_app. lia.
Qed.

(** * Theorems *)

(** C32: Refresh rotation is a compare-and-swap under every interleaving.  From an
    empty repository, whatever calls are interleaved with rotations and flushes, and
    whichever flushes fail: the hashes presented by the accepted rotations of a family
    are exactly its earlier hashes, in order, so that with fresh hashes no refresh token
    is accepted twice; the family's hash is the latest accepted one, with a pending
    rotation not counted; and the file never holds a hash that was not accepted. *)
Theorem refresh_rotation_atomic mode evs r id :
  exec (opened mode) evs r →
  presented evs id = tail (history evs id)
  ∧ committed r id = head (history evs id)
  ∧ (NoDup (history evs id) → NoDup (presented evs id))
  ∧ (∀ f, token_families (disk r) !! id = Some f → current_refresh_hash f ∈ history evs id).
Proof.
  intros I%rotation_inv_exec. split_and!.
  - apply (inv_chain _ _ I).
  - apply (inv_committed _ _ I).
  - rewrite (inv_chain _ _ I). destruct (history evs id); [done|]. by inversion 1.
  - intros f Hf. apply (inv_disk _ _ I). unfold mem_hash. by rewrite Hf.
Qed.

(** Revocation is final.  Once a family is revoked, no interleaving of calls,
    rotations, flushes and rollbacks makes it live again, and no rotation of it is
    accepted apart from one that was already being written. *)
Theorem revoked_family_stays_revoked r evs r' id f :
  token_families (store r) !! id = Some f → tf_revoked f = true → exec r evs r' →
  (∃ f', token_families (store r') !! id = Some f' ∧ tf_revoked f' = true)
  ∧ (length (presented evs id) ≤ pending r id)%nat.
Proof.
  intros Hf Hr Hx. destruct (revoked_exec r evs r' id) as [H Hle]; [by exists f|done|].
  split; [done|lia].
Qed.

(** Authorization codes, pushed requests, device grants and backchannel grants are
    consumed at most once: in every execution at most one call that consumes a given
    one is told it succeeded, none when it is already consumed at the start, and after
    such a call it is consumed. *)
Theorem one_time_credentials r evs r' k :
  exec r evs r' →
  (accepted evs k ≤ 1)%nat
  ∧ (spent (store r) k = true → accepted evs k = 0%nat ∧ spent (store r') k = true)
  ∧ (accepted evs k = 1%nat → spent (store r') k = true).
Proof.
  intros Hx. pose proof (exec_accepted _ _ _ k Hx) as Hle.
  destruct (spent (store r) k), (spent (store r') k); simpl in Hle; split_and!; intros; try done; lia.
Qed.


End Tokens.

(** * Witnesses *)

Definition ex_family : TokenFamily (J:=unit) :=
  {| tf_id := "fam"; tf_user_id := "u"; tf_client_id := "c"; tf_realm_id := "r";
     current_refresh_hash := "h0"; tf_scopes := []; tf_auth_time := None; tf_acr := None; tf_amr := [];
     tf_audience := []; tf_resource := []; tf_authorization_details := None;
     tf_sender_constraint := None; tf_issued_at := 10; refresh_expires_at := None;
     tf_session_id := None; tf_revoked := false |}.

Definition ex_par : ParRequest (J:=unit) :=
  {| request_uri := "urn:1"; par_client_id := "c"; par_realm_id := "r"; params_json := tt;
     par_expires_at := 100; par_used := false; par_created_at := 1 |}.

Definition ex_par_store : Store (J:=unit) := (store_par_request (Ok tt) ex_par empty_store).2.

Definition ex_repo (s d : Store (J:=unit)) (lk : option Holder) : FileRepository :=
  {| flush_mode := Immediate; store := s; disk := d; save_lock := lk |}.

Definition ex_s1 : Store (J:=unit) := (create_token_family (Ok tt) ex_family empty_store).2.
Definition ex_s2 : Store (J:=unit) :=
  (update_token_family_refresh_hash Immediate (Ok tt) "fam" "r" "h0" "h1" 50 ex_s1).2.
Definition ex_s3 : Store (J:=unit) := (revoke_token_family (Ok tt) "fam" "r" ex_s2).2.

Definition ex_rotating : Purpose := Rotating "fam" "h0" "h1" ("h0", None).

Definition ex_events : list (Event (J:=unit)) :=
  [EvRotated "fam" "h0" "h1"; EvCall (OpRevokeFamily "fam" "r") (Ok tt); EvInserted "fam" "h0"].

(** A family is created; while a rotation of it is being written it is revoked; the
    write succeeds with the tables as they were copied before the revocation. *)
Lemma ex_exec : exec (opened Immediate) ex_events (ex_repo ex_s3 ex_s2 None).
Proof.
  assert (exec (opened Immediate) [EvInserted "fam" "h0"] (ex_repo ex_s1 ex_s1 None)) as Hc.
  { apply (exec_step _ [EvInserted "fam" "h0"]
             (ex_repo ex_s1 empty_store (Some {| purpose := CreatingFamily; snapshot := Some ex_s1 |})) []);
      [|by apply (step_written (ex_repo ex_s1 empty_store _) CreatingFamily)].
    apply (exec_step _ [EvInserted "fam" "h0"]
             (ex_repo ex_s1 empty_store (Some {| purpose := CreatingFamily; snapshot := None |})) []);
      [|by apply (step_snapshot (ex_repo ex_s1 empty_store _))].
    apply (exec_step _ [] (opened Immediate) [EvInserted "fam" "h0"]); [constructor|].
    by apply (step_create_immediate (opened Immediate) ex_family ex_s1). }
  apply (exec_step _ [EvCall (OpRevokeFamily "fam" "r") (Ok tt); EvInserted "fam" "h0"]
           (ex_repo ex_s3 ex_s1 (Some {| purpose := ex_rotating; snapshot := Some ex_s2 |}))
           [EvRotated "fam" "h0" "h1"]);
    [|by apply (step_written (ex_repo ex_s3 ex_s1 _) ex_rotating)].
  apply (exec_step _ [EvInserted "fam" "h0"]
           (ex_repo ex_s2 ex_s1 (Some {| purpose := ex_rotating; snapshot := Some ex_s2 |}))
           [EvCall (OpRevokeFamily "fam" "r") (Ok tt)]);
    [|apply (step_call (ex_repo ex_s2 ex_s1 _) (OpRevokeFamily "fam" "r") (Ok tt))].
  apply (exec_step _ [EvInserted "fam" "h0"]
           (ex_repo ex_s2 ex_s1 (Some {| purpose := ex_rotating; snapshot := None |})) []);
    [|by apply (step_snapshot (ex_repo ex_s2 ex_s1 _))].
  apply (exec_step _ _ (ex_repo ex_s1 ex_s1 None) [] _ Hc).
  by apply (step_rotate_begin (ex_repo ex_s1 ex_s1 None) "fam" "r" "h0" "h1" 50).
Qed.

Lemma refresh_rotation_atomic_witness :
  presented ex_events "fam" = ["h0"] ∧ history ex_events "fam" = ["h1"; "h0"]
  ∧ committed (ex_repo ex_s3 ex_s2 None) "fam" = Some "h1" ∧ NoDup (presented ex_events "fam").
Proof.
  destruct (refresh_rotation_atomic Immediate ex_events (ex_repo ex_s3 ex_s2 None) "fam" ex_exec)
    as (Hp & Hc & Hn & _).
  split; [exact Hp|]. split; [reflexivity|]. split; [exact Hc|]. apply Hn.
  apply (bool_decide_unpack _). vm_compute. exact I.
Defined.

(** The write of the pending rotation fails after the revocation. *)
Lemma ex_failed :
  exec (ex_repo ex_s3 ex_s1 (Some {| purpose := ex_rotating; snapshot := Some ex_s2 |})) []
    (ex_repo (rotate_rollback "fam" ("h0", None) ex_s3) ex_s1 None).
Proof.
  apply (exec_step _ [] (ex_repo ex_s3 ex_s1 (Some {| purpose := ex_rotating; snapshot := Some ex_s2 |})) []);
    [constructor|].
  by apply (step_failed (ex_repo ex_s3 ex_s1 _) {| purpose := ex_rotating; snapshot := Some ex_s2 |}).
Qed.

Lemma revoked_family_stays_revoked_witness :
  (∃ f, token_families (rotate_rollback "fam" ("h0", None) ex_s3) !! "fam" = Some f ∧ tf_revoked f = true)
  ∧ current_refresh_hash <$> token_families (rotate_rollback "fam" ("h0", None) ex_s3) !! "fam" = Some "h0".
Proof.
  split; [|reflexivity].
  refine (proj1 (revoked_family_stays_revoked _ _ _ "fam"
    (family_or_revoked (with_refresh ex_family "h1" (Some 50)) true) _ _ ex_failed)); reflexivity.
Defined.

(** A pushed request is used twice; the second call is refused. *)
Lemma ex_par_exec :
  exec (ex_repo ex_par_store empty_store None)
    [EvCall (OpUsePar "urn:1") (Err (Conflict "PAR request already consumed"));
     EvCall (OpUsePar "urn:1") (Ok tt)]
    (ex_repo (mark_par_request_used (Ok tt) "urn:1" ex_par_store).2 empty_store None).
Proof.
  apply (exec_step _ [EvCall (OpUsePar "urn:1") (Ok tt)]
           (ex_repo (mark_par_request_used (Ok tt) "urn:1" ex_par_store).2 empty_store None)
           [EvCall (OpUsePar "urn:1") (Err (Conflict "PAR request already consumed"))]);
    [|exact (step_call (ex_repo (mark_par_request_used (Ok tt) "urn:1" ex_par_store).2 empty_store None)
               (OpUsePar "urn:1") (Ok tt))].
  apply (exec_step _ [] (ex_repo ex_par_store empty_store None) [EvCall (OpUsePar "urn:1") (Ok tt)]);
    [constructor|].
  exact (step_call (ex_repo ex_par_store empty_store None) (OpUsePar "urn:1") (Ok tt)).
Qed.

Lemma one_time_credentials_witness :
  spent (mark_par_request_used (Ok tt) "urn:1" ex_par_store).2 (KPar "urn:1") = true.
Proof.
  refine (proj2 (proj2 (one_time_credentials _ _ _ (KPar "urn:1") ex_par_exec)) _). reflexivity.
Defined.


End Tokens.
