(* ===== verification/Replay.v ===== *)
(** Replay protection (src/qid-core/src/cache.rs): the shared cache interface, the
    in-memory cache that implements it, and the DPoP and assertion state built on it.

    [Instant::now()] is an argument, in nanoseconds of the monotonic clock, apart from
    the wall clock [now] in seconds that callers pass.  Adding a duration to an instant
    beyond the platform's range [instant_max] panics; a result is an [option], [None]
    being the panic, which poisons the cache's mutex while it is held.  A [Vec<u8>] is
    the [string] of its bytes.  Fresh nonces ([Ulid::new]) are arguments. *)

From S2P Require Import Prelude Utf8.

(** * The interface *)

(** The trait [SharedCache] in state-passing form. *)
Class SharedCache (C : Type) : Type := {
  cache_get : N → string → C → option string * C;
  cache_set : N → string → string → N → C → option unit * C;
  cache_set_if_absent : N → string → string → N → C → option (QidResult bool) * C;
  cache_delete : N → string → C → C;
  cache_take : N → string → C → option string * C
}.

Definition NANOS : N := 1000000000.

(** What a cache promises: it has, at every instant, a value per live key, with the
    instant it expires; an operation touches its own key only. *)
Class SharedCacheLaws (C : Type) `{SharedCache C} (live : C → string → option (string * N)) : Prop := {
  set_live t k v ttl c r c' :
    cache_set t k v ttl c = (r, c') →
    (r = Some tt ∧ live c' k = Some (v, t + ttl * NANOS)) ∨ (r = None ∧ live c' k = live c k);
  set_other t k v ttl c j : j ≠ k → live (cache_set t k v ttl c).2 j = live c j;
  absent_live t k v ttl c r c' :
    cache_set_if_absent t k v ttl c = (r, c') →
    (r = Some (Ok true) ∧ (∀ w e, live c k = Some (w, e) → e ≤ t)
       ∧ live c' k = Some (v, t + ttl * NANOS))
    ∨ (r ≠ Some (Ok true) ∧ live c' k = live c k);
  absent_other t k v ttl c j : j ≠ k → live (cache_set_if_absent t k v ttl c).2 j = live c j;
  take_live t k c r c' :
    cache_take t k c = (r, c') →
    live c' k = None ∧ (∀ v, r = Some v → ∃ e, live c k = Some (v, e) ∧ t < e);
  take_other t k c j : j ≠ k → live (cache_take t k c).2 j = live c j
}.

(** * The in-memory cache *)

Module MemoryCache.
Section MemoryCache.
Context (instant_max : N).

Record CacheEntry : Type := { value : string; expires_at : N }.

Record MemoryCache : Type := { store : gmap string CacheEntry; poisoned : bool }.

Definition new : MemoryCache := {| store := ∅; poisoned := false |}.

Definition with_store (c : MemoryCache) (m : gmap string CacheEntry) : MemoryCache :=
  {| store := m; poisoned := poisoned c |}.

(** [Instant + Duration::from_secs] *)
Definition instant_add (t ttl_seconds : N) : option N :=
  if t + ttl_seconds * NANOS <=? instant_max then Some (t + ttl_seconds * NANOS) else None.

Definition poison (c : MemoryCache) : MemoryCache := {| store := store c; poisoned := true |}.

Definition get (t : N) (key : string) (c : MemoryCache) : option string * MemoryCache :=
  match store c !! key with
  | Some e =>
      if t <? expires_at e then (Some (value e), c) else (None, with_store c (delete key (store c)))
  | None => (None, c)
  end.

Definition set (t : N) (key v : string) (ttl_seconds : N) (c : MemoryCache) : option unit * MemoryCache :=
  match instant_add t ttl_seconds with
  | Some x => (Some tt, with_store c (<[key := {| value := v; expires_at := x |}]> (store c)))
  | None => (None, poison c)
  end.

Definition set_if_absent (t : N) (key v : string) (ttl_seconds : N) (c : MemoryCache)
    : option (QidResult bool) * MemoryCache :=
  if poisoned c
  then (Some (Err (Internal "memory cache lock poisoned: poisoned lock: another task failed inside")), c)
  else
    let insert :=
      match instant_add t ttl_seconds with
      | Some x => (Some (Ok true), with_store c (<[key := {| value := v; expires_at := x |}]> (store c)))
      | None => (None, poison c)
      end in
    match store c !! key with
    | Some e => if t <? expires_at e then (Some (Ok false), c) else insert
    | None => insert
    end.

(** Named [delete_key]: [delete] is the operation of the map. *)
Definition delete_key (t : N) (key : string) (c : MemoryCache) : MemoryCache :=
  with_store c (delete key (store c)).

Definition take_key (t : N) (key : string) (c : MemoryCache) : option string * MemoryCache :=
  let c' := with_store c (delete key (store c)) in
  match store c !! key with
  | Some e => if t <? expires_at e then (Some (value e), c') else (None, c')
  | None => (None, c')
  end.

#[global] Instance MemoryCache_SharedCache : SharedCache MemoryCache := {|
  cache_get := get; cache_set := set; cache_set_if_absent := set_if_absent;
  cache_delete := delete_key; cache_take := take_key
|}.

Definition live (c : MemoryCache) (k : string) : option (string * N) :=
  (fun e => (value e, expires_at e)) <$> store c !! k.

Lemma instant_add_Some t ttl x : instant_add t ttl = Some x → x = t + ttl * NANOS.
Proof. unfold instant_add. case_match; [by intros [= <-]|done]. Qed.

Lemma live_insert c k v x : live (with_store c (<[k := {| value := v; expires_at := x |}]> (store c))) k = Some (v, x).
Proof. unfold live. simpl. by rewrite lookup_insert_eq. Qed.

Lemma live_delete c k : live (with_store c (delete k (store c))) k = None.
Proof. unfold live. simpl. by rewrite lookup_delete_eq. Qed.

(** The in-memory cache keeps the promises of the interface. *)
#[global] Instance MemoryCache_laws : SharedCacheLaws MemoryCache live.
Proof.
  split; simpl.
  - unfold set. intros t k v ttl c r c' H.
    destruct (instant_add t ttl) as [x|] eqn:E; injection H as <- <-; [left|by right].
    split; [done|]. rewrite live_insert. by rewrite (instant_add_Some _ _ _ E).
  - unfold set, live. intros t k v ttl c j Hne. destruct (instant_add t ttl); simpl; [|done].
    by rewrite lookup_insert_ne.
  - unfold set_if_absent. intros t k v ttl c r c' H.
    destruct (poisoned c); [injection H as <- <-; by right|].
    assert (∀ P : Prop, P → (match instant_add t ttl with
      | Some x => (Some (Ok true), with_store c (<[k := {| value := v; expires_at := x |}]> (store c)))
      | None => (None, poison c) end) = (r, c') →
      (r = Some (Ok true) ∧ P ∧ live c' k = Some (v, t + ttl * NANOS))
      ∨ (r ≠ Some (Ok true) ∧ live c' k = live c k)) as Hins.
    { intros P HP Hi. destruct (instant_add t ttl) as [x|] eqn:E; injection Hi as <- <-; [left|by right].
      split_and!; [done..|]. rewrite live_insert. by rewrite (instant_add_Some _ _ _ E). }
    unfold live at 1. destruct (store c !! k) as [e|] eqn:Ek; simpl.
    + destruct (N.ltb_spec t (expires_at e)) as [|He]; [injection H as <- <-; by right|].
      refine (Hins _ _ H). by intros w x [= _ <-].
    + by refine (Hins _ _ H).
  - unfold set_if_absent, live. intros t k v ttl c j Hne. destruct (poisoned c); [done|].
    destruct (store c !! k); [destruct (t <? _); [done|]|];
      destruct (instant_add t ttl); simpl; by rewrite ?lookup_insert_ne.
  - unfold take_key. intros t k c r c' H. unfold live at 2. destruct (store c !! k) as [e|]; simpl.
    + destruct (N.ltb_spec t (expires_at e)); injection H as <- <-; (split; [apply live_delete|]); [|done].
      intros v [= <-]. eauto.
    + injection H as <- <-. split; [apply live_delete|done].
  - unfold take_key, live. intros t k c j Hne.
    destruct (store c !! k); [destruct (t <? _)|]; simpl; by rewrite lookup_delete_ne.
Qed.

End MemoryCache.
End MemoryCache.

(** * DPoP proofs and client assertions *)

Module Dpop.

Definition JTI_CACHE_TTL_SECS : N := 60.
Definition NONCE_CACHE_TTL_SECS : N := 300.

Definition ASSERTION_SCOPE_OAUTH_PRIVATE_KEY_JWT : string := "oauth-private-key-jwt".
Definition ASSERTION_SCOPE_OAUTH_JWT_BEARER : string := "oauth-jwt-bearer".
Definition ASSERTION_SCOPE_PAR_PRIVATE_KEY_JWT : string := "par-private-key-jwt".

Definition str_len (s : string) : string := pretty (N.of_nat (String.length s)).

Definition assertion_replay_key (protocol client_id jti : string) : string :=
  "assertion:" +:+ (str_len protocol +:+ ":" +:+ protocol +:+ (":" +:+ (str_len client_id +:+ ":" +:+ client_id
  +:+ (":" +:+ (str_len jti +:+ ":" +:+ jti +:+ ""))))).

(** The cache behind the state is passed to the operations. *)
Record DpopState : Type := { replay_namespace : string; nonce_namespace : string }.

Definition with_namespaces (replay nonce : string) : DpopState :=
  {| replay_namespace := replay; nonce_namespace := nonce |}.

Definition with_cache : DpopState := with_namespaces "dpop:jti" "dpop:nonce".

Definition assertion_replay : DpopState := with_namespaces "assertion:jti" "assertion:nonce".

Section Dpop.
Context {C : Type} `{SharedCache C}.

Definition record_replay_key (d : DpopState) (key : string) (expires_at now : N) (replay_message : string)
    (t : N) (c : C) : option (QidResult unit) * C :=
  let '(r, c') := cache_set_if_absent t (replay_namespace d +:+ ":" +:+ key) "1"
                    (N.max (saturating_sub expires_at now) 1) c in
  ((fun inserted => let? b := inserted in
      if b : bool then Ok tt else Err (BadRequest replay_message)) <$> r, c').

Definition record_jti (d : DpopState) (jti : string) (iat now t : N) (c : C)
    : option (QidResult unit) * C :=
  let expires_at := N.max (saturating_add64 iat JTI_CACHE_TTL_SECS)
                          (saturating_add64 now JTI_CACHE_TTL_SECS) in
  let '(r, c') := cache_set_if_absent t (replay_namespace d +:+ ":" +:+ jti) "1"
                    (N.max (saturating_sub expires_at now) 1) c in
  ((fun inserted => let? b := inserted in
      if b : bool then Ok tt
      else Err (BadRequest "DPoP proof jti already used (replay detected)")) <$> r, c').

Definition record_assertion_jti (d : DpopState) (protocol client_id jti : string) (expires_at now : N)
    (replay_message : string) (t : N) (c : C) : option (QidResult unit) * C :=
  record_replay_key d (assertion_replay_key protocol client_id jti) expires_at now replay_message t c.

Definition issue_nonce (d : DpopState) (ulid : string) (now t : N) (c : C) : option (QidResult string) * C :=
  let nonce := "dpop_nonce_" +:+ ulid in
  let '(r, c') := cache_set t (nonce_namespace d +:+ ":" +:+ nonce) (pretty now) NONCE_CACHE_TTL_SECS c in
  ((fun _ => Ok nonce) <$> r, c').

(** [String::from_utf8(bytes).ok().and_then(|value| value.parse::<u64>().ok())] *)
Definition parse_issued_at (bytes : string) : option N :=
  match Utf8.decode (Utf8.str_bytes bytes) with Some _ => parse_u64 bytes | None => None end.

Definition consume_nonce (d : DpopState) (nonce : string) (now t : N) (c : C) : QidResult unit * C :=
  let '(taken, c') := cache_take t (nonce_namespace d +:+ ":" +:+ nonce) c in
  (match taken with
   | None => Err (DpopNonce "DPoP proof nonce is missing, expired, or already used")
   | Some bytes =>
       let? issued_at := ok_or (parse_issued_at bytes) (Internal "DPoP nonce cache entry is invalid") in
       if NONCE_CACHE_TTL_SECS <=? saturating_sub now issued_at
       then Err (DpopNonce "DPoP proof nonce is expired")
       else Ok tt
   end, c').

(** * Executions

    Calls of any number of states over one cache, with the instants they are made at. *)

Inductive DpopOp : Type :=
| RecordJti (jti : string) (iat now : N)
| RecordAssertion (protocol client_id jti : string) (expires_at now : N) (replay_message : string)
| RecordReplay (key : string) (expires_at now : N) (replay_message : string)
| IssueNonce (ulid : string) (now : N)
| ConsumeNonce (nonce : string) (now : N).

(** The result, [true] for success, and the cache. *)
Definition succeeded {A : Type} (r : option (QidResult A)) : bool :=
  match r with Some (Ok _) => true | _ => false end.

Definition perform (d : DpopState) (o : DpopOp) (t : N) (c : C) : bool * C :=
  match o with
  | RecordJti jti iat now => let '(r, c') := record_jti d jti iat now t c in (succeeded r, c')
  | RecordAssertion p cl jti e now m =>
      let '(r, c') := record_assertion_jti d p cl jti e now m t c in (succeeded r, c')
  | RecordReplay key e now m => let '(r, c') := record_replay_key d key e now m t c in (succeeded r, c')
  | IssueNonce u now => let '(r, c') := issue_nonce d u now t c in (succeeded r, c')
  | ConsumeNonce n now => let '(r, c') := consume_nonce d n now t c in (is_ok r, c')
  end.

Fixpoint run (tr : list (N * DpopState * DpopOp)) (c : C) : C :=
  match tr with
  | [] => c
  | (t, d, o) :: tr' => run tr' (perform d o t c).2
  end.

(** What a record call stores under its key, and for how many seconds. *)
Definition recorded (d : DpopState) (o : DpopOp) : option (string * N) :=
  match o with
  | RecordJti jti iat now =>
      Some (replay_namespace d +:+ ":" +:+ jti,
            N.max (saturating_sub (N.max (saturating_add64 iat JTI_CACHE_TTL_SECS)
                                         (saturating_add64 now JTI_CACHE_TTL_SECS)) now) 1)
  | RecordAssertion p cl jti e now _ =>
      Some (replay_namespace d +:+ ":" +:+ assertion_replay_key p cl jti, N.max (saturating_sub e now) 1)
  | RecordReplay key e now _ => Some (replay_namespace d +:+ ":" +:+ key, N.max (saturating_sub e now) 1)
  | _ => None
  end.

(** The states the code builds. *)
Definition built (d : DpopState) : Prop := d = with_cache ∨ d = assertion_replay.

Definition nonce_key (d : DpopState) (nonce : string) : string := nonce_namespace d +:+ ":" +:+ nonce.

(** The nonce a call issues, as a key. *)
Definition issues (d : DpopState) (o : DpopOp) : option string :=
  match o with IssueNonce u _ => Some (nonce_key d ("dpop_nonce_" +:+ u)) | _ => None end.

Definition consumes (d : DpopState) (o : DpopOp) : option string :=
  match o with ConsumeNonce n _ => Some (nonce_key d n) | _ => None end.

End Dpop.

(** * Lemmas *)

Section Facts.
Context {C : Type} `{Hcache : SharedCache C} {live : C → string → option (string * N)}.
Context `{!SharedCacheLaws C live}.

Lemma replay_not_nonce d d' x y : built d → built d' → replay_namespace d +:+ ":" +:+ x ≠ nonce_key d' y.
Proof. intros [-> | ->] [-> | ->] Hk; discriminate Hk. Qed.

Lemma str_app_cancel (p a b : string) : p +:+ a = p +:+ b → a = b.
Proof. intros He. by apply str_app_inj_prefix in He as [_ ->]. Qed.

(** A record call is one conditional store. *)
Lemma perform_record d o t (c : C) k ttl :
  recorded d o = Some (k, ttl) →
  ∃ r, cache_set_if_absent t k "1" ttl c = (r, (perform d o t c).2)
     ∧ ((perform d o t c).1 = true ↔ r = Some (Ok true)).
Proof.
  assert (∀ (msg : string) (r : option (QidResult bool)),
    succeeded ((fun inserted => let? b := inserted in
      if b : bool then Ok tt else Err (BadRequest msg)) <$> r) = true ↔ r = Some (Ok true)) as Hs.
  { intros msg [[[]|]|]; done. }
  destruct o; simpl; intros [= <- <-];
    unfold record_assertion_jti, record_jti, record_replay_key;
    destruct (cache_set_if_absent _ _ _ _ _) as [r c'] eqn:E; simpl; eauto.
Qed.

Lemma perform_issue d u now t (c : C) :
  ∃ r, cache_set t (nonce_key d ("dpop_nonce_" +:+ u)) (pretty now) NONCE_CACHE_TTL_SECS c
       = (r, (perform d (IssueNonce u now) t c).2).
Proof.
  simpl. unfold issue_nonce, nonce_key. destruct (cache_set _ _ _ _ _) as [r c']. simpl. eauto.
Qed.

Lemma perform_consume d n now t (c : C) :
  ∃ taken, cache_take t (nonce_key d n) c = (taken, (perform d (ConsumeNonce n now) t c).2)
  ∧ ((perform d (ConsumeNonce n now) t c).1 = true →
     ∃ v issued, taken = Some v ∧ parse_issued_at v = Some issued
       ∧ saturating_sub now issued < NONCE_CACHE_TTL_SECS).
Proof.
  simpl. unfold consume_nonce, nonce_key. destruct (cache_take _ _ _) as [[v|] c']; simpl; [|by eexists].
  eexists. split; [done|]. destruct (parse_issued_at v) as [i|] eqn:E; simpl; [|done].
  destruct (N.leb_spec NONCE_CACHE_TTL_SECS (saturating_sub now i)); [done|]. eauto 10.
Qed.

(** A recorded key stays recorded until it expires. *)
Lemma record_kept d0 x t d o (c : C) v e :
  built d0 → built d → live c (replay_namespace d0 +:+ ":" +:+ x) = Some (v, e) → t < e →
  live (perform d o t c).2 (replay_namespace d0 +:+ ":" +:+ x) = Some (v, e).
Proof.
  intros Hd0 Hd Hl Ht. set (k := replay_namespace d0 +:+ ":" +:+ x) in *.
  destruct (recorded d o) as [[j ttl]|] eqn:Er.
  - destruct (perform_record d o t c j ttl Er) as (r & Hs & _).
    destruct (decide (k = j)) as [<-|Hne].
    + destruct (absent_live _ _ _ _ _ _ _ Hs) as [(_ & Hexp & _)|[_ ->]]; [|done].
      specialize (Hexp _ _ Hl). lia.
    + pose proof (absent_other t j "1" ttl c k Hne) as Ho. rewrite Hs in Ho. exact (eq_trans Ho Hl).
  - destruct o as [| | |u now|n now]; try done.
    + destruct (perform_issue d u now t c) as [r Hs].
      pose proof (set_other t _ (pretty now) NONCE_CACHE_TTL_SECS c k
        (replay_not_nonce d0 d x ("dpop_nonce_" +:+ u) Hd0 Hd)) as Ho.
      rewrite Hs in Ho. exact (eq_trans Ho Hl).
    + destruct (perform_consume d n now t c) as (taken & Hs & _).
      pose proof (take_other t _ c k (replay_not_nonce d0 d x n Hd0 Hd)) as Ho.
      rewrite Hs in Ho. exact (eq_trans Ho Hl).
Qed.

Lemma record_kept_run d0 x tr (c : C) v e :
  built d0 → (∀ t d o, (t, d, o) ∈ tr → built d ∧ t < e) →
  live c (replay_namespace d0 +:+ ":" +:+ x) = Some (v, e) →
  live (run tr c) (replay_namespace d0 +:+ ":" +:+ x) = Some (v, e).
Proof.
  intros Hd0. revert c. induction tr as [|[[t d] o] tr IH]; intros c Htr Hl; simpl; [done|].
  destruct (Htr t d o) as [Hd Ht]; [left|].
  apply IH; [intros t' d' o' Hin; apply (Htr t' d' o'); by right|].
  by apply record_kept.
Qed.

Lemma recorded_key d o k ttl : recorded d o = Some (k, ttl) → ∃ x, k = replay_namespace d +:+ ":" +:+ x.
Proof. destruct o; simpl; intros [= <- _]; eauto. Qed.

Lemma recorded_pos d o k ttl : recorded d o = Some (k, ttl) → 1 ≤ ttl.
Proof. destruct o; simpl; intros [= _ <-]; lia. Qed.

(** No replay.  Whatever calls of the DPoP and the assertion state are made on one
    cache in between, with the monotonic clock not running backwards, a proof or
    assertion that was accepted is not accepted again before the seconds it was
    recorded for have passed. *)
Theorem replay_refused d1 o1 t1 mid d2 o2 t2 (c : C) k ttl1 ttl2 :
  built d1 → recorded d1 o1 = Some (k, ttl1) → recorded d2 o2 = Some (k, ttl2) →
  (perform d1 o1 t1 c).1 = true →
  (∀ t d o, (t, d, o) ∈ mid → built d ∧ t ≤ t2) →
  (perform d2 o2 t2 (run mid (perform d1 o1 t1 c).2)).1 = true →
  t1 + ttl1 * NANOS ≤ t2.
Proof.
  intros Hd1 Hr1 Hr2 H1 Hmid H2.
  destruct (perform_record d1 o1 t1 c k ttl1 Hr1) as (r1 & Hs1 & Hok1).
  destruct (absent_live _ _ _ _ _ _ _ Hs1) as [(_ & _ & Hl)|[Hn _]];
    [|by rewrite Hok1 in H1]. destruct (recorded_key d1 o1 k ttl1 Hr1) as [x ->].
  destruct (N.le_gt_cases (t1 + ttl1 * NANOS) t2) as [|Hlt]; [done|]. exfalso.
  assert (live (run mid (perform d1 o1 t1 c).2) (replay_namespace d1 +:+ ":" +:+ x)
          = Some ("1", t1 + ttl1 * NANOS)) as Hl2.
  { apply record_kept_run; [done| |done]. intros t d o Hin. destruct (Hmid t d o Hin). split; [done|lia]. }
  destruct (perform_record d2 o2 t2 (run mid (perform d1 o1 t1 c).2) _ ttl2 Hr2) as (r2 & Hs2 & Hok2).
  destruct (absent_live _ _ _ _ _ _ _ Hs2) as [(_ & Hexp & _)|[Hn _]]; [|by rewrite Hok2 in H2].
  specialize (Hexp _ _ Hl2). lia.
Qed.

(** Assertion replay keys never collide: the key determines the protocol, the
    client and the identifier, whatever separators they contain. *)
Theorem assertion_keys_injective p cl jti p' cl' jti' :
  assertion_replay_key p cl jti = assertion_replay_key p' cl' jti' → p = p' ∧ cl = cl' ∧ jti = jti'.
Proof.
  unfold assertion_replay_key, str_len. intros He%str_app_cancel.
  apply length_prefix_inj in He as [-> He]. apply (str_app_cancel ":") in He.
  apply length_prefix_inj in He as [-> He]. apply (str_app_cancel ":") in He.
  by apply length_prefix_inj in He as [-> _].
Qed.

Definition hit (o : option string) (k : string) : nat :=
  if bool_decide (o = Some k) then 1 else 0.

(** Successful consumptions and issues of the nonce with key [k]. *)
Fixpoint accepted (tr : list (N * DpopState * DpopOp)) (c : C) (k : string) : nat :=
  match tr with
  | [] => 0
  | (t, d, o) :: tr' =>
      ((if (perform d o t c).1 then hit (consumes d o) k else 0) + accepted tr' (perform d o t c).2 k)%nat
  end.

Definition issued (tr : list (N * DpopState * DpopOp)) (k : string) : nat :=
  list_sum (map (fun '(_, d, o) => hit (issues d o) k) tr).

Definition held (c : C) (k : string) : nat := match live c k with Some _ => 1 | None => 0 end.

Lemma held_le c k : (held c k ≤ 1)%nat.
Proof. unfold held. case_match; lia. Qed.

Lemma nonce_other_record d o t (c : C) k ttl d0 n :
  built d0 → built d → recorded d o = Some (k, ttl) →
  live (perform d o t c).2 (nonce_key d0 n) = live c (nonce_key d0 n).
Proof.
  intros Hd0 Hd Hr. destruct (recorded_key d o k ttl Hr) as [x ->].
  destruct (perform_record d o t c _ ttl Hr) as (r & Hs & _).
  pose proof (absent_other t (replay_namespace d +:+ ":" +:+ x) "1" ttl c (nonce_key d0 n)
    (not_eq_sym (replay_not_nonce d d0 x n Hd Hd0))) as Ho.
  rewrite Hs in Ho. exact Ho.
Qed.

Lemma nonce_step d0 n t d o (c : C) :
  built d0 → built d →
  ((if (perform d o t c).1 then hit (consumes d o) (nonce_key d0 n) else 0)
     + held (perform d o t c).2 (nonce_key d0 n)
   ≤ hit (issues d o) (nonce_key d0 n) + held c (nonce_key d0 n))%nat.
Proof.
  intros Hd0 Hd. set (k := nonce_key d0 n). destruct (recorded d o) as [[j ttl]|] eqn:Er.
  - unfold held, k. rewrite (nonce_other_record d o t c j ttl d0 n Hd0 Hd Er). fold k.
    destruct o; try done; simpl; unfold hit; simpl; case_match; lia.
  - destruct o as [| | |u now|m now]; try done.
    + replace (if (perform d (IssueNonce u now) t c).1 then hit (consumes d (IssueNonce u now)) k else 0%nat)
        with 0%nat by (by case_match). simpl issues. unfold hit. case_bool_decide as Hk.
      * pose proof (held_le (perform d (IssueNonce u now) t c).2 k). lia.
      * destruct (perform_issue d u now t c) as [r Hs].
        pose proof (set_other t (nonce_key d ("dpop_nonce_" +:+ u)) (pretty now) NONCE_CACHE_TTL_SECS c k
          ltac:(congruence)) as Ho.
        rewrite Hs in Ho. unfold held. cbn [snd] in Ho. rewrite Ho. lia.
    + destruct (perform_consume d m now t c) as (taken & Hs & Hok).
      simpl issues. simpl consumes. unfold hit at 1 2. case_bool_decide as Hk.
      * injection Hk as Hk. rewrite Hk in Hs. destruct (take_live _ _ _ _ _ Hs) as [Hn Htk].
        unfold held at 1. rewrite Hn. destruct (perform d (ConsumeNonce m now) t c).1; [|lia].
        destruct (Hok eq_refl) as (v & i & -> & _). destruct (Htk v eq_refl) as (e & He & _).
        unfold held. rewrite He. simpl. lia.
      * pose proof (take_other t (nonce_key d m) c k ltac:(congruence)) as Ho.
        rewrite Hs in Ho. cbn [snd] in Ho. unfold held. rewrite Ho. by case_match.
Qed.

Lemma nonce_run d0 n tr : ∀ c : C,
  built d0 → (∀ t d o, (t, d, o) ∈ tr → built d) →
  (accepted tr c (nonce_key d0 n) + held (run tr c) (nonce_key d0 n)
   ≤ issued tr (nonce_key d0 n) + held c (nonce_key d0 n))%nat.
Proof.
  induction tr as [|[[t d] o] tr IH]; intros c Hd0 Htr; simpl; [lia|].
  pose proof (nonce_step d0 n t d o c Hd0 (Htr t d o ltac:(left))) as Hs.
  pose proof (IH (perform d o t c).2 Hd0 (fun t' d' o' Hin => Htr t' d' o' ltac:(by right))) as Hr.
  unfold issued in *. simpl. lia.
Qed.

(** Where the value a nonce key holds comes from. *)
Definition from_issue (tr : list (N * DpopState * DpopOp)) (k v : string) (e : N) : Prop :=
  ∃ t d u now, (t, d, IssueNonce u now) ∈ tr ∧ nonce_key d ("dpop_nonce_" +:+ u) = k
    ∧ v = pretty now ∧ e = t + NONCE_CACHE_TTL_SECS * NANOS.

Lemma nonce_value_step d0 n t d o (c : C) v e :
  built d0 → built d → live (perform d o t c).2 (nonce_key d0 n) = Some (v, e) →
  live c (nonce_key d0 n) = Some (v, e) ∨ from_issue [(t, d, o)] (nonce_key d0 n) v e.
Proof.
  intros Hd0 Hd Hl. set (k := nonce_key d0 n) in *. destruct (recorded d o) as [[j ttl]|] eqn:Er.
  { unfold k in *. rewrite (nonce_other_record d o t c j ttl d0 n Hd0 Hd Er) in Hl. by left. }
  destruct o as [| | |u now|m now]; try done.
  - destruct (perform_issue d u now t c) as [r Hs].
    destruct (decide (nonce_key d ("dpop_nonce_" +:+ u) = k)) as [Hk|Hk].
    + rewrite Hk in Hs. destruct (set_live _ _ _ _ _ _ _ Hs) as [[_ Hv]|[_ Hv]].
      * right. assert (Some (v, e) = Some (pretty now, t + NONCE_CACHE_TTL_SECS * NANOS)) as [= -> ->]
          by exact (eq_trans (eq_sym Hl) Hv).
        exists t, d, u, now. split; [left|done].
      * left. exact (eq_trans (eq_sym Hv) Hl).
    + left. pose proof (set_other t _ (pretty now) NONCE_CACHE_TTL_SECS c k (not_eq_sym Hk)) as Ho.
      rewrite Hs in Ho. exact (eq_trans (eq_sym Ho) Hl).
  - left. destruct (perform_consume d m now t c) as (taken & Hs & _).
    destruct (decide (nonce_key d m = k)) as [Hk|Hk].
    + rewrite Hk in Hs. destruct (take_live _ _ _ _ _ Hs) as [Hn _].
      assert (Some (v, e) = None) as [=] by exact (eq_trans (eq_sym Hl) Hn).
    + pose proof (take_other t _ c k (not_eq_sym Hk)) as Ho.
      rewrite Hs in Ho. exact (eq_trans (eq_sym Ho) Hl).
Qed.

Lemma nonce_value_run d0 n tr : ∀ c v e,
  built d0 → (∀ t d o, (t, d, o) ∈ tr → built d) →
  live (run tr c) (nonce_key d0 n) = Some (v, e) →
  live c (nonce_key d0 n) = Some (v, e) ∨ from_issue tr (nonce_key d0 n) v e.
Proof.
  induction tr as [|[[t d] o] tr IH]; intros c v e Hd0 Htr Hl; [by left|]. simpl in Hl.
  apply IH in Hl as [Hl|(t' & d' & u & now & Hin & Hrest)]; [| |done|].
  - apply nonce_value_step in Hl as [Hl|(t' & d' & u & now & Hin & Hrest)]; [by left| |done|].
    + right. exists t', d', u, now. split; [|done].
      apply list_elem_of_singleton in Hin. rewrite Hin. left.
    + apply (Htr t d o). left.
  - right. exists t', d', u, now. split; [by right|done].
  - intros t' d' o' Hin. apply (Htr t' d' o'). by right.
Qed.

(** A DPoP nonce is accepted at most as often as it was issued, and only while it
    is fresh: on a cache that does not hold it, whatever calls are made, every
    accepted nonce was issued less than 300 seconds before, by the caller's clock and
    by the monotonic one. *)
Theorem nonce_single_use d n tr (c : C) :
  built d → (∀ t d' o, (t, d', o) ∈ tr → built d') →
  (∀ t d' u now, (t, d', IssueNonce u now) ∈ tr → now ≤ u64_max) →
  live c (nonce_key d n) = None →
  (accepted tr c (nonce_key d n) ≤ issued tr (nonce_key d n))%nat
  ∧ ∀ t now, (perform d (ConsumeNonce n now) t (run tr c)).1 = true →
    ∃ t0 d' u now0, (t0, d', IssueNonce u now0) ∈ tr ∧ nonce_key d' ("dpop_nonce_" +:+ u) = nonce_key d n
      ∧ now - now0 < NONCE_CACHE_TTL_SECS ∧ t < t0 + NONCE_CACHE_TTL_SECS * NANOS.
Proof.
  intros Hd Htr Hu Hn. split.
  - pose proof (nonce_run d n tr c Hd Htr) as Hle. unfold held at 2 in Hle. rewrite Hn in Hle. lia.
  - intros t now Hok. destruct (perform_consume d n now t (run tr c)) as (taken & Hs & Hp).
    destruct (Hp Hok) as (v & i & -> & Hi & Hage).
    destruct (take_live _ _ _ _ _ Hs) as [_ Htk]. destruct (Htk v eq_refl) as (e & He & Hlt).
    apply nonce_value_run in He as [He|(t0 & d' & u & now0 & Hin & Hk & -> & ->)];
      [rewrite Hn in He; done| |done..].
    exists t0, d', u, now0. split_and!; [done..| |done].
    unfold parse_issued_at in Hi. destruct (Utf8.decode _); [|done].
    rewrite parse_u64_pretty in Hi by (by eapply Hu). injection Hi as <-. exact Hage.
Qed.

End Facts.

(** * Witnesses *)

Definition ex_instant_max : N := 10 ^ 28.

#[local] Instance ex_cache : SharedCache MemoryCache.MemoryCache :=
  MemoryCache.MemoryCache_SharedCache ex_instant_max.

#[local] Instance ex_laws : SharedCacheLaws MemoryCache.MemoryCache MemoryCache.live :=
  MemoryCache.MemoryCache_laws ex_instant_max.

Definition ex_assert (now : N) : DpopOp :=
  RecordAssertion ASSERTION_SCOPE_OAUTH_JWT_BEARER "client" "jti-1" 1100 now "replay".

Definition ex_between : list (N * DpopState * DpopOp) :=
  [(1, with_cache, RecordJti "jti-1" 1000 1000); (2, assertion_replay, ex_assert 1001);
   (3, with_cache, IssueNonce "A" 1002); (101 * NANOS, with_cache, ConsumeNonce "dpop_nonce_A" 1101)].

Lemma replay_refused_witness :
  let c := (perform assertion_replay (ex_assert 1000) 0 MemoryCache.new).2 in
  (perform assertion_replay (ex_assert 1001) 2 c).1 = false ∧ 0 + 100 * NANOS ≤ 102 * NANOS.
Proof.
  split; [vm_compute; reflexivity|].
  refine (replay_refused assertion_replay (ex_assert 1000) 0 ex_between assertion_replay (ex_assert 1101)
    (102 * NANOS) MemoryCache.new (replay_namespace assertion_replay +:+ ":"
      +:+ assertion_replay_key ASSERTION_SCOPE_OAUTH_JWT_BEARER "client" "jti-1") 100 1 _ _ _ _ _ _).
  - right. reflexivity.
  - vm_compute. reflexivity.
  - vm_compute. reflexivity.
  - vm_compute. reflexivity.
  - unfold ex_between. intros t d o Hin.
    repeat (apply elem_of_cons in Hin as [[= -> -> ->]|Hin];
      [split; [first [left; reflexivity|right; reflexivity]|apply N.leb_le; vm_compute; reflexivity]|]).
    destruct (not_elem_of_nil _ Hin).
  - vm_compute. reflexivity.
Defined.

Lemma assertion_keys_injective_witness :
  assertion_replay_key "a:b" "c" "d" ≠ assertion_replay_key "a" "b:c" "d"
  ∧ ("a:b" = "a:b" ∧ "c" = "c" ∧ "d" = "d").
Proof.
  split; [vm_compute; discriminate|].
  exact (assertion_keys_injective "a:b" "c" "d" "a:b" "c" "d" eq_refl).
Defined.

Definition ex_nonce_trace : list (N * DpopState * DpopOp) :=
  [(0, with_cache, IssueNonce "A" 1000); (5, with_cache, ConsumeNonce "dpop_nonce_A" 1001);
   (6, with_cache, ConsumeNonce "dpop_nonce_A" 1002)].

Lemma nonce_single_use_witness :
  accepted ex_nonce_trace MemoryCache.new (nonce_key with_cache "dpop_nonce_A") = 1%nat
  ∧ (accepted ex_nonce_trace MemoryCache.new (nonce_key with_cache "dpop_nonce_A")
     ≤ issued ex_nonce_trace (nonce_key with_cache "dpop_nonce_A"))%nat.
Proof.
  split; [vm_compute; reflexivity|].
  refine (proj1 (nonce_single_use with_cache "dpop_nonce_A" ex_nonce_trace MemoryCache.new _ _ _ _)).
  - left. reflexivity.
  - unfold ex_nonce_trace. intros t d o Hin.
    repeat (apply elem_of_cons in Hin as [[= -> -> ->]|Hin]; [left; reflexivity|]).
    destruct (not_elem_of_nil _ Hin).
  - unfold ex_nonce_trace. intros t d u now Hin.
    repeat (apply elem_of_cons in Hin as [Heq|Hin];
      [try discriminate Heq; injection Heq as _ _ _ ->; apply N.leb_le; vm_compute; reflexivity|]).
    destruct (not_elem_of_nil _ Hin).
  - reflexivity.
Defined.

End Dpop.
