(* ===== verification/WorkerQueue.v ===== *)
(** The durable worker queue and the emergency mode of src/qid-ops/src/lib.rs.

    A queue is a deque of pending jobs, an ordered map of claimed jobs and a list of dead
    letters.  A fresh identifier ([Ulid::new]) and the clock are arguments.  The abstract
    machine [micro] has one rule per move of a job; every operation is a sequence of its
    moves, so the properties of whole runs are proved by induction on the moves. *)

From S2P Require Import Prelude Utf8.

Module WorkerQueue.
Section WorkerQueue.
Context {Payload : Type}.

(** * Data *)

Record WorkerJob : Type := {
  id : string;
  kind : string;
  payload_json : Payload;
  run_after_epoch : N;
  attempts : N;
  max_attempts : N
}.

Record ClaimedJob : Type := {
  job : WorkerJob;
  worker_id : string;
  visibility_expires_at_epoch : N
}.

Record DurableWorkerQueue : Type := {
  pending : list WorkerJob;
  claimed : gmap string ClaimedJob;
  dead_letter : list WorkerJob
}.

Definition empty_queue : DurableWorkerQueue := {| pending := []; claimed := ∅; dead_letter := [] |}.

Definition with_attempts (j : WorkerJob) (n : N) : WorkerJob :=
  {| id := id j; kind := kind j; payload_json := payload_json j;
     run_after_epoch := run_after_epoch j; attempts := n; max_attempts := max_attempts j |}.

Definition with_run_after (j : WorkerJob) (t : N) : WorkerJob :=
  {| id := id j; kind := kind j; payload_json := payload_json j;
     run_after_epoch := t; attempts := attempts j; max_attempts := max_attempts j |}.

(** * Operations *)

Definition enqueue (fresh kind : string) (payload : Payload) (run_after max : N) (q : DurableWorkerQueue)
    : QidResult string * DurableWorkerQueue :=
  if Utf8.blank kind then (Err (BadRequest "Worker job kind must not be empty"), q)
  else if max =? 0 then (Err (BadRequest "Worker job max attempts must be greater than zero"), q)
  else
    let j := {| id := fresh; kind := kind; payload_json := payload;
                run_after_epoch := run_after; attempts := 0; max_attempts := max |} in
    (Ok fresh, {| pending := pending q ++ [j]; claimed := claimed q; dead_letter := dead_letter q |}).

(** The body of the loop of [requeue_expired_claims] for one identifier. *)
Definition requeue_claim (q : DurableWorkerQueue) (x : string) : DurableWorkerQueue :=
  match claimed q !! x with
  | Some c =>
      if max_attempts (job c) <=? attempts (job c)
      then {| pending := pending q; claimed := delete x (claimed q); dead_letter := dead_letter q ++ [job c] |}
      else {| pending := pending q ++ [job c]; claimed := delete x (claimed q); dead_letter := dead_letter q |}
  | None => q
  end.

Definition expired_claims (now : N) (q : DurableWorkerQueue) : list string :=
  List.filter (fun x => match claimed q !! x with
                        | Some c => visibility_expires_at_epoch c <=? now
                        | None => false
                        end) (btree_keys (claimed q)).

Definition requeue_expired_claims (now : N) (q : DurableWorkerQueue) : DurableWorkerQueue :=
  foldl requeue_claim q (expired_claims now q).

Definition is_due (now : N) (j : WorkerJob) : Prop := run_after_epoch j ≤ now.

#[global] Instance is_due_dec now j : Decision (is_due now j).
Proof. unfold is_due. apply _. Defined.

Definition claim_next (worker : string) (now visibility : N) (q : DurableWorkerQueue)
    : QidResult (option ClaimedJob) * DurableWorkerQueue :=
  if Utf8.blank worker then (Err (BadRequest "Worker id must not be empty"), q)
  else if visibility =? 0 then (Err (BadRequest "Visibility timeout must be greater than zero"), q)
  else
    let q := requeue_expired_claims now q in
    match list_find (is_due now) (pending q) with
    | None => (Ok None, q)
    | Some (index, _) =>
        match pending q !! index with
        | None => (Err (Internal "Worker queue index disappeared"), q)
        | Some j =>
            let c := {| job := with_attempts j (add32 (attempts j) 1); worker_id := worker;
                        visibility_expires_at_epoch := add64 now visibility |} in
            (Ok (Some c), {| pending := delete index (pending q);
                             claimed := <[id j := c]> (claimed q);
                             dead_letter := dead_letter q |})
        end
    end.

Definition complete (x : string) (q : DurableWorkerQueue) : bool * DurableWorkerQueue :=
  match claimed q !! x with
  | Some _ => (true, {| pending := pending q; claimed := delete x (claimed q); dead_letter := dead_letter q |})
  | None => (false, q)
  end.

Definition fail (x : string) (retry_after : N) (q : DurableWorkerQueue) : bool * DurableWorkerQueue :=
  match claimed q !! x with
  | None => (false, q)
  | Some c =>
      (true,
       if max_attempts (job c) <=? attempts (job c)
       then {| pending := pending q; claimed := delete x (claimed q); dead_letter := dead_letter q ++ [job c] |}
       else {| pending := pending q ++ [with_run_after (job c) retry_after];
               claimed := delete x (claimed q); dead_letter := dead_letter q |})
  end.

Definition pending_len (q : DurableWorkerQueue) : nat := length (pending q).
Definition claimed_len (q : DurableWorkerQueue) : nat := size (claimed q).
Definition dead_letter_len (q : DurableWorkerQueue) : nat := length (dead_letter q).

(** * Runs *)

Inductive Op : Type :=
| Enqueue (fresh kind : string) (payload : Payload) (run_after max : N)
| ClaimNext (worker : string) (now visibility : N)
| Complete (x : string)
| FailJob (x : string) (retry_after : N).

(** What a caller sees move: a job accepted, claimed, completed. *)
Inductive Event : Type :=
| Accepted (j : WorkerJob)
| Claimed (c : ClaimedJob)
| Completed (x : string).

Definition perform (o : Op) (q : DurableWorkerQueue) : list Event * DurableWorkerQueue :=
  match o with
  | Enqueue fresh k p t m =>
      match enqueue fresh k p t m q with
      | (Ok x, q') => ([Accepted {| id := x; kind := k; payload_json := p; run_after_epoch := t;
                                    attempts := 0; max_attempts := m |}], q')
      | (Err _, q') => ([], q')
      end
  | ClaimNext w now v =>
      match claim_next w now v q with
      | (Ok (Some c), q') => ([Claimed c], q')
      | (_, q') => ([], q')
      end
  | Complete x => let '(b, q') := complete x q in (if b then [Completed x] else [], q')
  | FailJob x t => let '(_, q') := fail x t q in ([], q')
  end.

Fixpoint run (os : list Op) (q : DurableWorkerQueue) : list Event * DurableWorkerQueue :=
  match os with
  | [] => ([], q)
  | o :: os' =>
      let '(es, q1) := perform o q in
      let '(es', q2) := run os' q1 in (es ++ es', q2)
  end.


(** * The abstract machine *)

Inductive micro : DurableWorkerQueue → list Event → DurableWorkerQueue → Prop :=
| m_accept q j :
    attempts j = 0 → 0 < max_attempts j →
    micro q [Accepted j] {| pending := pending q ++ [j]; claimed := claimed q; dead_letter := dead_letter q |}
| m_claim q i j w t :
    pending q !! i = Some j →
    let c := {| job := with_attempts j (add32 (attempts j) 1); worker_id := w; visibility_expires_at_epoch := t |} in
    micro q [Claimed c] {| pending := delete i (pending q); claimed := <[id j := c]> (claimed q);
                           dead_letter := dead_letter q |}
| m_complete q x c :
    claimed q !! x = Some c →
    micro q [Completed x] {| pending := pending q; claimed := delete x (claimed q); dead_letter := dead_letter q |}
| m_release q x c t :
    claimed q !! x = Some c → attempts (job c) < max_attempts (job c) →
    micro q [] {| pending := pending q ++ [with_run_after (job c) t]; claimed := delete x (claimed q);
                  dead_letter := dead_letter q |}
| m_bury q x c :
    claimed q !! x = Some c → max_attempts (job c) ≤ attempts (job c) →
    micro q [] {| pending := pending q; claimed := delete x (claimed q);
                  dead_letter := dead_letter q ++ [job c] |}.

Inductive moves : DurableWorkerQueue → list Event → DurableWorkerQueue → Prop :=
| moves_nil q : moves q [] q
| moves_cons q es q1 es' q2 : micro q es q1 → moves q1 es' q2 → moves q (es ++ es') q2.

Lemma moves_one q es q' : micro q es q' → moves q es q'.
Proof. intros H. rewrite <- (app_nil_r es). econstructor; [exact H|constructor]. Qed.

Lemma moves_trans q es q1 es' q2 : moves q es q1 → moves q1 es' q2 → moves q (es ++ es') q2.
Proof. induction 1; intros H2; [done|]. rewrite <- app_assoc. econstructor; eauto. Qed.

Lemma with_run_after_id j : with_run_after j (run_after_epoch j) = j.
Proof. by destruct j. Qed.

Lemma requeue_claim_moves q x : moves q [] (requeue_claim q x).
Proof.
  unfold requeue_claim. destruct (claimed q !! x) as [c|] eqn:E; [|constructor].
  apply moves_one. case_match eqn:Ha.
  - apply N.leb_le in Ha. by econstructor.
  - apply N.leb_gt in Ha. rewrite <- (with_run_after_id (job c)). by econstructor.
Qed.

Lemma requeue_moves now q : moves q [] (requeue_expired_claims now q).
Proof.
  unfold requeue_expired_claims. generalize (expired_claims now q) as xs. intros xs.
  revert q. induction xs as [|x xs IH]; intros q; [constructor|].
  exact (moves_trans _ _ _ _ _ (requeue_claim_moves q x) (IH _)).
Qed.

(** Every operation is a sequence of moves of the machine. *)
Lemma perform_moves o q es q' : perform o q = (es, q') → moves q es q'.
Proof.
  destruct o as [fresh k p t m|w now v|x|x t]; simpl.
  - unfold enqueue. destruct (Utf8.blank k); [intros [= <- <-]; constructor|].
    destruct (N.eqb_spec m 0); intros [= <- <-]; [constructor|].
    apply moves_one. constructor; simpl; [done|lia].
  - unfold claim_next. destruct (Utf8.blank w); [intros [= <- <-]; constructor|].
    destruct (v =? 0); [intros [= <- <-]; constructor|].
    pose proof (requeue_moves now q) as Hr. revert Hr.
    generalize (requeue_expired_claims now q) as q1. intros q1 Hr.
    destruct (list_find (is_due now) (pending q1)) as [[i j]|]; [|by intros [= <- <-]].
    destruct (pending q1 !! i) as [j'|] eqn:Ej; intros [= <- <-]; [|done].
    exact (moves_trans _ _ _ _ _ Hr (moves_one _ _ _ (m_claim _ _ _ _ _ Ej))).
  - unfold complete. destruct (claimed q !! x) eqn:E; intros [= <- <-]; [|constructor].
    apply moves_one. by econstructor.
  - unfold fail. destruct (claimed q !! x) as [c|] eqn:E; intros [= <- <-]; [|constructor].
    apply moves_one. case_match eqn:Ha; [apply N.leb_le in Ha|apply N.leb_gt in Ha]; by econstructor.
Qed.

Lemma run_cons o os q es q' :
  run (o :: os) q = (es, q') →
  ∃ es1 q1 es2, perform o q = (es1, q1) ∧ run os q1 = (es2, q') ∧ es = es1 ++ es2.
Proof.
  simpl. destruct (perform o q) as [es1 q1]. destruct (run os q1) as [es2 q2] eqn:E.
  intros [= <- <-]. eauto 10.
Qed.

Lemma run_moves os : ∀ q es q', run os q = (es, q') → moves q es q'.
Proof.
  induction os as [|o os IH]; intros q es q' H; [injection H as <- <-; constructor|].
  apply run_cons in H as (es1 & q1 & es2 & Hp & Hr & ->).
  eapply moves_trans; [by eapply perform_moves|by eapply IH].
Qed.

(** * Conservation of jobs *)

Definition claimed_jobs (q : DurableWorkerQueue) : list WorkerJob := (fun p => job p.2) <$> map_to_list (claimed q).
Definition all_jobs (q : DurableWorkerQueue) : list WorkerJob := pending q ++ claimed_jobs q ++ dead_letter q.
Definition job_ids (q : DurableWorkerQueue) : list string := id <$> all_jobs q.

Definition accepted_ids (es : list Event) : list string :=
  omap (fun e => match e with Accepted j => Some (id j) | _ => None end) es.
Definition completed_ids (es : list Event) : list string :=
  omap (fun e => match e with Completed x => Some x | _ => None end) es.

(** A claim is filed under the identifier of its job. *)
Definition keyed (q : DurableWorkerQueue) : Prop := map_Forall (fun x c => id (job c) = x) (claimed q).

Lemma micro_keyed q es q' : keyed q → micro q es q' → keyed q'.
Proof.
  unfold keyed. intros Hk. destruct 1; simpl; [exact Hk| |by apply map_Forall_delete..].
  apply map_Forall_insert_2; [done|exact Hk].
Qed.

Lemma moves_keyed q es q' : keyed q → moves q es q' → keyed q'.
Proof. intros Hk. induction 1; eauto using micro_keyed. Qed.

Lemma claimed_jobs_insert q x c p d :
  claimed q !! x = None →
  claimed_jobs {| pending := p; claimed := <[x := c]> (claimed q); dead_letter := d |}
  ≡ₚ job c :: claimed_jobs q.
Proof. intros Hx. unfold claimed_jobs. simpl. by rewrite map_to_list_insert. Qed.

Lemma claimed_jobs_delete q x c p d :
  claimed q !! x = Some c →
  claimed_jobs q ≡ₚ job c :: claimed_jobs {| pending := p; claimed := delete x (claimed q); dead_letter := d |}.
Proof. intros Hx. unfold claimed_jobs. simpl. by rewrite <- (map_to_list_delete _ _ _ Hx). Qed.

Lemma claimed_elem q x c : claimed q !! x = Some c → job c ∈ claimed_jobs q.
Proof.
  intros Hx. unfold claimed_jobs. apply list_elem_of_fmap. exists (x, c).
  by rewrite elem_of_map_to_list.
Qed.

(** A pending job with an identifier of its own is not claimed. *)
Lemma pending_not_claimed q i j :
  keyed q → NoDup (job_ids q) → pending q !! i = Some j → claimed q !! id j = None.
Proof.
  intros Hk Hnd Hj. destruct (claimed q !! id j) as [c|] eqn:Hc; [|done]. exfalso.
  unfold job_ids, all_jobs in Hnd. rewrite fmap_app in Hnd. apply NoDup_app in Hnd as (_ & Hdis & _).
  apply (Hdis (id j)).
  - apply list_elem_of_fmap_2. by apply list_elem_of_lookup_2 in Hj.
  - rewrite <- (Hk _ _ Hc). apply list_elem_of_fmap_2, elem_of_app. left. by eapply claimed_elem.
Qed.

Lemma micro_conserve q es q' :
  keyed q → NoDup (job_ids q) → micro q es q' →
  completed_ids es ++ job_ids q' ≡ₚ accepted_ids es ++ job_ids q.
Proof.
  intros Hk Hnd Hm. unfold job_ids, all_jobs. destruct Hm as [q j|q i j w t Hj|q x c Hc|q x c t Hc|q x c Hc];
    cbn [pending dead_letter completed_ids accepted_ids omap list_omap app]; rewrite ?fmap_app; simpl.
  - rewrite <- app_assoc. symmetry. apply (Permutation_middle (id <$> pending q)).
  - rewrite claimed_jobs_insert by by eapply pending_not_claimed. simpl.
    rewrite (delete_Permutation _ _ _ Hj) at 2. simpl.
    change (id (job c)) with (id j). symmetry. apply Permutation_middle.
  - rewrite (claimed_jobs_delete _ _ _ (pending q) (dead_letter q) Hc). simpl.
    rewrite (Hk _ _ Hc). apply Permutation_middle.
  - rewrite (claimed_jobs_delete q _ _ (pending q ++ [with_run_after (job c) t]) (dead_letter q) Hc). simpl.
    by rewrite <- app_assoc.
  - rewrite (claimed_jobs_delete q _ _ (pending q) (dead_letter q ++ [job c]) Hc). simpl.
    apply Permutation_app_head. rewrite app_assoc, Permutation_app_comm. done.
Qed.

Lemma accepted_ids_app es es' : accepted_ids (es ++ es') = accepted_ids es ++ accepted_ids es'.
Proof. apply omap_app. Qed.

Lemma completed_ids_app es es' : completed_ids (es ++ es') = completed_ids es ++ completed_ids es'.
Proof. apply omap_app. Qed.

Lemma moves_conserve q es q' :
  keyed q → NoDup (accepted_ids es ++ job_ids q) → moves q es q' →
  completed_ids es ++ job_ids q' ≡ₚ accepted_ids es ++ job_ids q.
Proof.
  intros Hk Hnd Hm. induction Hm as [q|q es q1 es' q2 H1 _ IH]; [done|].
  assert (NoDup (job_ids q)) as Hq by (apply NoDup_app in Hnd; tauto).
  pose proof (micro_conserve _ _ _ Hk Hq H1) as Hc.
  assert (accepted_ids (es ++ es') ++ job_ids q ≡ₚ accepted_ids es' ++ completed_ids es ++ job_ids q1) as Ha.
  { by rewrite accepted_ids_app, (Permutation_app_comm (accepted_ids es)), <- app_assoc, <- Hc. }
  rewrite Ha in Hnd |- *.
  assert (NoDup (accepted_ids es' ++ job_ids q1)) as Hn1.
  { rewrite Permutation_app_comm, <- app_assoc in Hnd. apply NoDup_app in Hnd as (_ & _ & Hnd).
    by rewrite Permutation_app_comm in Hnd. }
  rewrite completed_ids_app, <- app_assoc, (IH (micro_keyed _ _ _ Hk H1) Hn1), !app_assoc.
  by rewrite (Permutation_app_comm (completed_ids es)).
Qed.

(** The identifiers the enqueue calls of a run draw. *)
Definition drawn (os : list Op) : list string :=
  omap (fun o => match o with Enqueue fresh _ _ _ _ => Some fresh | _ => None end) os.

Lemma perform_accepted o q es q' : perform o q = (es, q') → sublist (accepted_ids es) (drawn [o]).
Proof.
  destruct o as [fresh k p t m|w now v|x|x t]; simpl.
  - unfold enqueue. destruct (Utf8.blank k); [intros [= <- <-]; constructor; constructor|].
    destruct (m =? 0); intros [= <- <-]; [constructor; constructor|done].
  - destruct (claim_next w now v q) as [[[c|]|e] q1]; intros [= <- <-]; done.
  - destruct (complete x q) as [[] q1]; intros [= <- <-]; done.
  - destruct (fail x t q) as [b q1]; intros [= <- <-]; done.
Qed.

Lemma run_accepted os : ∀ q es q', run os q = (es, q') → sublist (accepted_ids es) (drawn os).
Proof.
  induction os as [|o os IH]; intros q es q' H; [injection H as <- <-; constructor|].
  apply run_cons in H as (es1 & q1 & es2 & Hp & Hr & ->).
  rewrite accepted_ids_app. change (o :: os) with ([o] ++ os). unfold drawn. rewrite omap_app.
  apply sublist_app; [by eapply perform_accepted|by eapply IH].
Qed.

(** No job is lost or duplicated.  Over any sequence of enqueues, claims, completions
    and failures (each enqueue drawing an identifier of its own), the accepted jobs are
    exactly the completed ones together with those the queue holds, and the queue holds
    each of them in exactly one of its three places. *)
Theorem jobs_conserved os es q :
  NoDup (drawn os) → run os empty_queue = (es, q) →
  completed_ids es ++ job_ids q ≡ₚ accepted_ids es ∧ NoDup (job_ids q).
Proof.
  intros Hnd Hr. assert (NoDup (accepted_ids es)) as Ha.
  { eapply sublist_NoDup; [done|by eapply run_accepted]. }
  assert (completed_ids es ++ job_ids q ≡ₚ accepted_ids es) as Hp.
  { rewrite (moves_conserve empty_queue es q); [by rewrite app_nil_r|apply map_Forall_empty| |].
    - by rewrite app_nil_r.
    - by eapply run_moves. }
  split; [done|]. rewrite <- Hp in Ha. apply NoDup_app in Ha. tauto.
Qed.

(** * The attempt budget *)

(** What the operations maintain of the attempt counters. *)
Record budgeted (q : DurableWorkerQueue) : Prop := {
  b_pending : Forall (fun j => attempts j < max_attempts j ∧ max_attempts j ≤ u32_max) (pending q);
  b_claimed : map_Forall (fun _ c => 1 ≤ attempts (job c) ≤ max_attempts (job c) ∧
                                     max_attempts (job c) ≤ u32_max) (claimed q);
  b_dead : Forall (fun j => attempts j = max_attempts j) (dead_letter q)
}.

Definition events_typed (es : list Event) : Prop :=
  Forall (fun e => match e with Accepted j => max_attempts j ≤ u32_max | _ => True end) es.

Lemma micro_budgeted q es q' : events_typed es → budgeted q → micro q es q' → budgeted q'.
Proof.
  intros Ht [Hp Hc Hd] Hm. destruct Hm as [q j Ha Hm|q i j w t Hj|q x c Hx|q x c t Hx Hl|q x c Hx Hl]; split; simpl.
  - apply Forall_app. split; [done|]. apply Forall_singleton.
    unfold events_typed in Ht. rewrite Forall_singleton in Ht. lia.
  - done.
  - done.
  - by apply Forall_delete.
  - pose proof (Forall_lookup_1 _ _ _ _ Hp Hj) as Hb. simpl in Hb.
    apply map_Forall_insert_2; [|done]. simpl. rewrite add32_id by lia. lia.
  - done.
  - done.
  - by apply map_Forall_delete.
  - done.
  - apply Forall_app. split; [done|]. apply Forall_singleton. specialize (Hc _ _ Hx). simpl in *. lia.
  - by apply map_Forall_delete.
  - done.
  - done.
  - by apply map_Forall_delete.
  - apply Forall_app. split; [done|]. apply Forall_singleton. specialize (Hc _ _ Hx). simpl in *. lia.
Qed.

(** The attempts a job [x] of the queue has left, and the attempts and claims of a trace. *)
Definition left_of (x : string) (j : WorkerJob) : nat :=
  if String.eqb (id j) x then N.to_nat (max_attempts j - attempts j) else 0%nat.
Definition attempts_left (x : string) (q : DurableWorkerQueue) : nat := sum_list_with (left_of x) (all_jobs q).
Definition granted (x : string) (es : list Event) : nat :=
  sum_list_with (fun e => match e with Accepted j => left_of x j | _ => 0%nat end) es.
Definition claims (x : string) (es : list Event) : nat :=
  sum_list_with (fun e => match e with
                          | Claimed c => if String.eqb (id (job c)) x then 1%nat else 0%nat
                          | _ => 0%nat end) es.

Lemma sum_list_with_perm {A} (f : A → nat) l k : l ≡ₚ k → sum_list_with f l = sum_list_with f k.
Proof. induction 1; simpl; lia. Qed.

Lemma claimed_sum_insert f q x c p d :
  (sum_list_with f (claimed_jobs {| pending := p; claimed := <[x := c]> (claimed q); dead_letter := d |})
   ≤ f (job c) + sum_list_with f (claimed_jobs q))%nat.
Proof.
  unfold claimed_jobs. simpl. destruct (claimed q !! x) as [c0|] eqn:E.
  - rewrite <- insert_delete_eq.
    rewrite (sum_list_with_perm _ _ ((fun p => job p.2) <$> (x, c) :: map_to_list (delete x (claimed q)))).
    2:{ by rewrite map_to_list_insert by apply lookup_delete_eq. }
    rewrite (sum_list_with_perm f ((fun p => job p.2) <$> map_to_list (claimed q))
               ((fun p => job p.2) <$> (x, c0) :: map_to_list (delete x (claimed q)))).
    2:{ by rewrite (map_to_list_delete _ _ _ E). }
    rewrite !fmap_cons. cbn [sum_list_with snd]. lia.
  - rewrite (sum_list_with_perm _ _ ((fun p => job p.2) <$> (x, c) :: map_to_list (claimed q))).
    2:{ by rewrite map_to_list_insert. }
    rewrite fmap_cons. cbn [sum_list_with snd]. lia.
Qed.

Lemma micro_budget x q es q' :
  events_typed es → budgeted q → micro q es q' →
  (claims x es + attempts_left x q' ≤ attempts_left x q + granted x es)%nat.
Proof.
  intros Ht [Hp Hc Hd] Hm. unfold attempts_left, all_jobs, claims, granted.
  destruct Hm as [q j Ha Hm|q i j w t Hj|q y c Hx|q y c t Hx Hl|q y c Hx Hl];
    cbn [sum_list_with pending dead_letter]; rewrite !sum_list_with_app; cbn [sum_list_with].
  - unfold claimed_jobs. simpl. lia.
  - pose proof (claimed_sum_insert (left_of x) q (id j) c (delete i (pending q)) (dead_letter q)) as Hi.
    rewrite (sum_list_with_perm _ (pending q) (j :: delete i (pending q))) by by apply delete_Permutation.
    pose proof (Forall_lookup_1 _ _ _ _ Hp Hj) as Hb. simpl in Hb. simpl sum_list_with.
    assert ((if String.eqb (id (job c)) x then 1%nat else 0%nat) + left_of x (job c) ≤ left_of x j)%nat as Hs.
    { unfold left_of. simpl. rewrite add32_id by lia. destruct (String.eqb (id j) x); lia. }
    lia.
  - rewrite (sum_list_with_perm _ _ _ (claimed_jobs_delete _ _ _ (pending q) (dead_letter q) Hx)).
    simpl. lia.
  - rewrite (sum_list_with_perm _ _ _ (claimed_jobs_delete q _ _ (pending q ++ [with_run_after (job c) t]) (dead_letter q) Hx)).
    simpl. unfold left_of. simpl. lia.
  - rewrite (sum_list_with_perm _ _ _ (claimed_jobs_delete q _ _ (pending q) (dead_letter q ++ [job c]) Hx)).
    simpl. lia.
Qed.

Lemma moves_budget x q es q' :
  events_typed es → budgeted q → moves q es q' →
  (claims x es + attempts_left x q' ≤ attempts_left x q + granted x es)%nat.
Proof.
  intros Ht Hb Hm. revert Ht Hb. induction Hm as [q|q es q1 es' q2 H1 _ IH]; intros Ht Hb; [simpl; lia|].
  apply Forall_app in Ht as [Ht1 Ht2].
  pose proof (micro_budget x _ _ _ Ht1 Hb H1). specialize (IH Ht2 (micro_budgeted _ _ _ Ht1 Hb H1)).
  unfold claims, granted in *. rewrite !sum_list_with_app. lia.
Qed.

Definition op_typed (o : Op) : Prop :=
  match o with Enqueue _ _ _ _ m => m ≤ u32_max | _ => True end.

Lemma perform_typed o q es q' : op_typed o → perform o q = (es, q') → events_typed es.
Proof.
  unfold events_typed. destruct o as [fresh k p t m|w now v|x|x t]; simpl; intros Ht.
  - unfold enqueue. destruct (Utf8.blank k); [by intros [= <- <-]|].
    destruct (m =? 0); intros [= <- <-]; [done|by apply Forall_singleton].
  - destruct (claim_next w now v q) as [[[c|]|e] q1]; intros [= <- <-]; by repeat constructor.
  - destruct (complete x q) as [[] q1]; intros [= <- <-]; by repeat constructor.
  - destruct (fail x t q) as [b q1]; intros [= <- <-]; done.
Qed.

Lemma run_typed os : ∀ q es q', Forall op_typed os → run os q = (es, q') → events_typed es.
Proof.
  induction os as [|o os IH]; intros q es q' Ht H; [injection H as <- <-; constructor|].
  apply Forall_cons in Ht as [Ho Ht]. apply run_cons in H as (es1 & q1 & es2 & Hp & Hr & ->).
  apply Forall_app. split; [by eapply perform_typed|by eapply IH].
Qed.

Lemma empty_budgeted : budgeted empty_queue.
Proof. split; simpl; [done|apply map_Forall_empty|done]. Qed.

(** A job is handed out at most [max_attempts] times.  Over any sequence of
    operations on a fresh queue, whatever its workers do and however often claims expire,
    the number of times a worker receives job [x] is at most the attempts granted when it
    was accepted. *)
Theorem claims_within_budget os es q x :
  Forall op_typed os → run os empty_queue = (es, q) → (claims x es ≤ granted x es)%nat.
Proof.
  intros Ht Hr.
  pose proof (moves_budget x _ _ _ (run_typed _ _ _ _ Ht Hr) empty_budgeted (run_moves _ _ _ _ Hr)) as H.
  assert (attempts_left x empty_queue = 0%nat) as E by reflexivity. lia.
Qed.


(** * Exclusive claims *)

(** [x] is not pending, and its claim, if it has one, stands until [expires]. *)
Definition held_until (x : string) (expires : N) (q : DurableWorkerQueue) : Prop :=
  Forall (fun j => id j ≠ x) (pending q) ∧ keyed q ∧
  (∀ c, claimed q !! x = Some c → visibility_expires_at_epoch c = expires).

(** An operation that neither fails job [x], nor draws [x] again, nor claims once the
    claim has expired. *)
Definition within_claim (x : string) (expires : N) (o : Op) : Prop :=
  match o with
  | Enqueue fresh _ _ _ _ => fresh ≠ x
  | ClaimNext _ now _ => now < expires
  | Complete _ => True
  | FailJob y _ => y ≠ x
  end.

Lemma held_release x expires q y c j d :
  held_until x expires q → claimed q !! y = Some c → y ≠ x → id j = id (job c) →
  held_until x expires {| pending := pending q ++ [j]; claimed := delete y (claimed q); dead_letter := d |}.
Proof.
  intros (Hp & Hk & He) Hc Hne Hj. repeat split; simpl.
  - apply Forall_app. split; [done|]. apply Forall_singleton. rewrite Hj, (Hk _ _ Hc). done.
  - by apply map_Forall_delete.
  - intros c' Hc'. apply He. by apply lookup_delete_Some in Hc' as [_ Hc'].
Qed.

Lemma held_drop x expires q y d :
  held_until x expires q →
  held_until x expires {| pending := pending q; claimed := delete y (claimed q); dead_letter := d |}.
Proof.
  intros (Hp & Hk & He). repeat split; simpl; [done|by apply map_Forall_delete|].
  intros c' Hc'. apply He. by apply lookup_delete_Some in Hc' as [_ Hc'].
Qed.

Lemma held_requeue x expires now q :
  now < expires → held_until x expires q → held_until x expires (requeue_expired_claims now q).
Proof.
  intros Hlt Hh. unfold requeue_expired_claims.
  assert (x ∉ expired_claims now q) as Hx.
  { unfold expired_claims. rewrite elem_of_lfilter. intros [_ Hx]. destruct Hh as (_ & _ & He).
    destruct (claimed q !! x) as [c|] eqn:E; [|done]. apply N.leb_le in Hx. specialize (He _ eq_refl). lia. }
  revert Hx Hh. generalize (expired_claims now q) as ys. intros ys. revert q.
  induction ys as [|y ys IH]; intros q Hx Hh; simpl; [done|].
  apply not_elem_of_cons in Hx as [Hxy Hx]. apply IH; [done|]. unfold requeue_claim.
  destruct (claimed q !! y) as [c|] eqn:E; [|done].
  case_match; [by apply held_drop|by eapply held_release].
Qed.

Lemma perform_held x expires o q es q' :
  within_claim x expires o → held_until x expires q → perform o q = (es, q') →
  held_until x expires q' ∧ claims x es = 0%nat.
Proof.
  intros Hw Hh. destruct o as [fresh k p t m|w now v|y|y t]; simpl in Hw |- *.
  - unfold enqueue. destruct (Utf8.blank k); [by intros [= <- <-]|].
    destruct (m =? 0); intros [= <- <-]; [done|]. destruct Hh as (Hp & Hk & He).
    repeat split; simpl; [|done..]. apply Forall_app. split; [done|]. by apply Forall_singleton.
  - unfold claim_next. destruct (Utf8.blank w); [by intros [= <- <-]|].
    destruct (v =? 0); [by intros [= <- <-]|].
    pose proof (held_requeue _ _ _ _ Hw Hh) as Hr. revert Hr.
    generalize (requeue_expired_claims now q) as q1. intros q1 Hr.
    destruct (list_find (is_due now) (pending q1)) as [[i j]|]; [|by intros [= <- <-]].
    destruct (pending q1 !! i) as [j'|] eqn:Ej; intros [= <- <-]; [|done].
    destruct Hr as (Hp & Hk & He). pose proof (Forall_lookup_1 _ _ _ _ Hp Ej) as Hj. simpl in Hj.
    repeat split; simpl.
    + by apply Forall_delete.
    + by apply map_Forall_insert_2.
    + intros c. rewrite lookup_insert_ne by done. apply He.
    + by rewrite (proj2 (String.eqb_neq _ _) Hj).
  - unfold complete. destruct (claimed q !! y) eqn:E; intros [= <- <-]; [|done].
    split; [by apply held_drop|done].
  - unfold fail. destruct (claimed q !! y) as [c|] eqn:E; intros [= <- <-]; [|done].
    split; [|done]. case_match; [by apply held_drop|by eapply held_release].
Qed.

Lemma run_held x expires os : ∀ q es q',
  Forall (within_claim x expires) os → held_until x expires q → run os q = (es, q') → claims x es = 0%nat.
Proof.
  induction os as [|o os IH]; intros q es q' Hw Hh H; [by injection H as <- <-|].
  apply Forall_cons in Hw as [Ho Hw]. apply run_cons in H as (es1 & q1 & es2 & Hp & Hr & ->).
  destruct (perform_held _ _ _ _ _ _ Ho Hh Hp) as [Hh1 H1].
  unfold claims in *. rewrite sum_list_with_app, H1. by eapply IH.
Qed.

(** What a successful claim does to the queue. *)
Lemma claim_next_Some w now v q c q' :
  claim_next w now v q = (Ok (Some c), q') →
  ∃ i j, let q1 := requeue_expired_claims now q in
    list_find (is_due now) (pending q1) = Some (i, j) ∧ pending q1 !! i = Some j ∧
    c = {| job := with_attempts j (add32 (attempts j) 1); worker_id := w;
           visibility_expires_at_epoch := add64 now v |} ∧
    q' = {| pending := delete i (pending q1); claimed := <[id j := c]> (claimed q1);
            dead_letter := dead_letter q1 |}.
Proof.
  unfold claim_next. destruct (Utf8.blank w); [done|]. destruct (v =? 0); [done|].
  generalize (requeue_expired_claims now q) as q1. intros q1.
  destruct (list_find (is_due now) (pending q1)) as [[i j]|] eqn:Ef; [|done].
  pose proof (proj1 (proj1 (list_find_Some _ _ _ _) Ef)) as Hj. rewrite Hj.
  intros [= <- <-]. eauto 10.
Qed.

Lemma moves_NoDup q es q' :
  keyed q → NoDup (accepted_ids es ++ job_ids q) → moves q es q' → NoDup (job_ids q').
Proof.
  intros Hk Hnd Hm. rewrite <- (moves_conserve _ _ _ Hk Hnd Hm) in Hnd.
  apply NoDup_app in Hnd. tauto.
Qed.

(** A claim is exclusive.  Once a worker has received a job, no later claim made before
    the claim's expiry hands the same job to any worker, unless the job is failed in between. *)
Theorem claim_exclusive w now v q c q1 os es q2 :
  keyed q → NoDup (job_ids q) → claim_next w now v q = (Ok (Some c), q1) →
  Forall (within_claim (id (job c)) (visibility_expires_at_epoch c)) os →
  run os q1 = (es, q2) → claims (id (job c)) es = 0%nat.
Proof.
  intros Hk Hnd Hc Hw Hr. eapply run_held; [exact Hw| |exact Hr].
  destruct (claim_next_Some _ _ _ _ _ _ Hc) as (i & j & _ & Hj & -> & ->).
  pose proof (requeue_moves now q) as Hm.
  pose proof (moves_keyed _ _ _ Hk Hm) as Hk1. pose proof (moves_NoDup _ [] _ Hk Hnd Hm) as Hn1.
  repeat split; simpl.
  - unfold job_ids, all_jobs in Hn1. rewrite fmap_app in Hn1. apply NoDup_app in Hn1 as (Hn1 & _ & _).
    rewrite (delete_Permutation _ _ _ Hj) in Hn1. simpl in Hn1. apply NoDup_cons in Hn1 as [Hn1 _].
    apply Forall_forall. intros j' Hj' E. apply Hn1. rewrite <- E. by apply list_elem_of_fmap_2.
  - by apply map_Forall_insert_2.
  - intros c. rewrite lookup_insert_eq. by intros [= <-].
Qed.

(** * Progress *)

Lemma requeue_pending now q : ∃ l, pending (requeue_expired_claims now q) = pending q ++ l.
Proof.
  unfold requeue_expired_claims. generalize (expired_claims now q) as xs. intros xs. revert q.
  induction xs as [|x xs IH]; intros q; simpl; [exists []; by rewrite app_nil_r|].
  destruct (IH (requeue_claim q x)) as [l ->]. unfold requeue_claim.
  destruct (claimed q !! x); [|eauto]. case_match; simpl; [eauto|]. rewrite <- app_assoc. eauto.
Qed.

(** Valid claim calls that find job [j] due. *)
Definition claims_at (t : N) (o : Op) : Prop :=
  match o with
  | ClaimNext w now v => Utf8.blank w = false ∧ v ≠ 0 ∧ t ≤ now
  | _ => True
  end.
Definition is_claim (o : Op) : bool := match o with ClaimNext _ _ _ => true | _ => false end.
Definition claim_calls (os : list Op) : nat := length (List.filter is_claim os).

Lemma perform_pending o q es q' :
  is_claim o = false → perform o q = (es, q') → ∃ l, pending q' = pending q ++ l.
Proof.
  intros Hn. assert (∃ l, pending q = pending q ++ l) as Hid by (exists []; by rewrite app_nil_r).
  destruct o as [fresh k p t m|w now v|x|x t]; [| done | |]; simpl.
  - unfold enqueue. destruct (Utf8.blank k); [by intros [= <- <-]|].
    destruct (m =? 0); intros [= <- <-]; [done|]. simpl. eauto.
  - unfold complete. destruct (claimed q !! x); by intros [= <- <-].
  - unfold fail. destruct (claimed q !! x); intros [= <- <-]; [|done]. case_match; [done|]. simpl. eauto.
Qed.

Lemma claim_next_progress w now v q i j :
  Utf8.blank w = false → v ≠ 0 → pending q !! i = Some j → run_after_epoch j ≤ now →
  ∃ c q', claim_next w now v q = (Ok (Some c), q') ∧
    (job c = with_attempts j (add32 (attempts j) 1)
     ∨ ∃ i', (i' < i)%nat ∧ pending q' !! i' = Some j).
Proof.
  intros Hw Hv Hj Hd. unfold claim_next. rewrite Hw, (proj2 (N.eqb_neq _ _) Hv).
  destruct (requeue_pending now q) as [l Hl].
  assert (pending (requeue_expired_claims now q) !! i = Some j) as Hj1.
  { rewrite Hl. by apply lookup_app_l_Some. }
  clear Hl Hj. revert Hj1. generalize (requeue_expired_claims now q) as q1. intros q1 Hj.
  destruct (list_find (is_due now) (pending q1)) as [[k j']|] eqn:Ef.
  - apply list_find_Some in Ef as (Hk & _ & Hmin). rewrite Hk. do 2 eexists. split; [done|]. simpl.
    destruct (decide (k = i)) as [->|Hne]; [left; congruence|right].
    assert (k < i)%nat as Hlt.
    { destruct (decide (i < k)%nat) as [Hik|]; [|lia]. by destruct (Hmin _ _ Hj Hik). }
    exists (i - 1)%nat. split; [lia|]. rewrite list_lookup_delete_ge by lia.
    by replace (S (i - 1)) with i by lia.
  - apply list_find_None in Ef. rewrite Forall_lookup in Ef. by destruct (Ef _ _ Hj).
Qed.

(** A due job is not starved.  A pending job with [i] jobs before it is handed to a
    worker by one of any [i + 1] claim calls made once it is due, whatever enqueues,
    completions, failures and expiries happen between them. *)
Theorem due_job_claimed os i j q es q' :
  pending q !! i = Some j → Forall (claims_at (run_after_epoch j)) os →
  (i < claim_calls os)%nat → run os q = (es, q') →
  ∃ c, Claimed c ∈ es ∧ job c = with_attempts j (add32 (attempts j) 1).
Proof.
  revert i q es q'. induction os as [|o os IH]; intros i q es q' Hj Hat Hn H; [by apply Nat.nlt_0_r in Hn|].
  apply Forall_cons in Hat as [Ho Hat]. apply run_cons in H as (es1 & q1 & es2 & Hp & Hr & ->).
  setoid_rewrite elem_of_app. unfold claim_calls in Hn. simpl in Hn.
  destruct (is_claim o) eqn:Eo.
  - destruct o as [|w now v| |]; try done. destruct Ho as (Hw & Hv & Hd).
    destruct (claim_next_progress w now v q i j Hw Hv Hj Hd) as (c & q3 & Hc & Hcase).
    simpl in Hp. rewrite Hc in Hp. injection Hp as <- <-.
    destruct Hcase as [Hc1|(i' & Hi & Hj')].
    + exists c. split; [left; left|done].
    + destruct (IH i' q3 es2 q') as (c' & Hc' & E); [done|done| |done|by eauto].
      simpl in Hn. unfold claim_calls. lia.
  - destruct (perform_pending _ _ _ _ Eo Hp) as [l Hl].
    destruct (IH i q1 es2 q') as (c' & Hc' & E); [|done|done|done|by eauto].
    rewrite Hl. by apply lookup_app_l_Some.
Qed.


End WorkerQueue.

(** ** Witnesses *)

Definition sample_ops : list (Op (Payload := unit)) :=
  [Enqueue "a" "mail" tt 10 2; Enqueue "b" "sync" tt 0 1; Enqueue "c" " " tt 0 1;
   ClaimNext "w1" 5 60; ClaimNext "w1" 12 30; Complete "b"; ClaimNext "w2" 50 30; FailJob "a" 60].

Lemma jobs_conserved_witness :
  completed_ids (run sample_ops empty_queue).1 ++ job_ids (run sample_ops empty_queue).2
  ≡ₚ accepted_ids (run sample_ops empty_queue).1 ∧ NoDup (job_ids (run sample_ops empty_queue).2).
Proof.
  apply (jobs_conserved sample_ops); [|by destruct (run sample_ops empty_queue)].
  vm_compute. repeat (constructor; [set_solver|]). constructor.
Defined.

Lemma claims_within_budget_witness :
  (claims "a" (run sample_ops empty_queue).1 ≤ granted "a" (run sample_ops empty_queue).1)%nat.
Proof.
  apply (claims_within_budget sample_ops _ (run sample_ops empty_queue).2); [|reflexivity].
  unfold sample_ops. repeat constructor; vm_compute; discriminate.
Defined.

Definition sample_queue : DurableWorkerQueue (Payload := unit) :=
  (run [Enqueue "a" "mail" tt 10 2; Enqueue "b" "sync" tt 0 1] empty_queue).2.

Lemma claim_exclusive_witness :
  claims "b" (run [ClaimNext "w2" 20 5; ClaimNext "w2" 30 5] (claim_next "w1" 5 60 sample_queue).2).1 = 0%nat.
Proof.
  eapply (claim_exclusive "w1" 5 60 sample_queue
            {| job := {| id := "b"; kind := "sync"; payload_json := tt; run_after_epoch := 0;
                         attempts := 1; max_attempts := 1 |};
               worker_id := "w1"; visibility_expires_at_epoch := 65 |}
            _ [ClaimNext "w2" 20 5; ClaimNext "w2" 30 5]).
  - intros x c Hc. vm_compute in Hc. discriminate.
  - vm_compute. repeat (constructor; [set_solver|]). constructor.
  - vm_compute. reflexivity.
  - repeat constructor; vm_compute; reflexivity.
  - vm_compute. reflexivity.
Defined.

Lemma due_job_claimed_witness :
  ∃ c, Claimed c ∈ (run [ClaimNext "w1" 12 60; Enqueue "d" "mail" tt 0 1; ClaimNext "w2" 13 60] sample_queue).1
       ∧ id (job c) = "b".
Proof.
  destruct (due_job_claimed [ClaimNext "w1" 12 60; Enqueue "d" "mail" tt 0 1; ClaimNext "w2" 13 60] 1
              {| id := "b"; kind := "sync"; payload_json := tt; run_after_epoch := 0;
                 attempts := 0; max_attempts := 1 |} sample_queue
              (run [ClaimNext "w1" 12 60; Enqueue "d" "mail" tt 0 1; ClaimNext "w2" 13 60] sample_queue).1
              (run [ClaimNext "w1" 12 60; Enqueue "d" "mail" tt 0 1; ClaimNext "w2" 13 60] sample_queue).2)
    as (c & Hc & Hj).
  - vm_compute. reflexivity.
  - repeat constructor; vm_compute; done.
  - vm_compute. lia.
  - vm_compute. reflexivity.
  - exists c. split; [exact Hc|]. by rewrite Hj.
Defined.

End WorkerQueue.

(** * Emergency read-only mode *)

Module Emergency.

Record EmergencyModeDecision : Type := {
  read_only : bool;
  reason : option string;
  allowed_actions : list string;
  denied_actions : list string
}.

Definition decide_emergency_mode (db_writable quorum_available audit_queue_writable : bool) : EmergencyModeDecision :=
  let read_only := negb db_writable || negb quorum_available || negb audit_queue_writable in
  let reason :=
    if negb db_writable then Some "database_not_writable"
    else if negb quorum_available then Some "cluster_quorum_unavailable"
    else if negb audit_queue_writable then Some "audit_queue_not_writable"
    else None in
  if read_only
  then {| read_only := true; reason := reason;
          allowed_actions := ["health.read"; "configuration.read"; "audit.read"];
          denied_actions := ["token.issue"; "admin.mutate"; "policy.update"] |}
  else {| read_only := false; reason := None; allowed_actions := ["*"]; denied_actions := [] |}.

(** The mode is entered exactly when one of the three is down, always with a reason, and
    then no denied action is allowed, by name or by wildcard. *)
Lemma emergency_mode_exact db quorum audit :
  let d := decide_emergency_mode db quorum audit in
  (read_only d = true ↔ db = false ∨ quorum = false ∨ audit = false) ∧
  (is_Some (reason d) ↔ read_only d = true) ∧
  (read_only d = true → ("token.issue" ∈ denied_actions d) ∧
     (∀ a, a ∈ allowed_actions d → (a ∉ denied_actions d) ∧ a ≠ "*")).
Proof.
  assert (∀ a : string, a ∈ ["health.read"; "configuration.read"; "audit.read"] →
    (a ∉ ["token.issue"; "admin.mutate"; "policy.update"]) ∧ a ≠ "*") as Ha.
  { intros a. rewrite !elem_of_cons. intros [->|[->|[->|H]]]; [..|by apply not_elem_of_nil in H]; set_solver. }
  assert (is_Some (None : option string) → False) as Hn by by intros [? [=]].
  assert (∀ r : string, is_Some (Some r)) as Hs by eauto.
  destruct db, quorum, audit; simpl; (split; [naive_solver|split; [naive_solver|]]);
    first [done | intros _; split; [left|exact Ha]].
Qed.

End Emergency.
