(* ===== verification/Cluster.v ===== *)
(** Cluster topology of src/qid-ops/src/cluster.rs: leader election with leases, placement
    of tenants on shards by rendezvous hashing, and the active-active topology check.

    SHA-256 is a parameter: [sha256] maps the bytes of a message to the bytes of its
    digest.  Sums of epochs and terms are those of a release build. *)

From S2P Require Import Prelude Utf8.

(** * Hexadecimal (src/qid-core/src/util.rs) *)

Definition HEX (n : N) : Ascii.ascii :=
  default (Ascii.ascii_of_N 48) (String.get (N.to_nat n) "0123456789abcdef").

Fixpoint hex_encode_lower (bytes : list N) : string :=
  match bytes with
  | [] => ""
  | b :: bs => String (HEX (N.shiftr b 4)) (String (HEX (N.land b 15)) (hex_encode_lower bs))
  end.

(** [char::to_digit(16)] *)
Definition hex_value (c : Ascii.ascii) : option N :=
  let n := Ascii.N_of_ascii c in
  if (48 <=? n) && (n <=? 57) then Some (n - 48)
  else if (97 <=? n) && (n <=? 102) then Some (n - 87)
  else if (65 <=? n) && (n <=? 70) then Some (n - 55)
  else None.

Definition u128_max : N := 340282366920938463463374607431768211455.

Fixpoint parse_hex (acc : N) (s : string) : option N :=
  match s with
  | EmptyString => Some acc
  | String c s' =>
      match hex_value c with
      | Some d => if acc * 16 + d <=? u128_max then parse_hex (acc * 16 + d) s' else None
      | None => None
      end
  end.

(** [u128::from_str_radix(_, 16)] *)
Definition u128_from_hex (s : string) : option N :=
  match s with
  | EmptyString => None
  | String c s' => if Ascii.eqb c PLUS then (if is_empty_str s' then None else parse_hex 0 s') else parse_hex 0 s
  end.

Module Cluster.

(** * Data *)

Record ClusterNode : Type := { node_id : string; node_region : string; priority : N; last_seen_epoch : N }.

Record LeaderLease : Type := { leader_id : string; term : N; expires_at_epoch : N }.

Record TenantShard : Type := { id : string; region : string; weight : N; writable : bool }.

Inductive TenantShardPlanStatus : Type := ShardReady | ShardRejected.

Record TenantShardPlan : Type := {
  status : TenantShardPlanStatus;
  tenant_id : string;
  primary_shard_id : option string;
  primary_region : option string;
  replica_shard_ids : list string;
  routing_key : option string;
  reasons : list string
}.

Inductive ActiveActiveTopologyStatus : Type := TopologyReady | TopologyRejected.

Record ActiveActiveTopologyPlan : Type := {
  topology_status : ActiveActiveTopologyStatus;
  shard_count : N;
  region_count : N;
  writable_shard_count : N;
  writable_region_count : N;
  required_region_count : N;
  required_replica_count : N;
  topology_reasons : list string
}.

(** * Leader election *)

Definition is_fresh (now ttl : N) (n : ClusterNode) : bool := saturating_sub now (last_seen_epoch n) <=? ttl.

(** [a.priority.cmp(&b.priority).then_with(|| a.id.cmp(&b.id))] is not [Greater]. *)
Definition node_leb (a b : ClusterNode) : bool :=
  (priority a <? priority b) || ((priority a =? priority b) && str_leb (node_id a) (node_id b)).

Definition elect_leader (nodes : list ClusterNode) (current_lease : option LeaderLease) (now ttl : N)
    : QidResult (option LeaderLease) :=
  if ttl =? 0 then Err (BadRequest "Leader lease TTL must be greater than zero")
  else
    let elect :=
      match min_by node_leb (List.filter (is_fresh now ttl) nodes) with
      | None => Ok None
      | Some candidate =>
          Ok (Some {| leader_id := node_id candidate;
                      term := match current_lease with Some l => add64 (term l) 1 | None => 1 end;
                      expires_at_epoch := add64 now ttl |})
      end in
    match current_lease with
    | Some lease =>
        if (now <? expires_at_epoch lease) && existsb (fun n => String.eqb (node_id n) (leader_id lease)) nodes
        then Ok (Some lease) else elect
    | None => elect
    end.

(** * Shards *)

Fixpoint validate_shards_from (seen : list string) (shards : list TenantShard) : list string :=
  match shards with
  | [] => []
  | s :: rest =>
      (if Utf8.blank (id s) then ["empty_shard_id"] else [])
      ++ (if Utf8.blank (region s) then ["shard_region_empty:" +:+ id s] else [])
      ++ (if weight s =? 0 then ["shard_weight_zero:" +:+ id s] else [])
      ++ (if str_in (id s) seen then ["duplicate_shard_id:" +:+ id s] else [])
      ++ validate_shards_from (id s :: seen) rest
  end.

Definition validate_tenant_shards (shards : list TenantShard) : list string := validate_shards_from [] shards.

Definition is_writable (s : TenantShard) : bool := writable s && (0 <? weight s).

Definition candidate_shards (shards : list TenantShard) (preferred_region : option string) : list TenantShard :=
  let writable := List.filter is_writable shards in
  match preferred_region with
  | Some r => List.filter (fun s => String.eqb (region s) r) writable
  | None => writable
  end.

Section Placement.
Context (sha256 : string → list N).

Definition sha256_hex (s : string) : string := hex_encode_lower (sha256 s).

Definition tenant_shard_score (tenant : string) (s : TenantShard) : N :=
  let hash := sha256_hex ("tenant-shard-v1:" +:+ tenant +:+ ":" +:+ id s) in
  N.min (default 0 (u128_from_hex (str_take 24 hash)) * weight s) u128_max.

Definition scored_leb (a b : N * string) : bool :=
  (b.1 <? a.1) || ((a.1 =? b.1) && str_leb a.2 b.2).

Definition replica_shards (tenant : string) (shards : list TenantShard) (primary : string) (count : nat)
    : list string :=
  let candidates :=
    map (fun s => (tenant_shard_score tenant s, id s))
      (List.filter (fun s => negb (String.eqb (id s) primary) && (0 <? weight s)) shards) in
  map snd (take count (sort_by scored_leb candidates)).

Definition fatal_reason (r : string) : bool :=
  String.eqb r "empty_tenant_id" || String.eqb r "empty_shard_set" || String.eqb r "no_writable_shard"
  || starts_with "no_writable_shard_in_preferred_region:" r || starts_with "empty_shard_id" r
  || starts_with "shard_region_empty:" r || starts_with "shard_weight_zero:" r
  || starts_with "duplicate_shard_id:" r.

Definition rejected (tenant : string) (rs : list string) : TenantShardPlan :=
  {| status := ShardRejected; tenant_id := tenant; primary_shard_id := None; primary_region := None;
     replica_shard_ids := []; routing_key := None; reasons := rs |}.

Definition plan_reasons (tenant : string) (shards : list TenantShard) (preferred : option string) : list string :=
  (if is_empty_str tenant then ["empty_tenant_id"] else [])
  ++ (match shards with [] => ["empty_shard_set"] | _ => [] end)
  ++ validate_tenant_shards shards
  ++ (match candidate_shards shards preferred with
      | [] => [match preferred with
               | Some r => "no_writable_shard_in_preferred_region:" +:+ r
               | None => "no_writable_shard" end]
      | _ => []
      end).

Definition plan_tenant_shard (tenant_id : string) (shards : list TenantShard)
    (preferred_region : option string) (replica_count : nat) : TenantShardPlan :=
  let tenant := Utf8.trim_str tenant_id in
  let preferred :=
    match preferred_region with
    | Some r => if is_empty_str (Utf8.trim_str r) then None else Some (Utf8.trim_str r)
    | None => None
    end in
  let rs := plan_reasons tenant shards preferred in
  if existsb fatal_reason rs then rejected tenant rs
  else
    match max_by (fun a b => tenant_shard_score tenant a <=? tenant_shard_score tenant b)
            (candidate_shards shards preferred) with
    | None => rejected tenant ["no_writable_shard"]
    | Some primary =>
        {| status := ShardReady; tenant_id := tenant; primary_shard_id := Some (id primary);
           primary_region := Some (region primary);
           replica_shard_ids := replica_shards tenant shards (id primary) replica_count;
           routing_key := Some ("tenant:" +:+ tenant +:+ ":shard:" +:+ id primary);
           reasons := rs |}
    end.

End Placement.

(** * Active-active topology *)

(** The length of a [BTreeSet] collected from strings. *)
Definition distinct (l : list string) : N := N.of_nat (size (list_to_set l : gset string)).

Definition show (n : N) : string := pretty n.

Definition cross_region_replica (shards : list TenantShard) : bool :=
  existsb (fun primary =>
    is_writable primary &&
    existsb (fun replica =>
      negb (String.eqb (id replica) (id primary)) && (0 <? weight replica)
      && negb (Utf8.blank (region replica)) && negb (String.eqb (region replica) (region primary))) shards) shards.

Definition plan_active_active_topology (shards : list TenantShard) (required_regions required_replicas : N)
    : ActiveActiveTopologyPlan :=
  let count := N.of_nat (length shards) in
  let regions := distinct (map region (List.filter (fun s => negb (Utf8.blank (region s))) shards)) in
  let writable_regions :=
    distinct (map region (List.filter (fun s => is_writable s && negb (Utf8.blank (region s))) shards)) in
  let writable_shards := N.of_nat (length (List.filter is_writable shards)) in
  let minimum_shards := saturating_add64 required_replicas 1 in
  let rs :=
    validate_tenant_shards shards
    ++ (match shards with [] => ["empty_shard_set"] | _ => [] end)
    ++ (if required_regions <? 2 then ["required_region_count_below_active_active_minimum"] else [])
    ++ (if regions <? required_regions
        then ["insufficient_regions:" +:+ show regions +:+ "/" +:+ show required_regions] else [])
    ++ (if writable_regions <? required_regions
        then ["insufficient_writable_regions:" +:+ show writable_regions +:+ "/" +:+ show required_regions] else [])
    ++ (if writable_shards =? 0 then ["no_writable_shard"] else [])
    ++ (if count <? minimum_shards
        then ["insufficient_shards_for_replicas:" +:+ show count +:+ "/" +:+ show minimum_shards] else [])
    ++ (if (0 <? required_replicas) && negb (cross_region_replica shards)
        then ["cross_region_replica_unavailable"] else []) in
  {| topology_status := match rs with [] => TopologyReady | _ => TopologyRejected end;
     shard_count := count; region_count := regions; writable_shard_count := writable_shards;
     writable_region_count := writable_regions; required_region_count := required_regions;
     required_replica_count := required_replicas; topology_reasons := rs |}.

(** * Properties of elections *)

Lemma node_leb_total a b : node_leb a b = false → node_leb b a = true.
Proof.
  unfold node_leb. rewrite orb_false_iff, andb_false_iff, orb_true_iff, andb_true_iff.
  rewrite !N.ltb_lt, N.ltb_ge, !N.eqb_eq, N.eqb_neq. intros [H [Hn|Hs]]; [left; lia|].
  apply str_leb_total in Hs. destruct (decide (priority b < priority a)); [by left|right; split; [lia|done]].
Qed.

Lemma node_leb_trans a b c : node_leb a b = true → node_leb b c = true → node_leb a c = true.
Proof.
  unfold node_leb. rewrite !orb_true_iff, !andb_true_iff, !N.ltb_lt, !N.eqb_eq.
  intros [H1|[H1 S1]] [H2|[H2 S2]]; [left; lia..|right]. split; [lia|by eapply str_leb_trans].
Qed.

(** The node an election may choose: fresh, and first by priority, then by identifier. *)
Definition best_candidate (nodes : list ClusterNode) (now ttl : N) (n : ClusterNode) : Prop :=
  n ∈ nodes ∧ is_fresh now ttl n = true ∧
  ∀ m, m ∈ nodes → is_fresh now ttl m = true → node_leb n m = true.

Definition lease_stands (nodes : list ClusterNode) (now : N) (l : LeaderLease) : Prop :=
  now < expires_at_epoch l ∧ ∃ n, n ∈ nodes ∧ node_id n = leader_id l.

Lemma lease_stands_spec nodes now l :
  (now <? expires_at_epoch l) && existsb (fun n => String.eqb (node_id n) (leader_id l)) nodes = true
  ↔ lease_stands nodes now l.
Proof.
  unfold lease_stands. rewrite andb_true_iff, N.ltb_lt, existsb_elem_of.
  by setoid_rewrite String.eqb_eq.
Qed.

Lemma fresh_min nodes now ttl :
  match min_by node_leb (List.filter (is_fresh now ttl) nodes) with
  | None => ∀ n, n ∈ nodes → is_fresh now ttl n = false
  | Some n => best_candidate nodes now ttl n
  end.
Proof.
  pose proof (min_by_spec node_leb (List.filter (is_fresh now ttl) nodes) node_leb_total node_leb_trans) as H.
  destruct (min_by node_leb _) as [n|].
  - destruct H as [[Hin Hf]%elem_of_lfilter Hmin]. split_and!; [done..|].
    intros m Hm Hfm. apply Hmin. by apply elem_of_lfilter.
  - by apply lfilter_nil.
Qed.

(** An election decides correctly in every case: a zero lease time is an error; a
    lease that has not expired and whose holder is still a member is kept as it is;
    otherwise the best fresh node (lowest priority number, then lowest identifier) gets a
    lease of the next term that runs for the lease time; and there is no leader exactly when no node is fresh. *)
Theorem elect_leader_exact nodes current now ttl :
  match elect_leader nodes current now ttl with
  | Err e => ttl = 0 ∧ e = BadRequest "Leader lease TTL must be greater than zero"
  | Ok r =>
      ttl ≠ 0 ∧
      ((∃ l, current = Some l ∧ lease_stands nodes now l ∧ r = current)
       ∨ (∀ l, current = Some l → ¬ lease_stands nodes now l) ∧
         match r with
         | None => ∀ n, n ∈ nodes → is_fresh now ttl n = false
         | Some l => ∃ n, best_candidate nodes now ttl n ∧
             l = {| leader_id := node_id n;
                    term := match current with Some l => add64 (term l) 1 | None => 1 end;
                    expires_at_epoch := add64 now ttl |}
         end)
  end.
Proof.
  unfold elect_leader. destruct (N.eqb_spec ttl 0) as [|Hz]; [done|].
  pose proof (fresh_min nodes now ttl) as Hm.
  destruct current as [l|]; [destruct (_ && _) eqn:El|].
  - apply lease_stands_spec in El. split; [done|left; eauto].
  - assert (∀ l', Some l = Some l' → ¬ lease_stands nodes now l') as Hn.
    { intros l' [= <-] Hl%lease_stands_spec. congruence. }
    destruct (min_by node_leb _) as [n|]; (split; [done|right; split; [done|]]); eauto.
  - destruct (min_by node_leb _) as [n|]; (split; [done|right; split; [done|]]); eauto.
Qed.

(** ** Histories of leases

    Each election is given the last lease granted. *)

Record Election : Type := { e_nodes : list ClusterNode; e_now : N; e_ttl : N }.

Definition election_step (current : option LeaderLease) (e : Election) : option LeaderLease :=
  match elect_leader (e_nodes e) current (e_now e) (e_ttl e) with
  | Ok (Some l) => Some l
  | _ => current
  end.

Fixpoint leases (current : option LeaderLease) (es : list Election) : list LeaderLease :=
  match es with
  | [] => []
  | e :: es' =>
      let next := election_step current e in
      match next with Some l => l :: leases next es' | None => leases next es' end
  end.

Definition term_of (l : option LeaderLease) : N := match l with Some l => term l | None => 0 end.

(** A step keeps the lease or moves to the next term. *)
Lemma election_step_cases current e :
  term_of current < u64_max →
  election_step current e = current ∨
  (∃ l, election_step current e = Some l ∧ term l = term_of current + 1).
Proof.
  intros Hb. unfold election_step, elect_leader. destruct (e_ttl e =? 0); [by left|].
  destruct current as [l|]; [destruct (_ && _)|]; [by left| |];
    (destruct (min_by node_leb _) as [n|]; [right|by left]); eexists; (split; [done|]); simpl; [|done].
  apply add64_id. simpl in Hb. lia.
Qed.

Lemma leases_terms es : ∀ current l,
  term_of current + N.of_nat (length es) ≤ u64_max → l ∈ leases current es →
  Some l = current ∨ term_of current < term l.
Proof.
  induction es as [|e es IH]; intros current l Hb Hl; simpl in *; [by apply not_elem_of_nil in Hl|].
  destruct (election_step_cases current e) as [E|(l1 & E & Ht)]; [lia| |]; rewrite E in Hl.
  - destruct current as [l0|]; [apply elem_of_cons in Hl as [->|Hl]; [by left|]|]; apply IH in Hl; auto; lia.
  - apply elem_of_cons in Hl as [->|Hl]; [right; lia|].
    apply IH in Hl as [[= ->]|Hl]; [right; lia|right; simpl in Hl; lia|simpl; lia].
Qed.

(** C38: There is one leader per term.  In any history of elections, where each election
    is given the last lease granted, two leases with the same term are the same lease, so
    a term identifies its leader (the history is shorter than the counter's range). *)
Theorem one_leader_per_term es current l1 l2 :
  term_of current + N.of_nat (length es) ≤ u64_max →
  l1 ∈ leases current es → l2 ∈ leases current es → term l1 = term l2 → l1 = l2.
Proof.
  revert current. induction es as [|e es IH]; intros current Hb H1 H2 Ht; simpl in *;
    [by apply not_elem_of_nil in H1|].
  assert (term_of (election_step current e) + N.of_nat (length es) ≤ u64_max) as Hb'.
  { destruct (election_step_cases current e) as [->|(l & -> & E)]; simpl; lia. }
  destruct (election_step current e) as [l0|]; [|by eapply IH].
  apply elem_of_cons in H1 as [->|H1]; apply elem_of_cons in H2 as [->|H2]; [done| | |by eapply IH].
  - apply leases_terms in H2 as [[= ->]|H2]; [done|simpl in *; lia|done].
  - apply leases_terms in H1 as [[= ->]|H1]; [done|simpl in *; lia|done].
Qed.


(** * Properties of placement *)

Definition good_shard (s : TenantShard) : Prop :=
  Utf8.blank (id s) = false ∧ Utf8.blank (region s) = false ∧ 0 < weight s.

Definition valid_shards (shards : list TenantShard) : Prop := Forall good_shard shards ∧ NoDup (map id shards).

Lemma if_nil {A} (b : bool) (x : A) : (if b then [x] else []) = [] ↔ b = false.
Proof. by destruct b. Qed.

Lemma validate_from_nil shards : ∀ seen,
  validate_shards_from seen shards = [] ↔
  Forall good_shard shards ∧ NoDup (map id shards) ∧ ∀ x, x ∈ map id shards → x ∉ seen.
Proof.
  induction shards as [|s shards IH]; intros seen; simpl.
  - split; [|done]. intros _. split_and!; [done|constructor|set_solver].
  - rewrite !app_nil, !if_nil, IH, N.eqb_neq, str_in_false, Forall_cons, NoDup_cons. unfold good_shard.
    split.
    + intros (H1 & H2 & H3 & H4 & H5 & H6 & H7). split_and!; [done|done|lia|done| |done|set_solver].
      intros Hin. apply (H7 _ Hin). left.
    + intros (((H1 & H2 & H3) & H5) & (H4 & H6) & H7). split_and!; [done|done|lia|set_solver|done|done|].
      intros x Hx. apply not_elem_of_cons. split; [by intros ->|set_solver].
Qed.

Lemma validate_nil shards : validate_tenant_shards shards = [] ↔ valid_shards shards.
Proof.
  unfold validate_tenant_shards, valid_shards. rewrite validate_from_nil. split; [tauto|].
  intros [H1 H2]. split_and!; [done..|set_solver].
Qed.

Lemma valid_sublist l l' : sublist l l' → valid_shards l' → valid_shards l.
Proof.
  intros Hs [Hg Hn]. split.
  - rewrite Forall_forall in *. intros x Hx. apply Hg. by eapply elem_of_submseteq, sublist_submseteq.
  - eapply sublist_NoDup; [exact Hn|]. clear Hg Hn. induction Hs; simpl; by constructor.
Qed.

Lemma fatal_prefix p r :
  p ∈ ["no_writable_shard_in_preferred_region:"; "empty_shard_id"; "shard_region_empty:";
       "shard_weight_zero:"; "duplicate_shard_id:"] →
  fatal_reason (p +:+ r) = true.
Proof.
  intros Hp. assert (starts_with p (p +:+ r) = true) as Hs by (apply starts_with_spec; eauto).
  unfold fatal_reason. rewrite !elem_of_cons in Hp.
  destruct Hp as [->|[->|[->|[->|[->|Hp]]]]]; [..|by apply not_elem_of_nil in Hp];
    rewrite Hs, ?orb_true_r; done.
Qed.

Lemma validate_fatal shards : ∀ seen r, r ∈ validate_shards_from seen shards → fatal_reason r = true.
Proof.
  induction shards as [|s shards IH]; intros seen r; simpl; [by intros ?%not_elem_of_nil|].
  rewrite !elem_of_app. intros [H|[H|[H|[H|H]]]]; [| | | |by eapply IH];
    (case_match; [apply list_elem_of_singleton in H as ->|by apply not_elem_of_nil in H]);
    [done|apply fatal_prefix; set_solver..].
Qed.

(** Every reason rejects the plan. *)
Lemma reasons_fatal tenant shards preferred r :
  r ∈ plan_reasons tenant shards preferred → fatal_reason r = true.
Proof.
  unfold plan_reasons. rewrite !elem_of_app. intros [H|[H|[H|H]]].
  - case_match; [by apply list_elem_of_singleton in H as ->|by apply not_elem_of_nil in H].
  - case_match; [by apply list_elem_of_singleton in H as ->|by apply not_elem_of_nil in H].
  - by eapply validate_fatal.
  - case_match; [apply list_elem_of_singleton in H as ->|by apply not_elem_of_nil in H].
    destruct preferred; [apply fatal_prefix; set_solver|done].
Qed.

Lemma reasons_nil tenant shards preferred :
  plan_reasons tenant shards preferred = [] ↔
  tenant ≠ "" ∧ valid_shards shards ∧ candidate_shards shards preferred ≠ [].
Proof.
  unfold plan_reasons. rewrite !app_nil, if_nil, validate_nil. unfold is_empty_str. rewrite String.eqb_neq.
  split.
  - intros (H1 & _ & H3 & H4). split_and!; [done..|]. by destruct (candidate_shards shards preferred).
  - intros (H1 & H3 & H4). split_and!; [done| |done|by destruct (candidate_shards shards preferred)].
    destruct shards; [|done]. by destruct preferred.
Qed.

Lemma candidates_sublist shards preferred : sublist (candidate_shards shards preferred) shards.
Proof.
  assert (∀ (p : TenantShard → bool) l, sublist (List.filter p l) l) as Hf.
  { intros p l. induction l as [|x l IH]; simpl; [constructor|]. case_match; by constructor. }
  unfold candidate_shards. case_match; [|apply Hf]. etrans; apply Hf.
Qed.

Lemma candidates_mono l l' preferred :
  sublist l l' → sublist (candidate_shards l preferred) (candidate_shards l' preferred).
Proof.
  assert (∀ (p : TenantShard → bool) l l', sublist l l' → sublist (List.filter p l) (List.filter p l')) as Hf.
  { intros p k k' Hk. induction Hk as [|x k k' Hk IH|x k k' Hk IH]; simpl; [done|by destruct (p x); [constructor|]|].
    destruct (p x); [by constructor|done]. }
  intros H. unfold candidate_shards. case_match; auto.
Qed.

Lemma candidate_mem l l' preferred s :
  s ∈ l → s ∈ candidate_shards l' preferred → s ∈ candidate_shards l preferred.
Proof.
  unfold candidate_shards. case_match; rewrite !elem_of_lfilter; tauto.
Qed.

Section PlacementProofs.
Context (sha256 : string → list N).

Abbreviation score := (tenant_shard_score sha256).
Abbreviation score_leb t := (fun a b => score t a <=? score t b).

Lemma score_leb_total t a b : score_leb t a b = false → score_leb t b a = true.
Proof. rewrite N.leb_gt, N.leb_le. lia. Qed.

Lemma score_leb_trans t a b c : score_leb t a b = true → score_leb t b c = true → score_leb t a c = true.
Proof. rewrite !N.leb_le. lia. Qed.

Definition preferred_of (preferred_region : option string) : option string :=
  match preferred_region with
  | Some r => if is_empty_str (Utf8.trim_str r) then None else Some (Utf8.trim_str r)
  | None => None
  end.

(** A plan is ready exactly when there is no reason against it, and then its primary is
    the candidate with the greatest score. *)
Lemma plan_ready_iff tenant shards region count :
  status (plan_tenant_shard sha256 tenant shards region count) = ShardReady ↔
  plan_reasons (Utf8.trim_str tenant) shards (preferred_of region) = [].
Proof.
  unfold plan_tenant_shard. fold (preferred_of region).
  destruct (plan_reasons _ _ _) as [|r rs] eqn:E; simpl.
  - split; [done|]. intros _. apply reasons_nil in E as (_ & _ & Hc).
    destruct (candidate_shards shards (preferred_of region)); [done|]. done.
  - rewrite (reasons_fatal (Utf8.trim_str tenant) shards (preferred_of region) r) by (rewrite E; left). done.
Qed.

Lemma plan_ready_primary tenant shards region count p :
  status (plan_tenant_shard sha256 tenant shards region count) = ShardReady ∧
  primary_shard_id (plan_tenant_shard sha256 tenant shards region count) = Some p ↔
  plan_reasons (Utf8.trim_str tenant) shards (preferred_of region) = [] ∧
  ∃ s, max_by (score_leb (Utf8.trim_str tenant)) (candidate_shards shards (preferred_of region)) = Some s ∧ id s = p.
Proof.
  rewrite plan_ready_iff. split; intros [E H]; (split; [done|]); revert H;
    unfold plan_tenant_shard; fold (preferred_of region); rewrite E; simpl.
  - destruct (max_by _ _) as [s|]; [|done]. intros [= <-]. eauto.
  - intros (s & Hs & <-). by rewrite Hs.
Qed.

Lemma max_candidate_mem t shards preferred s :
  max_by (score_leb t) (candidate_shards shards preferred) = Some s → s ∈ candidate_shards shards preferred.
Proof.
  intros Hs. pose proof (max_by_split (score_leb t) (candidate_shards shards preferred)
    (score_leb_total t) (score_leb_trans t)) as H.
  rewrite Hs in H. destruct H as (p & k & -> & _). set_solver.
Qed.

(** Identifiers determine the shards of a valid set. *)
Lemma valid_inj shards a b : NoDup (map id shards) → a ∈ shards → b ∈ shards → id a = id b → a = b.
Proof.
  intros Hn Ha Hb E. apply list_elem_of_lookup in Ha as [i Hi], Hb as [j Hj].
  assert (i = j) as ->; [|congruence].
  eapply (NoDup_lookup (map id shards)); [done|apply list_lookup_fmap_Some; eauto..].
Qed.

(** Placement moves as few tenants as possible.  When shards are removed and the
    tenant's primary is not one of them, its primary does not change; read the other way,
    adding shards moves a tenant only onto one of the added shards. *)
Theorem placement_stable tenant shards shards' region count count' p :
  sublist shards' shards →
  status (plan_tenant_shard sha256 tenant shards region count) = ShardReady →
  primary_shard_id (plan_tenant_shard sha256 tenant shards region count) = Some p →
  p ∈ map id shards' →
  status (plan_tenant_shard sha256 tenant shards' region count') = ShardReady ∧
  primary_shard_id (plan_tenant_shard sha256 tenant shards' region count') = Some p.
Proof.
  intros Hsub Hr Hp Hin. destruct (proj1 (plan_ready_primary _ _ _ _ _) (conj Hr Hp)) as [E (s & Hs & Hid)].
  apply plan_ready_primary. apply reasons_nil in E as (Ht & Hv & _).
  pose proof (max_candidate_mem _ _ _ _ Hs) as Hm.
  apply elem_of_map in Hin as (s' & Hs' & Hin).
  assert (s' = s) as ->.
  { eapply valid_inj; [apply Hv| | |congruence].
    - by eapply elem_of_submseteq, sublist_submseteq.
    - eapply elem_of_submseteq, sublist_submseteq, candidates_sublist. exact Hm. }
  pose proof (candidate_mem shards' _ _ _ Hin Hm) as Hm'. split.
  - apply reasons_nil. split_and!; [done|by eapply valid_sublist|]. intros E. rewrite E in Hm'. set_solver.
  - exists s. split; [|done]. eapply max_by_sublist; [apply score_leb_total|apply score_leb_trans| | |exact Hs|done].
    + by apply candidates_mono.
    + eapply sublist_NoDup; [|apply candidates_sublist]. eapply NoDup_fmap_1. apply Hv.
Qed.

End PlacementProofs.


(** ** Replicas *)

Lemma scored_leb_total a b : scored_leb a b = false → scored_leb b a = true.
Proof.
  unfold scored_leb. rewrite orb_false_iff, andb_false_iff, orb_true_iff, andb_true_iff.
  rewrite !N.ltb_lt, N.ltb_ge, !N.eqb_eq, N.eqb_neq. intros [H [Hn|Hs]]; [left; lia|].
  apply str_leb_total in Hs. destruct (decide (a.1 < b.1)); [by left|right; split; [lia|done]].
Qed.

Lemma scored_leb_trans a b c : scored_leb a b = true → scored_leb b c = true → scored_leb a c = true.
Proof.
  unfold scored_leb. rewrite !orb_true_iff, !andb_true_iff, !N.ltb_lt, !N.eqb_eq.
  intros [H1|[H1 S1]] [H2|[H2 S2]]; [left; lia..|right]. split; [lia|by eapply str_leb_trans].
Qed.

Definition replica_candidates (shards : list TenantShard) (p : string) : list TenantShard :=
  List.filter (fun s => negb (String.eqb (id s) p) && (0 <? weight s)) shards.

Lemma replica_candidate_iff shards p s :
  Forall good_shard shards → s ∈ replica_candidates shards p ↔ s ∈ shards ∧ id s ≠ p.
Proof.
  intros Hg. unfold replica_candidates. rewrite elem_of_lfilter, andb_true_iff, negb_true_iff, String.eqb_neq, N.ltb_lt.
  rewrite Forall_forall in Hg. split; [tauto|]. intros [Hin Hne]. by destruct (Hg _ Hin) as (_ & _ & ?).
Qed.

Lemma replica_candidates_length shards p :
  valid_shards shards → p ∈ map id shards → length (replica_candidates shards p) = (length shards - 1)%nat.
Proof.
  unfold replica_candidates. intros [Hg Hn]. revert Hg Hn.
  induction shards as [|s shards IH]; simpl; intros Hg Hn Hp; [by apply not_elem_of_nil in Hp|].
  apply Forall_cons in Hg as [(_ & _ & Hw) Hg]. apply NoDup_cons in Hn as [Hs Hn].
  rewrite (proj2 (N.ltb_lt _ _) Hw), andb_true_r. destruct (String.eqb_spec (id s) p) as [<-|Hne]; simpl.
  - rewrite lfilter_all; [lia|]. intros y Hy. rewrite Forall_forall in Hg. destruct (Hg _ Hy) as (_ & _ & Hwy).
    rewrite (proj2 (N.ltb_lt _ _) Hwy), andb_true_r, negb_true_iff, String.eqb_neq. intros E.
    apply Hs. rewrite <- E. apply elem_of_map. eauto.
  - apply elem_of_cons in Hp as [->|Hp]; [done|]. rewrite IH by done.
    destruct shards; [by apply not_elem_of_nil in Hp|simpl; lia].
Qed.

Section ReplicaProofs.
Context (sha256 : string → list N).

Abbreviation score := (tenant_shard_score sha256).

Lemma plan_replicas tenant shards region count p :
  status (plan_tenant_shard sha256 tenant shards region count) = ShardReady →
  primary_shard_id (plan_tenant_shard sha256 tenant shards region count) = Some p →
  replica_shard_ids (plan_tenant_shard sha256 tenant shards region count) = replica_shards sha256 (Utf8.trim_str tenant) shards p count
  ∧ valid_shards shards ∧ p ∈ map id shards.
Proof.
  intros Hr Hp. destruct (proj1 (plan_ready_primary _ _ _ _ _ _) (conj Hr Hp)) as [E (s & Hs & <-)].
  pose proof (max_candidate_mem _ _ _ _ _ Hs) as Hm.
  assert (valid_shards shards) as Hv by (apply reasons_nil in E; tauto).
  split_and!; [|done|].
  - unfold plan_tenant_shard. fold (preferred_of region). by rewrite E, Hs.
  - apply elem_of_map. exists s. split; [done|].
    eapply elem_of_submseteq, sublist_submseteq, candidates_sublist. exact Hm.
Qed.

Definition sorted_replicas (tenant : string) (shards : list TenantShard) (p : string) : list (N * string) :=
  sort_by scored_leb (map (fun s => (score tenant s, id s)) (replica_candidates shards p)).

Lemma sorted_replicas_mem tenant shards p c :
  valid_shards shards →
  c ∈ sorted_replicas tenant shards p ↔ ∃ s, s ∈ shards ∧ id s ≠ p ∧ c = (score tenant s, id s).
Proof.
  intros [Hg _]. unfold sorted_replicas. rewrite elem_of_sort_by, elem_of_map.
  setoid_rewrite replica_candidate_iff; [|done]. naive_solver.
Qed.

Lemma sorted_replicas_NoDup tenant shards p :
  valid_shards shards → NoDup (map snd (sorted_replicas tenant shards p)).
Proof.
  intros [_ Hn]. unfold sorted_replicas.
  assert (map snd (sort_by scored_leb (map (fun s => (score tenant s, id s)) (replica_candidates shards p)))
          ≡ₚ map id (replica_candidates shards p)) as ->.
  { rewrite sort_by_perm, map_map. done. }
  eapply sublist_NoDup; [exact Hn|]. unfold replica_candidates. clear Hn.
  induction shards as [|s shards IH]; simpl; [done|]. case_match; simpl; by constructor.
Qed.

(** Replicas are the right ones.  A ready plan has as many replicas as asked for, or
    every other shard if there are fewer; they are distinct shards of the set, the primary
    is not among them, and no shard left out has a higher score than one chosen. *)
Theorem replicas_sound tenant shards region count p :
  status (plan_tenant_shard sha256 tenant shards region count) = ShardReady →
  primary_shard_id (plan_tenant_shard sha256 tenant shards region count) = Some p →
  let rs := replica_shard_ids (plan_tenant_shard sha256 tenant shards region count) in
  NoDup rs ∧ (p ∉ rs) ∧ length rs = Nat.min count (length shards - 1) ∧
  (∀ x, x ∈ rs → ∃ s, s ∈ shards ∧ id s = x) ∧
  (∀ s t, s ∈ shards → t ∈ shards → id s ∈ rs → id t ≠ p → id t ∉ rs →
     score (Utf8.trim_str tenant) t ≤ score (Utf8.trim_str tenant) s).
Proof.
  intros Hr Hp. destruct (plan_replicas _ _ _ _ _ Hr Hp) as (E & Hv & Hin). simpl. rewrite E.
  unfold replica_shards. fold (replica_candidates shards p). fold (sorted_replicas (Utf8.trim_str tenant) shards p).
  assert (∀ c, c ∈ take count (sorted_replicas (Utf8.trim_str tenant) shards p) →
    ∃ s, s ∈ shards ∧ id s ≠ p ∧ c = (score (Utf8.trim_str tenant) s, id s)) as Hmem.
  { intros c Hc. apply sorted_replicas_mem; [done|].
    by eapply elem_of_submseteq, sublist_submseteq, sublist_take. }
  split_and!.
  - eapply sublist_NoDup; [by apply sorted_replicas_NoDup|].
    rewrite <- firstn_map. apply sublist_take.
  - intros ([sc x] & -> & Hc)%elem_of_map. apply Hmem in Hc as (s & _ & Hne & [= -> ->]). done.
  - rewrite length_map, length_take. f_equal. unfold sorted_replicas.
    rewrite sort_by_perm, length_map. by apply replica_candidates_length.
  - intros x ([sc y] & -> & Hc)%elem_of_map. apply Hmem in Hc as (s & Hs & _ & [= -> ->]). eauto.
  - intros s t Hs Ht ([sc x] & Hx & Hc)%elem_of_map Htp Htn. simpl in Hx.
    destruct (Hmem _ Hc) as (s' & Hs' & _ & [= -> ->]).
    rewrite (valid_inj shards s s') by (done || apply Hv).
    assert ((score (Utf8.trim_str tenant) t, id t) ∈ drop count (sorted_replicas (Utf8.trim_str tenant) shards p)) as Hd.
    { assert ((score (Utf8.trim_str tenant) t, id t) ∈ sorted_replicas (Utf8.trim_str tenant) shards p) as Ht'
        by (apply sorted_replicas_mem; eauto).
      rewrite <- (take_drop count (sorted_replicas _ _ _)) in Ht'. apply elem_of_app in Ht' as [Ht'|]; [|done].
      destruct Htn. apply elem_of_map. by exists (score (Utf8.trim_str tenant) t, id t). }
    pose proof (sorted_take_drop _ _ _ _ _ (sort_by_sorted scored_leb _ scored_leb_total scored_leb_trans) Hc Hd) as Ho.
    unfold scored_leb in Ho. simpl in Ho.
    rewrite orb_true_iff, andb_true_iff, N.ltb_lt, N.eqb_eq in Ho. lia.
Qed.

(** A topology that passes the active-active check can place every tenant: each
    tenant with a non-blank name gets a ready plan with the full number of replicas. *)
Theorem topology_places_tenants shards regions replicas tenant :
  topology_status (plan_active_active_topology shards regions replicas) = TopologyReady →
  replicas < u64_max → Utf8.trim_str tenant ≠ "" →
  let pl := plan_tenant_shard sha256 tenant shards None (N.to_nat replicas) in
  status pl = ShardReady ∧ length (replica_shard_ids pl) = N.to_nat replicas.
Proof.
  unfold plan_active_active_topology. cbn [topology_status]. intros Hs Hrep Ht.
  match type of Hs with match ?l with _ => _ end = _ => destruct l eqn:E; [|done] end.
  clear Hs. rewrite !app_nil in E. destruct E as (Hv & _ & _ & _ & _ & Hw & Hc & _).
  rewrite validate_nil in Hv. apply if_nil in Hw, Hc. rewrite N.eqb_neq in Hw. rewrite N.ltb_ge in Hc.
  assert (status (plan_tenant_shard sha256 tenant shards None (N.to_nat replicas)) = ShardReady) as Hr.
  { apply plan_ready_iff, reasons_nil. split_and!; [done..|]. simpl. intros E. rewrite E in Hw. done. }
  simpl. split; [done|].
  destruct (primary_shard_id (plan_tenant_shard sha256 tenant shards None (N.to_nat replicas))) as [p|] eqn:Hp.
  - destruct (plan_replicas _ _ _ _ _ Hr Hp) as (-> & _ & Hin). unfold replica_shards.
    rewrite length_map, length_take, sort_by_perm, length_map.
    fold (replica_candidates shards p). rewrite replica_candidates_length by done.
    unfold saturating_add64 in Hc. lia.
  - exfalso. revert Hr Hp. unfold plan_tenant_shard. by repeat case_match.
Qed.

End ReplicaProofs.

(** ** Witnesses *)

Definition sample_nodes : list ClusterNode :=
  [{| node_id := "n1"; node_region := "eu"; priority := 2; last_seen_epoch := 95 |};
   {| node_id := "n2"; node_region := "us"; priority := 1; last_seen_epoch := 90 |}].

Definition sample_elections : list Election :=
  [{| e_nodes := sample_nodes; e_now := 100; e_ttl := 20 |};
   {| e_nodes := sample_nodes; e_now := 110; e_ttl := 20 |};
   {| e_nodes := take 1 sample_nodes; e_now := 112; e_ttl := 20 |}].

(** The second election renews nothing: it finds the lease of the first. *)
Lemma one_leader_per_term_witness :
  ∃ l1 l2, leases None sample_elections !! 0%nat = Some l1 ∧ leases None sample_elections !! 1%nat = Some l2 ∧ l1 = l2.
Proof.
  destruct (leases None sample_elections !! 0%nat) as [l1|] eqn:E1; [|vm_compute in E1; discriminate].
  destruct (leases None sample_elections !! 1%nat) as [l2|] eqn:E2; [|vm_compute in E2; discriminate].
  exists l1, l2. split; [done|]. split; [done|].
  apply (one_leader_per_term sample_elections None); [vm_compute; discriminate| | |].
  - exact (list_elem_of_lookup_2 _ _ _ E1).
  - exact (list_elem_of_lookup_2 _ _ _ E2).
  - vm_compute in E1, E2. injection E1 as <-. injection E2 as <-. reflexivity.
Defined.

(** A stand-in for SHA-256 on short inputs: the sum of the bytes, in 32 bytes. *)
Definition toy_digest (s : string) : list N :=
  [N.modulo (foldl (fun a b => a * 7 + b) 0 (Utf8.str_bytes s)) 256] ++ repeat 90 31.

Definition sample_shards : list TenantShard :=
  [{| id := "s1"; region := "eu"; weight := 1; writable := true |};
   {| id := "s2"; region := "us"; weight := 2; writable := true |};
   {| id := "s3"; region := "us"; weight := 1; writable := false |};
   {| id := "s4"; region := "ap"; weight := 1; writable := true |}].

Definition fewer_shards : list TenantShard := List.filter (fun s => str_in (id s) ["s2"; "s3"]) sample_shards.

Lemma placement_stable_witness :
  status (plan_tenant_shard toy_digest "acme" fewer_shards None 1) = ShardReady ∧
  primary_shard_id (plan_tenant_shard toy_digest "acme" fewer_shards None 1) = Some "s2".
Proof.
  apply (placement_stable toy_digest "acme" sample_shards fewer_shards None 2 1 "s2").
  - vm_compute. repeat constructor.
  - vm_compute. reflexivity.
  - vm_compute. reflexivity.
  - vm_compute. set_solver.
Defined.

Lemma replicas_sound_witness :
  let pl := plan_tenant_shard toy_digest "acme" sample_shards None 2 in
  NoDup (replica_shard_ids pl) ∧ length (replica_shard_ids pl) = 2%nat.
Proof.
  destruct (replicas_sound toy_digest "acme" sample_shards None 2 "s2") as (H1 & _ & H2 & _).
  - vm_compute. reflexivity.
  - vm_compute. reflexivity.
  - split; [exact H1|exact H2].
Defined.

Lemma topology_places_tenants_witness :
  let pl := plan_tenant_shard toy_digest "acme" sample_shards None 2 in
  status pl = ShardReady ∧ length (replica_shard_ids pl) = 2%nat.
Proof.
  apply (topology_places_tenants toy_digest sample_shards 2 2 "acme").
  - vm_compute. reflexivity.
  - vm_compute. reflexivity.
  - vm_compute. discriminate.
Defined.

End Cluster.
