(* ===== verification/KeyRing.v ===== *)
(** Signing-key rotation planning of src/qid-ops/src/keyring.rs.

    A path is the string of its bytes with [/] as separator; joining a relative name to a
    directory is the only path operation the code uses. *)

From S2P Require Import Prelude Utf8.

Module KeyRing.

(** * Key file names *)

Definition is_key_char (c : Utf8.char) : bool :=
  ((48 <=? c) && (c <=? 57)) || ((65 <=? c) && (c <=? 90)) || ((97 <=? c) && (c <=? 122))
  || (c =? 45) || (c =? 95).

Definition safe_key_file_component (value : string) : string :=
  let safe := Utf8.bytes_str (Utf8.encode (map (fun c => if is_key_char c then c else 95) (Utf8.chars value))) in
  if is_empty_str safe then "default" else safe.

(** [Path::join] with a relative name. *)
Definition path_join (dir name : string) : string :=
  if is_empty_str dir then name
  else if ends_with "/" dir then dir +:+ name
  else dir +:+ "/" +:+ name.

Definition rotation_key_paths (output_dir keyring alg kid : string) : string * string * string :=
  let base := "signing-key-" +:+ safe_key_file_component keyring +:+ "-" +:+ safe_key_file_component alg
              +:+ "-" +:+ safe_key_file_component kid in
  (path_join output_dir (base +:+ ".pem.enc"),
   path_join output_dir (base +:+ ".pub.pem"),
   path_join output_dir (base +:+ ".jwk.json")).

(** * Data *)

Inductive KeyPurpose : Type :=
| OidcToken
| SamlAssertion
| PepAssertion
| AuditLog
| BrowserSession
| Other (value : string).

#[global] Instance KeyPurpose_eq_dec : EqDecision KeyPurpose.
Proof. solve_decision. Defined.

Record KeyringInventoryRecord : Type := {
  realm_id : string;
  keyring_name : string;
  kid : string;
  purpose : KeyPurpose;
  signer_type : string;
  created_at_epoch : N;
  not_before_epoch : N;
  retire_after_epoch : N;
  revoked : bool
}.

Record KeyRotationRequirement : Type := {
  req_realm_id : string;
  req_purpose : KeyPurpose;
  max_age_days : N;
  overlap_days : N;
  require_remote_signer : bool;
  require_dedicated_keyring : bool
}.

Inductive KeyRotationPlanStatus : Type := Ready | ActionRequired | Rejected.

Inductive KeyRotationActionKind : Type := GenerateSuccessor | PromoteSuccessor | RetireExpired | RemoveRevoked.

Record KeyRotationAction : Type := {
  action : KeyRotationActionKind;
  act_keyring_name : string;
  act_kid : option string;
  act_reason : string
}.

Record KeyRotationPlan : Type := {
  status : KeyRotationPlanStatus;
  plan_realm_id : string;
  plan_purpose : KeyPurpose;
  active_kid : option string;
  successor_kid : option string;
  actions : list KeyRotationAction;
  reasons : list string
}.

(** * Planning *)

Definition validate_key_rotation_requirement (r : KeyRotationRequirement) : list string :=
  (if Utf8.blank (req_realm_id r) then ["invalid_empty_realm_id"] else [])
  ++ (if max_age_days r =? 0 then ["invalid_max_age_days_zero"] else [])
  ++ (if max_age_days r <? overlap_days r then ["invalid_overlap_exceeds_max_age"] else []).

Definition is_active_key (k : KeyringInventoryRecord) (now : N) : bool :=
  negb (revoked k) && (not_before_epoch k <=? now)
  && ((retire_after_epoch k =? 0) || (now <? retire_after_epoch k)).

Definition is_remote_signer (signer_type : string) : bool := str_in signer_type ["kms"; "hsm"; "pkcs11"].

Definition default_keyring_name (r : KeyRotationRequirement) : string :=
  req_realm_id r +:+ "-" +:+
  match req_purpose r with
  | OidcToken => "oidc-token"
  | SamlAssertion => "saml-assertion"
  | PepAssertion => "pep-assertion"
  | AuditLog => "audit-log"
  | BrowserSession => "browser-session"
  | Other value => value
  end.

Definition days_to_seconds (days : N) : N := saturating_mul64 days (24 * 60 * 60).

(** Order on the keys [(created_at_epoch, kid)] and [(not_before_epoch, kid)]. *)
Definition epoch_kid_leb (f : KeyringInventoryRecord → N) (a b : KeyringInventoryRecord) : bool :=
  (f a <? f b) || ((f a =? f b) && str_leb (kid a) (kid b)).

Definition matching (inventory : list KeyringInventoryRecord) (r : KeyRotationRequirement)
    : list KeyringInventoryRecord :=
  List.filter (fun k => String.eqb (realm_id k) (req_realm_id r) && bool_decide (purpose k = req_purpose r)) inventory.

Definition active_key (inventory : list KeyringInventoryRecord) (r : KeyRotationRequirement) (now : N)
    : option KeyringInventoryRecord :=
  max_by (epoch_kid_leb created_at_epoch) (List.filter (fun k => is_active_key k now) (matching inventory r)).

Definition successor_key (inventory : list KeyringInventoryRecord) (r : KeyRotationRequirement) (now : N)
    : option KeyringInventoryRecord :=
  min_by (epoch_kid_leb not_before_epoch)
    (List.filter (fun k => negb (revoked k) && (now <? not_before_epoch k)) (matching inventory r)).

(** The keyrings with an active key of the purpose that hold an active key of another
    purpose of the realm, in the order of a [BTreeSet]. *)
Definition shared_keyrings (inventory : list KeyringInventoryRecord) (r : KeyRotationRequirement) (now : N)
    : list string :=
  dedup String.eqb (sort_by str_leb (map keyring_name
    (List.filter (fun k => is_active_key k now &&
        existsb (fun o => String.eqb (realm_id o) (realm_id k) && String.eqb (keyring_name o) (keyring_name k)
                          && negb (bool_decide (purpose o = purpose k)) && is_active_key o now) inventory)
      (matching inventory r)))).

Definition key_action (a : KeyRotationActionKind) (keyring : string) (k : option string) (why : string)
    : KeyRotationAction :=
  {| action := a; act_keyring_name := keyring; act_kid := k; act_reason := why |}.

Definition rejecting (reason : string) : bool :=
  starts_with "invalid_" reason || starts_with "dedicated_keyring_required:" reason
  || starts_with "remote_signer_required:" reason.

Definition rotate_after (r : KeyRotationRequirement) (k : KeyringInventoryRecord) : N :=
  saturating_add64 (created_at_epoch k)
    (saturating_sub (days_to_seconds (max_age_days r)) (days_to_seconds (overlap_days r))).

Definition plan_required_key_rotation (inventory : list KeyringInventoryRecord) (r : KeyRotationRequirement) (now : N)
    : KeyRotationPlan :=
  let ks := matching inventory r in
  let active := active_key inventory r now in
  let successor := successor_key inventory r now in
  let rs :=
    validate_key_rotation_requirement r
    ++ (if require_dedicated_keyring r
        then map (fun n => "dedicated_keyring_required:" +:+ n) (shared_keyrings inventory r now) else [])
    ++ (if require_remote_signer r
        then map (fun k => "remote_signer_required:" +:+ keyring_name k)
               (List.filter (fun k => is_active_key k now && negb (is_remote_signer (signer_type k))) ks)
        else []) in
  let acts :=
    map (fun k => key_action RemoveRevoked (keyring_name k) (Some (kid k))
                    "revoked_key_must_not_remain_in_active_inventory") (List.filter revoked ks)
    ++ match active, successor with
       | Some a, _ =>
           (if retire_after_epoch a <=? now
            then [key_action RetireExpired (keyring_name a) (Some (kid a)) "active_key_retired"] else [])
           ++ (if (rotate_after r a <=? now) && match successor with None => true | _ => false end
               then [key_action GenerateSuccessor (keyring_name a) None "rotation_overlap_window_open"] else [])
       | None, Some s => [key_action PromoteSuccessor (keyring_name s) (Some (kid s)) "no_active_key"]
       | None, None => [key_action GenerateSuccessor (default_keyring_name r) None "no_active_or_successor_key"]
       end in
  {| status := if existsb rejecting rs then Rejected
               else match acts with [] => Ready | _ => ActionRequired end;
     plan_realm_id := req_realm_id r; plan_purpose := req_purpose r;
     active_kid := kid <$> active; successor_kid := kid <$> successor;
     actions := acts; reasons := rs |}.

Definition plan_key_rotation (inventory : list KeyringInventoryRecord) (requirements : list KeyRotationRequirement)
    (now : N) : list KeyRotationPlan :=
  map (fun r => plan_required_key_rotation inventory r now) requirements.

(** * Which keys a plan selects *)

Lemma epoch_kid_leb_total f a b : epoch_kid_leb f a b = false → epoch_kid_leb f b a = true.
Proof.
  unfold epoch_kid_leb. rewrite orb_false_iff, andb_false_iff, orb_true_iff, andb_true_iff.
  rewrite !N.ltb_lt, N.ltb_ge, !N.eqb_eq, N.eqb_neq. intros [H [Hn|Hs]]; [left; lia|].
  apply str_leb_total in Hs. destruct (decide (f b < f a)); [by left|right; split; [lia|done]].
Qed.

Lemma epoch_kid_leb_trans f a b c :
  epoch_kid_leb f a b = true → epoch_kid_leb f b c = true → epoch_kid_leb f a c = true.
Proof.
  unfold epoch_kid_leb. rewrite !orb_true_iff, !andb_true_iff, !N.ltb_lt, !N.eqb_eq.
  intros [H1|[H1 S1]] [H2|[H2 S2]]; [left; lia..|right]. split; [lia|by eapply str_leb_trans].
Qed.

Lemma epoch_kid_leb_le f a b : epoch_kid_leb f a b = true → f a ≤ f b.
Proof. unfold epoch_kid_leb. rewrite orb_true_iff, andb_true_iff, N.ltb_lt, N.eqb_eq. lia. Qed.

(** A key of the realm and purpose a requirement is about. *)
Definition governed (inventory : list KeyringInventoryRecord) (r : KeyRotationRequirement)
    (k : KeyringInventoryRecord) : Prop :=
  k ∈ inventory ∧ realm_id k = req_realm_id r ∧ purpose k = req_purpose r.

Lemma matching_spec inventory r k : k ∈ matching inventory r ↔ governed inventory r k.
Proof.
  unfold matching, governed. rewrite elem_of_lfilter, andb_true_iff, String.eqb_eq, bool_decide_eq_true. done.
Qed.

Definition usable (k : KeyringInventoryRecord) (now : N) : Prop :=
  revoked k = false ∧ not_before_epoch k ≤ now ∧ (retire_after_epoch k = 0 ∨ now < retire_after_epoch k).

Lemma is_active_key_spec k now : is_active_key k now = true ↔ usable k now.
Proof.
  unfold is_active_key, usable.
  rewrite !andb_true_iff, negb_true_iff, orb_true_iff, N.leb_le, N.eqb_eq, N.ltb_lt. tauto.
Qed.

Lemma active_key_spec inventory r now :
  match active_key inventory r now with
  | Some a => governed inventory r a ∧ usable a now ∧
      ∀ k, governed inventory r k → usable k now → created_at_epoch k ≤ created_at_epoch a
  | None => ∀ k, governed inventory r k → ¬ usable k now
  end.
Proof.
  unfold active_key. set (l := List.filter (fun k => is_active_key k now) (matching inventory r)).
  assert (∀ k, k ∈ l ↔ governed inventory r k ∧ usable k now) as Hl.
  { intros k. unfold l. by rewrite elem_of_lfilter, matching_spec, is_active_key_spec. }
  pose proof (max_by_split (epoch_kid_leb created_at_epoch) l (epoch_kid_leb_total _) (epoch_kid_leb_trans _)) as H.
  destruct (max_by _ l) as [a|].
  - destruct H as (p & s & E & Hp & Hs). assert (a ∈ l) as Ha by (rewrite E; set_solver).
    apply Hl in Ha as [Hg Hu]. split_and!; [done..|]. intros k Hk Huk.
    assert (k ∈ l) as Hin by by apply Hl. rewrite E in Hin.
    apply elem_of_app in Hin as [Hin|[->|Hin]%elem_of_cons]; [by apply epoch_kid_leb_le, Hp|done|].
    apply epoch_kid_leb_le, epoch_kid_leb_total, Hs, Hin.
  - intros k Hg Hu. assert (k ∈ l) as Hin by by apply Hl. rewrite H in Hin. by apply not_elem_of_nil in Hin.
Qed.

Lemma successor_key_spec inventory r now :
  match successor_key inventory r now with
  | Some s => governed inventory r s ∧ revoked s = false ∧ now < not_before_epoch s ∧
      ∀ k, governed inventory r k → revoked k = false → now < not_before_epoch k →
           not_before_epoch s ≤ not_before_epoch k
  | None => ∀ k, governed inventory r k → revoked k = false → not_before_epoch k ≤ now
  end.
Proof.
  unfold successor_key.
  set (l := List.filter (fun k => negb (revoked k) && (now <? not_before_epoch k)) (matching inventory r)).
  assert (∀ k, k ∈ l ↔ governed inventory r k ∧ revoked k = false ∧ now < not_before_epoch k) as Hl.
  { intros k. unfold l. by rewrite elem_of_lfilter, matching_spec, andb_true_iff, negb_true_iff, N.ltb_lt. }
  pose proof (min_by_spec (epoch_kid_leb not_before_epoch) l (epoch_kid_leb_total _) (epoch_kid_leb_trans _)) as H.
  destruct (min_by _ l) as [s|].
  - destruct H as [(Hg & Hr & Hn)%Hl Hmin]. split_and!; [done..|]. intros k Hk Hr' Hn'.
    apply epoch_kid_leb_le, Hmin, Hl. done.
  - intros k Hg Hr. apply N.le_ngt. intros Hn. assert (k ∈ l) as Hin by by apply Hl.
    rewrite H in Hin. by apply not_elem_of_nil in Hin.
Qed.

(** A rotation plan names live keys only.  The active key it reports belongs to the
    realm and purpose, is not revoked, has started, has not retired and is the newest such
    key; there is none exactly when no such key exists; the successor is the next
    unrevoked key to start.  So a revoked key is never selected, and every revoked key of
    the requirement is listed for removal. *)
Theorem plan_selects_live_keys inventory r now :
  let p := plan_required_key_rotation inventory r now in
  match active_kid p with
  | Some x => ∃ a, kid a = x ∧ governed inventory r a ∧ usable a now ∧
      ∀ k, governed inventory r k → usable k now → created_at_epoch k ≤ created_at_epoch a
  | None => ∀ k, governed inventory r k → ¬ usable k now
  end ∧
  match successor_kid p with
  | Some x => ∃ s, kid s = x ∧ governed inventory r s ∧ revoked s = false ∧ now < not_before_epoch s ∧
      ∀ k, governed inventory r k → revoked k = false → now < not_before_epoch k →
           not_before_epoch s ≤ not_before_epoch k
  | None => ∀ k, governed inventory r k → revoked k = false → not_before_epoch k ≤ now
  end ∧
  (∀ k, governed inventory r k → revoked k = true →
     ∃ act, act ∈ actions p ∧ action act = RemoveRevoked ∧ act_kid act = Some (kid k)).
Proof.
  pose proof (active_key_spec inventory r now) as Ha. pose proof (successor_key_spec inventory r now) as Hs.
  intros p. split_and!.
  - simpl. destruct (active_key inventory r now) as [a|]; simpl; eauto.
  - simpl. destruct (successor_key inventory r now) as [s|]; simpl; eauto.
  - intros k Hk Hr. eexists. split; [apply elem_of_app; left; apply elem_of_map; exists k; split; [done|]|done].
    by rewrite elem_of_lfilter, matching_spec.
Qed.

Lemma remove_revoked_kind l a :
  a ∈ map (fun k => key_action RemoveRevoked (keyring_name k) (Some (kid k))
             "revoked_key_must_not_remain_in_active_inventory") l → action a = RemoveRevoked.
Proof. by intros (k & -> & _)%elem_of_map. Qed.

(** When a plan asks to retire a key.  A plan retires exactly one kind of key: an
    active key whose [retire_after_epoch] is 0, the value [is_active_key] reads as "never
    retires".  A key whose retirement time has passed is no longer active, so the plan
    never asks to retire it. *)
Theorem retire_expired_exact inventory r now x :
  (∃ act, act ∈ actions (plan_required_key_rotation inventory r now) ∧
          action act = RetireExpired ∧ act_kid act = Some x) ↔
  (∃ a, active_key inventory r now = Some a ∧ kid a = x ∧ retire_after_epoch a = 0).
Proof.
  pose proof (active_key_spec inventory r now) as Ha. unfold plan_required_key_rotation. cbn [actions].
  setoid_rewrite elem_of_app.
  destruct (active_key inventory r now) as [a|]; [destruct Ha as (_ & (_ & _ & Hret) & _)|]; split.
  - intros (act & [H|H] & Hk & Hx); [apply remove_revoked_kind in H; congruence|].
    apply elem_of_app in H as [H|H]; case_match eqn:E; try (by apply not_elem_of_nil in H);
      apply list_elem_of_singleton in H as ->; [|done].
    apply N.leb_le in E. injection Hx as <-. exists a. split_and!; [done..|]. destruct Hret; [done|lia].
  - intros (a' & [= <-] & <- & E). rewrite E, (proj2 (N.leb_le 0 now)) by lia. eexists. split; [right; left|done].
  - intros (act & [H|H] & Hk & Hx); [apply remove_revoked_kind in H; congruence|].
    destruct (successor_key inventory r now); apply list_elem_of_singleton in H as ->; done.
  - intros (a & [=] & _).
Qed.

(** A plan is ready only in a healthy state: the requirement is valid, some key is
    usable now, no revoked key is left in the inventory, and if the overlap window before
    the maximum age has opened, a successor is already prepared. *)
Theorem ready_plan_healthy inventory r now :
  status (plan_required_key_rotation inventory r now) = Ready →
  max_age_days r ≠ 0 ∧ overlap_days r ≤ max_age_days r ∧
  (∀ k, governed inventory r k → revoked k = false) ∧
  ∃ a, active_key inventory r now = Some a ∧ usable a now ∧ now < retire_after_epoch a ∧
       (now < rotate_after r a ∨ is_Some (successor_key inventory r now)) ∧
       (require_remote_signer r = true → ∀ k, governed inventory r k → usable k now →
          is_remote_signer (signer_type k) = true).
Proof.
  unfold plan_required_key_rotation. cbn [status]. rewrite !existsb_app.
  destruct (existsb rejecting (validate_key_rotation_requirement r)) eqn:Hv; [done|].
  destruct (existsb rejecting (if require_dedicated_keyring r then _ else _)); [done|].
  destruct (existsb rejecting (if require_remote_signer r then _ else _)) eqn:Hrem; [done|]. cbn [orb].
  match goal with |- match ?l with _ => _ end = _ → _ => destruct l eqn:E; [|done] end. intros _.
  apply app_nil in E as [Hrev E]. rewrite map_lfilter_nil in Hrev.
  pose proof (active_key_spec inventory r now) as Ha.
  destruct (active_key inventory r now) as [a|]; [|by destruct (successor_key inventory r now)].
  destruct Ha as (Hg & Hu & _). apply app_nil in E as [Hret Hrot].
  unfold validate_key_rotation_requirement in Hv. rewrite !existsb_app, !orb_false_iff in Hv.
  destruct Hv as (_ & Hage & Hover). split_and!.
  - intros E. by rewrite E in Hage.
  - destruct (N.ltb_spec (max_age_days r) (overlap_days r)); [done|lia].
  - intros k Hk. by apply Hrev, matching_spec.
  - exists a. split_and!; [done..| | |].
    + destruct (N.leb_spec (retire_after_epoch a) now); [done|lia].
    + destruct (N.leb_spec (rotate_after r a) now); [|by left]. right. by destruct (successor_key inventory r now).
    + intros Er k Hk Hku. rewrite Er in Hrem. destruct (is_remote_signer (signer_type k)) eqn:Es; [done|].
      rewrite existsb_false in Hrem. exfalso. enough (rejecting ("remote_signer_required:" +:+ keyring_name k) = false) as Hf.
      { unfold rejecting in Hf. rewrite !orb_false_iff in Hf. destruct Hf as [_ Hf].
        rewrite (proj2 (starts_with_spec _ _)) in Hf; [done|eauto]. }
      apply Hrem, elem_of_map. exists k. split; [done|].
      by rewrite elem_of_lfilter, matching_spec, andb_true_iff, is_active_key_spec, Es.
Qed.

(** * Key files stay in their directory *)

Lemma key_char_encode c : is_key_char c = true → Utf8.encode_char c = [c].
Proof.
  intros H. unfold Utf8.encode_char. assert (c <= 127); [|by cmp].
  unfold is_key_char in H. rewrite !orb_true_iff, !andb_true_iff, !N.leb_le, !N.eqb_eq in H. lia.
Qed.

Lemma encode_key_chars cs : Forall (fun c => is_key_char c = true) cs → Utf8.encode cs = cs.
Proof.
  induction 1 as [|c cs Hc _ IH]; [done|]. unfold Utf8.encode in *. simpl. by rewrite key_char_encode, IH.
Qed.

Lemma bytes_str_bytes bs : Forall (fun b => b < 256) bs → Utf8.str_bytes (Utf8.bytes_str bs) = bs.
Proof.
  induction 1 as [|b bs Hb _ IH]; [done|]. simpl. by rewrite IH, Ascii.N_ascii_embedding.
Qed.

Lemma key_char_byte c : is_key_char c = true → c < 256.
Proof. unfold is_key_char. rewrite !orb_true_iff, !andb_true_iff, !N.leb_le, !N.eqb_eq. lia. Qed.

Lemma safe_component_chars v : Forall (fun b => is_key_char b = true) (Utf8.str_bytes (safe_key_file_component v)).
Proof.
  unfold safe_key_file_component. destruct (is_empty_str _); [by repeat constructor|].
  assert (Forall (fun c => is_key_char c = true) (map (fun c => if is_key_char c then c else 95) (Utf8.chars v))) as H.
  { apply Forall_forall. intros c (d & -> & _)%elem_of_map. by destruct (is_key_char d) eqn:E. }
  rewrite encode_key_chars, bytes_str_bytes; [done| |done].
  eapply Forall_impl; [exact H|]. apply key_char_byte.
Qed.

Lemma safe_component_nonempty v : safe_key_file_component v ≠ "".
Proof. unfold safe_key_file_component, is_empty_str. case_match eqn:E; [done|]. by apply String.eqb_neq in E. Qed.

(** A byte of a key file name: no separator, so the name is one path component. *)
Definition is_name_byte (b : N) : bool := is_key_char b || (b =? 46).

Lemma name_bytes keyring alg k ext :
  forallb is_name_byte (Utf8.str_bytes ext) = true →
  forallb is_name_byte (Utf8.str_bytes (("signing-key-" +:+ safe_key_file_component keyring +:+ "-"
    +:+ safe_key_file_component alg +:+ "-" +:+ safe_key_file_component k) +:+ ext)) = true.
Proof.
  intros He. rewrite !Utf8.str_bytes_app, !forallb_app, He.
  assert (∀ v, forallb is_name_byte (Utf8.str_bytes (safe_key_file_component v)) = true) as Hs.
  { intros v. apply forallb_elem_of. intros b Hb. unfold is_name_byte.
    by rewrite (proj1 (Forall_forall _ _) (safe_component_chars v) b Hb). }
  by rewrite !Hs.
Qed.

(** Rotated keys are written inside the output directory: whatever the keyring,
    algorithm and key names contain, each of the three paths is the directory joined with
    a single file name that starts with [signing-key-] and has no separator. *)
Theorem rotation_paths_confined dir keyring alg k path :
  let '(p1, p2, p3) := rotation_key_paths dir keyring alg k in
  path ∈ [p1; p2; p3] →
  ∃ name, path = path_join dir name ∧ starts_with "signing-key-" name = true ∧
          ∀ b, b ∈ Utf8.str_bytes name → is_name_byte b = true ∧ b ≠ 47.
Proof.
  unfold rotation_key_paths. set (base := "signing-key-" +:+ _).
  assert (∀ ext, forallb is_name_byte (Utf8.str_bytes ext) = true →
    path = path_join dir (base +:+ ext) →
    ∃ name, path = path_join dir name ∧ starts_with "signing-key-" name = true ∧
            ∀ b, b ∈ Utf8.str_bytes name → is_name_byte b = true ∧ b ≠ 47) as Hext.
  { intros ext He Hp. exists (base +:+ ext). split_and!; [done| |].
    - apply starts_with_spec. unfold base. rewrite <- str_app_assoc. eauto.
    - intros b Hb. pose proof (proj1 (forallb_elem_of _ _) (name_bytes keyring alg k ext He) b Hb) as Hn.
      split; [exact Hn|]. intros ->. done. }
  rewrite !elem_of_cons. intros [H|[H|[H|H%not_elem_of_nil]]]; [..|done]; (eapply Hext; [|exact H]); reflexivity.
Qed.

(** ** Witnesses *)

Definition sample_key (name : string) (created retire : N) : KeyringInventoryRecord :=
  {| realm_id := "r"; keyring_name := "oidc"; kid := name; purpose := OidcToken; signer_type := "kms";
     created_at_epoch := created; not_before_epoch := created; retire_after_epoch := retire; revoked := false |}.

Definition sample_requirement : KeyRotationRequirement :=
  {| req_realm_id := "r"; req_purpose := OidcToken; max_age_days := 90; overlap_days := 7;
     require_remote_signer := true; require_dedicated_keyring := true |}.

Lemma ready_plan_healthy_witness :
  let inventory := [sample_key "k1" 100 9000000; sample_key "k2" 200 9000000] in
  max_age_days sample_requirement ≠ 0 ∧
  ∃ a, active_key inventory sample_requirement 1000 = Some a ∧ usable a 1000.
Proof.
  destruct (ready_plan_healthy [sample_key "k1" 100 9000000; sample_key "k2" 200 9000000] sample_requirement 1000)
    as (H1 & _ & _ & a & H2 & H3 & _); [vm_compute; reflexivity|].
  split; [exact H1|]. exists a. split; [exact H2|exact H3].
Defined.

Lemma rotation_paths_confined_witness :
  ∃ name, "/keys/signing-key-a_b-ES256-___.pem.enc" = path_join "/keys" name
          ∧ starts_with "signing-key-" name = true.
Proof.
  destruct (rotation_paths_confined "/keys" "a/b" "ES256" "../" "/keys/signing-key-a_b-ES256-___.pem.enc")
    as (name & H1 & H2 & _); [vm_compute; left|]. exists name. split; [exact H1|exact H2].
Defined.

(** An inventory with one key that never retires: the plan asks to retire it. *)
Example retires_unlimited_key :
  map action (actions (plan_required_key_rotation [sample_key "k1" 100 0] sample_requirement 1000)) = [RetireExpired].
Proof. vm_compute. reflexivity. Qed.


End KeyRing.
