(* ===== verification/Backup.v ===== *)
(** Backup manifests and restore of src/qid-ops/src/backup.rs.

    The object store is the interface [RestoreObjectStore]; SHA-256 is a parameter, as in
    Cluster.v.  The bytes of an object are the [string] of its bytes.  The theorems on
    what a restore writes run it on [Logged], any store with a log of its writes. *)

From S2P Require Import Prelude Utf8 Cluster.
Import Cluster(sha256_hex).

Module Backup.

(** * Data *)

Record BackupObject : Type := { path : string; sha : string; bytes : N }.

Record BackupManifest : Type := {
  schema_version : string;
  backup_id : string;
  generated_at_epoch : N;
  source_cluster_id : string;
  migration_version : string;
  objects : list BackupObject;
  manifest_hash : string
}.

Inductive RestorePlanStatus : Type := PlanReady | PlanRejected.

#[global] Instance RestorePlanStatus_eq_dec : EqDecision RestorePlanStatus.
Proof. solve_decision. Defined.

Record RestorePlan : Type := {
  plan_status : RestorePlanStatus;
  plan_backup_id : string;
  plan_source : string;
  plan_target : string;
  object_count : nat;
  requires_migration : bool;
  read_only_required : bool;
  plan_reasons : list string
}.

Record RestoreExecutionConfig : Type := {
  target_cluster_id : string;
  current_migration_version : string;
  read_only_enabled : bool;
  allow_overwrite : bool;
  dry_run : bool
}.

Inductive RestoreRollbackStatus : Type := NotRequired | RollbackReady.

Record RestoreRollbackAction : Type := {
  rb_action : string; rb_path : string; rb_location : string; rb_sha256 : string; rb_bytes : N
}.

Record RestoreRollbackPlan : Type := {
  rollback_status : RestoreRollbackStatus;
  required : bool;
  rollback_actions : list RestoreRollbackAction;
  rollback_reasons : list string
}.

Inductive RestoreExecutionStatus : Type := Restored | DryRunVerified | Rejected | Failed.

#[global] Instance RestoreExecutionStatus_eq_dec : EqDecision RestoreExecutionStatus.
Proof. solve_decision. Defined.

Record RestoredObject : Type := { ro_path : string; ro_bytes : N; ro_sha256 : string; location : string }.

Record RestoreExecutionReport : Type := {
  status : RestoreExecutionStatus;
  plan : RestorePlan;
  restored_objects : list RestoredObject;
  reasons : list string;
  rollback : RestoreRollbackPlan
}.

(** The trait [RestoreObjectStore]: reading leaves the store as it is. *)
Class RestoreObjectStore (T : Type) : Type := {
  read_backup_object : string → T → QidResult string;
  write_restore_object : string → string → bool → T → QidResult string * T
}.

(** * Paths *)

Definition SLASH : Ascii.ascii := Ascii.ascii_of_N 47.
Definition BACKSLASH : Ascii.ascii := Ascii.ascii_of_N 92.

Definition validate_backup_object_path (p : string) : QidResult unit :=
  if Utf8.blank p then Err (BadRequest "Backup object path must not be empty")
  else if starts_with "/" p || str_contains BACKSLASH p
  then Err (BadRequest "Backup object path must be relative")
  else if existsb (fun c => is_empty_str c || String.eqb c "." || String.eqb c "..") (split_on SLASH p)
  then Err (BadRequest "Backup object path must not contain empty, current, or parent components")
  else Ok tt.

(** * Rollback *)

Definition not_required : RestoreRollbackPlan :=
  {| rollback_status := NotRequired; required := false; rollback_actions := []; rollback_reasons := [] |}.

Definition rollback_action (o : RestoredObject) : RestoreRollbackAction :=
  {| rb_action := "delete_restored_object"; rb_path := ro_path o; rb_location := location o;
     rb_sha256 := ro_sha256 o; rb_bytes := ro_bytes o |}.

Definition rollback_plan_for_partial_restore (restored : list RestoredObject) (why : list string)
    : RestoreRollbackPlan :=
  match restored with
  | [] => not_required
  | _ => {| rollback_status := RollbackReady; required := true;
            rollback_actions := map rollback_action (rev restored); rollback_reasons := why |}
  end.

Definition failed_restore_report (p : RestorePlan) (restored : list RestoredObject) (why : list string)
    : RestoreExecutionReport :=
  {| status := Failed; plan := p; restored_objects := restored; reasons := why;
     rollback := rollback_plan_for_partial_restore restored why |}.

Definition plan_restore_rollback (r : RestoreExecutionReport) : RestoreRollbackPlan :=
  if negb (bool_decide (status r = Failed)) || match restored_objects r with [] => true | _ => false end
  then {| rollback_status := NotRequired; required := false; rollback_actions := []; rollback_reasons := [] |}
  else rollback_plan_for_partial_restore (restored_objects r) (reasons r).

Section Restore.
Context (sha256 : string → list N).

(** * Manifests *)

Definition NL : string := String (Ascii.ascii_of_N 10) "".
Definition NUL : string := String (Ascii.ascii_of_N 0) "".

Definition object_line (o : BackupObject) : string :=
  path o +:+ NUL +:+ sha o +:+ NUL +:+ pretty (bytes o) +:+ NL.

Definition backup_manifest_hash (schema id : string) (generated_at : N) (source migration : string)
    (objs : list BackupObject) : string :=
  hex_encode_lower (sha256
    (schema +:+ NL +:+ id +:+ NL +:+ pretty generated_at +:+ NL +:+ source +:+ NL +:+ migration +:+ NL
     +:+ foldr (fun o rest => object_line o +:+ rest) "" objs)).

Definition build_backup_manifest (fresh source migration : string) (generated_at : N) (objs : list BackupObject)
    : QidResult BackupManifest :=
  if Utf8.blank source then Err (BadRequest "Backup source cluster id must not be empty")
  else if Utf8.blank migration then Err (BadRequest "Backup migration version must not be empty")
  else match objs with
       | [] => Err (BadRequest "Backup manifest requires at least one object")
       | _ =>
           Ok {| schema_version := "1"; backup_id := fresh; generated_at_epoch := generated_at;
                 source_cluster_id := source; migration_version := migration; objects := objs;
                 manifest_hash := backup_manifest_hash "1" fresh generated_at source migration objs |}
       end.

Definition verify_backup_manifest (m : BackupManifest) : bool :=
  if negb (String.eqb (schema_version m) "1") || match objects m with [] => true | _ => false end then false
  else String.eqb (backup_manifest_hash (schema_version m) (backup_id m) (generated_at_epoch m)
                     (source_cluster_id m) (migration_version m) (objects m)) (manifest_hash m).

Definition plan_restore (m : BackupManifest) (target current_migration : string) (read_only : bool) : RestorePlan :=
  let migrate := negb (String.eqb (migration_version m) current_migration) in
  let rs :=
    (if verify_backup_manifest m then [] else ["invalid_backup_manifest"])
    ++ (if Utf8.blank target then ["empty_target_cluster_id"] else [])
    ++ (if String.eqb (source_cluster_id m) target then ["same_source_and_target_cluster"] else [])
    ++ (if migrate then ["migration_required"] else [])
    ++ (if read_only then [] else ["read_only_mode_required"]) in
  {| plan_status :=
       if existsb (fun r => String.eqb r "invalid_backup_manifest" || String.eqb r "empty_target_cluster_id"
                            || String.eqb r "same_source_and_target_cluster"
                            || String.eqb r "read_only_mode_required") rs
       then PlanRejected else PlanReady;
     plan_backup_id := backup_id m; plan_source := source_cluster_id m; plan_target := target;
     object_count := length (objects m); requires_migration := migrate; read_only_required := true;
     plan_reasons := rs |}.

(** * Execution *)

Context {T : Type} `{RestoreObjectStore T}.

(** How the loop over the objects ends: with an error ([?]), with an early return of a
    failed report, or after the last object. *)
Inductive LoopEnd : Type :=
| LoopErr (e : QidError)
| LoopFailed (restored : list RestoredObject) (why : string)
| LoopDone (restored : list RestoredObject).

Fixpoint restore_loop (m : BackupManifest) (config : RestoreExecutionConfig) (objs : list BackupObject)
    (restored : list RestoredObject) (store : T) : LoopEnd * T :=
  match objs with
  | [] => (LoopDone restored, store)
  | o :: rest =>
      match validate_backup_object_path (path o) with
      | Err e => (LoopErr e, store)
      | Ok _ =>
          match read_backup_object (path o) store with
          | Err e =>
              (LoopErr (Storage ("failed to read backup object " +:+ path o +:+ ": " +:+ error_message e)), store)
          | Ok body =>
              if negb (N.of_nat (String.length body) =? bytes o)
              then (LoopFailed restored ("object_size_mismatch:" +:+ path o), store)
              else if negb (String.eqb (sha256_hex sha256 body) (sha o))
              then (LoopFailed restored ("object_hash_mismatch:" +:+ path o), store)
              else
                let restore_path := backup_id m +:+ "/" +:+ path o in
                let done_at loc store' :=
                  restore_loop m config rest
                    (restored ++ [{| ro_path := restore_path; ro_bytes := bytes o; ro_sha256 := sha o;
                                     location := loc |}]) store' in
                if dry_run config then done_at ("dry-run://restore/" +:+ restore_path) store
                else
                  match write_restore_object restore_path body (allow_overwrite config) store with
                  | (Ok loc, store') => done_at loc store'
                  | (Err e, store') =>
                      (LoopFailed restored ("object_write_failed:" +:+ restore_path +:+ ":" +:+ error_message e), store')
                  end
          end
      end
  end.

Definition run_restore_execution (m : BackupManifest) (config : RestoreExecutionConfig) (store : T)
    : QidResult RestoreExecutionReport * T :=
  let p := plan_restore m (target_cluster_id config) (current_migration_version config) (read_only_enabled config) in
  if negb (bool_decide (plan_status p = PlanReady)) then
    (Ok {| status := Rejected; plan := p; restored_objects := []; reasons := plan_reasons p;
           rollback := not_required |}, store)
  else
    match restore_loop m config (objects m) [] store with
    | (LoopErr e, store') => (Err e, store')
    | (LoopFailed restored why, store') => (Ok (failed_restore_report p restored [why]), store')
    | (LoopDone restored, store') =>
        (Ok {| status := if dry_run config then DryRunVerified else Restored; plan := p;
               restored_objects := restored; reasons := []; rollback := not_required |}, store')
    end.

End Restore.

(** * Properties *)

(** ** A store with a log of its successful writes *)

Record Write : Type := { w_path : string; w_body : string; w_location : string }.

Definition Logged (T : Type) : Type := T * list Write.

#[global] Instance Logged_store {T : Type} `{RestoreObjectStore T} : RestoreObjectStore (Logged T) := {|
  read_backup_object p s := read_backup_object p s.1;
  write_restore_object p body overwrite s :=
    match write_restore_object p body overwrite s.1 with
    | (Ok loc, t) => (Ok loc, (t, s.2 ++ [{| w_path := p; w_body := body; w_location := loc |}]))
    | (Err e, t) => (Err e, (t, s.2))
    end
|}.

(** ** Paths *)

(** Lexical resolution of path components against a directory. *)
Fixpoint resolve (dir comps : list string) : list string :=
  match comps with
  | [] => dir
  | c :: rest =>
      if is_empty_str c || String.eqb c "." then resolve dir rest
      else if String.eqb c ".." then resolve (removelast dir) rest
      else resolve (dir ++ [c]) rest
  end.

Lemma resolve_plain comps : ∀ dir,
  existsb (fun c => is_empty_str c || String.eqb c "." || String.eqb c "..") comps = false →
  resolve dir comps = dir ++ comps.
Proof.
  induction comps as [|c comps IH]; intros dir; simpl; [by rewrite app_nil_r|].
  rewrite !orb_false_iff. intros (((-> & ->) & ->) & Hr). simpl. rewrite IH by done. by rewrite <- app_assoc.
Qed.

(** A validated path names a place strictly below any directory it is resolved against. *)
Lemma valid_path_confined p :
  validate_backup_object_path p = Ok tt →
  starts_with "/" p = false ∧ str_contains BACKSLASH p = false ∧
  ∀ dir, resolve dir (split_on SLASH p) = dir ++ split_on SLASH p.
Proof.
  unfold validate_backup_object_path. destruct (Utf8.blank p); [done|].
  destruct (starts_with "/" p); [done|]. destruct (str_contains BACKSLASH p); [done|]. simpl.
  destruct (existsb _ _) eqn:E; [done|]. intros _. split_and!; [done..|]. intros dir. by apply resolve_plain.
Qed.

Section RestoreProofs.
Context (sha256 : string → list N) {T : Type} `{RestoreObjectStore T}.

(** Object [o] of the manifest was checked, written as [w] and reported as [r]. *)
Definition restored_as (m : BackupManifest) (o : BackupObject) (w : Write) (r : RestoredObject) : Prop :=
  N.of_nat (String.length (w_body w)) = bytes o ∧ sha256_hex sha256 (w_body w) = sha o ∧
  w_path w = backup_id m +:+ "/" +:+ path o ∧
  (∀ dir, resolve dir (split_on SLASH (path o)) = dir ++ split_on SLASH (path o)) ∧
  r = {| ro_path := w_path w; ro_bytes := bytes o; ro_sha256 := sha o; location := w_location w |}.

Definition ends_with_restored (e : LoopEnd) (rs : list RestoredObject) : Prop :=
  match e with LoopErr _ => True | LoopFailed r _ | LoopDone r => r = rs end.

Lemma restore_loop_writes m config objs : ∀ restored (s s' : Logged T) e,
  dry_run config = false → restore_loop sha256 m config objs restored s = (e, s') →
  ∃ n ws rs, Forall3 (restored_as m) (take n objs) ws rs ∧ s'.2 = s.2 ++ ws ∧
    ends_with_restored e (restored ++ rs) ∧ (∀ r, e = LoopDone r → n = length objs).
Proof.
  induction objs as [|o objs IH]; intros restored s s' e Hd.
  { simpl. intros [= <- <-]. exists 0%nat, [], []. rewrite !app_nil_r. split_and!; [constructor|done..]. }
  assert (∀ e', (∀ r, e' ≠ LoopDone r) → ends_with_restored e' restored →
    ∃ n ws rs, Forall3 (restored_as m) (take n (o :: objs)) ws rs ∧ s.2 = s.2 ++ ws ∧
    ends_with_restored e' (restored ++ rs) ∧ (∀ r, e' = LoopDone r → n = length (o :: objs))) as Hstop.
  { intros e' Hn He. exists 0%nat, [], []. rewrite !app_nil_r. split_and!; [constructor|done..|]. intros r Hr. by destruct (Hn r). }
  cbn [restore_loop]. rewrite Hd.
  destruct (validate_backup_object_path (path o)) as [[]|e0] eqn:Hv; [|intros [= <- <-]; by apply Hstop].
  destruct (read_backup_object (path o) s) as [body|e0]; [|intros [= <- <-]; by apply Hstop].
  destruct (N.eqb_spec (N.of_nat (String.length body)) (bytes o)) as [Hlen|]; cbn [negb];
    [|intros [= <- <-]; by apply Hstop].
  destruct (String.eqb_spec (sha256_hex sha256 body) (sha o)) as [Hsha|]; cbn [negb];
    [|intros [= <- <-]; by apply Hstop].
  cbn [write_restore_object Logged_store].
  destruct (write_restore_object (backup_id m +:+ "/" +:+ path o) body (allow_overwrite config) s.1) as [[loc|e0] t];
    [|intros [= <- <-]; by apply Hstop].
  intros Hl. apply IH in Hl as (n & ws & rs & Hf & Hlog & He & Hn); [|done].
  exists (S n), ({| w_path := backup_id m +:+ "/" +:+ path o; w_body := body; w_location := loc |} :: ws),
    ({| ro_path := backup_id m +:+ "/" +:+ path o; ro_bytes := bytes o; ro_sha256 := sha o; location := loc |} :: rs).
  split; [|split; [|split]].
  - simpl. constructor; [|exact Hf]. unfold restored_as. simpl.
    split_and!; [done..|by apply valid_path_confined|done].
  - rewrite Hlog. simpl. by rewrite <- app_assoc.
  - by rewrite <- app_assoc in He.
  - intros r Hr. simpl. by rewrite (Hn _ Hr).
Qed.

(** A restore writes only what it verified, and can undo what it wrote.  Every object
    written had the size and SHA-256 digest of the manifest and went to its own path under
    the backup's directory; the report lists exactly the objects written, in order; a
    restored report covers the whole manifest; a rejected one wrote nothing; and the
    rollback plan of a failed one deletes exactly the written objects, last first. *)
Theorem restore_writes_verified m config (t : T) res t' ws :
  dry_run config = false →
  run_restore_execution sha256 m config (t, []) = (res, (t', ws)) →
  match res with
  | Ok rep =>
      (∃ n, Forall3 (restored_as m) (take n (objects m)) ws (restored_objects rep) ∧
            (status rep = Restored → n = length (objects m))) ∧
      (status rep = Rejected → ws = []) ∧
      (status rep = Failed → rollback_actions (rollback rep) = map rollback_action (rev (restored_objects rep)))
  | Err _ => ∃ n rs, Forall3 (restored_as m) (take n (objects m)) ws rs
  end.
Proof.
  intros Hd. unfold run_restore_execution. rewrite Hd. case_match.
  - intros [= <- <- <-]. split_and!; [|done|done]. exists 0%nat. split; [constructor|done].
  - destruct (restore_loop sha256 m config (objects m) [] (t, [])) as [e s'] eqn:El.
    apply restore_loop_writes in El as (n & ws' & rs & Hf & Hlog & He & Hn); [|done]. simpl in Hlog.
    destruct e as [e|r why|r]; intros [= <- E]; rewrite E in Hlog; simpl in Hlog, He; subst ws'.
    + by exists n, rs.
    + subst r. split_and!; [by exists n|done|]. intros _. simpl. unfold rollback_plan_for_partial_restore. by destruct rs.
    + subst r. split_and!; [|done|done]. exists n. split; [done|]. intros _. by eapply Hn.
Qed.

Lemma restore_loop_dry m config objs : ∀ restored (s s' : T) e,
  dry_run config = true → restore_loop sha256 m config objs restored s = (e, s') → s' = s.
Proof.
  induction objs as [|o objs IH]; intros restored s s' e Hd; simpl; [by intros [= _ <-]|].
  rewrite Hd. repeat (first [case_match; [|by intros [= _ <-]] | case_match; [by intros [= _ <-]|]]).
  by apply IH.
Qed.

(** A dry run writes nothing, yet its failure asks for deletions: the store is left
    as it was, but when an object fails its check after others passed, the rollback plan
    is marked required and lists a deletion for every object that passed, although none of
    them was written. *)
Theorem dry_run_rollback m config (s s' : T) res :
  dry_run config = true → run_restore_execution sha256 m config s = (res, s') →
  s' = s ∧
  ∀ rep, res = Ok rep → status rep = Failed → restored_objects rep ≠ [] →
    required (rollback rep) = true ∧
    map rb_path (rollback_actions (rollback rep)) = map ro_path (rev (restored_objects rep)).
Proof.
  intros Hd. unfold run_restore_execution. rewrite Hd. case_match; [intros [= <- <-]; naive_solver|].
  destruct (restore_loop sha256 m config (objects m) [] s) as [e s1] eqn:El.
  apply restore_loop_dry in El as ->; [|done].
  destruct e as [e|r why|r]; intros [= <- <-]; (split; [done|]); intros rep [= <-] Hs Hne; [|done].
  simpl in *. destruct r as [|x r]; [done|]. cbn [rollback_plan_for_partial_restore required rollback_actions].
  by rewrite map_map.
Qed.

End RestoreProofs.

(** A manifest that was built verifies, and a restore of it is ready exactly when the
    target is another, named cluster in read-only mode. *)
Theorem built_manifest_restores sha256 fresh source migration now objs m target current read_only :
  build_backup_manifest sha256 fresh source migration now objs = Ok m →
  verify_backup_manifest sha256 m = true ∧
  (plan_status (plan_restore sha256 m target current read_only) = PlanReady ↔
     Utf8.blank target = false ∧ target ≠ source ∧ read_only = true).
Proof.
  unfold build_backup_manifest. destruct (Utf8.blank source); [done|].
  destruct (Utf8.blank migration); [done|]. destruct objs as [|o objs]; [done|]. intros [= <-].
  assert (∀ h id n s mg l, verify_backup_manifest sha256 {| schema_version := "1"; backup_id := id;
    generated_at_epoch := n; source_cluster_id := s; migration_version := mg; objects := o :: l;
    manifest_hash := h |} = String.eqb (backup_manifest_hash sha256 "1" id n s mg (o :: l)) h) as Hv by done.
  split; [rewrite Hv; apply String.eqb_refl|].
  unfold plan_restore. rewrite Hv, String.eqb_refl. cbn [plan_status source_cluster_id migration_version].
  destruct (Utf8.blank target); simpl; [split; [done|naive_solver]|].
  destruct (String.eqb_spec source target) as [->|Hne]; simpl; [split; [done|naive_solver]|].
  destruct (negb _); destruct read_only; simpl; naive_solver.
Qed.


(** ** Witnesses *)

(** A store that holds its objects by path and accepts every write. *)
#[local] Instance map_store : RestoreObjectStore (gmap string string) := {|
  read_backup_object p s := match s !! p with Some b => Ok b | None => Err (NotFound p) end;
  write_restore_object p body overwrite s :=
    match s !! p, overwrite with
    | Some _, false => (Err (Conflict p), s)
    | _, _ => (Ok ("mem://" +:+ p), <[p := body]> s)
    end
|}.

Definition sample_objects : list BackupObject :=
  [{| path := "a.db"; sha := sha256_hex Cluster.toy_digest "AA"; bytes := 2 |};
   {| path := "dir/b.db"; sha := sha256_hex Cluster.toy_digest "BBB"; bytes := 3 |}].

Definition sample_manifest : BackupManifest :=
  match build_backup_manifest Cluster.toy_digest "bk1" "c1" "7" 100 sample_objects with
  | Ok m => m
  | Err _ => {| schema_version := ""; backup_id := ""; generated_at_epoch := 0; source_cluster_id := "";
                migration_version := ""; objects := []; manifest_hash := "" |}
  end.

Definition sample_config (dry : bool) : RestoreExecutionConfig :=
  {| target_cluster_id := "c2"; current_migration_version := "7"; read_only_enabled := true;
     allow_overwrite := false; dry_run := dry |}.

(** The second object of this store is damaged. *)
Definition damaged : gmap string string := {[ "a.db" := "AA"; "dir/b.db" := "BBX" ]}.

Definition run_sample (dry : bool) : QidResult RestoreExecutionReport * Logged (gmap string string) :=
  run_restore_execution Cluster.toy_digest sample_manifest (sample_config dry) (damaged, []).

Lemma restore_writes_verified_witness :
  ∃ rep, (run_sample false).1 = Ok rep ∧ status rep = Failed ∧
         rollback_actions (rollback rep) = map rollback_action (rev (restored_objects rep)) ∧
         map w_path (run_sample false).2.2 = ["bk1/a.db"].
Proof.
  pose proof (restore_writes_verified Cluster.toy_digest sample_manifest (sample_config false) damaged
                (run_sample false).1 (run_sample false).2.1 (run_sample false).2.2 eq_refl) as Hw.
  destruct (run_sample false).1 as [rep|e] eqn:E; [|vm_compute in E; discriminate].
  destruct Hw as (_ & _ & Hw).
  - rewrite <- E. fold (run_sample false). by destruct (run_sample false) as [r [t w]].
  - exists rep. split; [done|]. assert (status rep = Failed) as Hs.
    { vm_compute in E. injection E as <-. reflexivity. }
    split; [exact Hs|]. split; [exact (Hw Hs)|vm_compute; reflexivity].
Defined.

Lemma dry_run_rollback_witness :
  (run_sample true).2 = (damaged, []) ∧
  ∃ rep, (run_sample true).1 = Ok rep ∧ required (rollback rep) = true
         ∧ map rb_path (rollback_actions (rollback rep)) = ["bk1/a.db"].
Proof.
  destruct (dry_run_rollback Cluster.toy_digest sample_manifest (sample_config true) (damaged, [])
              (run_sample true).2 (run_sample true).1 eq_refl) as [Hs Hr].
  - fold (run_sample true). by destruct (run_sample true).
  - split; [exact Hs|]. destruct (run_sample true).1 as [rep|e] eqn:E; [|vm_compute in E; discriminate].
    exists rep. split; [done|]. destruct (Hr rep eq_refl) as [H1 H2].
    + vm_compute in E. injection E as <-. reflexivity.
    + vm_compute in E. injection E as <-. discriminate.
    + split; [exact H1|]. rewrite H2. vm_compute in E. injection E as <-. reflexivity.
Defined.

(** A read error after a write ends the restore with an error and no rollback plan. *)
Example read_error_keeps_writes :
  match run_restore_execution Cluster.toy_digest sample_manifest (sample_config false)
          (({[ "a.db" := "AA" ]} : gmap string string), []) with
  | (Err _, (_, ws)) => map w_path ws = ["bk1/a.db"]
  | _ => False
  end.
Proof. vm_compute. reflexivity. Qed.

Lemma built_manifest_restores_witness :
  verify_backup_manifest Cluster.toy_digest sample_manifest = true ∧
  plan_status (plan_restore Cluster.toy_digest sample_manifest "c2" "7" true) = PlanReady.
Proof.
  destruct (built_manifest_restores Cluster.toy_digest "bk1" "c1" "7" 100 sample_objects sample_manifest
              "c2" "7" true) as [H1 H2]; [vm_compute; reflexivity|].
  split; [exact H1|]. apply H2. split; [vm_compute; reflexivity|]. split; [discriminate|reflexivity].
Defined.


End Backup.
