(* ===== verification/OpsCache.v ===== *)
(** The Redis-like cache of src/qid-ops/src/cache.rs.

    The connection is the interface [RedisLikeTransport]; what the cache relies on of a
    Redis or Valkey server is the class [RedisLaws] (GET, SETEX, SET NX EX and DEL as
    documented, seen between two expiries).  SHA-256 is a parameter, as in Cluster.v. *)

From S2P Require Import Prelude Utf8 Cluster.
Import Cluster(sha256_hex).

Module OpsCache.

(** * Data *)

Inductive CacheBackendKind : Type := Disabled | Redis | Valkey.

#[global] Instance CacheBackendKind_eq_dec : EqDecision CacheBackendKind.
Proof. solve_decision. Defined.

Record CacheBackendConfig : Type := {
  kind : CacheBackendKind;
  endpoints : list string;
  key_prefix : string;
  ttl_seconds : N
}.

Definition validate (c : CacheBackendConfig) : QidResult unit :=
  if bool_decide (kind c = Disabled) then Ok tt
  else match endpoints c with
       | [] => Err (BadRequest "Cache backend requires at least one endpoint")
       | _ =>
           if Utf8.blank (key_prefix c) then Err (BadRequest "Cache key prefix must not be empty")
           else if ttl_seconds c =? 0 then Err (BadRequest "Cache TTL must be greater than zero")
           else Ok tt
       end.

Record CacheKey : Type := { namespace : string; digest : string }.

#[global] Instance CacheKey_eq_dec : EqDecision CacheKey.
Proof. solve_decision. Defined.

Fixpoint drop_colons (s : string) : string :=
  match s with
  | EmptyString => EmptyString
  | String c s' => if Ascii.eqb c COLON then drop_colons s' else s
  end.

Fixpoint str_rev (s : string) : string :=
  match s with
  | EmptyString => EmptyString
  | String c s' => str_rev s' +:+ String c ""
  end.

(** [trim_matches(':')] *)
Definition trim_colons (s : string) : string := str_rev (drop_colons (str_rev (drop_colons s))).

Definition render (k : CacheKey) (c : CacheBackendConfig) : QidResult string :=
  validate c ?; Ok (trim_colons (key_prefix c) +:+ ":" +:+ namespace k +:+ ":" +:+ digest k).

Record CachePut : Type := { put_key : CacheKey; put_value : string; put_ttl : N }.

Record CacheHealth : Type := {
  healthy : bool;
  backend : CacheBackendKind;
  endpoint_count : nat;
  latency : option N;
  reason : option string
}.

Inductive RedisLikeCommand : Type :=
| Get (key : string)
| SetEx (key : string) (ttl : N) (value : string)
| SetNxEx (key : string) (ttl : N) (value : string)
| Del (key : string)
| Ping.

Class RedisLikeTransport (T : Type) : Type := {
  execute : RedisLikeCommand → T → QidResult (option string) * T;
  latency_ms : T → option N
}.

(** What the cache relies on of the server: [live] is the value a key has.  A command that
    fails may or may not have taken effect, on its own key only. *)
Class RedisLaws (T : Type) `{RedisLikeTransport T} (live : T → string → option string) : Prop := {
  get_value k t r t' : execute (Get k) t = (Ok r, t') → r = live t k;
  get_same k t j : live (execute (Get k) t).2 j = live t j;
  setex_own k ttl v t r t' :
    execute (SetEx k ttl v) t = (r, t') → live t' k = Some v ∨ (is_ok r = false ∧ live t' k = live t k);
  setex_other k ttl v t j : j ≠ k → live (execute (SetEx k ttl v) t).2 j = live t j;
  setnx_fresh k ttl v t r t' :
    execute (SetNxEx k ttl v) t = (r, t') → live t k = None →
    (r = Ok (Some "OK") ∧ live t' k = Some v) ∨ (is_ok r = false ∧ (live t' k = None ∨ live t' k = Some v));
  setnx_held k ttl v t r t' w :
    execute (SetNxEx k ttl v) t = (r, t') → live t k = Some w →
    (r = Ok None ∨ is_ok r = false) ∧ live t' k = Some w;
  setnx_other k ttl v t j : j ≠ k → live (execute (SetNxEx k ttl v) t).2 j = live t j;
  del_own k t r t' :
    execute (Del k) t = (r, t') → live t' k = None ∨ (is_ok r = false ∧ live t' k = live t k);
  del_other k t j : j ≠ k → live (execute (Del k) t).2 j = live t j
}.

Section RedisLikeCache.
Context (sha256 : string → list N) {T : Type} `{RedisLikeTransport T}.

(** [CacheKey::new] *)
Definition new_key (ns material : string) : QidResult CacheKey :=
  if Utf8.blank ns then Err (BadRequest "Cache namespace must not be empty")
  else Ok {| namespace := ns; digest := sha256_hex sha256 material |}.

Record RedisLikeCache : Type := { config : CacheBackendConfig; transport : T }.

Definition with_transport (c : RedisLikeCache) (t : T) : RedisLikeCache := {| config := config c; transport := t |}.

(** [RedisLikeCache::new] *)
Definition new_cache (c : CacheBackendConfig) (t : T) : QidResult RedisLikeCache :=
  validate c ?;
  if bool_decide (kind c = Disabled)
  then Err (BadRequest "Redis-like cache requires redis or valkey backend")
  else Ok {| config := c; transport := t |}.

Definition put (p : CachePut) (c : RedisLikeCache) : QidResult unit * RedisLikeCache :=
  if put_ttl p =? 0 then (Err (BadRequest "Cache put TTL must be greater than zero"), c)
  else if is_empty_str (put_value p) then (Err (BadRequest "Cache value must not be empty"), c)
  else match render (put_key p) (config c) with
       | Err e => (Err e, c)
       | Ok key =>
           let '(r, t) := execute (SetEx key (N.min (put_ttl p) (ttl_seconds (config c))) (put_value p)) (transport c) in
           (res_map (fun _ => tt) r, with_transport c t)
       end.

Definition put_if_absent (p : CachePut) (c : RedisLikeCache) : QidResult bool * RedisLikeCache :=
  if put_ttl p =? 0 then (Err (BadRequest "Cache put TTL must be greater than zero"), c)
  else if is_empty_str (put_value p) then (Err (BadRequest "Cache value must not be empty"), c)
  else match render (put_key p) (config c) with
       | Err e => (Err e, c)
       | Ok key =>
           let '(r, t) := execute (SetNxEx key (N.min (put_ttl p) (ttl_seconds (config c))) (put_value p)) (transport c) in
           (res_map (fun o => bool_decide (o = Some "OK")) r, with_transport c t)
       end.

Definition get (k : CacheKey) (c : RedisLikeCache) : QidResult (option string) * RedisLikeCache :=
  match render k (config c) with
  | Err e => (Err e, c)
  | Ok key => let '(r, t) := execute (Get key) (transport c) in (r, with_transport c t)
  end.

Definition delete_key (k : CacheKey) (c : RedisLikeCache) : QidResult unit * RedisLikeCache :=
  match render k (config c) with
  | Err e => (Err e, c)
  | Ok key => let '(r, t) := execute (Del key) (transport c) in (res_map (fun _ => tt) r, with_transport c t)
  end.

Definition health (c : RedisLikeCache) : CacheHealth * RedisLikeCache :=
  let '(r, t) := execute Ping (transport c) in
  ({| healthy := is_ok r; backend := kind (config c); endpoint_count := length (endpoints (config c));
      latency := latency_ms t; reason := match r with Ok _ => None | Err e => Some (error_message e) end |},
   with_transport c t).

(** * Keys *)

Lemma hex_length bs : String.length (hex_encode_lower bs) = (2 * length bs)%nat.
Proof. induction bs as [|b bs IH]; simpl; [done|]. rewrite IH. lia. Qed.

(** Rendered keys are distinct for distinct (namespace, digest) pairs of equal digest length. *)
Lemma render_inj c k1 k2 r :
  String.length (digest k1) = String.length (digest k2) →
  render k1 c = Ok r → render k2 c = Ok r → k1 = k2.
Proof.
  intros Hl. unfold render. destruct (validate c); [|done]. simpl. intros [= <-] [= He].
  apply str_app_inj_prefix in He as [_ He]; [|done].
  apply (str_app_inj_prefix ":" ":") in He as [_ He]; [|done].
  destruct k1 as [n1 d1], k2 as [n2 d2]. simpl in *.
  apply str_app_inj_suffix in He as [-> He]; [|by rewrite !str_length_app, Hl].
  by apply (str_app_inj_prefix ":" ":") in He as [_ ->].
Qed.

Context `{!RedisLaws T live}.

(** Operations on a cache, for runs. *)
Inductive CacheOp : Type :=
| OPut (p : CachePut)
| OPutIfAbsent (p : CachePut)
| OGet (k : CacheKey)
| ODelete (k : CacheKey).

Definition perform (o : CacheOp) (c : RedisLikeCache) : option bool * RedisLikeCache :=
  match o with
  | OPut p => (None, (put p c).2)
  | OPutIfAbsent p => let '(r, c') := put_if_absent p c in (res_ok r, c')
  | OGet k => (None, (get k c).2)
  | ODelete k => (None, (delete_key k c).2)
  end.

Definition op_key (o : CacheOp) : CacheKey :=
  match o with OPut p | OPutIfAbsent p => put_key p | OGet k | ODelete k => k end.

(** The outcomes of the conditional puts of key [k] in a run. *)
Fixpoint wins (k : CacheKey) (os : list CacheOp) (c : RedisLikeCache) : list bool :=
  match os with
  | [] => []
  | o :: os' =>
      let '(r, c') := perform o c in
      match o, r with
      | OPutIfAbsent p, Some b =>
          if bool_decide (put_key p = k)
          then b :: wins k os' c' else wins k os' c'
      | _, _ => wins k os' c'
      end
  end.

(** The key [k] is held under its rendered name. *)
Definition held (k : CacheKey) (c : RedisLikeCache) : Prop :=
  ∃ r w, render k (config c) = Ok r ∧ live (transport c) r = Some w.

Lemma perform_config o c : config (perform o c).2 = config c.
Proof.
  destruct o as [p|p|k|k]; simpl; unfold put, put_if_absent, get, delete_key;
    repeat (case_match; simpl; try done); by simplify_eq.
Qed.

(** A key that is held stays held unless it is deleted, and no conditional put of it wins. *)
Lemma cache_perform_held k o c :
  String.length (digest (op_key o)) = String.length (digest k) → (∀ j, o = ODelete j → j ≠ k) →
  held k c → held k (perform o c).2 ∧
  (∀ p b, o = OPutIfAbsent p → put_key p = k → (perform o c).1 = Some b → b = false).
Proof.
  intros Hl Hdel (r & w & Hr & Hw). assert (∀ t, (∃ w', live t r = Some w') → held k (with_transport c t)) as Hkeep.
  { intros t [w' Hw']. exists r, w'. done. }
  assert (held k c) as Hc by (exists r, w; done).
  assert (∀ k' r', render k' (config c) = Ok r' → String.length (digest k') = String.length (digest k) →
            k' = k ∨ r ≠ r') as Hcmp.
  { intros k' r' Hr' Hl'. destruct (decide (r = r')) as [->|]; [left|by right]. by eapply render_inj. }
  destruct o as [p|p|j|j]; simpl in *.
  - split; [|done]. unfold put. do 2 (case_match; [done|]).
    destruct (render (put_key p) (config c)) as [r'|e] eqn:Hr'; [|done].
    destruct (execute _ (transport c)) as [res t] eqn:Ex. simpl. apply Hkeep.
    destruct (Hcmp _ _ Hr' Hl) as [E|Hne]; [rewrite E in Hr'|].
    + replace r' with r in Ex by congruence. destruct (setex_own _ _ _ _ _ _ Ex) as [?|[_ ->]]; eauto.
    + pose proof (setex_other r' (N.min (put_ttl p) (ttl_seconds (config c))) (put_value p) (transport c) r Hne) as Ho. rewrite Ex in Ho. simpl in Ho.
      rewrite Ho. eauto.
  - unfold put_if_absent. destruct (put_ttl p =? 0); [by split|]. destruct (is_empty_str (put_value p)); [by split|].
    destruct (render (put_key p) (config c)) as [r'|e] eqn:Hr'; [|by split].
    destruct (execute _ (transport c)) as [res t] eqn:Ex. simpl.
    destruct (Hcmp _ _ Hr' Hl) as [E|Hne]; [rewrite E in Hr'|].
    + replace r' with r in Ex by congruence. destruct (setnx_held _ _ _ _ _ _ _ Ex Hw) as [Hres Ht].
      split; [apply Hkeep; eauto|]. intros p' b _ _. destruct Hres as [->|He]; [by intros [= <-]|].
      by destruct res.
    + split.
      * apply Hkeep. pose proof (setnx_other r' (N.min (put_ttl p) (ttl_seconds (config c))) (put_value p) (transport c) r Hne) as Ho.
        rewrite Ex in Ho. simpl in Ho. rewrite Ho. eauto.
      * intros p' b [= <-] E. rewrite E in Hr'. congruence.
  - split; [|done]. unfold get. destruct (render j (config c)) as [r'|e]; [|done].
    pose proof (get_same r' (transport c) r) as Hg. destruct (execute _ (transport c)) as [res t]. simpl in *.
    apply Hkeep. rewrite Hg. eauto.
  - split; [|done]. unfold delete_key. destruct (render j (config c)) as [r'|e] eqn:Hr'; [|done].
    destruct (Hcmp _ _ Hr' Hl) as [->|Hne]; [by destruct (Hdel k)|].
    pose proof (del_other r' (transport c) r Hne) as Hg. destruct (execute _ (transport c)) as [res t]. simpl in *.
    apply Hkeep. rewrite Hg. eauto.
Qed.

(** A winning conditional put leaves its key held. *)
Lemma win_held p c c' : put_if_absent p c = (Ok true, c') → held (put_key p) c'.
Proof.
  unfold put_if_absent. do 2 (case_match; [done|]).
  destruct (render (put_key p) (config c)) as [r|e] eqn:Hr; [|done].
  destruct (execute _ (transport c)) as [res t] eqn:Ex. destruct res as [o|e]; [|done]. simpl.
  intros [= Ho <-]. apply bool_decide_eq_true in Ho as ->. exists r.
  destruct (live (transport c) r) as [w|] eqn:Hl.
  - by destruct (setnx_held _ _ _ _ _ _ _ Ex Hl) as [[?|?] _].
  - destruct (setnx_fresh _ _ _ _ _ _ Ex Hl) as [[_ ?]|[? _]]; [by eexists|done].
Qed.

Definition count_wins (bs : list bool) : nat := length (List.filter (fun b => b) bs).

Definition keeps (k : CacheKey) (o : CacheOp) : Prop :=
  String.length (digest (op_key o)) = String.length (digest k) ∧ (∀ j, o = ODelete j → j ≠ k).

Lemma wins_held k os : ∀ c, Forall (keeps k) os → held k c → count_wins (wins k os c) = 0%nat.
Proof.
  induction os as [|o os IH]; intros c Hk Hh; [done|]. apply Forall_cons in Hk as [[Hl Hd] Hk].
  destruct (cache_perform_held k o c Hl Hd Hh) as [Hh' Hb]. simpl. destruct (perform o c) as [r c'] eqn:Ep. simpl in Hh', Hb.
  destruct o as [p|p|j|j]; try by apply IH. destruct r as [b|]; [|by apply IH].
  case_bool_decide as Hkey; [|by apply IH]. rewrite (Hb p b eq_refl Hkey eq_refl). by apply IH.
Qed.

(** A conditional put has one winner.  In any sequence of operations that does not
    delete key [k], at most one conditional put of it reports success, whichever commands
    fail on the way; two keys never collide, since a rendered key determines its namespace
    and digest. *)
Theorem put_if_absent_one_winner k os c :
  Forall (keeps k) os → (count_wins (wins k os c) ≤ 1)%nat.
Proof.
  revert c. induction os as [|o os IH]; intros c Hk; [apply Nat.le_0_l|]. apply Forall_cons in Hk as [[Hl Hd] Hk].
  simpl. destruct (perform o c) as [r c'] eqn:Ep. specialize (IH c' Hk).
  destruct o as [p|p|j|j]; [done| |done..]. destruct r as [b|]; [|done].
  case_bool_decide as Hkey; [|done]. destruct b; [|done]. simpl in Ep.
  destruct (put_if_absent p c) as [[b|e] c1] eqn:Ew; simpl in Ep; [|done]. injection Ep as -> ->.
  apply win_held in Ew. rewrite Hkey in Ew. unfold count_wins. simpl.
  fold (count_wins (wins k os c')). by rewrite (wins_held _ _ _ Hk Ew).
Qed.

(** What is put is read back: after a put that succeeded, reading the key gives the
    value if it succeeds, and the entry's lifetime was capped by the configured one. *)
Theorem put_get p c c1 v c2 :
  put p c = (Ok tt, c1) → get (put_key p) c1 = (Ok v, c2) → v = Some (put_value p).
Proof.
  unfold put. do 2 (case_match; [done|]).
  destruct (render (put_key p) (config c)) as [r|e] eqn:Hr; [|done].
  destruct (execute _ (transport c)) as [res t] eqn:Ex. intros [= Hres <-]. unfold get. simpl. rewrite Hr.
  destruct (execute (Get r) t) as [res2 t2] eqn:Eg. intros [= -> <-].
  rewrite (get_value _ _ _ _ Eg). destruct (setex_own _ _ _ _ _ _ Ex) as [Hl|[Hok _]]; [done|].
  by destruct res.
Qed.

End RedisLikeCache.

(** ** A server that keeps the laws, and witnesses *)

#[local] Instance map_server : RedisLikeTransport (gmap string string) := {|
  execute cmd t :=
    match cmd with
    | Get k => (Ok (t !! k), t)
    | SetEx k _ v => (Ok (Some "OK"), <[k := v]> t)
    | SetNxEx k _ v => match t !! k with Some _ => (Ok None, t) | None => (Ok (Some "OK"), <[k := v]> t) end
    | Del k => (Ok (Some "1"), delete k t)
    | Ping => (Ok (Some "PONG"), t)
    end;
  latency_ms _ := None
|}.

#[local] Instance map_server_laws : RedisLaws (gmap string string) (fun t k => t !! k).
Proof.
  split; simpl.
  - by intros k t r t' [= <- <-].
  - done.
  - intros k _ v t r t' [= <- <-]. left. apply lookup_insert_eq.
  - intros k _ v t j Hne. by rewrite lookup_insert_ne.
  - intros k _ v t r t' H Hn. rewrite Hn in H. injection H as <- <-. left. split; [done|apply lookup_insert_eq].
  - intros k _ v t r t' w H Hw. rewrite Hw in H. injection H as <- <-. split; [by left|done].
  - intros k _ v t j Hne. destruct (t !! k); simpl; [done|]. by rewrite lookup_insert_ne.
  - intros k t r t' [= <- <-]. left. apply lookup_delete_eq.
  - intros k t j Hne. by rewrite lookup_delete_ne.
Qed.

Definition sample_cache : RedisLikeCache (T := gmap string string) :=
  {| config := {| kind := Redis; endpoints := ["redis://a"]; key_prefix := ":qid:"; ttl_seconds := 60 |};
     transport := ∅ |}.

Definition sample_put (ns v : string) : CachePut :=
  {| put_key := {| namespace := ns; digest := "00ff" |}; put_value := v; put_ttl := 90 |}.

Definition sample_puts : list CacheOp :=
  [OPutIfAbsent (sample_put "n" "x"); OPut (sample_put "m" "y"); OPutIfAbsent (sample_put "n" "z")].

Lemma put_if_absent_one_winner_witness :
  wins (put_key (sample_put "n" "")) sample_puts sample_cache = [true; false] ∧
  (count_wins (wins (put_key (sample_put "n" "")) sample_puts sample_cache) ≤ 1)%nat.
Proof.
  split; [vm_compute; reflexivity|].
  apply (put_if_absent_one_winner (live := fun t k => t !! k)). repeat constructor; intros j [=].
Defined.

Lemma put_get_witness :
  (get (put_key (sample_put "n" "x")) (put (sample_put "n" "x") sample_cache).2).1 = Ok (Some "x").
Proof.
  destruct (get (put_key (sample_put "n" "x")) (put (sample_put "n" "x") sample_cache).2) as [r c2] eqn:E.
  assert (∃ v, r = Ok v) as [v ->] by (vm_compute in E; injection E as <- _; eauto).
  rewrite (put_get (live := fun t k => t !! k) (sample_put "n" "x") sample_cache
             (put (sample_put "n" "x") sample_cache).2 v c2); [reflexivity| |exact E].
  vm_compute. reflexivity.
Defined.

End OpsCache.
