(* ===== verification/Risk.v ===== *)
(** Risk scoring of src/qid-risk/src/lib.rs.

    A floating point number is a binary64 [spec_float]; the platform's [sin], [cos] and
    [asin] are parameters ([Trig]).  The score and the labels are an accumulator threaded
    through the checks in the order of the source. *)

From S2P Require Import Prelude Utf8 Json.
From Stdlib Require Import SpecFloat ZArith.

Module Risk.

(** * Data *)

Inductive RiskOutcome : Type :=
| Allow | StepUp | Deny | Quarantine | ForceInspect | ForceTunnel | RateLimit | AuditHigh.

Inductive DeviceTrustState : Type := Managed | Registered | UnknownDevice | Unmanaged | Compromised.

Inductive DestinationReputation : Type := KnownGood | Unknown | Suspicious | Malicious.

#[global] Instance RiskOutcome_eq_dec : EqDecision RiskOutcome.
Proof. solve_decision. Defined.
#[global] Instance DeviceTrustState_eq_dec : EqDecision DeviceTrustState.
Proof. solve_decision. Defined.
#[global] Instance DestinationReputation_eq_dec : EqDecision DestinationReputation.
Proof. solve_decision. Defined.

Record GeoPoint : Type := { latitude : spec_float; longitude : spec_float }.

Record LoginSignal : Type := {
  epoch_seconds : N;
  location : option GeoPoint;
  ip : option string;
  asn : option N
}.

Record PepSignal : Type := {
  edge_name : option string;
  route : option string;
  host : option string;
  sni : option string;
  method : option string;
  pep_path : option string;
  destination_category : option string;
  pep_reputation : option DestinationReputation;
  application : option string
}.

Record DevicePostureSignal : Type := {
  managed : bool;
  encrypted : bool;
  edr : bool;
  os_outdated : bool;
  jailbreak_or_root : bool
}.

Record TenantPolicySignal : Type := {
  current_country : option string;
  allowed_countries : list string;
  network_allowed : option bool;
  working_hours_allowed : option bool
}.

Record TokenSignal : Type := {
  sender_constrained : bool;
  token_age_seconds : option N;
  auth_time_age_seconds : option N;
  acr : option string;
  amr : list string
}.

Record RiskInput : Type := {
  realm_id : option string;
  subject : option string;
  previous_login : option LoginSignal;
  current_login : option LoginSignal;
  device_trust : DeviceTrustState;
  high_risk_asn : bool;
  anonymous_network : bool;
  destination_reputation : DestinationReputation;
  phishing_resistant_mfa_satisfied : bool;
  step_up_succeeded : bool;
  new_device : bool;
  impossible_travel : bool;
  unmanaged_device : bool;
  malicious_destination : bool;
  pep : option PepSignal;
  device_posture : option DevicePostureSignal;
  tenant_policy : option TenantPolicySignal;
  token : option TokenSignal
}.

Record RiskEvaluation : Type := {
  score : N;
  labels : list string;
  outcome : RiskOutcome;
  required_acr : option string;
  required_amr : list string;
  pep_force_inspect : bool;
  pep_force_tunnel : bool;
  rate_limit_profile : option string;
  audit_level : option string
}.

Record RiskEventRecord : Type := {
  eval_id : string;
  ev_score : N;
  ev_labels : list string;
  ev_outcome : RiskOutcome;
  ev_subject : option string;
  created_at : N
}.

(** [Default for RiskInput], whose values are also those of absent JSON fields. *)
Definition default_input : RiskInput := {|
  realm_id := None; subject := None; previous_login := None; current_login := None;
  device_trust := UnknownDevice; high_risk_asn := false; anonymous_network := false;
  destination_reputation := Unknown; phishing_resistant_mfa_satisfied := false;
  step_up_succeeded := false; new_device := false; impossible_travel := false;
  unmanaged_device := false; malicious_destination := false; pep := None;
  device_posture := None; tenant_policy := None; token := None
|}.

(** * Recorded events *)

Definition record_risk_event (record : RiskEventRecord) (events : list RiskEventRecord) : list RiskEventRecord :=
  (if (1000 <=? length events)%nat then tail events else events) ++ [record].

(** * Impossible travel *)

Record Trig : Type := {
  f_sin : spec_float → spec_float;
  f_cos : spec_float → spec_float;
  f_asin : spec_float → spec_float
}.

Definition fmul : spec_float → spec_float → spec_float := SFmul 53 1024.
Definition fadd : spec_float → spec_float → spec_float := SFadd 53 1024.
Definition fsub : spec_float → spec_float → spec_float := SFsub 53 1024.
Definition fdiv : spec_float → spec_float → spec_float := SFdiv 53 1024.
Definition fsqrt : spec_float → spec_float := SFsqrt 53 1024.
Definition f64 (z : Z) : spec_float := z_to_f64 z.

(** [f64::consts::PI] is 7074237752028440 times 2 to the -51. *)
Definition PI : spec_float := S754_finite false 7074237752028440 (-51).

Definition to_radians (x : spec_float) : spec_float := fmul x (fdiv PI (f64 180)).
Definition powi2 (x : spec_float) : spec_float := fmul x x.

Section Travel.
Context (trig : Trig).

Definition haversine_km (a b : GeoPoint) : spec_float :=
  let radius_km := f64 6371 in
  let lat1 := to_radians (latitude a) in
  let lat2 := to_radians (latitude b) in
  let delta_lat := to_radians (fsub (latitude b) (latitude a)) in
  let delta_lon := to_radians (fsub (longitude b) (longitude a)) in
  let h := fadd (powi2 (f_sin trig (fdiv delta_lat (f64 2))))
             (fmul (fmul (f_cos trig lat1) (f_cos trig lat2)) (powi2 (f_sin trig (fdiv delta_lon (f64 2))))) in
  fmul (fmul (f64 2) radius_km) (f_asin trig (fsqrt h)).

Definition detects_impossible_travel (input : RiskInput) : bool :=
  match previous_login input, current_login input with
  | Some previous, Some current =>
      match location previous, location current with
      | Some previous_location, Some current_location =>
          if epoch_seconds current <=? epoch_seconds previous then false
          else
            let elapsed_hours :=
              fdiv (f64 (Z.of_N (epoch_seconds current - epoch_seconds previous))) (f64 3600) in
            if SFleb elapsed_hours (f64 0) then false
            else SFltb (f64 900) (fdiv (haversine_km previous_location current_location) elapsed_hours)
      | _, _ => false
      end
  | _, _ => false
  end.

(** * Scoring *)

(** The pair of the mutable [score] and [labels]. *)
Definition Acc : Type := N * list string.

Definition add (n : N) (l : string) (a : Acc) : Acc := (a.1 + n, a.2 ++ [l]).
Definition lower (n : N) (l : string) (a : Acc) : Acc := (saturating_sub a.1 n, a.2 ++ [l]).
Definition note (l : string) (a : Acc) : Acc := (a.1, a.2 ++ [l]).
Definition when (b : bool) (f : Acc → Acc) (a : Acc) : Acc := if b then f a else a.
Definition noting (p : string) (o : option string) (a : Acc) : Acc :=
  match o with Some x => note (p +:+ x) a | None => a end.

Definition score_device (d : DeviceTrustState) : Acc → Acc :=
  match d with
  | Managed => note "managed-device"
  | Registered => add 5 "registered-device"
  | UnknownDevice => add 15 "unknown-device"
  | Unmanaged => add 25 "unmanaged-device"
  | Compromised => add 90 "compromised-device"
  end.

Definition score_destination (d : DestinationReputation) : Acc → Acc :=
  match d with
  | KnownGood => note "known-good-destination"
  | Unknown => add 10 "unknown-destination"
  | Suspicious => add 35 "suspicious-destination"
  | Malicious => add 80 "malicious-destination"
  end.

Definition score_category (category : string) : Acc → Acc :=
  if str_in category ["malware"; "phishing"; "command-and-control"] then add 90 "pep-malicious-category"
  else if str_in category ["privacy"; "health"; "banking"] then add 5 "pep-sensitive-category"
  else if str_in category ["newly-registered-domain"; "unknown"] then add 20 "pep-unknown-category"
  else fun a => a.

Definition score_pep_destination (d : DestinationReputation) : Acc → Acc :=
  match d with
  | KnownGood => fun a => a
  | Unknown => add 10 "pep-unknown-destination"
  | Suspicious => add 35 "pep-suspicious-destination"
  | Malicious => add 80 "pep-malicious-destination"
  end.

Definition pep_destination_reputation (input : RiskInput) : DestinationReputation :=
  match pep input with
  | Some p => default (destination_reputation input) (pep_reputation p)
  | None => destination_reputation input
  end.

Definition score_pep (input : RiskInput) (a : Acc) : Acc :=
  match pep input with
  | None => a
  | Some p =>
      let a := noting "pep-edge:" (edge_name p) a in
      let a := noting "pep-route:" (route p) a in
      let a := match destination_category p with
               | Some c => score_category c (note ("pep-destination-category:" +:+ c) a)
               | None => a
               end in
      score_pep_destination (pep_destination_reputation input) a
  end.

Definition score_posture (posture : option DevicePostureSignal) (a : Acc) : Acc :=
  match posture with
  | None => a
  | Some p =>
      let a := when (managed p) (note "posture-managed") a in
      let a := when (negb (encrypted p)) (add 15 "posture-unencrypted") a in
      let a := when (negb (edr p)) (add 10 "posture-no-edr") a in
      let a := when (os_outdated p) (add 15 "posture-outdated-os") a in
      when (jailbreak_or_root p) (add 90 "posture-jailbreak-or-root") a
  end.

Definition country_refused (p : TenantPolicySignal) : bool :=
  match current_country p, allowed_countries p with
  | Some c, _ :: _ => negb (str_in c (allowed_countries p))
  | _, _ => false
  end.

Definition score_tenant (policy : option TenantPolicySignal) (a : Acc) : Acc :=
  match policy with
  | None => a
  | Some p =>
      let a := match allowed_countries p with
               | [] => a
               | _ => noting "country:" (current_country p) a
               end in
      let a := when (country_refused p) (add 40 "country-not-allowed") a in
      let a := when (bool_decide (network_allowed p = Some false)) (add 45 "network-not-allowed") a in
      when (bool_decide (working_hours_allowed p = Some false)) (add 15 "outside-working-hours") a
  end.

Definition older_than (limit : N) (age : option N) : bool :=
  match age with Some s => limit <? s | None => false end.

Definition strong_token (t : TokenSignal) : bool :=
  bool_decide (acr t = Some "phr") || existsb (fun x => String.eqb x "webauthn" || String.eqb x "hwk") (amr t).

Definition score_token (t : option TokenSignal) (a : Acc) : Acc :=
  match t with
  | None => a
  | Some t =>
      let a := if sender_constrained t then lower 10 "sender-constrained-token" a else add 15 "bearer-token" a in
      let a := when (older_than 3600 (token_age_seconds t)) (add 10 "old-token") a in
      let a := when (older_than 900 (auth_time_age_seconds t)) (add 15 "stale-auth-time") a in
      when (strong_token t) (lower 10 "strong-token-auth") a
  end.

Definition score_mfa (input : RiskInput) (a : Acc) : Acc :=
  if phishing_resistant_mfa_satisfied input then lower 20 "phishing-resistant-mfa" a
  else if step_up_succeeded input then lower 10 "step-up-succeeded" a
  else a.

(** The checks of [evaluate_risk] up to the cap. *)
Definition accumulate (input : RiskInput) : Acc :=
  let a := (10, ["baseline"]) in
  let a := when (new_device input) (add 20 "new-device") a in
  let a := when (impossible_travel input || detects_impossible_travel input) (add 40 "impossible-travel") a in
  let a := score_device (device_trust input) a in
  let a := when (unmanaged_device input) (add 25 "unmanaged-device") a in
  let a := when (high_risk_asn input) (add 25 "high-risk-asn") a in
  let a := when (anonymous_network input) (add 30 "anonymous-network") a in
  let a := score_destination (destination_reputation input) a in
  let a := score_pep input a in
  let a := when (malicious_destination input) (add 80 "malicious-destination") a in
  let a := score_posture (device_posture input) a in
  let a := score_tenant (tenant_policy input) a in
  let a := score_token (token input) a in
  score_mfa input a.

(** * Outcome *)

Definition pep_privacy_category (input : RiskInput) : bool :=
  match p ← pep input; destination_category p with
  | Some c => str_in c ["privacy"; "health"; "banking"]
  | None => false
  end.

Definition pep_suspicious (input : RiskInput) : bool :=
  match pep input with
  | Some p =>
      bool_decide (pep_reputation p = Some Suspicious)
      || match destination_category p with
         | Some c => str_in c ["newly-registered-domain"; "unknown"]
         | None => false
         end
  | None => false
  end.

Definition deny_required (input : RiskInput) (score : N) : bool :=
  (80 <=? score) || bool_decide (device_trust input = Compromised)
  || match device_posture input with Some p => jailbreak_or_root p | None => false end.

Definition decide_outcome (input : RiskInput) (score : N) : RiskOutcome :=
  if deny_required input score then Deny
  else if impossible_travel input && anonymous_network input then Quarantine
  else if pep_privacy_category input then ForceTunnel
  else if pep_suspicious input then ForceInspect
  else if anonymous_network input
          && match pep_destination_reputation input with Unknown | Suspicious => true | _ => false end
  then RateLimit
  else if 50 <=? score then StepUp
  else if 45 <=? score then AuditHigh
  else Allow.

Fixpoint dedupe_from (unique labels : list string) : list string :=
  match labels with
  | [] => unique
  | l :: rest => dedupe_from (if str_in l unique then unique else unique ++ [l]) rest
  end.

Definition dedupe_labels (labels : list string) : list string := dedupe_from [] labels.

Definition evaluate_risk (input : RiskInput) : RiskEvaluation :=
  let a := accumulate input in
  let score := N.min a.1 100 in
  let outcome := decide_outcome input score in
  let '(required_acr, required_amr, labels) :=
    match outcome with
    | StepUp | Quarantine => (Some "phr", ["webauthn"], a.2)
    | Deny => (None, [], a.2 ++ ["admin-review-required"])
    | _ => (None, [], a.2)
    end in
  {| score := score; labels := dedupe_labels labels; outcome := outcome;
     required_acr := required_acr; required_amr := required_amr;
     pep_force_inspect := bool_decide (outcome = ForceInspect);
     pep_force_tunnel := bool_decide (outcome = ForceTunnel);
     rate_limit_profile := if bool_decide (outcome = RateLimit) then Some "pep-standard" else None;
     audit_level := match outcome with
                    | AuditHigh | ForceInspect | ForceTunnel | RateLimit | Quarantine | Deny => Some "high"
                    | Allow | StepUp => None
                    end |}.

End Travel.

(** * The evaluation endpoint *)

Record PepRegistrationConfig : Type := { name : string; audience : option string }.

Record PepRegistrationsConfig : Type := { enabled : bool; registrations : list PepRegistrationConfig }.

Definition served (c : PepRegistrationsConfig) : list PepRegistrationConfig :=
  if enabled c then registrations c else [].

Record RealmConfig : Type := { id : string; pep_registrations : PepRegistrationsConfig }.

(** [HeaderValue::to_str]: visible ASCII and tabs. *)
Definition header_str (v : string) : option string :=
  if forallb (fun b => ((32 <=? b) && (b <? 127)) || (b =? 9)) (Utf8.str_bytes v) then Some v else None.

Definition SPACE : Ascii.ascii := Ascii.ascii_of_N 32.

Definition bearer_token (authorization : option string) : option string :=
  v ← authorization;
  s ← header_str v;
  '(scheme, token) ← split_once SPACE (Utf8.trim_str s);
  if negb (eq_ignore_ascii_case scheme "Bearer") then None
  else
    let token := Utf8.trim_str token in
    if negb (is_empty_str token) && negb (str_contains SPACE token) then Some token else None.

Section Endpoint.
Context (trig : Trig).
(** [decode_with_aud token audience]: the subject of a verified token, [None] on error. *)
Context (decode_with_aud : string → string → option (option string)).

Inductive Scan : Type :=
| Authenticated (realm : string)
| Continue (last_error : option string).

Fixpoint scan_adapters (tok realm : string) (adapters : list PepRegistrationConfig) (last : option string) : Scan :=
  match adapters with
  | [] => Continue last
  | a :: rest =>
      match audience a with
      | None => scan_adapters tok realm rest last
      | Some aud =>
          match decode_with_aud tok aud with
          | Some sub =>
              if bool_decide (sub = Some (name a)) then Authenticated realm
              else scan_adapters tok realm rest (Some "risk evaluation adapter token subject mismatch")
          | None => scan_adapters tok realm rest (Some "invalid risk evaluation adapter token")
          end
      end
  end.

Fixpoint scan_realms (tok : string) (realms : list RealmConfig) (last : option string) : Scan :=
  match realms with
  | [] => Continue last
  | r :: rest =>
      match scan_adapters tok (id r) (served (pep_registrations r)) last with
      | Authenticated x => Authenticated x
      | Continue last' => scan_realms tok rest last'
      end
  end.

Definition authenticate_risk_adapter (authorization : option string) (realms : list RealmConfig) : QidResult string :=
  match bearer_token authorization with
  | None => Err (Unauthorized "risk evaluation adapter token is required")
  | Some tok =>
      match scan_realms tok realms None with
      | Authenticated r => Ok r
      | Continue last => Err (Unauthorized (default "unknown risk evaluation adapter" last))
      end
  end.

(** The audit event of an evaluation; its metadata are the last four fields. *)
Record AuditEvent : Type := {
  a_id : string;
  a_realm_id : option string;
  a_actor : string;
  a_action : string;
  a_target_type : string;
  a_target_id : string;
  a_reason : string;
  a_created_at : N;
  m_score : N;
  m_labels : list string;
  m_outcome : string;
  m_subject : option string
}.

Definition outcome_debug (o : RiskOutcome) : string :=
  match o with
  | Allow => "Allow" | StepUp => "StepUp" | Deny => "Deny" | Quarantine => "Quarantine"
  | ForceInspect => "ForceInspect" | ForceTunnel => "ForceTunnel" | RateLimit => "RateLimit"
  | AuditHigh => "AuditHigh"
  end.

Inductive Response : Type :=
| Unauthorized401 (error : string)
| Evaluated (e : RiskEvaluation).

Context {Repo : Type} (append_audit_event : AuditEvent → Repo → QidResult unit * Repo).

Definition evaluate (authorization : option string) (realms : list RealmConfig) (input : RiskInput)
    (fresh : string) (now : N) (events : list RiskEventRecord) (repo : Repo)
    : Response * list RiskEventRecord * Repo :=
  match authenticate_risk_adapter authorization realms with
  | Err e => (Unauthorized401 (error_message e), events, repo)
  | Ok adapter =>
      if match realm_id input with Some r => negb (String.eqb r adapter) | None => false end
      then (Unauthorized401 (error_message (Unauthorized "risk evaluation realm does not match adapter realm")),
            events, repo)
      else
        let audit_realm := default adapter (realm_id input) in
        let ev := evaluate_risk trig input in
        let record := {| eval_id := fresh; ev_score := score ev; ev_labels := labels ev; ev_outcome := outcome ev;
                         ev_subject := subject input; created_at := now |} in
        let event :=
          {| a_id := "risk_" +:+ fresh; a_realm_id := Some audit_realm; a_actor := default "" (subject input);
             a_action := "risk.evaluate"; a_target_type := "risk_event"; a_target_id := fresh;
             a_reason := "score=" +:+ pretty (score ev) +:+ ",outcome=" +:+ outcome_debug (outcome ev);
             a_created_at := now; m_score := score ev; m_labels := labels ev;
             m_outcome := outcome_debug (outcome ev); m_subject := subject input |} in
        (Evaluated ev, record_risk_event record events, (append_audit_event event repo).2)
  end.

(** An adapter a token authenticates: served by the realm, with an audience the token
    verifies for and its name as the token's subject. *)
Definition vouches (tok realm : string) (realms : list RealmConfig) : Prop :=
  ∃ r a aud, r ∈ realms ∧ id r = realm ∧ enabled (pep_registrations r) = true ∧
    a ∈ registrations (pep_registrations r) ∧ audience a = Some aud ∧ decode_with_aud tok aud = Some (Some (name a)).

Lemma scan_adapters_sound tok realm adapters : ∀ last x,
  scan_adapters tok realm adapters last = Authenticated x →
  x = realm ∧ ∃ a aud, a ∈ adapters ∧ audience a = Some aud ∧ decode_with_aud tok aud = Some (Some (name a)).
Proof.
  induction adapters as [|a rest IH]; intros last x; simpl; [done|].
  assert (∀ last', scan_adapters tok realm rest last' = Authenticated x →
    x = realm ∧ ∃ b aud, b ∈ a :: rest ∧ audience b = Some aud ∧ decode_with_aud tok aud = Some (Some (name b))) as Hrest.
  { intros last' (-> & b & aud & Hb & ?)%IH. split; [done|]. exists b, aud. split; [by right|done]. }
  destruct (audience a) as [aud|] eqn:Ea; [|apply Hrest].
  destruct (decode_with_aud tok aud) as [sub|] eqn:Ed; [|apply Hrest].
  case_bool_decide as Hs; [|apply Hrest]. intros [= <-]. split; [done|]. exists a, aud. split; [left|].
  by rewrite Ed, Hs.
Qed.

Lemma scan_realms_sound tok realms : ∀ last x,
  scan_realms tok realms last = Authenticated x → vouches tok x realms.
Proof.
  induction realms as [|r rest IH]; intros last x; simpl; [done|].
  destruct (scan_adapters _ _ _ _) as [y|last'] eqn:E.
  - intros [= <-]. apply scan_adapters_sound in E as (-> & a & aud & Ha & Haud & Hd).
    unfold served in Ha. destruct (enabled (pep_registrations r)) eqn:En; [|by apply not_elem_of_nil in Ha].
    exists r, a, aud. split_and!; [left|done..].
  - intros (r' & a & aud & Hr & ?)%IH. exists r', a, aud. split; [by right|done].
Qed.

(** Only an authenticated adapter gets an evaluation, for its own realm.  A response
    that carries an evaluation means the bearer token verified for the audience of an
    adapter that a realm with its switch on serves, the token names that adapter, and the
    request named that realm or none; the evaluation is recorded with the adapter's realm
    in the audit event.  Any other response leaves the recorded events and the repository
    as they were. *)
Theorem evaluate_authenticated authorization realms input fresh now events repo resp events' repo' :
  evaluate authorization realms input fresh now events repo = (resp, events', repo') →
  match resp with
  | Unauthorized401 _ => events' = events ∧ repo' = repo
  | Evaluated ev =>
      ev = evaluate_risk trig input ∧
      ∃ tok realm e, bearer_token authorization = Some tok ∧ vouches tok realm realms ∧
        (∀ r, realm_id input = Some r → r = realm) ∧
        repo' = (append_audit_event e repo).2 ∧ a_realm_id e = Some realm ∧ m_score e = score ev ∧
        map eval_id (drop (length events' - 1) events') = [fresh]
  end.
Proof.
  unfold evaluate, authenticate_risk_adapter.
  destruct (bearer_token authorization) as [tok|]; [|by intros [= <- <- <-]].
  destruct (scan_realms tok realms None) as [realm|last] eqn:Es; [|by intros [= <- <- <-]].
  case_match eqn:Er; intros [= <- <- <-]; [done|]. split; [done|].
  assert (∀ r, realm_id input = Some r → r = realm) as Hr.
  { intros r Hr. rewrite Hr in Er. apply negb_false_iff, String.eqb_eq in Er. done. }
  exists tok, realm. eexists. split_and!; [done|by eapply scan_realms_sound|done|done| |done|]; simpl.
  - destruct (realm_id input) as [r|]; [|done]. simpl. by rewrite (Hr r).
  - unfold record_risk_event. generalize (if (1000 <=? length events)%nat then tail events else events) as l.
    intros l. rewrite length_app, Nat.add_sub. by rewrite drop_app_length.
Qed.

End Endpoint.


(** * Properties of scoring *)

(** ** Labels and recorded events *)

Lemma dedupe_from_spec ls : ∀ u, NoDup u →
  NoDup (dedupe_from u ls) ∧ ∀ x, x ∈ dedupe_from u ls ↔ x ∈ u ∨ x ∈ ls.
Proof.
  induction ls as [|l ls IH]; intros u Hu; simpl; [split; [done|set_solver]|].
  destruct (str_in l u) eqn:E.
  - apply str_in_spec in E. destruct (IH u Hu) as [H1 H2]. split; [done|]. intros x. rewrite H2. set_solver.
  - apply str_in_false in E. destruct (IH (u ++ [l])) as [H1 H2].
    { apply NoDup_app. split_and!; [done|set_solver|apply NoDup_singleton]. }
    split; [done|]. intros x. rewrite H2. set_solver.
Qed.

Fixpoint record_all (rs events : list RiskEventRecord) : list RiskEventRecord :=
  match rs with [] => events | r :: rest => record_all rest (record_risk_event r events) end.

(** The event log keeps the last 1000 events: after any sequence of recordings it
    holds exactly the most recent ones, in order, and never more than 1000. *)
Theorem events_keep_last rs :
  record_all rs [] = drop (length rs - 1000) rs ∧ (length (record_all rs []) ≤ 1000)%nat.
Proof.
  assert (∀ rs pre, record_all rs (drop (length pre - 1000) pre)
                    = drop (length (pre ++ rs) - 1000) (pre ++ rs)) as H.
  { clear rs. induction rs as [|r rs IH]; intros pre; cbn [record_all]; [by rewrite app_nil_r|].
    assert (record_risk_event r (drop (length pre - 1000) pre)
            = drop (length (pre ++ [r]) - 1000) (pre ++ [r])) as ->.
    { unfold record_risk_event. rewrite length_drop, length_app. change (length [r]) with 1%nat.
      rewrite drop_app_le by lia. f_equal. destruct (Nat.leb_spec 1000 (length pre - (length pre - 1000))).
      - replace (length pre + 1 - 1000)%nat with (length pre - 1000 + 1)%nat by lia.
        rewrite <- drop_drop. by destruct (drop (length pre - 1000) pre).
      - by replace (length pre + 1 - 1000)%nat with (length pre - 1000)%nat by lia. }
    rewrite IH. by rewrite <- !app_assoc. }
  specialize (H rs []). rewrite app_nil_l, drop_nil in H. rewrite H. split; [done|]. rewrite length_drop. lia.
Qed.

(** ** Outcomes *)

Section Scoring.
Context (trig : Trig).

Lemma evaluate_score a : score (evaluate_risk trig a) = N.min (accumulate trig a).1 100.
Proof. unfold evaluate_risk. by destruct (decide_outcome a _). Qed.

Lemma evaluate_outcome a :
  outcome (evaluate_risk trig a) = decide_outcome a (N.min (accumulate trig a).1 100).
Proof. unfold evaluate_risk. by destruct (decide_outcome a _). Qed.


(** An evaluation is well formed: the score is at most 100, no label repeats, and the
    enforcement fields agree with the outcome: a step-up or quarantine asks for
    phishing-resistant authentication, only a rate limit carries a profile, and every
    restrictive outcome but a step-up is audited at the high level. *)
Theorem evaluation_well_formed input :
  let e := evaluate_risk trig input in
  score e ≤ 100 ∧ NoDup (labels e) ∧
  (required_acr e = Some "phr" ↔ outcome e = StepUp ∨ outcome e = Quarantine) ∧
  (required_amr e = [] ↔ required_acr e = None) ∧
  (pep_force_inspect e = true ↔ outcome e = ForceInspect) ∧
  (pep_force_tunnel e = true ↔ outcome e = ForceTunnel) ∧
  (is_Some (rate_limit_profile e) ↔ outcome e = RateLimit) ∧
  (audit_level e = None ↔ outcome e = Allow ∨ outcome e = StepUp) ∧
  (outcome e = Deny → "admin-review-required" ∈ labels e).
Proof.
  unfold evaluate_risk. set (s := N.min (accumulate trig input).1 100).
  assert (s ≤ 100) as Hs by (unfold s; lia). clearbody s.
  assert (∀ ls, NoDup (dedupe_labels ls) ∧ ∀ x, x ∈ dedupe_labels ls ↔ x ∈ ls) as Hd.
  { intros ls. unfold dedupe_labels. destruct (dedupe_from_spec ls [] ltac:(constructor)) as [H1 H2].
    split; [done|]. intros x. rewrite H2. set_solver. }
  assert (∀ o : option string, is_Some o ↔ o ≠ None) as Hsome by (intros o; symmetry; apply not_eq_None_Some).
  destruct (decide_outcome input s); cbn -[dedupe_labels]; rewrite ?Hsome;
    (split; [exact Hs|]; split; [apply Hd|]; split_and!; try (split; naive_solver); try naive_solver).
  intros _. apply Hd. set_solver.
Qed.

(** Denial is exact and cannot be bought off: an input is denied exactly when its
    capped score reaches 80, its device is compromised, or its posture reports a jailbreak;
    so no combination of authentication signals admits a compromised or rooted device. *)
Theorem deny_exact input :
  outcome (evaluate_risk trig input) = Deny ↔
  80 ≤ score (evaluate_risk trig input) ∨ device_trust input = Compromised ∨
  ∃ p, device_posture input = Some p ∧ jailbreak_or_root p = true.
Proof.
  rewrite evaluate_outcome, evaluate_score.
  assert (deny_required input (N.min (accumulate trig input).1 100) = true ↔
    80 ≤ N.min (accumulate trig input).1 100 ∨ device_trust input = Compromised ∨
    ∃ p, device_posture input = Some p ∧ jailbreak_or_root p = true) as Hd.
  { unfold deny_required. rewrite !orb_true_iff, N.leb_le, bool_decide_eq_true.
    destruct (device_posture input) as [p|]; naive_solver. }
  rewrite <- Hd. unfold decide_outcome. destruct (deny_required _ _); [done|]. by repeat case_match.
Qed.

(** Quarantine follows the caller's flag only: an input is quarantined exactly when it
    is not denied, comes over an anonymous network, and carries the [impossible_travel]
    flag; a journey that [detects_impossible_travel] finds raises the score as the flag
    does, but never leads to quarantine. *)
Theorem quarantine_exact input :
  outcome (evaluate_risk trig input) = Quarantine ↔
  outcome (evaluate_risk trig input) ≠ Deny ∧ impossible_travel input = true ∧ anonymous_network input = true.
Proof.
  rewrite evaluate_outcome.
  unfold decide_outcome. destruct (deny_required _ _); [naive_solver|].
  destruct (impossible_travel input), (anonymous_network input); simpl; [done|..]; split;
    try (by repeat case_match); naive_solver.
Qed.

End Scoring.


(** ** Monotonicity *)

Definition device_rank (d : DeviceTrustState) : N :=
  match d with Managed => 0 | Registered => 1 | UnknownDevice => 2 | Unmanaged => 3 | Compromised => 4 end.

Definition reputation_rank (d : DestinationReputation) : N :=
  match d with KnownGood => 0 | Unknown => 1 | Suspicious => 2 | Malicious => 3 end.

(** What authentication takes off the score. *)
Definition mitigation (input : RiskInput) : N :=
  if phishing_resistant_mfa_satisfied input then 20 else if step_up_succeeded input then 10 else 0.

Definition bool_le (a b : bool) : Prop := a = true → b = true.

Definition posture_le (a b : option DevicePostureSignal) : Prop :=
  match a, b with
  | None, _ => True
  | Some p, Some q => bool_le (encrypted q) (encrypted p) ∧ bool_le (edr q) (edr p)
                      ∧ bool_le (os_outdated p) (os_outdated q) ∧ bool_le (jailbreak_or_root p) (jailbreak_or_root q)
  | Some _, None => False
  end.

Definition tenant_le (a b : option TenantPolicySignal) : Prop :=
  match a, b with
  | None, _ => True
  | Some p, Some q => bool_le (country_refused p) (country_refused q)
                      ∧ (network_allowed p = Some false → network_allowed q = Some false)
                      ∧ (working_hours_allowed p = Some false → working_hours_allowed q = Some false)
  | Some _, None => False
  end.

Definition token_le (a b : option TokenSignal) : Prop :=
  match a, b with
  | None, None => True
  | Some p, Some q => bool_le (sender_constrained q) (sender_constrained p) ∧ bool_le (strong_token q) (strong_token p)
                      ∧ bool_le (older_than 3600 (token_age_seconds p)) (older_than 3600 (token_age_seconds q))
                      ∧ bool_le (older_than 900 (auth_time_age_seconds p)) (older_than 900 (auth_time_age_seconds q))
  | _, _ => False
  end.

Definition pep_le (a b : RiskInput) : Prop :=
  match pep a, pep b with
  | None, _ => True
  | Some p, Some q => destination_category p = destination_category q
                      ∧ reputation_rank (pep_destination_reputation a) ≤ reputation_rank (pep_destination_reputation b)
  | Some _, None => False
  end.

(** [b] is at least as risky as [a] in every signal. *)
Record riskier (trig : Trig) (a b : RiskInput) : Prop := {
  r_new : bool_le (new_device a) (new_device b);
  r_travel : bool_le (impossible_travel a || detects_impossible_travel trig a)
                     (impossible_travel b || detects_impossible_travel trig b);
  r_device : device_rank (device_trust a) ≤ device_rank (device_trust b);
  r_unmanaged : bool_le (unmanaged_device a) (unmanaged_device b);
  r_asn : bool_le (high_risk_asn a) (high_risk_asn b);
  r_anon : bool_le (anonymous_network a) (anonymous_network b);
  r_dest : reputation_rank (destination_reputation a) ≤ reputation_rank (destination_reputation b);
  r_pep : pep_le a b;
  r_mal : bool_le (malicious_destination a) (malicious_destination b);
  r_posture : posture_le (device_posture a) (device_posture b);
  r_tenant : tenant_le (tenant_policy a) (tenant_policy b);
  r_token : token_le (token a) (token b);
  r_mfa : mitigation b ≤ mitigation a
}.

(** [g] raises the score at least as much as [f]. *)
Definition raises (f g : Acc → Acc) : Prop := ∀ x y, x.1 ≤ y.1 → (f x).1 ≤ (g y).1.

Lemma raises_when b c n l m : bool_le b c → raises (when b (add n l)) (when c (add n m)).
Proof. intros Hb x y Hxy. destruct b, c; simpl; try lia. by specialize (Hb eq_refl). Qed.

Lemma raises_lower b c n l m : bool_le c b → raises (when b (lower n l)) (when c (lower n m)).
Proof.
  intros Hb x y Hxy. destruct b, c; simpl; unfold saturating_sub; try lia. by specialize (Hb eq_refl).
Qed.

Lemma score_device_raises d e : device_rank d ≤ device_rank e → raises (score_device d) (score_device e).
Proof. intros H x y Hxy. destruct d, e; simpl in *; lia. Qed.

Lemma score_destination_raises d e : reputation_rank d ≤ reputation_rank e → raises (score_destination d) (score_destination e).
Proof. intros H x y Hxy. destruct d, e; simpl in *; lia. Qed.

Lemma score_pep_destination_raises d e :
  reputation_rank d ≤ reputation_rank e → raises (score_pep_destination d) (score_pep_destination e).
Proof. intros H x y Hxy. destruct d, e; simpl in *; lia. Qed.

Lemma score_category_raises c : raises (score_category c) (score_category c).
Proof. intros x y Hxy. unfold score_category. repeat case_match; simpl; lia. Qed.

Lemma noting_score p o x : (noting p o x).1 = x.1.
Proof. by destruct o. Qed.

(** What an extra signal of an additive kind contributes is not negative. *)
Lemma score_category_up c x : x.1 ≤ (score_category c x).1.
Proof. unfold score_category. repeat case_match; simpl; lia. Qed.

Lemma score_pep_destination_up d x : x.1 ≤ (score_pep_destination d x).1.
Proof. destruct d; simpl; lia. Qed.

Lemma when_add_up b n l x : x.1 ≤ (when b (add n l) x).1.
Proof. destruct b; simpl; lia. Qed.

Lemma score_pep_raises a b : pep_le a b → raises (score_pep a) (score_pep b).
Proof.
  unfold pep_le, score_pep. intros H x y Hxy. destruct (pep a) as [p|], (pep b) as [q|]; try done.
  - destruct H as [Hc Hr]. apply score_pep_destination_raises; [done|]. rewrite Hc.
    destruct (destination_category q); [apply score_category_raises; simpl|]; by rewrite !noting_score.
  - etrans; [|apply score_pep_destination_up]. destruct (destination_category q);
      [etrans; [|apply score_category_up]; simpl|]; by rewrite !noting_score.
Qed.

Lemma score_posture_raises a b : posture_le a b → raises (score_posture a) (score_posture b).
Proof.
  intros H x y Hxy. destruct a as [p|], b as [q|]; simpl in *; try done.
  - destruct H as (H1 & H2 & H3 & H4). apply raises_when; [done|]. apply raises_when; [done|].
    apply raises_when; [|apply raises_when].
    + intros E%negb_true_iff. apply negb_true_iff. destruct (edr q) eqn:E2; [|done]. by rewrite H2 in E.
    + intros E%negb_true_iff. apply negb_true_iff. destruct (encrypted q) eqn:E2; [|done]. by rewrite H1 in E.
    + by destruct (managed p), (managed q).
  - do 4 (etrans; [|apply when_add_up]). by destruct (managed q).
Qed.

Lemma score_tenant_raises a b : tenant_le a b → raises (score_tenant a) (score_tenant b).
Proof.
  intros H x y Hxy. destruct a as [p|], b as [q|]; simpl in *; try done.
  - destruct H as (H1 & H2 & H3). do 2 (apply raises_when; [unfold bool_le; rewrite !bool_decide_eq_true; done|]).
    apply raises_when; [done|]. destruct (allowed_countries p), (allowed_countries q); by rewrite ?noting_score.
  - do 3 (etrans; [|apply when_add_up]). destruct (allowed_countries q); by rewrite ?noting_score.
Qed.

Lemma score_token_raises a b : token_le a b → raises (score_token a) (score_token b).
Proof.
  intros H x y Hxy. destruct a as [p|], b as [q|]; simpl in *; try done.
  destruct H as (H1 & H2 & H3 & H4). apply raises_lower; [done|]. do 2 (apply raises_when; [done|]).
  destruct (sender_constrained p), (sender_constrained q); simpl; unfold saturating_sub; try lia.
  by specialize (H1 eq_refl).
Qed.

Lemma score_mfa_raises a b : mitigation b ≤ mitigation a → raises (score_mfa a) (score_mfa b).
Proof.
  unfold mitigation, score_mfa. intros H x y Hxy.
  repeat case_match; simpl; unfold saturating_sub; lia.
Qed.

Lemma accumulate_mono trig a b : riskier trig a b → (accumulate trig a).1 ≤ (accumulate trig b).1.
Proof.
  intros [H1 H2 H3 H4 H5 H6 H7 H8 H9 H10 H11 H12 H13]. unfold accumulate.
  apply score_mfa_raises; [done|]. apply score_token_raises; [done|]. apply score_tenant_raises; [done|].
  apply score_posture_raises; [done|]. apply raises_when; [done|]. apply score_pep_raises; [done|].
  apply score_destination_raises; [done|]. do 3 (apply raises_when; [done|]).
  apply score_device_raises; [done|]. do 2 (apply raises_when; [done|]). done.
Qed.

Lemma deny_required_outcome a s : deny_required a s = true ↔ decide_outcome a s = Deny.
Proof. unfold decide_outcome. destruct (deny_required a s); [done|]. by repeat case_match. Qed.

(** More risk never scores less: when every signal of [b] is at least as risky as that
    of [a] (device, destination, network, posture, tenant policy, token, authentication),
    [b]'s score is at least [a]'s, and [b] is denied whenever [a] is. *)
Theorem risk_monotone trig a b :
  riskier trig a b →
  score (evaluate_risk trig a) ≤ score (evaluate_risk trig b) ∧
  (outcome (evaluate_risk trig a) = Deny → outcome (evaluate_risk trig b) = Deny).
Proof.
  intros Hr. pose proof (accumulate_mono trig a b Hr) as Ha. rewrite !evaluate_score, !evaluate_outcome.
  split; [lia|]. rewrite <- !deny_required_outcome. unfold deny_required.
  rewrite !orb_true_iff, !N.leb_le, !bool_decide_eq_true. intros [[H|H]|H].
  - left. left. lia.
  - left. right. pose proof (r_device _ _ _ Hr) as Hd. rewrite H in Hd.
    destruct (device_trust b); simpl in Hd; try done; exfalso; revert Hd; by vm_compute.
  - right. pose proof (r_posture _ _ _ Hr) as Hp. unfold posture_le in Hp.
    destruct (device_posture a), (device_posture b); try done. by apply Hp.
Qed.

(** ** Witnesses *)

Definition flat_trig : Trig := {| f_sin x := x; f_cos _ := f64 1; f_asin x := x |}.

Definition risky_input : RiskInput := {|
  realm_id := Some "r1"; subject := Some "alice";
  previous_login := Some {| epoch_seconds := 100; location := Some {| latitude := f64 35; longitude := f64 139 |};
                            ip := None; asn := None |};
  current_login := Some {| epoch_seconds := 3700; location := Some {| latitude := f64 40; longitude := f64 (-74) |};
                           ip := None; asn := None |};
  device_trust := Registered; high_risk_asn := false; anonymous_network := true;
  destination_reputation := KnownGood; phishing_resistant_mfa_satisfied := true;
  step_up_succeeded := false; new_device := false; impossible_travel := false;
  unmanaged_device := false; malicious_destination := false; pep := None;
  device_posture := None; tenant_policy := None; token := None
|}.

(** A detected impossible journey over an anonymous network: a step-up, not a quarantine. *)
Example detected_travel_steps_up :
  detects_impossible_travel flat_trig risky_input = true ∧
  outcome (evaluate_risk flat_trig risky_input) = StepUp.
Proof. split; vm_compute; reflexivity. Qed.

Definition riskier_input : RiskInput := {|
  realm_id := None; subject := None; previous_login := None; current_login := None;
  device_trust := Compromised; high_risk_asn := true; anonymous_network := false;
  destination_reputation := Suspicious; phishing_resistant_mfa_satisfied := false;
  step_up_succeeded := false; new_device := true; impossible_travel := true;
  unmanaged_device := false; malicious_destination := false; pep := None;
  device_posture := None; tenant_policy := None; token := None
|}.

Lemma risk_monotone_witness :
  score (evaluate_risk flat_trig default_input) ≤ score (evaluate_risk flat_trig riskier_input).
Proof.
  apply (risk_monotone flat_trig default_input riskier_input).
  split; vm_compute; (discriminate || done).
Defined.

Definition sample_realms : list RealmConfig :=
  [{| id := "r1"; pep_registrations := {| enabled := true; registrations := [{| name := "edge"; audience := Some "aud" |}] |} |}].

Definition sample_decode (tok aud : string) : option (option string) :=
  if String.eqb tok "tok" && String.eqb aud "aud" then Some (Some "edge") else None.

Lemma evaluate_authenticated_witness :
  vouches sample_decode "tok" "r1" sample_realms ∧
  ∃ ev, (evaluate flat_trig sample_decode (fun e r => (Ok tt, r ++ [e])) (Some "bearer tok") sample_realms
           risky_input "01" 5 [] []).1.1 = Evaluated ev ∧ score ev = 65.
Proof.
  destruct (evaluate flat_trig sample_decode (fun e r => (Ok tt, r ++ [e])) (Some "bearer tok") sample_realms
              risky_input "01" 5 [] []) as [[resp events'] repo'] eqn:E.
  pose proof (evaluate_authenticated flat_trig sample_decode (fun e r => (Ok tt, r ++ [e])) (Some "bearer tok")
                sample_realms risky_input "01" 5 [] [] resp events' repo' E) as H.
  destruct resp as [m|ev]; [vm_compute in E; discriminate|].
  destruct H as (-> & tok & realm & e & Ht & Hv & Hr & _).
  vm_compute in Ht. injection Ht as <-. rewrite (Hr "r1" eq_refl). split; [exact Hv|].
  eexists. split; [reflexivity|]. vm_compute. reflexivity.
Defined.


End Risk.
