(* ===== verification/Continuation.v ===== *)
(** OIDC authorization continuations of the file repository
    (src/qid-storage/src/file/oidc_continuation.rs with the shared rules of
    src/qid-storage/src/oidc_continuation.rs): creation, single-use consumption bound to
    user, client and browser, and bounded cleanup of expired rows.

    [json_object] says of a text whether [serde_json] reads it as a non-empty object; it
    is a parameter.  [written] is the outcome of writing the store; a failed write rolls
    the rows back.  The heap of the cleanup is the one of Push.v. *)

From S2P Require Import Prelude Utf8 Push.

Module Continuation.

Record OidcAuthorizationContinuation : Type := {
  id : string;
  realm_id : string;
  user_id : string;
  client_id : string;
  context_json : string;
  browser_binding_sha256 : string;
  created_at : N;
  expires_at : N
}.

#[global] Instance continuation_eq_dec : EqDecision OidcAuthorizationContinuation.
Proof. solve_decision. Defined.

Record StoredContinuation : Type := { record : OidcAuthorizationContinuation; consumed : bool }.

Abbreviation Rows := (gmap string StoredContinuation).

Definition OIDC_CONTINUATION_CONTEXT_MAX_BYTES : N := 64 * 1024.

Definition invalid : QidError := BadRequest "invalid OIDC authorization continuation".

Definition identifier (s : string) : bool :=
  negb (is_empty_str s) && (String.length s <=? 256)%nat
  && negb (existsb (fun c => Utf8.is_control c || Utf8.is_whitespace c) (Utf8.chars s)).

Section Continuation.
Context (json_object : string → bool).

Definition validate (c : OidcAuthorizationContinuation) : QidResult unit :=
  if negb (forallb identifier [id c; realm_id c; user_id c; client_id c])
     || (expires_at c <=? created_at c) || negb (fits_i64 (expires_at c))
     || (OIDC_CONTINUATION_CONTEXT_MAX_BYTES <? N.of_nat (String.length (context_json c)))
  then Err invalid
  else if json_object (context_json c) then Ok tt else Err invalid.

Definition validate_creation (c : OidcAuthorizationContinuation) (now : N) : QidResult unit :=
  validate c ?; if created_at c =? now then Ok tt else Err invalid.

Definition validate_cleanup (now limit : N) : QidResult unit :=
  if negb ((1 <=? limit) && (limit <=? 1000)) || negb (fits_i64 now)
  then Err (BadRequest "invalid OIDC continuation cleanup bound") else Ok tt.

(** [mutate_oidc_continuation]: an error of the closure leaves the rows it had before, a
    closure without a result writes nothing, a failed write rolls back. *)
Definition mutate_oidc_continuation (written : QidResult unit)
    (f : Rows → QidResult (option OidcAuthorizationContinuation * Rows)) (rows : Rows)
    : QidResult (option OidcAuthorizationContinuation) * Rows :=
  match f rows with
  | Err e => (Err e, rows)
  | Ok (None, rows') => (Ok None, rows')
  | Ok (Some c, rows') =>
      match written with
      | Ok _ => (Ok (Some c), rows')
      | Err e => (Err e, rows)
      end
  end.

Definition create_oidc_continuation (written : QidResult unit) (c : OidcAuthorizationContinuation) (now : N)
    (rows : Rows) : QidResult unit * Rows :=
  match validate_creation c now with
  | Err e => (Err e, rows)
  | Ok _ =>
      let '(r, rows') :=
        mutate_oidc_continuation written (fun rows =>
          if bool_decide (is_Some (rows !! id c)) then Err (Conflict "OIDC continuation ID already exists")
          else Ok (Some c, <[id c := {| record := c; consumed := false |}]> rows)) rows in
      (res_map (fun _ => tt) r, rows')
  end.

Definition consume_oidc_continuation (written : QidResult unit) (realm user client cid binding : string) (now : N)
    (rows : Rows) : QidResult (option OidcAuthorizationContinuation) * Rows :=
  if negb (fits_i64 now) then (Err invalid, rows)
  else
    mutate_oidc_continuation written (fun rows =>
      match rows !! cid with
      | None => Ok (None, rows)
      | Some row =>
          let c := record row in
          validate c ?;
          if negb (String.eqb (id c) cid) || negb (String.eqb (realm_id c) realm)
             || negb (String.eqb (user_id c) user) || negb (String.eqb (client_id c) client)
             || negb (String.eqb (browser_binding_sha256 c) binding) || consumed row
             || (now <? created_at c) || (expires_at c <=? now)
          then Ok (None, rows)
          else Ok (Some c, <[cid := {| record := c; consumed := true |}]> rows)
      end) rows.

(** The loop that collects the expired rows, in the map's order. *)
Definition expired_keys (now : N) (rows : Rows) : QidResult (list (N * string)) :=
  let? keys := res_mapM (fun '(k, row) =>
      validate (record row) ?;
      if negb (String.eqb (id (record row)) k) then Err invalid
      else Ok (if expires_at (record row) <=? now then [(expires_at (record row), k)] else []))
    (map_to_list rows) in
  Ok (concat keys).

Definition cleanup_expired_oidc_continuations (written : QidResult unit) (now limit : N) (rows : Rows)
    : QidResult N * Rows :=
  match validate_cleanup now limit with
  | Err e => (Err e, rows)
  | Ok _ =>
      match expired_keys now rows with
      | Err e => (Err e, rows)
      | Ok keys =>
          let removed := Push.select_oldest keys (N.to_nat limit) in
          let rows' := foldr delete rows removed in
          let deleted := N.of_nat (length removed) in
          if deleted =? 0 then (Ok 0, rows)
          else match written with
               | Ok _ => (Ok deleted, rows')
               | Err e => (Err e, rows)
               end
      end
  end.

(** * Runs *)

Inductive ContOp : Type :=
| Create (c : OidcAuthorizationContinuation) (now : N)
| Consume (realm user client cid binding : string) (now : N)
| Cleanup (now limit : N).

Inductive Event : Type :=
| Created (cid : string)
| Consumed (c : OidcAuthorizationContinuation)
| Quiet.

Definition perform (o : ContOp) (written : QidResult unit) (rows : Rows) : Event * Rows :=
  match o with
  | Create c now =>
      let '(r, rows') := create_oidc_continuation written c now rows in
      (match r with Ok _ => Created (id c) | Err _ => Quiet end, rows')
  | Consume realm user client cid binding now =>
      let '(r, rows') := consume_oidc_continuation written realm user client cid binding now rows in
      (match r with Ok (Some c) => Consumed c | _ => Quiet end, rows')
  | Cleanup now limit => let '(_, rows') := cleanup_expired_oidc_continuations written now limit rows in (Quiet, rows')
  end.

Fixpoint run (os : list (ContOp * QidResult unit)) (rows : Rows) : list Event * Rows :=
  match os with
  | [] => ([], rows)
  | (o, written) :: rest =>
      let '(e, r1) := perform o written rows in
      let '(es, r2) := run rest r1 in (e :: es, r2)
  end.

Definition creations (x : string) (es : list Event) : nat :=
  length (List.filter (fun e => match e with Created y => String.eqb y x | _ => false end) es).
Definition consumptions (x : string) (es : list Event) : nat :=
  length (List.filter (fun e => match e with Consumed c => String.eqb (id c) x | _ => false end) es).

(** 1 while [x] can still be consumed. *)
Definition open (x : string) (rows : Rows) : nat :=
  match rows !! x with Some row => if consumed row then 0%nat else 1%nat | None => 0%nat end.

(** * Single use *)

Lemma mutate_continuation_cases written f rows r rows' :
  mutate_oidc_continuation written f rows = (r, rows') →
  rows' = rows ∧ (∀ c, r ≠ Ok (Some c)) ∨
  (∃ o, f rows = Ok (o, rows') ∧ r = Ok o).
Proof.
  unfold mutate_oidc_continuation. destruct (f rows) as [[[c|] rs]|e] eqn:E.
  - destruct written; intros [= <- <-]; [right; eauto|by left].
  - intros [= <- <-]. right. eauto.
  - intros [= <- <-]. by left.
Qed.

(** What a successful consumption implies. *)
Lemma consume_Some written realm user client cid binding now rows c rows' :
  consume_oidc_continuation written realm user client cid binding now rows = (Ok (Some c), rows') →
  rows !! cid = Some {| record := c; consumed := false |} ∧
  rows' = <[cid := {| record := c; consumed := true |}]> rows ∧
  id c = cid ∧ realm_id c = realm ∧ user_id c = user ∧ client_id c = client ∧
  browser_binding_sha256 c = binding ∧ created_at c ≤ now < expires_at c.
Proof.
  unfold consume_oidc_continuation. destruct (negb (fits_i64 now)); [done|].
  intros [[_ H]|(o & H & [= <-])]%mutate_continuation_cases; [by destruct (H c)|].
  destruct (rows !! cid) as [row|] eqn:E; [|done].
  apply res_bind_Ok in H as ([] & _ & H). destruct (_ || _) eqn:Ec in H; [done|].
  injection H as <- <-. rewrite !orb_false_iff, !negb_false_iff, !String.eqb_eq, N.ltb_ge, N.leb_gt in Ec.
  destruct row as [c b]. cbn in *. destruct Ec as (((((((? & ?) & ?) & ?) & ?) & ->) & ?) & ?). done.
Qed.

Lemma consume_quiet written realm user client cid binding now rows r rows' :
  consume_oidc_continuation written realm user client cid binding now rows = (r, rows') →
  (∀ c, r ≠ Ok (Some c)) → rows' = rows.
Proof.
  unfold consume_oidc_continuation. destruct (negb (fits_i64 now)); [by intros [= _ <-]|].
  intros [[-> _]|(o & H & ->)]%mutate_continuation_cases Hn; [done|].
  destruct (rows !! cid) as [row|]; [|by injection H as _ <-].
  apply res_bind_Ok in H as ([] & _ & H). destruct (_ || _) in H; injection H as <- <-; [done|].
  by destruct (Hn (record row)).
Qed.

Lemma create_cases written c now rows r rows' :
  create_oidc_continuation written c now rows = (r, rows') →
  (is_ok r = false ∧ rows' = rows) ∨
  (r = Ok tt ∧ rows !! id c = None ∧ rows' = <[id c := {| record := c; consumed := false |}]> rows).
Proof.
  unfold create_oidc_continuation. destruct (validate_creation c now) as [[]|e]; [|intros [= <- <-]; by left].
  destruct (mutate_oidc_continuation _ _ _) as [r0 rows0] eqn:E. intros [= <- <-].
  unfold mutate_oidc_continuation in E. case_bool_decide as Hs; [injection E as <- <-; by left|].
  rewrite <- eq_None_not_Some in Hs. destruct written; injection E as <- <-; [right|by left]. done.
Qed.

Lemma lookup_foldr_delete (rows : Rows) ks k :
  foldr delete rows ks !! k = if decide (k ∈ ks) then None else rows !! k.
Proof.
  induction ks as [|j ks IH]; cbn [foldr]; [done|]. destruct (decide (k = j)) as [->|Hne].
  - rewrite lookup_delete_eq, decide_True by set_solver. done.
  - rewrite lookup_delete_ne, IH by done. repeat case_decide; set_solver.
Qed.

Lemma cleanup_rows written now limit rows r rows' :
  cleanup_expired_oidc_continuations written now limit rows = (r, rows') →
  rows' = rows ∨ ∃ keys, expired_keys now rows = Ok keys ∧ rows' = foldr delete rows (Push.select_oldest keys (N.to_nat limit)).
Proof.
  unfold cleanup_expired_oidc_continuations. destruct (validate_cleanup now limit); [|intros [= _ <-]; by left].
  destruct (expired_keys now rows) as [keys|]; [|intros [= _ <-]; by left].
  case_match; [intros [= _ <-]; by left|]. destruct written; intros [= _ <-]; [right; eauto|by left].
Qed.

Lemma perform_open x o written rows e rows' :
  perform o written rows = (e, rows') →
  (consumptions x [e] + open x rows' ≤ open x rows + creations x [e])%nat.
Proof.
  unfold consumptions, creations. destruct o as [c now|realm user client cid binding now|now limit]; cbn.
  - destruct (create_oidc_continuation written c now rows) as [r rs] eqn:E. intros [= <- <-].
    apply create_cases in E as [[Hr ->]|(-> & Hn & ->)]; [destruct r; [done|]; cbn; lia|]. cbn.
    unfold open. destruct (String.eqb_spec (id c) x) as [<-|Hne]; cbn.
    + rewrite lookup_insert_eq, Hn. cbn. lia.
    + rewrite lookup_insert_ne by done. lia.
  - destruct (consume_oidc_continuation _ _ _ _ _ _ _ _) as [r rs] eqn:E. intros [= <- <-].
    destruct r as [[c|]|e]; [|apply consume_quiet in E as ->; [cbn; lia|done]..].
    apply consume_Some in E as (Hc & -> & Hid & _). cbn. rewrite Hid. unfold open.
    destruct (String.eqb_spec cid x) as [<-|Hne]; cbn.
    + rewrite lookup_insert_eq, Hc. cbn. lia.
    + rewrite lookup_insert_ne by done. lia.
  - destruct (cleanup_expired_oidc_continuations written now limit rows) as [r rs] eqn:E. intros [= <- <-].
    apply cleanup_rows in E as [->|(keys & _ & ->)]; [cbn; lia|]. cbn. unfold open.
    rewrite lookup_foldr_delete. case_decide; repeat case_match; lia.
Qed.

(** A continuation is consumed at most once.  Over any sequence of creations,
    consumption attempts and cleanups, with any writes failing, the successful
    consumptions of an identifier never outnumber its successful creations, even though
    cleanup drops the tombstones of expired rows. *)
Theorem continuation_single_use os es rows x :
  run os ∅ = (es, rows) → (consumptions x es ≤ creations x es)%nat.
Proof.
  assert (∀ os rows es rows', run os rows = (es, rows') →
    (consumptions x es + open x rows' ≤ open x rows + creations x es)%nat) as H.
  { clear. induction os as [|[o w] os IH]; intros rows es rows' Hr; [injection Hr as <- <-; cbn; lia|].
    cbn in Hr. destruct (perform o w rows) as [e r1] eqn:Ep. destruct (run os r1) as [es1 r2] eqn:Er.
    injection Hr as <- <-. apply IH in Er. pose proof (perform_open x _ _ _ _ _ Ep) as Hp.
    change (e :: es1) with ([e] ++ es1). unfold consumptions, creations in *.
    rewrite !List.filter_app, !length_app. lia. }
  intros Hr. apply H in Hr. unfold open in Hr at 2. rewrite lookup_empty in Hr. lia.
Qed.

(** A consumption is bound to its request.  It succeeds only for an unconsumed row whose
    realm, user, client and browser binding are the ones presented, within its lifetime;
    it marks exactly that row; and any other outcome, a failed write included, leaves
    every row as it was. *)
Theorem consumption_bound written realm user client cid binding now rows r rows' :
  consume_oidc_continuation written realm user client cid binding now rows = (r, rows') →
  match r with
  | Ok (Some c) =>
      rows !! cid = Some {| record := c; consumed := false |} ∧
      rows' = <[cid := {| record := c; consumed := true |}]> rows ∧
      id c = cid ∧ realm_id c = realm ∧ user_id c = user ∧ client_id c = client ∧
      browser_binding_sha256 c = binding ∧ created_at c ≤ now < expires_at c
  | _ => rows' = rows
  end.
Proof.
  intros H. destruct r as [[c|]|e]; [by apply consume_Some in H|by eapply consume_quiet..].
Qed.

(** * Cleanup *)

Lemma key_leb_total a b : Push.key_leb a b = false → Push.key_leb b a = true.
Proof.
  unfold Push.key_leb. rewrite (N.compare_antisym a.1 b.1).
  destruct (a.1 ?= b.1); simpl; [apply str_leb_total|done..].
Qed.

Lemma key_leb_spec a b : Push.key_leb a b = true ↔ a.1 < b.1 ∨ a.1 = b.1 ∧ str_leb a.2 b.2 = true.
Proof.
  unfold Push.key_leb. destruct (N.compare_spec a.1 b.1) as [E|E|E].
  - split; [intros H; by right|intros [H|[_ H]]; [lia|done]].
  - split; [intros _; by left|done].
  - split; [done|intros [H|[H _]]; lia].
Qed.

Lemma key_leb_trans a b c : Push.key_leb a b = true → Push.key_leb b c = true → Push.key_leb a c = true.
Proof.
  rewrite !key_leb_spec. intros [H1|[H1 S1]] [H2|[H2 S2]]; [left; lia..|right].
  split; [lia|by eapply str_leb_trans].
Qed.

Lemma key_leb_antisym a b : Push.key_leb a b = true → Push.key_leb b a = true → a = b.
Proof.
  rewrite !key_leb_spec. intros [H1|[H1 S1]] [H2|[H2 S2]]; [lia..|].
  destruct a, b. cbn in *. f_equal; [done|by apply str_leb_antisym].
Qed.

Section Heap.
Let insert := sort_insert Push.key_leb.

(** Inserting below the last element keeps it last; inserting above a whole prefix leaves
    the prefix. *)
Lemma insert_before_last x p l : Push.key_leb x l = true → insert x (p ++ [l]) = insert x p ++ [l].
Proof.
  intros Hx. unfold insert. induction p as [|y p IH]; simpl; [by rewrite Hx|].
  case_match; [done|]. by rewrite IH.
Qed.

Lemma insert_within x p l q : Push.key_leb x l = true → insert x (p ++ l :: q) = insert x (p ++ [l]) ++ q.
Proof.
  intros Hx. unfold insert. induction p as [|y p IH]; simpl; [by rewrite Hx|].
  case_match; simpl; [by rewrite <- app_assoc|]. by rewrite IH.
Qed.

Lemma insert_beyond x p q : (∀ y, y ∈ p → Push.key_leb x y = false) → insert x (p ++ q) = p ++ insert x q.
Proof.
  intros Hx. unfold insert. induction p as [|y p IH]; simpl; [done|].
  rewrite (Hx y) by left. f_equal. apply IH. intros z Hz. apply Hx. by right.
Qed.

Lemma insert_length x l : length (insert x l) = S (length l).
Proof. unfold insert. by rewrite (Permutation_length (sort_insert_perm _ x l)). Qed.

(** One step of the bounded heap is one step of an unbounded sort, cut at the limit. *)
Lemma heap_step_take limit s x :
  (0 < limit)%nat → StronglySorted (fun a b => Push.key_leb a b = true) s → x ∉ s →
  Push.heap_step limit (take limit s) x = take limit (insert x s).
Proof.
  intros Hlim Hs Hx. unfold Push.heap_step. rewrite length_take.
  destruct (Nat.ltb_spec (limit `min` length s) limit) as [Hl|Hl].
  - rewrite take_ge by lia. symmetry. apply take_ge. rewrite insert_length. lia.
  - assert (∃ p l, take limit s = p ++ [l] ∧ length p = (limit - 1)%nat) as (p & l & Et & Hp).
    { pose proof (length_take s limit) as Ht. destruct (take limit s) as [|t y _] using rev_ind; [simpl in Ht; lia|].
      exists y, t. split; [done|]. rewrite length_app in Ht. simpl in Ht. lia. }
    assert (s = p ++ l :: drop limit s) as Es.
    { rewrite <- (take_drop limit s) at 1. by rewrite Et, <- app_assoc. }
    rewrite Et, last_snoc. unfold Push.key_ltb. destruct (Push.key_leb l x) eqn:Elx; simpl.
    + rewrite Es at 1. replace (p ++ l :: drop limit s) with ((p ++ [l]) ++ drop limit s) by by rewrite <- app_assoc.
      rewrite insert_beyond.
      * rewrite take_app_le by (rewrite length_app; simpl; lia). symmetry. apply take_ge. rewrite length_app. simpl. lia.
      * intros y Hy. destruct (Push.key_leb x y) eqn:Exy; [|done]. exfalso.
        assert (Push.key_leb y l = true) as Hyl.
        { apply elem_of_app in Hy as [Hy| ->%list_elem_of_singleton].
          - apply (sorted_take_drop (fun a b => Push.key_leb a b = true) (length p) s); [done|rewrite Es..].
            + by rewrite take_app_length.
            + rewrite drop_app_length. left.
          - destruct (Push.key_leb l l) eqn:E; [done|]. by rewrite (key_leb_total _ _ E) in E. }
        assert (x = l) as -> by (apply key_leb_antisym; [by eapply key_leb_trans|done]).
        apply Hx. rewrite Es. set_solver.
    + rewrite removelast_last. apply key_leb_total in Elx. rewrite Es, insert_within, insert_before_last by done.
      fold (insert x p). rewrite <- app_assoc, take_app_le by (rewrite insert_length; lia).
      symmetry. apply take_ge. rewrite insert_length. lia.
Qed.

End Heap.


Lemma insert_sort x cs : sort_insert Push.key_leb x (sort_by Push.key_leb cs) = sort_by Push.key_leb (cs ++ [x]).
Proof.
  apply (StronglySorted_unique_strong (fun a b => Push.key_leb a b = true)).
  - intros a b _ _. apply key_leb_antisym.
  - apply (sort_by_sorted Push.key_leb (x :: cs) key_leb_total key_leb_trans).
  - apply sort_by_sorted; [apply key_leb_total|apply key_leb_trans].
  - rewrite sort_insert_perm, !sort_by_perm. symmetry. apply (Permutation_app_comm cs [x]).
Qed.

Lemma heap_fold_take limit cs :
  (0 < limit)%nat → NoDup cs → foldl (Push.heap_step limit) [] cs = take limit (sort_by Push.key_leb cs).
Proof.
  intros Hl. induction cs as [|x cs IH] using rev_ind; intros Hn; [by destruct limit|].
  apply NoDup_app in Hn as (Hn & Hx & _). rewrite foldl_app. cbn [foldl]. rewrite IH, heap_step_take, insert_sort by
    (done || (apply sort_by_sorted; [apply key_leb_total|apply key_leb_trans])
     || (rewrite elem_of_sort_by; intros Hin; apply (Hx x Hin); left)).
  done.
Qed.

(** The bounded heap is a sort cut at the limit: feeding distinct keys in any order to
    the heap of at most [limit] elements leaves exactly the [limit] smallest, in order. *)
Theorem heap_selects_oldest limit cs :
  (0 < limit)%nat → NoDup cs →
  Push.select_oldest cs limit = map snd (take limit (sort_by Push.key_leb cs)).
Proof. intros Hl Hn. unfold Push.select_oldest. by rewrite heap_fold_take. Qed.

(** Which keys the scan of the rows collects. *)
Lemma expired_keys_spec now rows keys :
  expired_keys now rows = Ok keys →
  NoDup (map snd keys) ∧ (∀ e k, (e, k) ∈ keys ↔ ∃ row, rows !! k = Some row ∧ expires_at (record row) = e ∧ e ≤ now).
Proof.
  unfold expired_keys. intros (kss & Hm & [= <-])%res_bind_Ok. apply res_mapM_Ok in Hm.
  set (key := fun p : string * StoredContinuation =>
    if expires_at (record p.2) <=? now then [(expires_at (record p.2), p.1)] else []).
  assert (kss = map key (map_to_list rows)) as ->.
  { clear -Hm. induction Hm as [|[k row] ks l kss H _ IH]; [done|]. cbn. rewrite <- IH. f_equal.
    apply res_bind_Ok in H as (_ & _ & H). destruct (negb _) in H; [done|]. by injection H as <-. }
  assert (∀ e k, (e, k) ∈ concat (map key (map_to_list rows)) ↔
    ∃ row, rows !! k = Some row ∧ expires_at (record row) = e ∧ e ≤ now) as Hin.
  { intros e k. rewrite elem_of_concat_map. split.
    - intros ([k' row] & Hr%elem_of_map_to_list & H). unfold key in H. cbn in H.
      destruct (N.leb_spec (expires_at (record row)) now); [|by apply not_elem_of_nil in H].
      apply list_elem_of_singleton in H as [= -> ->]. eauto.
    - intros (row & Hr & <- & He). exists (k, row). split; [by apply elem_of_map_to_list|]. unfold key. cbn.
      rewrite (proj2 (N.leb_le _ _) He). left. }
  split; [|exact Hin]. clear Hin Hm.
  assert (sublist (snd <$> concat (map key (map_to_list rows))) ((map_to_list rows).*1)) as Hsub.
  { generalize (map_to_list rows) as l. induction l as [|[k row] l IH]; [done|]. cbn. unfold key at 1. cbn.
    case_match; cbn; by constructor. }
  eapply sublist_NoDup; [|exact Hsub]. apply NoDup_fst_map_to_list.
Qed.

Lemma cleanup_Ok written now limit rows n rows' :
  cleanup_expired_oidc_continuations written now limit rows = (Ok n, rows') →
  ∃ keys, expired_keys now rows = Ok keys ∧ 1 ≤ limit ∧
    n = N.of_nat (length (Push.select_oldest keys (N.to_nat limit))) ∧
    rows' = foldr delete rows (Push.select_oldest keys (N.to_nat limit)).
Proof.
  unfold cleanup_expired_oidc_continuations, validate_cleanup.
  destruct (N.leb_spec 1 limit) as [Hl|]; cbn [andb negb orb]; [|done].
  destruct (negb (limit <=? 1000) || negb (fits_i64 now)); [done|].
  destruct (expired_keys now rows) as [keys|e]; [|done].
  intros H. exists keys. split; [done|]. split; [done|]. revert H.
  generalize (Push.select_oldest keys (N.to_nat limit)) as removed. intros removed H. destruct (N.eqb_spec (N.of_nat (length removed)) 0) as [E|].
  - injection H as <- <-. destruct removed; [by split|]. simpl in E. lia.
  - destruct written; [|done]. by injection H as <- <-.
Qed.

(** Cleanup is bounded and removes the oldest first.  A cleanup that reports [n]
    removed [n] rows, at most the limit, all expired; every other row stays; no remaining
    expired row is older than a removed one; and when it removed fewer than the limit, no
    expired row is left. *)
Theorem cleanup_bounded written now limit rows n rows' :
  cleanup_expired_oidc_continuations written now limit rows = (Ok n, rows') →
  ∃ removed, NoDup removed ∧ n = N.of_nat (length removed) ∧ n ≤ limit ∧
    (∀ k, rows' !! k = if decide (k ∈ removed) then None else rows !! k) ∧
    (∀ k, k ∈ removed → ∃ row, rows !! k = Some row ∧ expires_at (record row) ≤ now) ∧
    (∀ k row j rowj, k ∈ removed → rows !! k = Some row → rows' !! j = Some rowj → expires_at (record rowj) ≤ now →
       expires_at (record row) ≤ expires_at (record rowj)) ∧
    (n < limit → ∀ j rowj, rows' !! j = Some rowj → now < expires_at (record rowj)).
Proof.
  intros (keys & Hk & Hlim & -> & ->)%cleanup_Ok. destruct (expired_keys_spec _ _ _ Hk) as [Hids Hkeys].
  pose proof (NoDup_fmap_1 snd keys Hids) as Hnd. unfold Push.select_oldest. rewrite heap_fold_take by (done || lia).
  set (sorted := sort_by Push.key_leb keys).
  assert (∀ e k, (e, k) ∈ sorted ↔ ∃ row, rows !! k = Some row ∧ expires_at (record row) = e ∧ e ≤ now) as Hsorted.
  { intros e k. unfold sorted. by rewrite elem_of_sort_by, Hkeys. }
  assert (∀ k row, rows !! k = Some row → expires_at (record row) ≤ now →
    k ∉ map snd (take (N.to_nat limit) sorted) → (expires_at (record row), k) ∈ drop (N.to_nat limit) sorted) as Hdrop.
  { intros k row Hrow He Hn. assert ((expires_at (record row), k) ∈ sorted) as Hin by (apply Hsorted; eauto).
    rewrite <- (take_drop (N.to_nat limit) sorted) in Hin. apply elem_of_app in Hin as [Hin|]; [|done].
    destruct Hn. apply elem_of_map. by exists (expires_at (record row), k). }
  assert (∀ k, k ∈ map snd (take (N.to_nat limit) sorted) → ∃ e, (e, k) ∈ take (N.to_nat limit) sorted ∧ (e, k) ∈ sorted) as Htake.
  { intros k ([e k'] & -> & Hin)%elem_of_map. exists e. split; [done|].
    eapply elem_of_submseteq; [exact Hin|]. apply sublist_submseteq, sublist_take. }
  exists (map snd (take (N.to_nat limit) sorted)). split_and!.
  - eapply sublist_NoDup; [|rewrite <- firstn_map; apply sublist_take]. unfold sorted. by rewrite sort_by_perm.
  - done.
  - rewrite length_map, length_take. lia.
  - intros k. apply lookup_foldr_delete.
  - intros k (e & _ & (row & Hr & <- & He)%Hsorted)%Htake. eauto.
  - intros k row j rowj (e & Hin & (row' & Hr' & <- & He)%Hsorted)%Htake Hr Hj Hje.
    rewrite Hr in Hr'. injection Hr' as <-. rewrite lookup_foldr_delete in Hj. case_decide; [done|].
    pose proof (Hdrop _ _ Hj Hje ltac:(done)) as Hd.
    pose proof (sorted_take_drop _ _ _ _ _ (sort_by_sorted Push.key_leb keys key_leb_total key_leb_trans) Hin Hd) as Ho.
    apply key_leb_spec in Ho. cbn in Ho. lia.
  - intros Hn j rowj Hj. rewrite lookup_foldr_delete in Hj. case_decide; [done|]. apply N.lt_nge. intros Hje.
    pose proof (Hdrop _ _ Hj Hje ltac:(done)) as Hd. rewrite length_map, length_take in Hn.
    rewrite drop_ge in Hd by lia. by apply not_elem_of_nil in Hd.
Qed.


End Continuation.

(** ** Witnesses *)

Definition ex_cont (k : string) (expires : N) : OidcAuthorizationContinuation :=
  {| id := k; realm_id := "r"; user_id := "u"; client_id := "c"; context_json := "{}"; browser_binding_sha256 := "b";
     created_at := 10; expires_at := expires |}.

Definition ex_ops : list (ContOp * QidResult unit) :=
  [(Create (ex_cont "x" 50) 10, Ok tt); (Consume "r" "u" "c" "x" "wrong" 20, Ok tt);
   (Consume "r" "u" "c" "x" "b" 20, Err (Storage "disk full")); (Consume "r" "u" "c" "x" "b" 21, Ok tt);
   (Consume "r" "u" "c" "x" "b" 22, Ok tt); (Cleanup 60 5, Ok tt)].

Lemma continuation_single_use_witness :
  consumptions "x" (run (fun _ => true) ex_ops ∅).1 = 1%nat ∧
  (consumptions "x" (run (fun _ => true) ex_ops ∅).1 ≤ creations "x" (run (fun _ => true) ex_ops ∅).1)%nat.
Proof.
  split; [vm_compute; reflexivity|].
  apply (continuation_single_use (fun _ => true) ex_ops _ (run (fun _ => true) ex_ops ∅).2).
  by destruct (run (fun _ => true) ex_ops ∅).
Defined.

Definition ex_rows : gmap string StoredContinuation :=
  (run (fun _ => true) [(Create (ex_cont "x" 50) 10, Ok tt); (Create (ex_cont "y" 40) 10, Ok tt);
                        (Create (ex_cont "z" 90) 10, Ok tt)] ∅).2.

Lemma consumption_bound_witness :
  ∃ c, (consume_oidc_continuation (fun _ => true) (Ok tt) "r" "u" "c" "x" "b" 20 ex_rows).1 = Ok (Some c)
       ∧ user_id c = "u" ∧ created_at c ≤ 20.
Proof.
  destruct (consume_oidc_continuation (fun _ => true) (Ok tt) "r" "u" "c" "x" "b" 20 ex_rows) as [r rows'] eqn:E.
  pose proof (consumption_bound (fun _ => true) (Ok tt) "r" "u" "c" "x" "b" 20 ex_rows r rows' E) as H.
  assert (r = Ok (Some (ex_cont "x" 50))) as -> by (vm_compute in E; injection E as <- _; reflexivity).
  destruct H as (_ & _ & _ & _ & Hu & _ & _ & Ht & _). exists (ex_cont "x" 50).
  split; [reflexivity|]. split; [exact Hu|exact Ht].
Defined.

Lemma heap_selects_oldest_witness : Push.select_oldest [(5, "a"); (2, "b"); (9, "c"); (2, "a")] 2 = ["a"; "b"].
Proof.
  rewrite (heap_selects_oldest 2 [(5, "a"); (2, "b"); (9, "c"); (2, "a")]); [vm_compute; reflexivity|lia|].
  repeat (constructor; [set_solver|]). constructor.
Defined.

Lemma cleanup_bounded_witness :
  ∃ removed : list string, NoDup removed ∧ length removed = 1%nat ∧
    (cleanup_expired_oidc_continuations (fun _ => true) (Ok tt) 60 1 ex_rows).2 !! "y" = None.
Proof.
  destruct (cleanup_bounded (fun _ => true) (Ok tt) 60 1 ex_rows 1
    (cleanup_expired_oidc_continuations (fun _ => true) (Ok tt) 60 1 ex_rows).2) as (removed & Hn & Hl & _).
  - assert ((cleanup_expired_oidc_continuations (fun _ => true) (Ok tt) 60 1 ex_rows).1 = Ok 1) as E by (vm_compute; reflexivity).
    destruct (cleanup_expired_oidc_continuations (fun _ => true) (Ok tt) 60 1 ex_rows). cbn in E. by rewrite E.
  - exists removed. split; [exact Hn|]. split; [lia|vm_compute; reflexivity].
Defined.

End Continuation.
