(* ===== verification/Accounts.v ===== *)
(** Accounts of the file repository: users, passwords, clients, sessions, WebAuthn and TOTP
    credentials and devices, and the deletion of users and realms across every table
    (src/qid-storage/src/file/user.rs, realm.rs, session.rs, credential.rs, client.rs,
    device.rs, with insert.rs and src/qid-storage/src/ownership.rs).

    The store is composed of the token tables of Tokens.v, the push tables of Push.v, the
    continuations of Continuation.v and the tables below; the tables of governance, audit,
    administration and billing, which no operation here touches, are not part of it.  A record
    another component interprets is represented by the fields these operations read and an
    opaque body of type [J]: the five CIAM tables and the fourteen tables that only realm
    deletion touches are indexed by an enumeration of their names.  An operation takes the
    outcome of the final [save]. *)

From S2P Require Import Prelude Utf8 Push Tokens Continuation.

Module Accounts.

(** * Data *)

Record User : Type := {
  u_id : string; u_realm_id : string; email : option string; email_verified : bool;
  display_name : option string; failed_login_attempts : N; locked_until : option N; org : option string
}.

Record PasswordCredential : Type := { pw_user_id : string; pw_hash : string; pw_algorithm : string }.

Record WebAuthnCredential : Type := {
  wa_id : string; wa_user_id : string; credential_id : list N; public_key : list N; counter : N;
  aaguid : list N; wa_device_name : option string; wa_created_at : N
}.

Record TotpCredential : Type := {
  t_id : string; t_user_id : string; secret : string; algorithm : string; digits : N; period : N;
  t_enabled : bool; last_used_step : option N; t_created_at : N
}.

Inductive CiamTable : Type :=
  Profiles | ConsentGrants | VerificationChallenges | IdentityLinks | PasswordResetTokens.

Inductive RealmTable : Type :=
| ServiceAccounts | PolicyBundles | VcCredentialStatuses | ScimUsers | ScimGroups | ScimDevices
| ScimEventSubscriptions | FedcmIdentities | WorkloadIdentities | WorkloadCertificates
| CustomDomains | CiamBrands | AppCatalogEntries | SsfStreams.

(** [Option]'s order: [None] is below every [Some]. *)
Definition opt_leb (a b : option N) : bool :=
  match a, b with None, _ => true | Some _, None => false | Some x, Some y => x <=? y end.
Definition opt_max (a b : option N) : option N := if opt_leb a b then b else a.

Section Accounts.
Context {J : Type}.

Record Client : Type := { c_id : string; c_realm_id : string; client_id : string; c_body : J }.

Record Session : Type := {
  s_id : string; s_realm_id : string; s_user_id : string; auth_time : N; s_acr : option string;
  s_amr : list string; idle_expires_at : N; absolute_expires_at : N; s_revoked : bool; s_created_at : N;
  s_cnf : option J
}.

Record Device : Type := {
  d_id : string; d_user_id : string; d_realm_id : string; registered_at : N; last_seen_at : N; d_body : J
}.

Record Owned : Type := { o_realm_id : string; o_user_id : string; o_body : J }.

Record RealmOwned : Type := { ro_realm_id : string; ro_body : J }.

Record Store : Type := {
  push : Push.PushStore;
  tokens : Tokens.Store (J := J);
  realm_issuers : gmap string string;
  realm_tenants : gmap string string;
  users : gmap string User;
  credentials_password : gmap string PasswordCredential;
  clients : gmap string Client;
  sessions : gmap string Session;
  webauthn_credentials : gmap string (list WebAuthnCredential);
  totp_credentials : gmap string TotpCredential;
  devices : gmap string Device;
  ciam : CiamTable → gmap string Owned;
  realm_tables : RealmTable → gmap string RealmOwned;
  hr_receipts : gmap string (gmap string J);
  ssf_set_replay : gmap string N;
  oidc_continuations : gmap string Continuation.StoredContinuation
}.

Definition set_users (s : Store) m : Store :=
  {| push := push s; tokens := tokens s; realm_issuers := realm_issuers s; realm_tenants := realm_tenants s;
     users := m; credentials_password := credentials_password s; clients := clients s; sessions := sessions s;
     webauthn_credentials := webauthn_credentials s; totp_credentials := totp_credentials s;
     devices := devices s; ciam := ciam s; realm_tables := realm_tables s; hr_receipts := hr_receipts s;
     ssf_set_replay := ssf_set_replay s; oidc_continuations := oidc_continuations s |}.
Definition set_passwords (s : Store) m : Store :=
  {| push := push s; tokens := tokens s; realm_issuers := realm_issuers s; realm_tenants := realm_tenants s;
     users := users s; credentials_password := m; clients := clients s; sessions := sessions s;
     webauthn_credentials := webauthn_credentials s; totp_credentials := totp_credentials s;
     devices := devices s; ciam := ciam s; realm_tables := realm_tables s; hr_receipts := hr_receipts s;
     ssf_set_replay := ssf_set_replay s; oidc_continuations := oidc_continuations s |}.
Definition set_clients (s : Store) m : Store :=
  {| push := push s; tokens := tokens s; realm_issuers := realm_issuers s; realm_tenants := realm_tenants s;
     users := users s; credentials_password := credentials_password s; clients := m; sessions := sessions s;
     webauthn_credentials := webauthn_credentials s; totp_credentials := totp_credentials s;
     devices := devices s; ciam := ciam s; realm_tables := realm_tables s; hr_receipts := hr_receipts s;
     ssf_set_replay := ssf_set_replay s; oidc_continuations := oidc_continuations s |}.
Definition set_sessions (s : Store) m : Store :=
  {| push := push s; tokens := tokens s; realm_issuers := realm_issuers s; realm_tenants := realm_tenants s;
     users := users s; credentials_password := credentials_password s; clients := clients s; sessions := m;
     webauthn_credentials := webauthn_credentials s; totp_credentials := totp_credentials s;
     devices := devices s; ciam := ciam s; realm_tables := realm_tables s; hr_receipts := hr_receipts s;
     ssf_set_replay := ssf_set_replay s; oidc_continuations := oidc_continuations s |}.
Definition set_webauthn (s : Store) m : Store :=
  {| push := push s; tokens := tokens s; realm_issuers := realm_issuers s; realm_tenants := realm_tenants s;
     users := users s; credentials_password := credentials_password s; clients := clients s; sessions := sessions s;
     webauthn_credentials := m; totp_credentials := totp_credentials s;
     devices := devices s; ciam := ciam s; realm_tables := realm_tables s; hr_receipts := hr_receipts s;
     ssf_set_replay := ssf_set_replay s; oidc_continuations := oidc_continuations s |}.
Definition set_totp (s : Store) m : Store :=
  {| push := push s; tokens := tokens s; realm_issuers := realm_issuers s; realm_tenants := realm_tenants s;
     users := users s; credentials_password := credentials_password s; clients := clients s; sessions := sessions s;
     webauthn_credentials := webauthn_credentials s; totp_credentials := m;
     devices := devices s; ciam := ciam s; realm_tables := realm_tables s; hr_receipts := hr_receipts s;
     ssf_set_replay := ssf_set_replay s; oidc_continuations := oidc_continuations s |}.
Definition set_devices (s : Store) m : Store :=
  {| push := push s; tokens := tokens s; realm_issuers := realm_issuers s; realm_tenants := realm_tenants s;
     users := users s; credentials_password := credentials_password s; clients := clients s; sessions := sessions s;
     webauthn_credentials := webauthn_credentials s; totp_credentials := totp_credentials s;
     devices := m; ciam := ciam s; realm_tables := realm_tables s; hr_receipts := hr_receipts s;
     ssf_set_replay := ssf_set_replay s; oidc_continuations := oidc_continuations s |}.

Definition set_continuations (s : Store) m : Store :=
  {| push := push s; tokens := tokens s; realm_issuers := realm_issuers s; realm_tenants := realm_tenants s;
     users := users s; credentials_password := credentials_password s; clients := clients s; sessions := sessions s;
     webauthn_credentials := webauthn_credentials s; totp_credentials := totp_credentials s;
     devices := devices s; ciam := ciam s; realm_tables := realm_tables s; hr_receipts := hr_receipts s;
     ssf_set_replay := ssf_set_replay s; oidc_continuations := m |}.

#[global] Instance user_identity : Tokens.InsertIdentity User := {|
  Tokens.RECORD := "user"; Tokens.IDENTITY := "user email"; Tokens.GLOBAL_IDENTITY := false;
  Tokens.ins_id := u_id; Tokens.identity u := (fun e => (u_realm_id u, e)) <$> email u
|}.

#[global] Instance client_identity : Tokens.InsertIdentity Client := {|
  Tokens.RECORD := "client"; Tokens.IDENTITY := "client id"; Tokens.GLOBAL_IDENTITY := false;
  Tokens.ins_id := c_id; Tokens.identity c := Some (c_realm_id c, client_id c)
|}.

Definition values {A : Type} (m : gmap string A) : list A := map snd (map_to_list m).

(** [ensure_same_binding] *)
Definition ensure_same_binding {A : Type} `{EqDecision A} (incumbent : option A) (incoming : A) (message : string)
    : QidResult unit :=
  match incumbent with
  | Some b => if bool_decide (b = incoming) then Ok tt else Err (Conflict message)
  | None => Ok tt
  end.

(** * Users *)

Definition create_user (saved : QidResult unit) (user : User) (s : Store) : QidResult unit * Store :=
  match Tokens.insert_new (users s) user with
  | Ok m => (saved, set_users s m)
  | Err e => (Err e, s)
  end.

Definition get_user_by_id (uid : string) (s : Store) : option User := users s !! uid.

Definition get_user_by_id_in_realm (realm uid : string) (s : Store) : option User :=
  Tokens.opt_filter (fun u => String.eqb (u_realm_id u) realm) (get_user_by_id uid s).

Definition get_user_by_email (realm e : string) (s : Store) : QidResult (option User) :=
  Tokens.unique_match
    (List.filter (fun u => String.eqb (u_realm_id u) realm && bool_decide (email u = Some e)) (values (users s)))
    "ambiguous user realm/email identity".

Definition list_users_page (realm : string) (offset limit : nat) (s : Store) : list User :=
  take limit (drop offset
    (sort_by (fun a b => str_leb (u_id a) (u_id b))
       (List.filter (fun u => String.eqb (u_realm_id u) realm) (values (users s))))).

Definition email_held_by_another (s : Store) (user : User) : option string :=
  match email user with
  | None => None
  | Some e =>
      if existsb (fun stored => negb (String.eqb (u_id stored) (u_id user))
                                && String.eqb (u_realm_id stored) (u_realm_id user)
                                && bool_decide (email stored = Some e)) (values (users s))
      then Some e else None
  end.

Definition with_realm (user : User) (realm : string) : User :=
  {| u_id := u_id user; u_realm_id := realm; email := email user; email_verified := email_verified user;
     display_name := display_name user; failed_login_attempts := failed_login_attempts user;
     locked_until := locked_until user; org := org user |}.

(** [realm.is_some_and(|realm| incumbent.is_none_or(|r| r != realm))] *)
Definition out_of_scope (scope incumbent : option string) : bool :=
  match scope with
  | Some r => match incumbent with Some r' => negb (String.eqb r' r) | None => true end
  | None => false
  end.

Definition update_user (saved : QidResult unit) (user : User) (realm : option string) (s : Store)
    : QidResult unit * Store :=
  let incumbent := users s !! u_id user in
  if out_of_scope realm (u_realm_id <$> incumbent) then (Err (NotFound ("user " +:+ u_id user)), s)
  else
    let user := with_realm user (match incumbent with Some stored => u_realm_id stored | None => u_realm_id user end) in
    match email_held_by_another s user with
    | Some e => (Err (Conflict ("user email " +:+ e +:+ " already exists in realm " +:+ u_realm_id user)), s)
    | None => (saved, set_users s (<[u_id user := user]> (users s)))
    end.

Definition store_password_credential (saved : QidResult unit) (cred : PasswordCredential) (s : Store)
    : QidResult unit * Store :=
  (saved, set_passwords s (<[pw_user_id cred := cred]> (credentials_password s))).

Definition update_password_credential_in_realm (saved : QidResult unit) (cred : PasswordCredential)
    (realm : string) (s : Store) : QidResult unit * Store :=
  if out_of_scope (Some realm) (u_realm_id <$> users s !! pw_user_id cred)
     || negb (bool_decide (is_Some (credentials_password s !! pw_user_id cred)))
  then (Err (NotFound ("password credential " +:+ pw_user_id cred)), s)
  else (saved, set_passwords s (<[pw_user_id cred := cred]> (credentials_password s))).

Definition get_password_credential (uid : string) (s : Store) : option PasswordCredential :=
  credentials_password s !! uid.

(** * Clients *)

Definition create_client (saved : QidResult unit) (c : Client) (s : Store) : QidResult unit * Store :=
  match Tokens.insert_new (clients s) c with
  | Ok m => (saved, set_clients s m)
  | Err e => (Err e, s)
  end.

Definition update_client (saved : QidResult unit) (c : Client) (s : Store) : QidResult unit * Store :=
  match ensure_same_binding ((fun x => (c_realm_id x, client_id x)) <$> clients s !! c_id c)
          (c_realm_id c, client_id c) "client ID belongs to another identity" with
  | Err e => (Err e, s)
  | Ok _ => (saved, set_clients s (<[c_id c := c]> (clients s)))
  end.

(** [find]: the first match in the map's order. *)
Definition get_client_by_client_id (realm cid : string) (s : Store) : option Client :=
  head (List.filter (fun c => String.eqb (c_realm_id c) realm && String.eqb (client_id c) cid) (values (clients s))).

Definition find_clients_by_client_id (realms : list string) (cid : string) (s : Store) : list Client :=
  List.filter (fun c => String.eqb (client_id c) cid && str_in (c_realm_id c) realms) (values (clients s)).

Definition list_clients_page (realm : string) (offset limit : nat) (s : Store) : list Client :=
  take limit (drop offset
    (sort_by (fun a b => str_leb (c_id a) (c_id b))
       (List.filter (fun c => String.eqb (c_realm_id c) realm) (values (clients s))))).

Definition delete_client (saved : QidResult unit) (realm cid : string) (s : Store) : QidResult unit * Store :=
  (saved,
   match clients s !! cid with
   | Some c => if String.eqb (c_realm_id c) realm then set_clients s (delete cid (clients s)) else s
   | None => s
   end).

(** * Sessions *)

Definition is_active (x : Session) (now : N) : bool :=
  negb (s_revoked x) && (now <=? absolute_expires_at x) && (now <=? idle_expires_at x).

Definition session_update (x : Session) (idle : N) (revoked : bool) : Session :=
  {| s_id := s_id x; s_realm_id := s_realm_id x; s_user_id := s_user_id x; auth_time := auth_time x;
     s_acr := s_acr x; s_amr := s_amr x; idle_expires_at := idle; absolute_expires_at := absolute_expires_at x;
     s_revoked := revoked; s_created_at := s_created_at x; s_cnf := s_cnf x |}.

Definition create_session (saved : QidResult unit) (x : Session) (s : Store) : QidResult unit * Store :=
  match sessions s !! s_id x with
  | Some stored => (Err (BadRequest ("session " +:+ s_id stored +:+ " already exists")), s)
  | None => (saved, set_sessions s (<[s_id x := x]> (sessions s)))
  end.

Definition get_session (sid : string) (s : Store) : option Session := sessions s !! sid.

Definition session_in (sid : string) (scope : option string) (s : Store) : option Session :=
  Tokens.opt_filter (fun x => Tokens.is_none_or scope (fun r => String.eqb (s_realm_id x) r)) (sessions s !! sid).

Definition update_session_idle_expiry (saved : QidResult unit) (sid : string) (idle : N) (scope : option string)
    (s : Store) : QidResult bool * Store :=
  match session_in sid scope s with
  | None => (Ok false, s)
  | Some x => (res_map (fun _ => true) saved,
               set_sessions s (<[sid := session_update x idle (s_revoked x)]> (sessions s)))
  end.

Definition revoke_session (saved : QidResult unit) (sid : string) (scope : option string) (s : Store)
    : QidResult bool * Store :=
  match session_in sid scope s with
  | None => (Ok false, s)
  | Some x =>
      if s_revoked x then (Ok false, s)
      else (res_map (fun _ => true) saved,
            set_sessions s (<[sid := session_update x (idle_expires_at x) true]> (sessions s)))
  end.

(** Sessions of equal [created_at] come in the order of the map. *)
Definition list_sessions (realm : string) (user : option string) (s : Store) : list Session :=
  sort_by (fun a b => s_created_at b <=? s_created_at a)
    (List.filter (fun x => Tokens.is_none_or user (fun u => String.eqb (s_user_id x) u))
       (List.filter (fun x => String.eqb (s_realm_id x) realm) (values (sessions s)))).

(** * WebAuthn and TOTP credentials *)

Definition all_webauthn (s : Store) : list WebAuthnCredential := concat (values (webauthn_credentials s)).

Definition get_webauthn_credentials (uid : string) (s : Store) : QidResult (list WebAuthnCredential) :=
  if bool_decide (NoDup (map credential_id (all_webauthn s)))
  then Ok (default [] (webauthn_credentials s !! uid))
  else Err (Conflict "ambiguous WebAuthn credential ID; repair externally").

Definition store_webauthn_credential (saved : QidResult unit) (cred : WebAuthnCredential) (s : Store)
    : QidResult unit * Store :=
  match Tokens.reject_duplicate_id
          (existsb (fun c => String.eqb (wa_id c) (wa_id cred) || bool_decide (credential_id c = credential_id cred))
             (all_webauthn s))
          ("WebAuthn credential ID conflicts for record " +:+ wa_id cred) with
  | Err e => (Err e, s)
  | Ok _ =>
      (saved, set_webauthn s (<[wa_user_id cred := default [] (webauthn_credentials s !! wa_user_id cred) ++ [cred]]>
                                (webauthn_credentials s)))
  end.

Definition with_counter (c : WebAuthnCredential) (n : N) : WebAuthnCredential :=
  {| wa_id := wa_id c; wa_user_id := wa_user_id c; credential_id := credential_id c; public_key := public_key c;
     counter := n; aaguid := aaguid c; wa_device_name := wa_device_name c; wa_created_at := wa_created_at c |}.

(** [iter_mut().find(|c| c.id == id)]: the first match is changed. *)
Fixpoint bump_first (x : string) (n : N) (cs : list WebAuthnCredential) : list WebAuthnCredential :=
  match cs with
  | [] => []
  | c :: rest => if String.eqb (wa_id c) x then with_counter c (N.max (counter c) n) :: rest
                 else c :: bump_first x n rest
  end.

Definition update_webauthn_credential_counter (saved : QidResult unit) (uid x : string) (n : N) (s : Store)
    : QidResult unit * Store :=
  (saved,
   match webauthn_credentials s !! uid with
   | Some cs => set_webauthn s (<[uid := bump_first x n cs]> (webauthn_credentials s))
   | None => s
   end).

Definition delete_webauthn_credential (saved : QidResult unit) (uid x : string) (s : Store)
    : QidResult unit * Store :=
  (saved,
   match webauthn_credentials s !! uid with
   | Some cs => set_webauthn s (<[uid := List.filter (fun c => negb (String.eqb (wa_id c) x)) cs]>
                                  (webauthn_credentials s))
   | None => s
   end).

Definition with_step (t : TotpCredential) (step : option N) : TotpCredential :=
  {| t_id := t_id t; t_user_id := t_user_id t; secret := secret t; algorithm := algorithm t; digits := digits t;
     period := period t; t_enabled := t_enabled t; last_used_step := step; t_created_at := t_created_at t |}.

Definition replace_preserving_last_used_step (stored replacement : TotpCredential) : TotpCredential :=
  with_step replacement (opt_max (last_used_step stored) (last_used_step replacement)).

Definition store_totp_credential (saved : QidResult unit) (cred : TotpCredential) (s : Store)
    : QidResult unit * Store :=
  match ensure_same_binding (t_user_id <$> totp_credentials s !! t_id cred) (t_user_id cred)
          ("TOTP credential ID " +:+ t_id cred +:+ " belongs to another user") with
  | Err e => (Err e, s)
  | Ok _ =>
      (saved, set_totp s (<[t_id cred := match totp_credentials s !! t_id cred with
                                         | Some stored => replace_preserving_last_used_step stored cred
                                         | None => cred
                                         end]> (totp_credentials s)))
  end.

(** The first match in the map's order. *)
Definition get_totp_credential (uid : string) (s : Store) : option TotpCredential :=
  head (List.filter (fun t => String.eqb (t_user_id t) uid) (values (totp_credentials s))).

Definition consume_totp_step (saved : QidResult unit) (cred : TotpCredential) (step : N) (s : Store)
    : QidResult bool * Store :=
  match totp_credentials s !! t_id cred with
  | None => (Ok false, s)
  | Some stored =>
      if negb (String.eqb (t_user_id stored) (t_user_id cred)) || opt_leb (Some step) (last_used_step stored)
      then (Ok false, s)
      else (res_map (fun _ => true) saved,
            set_totp s (<[t_id cred := with_step stored (Some step)]> (totp_credentials s)))
  end.

(** * Devices *)

Definition register_device (saved : QidResult unit) (d : Device) (s : Store) : QidResult unit * Store :=
  match Tokens.reject_duplicate_id (bool_decide (is_Some (devices s !! d_id d)))
          ("device record ID " +:+ d_id d +:+ " already exists") with
  | Err e => (Err e, s)
  | Ok _ => (saved, set_devices s (<[d_id d := d]> (devices s)))
  end.

Definition get_device (did : string) (s : Store) : option Device := devices s !! did.

Definition get_user_devices (uid : string) (s : Store) : list Device :=
  sort_by (fun a b => registered_at a <=? registered_at b)
    (List.filter (fun d => String.eqb (d_user_id d) uid) (values (devices s))).

Definition seen_at (d : Device) (t : N) : Device :=
  {| d_id := d_id d; d_user_id := d_user_id d; d_realm_id := d_realm_id d; registered_at := registered_at d;
     last_seen_at := t; d_body := d_body d |}.

Definition update_device_last_seen (saved : QidResult unit) (d : Device) (s : Store) : QidResult unit * Store :=
  (saved,
   match devices s !! d_id d with
   | Some stored =>
       if String.eqb (d_realm_id stored) (d_realm_id d) && String.eqb (d_user_id stored) (d_user_id d)
       then set_devices s (<[d_id d := seen_at stored (N.max (last_seen_at stored) (last_seen_at d))]> (devices s))
       else s
   | None => s
   end).

(** * Deletion *)

(** [HashMap::retain] *)
Definition retain {A : Type} (p : string → A → bool) (m : gmap string A) : gmap string A :=
  filter (fun '(k, v) => p k v = true) m.

(** The locals of [remove_auth_state]: membership in the deleted users and realm, and the
    identifiers of the sessions and families that go with them. *)
Definition is_gone (gone : gset string) (u : string) : bool := bool_decide (u ∈ gone).
Definition in_realm (realm : option string) (r : string) : bool := bool_decide (realm = Some r).

Definition gone_sessions (gone : gset string) (realm : option string) (s : Store) : gset string :=
  list_to_set (map s_id (List.filter (fun x => is_gone gone (s_user_id x) || in_realm realm (s_realm_id x))
                           (values (sessions s)))).

Definition among (ids : gset string) (o : option string) : bool :=
  match o with Some x => bool_decide (x ∈ ids) | None => false end.

Definition gone_families (gone : gset string) (realm : option string) (s : Store) : gset string :=
  list_to_set (map Tokens.tf_id
    (List.filter (fun f => is_gone gone (Tokens.tf_user_id f) || in_realm realm (Tokens.tf_realm_id f)
                           || among (gone_sessions gone realm s) (Tokens.tf_session_id f))
       (values (Tokens.token_families (tokens s))))).

(** [remove_auth_state]: the push tables by the function of Push.v, then every other
    table, following the links from sessions to codes and families and from families to
    access tokens before their parents go. *)
Definition remove_auth_state (gone : gset string) (realm : option string) (s : Store) : Store :=
  let kept u r := negb (is_gone gone u) && negb (in_realm realm r) in
  let t := tokens s in
  let gs := gone_sessions gone realm s in
  let gf := gone_families gone realm s in
  let codes := retain (fun _ c => kept (Tokens.ac_user_id c) (Tokens.ac_realm_id c)
                                  && negb (among gs (Tokens.ac_session_id c))) (Tokens.authorization_codes t) in
  let access := retain (fun _ a => kept (Tokens.at_user_id a) (Tokens.at_realm_id a)
                                   && negb (among gf (Tokens.family_id a))) (Tokens.access_tokens t) in
  {| push := Push.push (Push.remove_auth_state gone realm {| Push.users := u_realm_id <$> users s; Push.push := push s |});
     tokens :=
       {| Tokens.authorization_codes := codes;
          Tokens.token_families := retain (fun fid _ => negb (bool_decide (fid ∈ gf))) (Tokens.token_families t);
          Tokens.access_tokens := access;
          Tokens.par_requests := Tokens.par_requests t;
          Tokens.device_authorization_grants :=
            retain (fun _ g => negb (among gone (Tokens.dg_user_id g)) && negb (in_realm realm (Tokens.dg_realm_id g)))
              (Tokens.device_authorization_grants t);
          Tokens.backchannel_authentication_grants :=
            retain (fun _ g => negb (among gone (Tokens.bg_user_id g)) && negb (in_realm realm (Tokens.bg_realm_id g)))
              (Tokens.backchannel_authentication_grants t) |};
     realm_issuers := realm_issuers s;
     realm_tenants := realm_tenants s;
     users := retain (fun u _ => negb (is_gone gone u)) (users s);
     credentials_password := retain (fun u _ => negb (is_gone gone u)) (credentials_password s);
     clients := clients s;
     sessions := retain (fun sid _ => negb (bool_decide (sid ∈ gs))) (sessions s);
     webauthn_credentials := retain (fun u _ => negb (is_gone gone u)) (webauthn_credentials s);
     totp_credentials := retain (fun _ c => negb (is_gone gone (t_user_id c))) (totp_credentials s);
     devices := retain (fun _ d => kept (d_user_id d) (d_realm_id d)) (devices s);
     ciam := fun tb => retain (fun _ o => kept (o_user_id o) (o_realm_id o)) (ciam s tb);
     realm_tables := realm_tables s;
     hr_receipts := hr_receipts s;
     ssf_set_replay := ssf_set_replay s; oidc_continuations := oidc_continuations s |}.

Definition delete_user (saved : QidResult unit) (uid : string) (realm : option string) (s : Store)
    : QidResult unit * Store :=
  if out_of_scope realm (u_realm_id <$> users s !! uid) then (Err (NotFound ("user " +:+ uid)), s)
  else (saved, remove_auth_state {[ uid ]} None s).

(** The character U+001F that separates the parts of a replay key. *)
Definition UNIT_SEPARATOR : string := String (Ascii.ascii_of_N 31) "".

Definition remove_realm (realm : string) (s : Store) : Store :=
  let gone : gset string :=
    list_to_set (map u_id (List.filter (fun u => String.eqb (u_realm_id u) realm) (values (users s)))) in
  let s := remove_auth_state gone (Some realm) s in
  let t := tokens s in
  {| push := push s;
     tokens := Tokens.with_pars t (retain (fun _ p => negb (String.eqb (Tokens.par_realm_id p) realm)) (Tokens.par_requests t));
     realm_issuers := delete realm (realm_issuers s);
     realm_tenants := delete realm (realm_tenants s);
     users := users s; credentials_password := credentials_password s;
     clients := retain (fun _ c => negb (String.eqb (c_realm_id c) realm)) (clients s);
     sessions := sessions s; webauthn_credentials := webauthn_credentials s;
     totp_credentials := totp_credentials s; devices := devices s; ciam := ciam s;
     realm_tables := fun tb => retain (fun _ o => negb (String.eqb (ro_realm_id o) realm)) (realm_tables s tb);
     hr_receipts := delete realm (hr_receipts s);
     ssf_set_replay := retain (fun k _ => negb (starts_with (realm +:+ UNIT_SEPARATOR) k)) (ssf_set_replay s);
     oidc_continuations := oidc_continuations s |}.

(** * Realms

    In immediate mode the change is made on a copy that replaces the store only once it is
    written ([persist_candidate]); [written] is the outcome of the write. *)

Definition persist_candidate (written : QidResult unit) (candidate s : Store) : QidResult unit * Store :=
  match written with
  | Ok _ => (Ok tt, candidate)
  | Err e => (Err e, s)
  end.

Definition add_realm (tenant realm issuer : string) (s : Store) : Store :=
  let s := remove_realm realm s in
  {| push := push s; tokens := tokens s; realm_issuers := <[realm := issuer]> (realm_issuers s);
     realm_tenants := <[realm := tenant]> (realm_tenants s);
     users := users s; credentials_password := credentials_password s; clients := clients s; sessions := sessions s;
     webauthn_credentials := webauthn_credentials s; totp_credentials := totp_credentials s;
     devices := devices s; ciam := ciam s; realm_tables := realm_tables s; hr_receipts := hr_receipts s;
     ssf_set_replay := ssf_set_replay s; oidc_continuations := oidc_continuations s |}.

Definition create_realm (mode : Tokens.FileFlushMode) (written : QidResult unit) (tenant realm issuer : string) (s : Store)
    : QidResult unit * Store :=
  match Tokens.reject_duplicate_id
          (bool_decide (is_Some (realm_issuers s !! realm)) || bool_decide (is_Some (realm_tenants s !! realm))
           || existsb (fun i => String.eqb i issuer) (values (realm_issuers s)))
          "realm ID or issuer already exists" with
  | Err e => (Err e, s)
  | Ok _ =>
      match mode with
      | Tokens.Immediate => persist_candidate written (add_realm tenant realm issuer s) s
      | Tokens.Interval _ => (Ok tt, add_realm tenant realm issuer s)
      end
  end.

Definition get_realm_issuer (realm : string) (s : Store) : option string := realm_issuers s !! realm.
Definition get_realm_tenant (realm : string) (s : Store) : option string := realm_tenants s !! realm.

Definition list_realms (s : Store) : list (string * string) :=
  sort_by (fun a b => str_leb a.1 b.1) (map_to_list (realm_issuers s)).

Definition delete_realm (mode : Tokens.FileFlushMode) (written : QidResult unit) (realm expected_tenant : string)
    (s : Store) : QidResult unit * Store :=
  if negb (bool_decide (realm_tenants s !! realm = Some expected_tenant)) then (Ok tt, s)
  else
    match mode with
    | Tokens.Immediate => persist_candidate written (remove_realm realm s) s
    | Tokens.Interval _ => (Ok tt, remove_realm realm s)
    end.

(** * Ownership

    An abstract account of deletion: a record of the store, the user and realm it names,
    and the records it hangs on. *)

Inductive Rec : Type :=
| RUser (k : string) (u : User)
| RPassword (k : string) (p : PasswordCredential)
| RWebAuthn (k : string) (l : list WebAuthnCredential)
| RTotp (k : string) (t : TotpCredential)
| RSession (k : string) (x : Session)
| RCode (k : string) (c : Tokens.AuthorizationCode (J := J))
| RFamily (k : string) (f : Tokens.TokenFamily (J := J))
| RToken (k : string) (a : Tokens.AccessToken (J := J))
| RDeviceGrant (k : string) (g : Tokens.DeviceAuthorizationGrant)
| RBackchannel (k : string) (g : Tokens.BackchannelAuthenticationGrant)
| RDevice (k : string) (d : Device)
| RCiam (tb : CiamTable) (k : string) (o : Owned)
| RAuthenticator (k : string) (a : Push.PushAuthenticatorRecord)
| RLogin (k : string) (c : Push.PushLoginChallenge).

Definition holds (s : Store) (r : Rec) : Prop :=
  match r with
  | RUser k u => users s !! k = Some u
  | RPassword k p => credentials_password s !! k = Some p
  | RWebAuthn k l => webauthn_credentials s !! k = Some l
  | RTotp k t => totp_credentials s !! k = Some t
  | RSession k x => sessions s !! k = Some x
  | RCode k c => Tokens.authorization_codes (tokens s) !! k = Some c
  | RFamily k f => Tokens.token_families (tokens s) !! k = Some f
  | RToken k a => Tokens.access_tokens (tokens s) !! k = Some a
  | RDeviceGrant k g => Tokens.device_authorization_grants (tokens s) !! k = Some g
  | RBackchannel k g => Tokens.backchannel_authentication_grants (tokens s) !! k = Some g
  | RDevice k d => devices s !! k = Some d
  | RCiam tb k o => ciam s tb !! k = Some o
  | RAuthenticator k a => Push.authenticators (push s) !! k = Some a
  | RLogin k c => Push.logins (push s) !! k = Some c
  end.

Definition user_of (r : Rec) : option string :=
  match r with
  | RUser k _ | RPassword k _ | RWebAuthn k _ => Some k
  | RTotp _ t => Some (t_user_id t)
  | RSession _ x => Some (s_user_id x)
  | RCode _ c => Some (Tokens.ac_user_id c)
  | RFamily _ f => Some (Tokens.tf_user_id f)
  | RToken _ a => Some (Tokens.at_user_id a)
  | RDeviceGrant _ g => Tokens.dg_user_id g
  | RBackchannel _ g => Tokens.bg_user_id g
  | RDevice _ d => Some (d_user_id d)
  | RCiam _ _ o => Some (o_user_id o)
  | RAuthenticator _ a => Some (Push.a_user_id (Push.row_authenticator a))
  | RLogin _ c => Some (Push.user_id c)
  end.

(** The realm a record names itself; a user, a password and the second factors belong to
    the realm of their user. *)
Definition realm_of (r : Rec) : option string :=
  match r with
  | RUser _ _ | RPassword _ _ | RWebAuthn _ _ | RTotp _ _ => None
  | RSession _ x => Some (s_realm_id x)
  | RCode _ c => Some (Tokens.ac_realm_id c)
  | RFamily _ f => Some (Tokens.tf_realm_id f)
  | RToken _ a => Some (Tokens.at_realm_id a)
  | RDeviceGrant _ g => Some (Tokens.dg_realm_id g)
  | RBackchannel _ g => Some (Tokens.bg_realm_id g)
  | RDevice _ d => Some (d_realm_id d)
  | RCiam _ _ o => Some (o_realm_id o)
  | RAuthenticator _ a => Some (Push.a_realm_id (Push.row_authenticator a))
  | RLogin _ c => Some (Push.realm_id c)
  end.

Definition session_of (r : Rec) : option string :=
  match r with
  | RCode _ c => Tokens.ac_session_id c
  | RFamily _ f => Tokens.tf_session_id f
  | _ => None
  end.

Definition family_of (r : Rec) : option string :=
  match r with RToken _ a => Tokens.family_id a | _ => None end.

(** What the deletion of the users [gone] (and of [realm]) owns: records that name one of
    them, and records that hang on an owned session or family. *)
Inductive owned (s : Store) (gone : gset string) (realm : option string) : Rec → Prop :=
| own_user r u : user_of r = Some u → u ∈ gone → owned s gone realm r
| own_realm r x : realm_of r = Some x → realm = Some x → owned s gone realm r
| own_session r sid x :
    session_of r = Some sid → holds s (RSession sid x) → owned s gone realm (RSession sid x) → owned s gone realm r
| own_family r fid f :
    family_of r = Some fid → holds s (RFamily fid f) → owned s gone realm (RFamily fid f) → owned s gone realm r.

(** Sessions and families are filed under their identifier. *)
Definition keyed (s : Store) : Prop :=
  (∀ k x, sessions s !! k = Some x → s_id x = k) ∧
  (∀ k f, Tokens.token_families (tokens s) !! k = Some f → Tokens.tf_id f = k).


(** ** Searching the values of a table *)

Lemma list_filter_map {A B} (p : B → bool) (f : A → B) l : List.filter p (map f l) = map f (List.filter (fun x => p (f x)) l).
Proof. induction l as [|x l IH]; [done|]. cbn. destruct (p (f x)); cbn; by rewrite IH. Qed.

Lemma filter_values_single {A} (p : A → bool) (m : gmap string A) c :
  List.filter p (values m) = [c] → p c = true ∧ ∃ k, m !! k = Some c ∧ ∀ k' c', m !! k' = Some c' → p c' = true → k' = k.
Proof.
  unfold values. rewrite list_filter_map. intros Hf. destruct (List.filter _ (map_to_list m)) as [|[k c0] [|]] eqn:E; [done| |done].
  cbn in Hf. injection Hf as ->.
  assert (∀ k' c', m !! k' = Some c' → p c' = true → (k', c') ∈ [(k, c)]) as Hin.
  { intros k' c' Hk' Hp. rewrite <- E. apply list_elem_of_In, filter_In. split; [|done]. by apply list_elem_of_In, elem_of_map_to_list. }
  assert ((k, c) ∈ List.filter (fun x => p x.2) (map_to_list m)) as Hk by (rewrite E; by left).
  apply list_elem_of_In, filter_In in Hk as [Hk Hp]. split; [done|]. exists k. split; [by apply elem_of_map_to_list, list_elem_of_In|].
  intros k' c' Hk' Hp'. by apply Hin, list_elem_of_singleton in Hk' as [= -> _].
Qed.

Lemma filter_no_values {A} (p : A → bool) l : (∀ x, x ∈ l → p x = false) → List.filter p l = [].
Proof.
  induction l as [|x l IH]; intros Hl; [done|]. simpl. rewrite (Hl x) by (by left). apply IH. intros y Hy. apply Hl. by right.
Qed.

Lemma filter_values_one {A} (p : A → bool) (m : gmap string A) k c :
  m !! k = Some c → p c = true → (∀ k' c', m !! k' = Some c' → p c' = true → k' = k) → List.filter p (values m) = [c].
Proof.
  intros Hk Hp Hone. unfold values. pose proof (NoDup_fst_map_to_list m) as Hnd. apply elem_of_map_to_list in Hk as Hin.
  assert (∀ k' c', (k', c') ∈ map_to_list m → k' ≠ k → p c' = false) as Hno.
  { intros k' c' Hin' Hne. destruct (p c') eqn:Ep; [|done]. apply elem_of_map_to_list in Hin'. by apply Hone in Hin'. }
  apply list_elem_of_split in Hin as (l1 & l2 & Heq). rewrite Heq in *. rewrite map_app, List.filter_app. simpl. rewrite Hp.
  rewrite fmap_app, fmap_cons in Hnd. apply NoDup_app in Hnd as (_ & Hd & [Hnot _]%NoDup_cons).
  rewrite !filter_no_values; [done| |]; intros x Hx; apply list_elem_of_In, in_map_iff in Hx as ([k' x'] & <- & Hx); apply list_elem_of_In in Hx;
    (apply Hno with k'; [set_solver|]); intros ->.
  - apply Hnot. by apply (list_elem_of_fmap_2 fst l2 (k, x')).
  - apply (Hd k); [by apply (list_elem_of_fmap_2 fst l1 (k, x'))|by left].
Qed.

(** * Properties of deletion *)

Lemma retain_lookup {A} (p : string → A → bool) (m : gmap string A) k v :
  retain p m !! k = Some v ↔ m !! k = Some v ∧ p k v = true.
Proof. unfold retain. by rewrite map_lookup_filter_Some. Qed.

Lemma values_elem {A} (m : gmap string A) v : v ∈ values m ↔ ∃ k, m !! k = Some v.
Proof.
  unfold values. rewrite elem_of_map. split.
  - intros ([k w] & -> & H%elem_of_map_to_list). by exists k.
  - intros [k H]. exists (k, v). by rewrite elem_of_map_to_list.
Qed.

Lemma owned_iff s gone realm r :
  owned s gone realm r ↔
  (∃ u, user_of r = Some u ∧ u ∈ gone) ∨ (∃ x, realm_of r = Some x ∧ realm = Some x) ∨
  (∃ sid x, session_of r = Some sid ∧ holds s (RSession sid x) ∧ owned s gone realm (RSession sid x)) ∨
  (∃ fid f, family_of r = Some fid ∧ holds s (RFamily fid f) ∧ owned s gone realm (RFamily fid f)).
Proof.
  split.
  - destruct 1; eauto 10.
  - intros [(u & ? & ?)|[(x & ? & ?)|[(sid & x & ? & ? & ?)|(fid & f & ? & ? & ?)]]].
    + by eapply own_user.
    + by eapply own_realm.
    + by eapply own_session.
    + by eapply own_family.
Qed.

(** A record that hangs on nothing is owned exactly when it names a deleted user or realm. *)
Lemma owned_direct s gone realm r :
  session_of r = None → family_of r = None →
  owned s gone realm r ↔ (∃ u, user_of r = Some u ∧ u ∈ gone) ∨ (∃ x, realm_of r = Some x ∧ realm = Some x).
Proof. intros Hs Hf. rewrite owned_iff, Hs, Hf. naive_solver. Qed.

Lemma gone_sessions_spec s gone realm sid :
  keyed s → sid ∈ gone_sessions gone realm s ↔ ∃ x, holds s (RSession sid x) ∧ owned s gone realm (RSession sid x).
Proof.
  intros [Hk _]. unfold gone_sessions. rewrite elem_of_list_to_set, elem_of_map.
  setoid_rewrite elem_of_lfilter. setoid_rewrite values_elem. setoid_rewrite orb_true_iff.
  unfold is_gone, in_realm. setoid_rewrite bool_decide_eq_true. split.
  - intros (x & -> & [k Hx] & Ho). rewrite (Hk _ _ Hx). exists x. split; [done|].
    apply owned_direct; [done..|]. simpl. destruct Ho; eauto.
  - intros (x & Hx & Ho). exists x. split; [by rewrite (Hk _ _ Hx)|]. split; [by exists sid|].
    apply owned_direct in Ho; [|done..]. simpl in Ho. naive_solver.
Qed.

Lemma among_spec s gone realm o :
  keyed s →
  among (gone_sessions gone realm s) o = true ↔
  ∃ sid x, o = Some sid ∧ holds s (RSession sid x) ∧ owned s gone realm (RSession sid x).
Proof.
  intros Hk. destruct o as [sid|]; simpl; [|naive_solver].
  rewrite bool_decide_eq_true, (gone_sessions_spec _ _ _ _ Hk). naive_solver.
Qed.

Lemma gone_families_spec s gone realm fid :
  keyed s → fid ∈ gone_families gone realm s ↔ ∃ f, holds s (RFamily fid f) ∧ owned s gone realm (RFamily fid f).
Proof.
  intros Hks. destruct Hks as [Hk0 Hk]. assert (keyed s) as Hks by done.
  unfold gone_families. rewrite elem_of_list_to_set, elem_of_map.
  setoid_rewrite elem_of_lfilter. setoid_rewrite values_elem. setoid_rewrite orb_true_iff. setoid_rewrite orb_true_iff.
  setoid_rewrite (among_spec s gone realm _ Hks). unfold is_gone, in_realm. setoid_rewrite bool_decide_eq_true. split.
  - intros (f & -> & [k Hf] & Ho). rewrite (Hk _ _ Hf). exists f. split; [done|].
    rewrite owned_iff. simpl. naive_solver.
  - intros (f & Hf & Ho). exists f. split; [by rewrite (Hk _ _ Hf)|]. split; [by exists fid|].
    rewrite owned_iff in Ho. simpl in Ho. naive_solver.
Qed.

Lemma gone_false gone u : negb (is_gone gone u) = true ↔ u ∉ gone.
Proof. unfold is_gone. by rewrite negb_true_iff, bool_decide_eq_false. Qed.

Lemma realm_false realm r : negb (in_realm realm r) = true ↔ realm ≠ Some r.
Proof. unfold in_realm. by rewrite negb_true_iff, bool_decide_eq_false. Qed.

Lemma among_false ids o : negb (among ids o) = true ↔ ∀ x, o = Some x → x ∉ ids.
Proof. destruct o; simpl; [rewrite negb_true_iff, bool_decide_eq_false|]; naive_solver. Qed.

Ltac retain_simpl :=
  rewrite ?retain_lookup, ?map_lookup_filter_Some, ?andb_true_iff, ?gone_false, ?realm_false, ?among_false.

(** What deletion leaves: the records of the store it does not own. *)
Lemma removal_exact s gone realm r :
  keyed s → holds (remove_auth_state gone realm s) r ↔ holds s r ∧ ¬ owned s gone realm r.
Proof.
  intros Hk. destruct r as [k u|k p|k l|k t|k x|k c|k f|k a|k g|k g|k d|tb k o|k a|k c];
    cbn -[gone_sessions gone_families retain among is_gone in_realm]; retain_simpl;
    try (rewrite owned_direct by done; cbn; naive_solver).
  - rewrite negb_true_iff, bool_decide_eq_false, gone_sessions_spec by done. cbn. naive_solver.
  - setoid_rewrite gone_sessions_spec; [|done]. rewrite owned_iff. cbn. naive_solver.
  - rewrite negb_true_iff, bool_decide_eq_false, gone_families_spec by done. cbn. naive_solver.
  - setoid_rewrite gone_families_spec; [|done]. rewrite owned_iff. cbn. naive_solver.
  - rewrite bool_decide_eq_false. rewrite owned_direct by done. cbn. naive_solver.
  - rewrite bool_decide_eq_false. rewrite owned_direct by done. cbn. naive_solver.
Qed.


(** The tables a deletion of users leaves as they are.  Continuations are among them, also those of a deleted user. *)
Record peers_kept (s s' : Store) : Prop := {
  pk_issuers : realm_issuers s' = realm_issuers s;
  pk_tenants : realm_tenants s' = realm_tenants s;
  pk_clients : clients s' = clients s;
  pk_pars : Tokens.par_requests (tokens s') = Tokens.par_requests (tokens s);
  pk_realm_tables : ∀ tb, realm_tables s' tb = realm_tables s tb;
  pk_receipts : hr_receipts s' = hr_receipts s;
  pk_replay : ssf_set_replay s' = ssf_set_replay s;
  pk_continuations : oidc_continuations s' = oidc_continuations s;
  pk_login_times : ∀ k t, Push.login_issued_at (push s') !! k = Some t ↔
    Push.login_issued_at (push s) !! k = Some t ∧ ∃ c, holds s' (RLogin k c);
  pk_registration_times : ∀ k t, Push.registration_issued_at (push s') !! k = Some t ↔
    Push.registration_issued_at (push s) !! k = Some t ∧ ∃ a, holds s' (RAuthenticator k a)
}.

Lemma removal_keeps_peers gone realm s : peers_kept s (remove_auth_state gone realm s).
Proof. split; try done; intros k t; cbn -[filter]; by rewrite map_lookup_filter_Some. Qed.

(** C37: Deleting a user removes exactly what the user owns.  Of the tables of users, credentials, sessions, codes,
    tokens, grants, devices, CIAM records and push rows, every record that names the user goes, with every authorization
    code and token family of the user's sessions and every access token of those families; every other record of these
    tables stays as it is.  Clients, realms, pushed requests, the tables of realms, HR receipts and replay marks stay as
    they are, and so do the continuations, also those of the user; the times of push logins and registrations stay for
    exactly the rows that stay.  A user outside the caller's realm is not found, and nothing changes. *)
Theorem user_deletion_exact saved uid scope s res s' :
  keyed s → delete_user saved uid scope s = (res, s') →
  (∃ r, scope = Some r ∧ (u_realm_id <$> users s !! uid) ≠ Some r ∧ s' = s ∧ res = Err (NotFound ("user " +:+ uid)))
  ∨ res = saved ∧ (∀ r, holds s' r ↔ holds s r ∧ ¬ owned s {[ uid ]} None r) ∧ peers_kept s s'.
Proof.
  intros Hk. unfold delete_user. destruct (out_of_scope scope _) eqn:Es; intros [= <- <-].
  - left. destruct scope as [r|]; [|done]. exists r. split_and!; [done| |done..].
    simpl in Es. destruct (u_realm_id <$> users s !! uid) as [r'|]; [|done].
    apply negb_true_iff, String.eqb_neq in Es. congruence.
  - right. split; [done|]. split; [|apply removal_keeps_peers]. intros r. by apply removal_exact.
Qed.

(** ** Links between records *)

(** Codes and families name sessions of the store, access tokens name families of it. *)
Definition linked (s : Store) : Prop :=
  (∀ r sid, holds s r → session_of r = Some sid → ∃ x, holds s (RSession sid x)) ∧
  (∀ r fid, holds s r → family_of r = Some fid → ∃ f, holds s (RFamily fid f)).

(** Deletion leaves no dangling reference: if every code, family and access token
    refers to a session and family of the store before, then so it does after. *)
Theorem deletion_keeps_links s gone realm :
  keyed s → linked s → linked (remove_auth_state gone realm s).
Proof.
  intros Hk [Hs Hf]. split.
  - intros r sid [Hr Hn]%removal_exact Hsid; [|done]. destruct (Hs r sid Hr Hsid) as [x Hx]. exists x.
    apply removal_exact; [done|]. split; [done|]. intros Ho. apply Hn. by eapply own_session.
  - intros r fid [Hr Hn]%removal_exact Hfid; [|done]. destruct (Hf r fid Hr Hfid) as [f Hx]. exists f.
    apply removal_exact; [done|]. split; [done|]. intros Ho. apply Hn. by eapply own_family.
Qed.

(** ** Realms *)

Definition users_keyed (s : Store) : Prop := ∀ k u, users s !! k = Some u → u_id u = k.

Definition realm_users (realm : string) (s : Store) : gset string :=
  list_to_set (map u_id (List.filter (fun u => String.eqb (u_realm_id u) realm) (values (users s)))).

Lemma realm_users_spec realm s k u :
  users_keyed s → users s !! k = Some u → u_realm_id u = realm → k ∈ realm_users realm s.
Proof.
  intros Hk Hu Hr. unfold realm_users. rewrite elem_of_list_to_set, elem_of_map. exists u.
  split; [by rewrite (Hk _ _ Hu)|]. rewrite elem_of_lfilter, values_elem, String.eqb_eq. eauto.
Qed.

Lemma remove_realm_holds realm s r :
  holds (remove_realm realm s) r ↔ holds (remove_auth_state (realm_users realm s) (Some realm) s) r.
Proof. by destruct r. Qed.

(** Nothing of [realm] is left: no record that names it, no user of it, and no row of the
    tables only realm deletion touches. *)
Definition realm_empty (realm : string) (s : Store) : Prop :=
  (∀ r, holds s r → realm_of r ≠ Some realm) ∧
  (∀ k u, users s !! k = Some u → u_realm_id u ≠ realm) ∧
  (∀ k c, clients s !! k = Some c → c_realm_id c ≠ realm) ∧
  (∀ k p, Tokens.par_requests (tokens s) !! k = Some p → Tokens.par_realm_id p ≠ realm) ∧
  (∀ tb k o, realm_tables s tb !! k = Some o → ro_realm_id o ≠ realm) ∧
  hr_receipts s !! realm = None ∧
  (∀ k t, ssf_set_replay s !! k = Some t → starts_with (realm +:+ UNIT_SEPARATOR) k = false).

Lemma remove_realm_empty realm s : keyed s → users_keyed s → realm_empty realm (remove_realm realm s).
Proof.
  intros Hk Hu. split_and!.
  - intros r. rewrite remove_realm_holds, removal_exact by done. intros [_ Hn] Hr. apply Hn. by eapply own_realm.
  - intros k u H Hr. pose proof (proj1 (remove_realm_holds realm s (RUser k u)) H) as [H' Hn]%removal_exact; [|done].
    apply Hn. eapply own_user; [done|]. by eapply realm_users_spec.
  - intros k c [_ H]%retain_lookup. by apply negb_true_iff, String.eqb_neq in H.
  - intros k p [_ H]%retain_lookup. by apply negb_true_iff, String.eqb_neq in H.
  - intros tb k o [_ H]%retain_lookup. by apply negb_true_iff, String.eqb_neq in H.
  - apply lookup_delete_eq.
  - intros k t [_ H]%retain_lookup. by apply negb_true_iff in H.
Qed.

Lemma add_realm_empty tenant realm issuer s :
  keyed s → users_keyed s → realm_empty realm (add_realm tenant realm issuer s).
Proof.
  intros Hk Hu. destruct (remove_realm_empty realm s Hk Hu) as (H1 & H2).
  split; [|exact H2]. intros r Hr. apply H1. by destruct r.
Qed.

(** A new realm starts empty.  A realm whose creation succeeds has its issuer and
    tenant and nothing else, whatever a deleted realm of the same name left behind, and no
    other realm has its issuer; a creation that fails, for a duplicate or for the write,
    changes nothing. *)
Theorem create_realm_fresh mode written tenant realm issuer s res s' :
  keyed s → users_keyed s → create_realm mode written tenant realm issuer s = (res, s') →
  match res with
  | Ok _ => realm_empty realm s' ∧ realm_issuers s' !! realm = Some issuer ∧ realm_tenants s' !! realm = Some tenant
            ∧ (∀ r, realm_issuers s' !! r = Some issuer → r = realm)
            ∧ (∀ r, r ≠ realm → realm_issuers s' !! r = realm_issuers s !! r)
  | Err _ => s' = s
  end.
Proof.
  intros Hk Hu. unfold create_realm, Tokens.reject_duplicate_id. destruct (_ || _) eqn:Ed; [by intros [= <- <-]|].
  assert (add_realm tenant realm issuer s = s' →
    realm_empty realm s' ∧ realm_issuers s' !! realm = Some issuer ∧ realm_tenants s' !! realm = Some tenant
    ∧ (∀ r, realm_issuers s' !! r = Some issuer → r = realm)
    ∧ (∀ r, r ≠ realm → realm_issuers s' !! r = realm_issuers s !! r)) as Hok.
  { intros <-. split_and!; [by apply add_realm_empty|apply lookup_insert_eq..| |].
    - intros r Hr. destruct (decide (r = realm)) as [|Hne]; [done|]. exfalso.
      rewrite !orb_false_iff, existsb_false in Ed. destruct Ed as [_ Ed]. cbn in Hr.
      rewrite lookup_insert_ne, lookup_delete_ne in Hr by done.
      assert (String.eqb issuer issuer = false) as E; [|by rewrite String.eqb_refl in E].
      apply Ed, values_elem. eauto.
    - intros r Hr. cbn. by rewrite lookup_insert_ne, lookup_delete_ne. }
  destruct mode; [|intros [= <- E]; by apply Hok].
  unfold persist_candidate. destruct written as [[]|e]; intros [= <- E]; [by apply Hok|done].
Qed.

(** Deleting a realm is exact and atomic.  When the tenant matches and the write
    succeeds, nothing of the realm is left, and every record that neither names the realm
    nor belongs to one of its users, sessions or families stays; otherwise the store is
    unchanged. *)
Theorem delete_realm_exact mode written realm tenant s res s' :
  keyed s → users_keyed s → delete_realm mode written realm tenant s = (res, s') →
  (s' = s ∨ realm_empty realm s' ∧ realm_issuers s' !! realm = None ∧ realm_tenants s !! realm = Some tenant) ∧
  (∀ r, holds s r → ¬ owned s (realm_users realm s) (Some realm) r → holds s' r) ∧
  (∀ e, res = Err e → s' = s).
Proof.
  intros Hk Hu. unfold delete_realm. destruct (bool_decide _) eqn:Et; simpl; [|intros [= <- <-]; naive_solver].
  apply bool_decide_eq_true in Et.
  assert (∀ r, holds s r → ¬ owned s (realm_users realm s) (Some realm) r → holds (remove_realm realm s) r) as Hkeep.
  { intros r Hr Hn. apply remove_realm_holds, removal_exact; done. }
  assert (realm_empty realm (remove_realm realm s) ∧ realm_issuers (remove_realm realm s) !! realm = None
          ∧ realm_tenants s !! realm = Some tenant) as Hgone.
  { split_and!; [by apply remove_realm_empty|apply lookup_delete_eq|done]. }
  destruct mode; [|intros [= <- <-]; naive_solver].
  unfold persist_candidate. destruct written as [[]|e]; intros [= <- <-]; naive_solver.
Qed.


(** * Runs *)

Inductive AccountOp : Type :=
| CreateUser (u : User)
| UpdateUser (u : User) (scope : option string)
| DeleteUser (uid : string) (scope : option string)
| StorePassword (c : PasswordCredential)
| UpdatePassword (c : PasswordCredential) (realm : string)
| CreateClient (c : Client)
| UpdateClient (c : Client)
| DeleteClient (realm cid : string)
| CreateSession (x : Session)
| TouchSession (sid : string) (idle : N) (scope : option string)
| RevokeSession (sid : string) (scope : option string)
| StoreWebAuthn (c : WebAuthnCredential)
| BumpWebAuthn (uid x : string) (n : N)
| DeleteWebAuthn (uid x : string)
| StoreTotp (c : TotpCredential)
| ConsumeTotp (c : TotpCredential) (step : N)
| RegisterDevice (d : Device)
| SeeDevice (d : Device)
| CreateRealm (mode : Tokens.FileFlushMode) (tenant realm issuer : string)
| DeleteRealm (mode : Tokens.FileFlushMode) (realm tenant : string).

Definition unit_result (p : QidResult unit * Store) : QidResult bool * Store :=
  (res_map (fun _ => true) p.1, p.2).

(** [saved] is the outcome of the call's save. *)
Definition run_op (o : AccountOp) (saved : QidResult unit) (s : Store) : QidResult bool * Store :=
  match o with
  | CreateUser u => unit_result (create_user saved u s)
  | UpdateUser u scope => unit_result (update_user saved u scope s)
  | DeleteUser uid scope => unit_result (delete_user saved uid scope s)
  | StorePassword c => unit_result (store_password_credential saved c s)
  | UpdatePassword c realm => unit_result (update_password_credential_in_realm saved c realm s)
  | CreateClient c => unit_result (create_client saved c s)
  | UpdateClient c => unit_result (update_client saved c s)
  | DeleteClient realm cid => unit_result (delete_client saved realm cid s)
  | CreateSession x => unit_result (create_session saved x s)
  | TouchSession sid idle scope => update_session_idle_expiry saved sid idle scope s
  | RevokeSession sid scope => revoke_session saved sid scope s
  | StoreWebAuthn c => unit_result (store_webauthn_credential saved c s)
  | BumpWebAuthn uid x n => unit_result (update_webauthn_credential_counter saved uid x n s)
  | DeleteWebAuthn uid x => unit_result (delete_webauthn_credential saved uid x s)
  | StoreTotp c => unit_result (store_totp_credential saved c s)
  | ConsumeTotp c step => consume_totp_step saved c step s
  | RegisterDevice d => unit_result (register_device saved d s)
  | SeeDevice d => unit_result (update_device_last_seen saved d s)
  | CreateRealm mode tenant realm issuer => unit_result (create_realm mode saved tenant realm issuer s)
  | DeleteRealm mode realm tenant => unit_result (delete_realm mode saved realm tenant s)
  end.

(** A run: each call with the outcome of its save; the trace pairs calls with results. *)
Fixpoint run (calls : list (AccountOp * QidResult unit)) (s : Store) : list (AccountOp * QidResult bool) * Store :=
  match calls with
  | [] => ([], s)
  | (o, saved) :: rest =>
      let '(res, s1) := run_op o saved s in
      let '(tr, s2) := run rest s1 in ((o, res) :: tr, s2)
  end.

Definition deletes (o : AccountOp) : bool :=
  match o with DeleteUser _ _ | CreateRealm _ _ _ _ | DeleteRealm _ _ _ => true | _ => false end.

Ltac op_cases :=
  unfold unit_result, create_user, update_user, delete_user, store_password_credential,
    update_password_credential_in_realm, create_client, update_client, delete_client, create_session,
    update_session_idle_expiry, revoke_session, store_webauthn_credential, update_webauthn_credential_counter,
    delete_webauthn_credential, store_totp_credential, consume_totp_step, register_device,
    update_device_last_seen, create_realm, delete_realm, persist_candidate;
  simpl; try done; repeat (case_match; simpl; try done).

(** ** Email addresses *)

(** In a realm, an address belongs to one user. *)
Definition emails_unique (s : Store) : Prop :=
  ∀ k1 k2 u1 u2 e, users s !! k1 = Some u1 → users s !! k2 = Some u2 → u_realm_id u1 = u_realm_id u2 →
    email u1 = Some e → email u2 = Some e → k1 = k2.

Definition accounts_ok (s : Store) : Prop := users_keyed s ∧ emails_unique s.

Lemma accounts_ok_shrink s s' :
  (∀ k u, users s' !! k = Some u → users s !! k = Some u) → accounts_ok s → accounts_ok s'.
Proof. intros H [Hk He]. split; [intros k u Hu|intros k1 k2 u1 u2 e H1 H2]; eauto. Qed.

Lemma accounts_ok_insert s u :
  accounts_ok s →
  (∀ e k u', email u = Some e → users s !! k = Some u' → u_id u' ≠ u_id u → u_realm_id u' = u_realm_id u →
             email u' ≠ Some e) →
  accounts_ok (set_users s (<[u_id u := u]> (users s))).
Proof.
  intros [Hk He] Hu. split.
  - intros k v. cbn. rewrite lookup_insert_Some. intros [[<- <-]|[_ H]]; [done|eauto].
  - intros k1 k2 u1 u2 e. cbn. rewrite !lookup_insert_Some.
    intros [[<- <-]|[N1 H1]] [[<- <-]|[N2 H2]] Hr E1 E2; [done| | |by eapply He].
    + exfalso. eapply (Hu e k2 u2); [done|done| |done|done]. rewrite (Hk _ _ H2). done.
    + exfalso. eapply (Hu e k1 u1); [done|done| |done|done]. rewrite (Hk _ _ H1). done.
Qed.

Lemma insert_new_identity {T} `{Tokens.InsertIdentity T} (m m' : gmap string T) x k y :
  Tokens.insert_new m x = Ok m' → m !! k = Some y → Tokens.identity x ≠ None → Tokens.identity y ≠ Tokens.identity x.
Proof.
  unfold Tokens.insert_new, Tokens.reject_duplicate_id. case_bool_decide; simpl; [done|].
  destruct (Tokens.identity x) as [[owner ident]|]; [|done].
  destruct (existsb _ _) eqn:E; [done|]. intros _ Hk _ Hy. rewrite existsb_false in E.
  specialize (E (k, y)). rewrite elem_of_map_to_list in E. specialize (E Hk). cbn in E.
  by apply bool_decide_eq_false in E.
Qed.

Lemma create_user_ok saved u s : accounts_ok s → accounts_ok (create_user saved u s).2.
Proof.
  intros Ha. unfold create_user. destruct (Tokens.insert_new (users s) u) as [m|e] eqn:E; [|done]. cbn.
  pose proof (fun k y => insert_new_identity _ _ _ k y E) as Hid. apply Tokens.insert_new_Ok in E as [_ ->].
  apply (accounts_ok_insert s u); [done|].
  intros e k u' Eu Hu' _ Hr Eu'. apply (Hid k u' Hu'); cbn; rewrite Eu; [done|]. by rewrite Eu', Hr.
Qed.

Lemma update_user_ok saved u scope s : accounts_ok s → accounts_ok (update_user saved u scope s).2.
Proof.
  intros Ha. unfold update_user. case_match; [done|].
  set (v := with_realm u _). destruct (email_held_by_another s v) as [e|] eqn:Eh; [done|]. cbn.
  apply (accounts_ok_insert s v); [done|]. intros e k u' Ev Hu' Hne Hr Eu'.
  unfold email_held_by_another in Eh. rewrite Ev in Eh. destruct (existsb _ _) eqn:Ex; [done|].
  rewrite existsb_false in Ex. specialize (Ex u'). rewrite values_elem in Ex. specialize (Ex ltac:(eauto)).
  rewrite Hr, String.eqb_refl, (bool_decide_eq_true_2 _ Eu') in Ex. rewrite !andb_true_r in Ex.
  apply negb_false_iff, String.eqb_eq in Ex. done.
Qed.

Lemma run_op_accounts o saved s : accounts_ok s → accounts_ok (run_op o saved s).2.
Proof.
  intros Ha. destruct o; cbn [run_op unit_result]; try (by apply create_user_ok || by apply update_user_ok);
    try (eapply accounts_ok_shrink; [|exact Ha]; intros k v; op_cases; fail).
  all: eapply accounts_ok_shrink; [|exact Ha]; intros k v; op_cases; by intros [? _]%retain_lookup.
Qed.

Lemma users_NoDup s : users_keyed s → NoDup (values (users s)).
Proof.
  intros Hk. apply (NoDup_fmap_1 u_id). unfold values.
  assert (u_id <$> map snd (map_to_list (users s)) = (map_to_list (users s)).*1) as ->.
  { change (map snd (map_to_list (users s))) with (snd <$> map_to_list (users s)). rewrite <- list_fmap_compose.
    apply list_fmap_ext. intros i [k u] Hi. cbn. apply Hk, elem_of_map_to_list. by eapply list_elem_of_lookup_2. }
  apply NoDup_fst_map_to_list.
Qed.

Lemma run_ops_cons o saved calls s tr s' :
  run ((o, saved) :: calls) s = (tr, s') →
  ∃ res s1 tr1, run_op o saved s = (res, s1) ∧ run calls s1 = (tr1, s') ∧ tr = (o, res) :: tr1.
Proof.
  cbn. destruct (run_op o saved s) as [res s1]. destruct (run calls s1) as [tr1 s2] eqn:E.
  intros [= <- <-]. eauto 10.
Qed.

(** An email address names at most one user of a realm.  Whatever sequence of account
    operations runs, with whatever saves failing, looking a user up by address is never
    ambiguous and finds a user of that realm with that address. *)
Theorem email_lookup_unambiguous calls s tr s' realm e :
  accounts_ok s → run calls s = (tr, s') →
  ∃ o, get_user_by_email realm e s' = Ok o ∧
    match o with
    | Some u => users s' !! u_id u = Some u ∧ u_realm_id u = realm ∧ email u = Some e
    | None => ∀ k u, users s' !! k = Some u → u_realm_id u = realm → email u ≠ Some e
    end.
Proof.
  intros Ha Hr. assert (accounts_ok s') as [Hk He].
  { revert s tr Ha Hr. induction calls as [|[o saved] calls IH]; intros s tr Ha Hr; [by injection Hr as _ <-|].
    apply run_ops_cons in Hr as (res & s1 & tr1 & Ho & Hr & _). eapply IH; [|exact Hr].
    pose proof (run_op_accounts o saved s Ha) as H. by rewrite Ho in H. }
  unfold get_user_by_email, Tokens.unique_match. set (l := List.filter _ _).
  assert (∀ u, u ∈ l ↔ (∃ k, users s' !! k = Some u) ∧ u_realm_id u = realm ∧ email u = Some e) as Hl.
  { intros u. unfold l. rewrite elem_of_lfilter, values_elem, andb_true_iff, String.eqb_eq, bool_decide_eq_true. done. }
  assert (NoDup l) as Hnd.
  { apply NoDup_ListNoDup, List.NoDup_filter, NoDup_ListNoDup. by apply users_NoDup. }
  assert (∀ u v, u ∈ l → v ∈ l → u = v) as Hone.
  { intros u v ([k1 H1] & R1 & E1)%Hl ([k2 H2] & R2 & E2)%Hl.
    assert (k1 = k2) as -> by (eapply He; eauto; congruence). congruence. }
  clearbody l. destruct l as [|u [|v l]]; cbn.
  - exists None. split; [done|]. intros k u Hu Hre Heu. apply (not_elem_of_nil u), Hl. eauto.
  - exists (Some u). split; [done|]. destruct (proj1 (Hl u) ltac:(left)) as ([k Hu] & ? & ?).
    split_and!; [|done..]. by rewrite (Hk _ _ Hu).
  - exfalso. apply NoDup_cons in Hnd as [Hnd _]. apply Hnd. rewrite (Hone u v); set_solver.
Qed.


(** ** One-time passwords *)

(** Steps up to [n] of credential [x] are spent. *)
Definition spent_to (x : string) (n : N) (s : Store) : Prop :=
  ∃ t, totp_credentials s !! x = Some t ∧ opt_leb (Some n) (last_used_step t) = true.

Definition totp_accepted (x : string) (tr : list (AccountOp * QidResult bool)) : list N :=
  omap (fun '(o, res) => match o, res with
                         | ConsumeTotp c step, Ok true => if String.eqb (t_id c) x then Some step else None
                         | _, _ => None
                         end) tr.

Lemma opt_max_ge n a b : opt_leb (Some n) a = true → opt_leb (Some n) (opt_max a b) = true.
Proof.
  unfold opt_max. destruct a as [a|], b as [b|]; simpl; try done. intros H.
  destruct (N.leb_spec a b); simpl; [|done]. apply N.leb_le in H. apply N.leb_le. lia.
Qed.

Lemma spent_insert x n s t :
  (t_id t = x → ∀ t0, totp_credentials s !! x = Some t0 → opt_leb (Some n) (last_used_step t0) = true →
     opt_leb (Some n) (last_used_step t) = true) →
  spent_to x n s → spent_to x n (set_totp s (<[t_id t := t]> (totp_credentials s))).
Proof.
  intros Ht (t0 & H0 & Hn). unfold spent_to. cbn. destruct (decide (t_id t = x)) as [E|Hne].
  - rewrite E, lookup_insert_eq. exists t. split; [done|]. eauto.
  - rewrite lookup_insert_ne by done. eauto.
Qed.

(** What one call does to the spent steps. *)
Lemma run_op_spent o saved s x n res s' :
  deletes o = false → run_op o saved s = (res, s') → spent_to x n s → spent_to x n s'.
Proof.
  intros Hd Hr Hsp. assert (s' = (run_op o saved s).2) as -> by by rewrite Hr. clear Hr res.
  destruct o; try done; cbn [run_op unit_result]; unfold spent_to;
    try (by op_cases).
  - unfold store_totp_credential. destruct (ensure_same_binding _ _ _); [|done]. cbn.
    destruct (totp_credentials s !! t_id c) as [t0|] eqn:E0; [|].
    + apply (spent_insert x n s (replace_preserving_last_used_step t0 c)); [|done]. cbn.
      intros <- t1 H1 Hn. rewrite E0 in H1. injection H1 as <-. by apply opt_max_ge.
    + apply (spent_insert x n s c); [|done]. intros <- t1 H1. by rewrite E0 in H1.
  - unfold consume_totp_step. destruct (totp_credentials s !! t_id c) as [t0|] eqn:E0; [|done].
    destruct (negb _ || _) eqn:Ec; [done|]. apply orb_false_iff in Ec as [_ Ec]. cbn.
    destruct Hsp as (t1 & H1 & Hn). destruct (decide (t_id c = x)) as [E|Hne].
    + rewrite E, lookup_insert_eq. eexists. split; [done|]. cbn. rewrite <- E, E0 in H1. injection H1 as <-.
      destruct (last_used_step t0) as [m|]; cbn in Ec, Hn; [|done].
      apply N.leb_gt in Ec. apply N.leb_le in Hn. apply N.leb_le. lia.
    + rewrite lookup_insert_ne by done. eauto.
Qed.

Lemma consume_accepts saved c step s s' :
  consume_totp_step saved c step s = (Ok true, s') →
  spent_to (t_id c) step s' ∧ ∀ n, spent_to (t_id c) n s → n < step.
Proof.
  unfold consume_totp_step. destruct (totp_credentials s !! t_id c) as [t0|] eqn:E0; [|done].
  destruct (negb _ || _) eqn:Ec; [done|]. apply orb_false_iff in Ec as [_ Ec]. intros [= _ <-]. split.
  - exists (with_step t0 (Some step)). cbn. rewrite lookup_insert_eq. split; [done|]. apply N.leb_refl.
  - intros n (t1 & H1 & Hn). rewrite E0 in H1. injection H1 as <-.
    destruct (last_used_step t0) as [m|]; cbn in Ec, Hn; [|done].
    apply N.leb_gt in Ec. apply N.leb_le in Hn. lia.
Qed.

Lemma accepted_above calls : ∀ s tr s' x n,
  Forall (fun c => deletes c.1 = false) calls → run calls s = (tr, s') → spent_to x n s →
  Forall (fun m => n < m) (totp_accepted x tr).
Proof.
  induction calls as [|[o saved] calls IH]; intros s tr s' x n Hd Hr Hs; [by injection Hr as <- _|].
  apply Forall_cons in Hd as [Ho Hd]. apply run_ops_cons in Hr as (res & s1 & tr1 & Hop & Hr & ->).
  pose proof (run_op_spent _ _ _ _ _ _ _ Ho Hop Hs) as Hs1. specialize (IH _ _ _ _ _ Hd Hr Hs1).
  destruct o; try exact IH. cbn. destruct res as [[|]|e]; try exact IH.
  destruct (String.eqb_spec (t_id c) x) as [<-|]; [|exact IH]. constructor; [|exact IH].
  cbn in Hop. by apply consume_accepts in Hop as [_ Hlt]; apply Hlt.
Qed.

(** A one-time password is accepted once.  In any run of account operations that
    deletes no account, the steps accepted for a credential strictly increase, whatever
    re-enrolments, other calls and failed saves happen between them, so no code is ever
    accepted twice, nor one older than the last accepted. *)
Theorem totp_steps_increase calls s tr s' x :
  Forall (fun c => deletes c.1 = false) calls → run calls s = (tr, s') →
  StronglySorted N.lt (totp_accepted x tr).
Proof.
  revert s tr. induction calls as [|[o saved] calls IH]; intros s tr Hd Hr; [injection Hr as <- _; constructor|].
  apply Forall_cons in Hd as [Ho Hd]. apply run_ops_cons in Hr as (res & s1 & tr1 & Hop & Hr & ->).
  specialize (IH _ _ Hd Hr). destruct o; try exact IH. cbn. destruct res as [[|]|e]; try exact IH.
  destruct (String.eqb_spec (t_id c) x) as [<-|]; [|exact IH]. constructor; [exact IH|].
  cbn in Hop. apply consume_accepts in Hop as [Hs _]. by eapply accepted_above.
Qed.

(** ** Revoked sessions *)

Definition session_revoked (sid : string) (s : Store) : Prop :=
  ∃ x, sessions s !! sid = Some x ∧ s_revoked x = true.

Lemma session_in_Some sid scope s x : session_in sid scope s = Some x → sessions s !! sid = Some x.
Proof.
  unfold session_in, Tokens.opt_filter. destruct (sessions s !! sid); [|done]. case_match; [done|done].
Qed.

Lemma run_op_revoked o saved s sid res s' :
  deletes o = false → run_op o saved s = (res, s') → session_revoked sid s → session_revoked sid s'.
Proof.
  intros Hd Hr Hsp. assert (s' = (run_op o saved s).2) as -> by by rewrite Hr. clear Hr res.
  destruct o; try done; cbn [run_op unit_result]; unfold session_revoked; try (by op_cases).
  - unfold create_session. destruct (sessions s !! s_id x) as [y|] eqn:E; [done|]. cbn.
    destruct Hsp as (z & Hz & Hrv). exists z. rewrite lookup_insert_ne; [done|]. intros Ex. rewrite Ex in E. congruence.
  - unfold update_session_idle_expiry. destruct (session_in sid0 scope s) as [y|] eqn:E; [|done].
    apply session_in_Some in E. cbn. destruct Hsp as (z & Hz & Hrv). destruct (decide (sid0 = sid)) as [->|Hne].
    + rewrite lookup_insert_eq. eexists. split; [done|]. cbn. congruence.
    + rewrite lookup_insert_ne by done. eauto.
  - unfold revoke_session. destruct (session_in sid0 scope s) as [y|] eqn:E; [|done].
    destruct (s_revoked y); [done|]. cbn. destruct Hsp as (z & Hz & Hrv). destruct (decide (sid0 = sid)) as [->|Hne].
    + rewrite lookup_insert_eq. by eexists.
    + rewrite lookup_insert_ne by done. eauto.
Qed.

(** A revoked session stays revoked: after a successful revocation no later operation
    that deletes no account makes the session active again at any time, and no second
    revocation of it reports success. *)
Theorem revoked_session_final saved sid scope s s1 calls tr s2 :
  revoke_session saved sid scope s = (Ok true, s1) →
  Forall (fun c => deletes c.1 = false) calls → run calls s1 = (tr, s2) →
  (∀ x now, get_session sid s2 = Some x → is_active x now = false) ∧
  (∀ scope', (RevokeSession sid scope', Ok true) ∉ tr).
Proof.
  intros Hrv Hd Hr. assert (session_revoked sid s1) as Hs1.
  { revert Hrv. unfold revoke_session. destruct (session_in sid scope s) as [x|]; [|done].
    destruct (s_revoked x); [done|]. intros [= _ <-]. eexists. cbn. by rewrite lookup_insert_eq. }
  clear Hrv. revert s1 tr Hs1 Hr. induction calls as [|[o sv] calls IH]; intros s1 tr Hs1 Hr.
  - injection Hr as <- <-. destruct Hs1 as (x & Hx & Hrx). split; [|set_solver].
    unfold get_session, is_active. intros y now Hy. rewrite Hx in Hy. injection Hy as <-. by rewrite Hrx.
  - apply Forall_cons in Hd as [Ho Hd]. apply run_ops_cons in Hr as (res & s3 & tr1 & Hop & Hr & ->).
    destruct (IH Hd s3 tr1 (run_op_revoked _ _ _ _ _ _ Ho Hop Hs1) Hr) as [H1 H2]. split; [done|].
    intros scope' [E|Hin]%elem_of_cons; [|by eapply H2]. injection E as <- <-. cbn in Hop.
    destruct Hs1 as (x & Hx & Hrx). revert Hop. unfold revoke_session.
    destruct (session_in sid scope' s1) as [y|] eqn:E; [|done]. apply session_in_Some in E.
    rewrite Hx in E. injection E as <-. by rewrite Hrx.
Qed.

(** ** Client identities *)

(** Updating a client that does not exist can duplicate an identity: an update under
    a record ID the store does not hold inserts the record without looking at the realm's
    other clients, so a client id that already names a client of the realm names two. *)
Theorem update_client_duplicates saved c s k c0 :
  clients s !! c_id c = None → clients s !! k = Some c0 →
  c_realm_id c0 = c_realm_id c → client_id c0 = client_id c →
  (update_client saved c s).1 = saved ∧
  clients (update_client saved c s).2 !! k = Some c0 ∧
  clients (update_client saved c s).2 !! c_id c = Some c ∧ k ≠ c_id c ∧
  is_ok (create_client saved c s).1 = false.
Proof.
  intros Hn Hk Hr Hc. assert (k ≠ c_id c) as Hne by (intros ->; congruence).
  unfold update_client. rewrite Hn. cbn. rewrite lookup_insert_ne, lookup_insert_eq by done.
  split_and!; [done..|]. unfold create_client. destruct (Tokens.insert_new (clients s) c) as [m|e] eqn:E; [|done].
  exfalso. eapply (insert_new_identity _ _ _ k c0 E Hk); cbn; [done|]. by rewrite Hr, Hc.
Qed.


End Accounts.

(** ** Witnesses *)

Definition empty_store : Store (J := unit) :=
  {| push := {| Push.authenticators := ∅; Push.logins := ∅; Push.registration_issued_at := ∅; Push.login_issued_at := ∅ |};
     tokens := Tokens.empty_store; realm_issuers := ∅; realm_tenants := ∅; users := ∅; credentials_password := ∅;
     clients := ∅; sessions := ∅; webauthn_credentials := ∅; totp_credentials := ∅; devices := ∅;
     ciam := fun _ => ∅; realm_tables := fun _ => ∅; hr_receipts := ∅; ssf_set_replay := ∅; oidc_continuations := ∅ |}.

Definition ex_user (k realm : string) (e : option string) : User :=
  {| u_id := k; u_realm_id := realm; email := e; email_verified := true; display_name := None;
     failed_login_attempts := 0; locked_until := None; org := None |}.

Definition ex_session (k realm user : string) : Session (J := unit) :=
  {| s_id := k; s_realm_id := realm; s_user_id := user; auth_time := 1; s_acr := None; s_amr := [];
     idle_expires_at := 100; absolute_expires_at := 100; s_revoked := false; s_created_at := 1; s_cnf := None |}.

Definition ex_totp (k user : string) : TotpCredential :=
  {| t_id := k; t_user_id := user; secret := "s"; algorithm := "SHA1"; digits := 6; period := 30; t_enabled := true;
     last_used_step := None; t_created_at := 1 |}.

Definition ex_client (k realm cid : string) : Client (J := unit) :=
  {| c_id := k; c_realm_id := realm; client_id := cid; c_body := tt |}.

Definition ex_calls : list (AccountOp (J := unit) * QidResult unit) :=
  [(CreateRealm Tokens.Immediate "t" "r" "https://r", Ok tt);
   (CreateUser (ex_user "u1" "r" (Some "a@x")), Ok tt);
   (CreateUser (ex_user "u2" "r" (Some "a@x")), Ok tt);
   (CreateUser (ex_user "u3" "r2" (Some "a@x")), Err (Storage "disk full"));
   (CreateSession (ex_session "s1" "r" "u1"), Ok tt);
   (CreateSession (ex_session "s3" "r2" "u3"), Ok tt)].

Definition ex_store : Store (J := unit) := (run ex_calls empty_store).2.

Lemma ex_keyed : keyed ex_store.
Proof.
  split; intros k x H; [|by vm_compute in H].
  assert (sessions ex_store = {[ "s1" := ex_session "s1" "r" "u1"; "s3" := ex_session "s3" "r2" "u3" ]}) as E
    by (vm_compute; reflexivity).
  rewrite E in H. apply lookup_insert_Some in H as [[<- <-]|[_ H]]; [done|].
  apply lookup_singleton_Some in H as [<- <-]. done.
Qed.

Lemma ex_users_keyed : users_keyed ex_store.
Proof.
  intros k u H.
  assert (users ex_store = {[ "u1" := ex_user "u1" "r" (Some "a@x"); "u3" := ex_user "u3" "r2" (Some "a@x") ]}) as E
    by (vm_compute; reflexivity).
  rewrite E in H. apply lookup_insert_Some in H as [[<- <-]|[_ H]]; [done|].
  apply lookup_singleton_Some in H as [<- <-]. done.
Qed.

Lemma user_deletion_exact_witness :
  let s' := (delete_user (Ok tt) "u1" (Some "r") ex_store).2 in
  holds s' (RSession "s3" (ex_session "s3" "r2" "u3")) ∧ ¬ holds s' (RSession "s1" (ex_session "s1" "r" "u1")).
Proof.
  destruct (user_deletion_exact (Ok tt) "u1" (Some "r") ex_store (delete_user (Ok tt) "u1" (Some "r") ex_store).1
              (delete_user (Ok tt) "u1" (Some "r") ex_store).2 ex_keyed) as [H|(_ & H & _)].
  - by destruct (delete_user (Ok tt) "u1" (Some "r") ex_store).
  - exfalso. destruct H as (r & [= <-] & H & _). apply H. vm_compute. reflexivity.
  - split.
    + apply H. split; [vm_compute; reflexivity|]. rewrite owned_direct by done. cbn.
      intros [(u & [= <-] & Hu)|(x & [= <-] & [=])]. by apply elem_of_singleton in Hu.
    + rewrite H. intros [_ Hn]. apply Hn. eapply own_user; [reflexivity|by apply elem_of_singleton].
Defined.

Lemma deletion_keeps_links_witness : linked (remove_auth_state {[ "u1" ]} None ex_store).
Proof.
  apply (deletion_keeps_links ex_store {[ "u1" ]} None ex_keyed).
  split; intros r x Hr Hx; destruct r; try discriminate Hx; vm_compute in Hr; discriminate Hr.
Defined.

Lemma create_realm_fresh_witness :
  realm_empty "r9" (create_realm Tokens.Immediate (Ok tt) "t" "r9" "https://r9" ex_store).2.
Proof.
  refine (proj1 (create_realm_fresh Tokens.Immediate (Ok tt) "t" "r9" "https://r9" ex_store (Ok tt)
    (create_realm Tokens.Immediate (Ok tt) "t" "r9" "https://r9" ex_store).2 ex_keyed ex_users_keyed _)).
  assert ((create_realm Tokens.Immediate (Ok tt) "t" "r9" "https://r9" ex_store).1 = Ok tt) as E by (vm_compute; reflexivity).
  destruct (create_realm Tokens.Immediate (Ok tt) "t" "r9" "https://r9" ex_store) as [r s']. cbn in E. by rewrite E.
Defined.

Lemma delete_realm_exact_witness :
  holds (delete_realm Tokens.Immediate (Ok tt) "r" "t" ex_store).2 (RSession "s3" (ex_session "s3" "r2" "u3")).
Proof.
  destruct (delete_realm_exact Tokens.Immediate (Ok tt) "r" "t" ex_store
    (delete_realm Tokens.Immediate (Ok tt) "r" "t" ex_store).1 (delete_realm Tokens.Immediate (Ok tt) "r" "t" ex_store).2
    ex_keyed ex_users_keyed) as (_ & H & _).
  - by destruct (delete_realm Tokens.Immediate (Ok tt) "r" "t" ex_store).
  - apply H; [vm_compute; reflexivity|]. rewrite owned_direct by done. intros [(u & [= <-] & Hu)|(x & [= <-] & [=])].
    assert (bool_decide ("u3" ∈ realm_users "r" ex_store) = false) as E by (vm_compute; reflexivity).
    exact (proj1 (bool_decide_eq_false _) E Hu).
Defined.

Lemma email_lookup_unambiguous_witness :
  ∃ u, get_user_by_email "r" "a@x" ex_store = Ok (Some u) ∧ u_id u = "u1".
Proof.
  destruct (email_lookup_unambiguous ex_calls empty_store (run ex_calls empty_store).1 ex_store "r" "a@x") as (o & Ho & H).
  - split; [intros k u Hu|intros k1 k2 u1 u2 e Hu]; vm_compute in Hu; discriminate Hu.
  - unfold ex_store. by destruct (run ex_calls empty_store).
  - destruct o as [u|]; [exists u; split; [exact Ho|]|vm_compute in Ho; discriminate Ho].
    vm_compute in Ho. injection Ho as <-. reflexivity.
Defined.

Definition ex_totp_calls : list (AccountOp (J := unit) * QidResult unit) :=
  [(StoreTotp (ex_totp "k" "u1"), Ok tt); (ConsumeTotp (ex_totp "k" "u1") 7, Ok tt);
   (StoreTotp (ex_totp "k" "u1"), Ok tt); (ConsumeTotp (ex_totp "k" "u1") 7, Ok tt);
   (ConsumeTotp (ex_totp "k" "u1") 8, Ok tt)].

Lemma totp_steps_increase_witness :
  totp_accepted "k" (run ex_totp_calls empty_store).1 = [7; 8] ∧
  StronglySorted N.lt (totp_accepted "k" (run ex_totp_calls empty_store).1).
Proof.
  split; [vm_compute; reflexivity|].
  apply (totp_steps_increase ex_totp_calls empty_store _ (run ex_totp_calls empty_store).2).
  - repeat constructor.
  - by destruct (run ex_totp_calls empty_store).
Defined.

Definition ex_revoked : Store (J := unit) := (revoke_session (Ok tt) "s1" None ex_store).2.
Definition ex_touch : list (AccountOp (J := unit) * QidResult unit) := [(TouchSession "s1" 900 None, Ok tt)].

Lemma revoked_session_final_witness :
  (fun x => is_active x 50) <$> get_session "s1" (run ex_touch ex_revoked).2 = Some false.
Proof.
  destruct (get_session "s1" (run ex_touch ex_revoked).2) as [x|] eqn:E; [|vm_compute in E; discriminate E].
  cbn. f_equal.
  refine (proj1 (revoked_session_final (Ok tt) "s1" None ex_store ex_revoked ex_touch (run ex_touch ex_revoked).1
    (run ex_touch ex_revoked).2 _ _ _) x 50 E).
  - assert ((revoke_session (Ok tt) "s1" None ex_store).1 = Ok true) as Hr by (vm_compute; reflexivity).
    unfold ex_revoked. destruct (revoke_session (Ok tt) "s1" None ex_store) as [r s']. cbn in Hr. by rewrite Hr.
  - repeat constructor.
  - by destruct (run ex_touch ex_revoked).
Defined.

Lemma update_client_duplicates_witness :
  let s := (create_client (Ok tt) (ex_client "c1" "r" "web") empty_store).2 in
  clients (update_client (Ok tt) (ex_client "c2" "r" "web") s).2 !! "c1" = Some (ex_client "c1" "r" "web") ∧
  clients (update_client (Ok tt) (ex_client "c2" "r" "web") s).2 !! "c2" = Some (ex_client "c2" "r" "web").
Proof.
  intros s. destruct (update_client_duplicates (Ok tt) (ex_client "c2" "r" "web") s "c1" (ex_client "c1" "r" "web"))
    as (_ & H1 & H2 & _); [vm_compute; reflexivity..|]. split; [exact H1|exact H2].
Defined.

End Accounts.
