(* ===== verification/AuditChain.v ===== *)
(** The audit log: events chained by hash, the two verifiers of a chain, retention planning
    (src/qid-core/src/models/audit.rs), the log of the file repository
    (src/qid-storage/src/file/audit.rs, the stream names of src/qid-storage/src/domain/mod.rs)
    and the evidence archive of the worker (src/qid-worker/src/audit.rs,
    src/qid-observability/src/audit.rs).

    SHA-256 and serde_json's writer are parameters.  The linked verifier follows hashes in a
    [while] loop that no counter bounds: [walk] runs it with fuel, [None] being a loop that has
    not ended, and the theorems say when it ends. *)

From S2P Require Import Prelude Utf8 Json Tokens Cluster.
Import Cluster(sha256_hex).

Module AuditChain.

(** * Walking a chain of hashes

    What the two verifiers share: an index of the records by the hash of their predecessor,
    and the walk from the record without one. *)

Section Links.
Context {A : Type} (prev hash : A → option string).

(** [by_previous_hash.insert] for each record in turn; the record that is a duplicate. *)
Fixpoint index (m : gmap (option string) A) (l : list A) : result (gmap (option string) A) A :=
  match l with
  | [] => Ok m
  | a :: l' => match m !! prev a with
               | Some _ => Err a
               | None => index (<[prev a := a]> m) l'
               end
  end.

(** [while let Some(current_hash) = current.event_hash.clone()] *)
Fixpoint walk (fuel : nat) (m : gmap (option string) A) (current : A) (checked : nat) : option (A * nat) :=
  match fuel with
  | O => None
  | S fuel' =>
      match hash current with
      | None => Some (current, checked)
      | Some h => match m !! Some h with
                  | None => Some (current, checked)
                  | Some next => walk fuel' m next (S checked)
                  end
      end
  end.

(** A list in the order of its links. *)
Fixpoint linked_from (p : option string) (l : list A) : Prop :=
  match l with
  | [] => True
  | a :: l' => prev a = p ∧ is_Some (hash a) ∧ linked_from (hash a) l'
  end.

End Links.

(** * Events (src/qid-core/src/models/audit.rs) *)

Section Audit.
Context {Num : Type} `{JsonNumber Num}.

Record AuditEvent : Type := {
  id : string; realm_id : option string; actor : string; action : string; target_type : string;
  target_id : string; reason : string; metadata_json : Value Num; created_at : N;
  previous_hash : option string; event_hash : option string
}.

Record AuditChainVerification : Type := {
  valid : bool; checked_events : nat; first_event_id : option string; last_event_id : option string;
  broken_event_id : option string; expected_previous_hash : option string; actual_previous_hash : option string;
  expected_event_hash : option string; actual_event_hash : option string
}.

Record AuditRetentionConfig : Type := {
  rc_realm_id : option string; rc_retention_days : N; rc_legal_hold : bool; updated_by : string;
  rc_reason : string; updated_at : N
}.

Record AuditRetentionEnforcementPlan : Type := {
  rp_realm_id : option string; rp_retention_days : N; rp_legal_hold : bool; cutoff_epoch : option N;
  rp_checked_events : nat; retained_event_ids : list string; expired_event_ids : list string
}.

(** [serde_json::json!] of an optional string. *)
Definition json_opt (o : option string) : Value Num :=
  match o with Some s => VString s | None => VNull end.

(** [canonical_json_value]: the keys of an object, sorted, with their canonical values. *)
Fixpoint canonical_json_value (v : Value Num) : Value Num :=
  match v with
  | VArray items => VArray (map canonical_json_value items)
  | VObject entries =>
      let canonical := map (fun e => (fst e, canonical_json_value (snd e))) entries in
      VObject (omap (fun k => pair k <$> obj_get canonical k) (sort_by str_leb (map fst entries)))
  | _ => v
  end.

(** The map [compute_hash] serialises: a [BTreeMap], so in the order of its keys. *)
Definition hashed_fields (e : AuditEvent) : list (string * Value Num) :=
  [("action", VString (action e)); ("actor", VString (actor e));
   ("created_at", VNumber (num_from_u64 (created_at e))); ("id", VString (id e));
   ("metadata_json", canonical_json_value (metadata_json e)); ("previous_hash", json_opt (previous_hash e));
   ("realm_id", json_opt (realm_id e)); ("reason", VString (reason e)); ("target_id", VString (target_id e));
   ("target_type", VString (target_type e))].

Section Hashing.
Context (sha256 : string → list N) (to_vec : list (string * Value Num) → option string).

Definition compute_hash (e : AuditEvent) : string :=
  sha256_hex sha256 (default "" (to_vec (hashed_fields e))).

Definition with_previous (e : AuditEvent) (p : option string) : AuditEvent :=
  {| id := id e; realm_id := realm_id e; actor := actor e; action := action e; target_type := target_type e;
     target_id := target_id e; reason := reason e; metadata_json := metadata_json e; created_at := created_at e;
     previous_hash := p; event_hash := event_hash e |}.

Definition with_hash (e : AuditEvent) (h : option string) : AuditEvent :=
  {| id := id e; realm_id := realm_id e; actor := actor e; action := action e; target_type := target_type e;
     target_id := target_id e; reason := reason e; metadata_json := metadata_json e; created_at := created_at e;
     previous_hash := previous_hash e; event_hash := h |}.

Definition with_chain_hashes (e : AuditEvent) (p : option string) : AuditEvent :=
  let e := with_previous e p in with_hash e (Some (compute_hash e)).

(** [event.event_hash.as_deref() == Some(event.compute_hash())] *)
Definition hash_matches (e : AuditEvent) : bool := bool_decide (event_hash e = Some (compute_hash e)).

(** ** Verification in the given order *)

Definition broken (checked : nat) (first last : option string) (e : AuditEvent) (ep ap eh ah : option string)
    : AuditChainVerification :=
  {| valid := false; checked_events := checked; first_event_id := first; last_event_id := last;
     broken_event_id := Some (id e); expected_previous_hash := ep; actual_previous_hash := ap;
     expected_event_hash := eh; actual_event_hash := ah |}.

Definition intact (checked : nat) (first last : option string) : AuditChainVerification :=
  {| valid := true; checked_events := checked; first_event_id := first; last_event_id := last;
     broken_event_id := None; expected_previous_hash := None; actual_previous_hash := None;
     expected_event_hash := None; actual_event_hash := None |}.

Fixpoint ordered_loop (p : option string) (checked : nat) (first last : option string) (events : list AuditEvent)
    : AuditChainVerification :=
  match events with
  | [] => intact checked first last
  | e :: events' =>
      let first := match first with None => Some (id e) | Some _ => first end in
      let checked := S checked in
      let last := Some (id e) in
      if negb (bool_decide (previous_hash e = p))
      then broken checked first last e p (previous_hash e) None (event_hash e)
      else if negb (hash_matches e)
      then broken checked first last e (previous_hash e) (previous_hash e) (Some (compute_hash e)) (event_hash e)
      else ordered_loop (event_hash e) checked first last events'
  end.

Definition verify_audit_chain_ordered (events : list AuditEvent) : AuditChainVerification :=
  ordered_loop None 0 None None events.

(** ** Verification by links, in any order *)

(** The loop that checks the hashes and builds the index: the first event that fails. *)
Fixpoint index_events (m : gmap (option string) AuditEvent) (events : list AuditEvent)
    : result (gmap (option string) AuditEvent) AuditChainVerification :=
  match events with
  | [] => Ok m
  | e :: events' =>
      if negb (hash_matches e)
      then Err (broken 1 (Some (id e)) (Some (id e)) e (previous_hash e) (previous_hash e)
                  (Some (compute_hash e)) (event_hash e))
      else match m !! previous_hash e with
           | Some _ => Err (broken 1 (Some (id e)) (Some (id e)) e (previous_hash e) (previous_hash e)
                              (event_hash e) (event_hash e))
           | None => index_events (<[previous_hash e := e]> m) events'
           end
  end.

Definition verify_audit_chain_linked (fuel : nat) (events : list AuditEvent) : option AuditChainVerification :=
  match events with
  | [] => Some (intact 0 None None)
  | e0 :: _ =>
      match index_events ∅ events with
      | Err v => Some v
      | Ok m =>
          match m !! None with
          | None => Some (broken 0 (Some (id e0)) (Some (id e0)) e0 None (previous_hash e0) (event_hash e0) (event_hash e0))
          | Some first =>
              match walk event_hash fuel m first 1 with
              | None => None
              | Some (current, checked) =>
                  Some (if negb (bool_decide (checked = length events))
                        then broken checked (Some (id first)) (Some (id current)) current (event_hash current) None
                               (event_hash current) (event_hash current)
                        else intact checked (Some (id first)) (Some (id current)))
              end
          end
      end
  end.

(** ** All streams *)

(** [Option<String>]'s order. *)
Definition realm_ltb (a b : option string) : bool :=
  match a, b with
  | None, Some _ => true
  | Some x, Some y => negb (str_leb y x)
  | _, None => false
  end.

(** [streams.entry(event.realm_id.clone()).or_default().push(event)] on a [BTreeMap], a list of
    its entries in the order of the keys. *)
Fixpoint push_stream (r : option string) (e : AuditEvent) (streams : list (option string * list AuditEvent))
    : list (option string * list AuditEvent) :=
  match streams with
  | [] => [(r, [e])]
  | (k, es) :: rest =>
      if bool_decide (k = r) then (k, es ++ [e]) :: rest
      else if realm_ltb r k then (r, [e]) :: streams
      else (k, es) :: push_stream r e rest
  end.

Definition streams_of (events : list AuditEvent) : list (option string * list AuditEvent) :=
  foldl (fun s e => push_stream (realm_id e) e s) [] events.

Fixpoint verify_streams (fuel : nat) (checked : nat) (first last : option string)
    (streams : list (option string * list AuditEvent)) : option AuditChainVerification :=
  match streams with
  | [] => Some (intact checked first last)
  | (_, es) :: rest =>
      v ← verify_audit_chain_linked fuel es;
      let first := match first with None => first_event_id v | Some _ => first end in
      let checked := (checked + checked_events v)%nat in
      let last := match last_event_id v with Some _ => last_event_id v | None => last end in
      if negb (valid v)
      then Some {| valid := false; checked_events := checked; first_event_id := first; last_event_id := last;
                   broken_event_id := broken_event_id v; expected_previous_hash := expected_previous_hash v;
                   actual_previous_hash := actual_previous_hash v; expected_event_hash := expected_event_hash v;
                   actual_event_hash := actual_event_hash v |}
      else verify_streams fuel checked first last rest
  end.

Definition verify_audit_chains_by_realm (fuel : nat) (events : list AuditEvent) : option AuditChainVerification :=
  verify_streams fuel 0 None None (streams_of events).

(** ** Retention *)

Definition plan_audit_retention_enforcement (config : AuditRetentionConfig) (now : N) (events : list AuditEvent)
    : AuditRetentionEnforcementPlan :=
  if rc_legal_hold config
  then {| rp_realm_id := rc_realm_id config; rp_retention_days := rc_retention_days config; rp_legal_hold := true;
          cutoff_epoch := None; rp_checked_events := length events; retained_event_ids := map id events;
          expired_event_ids := [] |}
  else
    let retention_seconds := saturating_mul64 (rc_retention_days config) (24 * 60 * 60) in
    let cutoff := saturating_sub now retention_seconds in
    let retained := map id (List.filter (fun e => negb (created_at e <? cutoff)) events) in
    let expired := map id (List.filter (fun e => created_at e <? cutoff) events) in
    {| rp_realm_id := rc_realm_id config; rp_retention_days := rc_retention_days config; rp_legal_hold := false;
       cutoff_epoch := Some cutoff; rp_checked_events := (length retained + length expired)%nat;
       retained_event_ids := retained; expired_event_ids := expired |}.

(** * The log of the file repository (src/qid-storage/src/file/audit.rs) *)

Record AuditLog : Type := {
  audit_events : list AuditEvent;
  audit_retention_configs : gmap string AuditRetentionConfig
}.

(** [audit_retention_stream_id] (src/qid-storage/src/domain/mod.rs) *)
Definition audit_retention_stream_id (realm : option string) : string :=
  match realm with Some r => "realm:" +:+ r | None => "global" end.

(** [events.iter().rfind(|s| s.realm_id == event.realm_id)] *)
Definition last_of_realm (realm : option string) (events : list AuditEvent) : option AuditEvent :=
  last (List.filter (fun s => bool_decide (realm_id s = realm)) events).

(** [append_audit_event]: the event stays in memory when the write fails. *)
Definition append_audit_event (saved : QidResult unit) (event : AuditEvent) (log : AuditLog) : QidResult unit * AuditLog :=
  match Tokens.reject_duplicate_id (existsb (fun s => String.eqb (id s) (id event)) (audit_events log))
          ("Audit event ID " +:+ id event +:+ " already exists") with
  | Err e => (Err e, log)
  | Ok _ =>
      let previous := last_of_realm (realm_id event) (audit_events log) ≫= event_hash in
      (saved, {| audit_events := audit_events log ++ [with_chain_hashes event previous];
                 audit_retention_configs := audit_retention_configs log |})
  end.

(** The events a scope selects: of one realm, or all of them. *)
Definition in_scope (realm : option string) (events : list AuditEvent) : list AuditEvent :=
  List.filter (fun e => Tokens.is_none_or realm (fun r => bool_decide (realm_id e = Some r))) events.

(** Newest first: [(b.created_at, &b.id).cmp(&(a.created_at, &a.id))] *)
Definition newest_first (a b : AuditEvent) : bool :=
  (created_at b <? created_at a) || ((created_at b =? created_at a) && str_leb (id b) (id a)).

Definition list_audit_events (realm : option string) (limit : nat) (log : AuditLog) : list AuditEvent :=
  take limit (sort_by newest_first (in_scope realm (audit_events log))).

Definition verify_audit_chain (fuel : nat) (realm : option string) (log : AuditLog) : option AuditChainVerification :=
  let events := in_scope realm (audit_events log) in
  match realm with
  | Some _ => verify_audit_chain_linked fuel events
  | None => verify_audit_chains_by_realm fuel events
  end.

Definition set_audit_retention_config (saved : QidResult unit) (config : AuditRetentionConfig) (log : AuditLog)
    : QidResult unit * AuditLog :=
  (saved, {| audit_events := audit_events log;
             audit_retention_configs :=
               <[audit_retention_stream_id (rc_realm_id config) := config]> (audit_retention_configs log) |}).

Definition get_audit_retention_config (realm : option string) (log : AuditLog) : option AuditRetentionConfig :=
  audit_retention_configs log !! audit_retention_stream_id realm.

Definition plan_audit_retention (realm : option string) (now : N) (log : AuditLog) : option AuditRetentionEnforcementPlan :=
  match audit_retention_configs log !! audit_retention_stream_id realm with
  | None => None
  | Some config => Some (plan_audit_retention_enforcement config now (in_scope realm (audit_events log)))
  end.

End Hashing.
End Audit.

(** ** The walk ends when no two records share a hash *)

Section LinkFacts.
Context {A : Type} (prev hash : A → option string).

Definition indexes (m : gmap (option string) A) (es : list A) : Prop :=
  ∀ k a, m !! k = Some a ↔ a ∈ es ∧ prev a = k.

(** Every record has a hash, and the hash determines the predecessor's. *)
Definition hash_ok (es : list A) : Prop :=
  (∀ a, a ∈ es → is_Some (hash a)) ∧ (∀ a b, a ∈ es → b ∈ es → hash a = hash b → prev a = prev b).

Lemma index_Ok m l m' :
  index prev m l = Ok m' →
  NoDup (map prev l) ∧ (∀ a, a ∈ l → m !! prev a = None) ∧
  (∀ k a, m' !! k = Some a ↔ m !! k = Some a ∨ (a ∈ l ∧ prev a = k)).
Proof.
  revert m. induction l as [|a l IH]; intros m; simpl.
  - intros [= <-]. split; [constructor|]. split; [by intros a ?%not_elem_of_nil|].
    intros k a. split; [by left|]. intros [?|[?%not_elem_of_nil _]]; done.
  - destruct (m !! prev a) eqn:E; [done|]. intros Hi. destruct (IH _ Hi) as (Hn & Hf & Hl).
    assert (∀ b, b ∈ l → prev b ≠ prev a) as Hne.
    { intros b Hb Eb. specialize (Hf _ Hb). rewrite Eb, lookup_insert_eq in Hf. done. }
    split; [apply NoDup_cons; split; [|done]; rewrite elem_of_map; intros (b & Eb & Hb); by destruct (Hne b Hb)|].
    split.
    + intros b [->|Hb]%elem_of_cons; [done|]. specialize (Hf _ Hb).
      by rewrite lookup_insert_ne in Hf by (symmetry; auto).
    + intros k b. rewrite Hl, lookup_insert_Some, elem_of_cons. split.
      * intros [[[<- <-]|[_ ?]]|[? ?]]; auto.
      * intros [Hm|[[->|?] Hk]]; [|by left; left|by right].
        left. right. split; [|done]. intros <-. by rewrite E in Hm.
Qed.

Lemma index_complete m l :
  NoDup (map prev l) → (∀ a, a ∈ l → m !! prev a = None) → ∃ m', index prev m l = Ok m'.
Proof.
  revert m. induction l as [|a l IH]; intros m Hn Hf; simpl in *; [by eexists|].
  apply NoDup_cons in Hn as [Ha Hn]. rewrite (Hf a) by left. apply IH; [done|].
  intros b Hb. rewrite lookup_insert_ne; [apply Hf; by right|].
  intros E. apply Ha. rewrite elem_of_map. by exists b.
Qed.

Lemma index_indexes l m : index prev ∅ l = Ok m → NoDup (map prev l) ∧ indexes m l.
Proof using prev.
  intros Hi. apply index_Ok in Hi as (Hn & _ & Hl). split; [done|].
  intros k a. rewrite Hl, lookup_empty. split; [intros [E|E]; [discriminate E|exact E]|intros E; by right].
Qed.

Lemma indexes_inj m es a b : indexes m es → a ∈ es → b ∈ es → prev a = prev b → a = b.
Proof.
  intros Hm Ha Hb E. assert (m !! prev a = Some a) by (apply Hm; done).
  assert (m !! prev a = Some b) by (apply Hm; auto). congruence.
Qed.

Lemma linked_app p l1 l2 :
  linked_from prev hash p (l1 ++ l2) ↔
  linked_from prev hash p l1 ∧ linked_from prev hash (from_option hash p (last l1)) l2.
Proof.
  revert p. induction l1 as [|a l1 IH]; intros p; [simpl; tauto|].
  rewrite last_cons. simpl. rewrite IH. destruct (last l1); simpl; tauto.
Qed.

(** A record of a linked list starts it or follows another. *)
Lemma linked_prev p l x :
  linked_from prev hash p l → x ∈ l →
  prev x = p ∨ ∃ l1 y l2, l = l1 ++ y :: x :: l2 ∧ prev x = hash y ∧ is_Some (hash y).
Proof.
  intros Hl (l1 & l2 & ->)%list_elem_of_split.
  pose proof Hl as Hl0. apply linked_app in Hl as [_ (Ex & _)].
  destruct (last l1) as [y|] eqn:El; simpl in Ex; [|by left].
  apply last_Some in El as [l1' ->]. right. exists l1', y, l2. split; [by rewrite <- app_assoc|].
  split; [done|]. rewrite <- app_assoc in Hl0. apply linked_app in Hl0 as [_ Hl0]. apply Hl0.
Qed.

(** The chain of a list without collisions never repeats a predecessor. *)
Lemma chain_prevs_NoDup l : linked_from prev hash None l → hash_ok l → NoDup (map prev l).
Proof.
  induction l as [|x l IH] using rev_ind; intros Hl Hok; [constructor|].
  apply linked_app in Hl as [Hl (Ex & _)].
  assert (hash_ok l) as Hokl.
  { destruct Hok as [H1 H2]. split; [intros a Ha; apply H1; set_solver|].
    intros a b Ha Hb. apply H2; set_solver. }
  specialize (IH Hl Hokl). rewrite map_app. apply NoDup_app. split; [done|]. split; [|apply NoDup_singleton].
  intros k Hk ->%list_elem_of_singleton. apply elem_of_map in Hk as (y & Ey & Hy).
  destruct (last l) as [z|] eqn:Ez; simpl in Ex; [|by apply last_None in Ez as ->; apply not_elem_of_nil in Hy].
  apply last_Some in Ez as [l0 ->].
  destruct (linked_prev _ _ _ Hl Hy) as [Ey0|(l1 & w & l2 & El & Ew & _)].
  - destruct (proj1 Hokl z) as [h Hh]; [set_solver|]. congruence.
  - assert (prev w = prev z) as Ewz by (apply Hokl; [rewrite El|..]; try set_solver; congruence).
    assert (length l1 = length l0) as Hlen.
    { apply (NoDup_lookup (map prev (l0 ++ [z])) _ _ (prev z) IH).
      - rewrite El. apply list_lookup_fmap_Some. exists w. split; [done|]. apply list_lookup_middle. done.
      - apply list_lookup_fmap_Some. exists z. split; [done|]. apply list_lookup_middle. done. }
    apply (f_equal length) in El. rewrite !length_app in El. simpl in El. lia.
Qed.

(** From the record without a predecessor the walk ends, with the longest chain. *)
Lemma walk_chain es m fuel : ∀ v cur n,
  indexes m es → hash_ok es → (length es < fuel + length v)%nat → (n = length v)%nat →
  linked_from prev hash None v → NoDup v → last v = Some cur → (∀ x, x ∈ v → x ∈ es) →
  ∃ cur' l, walk hash fuel m cur n = Some (cur', length l) ∧ last l = Some cur' ∧ head l = head v ∧
    linked_from prev hash None l ∧ NoDup l ∧ (∀ x, x ∈ l → x ∈ es) ∧ (∀ a, a ∈ es → prev a ≠ hash cur').
Proof.
  induction fuel as [|fuel IH]; intros v cur n Hm Hok Hf -> Hl Hn Hlast Hin.
  { assert (length v ≤ length es)%nat; [|simpl in *; lia]. by apply submseteq_length, NoDup_submseteq. }
  assert (cur ∈ v) as Hcur by (by apply last_Some_elem_of).
  destruct (proj1 Hok cur) as [h Hh]; [auto|]. simpl. rewrite Hh.
  destruct (m !! Some h) as [next|] eqn:En.
  - apply Hm in En as [Hnext Ep].
    destruct (IH (v ++ [next]) next (S (length v))) as (cur' & l & ? & ? & Hh' & ?); try done.
    + rewrite length_app. simpl. lia.
    + rewrite length_app. simpl. lia.
    + apply linked_app. split; [done|]. rewrite Hlast. simpl. split_and!; [congruence|by apply Hok|done].
    + apply NoDup_app. split; [done|]. split; [|apply NoDup_singleton].
      intros x Hx ->%list_elem_of_singleton. destruct (linked_prev _ _ _ Hl Hx) as [?|(l1 & w & l2 & El & Ew & _)];
        [congruence|].
      assert (w = cur) as ->.
      { eapply indexes_inj; [done|apply Hin; set_solver|by apply Hin|]. apply Hok; [apply Hin; set_solver|by apply Hin|congruence]. }
      apply last_Some in Hlast as [l0 E0]. rewrite El in E0, Hn.
      assert (length l1 = length l0) as Hlen.
      { apply (NoDup_lookup (l1 ++ cur :: next :: l2) _ _ cur Hn); [by apply list_lookup_middle|].
        rewrite E0. by apply list_lookup_middle. }
      apply (f_equal length) in E0. rewrite !length_app in E0. simpl in E0. lia.
    + by rewrite last_snoc.
    + intros x [Hx| ->%list_elem_of_singleton]%elem_of_app; auto.
    + exists cur', l. split_and!; try tauto. rewrite Hh'. destruct v; [done|]. done.
  - exists cur, v. split_and!; try done. intros a Ha E. rewrite Hh in E.
    assert (m !! Some h = Some a) by (by apply Hm). congruence.
Qed.

(** Of two chains of one index, the one that cannot be continued
    continues the other. *)
Lemma chain_prefix es m p l1 l2 :
  indexes m es → linked_from prev hash p l1 → linked_from prev hash p l2 →
  (∀ x, x ∈ l1 → x ∈ es) → (∀ x, x ∈ l2 → x ∈ es) →
  (∀ a, a ∈ es → prev a ≠ from_option hash p (last l1)) → l2 `prefix_of` l1.
Proof.
  intros Hm. revert p l2. induction l1 as [|a l1 IH]; intros p [|b l2] H1 H2 I1 I2 Ht; simpl in H1, H2; try apply prefix_nil.
  - exfalso. apply (Ht b); [apply I2; left|apply H2].
  - destruct H1 as (Ea & _ & H1), H2 as (Eb & _ & H2).
    assert (a = b) as <- by (eapply indexes_inj; [done|apply I1; left|apply I2; left|congruence]).
    apply prefix_cons, (IH (hash a)); try done.
    + intros x Hx. apply I1. by right.
    + intros x Hx. apply I2. by right.
    + intros c Hc. specialize (Ht c Hc). rewrite last_cons in Ht. by destruct (last l1).
Qed.

End LinkFacts.

(** ** The two verifiers agree *)

Lemma HEX_inj a b : a < 16 → b < 16 → HEX a = HEX b → a = b.
Proof.
  intros Ha Hb E.
  assert (∀ n, n < 16 → n ∈ [0;1;2;3;4;5;6;7;8;9;10;11;12;13;14;15]) as Hn
    by (intros n Hn; rewrite !elem_of_cons; lia).
  apply Hn in Ha, Hb. rewrite !elem_of_cons, elem_of_nil in Ha, Hb.
  repeat (destruct Ha as [->|Ha]; [repeat (destruct Hb as [->|Hb]; [by vm_compute in E|]); done|]). done.
Qed.

Lemma hex_encode_inj l1 : ∀ l2, Forall (fun b => b < 256) l1 → Forall (fun b => b < 256) l2 →
  hex_encode_lower l1 = hex_encode_lower l2 → l1 = l2.
Proof.
  induction l1 as [|a l1 IH]; intros [|b l2] H1 H2 E; try done.
  apply Forall_cons in H1 as [Ha H1], H2 as [Hb H2].
  change (String (HEX (N.shiftr a 4)) (String (HEX (N.land a 15)) (hex_encode_lower l1)) =
          String (HEX (N.shiftr b 4)) (String (HEX (N.land b 15)) (hex_encode_lower l2))) in E.
  injection E as E1 E2 E. rewrite !N.shiftr_div_pow2 in E1.
  change 15 with (N.ones 4) in E2. rewrite !N.land_ones in E2.
  change (2 ^ 4) with 16 in E1, E2.
  apply HEX_inj in E1; [|by apply N.Div0.div_lt_upper_bound..].
  apply HEX_inj in E2; [|by apply N.mod_lt..].
  f_equal; [|by apply IH]. rewrite (N.div_mod a 16), (N.div_mod b 16) by done. congruence.
Qed.

Section ChainFacts.
Context {Num : Type} `{JsonNumberLaws Num}.
Context (sha256 : string → list N) (to_vec : list (string * Value Num) → option string).

(** No two of the events have the same hash without having the same hashed fields. *)
Definition collision_free (es : list AuditEvent) : Prop :=
  ∀ a b, a ∈ es → b ∈ es → compute_hash sha256 to_vec a = compute_hash sha256 to_vec b →
    hashed_fields a = hashed_fields b.

(** Only SHA-256 itself can make events collide: the hexadecimal form of a digest and the JSON
    text of a map do not, when digests are bytes and serde_json writes two maps differently. *)
Lemma sha256_collision_free es :
  (∀ s, Forall (fun b => b < 256) (sha256 s)) → (∀ f, is_Some (to_vec f)) → (∀ f g, to_vec f = to_vec g → f = g) →
  (∀ a b, a ∈ es → b ∈ es →
     sha256 (default "" (to_vec (hashed_fields a))) = sha256 (default "" (to_vec (hashed_fields b))) →
     default "" (to_vec (hashed_fields a)) = default "" (to_vec (hashed_fields b))) →
  collision_free es.
Proof.
  intros Hb Ht Hi Hs a b Ha Hb' E. apply Hi.
  assert (default "" (to_vec (hashed_fields a)) = default "" (to_vec (hashed_fields b))) as Ed
    by (apply Hs; [done..|]; by apply hex_encode_inj).
  destruct (Ht (hashed_fields a)) as [x Hx], (Ht (hashed_fields b)) as [y Hy].
  rewrite Hx, Hy in Ed |- *. simpl in Ed. by f_equal.
Qed.

Lemma json_opt_inj (a b : option string) : json_opt (Num := Num) a = json_opt b → a = b.
Proof. destruct a, b; simpl; congruence. Qed.


Lemma hashed_previous (a b : AuditEvent (Num := Num)) :
  hashed_fields a = hashed_fields b → previous_hash a = previous_hash b.
Proof. intros E. unfold hashed_fields in E. injection E as _ _ _ _ _ E _ _ _ _. by apply json_opt_inj. Qed.

Abbreviation matches := (hash_matches sha256 to_vec).

Lemma matches_hash e : matches e = true → event_hash e = Some (compute_hash sha256 to_vec e).
Proof. unfold hash_matches. apply (proj1 (bool_decide_eq_true _)). Qed.

Lemma matches_hash_ok es :
  collision_free es → (∀ e, e ∈ es → matches e = true) → hash_ok previous_hash event_hash es.
Proof.
  intros Hc Hm. assert (∀ e, e ∈ es → event_hash e = Some (compute_hash sha256 to_vec e)) as He
    by (intros e He; by apply matches_hash, Hm).
  split; [intros a Ha; rewrite (He a Ha); by eexists|].
  intros a b Ha Hb E. rewrite (He a), (He b) in E by done. injection E as E.
  apply hashed_previous, Hc; auto.
Qed.

Lemma ordered_loop_valid es : ∀ p checked first last_id,
  valid (ordered_loop sha256 to_vec p checked first last_id es) = true ↔
  linked_from previous_hash event_hash p es ∧ (∀ e, e ∈ es → matches e = true).
Proof.
  induction es as [|e es IH]; intros p checked first last_id; simpl.
  { split; [|done]. intros _. split; [done|]. by intros e ?%not_elem_of_nil. }
  case_bool_decide as Ep; simpl; [|by split; [|intros [(? & _) _]]].
  destruct (matches e) eqn:Em; simpl.
  - rewrite IH. split.
    + intros [Hl Hm]. split; [|by intros x [->|Hx]%elem_of_cons; auto].
      split_and!; [done| |done]. apply bool_decide_eq_true in Em. rewrite Em. by eexists.
    + intros [(_ & _ & Hl) Hm]. split; [done|]. intros x Hx. apply Hm. by right.
  - split; [done|]. intros [_ Hm]. rewrite <- Em. apply Hm. left.
Qed.

Lemma ordered_valid es :
  valid (verify_audit_chain_ordered sha256 to_vec es) = true ↔
  linked_from previous_hash event_hash None es ∧ (∀ e, e ∈ es → matches e = true).
Proof. apply ordered_loop_valid. Qed.

Lemma index_events_spec es : ∀ m,
  match index_events sha256 to_vec m es with
  | Ok m' => (∀ e, e ∈ es → matches e = true) ∧ index previous_hash m es = Ok m'
  | Err v => valid v = false ∧
             ((∃ e, e ∈ es ∧ matches e = false) ∨ ∃ e, index previous_hash m es = Err e)
  end.
Proof.
  induction es as [|e es IH]; intros m; simpl.
  { split; [by intros e ?%not_elem_of_nil|done]. }
  destruct (matches e) eqn:Em; simpl; [|split; [done|]; left; exists e; split; [left|done]].
  destruct (m !! previous_hash e) as [x|] eqn:Ex.
  { split; [done|]. right. by exists e. }
  specialize (IH (<[previous_hash e := e]> m)). destruct (index_events _ _ _ es) as [m'|v].
  - destruct IH as [H1 H2]. split; [|done]. by intros x [->|Hx]%elem_of_cons; auto.
  - destruct IH as [Hv [(x & Hx & Hm)|Hi]]; (split; [done|]); [left; exists x; split; [by right|done]|by right].
Qed.

Lemma ordered_perm es es' :
  collision_free es → es' ≡ₚ es → valid (verify_audit_chain_ordered sha256 to_vec es') = true →
  linked_from previous_hash event_hash None es' ∧ (∀ e, e ∈ es → matches e = true) ∧ NoDup (map previous_hash es).
Proof.
  intros Hc Hp [Hl Hm]%ordered_valid.
  assert (∀ e, e ∈ es → matches e = true) as Hm' by (intros e He; apply Hm; by rewrite Hp).
  split; [done|]. split; [done|]. apply (NoDup_Permutation_proper (map previous_hash es')); [by apply Permutation_map|].
  apply (chain_prevs_NoDup _ event_hash); [done|]. destruct (matches_hash_ok es Hc Hm') as [H1 H2].
  split; [intros a|intros a b]; rewrite !Hp; auto.
Qed.

Lemma linked_verifies fuel es :
  collision_free es → (length es < fuel)%nat →
  ∃ v, verify_audit_chain_linked sha256 to_vec fuel es = Some v ∧
       (valid v = true ↔ ∃ es', es' ≡ₚ es ∧ valid (verify_audit_chain_ordered sha256 to_vec es') = true) ∧
       (valid v = true → checked_events v = length es).
Proof.
  intros Hc Hf. destruct es as [|e0 es0].
  { exists (intact 0 None None). split_and!; [done| |done]. split; [|done]. intros _. by exists []. }
  unfold verify_audit_chain_linked. pose proof (index_events_spec (e0 :: es0) ∅) as Hi.
  assert (e0 :: es0 ≠ []) as Hne by done. remember (e0 :: es0) as es eqn:Ees. clear Ees.
  destruct (index_events sha256 to_vec ∅ es) as [m|v].
  - destruct Hi as [Hm Hi]. apply (index_indexes previous_hash) in Hi as [Hn Hx]. destruct (m !! None) as [first|] eqn:Ef.
    + apply Hx in Ef as [Hfirst Ep].
      destruct (walk_chain previous_hash event_hash es m fuel [first] first 1) as
        (cur & l & Hw & Hlast & _ & Hl & Hnd & Hin & Hend);
        [done|by apply matches_hash_ok|simpl; lia|done| |apply NoDup_singleton|done|by intros x ->%list_elem_of_singleton|].
      { split_and!; [done|by apply (matches_hash_ok es)|done]. }
      rewrite Hw. assert (l ⊆+ es) as Hsub by by apply NoDup_submseteq.
      eexists. split; [reflexivity|]. case_bool_decide as El; simpl.
      * split; [|done]. split; [|done]. intros _. exists l.
        split; [by apply submseteq_length_Permutation; [|rewrite El]|]. apply ordered_valid. auto.
      * split; [|done]. split; [done|]. intros (es' & Hp & Hv). destruct El.
        apply (ordered_perm es) in Hv as (Hl' & _); [|done..].
        assert (length es' ≤ length l)%nat.
        { apply prefix_length.
          eapply chain_prefix; [exact Hx|exact Hl|exact Hl'|done|intros x; by rewrite Hp|by rewrite Hlast]. }
        apply Permutation_length in Hp. apply submseteq_length in Hsub. lia.
    + eexists. split; [reflexivity|]. split; [|done]. split; [done|]. intros (es' & Hp & Hv).
      apply (ordered_perm es) in Hv as (Hl' & _); [|done..]. destruct es' as [|x es']; [by apply Permutation_nil_l in Hp|].
      destruct Hl' as (Ex & _). assert (m !! None = Some x) as E; [|congruence]. apply Hx. split; [|done]. rewrite <- Hp. left.
  - destruct Hi as [Hv Hi]. exists v. rewrite Hv. split; [done|]. split; [|done]. split; [done|].
    intros (es' & Hp & Hv'). apply (ordered_perm es) in Hv' as (_ & Hm & Hn); [|done..].
    destruct Hi as [(e & He & Ee)|(e & Ee)]; [by rewrite Hm in Ee|].
    destruct (index_complete previous_hash ∅ es Hn) as [m' Hm']; [intros; apply lookup_empty|congruence].
Qed.

(** The two verifiers of the log agree.  On any list of events no two of which collide, the
    walk along the hashes ends within as many steps as there are events, and the list is accepted
    exactly when its events can be put in an order the ordered verifier accepts; then every
    event has been checked. *)
Theorem linked_iff_ordered fuel es :
  collision_free es → (length es < fuel)%nat →
  ∃ v, verify_audit_chain_linked sha256 to_vec fuel es = Some v ∧
       (valid v = true ↔ ∃ es', es' ≡ₚ es ∧ valid (verify_audit_chain_ordered sha256 to_vec es') = true) ∧
       (valid v = true → checked_events v = length es).
Proof. intros Hc Hf. exact (linked_verifies fuel es Hc Hf). Qed.

(** ** Tampering *)







Lemma collision_free_sub es es' : (∀ e, e ∈ es' → e ∈ es) → collision_free es → collision_free es'.
Proof. intros Hs Hc a b Ha Hb. apply Hc; auto. Qed.



(** ** Appending *)

Lemma realm_ltb_irrefl r : realm_ltb r r = false.
Proof. destruct r as [x|]; [|done]. simpl. destruct (str_leb x x) eqn:E; [done|]. apply str_leb_total in E as E'. congruence. Qed.

Lemma realm_ltb_trans a b c : realm_ltb a b = true → realm_ltb b c = true → realm_ltb a c = true.
Proof.
  destruct a as [x|], b as [y|], c as [z|]; simpl; try done. rewrite !negb_true_iff. intros H1 H2.
  destruct (str_leb z x) eqn:E; [|done]. rewrite <- H2. symmetry. apply str_leb_total in H1. eauto using str_leb_trans.
Qed.

Lemma realm_ltb_total a b : a ≠ b → realm_ltb a b = false → realm_ltb b a = true.
Proof.
  destruct a as [x|], b as [y|]; simpl; try done. rewrite negb_false_iff, negb_true_iff. intros Hne H1.
  destruct (str_leb x y) eqn:E; [|done]. destruct Hne. f_equal. by apply str_leb_antisym.
Qed.

Abbreviation stream_lt := (fun a b : option string * list (AuditEvent (Num := Num)) => realm_ltb (fst a) (fst b) = true).

Lemma push_stream_sorted r e (s : list (option string * list (AuditEvent (Num := Num)))) :
  StronglySorted stream_lt s →
  StronglySorted stream_lt (push_stream r e s) ∧
  (∀ k es, (k, es) ∈ push_stream r e s ↔
     (k ≠ r ∧ (k, es) ∈ s) ∨
     (k = r ∧ ∃ es0, es = es0 ++ [e] ∧ ((r, es0) ∈ s ∨ es0 = [] ∧ ∀ x, (r, x) ∉ s))).
Proof.
  induction s as [|[k0 es0] s IH]; intros Hs; simpl.
  { split; [by repeat constructor|]. intros k es. rewrite list_elem_of_singleton. split.
    - intros [= -> ->]. right. split; [done|]. exists []. split; [done|]. right. split; [done|]. by intros x ?%not_elem_of_nil.
    - intros [[_ ?%not_elem_of_nil]|(-> & x & -> & [?%not_elem_of_nil|[-> _]])]; done. }
  apply StronglySorted_inv in Hs as [Hs Hk]. pose proof (proj1 (Forall_forall _ _) Hk) as Hk'. simpl in Hk'.
  destruct (IH Hs) as [IHs IHe]. case_bool_decide as E0; [subst k0|destruct (realm_ltb r k0) eqn:Elt].
  - assert (∀ x, (r, x) ∉ s) as Hr by (intros x Hx; specialize (Hk' _ Hx); simpl in Hk'; by rewrite realm_ltb_irrefl in Hk').
    split; [constructor; [done|exact Hk]|]. intros k es. rewrite !elem_of_cons. split.
    + intros [[= -> ->]|Hin]; [right; split; [done|]; exists es0; split; [done|]; left; left; done|].
      left. split; [|by right]. intros ->. by destruct (Hr es).
    + intros [[Hne [[= -> ->]|Hin]]|(-> & x & -> & [[[= ->]|Hin]%elem_of_cons|[-> Hn]])]; [done|by right|by left| |].
      * by destruct (Hr x).
      * destruct (Hn es0). left.
  - assert (∀ x, (r, x) ∉ (k0, es0) :: s) as Hr.
    { intros x [[= -> ->]|Hx]%elem_of_cons; [by rewrite realm_ltb_irrefl in Elt|].
      specialize (Hk' _ Hx). simpl in Hk'. pose proof (realm_ltb_trans _ _ _ Elt Hk') as Hc. by rewrite realm_ltb_irrefl in Hc. }
    split.
    + constructor; [by constructor|]. constructor; [done|]. apply Forall_forall. intros [k es] Hin. simpl.
      eapply realm_ltb_trans; [exact Elt|]. exact (Hk' _ Hin).
    + intros k es. rewrite elem_of_cons. split.
      * intros [[= -> ->]|Hin]; [right; split; [done|]; exists []; split; [done|]; by right|].
        left. split; [|done]. intros ->. by destruct (Hr es).
      * intros [[_ Hin]|(-> & x & -> & [Hin|[-> _]])]; [by right|by destruct (Hr x)|by left].
  - assert (realm_ltb k0 r = true) as Egt by (by apply realm_ltb_total).
    split.
    + constructor; [done|]. apply Forall_forall. intros [k es] Hin. simpl.
      apply IHe in Hin as [[_ Hin]|[-> _]]; [exact (Hk' _ Hin)|done].
    + intros k es. rewrite elem_of_cons, IHe, elem_of_cons. split.
      * intros [[= -> ->]|[[Hne Hin]|(-> & x & -> & [Hin|[-> Hn]])]].
        -- left. split; [done|by left].
        -- left. split; [done|by right].
        -- right. split; [done|]. exists x. split; [done|]. left. by right.
        -- right. split; [done|]. exists []. split; [done|]. right. split; [done|].
           intros y [[= -> _]|Hy]%elem_of_cons; [done|]. by destruct (Hn y).
      * intros [[Hne [[= -> ->]|Hin]]|(-> & x & -> & [[[= -> _]|Hin]%elem_of_cons|[-> Hn]])]; [by left|by right; left|done| |].
        -- right. right. split; [done|]. exists x. split; [done|by left].
        -- right. right. split; [done|]. exists []. split; [done|]. right. split; [done|]. intros y Hy. destruct (Hn y). by right.
Qed.

Definition of_realm (r : option string) (es : list (AuditEvent (Num := Num))) : list AuditEvent :=
  List.filter (fun e => bool_decide (realm_id e = r)) es.

Lemma of_realm_snoc r es e : of_realm r (es ++ [e]) = of_realm r es ++ (if bool_decide (realm_id e = r) then [e] else []).
Proof. unfold of_realm. by rewrite List.filter_app. Qed.

Lemma of_realm_nil r es : of_realm r es = [] ↔ ∀ e, e ∈ es → realm_id e ≠ r.
Proof.
  unfold of_realm. rewrite lfilter_nil. split; intros Hn e He; [|by apply bool_decide_eq_false, Hn].
  specialize (Hn e He). by apply bool_decide_eq_false in Hn.
Qed.

(** The streams are the realms of the log, each with its events in the order of the log. *)
Lemma streams_of_spec es :
  StronglySorted stream_lt (streams_of es) ∧
  (∀ k l, (k, l) ∈ streams_of es ↔ l = of_realm k es ∧ l ≠ []).
Proof.
  induction es as [|e es [IHs IHe]] using rev_ind.
  { split; [constructor|]. intros k l. split; [by intros ?%not_elem_of_nil|]. intros [-> ?]. done. }
  unfold streams_of. rewrite foldl_app. fold (streams_of es). simpl.
  destruct (push_stream_sorted (realm_id e) e (streams_of es) IHs) as [Hs He]. split; [done|].
  intros k l. rewrite He, of_realm_snoc. split.
  - intros [[Hne Hin]|(-> & l0 & -> & Hl)].
    + apply IHe in Hin as [-> Hn]. rewrite bool_decide_false by congruence. by rewrite app_nil_r.
    + rewrite bool_decide_true by done. split; [|by destruct l0].
      destruct Hl as [[-> _]%IHe|[-> Hn]]; [done|]. f_equal.
      destruct (of_realm (realm_id e) es) as [|x l] eqn:E; [done|]. destruct (Hn (x :: l)). apply IHe. by rewrite E.
  - intros [-> Hn]. case_bool_decide as E; [right|left].
    + split; [done|]. exists (of_realm k es). split; [done|]. rewrite E.
      destruct (of_realm k es) as [|x l] eqn:El; [|left; apply IHe; by rewrite El]. right. split; [done|].
      intros x [-> Hx]%IHe. done.
    + rewrite app_nil_r in *. split; [done|]. by apply IHe.
Qed.

Lemma push_stream_count r e (s : list (option string * list (AuditEvent (Num := Num)))) :
  sum_list_with (fun x => length (snd x)) (push_stream r e s) = S (sum_list_with (fun x => length (snd x)) s).
Proof.
  induction s as [|[k es] s IH]; simpl; [done|]. case_bool_decide; simpl; [rewrite length_app; simpl; lia|].
  destruct (realm_ltb r k); simpl; [done|]. rewrite IH. lia.
Qed.

Lemma streams_of_count (es : list (AuditEvent (Num := Num))) :
  sum_list_with (fun x => length (snd x)) (streams_of es) = length es.
Proof.
  induction es as [|e es IH] using rev_ind; [done|]. unfold streams_of. rewrite foldl_app. fold (streams_of es). simpl.
  rewrite push_stream_count, IH, length_app. simpl. lia.
Qed.

Lemma verify_streams_valid fuel streams : ∀ checked first last_id,
  (∀ k l, (k, l) ∈ streams → ∃ v, verify_audit_chain_linked sha256 to_vec fuel l = Some v ∧ valid v = true ∧
                                  checked_events v = length l) →
  ∃ v, verify_streams sha256 to_vec fuel checked first last_id streams = Some v ∧ valid v = true ∧
       checked_events v = (checked + sum_list_with (fun x => length (snd x)) streams)%nat.
Proof.
  induction streams as [|[k l] s IH]; intros checked first last_id Hv; simpl.
  { eexists. split; [done|]. simpl. split; [done|lia]. }
  destruct (Hv k l) as (v & -> & Ev & Ec); [left|]. simpl. rewrite Ev. simpl.
  destruct (IH (checked + checked_events v)%nat
              (match first with None => first_event_id v | Some _ => first end)
              (match last_event_id v with Some _ => last_event_id v | None => last_id end)) as (v' & -> & Ev' & Ec').
  { intros k' l' Hin. apply (Hv k'). by right. }
  exists v'. split; [done|]. split; [done|]. lia.
Qed.

(** Every stream of the log is in chain order. *)
Definition chained (log : AuditLog (Num := Num)) : Prop :=
  ∀ r, valid (verify_audit_chain_ordered sha256 to_vec (of_realm r (audit_events log))) = true.

Lemma append_chained saved event log r log' :
  chained log → append_audit_event sha256 to_vec saved event log = (r, log') → chained log'.
Proof.
  intros Hc. unfold append_audit_event. destruct (Tokens.reject_duplicate_id _ _); [|by intros [= _ <-]].
  intros [= _ <-] r'. cbn [audit_events]. rewrite of_realm_snoc. simpl.
  specialize (Hc r'). case_bool_decide as Er; [|by rewrite app_nil_r].
  apply ordered_valid in Hc as [Hl Hm]. apply ordered_valid. split.
  - apply linked_app. split; [done|]. simpl. split_and!; [|by eexists|done].
    unfold last_of_realm. rewrite Er. fold (of_realm r' (audit_events log)).
    by destruct (last (of_realm r' (audit_events log))).
  - intros e [He| ->%list_elem_of_singleton]%elem_of_app; [by apply Hm|]. by apply bool_decide_eq_true.
Qed.

(** A history of appends, each with the outcome of its write. *)
Fixpoint appends (calls : list (AuditEvent (Num := Num) * QidResult unit)) (log : AuditLog) : AuditLog :=
  match calls with
  | [] => log
  | (event, saved) :: calls' => appends calls' (append_audit_event sha256 to_vec saved event log).2
  end.

Lemma appends_chained calls : ∀ log, chained log → chained (appends calls log).
Proof.
  induction calls as [|[e saved] calls IH]; intros log Hc; [done|]. simpl. apply IH.
  destruct (append_audit_event sha256 to_vec saved e log) as [r log'] eqn:E. by eapply append_chained.
Qed.

(** An honest log verifies.  Whatever events are appended, for whatever realms and with
    whatever failed writes, the chain of every realm and the chains of all realms together are
    then verified as intact, within as many steps as there are events, and every event of the scope
    is counted. *)
Theorem appended_log_verifies calls configs fuel scope :
  let log := appends calls {| audit_events := []; audit_retention_configs := configs |} in
  collision_free (audit_events log) → (length (audit_events log) < fuel)%nat →
  ∃ v, verify_audit_chain sha256 to_vec fuel scope log = Some v ∧ valid v = true ∧
       checked_events v = length (in_scope scope (audit_events log)).
Proof.
  intros log Hc Hf. assert (chained log) as Hlog by (apply appends_chained; by intros r).
  assert (∀ r, ∃ v, verify_audit_chain_linked sha256 to_vec fuel (of_realm r (audit_events log)) = Some v ∧
                    valid v = true ∧ checked_events v = length (of_realm r (audit_events log))) as Hr.
  { intros r. destruct (linked_verifies fuel (of_realm r (audit_events log))) as (v & Hv & Ev & Ec).
    - eapply collision_free_sub; [|exact Hc]. intros e He. by apply elem_of_lfilter in He as [? _].
    - eapply Nat.le_lt_trans; [apply List.filter_length_le|done].
    - assert (valid v = true) as Hvv by (apply Ev; by exists (of_realm r (audit_events log))). eauto. }
  unfold verify_audit_chain. destruct scope as [r|]; [exact (Hr (Some r))|].
  assert (in_scope None (audit_events log) = audit_events log) as -> by (by apply lfilter_all).
  destruct (verify_streams_valid fuel (streams_of (audit_events log)) 0 None None) as (v & Hv & Ev & Ec).
  { intros k l [-> _]%(proj2 (streams_of_spec _)). apply Hr. }
  exists v. rewrite streams_of_count in Ec. auto.
Qed.

(** The configuration of the global stream is never that of a realm. *)
Lemma stream_id_inj a b : audit_retention_stream_id a = audit_retention_stream_id b → a = b.
Proof.
  destruct a, b; unfold audit_retention_stream_id; intros E; [|discriminate E..|done].
  by apply (str_app_inj_prefix "realm:" "realm:") in E as [_ ->].
Qed.

(** Retention keeps what it must.  A plan splits the events of its scope in two: every event
    is either retained or expired, exactly the events older than the retention period expire, none
    while there is a legal hold; and the plan follows the last configuration set for its own
    stream, whatever is set for other realms or globally. *)
Theorem retention_plan_exact saved saved' config config' scope now (log : AuditLog (Num := Num)) :
  rc_realm_id config = scope → rc_realm_id config' ≠ scope → now ≤ u64_max →
  let log' := (set_audit_retention_config saved' config' (set_audit_retention_config saved config log).2).2 in
  let es := in_scope scope (audit_events log) in
  ∃ plan, plan_audit_retention scope now log' = Some plan ∧
    retained_event_ids plan ++ expired_event_ids plan ≡ₚ map id es ∧
    rp_checked_events plan = length es ∧
    expired_event_ids plan = (if rc_legal_hold config then [] else
      map id (List.filter (fun e => bool_decide (created_at e + rc_retention_days config * 86400 < now)) es)).
Proof.
  intros Hs Hs' Hnow log' es. unfold plan_audit_retention, log'. cbn [audit_retention_configs audit_events set_audit_retention_config snd].
  rewrite lookup_insert_ne by (intros E; by apply Hs', stream_id_inj). rewrite Hs, lookup_insert_eq.
  eexists. split; [reflexivity|]. unfold plan_audit_retention_enforcement. fold es.
  destruct (rc_legal_hold config); cbn.
  { rewrite app_nil_r. done. }
  set (cut := saturating_sub now _).
  assert (∀ l : list (AuditEvent (Num := Num)), map id (List.filter (fun e => negb (created_at e <? cut)) l)
                ++ map id (List.filter (fun e => created_at e <? cut) l) ≡ₚ map id l) as Hp.
  { induction l as [|e l IH]; [done|]. simpl. destruct (created_at e <? cut); simpl; [|by rewrite IH].
    rewrite <- Permutation_middle. by rewrite IH. }
  split; [apply Hp|]. split; [|].
  - specialize (Hp es). apply Permutation_length in Hp. rewrite length_app, (length_map id es) in Hp. exact Hp.
  - f_equal. apply List.filter_ext. intros e. unfold cut, saturating_sub, saturating_mul64.
    case_bool_decide as Hb; [apply N.ltb_lt|apply N.ltb_ge]; revert Hb; lia.
Qed.

End ChainFacts.

(** ** Witnesses *)

(** Stand-ins for serde_json's writer, on the values the example has, and for SHA-256. *)
Definition toy_text (v : Value SerdeNumber) : string :=
  match v with VString s => s | VNumber (PosInt n) => pretty n | _ => "-" end.
Definition toy_vec (fields : list (string * Value SerdeNumber)) : option string :=
  Some (foldr (fun f acc => toy_text (snd f) +:+ ";" +:+ acc) "" fields).
Definition toy_sha (s : string) : list N := Utf8.str_bytes s.

Definition ex_event (k : string) (realm : option string) (now : N) : AuditEvent (Num := SerdeNumber) :=
  {| id := k; realm_id := realm; actor := "a"; action := "x"; target_type := "t"; target_id := "i"; reason := "";
     metadata_json := VNull; created_at := now; previous_hash := None; event_hash := None |}.

Definition ex_appends : list (AuditEvent (Num := SerdeNumber) * QidResult unit) :=
  [(ex_event "1" (Some "r") 10, Ok tt); (ex_event "2" None 11, Err (Storage "disk full"));
   (ex_event "1" (Some "r") 12, Ok tt); (ex_event "3" (Some "r") 12, Ok tt)].

Definition ex_log : AuditLog (Num := SerdeNumber) :=
  appends toy_sha toy_vec ex_appends {| audit_events := []; audit_retention_configs := ∅ |}.

Definition ex_chain : list (AuditEvent (Num := SerdeNumber)) := of_realm (Some "r") (audit_events ex_log).

Lemma ex_collision_free : collision_free toy_sha toy_vec (audit_events ex_log).
Proof.
  intros a b Ha Hb E.
  assert (audit_events ex_log = [default (ex_event "" None 0) (audit_events ex_log !! 0%nat);
            default (ex_event "" None 0) (audit_events ex_log !! 1%nat);
            default (ex_event "" None 0) (audit_events ex_log !! 2%nat)]) as El by (vm_compute; reflexivity).
  rewrite El in Ha, Hb. rewrite !elem_of_cons, elem_of_nil in Ha, Hb.
  destruct Ha as [->|[->|[->|[]]]], Hb as [->|[->|[->|[]]]]; try reflexivity; vm_compute in E; discriminate E.
Qed.

Lemma linked_iff_ordered_witness :
  valid <$> verify_audit_chain_linked toy_sha toy_vec 4 (reverse ex_chain) = Some true.
Proof.
  destruct (linked_iff_ordered toy_sha toy_vec 4 (reverse ex_chain)) as (v & -> & Hv & _).
  - eapply collision_free_sub; [|exact ex_collision_free]. intros e He. rewrite elem_of_reverse in He.
    by apply elem_of_lfilter in He as [? _].
  - vm_compute. lia.
  - simpl. f_equal. apply Hv. exists ex_chain. split; [by rewrite reverse_Permutation|]. vm_compute. reflexivity.
Defined.


Lemma appended_log_verifies_witness :
  valid <$> verify_audit_chain toy_sha toy_vec 4 None ex_log = Some true ∧
  checked_events <$> verify_audit_chain toy_sha toy_vec 4 None ex_log = Some 3%nat.
Proof.
  destruct (appended_log_verifies toy_sha toy_vec ex_appends ∅ 4 None ex_collision_free) as (v & Hv & Ev & Ec).
  - vm_compute. lia.
  - fold ex_log in Hv, Ec. rewrite Hv. simpl. rewrite Ev, Ec. split; [done|]. vm_compute. reflexivity.
Defined.

Definition ex_retention (realm : option string) (days : N) (hold : bool) : AuditRetentionConfig :=
  {| rc_realm_id := realm; rc_retention_days := days; rc_legal_hold := hold; updated_by := "a"; rc_reason := "";
     updated_at := 1 |}.

Lemma retention_plan_exact_witness :
  expired_event_ids <$> plan_audit_retention (Some "r") 86411
    (set_audit_retention_config (Ok tt) (ex_retention None 0 true)
       (set_audit_retention_config (Ok tt) (ex_retention (Some "r") 1 false) ex_log).2).2 = Some ["1"].
Proof.
  destruct (retention_plan_exact (Ok tt) (Ok tt) (ex_retention (Some "r") 1 false) (ex_retention None 0 true) (Some "r")
              86411 ex_log eq_refl) as (plan & Hp & _ & _ & He); [done|vm_compute; discriminate|].
  rewrite Hp. simpl. rewrite He. vm_compute. reflexivity.
Defined.

End AuditChain.
