(* ===== verification/AuditArchive.v ===== *)
(** The audit jobs of the worker (src/qid-worker/src/audit.rs): exported records
    (src/qid-observability/src/audit.rs), the evidence archive and its verification, retention
    jobs, and the retry schedule of SIEM deliveries.

    serde_json's reader and writer, the UTF-8 error text, the time-stamping authority and the
    archive transport are parameters; generated identifiers are arguments.  The walk along the
    exported hashes runs with fuel, as in AuditChain.v. *)

From S2P Require Import Prelude Utf8 Json Cluster AuditChain.
Import Cluster(sha256_hex).
Import AuditChain.

Module AuditArchive.

(** * Exported records (src/qid-observability/src/audit.rs) *)

Record AuditOpenTelemetryCorrelation : Type := { traceparent : option string }.
Record AuditSiemCorrelation : Type := { audit_correlation_id : string }.

Section Archive.
Context {Num : Type} `{JsonNumber Num}.

Record AuditExportRecord : Type := {
  x_schema_version : string; x_id : string; x_realm_id : option string; x_actor : string; x_action : string;
  x_target_type : string; x_target_id : string; x_reason : string; x_metadata : Value Num; x_created_at : N;
  x_previous_hash : option string; x_event_hash : option string;
  x_otel : option AuditOpenTelemetryCorrelation; x_siem : option AuditSiemCorrelation
}.

Record AuditExportOptions : Type := {
  include_metadata : bool; o_traceparent : option string; o_correlation_id : option string
}.

Definition export_record (options : AuditExportOptions) (event : AuditEvent (Num := Num)) : AuditExportRecord :=
  {| x_schema_version := "qid.audit.v1"; x_id := id event; x_realm_id := realm_id event; x_actor := actor event;
     x_action := action event; x_target_type := target_type event; x_target_id := target_id event;
     x_reason := reason event;
     x_metadata := if include_metadata options then metadata_json event else VObject [];
     x_created_at := created_at event; x_previous_hash := previous_hash event; x_event_hash := event_hash event;
     x_otel := (fun t => {| traceparent := Some t |}) <$> o_traceparent options;
     x_siem := (fun c => {| audit_correlation_id := c |}) <$> o_correlation_id options |}.

(** * Evidence (src/qid-worker/src/audit.rs) *)

Record AuditTimestampEvidence : Type := {
  tsa_url : string; ts_generated_at : N; token_sha256 : string; token_key : string
}.

Record AuditEvidenceManifest : Type := {
  mf_schema_version : string; mf_realm_id : option string; mf_generated_at : N; mf_event_count : nat;
  mf_first_event_id : option string; mf_last_event_id : option string;
  mf_first_event_hash : option string; mf_last_event_hash : option string;
  mf_body_sha256 : string; mf_body_key : string; mf_timestamp : option AuditTimestampEvidence
}.

Record AuditEvidenceVerificationReport : Type := {
  vr_valid : bool; vr_event_count : nat; vr_body_sha256 : string; vr_expected_body_sha256 : string;
  vr_first_event_id : option string; vr_last_event_id : option string;
  vr_first_event_hash : option string; vr_last_event_hash : option string;
  vr_broken_event_id : option string; vr_error : option string
}.

Definition NEWLINE : Ascii.ascii := Ascii.ascii_of_N 10.

(** [str::lines]: no line after a final newline, a carriage return before a newline dropped. *)
Fixpoint line_ends (parts : list string) : list string :=
  match parts with
  | [] => []
  | [l] => if is_empty_str l then [] else [l]
  | l :: parts' => default l (strip_suffix (String (Ascii.ascii_of_N 13) "") l) :: line_ends parts'
  end.
Definition str_lines (s : string) : list string := line_ends (split_on NEWLINE s).

Section Codec.
Context (sha256 : string → list N).
Context (to_string : AuditExportRecord → result string string) (from_str : string → result AuditExportRecord string).
Context (utf8_error : string → string).

Fixpoint export_lines (options : AuditExportOptions) (events : list (AuditEvent (Num := Num))) : result string string :=
  match events with
  | [] => Ok ""
  | event :: events' =>
      let? line := to_string (export_record options event) in
      let? rest := export_lines options events' in
      Ok (line +:+ String NEWLINE rest)
  end.

Definition export_jsonl (events : list (AuditEvent (Num := Num))) (options : AuditExportOptions) : result string string :=
  export_lines options events.

Definition parse_audit_export_jsonl (body : string) : result (list AuditExportRecord) string :=
  match Utf8.decode (Utf8.str_bytes body) with
  | None => Err ("audit body is not UTF-8: " +:+ utf8_error body)
  | Some _ =>
      res_mapM (fun line => map_err (fun e => "invalid audit export record: " +:+ e) (from_str line))
        (List.filter (fun line => negb (is_empty_str (Utf8.trim_str line))) (str_lines body))
  end.

(** [linked_export_bounds]: outside, whether the walk has ended. *)
Definition linked_export_bounds (fuel : nat) (records : list AuditExportRecord)
    : option (option (AuditExportRecord * AuditExportRecord)) :=
  if forallb (fun r => bool_decide (is_Some (x_event_hash r))) records
  then match index x_previous_hash ∅ records with
       | Err _ => Some None
       | Ok m =>
           match m !! None with
           | None => Some None
           | Some first =>
               match walk x_event_hash fuel m first 1 with
               | None => None
               | Some (current, checked) =>
                   Some (if bool_decide (checked = length records) then Some (first, current) else None)
               end
           end
       end
  else Some None.

Definition invalid_evidence_report (manifest : AuditEvidenceManifest) (body_sha256 : string) (event_count : nat)
    (broken error : option string) : AuditEvidenceVerificationReport :=
  {| vr_valid := false; vr_event_count := event_count; vr_body_sha256 := body_sha256;
     vr_expected_body_sha256 := mf_body_sha256 manifest; vr_first_event_id := None; vr_last_event_id := None;
     vr_first_event_hash := None; vr_last_event_hash := None; vr_broken_event_id := broken; vr_error := error |}.

Definition verify_audit_evidence_archive (fuel : nat) (manifest : AuditEvidenceManifest) (body : string)
    : option AuditEvidenceVerificationReport :=
  let body_sha256 := sha256_hex sha256 body in
  if negb (String.eqb body_sha256 (mf_body_sha256 manifest))
  then Some (invalid_evidence_report manifest body_sha256 0 None (Some "body_sha256 mismatch"))
  else
    match parse_audit_export_jsonl body with
    | Err error => Some (invalid_evidence_report manifest body_sha256 0 None (Some error))
    | Ok records =>
        if negb (bool_decide (length records = mf_event_count manifest))
        then Some (invalid_evidence_report manifest body_sha256 (length records) None (Some "event_count mismatch"))
        else
          match linked_export_bounds fuel records with
          | None => None
          | Some None =>
              Some (invalid_evidence_report manifest body_sha256 (length records) (x_id <$> head records)
                      (Some "audit export chain is not contiguous"))
          | Some (Some (first, lst)) =>
              let report ok err :=
                {| vr_valid := ok; vr_event_count := length records; vr_body_sha256 := body_sha256;
                   vr_expected_body_sha256 := mf_body_sha256 manifest;
                   vr_first_event_id := Some (x_id first); vr_last_event_id := Some (x_id lst);
                   vr_first_event_hash := x_event_hash first; vr_last_event_hash := x_event_hash lst;
                   vr_broken_event_id := None; vr_error := err |} in
              if bool_decide (Some (x_id first) = mf_first_event_id manifest)
                 && bool_decide (Some (x_id lst) = mf_last_event_id manifest)
                 && bool_decide (x_event_hash first = mf_first_event_hash manifest)
                 && bool_decide (x_event_hash lst = mf_last_event_hash manifest)
              then Some (report true None)
              else Some (report false (Some "manifest chain boundary mismatch"))
          end
    end.

(** * The archive job *)

Record AuditTimestampConfig : Type := { tc_url : string; trusted_roots_der : list string; timeout_seconds : N }.

Record AuditWormArchiveConfig : Type := {
  wc_realm_id : option string; wc_limit : nat; wc_now : N; wc_include_metadata : bool; wc_actor : string;
  wc_reason : string; wc_record_audit_event : bool; wc_timestamp : option AuditTimestampConfig
}.

Record AuditWormObject : Type := {
  key : string; content_type : string; body : string; metadata : list (string * string)
}.

Record AuditWormPutResult : Type := { put_key : string; version_id : option string; location : string }.

Inductive AuditWormArchiveStatus : Type := Archived | SkippedNoEvents | Failed.

Record AuditWormArchiveReport : Type := {
  ar_status : AuditWormArchiveStatus; ar_realm_id : option string; ar_event_count : nat;
  ar_manifest : option AuditEvidenceManifest; body_object : option AuditWormPutResult;
  timestamp_object : option AuditWormPutResult; manifest_object : option AuditWormPutResult;
  ar_audit_event_id : option string
}.

(** [trait WormArchiveTransport]; [W] is what the archive holds. *)
Class WormArchiveTransport (W : Type) : Type := {
  put_once : AuditWormObject → W → result AuditWormPutResult string * W
}.

Context {W : Type} `{WormArchiveTransport W}.
Context (to_vec : list (string * Value Num) → option string) (manifest_to_vec : AuditEvidenceManifest → result string string).
Context (request_and_verify_timestamp : string → AuditTimestampConfig → string → QidResult (string * AuditTimestampEvidence)).

(** [archive_metadata], the map in the order of its keys. *)
Definition archive_metadata (config : AuditWormArchiveConfig) (kind : string) : list (string * string) :=
  [("qid-generated-at", pretty (wc_now config)); ("qid-object-kind", kind);
   ("qid-realm-id", default "__global__" (wc_realm_id config))].

Definition worm_put (object : AuditWormObject) (w : W) : QidResult AuditWormPutResult * W :=
  let '(r, w) := put_once object w in (map_err Storage r, w).

(** An event of the worker itself, before it is chained. *)
Definition worker_event (event_id : string) (realm : option string) (actor_ action_ target_type_ target_id_ reason_ : string)
    (meta : Value Num) (now : N) : AuditEvent (Num := Num) :=
  {| id := event_id; realm_id := realm; actor := actor_; action := action_; target_type := target_type_;
     target_id := target_id_; reason := reason_; metadata_json := meta; created_at := now;
     previous_hash := None; event_hash := None |}.

Definition json_nat (n : nat) : Value Num := VNumber (num_from_u64 (N.of_nat n)).

Definition archive_manifest (config : AuditWormArchiveConfig) (events : list (AuditEvent (Num := Num)))
    (body_sha body_key : string) (timestamp : option AuditTimestampEvidence) : AuditEvidenceManifest :=
  {| mf_schema_version := "qid.audit.evidence.v2"; mf_realm_id := wc_realm_id config; mf_generated_at := wc_now config;
     mf_event_count := length events; mf_first_event_id := id <$> last events; mf_last_event_id := id <$> head events;
     mf_first_event_hash := last events ≫= event_hash; mf_last_event_hash := head events ≫= event_hash;
     mf_body_sha256 := body_sha; mf_body_key := body_key; mf_timestamp := timestamp |}.

(** [run_audit_worm_archive_job]: the archive and the log after the job, also when it fails. *)
Definition run_audit_worm_archive_job (saved : QidResult unit) (archive_id event_id : string)
    (config : AuditWormArchiveConfig) (w : W) (log : AuditLog (Num := Num))
    : QidResult AuditWormArchiveReport * W * AuditLog (Num := Num) :=
  match list_audit_events (wc_realm_id config) (wc_limit config) log with
  | [] => (Ok {| ar_status := SkippedNoEvents; ar_realm_id := wc_realm_id config; ar_event_count := 0; ar_manifest := None;
                 body_object := None; timestamp_object := None; manifest_object := None; ar_audit_event_id := None |}, w, log)
  | (_ :: _) as events =>
      let options := {| include_metadata := wc_include_metadata config; o_traceparent := None; o_correlation_id := None |} in
      match export_jsonl events options with
      | Err e => (Err (Internal e), w, log)
      | Ok text =>
          let prefix := "audit/" +:+ default "__global__" (wc_realm_id config) +:+ "/" +:+ pretty (wc_now config) +:+ "/" +:+ archive_id in
          let body_key := prefix +:+ ".jsonl" in
          let manifest_key := prefix +:+ ".manifest.json" in
          let timestamp_key := prefix +:+ ".timestamp.tsr" in
          match (match wc_timestamp config with
                 | Some tc => res_map Some (request_and_verify_timestamp text tc timestamp_key)
                 | None => Ok None
                 end) with
          | Err e => (Err e, w, log)
          | Ok timestamp =>
              let manifest := archive_manifest config events (sha256_hex sha256 text) body_key (snd <$> timestamp) in
              let '(put_body, w) := worm_put {| key := body_key; content_type := "application/x-ndjson"; body := text;
                                                metadata := archive_metadata config "body" |} w in
              match put_body with
              | Err e => (Err e, w, log)
              | Ok body_obj =>
                  let '(put_ts, w) :=
                    match timestamp with
                    | None => (Ok None, w)
                    | Some (token, _) =>
                        let '(r, w) := worm_put {| key := timestamp_key; content_type := "application/timestamp-reply"; body := token;
                                                   metadata := archive_metadata config "rfc3161_timestamp" |} w in
                        (res_map Some r, w)
                    end in
                  match put_ts with
                  | Err e => (Err e, w, log)
                  | Ok ts_obj =>
                      match manifest_to_vec manifest with
                      | Err e => (Err (Internal e), w, log)
                      | Ok manifest_body =>
                          let '(put_manifest, w) :=
                            worm_put {| key := manifest_key; content_type := "application/json"; body := manifest_body;
                                        metadata := archive_metadata config "manifest" |} w in
                          match put_manifest with
                          | Err e => (Err e, w, log)
                          | Ok manifest_obj =>
                              let report event :=
                                {| ar_status := Archived; ar_realm_id := wc_realm_id config; ar_event_count := mf_event_count manifest;
                                   ar_manifest := Some manifest; body_object := Some body_obj; timestamp_object := ts_obj;
                                   manifest_object := Some manifest_obj; ar_audit_event_id := event |} in
                              if wc_record_audit_event config
                              then
                                let meta :=
                                  VObject [("body_location", VString (location body_obj));
                                           ("body_sha256", VString (mf_body_sha256 manifest));
                                           ("event_count", json_nat (mf_event_count manifest));
                                           ("manifest_location", VString (location manifest_obj));
                                           ("timestamp_location", json_opt (location <$> ts_obj));
                                           ("tsa_url", json_opt (tsa_url <$> mf_timestamp manifest))] in
                                let '(r, log) := append_audit_event sha256 to_vec saved
                                  (worker_event event_id (wc_realm_id config) (wc_actor config) "audit_worm.archive" "audit_worm"
                                     body_key (wc_reason config) meta (wc_now config)) log in
                                (res_map (fun _ => report (Some event_id)) r, w, log)
                              else (Ok (report None), w, log)
                          end
                      end
                  end
              end
          end
      end
  end.

(** * The retention jobs *)

Inductive AuditRetentionJobStatus : Type := Evaluated | JobNoPolicy | JobChainInvalid.

Record AuditRetentionJobConfig : Type := {
  jc_realm_id : option string; jc_actor : string; jc_reason : string; jc_now : N; jc_record_audit_event : bool
}.

Record AuditRetentionJobReport : Type := {
  jr_status : AuditRetentionJobStatus; jr_realm_id : option string; jr_chain_verification : AuditChainVerification;
  jr_plan : option AuditRetentionEnforcementPlan; jr_audit_event_id : option string
}.

Definition json_ids (ids : list string) : Value Num := VArray (map VString ids).

(** [run_audit_retention_job]: [None] when the verification of the chain has not ended. *)
Definition run_audit_retention_job (fuel : nat) (saved : QidResult unit) (event_id : string)
    (config : AuditRetentionJobConfig) (log : AuditLog (Num := Num))
    : option (QidResult AuditRetentionJobReport * AuditLog (Num := Num)) :=
  match verify_audit_chain sha256 to_vec fuel (jc_realm_id config) log with
  | None => None
  | Some chain =>
      let report status plan event :=
        {| jr_status := status; jr_realm_id := jc_realm_id config; jr_chain_verification := chain; jr_plan := plan;
           jr_audit_event_id := event |} in
      Some (if negb (valid chain) then (Ok (report JobChainInvalid None None), log)
            else match plan_audit_retention (jc_realm_id config) (jc_now config) log with
                 | None => (Ok (report JobNoPolicy None None), log)
                 | Some plan =>
                     if jc_record_audit_event config
                     then
                       let meta :=
                         VObject [("checked_events", json_nat (rp_checked_events plan));
                                  ("cutoff_epoch", match cutoff_epoch plan with
                                                   | Some c => VNumber (num_from_u64 c)
                                                   | None => VNull
                                                   end);
                                  ("expired_count", json_nat (length (expired_event_ids plan)));
                                  ("expired_event_ids", json_ids (expired_event_ids plan));
                                  ("legal_hold", VBool (rp_legal_hold plan));
                                  ("retained_count", json_nat (length (retained_event_ids plan)));
                                  ("retention_days", VNumber (num_from_u64 (rp_retention_days plan)))] in
                       let '(r, log) := append_audit_event sha256 to_vec saved
                         (worker_event event_id (jc_realm_id config) (jc_actor config) "audit_retention.evaluate"
                            "audit_retention" (default "__global__" (jc_realm_id config)) (jc_reason config) meta
                            (jc_now config)) log in
                       (res_map (fun _ => report Evaluated (Some plan) (Some event_id)) r, log)
                     else (Ok (report Evaluated (Some plan) None), log)
                 end)
  end.

Inductive AuditRetentionExecutionStatus : Type :=
| Ready | SkippedNoPolicy | SkippedChainInvalid | SkippedLegalHold | SkippedNoExpiredEvents | SkippedArchiveRequired.

Record AuditRetentionExecutionConfig : Type := {
  ec_realm_id : option string; ec_now : N; ec_actor : string; ec_reason : string; ec_archive_required : bool;
  ec_include_metadata : bool; ec_record_audit_event : bool; ec_timestamp : option AuditTimestampConfig
}.

Record AuditRetentionExecutionReport : Type := {
  er_status : AuditRetentionExecutionStatus; er_realm_id : option string; er_chain_verification : AuditChainVerification;
  er_plan : option AuditRetentionEnforcementPlan; er_archive : option AuditWormArchiveReport;
  purge_event_ids : list string; er_audit_event_id : option string
}.

Definition archive_config (config : AuditRetentionExecutionConfig) (plan : AuditRetentionEnforcementPlan)
    : AuditWormArchiveConfig :=
  {| wc_realm_id := ec_realm_id config; wc_limit := rp_checked_events plan; wc_now := ec_now config;
     wc_include_metadata := ec_include_metadata config; wc_actor := ec_actor config; wc_reason := ec_reason config;
     wc_record_audit_event := true; wc_timestamp := ec_timestamp config |}.

(** [run_audit_retention_execution_job]; [saved1] and [saved2] are the outcomes of the writes of
    the archive's and of the job's own audit event. *)
Definition run_audit_retention_execution_job (fuel : nat) (saved1 saved2 : QidResult unit)
    (archive_id archive_event_id event_id : string) (config : AuditRetentionExecutionConfig) (w : W)
    (log : AuditLog (Num := Num)) : option (QidResult AuditRetentionExecutionReport * W * AuditLog (Num := Num)) :=
  match verify_audit_chain sha256 to_vec fuel (ec_realm_id config) log with
  | None => None
  | Some chain =>
      let report status plan archive purge event :=
        {| er_status := status; er_realm_id := ec_realm_id config; er_chain_verification := chain; er_plan := plan;
           er_archive := archive; purge_event_ids := purge; er_audit_event_id := event |} in
      let finish plan archive w log :=
        let purge := expired_event_ids plan in
        if ec_record_audit_event config
        then
          let meta :=
            VObject [("archive_body_location", json_opt (location <$> (archive ≫= body_object)));
                     ("archive_manifest_location", json_opt (location <$> (archive ≫= manifest_object)));
                     ("archive_required", VBool (ec_archive_required config));
                     ("purge_count", json_nat (length purge)); ("purge_event_ids", json_ids purge)] in
          let '(r, log) := append_audit_event sha256 to_vec saved2
            (worker_event event_id (ec_realm_id config) (ec_actor config) "audit_retention.ready" "audit_retention"
               (default "__global__" (ec_realm_id config)) (ec_reason config) meta (ec_now config)) log in
          (res_map (fun _ => report Ready (Some plan) archive purge (Some event_id)) r, w, log)
        else (Ok (report Ready (Some plan) archive purge None), w, log) in
      Some (if negb (valid chain) then (Ok (report SkippedChainInvalid None None [] None), w, log)
            else match plan_audit_retention (ec_realm_id config) (ec_now config) log with
                 | None => (Ok (report SkippedNoPolicy None None [] None), w, log)
                 | Some plan =>
                     if rp_legal_hold plan then (Ok (report SkippedLegalHold (Some plan) None [] None), w, log)
                     else match expired_event_ids plan with
                          | [] => (Ok (report SkippedNoExpiredEvents (Some plan) None [] None), w, log)
                          | _ :: _ =>
                              if ec_archive_required config
                              then
                                let '(r, w, log) :=
                                  run_audit_worm_archive_job saved1 archive_id archive_event_id (archive_config config plan) w log in
                                match r with
                                | Err e => (Err e, w, log)
                                | Ok archive =>
                                    match ar_status archive with
                                    | Archived => finish plan (Some archive) w log
                                    | _ => (Ok (report SkippedArchiveRequired (Some plan) (Some archive) [] None), w, log)
                                    end
                                end
                              else finish plan None w log
                          end
                 end)
  end.

End Codec.
End Archive.

(** * Retries of SIEM deliveries *)

Record AuditSiemRetryPolicy : Type := { max_attempts : N; base_delay_ms : N; max_delay_ms : N }.

Record AuditSiemRetryDecision : Type := {
  retry : bool; attempt : N; delay_ms : option N; first_error : option string
}.

(** [1_u64.checked_shl(n)] *)
Definition checked_shl1 (n : N) : option N := if n <? 64 then Some (N.shiftl 1 n) else None.

Definition plan_siem_retry (policy : AuditSiemRetryPolicy) (completed_attempts status : N) : AuditSiemRetryDecision :=
  let attempt := add32 completed_attempts 1 in
  let retryable_status := (status =? 429) || ((500 <=? status) && (status <? 600)) in
  if negb retryable_status || (max_attempts policy <=? attempt)
  then {| retry := false; attempt := attempt; delay_ms := None; first_error := None |}
  else
    let multiplier := default u64_max (checked_shl1 completed_attempts) in
    {| retry := true; attempt := attempt;
       delay_ms := Some (N.min (saturating_mul64 (base_delay_ms policy) multiplier) (max_delay_ms policy));
       first_error := None |}.


(** * Theorems *)

(** ** The schedule of retries *)

(** The retry schedule is exponential, capped and finite.  A delivery is retried exactly when
    the answer was 429 or a server error and attempts are left, and then after
    [base * 2^completed] milliseconds, capped by the maximum: no shift or product overflows into
    a shorter delay. *)
Theorem siem_backoff_exact policy completed status :
  completed < u32_max → max_delay_ms policy ≤ u64_max →
  plan_siem_retry policy completed status =
  if bool_decide ((status = 429 ∨ 500 ≤ status < 600) ∧ completed + 1 < max_attempts policy)
  then {| retry := true; attempt := completed + 1;
          delay_ms := Some (N.min (base_delay_ms policy * 2 ^ completed) (max_delay_ms policy)); first_error := None |}
  else {| retry := false; attempt := completed + 1; delay_ms := None; first_error := None |}.
Proof.
  intros Hc Hd. unfold plan_siem_retry. rewrite add32_id by lia.
  assert (negb ((status =? 429) || (500 <=? status) && (status <? 600)) || (max_attempts policy <=? completed + 1)
          = negb (bool_decide ((status = 429 ∨ 500 ≤ status < 600) ∧ completed + 1 < max_attempts policy))) as ->.
  { destruct (N.eqb_spec status 429), (N.leb_spec 500 status), (N.ltb_spec status 600),
      (N.leb_spec (max_attempts policy) (completed + 1)); case_bool_decide as Hb; simpl; try reflexivity; exfalso; lia. }
  case_bool_decide; simpl; [|done]. do 2 f_equal. unfold saturating_mul64, checked_shl1.
  destruct (N.ltb_spec completed 64) as [Hlt|Hge]; simpl.
  - rewrite N.shiftl_1_l. lia.
  - destruct (N.eq_dec (base_delay_ms policy) 0) as [->|Hn]; [lia|].
    assert (u64_max ≤ base_delay_ms policy * 2 ^ completed).
    { assert (2 ^ 64 ≤ 2 ^ completed) by (apply N.pow_le_mono_r; lia). change (2 ^ 64) with 18446744073709551616 in *.
      unfold u64_max. nia. }
    nia.
Qed.

Section ArchiveFacts.
Context {Num : Type} `{JsonNumber Num}.

Abbreviation Rec := (AuditExportRecord (Num := Num)).

(** ** Walking exported records *)

(** The verifier of archives need not return.  An archive of two records, the second naming
    as its own hash the hash it follows, sends the walk round for ever: with any number of steps
    the verification has not ended. *)
Theorem export_walk_diverges fuel (r1 r2 : Rec) h :
  x_previous_hash r1 = None → x_event_hash r1 = Some h →
  x_previous_hash r2 = Some h → x_event_hash r2 = Some h →
  linked_export_bounds fuel [r1; r2] = None.
Proof.
  intros P1 H1 P2 H2. unfold linked_export_bounds. simpl.
  rewrite H1, H2, !bool_decide_true by by eexists. simpl.
  rewrite P1, P2, lookup_empty, lookup_insert_ne, lookup_empty by done. simpl.
  rewrite lookup_insert_ne, lookup_insert_eq by done.
  assert (∀ f n, walk x_event_hash f (<[Some h:=r2]> (<[None:=r1]> ∅)) r2 n = None) as Hw.
  { induction f as [|f IH]; intros n; simpl; [done|]. rewrite H2, lookup_insert_eq. apply IH. }
  destruct fuel as [|fuel]; simpl; [done|]. rewrite H1, lookup_insert_eq. by rewrite Hw.
Qed.

Lemma bounds_Some fuel (rs : list Rec) a b :
  linked_export_bounds fuel rs = Some (Some (a, b)) →
  NoDup (map x_previous_hash rs) ∧ a ∈ rs ∧ x_previous_hash a = None.
Proof.
  unfold linked_export_bounds. destruct (forallb _ rs); [|done].
  destruct (index x_previous_hash ∅ rs) as [m|e] eqn:E; [|done].
  apply (index_indexes x_previous_hash) in E as [Hn Hx].
  destruct (m !! None) as [f|] eqn:Ef; [|done]. apply Hx in Ef as [Hf Ep].
  destruct (walk x_event_hash fuel m f 1) as [[c n]|]; [|done]. case_bool_decide; [|done].
  intros [= <- _]. done.
Qed.

(** Records linked in one chain, in whatever order they are given, are bounded by its ends. *)
Lemma bounds_chain fuel (rs chain : list Rec) :
  chain ≡ₚ rs → linked_from x_previous_hash x_event_hash None chain → hash_ok x_previous_hash x_event_hash rs →
  rs ≠ [] → (length rs < fuel)%nat →
  ∃ a b, linked_export_bounds fuel rs = Some (Some (a, b)) ∧ head chain = Some a ∧ last chain = Some b.
Proof.
  intros Hp Hl Hok Hne Hf. unfold linked_export_bounds.
  assert (forallb (fun r => bool_decide (is_Some (x_event_hash r))) rs = true) as ->.
  { apply forallb_elem_of. intros r Hr. apply bool_decide_eq_true. by apply Hok. }
  assert (hash_ok x_previous_hash x_event_hash chain) as Hokc.
  { destruct Hok as [H1 H2]. split; [intros a|intros a b]; rewrite !Hp; auto. }
  assert (NoDup (map x_previous_hash rs)) as Hn.
  { apply (NoDup_Permutation_proper (map x_previous_hash chain)); [by apply Permutation_map|].
    by apply (chain_prevs_NoDup _ x_event_hash). }
  destruct (index_complete x_previous_hash ∅ rs Hn) as [m Hm]; [intros; apply lookup_empty|]. rewrite Hm.
  apply (index_indexes x_previous_hash) in Hm as [_ Hx].
  destruct chain as [|a chain]; [by apply Permutation_nil_l in Hp|]. destruct Hl as (Pa & Ha & Hl).
  assert (a ∈ rs) as Hin by (rewrite <- Hp; left).
  assert (m !! None = Some a) as -> by (by apply Hx).
  destruct (walk_chain x_previous_hash x_event_hash rs m fuel [a] a 1) as (b & l & Hw & Hlast & Hhead & Hll & Hnd & Hsub & Hend);
    [done|done|simpl; lia|done|done|apply NoDup_singleton|done|by intros x ->%list_elem_of_singleton|].
  rewrite Hw. assert (l = a :: chain) as ->.
  { symmetry. apply prefix_length_eq.
    - eapply chain_prefix; [exact Hx|exact Hll|by split_and!|done|intros x; by rewrite Hp|by rewrite Hlast].
    - rewrite (Permutation_length Hp). by apply submseteq_length, NoDup_submseteq. }
  rewrite bool_decide_true by (by apply Permutation_length in Hp). exists a, b. done.
Qed.

End ArchiveFacts.
(** ** Archives that verify *)

Section CodecFacts.
Context {Num : Type} `{JsonNumberLaws Num}.
Context (sha256 : string → list N).
Context (to_string : AuditExportRecord (Num := Num) → result string string)
        (from_str : string → result (AuditExportRecord (Num := Num)) string) (utf8_error : string → string).

(** What the archive relies on, of the records it writes: serde_json writes a record on one line
    of UTF-8 that is neither blank nor ends in a carriage return, and reads it back. *)
Definition codec_ok (rs : list (AuditExportRecord (Num := Num))) : Prop :=
  ∀ r, r ∈ rs → ∃ t, to_string r = Ok t ∧ from_str t = Ok r ∧ str_contains NEWLINE t = false ∧
    Utf8.trim_str t ≠ "" ∧ strip_suffix (String (Ascii.ascii_of_N 13) "") t = None ∧
    ∃ cs, Forall (fun c => Utf8.is_scalar c = true) cs ∧ Utf8.str_bytes t = Utf8.encode cs.

Lemma export_lines_spec options events :
  codec_ok (map (export_record options) events) →
  ∃ text lines, export_lines to_string options events = Ok text ∧ str_lines text = lines ∧
    Forall2 (fun t r => from_str t = Ok r ∧ Utf8.trim_str t ≠ "") lines (map (export_record options) events) ∧
    ∃ cs, Forall (fun c => Utf8.is_scalar c = true) cs ∧ Utf8.str_bytes text = Utf8.encode cs.
Proof.
  induction events as [|e es IH]; intros Hok.
  - exists "", []. split_and!; [done|done|constructor|]. by exists [].
  - destruct IH as (text & lines & IHt & IHl & IHp & cs & Hcs & Hb); [intros r Hr; apply Hok; by right|].
    destruct (Hok (export_record options e)) as (t & Ht & Hf & Hn & Hbl & Hcr & ct & Hct & Hbt); [left|].
    exists (t +:+ String NEWLINE text), (t :: lines). simpl. rewrite Ht, IHt. simpl. split; [done|].
    split; [|split].
    + unfold str_lines. rewrite split_on_line by done.
      assert (split_on NEWLINE text ≠ []) as Hne by (destruct text as [|c s]; simpl; [done|]; repeat case_match; done).
      unfold str_lines in IHl. rewrite <- IHl. destruct (split_on NEWLINE text) as [|x r]; [done|].
      change (default t (strip_suffix (String (Ascii.ascii_of_N 13) "") t) :: line_ends (x :: r) = t :: line_ends (x :: r)).
      by rewrite Hcr.
    + by constructor.
    + exists (ct ++ 10 :: cs). split; [apply Forall_app; split; [done|by constructor]|].
      rewrite Utf8.str_bytes_app, Utf8.encode_app, <- Hbt. f_equal.
      change (10 :: Utf8.str_bytes text = Utf8.encode_char 10 ++ Utf8.encode cs). by rewrite Hb.
Qed.

Lemma parse_export events options :
  codec_ok (map (export_record options) events) →
  ∃ text, export_jsonl to_string events options = Ok text ∧
          parse_audit_export_jsonl from_str utf8_error text = Ok (map (export_record options) events).
Proof.
  intros Hok. destruct (export_lines_spec options events Hok) as (text & lines & Ht & Hl & Hf & cs & Hcs & Hb).
  exists text. split; [done|]. unfold parse_audit_export_jsonl. rewrite Hb, Utf8.decode_encode by done. rewrite Hl.
  clear Hok Ht Hl Hcs Hb cs text. revert Hf. generalize (map (export_record options) events) as rs.
  intros rs Hf. rewrite lfilter_all.
  - induction Hf as [|t r lines rs [Hr _] Hf IH]; [done|]. simpl. rewrite Hr. simpl. by rewrite IH.
  - intros t Ht. apply negb_true_iff. apply list_elem_of_lookup in Ht as [i Hi].
    destruct (Forall2_lookup_l _ _ _ _ _ Hf Hi) as (r & _ & _ & Hn). by apply String.eqb_neq.
Qed.

(** A verified archive is one complete chain.  When the verifier accepts an archive, the body
    is the one the manifest names by its digest, and its records form a single chain: their
    predecessors are distinct and exactly one record has none.  So the archive of a limited
    listing, which lacks the first event, and that of all realms together, in which every realm has
    a first event, are never accepted. *)
Theorem verified_archive_one_chain fuel manifest body report :
  verify_audit_evidence_archive sha256 from_str utf8_error fuel manifest body = Some report → vr_valid report = true →
  sha256_hex sha256 body = mf_body_sha256 manifest ∧
  ∃ records, parse_audit_export_jsonl from_str utf8_error body = Ok records ∧
    length records = mf_event_count manifest ∧ NoDup (map x_previous_hash records) ∧
    length (List.filter (fun r => bool_decide (x_previous_hash r = None)) records) = 1%nat.
Proof.
  unfold verify_audit_evidence_archive.
  destruct (String.eqb_spec (sha256_hex sha256 body) (mf_body_sha256 manifest)) as [Es|]; simpl; [|by intros [= <-]].
  destruct (parse_audit_export_jsonl from_str utf8_error body) as [rs|]; [|by intros [= <-]].
  case_bool_decide as El; simpl; [|by intros [= <-]].
  destruct (linked_export_bounds fuel rs) as [[[a b]|]|] eqn:Eb; [|by intros [= <-]|done].
  apply bounds_Some in Eb as (Hn & Ha & Pa). intros _ _. split; [done|]. exists rs. split_and!; [done..|].
  clear El Es. induction rs as [|r rs IH]; [by apply not_elem_of_nil in Ha|].
  simpl in Hn |- *. apply NoDup_cons in Hn as [Hr Hn]. case_bool_decide as Er; simpl.
  - f_equal. rewrite (proj2 (lfilter_nil _ _)); [done|]. intros x Hx. apply bool_decide_eq_false. intros Ex.
    apply Hr. rewrite Er, <- Ex. apply elem_of_map. by exists x.
  - apply elem_of_cons in Ha as [->|Ha]; [done|]. by apply IH.
Qed.

(** ** Archives of the job *)

(** Events in the order of their times are listed newest first. *)
Lemma newest_first_reverse (es : list (AuditEvent (Num := Num))) :
  StronglySorted (fun a b => created_at a < created_at b) es → sort_by newest_first es = reverse es.
Proof.
  induction 1 as [|e es Hs IH He]; [done|]. unfold sort_by in *. simpl. rewrite IH, reverse_cons.
  assert (∀ y, y ∈ reverse es → newest_first e y = false) as Hy.
  { intros y Hy. rewrite elem_of_reverse in Hy. pose proof (proj1 (Forall_forall _ _) He y Hy) as Hlt. simpl in Hlt.
    unfold newest_first. destruct (N.ltb_spec (created_at y) (created_at e)); [lia|].
    by destruct (N.eqb_spec (created_at y) (created_at e)); [lia|]. }
  revert Hy. generalize (reverse es) as l. induction l as [|y l IHl]; intros Hy; [done|]. simpl.
  rewrite Hy by left. f_equal. apply IHl. intros z Hz. apply Hy. by right.
Qed.

Lemma linked_export options (es : list (AuditEvent (Num := Num))) : ∀ p,
  linked_from previous_hash event_hash p es →
  linked_from x_previous_hash x_event_hash p (map (export_record options) es).
Proof. induction es as [|e es IH]; intros p; [done|]. simpl. intros (? & ? & ?). auto. Qed.

Lemma hash_ok_export options (es : list (AuditEvent (Num := Num))) :
  hash_ok previous_hash event_hash es → hash_ok x_previous_hash x_event_hash (map (export_record options) es).
Proof.
  intros [H1 H2]. split.
  - intros x (a & -> & Ha)%elem_of_map. by apply (H1 a).
  - intros x y (a & -> & Ha)%elem_of_map (b & -> & Hb)%elem_of_map. by apply (H2 a b).
Qed.

Context {W : Type} `{WormArchiveTransport W}.
Context (to_vec : list (string * Value Num) → option string) (manifest_to_vec : AuditEvidenceManifest → result string string).
Context (request_ts : string → AuditTimestampConfig → string → QidResult (string * AuditTimestampEvidence)).

Definition job_options (config : AuditWormArchiveConfig) : AuditExportOptions :=
  {| include_metadata := wc_include_metadata config; o_traceparent := None; o_correlation_id := None |}.

(** The archive [w] accepted [text] as the body of manifest [m], under the key it names. *)
Definition body_accepted (config : AuditWormArchiveConfig) (w : W) (m : AuditEvidenceManifest) (text : string)
    (object : option AuditWormPutResult) : Prop :=
  ∃ obj w1, put_once {| key := mf_body_key m; content_type := "application/x-ndjson"; body := text;
                        metadata := archive_metadata config "body" |} w = (Ok obj, w1) ∧ object = Some obj.

(** What an archived report means. *)
Lemma archive_job_archived saved aid eid config w log rep w' log' :
  run_audit_worm_archive_job sha256 to_string to_vec manifest_to_vec request_ts saved aid eid config w log
    = (Ok rep, w', log') →
  ar_status rep = Archived →
  let events := list_audit_events (wc_realm_id config) (wc_limit config) log in
  events ≠ [] ∧ ∃ text m k ts, export_jsonl to_string events (job_options config) = Ok text ∧ ar_manifest rep = Some m ∧
    m = archive_manifest config events (sha256_hex sha256 text) k ts ∧
    body_accepted config w m text (body_object rep).
Proof.
  intros Hj Ha events. unfold run_audit_worm_archive_job in Hj. cbv zeta in Hj. fold events in Hj.
  destruct events as [|e0 es0] eqn:Ee; [injection Hj as <- _ _; discriminate Ha|]. split; [done|].
  fold (job_options config) in Hj.
  destruct (export_jsonl to_string (e0 :: es0) (job_options config)) as [text|x]; [|done].
  match type of Hj with (match ?M with Ok _ => _ | Err _ => _ end) = _ => destruct M as [ts|x]; [|done] end.
  unfold worm_put in Hj.
  destruct (put_once _ w) as [[obj|x] w1] eqn:Ep; cbn [map_err] in Hj; [|done].
  match type of Hj with (match ?M with (_, _) => _ end) = _ => destruct M as [[tso|x] w2]; [|done] end.
  destruct (manifest_to_vec _) as [mb|x]; [|done].
  destruct (put_once _ w2) as [[mo|x] w3]; cbn [map_err] in Hj; [|done].
  eexists text, _, _, _. split; [done|].
  destruct (wc_record_audit_event config).
  - destruct (append_audit_event _ _ _ _ _) as [[[]|x] l]; [|done]. injection Hj as <- _ _.
    split; [reflexivity|]. split; [reflexivity|]. exists obj, w1. split; [exact Ep|done].
  - injection Hj as <- _ _. split; [reflexivity|]. split; [reflexivity|]. exists obj, w1. split; [exact Ep|done].
Qed.

(** What the archive job writes can be verified.  For an honest log, when the job archives the
    whole stream of a realm whose events carry increasing times, the body the archive accepted and
    the manifest of the report pass the verifier, with every event counted. *)
Theorem realm_archive_verifies calls configs r saved aid eid config w rep w' log' fuel :
  let log := appends sha256 to_vec calls {| audit_events := []; audit_retention_configs := configs |} in
  collision_free sha256 to_vec (audit_events log) →
  StronglySorted (fun a b => created_at a < created_at b) (in_scope (Some r) (audit_events log)) →
  wc_realm_id config = Some r →
  (length (in_scope (Some r) (audit_events log)) ≤ wc_limit config < fuel)%nat →
  codec_ok (map (export_record (job_options config)) (in_scope (Some r) (audit_events log))) →
  run_audit_worm_archive_job sha256 to_string to_vec manifest_to_vec request_ts saved aid eid config w log
    = (Ok rep, w', log') →
  ar_status rep = Archived →
  ∃ text m report, ar_manifest rep = Some m ∧ body_accepted config w m text (body_object rep) ∧
    verify_audit_evidence_archive sha256 from_str utf8_error fuel m text = Some report ∧
    vr_valid report = true ∧ vr_event_count report = length (in_scope (Some r) (audit_events log)).
Proof.
  intros log Hc Hs Hr [Hlim Hf] Hco Hj Ha.
  apply archive_job_archived in Hj as (Hne & text & m & k & ts & Ht & Em & -> & Hb); [|done].
  eexists text, _. rewrite Hr in *. set (stream := in_scope (Some r) (audit_events log)) in *.
  assert (list_audit_events (Some r) (wc_limit config) log = reverse stream) as El.
  { unfold list_audit_events. rewrite newest_first_reverse by done. apply take_ge. by rewrite length_reverse. }
  rewrite El in *.
  assert (chained sha256 to_vec log) as Hch by (apply appends_chained; by intros ?).
  destruct (proj1 (ordered_valid sha256 to_vec stream) (Hch (Some r))) as [Hl Hm].
  assert (hash_ok previous_hash event_hash (reverse stream)) as Hok.
  { apply (matches_hash_ok sha256 to_vec).
    - eapply collision_free_sub; [|exact Hc]. intros e He. rewrite elem_of_reverse in He.
      by apply elem_of_lfilter in He as [? _].
    - intros e He. rewrite elem_of_reverse in He. by apply Hm. }
  destruct (parse_export (reverse stream) (job_options config)) as (text' & Ht' & Hp).
  { intros x (e & -> & He)%elem_of_map. rewrite elem_of_reverse in He. apply Hco, elem_of_map. by exists e. }
  assert (text' = text) as -> by congruence.
  destruct (bounds_chain fuel (map (export_record (job_options config)) (reverse stream))
              (map (export_record (job_options config)) stream)) as (a & b & Hbd & Hfst & Hlst).
  - apply Permutation_map. by rewrite reverse_Permutation.
  - by apply linked_export.
  - by apply hash_ok_export.
  - by destruct (reverse stream).
  - rewrite length_map, length_reverse. lia.
  - rewrite fmap_last in Hlst.
    assert (head (map (export_record (job_options config)) stream) = export_record (job_options config) <$> head stream) as Eh
      by (by destruct stream). rewrite Eh in Hfst.
    apply fmap_Some in Hfst as (e1 & E1 & ->). apply fmap_Some in Hlst as (e2 & E2 & ->).
    eexists. split; [exact Em|]. split; [exact Hb|].
    unfold verify_audit_evidence_archive. cbn [archive_manifest mf_body_sha256 mf_event_count]. rewrite String.eqb_refl. cbn [negb].
    rewrite Hp, length_map, bool_decide_true by done. cbn [negb]. rewrite Hbd.
    cbn [archive_manifest mf_first_event_id mf_last_event_id mf_first_event_hash mf_last_event_hash].
    rewrite last_reverse, head_reverse. fold stream. rewrite E1, E2. simpl.
    rewrite !bool_decide_true by done. split; [reflexivity|]. split; [done|]. apply length_reverse.
Qed.


Lemma listed_in_scope scope limit (log : AuditLog (Num := Num)) e :
  e ∈ list_audit_events scope limit log → e ∈ in_scope scope (audit_events log).
Proof.
  unfold list_audit_events. intros He. rewrite <- (sort_by_perm newest_first (in_scope scope (audit_events log))).
  rewrite <- (take_drop limit (sort_by newest_first _)). apply elem_of_app. by left.
Qed.

(** The listing an execution archives is the whole stream its plan was made for. *)
Lemma plan_listing scope now (log : AuditLog (Num := Num)) plan :
  plan_audit_retention scope now log = Some plan →
  length (list_audit_events scope (rp_checked_events plan) log) = rp_checked_events plan ∧
  ∀ x, x ∈ expired_event_ids plan → x ∈ map id (list_audit_events scope (rp_checked_events plan) log).
Proof.
  unfold plan_audit_retention. destruct (audit_retention_configs log !! _) as [config|]; [|done]. intros [= <-].
  set (es := in_scope scope (audit_events log)).
  assert (rp_checked_events (plan_audit_retention_enforcement config now es) = length es) as El.
  { unfold plan_audit_retention_enforcement. destruct (rc_legal_hold config); [done|]. cbn. rewrite !length_map.
    generalize (saturating_sub now (saturating_mul64 (rc_retention_days config) (24 * 60 * 60))) as c. intros c.
    induction es as [|e l IH]; [done|]. simpl. destruct (created_at e <? c); simpl; lia. }
  assert (list_audit_events scope (length es) log ≡ₚ es) as Hp.
  { unfold list_audit_events. fold es. rewrite take_ge by (by rewrite sort_by_perm). apply sort_by_perm. }
  rewrite El. split; [by rewrite Hp|]. intros x Hx. rewrite elem_of_map.
  assert (x ∈ map id es) as Hx'.
  { unfold plan_audit_retention_enforcement in Hx. destruct (rc_legal_hold config); [by apply not_elem_of_nil in Hx|].
    cbn in Hx. apply elem_of_map in Hx as (e & -> & He). apply elem_of_lfilter in He as [He _]. apply elem_of_map. by exists e. }
  apply elem_of_map in Hx' as (e & -> & He). exists e. split; [done|]. by rewrite Hp.
Qed.

(** ** Retention execution *)

(** Nothing is purged before it is safe.  When the execution job names events to purge, the
    chain of the stream was verified as intact, a policy without legal hold was found and the events
    are exactly the ones it expires; and where an archive is required, the archive first accepted
    a body whose records are the whole stream, so every purged event is in it. *)
Theorem purged_events_archived fuel saved1 saved2 aid aeid eid config w log report w' log' :
  codec_ok (map (export_record {| include_metadata := ec_include_metadata config; o_traceparent := None;
                                  o_correlation_id := None |}) (in_scope (ec_realm_id config) (audit_events log))) →
  run_audit_retention_execution_job sha256 to_string to_vec manifest_to_vec request_ts fuel saved1 saved2 aid aeid eid
    config w log = Some (Ok report, w', log') →
  purge_event_ids report ≠ [] →
  er_status report = Ready ∧
  (∃ chain, verify_audit_chain sha256 to_vec fuel (ec_realm_id config) log = Some chain ∧ valid chain = true) ∧
  (∃ plan, plan_audit_retention (ec_realm_id config) (ec_now config) log = Some plan ∧ rp_legal_hold plan = false ∧
     purge_event_ids report = expired_event_ids plan ∧
     (ec_archive_required config = true →
        ∃ archive m text records,
          er_archive report = Some archive ∧ ar_status archive = Archived ∧ ar_manifest archive = Some m ∧
          body_accepted (archive_config config plan) w m text (body_object archive) ∧
          sha256_hex sha256 text = mf_body_sha256 m ∧
          parse_audit_export_jsonl from_str utf8_error text = Ok records ∧
          length records = rp_checked_events plan ∧
          ∀ x, x ∈ purge_event_ids report → x ∈ map x_id records)).
Proof.
  intros Hco. unfold run_audit_retention_execution_job.
  destruct (verify_audit_chain sha256 to_vec fuel (ec_realm_id config) log) as [chain|]; [|done]. cbv zeta.
  destruct (valid chain) eqn:Ev; cbn [negb]; [|by intros [= <- _ _]].
  destruct (plan_audit_retention (ec_realm_id config) (ec_now config) log) as [plan|] eqn:Ep; [|by intros [= <- _ _]].
  destruct (rp_legal_hold plan) eqn:Eh; [by intros [= <- _ _]|].
  destruct (expired_event_ids plan) as [|x0 xs] eqn:Ex; [by intros [= <- _ _]|]. rewrite <- Ex. clear x0 xs Ex.
  destruct (ec_archive_required config) eqn:Er.
  - destruct (run_audit_worm_archive_job _ _ _ _ _ _ _ _ _ _ _) as [[[archive|e] w1] log1] eqn:Ej; [|by intros [= ]].
    destruct (ar_status archive) eqn:Ea; [|by intros [= <- _ _]..].
    intros Hf _. assert (er_status report = Ready ∧ purge_event_ids report = expired_event_ids plan ∧
                         er_archive report = Some archive) as (-> & -> & ->).
    { injection Hf as Hf. revert Hf. destruct (ec_record_audit_event config); [|by intros [= <- _ _]].
      destruct (append_audit_event _ _ _ _ _) as [[[]|e] l]; [|done]. by intros [= <- _ _]. }
    split; [done|]. split; [by eexists|]. exists plan. split_and!; [done..|]. intros _.
    apply archive_job_archived in Ej as (_ & text & m & k & ts & Ht & Em & Hm & Hb); [|done].
    destruct (parse_export (list_audit_events (wc_realm_id (archive_config config plan))
                (wc_limit (archive_config config plan)) log) (job_options (archive_config config plan))) as (text' & Ht' & Hp).
    { intros x (e & -> & He)%elem_of_map. apply Hco, elem_of_map. exists e. split; [done|]. by eapply listed_in_scope. }
    assert (text' = text) as -> by congruence.
    exists archive, m, text. eexists. split_and!; [done|done|done|exact Hb|by rewrite Hm|exact Hp|..].
    + rewrite length_map. cbn [wc_realm_id wc_limit archive_config]. by apply plan_listing in Ep as [Hl _].
    + intros x Hx. apply plan_listing in Ep as [_ Hin]. apply Hin in Hx. apply elem_of_map in Hx as (e & -> & He).
      apply elem_of_map. exists (export_record (job_options (archive_config config plan)) e). split; [done|].
      apply elem_of_map. by exists e.
  - intros Hf _. assert (er_status report = Ready ∧ purge_event_ids report = expired_event_ids plan) as (-> & ->).
    { injection Hf as Hf. revert Hf. destruct (ec_record_audit_event config); [|by intros [= <- _ _]].
      destruct (append_audit_event _ _ _ _ _) as [[[]|e] l]; [|done]. by intros [= <- _ _]. }
    split; [done|]. split; [by eexists|]. exists plan. split_and!; done.
Qed.

End CodecFacts.

(** ** Witnesses *)

Lemma siem_backoff_exact_witness :
  delay_ms (plan_siem_retry {| max_attempts := 100; base_delay_ms := 1000; max_delay_ms := 60000 |} 70 503) = Some 60000.
Proof.
  rewrite (siem_backoff_exact {| max_attempts := 100; base_delay_ms := 1000; max_delay_ms := 60000 |} 70 503)
    by (vm_compute; done). vm_compute. reflexivity.
Defined.

#[local] Instance list_archive : WormArchiveTransport (list AuditWormObject) := {|
  put_once o w := (Ok {| put_key := key o; version_id := None; location := "worm:" +:+ key o |}, w ++ [o])
|}.

Definition ex_options : AuditExportOptions :=
  {| include_metadata := true; o_traceparent := None; o_correlation_id := None |}.
Definition ex_records : list (AuditExportRecord (Num := SerdeNumber)) :=
  map (export_record ex_options) (audit_events ex_log).
Definition ex_to_string (r : AuditExportRecord (Num := SerdeNumber)) : result string string := Ok (x_id r).
Definition ex_from_str (t : string) : result (AuditExportRecord (Num := SerdeNumber)) string :=
  ok_or (List.find (fun r => String.eqb (x_id r) t) ex_records) "unknown".
Definition ex_no_ts (_ : string) (_ : AuditTimestampConfig) (_ : string) : QidResult (string * AuditTimestampEvidence) :=
  Err (Config "no authority").

Definition ex_archive_config : AuditWormArchiveConfig :=
  {| wc_realm_id := Some "r"; wc_limit := 10; wc_now := 20; wc_include_metadata := true; wc_actor := "worker";
     wc_reason := "archive"; wc_record_audit_event := true; wc_timestamp := None |}.

Definition ex_job (config : AuditWormArchiveConfig) :=
  run_audit_worm_archive_job (W := list AuditWormObject) toy_sha ex_to_string toy_vec (fun _ => Ok "manifest") ex_no_ts
    (Ok tt) "01" "02" config [] ex_log.

Lemma ex_codec_ok scope :
  codec_ok ex_to_string ex_from_str (map (export_record ex_options) (in_scope scope (audit_events ex_log))).
Proof.
  intros r (e & -> & He)%elem_of_map. apply elem_of_lfilter in He as [He _].
  assert (audit_events ex_log = [default (ex_event "" None 0) (audit_events ex_log !! 0%nat);
            default (ex_event "" None 0) (audit_events ex_log !! 1%nat);
            default (ex_event "" None 0) (audit_events ex_log !! 2%nat)]) as El by (vm_compute; reflexivity).
  rewrite El in He. rewrite !elem_of_cons, elem_of_nil in He.
  destruct He as [->|[->|[->|[]]]]; eexists; (split; [reflexivity|]); (split; [vm_compute; reflexivity|]);
    (split; [vm_compute; reflexivity|]); (split; [vm_compute; discriminate|]); (split; [vm_compute; reflexivity|]);
    first [exists [49]; split; [by repeat constructor|vm_compute; reflexivity]
          |exists [50]; split; [by repeat constructor|vm_compute; reflexivity]
          |exists [51]; split; [by repeat constructor|vm_compute; reflexivity]].
Qed.

Lemma ex_sorted : StronglySorted (fun a b => created_at a < created_at b) (in_scope (Some "r") (audit_events ex_log)).
Proof.
  assert (in_scope (Some "r") (audit_events ex_log) = [default (ex_event "" None 0) (audit_events ex_log !! 0%nat);
            default (ex_event "" None 0) (audit_events ex_log !! 2%nat)]) as -> by (vm_compute; reflexivity).
  repeat constructor.
Qed.

Lemma realm_archive_verifies_witness :
  ∃ rep, (ex_job ex_archive_config).1.1 = Ok rep ∧
  ∃ text m report, ar_manifest rep = Some m ∧ body_accepted (W := list AuditWormObject) ex_archive_config [] m text (body_object rep) ∧
    verify_audit_evidence_archive toy_sha ex_from_str (fun _ => "") 11 m text = Some report ∧ vr_valid report = true.
Proof.
  destruct (ex_job ex_archive_config) as [[[rep|e] w'] log'] eqn:Ej.
  - exists rep. split; [done|].
    destruct (realm_archive_verifies toy_sha ex_to_string ex_from_str (fun _ => "") toy_vec (fun _ => Ok "manifest") ex_no_ts
      ex_appends ∅ "r" (Ok tt) "01" "02" ex_archive_config [] rep w' log' 11 ex_collision_free ex_sorted eq_refl)
      as (text & m & report & H1 & H2 & H3 & H4 & _).
    + vm_compute. lia.
    + apply (ex_codec_ok (Some "r")).
    + exact Ej.
    + apply (f_equal (fun x => match x.1.1 with Ok r => ar_status r | Err _ => Failed end)) in Ej.
      simpl in Ej. rewrite <- Ej. vm_compute. reflexivity.
    + eauto 10.
  - exfalso. apply (f_equal (fun x => is_ok x.1.1)) in Ej. vm_compute in Ej. discriminate Ej.
Defined.

(** The archive of the whole log, which holds two streams, is not accepted. *)
Example global_archive_rejected :
  match ex_job {| wc_realm_id := None; wc_limit := 10; wc_now := 20; wc_include_metadata := true; wc_actor := "worker";
                  wc_reason := "archive"; wc_record_audit_event := true; wc_timestamp := None |} with
  | (Ok rep, body_obj :: _, _) =>
      (fun m => vr_error <$> verify_audit_evidence_archive toy_sha ex_from_str (fun _ => "") 11 m (body body_obj)) <$> ar_manifest rep
      = Some (Some (Some "audit export chain is not contiguous"))
  | _ => False
  end.
Proof. vm_compute. reflexivity. Qed.

Lemma verified_archive_one_chain_witness :
  ∃ m text report, verify_audit_evidence_archive toy_sha ex_from_str (fun _ => "") 11 m text = Some report ∧
    ∃ records, parse_audit_export_jsonl ex_from_str (fun _ => "") text = Ok records ∧ NoDup (map x_previous_hash records).
Proof.
  set (events := reverse (in_scope (Some "r") (audit_events ex_log))).
  set (text := match export_jsonl ex_to_string events ex_options with Ok t => t | Err _ => "" end).
  set (m := archive_manifest ex_archive_config events (sha256_hex toy_sha text) "k" None).
  destruct (verify_audit_evidence_archive toy_sha ex_from_str (fun _ => "") 11 m text) as [report|] eqn:E;
    [|vm_compute in E; discriminate E].
  exists m, text, report. split; [exact E|].
  destruct (verified_archive_one_chain toy_sha ex_from_str (fun _ => "") 11 m text report E) as (_ & records & Hp & _ & Hn & _).
  - apply (f_equal (fun x => vr_valid <$> x)) in E. vm_compute in E. by injection E.
  - by exists records.
Defined.

Definition ex_policy_log : AuditLog (Num := SerdeNumber) :=
  (set_audit_retention_config (Ok tt) (ex_retention (Some "r") 1 false) ex_log).2.
Definition ex_execution : AuditRetentionExecutionConfig :=
  {| ec_realm_id := Some "r"; ec_now := 86411; ec_actor := "worker"; ec_reason := "retention"; ec_archive_required := true;
     ec_include_metadata := true; ec_record_audit_event := true; ec_timestamp := None |}.
Definition ex_execute :=
  run_audit_retention_execution_job (W := list AuditWormObject) toy_sha ex_to_string toy_vec (fun _ => Ok "manifest") ex_no_ts
    4 (Ok tt) (Ok tt) "01" "02" "03" ex_execution [] ex_policy_log.

Lemma purged_events_archived_witness :
  ∃ report w' log', ex_execute = Some (Ok report, w', log') ∧ purge_event_ids report = ["1"] ∧ er_status report = Ready.
Proof.
  destruct ex_execute as [[[[report|e] w'] log']|] eqn:E.
  - exists report, w', log'. split; [done|].
    assert (purge_event_ids report = ["1"]) as Ep.
    { apply (f_equal (fun x => match x with Some (Ok r, _, _) => purge_event_ids r | _ => [] end)) in E.
      rewrite <- E. vm_compute. reflexivity. }
    split; [exact Ep|].
    refine (proj1 (purged_events_archived toy_sha ex_to_string ex_from_str (fun _ => "") toy_vec (fun _ => Ok "manifest") ex_no_ts
      4 (Ok tt) (Ok tt) "01" "02" "03" ex_execution [] ex_policy_log report w' log' (ex_codec_ok (Some "r")) E _)).
    by rewrite Ep.
  - exfalso. apply (f_equal (fun x => match x with Some (Ok _, _, _) => true | _ => false end)) in E. vm_compute in E. discriminate E.
  - exfalso. apply (f_equal (fun x => match x with Some _ => true | _ => false end)) in E. vm_compute in E. discriminate E.
Defined.

Lemma export_walk_diverges_witness :
  ∃ r1 r2 : AuditExportRecord (Num := SerdeNumber), linked_export_bounds 1000 [r1; r2] = None.
Proof.
  set (rec p := {| x_schema_version := "qid.audit.v1"; x_id := "1"; x_realm_id := None; x_actor := ""; x_action := "";
    x_target_type := ""; x_target_id := ""; x_reason := ""; x_metadata := VNull; x_created_at := 0;
    x_previous_hash := p; x_event_hash := Some "h"; x_otel := None; x_siem := None |}
    : AuditExportRecord (Num := SerdeNumber)).
  exists (rec None), (rec (Some "h")). by apply (export_walk_diverges 1000 (rec None) (rec (Some "h")) "h").
Defined.

End AuditArchive.
