(* ===== verification/Otp.v ===== *)
(** One-time passwords: the HMAC truncation of src/qid-crypto/src/hotp.rs and totp.rs, the
    verification and the recovery codes of src/qid-mfa/src/lib.rs, and the TOTP routes of
    src/qid-session/src/totp_api.rs over the account store (Accounts.v) and the attempt limiter
    (RateLimit.v).

    HMAC-SHA-1, SHA-256, base32, random bytes and Unicode upper-casing are parameters.  A division
    by zero or an index out of range, which aborts the request, is [None]; unsigned powers wrap. *)

From S2P Require Import Prelude Utf8 RateLimit Push Tokens Cluster Accounts.
Import Accounts.

Module Otp.

(** * Truncation (src/qid-crypto/src/hotp.rs, totp.rs) *)

(** [u64::to_be_bytes] *)
Definition to_be_bytes (n : N) : list N :=
  map (fun i => N.land (N.shiftr n (8 * i)) 255) [7; 6; 5; 4; 3; 2; 1; 0].

(** [10u64.pow(digits)] and [10u32.pow(digits)] *)
Definition pow10_64 (digits : N) : N := (10 ^ digits) mod 18446744073709551616.
Definition pow10_32 (digits : N) : N := (10 ^ digits) mod 4294967296.

(** [format!("{:0width$}", n)] *)
Definition zero_padded (width : N) (n : N) : string :=
  let s := pretty n in
  Nat.iter (N.to_nat width - String.length s) (String (Ascii.ascii_of_N 48)) s.

Definition TOTP_DEFAULT_DIGITS : N := 6.

Record TotpVerifier : Type := { v_digits : N; v_period : N }.
Definition default_verifier : TotpVerifier := {| v_digits := TOTP_DEFAULT_DIGITS; v_period := 30 |}.

(** How a request ends: with an error response, or past the proof. *)
Inductive Outcome (A : Type) : Type :=
| Refused (error : QidError)
| Passed (a : A).
Arguments Refused {A} _.
Arguments Passed {A} _.

Section Otp.
Context (hmac_sha1 : list N → list N → list N) (base32_decode : string → result (list N) string).

(** The dynamic truncation both functions perform, [None] when an index is out of range. *)
Definition truncate (mac : list N) : option N :=
  b19 ← mac !! 19%nat;
  let offset := N.to_nat (N.land b19 0x0f) in
  b0 ← mac !! offset;
  b1 ← mac !! (offset + 1)%nat;
  b2 ← mac !! (offset + 2)%nat;
  b3 ← mac !! (offset + 3)%nat;
  Some (N.lor (N.lor (N.lor (N.shiftl (N.land b0 0x7f) 24) (N.shiftl b1 16)) (N.shiftl b2 8)) b3).

(** [code % m]: no result for [m = 0]. *)
Definition checked_rem (code m : N) : option N := if m =? 0 then None else Some (code mod m).

Definition hotp_generate (secret : list N) (counter digits : N) : option (QidResult string) :=
  code ← truncate (hmac_sha1 secret (to_be_bytes counter));
  r ← checked_rem code (pow10_32 digits);
  Some (Ok (zero_padded digits r)).

Definition hotp_verify (secret : list N) (counter : N) (code : string) (digits : N) : option (QidResult bool) :=
  expected ← hotp_generate secret counter digits;
  Some (res_map (fun e => String.eqb e code) expected).

Definition compute_totp (secret : string) (counter digits : N) : option (QidResult N) :=
  match base32_decode secret with
  | Err e => Some (Err (Crypto ("invalid base32 TOTP secret: " +:+ e)))
  | Ok k =>
      code ← truncate (hmac_sha1 k (to_be_bytes counter));
      r ← checked_rem code (pow10_64 digits);
      Some (Ok r)
  end.

Definition generate_code (v : TotpVerifier) (secret : string) (timestamp : N) : option (QidResult string) :=
  if v_period v =? 0 then None
  else
    r ← compute_totp secret (timestamp / v_period v) (v_digits v);
    Some (res_map (zero_padded (v_digits v)) r).

Context `{ConstantTimeEq}.

(** The loop over the current and the adjacent windows. *)
Fixpoint verify_window (v : TotpVerifier) (secret code : string) (timestamps : list N) : option (QidResult bool) :=
  match timestamps with
  | [] => Some (Ok false)
  | ts :: rest =>
      expected ← generate_code v secret ts;
      match expected with
      | Err e => Some (Err e)
      | Ok e => if constant_time_eq code e then Some (Ok true) else verify_window v secret code rest
      end
  end.

Definition windows (now period : N) : list N :=
  [now; saturating_sub now period; saturating_add64 now period].

(** [TotpVerifier::verify] at the time [now]. *)
Definition verify (v : TotpVerifier) (secret code : string) (now : N) : option (QidResult bool) :=
  verify_window v secret code (windows now (v_period v)).

(** * Verification against a stored credential (src/qid-mfa/src/lib.rs) *)

Fixpoint match_step (cred : TotpCredential) (code : string) (candidates : list N) : option (QidResult (option N)) :=
  match candidates with
  | [] => Some (Ok None)
  | ts :: rest =>
      if period cred =? 0 then None
      else
        let step := ts / period cred in
        if match last_used_step cred with Some l => step <=? l | None => false end
        then match_step cred code rest
        else
          expected ← generate_code {| v_digits := digits cred; v_period := period cred |} (secret cred) ts;
          match expected with
          | Err e => Some (Err e)
          | Ok e => if constant_time_eq code e then Some (Ok (Some step)) else match_step cred code rest
          end
  end.

Definition verify_totp_at_with_step (cred : TotpCredential) (code : string) (timestamp : N) : option (QidResult (option N)) :=
  if negb (t_enabled cred) || negb (String.eqb (algorithm cred) "SHA1") then Some (Ok None)
  else match_step cred code (windows timestamp (period cred)).

Definition verify_totp_at (cred : TotpCredential) (code : string) (timestamp : N) : option bool :=
  r ← verify_totp_at_with_step cred code timestamp;
  Some (match r with Ok (Some _) => true | _ => false end).

(** ** Enrolment *)

Record TotpEnrollmentPlan : Type := { credential : TotpCredential; otpauth_url : string }.

Definition upper_hex (d : N) : Ascii.ascii :=
  default (Ascii.ascii_of_N 48) (String.get (N.to_nat d) "0123456789ABCDEF").

(** The bytes both encoders keep as they are. *)
Definition is_unreserved (b : N) : bool :=
  ((65 <=? b) && (b <=? 90)) || ((97 <=? b) && (b <=? 122)) || ((48 <=? b) && (b <=? 57))
  || (b =? 45) || (b =? 46) || (b =? 95) || (b =? 126).

Definition percent_byte (b : N) : string :=
  if is_unreserved b then String (Ascii.ascii_of_N b) ""
  else String (Ascii.ascii_of_N 37) (String (upper_hex (N.shiftr b 4)) (String (upper_hex (N.land b 0x0f)) "")).

Definition percent_encode (value : string) : string :=
  foldr (fun b acc => percent_byte b +:+ acc) "" (Utf8.str_bytes value).

Definition build_otpauth_url (issuer account_name sec : string) (v : TotpVerifier) : string :=
  "otpauth://totp/" +:+ percent_encode issuer +:+ ":" +:+ percent_encode account_name +:+ "?secret=" +:+ sec
  +:+ "&issuer=" +:+ percent_encode issuer +:+ "&algorithm=SHA1&digits=" +:+ pretty (v_digits v)
  +:+ "&period=" +:+ pretty (v_period v).

(** [create_totp_enrollment]; the generated secret is an argument. *)
Definition create_totp_enrollment (sec cid user_id account_name issuer : string) (digits_ period_ created_at : N)
    : QidResult TotpEnrollmentPlan :=
  if is_empty_str (Utf8.trim_str account_name) then Err (BadRequest "TOTP account name must not be empty")
  else if is_empty_str (Utf8.trim_str issuer) then Err (BadRequest "TOTP issuer must not be empty")
  else if negb ((6 <=? digits_) && (digits_ <=? 8)) then Err (BadRequest "TOTP digits must be between 6 and 8")
  else if period_ <? 15 then Err (BadRequest "TOTP period must be at least 15 seconds")
  else Ok {| credential := {| t_id := cid; t_user_id := user_id; secret := sec; algorithm := "SHA1"; digits := digits_;
                              period := period_; t_enabled := false; last_used_step := None; t_created_at := created_at |};
             otpauth_url := build_otpauth_url issuer account_name sec {| v_digits := digits_; v_period := period_ |} |}.

(** ** Recovery codes *)

Record RecoveryCode : Type := { display_code : string; code_hash : string }.
Definition RecoveryCodeBatch : Type := list RecoveryCode.

Context (sha256 : string → list N) (to_uppercase : N → list N).

(** [char::is_ascii_whitespace] *)
Definition is_ascii_whitespace (c : N) : bool := (c =? 9) || (c =? 10) || (c =? 12) || (c =? 13) || (c =? 32).

Definition normalize_recovery_code (code : string) : string :=
  Utf8.bytes_str (Utf8.encode (concat (map to_uppercase
    (List.filter (fun c => negb (is_ascii_whitespace c) && negb (c =? 45)) (Utf8.chars code))))).

Definition hash_recovery_code (code : string) : string := Cluster.sha256_hex sha256 (normalize_recovery_code code).

Definition ALPHABET : string := "23456789ABCDEFGHJKLMNPQRSTUVWXYZ".

(** [generate_recovery_code] from its ten random bytes. *)
Definition generate_recovery_code (bytes : list N) : string :=
  let out l := foldr (fun b acc => String (default (Ascii.ascii_of_N 0) (String.get (N.to_nat (b mod 32)) ALPHABET)) acc) "" l in
  out (take 5 bytes) +:+ match drop 5 bytes with [] => "" | rest => "-" +:+ out rest end.

(** The loop of [generate], drawing from the random bytes [draws]; [None] when they run out. *)
Fixpoint generate_loop (count : nat) (seen : list string) (codes : RecoveryCodeBatch) (draws : list (list N))
    : option RecoveryCodeBatch :=
  if (count <=? length codes)%nat then Some codes
  else match draws with
       | [] => None
       | bytes :: draws' =>
           let code := generate_recovery_code bytes in
           if str_in code seen then generate_loop count seen codes draws'
           else generate_loop count (code :: seen)
                  (codes ++ [{| display_code := code; code_hash := hash_recovery_code code |}]) draws'
       end.

Definition generate (count : nat) (draws : list (list N)) : option (QidResult RecoveryCodeBatch) :=
  if negb ((1 <=? count)%nat && (count <=? 24)%nat)
  then Some (Err (BadRequest "recovery code count must be between 1 and 24"))
  else Ok <$> generate_loop count [] [] draws.

Fixpoint position {A : Type} (f : A → bool) (l : list A) : option nat :=
  match l with
  | [] => None
  | a :: l' => if f a then Some 0%nat else S <$> position f l'
  end.

Definition verify_recovery (batch : RecoveryCodeBatch) (candidate : string) : option nat :=
  position (fun c => constant_time_eq (code_hash c) (hash_recovery_code candidate)) batch.

Definition consume_recovery (batch : RecoveryCodeBatch) (candidate : string) : bool * RecoveryCodeBatch :=
  match verify_recovery batch candidate with
  | None => (false, batch)
  | Some i => (true, delete i batch)
  end.

(** * The routes (src/qid-session/src/totp_api.rs) *)

(** What the routes read of the realm's configuration. *)
Record RealmTotp : Type := { accepts_totp : bool; totp_policy : RateLimit.TotpConfig }.

Context {J : Type}.
Abbreviation Store := (Accounts.Store (J := J)).

Definition invalid_code : QidError := BadRequest "invalid or already-used TOTP code".
Definition too_many : QidError := TooManyRequests "too many TOTP attempts, please wait and try again".

(** The proof common to both routes: an admission, a matching code, the claim of its step and the
    admission given back.  [s] is the store at the time of the claim, [saved] the outcome of its
    write; [None] is an aborted request. *)
Definition prove_step (saved : QidResult unit) (realm user_id code : string) (policy : RateLimit.TotpConfig)
    (cred probe : TotpCredential) (t1 now t2 : N) (l : RateLimit.RateLimiter) (s : Store)
    : option (Outcome N) * RateLimit.RateLimiter * Store :=
  let '(admitted, l) := RateLimit.totp_admit l t1 realm user_id policy in
  if negb admitted then (Some (Refused too_many), l, s)
  else match verify_totp_at_with_step probe code now with
       | None => (None, l, s)
       | Some (Err e) => (Some (Refused e), l, s)
       | Some (Ok None) => (Some (Refused invalid_code), l, s)
       | Some (Ok (Some step)) =>
           match consume_totp_step saved cred step s with
           | (Err e, s) => (Some (Refused e), l, s)
           | (Ok false, s) => (Some (Refused invalid_code), l, s)
           | (Ok true, s) => (Some (Passed step), RateLimit.totp_succeeded l t2 realm user_id, s)
           end
       end.

(** [totp_authenticate] up to the creation of the session.  The user and the credential are read
    from the stores [su] and [sc]; other requests may run before the claim at [s]. *)
Definition totp_authenticate (require_realm : QidResult RealmTotp) (saved : QidResult unit) (realm user_id code : string)
    (su sc : Store) (t1 now t2 : N) (l : RateLimit.RateLimiter) (s : Store)
    : option (Outcome (User * TotpCredential * N)) * RateLimit.RateLimiter * Store :=
  match require_realm with
  | Err e => (Some (Refused e), l, s)
  | Ok config =>
      if negb (accepts_totp config) then (Some (Refused (Unauthorized "TOTP is not enabled for this realm")), l, s)
      else match get_user_by_id user_id su with
           | None => (Some (Refused (NotFound ("user " +:+ user_id))), l, s)
           | Some user =>
               if negb (String.eqb (u_realm_id user) realm)
               then (Some (Refused (Unauthorized "TOTP user does not belong to request realm")), l, s)
               else match get_totp_credential (u_id user) sc with
                    | None => (Some (Refused (NotFound ("totp credential for user " +:+ u_id user))), l, s)
                    | Some cred =>
                        if negb (t_enabled cred)
                        then (Some (Refused (BadRequest "TOTP not enabled for this user")), l, s)
                        else match prove_step saved realm (u_id user) code (totp_policy config) cred cred t1 now t2 l s with
                             | (None, l, s) => (None, l, s)
                             | (Some (Refused e), l, s) => (Some (Refused e), l, s)
                             | (Some (Passed step), l, s) => (Some (Passed (user, cred, step)), l, s)
                             end
                    end
           end
  end.

Definition enabled_copy (cred : TotpCredential) (step : option N) : TotpCredential :=
  {| t_id := t_id cred; t_user_id := t_user_id cred; secret := secret cred; algorithm := algorithm cred;
     digits := digits cred; period := period cred; t_enabled := true; last_used_step := step; t_created_at := t_created_at cred |}.

(** [totp_verify] for the session of [user_id], in a realm that accepts TOTP or not.  The
    credential is stored again, enabled, after the claim; [between] is what other requests do to
    the store in the meantime. *)
Definition totp_verify (config : RealmTotp) (saved stored : QidResult unit) (realm user_id code : string)
    (sc : Store) (t1 now t2 : N) (l : RateLimit.RateLimiter) (s : Store) (between : Store → Store)
    : option (Outcome N) * RateLimit.RateLimiter * Store :=
  if negb (accepts_totp config) then (Some (Refused (Unauthorized "TOTP is not enabled for this realm")), l, s)
  else match get_totp_credential user_id sc with
       | None => (Some (Refused (NotFound ("totp credential for user " +:+ user_id))), l, s)
       | Some cred =>
           match prove_step saved realm user_id code (totp_policy config) cred (enabled_copy cred (last_used_step cred)) t1 now t2 l s with
           | (Some (Passed step), l, s) =>
               match store_totp_credential stored (enabled_copy cred (Some step)) (between s) with
               | (Err e, s) => (Some (Refused e), l, s)
               | (Ok _, s) => (Some (Passed step), l, s)
               end
           | other => other
           end
       end.

(** [urlencoding] of the enrolment route: by character, with [other as u8]. *)
Definition urlencode_char (c : N) : string :=
  if is_unreserved c then String (Ascii.ascii_of_N c) ""
  else if c =? 32 then "+"
  else
    let b := c mod 256 in
    String (Ascii.ascii_of_N 37) (String (upper_hex (N.shiftr b 4)) (String (upper_hex (N.land b 0x0f)) "")).

Definition urlencoding (s : string) : string := foldr (fun c acc => urlencode_char c +:+ acc) "" (Utf8.chars s).

Definition build_totp_qrcode_url (issuer email_ sec : string) (v : TotpVerifier) : string :=
  "otpauth://totp/" +:+ urlencoding issuer +:+ ":" +:+ urlencoding email_ +:+ "?secret=" +:+ sec
  +:+ "&issuer=" +:+ urlencoding issuer +:+ "&algorithm=" +:+ "SHA1" +:+ "&digits=" +:+ pretty (v_digits v)
  +:+ "&period=" +:+ pretty (v_period v).

End Otp.
(** * Lemmas *)

Lemma lor_lt a b n : a < 2 ^ n → b < 2 ^ n → N.lor a b < 2 ^ n.
Proof.
  intros Ha Hb. rewrite <- (N.mod_small a (2 ^ n)), <- (N.mod_small b (2 ^ n)) by done.
  rewrite <- !N.land_ones, <- N.land_lor_distr_l, N.land_ones. apply N.mod_lt. by apply N.pow_nonzero.
Qed.

(** A twenty-byte MAC always truncates, to a 31-bit number. *)
Lemma truncate_total mac :
  length mac = 20%nat → Forall (fun b => b < 256) mac → ∃ c, truncate mac = Some c ∧ c < 2 ^ 31.
Proof.
  intros Hlen HF. unfold truncate.
  assert (∀ i, (i < 20)%nat → ∃ b, mac !! i = Some b ∧ b < 256) as Hget.
  { intros i Hi. destruct (lookup_lt_is_Some_2 mac i) as [b Hb]; [lia|]. exists b. split; [done|].
    by apply (Forall_lookup_1 _ _ _ _ HF Hb). }
  destruct (Hget 19%nat) as (b19 & -> & _); [lia|]. cbn [mbind option_bind].
  assert (N.land b19 15 < 16) as Ho by (change 15 with (N.ones 4); rewrite N.land_ones; apply N.mod_lt; lia).
  destruct (Hget (N.to_nat (N.land b19 15))) as (b0 & -> & H0); [lia|]. cbn [mbind option_bind].
  destruct (Hget (N.to_nat (N.land b19 15) + 1)%nat) as (b1 & -> & H1); [lia|]. cbn [mbind option_bind].
  destruct (Hget (N.to_nat (N.land b19 15) + 2)%nat) as (b2 & -> & H2); [lia|]. cbn [mbind option_bind].
  destruct (Hget (N.to_nat (N.land b19 15) + 3)%nat) as (b3 & -> & H3); [lia|]. cbn [mbind option_bind].
  eexists. split; [done|]. apply lor_lt; [apply lor_lt; [apply lor_lt|]|]; rewrite ?N.shiftl_mul_pow2; try lia.
  change 127 with (N.ones 7). rewrite N.land_ones.
  pose proof (N.mod_lt b0 (2 ^ 7) ltac:(lia)). lia.
Qed.

(** ** Decimal codes *)

Lemma pretty_go_length n d : ∀ s, n < 10 ^ N.of_nat d → (String.length (pretty_N_go n s) ≤ d + String.length s)%nat.
Proof.
  revert n. induction d as [|d IH]; intros n s Hn.
  { assert (n = 0) as -> by (simpl in Hn; lia). by rewrite pretty_N_go_0. }
  destruct (decide (n = 0)) as [->|Hne]; [rewrite pretty_N_go_0; lia|].
  rewrite pretty_N_go_step by lia. etrans; [apply IH|simpl; lia].
  rewrite Nat2N.inj_succ, N.pow_succ_r' in Hn. apply N.Div0.div_lt_upper_bound; done.
Qed.

Lemma pretty_length n d : (1 ≤ d)%nat → n < 10 ^ N.of_nat d → (String.length (pretty n) ≤ d)%nat.
Proof.
  intros Hd Hn. unfold pretty, pretty_N. case_decide; [simpl; lia|].
  etrans; [by apply (pretty_go_length n d)|simpl; lia].
Qed.

Lemma zeros_length k s : String.length (Nat.iter k (String (Ascii.ascii_of_N 48)) s) = (k + String.length s)%nat.
Proof. induction k as [|k IH]; [done|]. exact (f_equal S IH). Qed.

Lemma zeros_parse k s : parse_digits 0 (Nat.iter k (String (Ascii.ascii_of_N 48)) s) = parse_digits 0 s.
Proof. induction k as [|k IH]; [done|]. exact IH. Qed.

(** A number below [10 ^ d] is printed on exactly [d] characters, which read back as it. *)
Lemma zero_padded_exact d n :
  1 ≤ d → n < 10 ^ d → n ≤ u64_max →
  N.of_nat (String.length (zero_padded d n)) = d ∧ parse_digits 0 (zero_padded d n) = Some n.
Proof.
  intros Hd Hn Hu. unfold zero_padded. rewrite zeros_length, zeros_parse. split.
  - pose proof (pretty_length n (N.to_nat d) ltac:(lia)) as H. rewrite N2Nat.id in H. specialize (H Hn).
    lia.
  - destruct (decide (n = 0)) as [->|Hne]; [done|].
    unfold pretty, pretty_N. rewrite decide_False by done. by rewrite parse_digits_go.
Qed.

(** A one-time password has the advertised shape.  With a twenty-byte MAC, a period that is not
    zero, a secret that decodes and one to nineteen digits, [generate_code] neither fails nor
    aborts: the code has exactly [digits] characters, all of them decimal digits, and reads as the
    31-bit truncation of the MAC of the time step, modulo [10 ^ digits]. *)
Theorem totp_code_shape (hmac_sha1 : list N → list N → list N) (base32_decode : string → result (list N) string)
    (v : TotpVerifier) (sec : string) (k : list N) (ts : N) :
  (∀ a b, length (hmac_sha1 a b) = 20%nat ∧ Forall (fun x => x < 256) (hmac_sha1 a b)) →
  base32_decode sec = Ok k → 0 < v_period v → 1 ≤ v_digits v ≤ 19 →
  ∃ c code, truncate (hmac_sha1 k (to_be_bytes (ts / v_period v))) = Some c ∧ c < 2 ^ 31 ∧
    generate_code hmac_sha1 base32_decode v sec ts = Some (Ok code) ∧
    N.of_nat (String.length code) = v_digits v ∧
    parse_digits 0 code = Some (c mod 10 ^ v_digits v).
Proof.
  intros Hmac Hk Hp Hd. destruct (Hmac k (to_be_bytes (ts / v_period v))) as [Hl HF].
  destruct (truncate_total _ Hl HF) as (c & Hc & Hlt). exists c.
  assert (10 ^ v_digits v < 18446744073709551616) as Hpow.
  { apply N.le_lt_trans with (10 ^ 19); [apply N.pow_le_mono_r; lia|done]. }
  assert (10 ^ v_digits v ≠ 0) as H0 by (apply N.pow_nonzero; lia).
  unfold generate_code, compute_totp. rewrite (proj2 (N.eqb_neq _ _)) by lia. rewrite Hk, Hc. cbn [mbind option_bind].
  unfold checked_rem, pow10_64. rewrite N.mod_small by done. rewrite (proj2 (N.eqb_neq _ _)) by done.
  cbn [mbind option_bind res_map]. eexists. split; [done|]. split; [done|]. split; [done|].
  apply zero_padded_exact; [lia|by apply N.mod_lt|].
  etrans; [by apply N.Div0.mod_le|]. apply N.lt_le_incl. eapply N.lt_trans; [exact Hlt|done].
Qed.

(** ** The routes *)

Section Routes.
Context (hmac_sha1 : list N → list N → list N) (base32_decode : string → result (list N) string).
Context `{CT : ConstantTimeEq} {J : Type}.
Abbreviation Store := (Accounts.Store (J := J)).
Implicit Types (cred probe : TotpCredential) (s sc su : Store).

Abbreviation code_at cred ts := (generate_code hmac_sha1 base32_decode {| v_digits := digits cred; v_period := period cred |} (secret cred) ts).

(** What a match means. *)
Lemma match_step_sound cred code cs step :
  match_step hmac_sha1 base32_decode cred code cs = Some (Ok (Some step)) →
  0 < period cred ∧ opt_leb (Some step) (last_used_step cred) = false ∧
  ∃ ts, ts ∈ cs ∧ step = ts / period cred ∧ code_at cred ts = Some (Ok code).
Proof.
  induction cs as [|ts cs IH]; [done|]. cbn [match_step].
  destruct (N.eqb_spec (period cred) 0) as [|Hp]; [done|].
  destruct (match last_used_step cred with Some l => ts / period cred <=? l | None => false end) eqn:El.
  { intros (? & ? & t & Ht & ?)%IH. split_and!; [done..|]. exists t. split; [by right|done]. }
  destruct (code_at cred ts) as [[e|e]|] eqn:Eg; cbn [mbind option_bind]; [|done|done].
  destruct (constant_time_eq code e) eqn:Ec.
  - apply constant_time_eq_spec in Ec as ->. intros [= <-].
    split_and!; [lia| |by exists ts; split; [left|]].
    by destruct (last_used_step cred).
  - intros (? & ? & t & Ht & ?)%IH. split_and!; [done..|]. exists t. split; [by right|done].
Qed.

Lemma windows_steps now p ts :
  0 < p → now ≤ u64_max → ts ∈ windows now p → now / p ≤ ts / p + 1 ∧ ts / p ≤ now / p + 1.
Proof.
  intros Hp Hn. unfold windows, saturating_sub, saturating_add64.
  assert (∀ a b, a ≤ b + 1 * p → a / p ≤ b / p + 1) as Hdiv.
  { intros a b Hab. rewrite <- N.div_add by lia. by apply N.Div0.div_le_mono. }
  rewrite !elem_of_cons, elem_of_nil. intros [->|[->|[->|[]]]]; split; apply Hdiv; lia.
Qed.

(** Reading a credential by its owner. *)
Lemma get_totp_owner uid sc cred : get_totp_credential uid sc = Some cred → t_user_id cred = uid.
Proof.
  unfold get_totp_credential. intros H. apply head_Some_elem_of, list_elem_of_In, List.filter_In in H as [_ H].
  by apply String.eqb_eq.
Qed.

(** A proof passes only for an admitted attempt whose code is the one of a step of the window, above
    every spent step, and it spends the step. *)
Lemma prove_step_sound saved realm uid code policy cred probe t1 now t2 l s step l' s' :
  prove_step hmac_sha1 base32_decode saved realm uid code policy cred probe t1 now t2 l s = (Some (Passed step), l', s') →
  (RateLimit.totp_admit l t1 realm uid policy).1 = true ∧
  t_enabled probe = true ∧ algorithm probe = "SHA1" ∧ 0 < period probe ∧
  opt_leb (Some step) (last_used_step probe) = false ∧
  (∃ ts, ts ∈ windows now (period probe) ∧ step = ts / period probe ∧ code_at probe ts = Some (Ok code)) ∧
  consume_totp_step saved cred step s = (Ok true, s') ∧
  l' = RateLimit.totp_succeeded (RateLimit.totp_admit l t1 realm uid policy).2 t2 realm uid.
Proof.
  unfold prove_step. destruct (RateLimit.totp_admit l t1 realm uid policy) as [[|] l1]; [|done]. cbn [negb].
  destruct (verify_totp_at_with_step _ _ probe code now) as [[[st|]|e]|] eqn:Ev; [|done..].
  destruct (consume_totp_step saved cred st s) as [[[|]|e] s1] eqn:Ec; [|done..].
  intros [= <- <- <-]. unfold verify_totp_at_with_step in Ev.
  destruct (t_enabled probe); [|done]. destruct (String.eqb_spec (algorithm probe) "SHA1"); [|done].
  cbn [negb orb] in Ev. apply match_step_sound in Ev as (? & ? & ?). by split_and!.
Qed.

(** A TOTP login is sound.  When [totp_authenticate] reaches session creation, the realm is
    configured and offers TOTP, the user exists and belongs to it, the credential is the user's,
    enabled and of the supported algorithm, the attempt was admitted by the limiter, and the code
    is the one generated for a time step at most one away from the current one; that step is newer
    than every step spent so far and is spent in the new state. *)
Theorem totp_login_sound rr saved realm uid code su sc t1 now t2 l s user cred step l' s' :
  now ≤ u64_max →
  totp_authenticate hmac_sha1 base32_decode rr saved realm uid code su sc t1 now t2 l s
    = (Some (Passed (user, cred, step)), l', s') →
  (∃ config, rr = Ok config ∧ accepts_totp config = true ∧
     (RateLimit.totp_admit l t1 realm (u_id user) (totp_policy config)).1 = true) ∧
  get_user_by_id uid su = Some user ∧ u_realm_id user = realm ∧
  get_totp_credential (u_id user) sc = Some cred ∧ t_user_id cred = u_id user ∧
  t_enabled cred = true ∧ algorithm cred = "SHA1" ∧
  (∃ ts, step = ts / period cred ∧ code_at cred ts = Some (Ok code)) ∧
  now / period cred ≤ step + 1 ∧ step ≤ now / period cred + 1 ∧
  (∀ n, spent_to (t_id cred) n s → n < step) ∧ spent_to (t_id cred) step s'.
Proof.
  intros Hn. unfold totp_authenticate. destruct rr as [config|]; [|done]. destruct (accepts_totp config) eqn:Ea; [|done].
  cbn [negb]. destruct (get_user_by_id uid su) as [u|]; [|done].
  destruct (String.eqb_spec (u_realm_id u) realm) as [Er|]; [|done]. cbn [negb].
  destruct (get_totp_credential (u_id u) sc) as [c|] eqn:Eg; [|done].
  destruct (t_enabled c) eqn:Ee; [|done]. cbn [negb].
  destruct (prove_step _ _ _ _ _ _ _ _ _ _ _ _ _ _) as [[[[e|st]|] l1] s1] eqn:Ep; [done| |done].
  intros [= -> -> <- <- <-]. apply prove_step_sound in Ep as (Hadm & _ & Halg & Hp & _ & (ts & Hw & -> & Hc) & Hcons & _).
  apply consume_accepts in Hcons as [Hsp Hlt]. pose proof (windows_steps _ _ _ Hp Hn Hw) as [??].
  split; [by exists config|]. split_and!; try done; [by eapply get_totp_owner|by exists ts].
Qed.

(** A valid proof logs in.  For an enabled SHA-1 credential of a user of a realm that offers
    TOTP, an admitted attempt with the code of the current time step, when that step is newer than
    the last used one both in the snapshot and in the store and the write succeeds, reaches session
    creation with that step. *)
Theorem totp_login_live config realm uid code su sc t1 now t2 l s user cred stored :
  accepts_totp config = true → get_user_by_id uid su = Some user → u_realm_id user = realm →
  get_totp_credential (u_id user) sc = Some cred → t_enabled cred = true → algorithm cred = "SHA1" → 0 < period cred →
  (RateLimit.totp_admit l t1 realm (u_id user) (totp_policy config)).1 = true →
  code_at cred now = Some (Ok code) →
  totp_credentials s !! t_id cred = Some stored → t_user_id stored = u_id user →
  opt_leb (Some (now / period cred)) (last_used_step cred) = false →
  opt_leb (Some (now / period cred)) (last_used_step stored) = false →
  ∃ l' s', totp_authenticate hmac_sha1 base32_decode (Ok config) (Ok ()) realm uid code su sc t1 now t2 l s
    = (Some (Passed (user, cred, now / period cred)), l', s').
Proof.
  intros Ha Hu Hr Hg He Halg Hp Hadm Hcode Hst How Hl1 Hl2. pose proof (get_totp_owner _ _ _ Hg) as Hown.
  unfold totp_authenticate. rewrite Ha, Hu, Hr, String.eqb_refl, Hg, He. cbn [negb].
  unfold prove_step. destruct (RateLimit.totp_admit l t1 realm (u_id user) _) as [adm l1]. cbn in Hadm. subst adm.
  cbn [negb]. unfold verify_totp_at_with_step. rewrite He, Halg. cbn [negb orb String.eqb Ascii.eqb Bool.eqb].
  unfold windows. cbn [match_step]. rewrite (proj2 (N.eqb_neq _ _)) by lia.
  replace (match last_used_step cred with Some l => now / period cred <=? l | None => false end) with false
    by (destruct (last_used_step cred); [by symmetry|done]).
  rewrite Hcode. cbn [mbind option_bind]. rewrite (proj2 (constant_time_eq_spec code code)) by done.
  unfold consume_totp_step. rewrite Hst, How, Hown, String.eqb_refl, Hl2. cbn. by eexists _, _.
Qed.

Lemma run_spent calls : ∀ (s : Store) tr s' x n,
  Forall (fun c => deletes c.1 = false) calls → run calls s = (tr, s') → spent_to x n s → spent_to x n s'.
Proof.
  induction calls as [|[o saved] calls IH]; intros s tr s' x n Hd Hr Hs; [by injection Hr as _ <-|].
  apply Forall_cons in Hd as [Ho Hd]. apply run_ops_cons in Hr as (res & s1 & tr1 & Hop & Hr & ->).
  eapply IH; [done..|]. by eapply run_op_spent.
Qed.

Lemma authenticate_consumes rr saved realm uid code su sc t1 now t2 l s user cred step l' s' :
  totp_authenticate hmac_sha1 base32_decode rr saved realm uid code su sc t1 now t2 l s
    = (Some (Passed (user, cred, step)), l', s') →
  consume_totp_step saved cred step s = (Ok true, s').
Proof.
  unfold totp_authenticate. destruct rr as [config|]; [|done]. destruct (accepts_totp config); [|done].
  cbn [negb]. destruct (get_user_by_id uid su) as [u|]; [|done].
  destruct (String.eqb (u_realm_id u) realm); [|done]. cbn [negb].
  destruct (get_totp_credential (u_id u) sc) as [c|]; [|done]. destruct (t_enabled c); [|done]. cbn [negb].
  destruct (prove_step _ _ _ _ _ _ _ _ _ _ _ _ _ _) as [[[[e|st]|] l1] s1] eqn:Ep; [done| |done].
  intros [= _ -> <- _ <-]. by apply prove_step_sound in Ep as (_ & _ & _ & _ & _ & _ & Hcons & _).
Qed.

(** A TOTP code logs in once.  After a login with a credential, and whatever account
    operations other than deletions follow, re-enrolment included, another login with that
    credential passes only for a later time step: two passing logins never present the code of the
    same step, even when the second one read the credential before the first one claimed its step. *)
Theorem totp_login_once rr saved realm uid code su sc t1 now t2 l s user cred step l1 s1
    calls tr s2 rr2 saved2 realm2 uid2 code2 su2 sc2 t3 now2 t4 l2 user2 cred2 step2 l3 s3 :
  totp_authenticate hmac_sha1 base32_decode rr saved realm uid code su sc t1 now t2 l s
    = (Some (Passed (user, cred, step)), l1, s1) →
  Forall (fun c => deletes c.1 = false) calls → run calls s1 = (tr, s2) →
  totp_authenticate hmac_sha1 base32_decode rr2 saved2 realm2 uid2 code2 su2 sc2 t3 now2 t4 l2 s2
    = (Some (Passed (user2, cred2, step2)), l3, s3) →
  t_id cred2 = t_id cred → step < step2.
Proof.
  intros H1 Hd Hr H2 Hid. apply authenticate_consumes, consume_accepts in H1 as [Hsp _].
  apply authenticate_consumes, consume_accepts in H2 as [_ Hlt]. apply Hlt. rewrite Hid. by eapply run_spent.
Qed.

(** An enrolment proof leaves the credential enabled with the proven step spent. *)
Lemma enrolment_enables config saved stored realm uid code sc t1 now t2 l s between step l' s' :
  totp_verify hmac_sha1 base32_decode config saved stored realm uid code sc t1 now t2 l s between
    = (Some (Passed step), l', s') →
  ∃ cred t, get_totp_credential uid sc = Some cred ∧ totp_credentials s' !! t_id cred = Some t ∧
    t_enabled t = true ∧ secret t = secret cred ∧ opt_leb (Some step) (last_used_step t) = true.
Proof.
  unfold totp_verify. destruct (accepts_totp config); [|done]. cbn [negb].
  destruct (get_totp_credential uid sc) as [cred|]; [|done].
  destruct (prove_step _ _ _ _ _ _ _ _ _ _ _ _ _ _) as [[[[e|st]|] l1] s1]; [done| |done].
  unfold store_totp_credential. destruct (ensure_same_binding _ _ _) as [u|]; [|done].
  destruct stored; [|done]. intros [= -> <- <-]. exists cred. cbn.
  eexists. split; [done|]. rewrite lookup_insert_eq. split; [done|].
  destruct (totp_credentials (between s1) !! t_id cred) as [t|]; cbn; [|by rewrite N.leb_refl].
  split_and!; [done..|]. unfold opt_max. destruct (last_used_step t) as [m|]; cbn; [|by rewrite N.leb_refl].
  destruct (N.leb_spec m step); cbn; apply N.leb_le; lia.
Qed.
End Routes.

(** ** Recovery codes *)

(** The letters and digits of recovery codes. *)
Definition code_char (c : N) : Prop := (50 ≤ c ≤ 57) ∨ (65 ≤ c ≤ 90).

Definition alphabet_char (b : N) : N := Ascii.N_of_ascii (default (Ascii.ascii_of_N 0) (String.get (N.to_nat (b mod 32)) ALPHABET)).

Lemma alphabet_code_char b : code_char (alphabet_char b).
Proof.
  unfold alphabet_char. assert (b mod 32 < 32) as H by (apply N.mod_lt; lia).
  set (n := N.to_nat (b mod 32)). assert (n < 32)%nat as Hn by lia. clearbody n. clear H b.
  do 32 (destruct n as [|n]; [first [left; split; apply N.leb_le; reflexivity | right; split; apply N.leb_le; reflexivity]|]). lia.
Qed.

Lemma half_bytes l :
  Utf8.str_bytes (foldr (fun b acc => String (default (Ascii.ascii_of_N 0) (String.get (N.to_nat (b mod 32)) ALPHABET)) acc) "" l)
  = map alphabet_char l.
Proof. induction l as [|b l IH]; [done|]. cbn [foldr map Utf8.str_bytes]. by rewrite IH. Qed.

(** The bytes of a recovery code: two groups of five and a hyphen between them. *)
Lemma recovery_code_bytes bytes :
  length bytes = 10%nat →
  Utf8.str_bytes (generate_recovery_code bytes) = map alphabet_char (take 5 bytes) ++ 45 :: map alphabet_char (drop 5 bytes).
Proof.
  intros Hl. unfold generate_recovery_code. rewrite Utf8.str_bytes_app, half_bytes. f_equal.
  assert (length (drop 5 bytes) = 5%nat) as Hd by (rewrite length_drop; lia).
  destruct (drop 5 bytes) as [|b rest]; [done|]. rewrite Utf8.str_bytes_app, half_bytes. done.
Qed.

Lemma alphabet_bytes l : Forall (fun b => b < 256) (map alphabet_char l).
Proof.
  apply Forall_map, Forall_forall. intros b _. cbv beta. pose proof (alphabet_code_char b). unfold code_char in *. lia.
Qed.

Lemma position_none {A} (f : A → bool) l : Forall (fun x => f x = false) l → position f l = None.
Proof. induction 1 as [|x l Hx _ IH]; [done|]. cbn. by rewrite Hx, IH. Qed.

Lemma position_skip {A} (f : A → bool) x l : f x = false → position f (x :: l) = S <$> position f l.
Proof. intros H. cbn. by rewrite H. Qed.

Section Recovery.
Context `{CT : ConstantTimeEq} (sha256 : string → list N) (to_uppercase : N → list N).
Context (upper_fixed : ∀ c, code_char c → to_uppercase c = [c]).

Lemma normalize_generated bytes :
  length bytes = 10%nat →
  normalize_recovery_code to_uppercase (generate_recovery_code bytes) = Utf8.bytes_str (map alphabet_char bytes).
Proof.
  intros Hl. unfold normalize_recovery_code, Utf8.chars. rewrite recovery_code_bytes by done.
  assert (∀ l, Forall code_char (map alphabet_char l)) as Hcc.
  { intros l. apply Forall_map, Forall_forall. intros. apply alphabet_code_char. }
  assert (∀ l, Forall (fun b => b < 128) (map alphabet_char l)) as Hlt.
  { intros l. eapply Forall_impl; [apply Hcc|]. unfold code_char. cbv beta. lia. }
  rewrite Utf8.decode_ascii by (apply Forall_app; split; [apply Hlt|constructor; [lia|apply Hlt]]). cbn [default from_option id].
  assert (∀ l, Forall code_char l →
    concat (map to_uppercase (List.filter (fun c => negb (is_ascii_whitespace c) && negb (c =? 45)) l)) = l) as Hkeep.
  { induction 1 as [|c l Hc _ IH]; [done|]. cbn [List.filter].
    replace (negb (is_ascii_whitespace c) && negb (c =? 45)) with true.
    - cbn [map concat]. by rewrite IH, upper_fixed.
    - symmetry. unfold is_ascii_whitespace. unfold code_char in Hc.
      rewrite !(proj2 (N.eqb_neq _ _)) by lia. done. }
  rewrite List.filter_app, map_app, concat_app. cbn [List.filter].
  change (negb (is_ascii_whitespace 45) && negb (45 =? 45)) with false. cbv iota.
  rewrite !Hkeep by apply Hcc. rewrite <- map_app, take_drop, Utf8.encode_ascii by apply Hlt. done.
Qed.

Lemma generated_codes count : ∀ draws seen codes batch,
  Forall (fun d => length d = 10%nat) draws →
  seen ≡ₚ map display_code codes → NoDup seen → (length codes ≤ count)%nat →
  Forall (fun c => code_hash c = hash_recovery_code sha256 to_uppercase (display_code c) ∧
                   ∃ d, length d = 10%nat ∧ display_code c = generate_recovery_code d) codes →
  generate_loop sha256 to_uppercase count seen codes draws = Some batch →
  length batch = count ∧ NoDup (map display_code batch) ∧
  Forall (fun c => code_hash c = hash_recovery_code sha256 to_uppercase (display_code c) ∧
                   ∃ d, length d = 10%nat ∧ display_code c = generate_recovery_code d) batch.
Proof.
  induction draws as [|d draws IH]; intros seen codes batch Hdr Hp Hnd Hle HF; cbn [generate_loop];
    (destruct (Nat.leb_spec count (length codes)) as [Hge|Hlt];
      [intros [= <-]; split_and!; [lia|by rewrite <- Hp|done]|]); [done|].
  apply Forall_cons in Hdr as [Hd Hdr].
  destruct (str_in (generate_recovery_code d) seen) eqn:Es; [by apply IH|].
  apply IH; [done|..].
  - rewrite map_app. cbn. rewrite Hp. apply Permutation_cons_append.
  - constructor; [|done]. by apply str_in_false.
  - rewrite length_app. cbn. lia.
  - apply Forall_app. split; [done|]. constructor; [|done]. cbn. eauto.
Qed.

Lemma generated_normal_inj c d :
  length c = 10%nat → length d = 10%nat →
  normalize_recovery_code to_uppercase (generate_recovery_code c)
  = normalize_recovery_code to_uppercase (generate_recovery_code d) →
  generate_recovery_code c = generate_recovery_code d.
Proof.
  intros Hc Hd. rewrite !normalize_generated by done. intros H%Utf8.bytes_str_inj; [|by apply alphabet_bytes..].
  rewrite <- (Utf8.bytes_str_of_bytes (generate_recovery_code c)), <- (Utf8.bytes_str_of_bytes (generate_recovery_code d)).
  rewrite !recovery_code_bytes by done. by rewrite <- !firstn_map, <- !skipn_map, H.
Qed.

(** The hash of the only code of a batch with distinct hashes is found, and not after its removal. *)
Lemma consume_exact (batch : RecoveryCodeBatch) i c candidate :
  NoDup (map code_hash batch) → batch !! i = Some c →
  code_hash c = hash_recovery_code sha256 to_uppercase candidate →
  consume_recovery sha256 to_uppercase batch candidate = (true, delete i batch) ∧
  consume_recovery sha256 to_uppercase (delete i batch) candidate = (false, delete i batch).
Proof.
  intros Hnd Hi Hc.
  assert (∀ b : RecoveryCodeBatch, verify_recovery sha256 to_uppercase b candidate
    = position (fun x => String.eqb (code_hash x) (code_hash c)) b) as Hv.
  { intros b. unfold verify_recovery. rewrite <- Hc. induction b as [|x b IH]; [done|]. cbn [position]. rewrite IH.
    destruct (constant_time_eq (code_hash x) (code_hash c)) eqn:E.
    - apply constant_time_eq_spec in E. by rewrite E, String.eqb_refl.
    - destruct (String.eqb_spec (code_hash x) (code_hash c)) as [Ex|]; [|done].
      apply constant_time_eq_spec in Ex. congruence. }
  unfold consume_recovery. rewrite !Hv. unfold RecoveryCodeBatch in *. clear Hv Hc candidate. revert i Hi Hnd.
  induction batch as [|x batch IH]; intros i Hi Hnd; [done|]. cbn [map] in Hnd. apply NoDup_cons in Hnd as [Hx Hnd].
  destruct i as [|i]; cbn [lookup list_lookup] in Hi.
  - injection Hi as ->. cbn [position delete list_delete]. rewrite String.eqb_refl. split; [done|].
    rewrite position_none; [done|]. apply Forall_forall. intros y Hy. apply String.eqb_neq. intros E. apply Hx.
    rewrite <- E. apply list_elem_of_In, in_map, list_elem_of_In, Hy.
  - assert (code_hash x ≠ code_hash c) as Hne.
    { intros E. apply Hx. rewrite E. by apply list_elem_of_In, in_map, list_elem_of_In, (list_elem_of_lookup_2 _ i). }
    destruct (IH i Hi Hnd) as [H1 H2]. change (delete (S i) (x :: batch)) with (x :: delete i batch).
    rewrite !position_skip by (by apply String.eqb_neq).
    clear IH. destruct (position (λ y, String.eqb (code_hash y) (code_hash c)) batch) as [j|]; [|by apply (f_equal fst) in H1]. apply (f_equal snd) in H1; cbn in H1.
    destruct (position (λ y, String.eqb (code_hash y) (code_hash c)) (delete i batch)) as [k|]; [by apply (f_equal fst) in H2|].
    split; [exact (f_equal (fun b => (true, x :: b)) H1)|done].
Qed.

(** Recovery codes are used once.  A batch that [generate] returns has the requested number of
    codes; when SHA-256 has no collision among them, [consume] accepts each code, however its case,
    spaces and hyphens are typed, removes that code and no other, and refuses it afterwards. *)
Theorem recovery_code_single_use count draws batch :
  Forall (fun d => length d = 10%nat) draws →
  generate sha256 to_uppercase count draws = Some (Ok batch) →
  (∀ c d, c ∈ batch → d ∈ batch → code_hash c = code_hash d →
     normalize_recovery_code to_uppercase (display_code c) = normalize_recovery_code to_uppercase (display_code d)) →
  length batch = count ∧
  ∀ i c candidate, batch !! i = Some c →
    normalize_recovery_code to_uppercase candidate = normalize_recovery_code to_uppercase (display_code c) →
    consume_recovery sha256 to_uppercase batch candidate = (true, delete i batch) ∧
    consume_recovery sha256 to_uppercase (delete i batch) candidate = (false, delete i batch).
Proof.
  intros Hdr Hg Hcol. unfold generate in Hg.
  destruct (negb _); [done|].
  destruct (generate_loop _ _ _ _ _ _) as [b|] eqn:El; [|done]. injection Hg as ->.
  apply generated_codes in El as (Hlen & Hnd & HF); [|done|done|constructor|cbn; lia|done].
  split; [done|]. intros i c candidate Hi Hn.
  apply (consume_exact batch i c); [|done|].
  - apply (NoDup_fmap_2_strong code_hash); [|by apply (NoDup_fmap_1 display_code)].
    intros x y Hx Hy E. apply (Hcol x y Hx Hy) in E.
    destruct (proj1 (Forall_forall _ _) HF x Hx) as (Ex & dx & Hdx & Dx).
    destruct (proj1 (Forall_forall _ _) HF y Hy) as (Ey & dy & Hdy & Dy).
    rewrite Dx, Dy in E. apply generated_normal_inj in E; [|done..]. rewrite <- Dx, <- Dy in E.
    destruct x, y; cbn in *. congruence.
  - destruct (proj1 (Forall_forall _ _) HF c (list_elem_of_lookup_2 _ _ _ Hi)) as [-> _].
    unfold hash_recovery_code. by rewrite Hn.
Qed.
End Recovery.

(** ** Percent encoding *)

Definition pct_digit (c : Ascii.ascii) : option N :=
  let n := Ascii.N_of_ascii c in
  if (48 <=? n) && (n <=? 57) then Some (n - 48) else if (65 <=? n) && (n <=? 70) then Some (n - 55) else None.

(** The reference: decoding of percent-encoded text (RFC 3986, upper-case digits), which admits
    unreserved characters and escapes only. *)
Fixpoint percent_decode (s : string) : option string :=
  match s with
  | EmptyString => Some EmptyString
  | String c s' =>
      if Ascii.eqb c (Ascii.ascii_of_N 37) then
        match s' with
        | String h (String l s'') =>
            hi ← pct_digit h; lo ← pct_digit l; String (Ascii.ascii_of_N (hi * 16 + lo)) <$> percent_decode s''
        | _ => None
        end
      else if is_unreserved (Ascii.N_of_ascii c) then String c <$> percent_decode s' else None
  end.

Lemma percent_byte_decodes a s :
  percent_decode (percent_byte (Ascii.N_of_ascii a) +:+ s) = String a <$> percent_decode s.
Proof. destruct a as [[] [] [] [] [] [] [] []]; reflexivity. Qed.

(** Enrolment labels cannot break out of the URL.  Whatever bytes an account or issuer name
    has, [percent_encode] writes a text made of unreserved characters and complete escapes only,
    which decodes to the name: separators of the [otpauth] URL are always escaped and two names never
    share an encoding. *)
Theorem percent_encode_roundtrip value : percent_decode (percent_encode value) = Some value.
Proof.
  unfold percent_encode. induction value as [|a s IH]; [done|].
  cbn [Utf8.str_bytes foldr]. rewrite percent_byte_decodes. by rewrite IH.
Qed.

(** The second encoder, of the enrolment route, keeps one byte of a character: two names differ and
    their labels do not (the characters U+0101 and U+0001), where [percent_encode] tells them apart. *)
Lemma urlencoding_truncates :
  urlencoding (Utf8.bytes_str [196; 129]) = urlencoding (Utf8.bytes_str [1]) ∧
  percent_encode (Utf8.bytes_str [196; 129]) ≠ percent_encode (Utf8.bytes_str [1]).
Proof. split; [vm_compute; reflexivity|vm_compute; discriminate]. Qed.

(** ** Witnesses *)

#[local] Instance eqb_constant_time : ConstantTimeEq := {|
  constant_time_eq := String.eqb; constant_time_eq_spec := String.eqb_eq |}.

(** Stand-ins for HMAC-SHA-1 and base32: the counter's bytes in a frame of twenty, the text's bytes. *)
Definition toy_hmac (k m : list N) : list N := map (fun b => b mod 256) (take 20 (m ++ k ++ repeat 7 20)).
Definition toy_base32 (s : string) : result (list N) string := Ok (Utf8.str_bytes s).

Lemma toy_hmac_bytes a b : length (toy_hmac a b) = 20%nat ∧ Forall (fun x => x < 256) (toy_hmac a b).
Proof.
  unfold toy_hmac. split; [rewrite length_map, length_take, !length_app, repeat_length; lia|].
  apply Forall_map, Forall_forall. intros x _. by apply N.mod_lt.
Qed.

Lemma totp_code_shape_witness :
  ∃ c code, truncate (toy_hmac (Utf8.str_bytes "s") (to_be_bytes (1700000000 / 30))) = Some c ∧ c < 2 ^ 31 ∧
    generate_code toy_hmac toy_base32 {| v_digits := 6; v_period := 30 |} "s" 1700000000 = Some (Ok code) ∧
    N.of_nat (String.length code) = 6 ∧ parse_digits 0 code = Some (c mod 10 ^ 6).
Proof.
  apply (totp_code_shape toy_hmac toy_base32 {| v_digits := 6; v_period := 30 |} "s" (Utf8.str_bytes "s") 1700000000);
    [apply toy_hmac_bytes|reflexivity|reflexivity|by split; vm_compute].
Defined.

Definition ex_realm : RealmTotp :=
  {| accepts_totp := true; totp_policy := {| RateLimit.enabled := true; RateLimit.totp_max_failed_attempts := 5;
       RateLimit.failed_attempt_window_seconds := 300 |} |}.

Definition ex_limiter : RateLimit.RateLimiter := RateLimit.with_capacity RateLimit.default_config 16.

Definition ex_accounts : Accounts.Store (J := unit) :=
  (run [(CreateUser (ex_user "u" "r" None), Ok tt); (StoreTotp (ex_totp "k" "u"), Ok tt)] empty_store).2.

Definition ex_code (ts : N) : string :=
  match generate_code toy_hmac toy_base32 default_verifier "s" ts with Some (Ok c) => c | _ => "" end.

Definition ex_login (now : N) (s : Accounts.Store (J := unit)) :=
  totp_authenticate toy_hmac toy_base32 (Ok ex_realm) (Ok tt) "r" "u" (ex_code now) ex_accounts ex_accounts now now now ex_limiter s.

Lemma totp_login_sound_witness :
  spent_to "k" 33 (ex_login 1000 ex_accounts).2.
Proof.
  destruct (ex_login 1000 ex_accounts) as [[o l] s] eqn:E.
  assert (o = Some (Passed (ex_user "u" "r" None, ex_totp "k" "u", 33))) as ->
    by (assert (o = (ex_login 1000 ex_accounts).1.1) as -> by (by rewrite E); vm_compute; reflexivity).
  assert (1000 ≤ u64_max) as Hn by by vm_compute. unfold ex_login in E.
  pose proof (totp_login_sound toy_hmac toy_base32 _ _ _ _ _ _ _ _ _ _ _ _ _ _ _ _ _ Hn E) as H.
  by destruct_and! H.
Defined.

Lemma totp_login_live_witness :
  ∃ l' s', ex_login 1000 ex_accounts = (Some (Passed (ex_user "u" "r" None, ex_totp "k" "u", 1000 / 30)), l', s').
Proof.
  apply (totp_login_live toy_hmac toy_base32 ex_realm "r" "u" (ex_code 1000) ex_accounts ex_accounts 1000 1000 1000
    ex_limiter ex_accounts (ex_user "u" "r" None) (ex_totp "k" "u") (ex_totp "k" "u")); vm_compute; reflexivity.
Defined.

Lemma totp_login_once_witness :
  (ex_login 1000 (ex_login 970 ex_accounts).2).1.1 = Some (Passed (ex_user "u" "r" None, ex_totp "k" "u", 33)) ∧ 32 < 33.
Proof.
  split; [vm_compute; reflexivity|].
  destruct (ex_login 970 ex_accounts) as [[o1 l1] s1] eqn:E1.
  assert (o1 = (ex_login 970 ex_accounts).1.1) as -> by (rewrite E1; reflexivity).
  assert (s1 = (ex_login 970 ex_accounts).2) as -> by (rewrite E1; reflexivity).
  destruct (ex_login 1000 (ex_login 970 ex_accounts).2) as [[o2 l2] s2] eqn:E2.
  assert (o2 = (ex_login 1000 (ex_login 970 ex_accounts).2).1.1) as -> by (by rewrite E2).
  eapply (totp_login_once toy_hmac toy_base32) with (calls := []).
  - etrans; [exact E1|]. repeat f_equal.
  - constructor.
  - reflexivity.
  - etrans; [exact E2|]. repeat f_equal.
  - reflexivity.
Defined.

Definition ex_draws : list (list N) :=
  [[0; 1; 2; 3; 4; 5; 6; 7; 8; 9]; [0; 1; 2; 3; 4; 5; 6; 7; 8; 9]; [31; 30; 29; 28; 27; 26; 25; 24; 23; 22]].

Definition ex_upper (c : N) : list N := if (97 <=? c) && (c <=? 122) then [c - 32] else [c].

Definition ex_batch : RecoveryCodeBatch :=
  match generate Utf8.str_bytes ex_upper 2 ex_draws with Some (Ok b) => b | _ => [] end.

Definition ex_recovery (code : string) : RecoveryCode :=
  {| display_code := code; code_hash := hash_recovery_code Utf8.str_bytes ex_upper code |}.

Lemma ex_upper_fixed c : code_char c → ex_upper c = [c].
Proof. unfold code_char, ex_upper. destruct (N.leb_spec 97 c), (N.leb_spec c 122); cbn; (done || lia). Qed.

Lemma recovery_code_single_use_witness :
  map display_code ex_batch = ["23456-789AB"; "ZYXWV-UTSRQ"] ∧
  consume_recovery Utf8.str_bytes ex_upper ex_batch " zyxwv utsrq" = (true, take 1 ex_batch) ∧
  consume_recovery Utf8.str_bytes ex_upper (take 1 ex_batch) " zyxwv utsrq" = (false, take 1 ex_batch).
Proof.
  split; [vm_compute; reflexivity|].
  apply (recovery_code_single_use Utf8.str_bytes ex_upper ex_upper_fixed 2 ex_draws ex_batch) with (i := 1%nat)
    (c := default {| display_code := ""; code_hash := "" |} (ex_batch !! 1%nat)).
  - repeat constructor.
  - vm_compute. reflexivity.
  - intros c d Hc Hd. set (P := fun c d => code_hash c = code_hash d → normalize_recovery_code ex_upper (display_code c)
      = normalize_recovery_code ex_upper (display_code d)). change (P c d).
    assert (ex_batch = [ex_recovery "23456-789AB"; ex_recovery "ZYXWV-UTSRQ"]) as Eb by (vm_compute; reflexivity).
    apply list_elem_of_In in Hc, Hd. rewrite Eb in Hc, Hd.
    destruct Hc as [<-|[<-|[]]], Hd as [<-|[<-|[]]]; unfold P; first [intros _; reflexivity | intros E; exfalso; revert E; vm_compute; discriminate].
  - vm_compute. reflexivity.
  - vm_compute. reflexivity.
Defined.

End Otp.
