(* ===== verification/Login.v ===== *)
(** Password logins and browser sessions: the authenticator and its account lockout
    (src/qid-session/src/auth.rs), the session manager (browser.rs) and the password and session
    routes with their cookies (api/mod.rs, api/password.rs, api/session.rs), composed with the
    account store (Accounts.v), the push tables (Push.v), the attempt limiter and the failure
    budget (RateLimit.v).

    A request threads the store, the failure budget and the limiter through a state and error
    monad; its writes take their outcome from [saved], indexed by their order in the request, and
    every reading of the clock is an argument.  The hashing of passwords is an interface.  Sums
    of times wrap, as in a release build. *)

From S2P Require Import Prelude Utf8 Request RateLimit Push Tokens Cluster Accounts.
Import Accounts Request.

Module Login.

(** The trait [PasswordCredentials] of src/qid-core/src/state.rs, as the authenticator uses it:
    [pc_verify] tells whether the password is right and whether its hash is outdated. *)
Record PasswordCredentials : Type := {
  pc_hash : string → QidResult string;
  pc_verify : string → PasswordCredential → bool * bool
}.

Record AuthResult : Type := { user : User; acr : string; amr : list string; session_id : option string }.

Record BrowserSessionConfig : Type := {
  cookie_name : string; same_site : string; idle_timeout_minutes : N; absolute_timeout_hours : N
}.

(** What these routes read of [RuntimeRealm]. *)
Record RuntimeRealm : Type := {
  realm_id : string; password_enabled : bool; passwordless_only : bool;
  password : RateLimit.PasswordPolicy; browser_session : BrowserSessionConfig
}.

Definition accepts_password_authentication (r : RuntimeRealm) : bool := password_enabled r && negb (passwordless_only r).

(** [SharedState::realm] and [require_realm] over the plan's realms. *)
Definition find_realm (plan : list RuntimeRealm) (rid : string) : option RuntimeRealm :=
  List.find (fun r => String.eqb (realm_id r) rid) plan.

Definition require_realm (plan : list RuntimeRealm) (rid : string) : QidResult RuntimeRealm :=
  ok_or (find_realm plan rid) (NotFound ("realm " +:+ rid)).

(** * Cookies (src/qid-session/src/api/mod.rs) *)

Definition SEMICOLON : Ascii.ascii := Ascii.ascii_of_N 59.
Definition EQUALS : Ascii.ascii := Ascii.ascii_of_N 61.

Fixpoint find_cookie (name : string) (pairs : list string) : option string :=
  match pairs with
  | [] => None
  | p :: rest =>
      match split_once EQUALS (Utf8.trim_str p) with
      | Some (k, v) => if String.eqb (Utf8.trim_str k) name then Some (Utf8.trim_str v) else find_cookie name rest
      | None => find_cookie name rest
      end
  end.

(** [extract_cookie] on the value of the [Cookie] header, [None] when it is absent or not text. *)
Definition extract_cookie (cookie_header : option string) (name : string) : option string :=
  h ← cookie_header; find_cookie name (split_on SEMICOLON h).

(** The bytes [HeaderValue::from_str] admits. *)
Definition header_byte (b : N) : bool := ((32 <=? b) && negb (b =? 127)) || (b =? 9).

Definition header_value (s : string) : QidResult string :=
  if forallb header_byte (Utf8.str_bytes s) then Ok s else Err (Internal "failed to parse header value").

Definition set_session_cookie (config : BrowserSessionConfig) (sid error_context : string) : QidResult string :=
  map_err (fun e => Internal (error_context +:+ ": " +:+ error_message e))
    (header_value (cookie_name config +:+ "=" +:+ sid +:+ "; HttpOnly; Secure; Path=/; SameSite=" +:+ same_site config)).

Section Login.
Context {J : Type}.
Abbreviation Store := (Accounts.Store (J := J)).
Abbreviation SessionJ := (Accounts.Session (J := J)).

(** * The monad of a request *)

Record St : Type := { store : Store; budget : RateLimit.FailureBudget.Budget; limiter : RateLimit.RateLimiter }.

Definition M (A : Type) : Type := Request.M St A.

(** A call of the repository. *)
Definition call {A} (f : Store → QidResult A * Store) : M A :=
  fun st => let '(r, s) := f (store st) in (r, {| store := s; budget := budget st; limiter := limiter st |}).
Definition put_budget (b : RateLimit.FailureBudget.Budget) : M unit :=
  fun st => (Ok tt, {| store := store st; budget := b; limiter := limiter st |}).
Definition put_limiter (l : RateLimit.RateLimiter) : M unit :=
  fun st => (Ok tt, {| store := store st; budget := budget st; limiter := l |}).


(** * The authenticator (src/qid-session/src/auth.rs) *)

Definition with_lockout (u : User) (attempts : N) (until : option N) : User :=
  {| u_id := u_id u; u_realm_id := u_realm_id u; email := email u; email_verified := email_verified u;
     display_name := display_name u; failed_login_attempts := attempts; locked_until := until; org := org u |}.

Definition is_current (a : Push.PushAuthenticator) : bool := match Push.revoked_at a with None => true | Some _ => false end.

(** [push_factor_satisfied] *)
Definition push_factor_satisfied (s : Store) (realm uid : string) (methods : list string) : QidResult bool :=
  let password_authenticated := existsb (fun m => str_in m ["pwd"; "password"]) methods in
  let already_has_second_factor := existsb (fun m => str_in m ["webauthn"; "totp"; "push"]) methods in
  if negb password_authenticated || already_has_second_factor then Ok true
  else
    let? rows := Push.list_push_authenticators {| Push.users := ∅; Push.push := push s |} realm uid in
    Ok (negb (existsb is_current rows)).

Context (policy : RateLimit.PasswordPolicy).

(** What a failed attempt writes into the account. *)
Definition failed_once (u : User) (now : N) : User :=
  let attempts := add32 (failed_login_attempts u) 1 in
  with_lockout u attempts
    (if RateLimit.max_failed_attempts policy <=? attempts
     then Some (add64 now (RateLimit.lockout_duration_seconds policy)) else locked_until u).

Definition record_failed_attempt (saved : QidResult unit) (realm : string) (u : User) (now t_fail : N) : M unit :=
  let! st := get_state in
  let! _ := put_budget (RateLimit.FailureBudget.record_failure (budget st) t_fail realm
              (RateLimit.max_failed_attempts_per_realm policy) (RateLimit.lockout_duration_seconds policy)).2 in
  call (update_user saved (failed_once u now) (Some realm)).

Definition invalid_credentials : QidError := Unauthorized "invalid credentials".
Definition account_locked : QidError := TooManyRequests "account is temporarily locked".

(** [authenticate_password].  The user that is read first is the one every later step uses. *)
Definition authenticate_password (credentials : option PasswordCredentials) (saved : nat → QidResult unit)
    (t_budget now t_fail : N) (realm e plaintext : string) : M AuthResult :=
  match credentials with
  | None => throw (Config "configured password pepper requires a resolved credential context")
  | Some creds =>
      let! st := get_state in
      if RateLimit.FailureBudget.exhausted (budget st) t_budget realm (RateLimit.max_failed_attempts_per_realm policy)
           (RateLimit.lockout_duration_seconds policy)
      then throw (AttemptBudgetSpent "too many failed password attempts for this realm")
      else
        let! found := of_result (get_user_by_email realm e (store st)) in
        match found with
        | None => throw invalid_credentials
        | Some u =>
            let! _ := match locked_until u with
                      | Some until =>
                          if now <? until then throw account_locked
                          else call (update_user (saved 0%nat) (with_lockout u 0 None) (Some realm))
                      | None => ret tt
                      end in
            let! st := get_state in
            match get_password_credential (u_id u) (store st) with
            | None =>
                let! _ := record_failed_attempt (saved 1%nat) realm u now t_fail in
                throw invalid_credentials
            | Some cred =>
                let '(valid, rehash_required) := pc_verify creds plaintext cred in
                if negb valid then
                  let! _ := record_failed_attempt (saved 1%nat) realm u now t_fail in
                  throw invalid_credentials
                else
                  let! _ := if rehash_required then
                              let! h := of_result (pc_hash creds plaintext) in
                              call (update_password_credential_in_realm (saved 2%nat)
                                      {| pw_user_id := u_id u; pw_hash := h; pw_algorithm := "argon2id" |} realm)
                            else ret tt in
                  let! _ := if (0 <? failed_login_attempts u) || bool_decide (is_Some (locked_until u))
                            then call (update_user (saved 3%nat) (with_lockout u 0 None) (Some realm))
                            else ret tt in
                  ret {| user := u; acr := "urn:qid:acr:password"; amr := ["pwd"]; session_id := None |}
            end
        end
  end.

(** * Sessions (src/qid-session/src/browser.rs) *)

(** [generate_session_id] from its random bytes. *)
Definition generate_session_id (bytes : list N) : string := "sid_" +:+ Cluster.hex_encode_lower bytes.

(** [SessionManager::create] with the timeouts of the configuration. *)
Definition new_session (config : BrowserSessionConfig) (bytes : list N) (now : N) (realm uid acr_ : string)
    (amr_ : list string) : SessionJ :=
  {| s_id := generate_session_id bytes; s_realm_id := realm; s_user_id := uid; auth_time := now; s_acr := Some acr_;
     s_amr := amr_; idle_expires_at := add64 now (idle_timeout_minutes config * 60 mod 2 ^ 64);
     absolute_expires_at := add64 now (absolute_timeout_hours config * 60 * 60 mod 2 ^ 64); s_revoked := false;
     s_created_at := now; s_cnf := None |}.

Definition create (config : BrowserSessionConfig) (saved : QidResult unit) (bytes : list N) (now : N)
    (realm uid acr_ : string) (amr_ : list string) : M SessionJ :=
  let x := new_session config bytes now realm uid acr_ amr_ in
  let! _ := call (create_session saved x) in
  ret x.

(** The outcome of revoking the old session is ignored. *)
Definition create_with_regeneration (config : BrowserSessionConfig) (saved : nat → QidResult unit) (bytes : list N)
    (now : N) (realm uid acr_ : string) (amr_ : list string) (old_session_id : option string) : M SessionJ :=
  let! _ := match old_session_id with
            | Some old => ignore (call (revoke_session (saved 4%nat) old (Some realm)))
            | None => ret tt
            end in
  create config (saved 5%nat) bytes now realm uid acr_ amr_.

(** [SessionManager::get] *)
Definition manager_get (sid : string) (now : N) (s : Store) : option SessionJ :=
  match get_session sid s with
  | Some x => if negb (is_active x now) then None else Some x
  | None => None
  end.

(** * Routes (src/qid-session/src/api) *)

Definition establish_session (plan : list RuntimeRealm) (saved : nat → QidResult unit) (bytes : list N) (now : N)
    (realm : string) (cookie_header : option string) (result : AuthResult) : M (string * SessionJ) :=
  let! config := of_result (require_realm plan realm) in
  let session_config := browser_session config in
  let old_session_id := extract_cookie cookie_header (cookie_name session_config) in
  let! x := create_with_regeneration session_config saved bytes now realm (u_id (user result)) (acr result) (amr result)
              old_session_id in
  let! cookie := of_result (set_session_cookie session_config (s_id x) "failed to build session cookie header") in
  ret (cookie, x).

(** The outcome of a password login: a session and its cookie, or the push challenge still to pass. *)
Inductive LoginReply : Type :=
| SessionEstablished (cookie : string) (x : SessionJ)
| PushRequired (result : AuthResult).

End Login.


Section Routes.
Context {J : Type}.
Abbreviation Store := (Accounts.Store (J := J)).
Abbreviation SessionJ := (Accounts.Session (J := J)).

(** The readings of the clock of one login, in their order. *)
Record Times : Type := {
  t_admit : N; t_budget : N; t_now : N; t_fail : N; t_released : N * N; t_session : N
}.

(** [password_auth]; [credentials] is what [realm_password_context] returns. *)
Definition password_auth (plan : list RuntimeRealm) (credentials : QidResult PasswordCredentials)
    (saved : nat → QidResult unit) (bytes : list N) (t : Times) (realm e plaintext : string)
    (cookie_header : option string) : M (J := J) LoginReply :=
  let! config := of_result (require_realm plan realm) in
  if negb (accepts_password_authentication config)
  then throw (Unauthorized "password authentication is disabled for this realm")
  else
    let policy := password config in
    let! st := get_state in
    let '(admitted, l) := RateLimit.password_admit (limiter st) (t_admit t) realm e policy in
    let! _ := put_limiter l in
    if negb admitted then throw (TooManyRequests "too many login attempts, please wait and try again")
    else
      let! creds := of_result credentials in
      let! result := authenticate_password policy (Some creds) saved (t_budget t) (t_now t) (t_fail t) realm e plaintext in
      let! st := get_state in
      let! _ := put_limiter (RateLimit.password_succeeded (limiter st) (t_released t).1 (t_released t).2 realm e) in
      let! satisfied := of_result (push_factor_satisfied (store st) realm (u_id (user result)) (amr result)) in
      if satisfied then
        let! p := establish_session plan saved bytes (t_session t) realm cookie_header result in
        ret (SessionEstablished p.1 p.2)
      else ret (PushRequired result).

Record BrowserSessionContext : Type := { realm_config : RuntimeRealm; ctx_session_id : string; ctx_session : SessionJ }.

Definition load_browser_session (plan : list RuntimeRealm) (realm : string) (cookie_header : option string) (now : N)
    (s : Store) : QidResult BrowserSessionContext :=
  let? config := require_realm plan realm in
  let? sid := ok_or (extract_cookie cookie_header (cookie_name (browser_session config))) (Unauthorized "missing session cookie") in
  match manager_get sid now s with
  | None => Err (Unauthorized "invalid or expired session")
  | Some x =>
      if negb (String.eqb (s_realm_id x) realm) then Err (Unauthorized "session realm does not match request realm")
      else Ok {| realm_config := config; ctx_session_id := sid; ctx_session := x |}
  end.

(** The replies of the session routes; [StatusUnauthorized] has no body. *)
Inductive SessionReply : Type := StatusOk (cookie : option string) | StatusUnauthorized.

Definition session_refresh (plan : list RuntimeRealm) (saved : QidResult unit) (realm : string)
    (cookie_header : option string) (t_load now : N) : M SessionReply :=
  let! st := get_state in
  let! ctx := of_result (load_browser_session plan realm cookie_header t_load (store st)) in
  let new_idle := add64 now (idle_timeout_minutes (browser_session (realm_config ctx)) * 60 mod 2 ^ 64) in
  let! updated := call (update_session_idle_expiry saved (ctx_session_id ctx) new_idle (Some realm)) in
  ret (if updated then StatusOk None else StatusUnauthorized).

Definition session_revoke (plan : list RuntimeRealm) (saved : QidResult unit) (realm : string)
    (cookie_header : option string) (now : N) : M SessionReply :=
  let! st := get_state in
  let! ctx := of_result (load_browser_session plan realm cookie_header now (store st)) in
  let! revoked := call (revoke_session saved (ctx_session_id ctx) (Some realm)) in
  if revoked then
    let config := browser_session (realm_config ctx) in
    let! cookie := of_result (map_err (fun e => Internal ("invalid Set-Cookie header: " +:+ error_message e))
      (header_value (cookie_name config +:+ "=" +:+ "" +:+ "; HttpOnly; Secure; Path=/; SameSite=" +:+ same_site config +:+ "; Max-Age=0"))) in
    ret (StatusOk (Some cookie))
  else ret StatusUnauthorized.
End Routes.
(** * Lemmas *)

Section Props.
Context {J : Type}.
Abbreviation Store := (Accounts.Store (J := J)).
Implicit Types (s : Store) (st : St (J := J)) (u : User).

Lemma filter_none {A} (f : A → bool) l : (∀ x, x ∈ l → f x = false) → List.filter f l = [].
Proof.
  intros H. induction l as [|x l IH]; [done|]. cbn. rewrite (H x) by left. apply IH. intros y Hy. apply H. by right.
Qed.

Lemma filter_perm {A} (f : A → bool) l l' : l ≡ₚ l' → List.filter f l ≡ₚ List.filter f l'.
Proof.
  induction 1 as [|x l l' _ IH|x y l|l l' l'' _ IH1 _ IH2]; cbn; [done| | |by etrans].
  - by destruct (f x); rewrite ?IH.
  - destruct (f x), (f y); try done. constructor.
Qed.

(** ** Accounts found by their email *)

Definition matches_email (realm e : string) (u : User) : bool :=
  String.eqb (u_realm_id u) realm && bool_decide (email u = Some e).

Lemma found_iff realm e s u :
  get_user_by_email realm e s = Ok (Some u) ↔ List.filter (matches_email realm e) (values (users s)) = [u].
Proof.
  unfold get_user_by_email, Tokens.unique_match, Tokens.reject_duplicate_id.
  fold (matches_email realm e). destruct (List.filter _ _) as [|a [|b l]]; cbn; split; try done; by intros [= ->].
Qed.

Lemma found_spec realm e s u :
  get_user_by_email realm e s = Ok (Some u) → users_keyed s →
  users s !! u_id u = Some u ∧ u_realm_id u = realm ∧ email u = Some e.
Proof.
  intros Hf%found_iff Hk. assert (u ∈ List.filter (matches_email realm e) (values (users s))) as Hin by (rewrite Hf; left).
  apply list_elem_of_In, List.filter_In in Hin as [Hin Hm]. apply list_elem_of_In, values_elem in Hin as [k Hk'].
  apply andb_true_iff in Hm as [Hr%String.eqb_eq He%bool_decide_eq_true]. by rewrite (Hk _ _ Hk').
Qed.

(** Writing back the found account, its name and email unchanged, is an update in place. *)
Lemma update_found realm e s u u' saved :
  get_user_by_email realm e s = Ok (Some u) → users_keyed s →
  u_id u' = u_id u → u_realm_id u' = u_realm_id u → email u' = email u →
  update_user saved u' (Some realm) s = (saved, set_users s (<[u_id u := u']> (users s))) ∧
  get_user_by_email realm e (set_users s (<[u_id u := u']> (users s))) = Ok (Some u') ∧
  users_keyed (set_users s (<[u_id u := u']> (users s))).
Proof.
  intros Hf Hk Hid Hr He. destruct (found_spec _ _ _ _ Hf Hk) as (Hu & Hur & Hue).
  assert (∀ v, v ∈ values (users s) → matches_email realm e v = true → v = u) as Honly.
  { intros v Hv Hm. apply found_iff in Hf.
    assert (v ∈ [u]) as Hin by (rewrite <- Hf; apply list_elem_of_In, List.filter_In; split; [by apply list_elem_of_In|done]).
    by apply list_elem_of_singleton in Hin. }
  assert (with_realm u' realm = u') as Hw by (unfold with_realm; rewrite <- Hur, <- Hr; by destruct u').
  split_and!.
  - unfold update_user. rewrite Hid, Hu. cbn. rewrite Hur, String.eqb_refl. cbn. rewrite Hw.
    unfold email_held_by_another. rewrite He, Hue.
    destruct (existsb _ _) eqn:Eh; [|by rewrite Hid].
    apply existsb_exists in Eh as (v & Hv%list_elem_of_In & Hc).
    apply andb_true_iff in Hc as [[Hne Hvr]%andb_true_iff Hve].
    rewrite (Honly v Hv) in Hne; [by rewrite Hid, String.eqb_refl in Hne|].
    unfold matches_email. rewrite Hr, Hur in Hvr. by rewrite Hvr, Hve.
  - apply found_iff. unfold values. cbn.
    assert (map_to_list (<[u_id u := u']> (users s)) ≡ₚ (u_id u, u') :: map_to_list (delete (u_id u) (users s))) as Hp.
    { rewrite <- insert_delete_eq. apply map_to_list_insert, lookup_delete_eq. }
    assert (matches_email realm e u' = true) as Hm.
    { unfold matches_email. rewrite Hr, Hur, He, Hue, String.eqb_refl. by rewrite bool_decide_true. }
    assert (List.filter (matches_email realm e) (map snd (map_to_list (<[u_id u := u']> (users s)))) ≡ₚ [u']) as Hfp.
    { etrans; [apply filter_perm, Permutation_map, Hp|]. cbn. rewrite Hm. constructor. rewrite filter_none; [done|].
      intros v Hv. apply list_elem_of_In, in_map_iff in Hv as ([k v'] & <- & Hv%list_elem_of_In). cbn.
      apply elem_of_map_to_list, lookup_delete_Some in Hv as [Hne Hv].
      destruct (matches_email realm e v') eqn:Em; [|done].
      destruct Hne. rewrite <- (Hk _ _ Hv). f_equal. symmetry. apply Honly; [|done]. apply values_elem. eauto. }
    by apply Permutation_singleton_r in Hfp.
  - intros k v. cbn. destruct (decide (k = u_id u)) as [->|Hne].
    + rewrite lookup_insert_eq. by intros [= <-].
    + rewrite lookup_insert_ne by done. apply Hk.
Qed.

(** ** Successful password logins *)

(** What password authentication leaves alone. *)
Definition untouched (st st' : St (J := J)) : Prop :=
  push (store st') = push (store st) ∧ sessions (store st') = sessions (store st) ∧ limiter st' = limiter st.

#[local] Instance untouched_po : PreOrder untouched.
Proof. split; [done|]. intros a b c (?&?&?) (?&?&?). unfold untouched. split_and!; congruence. Qed.

Lemma update_user_frame saved u scope s :
  credentials_password (update_user saved u scope s).2 = credentials_password s ∧
  push (update_user saved u scope s).2 = push s ∧ sessions (update_user saved u scope s).2 = sessions s.
Proof. unfold update_user. destruct (out_of_scope _ _); [done|]. by destruct (email_held_by_another _ _). Qed.

Lemma call_update_user saved u scope st r st' :
  call (update_user saved u scope) st = (r, st') →
  credentials_password (store st') = credentials_password (store st) ∧ untouched st st'.
Proof.
  unfold call, untouched. pose proof (update_user_frame saved u scope (store st)) as (H1 & H2 & H3).
  destruct (update_user saved u scope (store st)) as [r0 s0]. cbn in *. by intros [= <- <-].
Qed.

Lemma call_update_password saved c realm st r st' :
  call (update_password_credential_in_realm saved c realm) st = (r, st') →
  untouched st st'.
Proof.
  unfold call, untouched, update_password_credential_in_realm. by destruct (_ || _); intros [= <- <-].
Qed.

Lemma authenticate_sound policy creds saved tb now tf realm e p st r st' :
  authenticate_password policy (Some creds) saved tb now tf realm e p st = (Ok r, st') →
  RateLimit.FailureBudget.exhausted (budget st) tb realm (RateLimit.max_failed_attempts_per_realm policy)
    (RateLimit.lockout_duration_seconds policy) = false ∧
  ∃ u cred, get_user_by_email realm e (store st) = Ok (Some u) ∧
    (∀ until, locked_until u = Some until → until ≤ now) ∧
    get_password_credential (u_id u) (store st) = Some cred ∧ (pc_verify creds p cred).1 = true ∧
    r = {| user := u; acr := "urn:qid:acr:password"; amr := ["pwd"]; session_id := None |} ∧
    untouched st st'.
Proof.
  unfold authenticate_password. intros (st0 & st1 & [= <- <-] & H)%bind_inv.
  destruct (RateLimit.FailureBudget.exhausted _ _ _ _ _); [done|]. split; [done|].
  apply bind_inv in H as ([u|] & st1 & [= Hf <-] & H); [|done].
  apply bind_inv in H as ([] & st1 & Hl & H).
  assert ((∀ until, locked_until u = Some until → until ≤ now) ∧
          credentials_password (store st1) = credentials_password (store st) ∧
          untouched st st1) as (Hlock & Hc1 & Hp1).
  { destruct (locked_until u) as [until|]; [|by injection Hl as <-].
    destruct (N.ltb_spec now until); [done|]. apply call_update_user in Hl as (?&?).
    split_and!; [|done..]. by intros ? [= <-]. }
  apply bind_inv in H as (? & ? & [= <- <-] & H). unfold get_password_credential in *. rewrite Hc1 in H.
  destruct (credentials_password (store st) !! u_id u) as [cred|] eqn:Ecred; [|by apply bind_inv in H as (? & ? & _ & ?)].
  destruct (pc_verify creds p cred) as [valid rehash] eqn:Ev.
  destruct valid; cbn [negb] in H; [|by apply bind_inv in H as (? & ? & _ & ?)].
  exists u, cred. apply bind_inv in H as ([] & st2 & Hr & H). apply bind_inv in H as ([] & st3 & Hu & [= <- <-]).
  assert (untouched st1 st2) as Hp2.
  { destruct rehash; [|by injection Hr as <-]. apply bind_inv in Hr as (h & ? & [= Hh <-] & Hr).
    by apply call_update_password in Hr. }
  assert (untouched st2 st3) as Hp3.
  { destruct (_ || _); [|by injection Hu as <-]. by apply call_update_user in Hu as (_ & ?). }
  split_and!; first [done|by rewrite Ev|by rewrite Ecred|exact (transitivity Hp1 (transitivity Hp2 Hp3))].
Qed.

Lemma create_stored (x : Accounts.Session (J := J)) saved st r st' :
  call (create_session saved x) st = (Ok r, st') →
  sessions (store st) !! s_id x = None ∧ sessions (store st') !! s_id x = Some x ∧
  ∀ k, k ≠ s_id x → sessions (store st') !! k = sessions (store st) !! k.
Proof.
  unfold call, create_session. destruct (sessions (store st) !! s_id x); [done|]. intros [= _ <-]. cbn.
  rewrite lookup_insert_eq. split_and!; [done..|]. intros k Hk. by rewrite lookup_insert_ne.
Qed.

(** A new session replaces the one of the request's cookie. *)
Lemma establish_session_spec plan saved bytes now realm hdr result st cookie x st' :
  establish_session plan saved bytes now realm hdr result st = (Ok (cookie, x), st') →
  ∃ config, require_realm plan realm = Ok config ∧
    x = new_session (browser_session config) bytes now realm (u_id (user result)) (acr result) (amr result) ∧
    sessions (store st') !! s_id x = Some x ∧
    set_session_cookie (browser_session config) (s_id x) "failed to build session cookie header" = Ok cookie ∧
    ∀ old y, extract_cookie hdr (cookie_name (browser_session config)) = Some old →
      sessions (store st) !! old = Some y → s_realm_id y = realm →
      old ≠ s_id x ∧ session_revoked old (store st').
Proof.
  unfold establish_session. intros (config & st0 & [= Hc <-] & H)%bind_inv. exists config. split; [done|].
  apply bind_inv in H as (x' & st1 & Hx & H). apply bind_inv in H as (c' & ? & [= Hck <-] & [= <- <- <-]).
  unfold create_with_regeneration in Hx. apply bind_inv in Hx as ([] & st2 & Hrev & Hx).
  unfold create in Hx. apply bind_inv in Hx as ([] & st3 & Hcr & [= <- <-]).
  apply create_stored in Hcr as (Hfresh & Hst & Hother). split_and!; [done..|].
  intros old y He Hy Hr. rewrite He in Hrev. injection Hrev as <-.
  assert (session_revoked old (store (call (revoke_session (saved 4%nat) old (Some realm)) st).2)) as Hrv.
  { unfold call, revoke_session, session_in, Tokens.opt_filter. rewrite Hy. cbn. rewrite Hr, String.eqb_refl.
    destruct (s_revoked y) eqn:Ey; [by exists y|]. eexists. cbn. rewrite lookup_insert_eq. done. }
  destruct Hrv as (z & Hz & Hrz).
  assert (old ≠ s_id (new_session (J := J) (browser_session config) bytes now realm (u_id (user result)) (acr result) (amr result))) as Hne.
  { intros ->. by rewrite Hz in Hfresh. }
  split; [done|]. exists z. by rewrite Hother.
Qed.

(** ** What a login leaves and rests on *)

(** A new session touches no other session than the one of the request's cookie. *)
Lemma establish_session_others plan saved bytes now realm hdr result st cookie x st' config k :
  establish_session plan saved bytes now realm hdr result st = (Ok (cookie, x), st') → require_realm plan realm = Ok config →
  k ≠ s_id x → extract_cookie hdr (cookie_name (browser_session config)) ≠ Some k →
  sessions (store st') !! k = sessions (store st) !! k.
Proof.
  unfold establish_session. intros (config' & st0 & [= Hc <-] & H)%bind_inv Hc' Hk Hne. rewrite Hc in Hc'. injection Hc' as ->.
  apply bind_inv in H as (x' & st1 & Hx & H). apply bind_inv in H as (c' & ? & [= _ <-] & [= <- <- <-]).
  unfold create_with_regeneration in Hx. apply bind_inv in Hx as ([] & st2 & Hrev & Hx).
  unfold create in Hx. apply bind_inv in Hx as ([] & st3 & Hcr & [= <- <-]).
  apply create_stored in Hcr as (_ & _ & Hother). rewrite Hother by done.
  destruct (extract_cookie hdr _) as [old|]; [|by injection Hrev as <-]. injection Hrev as <-.
  unfold call, revoke_session. destruct (session_in old _ _) as [y|]; [|done]. destruct (s_revoked y); [done|].
  cbn. rewrite lookup_insert_ne; [done|]. congruence.
Qed.

(** Every authenticator enrolled for the user is listed. *)
Lemma listed_push (s : Store) realm uid rows k a :
  Push.list_push_authenticators {| Push.users := ∅; Push.push := push s |} realm uid = Ok rows →
  Push.authenticators (push s) !! k = Some (Push.Enrolled a) → Push.a_realm_id a = realm → Push.a_user_id a = uid → a ∈ rows.
Proof.
  unfold Push.list_push_authenticators. intros (l & Hl & [= <-])%res_bind_Ok Hk%elem_of_map_to_list Hr Hu. rewrite elem_of_sort_by.
  match type of Hl with res_foldl ?f _ _ = _ => assert (∀ es acc l, res_foldl f acc es = Ok l →
    (∀ y, y ∈ acc → y ∈ l) ∧ ((k, Push.Enrolled a) ∈ es → a ∈ l)) as Hall end.
  { clear Hl Hk l. induction es as [|[j row] es IH]; intros acc l; cbn [res_foldl].
    - intros [= <-]. split; [done|]. by intros ?%not_elem_of_nil.
    - intros (acc' & (o & Ho & [= <-])%res_bind_Ok & [Hmono Hin]%IH)%res_bind_Ok. split.
      + intros y Hy. apply Hmono. destruct o; [|done]. destruct (_ && _); [set_solver|done].
      + intros [[= <- <-]|Hk]%elem_of_cons; [|by apply Hin]. apply Hmono.
        unfold Push.enrolled in Ho. apply res_bind_Ok in Ho as (? & _ & [= <-]). rewrite Hr, Hu, !String.eqb_refl. cbn. set_solver. }
  by apply (Hall _ _ _ Hl).
Qed.

Lemma no_push_owed (s : Store) realm uid :
  push_factor_satisfied s realm uid ["pwd"] = Ok true →
  ∀ k a, Push.authenticators (push s) !! k = Some (Push.Enrolled a) → Push.a_realm_id a = realm → Push.a_user_id a = uid →
    is_Some (Push.revoked_at a).
Proof.
  unfold push_factor_satisfied. intros H k a Hk Hr Hu. cbn in H.
  apply res_bind_Ok in H as (rows & Hl & [= Hn]). apply negb_true_iff in Hn. rewrite existsb_false in Hn.
  specialize (Hn a (listed_push _ _ _ _ _ _ Hl Hk Hr Hu)). unfold is_current in Hn. by destruct (Push.revoked_at a); [eexists|].
Qed.

(** The counter of [key] has room at [now]: it is absent, its window has passed, or it is below the limit. *)
Definition below (ls : RateLimit.RateLimitState) (key : RateLimit.RateLimitKey) (now max window : N) : Prop :=
  ∀ e, RateLimit.entries ls !! key = Some e → now < saturating_add64 (RateLimit.window_start e) window → RateLimit.count e < max.

Lemma admitted_below l now realm e policy :
  (RateLimit.password_admit l now realm e policy).1 = true →
  ∃ ls, RateLimit.inner l = Some ls ∧
    below ls (RateLimit.User (RateLimit.user_key realm e)) now (RateLimit.max_failed_attempts policy) (RateLimit.lockout_duration_seconds policy) ∧
    below ls (RateLimit.Tenant realm) now (RateLimit.max_failed_attempts_per_realm policy) (RateLimit.lockout_duration_seconds policy).
Proof.
  unfold RateLimit.password_admit, RateLimit.check_user_tenant. destruct (RateLimit.inner l) as [ls|]; [|done].
  destruct (RateLimit.build_plan _ _ _) as [plan|] eqn:Ep; [|done]. intros _. exists ls. split; [done|].
  apply RateLimit.build_plan_Some in Ep as [Hlt _].
  assert (∀ key lim, (key, lim) ∈ RateLimit.user_tenant_axes (Some (RateLimit.user_key realm e))
      {| RateLimit.max := RateLimit.max_failed_attempts policy; RateLimit.limit_window := RateLimit.lockout_duration_seconds policy |}
      (Some realm)
      {| RateLimit.max := RateLimit.max_failed_attempts_per_realm policy; RateLimit.limit_window := RateLimit.lockout_duration_seconds policy |} →
    below ls key now (RateLimit.max lim) (RateLimit.limit_window lim)) as Hb.
  { intros key lim Hin en He Hw. specialize (Hlt key lim Hin). unfold RateLimit.counted in Hlt.
    by rewrite He, (proj2 (N.ltb_lt _ _) Hw) in Hlt. }
  split.
  - apply (Hb _ {| RateLimit.max := _; RateLimit.limit_window := _ |}). left.
  - apply (Hb _ {| RateLimit.max := _; RateLimit.limit_window := _ |}). right. left.
Qed.

Lemma budget_left b now realm limit window :
  RateLimit.FailureBudget.exhausted b now realm limit window = false →
  ∃ m, b = Some m ∧ ∀ e, m !! realm = Some e → now < saturating_add64 (RateLimit.FailureBudget.window_start e) window →
    RateLimit.FailureBudget.count e < limit.
Proof.
  unfold RateLimit.FailureBudget.exhausted. destruct b as [m|]; [|done]. intros H. exists m. split; [done|].
  intros e He Hw. rewrite He, (proj2 (N.ltb_lt _ _) Hw) in H. by apply N.leb_gt in H.
Qed.

(** C40: A password login is sound.  When the password route answers with a session: the realm is configured and accepts
    passwords; the limiter's counters of the account and of the realm were below the policy's limits (or their windows had
    passed) when the attempt was admitted, and the realm's count of failures below its limit; exactly one account of the realm
    has the email, it is not locked at the time of the attempt, and the password verifies against the credential stored for
    it; every push authenticator enrolled for that account in the realm is revoked; the session is stored, is that user's, of
    that time, and names the password as its only method; the session of the request's cookie, if it is one of the realm, is
    revoked, and no other session has changed. *)
Theorem password_login_sound plan credentials saved bytes t realm e p hdr st cookie x st' :
  password_auth plan credentials saved bytes t realm e p hdr st = (Ok (SessionEstablished cookie x), st') →
  ∃ config creds u cred ls m,
    (config ∈ plan ∧ realm_id config = realm ∧ password_enabled config = true ∧ passwordless_only config = false) ∧
    credentials = Ok creds ∧
    (RateLimit.inner (limiter st) = Some ls ∧
     let window := RateLimit.lockout_duration_seconds (password config) in
     below ls (RateLimit.User (RateLimit.user_key realm e)) (t_admit t) (RateLimit.max_failed_attempts (password config)) window ∧
     below ls (RateLimit.Tenant realm) (t_admit t) (RateLimit.max_failed_attempts_per_realm (password config)) window) ∧
    (budget st = Some m ∧
     ∀ en, m !! realm = Some en →
       t_budget t < saturating_add64 (RateLimit.FailureBudget.window_start en) (RateLimit.lockout_duration_seconds (password config)) →
       RateLimit.FailureBudget.count en < RateLimit.max_failed_attempts_per_realm (password config)) ∧
    ((∃ k, users (store st) !! k = Some u) ∧ u_realm_id u = realm ∧ email u = Some e ∧
     (∀ k v, users (store st) !! k = Some v → u_realm_id v = realm → email v = Some e → v = u) ∧
     ∀ until, locked_until u = Some until → until ≤ t_now t) ∧
    (credentials_password (store st) !! u_id u = Some cred ∧ (pc_verify creds p cred).1 = true) ∧
    (∀ k a, Push.authenticators (push (store st)) !! k = Some (Push.Enrolled a) →
       Push.a_realm_id a = realm → Push.a_user_id a = u_id u → is_Some (Push.revoked_at a)) ∧
    (s_user_id x = u_id u ∧ s_realm_id x = realm ∧ s_amr x = ["pwd"] ∧ auth_time x = t_session t ∧ s_revoked x = false ∧
     sessions (store st') !! s_id x = Some x) ∧
    (∀ old y, extract_cookie hdr (cookie_name (browser_session config)) = Some old →
       sessions (store st) !! old = Some y → s_realm_id y = realm → session_revoked old (store st')) ∧
    (∀ k, k ≠ s_id x → extract_cookie hdr (cookie_name (browser_session config)) ≠ Some k →
       sessions (store st') !! k = sessions (store st) !! k).
Proof.
  unfold password_auth. intros (config & st0 & [= Hc <-] & H)%bind_inv.
  destruct (accepts_password_authentication config) eqn:Ha; [|done]. cbn [negb] in H.
  apply bind_inv in H as (? & ? & [= <- <-] & H).
  destruct (RateLimit.password_admit _ _ _ _ _) as [admitted l] eqn:Eadm.
  apply bind_inv in H as ([] & st1 & [= <-] & H). destruct admitted; [|done]. cbn [negb] in H.
  apply bind_inv in H as (creds & ? & [= -> <-] & H). apply bind_inv in H as (r & st2 & Hau & H).
  apply authenticate_sound in Hau as (Hex & u & cred & Hf & Hlock & Hcred & Hv & -> & Hun & Hse & _). cbn [store budget] in *.
  apply bind_inv in H as (? & ? & [= <- <-] & H). apply bind_inv in H as ([] & st3 & [= <-] & H).
  apply bind_inv in H as (sat & ? & [= Hsat <-] & H). destruct sat; [|done].
  apply bind_inv in H as ([ck y] & st4 & Hest & [= <- <- <-]).
  pose proof (fun k => establish_session_others _ _ _ _ _ _ _ _ _ _ _ _ k Hest Hc) as Hothers.
  apply establish_session_spec in Hest as (config' & Hc' & -> & Hst & _ & Hold). cbn [store] in *.
  rewrite Hc in Hc'. injection Hc' as <-.
  destruct (admitted_below (limiter st) (t_admit t) realm e (password config)) as (ls & Hls & Hb1 & Hb2); [by rewrite Eadm|].
  apply budget_left in Hex as (m & Hm & Hb). exists config, creds, u, cred, ls, m.
  assert (push_factor_satisfied (store st) realm (u_id u) ["pwd"] = Ok true) as Hpush.
  { unfold push_factor_satisfied in *. cbn [user amr u_id] in Hsat. by rewrite Hun in Hsat. }
  split_and!; try done.
  - unfold require_realm, find_realm, ok_or in Hc. destruct (List.find _ plan) as [c|] eqn:Ef; [|done]. injection Hc as ->.
    apply find_some in Ef as [Hin _]. by apply list_elem_of_In.
  - unfold require_realm, find_realm, ok_or in Hc. destruct (List.find _ plan) as [c|] eqn:Ef; [|done]. injection Hc as ->.
    apply find_some in Ef as [_ Hid]. by apply String.eqb_eq in Hid.
  - unfold accepts_password_authentication in Ha. by apply andb_true_iff in Ha as [? _].
  - unfold accepts_password_authentication in Ha. by apply andb_true_iff in Ha as [_ ?%negb_true_iff].
  - apply found_iff in Hf. assert (u ∈ List.filter (matches_email realm e) (values (users (store st)))) as Hin by (rewrite Hf; left).
    apply elem_of_lfilter in Hin as [Hin _]. by apply values_elem in Hin.
  - apply found_iff in Hf. assert (u ∈ List.filter (matches_email realm e) (values (users (store st)))) as Hin by (rewrite Hf; left).
    apply elem_of_lfilter in Hin as [_ Hmatch]. by apply andb_true_iff in Hmatch as [?%String.eqb_eq _].
  - apply found_iff in Hf. assert (u ∈ List.filter (matches_email realm e) (values (users (store st)))) as Hin by (rewrite Hf; left).
    apply elem_of_lfilter in Hin as [_ Hmatch]. by apply andb_true_iff in Hmatch as [_ ?%bool_decide_eq_true].
  - intros k v Hk Hrv Hev. apply found_iff in Hf. apply list_elem_of_singleton. rewrite <- Hf. apply elem_of_lfilter. split.
    + apply values_elem. eauto.
    + unfold matches_email. rewrite Hrv, Hev, String.eqb_refl. by rewrite bool_decide_eq_true_2.
  - by apply no_push_owed.
  - intros old y Hx Hy Hr. rewrite <- Hse in Hy. by apply (Hold old y).
  - intros k Hk Hne. rewrite <- Hse. by apply Hothers.
Qed.

(** ** Lockout *)

(** The account behind an email, in a store whose accounts are filed under their identifiers. *)
Definition account (realm e : string) (st : St (J := J)) (u : User) : Prop :=
  users_keyed (store st) ∧ get_user_by_email realm e (store st) = Ok (Some u).

Lemma call_update_account realm e st u u' saved :
  account realm e st u → u_id u' = u_id u → u_realm_id u' = u_realm_id u → email u' = email u →
  ∃ st', call (update_user saved u' (Some realm)) st = (saved, st') ∧ account realm e st' u' ∧
    credentials_password (store st') = credentials_password (store st) ∧ budget st' = budget st.
Proof.
  intros [Hk Hf] Hid Hr He. destruct (update_found realm e (store st) u u' saved Hf Hk Hid Hr He) as (Hu & Hf' & Hk').
  unfold call. rewrite Hu. eexists. split; [done|]. by split_and!.
Qed.

Lemma record_failed_account policy realm e st u u0 saved now tf :
  account realm e st u0 → u_id u = u_id u0 → u_realm_id u = u_realm_id u0 → email u = email u0 →
  ∃ st', record_failed_attempt policy saved realm u now tf st = (saved, st') ∧
    account realm e st' (failed_once policy u now) ∧
    credentials_password (store st') = credentials_password (store st).
Proof.
  intros Ha Hid Hr He. unfold record_failed_attempt, bind, get_state, put_budget. cbn.
  match goal with |- context [call _ ?x] => set (st1 := x) end.
  destruct (call_update_account realm e st1 u0 (failed_once policy u now) saved) as (st' & H1 & H2 & H3 & _); [exact Ha|done..|].
  exists st'. by split_and!.
Qed.

(** The outcomes of an attempt with a wrong password on an account that is not locked. *)
Lemma wrong_attempt policy creds saved tb now tf realm e p st u r st' :
  account realm e st u →
  (∀ until, locked_until u = Some until → until ≤ now ∧ saved 0%nat = Ok tt) →
  (∀ cred, get_password_credential (u_id u) (store st) = Some cred → (pc_verify creds p cred).1 = false) →
  authenticate_password policy (Some creds) saved tb now tf realm e p st = (r, st') →
  ((∃ m, r = Err (AttemptBudgetSpent m)) ∧ st' = st) ∨
  (r = (let? _ := saved 1%nat in Err invalid_credentials) ∧ account realm e st' (failed_once policy u now) ∧
   credentials_password (store st') = credentials_password (store st)).
Proof.
  intros Ha Hlock Hwrong. unfold authenticate_password. unfold bind at 1. unfold get_state at 1.
  destruct (RateLimit.FailureBudget.exhausted _ _ _ _ _).
  { intros [= <- <-]. left. eauto. }
  unfold bind at 1. unfold of_result at 1. rewrite (proj2 Ha). intros H. right.
  assert (∃ st1 u1, match locked_until u with
            | Some until => if now <? until then throw account_locked
                            else call (update_user (saved 0%nat) (with_lockout u 0 None) (Some realm))
            | None => ret tt end st = (Ok tt, st1) ∧ account realm e st1 u1 ∧ u_id u1 = u_id u ∧
            u_realm_id u1 = u_realm_id u ∧ email u1 = email u ∧
            credentials_password (store st1) = credentials_password (store st)) as (st1 & u1 & Hl & Ha1 & Hid & Hr & He & Hc).
  { destruct (locked_until u) as [until|] eqn:El; [|by exists st, u].
    destruct (Hlock until eq_refl) as [Hle Hs]. rewrite (proj2 (N.ltb_ge now until)) by done.
    destruct (call_update_account realm e st u (with_lockout u 0 None) (saved 0%nat) Ha) as (st1 & H1 & H2 & H3 & _); [done..|].
    exists st1, (with_lockout u 0 None). rewrite H1, Hs. by split_and!. }
  unfold bind at 1 in H. rewrite Hl in H. unfold bind at 1 in H. unfold get_state at 1 in H.
  destruct (record_failed_account policy realm e st1 u u1 (saved 1%nat) now tf) as (st2 & Hrec & Ha2 & Hc2); [done..|].
  assert (bind (record_failed_attempt policy (saved 1%nat) realm u now tf) (fun _ => throw (A := AuthResult) invalid_credentials) st1
    = (let? _ := saved 1%nat in Err invalid_credentials, st2)) as Hfail.
  { unfold bind. rewrite Hrec. by destruct (saved 1%nat). }
  unfold get_password_credential in *. rewrite Hc in H.
  assert ((r, st') = (let? _ := saved 1%nat in Err invalid_credentials, st2)) as [= -> ->].
  { destruct (credentials_password (store st) !! u_id u) as [cred|]; [|by rewrite <- H].
    specialize (Hwrong cred eq_refl). destruct (pc_verify creds p cred) as [valid rehash]. cbn in Hwrong. subst valid.
    cbn [negb] in H. by rewrite <- H. }
  split_and!; [done..|congruence].
Qed.

(** A locked account refuses every password, and the attempt changes nothing. *)
Lemma locked_refuses policy creds saved tb now tf realm e p st u until :
  account realm e st u → locked_until u = Some until → now < until →
  ∃ err, authenticate_password policy (Some creds) saved tb now tf realm e p st = (Err err, st) ∧
    (err = account_locked ∨ ∃ m, err = AttemptBudgetSpent m).
Proof.
  intros [_ Hf] Hl Hn. unfold authenticate_password, bind, get_state, of_result.
  destruct (RateLimit.FailureBudget.exhausted _ _ _ _ _); [by eauto|]. rewrite Hf, Hl, (proj2 (N.ltb_lt _ _)) by done.
  eauto.
Qed.

(** One attempt of a sequence: its writes, its readings of the clock and its password. *)
Record Attempt : Type := { a_saved : nat → QidResult unit; a_budget : N; a_now : N; a_fail : N; a_password : string }.

Fixpoint attempt_all (policy : RateLimit.PasswordPolicy) (creds : PasswordCredentials) (realm e : string)
    (l : list Attempt) (st : St (J := J)) : list (QidResult AuthResult) * St :=
  match l with
  | [] => ([], st)
  | a :: l' =>
      let '(r, st1) := authenticate_password policy (Some creds) (a_saved a) (a_budget a) (a_now a) (a_fail a) realm e (a_password a) st in
      let '(rs, st') := attempt_all policy creds realm e l' st1 in (r :: rs, st')
  end.

Lemma attempts_count policy creds realm e l : ∀ st u n rs st',
  account realm e st u → failed_login_attempts u = n → locked_until u = None →
  (∀ a cred, a ∈ l → get_password_credential (u_id u) (store st) = Some cred → (pc_verify creds (a_password a) cred).1 = false) →
  n + N.of_nat (length l) ≤ RateLimit.max_failed_attempts policy → n < RateLimit.max_failed_attempts policy ≤ u32_max →
  attempt_all policy creds realm e l st = (rs, st') → (∀ m, Err (AttemptBudgetSpent m) ∉ rs) →
  ∃ u', account realm e st' u' ∧
    locked_until u' = if RateLimit.max_failed_attempts policy <=? n + N.of_nat (length l)
                      then (fun a => add64 (a_now a) (RateLimit.lockout_duration_seconds policy)) <$> last l else None.
Proof.
  induction l as [|a l IH]; intros st u n rs st' Ha Hn Hl Hw Hle Hmax Hr Hb.
  { injection Hr as <- <-. exists u. split; [done|]. cbn. rewrite (proj2 (N.leb_gt _ _)); [done|lia]. }
  cbn [attempt_all] in Hr. destruct (authenticate_password _ _ _ _ _ _ _ _ _ _) as [r st1] eqn:E.
  destruct (attempt_all policy creds realm e l st1) as [rs1 st2] eqn:Er. injection Hr as <- <-.
  assert (∀ until, locked_until u = Some until → until ≤ a_now a ∧ a_saved a 0%nat = Ok tt) as Hnl by (by rewrite Hl).
  assert (∀ cred, get_password_credential (u_id u) (store st) = Some cred → (pc_verify creds (a_password a) cred).1 = false)
    as Hwa by (intros; eapply Hw; [left|done]).
  destruct (wrong_attempt _ _ _ _ _ _ _ _ _ _ _ _ _ Ha Hnl Hwa E) as [[[m ->] _]|(_ & Ha1 & Hc)]; [destruct (Hb m); left|].
  cbn [length] in Hle. assert (failed_login_attempts (failed_once policy u (a_now a)) = n + 1) as Hn1.
  { cbn. unfold add32. rewrite Hn. apply N.mod_small. unfold u32_max in Hmax. lia. }
  destruct (N.leb_spec (RateLimit.max_failed_attempts policy) (n + 1)) as [Hfull|Hroom].
  - destruct l as [|b l]; [|cbn [length] in Hle; lia]. injection Er as <- <-. exists (failed_once policy u (a_now a)).
    split; [done|]. cbn [length last]. rewrite (proj2 (N.leb_le _ _)) by lia.
    cbn [failed_once with_lockout locked_until failed_login_attempts] in *. rewrite Hn1.
    by rewrite (proj2 (N.leb_le _ _)).
  - destruct (IH st1 (failed_once policy u (a_now a)) (n + 1) rs1 st2) as (u' & Ha' & Hl'); try done; try lia.
    + cbn [failed_once with_lockout locked_until failed_login_attempts] in *. rewrite Hn1.
      by rewrite (proj2 (N.leb_gt _ _)).
    + intros b cred Hin. unfold get_password_credential. rewrite Hc. apply Hw. by right.
    + intros m Hm. apply (Hb m). by right.
    + exists u'. split; [done|]. rewrite Hl'. cbn [length]. replace (n + N.of_nat (S (length l))) with (n + 1 + N.of_nat (length l)) by lia.
      destruct (N.leb_spec (RateLimit.max_failed_attempts policy) (n + 1 + N.of_nat (length l))); [|done].
      destruct l as [|b l]; [cbn in *; lia|done].
Qed.

(** Wrong passwords lock the account.  From an account without failures, [max_failed_attempts]
    attempts with wrong passwords, none of them cut off by the realm's failure budget, leave it
    locked for the configured time after the last one, whatever the outcomes of their writes: until then every attempt is
    refused without changing anything, also with the right password. *)
Theorem wrong_passwords_lock policy creds realm e l st u rs st' :
  account realm e st u → failed_login_attempts u = 0 → locked_until u = None →
  (∀ a cred, a ∈ l → get_password_credential (u_id u) (store st) = Some cred → (pc_verify creds (a_password a) cred).1 = false) →
  N.of_nat (length l) = RateLimit.max_failed_attempts policy → 0 < RateLimit.max_failed_attempts policy ≤ u32_max →
  attempt_all policy creds realm e l st = (rs, st') → (∀ m, Err (AttemptBudgetSpent m) ∉ rs) →
  ∃ a, last l = Some a ∧
  ∀ creds' saved tb now tf p, now < add64 (a_now a) (RateLimit.lockout_duration_seconds policy) →
    ∃ err, authenticate_password policy (Some creds') saved tb now tf realm e p st' = (Err err, st') ∧
      (err = account_locked ∨ ∃ m, err = AttemptBudgetSpent m).
Proof.
  intros Ha Hn Hl Hw Hlen Hmax Hr Hb.
  destruct (attempts_count policy creds realm e l st u 0 rs st') as (u' & Ha' & Hl'); try done; try lia.
  rewrite (proj2 (N.leb_le _ _)) in Hl' by lia.
  destruct (last l) as [a|] eqn:El; [|apply last_None in El; subst l; cbn in Hlen; lia].
  exists a. split; [done|]. intros. by eapply locked_refuses.
Qed.

(** An expired lockout does not give the account its attempts back.  The first wrong password
    after the lockout has expired locks the account again for the full time, however many attempts
    the policy allows: the counter that is reset in the store is written back from the copy read
    before the reset. *)
Theorem expired_lockout_relocks policy creds saved tb now tf realm e p st u until r st' :
  account realm e st u → locked_until u = Some until → until ≤ now →
  RateLimit.max_failed_attempts policy ≤ failed_login_attempts u → failed_login_attempts u < u32_max →
  (∀ cred, get_password_credential (u_id u) (store st) = Some cred → (pc_verify creds p cred).1 = false) →
  saved 0%nat = Ok tt → saved 1%nat = Ok tt →
  authenticate_password policy (Some creds) saved tb now tf realm e p st = (r, st') →
  (∀ m, r ≠ Err (AttemptBudgetSpent m)) →
  r = Err invalid_credentials ∧
  ∃ u', account realm e st' u' ∧ failed_login_attempts u' = failed_login_attempts u + 1 ∧
    locked_until u' = Some (add64 now (RateLimit.lockout_duration_seconds policy)).
Proof.
  intros Ha Hl Hu Hm Hmax Hw H0 H1 E Hb.
  assert (∀ until, locked_until u = Some until → until ≤ now ∧ saved 0%nat = Ok tt) as Hnl by (rewrite Hl; by intros ? [= <-]).
  destruct (wrong_attempt _ _ _ _ _ _ _ _ _ _ _ _ _ Ha Hnl Hw E) as [[[m ->] _]|(-> & Ha1 & _)]; [by destruct (Hb m)|].
  rewrite H1. split; [done|]. eexists. split; [done|].
  assert (add32 (failed_login_attempts u) 1 = failed_login_attempts u + 1) as Hn.
  { unfold add32. apply N.mod_small. unfold u32_max in Hmax. lia. }
  cbn. rewrite Hn. split; [done|]. by rewrite (proj2 (N.leb_le _ _)) by lia.
Qed.

(** ** Sessions *)

Lemma load_spec plan realm hdr now s ctx :
  load_browser_session (J := J) plan realm hdr now s = Ok ctx →
  require_realm plan realm = Ok (realm_config ctx) ∧
  extract_cookie hdr (cookie_name (browser_session (realm_config ctx))) = Some (ctx_session_id ctx) ∧
  sessions s !! ctx_session_id ctx = Some (ctx_session ctx) ∧ is_active (ctx_session ctx) now = true ∧
  s_realm_id (ctx_session ctx) = realm.
Proof.
  unfold load_browser_session. destruct (require_realm plan realm) as [config|]; [|done]. cbn.
  destruct (extract_cookie hdr _) as [sid|] eqn:Ee; [|done]. cbn.
  unfold manager_get, get_session. destruct (sessions s !! sid) as [x|] eqn:Ex; [|done].
  destruct (is_active x now) eqn:Ea; [|done]. cbn.
  destruct (String.eqb_spec (s_realm_id x) realm); [|done]. intros [= <-]. cbn. by split_and!.
Qed.

Lemma run_revoked calls : ∀ s tr s' sid,
  Forall (fun c => deletes c.1 = false) calls → run calls s = (tr, s') → session_revoked sid s → session_revoked sid s'.
Proof.
  induction calls as [|[o saved] calls IH]; intros s tr s' sid Hd Hr Hs; [by injection Hr as _ <-|].
  apply Forall_cons in Hd as [Ho Hd]. apply run_ops_cons in Hr as (res & s1 & tr1 & Hop & Hr & ->).
  eapply IH; [done..|]. by eapply run_op_revoked.
Qed.

(** Signing out is final.  After the revocation route has answered a request, no sequence of
    account operations that deletes no account makes any later request with that session
    identifier in its cookie load a session, in any realm, at any time. *)
Theorem signed_out_session_dead plan saved realm hdr now st cookie st' sid calls tr s2 plan' realm' hdr' now' ctx :
  session_revoke plan saved realm hdr now st = (Ok (StatusOk cookie), st') →
  (∀ config, require_realm plan realm = Ok config → extract_cookie hdr (cookie_name (browser_session config)) = Some sid) →
  Forall (fun c => deletes c.1 = false) calls → run calls (store st') = (tr, s2) →
  load_browser_session plan' realm' hdr' now' s2 = Ok ctx → ctx_session_id ctx ≠ sid.
Proof.
  unfold session_revoke. intros (? & ? & [= <- <-] & H)%bind_inv Hsid Hd Hr Hload.
  apply bind_inv in H as (c0 & ? & [= Hc <-] & H). apply load_spec in Hc as (Hreq & Hck & Hx & _ & Hrx).
  specialize (Hsid _ Hreq). rewrite Hck in Hsid. injection Hsid as <-.
  apply bind_inv in H as ([|] & st1 & Hcall & H); [|done].
  apply bind_inv in H as (ck & ? & [= _ <-] & [= _ <-]).
  assert (session_revoked (ctx_session_id c0) (store st1)) as Hrev.
  { unfold call, revoke_session, session_in, Tokens.opt_filter in Hcall. rewrite Hx in Hcall. cbn in Hcall.
    rewrite Hrx, String.eqb_refl in Hcall. destruct (s_revoked (ctx_session c0)); [done|].
    injection Hcall as _ <-. eexists. cbn. by rewrite lookup_insert_eq. }
  eapply run_revoked in Hrev; [|done..]. destruct Hrev as (y & Hy & Hry).
  apply load_spec in Hload as (_ & _ & Hl & Hact & _). intros E. rewrite E, Hy in Hl. injection Hl as Hl.
  unfold is_active in Hact. by rewrite <- Hl, Hry in Hact.
Qed.
End Props.

(** ** Cookies *)

(** The bytes of cookie names and values: visible ASCII without the semicolon. *)
Definition cookie_byte (b : N) : bool := (33 <=? b) && (b <=? 126) && negb (b =? 59).
Definition cookie_text (s : string) : bool := forallb cookie_byte (Utf8.str_bytes s).

(** The header a browser sends for its cookies. *)
Fixpoint render_cookies (pairs : list (string * string)) : string :=
  match pairs with
  | [] => ""
  | [(k, v)] => k +:+ "=" +:+ v
  | (k, v) :: rest => k +:+ "=" +:+ v +:+ "; " +:+ render_cookies rest
  end.

Lemma cookie_text_bytes s :
  cookie_text s = true → Forall (fun b => 33 ≤ b ≤ 126 ∧ b ≠ 59) (Utf8.str_bytes s).
Proof.
  unfold cookie_text. intros H. apply Forall_forall. intros b Hb.
  pose proof (proj1 (forallb_forall _ _) H b (proj1 (list_elem_of_In _ _) Hb)) as Hc.
  apply andb_true_iff in Hc as [[?%N.leb_le ?%N.leb_le]%andb_true_iff Hn%negb_true_iff]. apply N.eqb_neq in Hn. lia.
Qed.

Lemma cookie_text_contains c s : cookie_text s = true → cookie_byte (Ascii.N_of_ascii c) = false → str_contains c s = false.
Proof.
  intros H Hc. induction s as [|a s IH]; [done|]. apply andb_true_iff in H as [Ha Hs]. cbn.
  destruct (Ascii.eqb_spec a c) as [->|]; [congruence|]. cbn. by apply IH.
Qed.

Lemma trim_solid cs : Forall (fun c => Utf8.is_whitespace c = false) cs → Utf8.trim cs = cs.
Proof.
  assert (∀ l, Forall (fun c => Utf8.is_whitespace c = false) l → Utf8.trim_start l = l) as Hs.
  { intros [|c l]; [done|]. intros [Hc _]%Forall_cons. cbn. by rewrite Hc. }
  intros H. unfold Utf8.trim. rewrite (Hs cs) by done. rewrite Hs by (by apply Forall_rev). apply rev_involutive.
Qed.

Lemma trim_text lead s :
  cookie_text s = true → lead = "" ∨ lead = " " → Utf8.trim_str (lead +:+ s) = s.
Proof.
  intros H%cookie_text_bytes Hlead. unfold Utf8.trim_str, Utf8.chars. rewrite Utf8.str_bytes_app.
  assert (Forall (fun b => b < 128) (Utf8.str_bytes s)) as Hlt by (eapply Forall_impl; [exact H|cbv beta; lia]).
  assert (Forall (fun c => Utf8.is_whitespace c = false) (Utf8.str_bytes s)) as Hws.
  { eapply Forall_impl; [exact H|]. intros b [Hb _]. unfold Utf8.is_whitespace.
    rewrite !(proj2 (N.eqb_neq b _)) by lia. rewrite (proj2 (N.leb_gt b 13)) by lia.
    rewrite (proj2 (N.leb_gt 0x2000 b)) by lia. by rewrite andb_false_r. }
  assert (Utf8.bytes_str (Utf8.encode (Utf8.trim (Utf8.str_bytes s))) = s) as Hid.
  { rewrite trim_solid by done. rewrite Utf8.encode_ascii by done. apply Utf8.bytes_str_of_bytes. }
  destruct Hlead as [->| ->].
  - cbn [Utf8.str_bytes app]. by rewrite Utf8.decode_ascii.
  - rewrite Utf8.decode_ascii by (apply Forall_app; split; [by repeat constructor|done]). exact Hid.
Qed.

Lemma find_cookie_text lead name k v rest :
  cookie_text k = true → str_contains EQUALS k = false → cookie_text v = true → lead = "" ∨ lead = " " →
  find_cookie name ((lead +:+ k +:+ "=" +:+ v) :: rest) = if String.eqb k name then Some v else find_cookie name rest.
Proof.
  intros Hk He Hv Hlead. cbn [find_cookie]. rewrite trim_text; [|shelve|done].
  change (k +:+ "=" +:+ v) with (k +:+ String EQUALS v). rewrite split_once_pair by done.
  pose proof (trim_text "" k Hk (or_introl eq_refl)) as Hk'. pose proof (trim_text "" v Hv (or_introl eq_refl)) as Hv'.
  change ("" +:+ k) with k in Hk'. change ("" +:+ v) with v in Hv'. by rewrite Hk', Hv'.
  Unshelve. unfold cookie_text in *. rewrite !Utf8.str_bytes_app, !forallb_app, Hk, Hv. done.
Qed.

(** The session cookie is read back.  For any cookies a browser sends, names and values of
    visible characters with no semicolon, and no equals sign in a name, [extract_cookie] finds the
    value of the first cookie of the given name, and nothing when there is none. *)
Theorem cookie_roundtrip pairs name :
  Forall (fun p => cookie_text p.1 = true ∧ str_contains EQUALS p.1 = false ∧ cookie_text p.2 = true) pairs →
  extract_cookie (Some (render_cookies pairs)) name = snd <$> List.find (fun p => String.eqb p.1 name) pairs.
Proof.
  intros HF. cbn [extract_cookie mbind option_bind].
  assert (∀ lead, lead = "" ∨ lead = " " →
    find_cookie name (split_on SEMICOLON (lead +:+ render_cookies pairs))
    = snd <$> List.find (fun p => String.eqb p.1 name) pairs) as H; [|exact (H "" (or_introl eq_refl))].
  induction HF as [|[k v] pairs (Hk & He & Hv) HF IH]; intros lead Hlead; [by destruct Hlead as [->| ->]|].
  cbn [fst snd] in *.
  assert (str_contains SEMICOLON (lead +:+ k +:+ "=" +:+ v) = false) as Hns.
  { rewrite !str_contains_app, (cookie_text_contains SEMICOLON k), (cookie_text_contains SEMICOLON v) by done.
    by destruct Hlead as [->| ->]. }
  destruct pairs as [|q pairs].
  - cbn [render_cookies]. rewrite split_on_plain by done. rewrite find_cookie_text by done. cbn.
    by destruct (String.eqb k name).
  - change (render_cookies ((k, v) :: q :: pairs)) with (k +:+ "=" +:+ v +:+ "; " +:+ render_cookies (q :: pairs)).
    replace (lead +:+ k +:+ "=" +:+ v +:+ "; " +:+ render_cookies (q :: pairs))
      with ((lead +:+ k +:+ "=" +:+ v) +:+ String SEMICOLON (" " +:+ render_cookies (q :: pairs)))
      by (rewrite <- !str_app_assoc; reflexivity).
    rewrite split_on_line by done. rewrite find_cookie_text by done. cbn [List.find fst].
    destruct (String.eqb k name); [done|]. apply IH. by right.
Qed.

(** ** Witnesses *)

Definition ex_policy : RateLimit.PasswordPolicy :=
  {| RateLimit.max_failed_attempts := 3; RateLimit.max_failed_attempts_per_realm := 100;
     RateLimit.lockout_duration_seconds := 60 |}.

Definition ex_plan : list RuntimeRealm :=
  [{| realm_id := "r"; password_enabled := true; passwordless_only := false; password := ex_policy;
      browser_session := {| cookie_name := "__Host-qid"; same_site := "Lax"; idle_timeout_minutes := 30;
                            absolute_timeout_hours := 8 |} |}].

(** Stand-in for password hashing: the hash is the password. *)
Definition ex_creds : PasswordCredentials :=
  {| pc_hash := Ok; pc_verify p c := (String.eqb p (pw_hash c), false) |}.

Definition ex_accounts : Accounts.Store (J := unit) :=
  (run [(CreateUser (ex_user "u" "r" (Some "a@x")), Ok tt);
        (StorePassword {| pw_user_id := "u"; pw_hash := "secret"; pw_algorithm := "argon2id" |}, Ok tt);
        (CreateSession (ex_session "old" "r" "u"), Ok tt)] empty_store).2.

Definition ex_st : St (J := unit) :=
  {| store := ex_accounts; budget := Some ∅; limiter := RateLimit.with_capacity RateLimit.default_config 16 |}.

Definition ex_times : Times :=
  {| t_admit := 10; t_budget := 10; t_now := 10; t_fail := 10; t_released := (10, 10); t_session := 11 |}.

Definition ex_login : QidResult (LoginReply (J := unit)) * St :=
  password_auth ex_plan (Ok ex_creds) (fun _ => Ok tt) [1; 2] ex_times "r" "a@x" "secret"
    (Some (render_cookies [("theme", "dark"); ("__Host-qid", "old")])) ex_st.

Definition ex_reply : string * Accounts.Session (J := unit) :=
  match ex_login.1 with Ok (SessionEstablished c x) => (c, x) | _ => ("", ex_session "" "" "") end.

Lemma ex_login_ok : ex_login = (Ok (SessionEstablished ex_reply.1 ex_reply.2), ex_login.2).
Proof. vm_compute. reflexivity. Qed.

Lemma password_login_sound_witness :
  ex_reply.1 = "__Host-qid=sid_0102; HttpOnly; Secure; Path=/; SameSite=Lax" ∧ session_revoked "old" (store ex_login.2).
Proof.
  split; [vm_compute; reflexivity|].
  pose proof (password_login_sound _ _ _ _ _ _ _ _ _ _ _ _ _ ex_login_ok)
    as (config & creds & u & cred & ls & m & [Hc _] & _ & _ & _ & _ & _ & _ & _ & Hold & _).
  apply (Hold "old" (ex_session "old" "r" "u")); [|vm_compute; reflexivity|reflexivity].
  apply list_elem_of_singleton in Hc as ->. vm_compute. reflexivity.
Defined.

Lemma ex_account : account "r" "a@x" ex_st (ex_user "u" "r" (Some "a@x")).
Proof.
  split; [|vm_compute; reflexivity]. intros k u Hk.
  assert (users (store ex_st) = {[ "u" := ex_user "u" "r" (Some "a@x") ]}) as E by (vm_compute; reflexivity).
  rewrite E in Hk. apply lookup_singleton_Some in Hk as [<- <-]. reflexivity.
Qed.

Definition ex_wrong (now : N) : Attempt :=
  {| a_saved := fun _ => Ok tt; a_budget := now; a_now := now; a_fail := now; a_password := "guess" |}.

Definition ex_attempts : list Attempt := [ex_wrong 100; ex_wrong 101; ex_wrong 102].

Definition ex_locked : St := (attempt_all ex_policy ex_creds "r" "a@x" ex_attempts ex_st).2.

Lemma ex_wrong_password cred : get_password_credential "u" (store ex_st) = Some cred → (pc_verify ex_creds "guess" cred).1 = false.
Proof. vm_compute. by intros [= <-]. Qed.

Lemma wrong_passwords_lock_witness :
  ∃ err, authenticate_password ex_policy (Some ex_creds) (fun _ => Ok tt) 161 161 161 "r" "a@x" "secret" ex_locked = (Err err, ex_locked) ∧
    (err = account_locked ∨ ∃ m, err = AttemptBudgetSpent m).
Proof.
  destruct (wrong_passwords_lock ex_policy ex_creds "r" "a@x" ex_attempts ex_st (ex_user "u" "r" (Some "a@x"))
    (attempt_all ex_policy ex_creds "r" "a@x" ex_attempts ex_st).1 ex_locked)
    as (a & Ha & Hlock).
  - apply ex_account.
  - reflexivity.
  - reflexivity.
  - intros a cred Ha. unfold ex_attempts in Ha. rewrite !elem_of_cons, elem_of_nil in Ha.
    destruct Ha as [->|[->|[->|[]]]]; apply ex_wrong_password.
  - reflexivity.
  - by split; vm_compute.
  - unfold ex_locked. by destruct (attempt_all _ _ _ _ _ _).
  - intros m. vm_compute. intros H. repeat (apply list_elem_of_In in H; destruct H as [H|H]; [discriminate H|apply list_elem_of_In in H]).
    by apply not_elem_of_nil in H.
  - injection Ha as <-. apply Hlock. vm_compute. reflexivity.
Defined.

Definition ex_expired : St (J := unit) :=
  {| store := set_users ex_accounts {[ "u" := with_lockout (ex_user "u" "r" (Some "a@x")) 3 (Some 162) ]};
     budget := Some ∅; limiter := limiter ex_st |}.

Lemma expired_lockout_relocks_witness :
  ∃ u', account "r" "a@x" (authenticate_password ex_policy (Some ex_creds) (fun _ => Ok tt) 200 200 200 "r" "a@x" "guess" ex_expired).2 u' ∧
    failed_login_attempts u' = 3 + 1 ∧ locked_until u' = Some 260.
Proof.
  destruct (expired_lockout_relocks ex_policy ex_creds (fun _ => Ok tt) 200 200 200 "r" "a@x" "guess" ex_expired
    (with_lockout (ex_user "u" "r" (Some "a@x")) 3 (Some 162)) 162
    (authenticate_password ex_policy (Some ex_creds) (fun _ => Ok tt) 200 200 200 "r" "a@x" "guess" ex_expired).1
    (authenticate_password ex_policy (Some ex_creds) (fun _ => Ok tt) 200 200 200 "r" "a@x" "guess" ex_expired).2) as [_ H].
  - split; [|vm_compute; reflexivity]. intros k u Hk. cbn [ex_expired store users set_users] in Hk. apply lookup_singleton_Some in Hk as [<- <-]. reflexivity.
  - reflexivity.
  - vm_compute. discriminate.
  - vm_compute. discriminate.
  - vm_compute. reflexivity.
  - intros cred. vm_compute. by intros [= <-].
  - reflexivity.
  - reflexivity.
  - by destruct (authenticate_password _ _ _ _ _ _ _ _ _ _).
  - intros m. vm_compute. discriminate.
  - exact H.
Defined.

Definition ex_signout : QidResult SessionReply * St :=
  session_revoke ex_plan (Ok tt) "r" (Some "__Host-qid=old") 50 ex_st.

Lemma signed_out_session_dead_witness :
  load_browser_session ex_plan "r" (Some "__Host-qid=old") 50 (store ex_signout.2) = Err (Unauthorized "invalid or expired session") ∧
  ¬ ∃ ctx, load_browser_session ex_plan "r" (Some "__Host-qid=old") 60 (store ex_signout.2) = Ok ctx ∧ ctx_session_id ctx = "old".
Proof.
  split; [vm_compute; reflexivity|]. intros (ctx & Hctx & Hid). revert Hid.
  eapply (signed_out_session_dead ex_plan (Ok tt) "r" (Some "__Host-qid=old") 50 ex_st _ ex_signout.2 "old" [] []
    (store ex_signout.2) ex_plan "r" (Some "__Host-qid=old") 60 ctx).
  - vm_compute. reflexivity.
  - intros config. vm_compute. by intros [= <-].
  - constructor.
  - reflexivity.
  - exact Hctx.
Defined.

Lemma cookie_roundtrip_witness :
  extract_cookie (Some (render_cookies [("a", "1"); ("__Host-qid", "sid_0102"); ("b", "2")])) "__Host-qid" = Some "sid_0102".
Proof.
  etrans; [apply cookie_roundtrip|reflexivity]. repeat constructor.
Defined.


End Login.
