(* ===== verification/OAuth.v ===== *)
(** The OAuth token endpoint: audience resolution (src/qid-core/src/oauth.rs), PKCE
    (src/qid-core/src/pkce.rs), token issuance and the authorization-code, refresh and device
    grants with the client authentication in front of them (src/qid-oauth/src/endpoints/mod.rs,
    token_issue.rs, token_grant.rs, device_flow.rs, token.rs), token reading and revocation
    (introspect.rs, revoke.rs), over the token and account tables (Tokens.v, Accounts.v).

    Every reading of the clock, every generated identifier and every outcome of a write comes from
    a [World], indexed by a counter in the state: theorems hold for every behaviour of the clock,
    the identifiers and the disk.  The signer, SHA-256, HMAC, base64 and URL parsing are
    parameters; casts to [usize] are those of a 64-bit platform. *)

From S2P Require Import Prelude Utf8 Json Request Push Tokens Accounts.
Import Accounts Request.

Module OAuth.

(** * Configuration *)

Record OAuthResourceServerConfig : Type := {
  rs_audience : string; resources : list string; rs_scopes : list string; introspection_client_ids : list string;
  require_sender_constraint_ : bool; high_risk : bool
}.

(** What the endpoint reads of a realm's configuration. *)
Record OAuthRealmConfig : Type := {
  oc_id : string; oc_issuer : string; resource_servers : list OAuthResourceServerConfig;
  default_scope : string; device_authorization_enabled : bool; ciba_enabled : bool; revocation_enabled : bool;
  private_key_jwt_enabled : bool; dpop_enabled : bool; mtls_enabled : bool; introspection_enabled : bool;
  introspection_jwt_response : bool
}.

Record TokenTtlConfig : Type := {
  access_token_ttl_seconds : N; refresh_token_ttl_seconds : N; id_token_ttl_seconds : N;
  device_code_ttl_seconds : N; access_token_format : Tokens.TokenFormat
}.
Definition default_token_ttl : TokenTtlConfig :=
  {| access_token_ttl_seconds := 3600; refresh_token_ttl_seconds := 86400; id_token_ttl_seconds := 3600;
     device_code_ttl_seconds := 1800; access_token_format := Tokens.Jwt |}.

(** What the endpoint reads of [RuntimeRealm]. *)
Record PlanRealm : Type := {
  pr_id : string; pr_issuer : string; pr_token_ttl : TokenTtlConfig; pr_cookie_name : string;
  oauth_default_scope : string; oidc_default_scope : string
}.

(** The parts of [SharedState] the endpoint reads. *)
Record SharedState : Type := {
  config_realms : list OAuthRealmConfig; plan_realms : list PlanRealm; public_base_url : string;
  device_verification_path : string
}.

Definition find_config (st : SharedState) (rid : string) : option OAuthRealmConfig :=
  List.find (fun r => String.eqb (oc_id r) rid) (config_realms st).
Definition find_plan (st : SharedState) (rid : string) : option PlanRealm :=
  List.find (fun r => String.eqb (pr_id r) rid) (plan_realms st).

Definition token_ttl (st : SharedState) (rid : string) : TokenTtlConfig :=
  match find_plan st rid with Some r => pr_token_ttl r | None => default_token_ttl end.

Definition oauth_realm_config (st : SharedState) (rid : string) : QidResult OAuthRealmConfig :=
  ok_or (find_config st rid) (Config ("realm " +:+ rid +:+ " not found for OAuth client")).

(** [Vec<String>::join] *)
Fixpoint join (sep : string) (l : list string) : string :=
  match l with
  | [] => ""
  | [x] => x
  | x :: l' => x +:+ sep +:+ join sep l'
  end.

(** [str::split_whitespace]: the maximal runs of characters that are not white space. *)
Fixpoint words (cur : list N) (cs : list N) : list (list N) :=
  match cs with
  | [] => match cur with [] => [] | _ => [rev cur] end
  | c :: cs' =>
      if Utf8.is_whitespace c then match cur with [] => words [] cs' | _ => rev cur :: words [] cs' end
      else words (c :: cur) cs'
  end.
Definition split_whitespace (s : string) : list string :=
  map (fun w => Utf8.bytes_str (Utf8.encode w)) (words [] (Utf8.chars s)).

(** * Audiences (src/qid-core/src/oauth.rs) *)

(** ** The checks of the resource servers when a realm is loaded (src/qid-core/src/config.rs and
    src/qid-core/src/config/protocol.rs) *)

Fixpoint check_each (empty duplicate : string → QidError) (seen : gset string) (l : list string) : QidResult unit :=
  match l with
  | [] => Ok tt
  | x :: rest =>
      if is_empty_str (Utf8.trim_str x) then Err (empty x)
      else if bool_decide (x ∈ seen) then Err (duplicate x)
      else check_each empty duplicate ({[x]} ∪ seen) rest
  end.

Definition validate_resource_server (realm_id : string) (s : OAuthResourceServerConfig) : QidResult unit :=
  let server := "realm " +:+ realm_id +:+ " OAuth resource server " in
  (if is_empty_str (Utf8.trim_str (rs_audience s)) then Err (Config (server +:+ "audience must not be empty")) else Ok tt) ?;
  check_each (fun _ => Config (server +:+ rs_audience s +:+ " has an empty resource indicator"))
    (fun r => Config (server +:+ rs_audience s +:+ " has duplicate resource indicator " +:+ r)) ∅ (resources s) ?;
  (if existsb (fun x => is_empty_str (Utf8.trim_str x)) (rs_scopes s)
   then Err (Config (server +:+ rs_audience s +:+ " has an empty scope")) else Ok tt) ?;
  check_each (fun _ => Config (server +:+ rs_audience s +:+ " has an empty introspection client id"))
    (fun c => Config (server +:+ rs_audience s +:+ " has duplicate introspection client id " +:+ c)) ∅ (introspection_client_ids s).

Fixpoint insert_indicators (realm_id : string) (seen : gset string) (l : list string) : QidResult (gset string) :=
  match l with
  | [] => Ok seen
  | r :: rest =>
      if bool_decide (r ∈ seen) then Err (Config ("realm " +:+ realm_id +:+ " has duplicate OAuth resource indicator: " +:+ r))
      else insert_indicators realm_id ({[r]} ∪ seen) rest
  end.

Fixpoint validate_resource_servers (realm_id : string) (audiences indicators : gset string)
    (servers : list OAuthResourceServerConfig) : QidResult unit :=
  match servers with
  | [] => Ok tt
  | s :: rest =>
      validate_resource_server realm_id s ?;
      if bool_decide (rs_audience s ∈ audiences)
      then Err (Config ("realm " +:+ realm_id +:+ " has duplicate OAuth resource server audience: " +:+ rs_audience s))
      else
        let? indicators' := insert_indicators realm_id indicators (resources s) in
        validate_resource_servers realm_id ({[rs_audience s]} ∪ audiences) indicators' rest
  end.

Section Audience.
Context {Num : Type} `{JsonNumber Num}.
Abbreviation J := (Value Num).

(** [Value::get] with a string key. *)
Definition json_get (v : J) (key : string) : option J :=
  match v with VObject o => obj_get o key | _ => None end.
Definition as_str (v : J) : option string := match v with VString s => Some s | _ => None end.

Fixpoint check_details (idx : N) (entries : list J) : QidResult unit :=
  match entries with
  | [] => Ok tt
  | VObject o :: rest =>
      match obj_get o "type" with
      | Some (VString t) =>
          if is_empty_str (Utf8.trim_str t)
          then Err (BadRequest ("authorization_details[" +:+ pretty idx +:+ "].type must not be empty"))
          else check_details (idx + 1) rest
      | _ => Err (BadRequest ("authorization_details[" +:+ pretty idx +:+ "].type is required"))
      end
  | _ :: _ => Err (BadRequest ("authorization_details[" +:+ pretty idx +:+ "] must be an object"))
  end.

Definition validate_authorization_details (details : J) : QidResult unit :=
  match details with
  | VArray [] => Err (BadRequest "authorization_details must not be empty")
  | VArray entries => check_details 0 entries
  | _ => Err (BadRequest "authorization_details must be an array")
  end.

Definition resource_server_by_audience (servers : list OAuthResourceServerConfig) (audience : string)
    : option OAuthResourceServerConfig :=
  List.find (fun s => String.eqb (rs_audience s) audience) servers.

Definition resource_server_by_resource (servers : list OAuthResourceServerConfig) (resource : string)
    : option OAuthResourceServerConfig :=
  List.find (fun s => str_in resource (resources s)) servers.

Definition require_sender_constraint (server : OAuthResourceServerConfig) (cnf : option J) : QidResult unit :=
  if (require_sender_constraint_ server || high_risk server) && negb (bool_decide (is_Some cnf))
  then Err (Unauthorized ("sender-constrained token is required for audience " +:+ rs_audience server))
  else Ok tt.

Fixpoint check_scopes (server : OAuthResourceServerConfig) (scopes : list string) : QidResult unit :=
  match scopes with
  | [] => Ok tt
  | scope :: rest =>
      if negb (str_in scope (rs_scopes server))
      then Err (BadRequest ("requested scope " +:+ scope +:+ " is not allowed for resource server " +:+ rs_audience server))
      else check_scopes server rest
  end.

Fixpoint validate_scopes_per_target (scopes : list string) (servers : list OAuthResourceServerConfig) : QidResult unit :=
  match servers with
  | [] => Ok tt
  | server :: rest =>
      match rs_scopes server with
      | [] => validate_scopes_per_target scopes rest
      | _ => check_scopes server scopes ?; validate_scopes_per_target scopes rest
      end
  end.

(** The servers selected by the requested audiences, then by the resource indicators. *)
Fixpoint select_audiences (servers : list OAuthResourceServerConfig) (audiences : list string)
    : QidResult (list OAuthResourceServerConfig) :=
  match audiences with
  | [] => Ok []
  | a :: rest =>
      let? s := ok_or (resource_server_by_audience servers a) (Unauthorized ("unknown resource server audience: " +:+ a)) in
      let? l := select_audiences servers rest in
      Ok (s :: l)
  end.

Fixpoint select_resources (servers : list OAuthResourceServerConfig) (requested res : list string)
    : QidResult (list OAuthResourceServerConfig) :=
  match res with
  | [] => Ok []
  | r :: rest =>
      let? s := ok_or (resource_server_by_resource servers r) (Unauthorized ("unknown resource indicator: " +:+ r)) in
      if negb (match requested with [] => true | _ => false end) && negb (str_in (rs_audience s) requested)
      then Err (Unauthorized ("resource indicator " +:+ r +:+ " is not allowed for requested audience " +:+ join " " requested))
      else
        let? l := select_resources servers requested rest in
        Ok (s :: l)
  end.

(** The elements of a [BTreeSet<String>] in order. *)
Definition btree_set (l : list string) : list string := dedup String.eqb (sort_by str_leb l).

Definition resolve_authorization_audience (realm : OAuthRealmConfig) (requested res scopes : list string)
    : QidResult (list string) :=
  match resource_servers realm with
  | [] =>
      match res with
      | r :: _ => Err (Unauthorized ("unknown resource indicator: " +:+ r))
      | [] => Ok requested
      end
  | servers =>
      let? by_audience := select_audiences servers requested in
      let? by_resource := select_resources servers requested res in
      let audiences := btree_set (requested ++ map rs_audience by_resource) in
      match audiences with
      | [] => Err (BadRequest "audience or resource is required when OAuth resource servers are configured")
      | _ => validate_scopes_per_target scopes (by_audience ++ by_resource) ?; Ok audiences
      end
  end.

Fixpoint require_constraints (servers : list OAuthResourceServerConfig) (audiences : list string) (cnf : option J)
    : QidResult unit :=
  match audiences with
  | [] => Ok tt
  | a :: rest =>
      match resource_server_by_audience servers a with
      | Some s => require_sender_constraint s cnf ?; require_constraints servers rest cnf
      | None => require_constraints servers rest cnf
      end
  end.

Definition resolve_token_audience (realm : OAuthRealmConfig) (requested res scopes : list string) (cnf : option J)
    : QidResult (list string) :=
  match resource_servers realm with
  | [] => Ok requested
  | servers =>
      let? audiences := resolve_authorization_audience realm requested res scopes in
      require_constraints servers audiences cnf ?; Ok audiences
  end.
End Audience.

(** * Requests, claims and the world *)

Section Endpoint.
Context {Num : Type} `{JsonNumber Num}.
Abbreviation J := (Value Num).
Abbreviation Store := (Accounts.Store (J := J)).
Abbreviation ClientJ := (Accounts.Client (J := J)).

Record TokenRequest : Type := {
  grant_type : string; rq_code : option string; rq_redirect_uri : option string; code_verifier : option string;
  rq_client_id : option string; rq_client_secret : option string; rq_scope : option string;
  rq_refresh_token : option string; client_assertion : option string; client_assertion_type : option string;
  device_code : option string; auth_req_id : option string; assertion : option string; subject_token : option string;
  subject_token_type : option string; actor_token : option string; actor_token_type : option string;
  requested_token_type : option string; rq_audience : option string; rq_resource : option string;
  rq_authorization_details : option J
}.

Record TokenResponse : Type := {
  access_token : string; token_type : string; expires_in : N; refresh_token : option string; id_token : option string;
  tr_scope : option string; issued_token_type : option string
}.

(** [Audience] of src/qid-core/src/jwt.rs. *)
Inductive Audience : Type := Single (value : string) | Multiple (values : list string).

Definition from_values (values : list string) : option Audience :=
  match values with [] => None | [v] => Some (Single v) | _ => Some (Multiple values) end.
Definition audience_contains (a : Audience) (x : string) : bool :=
  match a with Single v => String.eqb v x | Multiple vs => str_in x vs end.
Definition primary (a : Audience) : option string :=
  match a with Single v => Some v | Multiple vs => head vs end.

Record JwtClaims : Type := {
  iss : option string; sub : option string; aud : option Audience; exp : option N; nbf : option N; iat : option N;
  jti : option string; extra : gmap string J
}.

(** The trait [Signer] of src/qid-core/src/jwt.rs, errors as their text. *)
Record Signer : Type := {
  sign : JwtClaims → result string string;
  sign_with_typ : JwtClaims → string → result string string;
  decode_signature_only : string → result JwtClaims string
}.

(** The fields of a client record beyond its identity. *)
Inductive ClientType : Type := Confidential | Public.
Record ClientBody : Type := {
  client_type : ClientType; token_endpoint_auth_method : string; client_secret_hash : option string;
  mtls_certificate_thumbprints : list string; redirect_uris : list string; grant_types : list string;
  sector_identifier_uri : option string; subject_type : option string
}.

Record World : Type := {
  w_now : nat → N; w_ulid : nat → string; w_random : nat → nat → list N; w_saved : nat → QidResult unit
}.

(** A service account (src/qid-core/src/models). *)
Record ServiceAccount : Type := {
  sa_id : string; sa_client_id : string; sa_realm_id : string; description : option string; sa_created_at : N
}.

(** The store, with the service accounts that Accounts.v keeps closed, and the counter of the [World]. *)
Record St : Type := { store : Store; service_accounts : gmap string ServiceAccount; tick : nat }.

(** What the verification of an external assertion establishes. *)
Record ValidatedJwtBearerAssertion : Type := { va_subject : string; va_issuer : string; va_cnf : option J }.
Record SamlSubject : Type := { ss_id : string; ss_issuer : string; ss_auth_time : option N }.

(** The verification of proofs and assertions, with replay caches of their own: each takes the moment
    of the call.  The DPoP proof of a request gives its key thumbprint, a client assertion the client
    it names. *)
Record Verifiers : Type := {
  dpop_jkt : nat → OAuthRealmConfig → string → QidResult string;
  extract_client_id_from_assertion : string → QidResult string;
  extract_private_key_jwt : nat → string → ClientJ → string → QidResult unit;
  validate_jwt_bearer_assertion : nat → ClientJ → string → string → N → QidResult ValidatedJwtBearerAssertion;
  validate_saml_bearer_assertion : nat → string → string → QidResult SamlSubject
}.

Context (state : SharedState) (signer : Signer) (V : Verifiers) (W : World) (mode : Tokens.FileFlushMode).
Context (body : J → ClientBody) (sha256 : string → list N) (hmac_sha256 : string → string → list N)
  (base64url : list N → string) (url_host : string → option string).
Context `{CT : ConstantTimeEq}.

Definition sha256_base64url (s : string) : string := base64url (sha256 s).

Definition bump (st : St) : St := {| store := store st; service_accounts := service_accounts st; tick := S (tick st) |}.
Definition now_seconds : M St N := fun st => (Ok (w_now W (tick st)), bump st).
Definition generate_jti : M St string := fun st => (Ok ("oat_" +:+ w_ulid W (tick st)), bump st).
(** A write of the repository, with the outcome of its save. *)
Definition write {A} (f : QidResult unit → Store → QidResult A * Store) : M St A :=
  fun st => let '(r, s) := f (w_saved W (tick st)) (store st) in (r, {| store := s; service_accounts := service_accounts st; tick := S (tick st) |}).

Definition set_tokens (s : Store) (t : Tokens.Store (J := J)) : Store :=
  {| push := push s; tokens := t; realm_issuers := realm_issuers s; realm_tenants := realm_tenants s;
     users := users s; credentials_password := credentials_password s; clients := clients s; sessions := sessions s;
     webauthn_credentials := webauthn_credentials s; totp_credentials := totp_credentials s;
     devices := devices s; ciam := ciam s; realm_tables := realm_tables s; hr_receipts := hr_receipts s;
     ssf_set_replay := ssf_set_replay s; oidc_continuations := oidc_continuations s |}.

Definition write_tokens {A} (f : QidResult unit → Tokens.Store (J := J) → QidResult A * Tokens.Store) : M St A :=
  write (fun saved s => let '(r, t) := f saved (tokens s) in (r, set_tokens s t)).
Definition read_tokens {A} (f : Tokens.Store (J := J) → QidResult A) : M St A :=
  let! st := get_state in of_result (f (tokens (store st))).
Definition read {A} (f : Store → A) : M St A := let! st := get_state in ret (f (store st)).

(** [o.ok_or_else(|| e)?] *)
Definition require {A} (o : option A) (e : QidError) : M St A := of_result (ok_or o e).
Definition guard (b : bool) (e : QidError) : M St unit := if b then throw e else ret tt.

(** * PKCE (src/qid-core/src/pkce.rs) *)

Definition verify_code_verifier (code_challenge code_challenge_method : option string) (verifier : string) : bool :=
  match code_challenge with
  | None => true
  | Some challenge =>
      let method := default "plain" code_challenge_method in
      if negb (String.eqb method "S256") then false else String.eqb (sha256_base64url verifier) challenge
  end.

(** * Issuance (src/qid-oauth/src/endpoints/token_issue.rs) *)

Record TokenIssueClaims : Type := {
  ic_audience : option (list string); ic_resource : option (list string); ic_authorization_details : option J;
  ic_cnf : option J; ic_auth_time : option N; ic_acr : option string; ic_amr : option (list string);
  ic_nonce : option string; ic_act : option J; ic_authorization_code : option string;
  ic_access_token : option string; ic_access_expires_at : option N; ic_session_id : option string
}.

(** [o.filter(|v| !v.is_empty())] *)
Definition non_empty (o : option (list string)) : option (list string) :=
  match o with Some [] => None | _ => o end.

Definition token_audience (client_id : string) (c : TokenIssueClaims) : list string :=
  default [client_id] (non_empty (ic_audience c)).
Definition token_resource (c : TokenIssueClaims) : list string := default [] (non_empty (ic_resource c)).
Definition token_amr (c : TokenIssueClaims) : list string := default [] (non_empty (ic_amr c)).

Definition access_token_type_for_cnf (cnf : option J) : string :=
  match cnf with
  | Some v => match json_get v "jkt" with Some _ => "DPoP" | None => "Bearer" end
  | None => "Bearer"
  end.

Definition encode_opaque_access_token (j : string) : string := "oat_" +:+ j.
Definition decode_opaque_access_token (token : string) : option string := strip_prefix "oat_" token.

Definition strings (l : list string) : J := VArray (map VString l).

(** [if let Some(v) = o { extra.insert(key, f(v)) }] *)
Definition insert_opt {A} (key : string) (o : option A) (f : A → J) (m : gmap string J) : gmap string J :=
  match o with Some v => <[key := f v]> m | None => m end.

Definition access_extra (client_id : string) (scopes : list string) (c : TokenIssueClaims) : gmap string J :=
  insert_opt "act" (ic_act c) id
  (insert_opt "cnf" (ic_cnf c) id
  (insert_opt "nonce" (ic_nonce c) VString
  (insert_opt "amr" (non_empty (ic_amr c)) strings
  (insert_opt "acr" (ic_acr c) VString
  (insert_opt "auth_time" (ic_auth_time c) (fun t => VNumber (num_from_u64 t))
  (insert_opt "resource" (non_empty (ic_resource c)) strings
  (insert_opt "authorization_details" (ic_authorization_details c) id
  (<["token_type" := VString (access_token_type_for_cnf (ic_cnf c))]>
  (<["client_id" := VString client_id]> {[ "scope" := VString (join " " scopes) ]}))))))))).

Definition signed (prefix : string) (r : result string string) : QidResult string :=
  map_err (fun e => Crypto (prefix +:+ e)) r.

Definition sign_access_token (issuer j : string) (user : User) (client_id realm : string) (scopes : list string)
    (c : TokenIssueClaims) : M St string :=
  let! now := now_seconds in
  of_result (signed "failed to sign access token: " (sign_with_typ signer
    {| iss := Some issuer; sub := Some (u_id user); aud := from_values (token_audience client_id c);
       exp := Some (N.min (saturating_add64 now (access_token_ttl_seconds (token_ttl state realm)))
                      (default u64_max (ic_access_expires_at c)));
       nbf := Some now; iat := Some now; jti := Some j; extra := access_extra client_id scopes c |} "at+jwt")).

Definition format_access_token (issuer j : string) (user : User) (client_id realm : string) (scopes : list string)
    (c : TokenIssueClaims) : M St string :=
  match access_token_format (token_ttl state realm) with
  | Tokens.Jwt => sign_access_token issuer j user client_id realm scopes c
  | Tokens.Opaque => ret (encode_opaque_access_token j)
  end.

Definition sign_refresh_token (issuer j : string) (user : User) (client_id realm : string) (family : option string)
    (refresh_expires_at : N) : M St string :=
  let! now := now_seconds in
  of_result (signed "failed to sign refresh token: " (sign signer
    {| iss := Some issuer; sub := Some (u_id user); aud := Some (Single client_id);
       exp := Some (N.min (saturating_add64 now (refresh_token_ttl_seconds (token_ttl state realm))) refresh_expires_at);
       nbf := Some now; iat := Some now; jti := Some j; extra := insert_opt "family_id" family VString ∅ |})).

Definition left_most_128_hash_base64url (s : string) : string := base64url (take 16 (sha256 s)).

Definition id_extra (user : User) (scopes : list string) (c : TokenIssueClaims) : gmap string J :=
  insert_opt "c_hash" (ic_authorization_code c) (fun x => VString (left_most_128_hash_base64url x))
  (insert_opt "at_hash" (ic_access_token c) (fun x => VString (left_most_128_hash_base64url x))
  (insert_opt "amr" (non_empty (ic_amr c)) strings
  (insert_opt "acr" (ic_acr c) VString
  (insert_opt "auth_time" (ic_auth_time c) (fun t => VNumber (num_from_u64 t))
  (insert_opt "nonce" (ic_nonce c) VString
  (if str_in "email" scopes then insert_opt "email" (email user) VString ∅ else ∅)))))).

Definition issue_id_token (issuer : string) (user : User) (client_id realm : string) (scopes : list string)
    (c : TokenIssueClaims) (sub_override : option string) : M St string :=
  let! now := now_seconds in
  let! j := generate_jti in
  of_result (signed "failed to sign id token: " (sign signer
    {| iss := Some issuer; sub := Some (default (u_id user) sub_override); aud := Some (Single client_id);
       exp := Some (add64 now (id_token_ttl_seconds (token_ttl state realm)));
       nbf := Some now; iat := Some now; jti := Some j; extra := id_extra user scopes c |})).

Record TokenPair : Type := {
  tp_access_token : string; tp_refresh_token : string; access_jti : string; refresh_jti : string; tp_expires_in : N
}.

Definition with_access_deadline (c : TokenIssueClaims) (t : N) : TokenIssueClaims :=
  {| ic_audience := ic_audience c; ic_resource := ic_resource c; ic_authorization_details := ic_authorization_details c;
     ic_cnf := ic_cnf c; ic_auth_time := ic_auth_time c; ic_acr := ic_acr c; ic_amr := ic_amr c; ic_nonce := ic_nonce c;
     ic_act := ic_act c; ic_authorization_code := ic_authorization_code c; ic_access_token := ic_access_token c;
     ic_access_expires_at := Some t; ic_session_id := ic_session_id c |}.

Definition issue_token_pair (issuer : string) (user : User) (client_id realm : string) (scopes : list string)
    (c : TokenIssueClaims) : M St TokenPair :=
  let! now := now_seconds in
  let! aj := generate_jti in
  let! rj := generate_jti in
  let! fid := generate_jti in
  let ttl := token_ttl state realm in
  let refresh_deadline := saturating_add64 now (refresh_token_ttl_seconds ttl) in
  let access_deadline := N.min (saturating_add64 now (access_token_ttl_seconds ttl)) refresh_deadline in
  let! _ := write_tokens (fun saved => Tokens.create_token_family saved
    {| Tokens.tf_id := fid; Tokens.tf_user_id := u_id user; Tokens.tf_client_id := client_id; Tokens.tf_realm_id := realm;
       Tokens.current_refresh_hash := sha256_base64url rj; Tokens.tf_scopes := scopes; Tokens.tf_auth_time := ic_auth_time c;
       Tokens.tf_acr := ic_acr c; Tokens.tf_amr := token_amr c; Tokens.tf_audience := token_audience client_id c;
       Tokens.tf_resource := token_resource c; Tokens.tf_authorization_details := ic_authorization_details c;
       Tokens.tf_sender_constraint := ic_cnf c; Tokens.tf_issued_at := now;
       Tokens.refresh_expires_at := Some refresh_deadline; Tokens.tf_session_id := ic_session_id c;
       Tokens.tf_revoked := false |}) in
  let! _ := write_tokens (fun saved => Tokens.create_access_token saved
    {| Tokens.jti := aj; Tokens.family_id := Some fid; Tokens.at_user_id := u_id user; Tokens.at_client_id := client_id;
       Tokens.at_realm_id := realm; Tokens.at_scopes := scopes; Tokens.at_audience := token_audience client_id c;
       Tokens.at_resource := token_resource c; Tokens.at_authorization_details := ic_authorization_details c;
       Tokens.at_cnf := ic_cnf c; Tokens.at_auth_time := ic_auth_time c; Tokens.at_acr := ic_acr c;
       Tokens.at_amr := token_amr c; Tokens.at_nonce := ic_nonce c; Tokens.at_sender_constraint := ic_cnf c;
       Tokens.token_format := access_token_format ttl; Tokens.at_expires_at := access_deadline;
       Tokens.at_revoked := false; Tokens.at_issued_at := now |}) in
  let! access := format_access_token issuer aj user client_id realm scopes (with_access_deadline c refresh_deadline) in
  let! refresh := sign_refresh_token issuer rj user client_id realm (Some fid) refresh_deadline in
  ret {| tp_access_token := access; tp_refresh_token := refresh; access_jti := aj; refresh_jti := rj;
         tp_expires_in := saturating_sub access_deadline now |}.

(** * The authorization-code grant (src/qid-oauth/src/endpoints/token_grant.rs) *)

(** [sector_identifier_for_client] and [compute_pairwise_sub] of src/qid-core/src/util.rs. *)
Definition sector_identifier_for_client (client : ClientJ) : string :=
  let b := body (c_body client) in
  match sector_identifier_uri b ≫= url_host with
  | Some host => host
  | None => match head (redirect_uris b) ≫= url_host with Some host => host | None => client_id client end
  end.
Definition compute_pairwise_sub (public_sub sector issuer : string) : string :=
  base64url (take 16 (hmac_sha256 issuer (public_sub +:+ "|" +:+ sector))).

Definition bad_code : QidError := Unauthorized "invalid code".

Definition code_claims (c : Tokens.AuthorizationCode (J := J)) (aud_ : option (list string)) (cnf : option J) (code : string)
    (access : option string) (session : option string) : TokenIssueClaims :=
  {| ic_audience := aud_; ic_resource := Some (Tokens.ac_resource c);
     ic_authorization_details := Tokens.ac_authorization_details c; ic_cnf := cnf; ic_auth_time := Tokens.ac_auth_time c;
     ic_acr := Tokens.ac_acr c; ic_amr := Some (Tokens.ac_amr c); ic_nonce := Tokens.ac_nonce c; ic_act := None;
     ic_authorization_code := Some code; ic_access_token := access; ic_access_expires_at := None;
     ic_session_id := session |}.

Definition authorization_code_grant (req : TokenRequest) (client : ClientJ) (cnf : option J) : M St TokenResponse :=
  let! code := require (rq_code req) (BadRequest "code required") in
  let! redirect := require (rq_redirect_uri req) (BadRequest "redirect_uri required") in
  let! found := read_tokens (Tokens.get_authorization_code (sha256_base64url code)) in
  let! ac := require found bad_code in
  let! now := now_seconds in
  let! _ := guard (Tokens.ac_used ac || (Tokens.ac_expires_at ac <=? now)
                   || negb (String.eqb (Tokens.redirect_uri ac) redirect)
                   || negb (String.eqb (Tokens.ac_client_id ac) (client_id client))
                   || negb (String.eqb (Tokens.ac_realm_id ac) (c_realm_id client))) bad_code in
  let! _ := guard (negb (verify_code_verifier (Tokens.code_challenge ac) (Tokens.code_challenge_method ac)
                           (default "" (code_verifier req)))) (Unauthorized "invalid code_verifier") in
  let! _ := write_tokens (fun saved => Tokens.mark_authorization_code_used saved ac) in
  let! u := read (get_user_by_id (Tokens.ac_user_id ac)) in
  let! user := require u (NotFound "user") in
  let! _ := guard (negb (String.eqb (u_realm_id user) (Tokens.ac_realm_id ac)))
              (Unauthorized "authorization code user realm mismatch") in
  let scopes := Tokens.ac_scopes ac in
  let! realm := require (find_config state (Tokens.ac_realm_id ac)) (NotFound ("realm " +:+ Tokens.ac_realm_id ac)) in
  let issuer := oc_issuer realm in
  let! audiences := of_result (resolve_token_audience realm [] (Tokens.ac_resource ac) scopes cnf) in
  let! pair := issue_token_pair issuer user (Tokens.ac_client_id ac) (Tokens.ac_realm_id ac) scopes
                 (code_claims ac (Some audiences) cnf code None (Tokens.ac_session_id ac)) in
  let! logged := now_seconds in
  let sub_override :=
    if bool_decide (subject_type (body (c_body client)) = Some "pairwise")
    then Some (compute_pairwise_sub (u_id user) (sector_identifier_for_client client) issuer) else None in
  let! idt := issue_id_token issuer user (Tokens.ac_client_id ac) (Tokens.ac_realm_id ac) scopes
                (code_claims ac None cnf code (Some (tp_access_token pair)) None) sub_override in
  ret {| access_token := tp_access_token pair; token_type := access_token_type_for_cnf cnf;
         expires_in := tp_expires_in pair; refresh_token := Some (tp_refresh_token pair); id_token := Some idt;
         tr_scope := Some (join " " scopes); issued_token_type := None |}.

(** * The refresh-token grant (src/qid-oauth/src/endpoints/token_grant.rs) *)

Definition invalid_refresh : QidError := Unauthorized "invalid refresh token".

Definition revoke_reused_family {A} (family : Tokens.TokenFamily (J := J)) : M St A :=
  let! _ := ignore (write_tokens (fun saved =>
                      Tokens.revoke_token_family saved (Tokens.tf_id family) (Tokens.tf_realm_id family))) in
  throw invalid_refresh.

(** The refresh deadline of a family: the one stored with it, or the one a family stored without
    it is pinned to. *)
Definition family_deadline (f : Tokens.TokenFamily (J := J)) : N :=
  match Tokens.refresh_expires_at f with
  | Some t => t
  | None => saturating_add64 (Tokens.tf_issued_at f) (refresh_token_ttl_seconds (token_ttl state (Tokens.tf_realm_id f)))
  end.

Definition session_alive (s : Store) (f : Tokens.TokenFamily (J := J)) (now : N) : bool :=
  match Tokens.tf_session_id f with
  | Some sid =>
      match get_session sid s with
      | Some x => String.eqb (s_realm_id x) (Tokens.tf_realm_id f) && is_active x now
      | None => false
      end
  | None => true
  end.

Fixpoint check_narrowed (granted scopes : list string) : QidResult unit :=
  match scopes with
  | [] => Ok tt
  | scope :: rest =>
      if negb (str_in scope granted)
      then Err (BadRequest ("requested scope " +:+ scope +:+ " exceeds granted scope"))
      else check_narrowed granted rest
  end.

Definition narrow_scopes (granted : list string) (requested : option string) : QidResult (list string) :=
  match requested with
  | Some r => let narrowed := split_whitespace r in check_narrowed granted narrowed ?; Ok narrowed
  | None => Ok granted
  end.

(** [v.get(key).and_then(|v| v.as_str())] *)
Definition get_str (v : J) (key : string) : option string := json_get v key ≫= as_str.

Definition check_mtls_binding (sender cnf : option J) : QidResult unit :=
  match sender with
  | Some s =>
      match json_get s "x5t#S256" with
      | Some _ =>
          let matching :=
            match cnf ≫= (fun c => get_str c "x5t#S256"), get_str s "x5t#S256" with
            | Some x5t, Some orig => String.eqb x5t orig
            | _, _ => false
            end in
          if negb matching then Err (Unauthorized "mTLS certificate binding required for refresh token") else Ok tt
      | None => Ok tt
      end
  | None => Ok tt
  end.

Definition check_dpop_binding (f : Tokens.TokenFamily (J := J)) (cnf : option J) : M St unit :=
  match Tokens.tf_sender_constraint f ≫= (fun s => get_str s "jkt") with
  | None => ret tt
  | Some expected =>
      let! c := read (get_client_by_client_id (Tokens.tf_realm_id f) (Tokens.tf_client_id f)) in
      let! client := require c (Unauthorized "unknown client") in
      match client_type (body (c_body client)) with
      | Confidential => ret tt
      | Public =>
          let presented := default "" (cnf ≫= (fun c => get_str c "jkt")) in
          guard (is_empty_str presented || negb (constant_time_eq expected presented))
            (Unauthorized "DPoP binding required for refresh token")
      end
  end.

Definition or_else {A} (a b : option A) : option A := match a with Some _ => a | None => b end.

(** The rotation, with the outcomes the grant tells apart. *)
Definition rotate_family (f : Tokens.TokenFamily (J := J)) (realm expected new_hash : string) (deadline : N) : M St unit :=
  fun st =>
    match write_tokens (fun flushed => Tokens.update_token_family_refresh_hash mode flushed
                          (Tokens.tf_id f) realm expected new_hash deadline) st with
    | (Ok _, st') => (Ok tt, st')
    | (Err (NotFound _), st') => (Err invalid_refresh, st')
    | (Err (Conflict _), st') => revoke_reused_family f st'
    | (Err e, st') => (Err e, st')
    end.

Definition refresh_claims (f : Tokens.TokenFamily (J := J)) (aud_ : list string) (cnf : option J) (deadline : N) : TokenIssueClaims :=
  {| ic_audience := Some aud_; ic_resource := Some (Tokens.tf_resource f);
     ic_authorization_details := Tokens.tf_authorization_details f; ic_cnf := cnf;
     ic_auth_time := Tokens.tf_auth_time f; ic_acr := Tokens.tf_acr f; ic_amr := Some (Tokens.tf_amr f); ic_nonce := None;
     ic_act := None; ic_authorization_code := None; ic_access_token := None; ic_access_expires_at := Some deadline;
     ic_session_id := None |}.

Definition refreshed_token (f : Tokens.TokenFamily (J := J)) (j : string) (scopes aud_ : list string) (cnf : option J)
    (now deadline : N) : Tokens.AccessToken :=
  let ttl := token_ttl state (Tokens.tf_realm_id f) in
  {| Tokens.jti := j; Tokens.family_id := Some (Tokens.tf_id f); Tokens.at_user_id := Tokens.tf_user_id f;
     Tokens.at_client_id := Tokens.tf_client_id f; Tokens.at_realm_id := Tokens.tf_realm_id f;
     Tokens.at_scopes := scopes; Tokens.at_audience := aud_; Tokens.at_resource := Tokens.tf_resource f;
     Tokens.at_authorization_details := Tokens.tf_authorization_details f;
     Tokens.at_cnf := or_else cnf (Tokens.tf_sender_constraint f); Tokens.at_auth_time := Tokens.tf_auth_time f;
     Tokens.at_acr := Tokens.tf_acr f; Tokens.at_amr := Tokens.tf_amr f; Tokens.at_nonce := None;
     Tokens.at_sender_constraint := or_else cnf (Tokens.tf_sender_constraint f);
     Tokens.token_format := access_token_format ttl;
     Tokens.at_expires_at := N.min (saturating_add64 now (access_token_ttl_seconds ttl)) deadline;
     Tokens.at_revoked := false; Tokens.at_issued_at := now |}.

(** The client a refresh token names, the identifier of the token and its family. *)
Definition refresh_identity (client : ClientJ) (claims : JwtClaims) : QidResult (string * string) :=
  let? aud_ := ok_or (aud claims ≫= primary) (Unauthorized "refresh token missing aud claim") in
  if negb (String.eqb aud_ (client_id client))
  then Err (Unauthorized "refresh token was not issued to authenticated client")
  else
    let? j := ok_or (jti claims) (Crypto "refresh token missing jti") in
    let? fid := ok_or (extra claims !! "family_id" ≫= as_str) (BadRequest "refresh token missing family_id") in
    Ok (j, fid).

(** The part of the grant before anything is rotated or issued: the family, its user, its realm, the
    scopes and the time of the request.  The only write is the revocation of a reused family. *)
Definition refresh_checks (req : TokenRequest) (client : ClientJ) (cnf : option J) (rj fid : string)
    : M St (Tokens.TokenFamily (J := J) * User * PlanRealm * list string * N) :=
  let! found := read_tokens (Tokens.get_token_family fid) in
  let! family := require found invalid_refresh in
  let! _ := guard (negb (String.eqb (Tokens.tf_client_id family) (client_id client))
                   || negb (String.eqb (Tokens.tf_realm_id family) (c_realm_id client)))
              (Unauthorized "refresh token was not issued to authenticated client") in
  let! _ := guard (Tokens.tf_revoked family) (Unauthorized "refresh token family revoked") in
  let! now := now_seconds in
  let! _ := guard (family_deadline family <=? now) (Unauthorized "refresh token family expired") in
  let! alive := read (fun s => session_alive s family now) in
  let! _ := guard (negb alive) (Unauthorized "refresh token family session ended") in
  if negb (String.eqb (Tokens.current_refresh_hash family) (sha256_base64url rj)) then revoke_reused_family family
  else
    let! u := read (get_user_by_id (Tokens.tf_user_id family)) in
    let! user := require u (NotFound "user") in
    let! _ := guard (negb (String.eqb (u_realm_id user) (Tokens.tf_realm_id family)))
                (Unauthorized "refresh token user realm mismatch") in
    let! realm := require (find_plan state (Tokens.tf_realm_id family)) (NotFound ("realm " +:+ Tokens.tf_realm_id family)) in
    let! _ := guard (match Tokens.tf_scopes family with [] => true | _ => false end)
                (Unauthorized "refresh token scope is not established") in
    let! scopes := of_result (narrow_scopes (Tokens.tf_scopes family) (rq_scope req)) in
    let! _ := of_result (check_mtls_binding (Tokens.tf_sender_constraint family) cnf) in
    let! _ := check_dpop_binding family cnf in
    ret (family, user, realm, scopes, now).

Definition refresh_token_grant (req : TokenRequest) (client : ClientJ) (cnf : option J) : M St TokenResponse :=
  let! token := require (rq_refresh_token req) (BadRequest "refresh_token required") in
  let! claims := of_result (map_err (fun e => Crypto ("failed to decode refresh token: " +:+ e)) (decode_signature_only signer token)) in
  let! id := of_result (refresh_identity client claims) in
  let! checked := refresh_checks req client cnf id.1 id.2 in
  let '(family, user, realm, scopes, now) := checked in
  let deadline := family_deadline family in
  let ttl := token_ttl state (Tokens.tf_realm_id family) in
  let! aj := generate_jti in
  let! rj := generate_jti in
  let aud_ := match Tokens.tf_audience family with [] => [Tokens.tf_client_id family] | l => l end in
  let! _ := rotate_family family (c_realm_id client) (sha256_base64url id.1) (sha256_base64url rj) deadline in
  let! _ := write_tokens (fun saved => Tokens.create_access_token saved (refreshed_token family aj scopes aud_ cnf now deadline)) in
  let cnf' := or_else cnf (Tokens.tf_sender_constraint family) in
  let! access := format_access_token (pr_issuer realm) aj user (Tokens.tf_client_id family) (Tokens.tf_realm_id family) scopes
                   (refresh_claims family aud_ cnf' deadline) in
  let! refresh := sign_refresh_token (pr_issuer realm) rj user (Tokens.tf_client_id family) (Tokens.tf_realm_id family)
                    (Some (Tokens.tf_id family)) deadline in
  ret {| access_token := access; token_type := access_token_type_for_cnf cnf';
         expires_in := N.min (saturating_sub deadline now) (access_token_ttl_seconds ttl);
         refresh_token := Some refresh; id_token := None; tr_scope := Some (join " " scopes); issued_token_type := None |}.


(** * Tokens without a family (src/qid-oauth/src/endpoints/token_issue.rs, token_grant.rs) *)

Definition issue_access_token (issuer : string) (user : User) (cid realm : string) (scopes : list string)
    (c : TokenIssueClaims) : M St (string * N) :=
  let! now := now_seconds in
  let! aj := generate_jti in
  let ttl := token_ttl state realm in
  let! _ := write_tokens (fun saved => Tokens.create_access_token saved
    {| Tokens.jti := aj; Tokens.family_id := None; Tokens.at_user_id := u_id user; Tokens.at_client_id := cid;
       Tokens.at_realm_id := realm; Tokens.at_scopes := scopes; Tokens.at_audience := token_audience cid c;
       Tokens.at_resource := token_resource c; Tokens.at_authorization_details := ic_authorization_details c;
       Tokens.at_cnf := ic_cnf c; Tokens.at_auth_time := or_else (ic_auth_time c) (Some now); Tokens.at_acr := ic_acr c;
       Tokens.at_amr := token_amr c; Tokens.at_nonce := ic_nonce c; Tokens.at_sender_constraint := ic_cnf c;
       Tokens.token_format := access_token_format ttl; Tokens.at_expires_at := add64 now (access_token_ttl_seconds ttl);
       Tokens.at_revoked := false; Tokens.at_issued_at := now |}) in
  let! access := format_access_token issuer aj user cid realm scopes c in
  ret (access, access_token_ttl_seconds ttl).

(** [s.split(' ').filter(|part| !part.is_empty())] *)
Definition requested_audiences (o : option string) : list string :=
  match o with
  | Some v => List.filter (fun x => negb (is_empty_str x)) (split_on (Ascii.ascii_of_N 32) v)
  | None => []
  end.
Definition requested_scopes (o : option string) (default_ : string) : list string :=
  match o with Some v => split_on (Ascii.ascii_of_N 32) v | None => [default_] end.
Definition check_request_details (o : option J) : QidResult unit :=
  match o with Some d => validate_authorization_details d | None => Ok tt end.

Definition plain_claims (auds res : list string) (details cnf : option J) (at_ : option N) (acr : option string)
    (amr : option (list string)) (act : option J) : TokenIssueClaims :=
  {| ic_audience := Some auds; ic_resource := Some res; ic_authorization_details := details; ic_cnf := cnf;
     ic_auth_time := at_; ic_acr := acr; ic_amr := amr; ic_nonce := None; ic_act := act; ic_authorization_code := None;
     ic_access_token := None; ic_access_expires_at := None; ic_session_id := None |}.

(** The service-account table of src/qid-storage/src/file/service_account.rs. *)
Definition create_service_account (sa : ServiceAccount) : M St unit :=
  fun st =>
    if bool_decide (is_Some (service_accounts st !! sa_id sa))
       || existsb (fun a => String.eqb (sa_realm_id a) (sa_realm_id sa) && String.eqb (sa_client_id a) (sa_client_id sa))
            (values (service_accounts st))
    then (Err (Conflict "service account ID or realm/client already exists"), st)
    else (w_saved W (tick st),
          {| store := store st; service_accounts := <[sa_id sa := sa]> (service_accounts st); tick := S (tick st) |}).

Definition get_service_account_by_client_id (realm cid : string) : M St (option ServiceAccount) :=
  let! st := get_state in
  of_result (Tokens.unique_match
    (List.filter (fun a => String.eqb (sa_realm_id a) realm && String.eqb (sa_client_id a) cid) (values (service_accounts st)))
    "ambiguous service account realm/client identity; repair externally").

(** [match m.await { Ok(()) => ok, Err(Conflict) => conflict, Err(e) => Err(e) }] *)
Definition on_conflict {A} (m : M St unit) (ok : A) (conflict : QidError → M St A) : M St A :=
  fun st =>
    match m st with
    | (Ok _, st') => (Ok ok, st')
    | (Err (Conflict e), st') => conflict (Conflict e) st'
    | (Err e, st') => (Err e, st')
    end.

Definition with_sa_id (sa : ServiceAccount) (i : string) : ServiceAccount :=
  {| sa_id := i; sa_client_id := sa_client_id sa; sa_realm_id := sa_realm_id sa; description := description sa;
     sa_created_at := sa_created_at sa |}.

Definition ensure_service_account (realm cid : string) : M St ServiceAccount :=
  let! found := get_service_account_by_client_id realm cid in
  match found with
  | Some sa => ret sa
  | None =>
      let! now := now_seconds in
      let sa := {| sa_id := "service:" +:+ cid; sa_client_id := cid; sa_realm_id := realm; description := None;
                   sa_created_at := now |} in
      on_conflict (create_service_account sa) sa (fun _ =>
        let! existing := get_service_account_by_client_id realm cid in
        match existing with
        | Some e => ret e
        | None =>
            let sa2 := with_sa_id sa ("service2:" +:+ pretty (N.of_nat (String.length realm)) +:+ ":" +:+ realm +:+ ":" +:+ cid) in
            on_conflict (create_service_account sa2) sa2 (fun err =>
              let! again := get_service_account_by_client_id realm cid in
              require again err)
        end)
  end.

Definition plain_user (uid realm : string) (name : option string) : User :=
  {| u_id := uid; u_realm_id := realm; email := None; email_verified := false; display_name := name;
     failed_login_attempts := 0; locked_until := None; org := None |}.

Definition client_credentials_grant (req : TokenRequest) (client : ClientJ) (cnf : option J) : M St TokenResponse :=
  let cid := client_id client in
  let rid := c_realm_id client in
  let! realm := require (find_config state rid) (NotFound ("realm " +:+ rid)) in
  let! sa := ensure_service_account rid cid in
  let user := plain_user (sa_id sa) (sa_realm_id sa) (description sa) in
  let! stored := read (get_user_by_id (u_id user)) in
  let! _ := match stored with Some _ => ret tt | None => write (fun saved => create_user saved user) end in
  let scopes := requested_scopes (rq_scope req) (default_scope realm) in
  let res := option_list (rq_resource req) in
  let! _ := of_result (check_request_details (rq_authorization_details req)) in
  let! auds := of_result (resolve_token_audience realm (requested_audiences (rq_audience req)) res scopes cnf) in
  let! now := now_seconds in
  let! issued := issue_access_token (oc_issuer realm) user cid rid scopes
                   (plain_claims auds res (rq_authorization_details req) cnf (Some now) None None None) in
  let! _ := now_seconds in
  ret {| access_token := issued.1; token_type := access_token_type_for_cnf cnf; expires_in := issued.2;
         refresh_token := None; id_token := None; tr_scope := Some (join " " scopes); issued_token_type := None |}.

(** * Device and backchannel grants (src/qid-oauth/src/endpoints/mod.rs, device_flow.rs, ciba.rs) *)

Definition opt_is {A} (o : option A) (p : A → bool) : bool := match o with Some a => p a | None => false end.

Definition validate_grant_target (realm : OAuthRealmConfig) (req : TokenRequest) (cid : string)
    (res auds granted : list string) (cnf : option J) : QidResult (list string) :=
  let scopes := match rq_scope req with Some r => split_whitespace r | None => granted end in
  let effective := match auds with [] => [cid] | _ => auds end in
  if opt_is (rq_resource req) (fun r => negb (bool_decide (res = [r])))
     || opt_is (rq_audience req) (fun a => negb (bool_decide (split_whitespace a = effective)))
     || existsb (fun x => negb (str_in x granted)) scopes
  then Err (BadRequest "token request exceeds the approved target or scopes")
  else
    let? current := resolve_token_audience realm [] res scopes cnf in
    if negb (bool_decide (current = auds)) then Err (Unauthorized "approved target audience has changed") else Ok scopes.

Definition find_client_across_realms_with_messages (cid ambiguous unknown : string) : M St ClientJ :=
  let! found := read (find_clients_by_client_id (map oc_id (config_realms state)) cid) in
  match found with
  | [client] => ret client
  | [] => throw (Unauthorized unknown)
  | _ => throw (Unauthorized ambiguous)
  end.
Definition find_client_across_realms (cid : string) : M St ClientJ :=
  find_client_across_realms_with_messages cid "client realm is ambiguous" "unknown client".

Record DeviceAuthorizationRequest : Type := {
  dr_client_id : string; dr_scope : option string; dr_resource : option string
}.
Record DeviceAuthorizationResponse : Type := {
  da_device_code : string; da_user_code : string; verification_uri : string; verification_uri_complete : string;
  da_expires_in : N; interval : N
}.

Definition random_bytes (n : nat) : M St (list N) := fun st => (Ok (w_random W (tick st) n), bump st).
Definition new_device_code : M St string := let! secret := random_bytes 16 in ret ("dc_" +:+ base64url secret).

Definition CROCKFORD : string := "0123456789ABCDEFGHJKMNPQRSTVWXYZ".
Definition crockford_char (b : N) : Ascii.ascii := default Ascii.zero (String.get (N.to_nat (b mod 32)) CROCKFORD).
Definition new_user_code : M St string :=
  let! raw := random_bytes 8 in ret ("QID-" +:+ String.string_of_list_ascii (map crockford_char raw)).

(** [str::trim_end_matches(char)] *)
Fixpoint trim_end_char (c : Ascii.ascii) (s : string) : string :=
  match s with
  | EmptyString => EmptyString
  | String a s' =>
      let r := trim_end_char c s' in
      if is_empty_str r && Ascii.eqb a c then EmptyString else String a r
  end.

Definition feature (rid : string) (p : OAuthRealmConfig → bool) : bool := opt_is (find_config state rid) p.

Definition device_authorization (req : DeviceAuthorizationRequest) : M St DeviceAuthorizationResponse :=
  let! client := find_client_across_realms (dr_client_id req) in
  let! realm := require (find_plan state (c_realm_id client))
                  (Config ("realm " +:+ c_realm_id client +:+ " not found for device client")) in
  let! _ := guard (negb (feature (pr_id realm) device_authorization_enabled)) (BadRequest "device authorization is disabled") in
  let! _ := guard (negb (str_in "urn:ietf:params:oauth:grant-type:device_code" (grant_types (body (c_body client)))))
              (Unauthorized "device grant not allowed for client") in
  let! code := new_device_code in
  let! ucode := new_user_code in
  let uri := trim_end_char (Ascii.ascii_of_N 47) (public_base_url state) +:+ device_verification_path state in
  let scopes := requested_scopes (Some (default (oauth_default_scope realm) (dr_scope req))) "" in
  let! now := now_seconds in
  let ttl := device_code_ttl_seconds (token_ttl state (c_realm_id client)) in
  let res := option_list (dr_resource req) in
  let! config := of_result (oauth_realm_config state (pr_id realm)) in
  let! auds := of_result (resolve_authorization_audience config [] res scopes) in
  let! _ := write_tokens (fun saved => Tokens.store_device_authorization_grant saved
    {| Tokens.device_code_hash := sha256_base64url code; Tokens.user_code := ucode; Tokens.dg_client_id := dr_client_id req;
       Tokens.dg_realm_id := pr_id realm; Tokens.dg_scopes := scopes; Tokens.dg_resource := res; Tokens.dg_audience := auds;
       Tokens.dg_user_id := None; Tokens.dg_expires_at := add64 now ttl; Tokens.dg_approved_at := None;
       Tokens.dg_consumed := false; Tokens.dg_last_poll_at := None; Tokens.dg_poll_interval_seconds := 5;
       Tokens.dg_created_at := now |}) in
  ret {| da_device_code := code; da_user_code := ucode; verification_uri := uri;
         verification_uri_complete := uri +:+ "?user_code=" +:+ ucode; da_expires_in := ttl; interval := 5 |}.

(** The session cookie of a request, [None] when the header is absent or not text. *)
Fixpoint device_cookie (name : string) (pairs : list string) : option string :=
  match pairs with
  | [] => None
  | segment :: rest =>
      match split_once (Ascii.ascii_of_N 61) (Utf8.trim_str segment) with
      | Some (k, v) => if String.eqb (Utf8.trim_str k) name then Some (Utf8.trim_str v) else device_cookie name rest
      | None => device_cookie name rest
      end
  end.

Definition approve_device_authorization (ucode : string) (cookie_header : option string) : M St unit :=
  let! found := read_tokens (Tokens.get_device_authorization_grant_by_user_code ucode) in
  let! g := require found (NotFound "device authorization grant") in
  let! realm := require (find_plan state (Tokens.dg_realm_id g)) (Config ("realm " +:+ Tokens.dg_realm_id g +:+ " not found")) in
  let! sid := require (cookie_header ≫= fun h => device_cookie (pr_cookie_name realm) (split_on (Ascii.ascii_of_N 59) h))
                (Unauthorized "authentication required: missing session cookie") in
  let! x := read (get_session sid) in
  let! session := require x (Unauthorized "invalid or expired session") in
  let! now := now_seconds in
  let! _ := guard (negb (is_active session now)) (Unauthorized "session is no longer active") in
  let! u := read (get_user_by_id (s_user_id session)) in
  let! user := require u (NotFound "user") in
  let! _ := guard (negb (String.eqb (u_realm_id user) (Tokens.dg_realm_id g)))
              (Unauthorized "approval subject does not belong to the same realm as the device authorization grant") in
  let! t := now_seconds in
  write_tokens (fun saved => Tokens.approve_device_authorization_grant saved ucode (s_user_id session) t).

Definition device_authorization_approve (ucode : string) (cookie_header : option string) : M St unit :=
  if negb (existsb (fun r => feature (oc_id r) device_authorization_enabled) (config_realms state))
  then throw (BadRequest "device authorization is disabled")
  else approve_device_authorization ucode cookie_header.

Definition MAX_POLL_INTERVAL_SECONDS : N := 60.

(** Whether a poll comes before the interval is over. *)
Definition early_poll (last : option N) (pause now : N) : bool :=
  opt_is last (fun t => now <? saturating_add64 t pause).

Definition enforce_device_poll_interval (h : string) (g : Tokens.DeviceAuthorizationGrant) (now : N) : M St unit :=
  let pause := Tokens.dg_poll_interval_seconds g in
  let next := if early_poll (Tokens.dg_last_poll_at g) pause now
              then N.min (saturating_add64 pause 5) MAX_POLL_INTERVAL_SECONDS else pause in
  let! _ := write_tokens (fun saved => Tokens.record_device_authorization_poll saved h now next) in
  guard (early_poll (Tokens.dg_last_poll_at g) pause now) (Unauthorized "slow_down").

Definition device_code_grant (req : TokenRequest) (cnf : option J) : M St TokenResponse :=
  let! code := require (device_code req) (BadRequest "device_code required") in
  let h := sha256_base64url code in
  let! found := read_tokens (Tokens.get_device_authorization_grant h) in
  let! g := require found (Unauthorized "invalid device_code") in
  let! now := now_seconds in
  let! _ := guard (Tokens.dg_expires_at g <=? now) (Unauthorized "expired_token") in
  let! _ := guard (Tokens.dg_consumed g) (Unauthorized "invalid device_code") in
  let! _ := guard (negb (bool_decide (rq_client_id req = Some (Tokens.dg_client_id g))))
              (Unauthorized "client_id does not match device_code") in
  let! _ := match Tokens.dg_user_id g with None => enforce_device_poll_interval h g now | Some _ => ret tt end in
  let! uid := require (Tokens.dg_user_id g) (Unauthorized "authorization_pending") in
  let! u := read (get_user_by_id uid) in
  let! user := require u (NotFound "user") in
  let! _ := guard (negb (String.eqb (u_realm_id user) (Tokens.dg_realm_id g)))
              (Unauthorized "user realm does not match device authorization grant realm") in
  let! realm := require (find_plan state (Tokens.dg_realm_id g)) (NotFound ("realm " +:+ Tokens.dg_realm_id g)) in
  let! _ := guard (negb (feature (Tokens.dg_realm_id g) device_authorization_enabled)) (BadRequest "device authorization is disabled") in
  let! config := of_result (oauth_realm_config state (Tokens.dg_realm_id g)) in
  let! scopes := of_result (validate_grant_target config req (Tokens.dg_client_id g) (Tokens.dg_resource g) (Tokens.dg_audience g)
                   (Tokens.dg_scopes g) cnf) in
  let! _ := write_tokens (fun saved => Tokens.consume_device_authorization_grant saved h) in
  let! pair := issue_token_pair (pr_issuer realm) user (Tokens.dg_client_id g) (Tokens.dg_realm_id g) scopes
                 (plain_claims (Tokens.dg_audience g) (Tokens.dg_resource g) None cnf (Some now) None None None) in
  ret {| access_token := tp_access_token pair; token_type := access_token_type_for_cnf cnf; expires_in := tp_expires_in pair;
         refresh_token := Some (tp_refresh_token pair); id_token := None; tr_scope := Some (join " " scopes);
         issued_token_type := None |}.


(** * Client authentication (src/qid-oauth/src/endpoints/token.rs) *)

Record BasicClientAuth : Type := { ba_client_id : string; ba_client_secret : string }.

Definition client_secret_hash_of (secret : string) : string := sha256_base64url ("qid-client-secret-v1:" +:+ secret).

Definition verify_client_secret (client : ClientJ) (presented : option string) : QidResult unit :=
  let? secret := ok_or presented (Unauthorized "client_secret is required") in
  if is_empty_str secret then Err (Unauthorized "client_secret is required")
  else
    let? expected := ok_or (client_secret_hash (body (c_body client))) (Unauthorized "client secret is not configured") in
    if negb (constant_time_eq expected (client_secret_hash_of secret)) then Err (Unauthorized "invalid client_secret")
    else Ok tt.

Definition verify_mtls_thumbprint (client : ClientJ) (presented : option string) : QidResult unit :=
  let? thumbprint := ok_or presented (Unauthorized "mTLS client certificate is required") in
  match mtls_certificate_thumbprints (body (c_body client)) with
  | [] => Err (Unauthorized "mTLS certificate thumbprint is not configured")
  | allowed =>
      if negb (existsb (fun expected => constant_time_eq expected thumbprint) allowed)
      then Err (Unauthorized "mTLS certificate thumbprint is not allowed") else Ok tt
  end.

Definition is_supported_grant_type (g : string) : bool :=
  str_in g ["authorization_code"; "client_credentials"; "refresh_token";
            "urn:ietf:params:oauth:grant-type:token-exchange"; "urn:ietf:params:oauth:grant-type:jwt-bearer";
            "urn:ietf:params:oauth:grant-type:saml2-bearer"; "urn:ietf:params:oauth:grant-type:device_code";
            "urn:openid:params:grant-type:ciba"].

(** A check that reads its own replay cache: it takes the moment of the call. *)
Definition at_tick {A} (f : nat → QidResult A) : M St A := fun st => (f (tick st), bump st).

Definition confidential_auth (req : TokenRequest) (client : ClientJ) (basic : option BasicClientAuth) (x5t : option string)
    (expected : string) : M St unit :=
  let! _ := of_result (if str_in expected ["client_secret_basic"; "client_secret_post"]
                       then verify_client_secret client (if String.eqb expected "client_secret_basic"
                                                         then ba_client_secret <$> basic else rq_client_secret req)
                       else Ok tt) in
  let! _ := of_result (if str_in expected ["tls_client_auth"; "self_signed_tls_client_auth"]
                       then verify_mtls_thumbprint client x5t else Ok tt) in
  if String.eqb expected "private_key_jwt" then
    let! realm := of_result (oauth_realm_config state (c_realm_id client)) in
    let! _ := guard (negb (private_key_jwt_enabled realm)) (BadRequest "private_key_jwt is disabled for client realm") in
    let! a := require (client_assertion req) (Unauthorized "client_assertion is required") in
    at_tick (fun n => extract_private_key_jwt V n a client (oc_issuer realm))
  else ret tt.

Definition validate_client_auth_method (req : TokenRequest) (client : ClientJ) (used : string)
    (basic : option BasicClientAuth) (x5t : option string) : M St unit :=
  let b := body (c_body client) in
  let! _ := guard (is_empty_str (client_id client)) (BadRequest "client_id required") in
  let! _ := guard (negb (str_in (grant_type req) (grant_types b))) (Unauthorized "grant type not allowed for client") in
  let! _ := guard (bool_decide (is_Some (rq_client_secret req)) && String.eqb used "client_secret_basic")
              (Unauthorized "multiple client authentication methods are not allowed") in
  let! _ := guard (bool_decide (is_Some (client_assertion req)) && negb (String.eqb used "private_key_jwt"))
              (Unauthorized "invalid client assertion authentication") in
  match client_type b with
  | Public =>
      guard (negb (String.eqb (token_endpoint_auth_method b) "none") || negb (String.eqb used "none"))
        (Unauthorized "public client must not use confidential authentication")
  | Confidential =>
      let expected := token_endpoint_auth_method b in
      let! _ := guard (negb (String.eqb expected used)) (Unauthorized ("confidential client must authenticate with " +:+ expected)) in
      confidential_auth req client basic x5t expected
  end.

(** * Backchannel authentication (src/qid-oauth/src/endpoints/ciba.rs) *)

Record BackchannelAuthenticationRequest : Type := {
  br_client_id : string; br_client_secret : option string; br_scope : option string; br_resource : option string;
  br_login_hint : string; br_binding_message : option string
}.
Record BackchannelAuthenticationResponse : Type := { ba_auth_req_id : string; ba_expires_in : N; ba_interval : N }.

Definition new_auth_req_id : M St string := fun st => (Ok ("ciba_" +:+ w_ulid W (tick st)), bump st).

Definition create_backchannel_authentication_grant (req : BackchannelAuthenticationRequest)
    : M St BackchannelAuthenticationResponse :=
  let! client := find_client_across_realms_with_messages (br_client_id req) "CIBA client realm is ambiguous" "unknown client" in
  let b := body (c_body client) in
  let! realm := require (find_plan state (c_realm_id client)) (Config ("realm " +:+ c_realm_id client +:+ " not found for CIBA client")) in
  let! _ := guard (negb (feature (pr_id realm) ciba_enabled)) (BadRequest "CIBA is disabled") in
  let! _ := guard (match client_type b with Confidential => false | Public => true end)
              (Unauthorized "CIBA requires a confidential client") in
  let! _ := guard (negb (str_in "urn:openid:params:grant-type:ciba" (grant_types b))) (Unauthorized "CIBA grant not allowed for client") in
  let! _ := guard (negb (String.eqb (token_endpoint_auth_method b) "client_secret_post"))
              (Unauthorized "CIBA client must authenticate with client_secret_post") in
  let! _ := of_result (verify_client_secret client (br_client_secret req)) in
  let! st := get_state in
  let! found := of_result (get_user_by_email (pr_id realm) (br_login_hint req) (store st)) in
  let! user := require found (Unauthorized "unknown login_hint") in
  let! code := new_auth_req_id in
  let! now := now_seconds in
  let scopes := requested_scopes (Some (default (oidc_default_scope realm) (br_scope req))) "" in
  let res := option_list (br_resource req) in
  let! config := of_result (oauth_realm_config state (pr_id realm)) in
  let! auds := of_result (resolve_authorization_audience config [] res scopes) in
  let! _ := write_tokens (fun saved => Tokens.store_backchannel_authentication_grant saved
    {| Tokens.auth_req_id_hash := sha256_base64url code; Tokens.bg_client_id := br_client_id req;
       Tokens.bg_realm_id := pr_id realm; Tokens.login_hint := br_login_hint req; Tokens.binding_message := br_binding_message req;
       Tokens.bg_scopes := scopes; Tokens.bg_resource := res; Tokens.bg_audience := auds; Tokens.bg_user_id := Some (u_id user);
       Tokens.bg_expires_at := add64 now 600; Tokens.bg_approved_at := None; Tokens.bg_consumed := false;
       Tokens.bg_last_poll_at := None; Tokens.bg_poll_interval_seconds := 5; Tokens.bg_created_at := now |}) in
  ret {| ba_auth_req_id := code; ba_expires_in := 600; ba_interval := 5 |}.

(** [splitn(2, '=')]: a segment without [=] that carries the name ends the search. *)
Fixpoint ciba_cookie (name : string) (segments : list string) : option string :=
  match segments with
  | [] => None
  | segment :: rest =>
      match split_once (Ascii.ascii_of_N 61) segment with
      | Some (k, v) => if String.eqb (Utf8.trim_str k) name then Some (Utf8.trim_str v) else ciba_cookie name rest
      | None => if String.eqb (Utf8.trim_str segment) name then None else ciba_cookie name rest
      end
  end.

Definition authorize_ciba_browser_session (cookie_header : option string) (g : Tokens.BackchannelAuthenticationGrant)
    (approver : string) : M St unit :=
  let! u := read (get_user_by_id approver) in
  let! user := require u (NotFound "user") in
  let! _ := guard (negb (String.eqb (u_realm_id user) (Tokens.bg_realm_id g)))
              (Unauthorized "approval user realm does not match CIBA grant") in
  let! realm := require (find_plan state (Tokens.bg_realm_id g))
                  (Config ("realm '" +:+ Tokens.bg_realm_id g +:+ "' not found for CIBA grant")) in
  let! sid := require (cookie_header ≫= fun h => ciba_cookie (pr_cookie_name realm) (split_on (Ascii.ascii_of_N 59) h))
                (Unauthorized "authentication required: missing session cookie") in
  let! x := read (get_session sid) in
  let! session := require x (Unauthorized "invalid or expired session") in
  let! now := now_seconds in
  let! _ := guard (negb (is_active session now)) (Unauthorized "session is no longer active") in
  let! _ := guard (negb (String.eqb (s_user_id session) approver)) (Unauthorized "session user does not match approval user") in
  guard (negb (String.eqb (s_realm_id session) (Tokens.bg_realm_id g))) (Unauthorized "session realm does not match CIBA grant").

(** The approval, up to the notification of the client in ping mode. *)
Definition backchannel_authentication_approve (req_id approver : string) (cookie_header : option string) : M St unit :=
  let h := sha256_base64url req_id in
  let! found := read_tokens (Tokens.get_backchannel_authentication_grant h) in
  let! g := require found (NotFound "backchannel authentication grant") in
  let! _ := guard (negb (bool_decide (Tokens.bg_user_id g = Some approver))) (Unauthorized "approval subject does not match login_hint") in
  let! _ := authorize_ciba_browser_session cookie_header g approver in
  let! now := now_seconds in
  write_tokens (fun saved => Tokens.approve_backchannel_authentication_grant saved h approver now).

Definition enforce_ciba_poll_interval (h : string) (g : Tokens.BackchannelAuthenticationGrant) (now : N) : M St unit :=
  let pause := Tokens.bg_poll_interval_seconds g in
  let next := if early_poll (Tokens.bg_last_poll_at g) pause now then saturating_add64 pause 5 else pause in
  let! _ := write_tokens (fun saved => Tokens.record_backchannel_authentication_poll saved h now next) in
  guard (early_poll (Tokens.bg_last_poll_at g) pause now) (Unauthorized "slow_down").

Definition ciba_id_claims (at_ : option N) (cnf : option J) : TokenIssueClaims :=
  {| ic_audience := None; ic_resource := None; ic_authorization_details := None; ic_cnf := cnf; ic_auth_time := at_;
     ic_acr := Some "urn:qid:acr:ciba"; ic_amr := Some ["ciba"]; ic_nonce := None; ic_act := None;
     ic_authorization_code := None; ic_access_token := None; ic_access_expires_at := None; ic_session_id := None |}.

Definition ciba_grant (req : TokenRequest) (cnf : option J) : M St TokenResponse :=
  let! rid := require (auth_req_id req) (BadRequest "auth_req_id required") in
  let h := sha256_base64url rid in
  let! found := read_tokens (Tokens.get_backchannel_authentication_grant h) in
  let! g := require found (Unauthorized "invalid auth_req_id") in
  let! now := now_seconds in
  let! _ := guard (Tokens.bg_expires_at g <=? now) (Unauthorized "expired_token") in
  let! _ := guard (Tokens.bg_consumed g) (Unauthorized "invalid auth_req_id") in
  let! _ := guard (negb (bool_decide (rq_client_id req = Some (Tokens.bg_client_id g))))
              (Unauthorized "client_id does not match auth_req_id") in
  let! _ := match Tokens.bg_approved_at g with
            | None => let! _ := enforce_ciba_poll_interval h g now in throw (Unauthorized "authorization_pending")
            | Some _ => ret tt
            end in
  let! uid := require (Tokens.bg_user_id g) (Unauthorized "authorization_pending") in
  let! u := read (get_user_by_id uid) in
  let! user := require u (NotFound "user") in
  let! _ := guard (negb (String.eqb (u_realm_id user) (Tokens.bg_realm_id g))) (Unauthorized "CIBA grant user realm mismatch") in
  let! realm := require (find_plan state (Tokens.bg_realm_id g)) (NotFound ("realm " +:+ Tokens.bg_realm_id g)) in
  let! _ := guard (negb (feature (Tokens.bg_realm_id g) ciba_enabled)) (BadRequest "CIBA is disabled") in
  let! config := of_result (oauth_realm_config state (Tokens.bg_realm_id g)) in
  let! scopes := of_result (validate_grant_target config req (Tokens.bg_client_id g) (Tokens.bg_resource g) (Tokens.bg_audience g)
                   (Tokens.bg_scopes g) cnf) in
  let! _ := write_tokens (fun saved => Tokens.consume_backchannel_authentication_grant saved h) in
  let! pair := issue_token_pair (pr_issuer realm) user (Tokens.bg_client_id g) (Tokens.bg_realm_id g) scopes
                 (plain_claims (Tokens.bg_audience g) (Tokens.bg_resource g) None cnf (Tokens.bg_approved_at g)
                    (Some "urn:qid:acr:ciba") (Some ["ciba"]) None) in
  let! c := read (get_client_by_client_id (Tokens.bg_realm_id g) (Tokens.bg_client_id g)) in
  let! client := require c (NotFound ("client " +:+ Tokens.bg_client_id g)) in
  let sub_override :=
    if bool_decide (subject_type (body (c_body client)) = Some "pairwise")
    then Some (compute_pairwise_sub (u_id user) (sector_identifier_for_client client) (pr_issuer realm)) else None in
  let! idt := issue_id_token (pr_issuer realm) user (Tokens.bg_client_id g) (Tokens.bg_realm_id g) scopes
                (ciba_id_claims (Tokens.bg_approved_at g) cnf) sub_override in
  ret {| access_token := tp_access_token pair; token_type := access_token_type_for_cnf cnf; expires_in := tp_expires_in pair;
         refresh_token := Some (tp_refresh_token pair); id_token := Some idt; tr_scope := Some (join " " scopes);
         issued_token_type := None |}.


(** * Reading and revoking tokens (src/qid-oauth/src/endpoints/introspect.rs, revoke.rs) *)

Record DecodedAccessToken : Type := {
  dt_user_id : string; dt_client_id : string; dt_realm_id : string; dt_exp : N; dt_scope : string; dt_cnf : option J;
  dt_aud : list string; dt_resource : list string; dt_auth_time : option N; dt_acr : option string; dt_amr : list string;
  dt_nonce : option string; dt_token_format : Tokens.TokenFormat; dt_act : option J
}.

(** The identifier a presented token carries, with its actor. *)
Definition token_identifier (token : string) : QidResult (string * option J) :=
  match decode_opaque_access_token token with
  | Some j => Ok (j, None)
  | None =>
      let? claims := map_err (fun e => Crypto ("failed to decode token: " +:+ e)) (decode_signature_only signer token) in
      let? j := ok_or (jti claims) (Crypto "token missing jti") in
      Ok (j, extra claims !! "act")
  end.

Definition decoded_of (t : Tokens.AccessToken (J := J)) (act : option J) : DecodedAccessToken :=
  {| dt_user_id := Tokens.at_user_id t; dt_client_id := Tokens.at_client_id t; dt_realm_id := Tokens.at_realm_id t;
     dt_exp := Tokens.at_expires_at t; dt_scope := join " " (Tokens.at_scopes t); dt_cnf := Tokens.at_cnf t;
     dt_aud := Tokens.at_audience t; dt_resource := Tokens.at_resource t; dt_auth_time := Tokens.at_auth_time t;
     dt_acr := Tokens.at_acr t; dt_amr := Tokens.at_amr t; dt_nonce := Tokens.at_nonce t;
     dt_token_format := Tokens.token_format t; dt_act := act |}.

Definition decode_access_token (token : string) : M St DecodedAccessToken :=
  let! id := of_result (token_identifier token) in
  let! found := read_tokens (Tokens.get_access_token id.1) in
  let! t := require found (Unauthorized "token not found") in
  let! now := now_seconds in
  let! _ := guard (Tokens.at_revoked t || (Tokens.at_expires_at t <=? now)) (Unauthorized "token expired or revoked") in
  ret (decoded_of t id.2).

Record IntrospectRequest : Type := {
  ir_token : string; ir_response_format : option string; ir_client_id : option string; ir_client_secret : option string;
  ir_audience : option string; ir_resource : option string
}.

Definition verify_introspection_client_secret (client : ClientJ) (used : string) (presented : option string) : QidResult unit :=
  let b := body (c_body client) in
  match client_type b with
  | Public => Err (Unauthorized "introspection client must be confidential")
  | Confidential =>
      if negb (String.eqb (token_endpoint_auth_method b) used)
      then Err (Unauthorized ("introspection client must authenticate with " +:+ token_endpoint_auth_method b))
      else if negb (str_in used ["client_secret_basic"; "client_secret_post"])
      then Err (Unauthorized "introspection client authentication method is not supported")
      else verify_client_secret client presented
  end.

Definition authenticate_introspection_client (basic : option BasicClientAuth) (req : IntrospectRequest) : M St ClientJ :=
  let! presented :=
    match basic with
    | Some a => ret (ba_client_id a, Some (ba_client_secret a), "client_secret_basic")
    | None =>
        let! cid := require (ir_client_id req) (Unauthorized "client_id is required for introspection") in
        ret (cid, ir_client_secret req, "client_secret_post")
    end in
  let '(cid, secret, used) := presented in
  let! _ := guard (bool_decide (is_Some (ir_client_secret req)) && String.eqb used "client_secret_basic")
              (Unauthorized "multiple client authentication methods are not allowed") in
  let! client := find_client_across_realms_with_messages cid "introspection client realm is ambiguous"
                   "unknown introspection client for token realm" in
  let! _ := of_result (verify_introspection_client_secret client used secret) in
  ret client.

Definition token_targets_resource_server (d : DecodedAccessToken) (s : OAuthResourceServerConfig) : bool :=
  existsb (fun a => String.eqb a (rs_audience s)) (dt_aud d) || existsb (fun r => str_in r (resources s)) (dt_resource d).

Definition select_introspection_resource_server (realm : OAuthRealmConfig) (req : IntrospectRequest) (d : DecodedAccessToken)
    : option OAuthResourceServerConfig :=
  let servers := resource_servers realm in
  match ir_audience req, ir_resource req with
  | Some a, Some r => List.find (fun s => String.eqb (rs_audience s) a && str_in r (resources s)) servers
  | Some a, None => List.find (fun s => String.eqb (rs_audience s) a) servers
  | None, Some r => List.find (fun s => str_in r (resources s)) servers
  | None, None =>
      match List.filter (token_targets_resource_server d) servers with
      | [selected] => Some selected
      | _ => None
      end
  end.

Definition filter_decoded_for_resource_server (d : DecodedAccessToken) (s : OAuthResourceServerConfig) : option DecodedAccessToken :=
  let with_scope sc :=
    {| dt_user_id := dt_user_id d; dt_client_id := dt_client_id d; dt_realm_id := dt_realm_id d; dt_exp := dt_exp d;
       dt_scope := sc; dt_cnf := dt_cnf d; dt_aud := List.filter (fun a => String.eqb a (rs_audience s)) (dt_aud d);
       dt_resource := List.filter (fun r => str_in r (resources s)) (dt_resource d); dt_auth_time := dt_auth_time d;
       dt_acr := dt_acr d; dt_amr := dt_amr d; dt_nonce := dt_nonce d; dt_token_format := dt_token_format d;
       dt_act := dt_act d |} in
  match rs_scopes s with
  | [] => Some (with_scope (dt_scope d))
  | _ =>
      match List.filter (fun x => str_in x (rs_scopes s)) (split_whitespace (dt_scope d)) with
      | [] => None
      | filtered => Some (with_scope (join " " filtered))
      end
  end.

(** The answers of the endpoint; the signed form of an active answer carries the same claims. *)
Inductive IntrospectReply : Type := Inactive | Active (d : DecodedAccessToken) (jwt : bool).

Definition introspect_decoded (caller : ClientJ) (req : IntrospectRequest) (d : DecodedAccessToken) : QidResult IntrospectReply :=
  match find_config state (dt_realm_id d) with
  | None => Ok Inactive
  | Some realm =>
      let jwt := bool_decide (ir_response_format req = Some "jwt") in
      if negb (String.eqb (c_realm_id caller) (dt_realm_id d)) then Err (Unauthorized "unknown introspection client for token realm")
      else if negb (introspection_enabled realm) then Err (BadRequest "introspection is disabled for token realm")
      else if jwt && negb (introspection_jwt_response realm) then Err (BadRequest "jwt introspection response is disabled")
      else match resource_servers realm with
      | [] => Err (Unauthorized "introspection is not configured for token realm")
      | _ =>
          match select_introspection_resource_server realm req d with
          | None => Ok Inactive
          | Some server =>
              if negb (str_in (client_id caller) (introspection_client_ids server))
              then Err (Unauthorized "client is not allowed to introspect this resource server")
              else if negb (token_targets_resource_server d server) then Ok Inactive
              else match filter_decoded_for_resource_server d server with
              | None => Ok Inactive
              | Some d' => Ok (Active d' jwt)
              end
          end
      end
  end.

(** [introspect], behind its rate limiter. *)
Definition introspect (basic : option BasicClientAuth) (req : IntrospectRequest) : M St IntrospectReply :=
  if negb (existsb introspection_enabled (config_realms state)) then throw (BadRequest "introspection is disabled")
  else
    let! caller := authenticate_introspection_client basic req in
    fun st =>
      match decode_access_token (ir_token req) st with
      | (Ok d, st') => (introspect_decoded caller req d, st')
      | (Err _, st') => (Ok Inactive, st')
      end.

Record RevokeRequest : Type := {
  rv_token : string; token_type_hint : option string; rv_client_id : option string; rv_client_secret : option string
}.

Definition authenticate_revocation_client (basic : option BasicClientAuth) (req : RevokeRequest) : M St ClientJ :=
  let! presented :=
    match basic with
    | Some a => ret (ba_client_id a, Some (ba_client_secret a), "client_secret_basic")
    | None =>
        let! cid := require (rv_client_id req) (Unauthorized "client_id is required for revocation") in
        ret (cid, rv_client_secret req,
             if bool_decide (is_Some (rv_client_secret req)) then "client_secret_post" else "none")
    end in
  let '(cid, secret, used) := presented in
  let! _ := guard (bool_decide (is_Some (rv_client_secret req)) && String.eqb used "client_secret_basic")
              (Unauthorized "multiple client authentication methods are not allowed") in
  let! client := find_client_across_realms_with_messages cid "revocation client realm is ambiguous" "unknown client" in
  let b := body (c_body client) in
  let! _ :=
    match client_type b with
    | Public =>
        guard (negb (String.eqb used "none") || negb (String.eqb (token_endpoint_auth_method b) "none"))
          (Unauthorized "public revocation client must not use confidential authentication")
    | Confidential =>
        let! _ := guard (negb (String.eqb (token_endpoint_auth_method b) used))
                    (Unauthorized ("revocation client must authenticate with " +:+ token_endpoint_auth_method b)) in
        let! _ := guard (negb (str_in used ["client_secret_basic"; "client_secret_post"]))
                    (Unauthorized "revocation client authentication method is not supported") in
        of_result (verify_client_secret client secret)
    end in
  ret client.

Definition revoke_access_token_if_owned (j : string) (client : ClientJ) : M St bool :=
  let! found := read_tokens (Tokens.get_access_token j) in
  match found with
  | None => ret false
  | Some t =>
      if negb (String.eqb (Tokens.at_client_id t) (client_id client)) || negb (String.eqb (Tokens.at_realm_id t) (c_realm_id client))
      then ret false
      else let! _ := write_tokens (fun saved => Tokens.revoke_access_token saved j (c_realm_id client)) in ret true
  end.

Definition revoke_refresh_token_family_if_owned (claims : JwtClaims) (client : ClientJ) : M St bool :=
  if negb (opt_is (aud claims) (fun a => audience_contains a (client_id client))) then ret false
  else
    match extra claims !! "family_id" ≫= as_str with
    | None => ret false
    | Some fid =>
        let! found := read_tokens (Tokens.get_token_family fid) in
        match found with
        | None => ret false
        | Some f =>
            if negb (String.eqb (Tokens.tf_client_id f) (client_id client)) || negb (String.eqb (Tokens.tf_realm_id f) (c_realm_id client))
            then ret false
            else let! _ := write_tokens (fun saved => Tokens.revoke_token_family saved fid (Tokens.tf_realm_id f)) in ret true
        end
    end.

(** [if let Some(jti) = j && revoke_access_token_if_owned(jti)? { return Ok(true) }; rest] *)
Definition revoke_or (j : option string) (client : ClientJ) (rest : M St bool) : M St bool :=
  match j with
  | Some x => let! done_ := revoke_access_token_if_owned x client in if done_ then ret true else rest
  | None => rest
  end.

Definition handle_revoke (basic : option BasicClientAuth) (req : RevokeRequest) : M St bool :=
  let! client := authenticate_revocation_client basic req in
  let! _ := guard (negb (feature (c_realm_id client) revocation_enabled)) (BadRequest "revocation is disabled") in
  revoke_or (decode_opaque_access_token (rv_token req)) client
    match decode_signature_only signer (rv_token req) with
    | Err _ => ret false
    | Ok claims => revoke_or (jti claims) client (revoke_refresh_token_family_if_owned claims client)
    end.


(** * Token exchange and assertion grants (src/qid-oauth/src/endpoints/token.rs) *)

Definition ACCESS_TOKEN_TYPE : string := "urn:ietf:params:oauth:token-type:access_token".
Definition JWT_TYPE : string := "urn:ietf:params:oauth:token-type:jwt".
Definition SAML2_TYPE : string := "urn:ietf:params:oauth:token-type:saml2".
Definition SAML_UNSPECIFIED_ACR : string := "urn:oasis:names:tc:SAML:2.0:ac:classes:unspecified".

(** [oauth_jwt_subject_id], [json_of] printing the three strings as a JSON array. *)
Context (json_of : list string → string).
Definition oauth_jwt_subject_id (realm issuer subject : string) : string :=
  "jwt:v1:" +:+ sha256_base64url ("qid:oauth:jwt-subject:v1" +:+ String Ascii.zero (json_of [realm; issuer; subject])).

(** The subject of the new token and what it inherits. *)
Record Subject : Type := {
  sj_user : User; sj_cnf : option J; sj_auth_time : option N; sj_acr : option string; sj_amr : list string; sj_act : option J
}.
Definition plain_subject (u : User) (cnf : option J) : Subject :=
  {| sj_user := u; sj_cnf := cnf; sj_auth_time := None; sj_acr := None; sj_amr := []; sj_act := None |}.
Definition with_act (s : Subject) (act : option J) : Subject :=
  {| sj_user := sj_user s; sj_cnf := sj_cnf s; sj_auth_time := sj_auth_time s; sj_acr := sj_acr s; sj_amr := sj_amr s;
     sj_act := act |}.

Definition jwt_subject (grant : string) (client : ClientJ) (realm : PlanRealm) (material : string) : M St Subject :=
  let! now := now_seconds in
  let! a := at_tick (fun n => validate_jwt_bearer_assertion V n client (pr_issuer realm) material now) in
  ret (plain_subject (plain_user (oauth_jwt_subject_id (pr_id realm) (va_issuer a) (va_subject a)) (pr_id realm)
                        (Some (grant +:+ " subject from " +:+ va_issuer a))) (va_cnf a)).

Definition saml_subject (grant : string) (realm : PlanRealm) (material : string) : M St Subject :=
  let! a := at_tick (fun n => validate_saml_bearer_assertion V n (pr_id realm) material) in
  ret {| sj_user := plain_user (ss_id a) (pr_id realm) (Some (grant +:+ " subject from " +:+ ss_issuer a)); sj_cnf := None;
         sj_auth_time := ss_auth_time a; sj_acr := Some SAML_UNSPECIFIED_ACR; sj_amr := ["saml"]; sj_act := None |}.

Definition validate_token_exchange_actor (req : TokenRequest) (rid : string) : M St (option J) :=
  match actor_token req with
  | None =>
      let! _ := guard (bool_decide (is_Some (actor_token_type req)))
                  (BadRequest "actor_token required when actor_token_type is present") in
      ret None
  | Some actor =>
      let! ty := require (actor_token_type req) (BadRequest "actor_token_type required when actor_token is present") in
      if String.eqb ty ACCESS_TOKEN_TYPE then
        let! d := decode_access_token actor in
        let! _ := guard (negb (String.eqb (dt_realm_id d) rid)) (BadRequest "actor_token realm does not match client realm") in
        ret (Some (VObject [("client_id", VString (dt_client_id d)); ("scope", VString (dt_scope d));
                            ("sub", VString (dt_user_id d))]))
      else if String.eqb ty JWT_TYPE then
        throw (Unauthorized "external actor JWT token exchange requires configured issuer, JWKS, and audience trust")
      else if String.eqb ty SAML2_TYPE then
        let! a := at_tick (fun n => validate_saml_bearer_assertion V n rid actor) in
        ret (Some (VObject [("iss", VString (ss_issuer a)); ("sub", VString (ss_id a))]))
      else throw (BadRequest ("unsupported actor_token_type: " +:+ ty))
  end.

Definition exchange_subject (req : TokenRequest) (client : ClientJ) (realm : PlanRealm) (material : string) : M St Subject :=
  let! ty := require (subject_token_type req) (BadRequest "subject_token_type required for token exchange") in
  let! s :=
    if String.eqb ty ACCESS_TOKEN_TYPE then
      let! d := decode_access_token material in
      let! _ := guard (negb (String.eqb (dt_realm_id d) (pr_id realm))) (BadRequest "subject_token realm does not match client realm") in
      ret {| sj_user := plain_user (dt_user_id d) (pr_id realm) (Some "token-exchange subject"); sj_cnf := dt_cnf d;
             sj_auth_time := dt_auth_time d; sj_acr := dt_acr d; sj_amr := dt_amr d; sj_act := None |}
    else if String.eqb ty JWT_TYPE then jwt_subject "token-exchange" client realm material
    else if String.eqb ty SAML2_TYPE then saml_subject "token-exchange" realm material
    else throw (BadRequest ("unsupported subject_token_type: " +:+ ty)) in
  let! act := validate_token_exchange_actor req (pr_id realm) in
  ret (with_act s act).

(** The subject of an advanced grant: the assertion grants accept an absent token type or their own. *)
Definition advanced_subject (req : TokenRequest) (client : ClientJ) (grant : string) (realm : PlanRealm) (material : string)
    : M St Subject :=
  if String.eqb grant "token-exchange" then exchange_subject req client realm material
  else if String.eqb grant "jwt-bearer" then
    let! _ := guard (opt_is (subject_token_type req) (fun t => negb (String.eqb t JWT_TYPE)))
                (BadRequest "only jwt subject_token_type is supported for jwt bearer") in
    jwt_subject "jwt-bearer" client realm material
  else if String.eqb grant "saml2-bearer" then
    let! _ := guard (opt_is (subject_token_type req) (fun t => negb (String.eqb t SAML2_TYPE)))
                (BadRequest "only saml2 subject_token_type is supported for saml2 bearer") in
    saml_subject "saml2-bearer" realm material
  else ret (plain_subject (plain_user (grant +:+ ":" +:+ sha256_base64url material) (c_realm_id client) (Some grant)) None).

Definition advanced_subject_grant (req : TokenRequest) (client : ClientJ) (grant : string) (cnf : option J) : M St TokenResponse :=
  let! _ := guard (opt_is (requested_token_type req) (fun t => negb (String.eqb t ACCESS_TOKEN_TYPE)))
              (BadRequest "only access_token requested_token_type is supported") in
  let! material :=
    if String.eqb grant "token-exchange" then require (subject_token req) (BadRequest "subject_token required for token exchange")
    else if str_in grant ["jwt-bearer"; "saml2-bearer"] then require (assertion req) (BadRequest "assertion required")
    else throw (BadRequest ("unsupported advanced grant: " +:+ grant)) in
  let! realm := require (find_plan state (c_realm_id client)) (Config ("realm " +:+ c_realm_id client +:+ " not found for client")) in
  let! s := advanced_subject req client grant realm material in
  let scopes := requested_scopes (rq_scope req) (oauth_default_scope realm) in
  let res := option_list (rq_resource req) in
  let! _ := of_result (check_request_details (rq_authorization_details req)) in
  let token_cnf := or_else cnf (sj_cnf s) in
  let! config := require (find_config state (pr_id realm)) (NotFound ("realm " +:+ pr_id realm)) in
  let! auds := of_result (resolve_token_audience config (requested_audiences (rq_audience req)) res scopes token_cnf) in
  let! issued := issue_access_token (pr_issuer realm) (sj_user s) (client_id client) (pr_id realm) scopes
                   (plain_claims auds res (rq_authorization_details req) token_cnf (sj_auth_time s) (sj_acr s) (Some (sj_amr s)) (sj_act s)) in
  ret {| access_token := issued.1; token_type := access_token_type_for_cnf token_cnf; expires_in := issued.2;
         refresh_token := None; id_token := None; tr_scope := Some (join " " scopes);
         issued_token_type := if String.eqb grant "token-exchange" then Some ACCESS_TOKEN_TYPE else None |}.

(** * The token endpoint (src/qid-oauth/src/endpoints/token.rs) *)

Definition infer_authorization_code_client_id (req : TokenRequest) : M St (option string) :=
  match rq_code req with
  | None => ret None
  | Some code =>
      let! found := read_tokens (Tokens.get_authorization_code (sha256_base64url code)) in
      ret (Tokens.ac_client_id <$> found)
  end.

Definition CLIENT_ASSERTION_TYPE : string := "urn:ietf:params:oauth:client-assertion-type:jwt-bearer".

Definition assertion_client (req : TokenRequest) : QidResult (option string) :=
  match client_assertion req with
  | None => Ok None
  | Some a =>
      if String.eqb (default CLIENT_ASSERTION_TYPE (client_assertion_type req)) CLIENT_ASSERTION_TYPE
      then let? c := extract_client_id_from_assertion V a in Ok (Some c)
      else Ok None
  end.

Definition used_auth_method (req : TokenRequest) (client : ClientJ) (by_assertion : option string)
    (basic : option BasicClientAuth) (x5t : option string) : string :=
  if bool_decide (is_Some by_assertion) then "private_key_jwt"
  else if bool_decide (is_Some basic) then "client_secret_basic"
  else if bool_decide (is_Some (rq_client_secret req)) then "client_secret_post"
  else if bool_decide (is_Some x5t)
          && str_in (token_endpoint_auth_method (body (c_body client))) ["tls_client_auth"; "self_signed_tls_client_auth"]
  then token_endpoint_auth_method (body (c_body client))
  else "none".

Definition confirmation (jkt x5t : option string) : option J :=
  match jkt, x5t with
  | None, None => None
  | _, _ => Some (VObject (match jkt with Some j => [("jkt", VString j)] | None => [] end
                           ++ match x5t with Some x => [("x5t#S256", VString x)] | None => [] end))
  end.

Definition DEVICE_GRANT : string := "urn:ietf:params:oauth:grant-type:device_code".
Definition CIBA_GRANT : string := "urn:openid:params:grant-type:ciba".

Definition dispatch (req : TokenRequest) (client : ClientJ) (cnf : option J) : M St TokenResponse :=
  let g := grant_type req in
  if String.eqb g "authorization_code" then authorization_code_grant req client cnf
  else if String.eqb g "client_credentials" then client_credentials_grant req client cnf
  else if String.eqb g "refresh_token" then refresh_token_grant req client cnf
  else if String.eqb g "urn:ietf:params:oauth:grant-type:token-exchange" then advanced_subject_grant req client "token-exchange" cnf
  else if String.eqb g "urn:ietf:params:oauth:grant-type:jwt-bearer" then advanced_subject_grant req client "jwt-bearer" cnf
  else if String.eqb g "urn:ietf:params:oauth:grant-type:saml2-bearer" then advanced_subject_grant req client "saml2-bearer" cnf
  else if String.eqb g DEVICE_GRANT then device_code_grant req cnf
  else if String.eqb g CIBA_GRANT then ciba_grant req cnf
  else throw (BadRequest "unsupported grant_type").

Definition handle_token (req : TokenRequest) (dpop_header x5t : option string) (basic : option BasicClientAuth) : M St TokenResponse :=
  let! by_assertion := of_result (assertion_client req) in
  let presented := or_else by_assertion (or_else (ba_client_id <$> basic) (rq_client_id req)) in
  let! inferred :=
    if is_empty_str (default "" presented) && String.eqb (grant_type req) "authorization_code"
    then infer_authorization_code_client_id req else ret None in
  let effective := default "" (or_else presented inferred) in
  let! _ := guard (is_empty_str effective) (BadRequest "client_id required") in
  let! _ := guard (negb (is_supported_grant_type (grant_type req))) (BadRequest "unsupported grant_type") in
  let! client := find_client_across_realms effective in
  let used := used_auth_method req client by_assertion basic x5t in
  let! realm := of_result (oauth_realm_config state (c_realm_id client)) in
  let! jkt :=
    match dpop_header with
    | None => ret None
    | Some proof =>
        let! _ := guard (negb (dpop_enabled realm)) (BadRequest "DPoP is disabled for client realm") in
        let! j := at_tick (fun n => dpop_jkt V n realm proof) in
        ret (Some j)
    end in
  let! _ := guard (bool_decide (is_Some x5t) && negb (mtls_enabled realm)) (BadRequest "mTLS is disabled for client realm") in
  let! _ := validate_client_auth_method req client used basic x5t in
  let! _ := guard (str_in (grant_type req) [DEVICE_GRANT; CIBA_GRANT]
                   && opt_is (rq_client_id req) (fun form => negb (String.eqb form (client_id client))))
              (Unauthorized "authenticated client does not match request client_id") in
  dispatch req client (confirmation jkt x5t).


(** * Requests and what else changes the state *)

(** The requests the endpoints serve. *)
Inductive Req : Type :=
| ReqToken (req : TokenRequest) (dpop_header x5t : option string) (basic : option BasicClientAuth)
| ReqDevice (req : DeviceAuthorizationRequest)
| ReqDeviceApprove (ucode : string) (cookie_header : option string)
| ReqBackchannel (req : BackchannelAuthenticationRequest)
| ReqBackchannelApprove (req_id approver : string) (cookie_header : option string)
| ReqIntrospect (basic : option BasicClientAuth) (req : IntrospectRequest)
| ReqRevoke (basic : option BasicClientAuth) (req : RevokeRequest).

Definition serve (r : Req) (st : St) : St :=
  match r with
  | ReqToken req d x b => (handle_token req d x b st).2
  | ReqDevice req => (device_authorization req st).2
  | ReqDeviceApprove u c => (device_authorization_approve u c st).2
  | ReqBackchannel req => (create_backchannel_authentication_grant req st).2
  | ReqBackchannelApprove i a c => (backchannel_authentication_approve i a c st).2
  | ReqIntrospect b req => (introspect b req st).2
  | ReqRevoke b req => (handle_revoke b req st).2
  end.

(** A request, a change of the tables outside the tokens (users, clients, sessions, ...), or a call of
    the token repository from elsewhere (the authorization endpoint storing a code, a logout revoking
    a family); tokens are created by the endpoint alone. *)
Inductive step (st : St) : St → Prop :=
| step_request r : step st (serve r st)
| step_outside s : tokens s = tokens (store st) →
    step st {| store := s; service_accounts := service_accounts st; tick := tick st |}
| step_repository o saved : (∀ t, o ≠ Tokens.OpCreateToken t) →
    step st {| store := set_tokens (store st) (Tokens.run_op o saved (tokens (store st))).2;
               service_accounts := service_accounts st; tick := tick st |}.

Abbreviation steps := (rtc step).

(** * How the token tables grow *)

Abbreviation codes st := (Tokens.authorization_codes (tokens (store st))).
Abbreviation families st := (Tokens.token_families (tokens (store st))).
Abbreviation access st := (Tokens.access_tokens (tokens (store st))).

(** Records stay, up to [R]. *)
Definition kept {T : Type} (R : T → T → Prop) (m m' : gmap string T) : Prop :=
  ∀ k x, m !! k = Some x → ∃ y, m' !! k = Some y ∧ R x y.

(** What a family keeps for good: its owner, its scopes, its targets, its binding, its session and
    its deadline; and a revocation. *)
Definition family_core (f : Tokens.TokenFamily (J := J)) :=
  (Tokens.tf_id f, Tokens.tf_user_id f, Tokens.tf_client_id f, Tokens.tf_realm_id f, Tokens.tf_scopes f, Tokens.tf_audience f,
   Tokens.tf_resource f, Tokens.tf_sender_constraint f, Tokens.tf_issued_at f, Tokens.tf_session_id f).
Definition family_kept (f f' : Tokens.TokenFamily (J := J)) : Prop :=
  family_core f' = family_core f ∧ family_deadline f' = family_deadline f ∧
  (Tokens.tf_revoked f = true → Tokens.tf_revoked f' = true).
Definition token_kept (t t' : Tokens.AccessToken (J := J)) : Prop := ∃ b, t' = Tokens.token_or_revoked t b.

(** An access token within the bounds of its family: the family's user, client and realm, no scope the
    family was not granted, no life beyond the family's deadline. *)
Definition within_family (m : gmap string Tokens.TokenFamily) (t : Tokens.AccessToken (J := J)) : Prop :=
  ∀ fid, Tokens.family_id t = Some fid →
  ∃ f, m !! fid = Some f ∧ Tokens.at_user_id t = Tokens.tf_user_id f ∧ Tokens.at_client_id t = Tokens.tf_client_id f ∧
       Tokens.at_realm_id t = Tokens.tf_realm_id f ∧ (∀ x, x ∈ Tokens.at_scopes t → x ∈ Tokens.tf_scopes f) ∧
       Tokens.at_expires_at t ≤ family_deadline f.

(** The refresh hash stays, or it is that of an identifier generated no earlier than one before [n]. *)
Definition rehashed (n : nat) (f f' : Tokens.TokenFamily (J := J)) : Prop :=
  Tokens.current_refresh_hash f' = Tokens.current_refresh_hash f ∨
  ∃ m, (n <= S m)%nat ∧ Tokens.current_refresh_hash f' = sha256_base64url ("oat_" +:+ w_ulid W m).

(** Every record of the new table was there under the same key with the same identifier, or its key is
    its identifier. *)
Definition rekeyed {T : Type} (id : T → string) (m m' : gmap string T) : Prop :=
  ∀ k y, m' !! k = Some y → (∃ x, m !! k = Some x ∧ id y = id x) ∨ id y = k.

Record grows (st st' : St) : Prop := {
  g_tick : (tick st <= tick st')%nat;
  g_spent : Tokens.store_grows (tokens (store st)) (tokens (store st'));
  g_families : kept family_kept (families st) (families st');
  g_keyed : ∀ k f', families st' !! k = Some f' →
    (∃ f, families st !! k = Some f ∧ family_kept f f') ∨ Tokens.tf_id f' = k;
  g_codes : rekeyed Tokens.code_hash (codes st) (codes st');
  g_hash : ∀ k f f', families st !! k = Some f → families st' !! k = Some f' → rehashed (tick st) f f';
  g_tokens : kept token_kept (access st) (access st');
  g_issued : ∀ j t', access st' !! j = Some t' →
    (∃ t, access st !! j = Some t ∧ token_kept t t') ∨ within_family (families st') t'
}.

(** Families and codes are stored under their identifier. *)
Definition keyed (st : St) : Prop :=
  (∀ k f, families st !! k = Some f → Tokens.tf_id f = k) ∧ (∀ k c, codes st !! k = Some c → Tokens.code_hash c = k).

Lemma rekeyed_refl {T} (id : T → string) m : rekeyed id m m.
Proof. intros k y Hy. eauto. Qed.
Lemma rekeyed_trans {T} (id : T → string) m1 m2 m3 : rekeyed id m1 m2 → rekeyed id m2 m3 → rekeyed id m1 m3.
Proof.
  intros H1 H2 k z Hz. destruct (H2 k z Hz) as [(y & Hy & Hzy)|]; [|by right].
  destruct (H1 k y Hy) as [(x & Hx & Hyx)|Hid]; [left; exists x; split; [done|congruence]|right; congruence].
Qed.
Lemma rekeyed_insert {T} (id : T → string) m k x :
  id x = k ∨ (∃ y, m !! k = Some y ∧ id x = id y) → rekeyed id m (<[k := x]> m).
Proof.
  intros Hx j y Hy. destruct (decide (k = j)) as [->|Hne].
  - rewrite lookup_insert_eq in Hy. injection Hy as <-. destruct Hx as [Hx|Hx]; [by right|by left].
  - rewrite lookup_insert_ne in Hy by done. left. eauto.
Qed.

Lemma kept_trans {T} (R : T → T → Prop) m1 m2 m3 :
  Transitive R → kept R m1 m2 → kept R m2 m3 → kept R m1 m3.
Proof.
  intros HR H1 H2 k x Hx. destruct (H1 k x Hx) as (y & Hy & Hxy). destruct (H2 k y Hy) as (z & Hz & Hyz).
  exists z. split; [done|]. by transitivity y.
Qed.
Lemma kept_refl {T} (R : T → T → Prop) m : Reflexive R → kept R m m.
Proof. intros HR k x Hx. exists x. split; [done|]. reflexivity. Qed.
Lemma kept_new {T} (R : T → T → Prop) m k x : Reflexive R → m !! k = None → kept R m (<[k := x]> m).
Proof.
  intros HR Hn j y Hy. exists y. split; [|reflexivity]. rewrite lookup_insert_ne; [done|]. intros ->. by rewrite Hn in Hy.
Qed.
Lemma kept_update {T} (R : T → T → Prop) m k x y : Reflexive R → m !! k = Some x → R x y → kept R m (<[k := y]> m).
Proof.
  intros HR Hx Hxy j z Hz. destruct (decide (k = j)) as [->|Hne].
  - exists y. rewrite lookup_insert_eq. split; [done|]. by simplify_map_eq.
  - exists z. rewrite lookup_insert_ne by done. split; [done|]. reflexivity.
Qed.

#[local] Instance family_kept_preorder : PreOrder family_kept.
Proof.
  split; [by intros f|]. intros f g h (H1 & H2 & H3) (H4 & H5 & H6). split_and!; [congruence|congruence|auto].
Qed.
#[local] Instance token_kept_preorder : PreOrder token_kept.
Proof.
  split.
  - intros t. exists false. destruct t; unfold Tokens.token_or_revoked; cbn. by rewrite orb_false_r.
  - intros t u v [b ->] [c ->]. exists (b || c). destruct t; unfold Tokens.token_or_revoked; cbn. by rewrite orb_assoc.
Qed.

Lemma within_family_mono m m' t : kept family_kept m m' → within_family m t → within_family m' t.
Proof.
  intros Hk Hw fid Hf. destruct (Hw fid Hf) as (f & Hm & Hu & Hc & Hr & Hs & He). destruct (Hk _ _ Hm) as (f' & Hm' & Hcore & Hd & _).
  exists f'. unfold family_core in Hcore. injection Hcore as ??????????. split_and!; [done|congruence..| |congruence].
  intros x Hx. replace (Tokens.tf_scopes f') with (Tokens.tf_scopes f) by congruence. by apply Hs.
Qed.
Lemma within_family_kept m t t' : token_kept t t' → within_family m t → within_family m t'.
Proof. by intros [b ->]. Qed.

Lemma flag_grows_trans {T} (p : T → bool) m1 m2 m3 :
  Tokens.flag_grows p m1 m2 → Tokens.flag_grows p m2 m3 → Tokens.flag_grows p m1 m3.
Proof.
  intros H1 H2 k x Hx. destruct (H1 k x Hx) as (y & Hy & Hxy). destruct (H2 k y Hy) as (z & Hz & Hyz). eauto.
Qed.

#[local] Instance grows_preorder : PreOrder grows.
Proof.
  split.
  - intros st. split; [lia|apply Tokens.store_grows_refl|apply kept_refl, _| |apply rekeyed_refl| |apply kept_refl, _|];
      [| |intros j t Ht; left; exists t; (split; [done|reflexivity])].
    + intros j t Ht. left. exists t. split; [done|reflexivity].
    + intros k f f' Hf Hf'. left. congruence.
  - intros a b c [T1 S1 F1 K1 C1 H1 A1 I1] [T2 S2 F2 K2 C2 H2 A2 I2]. split; [lia| | | |by eapply rekeyed_trans| | |].
    + destruct S1 as (?&?&?&?), S2 as (?&?&?&?). split_and!; by eapply flag_grows_trans.
    + by eapply kept_trans; [apply _| |].
    + intros k f' Hf'. destruct (K2 k f' Hf') as [(f & Hf & Hk)|]; [|by right].
      destruct (K1 k f Hf) as [(g & Hg & Hk')|Hid]; [left; exists g; split; [done|by transitivity f]|right].
      rewrite <- Hid. destruct Hk as [Hc _]. by injection Hc.
    + intros k f f2 Hf Hf2. destruct (F1 k f Hf) as (f1 & Hf1 & _). unfold rehashed.
      destruct (H2 k f1 f2 Hf1 Hf2) as [->|(m & Hm & ->)]; [by apply (H1 k)|]. right. exists m. split; [lia|done].
    + by eapply kept_trans; [apply _| |].
    + intros j t' Ht'. destruct (I2 j t' Ht') as [(t & Ht & Hk)|Hw]; [|by right].
      destruct (I1 j t Ht) as [(s & Hs & Hk')|Hw]; [left; exists s; split; [done|by transitivity t]|right].
      eapply within_family_mono; [exact F2|]. by eapply within_family_kept.
Qed.

Lemma grows_keyed st st' : grows st st' → keyed st → keyed st'.
Proof.
  intros Hg [Hk Hc]. split.
  - intros k f' Hf'. destruct (g_keyed _ _ Hg k f' Hf') as [(f & Hf & [Hcore _])|]; [|done].
    rewrite <- (Hk k f Hf). by injection Hcore.
  - intros k c' Hc'. destruct (g_codes _ _ Hg k c' Hc') as [(c & Hx & ->)|]; [|done]. by apply Hc.
Qed.


(** ** The primitives grow the tables *)

Abbreviation growing m := (preserves grows m).

Lemma grows_same st st' :
  (tick st <= tick st')%nat → tokens (store st') = tokens (store st) → grows st st'.
Proof.
  intros Ht Heq. split; rewrite ?Heq; [done|apply Tokens.store_grows_refl|apply kept_refl, _| |apply rekeyed_refl| |apply kept_refl, _|].
  - intros j t Hj. left. exists t. split; [done|reflexivity].
  - intros k f f' Hf Hf'. left. congruence.
  - intros j t Hj. left. exists t. split; [done|reflexivity].
Qed.

Lemma growing_now : growing now_seconds.
Proof. intros st. apply grows_same; cbn; [lia|done]. Qed.
Lemma growing_jti : growing generate_jti.
Proof. intros st. apply grows_same; cbn; [lia|done]. Qed.
Lemma growing_auth_req_id : growing new_auth_req_id.
Proof. intros st. apply grows_same; cbn; [lia|done]. Qed.
Lemma growing_random n : growing (random_bytes n).
Proof. intros st. apply grows_same; cbn; [lia|done]. Qed.
Lemma growing_at_tick {A} (f : nat → QidResult A) : growing (at_tick f).
Proof. intros st. apply grows_same; cbn; [lia|done]. Qed.
Lemma growing_read {A} (f : Store → A) : growing (read f).
Proof. intros st. apply grows_same; cbn; [lia|done]. Qed.
Lemma growing_read_tokens {A} (f : Tokens.Store → QidResult A) : growing (read_tokens f).
Proof. intros st. apply grows_same; cbn; [lia|done]. Qed.
Lemma growing_require {A} (o : option A) e : growing (require o e).
Proof. intros st. apply grows_same; cbn; [lia|done]. Qed.
Lemma growing_guard b e : growing (guard b e).
Proof. intros st. destruct b; apply grows_same; cbn; (lia || done). Qed.
Lemma growing_create_service_account sa : growing (create_service_account sa).
Proof. intros st. unfold create_service_account. destruct (_ || _); apply grows_same; cbn; (lia || done). Qed.
Lemma growing_get_service_account r c : growing (get_service_account_by_client_id r c).
Proof. intros st. apply grows_same; cbn; (lia || done). Qed.
Lemma growing_create_user u : growing (write (fun saved => create_user saved u)).
Proof. intros st. unfold write, create_user. destruct (Tokens.insert_new _ _); apply grows_same; cbn; (lia || done). Qed.
Lemma growing_on_conflict {A} (m : M St unit) (a : A) k : growing m → (∀ e, growing (k e)) → growing (on_conflict m a k).
Proof.
  intros Hm Hk st. specialize (Hm st). unfold on_conflict. destruct (m st) as [[x|e] st1]; cbn in *; [done|].
  destruct e; cbn; try done. etrans; [exact Hm|apply Hk].
Qed.

(** The calls of the repository other than the creation of families and their rotation. *)
Lemma run_op_families_kept (o : Tokens.TokenOp (J := J)) saved s : kept family_kept (Tokens.token_families s) (Tokens.token_families (Tokens.run_op o saved s).2).
Proof.
  intros id f Hf. destruct (Tokens.run_op_families o saved s id) as [g Hg]. rewrite Hf in Hg. cbn in Hg.
  eexists. split; [exact Hg|]. split_and!; [done|done|]. cbn. by intros ->.
Qed.

Lemma run_op_codes (o : Tokens.TokenOp (J := J)) saved s :
  rekeyed Tokens.code_hash (Tokens.authorization_codes s) (Tokens.authorization_codes (Tokens.run_op o saved s).2).
Proof.
  destruct o; cbn;
    unfold Tokens.create_access_token, Tokens.revoke_access_token, Tokens.revoke_token_family, Tokens.store_par_request,
      Tokens.mark_par_request_used, Tokens.store_device_authorization_grant, Tokens.approve_device_authorization_grant,
      Tokens.record_device_authorization_poll, Tokens.consume_device_authorization_grant,
      Tokens.store_backchannel_authentication_grant, Tokens.approve_backchannel_authentication_grant,
      Tokens.record_backchannel_authentication_poll, Tokens.consume_backchannel_authentication_grant;
    try (repeat case_match; apply rekeyed_refl).
  - unfold Tokens.create_authorization_code. case_match; cbn; [apply rekeyed_refl|]. apply rekeyed_insert. by left.
  - unfold Tokens.mark_authorization_code_used, Tokens.opt_filter. destruct (_ !! _) as [x|] eqn:E; cbn; [|apply rekeyed_refl].
    destruct (Tokens.auth_code_owner_matches x c); cbn; [|apply rekeyed_refl]. destruct (Tokens.ac_used x); cbn; [apply rekeyed_refl|].
    apply rekeyed_insert. right. eauto.
Qed.

Lemma run_op_tokens (o : Tokens.TokenOp (J := J)) saved s :
  (∀ t, o ≠ Tokens.OpCreateToken t) →
  ∀ j, ∃ b, Tokens.access_tokens (Tokens.run_op o saved s).2 !! j
         = (fun t => Tokens.token_or_revoked t b) <$> Tokens.access_tokens s !! j.
Proof.
  intros Hno j. assert (∀ m : gmap string (Tokens.AccessToken (J := J)), m !! j = (fun t => Tokens.token_or_revoked t false) <$> m !! j) as Hid.
  { intros m. destruct (m !! j) as [t|]; [|done]. cbn. f_equal. destruct t; unfold Tokens.token_or_revoked; cbn. by rewrite orb_false_r. }
  destruct o; cbn;
    try (exists false;
         unfold Tokens.create_authorization_code, Tokens.mark_authorization_code_used,
           Tokens.revoke_token_family, Tokens.store_par_request, Tokens.mark_par_request_used,
           Tokens.store_device_authorization_grant, Tokens.approve_device_authorization_grant,
           Tokens.record_device_authorization_poll, Tokens.consume_device_authorization_grant,
           Tokens.store_backchannel_authentication_grant, Tokens.approve_backchannel_authentication_grant,
           Tokens.record_backchannel_authentication_poll, Tokens.consume_backchannel_authentication_grant;
         repeat case_match; apply Hid).
  - by destruct (Hno t).
  - unfold Tokens.revoke_access_token. cbn. destruct (Tokens.access_tokens s !! id) as [t|] eqn:E; cbn; [|exists false; apply Hid].
    destruct (decide (id = j)) as [->|Hne].
    + exists (String.eqb (Tokens.at_realm_id t) realm_id). by rewrite lookup_insert_eq, E.
    + exists false. rewrite lookup_insert_ne by done. apply Hid.
Qed.

Lemma grows_op st o saved s' sa n :
  (∀ t, o ≠ Tokens.OpCreateToken t) → tokens s' = (Tokens.run_op o saved (tokens (store st))).2 → (tick st <= n)%nat →
  grows st {| store := s'; service_accounts := sa; tick := n |}.
Proof.
  intros Hno Heq Hn. split; cbn; rewrite ?Heq; [done|apply Tokens.run_op_grows|apply run_op_families_kept| |apply run_op_codes| | |].
  - intros k f' Hf'. left. destruct (Tokens.run_op_families o saved (tokens (store st)) k) as [g Hg]. rewrite Hg in Hf'.
    destruct (Tokens.token_families (tokens (store st)) !! k) as [f|]; [|done]. injection Hf' as <-. exists f.
    split; [done|]. split_and!; [done|done|]. cbn. by intros ->.
  - intros k f f' Hf Hf'. left. destruct (Tokens.run_op_families o saved (tokens (store st)) k) as [g Hg].
    rewrite Hg, Hf in Hf'. by injection Hf' as <-.
  - intros j t Ht. destruct (run_op_tokens o saved (tokens (store st)) Hno j) as [b Hb]. rewrite Ht in Hb.
    eexists. split; [exact Hb|by exists b].
  - intros j t' Ht'. left. destruct (run_op_tokens o saved (tokens (store st)) Hno j) as [b Hb]. rewrite Hb in Ht'.
    destruct (Tokens.access_tokens (tokens (store st)) !! j) as [t|]; [|done]. injection Ht' as <-. exists t. split; [done|by exists b].
Qed.

Lemma growing_op o : (∀ t, o ≠ Tokens.OpCreateToken t) → growing (write_tokens (fun saved => Tokens.run_op o saved)).
Proof.
  intros Hno st. unfold write_tokens, write. destruct (Tokens.run_op o _ _) as [r t] eqn:E. cbn.
  eapply grows_op with (o := o); [done| |lia]. cbn. by rewrite E.
Qed.

Lemma growing_create_family f : growing (write_tokens (fun saved => Tokens.create_token_family saved f)).
Proof.
  intros st. unfold write_tokens, write, Tokens.create_token_family. destruct (Tokens.token_families _ !! _) eqn:E; cbn.
  { apply grows_same; cbn; [lia|done]. }
  split; cbn; [lia|apply Tokens.store_grows_families|by apply kept_new; [apply _|]| |apply rekeyed_refl| |apply kept_refl, _|].
  - intros k f' Hf'. destruct (decide (Tokens.tf_id f = k)) as [<-|Hne].
    + rewrite lookup_insert_eq in Hf'. injection Hf' as <-. by right.
    + rewrite lookup_insert_ne in Hf' by done. left. exists f'. split; [done|]. reflexivity.
  - intros k g g' Hg Hg'. left. rewrite lookup_insert_ne in Hg'; [congruence|]. intros <-. congruence.
  - intros j t Ht. left. exists t. split; [done|]. reflexivity.
Qed.

(** An access token is created within the bounds of its family, or without one. *)
Lemma grows_create_token st t saved s' n :
  within_family (families st) t → tokens s' = (Tokens.create_access_token saved t (tokens (store st))).2 → (tick st <= n)%nat →
  grows st {| store := s'; service_accounts := service_accounts st; tick := n |}.
Proof.
  intros Hw Heq Hn. unfold Tokens.create_access_token in Heq. destruct (Tokens.access_tokens _ !! Tokens.jti t) eqn:E; cbn in Heq.
  { apply grows_same; done. }
  split; cbn; rewrite ?Heq; cbn; [done|split_and!; apply Tokens.flag_grows_refl|apply kept_refl, _| |apply rekeyed_refl| |by apply kept_new; [apply _|]|].
  { intros k f Hf. left. exists f. split; [done|]. reflexivity. }
  { intros k f f' Hf Hf'. left. congruence. }
  intros j t' Ht'. destruct (decide (Tokens.jti t = j)) as [<-|Hne].
  - rewrite lookup_insert_eq in Ht'. injection Ht' as <-. by right.
  - rewrite lookup_insert_ne in Ht' by done. left. exists t'. split; [done|]. reflexivity.
Qed.

Lemma create_token_grows st t r st' :
  write_tokens (fun saved => Tokens.create_access_token saved t) st = (r, st') → within_family (families st) t → grows st st'.
Proof.
  unfold write_tokens, write. destruct (Tokens.create_access_token _ t _) as [x s] eqn:E. cbn. intros [= <- <-] Hw.
  eapply grows_create_token with (t := t); [done| |lia]. cbn. by rewrite E.
Qed.

Lemma growing_create_token t : Tokens.family_id t = None → growing (write_tokens (fun saved => Tokens.create_access_token saved t)).
Proof.
  intros Hn st. destruct (write_tokens _ st) as [r st'] eqn:E. cbn. eapply create_token_grows; [exact E|].
  intros fid Hf. by rewrite Hn in Hf.
Qed.


(** ** The endpoints grow the tables *)

Lemma growing_use_code c : growing (write_tokens (fun saved => Tokens.mark_authorization_code_used saved c)).
Proof. by apply (growing_op (Tokens.OpUseCode c)). Qed.
Lemma growing_revoke_family id r : growing (write_tokens (fun saved => Tokens.revoke_token_family saved id r)).
Proof. by apply (growing_op (Tokens.OpRevokeFamily id r)). Qed.
Lemma growing_revoke_token id r : growing (write_tokens (fun saved => Tokens.revoke_access_token saved id r)).
Proof. by apply (growing_op (Tokens.OpRevokeToken id r)). Qed.
Lemma growing_store_device g : growing (write_tokens (fun saved => Tokens.store_device_authorization_grant saved g)).
Proof. by apply (growing_op (Tokens.OpStoreDevice g)). Qed.
Lemma growing_approve_device c u t : growing (write_tokens (fun saved => Tokens.approve_device_authorization_grant saved c u t)).
Proof. by apply (growing_op (Tokens.OpApproveDevice c u t)). Qed.
Lemma growing_poll_device h t i : growing (write_tokens (fun saved => Tokens.record_device_authorization_poll saved h t i)).
Proof. by apply (growing_op (Tokens.OpPollDevice h t i)). Qed.
Lemma growing_consume_device h : growing (write_tokens (fun saved => Tokens.consume_device_authorization_grant saved h)).
Proof. by apply (growing_op (Tokens.OpConsumeDevice h)). Qed.
Lemma growing_store_backchannel g : growing (write_tokens (fun saved => Tokens.store_backchannel_authentication_grant saved g)).
Proof. by apply (growing_op (Tokens.OpStoreBackchannel g)). Qed.
Lemma growing_approve_backchannel h u t :
  growing (write_tokens (fun saved => Tokens.approve_backchannel_authentication_grant saved h u t)).
Proof. by apply (growing_op (Tokens.OpApproveBackchannel h u t)). Qed.
Lemma growing_poll_backchannel h t i :
  growing (write_tokens (fun saved => Tokens.record_backchannel_authentication_poll saved h t i)).
Proof. by apply (growing_op (Tokens.OpPollBackchannel h t i)). Qed.
Lemma growing_consume_backchannel h :
  growing (write_tokens (fun saved => Tokens.consume_backchannel_authentication_grant saved h)).
Proof. by apply (growing_op (Tokens.OpConsumeBackchannel h)). Qed.

Create HintDb growing.
#[local] Hint Resolve preserves_ret preserves_throw preserves_get preserves_of_result preserves_ignore
  growing_now growing_jti growing_auth_req_id growing_random growing_at_tick growing_read growing_read_tokens
  growing_require growing_guard growing_create_service_account growing_get_service_account growing_create_user
  growing_on_conflict growing_create_family growing_create_token growing_use_code growing_revoke_family growing_revoke_token
  growing_store_device growing_approve_device growing_poll_device growing_consume_device growing_store_backchannel
  growing_approve_backchannel growing_poll_backchannel growing_consume_backchannel grows_preorder : growing.

(** Walks through a request bind by bind. *)
Ltac grow :=
  repeat first
    [ solve [eauto 4 with growing]
    | progress intros
    | progress cbv zeta
    | apply preserves_bind; [exact grows_preorder|..]
    | apply growing_on_conflict
    | match goal with
      | |- preserves _ (match ?x with _ => _ end) => destruct x
      end ].

Lemma growing_at {A} (m : M St A) st : growing m → grows st (m st).2.
Proof. intros H'. apply H'. Qed.

(** A bind whose continuation may use what its first part established. *)
Lemma grows_bind {A B} (m : M St A) (k : A → M St B) st :
  grows st (m st).2 → (∀ a st1, m st = (Ok a, st1) → grows st1 (k a st1).2) → grows st (bind m k st).2.
Proof.
  unfold bind. destruct (m st) as [[a|e] st1]; cbn; [|done]. intros Hm Hk. by etrans; [|apply Hk].
Qed.

Lemma create_family_stored f st u st1 :
  write_tokens (fun saved => Tokens.create_token_family saved f) st = (Ok u, st1) → families st1 !! Tokens.tf_id f = Some f.
Proof.
  unfold write_tokens, write, Tokens.create_token_family. destruct (Tokens.token_families _ !! _); [done|]. cbn.
  destruct (w_saved W (tick st)); [|done]. intros [= _ <-]. cbn. by rewrite lookup_insert_eq.
Qed.

Lemma growing_format issuer j user cid realm scopes c : growing (format_access_token issuer j user cid realm scopes c).
Proof. unfold format_access_token, sign_access_token. grow. Qed.
Lemma growing_sign_refresh issuer j user cid realm fid d : growing (sign_refresh_token issuer j user cid realm fid d).
Proof. unfold sign_refresh_token. grow. Qed.
Lemma growing_id_token issuer user cid realm scopes c o : growing (issue_id_token issuer user cid realm scopes c o).
Proof. unfold issue_id_token. grow. Qed.
#[local] Hint Resolve growing_format growing_sign_refresh growing_id_token : growing.

Lemma growing_token_pair issuer user cid realm scopes c : growing (issue_token_pair issuer user cid realm scopes c).
Proof.
  unfold issue_token_pair. do 4 (apply preserves_bind; [apply _|grow|intros ?]). intros st. cbv zeta.
  apply grows_bind; [apply growing_create_family|]. intros u st1 Hf%create_family_stored. apply grows_bind.
  - destruct (write_tokens _ st1) as [r st2] eqn:E. cbn. eapply create_token_grows; [exact E|]. cbn in *.
    intros fid [= <-]. eexists. split; [exact Hf|]. unfold family_deadline. cbn. split_and!; try done. lia.
  - intros v st2 _. refine (growing_at _ st2 _). grow.
Qed.

Lemma growing_access_token issuer user cid realm scopes c : growing (issue_access_token issuer user cid realm scopes c).
Proof. unfold issue_access_token. grow. Qed.
#[local] Hint Resolve growing_token_pair growing_access_token : growing.

Lemma growing_code_grant req client cnf : growing (authorization_code_grant req client cnf).
Proof. unfold authorization_code_grant. grow. Qed.
Lemma growing_client_credentials req client cnf : growing (client_credentials_grant req client cnf).
Proof. unfold client_credentials_grant, ensure_service_account. grow. Qed.
Lemma growing_find_client cid a u : growing (find_client_across_realms_with_messages cid a u).
Proof. unfold find_client_across_realms_with_messages. grow. Qed.
#[local] Hint Resolve growing_code_grant growing_client_credentials growing_find_client : growing.

Lemma growing_device_authorization req : growing (device_authorization req).
Proof. unfold device_authorization, find_client_across_realms, new_device_code, new_user_code. grow. Qed.
Lemma growing_device_approve u c : growing (device_authorization_approve u c).
Proof. unfold device_authorization_approve, approve_device_authorization. grow. Qed.
Lemma growing_device_grant req cnf : growing (device_code_grant req cnf).
Proof. unfold device_code_grant, enforce_device_poll_interval. grow. Qed.
Lemma growing_create_backchannel req : growing (create_backchannel_authentication_grant req).
Proof. unfold create_backchannel_authentication_grant. grow. Qed.
Lemma growing_backchannel_approve i a c : growing (backchannel_authentication_approve i a c).
Proof. unfold backchannel_authentication_approve, authorize_ciba_browser_session. grow. Qed.
Lemma growing_ciba_grant req cnf : growing (ciba_grant req cnf).
Proof. unfold ciba_grant, enforce_ciba_poll_interval. grow. Qed.
Lemma growing_decode token : growing (decode_access_token token).
Proof. unfold decode_access_token. grow. Qed.
#[local] Hint Resolve growing_device_grant growing_ciba_grant growing_decode : growing.

Lemma growing_advanced req client grant cnf : growing (advanced_subject_grant req client grant cnf).
Proof.
  unfold advanced_subject_grant, advanced_subject, exchange_subject, jwt_subject, saml_subject, validate_token_exchange_actor. grow.
Qed.

Lemma growing_introspect b req : growing (introspect b req).
Proof.
  unfold introspect. destruct (negb _); [grow|]. apply preserves_bind; [apply _|unfold authenticate_introspection_client; grow|].
  intros caller st. pose proof (growing_decode (ir_token req) st) as H'. by destruct (decode_access_token _ st) as [[d|e] st1].
Qed.

Lemma growing_revoke b req : growing (handle_revoke b req).
Proof.
  unfold handle_revoke, authenticate_revocation_client, revoke_or, revoke_access_token_if_owned, revoke_refresh_token_family_if_owned.
  grow.
Qed.


(** ** The refresh grant *)

(** Reads and checks: the store stays, the counter may move. *)
Definition reads (st st' : St) : Prop := store st' = store st ∧ (tick st <= tick st')%nat.

Lemma guard_inv b e st u st' : guard b e st = (Ok u, st') → b = false ∧ st' = st.
Proof. unfold guard. destruct b; [done|]. by intros [= _ ->]. Qed.
Lemma require_inv {A} (o : option A) e st a st' : require o e st = (Ok a, st') → o = Some a ∧ st' = st.
Proof. unfold require. intros [Ho ->]%of_result_inv. by destruct o; [injection Ho as ->|]. Qed.
Lemma read_inv {A} (f : Store → A) st a st' : read f st = (Ok a, st') → a = f (store st) ∧ st' = st.
Proof. unfold read, bind, get_state, ret. by intros [= <- ->]. Qed.
Lemma read_tokens_inv {A} (f : Tokens.Store → QidResult A) st a st' :
  read_tokens f st = (Ok a, st') → f (tokens (store st)) = Ok a ∧ st' = st.
Proof. unfold read_tokens, bind, get_state. by intros [? ->]%of_result_inv. Qed.
Lemma now_inv st t st' : now_seconds st = (Ok t, st') → t = w_now W (tick st) ∧ st' = bump st.
Proof. unfold now_seconds. by intros [= <- <-]. Qed.
Lemma jti_inv st j st' : generate_jti st = (Ok j, st') → j = "oat_" +:+ w_ulid W (tick st) ∧ st' = bump st.
Proof. unfold generate_jti. by intros [= <- <-]. Qed.
Lemma at_tick_inv {A} (f : nat → QidResult A) st a st' : at_tick f st = (Ok a, st') → f (tick st) = Ok a ∧ st' = bump st.
Proof. unfold at_tick. by intros [= -> <-]. Qed.

(** Takes a successful request apart, one bind at a time. *)
Ltac unstep :=
  repeat match goal with
  | H : bind _ _ _ = (Ok _, _) |- _ =>
      let a := fresh "a" in let s := fresh "s" in let E := fresh "E" in
      apply bind_inv in H as (a & s & E & H)
  | H : guard _ _ _ = (Ok _, _) |- _ => apply guard_inv in H as [H ->]
  | H : require _ _ _ = (Ok _, _) |- _ => apply require_inv in H as [H ->]
  | H : read _ _ = (Ok _, _) |- _ => apply read_inv in H as [H ->]
  | H : read_tokens _ _ = (Ok _, _) |- _ => apply read_tokens_inv in H as [H ->]
  | H : now_seconds _ = (Ok _, _) |- _ => apply now_inv in H as [H ->]
  | H : generate_jti _ = (Ok _, _) |- _ => apply jti_inv in H as [H ->]
  | H : at_tick _ _ = (Ok _, _) |- _ => apply at_tick_inv in H as [H ->]
  | H : of_result _ _ = (Ok _, _) |- _ => apply of_result_inv in H as [H ->]
  | H : ret _ _ = (Ok _, _) |- _ => unfold ret in H; injection H as H <-
  | H : throw _ _ = (Ok _, _) |- _ => discriminate H
  end.

Lemma check_narrowed_ok granted scopes : check_narrowed granted scopes = Ok tt ↔ ∀ x, x ∈ scopes → x ∈ granted.
Proof.
  induction scopes as [|x l IH]; cbn.
  { split; [|done]. intros _ x Hx. by apply not_elem_of_nil in Hx. }
  destruct (str_in x granted) eqn:E; cbn.
  - apply str_in_spec in E. rewrite IH. set_solver.
  - apply str_in_false in E. split; [done|]. intros Hall. exfalso. apply E, Hall. set_solver.
Qed.

Lemma narrow_scopes_ok granted requested scopes :
  narrow_scopes granted requested = Ok scopes → ∀ x, x ∈ scopes → x ∈ granted.
Proof.
  unfold narrow_scopes. destruct requested as [r|]; [|by intros [= ->]].
  destruct (check_narrowed granted (split_whitespace r)) as [[]|] eqn:E; [|done]. cbn. intros [= <-]. by apply check_narrowed_ok.
Qed.

(** The family's sender constraint is proved again by the request. *)
Definition binding_holds (s : Store) (f : Tokens.TokenFamily (J := J)) (cnf : option J) : Prop :=
  (∀ c x, Tokens.tf_sender_constraint f = Some c → json_get c "x5t#S256" = Some x →
     ∃ orig, get_str c "x5t#S256" = Some orig ∧ cnf ≫= (fun v => get_str v "x5t#S256") = Some orig) ∧
  (∀ c k, Tokens.tf_sender_constraint f = Some c → get_str c "jkt" = Some k →
     ∃ client, get_client_by_client_id (Tokens.tf_realm_id f) (Tokens.tf_client_id f) s = Some client ∧
       (client_type (body (c_body client)) = Public → cnf ≫= (fun v => get_str v "jkt") = Some k)).

Lemma mtls_binding_ok sender cnf c x :
  check_mtls_binding sender cnf = Ok tt → sender = Some c → json_get c "x5t#S256" = Some x →
  ∃ orig, get_str c "x5t#S256" = Some orig ∧ cnf ≫= (fun v => get_str v "x5t#S256") = Some orig.
Proof.
  unfold check_mtls_binding. intros Hok -> Hx. rewrite Hx in Hok.
  destruct (cnf ≫= _) as [p|]; [|done]. destruct (get_str c "x5t#S256") as [o|]; [|done].
  destruct (String.eqb_spec p o) as [->|]; [|done]. eauto.
Qed.

Lemma dpop_binding_inv f cnf st u st' :
  check_dpop_binding f cnf st = (Ok u, st') →
  st' = st ∧ ∀ c k, Tokens.tf_sender_constraint f = Some c → get_str c "jkt" = Some k →
     ∃ client, get_client_by_client_id (Tokens.tf_realm_id f) (Tokens.tf_client_id f) (store st) = Some client ∧
       (client_type (body (c_body client)) = Public → cnf ≫= (fun v => get_str v "jkt") = Some k).
Proof.
  unfold check_dpop_binding. destruct (Tokens.tf_sender_constraint f ≫= _) as [k0|] eqn:Es; cbn [mbind option_bind] in *; intros Hok.
  - unstep. subst. destruct (client_type (body (c_body a0))) eqn:Et.
    + unstep. split; [done|]. intros c k Hc Hk. exists a0. split; [done|]. by rewrite Et.
    + unstep. split; [done|]. intros c k Hc Hk. exists a0. split; [done|]. intros _. rewrite Hc in Es. cbn in Es. rewrite Hk in Es.
      injection Es as ->. apply orb_false_iff in Hok as [Hne Heq]. apply negb_false_iff, constant_time_eq_spec in Heq.
      destruct (cnf ≫= _) as [p|]; cbn in *; [by subst|done].
  - unstep. split; [done|]. intros c k Hc Hk. rewrite Hc in Es. cbn in Es. by rewrite Hk in Es.
Qed.

(** What the checks of the refresh grant establish, and that they write nothing when they pass. *)
Record refresh_accepted (req : TokenRequest) (client : ClientJ) (cnf : option J) (rj fid : string) (st : St)
    (f : Tokens.TokenFamily (J := J)) (user : User) (realm : PlanRealm) (scopes : list string) (now : N) : Prop := {
  ra_family : families st !! fid = Some f;
  ra_client : Tokens.tf_client_id f = client_id client ∧ Tokens.tf_realm_id f = c_realm_id client;
  ra_live : Tokens.tf_revoked f = false;
  ra_now : now = w_now W (tick st);
  ra_deadline : now < family_deadline f;
  ra_session : session_alive (store st) f now = true;
  ra_hash : Tokens.current_refresh_hash f = sha256_base64url rj;
  ra_user : get_user_by_id (Tokens.tf_user_id f) (store st) = Some user ∧ u_realm_id user = Tokens.tf_realm_id f;
  ra_realm : find_plan state (Tokens.tf_realm_id f) = Some realm;
  ra_scopes : ∀ x, x ∈ scopes → x ∈ Tokens.tf_scopes f;
  ra_binding : binding_holds (store st) f cnf
}.

Lemma refresh_checks_inv req client cnf rj fid st f user realm scopes now st' :
  refresh_checks req client cnf rj fid st = (Ok (f, user, realm, scopes, now), st') →
  reads st st' ∧ refresh_accepted req client cnf rj fid st f user realm scopes now.
Proof.
  unfold refresh_checks. intros Hok. unstep. destruct (negb (String.eqb _ (sha256_base64url rj))) eqn:Eh.
  { unfold revoke_reused_family in Hok. unstep. }
  unstep. apply dpop_binding_inv in E14 as [-> Hd]. subst. cbn in *. split; [split; [done|cbn; lia]|].
  apply negb_false_iff, String.eqb_eq in Eh. apply orb_false_iff in E1 as [E1a E1b].
  apply negb_false_iff, String.eqb_eq in E1a, E1b, E9. apply negb_false_iff in E6. apply N.leb_gt in E4.
  injection E as E.
  split; try done.
  - by eapply narrow_scopes_ok.
  - split; [|exact Hd]. intros c x Hc Hx. eapply mtls_binding_ok; [|done|done]. by destruct a13.
Qed.


Lemma growing_reuse {A} f : growing (revoke_reused_family (A := A) f).
Proof. unfold revoke_reused_family. grow. Qed.
Lemma growing_dpop f cnf : growing (check_dpop_binding f cnf).
Proof. unfold check_dpop_binding. grow. Qed.
#[local] Hint Resolve growing_reuse growing_dpop : growing.
Lemma growing_refresh_checks req client cnf rj fid : growing (refresh_checks req client cnf rj fid).
Proof. unfold refresh_checks. grow. Qed.

(** The outcomes of a rotation: the new hash under the unchanged deadline, or nothing. *)
Lemma rotate_cases flushed (f : Tokens.TokenFamily (J := J)) realm e n d (s : Tokens.Store (J := J)) r s' :
  Tokens.update_token_family_refresh_hash mode flushed (Tokens.tf_id f) realm e n d s = (r, s') →
  (∃ g, Tokens.token_families s !! Tokens.tf_id f = Some g ∧ Tokens.current_refresh_hash g = e ∧ e ≠ n ∧ r = Ok tt ∧
     s' = Tokens.with_families s (<[Tokens.tf_id f := Tokens.with_refresh g n (Some d)]> (Tokens.token_families s))) ∨
  (∃ err, r = Err err ∧ s' = s).
Proof.
  unfold Tokens.update_token_family_refresh_hash. destruct (Tokens.rotate_begin _ _ _ _ _ s) as [[s1 prev]|err] eqn:E.
  2: { intros [= <- <-]. right. eauto. }
  apply Tokens.rotate_begin_Ok in E as (g & Hg & Hr & He & Hne & -> & ->). intros Hok.
  destruct mode as [|secs]; [destruct flushed as [[]|err]|].
  - left. exists g. by injection Hok as <- <-.
  - right. exists err. injection Hok as <- <-. split; [done|].
    unfold Tokens.rotate_rollback. cbn. rewrite lookup_insert_eq. destruct s as [? fams ? ? ? ?]. unfold Tokens.with_families. cbn in *.
    f_equal. rewrite insert_insert_eq. apply insert_id. rewrite Hg. f_equal. destruct g. unfold Tokens.with_refresh. cbn in *. by subst.
  - left. exists g. by injection Hok as <- <-.
Qed.

Lemma grows_rotation st f h m d s' n :
  h = sha256_base64url ("oat_" +:+ w_ulid W m) → (tick st <= S m)%nat → families st !! Tokens.tf_id f = Some f → d = family_deadline f →
  tokens s' = Tokens.with_families (tokens (store st)) (<[Tokens.tf_id f := Tokens.with_refresh f h (Some d)]> (families st)) →
  (tick st <= n)%nat → grows st {| store := s'; service_accounts := service_accounts st; tick := n |}.
Proof.
  intros -> Hm Hf -> Heq Hn. set (h := sha256_base64url _) in *. assert (family_kept f (Tokens.with_refresh f h (Some (family_deadline f)))) as Hk by (by split_and!).
  split; cbn; rewrite ?Heq; cbn; [done|apply Tokens.store_grows_families|by eapply kept_update; [apply _|..]| |apply rekeyed_refl| |apply kept_refl, _|].
  - intros k g Hg. left. destruct (decide (Tokens.tf_id f = k)) as [<-|Hne].
    + rewrite lookup_insert_eq in Hg. injection Hg as <-. exists f. by split.
    + rewrite lookup_insert_ne in Hg by done. exists g. split; [done|]. reflexivity.
  - intros k g g' Hg Hg'. destruct (decide (Tokens.tf_id f = k)) as [<-|Hne].
    + rewrite lookup_insert_eq in Hg'. injection Hg' as <-. right. by exists m.
    + rewrite lookup_insert_ne in Hg' by done. left. congruence.
  - intros j t Ht. left. exists t. split; [done|]. reflexivity.
Qed.

(** What a rotation by the grant does to the store. *)
Lemma rotate_family_cases f realm e n m d st r st' :
  n = sha256_base64url ("oat_" +:+ w_ulid W m) → (tick st <= S m)%nat → families st !! Tokens.tf_id f = Some f → d = family_deadline f → rotate_family f realm e n d st = (r, st') →
  grows st st' ∧
  (r = Ok tt → e ≠ n ∧ families st' = <[Tokens.tf_id f := Tokens.with_refresh f n (Some d)]> (families st) ∧
     tick st' = S (tick st)).
Proof.
  intros Hm Htk Hf Hd. unfold rotate_family, write_tokens, write.
  destruct (Tokens.update_token_family_refresh_hash _ _ _ _ _ _ _ _) as [r0 s0] eqn:E. apply rotate_cases in E.
  destruct E as [(g & Hg & _ & Hne & -> & ->)|(err & -> & ->)].
  - rewrite Hf in Hg. injection Hg as <-. intros [= <- <-]. split; [by eapply (grows_rotation _ _ _ m); [..|lia]|]. intros _. by split_and!.
  - intros Hr. split; [|intros ->; by destruct err; cbn in Hr; try discriminate Hr; unfold revoke_reused_family in Hr; unstep].
    match type of Hr with context [revoke_reused_family f ?s1] =>
      assert (grows st s1) as H1 by (apply grows_same; cbn; [lia|done]);
      pose proof (growing_reuse (A := unit) f s1) as H2 end.
    destruct err; cbv beta iota in Hr; try (by injection Hr as _ <-). rewrite Hr in H2. by etrans.
Qed.


Lemma refreshed_within f j scopes aud_ cnf now m :
  m !! Tokens.tf_id f = Some f → (∀ x, x ∈ scopes → x ∈ Tokens.tf_scopes f) →
  within_family m (refreshed_token f j scopes aud_ cnf now (family_deadline f)).
Proof.
  intros Hf Hs fid [= <-]. exists f. cbn. split_and!; [done..|]. lia.
Qed.

Lemma with_refresh_kept f h : family_kept f (Tokens.with_refresh f h (Some (family_deadline f))).
Proof. by split_and!. Qed.

Lemma refresh_grows req client cnf st : keyed st → grows st (refresh_token_grant req client cnf st).2.
Proof.
  intros Hkey. unfold refresh_token_grant. apply grows_bind; [apply growing_require|]. intros token s1 [_ ->]%require_inv.
  apply grows_bind; [refine (growing_at _ _ _); grow|]. intros claims s2 [_ ->]%of_result_inv. apply grows_bind; [refine (growing_at _ _ _); grow|]. intros id s3 [_ ->]%of_result_inv.
  apply grows_bind; [apply growing_refresh_checks|]. intros [[[[f user] realm] scopes] now] s4 Hc.
  destruct (refresh_checks_inv _ _ _ _ _ _ _ _ _ _ _ _ Hc) as [[Hst _] Ha].
  assert (families s4 !! Tokens.tf_id f = Some f) as Hf.
  { rewrite Hst. destruct Ha as [Hf]. by rewrite (proj1 Hkey _ _ Hf). }
  apply grows_bind; [refine (growing_at _ _ _); grow|]. intros aj s5 [-> ->]%jti_inv. apply grows_bind; [refine (growing_at _ _ _); grow|]. intros rj s6 [-> ->]%jti_inv. cbv zeta.
  destruct (rotate_family f (c_realm_id client) (sha256_base64url id.1) (sha256_base64url ("oat_" +:+ w_ulid W (tick (bump s4))))
              (family_deadline f) (bump (bump s4))) as [r s7] eqn:Er.
  destruct (rotate_family_cases _ _ _ _ (tick (bump s4)) _ (bump (bump s4)) _ _ eq_refl (le_n _) Hf eq_refl Er) as [Hg Hok].
  apply grows_bind; [by rewrite Er|]. intros u s8 Hs8. rewrite Er in Hs8. injection Hs8 as -> ->. destruct u.
  destruct (Hok eq_refl) as (_ & Hfam & _). apply grows_bind.
  - destruct (write_tokens _ s8) as [r' s9] eqn:E9. cbn. eapply create_token_grows; [exact E9|].
    eapply within_family_mono; [|apply refreshed_within; [exact Hf|by destruct Ha]].
    rewrite Hfam. eapply kept_update; [apply _|exact Hf|apply with_refresh_kept].
  - intros v s9 _. refine (growing_at _ s9 _). grow.
Qed.

Lemma growing_auth req client used basic x5t : growing (validate_client_auth_method req client used basic x5t).
Proof. unfold validate_client_auth_method, confidential_auth. grow. Qed.
#[local] Hint Resolve growing_auth growing_advanced : growing.

Lemma dispatch_grows req client cnf st : keyed st → grows st (dispatch req client cnf st).2.
Proof.
  intros Hk. unfold dispatch. cbv zeta. repeat match goal with |- context [if ?b then _ else _] => destruct b end;
    try (by apply refresh_grows); refine (growing_at _ st _); grow.
Qed.

Lemma grows_bind_keyed {A B} (m : M St A) (k : A → M St B) st :
  keyed st → growing m → (∀ a st1, keyed st1 → grows st1 (k a st1).2) → grows st (bind m k st).2.
Proof.
  intros Hk Hm Hc. apply grows_bind; [apply Hm|]. intros a st1 E. apply Hc. apply (grows_keyed st); [|done].
  specialize (Hm st). by rewrite E in Hm.
Qed.

Lemma growing_infer req : growing (infer_authorization_code_client_id req).
Proof. unfold infer_authorization_code_client_id. grow. Qed.
#[local] Hint Resolve growing_infer : growing.

Lemma token_grows req d x b st : keyed st → grows st (handle_token req d x b st).2.
Proof.
  intros Hk. unfold handle_token, find_client_across_realms.
  repeat (cbv zeta; apply grows_bind_keyed; [done|grow|intros; clear Hk]; match goal with H : keyed _ |- _ => rename H into Hk end).
  by apply dispatch_grows.
Qed.

Lemma step_grows st st' : keyed st → step st st' → grows st st'.
Proof.
  intros Hk [r|s Heq|o saved Hno].
  - destruct r as [req d x b|req|u c|req|i a c|b req|b req]; cbn [serve].
    + by apply token_grows.
    + apply growing_device_authorization.
    + apply growing_device_approve.
    + apply growing_create_backchannel.
    + apply growing_backchannel_approve.
    + apply growing_introspect.
    + apply growing_revoke.
  - by apply grows_same.
  - by eapply grows_op.
Qed.

Lemma steps_grow st st' : keyed st → steps st st' → grows st st' ∧ keyed st'.
Proof.
  intros Hk Hs. induction Hs as [st|st st1 st' Hs _ IH]; [split; [reflexivity|done]|].
  pose proof (step_grows _ _ Hk Hs) as Hg. destruct IH as [Hg' Hk']; [by eapply grows_keyed|]. split; [by etrans|done].
Qed.

(** C6: No access token outlives or exceeds its refresh family.  However requests, logins and other
    calls of the repository are interleaved, starting from tables without access tokens, every access
    token of a family carries the family's user, client and realm, only scopes the family was granted,
    and expires no later than the family's refresh deadline, which no rotation ever moves. *)
Theorem access_tokens_within_family (st st' : St) (j : string) (t : Tokens.AccessToken) :
  keyed st → access st = ∅ → steps st st' → access st' !! j = Some t → within_family (families st') t.
Proof.
  intros Hk He Hs Ht. destruct (steps_grow _ _ Hk Hs) as [Hg _].
  destruct (g_issued _ _ Hg j t Ht) as [(t0 & Ht0 & _)|]; [|done]. rewrite He in Ht0. by rewrite lookup_empty in Ht0.
Qed.


(** ** Parts of a request that only read *)

#[local] Instance reads_preorder : PreOrder reads.
Proof. split; [by intros st; split|]. intros a b c [H1 H2] [H3 H4]. split; [congruence|lia]. Qed.

Abbreviation reading m := (preserves reads m).

Lemma reading_at_tick {A} (f : nat → QidResult A) : reading (at_tick f).
Proof. intros st. split; cbn; [done|lia]. Qed.
Lemma reading_read {A} (f : Store → A) : reading (read f).
Proof. intros st. by split. Qed.
Lemma reading_read_tokens {A} (f : Tokens.Store → QidResult A) : reading (read_tokens f).
Proof. intros st. by split. Qed.
Lemma reading_require {A} (o : option A) e : reading (require o e).
Proof. intros st. by split. Qed.
Lemma reading_guard b e : reading (guard b e).
Proof. intros st. by destruct b; split. Qed.
Lemma reading_now : reading now_seconds.
Proof. intros st. split; cbn; [done|lia]. Qed.

Create HintDb reading.
#[local] Hint Resolve preserves_ret preserves_throw preserves_get preserves_of_result reading_at_tick reading_read
  reading_read_tokens reading_require reading_guard reading_now reads_preorder : reading.

Ltac readonly :=
  repeat first
    [ solve [eauto 4 with reading]
    | progress intros
    | progress cbv zeta
    | apply preserves_bind; [exact reads_preorder|..]
    | match goal with
      | |- preserves _ (match ?x with _ => _ end) => destruct x
      end ].

Lemma reading_infer req : reading (infer_authorization_code_client_id req).
Proof. unfold infer_authorization_code_client_id. readonly. Qed.
Lemma reading_find_client cid a u : reading (find_client_across_realms_with_messages cid a u).
Proof. unfold find_client_across_realms_with_messages. readonly. Qed.
Lemma reading_auth req client used basic x5t : reading (validate_client_auth_method req client used basic x5t).
Proof. unfold validate_client_auth_method, confidential_auth. readonly. Qed.
#[local] Hint Resolve reading_infer reading_find_client reading_auth : reading.

Lemma reading_inv {A} (m : M St A) st a st' : reading m → m st = (Ok a, st') → reads st st'.
Proof. intros Hm E. specialize (Hm st). by rewrite E in Hm. Qed.

Lemma find_client_inv cid am un st client st' :
  find_client_across_realms_with_messages cid am un st = (Ok client, st') →
  st' = st ∧ find_clients_by_client_id (map oc_id (config_realms state)) cid (store st) = [client].
Proof.
  unfold find_client_across_realms_with_messages. intros Hok. unstep. subst.
  destruct (find_clients_by_client_id _ _ _) as [|c [|c' l]]; unstep; try discriminate. by subst.
Qed.

Lemma find_clients_elem realms cid (s : Store) client :
  client ∈ find_clients_by_client_id realms cid s → client_id client = cid ∧ c_realm_id client ∈ realms.
Proof.
  unfold find_clients_by_client_id. rewrite elem_of_lfilter. intros [_ [H1 H2]%andb_true_iff].
  split; [by apply String.eqb_eq|by apply str_in_spec].
Qed.

(** The record of a client is the only one of its identifier in the served realms. *)
Definition sole_client (st : St) (client : ClientJ) : Prop :=
  c_realm_id client ∈ map oc_id (config_realms state) ∧
  ∃ k, clients (store st) !! k = Some client ∧
    ∀ k' c', clients (store st) !! k' = Some c' → client_id c' = client_id client →
      c_realm_id c' ∈ map oc_id (config_realms state) → k' = k.

Lemma found_sole cid st client :
  find_clients_by_client_id (map oc_id (config_realms state)) cid (store st) = [client] → client_id client = cid ∧ sole_client st client.
Proof.
  intros ([Hc%String.eqb_eq Hr%str_in_spec]%andb_true_iff & k & Hk & Hone)%filter_values_single. split; [done|]. split; [done|].
  exists k. split; [done|]. intros k' c' Hk' Hid Hr'. apply (Hone k' c' Hk'). rewrite Hid, Hc, String.eqb_refl. by apply str_in_spec.
Qed.

(** How a request names its client: by the assertion, by the [Authorization] header, by the form, or, for an
    authorization code alone, by the code. *)
Inductive names_client (req : TokenRequest) (basic : option BasicClientAuth) (st : St) (cid : string) : Prop :=
| named_by_assertion a :
    client_assertion req = Some a → extract_client_id_from_assertion V a = Ok cid → names_client req basic st cid
| named_by_header b : client_assertion req = None → basic = Some b → ba_client_id b = cid → names_client req basic st cid
| named_by_form : client_assertion req = None → basic = None → rq_client_id req = Some cid → names_client req basic st cid
| named_by_code code ac :
    client_assertion req = None → basic = None → rq_client_id req = None → grant_type req = "authorization_code" →
    rq_code req = Some code → codes st !! sha256_base64url code = Some ac → Tokens.ac_client_id ac = cid → names_client req basic st cid.

Definition AUTHENTICATING_METHODS : list string :=
  ["client_secret_basic"; "client_secret_post"; "tls_client_auth"; "self_signed_tls_client_auth"; "private_key_jwt"].

(** How a client proved itself to the token endpoint, between the moments [lo] and [hi]. *)
Definition authenticated (lo hi : nat) (req : TokenRequest) (client : ClientJ) (basic : option BasicClientAuth) (x5t : option string) : Prop :=
  let b := body (c_body client) in
  let m := token_endpoint_auth_method b in
  match client_type b with
  | Public => m = "none" ∧ basic = None ∧ rq_client_secret req = None ∧ client_assertion req = None
  | Confidential =>
      (m = "client_secret_basic" → ∃ a, basic = Some a ∧ ba_client_secret a ≠ "" ∧
         client_secret_hash b = Some (client_secret_hash_of (ba_client_secret a))) ∧
      (m = "client_secret_post" → ∃ secret, rq_client_secret req = Some secret ∧ secret ≠ "" ∧
         client_secret_hash b = Some (client_secret_hash_of secret)) ∧
      (m = "tls_client_auth" ∨ m = "self_signed_tls_client_auth" →
         ∃ x, x5t = Some x ∧ x ∈ mtls_certificate_thumbprints b) ∧
      (m = "private_key_jwt" → ∃ a realm n, client_assertion req = Some a ∧ find_config state (c_realm_id client) = Some realm ∧
         private_key_jwt_enabled realm = true ∧ extract_client_id_from_assertion V a = Ok (client_id client) ∧
         extract_private_key_jwt V n a client (oc_issuer realm) = Ok tt ∧ (lo ≤ n)%nat ∧ (n < hi)%nat) ∧
      (m ∉ AUTHENTICATING_METHODS → m = "none" ∧ basic = None ∧ rq_client_secret req = None ∧ client_assertion req = None)
  end.

Lemma verify_secret_ok client presented :
  verify_client_secret client presented = Ok tt →
  ∃ secret, presented = Some secret ∧ secret ≠ "" ∧ client_secret_hash (body (c_body client)) = Some (client_secret_hash_of secret).
Proof.
  unfold verify_client_secret. destruct presented as [s|]; [|done]. cbn. destruct (is_empty_str s) eqn:Es; [done|].
  destruct (client_secret_hash _) as [h|]; [|done]. cbn. destruct (constant_time_eq h _) eqn:Ec; [|done].
  intros _. apply constant_time_eq_spec in Ec as ->. exists s. split_and!; [done|intros ->; discriminate Es|done].
Qed.

Lemma verify_thumbprint_ok client presented :
  verify_mtls_thumbprint client presented = Ok tt →
  ∃ x, presented = Some x ∧ x ∈ mtls_certificate_thumbprints (body (c_body client)).
Proof.
  unfold verify_mtls_thumbprint. destruct presented as [x|]; [|done]. cbn.
  destruct (mtls_certificate_thumbprints _) as [|y l]; [done|].
  change (constant_time_eq y x || existsb (fun e => constant_time_eq e x) l) with (existsb (fun e => constant_time_eq e x) (y :: l)).
  destruct (existsb _ (y :: l)) eqn:E; [|done]. intros _. apply existsb_exists in E as (z & Hz & He). apply constant_time_eq_spec in He as <-. exists z. split; [done|]. by apply list_elem_of_In.
Qed.

Lemma assertion_client_inv req o :
  assertion_client req = Ok o →
  match o with
  | Some c => ∃ a, client_assertion req = Some a ∧ extract_client_id_from_assertion V a = Ok c
  | None => True
  end.
Proof.
  unfold assertion_client. destruct (client_assertion req) as [a|]; [|by intros [= <-]].
  destruct (String.eqb _ _); [|by intros [= <-]]. destruct (extract_client_id_from_assertion V a) as [c|] eqn:E; [|done].
  cbn. intros [= <-]. eauto.
Qed.

Lemma used_none req client by_assertion basic x5t :
  used_auth_method req client by_assertion basic x5t = "none" →
  by_assertion = None ∧ basic = None ∧ rq_client_secret req = None.
Proof.
  unfold used_auth_method. intros Hu. destruct by_assertion; [done|]. destruct basic; [done|]. destruct (rq_client_secret req); [done|].
  done.
Qed.

Lemma used_private_key req client by_assertion basic x5t :
  used_auth_method req client by_assertion basic x5t = "private_key_jwt" → is_Some by_assertion.
Proof.
  unfold used_auth_method. intros Hu. destruct by_assertion; [done|]. destruct basic; [done|]. destruct (rq_client_secret req); [done|].
  cbn in Hu. destruct (bool_decide (is_Some x5t) && _) eqn:E; [|done]. apply andb_true_iff in E as [_ E]. rewrite Hu in E. done.
Qed.

Lemma used_method req client by_assertion basic x5t :
  used_auth_method req client by_assertion basic x5t ∈ AUTHENTICATING_METHODS ∨
  used_auth_method req client by_assertion basic x5t = "none".
Proof.
  unfold used_auth_method, AUTHENTICATING_METHODS. destruct by_assertion; [left; set_solver|]. destruct basic; [left; set_solver|].
  destruct (rq_client_secret req); [left; set_solver|]. cbn.
  destruct (bool_decide (is_Some x5t) && _) eqn:E; [left|by right]. apply andb_true_iff in E as [_ E].
  apply orb_true_iff in E as [->%String.eqb_eq|[->%String.eqb_eq|[=]]%orb_true_iff]; set_solver.
Qed.

Lemma confidential_inv req client basic x5t expected st u st' :
  confidential_auth req client basic x5t expected st = (Ok u, st') →
  (str_in expected ["client_secret_basic"; "client_secret_post"] = true →
     verify_client_secret client (if String.eqb expected "client_secret_basic" then ba_client_secret <$> basic else rq_client_secret req) = Ok tt) ∧
  (str_in expected ["tls_client_auth"; "self_signed_tls_client_auth"] = true → verify_mtls_thumbprint client x5t = Ok tt) ∧
  (expected = "private_key_jwt" → ∃ a realm n, client_assertion req = Some a ∧ find_config state (c_realm_id client) = Some realm ∧
     private_key_jwt_enabled realm = true ∧ extract_private_key_jwt V n a client (oc_issuer realm) = Ok tt ∧
     (tick st ≤ n)%nat ∧ (n < tick st')%nat).
Proof.
  unfold confidential_auth. intros Hok. unstep. destruct a, a0. split_and!.
  - intros Hs. by rewrite Hs in E.
  - intros Hs. by rewrite Hs in E0.
  - intros ->. cbv [String.eqb Ascii.eqb Bool.eqb] in Hok. unstep. destruct u. unfold oauth_realm_config in E1. destruct (find_config _ _) as [r|]; [|done].
    injection E1 as ->. apply negb_false_iff in E2.    eexists a1, a, _. split_and!; [done..| |]; cbn; lia.
Qed.

Lemma validate_auth_inv req client by_assertion basic x5t st u st' :
  validate_client_auth_method req client (used_auth_method req client by_assertion basic x5t) basic x5t st = (Ok u, st') →
  assertion_client req = Ok by_assertion → (∀ c, by_assertion = Some c → c = client_id client) →
  authenticated (tick st) (tick st') req client basic x5t ∧ grant_type req ∈ grant_types (body (c_body client)) ∧
  (client_assertion req = None ∨ is_Some by_assertion) ∧ client_id client ≠ "".
Proof.
  unfold validate_client_auth_method, authenticated. intros Hok Ha Hc. unstep.
  apply negb_false_iff, str_in_spec in E0. split; [|split; [done|]].
  2: { split; [|intros Hempty; by rewrite Hempty in E]. destruct (client_assertion req); [right|by left]. cbn in E2.
       by apply negb_false_iff, String.eqb_eq, used_private_key in E2. }
  destruct (client_type _).
  - unstep. apply negb_false_iff, String.eqb_eq in E3. apply confidential_inv in Hok as (H1 & H2 & H3). split_and!.
    + intros Hm. rewrite Hm in *. destruct (verify_secret_ok _ _ (H1 eq_refl)) as (sec & Hs & Hne & Hh). cbn in Hs.
      destruct basic as [b|]; [|done]. injection Hs as <-. eauto.
    + intros Hm. rewrite Hm in *. destruct (verify_secret_ok _ _ (H1 eq_refl)) as (sec & Hs & Hne & Hh). eauto.
    + intros Hm. apply verify_thumbprint_ok, H2. by destruct Hm as [-> | ->].
    + intros Hm. destruct (H3 Hm) as (ca & realm & n & ? & ? & ? & ? & ? & ?). exists ca, realm, n. split_and!; [done..| |done|done|done].
      rewrite Hm in E3. symmetry in E3. apply used_private_key in E3 as [c Hb]. rewrite Hb in Ha.
      apply assertion_client_inv in Ha as (a' & Ha' & Hx). rewrite (Hc c Hb) in Hx. congruence.
    + intros Hm. destruct (used_method req client by_assertion basic x5t) as [Hin|Hn]; [by rewrite <- E3 in Hin|].
      rewrite E3. split; [done|]. apply used_none in Hn as Hn'. destruct Hn' as (? & ? & ?). split_and!; [done..|].
      rewrite Hn in E2. destruct (client_assertion req); done.
  - unstep. apply orb_false_iff in Hok as [Hm Hu]. apply negb_false_iff, String.eqb_eq in Hm, Hu. split; [done|].
    rewrite Hu in *. apply used_none in Hu as (? & ? & ?). split_and!; [done..|].
    destruct (client_assertion req); done.
Qed.


(** What happens before the grant: one client of the served realms is found and authenticated, its
    confirmation is computed, and nothing is written. *)
Record admitted (req : TokenRequest) (x5t : option string) (basic : option BasicClientAuth)
    (st st1 : St) (client : ClientJ) : Prop := {
  ad_reads : reads st st1;
  ad_named : names_client req basic st (client_id client) ∧ client_id client ≠ "";
  ad_client : sole_client st client;
  ad_authenticated : authenticated (tick st) (tick st1) req client basic x5t;
  ad_grant : grant_type req ∈ grant_types (body (c_body client));
  ad_form : str_in (grant_type req) [DEVICE_GRANT; CIBA_GRANT] = true →
    ∀ form, rq_client_id req = Some form → form = client_id client
}.

Lemma authenticated_mono lo hi lo' hi' req client basic x5t :
  (lo' ≤ lo)%nat → (hi ≤ hi')%nat → authenticated lo hi req client basic x5t → authenticated lo' hi' req client basic x5t.
Proof.
  intros Hlo Hhi. unfold authenticated. destruct (client_type _); [|done]. intros (H1 & H2 & H3 & H4 & H5). split_and!; try done.
  intros Hm. destruct (H4 Hm) as (a & realm & n & ? & ? & ? & ? & ? & ? & ?). exists a, realm, n. split_and!; [done..|lia|lia].
Qed.

(** The identifier the endpoint takes is the one the request presents. *)
Lemma token_named req basic st by_a inferred s1 cid :
  assertion_client req = Ok by_a →
  (if is_empty_str (default "" (or_else by_a (or_else (ba_client_id <$> basic) (rq_client_id req)))) && String.eqb (grant_type req) "authorization_code"
   then infer_authorization_code_client_id req else ret None) st = (Ok inferred, s1) →
  cid = default "" (or_else (or_else by_a (or_else (ba_client_id <$> basic) (rq_client_id req))) inferred) →
  client_assertion req = None ∨ is_Some by_a → cid ≠ "" → names_client req basic st cid.
Proof.
  intros Ha Hi Hcid Hassert Hne. destruct by_a as [c|]; cbn in *.
  { apply assertion_client_inv in Ha as (a & Ha & Hx). subst. by eapply named_by_assertion. }
  destruct Hassert as [Hn|[? ?]]; [|done]. destruct basic as [b|]; cbn in *; [subst; by eapply named_by_header|].
  destruct (rq_client_id req) as [f|] eqn:Ef; cbn in *; [subst; by eapply named_by_form|].
  destruct (String.eqb_spec (grant_type req) "authorization_code") as [Hg|]; [|injection Hi as <- _; done].
  unfold infer_authorization_code_client_id in Hi. destruct (rq_code req) as [code|] eqn:Ec; [|injection Hi as <- _; done].
  unstep. unfold Tokens.get_authorization_code in *. simplify_eq.
  destruct (codes st !! sha256_base64url code) as [ac|] eqn:Eac; cbn in *; [|done]. by eapply named_by_code.
Qed.

Lemma handle_token_inv req dpop x5t basic st resp st' :
  handle_token req dpop x5t basic st = (Ok resp, st') →
  ∃ client jkt st1, admitted req x5t basic st st1 client ∧ dispatch req client (confirmation jkt x5t) st1 = (Ok resp, st').
Proof.
  unfold handle_token, find_client_across_realms. intros Hok. apply bind_inv in Hok as (by_a & s0 & Ha & Hok). cbv zeta in Hok.
  apply of_result_inv in Ha as [Ha ->]. apply bind_inv in Hok as (inferred & s1 & Hi & Hok).
  apply bind_inv in Hok as (? & s2 & [He ->]%guard_inv & Hok). apply bind_inv in Hok as (? & s3 & [_ ->]%guard_inv & Hok).
  apply bind_inv in Hok as (client & s4 & [-> Hf]%find_client_inv & Hok).
  apply bind_inv in Hok as (realm & s5 & [Hr ->]%of_result_inv & Hok). apply bind_inv in Hok as (jkt & s6 & Hj & Hok).
  apply bind_inv in Hok as (? & s7 & [_ ->]%guard_inv & Hok). apply bind_inv in Hok as (? & s8 & Hv & Hok).
  apply bind_inv in Hok as (? & s9 & [Hform ->]%guard_inv & Hok). exists client, jkt, s8. split; [|done].
  assert (reads st s1) as H1 by (eapply reading_inv; [|exact Hi]; readonly).
  assert (reads s1 s6) as H2 by (eapply reading_inv; [|exact Hj]; readonly).
  assert (reads s6 s8) as H3 by (eapply reading_inv; [|exact Hv]; apply reading_auth).
  assert (store s1 = store st) as Hst by (by destruct H1). rewrite Hst in Hf. apply (found_sole _ st) in Hf as [Hid Hsole].
  destruct (validate_auth_inv _ _ _ _ _ _ _ _ Hv Ha) as (Hauth & Hgrant & Hassert & Hne).
  { by intros c ->. }
  split; [by repeat (etrans; [eassumption|])| |done| |done|].
  - split; [|done]. eapply token_named; [exact Ha|exact Hi|by rewrite <- Hid|done|done].
  - eapply authenticated_mono; [| |exact Hauth]; [etrans; [apply H1|apply H2]|done].
  - intros Hd form Hform'. rewrite Hd, Hform' in Hform. cbn in Hform. by apply negb_false_iff, String.eqb_eq in Hform.
Qed.

(** C8: Only an authenticated client is served.  When a token request succeeds, the grant was run for one
    client, and nothing was written before.  The request names that client: by its assertion, else by the
    Authorization header, else by the form, else (for an authorization code) by the code it presents.  The client's
    record is the only one of that identifier in the served realms.  The grant asked for is one the client is
    registered for.  And the request has proved the client's registered method: a secret with the registered hash
    for the secret methods, a registered certificate thumbprint for the TLS methods, an assertion of that client,
    verified during this request, for private_key_jwt where the realm allows it; a public client, and a confidential
    one stored with the method none, presents no credential at all. *)
Theorem token_client_authenticated (req : TokenRequest) (dpop x5t : option string) (basic : option BasicClientAuth)
    (st st' : St) (resp : TokenResponse) :
  handle_token req dpop x5t basic st = (Ok resp, st') →
  ∃ client cnf st1,
    names_client req basic st (client_id client) ∧ client_id client ≠ "" ∧ sole_client st client ∧
    grant_type req ∈ grant_types (body (c_body client)) ∧ authenticated (tick st) (tick st1) req client basic x5t ∧
    store st1 = store st ∧ dispatch req client cnf st1 = (Ok resp, st').
Proof.
  intros Hok. destruct (handle_token_inv _ _ _ _ _ _ _ Hok) as (client & jkt & st1 & [[Hs _] [Hn Hne] Hf Ha Hg _] & Hd).
  exists client, (confirmation jkt x5t), st1. by split_and!.
Qed.

(** ** One-time grants *)

Definition spends (st : St) (k : Tokens.OneTime) : bool := Tokens.spent (tokens (store st)) k.

Lemma grows_spends st st' k : grows st st' → spends st k = true → spends st' k = true.
Proof. intros Hg. apply Tokens.store_grows_spent, (g_spent _ _ Hg). Qed.

(** A consuming write that succeeds spends a credential that was not spent. *)
Lemma consuming_write o k st u st' :
  Tokens.consumes o = Some k → write_tokens (fun saved => Tokens.run_op o saved) st = (Ok u, st') →
  spends st k = false ∧ spends st' k = true.
Proof.
  intros Hc. unfold write_tokens, write. destruct (Tokens.run_op o (w_saved W (tick st)) (tokens (store st))) as [r s] eqn:E.
  cbn. intros [= -> <-]. destruct u. unfold spends. cbn.
  pose proof (Tokens.run_op_consumes o (w_saved W (tick st)) (tokens (store st)) k Hc) as H'. rewrite E in H'. by apply H'.
Qed.

(** The one-time credential a token request redeems. *)
Definition redeems (req : TokenRequest) : option Tokens.OneTime :=
  if String.eqb (grant_type req) "authorization_code" then (fun c => Tokens.KCode (sha256_base64url c)) <$> rq_code req
  else if String.eqb (grant_type req) DEVICE_GRANT then (fun c => Tokens.KDevice (sha256_base64url c)) <$> device_code req
  else if String.eqb (grant_type req) CIBA_GRANT then (fun c => Tokens.KBackchannel (sha256_base64url c)) <$> auth_req_id req
  else None.

(** What the authorization-code grant checks and issues. *)
Record code_accepted (req : TokenRequest) (client : ClientJ) (cnf : option J) (st : St)
    (ac : Tokens.AuthorizationCode (J := J)) (code : string) : Prop := {
  ca_code : rq_code req = Some code;
  ca_found : codes st !! sha256_base64url code = Some ac;
  ca_unused : Tokens.ac_used ac = false;
  ca_unexpired : w_now W (tick st) < Tokens.ac_expires_at ac;
  ca_redirect : rq_redirect_uri req = Some (Tokens.redirect_uri ac);
  ca_client : Tokens.ac_client_id ac = client_id client ∧ Tokens.ac_realm_id ac = c_realm_id client;
  ca_pkce : ∀ challenge, Tokens.code_challenge ac = Some challenge →
    Tokens.code_challenge_method ac = Some "S256" ∧ sha256_base64url (default "" (code_verifier req)) = challenge
}.

Lemma pkce_ok challenge method verifier :
  verify_code_verifier challenge method verifier = true →
  ∀ c, challenge = Some c → method = Some "S256" ∧ sha256_base64url verifier = c.
Proof.
  unfold verify_code_verifier. intros Hv c ->. destruct method as [m|]; cbn in Hv; [|done].
  destruct (String.eqb_spec m "S256") as [->|]; [|done]. cbn in Hv. split; [done|]. by apply String.eqb_eq.
Qed.

Lemma code_grant_inv req client cnf st resp st' :
  keyed st → authorization_code_grant req client cnf st = (Ok resp, st') →
  ∃ ac code, code_accepted req client cnf st ac code ∧ spends st' (Tokens.KCode (sha256_base64url code)) = true.
Proof.
  intros [_ Hk]. unfold authorization_code_grant. intros Hok.
  apply bind_inv in Hok as (code & s1 & [Hc ->]%require_inv & Hok). apply bind_inv in Hok as (redirect & s2 & [Hr ->]%require_inv & Hok).
  apply bind_inv in Hok as (found & s3 & [Hf ->]%read_tokens_inv & Hok). apply bind_inv in Hok as (ac & s4 & [-> ->]%require_inv & Hok).
  apply bind_inv in Hok as (now & s5 & [-> ->]%now_inv & Hok). apply bind_inv in Hok as (? & s6 & [Hg ->]%guard_inv & Hok).
  apply bind_inv in Hok as (? & s7 & [Hv ->]%guard_inv & Hok). apply bind_inv in Hok as (? & s8 & Hw & Hok).
  unfold Tokens.get_authorization_code in Hf. injection Hf as Hf.
  repeat (apply orb_false_iff in Hg as [Hg ?]). repeat match goal with H : negb _ = false |- _ => apply negb_false_iff in H end.
  repeat match goal with H : String.eqb _ _ = true |- _ => apply String.eqb_eq in H end. subst.
  exists ac, code. split.
  - split; try done. by apply N.leb_gt. by apply pkce_ok.
  - destruct (consuming_write (Tokens.OpUseCode ac) _ _ _ _ eq_refl Hw) as [_ Hs]. rewrite (Hk _ _ Hf) in Hs.
    match type of Hok with ?m s8 = _ => assert (growing m) as Hgr by grow end.
    specialize (Hgr s8). rewrite Hok in Hgr. by eapply grows_spends.
Qed.


(** The records of an issued pair: a new family and its first access token. *)
Record pair_issued (user : User) (cid realm : string) (scopes : list string) (c : TokenIssueClaims) (st st' : St) (j : string)
    : Prop := {
  pi_records : ∃ f t, families st' !! Tokens.tf_id f = Some f ∧ access st' !! j = Some t ∧
    Tokens.family_id t = Some (Tokens.tf_id f) ∧ families st !! Tokens.tf_id f = None ∧ access st !! j = None ∧
    Tokens.tf_user_id f = u_id user ∧ Tokens.tf_client_id f = cid ∧ Tokens.tf_realm_id f = realm ∧ Tokens.tf_scopes f = scopes ∧
    Tokens.tf_audience f = token_audience cid c ∧ Tokens.tf_resource f = token_resource c ∧
    Tokens.tf_sender_constraint f = ic_cnf c ∧ Tokens.tf_session_id f = ic_session_id c ∧ Tokens.tf_revoked f = false ∧
    Tokens.refresh_expires_at f = Some (saturating_add64 (w_now W (tick st)) (refresh_token_ttl_seconds (token_ttl state realm))) ∧
    Tokens.at_scopes t = scopes ∧ Tokens.at_audience t = token_audience cid c ∧ Tokens.at_cnf t = ic_cnf c ∧
    Tokens.at_revoked t = false ∧ Tokens.at_user_id t = u_id user ∧ Tokens.at_client_id t = cid ∧ Tokens.at_realm_id t = realm
}.

Lemma create_family_inv f st u st' :
  write_tokens (fun saved => Tokens.create_token_family saved f) st = (Ok u, st') →
  families st !! Tokens.tf_id f = None ∧ families st' = <[Tokens.tf_id f := f]> (families st) ∧ access st' = access st.
Proof.
  unfold write_tokens, write, Tokens.create_token_family. destruct (Tokens.token_families _ !! _) eqn:E; [done|]. cbn.
  destruct (w_saved W (tick st)); [|done]. by intros [= _ <-].
Qed.
Lemma create_token_inv t st u st' :
  write_tokens (fun saved => Tokens.create_access_token saved t) st = (Ok u, st') →
  access st !! Tokens.jti t = None ∧ access st' = <[Tokens.jti t := t]> (access st) ∧ families st' = families st.
Proof.
  unfold write_tokens, write, Tokens.create_access_token. destruct (Tokens.access_tokens _ !! _) eqn:E; [done|]. cbn.
  destruct (w_saved W (tick st)); [|done]. by intros [= _ <-].
Qed.

Lemma reading_format issuer j user cid realm scopes c : reading (format_access_token issuer j user cid realm scopes c).
Proof. unfold format_access_token, sign_access_token. readonly. Qed.
Lemma reading_sign_refresh issuer j user cid realm fid d : reading (sign_refresh_token issuer j user cid realm fid d).
Proof. unfold sign_refresh_token. readonly. Qed.
Lemma reading_jti : reading generate_jti.
Proof. intros st. split; cbn; [done|lia]. Qed.
#[local] Hint Resolve reading_format reading_sign_refresh reading_jti : reading.
Lemma reading_id_token issuer user cid realm scopes c o : reading (issue_id_token issuer user cid realm scopes c o).
Proof. unfold issue_id_token. readonly. Qed.
#[local] Hint Resolve reading_id_token : reading.

Lemma token_pair_inv issuer user cid realm scopes c st pair st' :
  issue_token_pair issuer user cid realm scopes c st = (Ok pair, st') →
  pair_issued user cid realm scopes c st st' (access_jti pair).
Proof.
  unfold issue_token_pair. intros Hok.
  apply bind_inv in Hok as (now & s1 & [-> ->]%now_inv & Hok). apply bind_inv in Hok as (aj & s2 & [-> ->]%jti_inv & Hok).
  apply bind_inv in Hok as (rj & s3 & [-> ->]%jti_inv & Hok). apply bind_inv in Hok as (fid & s4 & [-> ->]%jti_inv & Hok).
  cbv zeta in Hok. apply bind_inv in Hok as (? & s5 & (Hn & Hf & Ha)%create_family_inv & Hok).
  apply bind_inv in Hok as (? & s6 & (Hn' & Ha' & Hf')%create_token_inv & Hok).
  apply bind_inv in Hok as (at_ & s7 & Hr & Hok). apply bind_inv in Hok as (rt & s8 & Hr' & Hok).
  apply reading_inv in Hr as [Hr _]; [|apply reading_format]. apply reading_inv in Hr' as [Hr' _]; [|apply reading_sign_refresh].
  unfold ret in Hok. injection Hok as <- <-. split.
  match type of Hf with _ = <[_ := ?F]> _ => match type of Ha' with _ = <[_ := ?T]> _ => exists F, T end end.
  rewrite Hr', Hr, Hf', Ha', Hf. cbn in *. rewrite Ha in Hn'. split_and!; try done; apply lookup_insert_eq.
Qed.

(** C7: What an authorization code buys.  A code is redeemed only while it is unused and unexpired, by
    the client and realm it was issued to, with the redirection URI of the authorization request and,
    when it carries a challenge, with an S256 verifier of it; its user is of its realm.  The redemption
    spends the code and issues one new family and access token for exactly the code's user, client,
    realm and scopes, bound to the session of the authorization and to the key the request proved. *)
Theorem code_grant_sound (req : TokenRequest) (client : ClientJ) (cnf : option J) (st st' : St) (resp : TokenResponse) :
  keyed st → authorization_code_grant req client cnf st = (Ok resp, st') →
  ∃ ac code user auds j,
    code_accepted req client cnf st ac code ∧ spends st' (Tokens.KCode (sha256_base64url code)) = true ∧
    get_user_by_id (Tokens.ac_user_id ac) (store st) = Some user ∧ u_realm_id user = Tokens.ac_realm_id ac ∧
    (∃ realm, find_config state (Tokens.ac_realm_id ac) = Some realm ∧
       resolve_token_audience realm [] (Tokens.ac_resource ac) (Tokens.ac_scopes ac) cnf = Ok auds) ∧
    (∃ st1, store st1 = set_tokens (store st) (tokens (store st1)) ∧ families st1 = families st ∧ access st1 = access st ∧
       pair_issued user (Tokens.ac_client_id ac) (Tokens.ac_realm_id ac) (Tokens.ac_scopes ac)
         (code_claims ac (Some auds) cnf code None (Tokens.ac_session_id ac)) st1 st' j).
Proof.
  intros Hk Hok. destruct (code_grant_inv _ _ _ _ _ _ Hk Hok) as (ac & code & Hacc & Hsp).
  unfold authorization_code_grant in Hok.
  apply bind_inv in Hok as (code' & s1 & [Hc ->]%require_inv & Hok). apply bind_inv in Hok as (redirect & s2 & [_ ->]%require_inv & Hok).
  apply bind_inv in Hok as (found & s3 & [Hf ->]%read_tokens_inv & Hok). apply bind_inv in Hok as (ac' & s4 & [-> ->]%require_inv & Hok).
  assert (code' = code) as -> by (destruct Hacc; congruence).
  assert (ac' = ac) as -> by (destruct Hacc; unfold Tokens.get_authorization_code in Hf; congruence).
  apply bind_inv in Hok as (now & s5 & [_ ->]%now_inv & Hok). apply bind_inv in Hok as (? & s6 & [_ ->]%guard_inv & Hok).
  apply bind_inv in Hok as (? & s7 & [_ ->]%guard_inv & Hok). apply bind_inv in Hok as (? & s8 & Hw & Hok).
  assert (store s8 = set_tokens (store st) (tokens (store s8)) ∧ families s8 = families st ∧ access s8 = access st) as (Hset & Hfam & Htok).
  { unfold write_tokens, write in Hw. destruct (Tokens.mark_authorization_code_used _ _ _) as [r t] eqn:E. cbn in Hw. injection Hw as _ <-.
    cbn. unfold Tokens.mark_authorization_code_used in E. repeat case_match; by injection E as _ <-. }
  apply bind_inv in Hok as (u & s9 & [-> ->]%read_inv & Hok). apply bind_inv in Hok as (user & s10 & [Hu ->]%require_inv & Hok).
  apply bind_inv in Hok as (? & s11 & [Hur ->]%guard_inv & Hok). cbv zeta in Hok.
  apply bind_inv in Hok as (realm & s12 & [Hr ->]%require_inv & Hok). apply bind_inv in Hok as (auds & s13 & [Ha ->]%of_result_inv & Hok).
  apply bind_inv in Hok as (pair & s14 & Hp & Hok). apply bind_inv in Hok as (? & s15 & [_ ->]%now_inv & Hok).
  apply bind_inv in Hok as (idt & s16 & Hi & Hok). apply reading_inv in Hi as [Hi _]; [|apply reading_id_token].
  unfold ret in Hok. injection Hok as _ <-. apply token_pair_inv in Hp. exists ac, code, user, auds, (access_jti pair).
  rewrite Hset in Hu. split_and!; [done|done|done|by apply negb_false_iff, String.eqb_eq in Hur|by exists realm|].
  exists s8. split_and!; [done..|]. destruct Hp as [Hp]. split. cbn in Hi. by rewrite Hi.
Qed.


(** What the device grant checks: the grant is unexpired, unconsumed and approved, and is redeemed by the
    client it was made for. *)
Record device_accepted (req : TokenRequest) (cnf : option J) (st : St) (g : Tokens.DeviceAuthorizationGrant) (code : string)
    (user : User) (scopes : list string) : Prop := {
  da_code : device_code req = Some code;
  da_found : Tokens.device_authorization_grants (tokens (store st)) !! sha256_base64url code = Some g;
  da_unexpired : w_now W (tick st) < Tokens.dg_expires_at g;
  da_unconsumed : Tokens.dg_consumed g = false;
  da_client : rq_client_id req = Some (Tokens.dg_client_id g);
  da_user : ∃ uid, Tokens.dg_user_id g = Some uid ∧ get_user_by_id uid (store st) = Some user;
  da_realm : u_realm_id user = Tokens.dg_realm_id g;
  da_scopes : ∀ x, x ∈ scopes → x ∈ Tokens.dg_scopes g;
  da_target : ∃ realm, find_config state (Tokens.dg_realm_id g) = Some realm ∧ device_authorization_enabled realm = true ∧
    resolve_token_audience realm [] (Tokens.dg_resource g) scopes cnf = Ok (Tokens.dg_audience g)
}.

Lemma grant_target_ok realm req cid res auds granted cnf scopes :
  validate_grant_target realm req cid res auds granted cnf = Ok scopes →
  (∀ x, x ∈ scopes → x ∈ granted) ∧ resolve_token_audience realm [] res scopes cnf = Ok auds.
Proof.
  unfold validate_grant_target. cbv zeta. set (sc := match rq_scope req with Some r => split_whitespace r | None => granted end).
  destruct (_ || _ || _) eqn:E; [done|]. apply orb_false_iff in E as [_ E]. intros (cur & Hc & Hk)%res_bind_Ok.
  case_bool_decide as Heq; [|done]. injection Hk as <-. subst cur. split; [|done]. intros x Hx.
  apply str_in_spec. destruct (str_in x granted) eqn:Ex; [done|]. exfalso. enough (existsb (fun x => negb (str_in x granted)) sc = true) by congruence.
  apply existsb_exists. exists x. split; [by apply list_elem_of_In|by rewrite Ex].
Qed.

Lemma feature_inv rid p realm : find_config state rid = Some realm → feature rid p = p realm.
Proof. unfold feature, opt_is. by intros ->. Qed.

Lemma device_grant_inv req cnf st resp st' :
  device_code_grant req cnf st = (Ok resp, st') →
  ∃ g code user scopes, device_accepted req cnf st g code user scopes ∧
    spends st' (Tokens.KDevice (sha256_base64url code)) = true.
Proof.
  unfold device_code_grant. intros Hok. apply bind_inv in Hok as (code & s1 & [Hc ->]%require_inv & Hok). cbv zeta in Hok.
  apply bind_inv in Hok as (found & s2 & [Hf ->]%read_tokens_inv & Hok). apply bind_inv in Hok as (g & s3 & [-> ->]%require_inv & Hok).
  apply bind_inv in Hok as (now & s4 & [-> ->]%now_inv & Hok). apply bind_inv in Hok as (? & s5 & [He ->]%guard_inv & Hok).
  apply bind_inv in Hok as (? & s6 & [Hun ->]%guard_inv & Hok). apply bind_inv in Hok as (? & s7 & [Hcl ->]%guard_inv & Hok).
  apply bind_inv in Hok as (? & s8 & Hpoll & Hok). apply bind_inv in Hok as (uid & s9 & [Hu ->]%require_inv & Hok).
  rewrite Hu in Hpoll. unfold ret in Hpoll. injection Hpoll as _ <-.
  apply bind_inv in Hok as (u & s10 & [-> ->]%read_inv & Hok). apply bind_inv in Hok as (user & s11 & [Huser ->]%require_inv & Hok).
  apply bind_inv in Hok as (? & s12 & [Hr ->]%guard_inv & Hok). apply bind_inv in Hok as (realm & s13 & [_ ->]%require_inv & Hok).
  apply bind_inv in Hok as (? & s14 & [Hen ->]%guard_inv & Hok). apply bind_inv in Hok as (config & s15 & [Hconf ->]%of_result_inv & Hok).
  apply bind_inv in Hok as (scopes & s16 & [Hs ->]%of_result_inv & Hok). apply bind_inv in Hok as (? & s17 & Hw & Hok).
  unfold oauth_realm_config in Hconf. destruct (find_config _ _) as [cfg|] eqn:Ecfg; [|done]. injection Hconf as ->.
  rewrite (feature_inv _ _ _ Ecfg) in Hen. apply negb_false_iff in Hen. destruct (grant_target_ok _ _ _ _ _ _ _ _ Hs) as [Hsc Hres].
  exists g, code, user, scopes. split.
  - split; try done; [by injection Hf|by apply N.leb_gt| |by exists uid|by apply negb_false_iff, String.eqb_eq in Hr|by exists config].
    apply negb_false_iff in Hcl. by apply bool_decide_eq_true in Hcl.
  - destruct (consuming_write (Tokens.OpConsumeDevice (sha256_base64url code)) _ _ _ _ eq_refl Hw) as [_ Hsp].
    match type of Hok with ?m s17 = _ => assert (growing m) as Hgr by grow end.
    specialize (Hgr s17). rewrite Hok in Hgr. by eapply grows_spends.
Qed.

Lemma ciba_grant_inv req cnf st resp st' :
  ciba_grant req cnf st = (Ok resp, st') →
  ∃ g rid, auth_req_id req = Some rid ∧ Tokens.backchannel_authentication_grants (tokens (store st)) !! sha256_base64url rid = Some g ∧
    Tokens.bg_consumed g = false ∧ is_Some (Tokens.bg_approved_at g) ∧ rq_client_id req = Some (Tokens.bg_client_id g) ∧
    spends st' (Tokens.KBackchannel (sha256_base64url rid)) = true.
Proof.
  unfold ciba_grant. intros Hok. apply bind_inv in Hok as (rid & s1 & [Hc ->]%require_inv & Hok). cbv zeta in Hok.
  apply bind_inv in Hok as (found & s2 & [Hf ->]%read_tokens_inv & Hok). apply bind_inv in Hok as (g & s3 & [-> ->]%require_inv & Hok).
  apply bind_inv in Hok as (now & s4 & [-> ->]%now_inv & Hok). apply bind_inv in Hok as (? & s5 & [He ->]%guard_inv & Hok).
  apply bind_inv in Hok as (? & s6 & [Hun ->]%guard_inv & Hok). apply bind_inv in Hok as (? & s7 & [Hcl ->]%guard_inv & Hok).
  apply bind_inv in Hok as (? & s8 & Hap & Hok). destruct (Tokens.bg_approved_at g) as [t|] eqn:Et; [|unfold enforce_ciba_poll_interval in Hap; unstep].
  unfold ret in Hap. injection Hap as _ <-. apply bind_inv in Hok as (uid & s9 & [_ ->]%require_inv & Hok).
  apply bind_inv in Hok as (u & s10 & [_ ->]%read_inv & Hok). apply bind_inv in Hok as (user & s11 & [_ ->]%require_inv & Hok).
  apply bind_inv in Hok as (? & s12 & [_ ->]%guard_inv & Hok). apply bind_inv in Hok as (realm & s13 & [_ ->]%require_inv & Hok).
  apply bind_inv in Hok as (? & s14 & [_ ->]%guard_inv & Hok). apply bind_inv in Hok as (config & s15 & [_ ->]%of_result_inv & Hok).
  apply bind_inv in Hok as (scopes & s16 & [_ ->]%of_result_inv & Hok). apply bind_inv in Hok as (? & s17 & Hw & Hok).
  exists g, rid. split_and!; [done|by injection Hf|done|done| |].
  - apply negb_false_iff in Hcl. by apply bool_decide_eq_true in Hcl.
  - destruct (consuming_write (Tokens.OpConsumeBackchannel (sha256_base64url rid)) _ _ _ _ eq_refl Hw) as [_ Hsp].
    match type of Hok with ?m s17 = _ => assert (growing m) as Hgr by grow end.
    specialize (Hgr s17). rewrite Hok in Hgr. by eapply grows_spends.
Qed.


Lemma reads_keyed st st' : reads st st' → keyed st → keyed st'.
Proof. intros [Hs _]. unfold keyed. by rewrite Hs. Qed.

Lemma redeem_spends req d x b st resp st' k :
  keyed st → handle_token req d x b st = (Ok resp, st') → redeems req = Some k → spends st k = false ∧ spends st' k = true.
Proof.
  intros Hk Hok. destruct (handle_token_inv _ _ _ _ _ _ _ Hok) as (client & jkt & st1 & [Hr _ _ _ _] & Hd).
  assert (keyed st1) as Hk1 by (by eapply reads_keyed). assert (∀ q, spends st1 q = spends st q) as Hsp.
  { intros q. unfold spends. by destruct Hr as [-> _]. }
  unfold redeems, dispatch in *. cbv zeta in Hd.
  destruct (String.eqb_spec (grant_type req) "authorization_code") as [Hg|_].
  { destruct (code_grant_inv _ _ _ _ _ _ Hk1 Hd) as (ac & code & Ha & Hs). rewrite (ca_code _ _ _ _ _ _ Ha). intros [= <-].
    rewrite <- Hsp. split; [|done]. unfold spends. cbn. by rewrite (ca_found _ _ _ _ _ _ Ha), (ca_unused _ _ _ _ _ _ Ha). }
  destruct (String.eqb_spec (grant_type req) DEVICE_GRANT) as [Hg|_].
  { rewrite Hg in Hd. destruct (device_grant_inv _ _ _ _ _ Hd) as (g & code & user & sc & Ha & Hs). rewrite (da_code _ _ _ _ _ _ _ Ha).
    intros [= <-]. rewrite <- Hsp. split; [|done]. unfold spends. cbn. by rewrite (da_found _ _ _ _ _ _ _ Ha), (da_unconsumed _ _ _ _ _ _ _ Ha). }
  destruct (String.eqb_spec (grant_type req) CIBA_GRANT) as [Hg|_]; [|done].
  rewrite Hg in Hd. destruct (ciba_grant_inv _ _ _ _ _ Hd) as (g & rid & Hi & Hf & Hc & _ & _ & Hs). rewrite Hi. intros [= <-].
  rewrite <- Hsp. split; [|done]. unfold spends. cbn. by rewrite Hf.
Qed.

(** C5: A grant is redeemed once.  After a token request has redeemed an authorization code, a device
    code or a backchannel request, no later request succeeds with it, whatever requests, logins and
    repository calls come in between. *)
Theorem grant_redeemed_once (req req2 : TokenRequest) (d x d2 x2 : option string) (b b2 : option BasicClientAuth)
    (st st1 st2 : St) (resp : TokenResponse) (k : Tokens.OneTime) :
  keyed st → handle_token req d x b st = (Ok resp, st1) → redeems req = Some k →
  steps st1 st2 → redeems req2 = Some k → ∃ e, (handle_token req2 d2 x2 b2 st2).1 = Err e.
Proof.
  intros Hk Hok Hr Hs Hr2. destruct (redeem_spends _ _ _ _ _ _ _ _ Hk Hok Hr) as [_ Hsp].
  assert (keyed st1) as Hk1. { eapply grows_keyed; [|exact Hk]. pose proof (token_grows req d x b st Hk) as Hg. by rewrite Hok in Hg. }
  destruct (steps_grow _ _ Hk1 Hs) as [Hg Hk2]. destruct (handle_token req2 d2 x2 b2 st2) as [[resp2|e] st3] eqn:E; [|by exists e].
  destruct (redeem_spends _ _ _ _ _ _ _ _ Hk2 E Hr2) as [Hno _]. by rewrite (grows_spends _ _ _ Hg Hsp) in Hno.
Qed.

(** ** Refresh *)

Lemma refresh_grant_inv req client cnf st resp st' :
  keyed st → refresh_token_grant req client cnf st = (Ok resp, st') →
  ∃ token claims rj fid f user realm scopes now n,
    rq_refresh_token req = Some token ∧ decode_signature_only signer token = Ok claims ∧
    refresh_identity client claims = Ok (rj, fid) ∧ refresh_accepted req client cnf rj fid st f user realm scopes now ∧
    sha256_base64url rj ≠ sha256_base64url ("oat_" +:+ w_ulid W (S n)) ∧ (tick st <= n < tick st')%nat ∧
    families st' = <[fid := Tokens.with_refresh f (sha256_base64url ("oat_" +:+ w_ulid W (S n))) (Some (family_deadline f))]> (families st) ∧
    access st' = <["oat_" +:+ w_ulid W n := refreshed_token f ("oat_" +:+ w_ulid W n) scopes
                     (match Tokens.tf_audience f with [] => [Tokens.tf_client_id f] | l => l end) cnf now (family_deadline f)]> (access st) ∧
    tr_scope resp = Some (join " " scopes) ∧ expires_in resp <= saturating_sub (family_deadline f) now.
Proof.
  intros Hkey. unfold refresh_token_grant. intros Hok. apply bind_inv in Hok as (token & s1 & [Ht ->]%require_inv & Hok).
  apply bind_inv in Hok as (claims & s2 & [Hc ->]%of_result_inv & Hok). apply bind_inv in Hok as ([rj fid] & s3 & [Hi ->]%of_result_inv & Hok).
  apply bind_inv in Hok as ([[[[f user] realm] scopes] now] & s4 & Hch & Hok).
  destruct (refresh_checks_inv _ _ _ _ _ _ _ _ _ _ _ _ Hch) as [[Hst Htk] Ha]. cbv zeta in Hok.
  assert (Tokens.tf_id f = fid) as Hfid by (destruct Ha as [Hf]; by apply (proj1 Hkey)).
  assert (families s4 !! Tokens.tf_id f = Some f) as Hf. { rewrite Hst, Hfid. by destruct Ha. }
  apply bind_inv in Hok as (aj & s5 & [-> ->]%jti_inv & Hok). apply bind_inv in Hok as (rj' & s6 & [-> ->]%jti_inv & Hok).
  apply bind_inv in Hok as ([] & s7 & Hrot & Hok).
  destruct (rotate_family_cases _ _ _ _ (tick (bump s4)) _ (bump (bump s4)) _ _ eq_refl (le_n _) Hf eq_refl Hrot) as [_ Hr]. destruct (Hr eq_refl) as (Hne & Hfam & Htk').
  assert (access s7 = access s4) as Hacc.
  { unfold rotate_family, write_tokens, write in Hrot.
    destruct (Tokens.update_token_family_refresh_hash _ _ _ _ _ _ _ _) as [r0 s0] eqn:E. apply rotate_cases in E.
    destruct E as [(g & _ & _ & _ & -> & ->)|(err & -> & ->)]; [by injection Hrot as <-|].
    by destruct err. }
  apply bind_inv in Hok as (? & s8 & Hct & Hok). assert (tick s8 = S (tick s7)) as Htk8.
  { unfold write_tokens, write in Hct. destruct (Tokens.create_access_token _ _ _). by injection Hct as _ <-. }
  apply create_token_inv in Hct as (_ & Hat & Hft). apply bind_inv in Hok as (acc & s9 & Hfm & Hok).
  apply reading_inv in Hfm as [Hfm Htk9]; [|apply reading_format]. apply bind_inv in Hok as (ref & s10 & Hsr & Hok).
  apply reading_inv in Hsr as [Hsr Htk10]; [|apply reading_sign_refresh]. unfold ret in Hok. injection Hok as <- <-.
  exists token, claims, rj, fid, f, user, realm, scopes, now, (tick s4). cbn in *.
  split_and!; [done| |done|done|done|lia|lia| | |done|lia].
  - by destruct (decode_signature_only signer token); [injection Hc as ->|].
  - by rewrite Hsr, Hfm, Hft, Hfam, Hst, Hfid.
  - by rewrite Hsr, Hfm, Hat, Hacc, Hst.
Qed.


Lemma read_tokens_ok {A} (f : Tokens.Store → QidResult A) st a : f (tokens (store st)) = Ok a → read_tokens f st = (Ok a, st).
Proof. unfold read_tokens, bind, get_state, of_result. by intros ->. Qed.
Lemma require_ok {A} (o : option A) e st a : o = Some a → require o e st = (Ok a, st).
Proof. by intros ->. Qed.
Lemma read_ok {A} (f : Store → A) st : read f st = (Ok (f (store st)), st).
Proof. done. Qed.
Lemma now_ok st : now_seconds st = (Ok (w_now W (tick st)), bump st).
Proof. done. Qed.
Lemma bind_guard {A} b e (k : unit → M St A) st : bind (guard b e) k st = if b then (Err e, st) else k tt st.
Proof. by destruct b. Qed.

Lemma revoke_family_write {A} f st :
  families st !! Tokens.tf_id f = Some f →
  families (revoke_reused_family (A := A) f st).2 = <[Tokens.tf_id f := Tokens.family_or_revoked f true]> (families st).
Proof.
  intros Hf. unfold revoke_reused_family, ignore, bind, write_tokens, write, Tokens.revoke_token_family. cbn. rewrite Hf. cbn.
  by rewrite String.eqb_refl.
Qed.

(** A token whose hash is not the family's current one, presented by the family's client: refused, and
    the family is revoked unless it is past its deadline or its session is over. *)
Lemma reuse_checks req client cnf rj fid st f :
  families st !! fid = Some f → Tokens.tf_id f = fid → Tokens.tf_client_id f = client_id client →
  Tokens.tf_realm_id f = c_realm_id client → Tokens.current_refresh_hash f ≠ sha256_base64url rj →
  (∃ e, (refresh_checks req client cnf rj fid st).1 = Err e) ∧
  (w_now W (tick st) < family_deadline f → session_alive (store st) f (w_now W (tick st)) = true →
   ∃ f', families (refresh_checks req client cnf rj fid st).2 !! fid = Some f' ∧ Tokens.tf_revoked f' = true).
Proof.
  intros Hf Hid Hc Hr Hh. unfold refresh_checks.
  rewrite (bind_ok _ _ _ _ _ (read_tokens_ok _ _ _ (f_equal Ok Hf))), (bind_ok _ _ _ _ _ (require_ok _ _ _ _ eq_refl)).
  rewrite bind_guard, Hc, Hr, !String.eqb_refl. cbn [negb orb]. rewrite bind_guard.
  destruct (Tokens.tf_revoked f) eqn:Erev.
  { split; [by eexists|]. intros _ _. exists f. by split. }
  rewrite (bind_ok _ _ _ _ _ (now_ok st)), bind_guard. destruct (N.leb_spec (family_deadline f) (w_now W (tick st))) as [Hle|Hlt].
  { split; [by eexists|]. intros Hx. lia. }
  rewrite (bind_ok _ _ _ _ _ (read_ok _ (bump st))), bind_guard. cbn [store bump].
  destruct (session_alive (store st) f (w_now W (tick st))) eqn:Es; cbn [negb].
  2: { split; [by eexists|done]. }
  destruct (String.eqb_spec (Tokens.current_refresh_hash f) (sha256_base64url rj)) as [|_]; [done|]. cbn [negb].
  split; [by eexists|]. intros _ _. exists (Tokens.family_or_revoked f true).
  rewrite <- Hid, revoke_family_write by (cbn; by rewrite Hid). rewrite lookup_insert_eq. split; [done|]. cbn. by rewrite orb_true_r.
Qed.

Lemma reuse_revokes req client cnf rj fid st f {B} (k : _ → M St B) r s :
  families st !! fid = Some f → Tokens.tf_id f = fid → Tokens.tf_client_id f = client_id client →
  Tokens.tf_realm_id f = c_realm_id client → Tokens.current_refresh_hash f ≠ sha256_base64url rj →
  bind (refresh_checks req client cnf rj fid) k st = (r, s) →
  (∃ e, r = Err e) ∧
  (w_now W (tick st) < family_deadline f → session_alive (store st) f (w_now W (tick st)) = true →
   ∃ f', families s !! fid = Some f' ∧ Tokens.tf_revoked f' = true).
Proof.
  intros Hf Hid Hc Hr Hh. destruct (reuse_checks req client cnf rj fid st f Hf Hid Hc Hr Hh) as [[e He] Hrev].
  unfold bind. destruct (refresh_checks req client cnf rj fid st) as [[a|e'] s'] eqn:E; [done|]. cbn in *. intros [= <- <-]. split; [by eexists|done].
Qed.


(** What a refresh token buys.  A refresh succeeds only for the client and realm of its family, while
    the family is unrevoked, before its deadline and with its session alive; the token is the family's
    current one, and the sender constraint of the family is proved again.  The access token it issues
    belongs to the family's user, carries no scope the family was not granted and expires by the
    family's deadline; the family's hash moves on, its deadline stays. *)
Theorem refresh_grant_sound (req : TokenRequest) (client : ClientJ) (cnf : option J) (st st' : St) (resp : TokenResponse) :
  keyed st → refresh_token_grant req client cnf st = (Ok resp, st') →
  ∃ fid f f' j t, let now := w_now W (tick st) in
    families st !! fid = Some f ∧ Tokens.tf_client_id f = client_id client ∧ Tokens.tf_realm_id f = c_realm_id client ∧
    Tokens.tf_revoked f = false ∧ now < family_deadline f ∧ session_alive (store st) f now = true ∧
    binding_holds (store st) f cnf ∧
    families st' !! fid = Some f' ∧ family_core f' = family_core f ∧ family_deadline f' = family_deadline f ∧
    Tokens.current_refresh_hash f' ≠ Tokens.current_refresh_hash f ∧
    access st' !! j = Some t ∧ Tokens.family_id t = Some fid ∧ Tokens.at_user_id t = Tokens.tf_user_id f ∧
    (∀ x, x ∈ Tokens.at_scopes t → x ∈ Tokens.tf_scopes f) ∧ Tokens.at_expires_at t ≤ family_deadline f ∧
    Tokens.at_cnf t = or_else cnf (Tokens.tf_sender_constraint f) ∧ tr_scope resp = Some (join " " (Tokens.at_scopes t)).
Proof.
  intros Hk Hok. destruct (refresh_grant_inv _ _ _ _ _ _ Hk Hok)
    as (token & claims & rj & fid & f & user & realm & scopes & now & n & _ & _ & _ & Ha & Hne & _ & Hf & Ht & Hsc & _).
  destruct Ha as [Hfam [Hc Hr] Hl Hnow Hd Hs Hh [Hu _] _ Hscopes Hb]. assert (Tokens.tf_id f = fid) as Hid by (by apply (proj1 Hk)).
  eexists fid, f, _, _, _. cbv zeta. rewrite Hf, Ht, !lookup_insert_eq. rewrite Hnow in *. cbn.
  split_and!; try done; cbn; [rewrite Hh; by apply not_eq_sym|by rewrite Hid|lia].
Qed.

(** C4: The reuse of a refresh token kills its family.  Once a token has been refreshed, the same token
    presented again by its client is refused, whatever happened in between; and if the family is still
    within its deadline and session, that attempt revokes it for good: nothing un-revokes it, so no
    refresh of the family succeeds any more.  The hypothesis on hashes is that no identifier generated
    from then on has the hash of the reused token's. *)
Theorem refresh_reuse_contained (req req2 : TokenRequest) (client : ClientJ) (cnf cnf2 : option J) (st st1 st2 : St)
    (resp : TokenResponse) (token : string) (claims : JwtClaims) (rj fid : string) :
  keyed st → rq_refresh_token req = Some token → rq_refresh_token req2 = Some token →
  decode_signature_only signer token = Ok claims → refresh_identity client claims = Ok (rj, fid) →
  (∀ n, (tick st <= n)%nat → sha256_base64url ("oat_" +:+ w_ulid W n) ≠ sha256_base64url rj) →
  refresh_token_grant req client cnf st = (Ok resp, st1) → steps st1 st2 →
  let st3 := (refresh_token_grant req2 client cnf2 st2).2 in
  let now := w_now W (tick st2) in
  (∃ e, (refresh_token_grant req2 client cnf2 st2).1 = Err e) ∧
  ∃ f, families st2 !! fid = Some f ∧
    (now < family_deadline f → session_alive (store st2) f now = true →
     ∀ st4, steps st3 st4 → ∃ f', families st4 !! fid = Some f' ∧ Tokens.tf_revoked f' = true).
Proof.
  intros Hk Ht Ht2 Hdec Hid Hfresh Hok Hsteps st3 now.
  destruct (refresh_grant_inv _ _ _ _ _ _ Hk Hok)
    as (token' & claims' & rj' & fid' & f0 & user & realm & scopes & now0 & n & Ht' & Hdec' & Hid' & Ha & Hne & Hn & Hf & _).
  assert (token' = token ∧ claims' = claims) as [-> ->] by (split; congruence). rewrite Hid in Hid'. injection Hid' as <- <-.
  pose proof (refresh_grows req client cnf st Hk) as Hg. rewrite Hok in Hg.
  assert (keyed st1) as Hk1 by (by eapply grows_keyed). destruct (steps_grow _ _ Hk1 Hsteps) as [Hg2 Hk2].
  assert (families st1 !! fid = Some (Tokens.with_refresh f0 (sha256_base64url ("oat_" +:+ w_ulid W (S n))) (Some (family_deadline f0)))) as H1
    by (by rewrite Hf, lookup_insert_eq).
  destruct (g_families _ _ Hg2 _ _ H1) as (f & Hf2 & Hkept).
  assert (Tokens.current_refresh_hash f ≠ sha256_base64url rj) as Hcur.
  { destruct (g_hash _ _ Hg2 _ _ _ H1 Hf2) as [->|(m & Hm & ->)]; cbn; [by apply not_eq_sym|]. apply Hfresh. cbn in Hn. lia. }
  assert (Tokens.tf_client_id f = client_id client ∧ Tokens.tf_realm_id f = c_realm_id client) as [Hcl Hrl].
  { destruct Hkept as [Hcore _], Ha as [_ [Hc Hr]]. injection Hcore as ??????????. cbn in *. split; congruence. }
  assert (∀ r s, refresh_token_grant req2 client cnf2 st2 = (r, s) → (∃ e, r = Err e) ∧
    (now < family_deadline f → session_alive (store st2) f now = true → ∃ f', families s !! fid = Some f' ∧ Tokens.tf_revoked f' = true)) as Hreplay.
  { intros r s. unfold refresh_token_grant. rewrite Ht2. cbn -[refresh_checks]. rewrite Hdec. cbn -[refresh_checks].
    rewrite Hid. cbn -[refresh_checks]. apply reuse_revokes; auto. by apply (proj1 Hk2). }
  destruct (refresh_token_grant req2 client cnf2 st2) as [r s] eqn:E2. cbn in st3. destruct (Hreplay r s eq_refl) as [He Hrev]. split; [done|].
  exists f. split; [done|]. intros Hd Hs st4 Hs4. destruct (Hrev Hd Hs) as (f' & Hf' & Hr').
  pose proof (refresh_grows req2 client cnf2 st2 Hk2) as Hg3. rewrite E2 in Hg3.
  destruct (steps_grow _ _ (grows_keyed _ _ Hg3 Hk2) Hs4) as [Hg4 _]. destruct (g_families _ _ Hg4 _ _ Hf') as (f'' & Hf'' & _ & _ & Hrr). eauto.
Qed.


(** ** Revocation and introspection *)

















(** A presented token names a record. *)
Lemma identifier_named token j act (d : DecodedAccessToken) :
  token_identifier token = Ok (j, act) → dt_act d = act →
  token = "oat_" +:+ j ∧ dt_act d = None ∨
  ∃ claims, decode_signature_only signer token = Ok claims ∧ jti claims = Some j ∧ dt_act d = extra claims !! "act".
Proof.
  unfold token_identifier, decode_opaque_access_token. destruct (strip_prefix "oat_" token) as [j'|] eqn:Ep.
  - intros [= -> <-]. left. by apply strip_prefix_Some in Ep.
  - destruct (decode_signature_only signer token) as [claims|]; [|done]. cbn. destruct (jti claims) as [j'|] eqn:Ej; [|done]. cbn.
    intros [= <- <-]. right. eauto.
Qed.

(** The access token a resource server may hear of. *)
Definition targets (t : Tokens.AccessToken (J := J)) (s : OAuthResourceServerConfig) : Prop :=
  rs_audience s ∈ Tokens.at_audience t ∨ ∃ r, r ∈ resources s ∧ r ∈ Tokens.at_resource t.

Lemma targets_spec t act s : token_targets_resource_server (decoded_of t act) s = true ↔ targets t s.
Proof.
  unfold token_targets_resource_server, targets. cbn. rewrite orb_true_iff, !existsb_exists.
  split.
  - intros [(a & Ha%list_elem_of_In & ->%String.eqb_eq)|(r & Hr%list_elem_of_In & Hs%str_in_spec)]; eauto.
  - intros [Ha|(r & Hs & Hr)]; [left; eexists; rewrite <- list_elem_of_In; split; [exact Ha|apply String.eqb_refl]|].
    right. exists r. rewrite <- list_elem_of_In. split; [done|by apply str_in_spec].
Qed.

(** The resource server an introspection request is about: the named one, or the only one the token is for. *)
Definition selected (realm : OAuthRealmConfig) (req : IntrospectRequest) (t : Tokens.AccessToken (J := J)) (s : OAuthResourceServerConfig) : Prop :=
  s ∈ resource_servers realm ∧ (∀ a, ir_audience req = Some a → rs_audience s = a) ∧ (∀ r, ir_resource req = Some r → r ∈ resources s) ∧
  (ir_audience req = None → ir_resource req = None → ∀ s', s' ∈ resource_servers realm → targets t s' → s' = s).

Lemma select_server_ok realm req t act s :
  select_introspection_resource_server realm req (decoded_of t act) = Some s → selected realm req t s.
Proof.
  unfold select_introspection_resource_server, selected. rewrite list_elem_of_In.
  destruct (ir_audience req) as [a|], (ir_resource req) as [r|].
  1-3: intros [Hin He]%List.find_some; rewrite ?andb_true_iff, ?String.eqb_eq, ?str_in_spec in He; naive_solver.
  destruct (List.filter _ _) as [|x [|]] eqn:E; try done. intros [= <-].
  assert (∀ s', In s' (resource_servers realm) → targets t s' → In s' [x]) as Hone.
  { intros s' Hin Ht. rewrite <- E. apply List.filter_In. split; [done|]. by apply targets_spec. }
  assert (In x (List.filter (token_targets_resource_server (decoded_of t act)) (resource_servers realm))) as [? _]%List.filter_In by (rewrite E; by left).
  split_and!; [done..|]. intros _ _ s' Hin Ht. rewrite list_elem_of_In in Hin. destruct (Hone s' Hin Ht) as [->|[]]. done.
Qed.

(** What an answer says of a token to a resource server. *)
Record disclosed (t : Tokens.AccessToken (J := J)) (s : OAuthResourceServerConfig) (d : DecodedAccessToken) : Prop := {
  di_user : dt_user_id d = Tokens.at_user_id t; di_client : dt_client_id d = Tokens.at_client_id t;
  di_realm : dt_realm_id d = Tokens.at_realm_id t; di_exp : dt_exp d = Tokens.at_expires_at t; di_cnf : dt_cnf d = Tokens.at_cnf t;
  di_authentication : dt_auth_time d = Tokens.at_auth_time t ∧ dt_acr d = Tokens.at_acr t ∧ dt_amr d = Tokens.at_amr t;
  di_aud : ∀ a, a ∈ dt_aud d ↔ a = rs_audience s ∧ a ∈ Tokens.at_audience t;
  di_resource : ∀ r, r ∈ dt_resource d ↔ r ∈ resources s ∧ r ∈ Tokens.at_resource t;
  di_any_scope : rs_scopes s = [] → dt_scope d = join " " (Tokens.at_scopes t);
  di_scopes : rs_scopes s ≠ [] → ∃ l, l ≠ [] ∧ dt_scope d = join " " l ∧
    ∀ x, x ∈ l ↔ x ∈ rs_scopes s ∧ x ∈ split_whitespace (join " " (Tokens.at_scopes t))
}.

Lemma filter_decoded_ok t act s d :
  filter_decoded_for_resource_server (decoded_of t act) s = Some d → disclosed t s d ∧ dt_act d = act.
Proof.
  unfold filter_decoded_for_resource_server. cbv zeta. intros Hd.
  assert (∃ sc, d = {| dt_user_id := Tokens.at_user_id t; dt_client_id := Tokens.at_client_id t; dt_realm_id := Tokens.at_realm_id t;
       dt_exp := Tokens.at_expires_at t; dt_scope := sc; dt_cnf := Tokens.at_cnf t;
       dt_aud := List.filter (fun a => String.eqb a (rs_audience s)) (Tokens.at_audience t);
       dt_resource := List.filter (fun r => str_in r (resources s)) (Tokens.at_resource t); dt_auth_time := Tokens.at_auth_time t;
       dt_acr := Tokens.at_acr t; dt_amr := Tokens.at_amr t; dt_nonce := Tokens.at_nonce t; dt_token_format := Tokens.token_format t; dt_act := act |} ∧
    (rs_scopes s = [] → sc = join " " (Tokens.at_scopes t)) ∧
    (rs_scopes s ≠ [] → ∃ l, l ≠ [] ∧ sc = join " " l ∧
       ∀ x, x ∈ l ↔ x ∈ rs_scopes s ∧ x ∈ split_whitespace (join " " (Tokens.at_scopes t)))) as (sc & -> & Hno & Hsc).
  { destruct (rs_scopes s) as [|y ys] eqn:Es; [injection Hd as <-; eexists; by split|].
    destruct (List.filter _ (split_whitespace _)) as [|z zs] eqn:Ez; [done|]. injection Hd as <-. eexists. split; [done|]. split; [done|]. intros _.
    exists (z :: zs). split_and!; [done..|]. intros x. rewrite <- Ez, elem_of_lfilter, str_in_spec. cbn. tauto. }
  split; [|done]. split; cbn; try done.
  - intros a. rewrite elem_of_lfilter, String.eqb_eq. tauto.
  - intros r. rewrite elem_of_lfilter, str_in_spec. tauto.
Qed.

(** The caller of the introspection endpoint: the sole client of the identifier it presents, confidential, with the secret of
    its registered hash presented the registered way. *)
Definition introspection_caller (basic : option BasicClientAuth) (req : IntrospectRequest) (st : St) (caller : ClientJ) : Prop :=
  let b := body (c_body caller) in
  sole_client st caller ∧ client_type b = Confidential ∧
  ∃ secret, secret ≠ "" ∧ client_secret_hash b = Some (client_secret_hash_of secret) ∧
    (token_endpoint_auth_method b = "client_secret_basic" ∧
       basic = Some {| ba_client_id := client_id caller; ba_client_secret := secret |} ∨
     token_endpoint_auth_method b = "client_secret_post" ∧ basic = None ∧ ir_client_id req = Some (client_id caller) ∧
       ir_client_secret req = Some secret).

Lemma authenticate_introspection_inv basic req st caller st' :
  authenticate_introspection_client basic req st = (Ok caller, st') → st' = st ∧ introspection_caller basic req st caller.
Proof.
  unfold authenticate_introspection_client. intros Hok. apply bind_inv in Hok as ([[cid secret] used] & s1 & Hp & Hok).
  assert (s1 = st ∧ ((∃ sec, basic = Some {| ba_client_id := cid; ba_client_secret := sec |} ∧ secret = Some sec ∧ used = "client_secret_basic") ∨
    basic = None ∧ ir_client_id req = Some cid ∧ secret = ir_client_secret req ∧ used = "client_secret_post")) as [-> Hpres].
  { destruct basic as [[i sec]|]; [unfold ret in Hp; injection Hp as <- <- <- <-; split; [done|left; eauto]|]. unstep. subst. split; [done|right; eauto]. }
  apply bind_inv in Hok as (? & s2 & [_ ->]%guard_inv & Hok). apply bind_inv in Hok as (c & s3 & [-> Hf]%find_client_inv & Hok).
  apply bind_inv in Hok as ([] & s4 & [Hv ->]%of_result_inv & Hok). unfold ret in Hok. injection Hok as <- <-. split; [done|].
  apply found_sole in Hf as [<- Hs]. split; [done|]. unfold verify_introspection_client_secret in Hv.
  destruct (client_type _); [|done]. split; [done|]. destruct (String.eqb_spec (token_endpoint_auth_method (body (c_body c))) used) as [Hm|]; [|done].
  cbn [negb] in Hv. destruct (negb _); [done|]. destruct (verify_secret_ok _ _ Hv) as (sec & Hsec & Hne & Hh). exists sec. split_and!; [done..|].
  destruct Hpres as [(sec' & -> & -> & ->)|(-> & Hi & -> & ->)]; [left; split; [done|congruence]|right; by split_and!].
Qed.

(** C11: Introspection discloses a live token, and only to a resource server it is meant for.  An active answer
    goes to the sole client of the identifier the caller presents, a confidential one that presented the secret of its
    registered hash in its registered way.  The presented token names a stored access token of that client's realm,
    where introspection is enabled; it is not revoked, and the clock read during this request is before its expiry.
    The server is the one the request names, or the only one of the realm the token is for; it lists the caller, and
    the token is for it.  The answer describes that token: the server's audience and resources as far as the token has
    them, and when the server restricts scopes, exactly the scopes of the token that it lists, of which there is one.
    A signed answer is given when it was asked for and the realm allows it.  Nothing is written. *)
Theorem introspection_sound (basic : option BasicClientAuth) (req : IntrospectRequest) (st st' : St) (d : DecodedAccessToken) (jwt : bool) :
  introspect basic req st = (Ok (Active d jwt), st') →
  ∃ caller server realm j t,
    introspection_caller basic req st caller ∧
    (ir_token req = "oat_" +:+ j ∧ dt_act d = None ∨
     ∃ claims, decode_signature_only signer (ir_token req) = Ok claims ∧ jti claims = Some j ∧ dt_act d = extra claims !! "act") ∧
    access st !! j = Some t ∧ Tokens.at_revoked t = false ∧ w_now W (tick st) < Tokens.at_expires_at t ∧ Tokens.at_realm_id t = c_realm_id caller ∧
    find_config state (c_realm_id caller) = Some realm ∧ introspection_enabled realm = true ∧
    selected realm req t server ∧ client_id caller ∈ introspection_client_ids server ∧ targets t server ∧ disclosed t server d ∧
    (jwt = true ↔ ir_response_format req = Some "jwt") ∧ (jwt = true → introspection_jwt_response realm = true) ∧ store st' = store st.
Proof.
  unfold introspect. destruct (negb _); [done|]. intros (caller & s1 & Ha & Hok)%bind_inv.
  apply authenticate_introspection_inv in Ha as [-> Hcaller].
  destruct (decode_access_token (ir_token req) st) as [[d0|e] s2] eqn:Ed; [|done]. injection Hok as Hok <-.
  unfold decode_access_token in Ed. apply bind_inv in Ed as ([j act] & s3 & [Hi ->]%of_result_inv & Ed).
  apply bind_inv in Ed as (found & s4 & [Hf ->]%read_tokens_inv & Ed). apply bind_inv in Ed as (t & s5 & [-> ->]%require_inv & Ed).
  apply bind_inv in Ed as (now & s6 & [-> ->]%now_inv & Ed). apply bind_inv in Ed as (? & s7 & [Hg ->]%guard_inv & Ed).
  unfold ret in Ed. injection Ed as <- <-. apply orb_false_iff in Hg as [Hrev Hexp%N.leb_gt]. injection Hf as Hf.
  unfold introspect_decoded in Hok. cbn [dt_realm_id decoded_of fst snd] in Hok.
  destruct (find_config state (Tokens.at_realm_id t)) as [realm|] eqn:Er; [|done]. cbv zeta in Hok.
  destruct (String.eqb_spec (c_realm_id caller) (Tokens.at_realm_id t)) as [Hrealm|]; [|done]. cbn [negb] in Hok.
  destruct (introspection_enabled realm) eqn:Een; [|done]. cbn [negb] in Hok. destruct (_ && negb _) eqn:Ejwt; [done|].
  destruct (resource_servers realm) as [|s0 ss] eqn:Ess; [done|].
  destruct (select_introspection_resource_server realm req _) as [server|] eqn:Esel; [|done].
  destruct (str_in (client_id caller) (introspection_client_ids server)) eqn:Eid; [|done]. cbn [negb] in Hok.
  destruct (token_targets_resource_server _ server) eqn:Et; [|done]. cbn [negb] in Hok.
  destruct (filter_decoded_for_resource_server _ server) as [d'|] eqn:Efd; [|done]. injection Hok as <- <-.
  apply filter_decoded_ok in Efd as [Hdis Hact]. apply select_server_ok in Esel. apply targets_spec in Et. apply str_in_spec in Eid.
  exists caller, server, realm, j, t. rewrite Hrealm.
  split_and!; try done; [by eapply identifier_named|by rewrite bool_decide_eq_true|].
  intros Hj. rewrite Hj in Ejwt. by apply negb_false_iff in Ejwt.
Qed.

(** ** A refresh token that is issued works *)

Lemma write_tokens_tick {A} (g : QidResult unit → Tokens.Store → QidResult A * Tokens.Store) st r st' :
  write_tokens g st = (r, st') → tick st' = S (tick st).
Proof. unfold write_tokens, write. destruct (g _ _). cbn. by intros [= _ <-]. Qed.

Lemma bind_of_ok {A B} (a : A) (k : A → M St B) st : bind (of_result (Ok a)) k st = k a st.
Proof. done. Qed.
Lemma bind_jti {B} (k : string → M St B) st : bind generate_jti k st = k ("oat_" +:+ w_ulid W (tick st)) (bump st).
Proof. done. Qed.

(** The refresh token of a pair and the family it names. *)
Lemma pair_refresh_inv issuer user cid realm scopes c st pair st' :
  issue_token_pair issuer user cid realm scopes c st = (Ok pair, st') →
  ∃ claims f n, sign signer claims = Ok (tp_refresh_token pair) ∧ aud claims = Some (Single cid) ∧
    jti claims = Some ("oat_" +:+ w_ulid W n) ∧ extra claims !! "family_id" = Some (VString (Tokens.tf_id f)) ∧ (n < tick st')%nat ∧
    families st' !! Tokens.tf_id f = Some f ∧ Tokens.current_refresh_hash f = sha256_base64url ("oat_" +:+ w_ulid W n) ∧
    Tokens.tf_revoked f = false ∧ Tokens.tf_client_id f = cid ∧ Tokens.tf_realm_id f = realm ∧ Tokens.tf_user_id f = u_id user ∧
    Tokens.tf_scopes f = scopes ∧ Tokens.tf_sender_constraint f = ic_cnf c ∧ Tokens.tf_session_id f = ic_session_id c ∧
    family_deadline f = saturating_add64 (w_now W (tick st)) (refresh_token_ttl_seconds (token_ttl state realm)).
Proof.
  unfold issue_token_pair. intros Hok.
  apply bind_inv in Hok as (now & s1 & [-> ->]%now_inv & Hok). apply bind_inv in Hok as (aj & s2 & [-> ->]%jti_inv & Hok).
  apply bind_inv in Hok as (rj & s3 & [-> ->]%jti_inv & Hok). apply bind_inv in Hok as (fid & s4 & [-> ->]%jti_inv & Hok).
  cbv zeta in Hok. apply bind_inv in Hok as (? & s5 & Hcf & Hok). pose proof (write_tokens_tick _ _ _ _ Hcf) as Htk5.
  apply create_family_inv in Hcf as (_ & Hf & _). apply bind_inv in Hok as (? & s6 & Hct & Hok).
  pose proof (write_tokens_tick _ _ _ _ Hct) as Htk6. apply create_token_inv in Hct as (_ & _ & Hf').
  apply bind_inv in Hok as (at_ & s7 & Hr & Hok). apply reading_inv in Hr as [Hr Htk7]; [|apply reading_format].
  apply bind_inv in Hok as (rt & s8 & Hs & Hok). pose proof Hs as Hs'. apply reading_inv in Hs' as [Hr' Htk8]; [|apply reading_sign_refresh].
  unfold ret in Hok. injection Hok as <- <-. unfold sign_refresh_token in Hs.
  apply bind_inv in Hs as (? & s9 & _ & Hs). apply of_result_inv in Hs as [Hs _]. unfold signed in Hs.
  destruct (sign signer _) as [tok|] eqn:Es in Hs; [|done]. injection Hs as ->.
  match type of Hf with _ = <[_ := ?F]> _ => match type of Es with sign _ ?C = _ => exists C, F end end.
  eexists. cbn in *. split_and!; try done; [lia|]. by rewrite Hr', Hr, Hf', Hf, lookup_insert_eq.
Qed.

Lemma rotate_live f realm e n d st :
  families st !! Tokens.tf_id f = Some f → Tokens.tf_realm_id f = realm → Tokens.tf_revoked f = false →
  Tokens.current_refresh_hash f = e → n ≠ e → (∀ k, w_saved W k = Ok tt) →
  ∃ s, rotate_family f realm e n d st = (Ok tt, s) ∧ access s = access st ∧ tick s = S (tick st).
Proof.
  intros Hf Hr Hrev He Hne Hsave. unfold rotate_family, write_tokens, write, Tokens.update_token_family_refresh_hash, Tokens.rotate_begin,
    Tokens.opt_filter. rewrite Hf, Hr, String.eqb_refl. unfold Tokens.validate_token_family_rotation. rewrite Hrev, He, String.eqb_refl. cbn.
  rewrite (proj2 (String.eqb_neq n e)), (proj2 (String.eqb_neq e n)) by done. cbn. rewrite Hsave. destruct mode; eexists; by split_and!.
Qed.

Lemma create_token_live t st :
  access st !! Tokens.jti t = None → (∀ k, w_saved W k = Ok tt) →
  ∃ s, write_tokens (fun saved => Tokens.create_access_token saved t) st = (Ok tt, s) ∧ access s = <[Tokens.jti t := t]> (access st).
Proof.
  intros Hn Hs. unfold write_tokens, write, Tokens.create_access_token. rewrite Hn. cbn. rewrite Hs. eauto.
Qed.

Lemma format_live issuer j user cid realm scopes c st :
  (∀ cl ty, ∃ s, sign_with_typ signer cl ty = Ok s) → ∃ tok s, format_access_token issuer j user cid realm scopes c st = (Ok tok, s).
Proof.
  intros Hs. unfold format_access_token. destruct (access_token_format _); [|by eexists _, _]. unfold sign_access_token.
  rewrite (bind_ok _ _ _ _ _ (now_ok st)). unfold of_result, signed. edestruct Hs as [s' ->]. by eexists _, _.
Qed.

Lemma sign_refresh_live issuer j user cid realm fid d st :
  (∀ cl, ∃ s, sign signer cl = Ok s) → ∃ tok s, sign_refresh_token issuer j user cid realm fid d st = (Ok tok, s).
Proof.
  intros Hs. unfold sign_refresh_token. rewrite (bind_ok _ _ _ _ _ (now_ok st)). unfold of_result, signed.
  edestruct Hs as [s' ->]. by eexists _, _.
Qed.

(** Identifiers drawn from [st] on are new: none is an access token's, and none hashes to a family's current token. *)
Definition fresh_identifiers (st : St) : Prop :=
  ∀ n, (tick st ≤ n)%nat → access st !! ("oat_" +:+ w_ulid W n) = None ∧
    ∀ k f, families st !! k = Some f → Tokens.current_refresh_hash f ≠ sha256_base64url ("oat_" +:+ w_ulid W n).

(** The scopes a refresh asks for: the named ones, else the granted ones. *)
Definition asked_scopes (granted : list string) (req : TokenRequest) : list string :=
  match rq_scope req with Some r => split_whitespace r | None => granted end.

Lemma narrow_asked granted req :
  (∀ x, x ∈ asked_scopes granted req → x ∈ granted) → narrow_scopes granted (rq_scope req) = Ok (asked_scopes granted req).
Proof.
  unfold asked_scopes, narrow_scopes. destruct (rq_scope req) as [r|]; [|done]. intros Hx%check_narrowed_ok. by rewrite Hx.
Qed.

Section LiveServer.
Context (sign_decodes : ∀ cl s, sign signer cl = Ok s → decode_signature_only signer s = Ok cl).
Context (sign_signs : ∀ cl, ∃ s, sign signer cl = Ok s) (typ_signs : ∀ cl ty, ∃ s, sign_with_typ signer cl ty = Ok s).
Context (writes_succeed : ∀ k, w_saved W k = Ok tt).

(** The refresh grant on the family of an issued pair. *)
Lemma refresh_live issuer user client realm scopes c st st1 pair req :
  let rid := c_realm_id client in
  let now := w_now W (tick st1) in
  issue_token_pair issuer user (client_id client) rid scopes c st = (Ok pair, st1) →
  rq_refresh_token req = Some (tp_refresh_token pair) → (∀ x, x ∈ asked_scopes scopes req → x ∈ scopes) → scopes ≠ [] → ic_cnf c = None →
  get_user_by_id (u_id user) (store st1) = Some user → u_realm_id user = rid → find_plan state rid = Some realm →
  now < saturating_add64 (w_now W (tick st)) (refresh_token_ttl_seconds (token_ttl state rid)) →
  (∀ sid, ic_session_id c = Some sid → ∃ x, get_session sid (store st1) = Some x ∧ s_realm_id x = rid ∧ is_active x now = true) →
  fresh_identifiers st1 →
  ∃ resp st2 rt j t, refresh_token_grant req client None st1 = (Ok resp, st2) ∧
    tr_scope resp = Some (join " " (asked_scopes scopes req)) ∧ refresh_token resp = Some rt ∧
    access st1 !! j = None ∧ access st2 !! j = Some t ∧ Tokens.at_user_id t = u_id user ∧ Tokens.at_client_id t = client_id client ∧
    Tokens.at_realm_id t = rid ∧ Tokens.at_scopes t = asked_scopes scopes req ∧ Tokens.at_revoked t = false.
Proof.
  intros rid now Hpair Hrt Hsc Hne Hcnf Hu Hur Hplan Hnow Hsess Hfresh.
  destruct (pair_refresh_inv _ _ _ _ _ _ _ _ _ Hpair) as (claims & f & n & Hs & Haud & Hj & Hfam & Hn & Hf & Hh & Hrev & Hcl & Hrl & Hus & Hfs & Hfc & Hfsess & Hd).
  unfold refresh_token_grant. rewrite (bind_ok _ _ _ _ _ (require_ok _ _ _ _ Hrt)), (sign_decodes _ _ Hs). cbn [map_err].
  rewrite bind_of_ok. assert (refresh_identity client claims = Ok ("oat_" +:+ w_ulid W n, Tokens.tf_id f)) as ->.
  { unfold refresh_identity. rewrite Haud. cbn -[String.eqb]. rewrite String.eqb_refl. cbn -[String.append]. by rewrite Hj, Hfam. }
  rewrite bind_of_ok. cbn [fst snd].
  assert (refresh_checks req client None ("oat_" +:+ w_ulid W n) (Tokens.tf_id f) st1 = (Ok (f, user, realm, asked_scopes scopes req, now), bump st1)) as Hch.
  { unfold refresh_checks. rewrite (bind_ok _ _ _ _ _ (read_tokens_ok _ _ _ (f_equal Ok Hf))), (bind_ok _ _ _ _ _ (require_ok _ _ _ _ eq_refl)).
    rewrite !bind_guard, Hcl, Hrl, Hrev, !String.eqb_refl. cbn [negb orb]. rewrite (bind_ok _ _ _ _ _ (now_ok st1)), bind_guard.
    rewrite (proj2 (N.leb_gt _ _)) by (by rewrite Hd). rewrite (bind_ok _ _ _ _ _ (read_ok _ (bump st1))), bind_guard.
    assert (session_alive (store (bump st1)) f (w_now W (tick st1)) = true) as ->.
    { unfold session_alive. rewrite Hfsess. destruct (ic_session_id c) as [sid|]; [|done]. destruct (Hsess sid eq_refl) as (x & Hx & Hxr & Hxa).
      cbn [store bump]. rewrite Hx, Hxr, Hrl, String.eqb_refl. exact Hxa. }
    cbn [negb]. rewrite Hh, String.eqb_refl. cbn [negb]. rewrite (bind_ok _ _ _ _ _ (read_ok _ (bump st1))), Hus.
    rewrite (bind_ok _ _ _ _ _ (require_ok _ _ (bump st1) _ Hu)), bind_guard, Hur, String.eqb_refl. cbn [negb].
    rewrite (bind_ok _ _ _ _ _ (require_ok _ _ (bump st1) _ Hplan)), bind_guard, Hfs.
    rewrite (narrow_asked _ _ Hsc). destruct scopes as [|y ys]; [done|].
    rewrite bind_of_ok, Hfc, Hcnf. cbn [check_mtls_binding]. rewrite bind_of_ok. unfold check_dpop_binding. rewrite Hfc, Hcnf. cbn [mbind option_bind].
    by rewrite (bind_ok _ _ _ tt (bump st1) eq_refl). }
  rewrite (bind_ok _ _ _ _ _ Hch). cbv zeta. rewrite !bind_jti. cbn [tick bump].
  edestruct (rotate_live f rid (sha256_base64url ("oat_" +:+ w_ulid W n)) (sha256_base64url ("oat_" +:+ w_ulid W (S (S (tick st1)))))
    (family_deadline f) (bump (bump (bump st1)))) as (s1 & Hrot & Hacc & _); [done|done|done|done| |done|].
  { intros Heq. destruct (Hfresh (S (S (tick st1)))) as [_ Hfr]; [lia|]. eapply Hfr; [exact Hf|]. by rewrite Hh, Heq. }
  rewrite (bind_ok _ _ _ _ _ Hrot). set (t := refreshed_token f ("oat_" +:+ w_ulid W (S (tick st1))) (asked_scopes scopes req)
    (match Tokens.tf_audience f with [] => [Tokens.tf_client_id f] | l => l end) None now (family_deadline f)).
  destruct (Hfresh (S (tick st1))) as [Hnew _]; [lia|].
  edestruct (create_token_live t s1) as (s2 & Hct & Hacc2); [cbn; by rewrite Hacc|done|].
  rewrite (bind_ok _ _ _ _ _ Hct). edestruct format_live as (tok & s3 & Hfm); [exact typ_signs|]. rewrite (bind_ok _ _ _ _ _ Hfm).
  edestruct sign_refresh_live as (tok2 & s4 & Hsr); [exact sign_signs|]. rewrite (bind_ok _ _ _ _ _ Hsr).
  apply reading_inv in Hfm as [Hs3 _]; [|apply reading_format]. apply reading_inv in Hsr as [Hs4 _]; [|apply reading_sign_refresh].
  eexists _, s4, tok2, _, t. split; [reflexivity|]. split_and!; [done|done|exact Hnew| |cbn; congruence..|done|done].
  by rewrite Hs4, Hs3, Hacc2, lookup_insert_eq.
Qed.

(** A request with the credentials of a public client or of one that has a secret. *)
Definition presents_client (req : TokenRequest) (basic : option BasicClientAuth) (client : ClientJ) : Prop :=
  let b := body (c_body client) in
  client_assertion req = None ∧
  match client_type b with
  | Public => token_endpoint_auth_method b = "none" ∧ basic = None ∧ rq_client_id req = Some (client_id client) ∧ rq_client_secret req = None
  | Confidential => ∃ secret, secret ≠ "" ∧ client_secret_hash b = Some (client_secret_hash_of secret) ∧
      (token_endpoint_auth_method b = "client_secret_basic" ∧
         basic = Some {| ba_client_id := client_id client; ba_client_secret := secret |} ∧ rq_client_secret req = None ∨
       token_endpoint_auth_method b = "client_secret_post" ∧ basic = None ∧ rq_client_id req = Some (client_id client) ∧
         rq_client_secret req = Some secret)
  end.

Lemma sole_found st client :
  sole_client st client → find_clients_by_client_id (map oc_id (config_realms state)) (client_id client) (store st) = [client].
Proof.
  intros (Hr & k & Hk & Hone). eapply filter_values_one; [exact Hk| |].
  - rewrite String.eqb_refl. by apply str_in_spec.
  - intros k' c' Hk' [Hid%String.eqb_eq Hr'%str_in_spec]%andb_true_iff. by eapply Hone.
Qed.

Lemma secret_verifies client secret :
  secret ≠ "" → client_secret_hash (body (c_body client)) = Some (client_secret_hash_of secret) → verify_client_secret client (Some secret) = Ok tt.
Proof.
  intros Hne Hh. unfold verify_client_secret. cbn [ok_or res_bind]. destruct secret as [|a s]; [done|]. cbn [is_empty_str]. rewrite Hh. cbn [ok_or res_bind].
  by rewrite (proj2 (constant_time_eq_spec _ _) eq_refl).
Qed.

(** The token endpoint hands such a request to the grant. *)
Lemma handle_token_refreshes req basic client st :
  grant_type req = "refresh_token" → client_id client ≠ "" → sole_client st client → "refresh_token" ∈ grant_types (body (c_body client)) →
  presents_client req basic client → handle_token req None None basic st = refresh_token_grant req client None st.
Proof.
  intros Hg Hne Hsole Hgt [Ha Hp]. assert (is_empty_str (client_id client) = false) as Hemp by (by destruct (client_id client)).
  assert (∃ cfg, oauth_realm_config state (c_realm_id client) = Ok cfg) as [cfg Hcfg].
  { destruct Hsole as [Hr _]. unfold oauth_realm_config, find_config. apply list_elem_of_In, in_map_iff in Hr as (cfg & Hid & Hin).
    destruct (List.find _ _) as [x|] eqn:E; [by exists x|]. apply (find_none _ _ E) in Hin. by rewrite Hid, String.eqb_refl in Hin. }
  assert (default "" (or_else (or_else None (or_else (ba_client_id <$> basic) (rq_client_id req))) None) = client_id client) as Heff.
  { destruct (client_type _); [destruct Hp as (sec & _ & _ & [(_ & -> & _)|(_ & -> & -> & _)])|destruct Hp as (_ & -> & -> & _)]; done. }
  assert (validate_client_auth_method req client (used_auth_method req client None basic None) basic None st = (Ok tt, st)) as Hv.
  { unfold validate_client_auth_method. rewrite !bind_guard, Hemp, Hg, (proj2 (str_in_spec _ _) Hgt), Ha. cbn [negb].
    unfold used_auth_method, confidential_auth. destruct (client_type _).
    - destruct Hp as (sec & Hs & Hh & [(Hm & -> & ->)|(Hm & -> & _ & ->)]); rewrite !bind_guard, Hm; cbn -[verify_client_secret bind];
        rewrite (secret_verifies _ _ Hs Hh); done.
    - destruct Hp as (Hm & -> & _ & ->). by rewrite Hm. }
  unfold handle_token, assertion_client. rewrite Ha, bind_of_ok. cbv zeta. rewrite Hg. change (String.eqb "refresh_token" "authorization_code") with false.
  rewrite andb_false_r, (bind_ok (ret None) _ st None st eq_refl). cbn [or_else] in *. rewrite Heff, bind_guard, Hemp, bind_guard.
  change (negb (is_supported_grant_type "refresh_token")) with false. cbv iota.
  rewrite (bind_ok _ _ _ client st) by (unfold find_client_across_realms, find_client_across_realms_with_messages;
    by rewrite (bind_ok _ _ _ _ _ (read_ok _ st)), (sole_found _ _ Hsole)).
  rewrite Hcfg, bind_of_ok, (bind_ok (ret None) _ st None st eq_refl), bind_guard. change (bool_decide (is_Some (@None string)) && _) with false. cbv iota.
  rewrite (bind_ok _ _ _ _ _ Hv), bind_guard. unfold dispatch. by rewrite Hg.
Qed.

(** C12: An issued refresh token can be used.  Suppose a pair was just issued, without a sender constraint and with some
    scope, to a client for a user of its realm.  Then the client (public, or with a secret it presents its registered way;
    the only one of its identifier, registered for the refresh grant) presents the refresh token at the token endpoint,
    asking for no scope that was not granted, while the clock is before the deadline of the family and the session it
    hangs on is alive: it gets a new pair, and an access token of that user and client with the scopes asked for is
    stored.  The server is taken to work: the signer signs and reads back what it signed, writes succeed, and the identifiers
    drawn from then on are new. *)
Theorem issued_refresh_token_works (issuer : string) (user : User) (client : ClientJ) (realm : PlanRealm) (scopes : list string)
    (c : TokenIssueClaims) (st st1 : St) (pair : TokenPair) (req : TokenRequest) (basic : option BasicClientAuth) :
  let rid := c_realm_id client in
  let now := w_now W (tick st1) in
  issue_token_pair issuer user (client_id client) rid scopes c st = (Ok pair, st1) → scopes ≠ [] → ic_cnf c = None →
  grant_type req = "refresh_token" → rq_refresh_token req = Some (tp_refresh_token pair) → (∀ x, x ∈ asked_scopes scopes req → x ∈ scopes) →
  client_id client ≠ "" → sole_client st1 client → "refresh_token" ∈ grant_types (body (c_body client)) → presents_client req basic client →
  get_user_by_id (u_id user) (store st1) = Some user → u_realm_id user = rid → find_plan state rid = Some realm →
  now < saturating_add64 (w_now W (tick st)) (refresh_token_ttl_seconds (token_ttl state rid)) →
  (∀ sid, ic_session_id c = Some sid → ∃ x, get_session sid (store st1) = Some x ∧ s_realm_id x = rid ∧ is_active x now = true) →
  fresh_identifiers st1 →
  ∃ resp st2 rt j t, handle_token req None None basic st1 = (Ok resp, st2) ∧
    tr_scope resp = Some (join " " (asked_scopes scopes req)) ∧ refresh_token resp = Some rt ∧
    access st1 !! j = None ∧ access st2 !! j = Some t ∧ Tokens.at_user_id t = u_id user ∧ Tokens.at_client_id t = client_id client ∧
    Tokens.at_realm_id t = rid ∧ Tokens.at_scopes t = asked_scopes scopes req ∧ Tokens.at_revoked t = false.
Proof.
  intros rid now Hpair Hne Hcnf Hg Hrt Hsc Hcid Hsole Hgt Hp Hu Hur Hplan Hnow Hsess Hfresh.
  rewrite (handle_token_refreshes req basic client st1 Hg Hcid Hsole Hgt Hp). by eapply refresh_live.
Qed.
End LiveServer.


(** An authorization-code request whose form carries an empty [client_id] is refused, although the code
    names its client: [handle_token] looks the client up for the empty identifier and then keeps the
    empty one. *)
Lemma blank_client_id_refused req dpop x5t st :
  grant_type req = "authorization_code" → client_assertion req = None → rq_client_id req = Some "" →
  (handle_token req dpop x5t None st).1 = Err (BadRequest "client_id required").
Proof.
  intros Hg Ha Hc. unfold handle_token, assertion_client. rewrite Ha. rewrite bind_of_ok. cbv zeta. rewrite Hc, Hg. cbn [or_else fmap option_fmap option_map].
  change (is_empty_str (default "" (Some "")) && String.eqb "authorization_code" "authorization_code") with true. cbv iota.
  unfold infer_authorization_code_client_id. destruct (rq_code req) as [code|].
  - reflexivity.
  - done.
Qed.


End Endpoint.

(** * Lemmas and theorems: audiences *)

Section AudienceLemmas.
Context {Num : Type} `{JsonNumber Num}.
Abbreviation J := (Value Num).

Lemma validated_audiences realm_id auds inds servers :
  validate_resource_servers realm_id auds inds servers = Ok tt →
  NoDup (rs_audience <$> servers) ∧ ∀ s, s ∈ servers → rs_audience s ∉ auds.
Proof.
  induction servers as [|s rest IH] in auds, inds |- *; cbn [validate_resource_servers].
  { intros _. split; [constructor|]. intros s Hs. by apply not_elem_of_nil in Hs. }
  destruct (validate_resource_server realm_id s); [|done]. cbn.
  case_bool_decide as Hin; [done|]. destruct (insert_indicators _ _ _) as [inds'|]; [|done]. cbn.
  intros Hok. destruct (IH _ _ Hok) as [Hnd Hfresh]. split.
  - apply NoDup_cons. split; [|done]. rewrite list_elem_of_fmap. intros (s' & Heq & Hs').
    apply (Hfresh s' Hs'). rewrite <- Heq. set_solver.
  - intros s' [->|Hs']%elem_of_cons; [done|]. specialize (Hfresh s' Hs'). set_solver.
Qed.

Lemma by_audience_some servers a s :
  resource_server_by_audience servers a = Some s → s ∈ servers ∧ rs_audience s = a.
Proof.
  unfold resource_server_by_audience. intros [Hin Heq]%List.find_some.
  rewrite list_elem_of_In. split; [done|]. by apply String.eqb_eq.
Qed.

Lemma by_audience_unique servers s :
  NoDup (rs_audience <$> servers) → s ∈ servers → resource_server_by_audience servers (rs_audience s) = Some s.
Proof.
  induction servers as [|x l IH]; intros Hnd Hin; [by apply not_elem_of_nil in Hin|].
  apply NoDup_cons in Hnd as [Hx Hnd].
  unfold resource_server_by_audience. cbn. destruct (String.eqb_spec (rs_audience x) (rs_audience s)) as [Heq|Hne].
  - apply elem_of_cons in Hin as [->|Hin]; [done|]. exfalso. apply Hx. rewrite Heq. by apply list_elem_of_fmap_2.
  - apply elem_of_cons in Hin as [->|Hin]; [done|]. by apply IH.
Qed.

Lemma by_resource_some servers r s :
  resource_server_by_resource servers r = Some s → s ∈ servers ∧ r ∈ resources s.
Proof.
  unfold resource_server_by_resource. intros [Hin Hr]%List.find_some.
  rewrite list_elem_of_In. split; [done|]. by apply str_in_spec.
Qed.

Lemma check_scopes_ok server scopes : check_scopes server scopes = Ok tt ↔ ∀ x, x ∈ scopes → x ∈ rs_scopes server.
Proof.
  induction scopes as [|x l IH]; cbn.
  { split; [|done]. intros _ x Hx. by apply not_elem_of_nil in Hx. }
  destruct (str_in x (rs_scopes server)) eqn:E; cbn.
  - apply str_in_spec in E. rewrite IH. set_solver.
  - apply str_in_false in E. split; [done|]. intros Hall. exfalso. apply E, Hall. set_solver.
Qed.

(** Every selected server that restricts scopes lists every requested one. *)
Lemma scopes_per_target scopes servers :
  validate_scopes_per_target scopes servers = Ok tt →
  ∀ s, s ∈ servers → rs_scopes s = [] ∨ ∀ x, x ∈ scopes → x ∈ rs_scopes s.
Proof.
  induction servers as [|s l IH]; cbn; [intros _ s Hs; by apply not_elem_of_nil in Hs|].
  destruct (rs_scopes s) as [|y ys] eqn:Es.
  - intros Hok s' [->|Hs']%elem_of_cons; [by left|]. by apply IH.
  - destruct (check_scopes s scopes) as [[]|] eqn:Ec; [|done]. cbn.
    intros Hok s' [->|Hs']%elem_of_cons; [right|by apply IH]. exact (proj1 (check_scopes_ok _ _) Ec).
Qed.

Lemma select_audiences_ok servers auds l :
  select_audiences servers auds = Ok l →
  (∀ s, s ∈ l → s ∈ servers) ∧ (∀ a, a ∈ auds → ∃ s, s ∈ l ∧ rs_audience s = a).
Proof.
  induction auds as [|a rest IH] in l |- *; cbn.
  { intros [= <-]. split; intros x Hx; by apply not_elem_of_nil in Hx. }
  destruct (resource_server_by_audience servers a) as [s|] eqn:Es; [|done]. cbn.
  destruct (select_audiences servers rest) as [l'|]; [|done]. cbn. intros [= <-].
  destruct (IH l' eq_refl) as [H1 H2]. apply by_audience_some in Es as [Hs Ha]. split.
  - intros x [->|Hx]%elem_of_cons; [done|]. by apply H1.
  - intros x [->|Hx]%elem_of_cons; [exists s; set_solver|]. destruct (H2 x Hx) as (s' & ? & ?). exists s'. set_solver.
Qed.

Lemma select_resources_ok servers requested res l :
  select_resources servers requested res = Ok l →
  (∀ s, s ∈ l → s ∈ servers) ∧ (∀ r, r ∈ res → ∃ s, s ∈ l ∧ r ∈ resources s) ∧
  (requested ≠ [] → ∀ s, s ∈ l → rs_audience s ∈ requested).
Proof.
  induction res as [|r rest IH] in l |- *; cbn.
  { intros [= <-]. split_and!; [| |intros _]; intros x Hx; by apply not_elem_of_nil in Hx. }
  destruct (resource_server_by_resource servers r) as [s|] eqn:Es; [|done]. cbn.
  destruct (negb _ && negb _) eqn:Eg; [done|].
  destruct (select_resources servers requested rest) as [l'|]; [|done]. cbn. intros [= <-].
  destruct (IH l' eq_refl) as (H1 & H2 & H3). apply by_resource_some in Es as [Hs Hr]. split_and!.
  - intros x [->|Hx]%elem_of_cons; [done|]. by apply H1.
  - intros x [->|Hx]%elem_of_cons; [exists s; set_solver|]. destruct (H2 x Hx) as (s' & ? & ?). exists s'. set_solver.
  - intros Hne x [->|Hx]%elem_of_cons; [|by apply H3]. apply str_in_spec. destruct requested as [|y ys]; [done|].
    by destruct (str_in _ (y :: ys)).
Qed.

Lemma constraints_hold servers auds (cnf : option J) :
  require_constraints servers auds cnf = Ok tt →
  ∀ a s, a ∈ auds → resource_server_by_audience servers a = Some s →
  (require_sender_constraint_ s || high_risk s) = true → is_Some cnf.
Proof.
  induction auds as [|a rest IH]; cbn; [intros _ a s Ha; by apply not_elem_of_nil in Ha|].
  intros Hok a' s Ha Hs Hreq. apply elem_of_cons in Ha as [->|Ha].
  - rewrite Hs in Hok. unfold require_sender_constraint in Hok. rewrite Hreq in Hok. cbn in Hok.
    case_bool_decide; [done|]. done.
  - destruct (resource_server_by_audience servers a) as [s'|]; [|by eapply IH].
    destruct (require_sender_constraint s' cnf) as [[]|]; [|done]. by eapply IH.
Qed.

(** C9: The audience and scope ceiling of a token.  In a realm whose resource servers passed
    validation, a token whose audience is resolved names at least one audience; every audience it
    names is a configured resource server that allows every scope of the token (or restricts
    none) and, if it demands sender-constrained tokens, the token carries a confirmation; every
    resource indicator belongs to a resource server of the token's audience; and when the request
    named audiences, the token names no other. *)
Theorem token_audience_ceiling (realm : OAuthRealmConfig) (requested res scopes : list string) (cnf : option J)
    (auds : list string) :
  validate_resource_servers (oc_id realm) ∅ ∅ (resource_servers realm) = Ok tt →
  resource_servers realm ≠ [] →
  resolve_token_audience realm requested res scopes cnf = Ok auds →
  auds ≠ [] ∧
  (∀ a, a ∈ auds → ∃ s, s ∈ resource_servers realm ∧ rs_audience s = a ∧
     (rs_scopes s = [] ∨ ∀ x, x ∈ scopes → x ∈ rs_scopes s) ∧
     ((require_sender_constraint_ s || high_risk s) = true → is_Some cnf)) ∧
  (∀ r, r ∈ res → ∃ s, s ∈ resource_servers realm ∧ r ∈ resources s ∧ rs_audience s ∈ auds) ∧
  (requested ≠ [] → ∀ a, a ∈ auds ↔ a ∈ requested).
Proof.
  intros Hv Hne. destruct (validated_audiences _ _ _ _ Hv) as [Hnd _].
  unfold resolve_token_audience, resolve_authorization_audience.
  destruct (resource_servers realm) as [|s0 ss]; [done|]. set (servers := s0 :: ss) in *.
  intros (auds' & Hauds & Hk)%res_bind_Ok.
  destruct (require_constraints servers auds' cnf) as [[]|] eqn:Hc; [|done]. injection Hk as ->.
  apply res_bind_Ok in Hauds as (ba & Hba & Hauds). apply res_bind_Ok in Hauds as (br & Hbr & Hauds).
  destruct (select_audiences_ok _ _ _ Hba) as [Ha1 Ha2]. destruct (select_resources_ok _ _ _ _ Hbr) as (Hr1 & Hr2 & Hr3).
  assert (∀ a, a ∈ btree_set (requested ++ map rs_audience br) ↔ a ∈ requested ∨ ∃ s, s ∈ br ∧ rs_audience s = a) as Hset.
  { intros a. unfold btree_set. rewrite elem_of_dedup, elem_of_sort_by, elem_of_app.
    change (map rs_audience br) with (rs_audience <$> br). rewrite list_elem_of_fmap. naive_solver. }
  destruct (btree_set _) as [|b bs] eqn:Eb; [done|]. rewrite <- Eb in *.
  destruct (validate_scopes_per_target scopes (ba ++ br)) as [[]|] eqn:Hs; [|done]. injection Hauds as <-.
  split_and!; [by rewrite Eb| | |].
  - intros a Ha. assert (∃ s, s ∈ ba ++ br ∧ s ∈ servers ∧ rs_audience s = a) as (s & Hin & Hsv & <-).
    { apply Hset in Ha as [(s & ? & ?)%Ha2|(s & ? & ?)]; exists s; set_solver. }
    exists s. split_and!; [done|done|by eapply scopes_per_target|]. intros Hreq.
    eapply constraints_hold; [exact Hc|exact Ha|by apply by_audience_unique|done].
  - intros r (s & Hin & Hr)%Hr2. exists s. split_and!; [by apply Hr1|done|]. apply Hset. eauto.
  - intros Hreq a. rewrite Hset. split; [|by left]. intros [?|(s & Hin & <-)]; [done|by apply Hr3].
Qed.
End AudienceLemmas.


(** * A small deployment *)

(** Numbers, hashes and encodings that compute: a number is an [N], a digest the bytes of its input. *)
#[local] Instance N_json_number : JsonNumber N := {|
  as_u64 n := Some n; as_i64 n := Some (Z.of_N n); as_f64 n := Some (z_to_f64 (Z.of_N n)); num_eqb := N.eqb; num_from_u64 n := n
|}.

#[local] Instance string_constant_time : ConstantTimeEq := {| constant_time_eq := String.eqb; constant_time_eq_spec := String.eqb_eq |}.

Abbreviation EJ := (Value N).

Definition ex_bytes (s : string) : list N := map Ascii.N_of_ascii (String.list_ascii_of_string s).
Definition ex_text (l : list N) : string := String.string_of_list_ascii (map Ascii.ascii_of_N l).

Lemma ex_text_bytes s : ex_text (ex_bytes s) = s.
Proof. induction s as [|a s IH]; cbn; [done|]. rewrite Ascii.ascii_N_embedding. f_equal. exact IH. Qed.

(** A signer: the token is the encoding of its claims. *)
Definition audience_sum (a : Audience) : string + list string := match a with Single v => inl v | Multiple l => inr l end.
Definition sum_audience (s : string + list string) : Audience := match s with inl v => Single v | inr l => Multiple l end.
#[local] Instance Audience_eq_dec : EqDecision Audience.
Proof. solve_decision. Defined.
#[local] Instance Audience_countable : Countable Audience := inj_countable' audience_sum sum_audience ltac:(by intros []).

Definition claims_tuple (c : JwtClaims (Num := N)) := (iss c, sub c, aud c, exp c, nbf c, iat c, jti c, extra c).
Definition tuple_claims (t : option string * option string * option Audience * option N * option N * option N * option string * gmap string EJ)
    : JwtClaims :=
  let '(a, b, c, d, e, f, g, h) := t in
  {| iss := a; sub := b; aud := c; exp := d; nbf := e; iat := f; jti := g; extra := h |}.

Fixpoint pos_text (p : positive) : string :=
  match p with xH => "" | xO p => String (Ascii.ascii_of_N 48) (pos_text p) | xI p => String (Ascii.ascii_of_N 49) (pos_text p) end.
Fixpoint text_pos (s : string) : positive :=
  match s with
  | EmptyString => xH
  | String a s => if Ascii.eqb a (Ascii.ascii_of_N 48) then xO (text_pos s) else xI (text_pos s)
  end.
Lemma text_pos_text p : text_pos (pos_text p) = p.
Proof. induction p as [p IH|p IH|]; cbn; by rewrite ?IH. Qed.

Definition ex_sign (c : JwtClaims) : result string string := Ok (pos_text (encode (claims_tuple c))).
Definition ex_decode (s : string) : result JwtClaims string :=
  match decode (text_pos s) with Some t => Ok (tuple_claims t) | None => Err "invalid token" end.
Definition ex_signer : Signer (Num := N) := {| sign := ex_sign; sign_with_typ := fun c _ => ex_sign c; decode_signature_only := ex_decode |}.

Lemma ex_sign_decode c s : ex_sign c = Ok s → ex_decode s = Ok c.
Proof. unfold ex_sign, ex_decode. intros [= <-]. rewrite text_pos_text, decode_encode. by destruct c. Qed.

(** The clock stands still, identifiers count up, every write succeeds. *)
Definition ex_W : World := {| w_now := fun _ => 1000; w_ulid := fun n => pretty (N.of_nat n); w_random := fun _ k => repeat 0 k; w_saved := fun _ => Ok tt |}.
Definition ex_V : Verifiers (Num := N) := {|
  dpop_jkt := fun _ _ p => Ok p; extract_client_id_from_assertion := fun a => Ok a; extract_private_key_jwt := fun _ _ _ _ => Err (Unauthorized "jwt");
  validate_jwt_bearer_assertion := fun _ _ _ _ _ => Err (Unauthorized "jwt"); validate_saml_bearer_assertion := fun _ _ _ => Err (Unauthorized "saml")
|}.

Definition ex_server : OAuthResourceServerConfig := {|
  rs_audience := "api"; resources := ["https://api"]; rs_scopes := ["read"; "write"]; introspection_client_ids := ["rs"];
  require_sender_constraint_ := false; high_risk := false
|}.
Definition ex_realm : OAuthRealmConfig := {|
  oc_id := "r"; oc_issuer := "https://r"; resource_servers := [ex_server]; default_scope := "api"; device_authorization_enabled := true;
  ciba_enabled := true; revocation_enabled := true; private_key_jwt_enabled := true; dpop_enabled := true; mtls_enabled := true;
  introspection_enabled := true; introspection_jwt_response := true
|}.
Definition ex_plan : PlanRealm := {|
  pr_id := "r"; pr_issuer := "https://r"; pr_token_ttl := default_token_ttl; pr_cookie_name := "sid"; oauth_default_scope := "api";
  oidc_default_scope := "openid"
|}.
Definition ex_state : SharedState := {|
  config_realms := [ex_realm]; plan_realms := [ex_plan]; public_base_url := "https://id/"; device_verification_path := "/device"
|}.

Definition ex_body (v : EJ) : ClientBody :=
  match v with
  | VString "rs" => {| client_type := Confidential; token_endpoint_auth_method := "client_secret_post";
      client_secret_hash := Some "qid-client-secret-v1:s3cret"; mtls_certificate_thumbprints := []; redirect_uris := [];
      grant_types := ["client_credentials"]; sector_identifier_uri := None; subject_type := None |}
  | _ => {| client_type := Public; token_endpoint_auth_method := "none"; client_secret_hash := None; mtls_certificate_thumbprints := [];
      redirect_uris := ["https://app/cb"]; grant_types := ["authorization_code"; "refresh_token"; DEVICE_GRANT];
      sector_identifier_uri := None; subject_type := None |}
  end.

Definition ex_app : Accounts.Client (J := EJ) := {| c_id := "c1"; c_realm_id := "r"; client_id := "app"; c_body := VString "app" |}.
Definition ex_rs : Accounts.Client (J := EJ) := {| c_id := "c2"; c_realm_id := "r"; client_id := "rs"; c_body := VString "rs" |}.
Definition ex_user : User := plain_user "alice" "r" None.
Definition ex_session : Session (J := EJ) := {|
  s_id := "s1"; s_realm_id := "r"; s_user_id := "alice"; auth_time := 900; s_acr := None; s_amr := ["pwd"]; idle_expires_at := 5000;
  absolute_expires_at := 9000; s_revoked := false; s_created_at := 900; s_cnf := None
|}.
Definition ex_code : Tokens.AuthorizationCode (J := EJ) := {|
  Tokens.code_hash := "code"; Tokens.ac_client_id := "app"; Tokens.ac_user_id := "alice"; Tokens.ac_realm_id := "r";
  Tokens.redirect_uri := "https://app/cb"; Tokens.state := None; Tokens.ac_nonce := None; Tokens.ac_auth_time := Some 900;
  Tokens.ac_acr := None; Tokens.ac_amr := ["pwd"]; Tokens.code_challenge := Some "verifier"; Tokens.code_challenge_method := Some "S256";
  Tokens.ac_scopes := ["read"]; Tokens.ac_resource := ["https://api"]; Tokens.ac_authorization_details := None;
  Tokens.ac_expires_at := 1300; Tokens.ac_used := false; Tokens.ac_created_at := 990; Tokens.ac_session_id := Some "s1"
|}.

Definition ex_empty : Accounts.Store (J := EJ) :=
  {| push := {| Push.authenticators := ∅; Push.logins := ∅; Push.registration_issued_at := ∅; Push.login_issued_at := ∅ |}; tokens := Tokens.empty_store; realm_issuers := ∅; realm_tenants := ∅; users := ∅;
     credentials_password := ∅; clients := ∅; sessions := ∅; webauthn_credentials := ∅; totp_credentials := ∅; devices := ∅;
     ciam := fun _ => ∅; realm_tables := fun _ => ∅; hr_receipts := ∅; ssf_set_replay := ∅; oidc_continuations := ∅ |}.
Definition ex_accounts : Accounts.Store (J := EJ) :=
  set_tokens (set_sessions (set_clients (set_users ex_empty {[ "alice" := ex_user ]}) {[ "c1" := ex_app; "c2" := ex_rs ]})
                {[ "s1" := ex_session ]})
    (Tokens.with_codes Tokens.empty_store {[ "code" := ex_code ]}).
Definition ex_st : St (Num := N) := {| store := ex_accounts; service_accounts := ∅; tick := 0 |}.

Definition ex_request (g : string) (code token : option string) : TokenRequest (Num := N) := {|
  grant_type := g; rq_code := code; rq_redirect_uri := Some "https://app/cb"; code_verifier := Some "verifier";
  rq_client_id := Some "app"; rq_client_secret := None; rq_scope := None; rq_refresh_token := token; client_assertion := None;
  client_assertion_type := None; device_code := None; auth_req_id := None; assertion := None; subject_token := None;
  subject_token_type := None; actor_token := None; actor_token_type := None; requested_token_type := None; rq_audience := None;
  rq_resource := None; rq_authorization_details := None
|}.
Definition ex_code_request : TokenRequest := ex_request "authorization_code" (Some "code") None.

Abbreviation ex_token := (handle_token ex_state ex_signer ex_V ex_W Tokens.Immediate ex_body ex_bytes (fun k m => ex_bytes (k +:+ m)) ex_text
                            (fun _ => None) (join ",")).
Abbreviation ex_step := (step ex_state ex_signer ex_V ex_W Tokens.Immediate ex_body ex_bytes (fun k m => ex_bytes (k +:+ m)) ex_text
                            (fun _ => None) (join ",")).
Abbreviation ex_refresh := (refresh_token_grant ex_state ex_signer ex_W Tokens.Immediate ex_body ex_bytes ex_text).

Definition ex_first : QidResult TokenResponse * St := ex_token ex_code_request None None None ex_st.
Definition ex_st1 : St := ex_first.2.
Definition ex_rt : option string := match ex_first.1 with Ok r => refresh_token r | Err _ => None end.
Definition ex_refresh_request : TokenRequest := ex_request "refresh_token" None ex_rt.
Definition ex_second : QidResult TokenResponse * St := ex_refresh ex_refresh_request ex_app None ex_st1.
Definition ex_st2 : St := ex_second.2.

(** The response of an outcome that succeeded. *)
Definition ok_value {A E} (d : A) (r : result A E) : A := match r with Ok a => a | Err _ => d end.
Definition ex_no_response : TokenResponse :=
  {| access_token := ""; token_type := ""; expires_in := 0; refresh_token := None; id_token := None; tr_scope := None; issued_token_type := None |}.

Lemma outcome_eq {A E S} (p : result A E * S) (d : A) : (∃ a, p.1 = Ok a) → p = (Ok (ok_value d p.1), p.2).
Proof. destruct p as [[a|e] s]; cbn; [done|]. by intros [? ?]. Qed.

Ltac computes := eexists; vm_compute; reflexivity.

Lemma ex_first_ok : ex_first = (Ok (ok_value ex_no_response ex_first.1), ex_st1).
Proof. exact (outcome_eq ex_first ex_no_response ltac:(computes)). Qed.
Lemma ex_second_ok : ex_second = (Ok (ok_value ex_no_response ex_second.1), ex_st2).
Proof. exact (outcome_eq ex_second ex_no_response ltac:(computes)). Qed.

Lemma ex_st_keyed : keyed ex_st.
Proof.
  split; intros k x Hx; cbn in Hx; [by rewrite lookup_empty in Hx|]. apply lookup_singleton_Some in Hx as [<- <-]. done.
Qed.
Lemma ex_steps1 : rtc ex_step ex_st ex_st1.
Proof.
  apply rtc_once. unfold ex_st1, ex_first. pose proof (step_request ex_state ex_signer ex_V ex_W Tokens.Immediate ex_body ex_bytes (fun k m => ex_bytes (k +:+ m)) ex_text
    (fun _ => None) (join ",") ex_st (ReqToken ex_code_request None None None)) as Hs.
  cbn [serve] in Hs. exact Hs.
Qed.
Lemma ex_st1_keyed : keyed ex_st1.
Proof. by destruct (steps_grow _ _ _ _ _ _ _ _ _ _ _ _ _ ex_st_keyed ex_steps1). Qed.

Abbreviation codes st := (Tokens.authorization_codes (tokens (store st))).
Abbreviation families st := (Tokens.token_families (tokens (store st))).
Abbreviation access st := (Tokens.access_tokens (tokens (store st))).

Lemma token_audience_ceiling_witness :
  resolve_token_audience (Num := N) ex_realm [] ["https://api"] ["read"] None = Ok ["api"] ∧
  ∀ a, a ∈ ["api"] → ∃ s, s ∈ [ex_server] ∧ rs_audience s = a.
Proof.
  split; [reflexivity|]. intros a Ha.
  destruct (token_audience_ceiling (Num := N) ex_realm [] ["https://api"] ["read"] None ["api"]) as (_ & H1 & _);
    [reflexivity|discriminate|reflexivity|]. destruct (H1 a Ha) as (s & Hs & He & _). by exists s.
Defined.

Lemma token_client_authenticated_witness :
  ∃ client, names_client ex_V ex_bytes ex_text ex_code_request None ex_st (client_id client) ∧ sole_client ex_state ex_st client.
Proof.
  destruct (token_client_authenticated ex_state ex_signer ex_V ex_W Tokens.Immediate ex_body ex_bytes (fun k m => ex_bytes (k +:+ m)) ex_text
    (fun _ => None) (join ",") ex_code_request None None None ex_st _ _ ex_first_ok) as (client & _ & _ & Hn & _ & Hs & _).
  by exists client.
Defined.

Lemma code_grant_sound_witness :
  ∃ ac code, codes ex_st !! ex_text (ex_bytes code) = Some ac ∧ Tokens.ac_used ac = false.
Proof.
  destruct (code_grant_sound ex_state ex_signer ex_W ex_body ex_bytes (fun k m => ex_bytes (k +:+ m)) ex_text (fun _ => None) (join ",")
    ex_code_request ex_app None ex_st _ _ ex_st_keyed
    (outcome_eq (authorization_code_grant ex_state ex_signer ex_W ex_body ex_bytes (fun k m => ex_bytes (k +:+ m)) ex_text (fun _ => None)
       ex_code_request ex_app None ex_st) ex_no_response ltac:(computes))) as (ac & code & _ & _ & _ & [_ Hf Hu] & _).
  by exists ac, code.
Defined.

Lemma grant_redeemed_once_witness : ∃ e, (ex_token ex_code_request None None None ex_st1).1 = Err e.
Proof.
  apply (grant_redeemed_once ex_state ex_signer ex_V ex_W Tokens.Immediate ex_body ex_bytes (fun k m => ex_bytes (k +:+ m)) ex_text
    (fun _ => None) (join ",") ex_code_request ex_code_request None None None None None None ex_st ex_st1 ex_st1 _ (Tokens.KCode "code")
    ex_st_keyed ex_first_ok eq_refl (rtc_refl _ _) eq_refl).
Defined.

Lemma access_tokens_within_family_witness :
  ∃ t, access ex_st1 !! "oat_3" = Some t ∧ within_family ex_state (families ex_st1) t.
Proof.
  destruct (access ex_st1 !! "oat_3") as [t|] eqn:E; [|vm_compute in E; discriminate E]. exists t. split; [done|].
  apply (access_tokens_within_family ex_state ex_signer ex_V ex_W Tokens.Immediate ex_body ex_bytes (fun k m => ex_bytes (k +:+ m)) ex_text
    (fun _ => None) (join ",") ex_st ex_st1 "oat_3" t ex_st_keyed eq_refl ex_steps1 E).
Defined.

Lemma refresh_grant_sound_witness : ∃ fid f, families ex_st1 !! fid = Some f ∧ Tokens.tf_revoked f = false.
Proof.
  destruct (refresh_grant_sound ex_state ex_signer ex_W Tokens.Immediate ex_body ex_bytes (fun k m => ex_bytes (k +:+ m)) ex_text
    (fun _ => None) (join ",") ex_refresh_request ex_app None ex_st1 _ _ ex_st1_keyed ex_second_ok) as (fid & f & _ & _ & _ & Hf & _ & _ & Hr & _).
  by exists fid, f.
Defined.


Definition ex_refresh_claims : JwtClaims := ok_value (tuple_claims (None, None, None, None, None, None, None, ∅)) (ex_decode (default "" ex_rt)).

Lemma ex_ids n m :
  ex_text (ex_bytes ("oat_" +:+ pretty (N.of_nat n))) = ex_text (ex_bytes ("oat_" +:+ pretty (N.of_nat m))) → n = m.
Proof. rewrite !ex_text_bytes. intros Heq. apply (inj (String.append "oat_")) in Heq. apply (inj pretty) in Heq. by apply Nat2N.inj. Qed.

Lemma ex_steps2 : rtc ex_step ex_st2 ex_st2.
Proof. apply rtc_refl. Qed.

Lemma refresh_reuse_contained_witness :
  (∃ e, (ex_refresh ex_refresh_request ex_app None ex_st2).1 = Err e) ∧
  ∃ f', families (ex_refresh ex_refresh_request ex_app None ex_st2).2 !! "oat_5" = Some f' ∧ Tokens.tf_revoked f' = true.
Proof.
  destruct (refresh_reuse_contained ex_state ex_signer ex_V ex_W Tokens.Immediate ex_body ex_bytes (fun k m => ex_bytes (k +:+ m)) ex_text
    (fun _ => None) (join ",") ex_refresh_request ex_refresh_request ex_app None None ex_st1 ex_st2 ex_st2 (ok_value ex_no_response ex_second.1)
    (default "" ex_rt) ex_refresh_claims "oat_4" "oat_5" ex_st1_keyed) as [He (f & Hf & Hrev)].
  - vm_compute. reflexivity.
  - vm_compute. reflexivity.
  - vm_compute. reflexivity.
  - vm_compute. reflexivity.
  - intros n Hn Heq. apply (ex_ids n 4) in Heq. assert (tick ex_st1 = 13%nat) as Ht by (vm_compute; reflexivity). rewrite Ht in Hn. lia.
  - exact ex_second_ok.
  - exact ex_steps2.
  - split; [exact He|]. apply Hrev; [|vm_compute in Hf; injection Hf as <-; vm_compute; reflexivity|apply rtc_refl].
    vm_compute in Hf. injection Hf as <-. vm_compute. reflexivity.
Defined.

Abbreviation ex_revoke := (handle_revoke ex_state ex_signer ex_W ex_body ex_bytes ex_text).


Definition ex_introspect_request : IntrospectRequest :=
  {| ir_token := "oat_oat_3"; ir_response_format := None; ir_client_id := Some "rs"; ir_client_secret := Some "s3cret"; ir_audience := None;
     ir_resource := None |}.
Abbreviation ex_introspect := (introspect ex_state ex_signer ex_W ex_body ex_bytes ex_text).
Definition ex_decoded : DecodedAccessToken (Num := N) :=
  match (ex_introspect None ex_introspect_request ex_st1).1 with
  | Ok (Active d _) => d
  | _ => {| dt_user_id := ""; dt_client_id := ""; dt_realm_id := ""; dt_exp := 0; dt_scope := ""; dt_cnf := None; dt_aud := [];
            dt_resource := []; dt_auth_time := None; dt_acr := None; dt_amr := []; dt_nonce := None; dt_token_format := Tokens.Jwt;
            dt_act := None |}
  end.

Lemma introspection_sound_witness : ∃ caller server, introspection_caller ex_state ex_body ex_bytes ex_text None ex_introspect_request ex_st1 caller ∧
  client_id caller ∈ introspection_client_ids server.
Proof.
  destruct (introspection_sound ex_state ex_signer ex_W ex_body ex_bytes (fun k m => ex_bytes (k +:+ m)) ex_text (fun _ => None) (join ",") None
    ex_introspect_request ex_st1 (ex_introspect None ex_introspect_request ex_st1).2 ex_decoded false)
    as (caller & server & realm & j & t & Hc & _ & _ & _ & _ & _ & _ & _ & _ & Hid & _).
  - assert ((ex_introspect None ex_introspect_request ex_st1).1 = Ok (Active ex_decoded false)) as Hr by (vm_compute; reflexivity).
    destruct (ex_introspect None ex_introspect_request ex_st1) as [r s]. cbn in Hr. by rewrite Hr.
  - by exists caller, server.
Defined.


Definition ex_claims : TokenIssueClaims := code_claims ex_code (Some ["api"]) None "code" None (Some "s1").
Definition ex_issue : QidResult TokenPair * St :=
  issue_token_pair ex_state ex_signer ex_W ex_bytes ex_text "https://r" ex_user "app" "r" ["read"] ex_claims ex_st.
Definition ex_pair : TokenPair :=
  ok_value {| tp_access_token := ""; tp_refresh_token := ""; access_jti := ""; refresh_jti := ""; tp_expires_in := 0 |} ex_issue.1.
Definition ex_issued : St := ex_issue.2.
Definition ex_pair_request : TokenRequest := ex_request "refresh_token" None (Some (tp_refresh_token ex_pair)).

Lemma ex_issue_ok : ex_issue = (Ok ex_pair, ex_issued).
Proof. exact (outcome_eq ex_issue _ ltac:(computes)). Qed.

Lemma ex_app_sole : sole_client ex_state ex_issued ex_app.
Proof.
  split; [by left|]. exists "c1". split; [vm_compute; reflexivity|]. intros k' c' Hk' Hid _.
  apply elem_of_map_to_list in Hk'. vm_compute in Hk'.
  apply elem_of_cons in Hk' as [[= -> ->]|[[= -> ->]|[]%not_elem_of_nil]%elem_of_cons]; done.
Qed.

Lemma ex_issued_fresh : fresh_identifiers ex_W ex_bytes ex_text ex_issued.
Proof.
  assert (tick ex_issued = 8%nat) as Ht by (vm_compute; reflexivity). intros n Hn. rewrite Ht in Hn. split.
  - destruct (access ex_issued !! _) as [t|] eqn:E; [|done]. exfalso.
    assert (map_to_list (access ex_issued) = [("oat_1", default (default t (access ex_issued !! "oat_1")) None)]) as Hl by (vm_compute; reflexivity).
    apply elem_of_map_to_list in E. rewrite Hl in E. apply list_elem_of_singleton in E. apply (f_equal fst) in E.
    assert (n = 1%nat) as -> by (apply ex_ids; f_equal; f_equal; exact E). lia.
  - intros k f Hf Heq. assert (n = 2%nat) as ->; [|lia]. apply ex_ids. etrans; [symmetry; exact Heq|].
    assert (map_to_list (families ex_issued) = [("oat_3", default (default f (families ex_issued !! "oat_3")) None)]) as Hl by (vm_compute; reflexivity).
    apply elem_of_map_to_list in Hf. rewrite Hl in Hf. apply list_elem_of_singleton in Hf. injection Hf as _ ->. vm_compute. reflexivity.
Qed.

Lemma issued_refresh_token_works_witness :
  ∃ resp st2, ex_token ex_pair_request None None None ex_issued = (Ok resp, st2) ∧ tr_scope resp = Some "read".
Proof.
  destruct (issued_refresh_token_works ex_state ex_signer ex_V ex_W Tokens.Immediate ex_body ex_bytes (fun k m => ex_bytes (k +:+ m)) ex_text
    (fun _ => None) (join ",") ex_sign_decode (fun cl => ex_intro _ _ eq_refl) (fun cl ty => ex_intro _ _ eq_refl) (fun _ => eq_refl)
    "https://r" ex_user ex_app ex_plan ["read"] ex_claims ex_st ex_issued ex_pair ex_pair_request None)
    as (resp & st2 & rt & j & t & Hok & Hsc & _).
  - exact ex_issue_ok.
  - discriminate.
  - reflexivity.
  - reflexivity.
  - reflexivity.
  - intros x Hx. exact Hx.
  - discriminate.
  - exact ex_app_sole.
  - vm_compute. right. left.
  - by split.
  - vm_compute. reflexivity.
  - reflexivity.
  - reflexivity.
  - vm_compute. reflexivity.
  - intros sid [= <-]. exists ex_session. vm_compute. by split_and!.
  - exact ex_issued_fresh.
  - exists resp, st2. by split.
Defined.


End OAuth.
