(* ===== verification/Scim.v ===== *)
(** The SCIM tables of the file repository (src/qid-storage/src/file/scim.rs) and the ordered
    HR batches committed to them (src/qid-storage/src/hr.rs, src/qid-storage/src/file/hr.rs).

    Every operation holds the store's write lock and ends with a [save] whose outcome [saved] is
    an argument: a failed save leaves the rows changed in memory.  A batch is the exception: it
    is written before it is published, [written] is the outcome of encoding and writing the
    candidate, [synced] the one of the directory sync that follows.  Create-only inserts are the
    ones of Tokens.v. *)

From S2P Require Import Prelude Json Tokens.

Module Scim.

(** * Records *)

Section Records.
Context (Num : Type).

Record ScimUser : Type := {
  su_id : string;
  su_realm_id : string;
  external_id : option string;
  user_name : string;
  name_json : Value Num;
  emails_json : Value Num;
  enterprise_json : Value Num;
  directory_provider_id : option string;
  deprovisioned_at : option N;
  active : bool
}.

Record ScimGroup : Type := {
  sg_id : string;
  sg_realm_id : string;
  display_name : string;
  members_json : Value Num
}.
End Records.
Arguments su_id {Num} _.
Arguments su_realm_id {Num} _.
Arguments external_id {Num} _.
Arguments user_name {Num} _.
Arguments name_json {Num} _.
Arguments emails_json {Num} _.
Arguments enterprise_json {Num} _.
Arguments directory_provider_id {Num} _.
Arguments deprovisioned_at {Num} _.
Arguments active {Num} _.
Arguments Build_ScimUser {Num} _ _ _ _ _ _ _ _ _ _.
Arguments sg_id {Num} _.
Arguments sg_realm_id {Num} _.
Arguments display_name {Num} _.
Arguments members_json {Num} _.
Arguments Build_ScimGroup {Num} _ _ _ _.

Record ScimDeviceRecord : Type := {
  sd_id : string;
  sd_realm_id : string;
  sd_display_name : option string;
  manufacturer : option string;
  model : option string;
  os : option string;
  os_version : option string;
  sd_last_seen : option N
}.

Record ScimEventSubscriptionRecord : Type := {
  se_id : string;
  se_realm_id : string;
  callback_url : string;
  event_types : list string;
  se_enabled : bool;
  se_created_at : N
}.

Record HrSummary : Type := { hr_created : N; hr_updated : N; hr_deprovisioned : N }.
Record HrReceipt : Type := { hr_sequence : N; hr_digest : string; hr_summary : HrSummary }.
Record HrBatchResult : Type := { br_summary : HrSummary; br_sequence : N; replayed : bool }.

#[global] Instance HrReceipt_eq_dec : EqDecision HrReceipt.
Proof. unfold EqDecision, Decision. decide equality; [decide equality|..]; apply (decide (_ = _)). Defined.

#[global] Instance scim_user_identity {Num} : Tokens.InsertIdentity (ScimUser Num) := {|
  Tokens.RECORD := "SCIM user"; Tokens.IDENTITY := "user name"; Tokens.GLOBAL_IDENTITY := false;
  Tokens.ins_id := su_id; Tokens.identity := fun u => Some (su_realm_id u, user_name u)
|}.

#[global] Instance scim_group_identity {Num} : Tokens.InsertIdentity (ScimGroup Num) := {|
  Tokens.RECORD := "SCIM group"; Tokens.IDENTITY := "display name"; Tokens.GLOBAL_IDENTITY := false;
  Tokens.ins_id := sg_id; Tokens.identity := fun g => Some (sg_realm_id g, display_name g)
|}.

Inductive ScimMutation (T : Type) : Type :=
| Reject
| Replace (t : T)
| Delete.
Arguments Reject {T}.
Arguments Replace {T} _.
Arguments Delete {T}.

Section Store.
Context {Num : Type} `{JsonNumber Num}.
Abbreviation UserRow := (ScimUser Num).
Abbreviation GroupRow := (ScimGroup Num).

Record HrUserChange : Type := { expected : option UserRow; hc_user : UserRow }.

Record HrBatch : Type := {
  hb_realm_id : string;
  hb_provider_id : string;
  receipt : HrReceipt;
  changes : option (list HrUserChange)
}.

Record ScimStore : Type := {
  scim_users : gmap string UserRow;
  scim_groups : gmap string GroupRow;
  scim_devices : gmap string ScimDeviceRecord;
  scim_event_subscriptions : gmap string ScimEventSubscriptionRecord;
  scim_hr_receipts : gmap string (gmap string HrReceipt)
}.

Definition with_scim_users (s : ScimStore) m : ScimStore :=
  {| scim_users := m; scim_groups := scim_groups s; scim_devices := scim_devices s;
     scim_event_subscriptions := scim_event_subscriptions s; scim_hr_receipts := scim_hr_receipts s |}.
Definition with_scim_groups (s : ScimStore) m : ScimStore :=
  {| scim_users := scim_users s; scim_groups := m; scim_devices := scim_devices s;
     scim_event_subscriptions := scim_event_subscriptions s; scim_hr_receipts := scim_hr_receipts s |}.
Definition with_scim_devices (s : ScimStore) m : ScimStore :=
  {| scim_users := scim_users s; scim_groups := scim_groups s; scim_devices := m;
     scim_event_subscriptions := scim_event_subscriptions s; scim_hr_receipts := scim_hr_receipts s |}.
Definition with_scim_subscriptions (s : ScimStore) m : ScimStore :=
  {| scim_users := scim_users s; scim_groups := scim_groups s; scim_devices := scim_devices s;
     scim_event_subscriptions := m; scim_hr_receipts := scim_hr_receipts s |}.

(** * Users and groups *)

(** [mutate_resource]: the caller's decision is taken on the stored row; a replacement keeps its
    ID and realm and must not take the name of another row. *)
Definition mutate_resource {T : Type} `{Tokens.InsertIdentity T} (saved : QidResult unit) (id : string)
    (mutation : T → QidResult (ScimMutation T)) (resources : gmap string T)
    : QidResult (option T) * gmap string T :=
  match resources !! id with
  | None => (Ok None, resources)
  | Some current =>
      match mutation current with
      | Err e => (Err e, resources)
      | Ok Reject => (Ok None, resources)
      | Ok (Replace replacement) =>
          if negb (String.eqb (Tokens.ins_id current) (Tokens.ins_id replacement))
             || negb (bool_decide (fst <$> Tokens.identity current = fst <$> Tokens.identity replacement))
          then (Err (BadRequest "serialized mutation cannot change resource identity"), resources)
          else if existsb (fun '(key, stored) =>
                    negb (String.eqb key id) && bool_decide (Tokens.identity stored = Tokens.identity replacement))
                  (map_to_list resources)
          then (Err (Storage (Tokens.IDENTITY (T := T) +:+ " already exists in realm")), resources)
          else (res_map (fun _ => Some replacement) saved, <[id := replacement]> resources)
      | Ok Delete => (res_map (fun _ => Some current) saved, delete id resources)
      end
  end.

Definition create_scim_user (saved : QidResult unit) (user : UserRow) (s : ScimStore) : QidResult unit * ScimStore :=
  match Tokens.insert_new (scim_users s) user with
  | Err e => (Err e, s)
  | Ok m => (saved, with_scim_users s m)
  end.

Definition get_scim_user (id : string) (s : ScimStore) : option UserRow := scim_users s !! id.

(** The rows of a realm, in the order of their IDs. *)
Definition realm_users (realm : string) (s : ScimStore) : list UserRow :=
  sort_by (fun a b => str_leb (su_id a) (su_id b))
    (List.filter (fun u => String.eqb (su_realm_id u) realm) (map snd (map_to_list (scim_users s)))).

Definition list_scim_users_page (realm : string) (offset limit : nat) (s : ScimStore) : list UserRow :=
  take limit (drop offset (realm_users realm s)).

(** [list_scim_users_page(realm, 0, usize::MAX)]. *)
Definition list_scim_users (realm : string) (s : ScimStore) : list UserRow := realm_users realm s.

Definition count_scim_users (realm : string) (s : ScimStore) : N :=
  N.of_nat (length (List.filter (fun u => String.eqb (su_realm_id u) realm) (map snd (map_to_list (scim_users s))))).

Definition mutate_scim_user (saved : QidResult unit) (id : string) (f : UserRow → QidResult (ScimMutation UserRow))
    (s : ScimStore) : QidResult (option UserRow) * ScimStore :=
  let '(r, m) := mutate_resource saved id f (scim_users s) in (r, with_scim_users s m).

Definition update_scim_user (saved : QidResult unit) (user : UserRow) (s : ScimStore) : QidResult unit * ScimStore :=
  let '(r, s') := mutate_scim_user saved (su_id user) (fun _ => Ok (Replace user)) s in
  (res_map (fun _ => tt) r, s').

Definition create_scim_group (saved : QidResult unit) (group : GroupRow) (s : ScimStore) : QidResult unit * ScimStore :=
  match Tokens.insert_new (scim_groups s) group with
  | Err e => (Err e, s)
  | Ok m => (saved, with_scim_groups s m)
  end.

Definition get_scim_group (id : string) (s : ScimStore) : option GroupRow := scim_groups s !! id.

Definition realm_groups (realm : string) (s : ScimStore) : list GroupRow :=
  sort_by (fun a b => str_leb (sg_id a) (sg_id b))
    (List.filter (fun g => String.eqb (sg_realm_id g) realm) (map snd (map_to_list (scim_groups s)))).

Definition list_scim_groups_page (realm : string) (offset limit : nat) (s : ScimStore) : list GroupRow :=
  take limit (drop offset (realm_groups realm s)).

Definition list_scim_groups (realm : string) (s : ScimStore) : list GroupRow := realm_groups realm s.

Definition count_scim_groups (realm : string) (s : ScimStore) : N :=
  N.of_nat (length (List.filter (fun g => String.eqb (sg_realm_id g) realm) (map snd (map_to_list (scim_groups s))))).

Definition mutate_scim_group (saved : QidResult unit) (id : string) (f : GroupRow → QidResult (ScimMutation GroupRow))
    (s : ScimStore) : QidResult (option GroupRow) * ScimStore :=
  let '(r, m) := mutate_resource saved id f (scim_groups s) in (r, with_scim_groups s m).

Definition update_scim_group (saved : QidResult unit) (group : GroupRow) (s : ScimStore) : QidResult unit * ScimStore :=
  let '(r, s') := mutate_scim_group saved (sg_id group) (fun _ => Ok (Replace group)) s in
  (res_map (fun _ => tt) r, s').

(** * Devices and event subscriptions *)

Definition ensure_same_realm (incumbent : option string) (incoming message : string) : QidResult unit :=
  match incumbent with
  | Some binding => if String.eqb binding incoming then Ok tt else Err (Conflict message)
  | None => Ok tt
  end.

Definition upsert_scim_device (saved : QidResult unit) (device : ScimDeviceRecord) (s : ScimStore)
    : QidResult unit * ScimStore :=
  match ensure_same_realm (sd_realm_id <$> scim_devices s !! sd_id device) (sd_realm_id device)
          "SCIM device ID belongs to another realm" with
  | Err e => (Err e, s)
  | Ok _ => (saved, with_scim_devices s (<[sd_id device := device]> (scim_devices s)))
  end.

Definition get_scim_device (id : string) (s : ScimStore) : option ScimDeviceRecord := scim_devices s !! id.

Definition list_scim_devices (realm : string) (s : ScimStore) : list ScimDeviceRecord :=
  sort_by (fun a b => str_leb (sd_id a) (sd_id b))
    (List.filter (fun d => String.eqb (sd_realm_id d) realm) (map snd (map_to_list (scim_devices s)))).

(** [realm.is_none_or(|r| existing.is_some_and(|d| d.realm_id == r))] *)
Definition realm_in_scope (realm existing : option string) : bool :=
  match realm with
  | None => true
  | Some r => match existing with Some e => String.eqb e r | None => false end
  end.

Definition delete_scim_device (saved : QidResult unit) (id : string) (realm : option string) (s : ScimStore)
    : QidResult bool * ScimStore :=
  let existing := scim_devices s !! id in
  if realm_in_scope realm (sd_realm_id <$> existing) && bool_decide (is_Some existing)
  then (res_map (fun _ => true) saved, with_scim_devices s (delete id (scim_devices s)))
  else (Ok false, s).

Definition upsert_scim_event_subscription (saved : QidResult unit) (subscription : ScimEventSubscriptionRecord)
    (s : ScimStore) : QidResult unit * ScimStore :=
  let existing := scim_event_subscriptions s !! se_id subscription in
  match ensure_same_realm (se_realm_id <$> existing) (se_realm_id subscription)
          "SCIM event subscription ID belongs to another realm" with
  | Err e => (Err e, s)
  | Ok _ =>
      let kept := {| se_id := se_id subscription; se_realm_id := se_realm_id subscription;
                     callback_url := callback_url subscription; event_types := event_types subscription;
                     se_enabled := se_enabled subscription;
                     se_created_at := match existing with Some e => se_created_at e | None => se_created_at subscription end |} in
      (saved, with_scim_subscriptions s (<[se_id subscription := kept]> (scim_event_subscriptions s)))
  end.

Definition get_scim_event_subscription (id : string) (s : ScimStore) : option ScimEventSubscriptionRecord :=
  scim_event_subscriptions s !! id.

Definition list_scim_event_subscriptions (realm : string) (s : ScimStore) : list ScimEventSubscriptionRecord :=
  sort_by (fun a b => str_leb (se_id a) (se_id b))
    (List.filter (fun d => String.eqb (se_realm_id d) realm) (map snd (map_to_list (scim_event_subscriptions s)))).

Definition delete_scim_event_subscription (saved : QidResult unit) (id : string) (realm : option string) (s : ScimStore)
    : QidResult bool * ScimStore :=
  let existing := scim_event_subscriptions s !! id in
  if realm_in_scope realm (se_realm_id <$> existing) && bool_decide (is_Some existing)
  then (res_map (fun _ => true) saved, with_scim_subscriptions s (delete id (scim_event_subscriptions s)))
  else (Ok false, s).

(** * HR batches *)

Definition hr_conflict : QidError :=
  Conflict "HR sequence or target conflict; use the next contiguous sequence, or retry the latest identical body".

Definition valid_sequence (n : N) : bool := negb ((n =? 0) || negb (fits_i64 n)).

Definition hr_order (current : option HrReceipt) (incoming : HrReceipt) : QidResult (option HrBatchResult) :=
  if negb (valid_sequence (hr_sequence incoming)) then Err hr_conflict
  else
    match current with
    | Some cur =>
        if negb (valid_sequence (hr_sequence cur)) then Err (Internal "invalid persisted HR receipt sequence")
        else if (hr_sequence cur =? hr_sequence incoming) && String.eqb (hr_digest cur) (hr_digest incoming)
        then Ok (Some {| br_summary := hr_summary cur; br_sequence := hr_sequence cur; replayed := true |})
        else if bool_decide (checked_add64 (hr_sequence cur) 1 = Some (hr_sequence incoming)) then Ok None
        else Err hr_conflict
    | None => if hr_sequence incoming =? 1 then Ok None else Err hr_conflict
    end.

Definition opt_value (o : option string) : Value Num := match o with Some s => VString s | None => VNull end.

(** [serde_json::to_value] of a user, its keys in byte order. *)
Definition scim_user_value (u : UserRow) : Value Num :=
  VObject [("active", VBool (active u));
           ("deprovisioned_at", match deprovisioned_at u with Some n => VNumber (num_from_u64 n) | None => VNull end);
           ("directory_provider_id", opt_value (directory_provider_id u));
           ("emails_json", emails_json u);
           ("enterprise_json", enterprise_json u);
           ("external_id", opt_value (external_id u));
           ("id", VString (su_id u));
           ("name_json", name_json u);
           ("realm_id", VString (su_realm_id u));
           ("user_name", VString (user_name u))].

Definition same_value (a b : option UserRow) : bool :=
  match a, b with
  | Some x, Some y => value_eqb (scim_user_value x) (scim_user_value y)
  | None, None => true
  | _, _ => false
  end.

(** What the loop over the changes carries: the external IDs and IDs seen, and who holds each
    name once the changes so far are made. *)
Record HrScan : Type := { seen_external : gset (option string); seen_ids : gset string; hr_names : gmap string string }.

Definition hr_change_ok (realm : string) (users : list UserRow) (st : HrScan) (change : HrUserChange) : QidResult HrScan :=
  let user := hc_user change in
  let targets := List.filter (fun u => bool_decide (external_id u = external_id user))
                   (List.filter (fun u => String.eqb (su_realm_id u) realm) users) in
  let exp := expected change in
  if negb (String.eqb (su_realm_id user) realm) || bool_decide (external_id user ∈ seen_external st)
     || bool_decide (su_id user ∈ seen_ids st)
  then Err hr_conflict
  else if negb (Nat.eqb (length targets) (match exp with Some _ => 1 | None => 0 end))
       || negb (same_value (head targets) exp)
       || match exp with
          | Some u => negb (String.eqb (su_id u) (su_id user))
                      || negb (bool_decide (directory_provider_id u = directory_provider_id user))
          | None => existsb (fun u => String.eqb (su_id u) (su_id user)) users
          end
       || match hr_names st !! user_name user with Some id => negb (String.eqb id (su_id user)) | None => false end
  then Err hr_conflict
  else Ok {| seen_external := {[external_id user]} ∪ seen_external st;
             seen_ids := {[su_id user]} ∪ seen_ids st;
             hr_names := <[user_name user := su_id user]> (hr_names st) |}.

Definition hr_scan_start (realm : string) (users : list UserRow) : HrScan :=
  {| seen_external := ∅; seen_ids := ∅;
     hr_names := foldl (fun m u => <[user_name u := su_id u]> m) ∅
                   (List.filter (fun u => String.eqb (su_realm_id u) realm) users) |}.

Definition validate_hr_changes (batch : HrBatch) (users : list UserRow) : QidResult unit :=
  let? cs := ok_or (changes batch) hr_conflict in
  let? _ := res_foldl (hr_change_ok (hb_realm_id batch) users) (hr_scan_start (hb_realm_id batch) users) cs in
  Ok tt.

Definition get_hr_receipt (realm provider : string) (s : ScimStore) : option HrReceipt :=
  match scim_hr_receipts s !! realm with Some r => r !! provider | None => None end.

(** The candidate store of a batch that is in order and valid. *)
Definition hr_candidate (batch : HrBatch) (s : ScimStore) : ScimStore :=
  {| scim_users := foldl (fun m c => <[su_id (hc_user c) := hc_user c]> m) (scim_users s) (default [] (changes batch));
     scim_groups := scim_groups s; scim_devices := scim_devices s;
     scim_event_subscriptions := scim_event_subscriptions s;
     scim_hr_receipts := <[hb_realm_id batch := <[hb_provider_id batch := receipt batch]>
                             (default ∅ (scim_hr_receipts s !! hb_realm_id batch))]> (scim_hr_receipts s) |}.

Definition commit_hr_inner (written synced : QidResult unit) (batch : HrBatch) (s : ScimStore)
    : QidResult HrBatchResult * ScimStore :=
  match hr_order (get_hr_receipt (hb_realm_id batch) (hb_provider_id batch) s) (receipt batch) with
  | Err e => (Err e, s)
  | Ok (Some result) => (synced ?; Ok result, s)
  | Ok None =>
      match validate_hr_changes batch (map snd (map_to_list (scim_users s))) with
      | Err e => (Err e, s)
      | Ok _ =>
          match written with
          | Err e => (Err e, s)
          | Ok _ =>
              (synced ?; Ok {| br_summary := hr_summary (receipt batch); br_sequence := hr_sequence (receipt batch);
                               replayed := false |},
               hr_candidate batch s)
          end
      end
  end.


(** * Runs

    An operation with the outcome of its save; [Commit] carries the outcomes of the write and of
    the directory sync.  [update_scim_user] and [update_scim_group] are mutations. *)

Inductive ScimOp : Type :=
| CreateUser (u : UserRow)
| MutateUser (id : string) (f : UserRow → QidResult (ScimMutation UserRow))
| CreateGroup (g : GroupRow)
| MutateGroup (id : string) (f : GroupRow → QidResult (ScimMutation GroupRow))
| UpsertDevice (d : ScimDeviceRecord)
| DeleteDevice (id : string) (realm : option string)
| UpsertSubscription (e : ScimEventSubscriptionRecord)
| DeleteSubscription (id : string) (realm : option string)
| CommitHr (b : HrBatch) (synced : QidResult unit).

Definition run_scim (o : ScimOp) (saved : QidResult unit) (s : ScimStore) : ScimStore :=
  match o with
  | CreateUser u => (create_scim_user saved u s).2
  | MutateUser id f => (mutate_scim_user saved id f s).2
  | CreateGroup g => (create_scim_group saved g s).2
  | MutateGroup id f => (mutate_scim_group saved id f s).2
  | UpsertDevice d => (upsert_scim_device saved d s).2
  | DeleteDevice id r => (delete_scim_device saved id r s).2
  | UpsertSubscription e => (upsert_scim_event_subscription saved e s).2
  | DeleteSubscription id r => (delete_scim_event_subscription saved id r s).2
  | CommitHr b synced => (commit_hr_inner saved synced b s).2
  end.

Inductive scim_step : ScimStore → ScimStore → Prop :=
| scim_step_op o saved s : scim_step s (run_scim o saved s).

Definition scim_empty : ScimStore :=
  {| scim_users := ∅; scim_groups := ∅; scim_devices := ∅; scim_event_subscriptions := ∅; scim_hr_receipts := ∅ |}.

(** A table keyed by ID whose rows have distinct identities. *)
Definition table_wf {T} `{Tokens.InsertIdentity T} (m : gmap string T) : Prop :=
  (∀ k x, m !! k = Some x → Tokens.ins_id x = k) ∧
  (∀ k1 k2 x1 x2, m !! k1 = Some x1 → m !! k2 = Some x2 → Tokens.identity x1 = Tokens.identity x2 → k1 = k2).

Definition scim_wf (s : ScimStore) : Prop := table_wf (scim_users s) ∧ table_wf (scim_groups s).

(** ** Tables *)

Lemma table_wf_insert {T} `{Tokens.InsertIdentity T} (m : gmap string T) x :
  table_wf m → (∀ k y, k ≠ Tokens.ins_id x → m !! k = Some y → Tokens.identity y ≠ Tokens.identity x) →
  table_wf (<[Tokens.ins_id x := x]> m).
Proof.
  intros [Hk Hi] Hx. split.
  - intros k y [[<- <-]|[_ Hy]]%lookup_insert_Some; eauto.
  - intros k1 k2 x1 x2 [[<- <-]|[N1 H1]]%lookup_insert_Some [[<- <-]|[N2 H2]]%lookup_insert_Some He; eauto.
    + by destruct (Hx k2 x2).
    + by destruct (Hx k1 x1).
Qed.

Lemma table_wf_delete {T} `{Tokens.InsertIdentity T} (m : gmap string T) k : table_wf m → table_wf (delete k m).
Proof.
  intros [Hk Hi]. split.
  - intros j y [_ Hy]%lookup_delete_Some. eauto.
  - intros k1 k2 x1 x2 [_ H1]%lookup_delete_Some [_ H2]%lookup_delete_Some. eauto.
Qed.

Lemma table_wf_insert_new {T} `{Tokens.InsertIdentity T} (m m' : gmap string T) x :
  table_wf m → Tokens.identity x ≠ None → Tokens.insert_new m x = Ok m' → table_wf m'.
Proof.
  intros Hw Hn E. pose proof E as [Hfresh ->]%Tokens.insert_new_Ok. apply table_wf_insert; [done|].
  intros k y _ Hy He. unfold Tokens.insert_new, Tokens.reject_duplicate_id in E. rewrite Hfresh in E. cbn in E.
  destruct (Tokens.identity x) as [[o i]|] eqn:Ex; [|done].
  destruct (existsb _ _) eqn:Ee in E; [done|]. rewrite existsb_false in Ee.
  specialize (Ee (k, y)). cbn in Ee. rewrite bool_decide_eq_false in Ee.
  apply Ee; [by apply elem_of_map_to_list|done].
Qed.

(** Every outcome of a mutation. *)
Lemma mutate_resource_cases {T} `{Tokens.InsertIdentity T} saved id f (m : gmap string T) :
  (mutate_resource saved id f m).2 = m ∨
  (mutate_resource saved id f m).2 = delete id m ∨
  ∃ cur new, m !! id = Some cur ∧ f cur = Ok (Replace new) ∧
    Tokens.ins_id new = Tokens.ins_id cur ∧ fst <$> Tokens.identity new = fst <$> Tokens.identity cur ∧
    (∀ k y, k ≠ id → m !! k = Some y → Tokens.identity y ≠ Tokens.identity new) ∧
    mutate_resource saved id f m = (res_map (fun _ => Some new) saved, <[id := new]> m).
Proof.
  unfold mutate_resource. destruct (m !! id) as [cur|] eqn:E; [|by left].
  destruct (f cur) as [[|new|]|e] eqn:Ef; [by left| |by right; left|by left].
  destruct (String.eqb_spec (Tokens.ins_id cur) (Tokens.ins_id new)) as [Hid|]; cbn; [|by left].
  case_bool_decide as Hr; cbn; [|by left].
  destruct (existsb _ _) eqn:Ee; [by left|]. right; right. exists cur, new.
  assert (∀ k y, k ≠ id → m !! k = Some y → Tokens.identity y ≠ Tokens.identity new) as Hu; [|by rewrite Hid].
  intros k y Hk Hy. rewrite existsb_false in Ee. specialize (Ee (k, y)). cbn in Ee.
  rewrite (proj2 (String.eqb_neq k id) Hk) in Ee. cbn in Ee. rewrite bool_decide_eq_false in Ee.
  by apply Ee, elem_of_map_to_list.
Qed.

Lemma mutate_resource_wf {T} `{Tokens.InsertIdentity T} saved id f (m : gmap string T) :
  table_wf m → table_wf (mutate_resource saved id f m).2.
Proof.
  intros Hw. destruct (mutate_resource_cases saved id f m) as [->|[->|(cur & new & Hc & _ & Hid & _ & Hu & ->)]]; [done|by apply table_wf_delete|].
  cbn. pose proof (proj1 Hw _ _ Hc) as Hk. rewrite <- Hid in Hk. subst id. by apply table_wf_insert.
Qed.

(** ** HR batches *)

Lemma same_value_id t e : same_value (Some t) (Some e) = true → su_id t = su_id e ∧ su_realm_id t = su_realm_id e.
Proof.
  cbn. rewrite !andb_true_iff, !String.eqb_eq. naive_solver.
Qed.

(** What a change the scan accepts satisfies. *)
Lemma hr_change_ok_inv realm users st c st' :
  hr_change_ok realm users st c = Ok st' →
  let u := hc_user c in
  su_realm_id u = realm ∧ (su_id u ∉ seen_ids st) ∧
  (∀ x, hr_names st !! user_name u = Some x → x = su_id u) ∧
  ((∃ t, t ∈ users ∧ su_id t = su_id u ∧ su_realm_id t = realm ∧ same_value (Some t) (expected c) = true
      ∧ external_id t = external_id u) ∨
   (expected c = None ∧ (∀ t, t ∈ users → su_id t ≠ su_id u)
    ∧ ∀ t, t ∈ users → su_realm_id t = realm → external_id t ≠ external_id u)) ∧
  seen_ids st' = {[su_id u]} ∪ seen_ids st ∧ hr_names st' = <[user_name u := su_id u]> (hr_names st).
Proof.
  unfold hr_change_ok. set (u := hc_user c).
  destruct (_ || _ || _) eqn:E1; [done|]. set (targets := List.filter _ (List.filter _ users)).
  destruct (negb (Nat.eqb _ _) || _ || _ || _) eqn:E2; [done|]. intros [= <-].
  rewrite !orb_false_iff, negb_false_iff, String.eqb_eq in E1. destruct E1 as [[Hr Hx] Hi].
  rewrite !orb_false_iff, !negb_false_iff, Nat.eqb_eq in E2. destruct E2 as [[[Hl Hs] He] Hn].
  apply bool_decide_eq_false in Hi. cbn. split_and!; [done..| | |done|done].
  - intros x Hxn. rewrite Hxn in Hn. by apply negb_false_iff, String.eqb_eq in Hn.
  - assert (∀ t, t ∈ targets ↔ t ∈ users ∧ su_realm_id t = realm ∧ external_id t = external_id u) as Ht.
    { intros t. unfold targets. rewrite !elem_of_lfilter, bool_decide_eq_true, String.eqb_eq. naive_solver. }
    destruct (expected c) as [e|].
    + left. destruct targets as [|t [|]]; try done. cbn [head] in Hs. apply orb_false_iff in He as [He _].
      apply negb_false_iff, String.eqb_eq in He. destruct (same_value_id _ _ Hs) as [H1 H2].
      exists t. destruct (proj1 (Ht t)) as (? & ? & ?); [left|]. split_and!; [done|congruence|done..].
    + right. rewrite existsb_false in He. split_and!; [done| |].
      * intros t Hin Heq. specialize (He t Hin). apply String.eqb_neq in He. done.
      * intros t Hin Hrt Heq. destruct targets; [|done]. eapply not_elem_of_nil, Ht. eauto.
Qed.

Definition apply_changes (m : gmap string UserRow) (cs : list HrUserChange) : gmap string UserRow :=
  foldl (fun m c => <[su_id (hc_user c) := hc_user c]> m) m cs.

(** Invariant of the scan: the names held in the realm are the ones of the table so far. *)
Definition scan_inv realm (m0 m : gmap string UserRow) (st : HrScan) : Prop :=
  table_wf m ∧ (∀ k u, m !! k = Some u → su_realm_id u = realm → hr_names st !! user_name u = Some k) ∧
  (∀ k, k ∉ seen_ids st → m !! k = m0 !! k).

Lemma hr_change_inv realm m0 m st c st' :
  table_wf m0 → scan_inv realm m0 m st → hr_change_ok realm (map snd (map_to_list m0)) st c = Ok st' →
  scan_inv realm m0 (<[su_id (hc_user c) := hc_user c]> m) st'.
Proof.
  intros Hw0 (Hw & Hn & Hs) (Hr & Hi & Hnm & Ht & Es & En)%hr_change_ok_inv. unfold scan_inv.
  rewrite Es, En. set (u := hc_user c) in *.
  assert (∀ k y, k ≠ su_id u → m !! k = Some y → Tokens.identity y ≠ Tokens.identity u) as Hfresh.
  { intros k y Hk Hy [= Hry Hny]. apply Hk, Hnm. rewrite <- Hny. apply Hn; [done|congruence]. }
  split_and!.
  - exact (table_wf_insert m u Hw Hfresh).
  - intros k y [[<- <-]|[Hk Hy]]%lookup_insert_Some Hry; [by rewrite lookup_insert_eq|].
    rewrite lookup_insert_ne; [by apply Hn|]. intros He. apply (Hfresh k y); [done..|]. cbn. congruence.
  - intros k Hk. rewrite lookup_insert_ne by set_solver. apply Hs. set_solver.
Qed.

Lemma hr_changes_inv realm m0 cs : ∀ m st st',
  table_wf m0 → scan_inv realm m0 m st →
  res_foldl (hr_change_ok realm (map snd (map_to_list m0))) st cs = Ok st' → scan_inv realm m0 (apply_changes m cs) st'.
Proof.
  induction cs as [|c cs IH]; intros m st st' Hw Hi; cbn; [by intros [= <-]|].
  intros (st1 & H1 & H2)%res_bind_Ok. eapply IH; [done| |exact H2]. by eapply hr_change_inv.
Qed.

(** The names of a table with distinct identities. *)
Lemma names_of_realm realm (us : list UserRow) (m : gmap string string) u :
  (∀ v, v ∈ us → user_name v = user_name u → su_id v = su_id u) →
  u ∈ us ∨ m !! user_name u = Some (su_id u) →
  foldl (fun m u => <[user_name u := su_id u]> m) m (List.filter (fun u => String.eqb (su_realm_id u) realm) us)
    !! user_name u = Some (su_id u) ∨ (u ∈ us ∧ su_realm_id u ≠ realm).
Proof.
  revert m. induction us as [|v us IH]; intros m Hall Hin; cbn.
  - left. destruct Hin as [?%not_elem_of_nil|]; done.
  - destruct (String.eqb_spec (su_realm_id v) realm) as [Hr|Hr]; cbn.
    + destruct (IH (<[user_name v := su_id v]> m)) as [?|[? ?]]; [set_solver| |by left|right; set_solver].
      destruct (decide (user_name v = user_name u)) as [En|En].
      * right. rewrite <- (Hall v); [|left|done]. rewrite En. by rewrite lookup_insert_eq.
      * destruct Hin as [[->|?]%elem_of_cons|?]; [done|by left|]. right. by rewrite lookup_insert_ne.
    + destruct Hin as [[->|?]%elem_of_cons|?]; [right; split; [left|done]| |].
      * destruct (IH m) as [?|[? ?]]; [set_solver|by left|by left|right; set_solver].
      * destruct (IH m) as [?|[? ?]]; [set_solver|by right|by left|right; set_solver].
Qed.

Lemma scan_start_inv realm (m : gmap string UserRow) :
  table_wf m → scan_inv realm m m (hr_scan_start realm (map snd (map_to_list m))).
Proof.
  intros Hw. split_and!; [done| |done].
  intros k u Hu Hr. cbn. rewrite <- (proj1 Hw k u Hu).
  assert (∀ v, v ∈ map snd (map_to_list m) → ∃ j, m !! j = Some v) as Hm.
  { intros v ([j w] & -> & Hw')%elem_of_map. exists j. by apply elem_of_map_to_list in Hw'. }
  set (us := List.filter (fun u => String.eqb (su_realm_id u) realm) (map snd (map_to_list m))).
  assert (List.filter (fun u => String.eqb (su_realm_id u) realm) us = us) as Hus.
  { apply lfilter_all. intros x Hx. by apply elem_of_lfilter in Hx as [_ ?]. }
  destruct (names_of_realm realm us ∅ u) as [H0|[_ ?]]; [| |by rewrite Hus in H0|done].
  - intros v [Hv Hrv%String.eqb_eq]%elem_of_lfilter Hn. destruct (Hm v Hv) as [j Hj].
    pose proof (proj1 Hw j v Hj) as Ej. pose proof (proj1 Hw k u Hu) as Ek. cbn in Ej, Ek. rewrite Ej, Ek. eapply (proj2 Hw); [done..|]. cbn. congruence.
  - left. apply elem_of_lfilter. split; [|by apply String.eqb_eq]. apply elem_of_map. exists (k, u).
    split; [done|]. by apply elem_of_map_to_list.
Qed.

Lemma validate_hr_changes_inv b (m : gmap string UserRow) :
  table_wf m → validate_hr_changes b (map snd (map_to_list m)) = Ok tt →
  ∃ cs st, changes b = Some cs ∧
    res_foldl (hr_change_ok (hb_realm_id b) (map snd (map_to_list m)))
      (hr_scan_start (hb_realm_id b) (map snd (map_to_list m))) cs = Ok st ∧
    scan_inv (hb_realm_id b) m (apply_changes m cs) st.
Proof.
  unfold validate_hr_changes. intros Hw (cs & Hcs & (st & Hst & _)%res_bind_Ok)%res_bind_Ok.
  destruct (changes b) as [cs'|]; [|done]. injection Hcs as ->. exists cs, st. split_and!; [done..|].
  eapply hr_changes_inv; [done|by apply scan_start_inv|done].
Qed.

(** Every outcome of a commit. *)
Lemma commit_hr_cases written synced b (s : ScimStore) :
  (commit_hr_inner written synced b s).2 = s ∨
  hr_order (get_hr_receipt (hb_realm_id b) (hb_provider_id b) s) (receipt b) = Ok None ∧
  validate_hr_changes b (map snd (map_to_list (scim_users s))) = Ok tt ∧ written = Ok tt ∧
  (commit_hr_inner written synced b s).2 = hr_candidate b s.
Proof.
  unfold commit_hr_inner. destruct (hr_order _ _) as [[r|]|e]; [by left| |by left].
  destruct (validate_hr_changes _ _) as [[]|e] eqn:Ev; [|by left].
  destruct written as [[]|e]; [by right|by left].
Qed.

Lemma run_scim_wf o saved s : scim_wf s → scim_wf (run_scim o saved s).
Proof.
  intros [Hu Hg]. destruct o; cbn.
  - unfold create_scim_user. destruct (Tokens.insert_new _ _) as [m|] eqn:E; [|done].
    split; [|done]. by eapply table_wf_insert_new.
  - unfold mutate_scim_user. pose proof (mutate_resource_wf saved id f _ Hu) as Hm.
    destruct (mutate_resource _ _ _ _) as [r m]. done.
  - unfold create_scim_group. destruct (Tokens.insert_new _ _) as [m|] eqn:E; [|done].
    split; [done|]. by eapply table_wf_insert_new.
  - unfold mutate_scim_group. pose proof (mutate_resource_wf saved id f _ Hg) as Hm.
    destruct (mutate_resource _ _ _ _) as [r m]. done.
  - unfold upsert_scim_device. by destruct (ensure_same_realm _ _ _).
  - unfold delete_scim_device. by destruct (_ && _).
  - unfold upsert_scim_event_subscription. by destruct (ensure_same_realm _ _ _).
  - unfold delete_scim_event_subscription. by destruct (_ && _).
  - destruct (commit_hr_cases saved synced b s) as [->|(_ & Hv & _ & ->)]; [done|].
    apply validate_hr_changes_inv in Hv as (cs & st & Hc & _ & Hi & _); [|done].
    split; [|done]. cbn. by rewrite Hc.
Qed.

(** * What a run of batches does *)

Definition run_ops (os : list (ScimOp * QidResult unit)) (s : ScimStore) : ScimStore := foldl (fun s o => run_scim o.1 o.2 s) s os.

(** The batch an operation replaced the stored receipt with, if it did. *)
Definition took_effect (o : ScimOp) (saved : QidResult unit) (s : ScimStore) : option HrBatch :=
  match o with
  | CommitHr b _ =>
      if bool_decide (get_hr_receipt (hb_realm_id b) (hb_provider_id b) (run_scim o saved s)
                      = get_hr_receipt (hb_realm_id b) (hb_provider_id b) s) then None else Some b
  | _ => None
  end.

(** The batches that took effect in a run, in order. *)
Fixpoint effective (os : list (ScimOp * QidResult unit)) (s : ScimStore) : list HrBatch :=
  match os with
  | [] => []
  | (o, saved) :: rest => option_list (took_effect o saved s) ++ effective rest (run_scim o saved s)
  end.

(** The receipts of one provider. *)
Definition receipts_of (realm provider : string) (bs : list HrBatch) : list HrReceipt :=
  map receipt (List.filter (fun b => String.eqb (hb_realm_id b) realm && String.eqb (hb_provider_id b) provider) bs).

Definition last_sequence (r : option HrReceipt) : N := match r with Some r => hr_sequence r | None => 0 end.

(** A change that fits the rows: a row of the realm, over the one row with its external ID, which is as the batch expects it,
    or a new one. *)
Definition change_fits (realm : string) (m : gmap string UserRow) (c : HrUserChange) : Prop :=
  let u := hc_user c in
  su_realm_id u = realm ∧
  match expected c with
  | Some e => ∃ v, m !! su_id u = Some v ∧ su_realm_id v = realm ∧ external_id v = external_id u ∧
      value_eqb (scim_user_value v) (scim_user_value e) = true
  | None => m !! su_id u = None ∧ ∀ k v, m !! k = Some v → su_realm_id v = realm → external_id v ≠ external_id u
  end.

(** The batch has been applied: its changes fit the rows and are exactly what happened to them, and its receipt is the
    provider's. *)
Definition applied (b : HrBatch) (s s' : ScimStore) : Prop :=
  ∃ cs, changes b = Some cs ∧ NoDup (map (fun c => su_id (hc_user c)) cs) ∧
    (∀ c, c ∈ cs → change_fits (hb_realm_id b) (scim_users s) c ∧ scim_users s' !! su_id (hc_user c) = Some (hc_user c)) ∧
    (∀ k, (∀ c, c ∈ cs → su_id (hc_user c) ≠ k) → scim_users s' !! k = scim_users s !! k) ∧
    scim_groups s' = scim_groups s ∧ scim_devices s' = scim_devices s ∧
    scim_event_subscriptions s' = scim_event_subscriptions s ∧
    ∀ realm provider, get_hr_receipt realm provider s' =
      if bool_decide (realm = hb_realm_id b ∧ provider = hb_provider_id b) then Some (receipt b)
      else get_hr_receipt realm provider s.

(** ** Lemmas *)

Lemma hr_order_next cur inc : hr_order cur inc = Ok None → hr_sequence inc = last_sequence cur + 1 ∧ fits_i64 (hr_sequence inc) = true.
Proof.
  unfold hr_order, checked_add64, u64_max, valid_sequence. destruct (negb (negb _)) eqn:Ev; [done|].
  rewrite negb_involutive, orb_false_iff, negb_false_iff in Ev. destruct Ev as [_ ->]. destruct cur as [c|]; cbn.
  - destruct (negb _); [done|]. destruct (_ && _); [done|]. case_bool_decide as E; [|done]. intros _. split; [|done].
    destruct (N.leb_spec (hr_sequence c + 1) 18446744073709551615); by simplify_eq.
  - destruct (N.eqb_spec (hr_sequence inc) 1); [|done]. intros _. split; [lia|done].
Qed.

Lemma get_receipt_candidate b s realm provider :
  get_hr_receipt realm provider (hr_candidate b s) =
  if bool_decide (realm = hb_realm_id b ∧ provider = hb_provider_id b) then Some (receipt b)
  else get_hr_receipt realm provider s.
Proof.
  unfold get_hr_receipt. cbn. destruct (decide (realm = hb_realm_id b)) as [->|Hr].
  - rewrite lookup_insert_eq. destruct (decide (provider = hb_provider_id b)) as [->|Hp].
    + rewrite lookup_insert_eq, bool_decide_eq_true_2; done.
    + rewrite lookup_insert_ne, bool_decide_eq_false_2 by naive_solver. by destruct (scim_hr_receipts s !! _).
  - rewrite lookup_insert_ne, bool_decide_eq_false_2; naive_solver.
Qed.

(** The changes of a valid batch. *)
Lemma hr_changes_fit realm (m : gmap string UserRow) cs : ∀ st st',
  table_wf m → res_foldl (hr_change_ok realm (map snd (map_to_list m))) st cs = Ok st' →
  NoDup (map (fun c => su_id (hc_user c)) cs) ∧ ∀ c, c ∈ cs → (su_id (hc_user c) ∉ seen_ids st) ∧ change_fits realm m c.
Proof.
  assert (∀ v, v ∈ map snd (map_to_list m) ↔ ∃ k, m !! k = Some v) as Hm.
  { intros v. rewrite elem_of_map. split; [intros ([k w] & -> & Hw%elem_of_map_to_list); eauto|].
    intros [k Hk]. exists (k, v). split; [done|]. by apply elem_of_map_to_list. }
  induction cs as [|c cs IH]; intros st st' Hw; cbn; [split; [constructor|by intros ? ?%not_elem_of_nil]|].
  intros (st1 & (Hr & Hi & _ & Ht & Es & _)%hr_change_ok_inv & H2)%res_bind_Ok. destruct (IH _ _ Hw H2) as [Hnd Hall]. split.
  - constructor; [|done]. intros (c' & E & Hc')%elem_of_map. destruct (Hall c' Hc') as [Hs _]. rewrite Es, <- E in Hs. set_solver.
  - intros c' [->|Hc']%elem_of_cons; [|destruct (Hall c' Hc') as [Hs ?]; split; [rewrite Es in Hs; set_solver|done]].
    split; [done|]. split; [done|]. destruct Ht as [(t & Hin & Hid & Hrt & Hs & Hx)|(-> & Hn & Hx)].
    + destruct (expected c) as [e|]; [|done]. apply Hm in Hin as [k Hk]. pose proof (proj1 Hw k t Hk) as Ek. cbn in Ek.
      exists t. rewrite <- Hid, Ek. by split_and!.
    + split.
      * destruct (m !! su_id (hc_user c)) as [t|] eqn:E; [|done]. exfalso. apply (Hn t); [apply Hm; eauto|]. by apply (proj1 Hw).
      * intros k v Hv. apply Hx, Hm. eauto.
Qed.

Lemma apply_changes_lookup cs : ∀ (m : gmap string UserRow),
  NoDup (map (fun c => su_id (hc_user c)) cs) →
  (∀ c, c ∈ cs → apply_changes m cs !! su_id (hc_user c) = Some (hc_user c)) ∧
  (∀ k, (∀ c, c ∈ cs → su_id (hc_user c) ≠ k) → apply_changes m cs !! k = m !! k).
Proof.
  induction cs as [|c cs IH]; intros m; cbn; [intros _; split; [by intros ? ?%not_elem_of_nil|done]|].
  intros [Hc Hnd]%NoDup_cons. destruct (IH (<[su_id (hc_user c) := hc_user c]> m) Hnd) as [Hin Hout]. split.
  - intros c' [->|Hc']%elem_of_cons; [|by apply Hin]. change (foldl _ ?m cs) with (apply_changes m cs). rewrite Hout, lookup_insert_eq; [done|].
    intros c' Hc' E. apply Hc, elem_of_map. by exists c'.
  - intros k Hk. change (foldl _ ?m cs) with (apply_changes m cs). rewrite Hout, lookup_insert_ne; [done| |].
    + apply Hk. by left.
    + intros c' Hc'. apply Hk. by right.
Qed.

(** Every outcome of a commit: the batch is the next one and has been applied, or nothing happened. *)
Lemma commit_hr_outcome written synced b (s : ScimStore) :
  scim_wf s →
  let cur := get_hr_receipt (hb_realm_id b) (hb_provider_id b) s in
  let '(r, s') := commit_hr_inner written synced b s in
  (applied b s s' ∧ written = Ok tt ∧ hr_sequence (receipt b) = last_sequence cur + 1 ∧
   r = (synced ?; Ok {| br_summary := hr_summary (receipt b); br_sequence := hr_sequence (receipt b); replayed := false |}))
  ∨ (s' = s ∧ ((∃ e, r = Err e) ∨
       ∃ c, cur = Some c ∧ hr_sequence (receipt b) = hr_sequence c ∧ hr_digest (receipt b) = hr_digest c ∧
         r = (synced ?; Ok {| br_summary := hr_summary c; br_sequence := hr_sequence c; replayed := true |}))).
Proof.
  intros [Hw _] cur. unfold commit_hr_inner. fold cur. destruct (hr_order cur (receipt b)) as [[res|]|e] eqn:Eo; [| |by eauto].
  - right. split; [done|]. right. unfold hr_order in Eo. destruct cur as [c|]; destruct (negb _); try done; [|by destruct (_ =? _)].
    destruct (negb _); [done|]. destruct (_ && _) eqn:Ea; [|by case_bool_decide].
    apply andb_true_iff in Ea as [Eq%N.eqb_eq Ed%String.eqb_eq]. injection Eo as <-. by exists c.
  - destruct (validate_hr_changes _ _) as [[]|e] eqn:Ev; [|by eauto]. destruct written as [[]|e]; [|by eauto]. left.
    apply hr_order_next in Eo as [Hs _]. split_and!; [|done..].
    apply validate_hr_changes_inv in Ev as (cs & st & Hc & Hf & _); [|done]. apply hr_changes_fit in Hf as [Hnd Hall]; [|done].
    destruct (apply_changes_lookup cs (scim_users s) Hnd) as [Hin Hout].
    exists cs. cbn. rewrite Hc. cbn. split_and!; try done.
    + intros c Hcc. split; [by apply Hall|by apply Hin].
    + intros realm provider. apply get_receipt_candidate.
Qed.

(** The latest batch, again. *)
Lemma replay_answer written synced b (s : ScimStore) c :
  get_hr_receipt (hb_realm_id b) (hb_provider_id b) s = Some c → 0 < hr_sequence c → fits_i64 (hr_sequence c) = true →
  hr_sequence (receipt b) = hr_sequence c → hr_digest (receipt b) = hr_digest c →
  commit_hr_inner written synced b s =
    (synced ?; Ok {| br_summary := hr_summary c; br_sequence := hr_sequence c; replayed := true |}, s).
Proof.
  intros Hc Hp Hf Hq Hd. unfold commit_hr_inner, hr_order, valid_sequence. rewrite Hc, Hq, Hd, Hf, N.eqb_refl, String.eqb_refl.
  by destruct (N.eqb_spec (hr_sequence c) 0); [lia|].
Qed.

(** The next batch, when its changes are valid and it can be written. *)
Lemma next_applied synced b (s : ScimStore) :
  scim_wf s → hr_sequence (receipt b) = last_sequence (get_hr_receipt (hb_realm_id b) (hb_provider_id b) s) + 1 →
  fits_i64 (hr_sequence (receipt b)) = true → validate_hr_changes b (map snd (map_to_list (scim_users s))) = Ok tt →
  (∀ c, get_hr_receipt (hb_realm_id b) (hb_provider_id b) s = Some c → 0 < hr_sequence c) →
  applied b s (commit_hr_inner (Ok tt) synced b s).2.
Proof.
  intros Hw Hn Hf Hv Hp. pose proof (commit_hr_outcome (Ok tt) synced b s Hw) as Ho. unfold commit_hr_inner in *. rewrite Hv in *.
  assert (hr_order (get_hr_receipt (hb_realm_id b) (hb_provider_id b) s) (receipt b) = Ok None) as E.
  { unfold hr_order, valid_sequence, checked_add64, u64_max. rewrite Hf, Hn.
    unfold fits_i64 in Hf. rewrite Hn in Hf. apply N.leb_le in Hf.
    destruct (get_hr_receipt _ _ s) as [c|]; cbn in *; [|done]. specialize (Hp c eq_refl).
    unfold fits_i64. destruct (N.eqb_spec (hr_sequence c + 1) 0); [lia|]. destruct (N.eqb_spec (hr_sequence c) 0); [lia|]. cbn.
    destruct (N.leb_spec (hr_sequence c) i64_max); [|lia]. cbn. destruct (N.eqb_spec (hr_sequence c) (hr_sequence c + 1)); [lia|]. cbn.
    unfold i64_max in *. destruct (N.leb_spec (hr_sequence c + 1) 18446744073709551615); [|lia].
    rewrite bool_decide_eq_true_2; done. }
  rewrite E in *. destruct Ho as [[Ha _]|[Hs _]]; [done|]. exfalso. cbn in Hs.
  pose proof (f_equal (get_hr_receipt (hb_realm_id b) (hb_provider_id b)) Hs) as Hr.
  rewrite get_receipt_candidate, bool_decide_eq_true_2 in Hr by done. rewrite <- Hr in Hn. cbn in Hn. lia.
Qed.

Lemma took_effect_cases o saved (s : ScimStore) :
  match took_effect o saved s with
  | Some b =>
      (hr_sequence (receipt b) = last_sequence (get_hr_receipt (hb_realm_id b) (hb_provider_id b) s) + 1 ∧
       fits_i64 (hr_sequence (receipt b)) = true) ∧
      ∀ realm provider, get_hr_receipt realm provider (run_scim o saved s) =
        if bool_decide (realm = hb_realm_id b ∧ provider = hb_provider_id b) then Some (receipt b) else get_hr_receipt realm provider s
  | None => ∀ realm provider, get_hr_receipt realm provider (run_scim o saved s) = get_hr_receipt realm provider s
  end.
Proof.
  destruct o; cbn; try (intros realm provider).
  - unfold create_scim_user. by destruct (Tokens.insert_new _ _).
  - unfold mutate_scim_user. by destruct (mutate_resource _ _ _ _).
  - unfold create_scim_group. by destruct (Tokens.insert_new _ _).
  - unfold mutate_scim_group. by destruct (mutate_resource _ _ _ _).
  - unfold upsert_scim_device. by destruct (ensure_same_realm _ _ _).
  - unfold delete_scim_device. by destruct (_ && _).
  - unfold upsert_scim_event_subscription. by destruct (ensure_same_realm _ _ _).
  - unfold delete_scim_event_subscription. by destruct (_ && _).
  - destruct (commit_hr_cases saved synced b s) as [->|(Ho & _ & _ & ->)]; [by rewrite bool_decide_eq_true_2|].
    apply hr_order_next in Ho as [Hn Hf]. rewrite bool_decide_eq_false_2; [by split; [|intros; apply get_receipt_candidate]|].
    rewrite get_receipt_candidate, bool_decide_eq_true_2 by done. intros E. rewrite <- E in Hn. cbn in Hn. lia.
Qed.

Lemma effective_contiguous realm provider os : ∀ s : ScimStore,
  let rs := receipts_of realm provider (effective os s) in
  let cur := get_hr_receipt realm provider s in
  map hr_sequence rs = map (fun i => last_sequence cur + N.of_nat i) (seq 1 (length rs)) ∧
  get_hr_receipt realm provider (run_ops os s) = match last rs with Some r => Some r | None => cur end ∧
  ∀ r, r ∈ rs → fits_i64 (hr_sequence r) = true.
Proof.
  induction os as [|[o saved] os IH]; intros s; cbn; [split_and!; [done..|by intros ? ?%not_elem_of_nil]|].
  destruct (IH (run_scim o saved s)) as (Hs & Hl & Hf). pose proof (took_effect_cases o saved s) as Hc.
  fold (run_ops os (run_scim o saved s)).
  destruct (took_effect o saved s) as [b|]; [change (option_list (Some b) ++ ?l) with (b :: l)|by rewrite Hc in Hs, Hl].
  destruct Hc as [[Hn Hb] Hc]. rewrite Hc in Hs, Hl. unfold receipts_of in *. cbn [List.filter].
  destruct (String.eqb_spec (hb_realm_id b) realm) as [<-|]; [|rewrite bool_decide_eq_false_2 in Hs, Hl by naive_solver; exact (conj Hs (conj Hl Hf))].
  destruct (String.eqb_spec (hb_provider_id b) provider) as [<-|]; [|rewrite bool_decide_eq_false_2 in Hs, Hl by naive_solver; exact (conj Hs (conj Hl Hf))].
  rewrite bool_decide_eq_true_2 in Hs, Hl by done. cbn in *. split_and!.
  - rewrite Hs, Hn. apply (f_equal2 cons); [done|]. rewrite <- (seq_shift (length _) 1), map_map. apply map_ext. intros i. cbn. lia.
  - rewrite last_cons, Hl. by destruct (last _).
  - by intros r [->|Hr]%elem_of_cons; [|apply Hf].
Qed.

Lemma scim_reachable_wf s : rtc scim_step scim_empty s → scim_wf s.
Proof.
  intros Hr. assert (scim_wf scim_empty) as H0.
  { split; split; intros *; cbn; by rewrite lookup_empty. }
  revert H0. induction Hr as [|x y z Hxy _ IH]; [done|]. destruct Hxy. auto using run_scim_wf.
Qed.

Lemma run_ops_reachable os : ∀ s : ScimStore, rtc scim_step s (run_ops os s).
Proof.
  induction os as [|[o saved] os IH]; intros s; [reflexivity|]. eapply rtc_l; [constructor|]. apply (IH (run_scim o saved s)).
Qed.

(** C29: In every store the operations can reach, whatever their saves return, each user and each
    group is stored under its own ID and no two rows of a realm share their name; HR batches,
    which write many rows at once, keep it. *)
Theorem scim_identities_unique s :
  rtc scim_step scim_empty s →
  (∀ k u, scim_users s !! k = Some u → su_id u = k) ∧
  (∀ k g, scim_groups s !! k = Some g → sg_id g = k) ∧
  (∀ k1 k2 u1 u2, scim_users s !! k1 = Some u1 → scim_users s !! k2 = Some u2 →
     su_realm_id u1 = su_realm_id u2 → user_name u1 = user_name u2 → k1 = k2) ∧
  (∀ k1 k2 g1 g2, scim_groups s !! k1 = Some g1 → scim_groups s !! k2 = Some g2 →
     sg_realm_id g1 = sg_realm_id g2 → display_name g1 = display_name g2 → k1 = k2).
Proof.
  intros [[Hu1 Hu2] [Hg1 Hg2]]%scim_reachable_wf. split_and!; [exact Hu1|exact Hg1| |].
  - intros k1 k2 u1 u2 H1 H2 Hr Hn. eapply Hu2; [done..|]. cbn. congruence.
  - intros k1 k2 g1 g2 H1 H2 Hr Hn. eapply Hg2; [done..|]. cbn. congruence.
Qed.

(** C28: HR batches are applied exactly once and in order.  Over every run of the store, whatever its saves return, the batches
    that took effect for a provider of a realm carry the sequence numbers 1, 2, ..., n, and the stored receipt is the last
    one's.  At its end, for any batch of the provider and any outcome of writing it: either it is batch n+1, it was written,
    its changes fit the rows, and the store has changed in exactly its rows (each with the row the batch gives) and its
    receipt, and it is answered with its summary; or the store has not changed at all, and the answer is an error or, for the
    batch with the sequence and digest of the last one, the recorded summary.  Batch n+1 is applied whenever its changes are
    valid and it can be written, and the last batch, repeated, is answered as a replay. *)
Theorem hr_batches_exactly_once os realm provider :
  let s := run_ops os scim_empty in
  let rs := receipts_of realm provider (effective os scim_empty) in
  map hr_sequence rs = map N.of_nat (seq 1 (length rs)) ∧
  get_hr_receipt realm provider s = last rs ∧
  ∀ b synced written, hb_realm_id b = realm → hb_provider_id b = provider →
    let '(r, s') := commit_hr_inner written synced b s in
    ((applied b s s' ∧ written = Ok tt ∧ hr_sequence (receipt b) = N.of_nat (length rs) + 1 ∧
      r = (synced ?; Ok {| br_summary := hr_summary (receipt b); br_sequence := hr_sequence (receipt b); replayed := false |}))
     ∨ (s' = s ∧ ((∃ e, r = Err e) ∨
          ∃ c, last rs = Some c ∧ hr_sequence (receipt b) = hr_sequence c ∧ hr_digest (receipt b) = hr_digest c ∧
            r = (synced ?; Ok {| br_summary := hr_summary c; br_sequence := hr_sequence c; replayed := true |})))) ∧
    (hr_sequence (receipt b) = N.of_nat (length rs) + 1 → fits_i64 (hr_sequence (receipt b)) = true →
     validate_hr_changes b (map snd (map_to_list (scim_users s))) = Ok tt → written = Ok tt → applied b s s') ∧
    (∀ c, last rs = Some c → hr_sequence (receipt b) = hr_sequence c → hr_digest (receipt b) = hr_digest c →
       r = (synced ?; Ok {| br_summary := hr_summary c; br_sequence := hr_sequence c; replayed := true |}) ∧ s' = s).
Proof.
  intros s rs. destruct (effective_contiguous realm provider os scim_empty) as (Hs & Hl & Hf). fold s rs in Hs, Hl, Hf.
  change (get_hr_receipt realm provider scim_empty) with (None : option HrReceipt) in Hs, Hl.
  assert (get_hr_receipt realm provider s = last rs) as Hlast by (rewrite Hl; by destruct (last rs)).
  assert (last_sequence (last rs) = N.of_nat (length rs)) as Hn.
  { clear -Hs. destruct rs as [|r rs _] using rev_ind; [done|]. rewrite last_snoc. cbn.
    rewrite length_app in Hs |- *. rewrite !map_app, seq_app, map_app in Hs. apply app_inj_tail in Hs as [_ Hs]. cbn in *. lia. }
  assert (∀ c, last rs = Some c → 0 < hr_sequence c) as Hpos.
  { intros c Hc. rewrite Hc in Hn. cbn in Hn. rewrite Hn. destruct rs; [done|]. cbn [length]. lia. }
  assert (scim_wf s) as Hw by apply scim_reachable_wf, run_ops_reachable.
  split; [exact Hs|]. split; [exact Hlast|]. intros b synced written <- <-.
  pose proof (commit_hr_outcome written synced b s Hw) as Ho. cbv zeta in Ho; rewrite Hlast, Hn in Ho.
  destruct (commit_hr_inner written synced b s) as [r s'] eqn:Ec. split_and!; [exact Ho| |].
  - intros Hq Hfi Hv ->. pose proof (next_applied synced b s Hw) as Hx. rewrite Hlast, Hn, Ec in Hx. by apply Hx.
  - intros c Hc Hq Hd. rewrite (replay_answer written synced b s c) in Ec; [by injection Ec as <- <-|..]; try done; [congruence|auto|].
    by apply Hf, last_Some_elem_of.
Qed.


End Store.


(** * Witnesses *)

Section Witnesses.
Abbreviation Num := SerdeNumber.

Definition ex_user (id name ext : string) (owner : option string) : ScimUser Num :=
  {| su_id := id; su_realm_id := "r"; external_id := Some ext; user_name := name; name_json := VObject [];
     emails_json := VArray []; enterprise_json := VObject []; directory_provider_id := owner;
     deprovisioned_at := None; active := true |}.

Definition ex_batch (n : N) (cs : list (HrUserChange (Num := Num))) : HrBatch (Num := Num) :=
  {| hb_realm_id := "r"; hb_provider_id := "hr"; changes := Some cs;
     receipt := {| hr_sequence := n; hr_digest := "d"; hr_summary := {| hr_created := 1; hr_updated := 0; hr_deprovisioned := 0 |} |} |}.

Definition ex_ops : list (ScimOp (Num := Num) * QidResult unit) :=
  [(CreateUser (ex_user "1" "ann" "x1" None), Ok tt);
   (CommitHr (ex_batch 1 [{| expected := None; hc_user := ex_user "2" "bob" "x2" None |}]) (Ok tt), Err (Storage "disk"));
   (CommitHr (ex_batch 1 [{| expected := None; hc_user := ex_user "2" "bob" "x2" None |}]) (Ok tt), Ok tt);
   (CommitHr (ex_batch 2 [{| expected := None; hc_user := ex_user "3" "cy" "x3" None |}]) (Ok tt), Ok tt)].

Lemma scim_identities_unique_witness :
  let s := run_ops ex_ops scim_empty in
  size (scim_users s) = 3%nat ∧
  ∀ k1 k2 u1 u2, scim_users s !! k1 = Some u1 → scim_users s !! k2 = Some u2 →
    su_realm_id u1 = su_realm_id u2 → user_name u1 = user_name u2 → k1 = k2.
Proof.
  split; [by vm_compute|].
  apply (scim_identities_unique _ (run_ops_reachable ex_ops scim_empty)).
Defined.

(** The third batch, the second again, and a gap in the sequence. *)
Lemma hr_batches_exactly_once_witness :
  let s := run_ops ex_ops scim_empty in
  let rs := receipts_of "r" "hr" (effective ex_ops scim_empty) in
  let third := ex_batch 3 [{| expected := None; hc_user := ex_user "4" "dee" "x4" None |}] in
  map hr_sequence rs = [1; 2] ∧ get_hr_receipt "r" "hr" s = last rs ∧
  applied third s (commit_hr_inner (Ok tt) (Ok tt) third s).2 ∧
  (commit_hr_inner (Ok tt) (Ok tt) (ex_batch 2 []) s).2 = s ∧
  (commit_hr_inner (Ok tt) (Ok tt) (ex_batch 4 []) s).2 = s.
Proof.
  intros s rs third. destruct (hr_batches_exactly_once ex_ops "r" "hr") as (H1 & H2 & H3). fold s rs in H1, H2, H3.
  split; [exact H1|]. split; [exact H2|]. split; [|split].
  - specialize (H3 third (Ok tt) (Ok tt) eq_refl eq_refl). destruct (commit_hr_inner _ _ third s) as [r s'].
    apply (proj1 (proj2 H3)); by vm_compute.
  - specialize (H3 (ex_batch 2 []) (Ok tt) (Ok tt) eq_refl eq_refl). destruct (commit_hr_inner _ _ _ s) as [r s'].
    apply (proj2 (proj2 H3) (receipt (ex_batch 2 []))); by vm_compute.
  - specialize (H3 (ex_batch 4 []) (Ok tt) (Ok tt) eq_refl eq_refl). destruct (commit_hr_inner _ _ _ s) as [r s'].
    destruct (proj1 H3) as [(_ & _ & Hq & _)|[Hs _]]; [|exact Hs].
    assert (length rs = 2%nat) as Hl by by vm_compute. rewrite Hl in Hq. by vm_compute in Hq.
Defined.

End Witnesses.

End Scim.
