(* ===== verification/Directory.v ===== *)
(** Directory lifecycle (src/qid-directory/src/lib.rs, types.rs and webhook.rs): LDAP snapshots
    reconciled into a realm, HR records imported one by one or as an ordered webhook batch, nested
    and dynamic groups, manager chains and the deprovisioning audit.

    The routines run over any SCIM repository, the class [ScimRepository] with its laws; the file
    store of Scim.v is an instance, whose state carries the outcomes of the saves to come.  A
    fresh ULID is [fresh i] and the clock reads [clock i] for the [i]-th record of a batch, both
    arguments.  A [BTreeSet] is a [gset] and a [BTreeMap] a [gmap], read in the order of their keys. *)

From S2P Require Import Prelude Utf8 Json Request Tokens Scim.

Module Directory.
Import Request Scim.

(** * Types *)

Inductive LifecycleEvent : Type := Joiner | Mover | Leaver.
Inductive EmploymentState : Type := EmpActive | EmpInactive | LeavePending.

Record HrRecord : Type := {
  hr_external_id : string;
  hr_user_name : string;
  hr_email : option string;
  hr_display_name : option string;
  hr_department : option string;
  hr_manager_external_id : option string;
  hr_event : LifecycleEvent
}.

Inductive HrImportAction : Type := HrCreated | HrUpdated | HrDeprovisioned.
Record HrImportResult : Type := { ir_external_id : string; ir_user_id : string; ir_action : HrImportAction }.

Record ExpandedGroupMembers : Type := { eg_group_id : string; eg_user_ids : list string; eg_nested_group_ids : list string }.

Inductive DynamicGroupMatchMode : Type := MatchAll | MatchAny.
Inductive DynamicGroupField : Type :=
| FieldUserName | FieldExternalId | FieldDepartment | FieldManagerExternalId | FieldEmploymentState | FieldActive.
Inductive DynamicGroupOperator : Type := OpEq | OpContains | OpStartsWith | OpExists.
Record DynamicGroupCondition : Type := {
  dc_field : DynamicGroupField; dc_operator : DynamicGroupOperator; dc_value : option string
}.
Record DynamicGroupRule : Type := { match_mode : DynamicGroupMatchMode; conditions : list DynamicGroupCondition }.
Record DynamicGroupSyncResult : Type := {
  ds_group_id : string; matched_user_ids : list string; added_user_ids : list string; removed_user_ids : list string
}.

Record DeprovisionEvent : Type := { de_external_id : string; occurred_at : N; de_provider_id : option string }.
Inductive DeprovisionSlaStatus : Type := SlaMet | SlaPending | SlaViolated | SlaMissingUser.
Record DeprovisionSlaFinding : Type := {
  sf_external_id : string; sf_user_id : option string; due_at : N; sf_deprovisioned_at : option N;
  sf_status : DeprovisionSlaStatus
}.


Record ManagerChain : Type := {
  mc_user_id : string; manager_user_ids : list string; unresolved_manager_external_id : option string; cycle_detected : bool
}.

Record HrEnvelope : Type := { env_sequence : N; env_records : list HrRecord }.

(** * The repository *)

Section Directory.
Context {Num : Type} `{JsonNumber Num}.
Abbreviation DirUser := (ScimUser Num).
Abbreviation Group := (ScimGroup Num).
Abbreviation J := (Value Num).

Class ScimRepository (S : Type) : Type := {
  repo_get_user : string → M S (option DirUser);
  repo_list_users : string → M S (list DirUser);
  repo_create_user : DirUser → M S unit;
  repo_update_user : DirUser → M S unit;
  repo_get_group : string → M S (option Group);
  repo_list_groups : string → M S (list Group);
  repo_update_group : Group → M S unit;
  repo_get_receipt : string → string → M S (option HrReceipt);
  repo_apply_batch : HrBatch (Num := Num) → M S HrBatchResult
}.

(** * Attributes *)

Definition HR_SOURCE_SCHEMA : string := "urn:qid:directory:hr".
Definition LIFECYCLE_SCHEMA : string := "urn:qid:directory:lifecycle".
Definition BREAK_GLASS_SCHEMA : string := "urn:qid:directory:break_glass".

Definition employment_state_str (e : EmploymentState) : string :=
  match e with EmpActive => "active" | EmpInactive => "inactive" | LeavePending => "leave_pending" end.

Definition set_employment_state_value (enterprise : list (string * J)) (e : EmploymentState) : list (string * J) :=
  obj_insert "employment_state" (VString (employment_state_str e)) enterprise.

Definition user_employment_state (u : DirUser) : option EmploymentState :=
  match value_get "employment_state" (enterprise_json u) ≫= value_str with
  | Some s => if String.eqb s "active" then Some EmpActive
              else if String.eqb s "inactive" then Some EmpInactive
              else if String.eqb s "leave_pending" then Some LeavePending else None
  | None => None
  end.

Definition manager_external_id (u : DirUser) : option string :=
  (value_get "manager" (enterprise_json u) ≫= value_get "externalId") ≫= value_str.

Definition with_enterprise (u : DirUser) (e : J) : DirUser :=
  {| su_id := su_id u; su_realm_id := su_realm_id u; external_id := external_id u; user_name := user_name u;
     name_json := name_json u; emails_json := emails_json u; enterprise_json := e;
     directory_provider_id := directory_provider_id u; deprovisioned_at := deprovisioned_at u; active := active u |}.

Definition with_lifecycle (u : DirUser) (e : J) (at_ : option N) : DirUser :=
  {| su_id := su_id u; su_realm_id := su_realm_id u; external_id := external_id u; user_name := user_name u;
     name_json := name_json u; emails_json := emails_json u; enterprise_json := e;
     directory_provider_id := directory_provider_id u; deprovisioned_at := at_; active := active u |}.

Definition deactivated (u : DirUser) : DirUser :=
  {| su_id := su_id u; su_realm_id := su_realm_id u; external_id := external_id u; user_name := user_name u;
     name_json := name_json u; emails_json := emails_json u; enterprise_json := enterprise_json u;
     directory_provider_id := directory_provider_id u; deprovisioned_at := deprovisioned_at u; active := false |}.

(** The projection of a deprovisioning into the enterprise attributes. *)
Definition deprovisioned_enterprise (u : DirUser) (at_ : N) : J :=
  VObject (set_employment_state_value
    (obj_insert "deprovisioned_at" (VNumber (num_from_u64 at_))
      (obj_insert "lifecycle_source" (VString LIFECYCLE_SCHEMA) (obj_or_default (enterprise_json u)))) EmpInactive).

Definition mark_deprovisioned (u : DirUser) (at_ : N) : DirUser := with_lifecycle u (deprovisioned_enterprise u at_) (Some at_).


Definition clear_deprovisioned (u : DirUser) : DirUser :=
  with_lifecycle u (match enterprise_json u with VObject o => VObject (obj_remove "deprovisioned_at" o) | _ => VObject [] end) None.

Definition is_break_glass_user (u : DirUser) : bool :=
  default false (value_get "break_glass" (enterprise_json u) ≫= value_bool).

Definition mark_break_glass (u : DirUser) : DirUser :=
  with_enterprise u (VObject (obj_insert "break_glass" (VBool true)
    (obj_insert "break_glass_source" (VString BREAK_GLASS_SCHEMA) (obj_or_default (enterprise_json u))))).


Definition manager_value (m : string) : J := VObject [("externalId", VString m)].
Definition formatted_name (name : option string) : J :=
  match name with Some n => VObject [("formatted", VString n)] | None => VObject [] end.
Definition primary_email (mail : option string) : J :=
  match mail with Some m => VArray [VObject [("primary", VBool true); ("value", VString m)]] | None => VArray [] end.

(** * LDAP *)










(** [collect::<BTreeMap<_, _>>()]: a later entry of the same key replaces the earlier one. *)
Definition collect_map {A} (l : list (string * A)) : gmap string A := foldl (fun m e => <[fst e := snd e]> m) ∅ l.

Definition set_list (s : gset string) : list string := sort_by str_leb (elements s).



Section Routines.
Context {S : Type} `{!ScimRepository S} (fresh : nat → string) (clock : nat → N).




End Routines.

(** * HR records *)

Definition employment_state_for_lifecycle (e : LifecycleEvent) : EmploymentState :=
  match e with Joiner | Mover => EmpActive | Leaver => EmpInactive end.

(** [Some] sets the attribute; [None] removes it on a mover and keeps it otherwise. *)
Definition hr_attribute (e : LifecycleEvent) (key : string) (v : option J) (o : list (string * J)) : list (string * J) :=
  match v, e with
  | Some v, _ => obj_insert key v o
  | None, Mover => obj_remove key o
  | None, _ => o
  end.

Definition mark_hr_source (u : DirUser) (record : HrRecord) : DirUser :=
  let e := obj_or_default (enterprise_json u) in
  let e := hr_attribute (hr_event record) "department" (VString <$> hr_department record) e in
  let e := hr_attribute (hr_event record) "manager" (manager_value <$> hr_manager_external_id record) e in
  let e := obj_insert "source" (VString HR_SOURCE_SCHEMA) e in
  with_enterprise u (VObject (set_employment_state_value e (employment_state_for_lifecycle (hr_event record)))).

Definition apply_hr_record (u : DirUser) (record : HrRecord) : DirUser :=
  let u := clear_deprovisioned
    {| su_id := su_id u; su_realm_id := su_realm_id u; external_id := Some (hr_external_id record);
       user_name := hr_user_name record; name_json := name_json u; emails_json := emails_json u;
       enterprise_json := enterprise_json u; directory_provider_id := directory_provider_id u;
       deprovisioned_at := deprovisioned_at u; active := true |} in
  mark_hr_source
    {| su_id := su_id u; su_realm_id := su_realm_id u; external_id := external_id u; user_name := user_name u;
       name_json := formatted_name (hr_display_name record); emails_json := primary_email (hr_email record);
       enterprise_json := enterprise_json u; directory_provider_id := directory_provider_id u;
       deprovisioned_at := deprovisioned_at u; active := active u |} record.

Definition scim_user_from_hr_record (fresh_id realm_id : string) (record : HrRecord) : DirUser :=
  apply_hr_record
    {| su_id := fresh_id; su_realm_id := realm_id; external_id := Some (hr_external_id record);
       user_name := hr_user_name record; name_json := VObject []; emails_json := VArray []; enterprise_json := VObject [];
       directory_provider_id := None; deprovisioned_at := None; active := true |} record.

(** What a leaver record makes of its user. *)
Definition apply_leaver (u : DirUser) (record : HrRecord) (now : N) : DirUser :=
  mark_deprovisioned (mark_hr_source (deactivated u) record) now.

Definition find_hr_user (users : list DirUser) (ext : string) : QidResult (option DirUser) :=
  match List.filter (fun u => bool_decide (external_id u = Some ext)) users with
  | [] => Ok None
  | [u] => Ok (Some u)
  | _ => Err (Conflict ("multiple users share HR external_id '" +:+ ext +:+ "'; import target is ambiguous"))
  end.

Definition check_hr_record (seen : gset string) (record : HrRecord) : QidResult (gset string) :=
  if bool_decide (hr_external_id record ∈ seen)
  then Err (Conflict ("duplicate HR external_id '" +:+ hr_external_id record
              +:+ "' in batch; a batch carries at most one record per external_id"))
  else Ok ({[hr_external_id record]} ∪ seen).

Definition is_leaver (e : LifecycleEvent) : bool := match e with Leaver => true | _ => false end.

Definition plan_hr_record (existing : list DirUser) (record : HrRecord) : QidResult (HrRecord * option DirUser) :=
  let? current := find_hr_user existing (hr_external_id record) in
  if is_leaver (hr_event record) && negb (bool_decide (is_Some current))
  then Err (NotFound ("hr user " +:+ hr_external_id record))
  else Ok (record, current).

Section HrImport.
Context {S : Type} `{!ScimRepository S} (fresh : nat → string) (clock : nat → N).

Definition import_one (realm_id : string) (i : nat) (planned : HrRecord * option DirUser) : M S HrImportResult :=
  let record := planned.1 in
  let ext := hr_external_id record in
  match hr_event record, planned.2 with
  | Leaver, Some u =>
      let u' := apply_leaver u record (clock i) in
      let! _ := repo_update_user u' in
      ret {| ir_external_id := ext; ir_user_id := su_id u'; ir_action := HrDeprovisioned |}
  | Leaver, None => throw (NotFound ("hr user " +:+ ext))
  | _, Some u =>
      let u' := apply_hr_record u record in
      let! _ := repo_update_user u' in
      ret {| ir_external_id := ext; ir_user_id := su_id u'; ir_action := HrUpdated |}
  | _, None =>
      let u' := scim_user_from_hr_record (fresh i) realm_id record in
      let! _ := repo_create_user u' in
      ret {| ir_external_id := ext; ir_user_id := su_id u'; ir_action := HrCreated |}
  end.

Fixpoint import_all (realm_id : string) (i : nat) (planned : list (HrRecord * option DirUser)) : M S (list HrImportResult) :=
  match planned with
  | [] => ret []
  | p :: rest =>
      let! r := import_one realm_id i p in
      let! rs := import_all realm_id (i + 1) rest in
      ret (r :: rs)
  end.

Definition import_hr_records (realm_id : string) (records : list HrRecord) : M S (list HrImportResult) :=
  let! _ := of_result (res_foldl check_hr_record ∅ records) in
  let! existing := repo_list_users realm_id in
  let! planned := of_result (res_mapM (plan_hr_record existing) records) in
  import_all realm_id 0 planned.

(** * The HR webhook *)

(** What the planning loop of the webhook carries; [None] once it has broken off. *)
Record HrPlan : Type := { plan_seen : gset string; plan_changes : list (HrUserChange (Num := Num)); plan_summary : HrSummary }.

Definition count_deprovisioned (s : HrSummary) : HrSummary :=
  {| hr_created := hr_created s; hr_updated := hr_updated s; hr_deprovisioned := add32 (hr_deprovisioned s) 1 |}.
Definition count_updated (s : HrSummary) : HrSummary :=
  {| hr_created := hr_created s; hr_updated := add32 (hr_updated s) 1; hr_deprovisioned := hr_deprovisioned s |}.
Definition count_created (s : HrSummary) : HrSummary :=
  {| hr_created := add32 (hr_created s) 1; hr_updated := hr_updated s; hr_deprovisioned := hr_deprovisioned s |}.

(** [Ok None]: the loop broke off and the batch has no changes; the counters keep their values. *)
Fixpoint webhook_plan (realm_id : string) (existing : list DirUser) (i : nat) (records : list HrRecord) (p : HrPlan)
    : HrSummary * option (list (HrUserChange (Num := Num))) :=
  match records with
  | [] => (plan_summary p, Some (plan_changes p))
  | record :: rest =>
      let ext := hr_external_id record in
      if bool_decide (ext ∈ plan_seen p) then (plan_summary p, None)
      else
        match List.filter (fun u => bool_decide (external_id u = Some ext)) existing with
        | _ :: _ :: _ => (plan_summary p, None)
        | targets =>
            let exp := head targets in
            match hr_event record, exp with
            | Leaver, None => (plan_summary p, None)
            | Leaver, Some u =>
                webhook_plan realm_id existing (i + 1) rest
                  {| plan_seen := {[ext]} ∪ plan_seen p;
                     plan_changes := plan_changes p ++ [{| expected := exp; hc_user := apply_leaver u record (clock i) |}];
                     plan_summary := count_deprovisioned (plan_summary p) |}
            | _, _ =>
                let u := match exp with Some u => u | None => scim_user_from_hr_record (fresh i) realm_id record end in
                webhook_plan realm_id existing (i + 1) rest
                  {| plan_seen := {[ext]} ∪ plan_seen p;
                     plan_changes := plan_changes p ++ [{| expected := exp; hc_user := apply_hr_record u record |}];
                     plan_summary := (match exp with Some _ => count_updated | None => count_created end) (plan_summary p) |}
            end
        end
  end.

Definition import_hr_webhook (realm_id provider_id : string) (envelope : HrEnvelope) (digest : string) : M S HrBatchResult :=
  let summary0 := {| hr_created := 0; hr_updated := 0; hr_deprovisioned := 0 |} in
  let incoming sm := {| hr_sequence := env_sequence envelope; hr_digest := digest; hr_summary := sm |} in
  let batch sm cs := {| hb_realm_id := realm_id; hb_provider_id := provider_id; receipt := incoming sm; changes := cs |} in
  let! current := repo_get_receipt realm_id provider_id in
  let! order := of_result (hr_order current (incoming summary0)) in
  match order with
  | Some _ => repo_apply_batch (batch summary0 None)
  | None =>
      let! existing := repo_list_users realm_id in
      let planned := webhook_plan realm_id existing 0 (env_records envelope)
                       {| plan_seen := ∅; plan_changes := []; plan_summary := summary0 |} in
      repo_apply_batch (batch planned.1 planned.2)
  end.

End HrImport.

(** * Deprovisioning audit *)

Definition find_deprovision_user (users : list DirUser) (event : DeprovisionEvent) : QidResult (option DirUser) :=
  let candidates := List.filter (fun u => bool_decide (external_id u = Some (de_external_id event))) users in
  match de_provider_id event with
  | Some provider_id =>
      if Utf8.blank provider_id then Err (BadRequest "deprovision event provider_id must not be blank")
      else
        let scoped := List.filter (fun u => bool_decide (directory_provider_id u = Some provider_id)) candidates in
        if (1 <? length scoped)%nat
        then Err (Conflict ("multiple users share external_id '" +:+ de_external_id event +:+ "' for provider '"
                    +:+ provider_id +:+ "'; data requires explicit migration"))
        else Ok (head scoped)
  | None =>
      if (1 <? length candidates)%nat
      then Err (Conflict ("multiple users share external_id '" +:+ de_external_id event
                  +:+ "'; provide provider_id to disambiguate"))
      else Ok (head candidates)
  end.

Definition audit_event (users : list DirUser) (sla_seconds now : N) (event : DeprovisionEvent) : QidResult DeprovisionSlaFinding :=
  let due := saturating_add64 (occurred_at event) sla_seconds in
  let? user := find_deprovision_user users event in
  Ok match user with
     | Some u =>
         {| sf_external_id := de_external_id event; sf_user_id := Some (su_id u); due_at := due;
            sf_deprovisioned_at := deprovisioned_at u;
            sf_status := if active u && (now <=? due) then SlaPending
                         else if active u then SlaViolated
                         else if match deprovisioned_at u with Some ts => ts <=? due | None => false end then SlaMet
                         else SlaViolated |}
     | None =>
         {| sf_external_id := de_external_id event; sf_user_id := None; due_at := due; sf_deprovisioned_at := None;
            sf_status := SlaMissingUser |}
     end.

(** * Groups *)

Definition is_group_kind (member : J) : bool :=
  match value_get "type" member ≫= value_str with Some kind => eq_ignore_ascii_case kind "Group" | None => false end.

Definition member_value (member : J) : option string := value_get "value" member ≫= value_str.

(** The group a member names: by ID, or by display name when it is typed as a group. *)
Definition member_group (all_groups : list Group) (member : J) (value : string) : option Group :=
  List.find (fun g => String.eqb (sg_id g) value || is_group_kind member && String.eqb (display_name g) value) all_groups.

Record Expansion : Type := { visited : gset string; nested_groups : gset string; exp_users : gset string }.

(** The loop over the members of a group; [expand] is the recursive call. *)
Fixpoint expand_members (expand : Group → Expansion → option Expansion) (all_groups : list Group) (ms : list J)
    (st : Expansion) : option Expansion :=
  match ms with
  | [] => Some st
  | member :: ms' =>
      match member_value member with
      | None => expand_members expand all_groups ms' st
      | Some value =>
          match member_group all_groups member value with
          | Some child =>
              match expand child {| visited := visited st; nested_groups := {[sg_id child]} ∪ nested_groups st;
                                    exp_users := exp_users st |} with
              | Some st' => expand_members expand all_groups ms' st'
              | None => None
              end
          | None =>
              if is_group_kind member then expand_members expand all_groups ms' st
              else expand_members expand all_groups ms'
                     {| visited := visited st; nested_groups := nested_groups st; exp_users := {[value]} ∪ exp_users st |}
          end
      end
  end.

(** [expand_group]; [None] is a stack deeper than [fuel]. *)
Fixpoint expand_group (fuel : nat) (all_groups : list Group) (g : Group) (st : Expansion) : option Expansion :=
  match fuel with
  | O => None
  | Datatypes.S fuel =>
      if bool_decide (sg_id g ∈ visited st) then Some st
      else expand_members (expand_group fuel all_groups) all_groups (value_items (members_json g))
             {| visited := {[sg_id g]} ∪ visited st; nested_groups := nested_groups st; exp_users := exp_users st |}
  end.

Definition is_preserved_group_member (group_ids : gset string) (member : J) : bool :=
  match member_value member with
  | None => true
  | Some value => is_group_kind member || bool_decide (value ∈ group_ids)
  end.

Definition group_user_member_ids (g : Group) (group_ids : gset string) : gset string :=
  list_to_set (omap member_value
    (List.filter (fun m => negb (is_preserved_group_member group_ids m)) (value_items (members_json g)))).

Definition dynamic_group_field_value (f : DynamicGroupField) (u : DirUser) : option string :=
  match f with
  | FieldUserName => Some (user_name u)
  | FieldExternalId => external_id u
  | FieldDepartment => value_get "department" (enterprise_json u) ≫= value_str
  | FieldManagerExternalId => manager_external_id u
  | FieldEmploymentState => employment_state_str <$> user_employment_state u
  | FieldActive => Some (if active u then "true" else "false")
  end.

(** [str::contains] of a string. *)
Fixpoint str_contains_str (needle hay : string) : bool :=
  starts_with needle hay || match hay with String _ rest => str_contains_str needle rest | EmptyString => false end.

Definition dynamic_group_condition_matches (u : DirUser) (c : DynamicGroupCondition) : bool :=
  let actual := dynamic_group_field_value (dc_field c) u in
  match dc_operator c with
  | OpEq => bool_decide (actual = dc_value c)
  | OpContains => match actual, dc_value c with Some a, Some e => str_contains_str e a | _, _ => false end
  | OpStartsWith => match actual, dc_value c with Some a, Some e => starts_with e a | _, _ => false end
  | OpExists => bool_decide (is_Some actual)
  end.

Definition dynamic_group_rule_matches (rule : DynamicGroupRule) (u : DirUser) : bool :=
  match match_mode rule with
  | MatchAll => forallb (dynamic_group_condition_matches u) (conditions rule)
  | MatchAny => negb (Nat.eqb (length (conditions rule)) 0) && existsb (dynamic_group_condition_matches u) (conditions rule)
  end.

Definition member_json (id : string) : J := VObject [("type", VString "User"); ("value", VString id)].

Section Reports.
Context {S : Type} `{!ScimRepository S}.

Definition audit_deprovision_sla (realm_id : string) (events : list DeprovisionEvent) (sla_seconds now : N)
    : M S (list DeprovisionSlaFinding) :=
  let! users := repo_list_users realm_id in
  of_result (res_mapM (audit_event users sla_seconds now) events).

(** A depth that the stack of [expand_group] does not reach: every frame but the last marks a new group. *)
Definition expand_nested_group_members (group_id : string) : M S ExpandedGroupMembers :=
  let! root := repo_get_group group_id in
  match root with
  | None => throw (NotFound ("scim group " +:+ group_id))
  | Some root =>
      let! all_groups := repo_list_groups (sg_realm_id root) in
      match expand_group (length all_groups + 2) all_groups root {| visited := ∅; nested_groups := ∅; exp_users := ∅ |} with
      | None => throw (Internal "stack overflow")
      | Some st =>
          ret {| eg_group_id := group_id; eg_user_ids := set_list (exp_users st);
                 eg_nested_group_ids := set_list (nested_groups st ∖ {[group_id]}) |}
      end
  end.

Definition sync_dynamic_group_members (group_id : string) (rule : DynamicGroupRule) : M S DynamicGroupSyncResult :=
  let! group := repo_get_group group_id in
  match group with
  | None => throw (NotFound ("scim group " +:+ group_id))
  | Some group =>
      let! users := repo_list_users (sg_realm_id group) in
      let! groups := repo_list_groups (sg_realm_id group) in
      let group_ids : gset string := list_to_set (map sg_id groups) in
      let previous := group_user_member_ids group group_ids in
      let matched : gset string := list_to_set (map su_id (List.filter (dynamic_group_rule_matches rule) users)) in
      let preserved := List.filter (is_preserved_group_member group_ids) (value_items (members_json group)) in
      let next := preserved ++ map member_json (set_list matched) in
      let! _ := repo_update_group {| sg_id := sg_id group; sg_realm_id := sg_realm_id group;
                                     display_name := display_name group; members_json := VArray next |} in
      ret {| ds_group_id := group_id; matched_user_ids := set_list matched;
             added_user_ids := set_list (matched ∖ previous); removed_user_ids := set_list (previous ∖ matched) |}
  end.

(** * Managers *)

Definition external_index (owner : option string) (users : list DirUser) : gmap string DirUser :=
  collect_map (omap (fun u => match external_id u with Some e => Some (e, u) | None => None end)
    (List.filter (fun u => match owner with
                           | Some p => bool_decide (directory_provider_id u = Some p)
                           | None => true
                           end) users)).

(** The loop of [resolve_manager_chain]; [None] is more rounds than [fuel]. *)
Fixpoint manager_loop (fuel : nat) (user_id : string) (index : gmap string DirUser) (seen : gset string)
    (managers : list string) (current : DirUser) : option ManagerChain :=
  match fuel with
  | O => None
  | Datatypes.S fuel =>
      match manager_external_id current with
      | None => Some {| mc_user_id := user_id; manager_user_ids := managers;
                        unresolved_manager_external_id := None; cycle_detected := false |}
      | Some ext =>
          match index !! ext with
          | None => Some {| mc_user_id := user_id; manager_user_ids := managers;
                            unresolved_manager_external_id := Some ext; cycle_detected := false |}
          | Some manager =>
              if bool_decide (su_id manager ∈ seen)
              then Some {| mc_user_id := user_id; manager_user_ids := managers;
                           unresolved_manager_external_id := Some ext; cycle_detected := true |}
              else manager_loop fuel user_id index ({[su_id manager]} ∪ seen) (managers ++ [su_id manager]) manager
          end
      end
  end.

Definition resolve_manager_chain (user_id : string) : M S ManagerChain :=
  let! user := repo_get_user user_id in
  match user with
  | None => throw (NotFound ("scim user " +:+ user_id))
  | Some user =>
      let! users := repo_list_users (su_realm_id user) in
      let! owner := of_result
        match directory_provider_id user with
        | Some p => if Utf8.blank p
                    then Err (Conflict ("LDAP user " +:+ su_id user +:+ " has no provider ownership for manager resolution"))
                    else Ok (Some p)
        | None => Ok None
        end in
      match manager_loop (length users + 1) user_id (external_index owner users) {[su_id user]} [] user with
      | None => throw (Internal "no result")
      | Some chain => ret chain
      end
  end.

End Reports.


(** * What a repository promises

    [repo_users] and [repo_groups] are the rows it holds and [repo_ok] its invariant.  A read
    leaves them alone and, when it succeeds, returns them; a write that succeeds has stored its
    row, one that fails may have. *)

Class ScimView (S : Type) : Type := {
  repo_users : S → gmap string DirUser;
  repo_groups : S → gmap string Group;
  repo_ok : S → Prop
}.

Definition same_view {S} `{!ScimView S} (st st' : S) : Prop :=
  repo_users st' = repo_users st ∧ repo_groups st' = repo_groups st ∧ (repo_ok st → repo_ok st').

Class ScimRepositoryLaws (S : Type) `{!ScimRepository S} `{!ScimView S} : Prop := {
  law_user_keys st k u : repo_ok st → repo_users st !! k = Some u → su_id u = k;
  law_group_keys st k g : repo_ok st → repo_groups st !! k = Some g → sg_id g = k;
  law_get_user id st r st' : repo_get_user id st = (r, st') →
    same_view st st' ∧ ∀ o, r = Ok o → o = repo_users st !! id;
  law_list_users realm st r st' : repo_list_users realm st = (r, st') →
    same_view st st' ∧ ∀ us, r = Ok us → repo_ok st →
      NoDup (map su_id us) ∧ ∀ u, u ∈ us ↔ repo_users st !! su_id u = Some u ∧ su_realm_id u = realm;
  law_create_user u st r st' : repo_create_user u st = (r, st') →
    repo_groups st' = repo_groups st ∧ (repo_ok st → repo_ok st') ∧
    (r ≠ Ok tt ∧ repo_users st' = repo_users st ∨
     repo_users st !! su_id u = None ∧ repo_users st' = <[su_id u := u]> (repo_users st));
  law_update_user u st r st' : repo_update_user u st = (r, st') →
    repo_groups st' = repo_groups st ∧ (repo_ok st → repo_ok st') ∧
    ((r ≠ Ok tt ∨ repo_users st !! su_id u = None) ∧ repo_users st' = repo_users st ∨
     ∃ cur, repo_users st !! su_id u = Some cur ∧ su_realm_id cur = su_realm_id u ∧
       repo_users st' = <[su_id u := u]> (repo_users st));
  law_get_group id st r st' : repo_get_group id st = (r, st') →
    same_view st st' ∧ ∀ o, r = Ok o → o = repo_groups st !! id;
  law_list_groups realm st r st' : repo_list_groups realm st = (r, st') →
    same_view st st' ∧ ∀ gs, r = Ok gs → repo_ok st →
      NoDup (map sg_id gs) ∧ ∀ g, g ∈ gs ↔ repo_groups st !! sg_id g = Some g ∧ sg_realm_id g = realm;
  law_update_group g st r st' : repo_update_group g st = (r, st') →
    repo_users st' = repo_users st ∧ (repo_ok st → repo_ok st') ∧
    ((r ≠ Ok tt ∨ repo_groups st !! sg_id g = None) ∧ repo_groups st' = repo_groups st ∨
     ∃ cur, repo_groups st !! sg_id g = Some cur ∧ sg_realm_id cur = sg_realm_id g ∧
       repo_groups st' = <[sg_id g := g]> (repo_groups st))
}.

(** ** The file store *)

(** The store and the outcomes of the writes to come (all succeed past the end). *)
Record FileRepo : Type := { fr_store : ScimStore (Num := Num); fr_saves : list (QidResult unit) }.

Definition with_save {A} (op : QidResult unit → ScimStore (Num := Num) → QidResult A * ScimStore (Num := Num)) : M FileRepo A :=
  fun st =>
    let '(r, s) := op (default (Ok tt) (head (fr_saves st))) (fr_store st) in
    (r, {| fr_store := s; fr_saves := tail (fr_saves st) |}).

Definition reading {A} (f : ScimStore (Num := Num) → A) : M FileRepo A := fun st => (Ok (f (fr_store st)), st).

#[export] Instance file_repository : ScimRepository FileRepo := {|
  repo_get_user id := reading (get_scim_user id);
  repo_list_users realm := reading (list_scim_users realm);
  repo_create_user u := with_save (fun saved => create_scim_user saved u);
  repo_update_user u := with_save (fun saved => update_scim_user saved u);
  repo_get_group id := reading (get_scim_group id);
  repo_list_groups realm := reading (list_scim_groups realm);
  repo_update_group g := with_save (fun saved => update_scim_group saved g);
  repo_get_receipt realm provider := reading (get_hr_receipt realm provider);
  repo_apply_batch b st :=
    let '(r, s) := commit_hr_inner (default (Ok tt) (head (fr_saves st))) (default (Ok tt) (head (tail (fr_saves st)))) b (fr_store st) in
    (r, {| fr_store := s; fr_saves := tail (tail (fr_saves st)) |})
|}.

#[export] Instance file_view : ScimView FileRepo := {|
  repo_users st := scim_users (fr_store st);
  repo_groups st := scim_groups (fr_store st);
  repo_ok st := scim_wf (fr_store st)
|}.

Lemma table_listing {T} `{Tokens.InsertIdentity T} (m : gmap string T) (p : T → bool) leb :
  table_wf m →
  let l := sort_by leb (List.filter p (map snd (map_to_list m))) in
  NoDup (map Tokens.ins_id l) ∧ ∀ x, x ∈ l ↔ m !! Tokens.ins_id x = Some x ∧ p x = true.
Proof.
  intros [Hk _] l. assert (∀ x, x ∈ l ↔ m !! Tokens.ins_id x = Some x ∧ p x = true) as Hl.
  { intros x. unfold l. rewrite elem_of_sort_by, elem_of_lfilter, elem_of_map. split.
    - intros [([k y] & -> & Hy%elem_of_map_to_list) Hp]. cbn in *. by rewrite (Hk _ _ Hy).
    - intros [Hx Hp]. split; [|done]. exists (Tokens.ins_id x, x). split; [done|]. by apply elem_of_map_to_list. }
  split; [|done]. unfold l. rewrite sort_by_perm. clear l Hl.
  assert (NoDup (map Tokens.ins_id (map snd (map_to_list m)))) as Hnd.
  { rewrite map_map. rewrite (map_ext_in _ fst); [apply NoDup_fst_map_to_list|].
    intros [k y] Hy%list_elem_of_In%elem_of_map_to_list. by apply Hk. }
  clear Hk. induction (map snd (map_to_list m)) as [|x l IH]; cbn in *; [constructor|].
  apply NoDup_cons in Hnd as [Hx Hl]. destruct (p x); cbn; [|auto]. constructor; [|auto].
  intros (y & E & [Hy _]%elem_of_lfilter)%elem_of_map. apply Hx. rewrite E. apply elem_of_map. eauto.
Qed.

(** A replacement of a row, as the directory's updates are. *)
Lemma replace_row {T} `{Tokens.InsertIdentity T} saved (x : T) m r m' :
  mutate_resource saved (Tokens.ins_id x) (fun _ => Ok (Replace x)) m = (r, m') →
  (((∀ o, r ≠ Ok o) ∨ m !! Tokens.ins_id x = None) ∧ m' = m) ∨
  ∃ cur, m !! Tokens.ins_id x = Some cur ∧ (fst <$> Tokens.identity cur) = (fst <$> Tokens.identity x) ∧
    m' = <[Tokens.ins_id x := x]> m.
Proof.
  unfold mutate_resource. destruct (m !! Tokens.ins_id x) as [cur|] eqn:E.
  - destruct (String.eqb_spec (Tokens.ins_id cur) (Tokens.ins_id x)) as [Ei|]; cbn; [|intros [= <- <-]; left; naive_solver].
    case_bool_decide as Er; cbn; [|intros [= <- <-]; left; naive_solver].
    destruct (existsb _ _); intros [= <- <-]; [left; naive_solver|]. right. eauto.
  - intros [= <- <-]. left. eauto.
Qed.

#[export] Instance file_laws : ScimRepositoryLaws FileRepo.
Proof.
  split; cbn.
  - intros st k u [[Hk _] _] Hu. exact (Hk k u Hu).
  - intros st k g [_ [Hk _]] Hg. exact (Hk k g Hg).
  - intros id st r st' [= <- <-]. split; [done|]. by intros o [= <-].
  - intros realm st r st' [= <- <-]. split; [done|]. intros us [= <-] [Hu _].
    destruct (table_listing (scim_users (fr_store st)) (fun u => String.eqb (su_realm_id u) realm)
                (fun a b => str_leb (su_id a) (su_id b)) Hu) as [Hn Hl].
    split; [exact Hn|]. intros u. rewrite <- String.eqb_eq. apply (Hl u).
  - intros u st r st'. unfold with_save, create_scim_user. intros E.
    destruct (Tokens.insert_new (scim_users (fr_store st)) u) as [m|e] eqn:En; injection E as <- <-; cbn.
    + split_and!; [done| |].
      * intros [Hu Hg]. split; [|done]. by eapply table_wf_insert_new.
      * right. by apply Tokens.insert_new_Ok in En as [? ->].
    + split_and!; [done|done|]. by left.
  - intros u st r st'. unfold with_save, update_scim_user, mutate_scim_user. intros E.
    set (sv := default (Ok tt) (head (fr_saves st))) in *.
    pose proof (mutate_resource_wf sv (su_id u) (fun _ => Ok (Replace u)) (scim_users (fr_store st))) as Hw.
    destruct (mutate_resource sv (su_id u) (fun _ => Ok (Replace u)) (scim_users (fr_store st))) as [r0 m] eqn:Em.
    injection E as <- <-. cbn in *. split_and!; [done|intros [? ?]; split; auto|].
    destruct (replace_row sv u _ _ _ Em) as [[Hn ->]|(cur & Hc & Hr & ->)]; [left|right; exists cur; by injection Hr as ->].
    split; [|done]. destruct Hn as [Hn|]; [left|by right]. destruct r0; [by destruct (Hn a)|done].
  - intros id st r st' [= <- <-]. split; [done|]. by intros o [= <-].
  - intros realm st r st' [= <- <-]. split; [done|]. intros us [= <-] [_ Hg].
    destruct (table_listing (scim_groups (fr_store st)) (fun u => String.eqb (sg_realm_id u) realm)
                (fun a b => str_leb (sg_id a) (sg_id b)) Hg) as [Hn Hl].
    split; [exact Hn|]. intros u. rewrite <- String.eqb_eq. apply (Hl u).
  - intros u st r st'. unfold with_save, update_scim_group, mutate_scim_group. intros E.
    set (sv := default (Ok tt) (head (fr_saves st))) in *.
    pose proof (mutate_resource_wf sv (sg_id u) (fun _ => Ok (Replace u)) (scim_groups (fr_store st))) as Hw.
    destruct (mutate_resource sv (sg_id u) (fun _ => Ok (Replace u)) (scim_groups (fr_store st))) as [r0 m] eqn:Em.
    injection E as <- <-. cbn in *. split_and!; [done|intros [? ?]; split; auto|].
    destruct (replace_row sv u _ _ _ Em) as [[Hn ->]|(cur & Hc & Hr & ->)]; [left|right; exists cur; by injection Hr as ->].
    split; [|done]. destruct Hn as [Hn|]; [left|by right]. destruct r0; [by destruct (Hn a)|done].
Qed.


(** * LDAP reconciliation *)

Lemma collect_map_elem {A} (l : list (string * A)) k v : collect_map l !! k = Some v → (k, v) ∈ l.
Proof.
  unfold collect_map. induction l as [|[k' v'] l IH] using rev_ind; cbn; [by rewrite lookup_empty|].
  rewrite foldl_app. cbn. intros [[-> ->]|[_ ?]]%lookup_insert_Some; set_solver.
Qed.


(** What a routine may do to the rows: those of [prot] stay as they are, every row it adds or
    changes is of [mine], and none disappears. *)
Definition confined (mine prot : DirUser → Prop) (m m' : gmap string DirUser) : Prop :=
  (∀ k u, m !! k = Some u → prot u → m' !! k = Some u) ∧
  (∀ k u, m' !! k = Some u → m !! k = Some u ∨ mine u) ∧
  (∀ k, is_Some (m !! k) → is_Some (m' !! k)).

#[local] Instance confined_preorder mine prot : PreOrder (confined mine prot).
Proof.
  split.
  - intros m. split_and!; eauto.
  - intros m1 m2 m3 (A1 & A2 & A3) (B1 & B2 & B3). split_and!; eauto.
    intros k u Hu. destruct (B2 k u Hu) as [Hu'|]; [|by right]. eauto.
Qed.

Lemma confined_insert (mine prot : DirUser → Prop) m k u :
  mine u → (∀ cur, m !! k = Some cur → ¬ prot cur) → confined mine prot m (<[k := u]> m).
Proof.
  intros Ho Hp. split_and!.
  - intros j v Hv Hpv. destruct (decide (j = k)) as [->|]; [by destruct (Hp v)|]. by rewrite lookup_insert_ne.
  - intros j v [[<- <-]|[_ ?]]%lookup_insert_Some; auto.
  - intros j Hj. destruct (decide (j = k)) as [->|]; [rewrite lookup_insert_eq; eauto|by rewrite lookup_insert_ne].
Qed.

Lemma confined_mono (mine mine' prot prot' : DirUser → Prop) m m' :
  (∀ u, mine u → mine' u) → (∀ u, prot' u → prot u) → confined mine prot m m' → confined mine' prot' m m'.
Proof. intros Hm Hp (A & B & C). split_and!; [eauto| |done]. intros k u Hu. destruct (B k u Hu); auto. Qed.

(** The same, where moreover no row gains or loses the break-glass mark. *)
Definition confined_marked (mine prot : DirUser → Prop) (m m' : gmap string DirUser) : Prop :=
  confined mine prot m m' ∧
  ∀ k u, m !! k = Some u → ∃ u', m' !! k = Some u' ∧ is_break_glass_user u' = is_break_glass_user u.

#[local] Instance confined_marked_preorder mine prot : PreOrder (confined_marked mine prot).
Proof.
  split.
  - intros m. split; [reflexivity|eauto].
  - intros m1 m2 m3 [A1 B1] [A2 B2]. split; [by transitivity m2|]. intros k u Hu. destruct (B1 k u Hu) as (v & Hv & E).
    destruct (B2 k v Hv) as (w & Hw & E'). exists w. split; [done|congruence].
Qed.


(** ** Equal values read alike *)







Section Sync.
Context (realm provider : string).








Section Laws.
Context {S : Type} `{!ScimRepository S} `{!ScimView S} `{!ScimRepositoryLaws S} (fresh : nat → string).






(** ** The preflight *)












End Laws.
End Sync.


(** * HR imports *)

Section Import.
Context (realm : string).

(** The rows that carry one of the external IDs. *)
Definition hr_target (exts : list string) (u : DirUser) : Prop :=
  su_realm_id u = realm ∧ ∃ x, x ∈ exts ∧ external_id u = Some x.

(** What a record makes of its row. *)
Definition hr_row (record : HrRecord) (now : N) (u : DirUser) : Prop :=
  su_realm_id u = realm ∧ external_id u = Some (hr_external_id record) ∧
  if is_leaver (hr_event record) then active u = false ∧ deprovisioned_at u = Some now
  else active u = true ∧ deprovisioned_at u = None ∧ user_name u = hr_user_name record.

Definition hr_action (record : HrRecord) (current : option DirUser) : HrImportAction :=
  if is_leaver (hr_event record) then HrDeprovisioned
  else match current with Some _ => HrUpdated | None => HrCreated end.

Definition planned_ok (users : gmap string DirUser) (p : HrRecord * option DirUser) : Prop :=
  match p.2 with
  | Some u => users !! su_id u = Some u ∧ su_realm_id u = realm ∧ external_id u = Some (hr_external_id p.1)
  | None => True
  end.

Section Laws.
Context {S : Type} `{!ScimRepository S} `{!ScimView S} `{!ScimRepositoryLaws S} (fresh : nat → string) (clock : nat → N).

(** An update of a row the repository holds. *)
Lemma update_held u cur (st : S) r st' :
  repo_users st !! su_id u = Some cur → repo_update_user u st = (r, st') →
  (repo_ok st → repo_ok st') ∧
  (r ≠ Ok tt ∧ repo_users st' = repo_users st ∨ repo_users st' = <[su_id u := u]> (repo_users st)).
Proof.
  intros Hc (_ & Hok & Hor)%law_update_user. split; [done|]. rewrite Hc in Hor.
  destruct Hor as [[[?|?] ?]|(? & _ & _ & ?)]; [by left|done|by right].
Qed.

Lemma import_one_spec i p (st : S) r st' :
  repo_ok st → planned_ok (repo_users st) p → import_one fresh clock realm i p st = (r, st') →
  repo_ok st' ∧
  confined (hr_target [hr_external_id p.1]) (fun u => ¬ hr_target [hr_external_id p.1] u) (repo_users st) (repo_users st') ∧
  ∀ res, r = Ok res → ir_external_id res = hr_external_id p.1 ∧ ir_action res = hr_action p.1 p.2 ∧
    ∃ u, repo_users st' !! ir_user_id res = Some u ∧ hr_row p.1 (clock i) u.
Proof.
  intros Hok Hp. destruct p as [record cur]. cbn in *.
  assert (∀ (u : DirUser) c, hr_row record c u → hr_target [hr_external_id record] u) as Htgt.
  { intros u c (Hr & He & _). split; [done|]. eexists. split; [left|done]. }
  assert (∀ u', hr_row record (clock i) u' → (∀ c, cur = Some c → su_id u' = su_id c) → cur ≠ None → ∀ act,
    (let! _ := repo_update_user u' in
      ret {| ir_external_id := hr_external_id record; ir_user_id := su_id u'; ir_action := act |}) st = (r, st') →
    repo_ok st' ∧
    confined (hr_target [hr_external_id record]) (fun u => ¬ hr_target [hr_external_id record] u) (repo_users st) (repo_users st') ∧
    ∀ res, r = Ok res → ir_external_id res = hr_external_id record ∧ ir_action res = act ∧
      ∃ u, repo_users st' !! ir_user_id res = Some u ∧ hr_row record (clock i) u) as Hup.
  { intros u' Hrow Hid Hcur act. destruct cur as [c|]; [|done]. destruct Hp as (Hs & Hr & He). specialize (Hid c eq_refl).
    rewrite <- Hid in Hs. unfold bind. destruct (repo_update_user u' st) as [ro st1] eqn:Eu.
    destruct (update_held _ _ _ _ _ Hs Eu) as [Hok1 Hor].
    assert (confined (hr_target [hr_external_id record]) (fun u => ¬ hr_target [hr_external_id record] u) (repo_users st) (repo_users st1)) as Hc.
    { destruct Hor as [[_ ->]|Hw]; [reflexivity|]. rewrite Hw. apply confined_insert; [by eapply Htgt|].
      rewrite Hs. intros ? [= <-] Hn. apply Hn. split; [done|]. eexists. split; [left|done]. }
    destruct ro as [[]|err]; intros [= <- <-]; (split; [auto|split; [exact Hc|]]); [|done].
    intros res [= <-]. split_and!; [done..|]. destruct Hor as [[? _]|Hw]; [done|]. exists u'. cbn. by rewrite Hw, lookup_insert_eq. }
  unfold import_one, hr_action. cbn. destruct (hr_event record) eqn:Ev, cur as [c|]; cbn [is_leaver].
  all: try (intros E; eapply Hup; [| |done|exact E]; [destruct Hp as (Hs & Hr & He)|by intros ? [= <-]];
            unfold hr_row; rewrite Ev; cbn; by rewrite ?He).
  1, 2: set (u := scim_user_from_hr_record (fresh i) realm record);
    assert (hr_row record (clock i) u) as Hrow by (unfold hr_row; rewrite Ev; by cbn);
    unfold bind; destruct (repo_create_user u st) as [ro st1] eqn:Eu;
    pose proof (law_create_user _ _ _ _ Eu) as (_ & Hok1 & Hor);
    assert (confined (hr_target [hr_external_id record]) (fun u => ¬ hr_target [hr_external_id record] u) (repo_users st) (repo_users st1)) as Hc;
    [destruct Hor as [[_ ->]|[Hf Hw]]; [reflexivity|]; rewrite Hw; apply confined_insert; [by eapply Htgt|by rewrite Hf]|];
    destruct ro as [[]|err]; intros [= <- <-]; (split; [auto|split; [exact Hc|]]); [|done];
    intros res [= <-]; split_and!; [done..|]; destruct Hor as [[? _]|[_ Hw]]; [done|]; exists u; cbn; by rewrite Hw, lookup_insert_eq.
  intros [= <- <-]. split_and!; [done|reflexivity|done].
Qed.

Lemma import_all_spec planned : ∀ i (st : S) r st',
  repo_ok st → NoDup (map (fun p => hr_external_id p.1) planned) → Forall (planned_ok (repo_users st)) planned →
  import_all fresh clock realm i planned st = (r, st') →
  let exts := map (fun p => hr_external_id p.1) planned in
  confined (hr_target exts) (fun u => ¬ hr_target exts u) (repo_users st) (repo_users st') ∧
  ∀ rs, r = Ok rs → Forall2 (fun '(j, p) res =>
      ir_external_id res = hr_external_id p.1 ∧ ir_action res = hr_action p.1 p.2 ∧
      ∃ u, repo_users st' !! ir_user_id res = Some u ∧ hr_row p.1 (clock j) u)
    (imap (fun j p => ((i + j)%nat, p)) planned) rs.
Proof.
  induction planned as [|p planned IH]; intros i st r st' Hok Hnd Hpl; cbn [import_all].
  { intros [= <- <-]. split; [reflexivity|]. intros ? [= <-]. constructor. }
  cbn in Hnd. apply NoDup_cons in Hnd as [Hnew Hnd]. apply Forall_cons in Hpl as [Hp Hpl].
  unfold bind. destruct (import_one fresh clock realm i p st) as [ro st1] eqn:E1.
  destruct (import_one_spec _ _ _ _ _ Hok Hp E1) as (Hok1 & Hc1 & Hr1). cbn.
  assert (∀ exts, confined (hr_target [hr_external_id p.1]) (fun u => ¬ hr_target [hr_external_id p.1] u) (repo_users st) (repo_users st1) →
    confined (hr_target (hr_external_id p.1 :: exts)) (fun u => ¬ hr_target (hr_external_id p.1 :: exts) u) (repo_users st) (repo_users st1)) as Hw1.
  { intros exts. apply confined_mono; intros u.
    - intros (Hr & x & Hx & He). split; [done|]. exists x. set_solver.
    - intros Hn (Hr & x & Hx & He). apply Hn. split; [done|]. exists x. set_solver. }
  destruct ro as [res|err]; [|intros [= <- <-]; split; [by apply Hw1|done]].
  destruct (import_all fresh clock realm (i + 1) planned st1) as [ra st2] eqn:E2.
  assert (Forall (planned_ok (repo_users st1)) planned) as Hpl1.
  { apply Forall_forall. intros [rec [u|]] Hin; [|done]. rewrite Forall_forall in Hpl. pose proof (Hpl _ Hin) as (Hs & Hr & He).
    cbn in *. split_and!; [|done..]. apply Hc1; [done|]. intros (_ & x & ->%list_elem_of_singleton & He').
    apply Hnew. apply elem_of_map. exists (rec, Some u). split; [|done]. cbn. congruence. }
  destruct (IH _ _ _ _ Hok1 Hnd Hpl1 E2) as [Hc2 Hr2].
  assert (confined (hr_target (hr_external_id p.1 :: map (fun p => hr_external_id p.1) planned))
    (fun u => ¬ hr_target (hr_external_id p.1 :: map (fun p => hr_external_id p.1) planned) u) (repo_users st) (repo_users st2)) as Hc.
  { transitivity (repo_users st1); [by apply Hw1|]. eapply confined_mono; [| |exact Hc2]; intros u.
    - intros (Hr & x & Hx & He). split; [done|]. exists x. set_solver.
    - intros Hn (Hr & x & Hx & He). apply Hn. split; [done|]. exists x. set_solver. }
  destruct ra as [rs|err]; intros [= <- <-]; (split; [exact Hc|]); [|done]. intros ? [= <-].
  destruct (Hr1 res eq_refl) as (A1 & A2 & u & Hu & Hrow). constructor.
  - rewrite Nat.add_0_r. split_and!; [done..|]. exists u. split; [|done]. apply Hc2; [done|].
    intros (_ & x & Hx & He). destruct Hrow as (_ & He' & _). apply Hnew. congruence.
  - specialize (Hr2 rs eq_refl). eapply (eq_ind _ (fun l => Forall2 _ l rs)); [exact Hr2|].
    apply imap_ext. intros j q _. cbn. f_equal. lia.
Qed.

(** ** The preflight *)

Lemma find_hr_user_Ok (existing : list DirUser) ext cur :
  NoDup (map su_id existing) → find_hr_user existing ext = Ok cur →
  match cur with
  | Some u => u ∈ existing ∧ external_id u = Some ext ∧ ∀ v, v ∈ existing → external_id v = Some ext → v = u
  | None => ∀ v, v ∈ existing → external_id v ≠ Some ext
  end.
Proof.
  intros _. unfold find_hr_user. set (l := List.filter _ existing).
  assert (∀ v, v ∈ l ↔ v ∈ existing ∧ external_id v = Some ext) as Hl.
  { intros v. unfold l. by rewrite elem_of_lfilter, bool_decide_eq_true. }
  destruct l as [|u [|]]; [| |done]; intros [= <-].
  - intros v Hv He. eapply not_elem_of_nil, Hl. eauto.
  - destruct (proj1 (Hl u)) as [? ?]; [left|]. split_and!; [done..|]. intros v Hv He.
    apply list_elem_of_singleton. by apply Hl.
Qed.

(** What makes a batch be refused before anything is written: a repeated external ID, an
    ambiguous one, or a leaver nobody carries. *)
Definition hr_refused (users : gmap string DirUser) (records : list HrRecord) : Prop :=
  ¬ NoDup (map hr_external_id records) ∨
  ∃ record, record ∈ records ∧
    ((∃ k1 k2 u1 u2, k1 ≠ k2 ∧ users !! k1 = Some u1 ∧ users !! k2 = Some u2 ∧
        hr_target [hr_external_id record] u1 ∧ hr_target [hr_external_id record] u2) ∨
     (hr_event record = Leaver ∧ ∀ k u, users !! k = Some u → ¬ hr_target [hr_external_id record] u)).

Lemma check_hr_NoDup records : ∀ seen seen', res_foldl check_hr_record seen records = Ok seen' →
  NoDup (map hr_external_id records) ∧ ∀ e, e ∈ records → hr_external_id e ∉ seen.
Proof.
  induction records as [|e es IH]; intros seen seen' H0; cbn in H0; [split; [constructor|by intros ? ?%not_elem_of_nil]|].
  apply res_bind_Ok in H0 as (s1 & H1 & H2). destruct (IH _ _ H2) as [Hnd Hs].
  unfold check_hr_record in H1. case_bool_decide as Hin; [done|]. injection H1 as <-. split.
  - cbn. constructor; [|done]. intros (e' & Ee & He')%elem_of_map. specialize (Hs e' He'). rewrite <- Ee in Hs. set_solver.
  - intros e' [->|He']%elem_of_cons; [done|]. specialize (Hs e' He'). set_solver.
Qed.

Lemma target_single ext u : hr_target [ext] u ↔ su_realm_id u = realm ∧ external_id u = Some ext.
Proof.
  split; [by intros (Hr & x & ->%list_elem_of_singleton & He)|]. intros [Hr He]. split; [done|]. eexists. split; [left|done].
Qed.

Lemma plan_hr_ok existing (st : S) record planned :
  repo_ok st → NoDup (map su_id existing) → (∀ u, u ∈ existing ↔ repo_users st !! su_id u = Some u ∧ su_realm_id u = realm) →
  plan_hr_record existing record = Ok planned →
  planned.1 = record ∧ planned_ok (repo_users st) planned ∧
  (planned.2 = None ↔ ∀ k u, repo_users st !! k = Some u → ¬ hr_target [hr_external_id record] u) ∧
  (∀ k1 k2 u1 u2, repo_users st !! k1 = Some u1 → repo_users st !! k2 = Some u2 →
     hr_target [hr_external_id record] u1 → hr_target [hr_external_id record] u2 → k1 = k2) ∧
  (hr_event record = Leaver → planned.2 ≠ None).
Proof.
  intros Hok Hnd Hex. unfold plan_hr_record. intros (cur & Hf%find_hr_user_Ok & Hp)%res_bind_Ok; [|done].
  destruct (_ && _) eqn:El; [done|]. injection Hp as <-. cbn.
  assert (∀ k u, repo_users st !! k = Some u → hr_target [hr_external_id record] u →
    u ∈ existing ∧ external_id u = Some (hr_external_id record)) as Hin.
  { intros k u Hu [Hr He]%target_single. split; [|done]. apply Hex. by rewrite (law_user_keys _ _ _ Hok Hu). }
  split_and!; [done| | | |].
  - unfold planned_ok. cbn. destruct cur as [u|]; [|done]. destruct Hf as (Hu & He & _). by apply Hex in Hu as [? ?].
  - destruct cur as [u|].
    + split; [done|]. destruct Hf as (Hu & He & _). apply Hex in Hu as [Hu Hr]. intros Hno. exfalso. by apply (Hno _ _ Hu), target_single.
    + split; [|done]. intros _ k v Hv Ht. destruct (Hin k v Hv Ht) as [? ?]. by apply (Hf v).
  - intros k1 k2 u1 u2 H1 H2 T1 T2. destruct (Hin _ _ H1 T1) as [I1 X1], (Hin _ _ H2 T2) as [I2 X2].
    destruct cur as [u|]; [|by destruct (Hf u1)]. destruct Hf as (_ & _ & Huniq).
    rewrite <- (law_user_keys _ _ _ Hok H1), <- (law_user_keys _ _ _ Hok H2), (Huniq u1), (Huniq u2) by done. done.
  - intros Hev ->. by rewrite Hev in El.
Qed.

(** An HR import is decided before it writes.  Over any repository: a batch that repeats an
    external ID, names one that several users of the realm carry, or lets a leaver go whom
    nobody is, is refused and nothing has changed.  However a run ends, only users of the realm
    that carry an external ID of the batch are added or changed, and none disappears.  When it
    succeeds there is a result per record, and the user it names carries the record's external
    ID and is deactivated, stamped with the time, for a leaver, active and not deprovisioned
    otherwise; it was created exactly when nobody carried the ID. *)
Theorem hr_import_decided_first records (st : S) r st' :
  repo_ok st → import_hr_records fresh clock realm records st = (r, st') →
  (hr_refused (repo_users st) records → (∃ e, r = Err e) ∧ repo_users st' = repo_users st) ∧
  (∀ k u, repo_users st !! k = Some u → ¬ hr_target (map hr_external_id records) u → repo_users st' !! k = Some u) ∧
  (∀ k u, repo_users st' !! k = Some u → repo_users st !! k = Some u ∨ hr_target (map hr_external_id records) u) ∧
  (∀ k, is_Some (repo_users st !! k) → is_Some (repo_users st' !! k)) ∧
  (∀ rs, r = Ok rs → length rs = length records ∧
    ∀ j record, records !! j = Some record → ∃ res u,
      rs !! j = Some res ∧ ir_external_id res = hr_external_id record ∧
      repo_users st' !! ir_user_id res = Some u ∧ hr_row record (clock j) u ∧
      (ir_action res = HrCreated ↔ hr_event record ≠ Leaver ∧
         ∀ k v, repo_users st !! k = Some v → ¬ hr_target [hr_external_id record] v)).
Proof.
  intros Hok. unfold import_hr_records, of_result, bind.
  assert (∀ e (st1 : S), repo_users st1 = repo_users st → (Err e, st1) = (r, st') →
    (hr_refused (repo_users st) records → (∃ e, r = Err e) ∧ repo_users st' = repo_users st) ∧
    confined (hr_target (map hr_external_id records)) (fun u => ¬ hr_target (map hr_external_id records) u) (repo_users st) (repo_users st')
    ∧ ∀ rs, r ≠ Ok rs) as Herr.
  { intros e st1 Hu [= <- <-]. rewrite Hu. split_and!; [eauto|reflexivity|done]. }
  destruct (res_foldl check_hr_record ∅ records) as [sn|e] eqn:Ec;
    [|intros (A & (B1 & B2 & B3) & C)%Herr; [split_and!; try done; intros rs Hrs; by destruct (C rs)|done]].
  apply check_hr_NoDup in Ec as [Hnd _].
  destruct (repo_list_users realm st) as [rl st1] eqn:El. pose proof (law_list_users _ _ _ _ El) as [(Hu1 & _ & Hok1) Hl].
  destruct rl as [existing|e];
    [|intros (A & (B1 & B2 & B3) & C)%Herr; [split_and!; try done; intros rs Hrs; by destruct (C rs)|done]].
  destruct (Hl existing) as [Hids Hex]; [done..|]. specialize (Hok1 Hok). clear El Hl.
  destruct (res_mapM (plan_hr_record existing) records) as [planned|e] eqn:Ep;
    [|intros (A & (B1 & B2 & B3) & C)%Herr; [split_and!; try done; intros rs Hrs; by destruct (C rs)|done]].
  apply res_mapM_Ok in Ep. rewrite <- Hu1 in *. clear Hu1 Hok Herr.
  assert (Forall2 (fun record p => p.1 = record ∧ planned_ok (repo_users st1) p ∧
    (p.2 = None ↔ ∀ k u, repo_users st1 !! k = Some u → ¬ hr_target [hr_external_id record] u) ∧
    (∀ k1 k2 u1 u2, repo_users st1 !! k1 = Some u1 → repo_users st1 !! k2 = Some u2 →
     hr_target [hr_external_id record] u1 → hr_target [hr_external_id record] u2 → k1 = k2) ∧
    (hr_event record = Leaver → p.2 ≠ None)) records planned) as Hpl.
  { eapply Forall2_impl; [exact Ep|]. intros record p Hp. by eapply plan_hr_ok. }
  assert (map (fun p => hr_external_id p.1) planned = map hr_external_id records) as Hexts.
  { clear -Hpl. induction Hpl as [|x y l k [<- _] _ IH]; cbn; [done|]. by rewrite IH. }
  intros E. destruct (import_all_spec planned 0 st1 r st' Hok1) as [(B1 & B2 & B3) Hres]; [by rewrite Hexts| |done|].
  { clear -Hpl. induction Hpl as [|x y l k (_ & ? & _) _ IH]; by constructor. }
  rewrite Hexts in B1, B2. split_and!; [|done..|].
  - intros [?|(record & Hin & Hbad)]; [done|]. exfalso. apply list_elem_of_lookup in Hin as [j Hj].
    destruct (Forall2_lookup_l _ _ _ _ _ Hpl Hj) as (p & _ & _ & _ & Hnone & Huniq & Hlv).
    destruct Hbad as [(k1 & k2 & u1 & u2 & Hne & H1 & H2 & T1 & T2)|[Hev Hno]]; [by apply Hne, (Huniq k1 k2 u1 u2)|].
    by apply (Hlv Hev), Hnone.
  - intros rs ->. specialize (Hres rs eq_refl). split.
    + apply Forall2_length in Hres. rewrite length_imap in Hres. apply Forall2_length in Hpl. lia.
    + intros j record Hj. destruct (Forall2_lookup_l _ _ _ _ _ Hpl Hj) as (p & Hp & Ep1 & _ & Hnone & _ & Hlv).
      destruct (Forall2_lookup_l _ _ _ j (j, p) Hres) as (res & Hrs & A1 & A2 & u & Hu & Hrow).
      { rewrite list_lookup_imap, Hp. done. }
      subst record. exists res, u. split_and!; [done..|]. rewrite A2. unfold hr_action. rewrite <- Hnone.
      destruct (hr_event p.1) eqn:Ev; cbn; destruct p.2; naive_solver.
Qed.

End Laws.
End Import.


Lemma size_list_to_set_le (l : list string) : (size (list_to_set l : gset string) ≤ length l)%nat.
Proof.
  induction l as [|x l IH]; cbn; [by rewrite size_empty|]. rewrite size_union_alt, size_singleton.
  apply le_n_S. etransitivity; [|exact IH]. apply subseteq_size. set_solver.
Qed.

(** * Nested groups *)

Section Expand.
Context (all_groups : list Group).

(** [h] is a member group of [g]; [x] is a member of [g] that is no group. *)
Definition subgroup (g h : Group) : Prop :=
  ∃ member value, member ∈ value_items (members_json g) ∧ member_value member = Some value ∧
    member_group all_groups member value = Some h.
Definition user_member (g : Group) (x : string) : Prop :=
  ∃ member, member ∈ value_items (members_json g) ∧ member_value member = Some x ∧
    member_group all_groups member x = None ∧ is_group_kind member = false.

Definition exp_le (a b : Expansion) : Prop :=
  visited a ⊆ visited b ∧ nested_groups a ⊆ nested_groups b ∧ exp_users a ⊆ exp_users b.

#[local] Instance exp_le_preorder : PreOrder exp_le.
Proof. split; [done|]. intros a b c (? & ? & ?) (? & ? & ?). split_and!; by etransitivity. Qed.

Definition member_done (member : J) (st : Expansion) : Prop :=
  ∀ value, member_value member = Some value →
    match member_group all_groups member value with
    | Some h => sg_id h ∈ visited st ∧ sg_id h ∈ nested_groups st
    | None => is_group_kind member = false → value ∈ exp_users st
    end.

Lemma member_done_le member a b : exp_le a b → member_done member a → member_done member b.
Proof.
  intros (Hv & Hn & Hu) Hd value Hval. specialize (Hd value Hval). destruct (member_group _ _ _); [set_solver|].
  intros Hk. apply Hu, Hd, Hk.
Qed.

(** Every group of [U] marked since [v0] has all its members done. *)
Definition closed_since (U : Group → Prop) (v0 : gset string) (st : Expansion) : Prop :=
  ∀ h, U h → sg_id h ∈ visited st → sg_id h ∉ v0 → ∀ member, member ∈ value_items (members_json h) → member_done member st.

Lemma closed_since_trans U v0 a b :
  exp_le a b → closed_since U v0 a → closed_since U (visited a) b → closed_since U v0 b.
Proof.
  intros Hle Ha Hb h Hh Hin Hn member Hm. destruct (decide (sg_id h ∈ visited a)); [|by eapply Hb].
  eapply member_done_le; [exact Hle|]. by eapply Ha.
Qed.

(** What was added was found from [g]. *)
Definition found_from (g : Group) (a b : Expansion) : Prop :=
  (∀ i, i ∈ visited b → i ∈ visited a ∨ ∃ h, rtc subgroup g h ∧ i = sg_id h) ∧
  (∀ i, i ∈ nested_groups b → i ∈ nested_groups a ∨ ∃ h, tc subgroup g h ∧ i = sg_id h) ∧
  (∀ x, x ∈ exp_users b → x ∈ exp_users a ∨ ∃ h, rtc subgroup g h ∧ user_member h x).

#[local] Instance found_from_preorder g : PreOrder (found_from g).
Proof.
  split; [by intros a; split_and!; auto|]. intros a b c (A1 & A2 & A3) (B1 & B2 & B3).
  split_and!; [intros i [?|?]%B1|intros i [?|?]%B2|intros i [?|?]%B3]; auto.
Qed.

Lemma found_from_child g h a b : subgroup g h → found_from h a b → found_from g a b.
Proof.
  intros Hgh (A1 & A2 & A3). split_and!.
  - intros i [?|(k & ? & ?)]%A1; [by left|]. right. exists k. split; [by eapply rtc_l|done].
  - intros i [?|(k & ? & ?)]%A2; [by left|]. right. exists k. split; [by eapply tc_l|done].
  - intros i [?|(k & ? & ?)]%A3; [by left|]. right. exists k. split; [by eapply rtc_l|done].
Qed.

Section Universe.
Context (U : Group → Prop) (HU : ∀ g, g ∈ all_groups → U g)
  (Hinj : ∀ g h, U g → U h → sg_id g = sg_id h → g = h).

Lemma member_group_in member value h : member_group all_groups member value = Some h → U h.
Proof. intros [Hin _]%find_some. by apply HU, list_elem_of_In. Qed.

Lemma expand_members_spec (expand : Group → Expansion → option Expansion) g ms : ∀ st st',
  (∀ h a b, U h → expand h a = Some b →
     exp_le a b ∧ sg_id h ∈ visited b ∧ closed_since U (visited a) b ∧ found_from h a b) →
  (∀ member, member ∈ ms → member ∈ value_items (members_json g)) →
  expand_members expand all_groups ms st = Some st' →
  exp_le st st' ∧ closed_since U (visited st) st' ∧ (∀ member, member ∈ ms → member_done member st') ∧ found_from g st st'.
Proof.
  induction ms as [|member ms IH]; intros st st' Hex Hms; cbn.
  { intros [= <-]. split_and!; [reflexivity|by intros h _ ? ?|by intros ? ?%not_elem_of_nil|reflexivity]. }
  assert (∀ m, m ∈ ms → m ∈ value_items (members_json g)) as Hms' by (intros m Hm; apply Hms; by right).
  assert (∀ st1, exp_le st st1 → closed_since U (visited st) st1 → member_done member st1 → found_from g st st1 →
    expand_members expand all_groups ms st1 = Some st' →
    exp_le st st' ∧ closed_since U (visited st) st' ∧ (∀ m, m ∈ member :: ms → member_done m st') ∧ found_from g st st') as Hgo.
  { intros st1 Hle Hcl Hdn Hfd E. destruct (IH st1 st' Hex Hms' E) as (A & B & C & D). split_and!.
    - by etransitivity. - by eapply closed_since_trans.
    - intros m [->|Hm]%elem_of_cons; [by eapply member_done_le|auto]. - by etransitivity. }
  destruct (member_value member) as [value|] eqn:Ev.
  - destruct (member_group all_groups member value) as [h|] eqn:Eg.
    + assert (subgroup g h) as Hgh by (exists member, value; split_and!; [apply Hms; left|done..]).
      set (st0 := {| visited := _; nested_groups := {[sg_id h]} ∪ _; exp_users := _ |}).
      destruct (expand h st0) as [st1|] eqn:E1; [|done].
      destruct (Hex h st0 st1 (member_group_in _ _ _ Eg) E1) as (Hle & Hv & Hcl & Hfd).
      assert (exp_le st st0) as Hle0 by (split_and!; [done|apply union_subseteq_r|done]).
      apply Hgo; [by etransitivity|exact Hcl| |].
      * intros v Hval. rewrite Ev in Hval. injection Hval as <-. rewrite Eg. split; [done|].
        apply Hle, elem_of_union_l, elem_of_singleton. done.
      * transitivity st0; [|by eapply found_from_child]. split_and!; cbn; [auto| |auto].
        intros i [->%elem_of_singleton|]%elem_of_union; [|by left]. right. exists h. split; [by apply tc_once|done].
    + destruct (is_group_kind member) eqn:Ek.
      * apply Hgo; [reflexivity|by intros ? _ ? ?| |reflexivity]. intros v Hval. rewrite Ev in Hval. injection Hval as <-. rewrite Eg.
        by rewrite Ek.
      * apply Hgo; [split_and!; [done|done|apply union_subseteq_r]|by intros ? _ ? ?| |].
        -- intros v Hval. rewrite Ev in Hval. injection Hval as <-. rewrite Eg. intros _. by apply elem_of_union_l, elem_of_singleton.
        -- split_and!; cbn; auto. intros x [->%elem_of_singleton|]%elem_of_union; [|by left]. right. exists g.
           split; [reflexivity|]. exists member. split_and!; [apply Hms; left|done..].
  - apply Hgo; [reflexivity|by intros ? _ ? ?| |reflexivity]. intros v Hval. congruence.
Qed.

Lemma expand_group_spec fuel : ∀ g st st', U g → expand_group fuel all_groups g st = Some st' →
  exp_le st st' ∧ sg_id g ∈ visited st' ∧ closed_since U (visited st) st' ∧ found_from g st st'.
Proof.
  induction fuel as [|fuel IH]; intros g st st' Hg; cbn; [done|].
  case_bool_decide as Hin; [intros [= <-]; split_and!; [reflexivity|done|by intros ? _ ? ?|reflexivity]|].
  intros E. apply (expand_members_spec _ g) in E as (Hle & Hcl & Hdn & Hfd); [|by apply IH|done]. cbn in *.
  split_and!.
  - etransitivity; [|exact Hle]. unfold exp_le; cbn; set_solver.
  - apply Hle. cbn. set_solver.
  - intros h Hh Hv Hn. destruct (decide (sg_id h = sg_id g)) as [Heq|Hne].
    + rewrite (Hinj h g Hh Hg Heq). exact Hdn.
    + apply Hcl; [done..|]. set_solver.
  - etransitivity; [|exact Hfd]. split_and!; cbn; auto.
    intros i [->%elem_of_singleton|]%elem_of_union; [|by left]. right. exists g. split; [reflexivity|done].
Qed.

(** ** The depth of the recursion *)

Definition group_ids : gset string := list_to_set (map sg_id all_groups).

Lemma expand_members_total (expand : Group → Expansion → option Expansion) (bound : nat) g ms : ∀ st,
  (∀ h a b, U h → expand h a = Some b →
     exp_le a b ∧ sg_id h ∈ visited b ∧ closed_since U (visited a) b ∧ found_from h a b) →
  (∀ h a, h ∈ all_groups → (size (group_ids ∖ visited a) < bound)%nat → is_Some (expand h a)) →
  (∀ member, member ∈ ms → member ∈ value_items (members_json g)) →
  (size (group_ids ∖ visited st) < bound)%nat → is_Some (expand_members expand all_groups ms st).
Proof.
  induction ms as [|member ms IH]; intros st Hex Htot Hms Hsz; cbn; [eauto|].
  assert (∀ m, m ∈ ms → m ∈ value_items (members_json g)) as Hms' by (intros m Hm; apply Hms; by right).
  destruct (member_value member) as [value|]; [|by apply IH].
  destruct (member_group all_groups member value) as [h|] eqn:Eg; [|destruct (is_group_kind member); by apply IH].
  assert (h ∈ all_groups) as Hh by by apply find_some in Eg as [?%list_elem_of_In _].
  set (st0 := {| visited := _; nested_groups := {[sg_id h]} ∪ _; exp_users := _ |}).
  destruct (Htot h st0 Hh Hsz) as [st1 E1]. rewrite E1. apply IH; [done..|].
  destruct (Hex h st0 st1 (HU h Hh) E1) as ((Hv & _) & _). cbn in Hv.
  eapply Nat.le_lt_trans; [|exact Hsz]. apply subseteq_size. set_solver.
Qed.

Lemma expand_group_total fuel : ∀ g st, g ∈ all_groups → (size (group_ids ∖ visited st) < fuel)%nat →
  is_Some (expand_group fuel all_groups g st).
Proof.
  induction fuel as [|fuel IH]; intros g st Hg Hsz; [lia|]. cbn. case_bool_decide as Hin; [eauto|].
  apply (expand_members_total _ fuel g); [by apply expand_group_spec|done|done|]. cbn.
  assert (sg_id g ∈ group_ids) as Hgi by (apply elem_of_list_to_set, elem_of_map; eauto).
  assert (size (group_ids ∖ ({[sg_id g]} ∪ visited st)) < size (group_ids ∖ visited st))%nat; [|lia].
  apply subset_size. set_solver.
Qed.

Lemma expand_root_total root : U root →
  is_Some (expand_group (length all_groups + 2) all_groups root {| visited := ∅; nested_groups := ∅; exp_users := ∅ |}).
Proof.
  intros _. replace (length all_groups + 2)%nat with (Datatypes.S (length all_groups + 1)) by lia.
  set (fuel := (length all_groups + 1)%nat). cbn [expand_group]. rewrite bool_decide_eq_false_2 by (cbn; set_solver).
  apply (expand_members_total _ fuel root); [by apply expand_group_spec| |done|].
  - intros h a. apply expand_group_total.
  - unfold fuel. rewrite Nat.add_1_r. apply Nat.lt_succ_r. etransitivity; [apply (subseteq_size _ group_ids); set_solver|].
    unfold group_ids. rewrite <- (length_map sg_id all_groups). apply size_list_to_set_le.
Qed.
End Universe.
End Expand.

Lemma set_list_elem (s : gset string) x : x ∈ set_list s ↔ x ∈ s.
Proof. unfold set_list. by rewrite elem_of_sort_by, elem_of_elements. Qed.

Lemma set_list_sorted (s : gset string) : NoDup (set_list s) ∧ StronglySorted (fun a b => str_leb a b = true) (set_list s).
Proof.
  unfold set_list. split; [rewrite sort_by_perm; apply NoDup_elements|]. apply sort_by_sorted; eauto with qid.
Qed.

Lemma tc_last {A} (R : relation A) x z : tc R x z → ∃ y, rtc R x y ∧ R y z.
Proof.
  induction 1 as [x z Hxz|x y z Hxy _ (w & Hw & Hwz)]; [exists x; split; [reflexivity|done]|].
  exists w. split; [by eapply rtc_l|done].
Qed.

Section GroupTheorems.
Context {S : Type} `{!ScimRepository S} `{!ScimView S} `{!ScimRepositoryLaws S}.

(** C30: The expansion of nested groups ends and is exact, cycles or not.  Over any repository whose
    two reads succeed, [expand_nested_group_members] returns, in order and without repetition, the
    users that are members of a group reachable from the root, and the other groups reachable
    from it. *)
Theorem group_expansion_exact group_id root all_groups (st st1 st2 : S) :
  repo_ok st → repo_get_group group_id st = (Ok (Some root), st1) →
  repo_list_groups (sg_realm_id root) st1 = (Ok all_groups, st2) →
  ∃ r, expand_nested_group_members group_id st = (Ok r, st2) ∧ eg_group_id r = group_id ∧
    (∀ x, x ∈ eg_user_ids r ↔ ∃ g, rtc (subgroup all_groups) root g ∧ user_member all_groups g x) ∧
    (∀ x, x ∈ eg_nested_group_ids r ↔ x ≠ group_id ∧ ∃ g, tc (subgroup all_groups) root g ∧ x = sg_id g) ∧
    NoDup (eg_user_ids r) ∧ NoDup (eg_nested_group_ids r) ∧
    StronglySorted (fun a b => str_leb a b = true) (eg_user_ids r) ∧
    StronglySorted (fun a b => str_leb a b = true) (eg_nested_group_ids r).
Proof.
  intros Hok Hget Hlist. destruct (law_get_group _ _ _ _ Hget) as [(_ & Hg1 & Hok1) Hroot].
  specialize (Hroot _ eq_refl). specialize (Hok1 Hok). symmetry in Hroot. rewrite <- Hg1 in Hroot.
  destruct (law_list_groups _ _ _ _ Hlist) as [_ Hall]. destruct (Hall _ eq_refl Hok1) as [_ Hin].
  set (U := fun g => repo_groups st1 !! sg_id g = Some g).
  assert (U root) as HUr by (unfold U; by rewrite (law_group_keys _ _ _ Hok1 Hroot)).
  assert (∀ g, g ∈ all_groups → U g) as HU by (intros g Hg; by apply Hin in Hg as [? _]).
  assert (∀ g h, U g → U h → sg_id g = sg_id h → g = h) as Hinj by (unfold U; intros g h Hg Hh E; rewrite E in Hg; congruence).
  destruct (expand_root_total all_groups U HU Hinj root HUr) as [fin Hfin].
  pose proof (expand_group_spec all_groups U HU Hinj _ _ _ _ HUr Hfin) as (_ & Hv & Hcl & Hf1 & Hf2 & Hf3). cbn in *.
  assert (∀ g, rtc (subgroup all_groups) root g → U g ∧ sg_id g ∈ visited fin) as Hvis.
  { intros g Hr. pattern g. eapply rtc_ind_r; [done| |exact Hr]. intros h k _ (m & value & Hm & Hval & Hg) [HUh Hh].
    split; [by eapply member_group_in|]. specialize (Hcl h HUh Hh ltac:(set_solver) m Hm value Hval). rewrite Hg in Hcl. by destruct Hcl. }
  exists {| eg_group_id := group_id; eg_user_ids := set_list (exp_users fin);
            eg_nested_group_ids := set_list (nested_groups fin ∖ {[group_id]}) |}. cbn. split_and!.
  - unfold expand_nested_group_members, bind. rewrite Hget. cbn. rewrite Hlist, Hfin. done.
  - done.
  - intros x. rewrite set_list_elem. split; [by intros [?%not_elem_of_empty|?]%Hf3|].
    intros (g & [HUg Hg]%Hvis & m & Hm & Hval & Hn & Hk).
    specialize (Hcl g HUg Hg ltac:(set_solver) m Hm x Hval). rewrite Hn in Hcl. auto.
  - intros x. rewrite set_list_elem, elem_of_difference, elem_of_singleton. split.
    + intros [[?%not_elem_of_empty|?]%Hf2 ?]; done.
    + intros [Hne (g & (h & [HUh Hh]%Hvis & (m & value & Hm & Hval & Hg))%tc_last & ->)]. split; [|done].
      specialize (Hcl h HUh Hh ltac:(set_solver) m Hm value Hval). rewrite Hg in Hcl. by destruct Hcl.
  - apply set_list_sorted.
  - apply set_list_sorted.
  - apply set_list_sorted.
  - apply set_list_sorted.
Qed.
End GroupTheorems.


(** * Manager chains *)

Section Managers.
Context (index : gmap string DirUser).

Definition manager_of (u m : DirUser) : Prop := ∃ ext, manager_external_id u = Some ext ∧ index !! ext = Some m.

(** [us] are the managers above [u], one after the other. *)
Fixpoint manager_path (u : DirUser) (us : list DirUser) : Prop :=
  match us with [] => True | m :: us' => manager_of u m ∧ manager_path m us' end.

(** Why a chain ends at [u], the IDs of [above] having been passed. *)
Definition chain_end (u : DirUser) (passed : list string) (c : ManagerChain) : Prop :=
  match manager_external_id u with
  | None => unresolved_manager_external_id c = None ∧ cycle_detected c = false
  | Some ext =>
      unresolved_manager_external_id c = Some ext ∧
      match index !! ext with
      | None => cycle_detected c = false
      | Some m => cycle_detected c = true ∧ su_id m ∈ passed
      end
  end.

Lemma manager_loop_spec fuel : ∀ user_id seen managers cur c,
  manager_loop fuel user_id index seen managers cur = Some c →
  ∃ us, mc_user_id c = user_id ∧ manager_user_ids c = managers ++ map su_id us ∧ manager_path cur us ∧
    NoDup (map su_id us) ∧ (∀ m, m ∈ us → su_id m ∉ seen) ∧
    chain_end (default cur (last us)) (elements seen ++ map su_id us) c.
Proof.
  induction fuel as [|fuel IH]; intros user_id seen managers cur c; cbn; [done|].
  destruct (manager_external_id cur) as [ext|] eqn:Em.
  - destruct (index !! ext) as [m|] eqn:Ei.
    + case_bool_decide as Hs.
      * intros [= <-]. exists []. cbn. rewrite app_nil_r. split_and!; [done..|constructor|by intros ? ?%not_elem_of_nil|].
        unfold chain_end. cbn. rewrite Em, Ei. split_and!; [done..|]. by rewrite app_nil_r, elem_of_elements.
      * intros (us & Hu & Hl & Hp & Hnd & Hns & He)%IH. exists (m :: us). cbn. rewrite Hl, <- app_assoc.
        refine (conj Hu (conj eq_refl (conj _ (conj _ (conj _ _))))).
        -- split; [|done]. by exists ext.
        -- constructor; [|done]. intros (v & E & Hv)%elem_of_map. apply (Hns v Hv). set_solver.
        -- intros v [->|Hv]%elem_of_cons; [done|]. specialize (Hns v Hv). set_solver.
        -- replace (default cur (last (m :: us))) with (default m (last us)) by (rewrite last_cons; by destruct (last us)).
           unfold chain_end in *. destruct (manager_external_id (default m (last us))) as [x|]; [|done]. destruct He as [? He]. split; [done|].
           destruct (index !! x); [|done]. destruct He as [? He]. split; [done|].
           rewrite elem_of_app, elem_of_elements in *. set_solver.
    + intros [= <-]. exists []. cbn. rewrite app_nil_r. split_and!; [done..|constructor|by intros ? ?%not_elem_of_nil|].
      unfold chain_end. cbn. by rewrite Em, Ei.
  - intros [= <-]. exists []. cbn. rewrite app_nil_r. split_and!; [done..|constructor|by intros ? ?%not_elem_of_nil|].
    unfold chain_end. cbn. by rewrite Em.
Qed.

Lemma manager_loop_total (ids : gset string) fuel : ∀ user_id seen managers cur,
  (∀ ext m, index !! ext = Some m → su_id m ∈ ids) → (size (ids ∖ seen) < fuel)%nat →
  is_Some (manager_loop fuel user_id index seen managers cur).
Proof.
  induction fuel as [|fuel IH]; intros user_id seen managers cur Hids Hsz; [lia|]. cbn.
  destruct (manager_external_id cur) as [ext|]; [|eauto]. destruct (index !! ext) as [m|] eqn:Ei; [|eauto].
  case_bool_decide as Hs; [eauto|]. apply IH; [done|].
  assert (size (ids ∖ ({[su_id m]} ∪ seen)) < size (ids ∖ seen))%nat; [|lia].
  apply subset_size. specialize (Hids _ _ Ei). set_solver.
Qed.
End Managers.

Section ManagerTheorems.
Context {S : Type} `{!ScimRepository S} `{!ScimView S} `{!ScimRepositoryLaws S}.

(** The chain of managers ends, whatever the managers are.  Over any repository whose two reads
    succeed, and for a user whose owner is not blank, [resolve_manager_chain] returns the managers
    above the user, each found by the external ID the one before names, none of them twice and
    none the user; it ends where nobody is named, where the name resolves to nobody, or where it
    leads back to someone already passed, and says which. *)
Theorem manager_chain_ends user_id user users (st st1 st2 : S) :
  repo_ok st → repo_get_user user_id st = (Ok (Some user), st1) →
  repo_list_users (su_realm_id user) st1 = (Ok users, st2) →
  (∀ p, directory_provider_id user = Some p → Utf8.blank p = false) →
  let index := external_index (directory_provider_id user) users in
  ∃ c us, resolve_manager_chain user_id st = (Ok c, st2) ∧ mc_user_id c = user_id ∧
    manager_user_ids c = map su_id us ∧ manager_path index user us ∧ NoDup (map su_id (user :: us)) ∧
    chain_end index (default user (last us)) (map su_id (user :: us)) c.
Proof.
  intros Hok Hget Hlist Hown index.
  destruct (manager_loop_total index (list_to_set (map su_id users)) (length users + 1) user_id {[su_id user]} [] user) as [c Hc].
  { intros ext m Hm. apply elem_of_list_to_set, elem_of_map. exists m. split; [done|].
    apply collect_map_elem, list_elem_of_omap in Hm as (u & Hu & E). destruct (external_id u); simplify_eq.
    by apply elem_of_lfilter in Hu as [? _]. }
  { rewrite Nat.add_1_r. apply Nat.lt_succ_r. rewrite <- (length_map su_id users).
    etransitivity; [|apply size_list_to_set_le]. apply subseteq_size. set_solver. }
  destruct (manager_loop_spec index _ _ _ _ _ _ Hc) as (us & H1 & H2 & H3 & H4 & H5 & H6).
  exists c, us. split_and!; [|done..| |].
  - unfold resolve_manager_chain, bind. rewrite Hget. cbn. rewrite Hlist. unfold index in Hc.
    destruct (directory_provider_id user) as [p|]; cbn; [rewrite (Hown p eq_refl); cbn|]; by rewrite Hc.
  - cbn. constructor; [|done]. intros (m & E & Hm)%elem_of_map. apply (H5 m Hm). set_solver.
  - by rewrite elements_singleton in H6.
Qed.
End ManagerTheorems.


(** * The webhook over the file store *)

Section Webhook.
Context (fresh : nat → string) (clock : nat → N).

(** A receipt the incoming batch repeats. *)
Lemma hr_order_replay cur inc : valid_sequence (hr_sequence cur) = true →
  hr_sequence inc = hr_sequence cur → hr_digest inc = hr_digest cur →
  hr_order (Some cur) inc = Ok (Some {| br_summary := hr_summary cur; br_sequence := hr_sequence cur; replayed := true |}).
Proof. intros Hv Hs Hd. unfold hr_order. by rewrite Hs, Hd, Hv, N.eqb_refl, String.eqb_refl. Qed.

Lemma hr_order_Ok cur inc o : hr_order cur inc = Ok o →
  valid_sequence (hr_sequence inc) = true ∧
  (o = None ∨ ∃ c, cur = Some c ∧ hr_sequence c = hr_sequence inc ∧ hr_digest c = hr_digest inc ∧
     o = Some {| br_summary := hr_summary c; br_sequence := hr_sequence c; replayed := true |}).
Proof.
  unfold hr_order. destruct (valid_sequence (hr_sequence inc)) eqn:Ev; cbn; [|done]. destruct cur as [c|].
  - destruct (valid_sequence (hr_sequence c)); cbn; [|done]. destruct (_ && _) eqn:Ea.
    + intros [= <-]. apply andb_true_iff in Ea as [Es%N.eqb_eq Ed%String.eqb_eq]. split; [done|]. right. eauto.
    + case_bool_decide; [|done]. intros [= <-]. auto.
  - destruct (_ =? _); [|done]. intros [= <-]. auto.
Qed.

(** A commit that answers [Ok] has left the receipt of its batch, with the summary it answered. *)
Lemma commit_hr_acknowledged written synced b (s : ScimStore (Num := Num)) r s' :
  commit_hr_inner written synced b s = (Ok r, s') →
  valid_sequence (hr_sequence (receipt b)) = true ∧
  ∃ rc, get_hr_receipt (hb_realm_id b) (hb_provider_id b) s' = Some rc ∧
    hr_sequence rc = hr_sequence (receipt b) ∧ hr_digest rc = hr_digest (receipt b) ∧ hr_summary rc = br_summary r.
Proof.
  unfold commit_hr_inner. destruct (hr_order _ _) as [[o|]|e] eqn:Eo; [| |done].
  - destruct (hr_order_Ok _ _ _ Eo) as [Hv [?|(c & Hc & Hs & Hd & Ho)]]; [done|]. injection Ho as ->.
    destruct synced as [[]|]; [|done]. intros [= <- <-]. split; [done|]. exists c. done.
  - destruct (hr_order_Ok _ _ _ Eo) as [Hv _]. destruct (validate_hr_changes _ _); [|done].
    destruct written; [|done]. destruct synced as [[]|]; [|done]. intros [= <- <-]. split; [done|].
    exists (receipt b). rewrite get_receipt_candidate, bool_decide_eq_true_2; done.
Qed.

(** An HR webhook call can be retried.  Once a call has been acknowledged, the same envelope sent
    again for the provider, whatever the IDs drawn, the clock and the users have become since, is
    answered with the summary of the first and changes nothing. *)
Theorem webhook_retry_applies_once fresh' clock' realm_id provider_id envelope digest (st : FileRepo) r st1 st2 :
  import_hr_webhook fresh clock realm_id provider_id envelope digest st = (Ok r, st1) →
  get_hr_receipt realm_id provider_id (fr_store st2) = get_hr_receipt realm_id provider_id (fr_store st1) →
  ∃ st3, import_hr_webhook fresh' clock' realm_id provider_id envelope digest st2 =
    (match default (Ok tt) (head (tail (fr_saves st2))) with
     | Ok _ => Ok {| br_summary := br_summary r; br_sequence := env_sequence envelope; replayed := true |}
     | Err e => Err e
     end, st3) ∧ fr_store st3 = fr_store st2.
Proof.
  intros H1 Hsame.
  assert (valid_sequence (env_sequence envelope) = true ∧
    ∃ rc, get_hr_receipt realm_id provider_id (fr_store st1) = Some rc ∧ hr_sequence rc = env_sequence envelope ∧
      hr_digest rc = digest ∧ hr_summary rc = br_summary r) as (Hv & rc & Hrc & Hs & Hd & Hsum).
  { unfold import_hr_webhook, bind in H1. cbn in H1. unfold reading, of_result in H1.
    destruct (hr_order _ _) as [[o|]|e] in H1; [| |done].
    - destruct (commit_hr_inner _ _ _ _) as [rr s'] eqn:Ec in H1. injection H1 as -> <-.
      by apply commit_hr_acknowledged in Ec.
    - destruct (commit_hr_inner _ _ _ _) as [rr s'] eqn:Ec in H1. injection H1 as -> <-.
      by apply commit_hr_acknowledged in Ec. }
  unfold import_hr_webhook, bind. cbn. unfold reading, of_result. rewrite Hsame, Hrc.
  assert (∀ sm, hr_order (Some rc) {| hr_sequence := env_sequence envelope; hr_digest := digest; hr_summary := sm |} =
    Ok (Some {| br_summary := hr_summary rc; br_sequence := hr_sequence rc; replayed := true |})) as Hro.
  { intros sm. apply hr_order_replay; cbn; by rewrite ?Hs. }
  rewrite Hro. unfold commit_hr_inner. cbn. rewrite Hsame, Hrc, Hro, Hs, Hsum.
  exists {| fr_store := fr_store st2; fr_saves := tail (tail (fr_saves st2)) |}. split; [|done].
  by destruct (default (Ok tt) (head (tail (fr_saves st2)))).
Qed.
End Webhook.

(** * Dynamic groups *)

Section Dynamic.
Context {S : Type} `{!ScimRepository S} `{!ScimView S} `{!ScimRepositoryLaws S}.

Lemma lfilter_idemp {A} (p : A → bool) l : List.filter p (List.filter p l) = List.filter p l.
Proof. apply lfilter_all. by intros x [_ ?]%elem_of_lfilter. Qed.

(** What a synchronisation of a dynamic group that succeeds has read and written. *)
Lemma dynamic_sync_inv gid rule (st : S) r st' :
  repo_ok st → sync_dynamic_group_members gid rule st = (Ok r, st') →
  ∃ group users (gids : gset string),
    repo_groups st !! gid = Some group ∧
    (∀ x, x ∈ gids ↔ ∃ g, repo_groups st !! x = Some g ∧ sg_realm_id g = sg_realm_id group) ∧
    (∀ u, u ∈ users ↔ repo_users st !! su_id u = Some u ∧ su_realm_id u = sg_realm_id group) ∧
    let matched : gset string := list_to_set (map su_id (List.filter (dynamic_group_rule_matches rule) users)) in
    let previous := group_user_member_ids group gids in
    let next := List.filter (is_preserved_group_member gids) (value_items (members_json group)) ++ map member_json (set_list matched) in
    repo_ok st' ∧ repo_users st' = repo_users st ∧
    repo_groups st' = <[gid := {| sg_id := gid; sg_realm_id := sg_realm_id group; display_name := display_name group;
                                  members_json := VArray next |}]> (repo_groups st) ∧
    added_user_ids r = set_list (matched ∖ previous) ∧ removed_user_ids r = set_list (previous ∖ matched).
Proof.
  intros Hok. unfold sync_dynamic_group_members. intros (g & st1 & Hg & H1)%bind_inv.
  destruct (law_get_group _ _ _ _ Hg) as [(U1 & G1 & K1) Hgr]. specialize (Hgr _ eq_refl). specialize (K1 Hok).
  destruct g as [group|]; [|done]. symmetry in Hgr. pose proof (law_group_keys _ _ _ Hok Hgr) as Hid.
  apply bind_inv in H1 as (users & st2 & Hu & H1). destruct (law_list_users _ _ _ _ Hu) as [(U2 & G2 & K2) Hus].
  destruct (Hus _ eq_refl K1) as [_ Hus']. specialize (K2 K1).
  apply bind_inv in H1 as (groups & st3 & Hgs & H1). destruct (law_list_groups _ _ _ _ Hgs) as [(U3 & G3 & K3) Hls].
  destruct (Hls _ eq_refl K2) as [_ Hls']. specialize (K3 K2).
  apply bind_inv in H1 as ([] & st4 & Hup & [= <- <-]). cbn.
  destruct (law_update_group _ _ _ _ Hup) as (U4 & K4 & Hor). cbn in Hor. rewrite Hid, G3, G2, G1, Hgr in Hor.
  exists group, users, (list_to_set (map sg_id groups)). split_and!; [done| | |auto|congruence| |done|done].
  - intros x. rewrite elem_of_list_to_set, elem_of_map. setoid_rewrite Hls'. rewrite G2, G1. split.
    + intros (g & -> & Hg' & Hr). eauto.
    + intros (g & Hg' & Hr). exists g. pose proof (law_group_keys _ _ _ Hok Hg') as <-. done.
  - intros u. rewrite Hus', U1. done.
  - destruct Hor as [[[?|?] _]|(cur & _ & _ & Hw)]; [done..|]. rewrite Hw. done.
Qed.

(** A second synchronisation of a dynamic group finds nothing to add or remove and stores the same
    members, if no user of the realm bears the ID of a group. *)
Lemma dynamic_sync_idempotent gid rule (st : S) r1 st1 r2 st2 :
  repo_ok st → (∀ k, repo_users st !! k = None ∨ repo_groups st !! k = None) →
  sync_dynamic_group_members gid rule st = (Ok r1, st1) → sync_dynamic_group_members gid rule st1 = (Ok r2, st2) →
  added_user_ids r2 = [] ∧ removed_user_ids r2 = [] ∧ repo_groups st2 = repo_groups st1.
Proof.
  intros Hok Hdis (g1 & us1 & gids1 & Hg1 & Hgi1 & Hus1 & Hok1 & Hu1 & Hw1 & _ & _)%dynamic_sync_inv; [|done].
  intros (g2 & us2 & gids2 & Hg2 & Hgi2 & Hus2 & _ & _ & Hw2 & Ha & Hr)%dynamic_sync_inv; [|done].
  set (m1 := list_to_set (map su_id (List.filter (dynamic_group_rule_matches rule) us1)) : gset string) in *.
  set (m2 := list_to_set (map su_id (List.filter (dynamic_group_rule_matches rule) us2)) : gset string) in *.
  assert (gids2 = gids1) as ->.
  { apply set_eq. intros x. rewrite Hgi1, Hgi2, Hw1. rewrite Hw1, lookup_insert_eq in Hg2. injection Hg2 as <-. cbn.
    destruct (decide (x = gid)) as [->|]; [rewrite lookup_insert_eq; naive_solver|by rewrite lookup_insert_ne]. }
  rewrite Hw1, lookup_insert_eq in Hg2. injection Hg2 as <-. cbn in *.
  assert (m2 = m1) as Em.
  { apply set_eq. intros x. unfold m1, m2. rewrite !elem_of_list_to_set, !elem_of_map. setoid_rewrite elem_of_lfilter.
    setoid_rewrite Hus1. setoid_rewrite Hus2. by rewrite Hu1. }
  assert (∀ x, x ∈ m1 → x ∉ gids1) as Hnew.
  { intros x. unfold m1. rewrite elem_of_list_to_set, elem_of_map. intros (u & -> & [Hu _]%elem_of_lfilter) (g & Hg & _)%Hgi1.
    apply Hus1 in Hu as [Hu _]. destruct (Hdis (su_id u)); congruence. }
  assert (∀ x, x ∈ set_list m1 → is_preserved_group_member gids1 (member_json x) = false) as Hnp.
  { intros x Hx%set_list_elem. unfold is_preserved_group_member. cbn. apply bool_decide_eq_false. auto. }
  set (kept := List.filter (is_preserved_group_member gids1) (value_items (members_json g1))) in *.
  assert (List.filter (is_preserved_group_member gids1) (kept ++ map member_json (set_list m1)) = kept) as Hkept.
  { rewrite List.filter_app. unfold kept. rewrite lfilter_idemp.
    rewrite (proj2 (lfilter_nil _ (map member_json _))); [apply app_nil_r|]. intros m (x & -> & Hx)%elem_of_map. auto. }
  assert (group_user_member_ids {| sg_id := gid; sg_realm_id := sg_realm_id g1; display_name := display_name g1;
    members_json := VArray (kept ++ map member_json (set_list m1)) |} gids1 = m1) as Hprev.
  { unfold group_user_member_ids. cbn. rewrite List.filter_app.
    rewrite (proj2 (lfilter_nil _ kept)) by (intros m [_ ->]%elem_of_lfilter; done). cbn.
    rewrite lfilter_all by (intros m (x & -> & Hx)%elem_of_map; by rewrite Hnp).
    apply set_eq. intros x. rewrite elem_of_list_to_set, list_elem_of_omap. setoid_rewrite elem_of_map.
    setoid_rewrite set_list_elem. split; [by intros (m & (y & -> & Hy) & [= ->])|]. intros Hx. exists (member_json x). eauto. }
  unfold group_user_member_ids in Hprev. cbn in Hprev. rewrite Hprev, Em in Ha, Hr. rewrite Em, Hkept, Hw1, insert_insert_eq in Hw2.
  rewrite difference_diag_L in Ha, Hr. split_and!; [by rewrite Ha|by rewrite Hr|]. by rewrite Hw2, Hw1.
Qed.
End Dynamic.

End Directory.


(** * Witnesses *)

Section Witnesses.
Abbreviation Num := SerdeNumber.
Abbreviation SUser := (ScimUser Num).

Definition ex_repo (os : list (ScimOp (Num := Num) * QidResult unit)) (saves : list (QidResult unit)) : FileRepo (Num := Num) :=
  {| fr_store := run_ops os scim_empty; fr_saves := saves |}.

Lemma ex_repo_ok os saves : repo_ok (ex_repo os saves).
Proof. apply scim_reachable_wf, run_ops_reachable. Qed.

Definition ex_fresh (i : nat) : string := "n" +:+ pretty i.

Definition ex_sync : list (ScimOp (Num := Num) * QidResult unit) :=
  [(CreateUser (ex_user "1" "ann" "dn1" (Some "ldap")), Ok tt);
   (CreateUser (mark_break_glass (ex_user "2" "bob" "dn2" (Some "ldap"))), Ok tt);
   (CreateUser (ex_user "3" "cy" "dn3" (Some "other")), Ok tt);
   (CreateUser (ex_user "4" "di" "dn4" (Some "ldap")), Ok tt)].


Definition ex_record (x name : string) (e : LifecycleEvent) : HrRecord :=
  {| hr_external_id := x; hr_user_name := name; hr_email := None; hr_display_name := None; hr_department := Some "it";
     hr_manager_external_id := None; hr_event := e |}.

Lemma hr_import_decided_first_witness :
  let st := ex_repo ex_sync [] in
  let records := [ex_record "dn1" "ann" Leaver; ex_record "new" "eve" Joiner] in
  let '(r, st') := import_hr_records ex_fresh (fun _ => 70) "r" records st in
  (∃ rs, r = Ok rs ∧ length rs = 2%nat ∧
    ∃ res u, rs !! 0%nat = Some res ∧ repo_users st' !! ir_user_id res = Some u ∧ hr_row "r" (ex_record "dn1" "ann" Leaver) 70 u) ∧
  repo_users st' !! "3" = Some (ex_user "3" "cy" "dn3" (Some "other")).
Proof.
  intros st records. destruct (import_hr_records ex_fresh (fun _ => 70) "r" records st) as [r st'] eqn:E.
  assert (is_ok r = true) as Hr.
  { change r with (r, st').1. rewrite <- E. by vm_compute. }
  destruct (hr_import_decided_first "r" ex_fresh (fun _ => 70) records st r st' (ex_repo_ok _ _) E) as (_ & H1 & _ & _ & H4).
  split.
  - destruct r as [rs|]; [|done]. exists rs. destruct (H4 rs eq_refl) as [Hl H5]. split; [done|]. split; [done|].
    destruct (H5 0%nat (ex_record "dn1" "ann" Leaver) eq_refl) as (res & u & A & _ & B & C & _).
    exact (ex_intro _ res (ex_intro _ u (conj A (conj B C)))).
  - apply H1; [by vm_compute|]. intros (_ & x & Hx & He). injection He as <-. apply str_in_spec in Hx. by vm_compute in Hx.
Defined.

Definition ex_group (id : string) (ms : list (Value Num)) : ScimGroup Num :=
  {| sg_id := id; sg_realm_id := "r"; display_name := id; members_json := VArray ms |}.

Definition ex_groups : list (ScimOp (Num := Num) * QidResult unit) :=
  [(CreateGroup (ex_group "g1" [member_json "g2"; member_json "ann"]), Ok tt);
   (CreateGroup (ex_group "g2" [member_json "g1"; member_json "bob"]), Ok tt)].

Lemma group_expansion_exact_witness :
  ∃ r st', expand_nested_group_members "g1" (ex_repo ex_groups []) = (Ok r, st') ∧
    eg_user_ids r = ["ann"; "bob"] ∧ eg_nested_group_ids r = ["g2"] ∧
    ∃ g, rtc (subgroup [ex_group "g1" [member_json "g2"; member_json "ann"]; ex_group "g2" [member_json "g1"; member_json "bob"]])
           (ex_group "g1" [member_json "g2"; member_json "ann"]) g ∧
         user_member [ex_group "g1" [member_json "g2"; member_json "ann"]; ex_group "g2" [member_json "g1"; member_json "bob"]] g "bob".
Proof.
  destruct (group_expansion_exact "g1" (ex_group "g1" [member_json "g2"; member_json "ann"])
    [ex_group "g1" [member_json "g2"; member_json "ann"]; ex_group "g2" [member_json "g1"; member_json "bob"]]
    (ex_repo ex_groups []) (ex_repo ex_groups []) (ex_repo ex_groups []) (ex_repo_ok _ _)) as (r & E & _ & Hu & _);
    [by vm_compute..|].
  exists r, (ex_repo ex_groups []). split; [exact E|].
  assert (r = {| eg_group_id := "g1"; eg_user_ids := ["ann"; "bob"]; eg_nested_group_ids := ["g2"] |}) as Hr.
  { vm_compute in E. by injection E as <-. }
  split; [by rewrite Hr|]. split; [by rewrite Hr|]. apply Hu. rewrite Hr. right. left.
Defined.

Definition ex_managed (id ext : string) (mgr : option string) : SUser :=
  with_enterprise (ex_user id id ext None) (VObject (match mgr with Some m => [("manager", manager_value m)] | None => [] end)).

Definition ex_managers : list (ScimOp (Num := Num) * QidResult unit) :=
  [(CreateUser (ex_managed "1" "x1" (Some "x2")), Ok tt); (CreateUser (ex_managed "2" "x2" (Some "x1")), Ok tt)].

Lemma manager_chain_ends_witness :
  ∃ c us, resolve_manager_chain "1" (ex_repo ex_managers []) = (Ok c, ex_repo ex_managers []) ∧
    manager_user_ids c = map su_id us ∧ manager_user_ids c = ["2"] ∧ cycle_detected c = true ∧
    NoDup (map su_id (ex_managed "1" "x1" (Some "x2") :: us)).
Proof.
  destruct (manager_chain_ends "1" (ex_managed "1" "x1" (Some "x2"))
    [ex_managed "1" "x1" (Some "x2"); ex_managed "2" "x2" (Some "x1")]
    (ex_repo ex_managers []) (ex_repo ex_managers []) (ex_repo ex_managers []) (ex_repo_ok _ _))
    as (c & us & E & _ & Hm & _ & Hn & _); [by vm_compute|by vm_compute|discriminate|].
  exists c, us.
  assert (c = {| mc_user_id := "1"; manager_user_ids := ["2"]; unresolved_manager_external_id := Some "x1"; cycle_detected := true |}) as Hc.
  { vm_compute in E. by injection E as <-. }
  split; [exact E|]. split; [exact Hm|]. split; [by rewrite Hc|]. split; [by rewrite Hc|exact Hn].
Defined.

Definition ex_envelope : HrEnvelope := {| env_sequence := 1; env_records := [ex_record "dn1" "ann" Leaver; ex_record "new" "eve" Joiner] |}.

Lemma webhook_retry_applies_once_witness :
  let st := ex_repo ex_sync [] in
  let '(r1, st1) := import_hr_webhook ex_fresh (fun _ => 70) "r" "hr" ex_envelope "sha" st in
  ∃ r st3, r1 = Ok r ∧ replayed r = false ∧
    import_hr_webhook ex_fresh (fun _ => 99) "r" "hr" ex_envelope "sha" st1 =
      (Ok {| br_summary := br_summary r; br_sequence := 1; replayed := true |}, st3) ∧ fr_store st3 = fr_store st1.
Proof.
  intros st. destruct (import_hr_webhook ex_fresh (fun _ => 70) "r" "hr" ex_envelope "sha" st) as [r1 st1] eqn:E.
  assert (r1 = Ok {| br_summary := {| hr_created := 1; hr_updated := 0; hr_deprovisioned := 1 |}; br_sequence := 1; replayed := false |}
    ∧ fr_saves st1 = []) as [-> Hs].
  { change r1 with (r1, st1).1. change (fr_saves st1) with (fr_saves (r1, st1).2). rewrite <- E. by vm_compute. }
  destruct (webhook_retry_applies_once ex_fresh (fun _ => 70) ex_fresh (fun _ => 99) "r" "hr" ex_envelope "sha" st _ st1 st1 E eq_refl)
    as (st3 & E3 & Hst). rewrite Hs in E3. eexists _, st3. split; [done|]. split; [done|]. split; [exact E3|exact Hst].
Defined.

End Witnesses.

End Directory.
