(* ===== verification/Csv.v ===== *)
(** The CSV source of HR records (src/qid-directory/src/csv.rs): the row splitter with its quoting
    states, the header, and the records.

    The consumer of the splitter is a closure that updates its captures and may stop the walk; it
    is a function from a state to a result.  [str::to_lowercase] maps Unicode and is a parameter,
    as is the text of a decoding error.  Reading the file is the argument [file]. *)

From S2P Require Import Prelude Utf8 Tokens Scim Directory.

Module Csv.
Import Directory.

Definition MAX_CSV_HR_FILE_BYTES : N := 8 * 1024 * 1024.
Definition MAX_DIRECTORY_SEARCH_ENTRIES : N := 1000000.

(** A [String] from its characters. *)
Definition string_of (cs : list Utf8.char) : string := Utf8.bytes_str (Utf8.encode cs).

Definition QUOTE : Utf8.char := 34.
Definition COMMA : Utf8.char := 44.
Definition CR : Utf8.char := 13.
Definition LF : Utf8.char := 10.

(** * Rows *)

Inductive FieldState : Type := Start | Unquoted | Quoted | Closed.

Definition starts_with_char (c : Utf8.char) (cs : list Utf8.char) : bool := match cs with x :: _ => x =? c | [] => false end.

Section Split.
Context {St : Type} (consume : St → list string → QidResult St).

(** The loop of [split_csv_rows]: the characters left, the row and the field so far. *)
Fixpoint split_loop (cs : list Utf8.char) (row : list string) (field : list Utf8.char) (state : FieldState) (st : St)
    : QidResult St :=
  match cs with
  | [] =>
      match state, row with
      | Quoted, _ => Err (BadRequest "CSV has an unterminated quoted field")
      | Start, [] => Ok st
      | _, _ => consume st (row ++ [string_of field])
      end
  | ch :: rest =>
      match state with
      | Quoted =>
          if ch =? QUOTE then
            match rest with
            | c2 :: rest' =>
                if c2 =? QUOTE then split_loop rest' row (field ++ [QUOTE]) Quoted st
                else split_loop rest row field Closed st
            | [] => split_loop rest row field Closed st
            end
          else split_loop rest row (field ++ [ch]) Quoted st
      | _ =>
          if (ch =? QUOTE) && match state with Start => true | _ => false end then split_loop rest row field Quoted st
          else if ch =? COMMA then split_loop rest (row ++ [string_of field]) [] Start st
          else if (ch =? CR) || (ch =? LF) then
            match rest with
            | c2 :: rest' =>
                if (ch =? CR) && (c2 =? LF) then
                  let? st' := consume st (row ++ [string_of field]) in split_loop rest' [] [] Start st'
                else let? st' := consume st (row ++ [string_of field]) in split_loop rest [] [] Start st'
            | [] => let? st' := consume st (row ++ [string_of field]) in split_loop rest [] [] Start st'
            end
          else if (ch =? QUOTE) || match state with Closed => true | _ => false end
          then Err (BadRequest "CSV has a malformed quoted field")
          else split_loop rest row (field ++ [ch]) Unquoted st
      end
  end.

Definition split_csv_rows (content : list Utf8.char) (st : St) : QidResult St := split_loop content [] [] Start st.
End Split.

(** * Records *)

Record HrColumns : Type := {
  col_external_id : nat; col_email : nat; col_display_name : nat; col_department : nat; col_manager_external_id : nat;
  col_event : nat; col_username : option nat
}.

Section Parse.
Context (to_lowercase : string → string) (utf8_error : list N → string).

Definition check_column (seen : gset string) (name : string) : QidResult (gset string) :=
  let key := to_lowercase (Utf8.trim_str name) in
  if bool_decide (key ∈ seen) then Err (BadRequest ("CSV header repeats column '" +:+ Utf8.trim_str name +:+ "'"))
  else Ok ({[key]} ∪ seen).

Definition column_position (header : list string) (name : string) : option nat :=
  fst <$> list_find (fun h => eq_ignore_ascii_case (Utf8.trim_str h) name = true) header.

Definition find_column (header : list string) (name : string) : QidResult nat :=
  ok_or (column_position header name) (BadRequest ("CSV missing required column '" +:+ name +:+ "'")).

Definition hr_columns (header : list string) : QidResult HrColumns :=
  let? _ := res_foldl check_column ∅ header in
  let? c1 := find_column header "external_id" in
  let? c2 := find_column header "email" in
  let? c3 := find_column header "display_name" in
  let? c4 := find_column header "department" in
  let? c5 := find_column header "manager_external_id" in
  let? c6 := find_column header "event" in
  Ok {| col_external_id := c1; col_email := c2; col_display_name := c3; col_department := c4;
        col_manager_external_id := c5; col_event := c6; col_username := column_position header "username" |}.

(** [row[i]], whose index the width check keeps in range. *)
Definition row_at (row : list string) (i : nat) : string := default "" (row !! i).

Definition optional_field (value : string) : option string :=
  let value := Utf8.trim_str value in if is_empty_str value then None else Some value.

Definition hr_record (row : list string) (columns : HrColumns) (lineno : N) : QidResult HrRecord :=
  let external_id := Utf8.trim_str (row_at row (col_external_id columns)) in
  if is_empty_str external_id then Err (BadRequest ("CSV line " +:+ pretty lineno +:+ " has empty external_id"))
  else
    let event := to_lowercase (Utf8.trim_str (row_at row (col_event columns))) in
    let? ev := if String.eqb event "joiner" then Ok Joiner
               else if String.eqb event "mover" then Ok Mover
               else if String.eqb event "leaver" then Ok Leaver
               else Err (BadRequest ("CSV line " +:+ pretty lineno +:+ " has invalid event '" +:+ event
                           +:+ "' (expected joiner/mover/leaver)")) in
    let user_name :=
      match col_username columns with
      | None => external_id
      | Some idx => let name := Utf8.trim_str (row_at row idx) in if is_empty_str name then external_id else name
      end in
    Ok {| hr_external_id := external_id; hr_user_name := user_name;
          hr_email := optional_field (row_at row (col_email columns));
          hr_display_name := optional_field (row_at row (col_display_name columns));
          hr_department := optional_field (row_at row (col_department columns));
          hr_manager_external_id := optional_field (row_at row (col_manager_external_id columns));
          hr_event := ev |}.

(** What the closure of [parse_csv_hr_records_with_limit] captures. *)
Record CsvState : Type := { csv_header : option (HrColumns * nat); csv_records : list HrRecord; csv_lineno : N }.

Definition csv_row (max_records : N) (st : CsvState) (row : list string) : QidResult CsvState :=
  let lineno := csv_lineno st + 1 in
  match csv_header st with
  | None =>
      let? columns := hr_columns row in
      Ok {| csv_header := Some (columns, length row); csv_records := csv_records st; csv_lineno := lineno |}
  | Some (columns, width) =>
      if forallb (fun field => is_empty_str (Utf8.trim_str field)) row
      then Ok {| csv_header := csv_header st; csv_records := csv_records st; csv_lineno := lineno |}
      else if negb (Nat.eqb (length row) width)
      then Err (BadRequest ("CSV line " +:+ pretty lineno +:+ " has " +:+ pretty (length row) +:+ " columns, expected " +:+ pretty width))
      else
        let? record := hr_record row columns lineno in
        if N.of_nat (length (csv_records st)) =? max_records
        then Err (BadRequest ("CSV file holds more than " +:+ pretty max_records +:+ " records"))
        else Ok {| csv_header := csv_header st; csv_records := csv_records st ++ [record]; csv_lineno := lineno |}
  end.

Definition check_csv_size (bytes : nat) : QidResult unit :=
  if MAX_CSV_HR_FILE_BYTES <? N.of_nat bytes
  then Err (BadRequest ("CSV source holds more than " +:+ pretty MAX_CSV_HR_FILE_BYTES +:+ " bytes"))
  else Ok tt.

Definition BOM : Utf8.char := 0xFEFF.

Definition strip_bom (cs : list Utf8.char) : list Utf8.char := match cs with c :: rest => if c =? BOM then rest else cs | [] => [] end.

Definition parse_csv_hr_records_with_limit (content : string) (max_records : N) : QidResult (list HrRecord) :=
  check_csv_size (String.length content) ?;
  if existsb (N.eqb 0) (Utf8.chars content) then Err (BadRequest "CSV content contains a NUL byte")
  else
    let? st := split_csv_rows (csv_row max_records) (strip_bom (Utf8.chars content))
                 {| csv_header := None; csv_records := []; csv_lineno := 0 |} in
    match csv_header st with
    | None => Err (BadRequest "CSV file is empty")
    | Some _ => Ok (csv_records st)
    end.

Definition parse_csv_hr_records (content : string) : QidResult (list HrRecord) :=
  parse_csv_hr_records_with_limit content MAX_DIRECTORY_SEARCH_ENTRIES.

(** [file] is what opening and reading the file give, cut to one byte over the limit. *)
Definition read_csv_hr_records (file : result (list N) string) (path : string) (max_entries : option N) : QidResult (list HrRecord) :=
  let? all := map_err (fun e => Internal ("failed to read CSV file " +:+ path +:+ ": " +:+ e)) file in
  let bytes := take (N.to_nat (MAX_CSV_HR_FILE_BYTES + 1)) all in
  check_csv_size (length bytes) ?;
  match Utf8.decode bytes with
  | None => Err (BadRequest ("CSV file " +:+ path +:+ " is not valid UTF-8: " +:+ utf8_error bytes))
  | Some _ => parse_csv_hr_records_with_limit (Utf8.bytes_str bytes) (default MAX_DIRECTORY_SEARCH_ENTRIES max_entries)
  end.

End Parse.

(** * A writer

    Every field quoted, its quotes doubled; fields separated by commas, rows ended by CR LF. *)

Definition print_field (cs : list Utf8.char) : list Utf8.char :=
  QUOTE :: concat (map (fun c => if c =? QUOTE then [QUOTE; QUOTE] else [c]) cs) ++ [QUOTE].

Fixpoint print_row (fields : list string) : list Utf8.char :=
  match fields with
  | [] => []
  | [f] => print_field (Utf8.chars f) ++ [CR; LF]
  | f :: rest => print_field (Utf8.chars f) ++ COMMA :: print_row rest
  end.

Definition print_rows (rows : list (list string)) : list Utf8.char := concat (map print_row rows).

(** A string that is its characters: valid UTF-8, as every Rust [str]. *)
Definition is_text (s : string) : Prop := string_of (Utf8.chars s) = s.

(** ** Lemmas *)

Section SplitLemmas.
Context {St : Type} (consume : St → list string → QidResult St).

(** Inside quotes, the printed characters of a field are its characters. *)
Lemma split_quoted cs : ∀ rest row field st,
  starts_with_char QUOTE rest = false →
  split_loop consume (concat (map (fun c => if c =? QUOTE then [QUOTE; QUOTE] else [c]) cs) ++ QUOTE :: rest) row field Quoted st =
  split_loop consume rest row (field ++ cs) Closed st.
Proof.
  induction cs as [|c cs IH]; intros rest row field st Hr; cbn [map concat app].
  - cbn. rewrite app_nil_r. destruct rest as [|c2 rest]; [done|]. cbn in Hr. by rewrite Hr.
  - destruct (N.eqb_spec c QUOTE) as [->|Hc]; cbn.
    + rewrite IH by done. by rewrite <- app_assoc.
    + rewrite (proj2 (N.eqb_neq c QUOTE) Hc). rewrite IH by done. by rewrite <- app_assoc.
Qed.

Lemma split_field cs rest row st :
  starts_with_char QUOTE rest = false →
  split_loop consume (print_field cs ++ rest) row [] Start st = split_loop consume rest row cs Closed st.
Proof. intros Hr. unfold print_field. cbn. rewrite <- app_assoc. cbn. by rewrite split_quoted. Qed.

Lemma split_row fields rest : ∀ row st,
  fields ≠ [] → Forall is_text fields →
  split_loop consume (print_row fields ++ rest) row [] Start st =
  (let? st' := consume st (row ++ fields) in split_loop consume rest [] [] Start st').
Proof.
  induction fields as [|f fields IH]; intros row st Hne Ht; [done|]. apply Forall_cons in Ht as [Hf Ht].
  destruct fields as [|g fields].
  - cbn [print_row]. rewrite <- app_assoc. rewrite split_field by done. cbn. by rewrite Hf.
  - change (print_row (f :: g :: fields)) with (print_field (Utf8.chars f) ++ COMMA :: print_row (g :: fields)).
    rewrite <- app_assoc. rewrite split_field by done.
    transitivity (split_loop consume (print_row (g :: fields) ++ rest) (row ++ [f]) [] Start st).
    + cbn [app]. set (more := print_row (g :: fields) ++ rest). cbn. by rewrite Hf.
    + rewrite IH by done. by rewrite <- app_assoc.
Qed.

(** Splitting what was printed hands over the rows, one by one. *)
Lemma split_print rows : ∀ st,
  Forall (fun r => r ≠ [] ∧ Forall is_text r) rows → split_csv_rows consume (print_rows rows) st = res_foldl consume st rows.
Proof.
  unfold split_csv_rows, print_rows. induction rows as [|r rows IH]; intros st Hr; [done|].
  apply Forall_cons in Hr as [[Hne Ht] Hr]. cbn. rewrite split_row by done. cbn.
  destruct (consume st r); cbn; [by apply IH|done].
Qed.
End SplitLemmas.


(** ** Texts *)

Lemma str_bytes_bytes_str bs : Forall (fun b => b < 256) bs → Utf8.str_bytes (Utf8.bytes_str bs) = bs.
Proof. induction 1 as [|b bs Hb _ IH]; cbn; [done|]. by rewrite Ascii.N_ascii_embedding, IH. Qed.

Lemma encode_bytes cs : Forall (fun c => Utf8.is_scalar c = true) cs → Forall (fun b => b < 256) (Utf8.encode cs).
Proof.
  unfold Utf8.encode. induction 1 as [|c cs Hc _ IH]; cbn; [constructor|]. apply Forall_app. split; [|done].
  unfold Utf8.is_scalar in Hc. apply orb_true_iff in Hc. rewrite andb_true_iff, N.ltb_lt, !N.leb_le in Hc.
  unfold Utf8.encode_char. repeat case_match; repeat constructor;
    repeat match goal with H : (_ <? _) = true |- _ => apply N.ltb_lt in H | H : (_ <? _) = false |- _ => apply N.ltb_ge in H end;
    pose proof (N.mod_upper_bound c 64 ltac:(done)); try lia; (Z.to_euclidean_division_equations || idtac); lia.
Qed.

Lemma chars_string_of cs : Forall (fun c => Utf8.is_scalar c = true) cs → Utf8.chars (string_of cs) = cs.
Proof.
  intros Hs. unfold Utf8.chars, string_of. by rewrite str_bytes_bytes_str, Utf8.decode_encode by (try apply encode_bytes; done).
Qed.

Lemma chars_scalar s : Forall (fun c => Utf8.is_scalar c = true) (Utf8.chars s).
Proof.
  unfold Utf8.chars. destruct (Utf8.decode (Utf8.str_bytes s)) as [cs|] eqn:E; [|constructor].
  by apply Utf8.decode_scalar in E as [? _].
Qed.

Lemma trim_start_Forall (P : Utf8.char → Prop) cs : Forall P cs → Forall P (Utf8.trim_start cs).
Proof. induction 1; cbn; [constructor|]. case_match; [done|by constructor]. Qed.

Lemma trimmed_text s : Utf8.trim_str s = s → is_text s.
Proof.
  intros Ht. unfold Utf8.trim_str in Ht. fold (string_of (Utf8.trim (Utf8.chars s))) in Ht. unfold is_text.
  assert (Forall (fun c => Utf8.is_scalar c = true) (Utf8.trim (Utf8.chars s))) as Hs.
  { unfold Utf8.trim. apply Forall_rev, trim_start_Forall, Forall_rev, trim_start_Forall, chars_scalar. }
  rewrite <- Ht at 1. rewrite chars_string_of by done. exact Ht.
Qed.

#[local] Arguments Utf8.trim_str : simpl never.
#[local] Arguments Utf8.chars : simpl never.
#[local] Arguments optional_field : simpl never.

(** ** Round trip *)

Definition csv_header_row : list string :=
  ["external_id"; "email"; "display_name"; "department"; "manager_external_id"; "event"; "username"].

Definition event_str (e : LifecycleEvent) : string := match e with Joiner => "joiner" | Mover => "mover" | Leaver => "leaver" end.

Definition record_row (r : HrRecord) : list string :=
  [hr_external_id r; default "" (hr_email r); default "" (hr_display_name r); default "" (hr_department r);
   default "" (hr_manager_external_id r); event_str (hr_event r); hr_user_name r].

Definition print_hr_records (rs : list HrRecord) : string := string_of (print_rows (csv_header_row :: map record_row rs)).

(** A value a field can carry: not empty, without white space around it, without NUL. *)
Definition field_value (s : string) : Prop := s ≠ "" ∧ Utf8.trim_str s = s ∧ 0 ∉ Utf8.chars s.

Definition printable (r : HrRecord) : Prop :=
  field_value (hr_external_id r) ∧ field_value (hr_user_name r) ∧
  ∀ s, Some s ∈ [hr_email r; hr_display_name r; hr_department r; hr_manager_external_id r] → field_value s.

Lemma optional_field_value o : (∀ s, o = Some s → field_value s) → optional_field (default "" o) = o.
Proof.
  intros Ho. unfold optional_field. destruct o as [s|]; [|done]. destruct (Ho s eq_refl) as (Hne & Ht & _).
  cbn. rewrite Ht. unfold is_empty_str. by rewrite (proj2 (String.eqb_neq s "")).
Qed.

Lemma record_row_texts r : printable r → Forall (fun f => is_text f ∧ 0 ∉ Utf8.chars f) (record_row r).
Proof.
  intros (H1 & H2 & Ho).
  assert (∀ s, field_value s → is_text s ∧ 0 ∉ Utf8.chars s) as Hf by (intros s (_ & Ht & Hn); split; [by apply trimmed_text|done]).
  assert (∀ o, (∀ s, o = Some s → field_value s) → is_text (default "" o) ∧ 0 ∉ Utf8.chars (default "" o)) as Hop.
  { intros [s|] Hs; cbn; [by apply Hf, Hs|]. split; [done|by intros ?%not_elem_of_nil]. }
  unfold record_row. repeat (apply Forall_cons; split); [by apply Hf| | | | | |by apply Hf|constructor].
  1, 2, 3, 4: apply Hop; intros s Hs; apply Ho; rewrite <- Hs; set_solver.
  destruct (hr_event r); (split; [by vm_compute|]); intros Hin; apply list_elem_of_In in Hin; vm_compute in Hin; naive_solver.
Qed.

Section RoundTrip.
Context (to_lowercase : string → string).
Hypothesis lowercase_ascii : ∀ s, Forall (fun b => b < 128) (Utf8.str_bytes s) → to_lowercase s = to_ascii_lowercase s.

Lemma check_columns_Ok names : ∀ seen : gset string,
  NoDup (map (fun n => to_lowercase (Utf8.trim_str n)) names) →
  (∀ n, n ∈ names → to_lowercase (Utf8.trim_str n) ∉ seen) → ∃ seen', res_foldl (check_column to_lowercase) seen names = Ok seen'.
Proof.
  induction names as [|n names IH]; intros seen Hnd Hs; cbn; [eauto|]. apply NoDup_cons in Hnd as [Hn Hnd].
  unfold check_column at 1. rewrite bool_decide_eq_false_2 by (apply Hs; left). cbn. apply IH; [done|].
  intros m Hm [He%elem_of_singleton|Hin]%elem_of_union; [|by apply (Hs m); [right|]]. apply Hn. rewrite <- He. apply elem_of_map. eauto.
Qed.

Lemma header_columns :
  hr_columns to_lowercase csv_header_row =
  Ok {| col_external_id := 0; col_email := 1; col_display_name := 2; col_department := 3; col_manager_external_id := 4;
        col_event := 5; col_username := Some 6%nat |}.
Proof.
  assert (∃ seen, res_foldl (check_column to_lowercase) ∅ csv_header_row = Ok seen) as [seen Hs].
  { apply check_columns_Ok; [|intros n _; apply not_elem_of_empty]. cbn [map csv_header_row].
    rewrite !lowercase_ascii by (vm_compute; repeat constructor). apply (bool_decide_unpack _). by vm_compute. }
  unfold hr_columns. rewrite Hs. by vm_compute.
Qed.

Lemma record_row_parses r lineno : printable r →
  hr_record to_lowercase (record_row r)
    {| col_external_id := 0; col_email := 1; col_display_name := 2; col_department := 3; col_manager_external_id := 4;
       col_event := 5; col_username := Some 6%nat |} lineno = Ok r.
Proof.
  intros ((He & Het & _) & (Hu & Hut & _) & Ho). unfold hr_record, row_at. cbn.
  rewrite Het, Hut. unfold is_empty_str. rewrite (proj2 (String.eqb_neq _ "") He), (proj2 (String.eqb_neq _ "") Hu).
  rewrite lowercase_ascii by (destruct (hr_event r); vm_compute; repeat constructor).
  rewrite !optional_field_value by (intros s Hs; apply Ho; rewrite <- Hs; set_solver).
  destruct r as [x n em dn_ dp mg ev]. cbn. by destruct ev.
Qed.

Lemma rows_parse max_records rs : ∀ done_ lineno columns,
  columns = {| col_external_id := 0; col_email := 1; col_display_name := 2; col_department := 3; col_manager_external_id := 4;
       col_event := 5; col_username := Some 6%nat |} →
  Forall printable rs → N.of_nat (length (done_ ++ rs)) ≤ max_records →
  ∃ n, res_foldl (csv_row to_lowercase max_records)
    {| csv_header := Some (columns, 7%nat); csv_records := done_; csv_lineno := lineno |} (map record_row rs) =
  Ok {| csv_header := Some (columns, 7%nat); csv_records := done_ ++ rs; csv_lineno := n |}.
Proof.
  induction rs as [|r rs IH]; intros done_ lineno columns Hc Hp Hlen; cbn [map res_foldl].
  { exists lineno. by rewrite app_nil_r. }
  apply Forall_cons in Hp as [Hr Hp]. pose proof Hr as ((He & Het & _) & _).
  assert (csv_row to_lowercase max_records {| csv_header := Some (columns, 7%nat); csv_records := done_; csv_lineno := lineno |} (record_row r) =
    Ok {| csv_header := Some (columns, 7%nat); csv_records := done_ ++ [r]; csv_lineno := lineno + 1 |}) as ->.
  { unfold csv_row. cbn [csv_header csv_records csv_lineno].
    replace (forallb _ (record_row r)) with false by (cbn; rewrite Het; unfold is_empty_str; by rewrite (proj2 (String.eqb_neq _ "") He)).
    cbn [length record_row Nat.eqb negb]. subst columns. rewrite (record_row_parses r) by done. cbn [res_bind].
    rewrite length_app in Hlen. cbn in Hlen. rewrite (proj2 (N.eqb_neq (N.of_nat (length done_)) max_records)) by lia. done. }
  cbn [res_bind]. destruct (IH (done_ ++ [r]) (lineno + 1) columns Hc Hp) as [n Hn]; [by rewrite <- app_assoc|].
  exists n. by rewrite Hn, <- app_assoc.
Qed.

Lemma print_field_chars (P : Utf8.char → Prop) cs : P QUOTE → Forall P cs → Forall P (print_field cs).
Proof.
  intros Hq Hcs. unfold print_field. constructor; [done|]. apply Forall_app. split; [|by constructor].
  induction Hcs as [|c cs Hc _ IH]; cbn; [constructor|]. apply Forall_app. split; [|done]. case_match; by repeat constructor.
Qed.

Lemma print_rows_chars (P : Utf8.char → Prop) rows :
  P QUOTE → P COMMA → P CR → P LF → Forall (Forall (fun f => Forall P (Utf8.chars f))) rows → Forall P (print_rows rows).
Proof.
  intros Hq Hc Hr Hl. unfold print_rows. induction 1 as [|row rows Hrow _ IH]; cbn; [constructor|].
  apply Forall_app. split; [|done]. induction Hrow as [|f fs Hf Hfs IHf]; [constructor|].
  destruct fs as [|g fs].
  - change (print_row [f]) with (print_field (Utf8.chars f) ++ [CR; LF]). apply Forall_app.
    split; [by apply print_field_chars|by repeat constructor].
  - change (print_row (f :: g :: fs)) with (print_field (Utf8.chars f) ++ COMMA :: print_row (g :: fs)).
    apply Forall_app. split; [by apply print_field_chars|by constructor].
Qed.

(** C31: Records written to CSV are read back exactly.  For records whose values carry no surrounding
    white space and no NUL (any other text: commas, quotes, line breaks, any Unicode), written with
    every field quoted, the parser returns the same records in the same order, provided the text
    and the count are within the limits. *)
Theorem csv_roundtrip rs max_records :
  Forall printable rs → N.of_nat (length rs) ≤ max_records →
  N.of_nat (String.length (print_hr_records rs)) ≤ MAX_CSV_HR_FILE_BYTES →
  parse_csv_hr_records_with_limit to_lowercase (print_hr_records rs) max_records = Ok rs.
Proof.
  intros Hp Hmax Hsize. unfold parse_csv_hr_records_with_limit, check_csv_size.
  rewrite (proj2 (N.ltb_ge _ _) Hsize). cbn [res_bind].
  set (rows := csv_header_row :: map record_row rs).
  assert (Forall (fun r => r ≠ [] ∧ Forall (fun f => is_text f ∧ 0 ∉ Utf8.chars f) r) rows) as Hrows.
  { constructor.
    - split; [done|]. unfold csv_header_row. repeat (apply Forall_cons; split); try constructor; try by vm_compute.
      all: intros Hin; apply list_elem_of_In in Hin; vm_compute in Hin; naive_solver.
    - apply Forall_forall. intros row (r & -> & Hr)%elem_of_map. rewrite Forall_forall in Hp. split; [done|]. by apply record_row_texts, Hp. }
  assert (Utf8.chars (print_hr_records rs) = print_rows rows) as ->.
  { apply chars_string_of, print_rows_chars; [done..|]. apply Forall_forall. intros row _. apply Forall_forall. intros f _. apply chars_scalar. }
  assert (Forall (fun c => (0 =? c) = false) (print_rows rows)) as Hnul.
  { apply print_rows_chars; [done..|]. eapply Forall_impl; [exact Hrows|]. intros row [_ Hrow]. eapply Forall_impl; [exact Hrow|].
    intros f [_ Hf]. apply Forall_forall. intros c Hc. apply N.eqb_neq. intros <-. done. }
  replace (existsb (N.eqb 0) (print_rows rows)) with false.
  2: { symmetry. apply existsb_false. by rewrite Forall_forall in Hnul. }
  change (strip_bom (print_rows rows)) with (print_rows rows). rewrite split_print.
  2: { eapply Forall_impl; [exact Hrows|]. intros row [? Hrow]. split; [done|]. eapply Forall_impl; [exact Hrow|]. by intros f [? _]. }
  unfold rows. cbn [res_foldl]. unfold csv_row at 1. cbn [csv_header csv_records csv_lineno]. rewrite header_columns. cbn [res_bind].
  destruct (rows_parse max_records rs [] (0 + 1) _ eq_refl Hp Hmax) as [n Hn]. cbn in Hn |- *. rewrite Hn. done.
Qed.
End RoundTrip.

(** ** A witness *)

Definition ex_hr : list HrRecord :=
  [{| hr_external_id := "e,1"; hr_user_name := "ann"; hr_email := None; hr_display_name := Some "Ann, A."; hr_department := None;
      hr_manager_external_id := Some "e2"; hr_event := Mover |};
   {| hr_external_id := "e2"; hr_user_name := "bob"; hr_email := Some "b@x"; hr_display_name := None; hr_department := None;
      hr_manager_external_id := None; hr_event := Leaver |}].

(** The conditions on a value and on a record, decided. *)
Definition field_ok (s : string) : bool :=
  negb (is_empty_str s) && String.eqb (Utf8.trim_str s) s && negb (existsb (N.eqb 0) (Utf8.chars s)).
Definition printable_ok (r : HrRecord) : bool :=
  field_ok (hr_external_id r) && field_ok (hr_user_name r)
  && forallb (fun o => match o with Some s => field_ok s | None => true end)
       [hr_email r; hr_display_name r; hr_department r; hr_manager_external_id r].

Lemma printable_ok_spec rs : forallb printable_ok rs = true → Forall printable rs.
Proof.
  assert (∀ s, field_ok s = true → field_value s) as Hf.
  { intros s. unfold field_ok. rewrite !andb_true_iff, !negb_true_iff. intros [[H1 H2%String.eqb_eq] H3]. split; [|split; [done|]].
    - by intros ->.
    - intros Hin. rewrite existsb_false in H3. by specialize (H3 0 Hin). }
  rewrite forallb_elem_of, Forall_forall. intros Hall r Hr. specialize (Hall r Hr). unfold printable_ok in Hall.
  rewrite !andb_true_iff, forallb_elem_of in Hall. destruct Hall as [[H1 H2] H3]. split; [auto|]. split; [auto|].
  intros s Hs. apply Hf. exact (H3 (Some s) Hs).
Qed.

Lemma csv_roundtrip_witness :
  parse_csv_hr_records_with_limit to_ascii_lowercase (print_hr_records ex_hr) 10 = Ok ex_hr.
Proof.
  apply (csv_roundtrip to_ascii_lowercase (fun s _ => eq_refl) ex_hr 10); [|by vm_compute..].
  apply printable_ok_spec. by vm_compute.
Defined.

End Csv.
