(* ===== verification/StatusList.v ===== *)
(** The bitstring status list of verifiable credentials (src/qid-vc/src/bitstring_status_list.rs):
    the list of revocation bits, packed most significant bit first, compressed and encoded.

    GZIP, base64url, the JSON writer and the fresh ULID are third-party code and parameters; what
    the code relies on is that decoding inverts encoding. *)

From S2P Require Import Prelude.

Module StatusList.

Record BitstringStatusListCredential : Type := {
  bs_id : string;
  bs_issuer : string;
  valid_from : option N;
  valid_until : option N;
  status_purpose : string;
  encoded_list : string;
  bs_ttl : option N
}.

Definition STATUS_PURPOSE_REVOCATION : string := "revocation".
Definition STATUS_SET : N := 1.

Definition revocation_list_uri (c : BitstringStatusListCredential) : string := bs_id c.
Definition revocation_purpose (c : BitstringStatusListCredential) : bool := String.eqb (status_purpose c) STATUS_PURPOSE_REVOCATION.

(** The byte of a chunk: entry [idx] of the chunk is bit [7 - idx]. *)
Fixpoint pack_byte (idx : N) (chunk : list bool) (byte : N) : N :=
  match chunk with
  | [] => byte
  | value :: rest => pack_byte (idx + 1) rest (if value then N.lor byte (N.shiftl 1 (7 - idx)) else byte)
  end.

(** [slice::chunks(8)], with as much fuel as there are entries. *)
Fixpoint chunks8 (fuel : nat) (l : list bool) : list (list bool) :=
  match fuel, l with
  | _, [] => []
  | O, _ => []
  | S fuel, _ => take 8 l :: chunks8 fuel (drop 8 l)
  end.

Definition pack (entries : list bool) : list N := map (fun c => pack_byte 0 c 0) (chunks8 (length entries) entries).

(** [(byte >> bit_index) & 1 == STATUS_SET] *)
Definition read_bit (byte bit_index : N) : bool := N.land (N.shiftr byte bit_index) 1 =? STATUS_SET.

(** [byte |= 1 << bit_index] or [byte &= !(1 << bit_index)] on a [u8]. *)
Definition write_bit (byte bit_index : N) (value : bool) : N :=
  if value then N.lor byte (N.shiftl 1 bit_index) else N.land byte (N.lxor 255 (N.shiftl 1 bit_index)).

Section StatusList.
Context (b64_encode : list N → string) (b64_decode : string → result (list N) string)
  (gz_encode : list N → list N) (gz_decode : list N → result (list N) string)
  (to_json : BitstringStatusListCredential → string).

Definition encode_bitstring_status_list (fresh : string) (entries : list bool) (issuer : string) (from : N) : string :=
  to_json {| bs_id := "urn:uuid:" +:+ fresh; bs_issuer := issuer; valid_from := Some from; valid_until := None;
             status_purpose := STATUS_PURPOSE_REVOCATION; encoded_list := b64_encode (gz_encode (pack entries));
             bs_ttl := Some 86400 |}.

(** The bytes of an encoded list. *)
Definition list_bytes (encoded : string) : QidResult (list N) :=
  let? compressed := map_err (fun e => Internal ("Bitstring Status List base64 decode failed: " +:+ e)) (b64_decode encoded) in
  map_err (fun e => Internal ("Bitstring Status List GZIP decompress failed: " +:+ e)) (gz_decode compressed).

Definition out_of_range (index : N) : QidError :=
  Internal ("Bitstring Status List index " +:+ pretty index +:+ " is out of range").

Definition decode_bitstring_status_entry (encoded : string) (index : N) : QidResult bool :=
  let? bytes := list_bytes encoded in
  let byte_index := index / 8 in
  let bit_index := 7 - index mod 8 in
  let? byte := ok_or (bytes !! N.to_nat byte_index) (out_of_range index) in
  Ok (read_bit byte bit_index).

Definition set_bitstring_status_entry (encoded : string) (index : N) (value : bool) : QidResult string :=
  let? bytes := list_bytes encoded in
  let byte_index := index / 8 in
  let bit_index := 7 - index mod 8 in
  if N.of_nat (length bytes) <=? byte_index then Err (out_of_range index)
  else Ok (b64_encode (gz_encode (alter (fun b => write_bit b bit_index value) (N.to_nat byte_index) bytes))).

(** * Lemmas *)

Lemma read_bit_spec byte k : read_bit byte k = N.testbit byte k.
Proof.
  unfold read_bit, STATUS_SET. change 1 with (N.ones 1) at 1. rewrite N.land_ones. change (2 ^ 1) with 2.
  rewrite <- N.bit0_mod, N.shiftr_spec, N.add_0_l by lia. by destruct (N.testbit byte k).
Qed.

Lemma write_bit_spec byte k value j : k < 8 → byte < 256 →
  N.testbit (write_bit byte k value) j = if j =? k then value else N.testbit byte j.
Proof.
  intros Hk Hb. unfold write_bit. rewrite N.shiftl_1_l. destruct value.
  - rewrite N.lor_spec, N.pow2_bits_eqb, N.eqb_sym. destruct (j =? k); [by rewrite orb_true_r|by rewrite orb_false_r].
  - rewrite N.land_spec, N.lxor_spec, N.pow2_bits_eqb, N.eqb_sym. change 255 with (N.ones 8).
    destruct (N.eqb_spec j k) as [->|Hne].
    + rewrite N.ones_spec_low by done. by rewrite andb_false_r.
    + rewrite xorb_false_r. destruct (N.ltb_spec j 8); [rewrite N.ones_spec_low by done; by rewrite andb_true_r|].
      rewrite N.ones_spec_high by done. rewrite andb_false_r. symmetry.
      destruct (N.eq_dec byte 0) as [->|]; [apply N.bits_0|]. apply N.bits_above_log2.
      apply N.log2_lt_pow2; [lia|]. eapply N.lt_le_trans; [exact Hb|]. change 256 with (2 ^ 8). by apply N.pow_le_mono_r.
Qed.

Lemma write_bit_byte byte k value : k < 8 → byte < 256 → write_bit byte k value < 256.
Proof.
  intros Hk Hb. destruct (N.eq_dec (write_bit byte k value) 0) as [->|Hn]; [done|].
  change 256 with (2 ^ 8). apply N.log2_lt_pow2; [lia|]. destruct (N.lt_ge_cases (N.log2 (write_bit byte k value)) 8) as [|Hge]; [done|].
  exfalso. pose proof (N.bit_log2 _ Hn) as Hbit. rewrite write_bit_spec in Hbit by done.
  rewrite (proj2 (N.eqb_neq _ k)) in Hbit by lia.
  destruct (N.eq_dec byte 0) as [->|Hb0]; [by rewrite N.bits_0 in Hbit|]. rewrite N.bits_above_log2 in Hbit; [done|].
  eapply N.lt_le_trans; [|exact Hge]. apply N.log2_lt_pow2; [lia|exact Hb].
Qed.

Lemma pack_byte_spec chunk : ∀ idx byte, idx + N.of_nat (length chunk) ≤ 8 → byte < 256 →
  (∀ j, j < 8 - idx → N.testbit byte j = false) →
  pack_byte idx chunk byte < 256 ∧
  ∀ j, N.testbit (pack_byte idx chunk byte) j =
    if (7 <? j) || (8 - idx <=? j) then N.testbit byte j else default false (chunk !! N.to_nat (7 - idx - j)).
Proof.
  induction chunk as [|v chunk IH]; intros idx byte Hlen Hb Hz; cbn [pack_byte length] in *.
  - split; [done|]. intros j. destruct (_ || _) eqn:E; [done|]. apply orb_false_iff in E as [E1%N.ltb_ge E2%N.leb_gt].
    cbn. by apply Hz.
  - set (byte' := if v then _ else byte).
    assert (byte' < 256 ∧ ∀ j, N.testbit byte' j = if j =? 7 - idx then v else N.testbit byte j) as [Hb' Hbit].
    { unfold byte'. destruct v.
      - split; [exact (write_bit_byte byte (7 - idx) true ltac:(lia) Hb)|]. intros j. exact (write_bit_spec byte (7 - idx) true j ltac:(lia) Hb).
      - split; [done|]. intros j. destruct (N.eqb_spec j (7 - idx)) as [->|]; [|done]. apply Hz. lia. }
    destruct (IH (idx + 1) byte') as [Hlt Hall]; [lia|done| |].
    { intros j Hj. rewrite Hbit. destruct (N.eqb_spec j (7 - idx)); [lia|]. apply Hz. lia. }
    split; [done|]. intros j. rewrite Hall, Hbit.
    destruct (N.ltb_spec 7 j); cbn [orb]; [destruct (N.eqb_spec j (7 - idx)); [lia|done]|].
    destruct (N.leb_spec (8 - idx) j); destruct (N.leb_spec (8 - (idx + 1)) j); try lia; cbn [orb].
    + destruct (N.eqb_spec j (7 - idx)); [lia|done].
    + destruct (N.eqb_spec j (7 - idx)); [|lia]. replace (7 - idx - j) with 0 by lia. done.
    + replace (N.to_nat (7 - idx - j)) with (S (N.to_nat (7 - (idx + 1) - j))) by lia. done.
Qed.

Lemma chunks8_lookup fuel : ∀ l i, (length l ≤ fuel)%nat →
  chunks8 fuel l !! i = if (8 * i <? length l)%nat then Some (take 8 (drop (8 * i) l)) else None.
Proof.
  induction fuel as [|fuel IH]; intros l i Hl.
  - destruct l; [|cbn in Hl; lia]. by destruct (Nat.ltb_spec (8 * i) (length (@nil bool))); [cbn in *; lia|].
  - destruct l as [|x l]; [by destruct (Nat.ltb_spec (8 * i) (length (@nil bool))); [cbn in *; lia|]|].
    cbn [chunks8]. destruct i as [|i]; [done|]. cbn [lookup list_lookup]. change (list_lookup i) with (lookup (M := list (list bool)) i).
    rewrite IH by (rewrite length_drop; cbn in *; lia). rewrite drop_drop, length_drop.
    replace (8 + 8 * i)%nat with (8 * S i)%nat by lia.
    destruct (Nat.ltb_spec (8 * i) (length (x :: l) - 8)), (Nat.ltb_spec (8 * S i) (length (x :: l))); try lia; done.
Qed.

(** The bit of an index in the packed list: the entry, or clear in the padding of the last byte. *)
Lemma pack_lookup entries index :
  (pack entries !! N.to_nat (index / 8) = None ∧ N.of_nat (length entries) ≤ 8 * (index / 8)) ∨
  ∃ byte, pack entries !! N.to_nat (index / 8) = Some byte ∧ byte < 256 ∧ 8 * (index / 8) < N.of_nat (length entries) ∧
    N.testbit byte (7 - index mod 8) = default false (entries !! N.to_nat index).
Proof.
  unfold pack. rewrite list_lookup_fmap, chunks8_lookup by done. pose proof (N.div_mod index 8 ltac:(done)) as Hdm.
  pose proof (N.mod_lt index 8 ltac:(done)) as Hm. revert Hdm Hm. generalize (index / 8) (index mod 8). intros d m Hdm Hm.
  destruct (Nat.ltb_spec (8 * N.to_nat d) (length entries)) as [Hlt|Hge]; [right|left; split; [done|lia]].
  eexists. split; [done|]. set (chunk := take 8 _).
  assert (N.of_nat (length chunk) ≤ 8) by (unfold chunk; rewrite length_take; lia).
  destruct (pack_byte_spec chunk 0 0) as [Hb Hbit]; [lia|lia|intros; apply N.bits_0|].
  split; [done|]. split; [lia|]. rewrite Hbit. clear Hbit Hb.
  rewrite (proj2 (N.ltb_ge 7 (7 - m))) by lia. rewrite (proj2 (N.leb_gt (8 - 0) (7 - m))) by lia. cbn [orb].
  replace (7 - 0 - (7 - m)) with (m) by lia. f_equal. unfold chunk.
  rewrite lookup_take_lt by lia. rewrite lookup_drop.
  by replace (8 * N.to_nat d + N.to_nat (m))%nat with (N.to_nat index) by lia.
Qed.

Lemma pack_bytes entries : Forall (fun b => b < 256) (pack entries).
Proof.
  unfold pack. apply Forall_forall. intros b (chunk & -> & Hc)%elem_of_map.
  apply list_elem_of_lookup in Hc as [i Hi]. rewrite chunks8_lookup in Hi by done. case_match; [|done]. injection Hi as <-.
  apply (pack_byte_spec (take 8 (drop (8 * i) entries)) 0 0); [rewrite length_take; lia|lia|intros; apply N.bits_0].
Qed.

Lemma pack_length entries : length (pack entries) = ((length entries + 7) / 8)%nat.
Proof.
  unfold pack. rewrite length_map. set (m := chunks8 _ entries).
  assert (∀ i, (i < length m)%nat ↔ (8 * i < length entries)%nat) as Hm.
  { intros i. rewrite <- lookup_lt_is_Some. unfold m. rewrite chunks8_lookup by done.
    destruct (Nat.ltb_spec (8 * i) (length entries)); [split; eauto|]. split; [by intros [? ?]|lia]. }
  pose proof (proj2 (Nat.le_ngt _ _) (fun H => Nat.lt_irrefl _ (proj2 (Hm (length m)) H))) as Hge.
  assert (length m = 0 ∨ 8 * (length m - 1) < length entries)%nat as Hlt.
  { destruct (Nat.eq_dec (length m) 0%nat) as [|Hn]; [by left|]. right. apply Hm. lia. }
  apply (Nat.div_unique _ 8 _ (length entries + 7 - 8 * length m)); lia.
Qed.

Lemma bit_index_lt index : 7 - index mod 8 < 8.
Proof. eapply N.le_lt_trans; [apply N.le_sub_l|done]. Qed.

Lemma bit_index_inj i j : i / 8 = j / 8 → 7 - i mod 8 = 7 - j mod 8 → i = j.
Proof.
  pose proof (N.div_mod i 8 ltac:(done)) as Hi. pose proof (N.div_mod j 8 ltac:(done)) as Hj.
  pose proof (N.mod_lt i 8 ltac:(done)) as Mi. pose proof (N.mod_lt j 8 ltac:(done)) as Mj.
  revert Hi Hj Mi Mj. generalize (i / 8) (i mod 8) (j / 8) (j mod 8). lia.
Qed.

Section Laws.
Abbreviation bytes_ok := (Forall (fun b => b < 256)).
Hypothesis b64_inverse : ∀ bs, bytes_ok bs → b64_decode (b64_encode bs) = Ok bs.
Hypothesis gz_inverse : ∀ bs, bytes_ok bs → gz_decode (gz_encode bs) = Ok bs.
Hypothesis gz_bytes : ∀ bs, bytes_ok bs → bytes_ok (gz_encode bs).

Lemma list_bytes_encoded bs : bytes_ok bs → list_bytes (b64_encode (gz_encode bs)) = Ok bs.
Proof. intros Hb. unfold list_bytes. rewrite b64_inverse by auto. cbn. by rewrite gz_inverse. Qed.

(** A list of entries and the text it is kept as, after any number of updates. *)
Inductive represents (n : nat) : string → (N → bool) → Prop :=
| rep_pack entries : n = length entries →
    represents n (b64_encode (gz_encode (pack entries))) (fun i => default false (entries !! N.to_nat i))
| rep_set s f index value s' : represents n s f → set_bitstring_status_entry s index value = Ok s' →
    represents n s' (fun i => if i =? index then value else f i).

(** The bytes behind a represented list. *)
Lemma represents_bytes n s f : represents n s f →
  ∃ bytes, list_bytes s = Ok bytes ∧ length bytes = ((n + 7) / 8)%nat ∧ Forall (fun b => b < 256) bytes ∧
    ∀ i byte, bytes !! N.to_nat (i / 8) = Some byte → N.testbit byte (7 - i mod 8) = f i.
Proof.
  induction 1 as [entries ->|s f index value s' _ (bytes & Hb & Hl & Hby & Hf) Hs].
  - exists (pack entries). split; [apply list_bytes_encoded, pack_bytes|]. split; [apply pack_length|]. split; [apply pack_bytes|].
    intros i byte Hi. destruct (pack_lookup entries i) as [[Hn _]|(b & Hb & _ & _ & Hbit)]; [congruence|].
    rewrite Hb in Hi. by injection Hi as <-.
  - unfold set_bitstring_status_entry in Hs. rewrite Hb in Hs. cbn in Hs. destruct (N.leb_spec (N.of_nat (length bytes)) (index / 8)); [done|].
    injection Hs as <-.
    assert (bytes_ok (alter (fun b => write_bit b (7 - index mod 8) value) (N.to_nat (index / 8)) bytes)) as Hok.
    { apply Forall_alter; [done|]. intros b Hlk Hb256. apply write_bit_byte; [apply bit_index_lt|done]. }
    eexists. split; [by apply list_bytes_encoded|]. split; [by rewrite length_alter|]. split; [done|].
    intros i byte Hi. destruct (N.eq_dec (i / 8) (index / 8)) as [Ed|Ed].
    + rewrite Ed, list_lookup_alter_eq in Hi. destruct (bytes !! N.to_nat (index / 8)) as [b|] eqn:Eb; [|done]. injection Hi as <-.
      rewrite Forall_forall in Hby. pose proof (Hby b (list_elem_of_lookup_2 _ _ _ Eb)).
      rewrite write_bit_spec by (apply bit_index_lt || done). rewrite <- (Hf i b) by (by rewrite Ed).
      destruct (N.eqb_spec i index) as [->|Hne]; [by rewrite N.eqb_refl|].
      destruct (N.eqb_spec (7 - i mod 8) (7 - index mod 8)) as [E|]; [|done]. by destruct Hne; apply bit_index_inj.
    + rewrite list_lookup_alter_ne in Hi by lia. destruct (N.eqb_spec i index) as [->|]; [done|]. by apply Hf.
Qed.

(** A status list keeps every entry.  Take the text of [n] entries and any updates made through
    [set_bitstring_status_entry] since: reading an index gives its last written value, its
    original one or, in the padding of the last byte, false; setting an index in range succeeds;
    an index past the last byte is refused by both. *)
Theorem status_list_correct n s f : represents n s f →
  let size := 8 * N.of_nat ((n + 7) / 8) in
  N.of_nat n ≤ size ∧
  (∀ i, i < size → decode_bitstring_status_entry s i = Ok (f i)) ∧
  (∀ i value, i < size → ∃ s', set_bitstring_status_entry s i value = Ok s') ∧
  (∀ i value, size ≤ i → decode_bitstring_status_entry s i = Err (out_of_range i) ∧
     set_bitstring_status_entry s i value = Err (out_of_range i)).
Proof.
  intros (bytes & Hb & Hl & _ & Hf)%represents_bytes size. unfold decode_bitstring_status_entry, set_bitstring_status_entry.
  rewrite Hb. cbn [res_bind]. unfold size. rewrite <- Hl.
  assert (∀ i, i < 8 * N.of_nat (length bytes) ↔ i / 8 < N.of_nat (length bytes)) as Hdiv.
  { intros i. pose proof (N.div_mod i 8 ltac:(done)) as Hi. pose proof (N.mod_lt i 8 ltac:(done)) as Mi.
    revert Hi Mi. generalize (i / 8) (i mod 8). lia. }
  split_and!.
  - rewrite Hl. pose proof (Nat.div_mod (n + 7) 8 ltac:(done)). pose proof (Nat.mod_upper_bound (n + 7) 8 ltac:(done)). lia.
  - intros i Hi%Hdiv. destruct (lookup_lt_is_Some_2 bytes (N.to_nat (i / 8))) as [byte Hbyte]; [lia|].
    rewrite Hbyte. cbn. by rewrite read_bit_spec, (Hf i byte).
  - intros i value Hi%Hdiv. rewrite (proj2 (N.leb_gt _ _) Hi). eauto.
  - intros i value Hi. assert (¬ i / 8 < N.of_nat (length bytes)) as Hn by (rewrite <- Hdiv; lia).
    rewrite (lookup_ge_None_2 bytes) by lia. rewrite (proj2 (N.leb_le _ _)) by lia. done.
Qed.
End Laws.
End StatusList.

(** * A witness *)

Definition ex_entries : list bool := [false; true; true; false; true; false; false; true; true].

(** An encoding that decodes: each number in unary. *)
Definition stop : Ascii.ascii := Ascii.ascii_of_N 48.
Definition tick : Ascii.ascii := Ascii.ascii_of_N 49.
Fixpoint unary (n : nat) (rest : string) : string := match n with O => String stop rest | S n => String tick (unary n rest) end.
Definition ex_encode (bs : list N) : string := foldr (fun b s => unary (N.to_nat b) s) "" bs.
Fixpoint ex_decode (n : N) (s : string) : list N :=
  match s with
  | EmptyString => []
  | String c rest => if Ascii.eqb c stop then n :: ex_decode 0 rest else ex_decode (n + 1) rest
  end.

Lemma ex_decode_unary n : ∀ k rest, ex_decode k (unary n rest) = (k + N.of_nat n) :: ex_decode 0 rest.
Proof.
  induction n as [|n IH]; intros k rest; cbn [unary ex_decode]; [cbn; f_equal; lia|].
  change (Ascii.eqb tick stop) with false. cbn iota. rewrite IH. f_equal. lia.
Qed.

Lemma ex_decode_encode bs : ex_decode 0 (ex_encode bs) = bs.
Proof. induction bs as [|b bs IH]; [done|]. cbn [ex_encode foldr]. rewrite ex_decode_unary. fold (ex_encode bs). rewrite IH. f_equal. lia. Qed.

Lemma status_list_correct_witness :
  ∃ s, set_bitstring_status_entry ex_encode (fun t => Ok (ex_decode 0 t)) id Ok (ex_encode (pack ex_entries)) 3 true = Ok s ∧
    decode_bitstring_status_entry (fun t => Ok (ex_decode 0 t)) Ok s 3 = Ok true ∧
    decode_bitstring_status_entry (fun t => Ok (ex_decode 0 t)) Ok s 8 = Ok true ∧
    decode_bitstring_status_entry (fun t => Ok (ex_decode 0 t)) Ok s 16 = Err (out_of_range 16).
Proof.
  assert (∃ s, set_bitstring_status_entry ex_encode (fun t => Ok (ex_decode 0 t)) id Ok (ex_encode (pack ex_entries)) 3 true = Ok s) as [s Hs].
  { eexists. vm_compute. reflexivity. }
  exists s. split; [exact Hs|].
  destruct (status_list_correct ex_encode (fun t => Ok (ex_decode 0 t)) id Ok
    (fun bs _ => f_equal Ok (ex_decode_encode bs)) (fun bs _ => eq_refl) (fun bs H => H) 9 _ _
    (rep_set _ _ _ _ 9 _ _ 3 true _ (rep_pack _ _ _ _ 9 ex_entries eq_refl) Hs)) as (_ & H1 & _ & H2).
  split; [exact (H1 3 ltac:(by vm_compute))|]. split; [exact (H1 8 ltac:(by vm_compute))|].
  exact (proj1 (H2 16 true ltac:(by vm_compute))).
Defined.

End StatusList.
