(* ===== verification/Ciam.v ===== *)
(** The CIAM tables of the file repository (src/qid-storage/src/file/ciam.rs, with the shared rules of
    src/qid-storage/src/domain/mod.rs and the records of src/qid-core/src/models/ciam.rs): consent
    grants, email and phone challenges, magic links, links to external identities, password-reset
    tokens and progressive profiles.

    The store holds the tables these operations touch, the users and passwords of Accounts.v among
    them.  [saved] is the outcome of the write that ends an operation: the challenges, the magic links
    and the immediate password reset write under the save lock and roll back when the write fails; the
    other operations keep their change in memory.  A task that is spawned to finish a write is the
    operation it runs. *)

From S2P Require Import Prelude Utf8 Json Push Tokens Accounts.
Import Accounts.

Module Ciam.

(** * Records *)

Record CiamConsentGrant : Type := {
  cg_id : string; cg_realm_id : string; cg_user_id : string; cg_client_id : string; granted_claims : list string;
  terms_version : option string; granted_at_epoch_seconds : N; cg_revoked : bool
}.

Record CiamVerificationChallengeRecord : Type := {
  vc_id : string; vc_realm_id : string; vc_user_id : string; channel : string; address : string; purpose : string;
  code_hash : string; vc_attempt_count : N; vc_expires_at : N; vc_consumed_at : option N; vc_created_at : N
}.

Section Ciam.
Context {Num : Type}.
Abbreviation J := (Value Num).

Record CiamIdentityLink : Type := {
  il_id : string; il_realm_id : string; il_user_id : string; provider : string; external_subject : string;
  external_email : option string; il_profile_json : J; linked_at_epoch_seconds : N; verified : bool
}.

Record CiamProgressiveProfile : Type := {
  pp_id : string; pp_realm_id : string; pp_user_id : string; pp_profile_json : J; passwordless_migrated_at : option N;
  pp_created_at : N; pp_updated_at : N
}.

Record PasswordResetToken : Type := {
  rt_id : string; rt_realm_id : string; rt_user_id : string; token_hash : string; rt_device_id : option string;
  risk_json : J; rt_expires_at : N; rt_consumed_at : option N; rt_created_at : N
}.

Record CiamStore : Type := {
  cs_users : gmap string User; cs_passwords : gmap string PasswordCredential;
  ciam_consent_grants : gmap string CiamConsentGrant;
  ciam_verification_challenges : gmap string CiamVerificationChallengeRecord;
  ciam_identity_links : gmap string CiamIdentityLink;
  password_reset_tokens : gmap string PasswordResetToken;
  ciam_profiles : gmap string CiamProgressiveProfile
}.

Definition with_grants (s : CiamStore) m : CiamStore :=
  {| cs_users := cs_users s; cs_passwords := cs_passwords s; ciam_consent_grants := m;
     ciam_verification_challenges := ciam_verification_challenges s; ciam_identity_links := ciam_identity_links s;
     password_reset_tokens := password_reset_tokens s; ciam_profiles := ciam_profiles s |}.
Definition with_challenges (s : CiamStore) m : CiamStore :=
  {| cs_users := cs_users s; cs_passwords := cs_passwords s; ciam_consent_grants := ciam_consent_grants s;
     ciam_verification_challenges := m; ciam_identity_links := ciam_identity_links s;
     password_reset_tokens := password_reset_tokens s; ciam_profiles := ciam_profiles s |}.
Definition with_links (s : CiamStore) m : CiamStore :=
  {| cs_users := cs_users s; cs_passwords := cs_passwords s; ciam_consent_grants := ciam_consent_grants s;
     ciam_verification_challenges := ciam_verification_challenges s; ciam_identity_links := m;
     password_reset_tokens := password_reset_tokens s; ciam_profiles := ciam_profiles s |}.
Definition with_resets (s : CiamStore) m : CiamStore :=
  {| cs_users := cs_users s; cs_passwords := cs_passwords s; ciam_consent_grants := ciam_consent_grants s;
     ciam_verification_challenges := ciam_verification_challenges s; ciam_identity_links := ciam_identity_links s;
     password_reset_tokens := m; ciam_profiles := ciam_profiles s |}.
Definition with_profiles (s : CiamStore) m : CiamStore :=
  {| cs_users := cs_users s; cs_passwords := cs_passwords s; ciam_consent_grants := ciam_consent_grants s;
     ciam_verification_challenges := ciam_verification_challenges s; ciam_identity_links := ciam_identity_links s;
     password_reset_tokens := password_reset_tokens s; ciam_profiles := m |}.
Definition with_users (s : CiamStore) m : CiamStore :=
  {| cs_users := m; cs_passwords := cs_passwords s; ciam_consent_grants := ciam_consent_grants s;
     ciam_verification_challenges := ciam_verification_challenges s; ciam_identity_links := ciam_identity_links s;
     password_reset_tokens := password_reset_tokens s; ciam_profiles := ciam_profiles s |}.
Definition with_passwords (s : CiamStore) m : CiamStore :=
  {| cs_users := cs_users s; cs_passwords := m; ciam_consent_grants := ciam_consent_grants s;
     ciam_verification_challenges := ciam_verification_challenges s; ciam_identity_links := ciam_identity_links s;
     password_reset_tokens := password_reset_tokens s; ciam_profiles := ciam_profiles s |}.

Definition is_object (v : J) : bool := match v with VObject _ => true | _ => false end.

(** * Validation (src/qid-core/src/models/ciam.rs) *)

Definition validate_consent (g : CiamConsentGrant) : QidResult unit :=
  Utf8.require_non_empty "CIAM consent id" (cg_id g) ?;
  Utf8.require_non_empty "CIAM consent realm_id" (cg_realm_id g) ?;
  Utf8.require_non_empty "CIAM consent user_id" (cg_user_id g) ?;
  Utf8.require_non_empty "CIAM consent client_id" (cg_client_id g) ?;
  if existsb Utf8.blank (granted_claims g)
  then Err (BadRequest "CIAM consent granted_claims must not contain empty values")
  else if granted_at_epoch_seconds g =? 0 then Err (BadRequest "CIAM consent granted_at_epoch_seconds must be set")
  else Ok tt.

Definition validate_challenge (c : CiamVerificationChallengeRecord) : QidResult unit :=
  Utf8.require_non_empty "CIAM verification id" (vc_id c) ?;
  Utf8.require_non_empty "CIAM verification realm_id" (vc_realm_id c) ?;
  Utf8.require_non_empty "CIAM verification user_id" (vc_user_id c) ?;
  Utf8.require_non_empty "CIAM verification address" (address c) ?;
  Utf8.require_non_empty "CIAM verification purpose" (purpose c) ?;
  Utf8.require_non_empty "CIAM verification code_hash" (code_hash c) ?;
  if negb (str_in (channel c) ["email"; "phone"]) then Err (BadRequest "CIAM verification channel must be email or phone")
  else if (vc_created_at c =? 0) || (vc_expires_at c <=? vc_created_at c)
  then Err (BadRequest "CIAM verification expiry must be after creation")
  else if match vc_consumed_at c with Some t => t <? vc_created_at c | None => false end
  then Err (BadRequest "CIAM verification consumed_at must not be before creation")
  else Ok tt.

Definition AT : Ascii.ascii := Ascii.ascii_of_N 64.

Definition validate_link (l : CiamIdentityLink) : QidResult unit :=
  Utf8.require_non_empty "CIAM identity link id" (il_id l) ?;
  Utf8.require_non_empty "CIAM identity link realm_id" (il_realm_id l) ?;
  Utf8.require_non_empty "CIAM identity link user_id" (il_user_id l) ?;
  Utf8.require_non_empty "CIAM identity link provider" (provider l) ?;
  Utf8.require_non_empty "CIAM identity link external_subject" (external_subject l) ?;
  if match external_email l with Some e => negb (str_contains AT e) || negb (String.eqb (Utf8.trim_str e) e) | None => false end
  then Err (BadRequest "CIAM identity link external_email must be a normalized email")
  else if negb (is_object (il_profile_json l)) then Err (BadRequest "CIAM identity link profile_json must be an object")
  else if linked_at_epoch_seconds l =? 0 then Err (BadRequest "CIAM identity link linked_at_epoch_seconds must be set")
  else Ok tt.

Definition validate_reset_token (t : PasswordResetToken) : QidResult unit :=
  Utf8.require_non_empty "password reset id" (rt_id t) ?;
  Utf8.require_non_empty "password reset realm_id" (rt_realm_id t) ?;
  Utf8.require_non_empty "password reset user_id" (rt_user_id t) ?;
  Utf8.require_non_empty "password reset token_hash" (token_hash t) ?;
  if negb (is_object (risk_json t)) then Err (BadRequest "password reset risk_json must be an object")
  else if (rt_created_at t =? 0) || (rt_expires_at t <=? rt_created_at t)
  then Err (BadRequest "password reset expiry must be after creation")
  else if match rt_consumed_at t with Some c => c <? rt_created_at t | None => false end
  then Err (BadRequest "password reset consumed_at must not be before creation")
  else Ok tt.

(** * Shared rules (src/qid-storage/src/domain/mod.rs) *)

Definition validate_ciam_consent_grant_state (g : CiamConsentGrant) : QidResult unit :=
  if cg_revoked g then Err (BadRequest ("consent grant " +:+ cg_id g +:+ " is already revoked")) else Ok tt.

Definition validate_ciam_identity_link_state (l : CiamIdentityLink) (existing : option CiamIdentityLink) : QidResult unit :=
  match existing with
  | None => Ok tt
  | Some ex =>
      if negb (String.eqb (il_realm_id ex) (il_realm_id l)) || negb (String.eqb (il_user_id ex) (il_user_id l))
         || negb (String.eqb (provider ex) (provider l)) || negb (String.eqb (external_subject ex) (external_subject l))
      then Err (Conflict ("CIAM identity link " +:+ il_id l +:+ " has another owner or identity key"))
      else if verified ex && negb (verified l)
      then Err (BadRequest ("identity link " +:+ il_id l +:+ " cannot be reverted from verified to unverified"))
      else Ok tt
  end.

Context `{CT : ConstantTimeEq}.

Definition validate_password_reset (t : PasswordResetToken) (realm hash : string) (device : option string)
    (cred : PasswordCredential) (now : N) : QidResult unit :=
  if negb (String.eqb (rt_realm_id t) realm) || negb (String.eqb (rt_user_id t) (pw_user_id cred))
  then Err (BadRequest "owner_mismatch")
  else if Push.is_some (rt_consumed_at t) then Err (Conflict "password reset token already consumed")
  else if rt_expires_at t <? now then Err (BadRequest "expired")
  else if negb (bool_decide (rt_device_id t = device)) then Err (BadRequest "device_mismatch")
  else if negb (constant_time_eq hash (token_hash t)) then Err (BadRequest "token_mismatch")
  else Ok tt.

Definition valid_window (max_issuances window : N) : bool := negb (max_issuances =? 0) && (1 <=? window) && (window <=? 86400).

Definition password_reset_window_start (t : PasswordResetToken) (max_issuances window : N) : QidResult N :=
  validate_reset_token t ?;
  if negb (valid_window max_issuances window) || negb (fits_i64 (rt_created_at t)) || negb (fits_i64 (rt_expires_at t))
     || match rt_consumed_at t with Some c => negb (fits_i64 c) | None => false end
  then Err (BadRequest "invalid password reset issuance budget or timestamp")
  else Ok (saturating_sub (rt_created_at t) (window - 1)).

(** 64 lower-case hexadecimal digits. *)
Definition digest_text (s : string) : bool :=
  (String.length s =? 64)%nat
  && forallb (fun a => let n := Ascii.N_of_ascii a in ((48 <=? n) && (n <=? 57)) || ((97 <=? n) && (n <=? 102)))
       (String.list_ascii_of_string s).

Definition MAGIC_PREFIX : string := "ml2:".

Definition email_magic_link_proof (value : string) : option (string * string) :=
  rest ← strip_prefix MAGIC_PREFIX value;
  p ← split_once COLON rest;
  if digest_text p.1 && digest_text p.2 then Some p else None.

Definition email_magic_link_token_matches (stored candidate : string) : option bool :=
  p ← email_magic_link_proof stored;
  q ← email_magic_link_proof candidate;
  if negb (constant_time_eq p.1 q.1) then None else Some (constant_time_eq p.2 q.2).

Definition email_challenge_window_start (c : CiamVerificationChallengeRecord) (max_issuances window : N) : QidResult N :=
  validate_challenge c ?;
  let magic_link := String.eqb (purpose c) "email_magic_link" in
  if negb (String.eqb (channel c) "email") || (negb magic_link && negb (String.eqb (purpose c) "email_verification"))
     || negb (Bool.eqb magic_link (Push.is_some (email_magic_link_proof (code_hash c))))
     || negb (vc_attempt_count c =? 0) || Push.is_some (vc_consumed_at c) || negb (valid_window max_issuances window)
     || negb (fits_i64 (vc_created_at c)) || negb (fits_i64 (vc_expires_at c))
  then Err (BadRequest "invalid email challenge, issuance budget or timestamp")
  else Ok (saturating_sub (vc_created_at c) (window - 1)).

(** * Consent grants *)

Definition store_ciam_consent_grant (saved : QidResult unit) (g : CiamConsentGrant) (s : CiamStore) : QidResult unit * CiamStore :=
  match (validate_consent g ?; validate_ciam_consent_grant_state g ?;
         ensure_same_binding
           ((fun e => (cg_realm_id e, cg_user_id e, cg_client_id e)) <$> ciam_consent_grants s !! cg_id g)
           (cg_realm_id g, cg_user_id g, cg_client_id g)
           ("CIAM consent grant " +:+ cg_id g +:+ " belongs to another owner")) with
  | Err e => (Err e, s)
  | Ok _ => (saved, with_grants s (<[cg_id g := g]> (ciam_consent_grants s)))
  end.

(** Newest first, then by identifier. *)
Definition newest_then_id (t1 t2 : N) (i1 i2 : string) : bool := (t2 <? t1) || ((t1 =? t2) && str_leb i1 i2).

Definition list_ciam_consent_grants (realm user : string) (client : option string) (s : CiamStore) : list CiamConsentGrant :=
  sort_by (fun a b => newest_then_id (granted_at_epoch_seconds a) (granted_at_epoch_seconds b) (cg_id a) (cg_id b))
    (List.filter (fun g => Tokens.is_none_or client (fun c => String.eqb (cg_client_id g) c))
       (List.filter (fun g => String.eqb (cg_realm_id g) realm && String.eqb (cg_user_id g) user) (values (ciam_consent_grants s)))).

Definition revoked_consent (g : CiamConsentGrant) : CiamConsentGrant :=
  {| cg_id := cg_id g; cg_realm_id := cg_realm_id g; cg_user_id := cg_user_id g; cg_client_id := cg_client_id g;
     granted_claims := granted_claims g; terms_version := terms_version g;
     granted_at_epoch_seconds := granted_at_epoch_seconds g; cg_revoked := true |}.

Definition revoke_ciam_consent_grant (saved : QidResult unit) (id : string) (s : CiamStore) : QidResult unit * CiamStore :=
  (saved, match ciam_consent_grants s !! id with
          | Some g => with_grants s (<[id := revoked_consent g]> (ciam_consent_grants s))
          | None => s
          end).

(** * Challenges *)

Definition challenge_exists : string := "CIAM verification challenge ID already exists".

(** A change under the save lock: a failed write restores the store. *)
Definition durable {A} (saved : QidResult unit) (value : A) (s s' : CiamStore) : QidResult A * CiamStore :=
  match saved with Ok _ => (Ok value, s') | Err e => (Err e, s) end.

Definition store_ciam_verification_challenge (saved : QidResult unit) (c : CiamVerificationChallengeRecord) (s : CiamStore)
    : QidResult unit * CiamStore :=
  match (validate_challenge c ?;
         Tokens.reject_duplicate_id (Push.is_some (ciam_verification_challenges s !! vc_id c)) challenge_exists) with
  | Err e => (Err e, s)
  | Ok _ => durable saved tt s (with_challenges s (<[vc_id c := c]> (ciam_verification_challenges s)))
  end.

Definition get_ciam_verification_challenge (realm id : string) (s : CiamStore) : option CiamVerificationChallengeRecord :=
  Tokens.opt_filter (fun c => String.eqb (vc_realm_id c) realm) (ciam_verification_challenges s !! id).

(** One attempt more, and consumed when it succeeded. *)
Definition attempted (c : CiamVerificationChallengeRecord) (success : bool) (now : N) : CiamVerificationChallengeRecord :=
  {| vc_id := vc_id c; vc_realm_id := vc_realm_id c; vc_user_id := vc_user_id c; channel := channel c; address := address c;
     purpose := purpose c; code_hash := code_hash c; vc_attempt_count := add32 (vc_attempt_count c) 1;
     vc_expires_at := vc_expires_at c; vc_consumed_at := if success then Some now else vc_consumed_at c;
     vc_created_at := vc_created_at c |}.

Definition attempt_ciam_verification_challenge (saved : QidResult unit) (realm id expected_hash : string) (success : bool)
    (now max_attempts : N) (s : CiamStore) : QidResult unit * CiamStore :=
  match get_ciam_verification_challenge realm id s with
  | None => (Err (NotFound ("CIAM verification challenge " +:+ id)), s)
  | Some c =>
      if negb (constant_time_eq (code_hash c) expected_hash) || Push.is_some (vc_consumed_at c) || (vc_expires_at c <? now)
         || (max_attempts <=? vc_attempt_count c)
      then (Err (Conflict "CIAM verification challenge unavailable"), s)
      else (saved, with_challenges s (<[id := attempted c success now]> (ciam_verification_challenges s)))
  end.

Definition with_verified_email (u : User) : User :=
  {| u_id := u_id u; u_realm_id := u_realm_id u; email := email u; email_verified := true; display_name := display_name u;
     failed_login_attempts := failed_login_attempts u; locked_until := locked_until u; org := org u |}.

(** The user a challenge was sent to, when the address is still theirs. *)
Definition addressed_user (realm user : string) (addr : string) (s : CiamStore) : option User :=
  Tokens.opt_filter (fun u => String.eqb (u_realm_id u) realm && bool_decide (email u = Some addr)) (cs_users s !! user).

Definition confirm_ciam_email_verification (saved : QidResult unit) (realm id user candidate_hash : string)
    (now max_attempts : N) (s : CiamStore) : QidResult bool * CiamStore :=
  match Tokens.opt_filter (fun c =>
            String.eqb (vc_realm_id c) realm && String.eqb (vc_user_id c) user && String.eqb (channel c) "email"
            && String.eqb (purpose c) "email_verification" && Push.is_none (vc_consumed_at c)
            && (now <=? vc_expires_at c) && (vc_attempt_count c <? max_attempts)) (ciam_verification_challenges s !! id) with
  | None => (Ok false, s)
  | Some c =>
      match addressed_user realm user (address c) s with
      | None => (Ok false, s)
      | Some u =>
          let success := constant_time_eq (code_hash c) candidate_hash in
          let s1 := with_challenges s (<[id := attempted c success now]> (ciam_verification_challenges s)) in
          durable saved success s (if success then with_users s1 (<[user := with_verified_email u]> (cs_users s1)) else s1)
      end
  end.

Definition try_issue_email_challenge (saved : QidResult unit) (c : CiamVerificationChallengeRecord) (max_issuances window : N)
    (s : CiamStore) : QidResult bool * CiamStore :=
  match (let? start := email_challenge_window_start c max_issuances window in
         Tokens.reject_duplicate_id (Push.is_some (ciam_verification_challenges s !! vc_id c)) challenge_exists ?;
         Ok start) with
  | Err e => (Err e, s)
  | Ok start =>
      if negb (match addressed_user (vc_realm_id c) (vc_user_id c) (address c) s with
               | Some u => Bool.eqb (email_verified u) (String.eqb (purpose c) "email_magic_link")
               | None => false
               end) then (Ok false, s)
      else
        let count := length (List.filter (fun e =>
              String.eqb (vc_realm_id e) (vc_realm_id c) && String.eqb (vc_user_id e) (vc_user_id c)
              && String.eqb (purpose e) (purpose c) && (start <=? vc_created_at e)) (values (ciam_verification_challenges s))) in
        if max_issuances <=? N.of_nat count then (Ok false, s)
        else durable saved true s (with_challenges s (<[vc_id c := c]> (ciam_verification_challenges s)))
  end.

Definition redeem_email_magic_link_challenge (saved : QidResult unit) (realm id candidate_hash : string) (now max_attempts : N)
    (s : CiamStore) : QidResult (option User) * CiamStore :=
  if negb (fits_i64 now) then (Ok None, s)
  else
    match Tokens.opt_filter (fun c =>
              String.eqb (vc_realm_id c) realm && String.eqb (channel c) "email" && String.eqb (purpose c) "email_magic_link"
              && Push.is_none (vc_consumed_at c) && (vc_created_at c <=? now) && (now <=? vc_expires_at c)
              && (vc_attempt_count c <? max_attempts)) (ciam_verification_challenges s !! id) with
    | None => (Ok None, s)
    | Some c =>
        match Tokens.opt_filter email_verified (addressed_user realm (vc_user_id c) (address c) s) with
        | None => (Ok None, s)
        | Some u =>
            match email_magic_link_token_matches (code_hash c) candidate_hash with
            | None => (Ok None, s)
            | Some success =>
                durable saved (if success then Some u else None) s
                  (with_challenges s (<[id := attempted c success now]> (ciam_verification_challenges s)))
            end
        end
    end.

(** * Identity links *)

Definition same_identity (l l' : CiamIdentityLink) : bool :=
  String.eqb (il_realm_id l) (il_realm_id l') && String.eqb (provider l) (provider l')
  && String.eqb (external_subject l) (external_subject l').

Definition store_ciam_identity_link (saved : QidResult unit) (l : CiamIdentityLink) (s : CiamStore) : QidResult unit * CiamStore :=
  match (validate_link l ?; validate_ciam_identity_link_state l (ciam_identity_links s !! il_id l)) with
  | Err e => (Err e, s)
  | Ok _ =>
      match cs_users s !! il_user_id l with
      | None => (Err (BadRequest "CIAM identity link user does not exist"), s)
      | Some u =>
          if negb (String.eqb (u_realm_id u) (il_realm_id l))
          then (Err (BadRequest "CIAM identity link user belongs to another realm"), s)
          else if existsb (fun o => verified l && verified o && negb (String.eqb (il_id o) (il_id l)) && same_identity o l)
                    (values (ciam_identity_links s))
          then (Err (BadRequest "CIAM identity link external subject is already linked"), s)
          else (saved, with_links s (<[il_id l := l]> (ciam_identity_links s)))
      end
  end.

Definition list_ciam_identity_links (realm user : string) (s : CiamStore) : list CiamIdentityLink :=
  sort_by (fun a b => newest_then_id (linked_at_epoch_seconds a) (linked_at_epoch_seconds b) (il_id a) (il_id b))
    (List.filter (fun l => String.eqb (il_realm_id l) realm && String.eqb (il_user_id l) user) (values (ciam_identity_links s))).

Definition get_ciam_identity_link (realm id : string) (s : CiamStore) : option CiamIdentityLink :=
  Tokens.opt_filter (fun l => String.eqb (il_realm_id l) realm) (ciam_identity_links s !! id).

Definition get_ciam_identity_link_by_external_subject (realm prov subject : string) (s : CiamStore)
    : QidResult (option CiamIdentityLink) :=
  Tokens.unique_match
    (List.filter (fun l => verified l && String.eqb (il_realm_id l) realm && String.eqb (provider l) prov
                           && String.eqb (external_subject l) subject) (values (ciam_identity_links s)))
    "ambiguous verified CIAM external subject".

Definition delete_ciam_identity_link (saved : QidResult unit) (realm id : string) (s : CiamStore) : QidResult unit * CiamStore :=
  (saved, match get_ciam_identity_link realm id s with
          | Some _ => with_links s (delete id (ciam_identity_links s))
          | None => s
          end).

(** * Password resets *)

Definition reset_exists (id : string) : string := "Password reset token ID " +:+ id +:+ " already exists".

Definition store_password_reset_token (saved : QidResult unit) (t : PasswordResetToken) (s : CiamStore) : QidResult unit * CiamStore :=
  match (validate_reset_token t ?;
         Tokens.reject_duplicate_id (Push.is_some (password_reset_tokens s !! rt_id t)) (reset_exists (rt_id t))) with
  | Err e => (Err e, s)
  | Ok _ => (saved, with_resets s (<[rt_id t := t]> (password_reset_tokens s)))
  end.

Definition try_issue_password_reset_token (saved : QidResult unit) (t : PasswordResetToken) (max_issuances window : N)
    (s : CiamStore) : QidResult bool * CiamStore :=
  match (let? start := password_reset_window_start t max_issuances window in
         Tokens.reject_duplicate_id (Push.is_some (password_reset_tokens s !! rt_id t)) (reset_exists (rt_id t)) ?;
         Ok start) with
  | Err e => (Err e, s)
  | Ok start =>
      let count := length (List.filter (fun e =>
            String.eqb (rt_realm_id e) (rt_realm_id t) && String.eqb (rt_user_id e) (rt_user_id t)
            && (start <=? rt_created_at e)) (values (password_reset_tokens s))) in
      if max_issuances <=? N.of_nat count then (Ok false, s)
      else (res_map (fun _ => true) saved, with_resets s (<[rt_id t := t]> (password_reset_tokens s)))
  end.

Definition get_password_reset_token (id : string) (s : CiamStore) : option PasswordResetToken := password_reset_tokens s !! id.

Definition consumed_token (t : PasswordResetToken) (now : N) : PasswordResetToken :=
  {| rt_id := rt_id t; rt_realm_id := rt_realm_id t; rt_user_id := rt_user_id t; token_hash := token_hash t;
     rt_device_id := rt_device_id t; risk_json := risk_json t; rt_expires_at := rt_expires_at t; rt_consumed_at := Some now;
     rt_created_at := rt_created_at t |}.

Definition consume_password_reset_token (saved : QidResult unit) (id : string) (now : N) (s : CiamStore) : QidResult unit * CiamStore :=
  match password_reset_tokens s !! id with
  | None => (Err (NotFound ("password reset token " +:+ id)), s)
  | Some t => if Push.is_some (rt_consumed_at t) then (Err (Conflict "password reset token already consumed"), s)
              else (saved, with_resets s (<[id := consumed_token t now]> (password_reset_tokens s)))
  end.

(** An immediate flush writes under the save lock and rolls back; an interval flush is left to its task. *)
Definition replace_password_with_reset_token (mode : Tokens.FileFlushMode) (saved : QidResult unit) (id realm hash : string)
    (device : option string) (cred : PasswordCredential) (now : N) (s : CiamStore) : QidResult unit * CiamStore :=
  match password_reset_tokens s !! id with
  | None => (Err (NotFound "password reset token"), s)
  | Some t =>
      match validate_password_reset t realm hash device cred now with
      | Err e => (Err e, s)
      | Ok _ =>
          let s1 := with_passwords s (<[pw_user_id cred := cred]> (cs_passwords s)) in
          let s2 := with_resets s1 (<[id := consumed_token t now]> (password_reset_tokens s1)) in
          match mode with
          | Tokens.Interval _ => (Ok tt, s2)
          | Tokens.Immediate => durable saved tt s s2
          end
      end
  end.

(** * Profiles *)

(** The scope is prefixed with its length, so that no two pairs share a key. *)
Definition scoped_record_key (scope id : string) : string := pretty (N.of_nat (String.length scope)) +:+ ":" +:+ scope +:+ id.

Definition get_ciam_progressive_profile (realm user : string) (s : CiamStore) : option CiamProgressiveProfile :=
  ciam_profiles s !! scoped_record_key realm user.

Fixpoint check_profile_owner (p : CiamProgressiveProfile) (stored : list CiamProgressiveProfile) : QidResult unit :=
  match stored with
  | [] => Ok tt
  | o :: rest =>
      ensure_same_binding (Some (pp_realm_id o, pp_user_id o)) (pp_realm_id p, pp_user_id p)
        ("CIAM progressive profile " +:+ pp_id p +:+ " belongs to another owner") ?;
      check_profile_owner p rest
  end.

Definition store_ciam_progressive_profile (saved : QidResult unit) (p : CiamProgressiveProfile) (s : CiamStore)
    : QidResult unit * CiamStore :=
  let key := scoped_record_key (pp_realm_id p) (pp_user_id p) in
  let incumbent := ciam_profiles s !! key in
  match ((if Push.is_none incumbent
          then check_profile_owner p (List.filter (fun o => String.eqb (pp_id o) (pp_id p)) (values (ciam_profiles s)))
          else Ok tt) ?;
         ensure_same_binding ((fun o => (pp_id o, pp_realm_id o, pp_user_id o)) <$> incumbent) (pp_id p, pp_realm_id p, pp_user_id p)
           "CIAM progressive profile identity cannot change") with
  | Err e => (Err e, s)
  | Ok _ => (saved, with_profiles s (<[key := p]> (ciam_profiles s)))
  end.

Definition delete_ciam_progressive_profile (saved : QidResult unit) (realm user : string) (s : CiamStore) : QidResult unit * CiamStore :=
  (saved, with_profiles s (delete (scoped_record_key realm user) (ciam_profiles s))).

Definition list_ciam_passwordless_migrations (realm : string) (s : CiamStore) : list CiamProgressiveProfile :=
  sort_by (fun a b => newest_then_id (pp_updated_at a) (pp_updated_at b) (pp_id a) (pp_id b))
    (List.filter (fun p => String.eqb (pp_realm_id p) realm && Push.is_some (passwordless_migrated_at p)) (values (ciam_profiles s))).

(** * Runs *)

Inductive CiamOp : Type :=
| StoreGrant (g : CiamConsentGrant)
| RevokeGrant (id : string)
| StoreChallenge (c : CiamVerificationChallengeRecord)
| AttemptChallenge (realm id hash : string) (success : bool) (now max_attempts : N)
| ConfirmEmail (realm id user hash : string) (now max_attempts : N)
| IssueEmail (c : CiamVerificationChallengeRecord) (max_issuances window : N)
| RedeemLink (realm id hash : string) (now max_attempts : N)
| StoreLink (l : CiamIdentityLink)
| DeleteLink (realm id : string)
| StoreReset (t : PasswordResetToken)
| IssueReset (t : PasswordResetToken) (max_issuances window : N)
| ConsumeReset (id : string) (now : N)
| ReplacePassword (mode : Tokens.FileFlushMode) (id realm hash : string) (device : option string) (cred : PasswordCredential) (now : N)
| StoreProfile (p : CiamProgressiveProfile)
| DeleteProfile (realm user : string).

(** What [saved] is the outcome of, for each operation. *)
Definition run_op (o : CiamOp) (saved : QidResult unit) (s : CiamStore) : CiamStore :=
  match o with
  | StoreGrant g => (store_ciam_consent_grant saved g s).2
  | RevokeGrant id => (revoke_ciam_consent_grant saved id s).2
  | StoreChallenge c => (store_ciam_verification_challenge saved c s).2
  | AttemptChallenge realm id hash ok now m => (attempt_ciam_verification_challenge saved realm id hash ok now m s).2
  | ConfirmEmail realm id user hash now m => (confirm_ciam_email_verification saved realm id user hash now m s).2
  | IssueEmail c m w => (try_issue_email_challenge saved c m w s).2
  | RedeemLink realm id hash now m => (redeem_email_magic_link_challenge saved realm id hash now m s).2
  | StoreLink l => (store_ciam_identity_link saved l s).2
  | DeleteLink realm id => (delete_ciam_identity_link saved realm id s).2
  | StoreReset t => (store_password_reset_token saved t s).2
  | IssueReset t m w => (try_issue_password_reset_token saved t m w s).2
  | ConsumeReset id now => (consume_password_reset_token saved id now s).2
  | ReplacePassword mode id realm hash device cred now =>
      (replace_password_with_reset_token mode saved id realm hash device cred now s).2
  | StoreProfile p => (store_ciam_progressive_profile saved p s).2
  | DeleteProfile realm user => (delete_ciam_progressive_profile saved realm user s).2
  end.

Definition step (s s' : CiamStore) : Prop := ∃ o saved, s' = run_op o saved s.

(** * Lemmas: what an operation changes *)

Abbreviation challenges s := (ciam_verification_challenges s).
Abbreviation resets s := (password_reset_tokens s).
Abbreviation links s := (ciam_identity_links s).

Lemma opt_filter_Some {A} (p : A → bool) o a : Tokens.opt_filter p o = Some a ↔ o = Some a ∧ p a = true.
Proof.
  unfold Tokens.opt_filter. destruct o as [x|]; [|split; [done|by intros [? _]]]. destruct (p x) eqn:Hp.
  - split; [by intros [= <-]|by intros [[= <-] _]].
  - split; [done|]. by intros [[= <-] ?]; congruence.
Qed.

Lemma durable_cases {A} saved (v : A) s s1 r s' :
  durable saved v s s1 = (r, s') → (r = Ok v ∧ s' = s1) ∨ ((∃ e, r = Err e) ∧ s' = s).
Proof. unfold durable. destruct saved; intros [= <- <-]; [by left|right; by eauto]. Qed.

(** A challenge after an operation: the same, or attempted once more while it was unused. *)
Definition challenge_moved (s s' : CiamStore) : Prop :=
  challenges s' = challenges s
  ∨ (∃ c, challenges s !! vc_id c = None ∧ challenges s' = <[vc_id c := c]> (challenges s))
  ∨ (∃ k c b now, challenges s !! k = Some c ∧ vc_consumed_at c = None ∧
       challenges s' = <[k := attempted c b now]> (challenges s)).

Lemma is_some_false {A} (o : option A) : Push.is_some o = false → o = None.
Proof. by destruct o. Qed.
Lemma is_none_true {A} (o : option A) : Push.is_none o = true → o = None.
Proof. by destruct o. Qed.

Lemma duplicate_ok b m u : Tokens.reject_duplicate_id b m = Ok u → b = false.
Proof. unfold Tokens.reject_duplicate_id. by destruct b. Qed.

(** A reset token after an operation: the same, or consumed while it was unused. *)
Definition reset_moved (s s' : CiamStore) : Prop :=
  resets s' = resets s
  ∨ (∃ t, resets s !! rt_id t = None ∧ resets s' = <[rt_id t := t]> (resets s))
  ∨ (∃ k t now, resets s !! k = Some t ∧ rt_consumed_at t = None ∧ resets s' = <[k := consumed_token t now]> (resets s)).

Lemma validate_reset_Ok t realm hash device cred now u :
  validate_password_reset t realm hash device cred now = Ok u ↔
  u = tt ∧ rt_realm_id t = realm ∧ rt_user_id t = pw_user_id cred ∧ rt_consumed_at t = None ∧ now ≤ rt_expires_at t ∧
  rt_device_id t = device ∧ token_hash t = hash.
Proof.
  destruct u. unfold validate_password_reset. destruct (String.eqb_spec (rt_realm_id t) realm); [|cbn; naive_solver].
  destruct (String.eqb_spec (rt_user_id t) (pw_user_id cred)); [|cbn; naive_solver]. cbn [negb orb].
  destruct (rt_consumed_at t) eqn:Ec; cbn [Push.is_some]; [naive_solver|].
  destruct (N.ltb_spec (rt_expires_at t) now); [split; [done|]; intros; exfalso; intuition lia|].
  case_bool_decide; cbn [negb]; [|naive_solver]. destruct (constant_time_eq hash _) eqn:Eh; cbn [negb].
  - apply constant_time_eq_spec in Eh. naive_solver.
  - split; [done|]. intros (_ & _ & _ & _ & _ & _ & <-). by rewrite (proj2 (constant_time_eq_spec _ _) eq_refl) in Eh.
Qed.

Definition link_key (l : CiamIdentityLink) : string * string * string * string :=
  (il_realm_id l, il_user_id l, provider l, external_subject l).

(** A link after an operation: the table is the same, one link is gone, or one is stored that takes nothing from another. *)
Definition link_moved (o : CiamOp) (s s' : CiamStore) : Prop :=
  links s' = links s
  ∨ (∃ realm id, o = DeleteLink realm id ∧ links s' = delete id (links s))
  ∨ (∃ l, links s' = <[il_id l := l]> (links s) ∧
       (∀ ex, links s !! il_id l = Some ex → link_key ex = link_key l ∧ (verified ex = true → verified l = true)) ∧
       (∀ k x, links s !! k = Some x → verified l = true → verified x = true → same_identity x l = true → il_id x = il_id l)).

Lemma link_state_Ok l ex u :
  validate_ciam_identity_link_state l (Some ex) = Ok u → link_key ex = link_key l ∧ (verified ex = true → verified l = true).
Proof.
  unfold validate_ciam_identity_link_state, link_key.
  destruct (_ || _) eqn:E; [done|]. rewrite !orb_false_iff, !negb_false_iff, !String.eqb_eq in E.
  destruct E as [[[-> ->] ->] ->]. destruct (verified ex), (verified l); naive_solver.
Qed.

Lemma stored_link_fits l s u :
  validate_ciam_identity_link_state l (links s !! il_id l) = Ok u →
  existsb (fun o => verified l && verified o && negb (String.eqb (il_id o) (il_id l)) && same_identity o l) (values (links s)) = false →
  (∀ ex, links s !! il_id l = Some ex → link_key ex = link_key l ∧ (verified ex = true → verified l = true)) ∧
  (∀ k x, links s !! k = Some x → verified l = true → verified x = true → same_identity x l = true → il_id x = il_id l).
Proof.
  intros Hv Ex. split.
  - intros ex Hex. rewrite Hex in Hv. by eapply link_state_Ok.
  - intros k x Hx H1 H2 H3. rewrite existsb_false in Ex. assert (x ∈ values (links s)) as Hin by (apply values_elem; eauto).
    apply Ex in Hin. rewrite H1, H2, H3 in Hin. by destruct (String.eqb_spec (il_id x) (il_id l)).
Qed.

(** What one operation does to the three tables. *)
Definition moved (o : CiamOp) (s s' : CiamStore) : Prop := challenge_moved s s' ∧ reset_moved s s' ∧ link_moved o s s'.

Ltac still := solve [repeat split; by left].

Lemma step_moved o saved s : moved o s (run_op o saved s).
Proof.
  destruct o; cbn [run_op].
  - unfold store_ciam_consent_grant. destruct (res_bind _ _); still.
  - unfold revoke_ciam_consent_grant. destruct (_ !! _); still.
  - unfold store_ciam_verification_challenge. destruct (res_bind _ _) as [[]|] eqn:E; [|still].
    apply res_bind_Ok in E as (_ & _ & Hd%duplicate_ok%is_some_false). destruct saved; [|still].
    split; [right; left; by exists c|still].
  - unfold attempt_ciam_verification_challenge. destruct (get_ciam_verification_challenge realm id s) as [c|] eqn:E; [|still].
    apply opt_filter_Some in E as [E _]. destruct (_ || _) eqn:Hg; [still|].
    rewrite !orb_false_iff in Hg. destruct Hg as [[[_ Hc%is_some_false] _] _]. split; [right; right; by eexists _, _, _, _|still].
  - unfold confirm_ciam_email_verification. destruct (Tokens.opt_filter _ _) as [c|] eqn:E; [|still].
    apply opt_filter_Some in E as [E Hc]. rewrite !andb_true_iff in Hc. destruct Hc as [[[_ Hc%is_none_true] _] _].
    destruct (addressed_user _ _ _ _) as [u|]; [|still]. destruct saved; [|still].
    destruct (constant_time_eq _ _); (split; [right; right; by eexists _, _, _, _|still]).
  - unfold try_issue_email_challenge. destruct (res_bind _ _) as [start|] eqn:E; [|still].
    apply res_bind_Ok in E as (st & _ & (u & Hd%duplicate_ok%is_some_false & _)%res_bind_Ok).
    destruct (negb _); [still|]. cbv zeta. destruct (_ <=? _); [still|]. destruct saved; [|still].
    split; [right; left; by exists c|still].
  - unfold redeem_email_magic_link_challenge. destruct (negb _); [still|].
    destruct (Tokens.opt_filter _ _) as [c|] eqn:E; [|still].
    apply opt_filter_Some in E as [E Hc]. rewrite !andb_true_iff in Hc. destruct Hc as [[[[_ Hc%is_none_true] _] _] _].
    destruct (Tokens.opt_filter email_verified _) as [u|]; [|still].
    destruct (email_magic_link_token_matches _ _) as [b|]; [|still]. destruct saved; [|still].
    split; [right; right; by eexists _, _, _, _|still].
  - unfold store_ciam_identity_link. destruct (res_bind _ _) as [u|] eqn:E; [|still]. destruct (cs_users s !! _); [|still].
    destruct (negb _); [still|]. destruct (existsb _ _) eqn:Ex; [still|]. split; [by left|]. split; [by left|].
    right; right. exists l. split; [done|]. apply res_bind_Ok in E as (_ & _ & Hv). by eapply stored_link_fits.
  - unfold delete_ciam_identity_link. destruct (get_ciam_identity_link _ _ _); [|still].
    split; [by left|]. split; [by left|]. right; left. by eexists _, _.
  - unfold store_password_reset_token. destruct (res_bind _ _) as [[]|] eqn:E; [|still].
    apply res_bind_Ok in E as (_ & _ & Hd%duplicate_ok%is_some_false). split; [by left|]. split; [right; left; by exists t|by left].
  - unfold try_issue_password_reset_token. destruct (res_bind _ _) as [st|] eqn:E; [|still].
    apply res_bind_Ok in E as (? & _ & (u & Hd%duplicate_ok%is_some_false & _)%res_bind_Ok).
    cbv zeta. destruct (_ <=? _); [still|]. split; [by left|]. split; [right; left; by exists t|by left].
  - unfold consume_password_reset_token. destruct (resets s !! id) as [t|] eqn:E; [|still].
    destruct (rt_consumed_at t) eqn:Ec; [still|]. split; [by left|]. split; [right; right; by exists id, t, now|by left].
  - unfold replace_password_with_reset_token. destruct (resets s !! id) as [t|] eqn:E; [|still].
    destruct (validate_password_reset _ _ _ _ _ _) eqn:Ev; [|still]. apply validate_reset_Ok in Ev as (_ & _ & _ & Hn & _).
    destruct mode; [destruct saved; [|still]|]; (split; [by left|]; split; [right; right; by exists id, t, now|by left]).
  - unfold store_ciam_progressive_profile. cbv zeta. destruct (res_bind _ _); still.
  - still.
Qed.

(** A consumed challenge keeps its record for good. *)
Lemma consumed_stays s s' id c t :
  rtc step s s' → challenges s !! id = Some c → vc_consumed_at c = Some t →
  ∃ c', challenges s' !! id = Some c' ∧ vc_consumed_at c' = Some t.
Proof.
  intros Hs; revert c. induction Hs as [s|s s1 s' [o [saved ->]] _ IH]; intros c Hc Ht; [by eauto|].
  apply (IH c); [|done]. destruct (proj1 (step_moved o saved s)) as [->|[(c' & Hn & ->)|(k & c' & b & now & Hk & Hu & ->)]]; [done| |].
  - rewrite lookup_insert_ne; [done|]. intros Heq. congruence.
  - rewrite lookup_insert_ne; [done|]. intros ->. rewrite Hc in Hk. injection Hk as <-. congruence.
Qed.

Lemma redeem_consumed saved realm id hash now m s c t :
  challenges s !! id = Some c → vc_consumed_at c = Some t →
  redeem_email_magic_link_challenge saved realm id hash now m s = (Ok None, s).
Proof.
  intros Hc Ht. unfold redeem_email_magic_link_challenge. destruct (negb _); [done|].
  destruct (Tokens.opt_filter _ _) as [c'|] eqn:E; [|done]. apply opt_filter_Some in E as [E Hg]. rewrite Hc in E.
  injection E as <-. rewrite !andb_true_iff, Ht in Hg. naive_solver.
Qed.

Lemma split_once_eq sep s a b : split_once sep s = Some (a, b) → s = a +:+ String sep b.
Proof.
  revert a. induction s as [|x s IH]; intros a; cbn [split_once]; [done|]. destruct (Ascii.eqb x sep) eqn:E.
  - apply Ascii.eqb_eq in E as ->. by intros [= <- <-].
  - destruct (split_once sep s) as [[a' b']|]; [|done]. intros [= <- <-]. by rewrite (IH a' eq_refl).
Qed.

Lemma proof_text v p : email_magic_link_proof v = Some p → v = MAGIC_PREFIX +:+ p.1 +:+ String COLON p.2.
Proof.
  unfold email_magic_link_proof. destruct (strip_prefix MAGIC_PREFIX v) as [rest|] eqn:E; [|done]. cbn [mbind option_bind].
  apply strip_prefix_Some in E as ->. destruct (split_once COLON rest) as [[a b]|] eqn:E; [|done]. cbn [mbind option_bind fst snd].
  apply split_once_eq in E as ->. destruct (_ && _); [|done]. by intros [= <-].
Qed.

(** Only the stored proof itself matches. *)
Lemma token_matches_eq stored candidate : email_magic_link_token_matches stored candidate = Some true → candidate = stored.
Proof.
  unfold email_magic_link_token_matches. destruct (email_magic_link_proof stored) as [p|] eqn:Hp; [|done].
  destruct (email_magic_link_proof candidate) as [q|] eqn:Hq; [|done]. cbn [mbind option_bind].
  apply proof_text in Hp as ->, Hq as ->. destruct (constant_time_eq p.1 q.1) eqn:E1; [|done].
  apply constant_time_eq_spec in E1 as ->. intros [= E2%constant_time_eq_spec]. by rewrite E2.
Qed.

Lemma addressed_user_Some realm user addr s u :
  addressed_user realm user addr s = Some u →
  cs_users s !! user = Some u ∧ u_realm_id u = realm ∧ email u = Some addr.
Proof. intros [E [H1%String.eqb_eq H2%bool_decide_eq_true]%andb_true_iff]%opt_filter_Some. done. Qed.

(** What a challenge must be for a magic link to redeem it. *)
Definition redeemable (realm hash : string) (now m : N) (c : CiamVerificationChallengeRecord) : Prop :=
  vc_realm_id c = realm ∧ channel c = "email" ∧ purpose c = "email_magic_link" ∧ vc_consumed_at c = None ∧
  vc_created_at c ≤ now ≤ vc_expires_at c ∧ vc_attempt_count c < m ∧ code_hash c = hash.

(** C25: A magic link signs in the one user it was sent to, and once.  When a redemption answers with a user, the challenge of
    that identifier was an unconsumed email challenge of the realm for a magic link, within its life and its attempts, its stored
    proof is the presented one, and the user is its owner, in that realm, whose verified address is still the one the link was
    sent to; the redemption consumes it and changes nothing else.  After that, whatever operations run, no redemption of it
    succeeds again, with any proof, at any time, and each leaves the store as it was. *)
Theorem magic_link_signs_in_once saved realm id hash now m s u s' :
  redeem_email_magic_link_challenge saved realm id hash now m s = (Ok (Some u), s') →
  (∃ c, challenges s !! id = Some c ∧ redeemable realm hash now m c ∧
     cs_users s !! vc_user_id c = Some u ∧ u_realm_id u = realm ∧ email u = Some (address c) ∧ email_verified u = true ∧
     s' = with_challenges s (<[id := attempted c true now]> (challenges s))) ∧
  (∀ s1 saved' realm' hash' now' m', rtc step s' s1 →
     redeem_email_magic_link_challenge saved' realm' id hash' now' m' s1 = (Ok None, s1)).
Proof.
  unfold redeem_email_magic_link_challenge at 1. destruct (negb _); [done|].
  destruct (Tokens.opt_filter _ (challenges s !! id)) as [c|] eqn:E; [|done]. apply opt_filter_Some in E as [E Hc].
  destruct (Tokens.opt_filter email_verified _) as [u'|] eqn:Eu; [|done].
  apply opt_filter_Some in Eu as [(Hu & Hr & He)%addressed_user_Some Hv].
  destruct (email_magic_link_token_matches _ _) as [[]|] eqn:Em; [| |done]; intros Hd; apply durable_cases in Hd as [[Hd ->]|[[? ?] _]]; try done.
  injection Hd as ->. apply token_matches_eq in Em as ->. split.
  - exists c. split; [done|]. split_and!; [|done..]. unfold redeemable.
    rewrite !andb_true_iff, !String.eqb_eq, !N.leb_le, N.ltb_lt in Hc.
    destruct Hc as [[[[[[? ?] ?] ?%is_none_true] ?] ?] ?]. done.
  - intros s1 saved' realm' hash' now' m' Hs.
    destruct (consumed_stays _ _ id (attempted c true now) now Hs) as (c' & Hc' & Ht'); [apply lookup_insert_eq|done|].
    by eapply redeem_consumed.
Qed.

(** * Lemmas: password resets *)

Lemma reset_stays s s' id t c :
  rtc step s s' → resets s !! id = Some t → rt_consumed_at t = Some c →
  ∃ t', resets s' !! id = Some t' ∧ rt_consumed_at t' = Some c.
Proof.
  intros Hs; revert t. induction Hs as [s|s s1 s' [o [saved ->]] _ IH]; intros t Ht Hc; [by eauto|].
  apply (IH t); [|done]. destruct (proj1 (proj2 (step_moved o saved s))) as [->|[(t' & Hn & ->)|(k & t' & now & Hk & Hu & ->)]]; [done| |].
  - rewrite lookup_insert_ne; [done|]. intros Heq. congruence.
  - rewrite lookup_insert_ne; [done|]. intros ->. rewrite Ht in Hk. injection Hk as <-. congruence.
Qed.

(** C26: A password is replaced by a reset token once, and all or nothing.  A replacement that succeeds found an unconsumed token
    of that realm whose owner is the owner of the new credential, unexpired, bound to the presenting device and with the presented
    hash; it stores the credential and consumes the token together and changes nothing else.  A replacement that fails changes
    nothing, whether a check or the write refused it.  After a success, whatever operations run, the token neither replaces a
    password nor is consumed again, under any flush mode. *)
Theorem password_reset_once mode saved id realm hash device cred now s :
  match replace_password_with_reset_token mode saved id realm hash device cred now s with
  | (Err _, s') => s' = s
  | (Ok _, s') =>
      (∃ t, resets s !! id = Some t ∧ rt_realm_id t = realm ∧ rt_user_id t = pw_user_id cred ∧ rt_consumed_at t = None ∧
         now ≤ rt_expires_at t ∧ rt_device_id t = device ∧ token_hash t = hash ∧
         s' = with_resets (with_passwords s (<[pw_user_id cred := cred]> (cs_passwords s)))
                (<[id := consumed_token t now]> (resets s))) ∧
      ∀ s1 mode' saved' realm' hash' device' cred' now', rtc step s' s1 →
        (∃ e, replace_password_with_reset_token mode' saved' id realm' hash' device' cred' now' s1 = (Err e, s1)) ∧
        (∃ e, consume_password_reset_token saved' id now' s1 = (Err e, s1))
  end.
Proof.
  unfold replace_password_with_reset_token at 1. destruct (resets s !! id) as [t|] eqn:E; [|done].
  destruct (validate_password_reset _ _ _ _ _ _) as [[]|] eqn:Ev; [|done].
  apply validate_reset_Ok in Ev as (_ & Hr & Hu & Hn & He & Hd & Hh). cbv zeta.
  assert (∀ s1 mode' saved' realm' hash' device' cred' now',
    rtc step (with_resets (with_passwords s (<[pw_user_id cred := cred]> (cs_passwords s))) (<[id := consumed_token t now]> (resets s))) s1 →
    (∃ e, replace_password_with_reset_token mode' saved' id realm' hash' device' cred' now' s1 = (Err e, s1)) ∧
    (∃ e, consume_password_reset_token saved' id now' s1 = (Err e, s1))) as Hlater.
  { intros s1 mode' saved' realm' hash' device' cred' now' Hs.
    destruct (reset_stays _ _ id (consumed_token t now) now Hs) as (t' & Ht' & Hc'); [apply lookup_insert_eq|done|]. split.
    - unfold replace_password_with_reset_token. rewrite Ht'. destruct (validate_password_reset _ _ _ _ _ _) as [u|e] eqn:Ev; [|by eauto].
      apply validate_reset_Ok in Ev. naive_solver.
    - unfold consume_password_reset_token. rewrite Ht', Hc'. eauto. }
  destruct mode; [destruct saved; [|done]|]; cbn [durable]; (split; [exists t; by split_and!|exact Hlater]).
Qed.

(** * Lemmas: identity links *)

Lemma same_identity_iff l l' :
  same_identity l l' = true ↔ il_realm_id l = il_realm_id l' ∧ provider l = provider l' ∧ external_subject l = external_subject l'.
Proof. unfold same_identity. rewrite !andb_true_iff, !String.eqb_eq. tauto. Qed.

(** Links sit under their identifier, and no two verified ones have one external identity. *)
Definition links_ok (s : CiamStore) : Prop :=
  (∀ k l, links s !! k = Some l → il_id l = k) ∧
  (∀ l l', l ∈ values (links s) → l' ∈ values (links s) → verified l = true → verified l' = true → same_identity l l' = true → l = l').

Lemma step_links_ok o saved s : links_ok s → links_ok (run_op o saved s).
Proof.
  intros [Hk Hu]. destruct (proj2 (proj2 (step_moved o saved s))) as [E|[(realm & id & _ & E)|(l & E & Hex & Hv)]].
  - unfold links_ok. rewrite E. by split.
  - unfold links_ok. rewrite E. split.
    + intros k l [_ Hl]%lookup_delete_Some. by apply Hk.
    + intros l l' [k [_ Hl]%lookup_delete_Some]%values_elem [k' [_ Hl']%lookup_delete_Some]%values_elem.
      apply Hu; apply values_elem; eauto.
  - unfold links_ok. rewrite E. split.
    + intros k l' [[<- <-]|[_ Hl']]%lookup_insert_Some; [done|]. by apply Hk.
    + intros l1 l2 [k1 [[<- <-]|[N1 H1]]%lookup_insert_Some]%values_elem [k2 [[<- <-]|[N2 H2]]%lookup_insert_Some]%values_elem V1 V2 Hs.
      * done.
      * exfalso. apply N2. rewrite <- (Hk _ _ H2). symmetry. apply (Hv k2); [done..|]. rewrite same_identity_iff in *. naive_solver.
      * exfalso. apply N1. rewrite <- (Hk _ _ H1). symmetry. by apply (Hv k1).
      * apply Hu; try done; apply values_elem; eauto.
Qed.

Lemma reachable_links_ok s s' : links_ok s → rtc step s s' → links_ok s'.
Proof. intros Hok Hs. induction Hs as [|s s1 s' [o [saved ->]] _ IH]; [done|]. by apply IH, step_links_ok. Qed.

Definition linked (realm prov subject : string) (l : CiamIdentityLink) : Prop :=
  verified l = true ∧ il_realm_id l = realm ∧ provider l = prov ∧ external_subject l = subject.

Lemma values_NoDup {A} (m : gmap string A) (key : A → string) : (∀ k v, m !! k = Some v → key v = k) → NoDup (values m).
Proof.
  intros Hk. unfold values. apply NoDup_fmap_2_strong; [|apply NoDup_map_to_list].
  intros [k1 v1] [k2 v2] H1%elem_of_map_to_list H2%elem_of_map_to_list; cbn. intros <-.
  by rewrite <- (Hk _ _ H1), <- (Hk _ _ H2).
Qed.

Lemma lookup_link_spec realm prov subject s :
  links_ok s →
  ∃ r, get_ciam_identity_link_by_external_subject realm prov subject s = Ok r ∧
    ∀ l, r = Some l ↔ links s !! il_id l = Some l ∧ linked realm prov subject l.
Proof.
  intros [Hk Hu]. unfold get_ciam_identity_link_by_external_subject.
  set (p := fun l => verified l && _ && _ && _).
  assert (∀ l, l ∈ List.filter p (values (links s)) ↔ links s !! il_id l = Some l ∧ linked realm prov subject l) as Hin.
  { intros l. rewrite list_elem_of_In, List.filter_In, <- list_elem_of_In, values_elem. unfold p, linked.
    rewrite !andb_true_iff, !String.eqb_eq. split; [|intros [? ?]; split; [by eauto|tauto]].
    intros [[k Hl] ?]. pose proof (Hk _ _ Hl) as <-. split; [done|tauto]. }
  assert (NoDup (List.filter p (values (links s)))) as Hnd.
  { apply NoDup_ListNoDup, List.NoDup_filter, NoDup_ListNoDup. by eapply values_NoDup. }
  destruct (List.filter p (values (links s))) as [|a [|b rest]].
  - exists None. split; [done|]. intros l. rewrite <- Hin. split; [done|]. intros H. inversion H.
  - exists (Some a). split; [done|]. intros l. rewrite <- Hin, list_elem_of_singleton. naive_solver.
  - exfalso. assert (a = b) as ->.
    { destruct (proj1 (Hin a) ltac:(left)) as (Ha & V1 & ?), (proj1 (Hin b) ltac:(right; left)) as (Hb & V2 & ?).
      apply Hu; [apply values_elem; eauto..|done|done|]. apply same_identity_iff. intuition congruence. }
    apply NoDup_cons in Hnd as [Hnd _]. apply Hnd. left.
Qed.

(** An external identity signs in to one account.  In every store reachable from one without links, the lookup by realm,
    provider and external subject never finds an ambiguity: it answers with a link exactly when that link is stored, verified
    and has that identity.  Once an identity resolves to a user, it resolves to that user after every operation but the deletion
    of that very link: no other link can take the identity over, and the link itself can neither change owner nor lose its
    verification. *)
Theorem external_identity_unique s0 s realm prov subject :
  links s0 = ∅ → rtc step s0 s →
  ∃ r, get_ciam_identity_link_by_external_subject realm prov subject s = Ok r ∧
    (∀ l, r = Some l ↔ links s !! il_id l = Some l ∧ linked realm prov subject l) ∧
    (∀ l o saved, r = Some l → (∀ realm', o ≠ DeleteLink realm' (il_id l)) →
       ∃ l', get_ciam_identity_link_by_external_subject realm prov subject (run_op o saved s) = Ok (Some l') ∧
         il_id l' = il_id l ∧ il_user_id l' = il_user_id l).
Proof.
  intros H0 Hs. assert (links_ok s) as Hok.
  { apply (reachable_links_ok s0); [|done]. unfold links_ok, values. rewrite H0, map_to_list_empty. cbn. split; [done|].
    intros l l' Hl. inversion Hl. }
  destruct (lookup_link_spec realm prov subject s Hok) as (r & Hr & Hl). exists r. split; [done|]. split; [done|].
  intros l o saved [Hin Hlk]%Hl Ho.
  assert (∃ l', links (run_op o saved s) !! il_id l' = Some l' ∧ linked realm prov subject l' ∧ il_id l' = il_id l ∧
            il_user_id l' = il_user_id l) as (l' & Hin' & Hlk' & Hid & Hus).
  { destruct (proj2 (proj2 (step_moved o saved s))) as [E|[(realm' & id & -> & E)|(n & E & Hex & _)]]; rewrite E.
    - by exists l.
    - exists l. rewrite lookup_delete_ne; [done|]. intros ->. by apply (Ho realm').
    - destruct (decide (il_id n = il_id l)) as [He|Hne].
      + rewrite He in *. destruct (Hex l Hin) as [[= H1 H2 H3 H4] Hv]. exists n. rewrite He, lookup_insert_eq.
        destruct Hlk as (V & R & P & S). split_and!; try done. unfold linked. split_and!; [by apply Hv|congruence..].
      + exists l. by rewrite lookup_insert_ne. }
  destruct (lookup_link_spec realm prov subject _ (step_links_ok o saved s Hok)) as (r' & Hr' & Hl').
  exists l'. split; [|done]. rewrite Hr'. f_equal. by apply Hl'.
Qed.

End Ciam.

(** * Witnesses *)

#[local] Instance plain_constant_time : ConstantTimeEq := {| constant_time_eq := String.eqb; constant_time_eq_spec := String.eqb_eq |}.

Definition ex_digest : string := "0123456789abcdef0123456789abcdef0123456789abcdef0123456789abcdef".
Definition ex_other : string := "fedcba9876543210fedcba9876543210fedcba9876543210fedcba9876543210".
Definition ex_proof : string := "ml2:" +:+ ex_digest +:+ ":" +:+ ex_other.

Definition ex_user : User :=
  {| u_id := "u1"; u_realm_id := "r"; email := Some "a@example.org"; email_verified := true; display_name := None;
     failed_login_attempts := 0; locked_until := None; org := None |}.

Definition ex_store : CiamStore (Num := N) :=
  {| cs_users := {["u1" := ex_user]}; cs_passwords := ∅; ciam_consent_grants := ∅; ciam_verification_challenges := ∅;
     ciam_identity_links := ∅; password_reset_tokens := ∅; ciam_profiles := ∅ |}.

Definition ex_challenge : CiamVerificationChallengeRecord :=
  {| vc_id := "c1"; vc_realm_id := "r"; vc_user_id := "u1"; channel := "email"; address := "a@example.org";
     purpose := "email_magic_link"; code_hash := ex_proof; vc_attempt_count := 0; vc_expires_at := 400; vc_consumed_at := None;
     vc_created_at := 100 |}.

Definition ex_issued : CiamStore := run_op (IssueEmail ex_challenge 3 600) (Ok tt) ex_store.

(** A link that was issued signs its user in, and a second use of it does not. *)
Lemma magic_link_signs_in_once_witness :
  ∃ s', redeem_email_magic_link_challenge (Ok tt) "r" "c1" ex_proof 120 5 ex_issued = (Ok (Some ex_user), s') ∧
    redeem_email_magic_link_challenge (Ok tt) "r" "c1" ex_proof 121 5 (run_op (RevokeGrant "g") (Ok tt) s')
    = (Ok None, run_op (RevokeGrant "g") (Ok tt) s').
Proof.
  eexists. split; [vm_compute; reflexivity|].
  refine (proj2 (magic_link_signs_in_once (Ok tt) "r" "c1" ex_proof 120 5 ex_issued ex_user _ _) _ _ _ _ _ _ _).
  - vm_compute. reflexivity.
  - apply rtc_once. by exists (RevokeGrant "g"), (Ok tt).
Defined.

Definition ex_link (id user : string) (ok : bool) : CiamIdentityLink (Num := N) :=
  {| il_id := id; il_realm_id := "r"; il_user_id := user; provider := "idp"; external_subject := "sub"; external_email := None;
     il_profile_json := VObject []; linked_at_epoch_seconds := 10; verified := ok |}.

(** A linked identity keeps its account when another link claims it. *)
Lemma external_identity_unique_witness :
  ∃ l, get_ciam_identity_link_by_external_subject "r" "idp" "sub"
         (run_op (StoreLink (ex_link "l2" "u1" true)) (Ok tt) (run_op (StoreLink (ex_link "l1" "u1" true)) (Ok tt) ex_store))
       = Ok (Some l) ∧ il_id l = "l1" ∧ il_user_id l = "u1".
Proof.
  destruct (external_identity_unique ex_store (run_op (StoreLink (ex_link "l1" "u1" true)) (Ok tt) ex_store) "r" "idp" "sub" eq_refl)
    as (r & Hr & _ & Hl).
  - apply rtc_once. by exists (StoreLink (ex_link "l1" "u1" true)), (Ok tt).
  - assert (r = Some (ex_link "l1" "u1" true)) as ->.
    { assert (Ok r = Ok (E := QidError) (Some (ex_link "l1" "u1" true))) as [= ->]; [|done]. rewrite <- Hr. vm_compute. reflexivity. }
    exact (Hl _ (StoreLink (ex_link "l2" "u1" true)) (Ok tt) eq_refl ltac:(done)).
Defined.

Definition ex_token : PasswordResetToken (Num := N) :=
  {| rt_id := "t1"; rt_realm_id := "r"; rt_user_id := "u1"; token_hash := ex_digest; rt_device_id := Some "d"; risk_json := VObject [];
     rt_expires_at := 900; rt_consumed_at := None; rt_created_at := 100 |}.
Definition ex_cred : PasswordCredential := {| pw_user_id := "u1"; pw_hash := "new"; pw_algorithm := "argon2id" |}.
Definition ex_reset : CiamStore := run_op (IssueReset ex_token 3 600) (Ok tt) ex_store.

(** A reset replaces the password, and the same token does not replace it again; a failed write leaves it usable. *)
Lemma password_reset_once_witness :
  (∃ s', replace_password_with_reset_token Tokens.Immediate (Ok tt) "t1" "r" ex_digest (Some "d") ex_cred 200 ex_reset = (Ok tt, s') ∧
     cs_passwords s' !! "u1" = Some ex_cred ∧
     ∃ e, replace_password_with_reset_token (Tokens.Interval 5) (Ok tt) "t1" "r" ex_digest (Some "d") ex_cred 201 s' = (Err e, s')) ∧
  replace_password_with_reset_token Tokens.Immediate (Err (Internal "disk full")) "t1" "r" ex_digest (Some "d") ex_cred 200 ex_reset
  = (Err (Internal "disk full"), ex_reset).
Proof.
  split; [|vm_compute; reflexivity].
  pose proof (password_reset_once Tokens.Immediate (Ok tt) "t1" "r" ex_digest (Some "d") ex_cred 200 ex_reset) as H.
  destruct (replace_password_with_reset_token _ _ _ _ _ _ _ _ _) as [r s'] eqn:E.
  assert (r = Ok tt) as -> by (change r with ((r, s').1); rewrite <- E; vm_compute; reflexivity).
  destruct H as [(t & _ & _ & _ & _ & _ & _ & _ & Hs) Hlater]. exists s'. split; [done|]. split.
  - rewrite Hs. apply lookup_insert_eq.
  - exact (proj1 (Hlater s' (Tokens.Interval 5) (Ok tt) "r" ex_digest (Some "d") ex_cred 201 (rtc_refl _ _))).
Defined.

End Ciam.
