(* ===== verification/Admin.v ===== *)
(** The admin API: who may do what (src/qid-admin/src/authz.rs), the handlers of realms, users, clients,
    sessions, token families, the audit log and break-glass revocation (directory.rs, identity.rs, ops.rs,
    audit.rs), and the admin tables of the file repository (src/qid-storage/src/file/admin.rs) with the
    rule that binds an elevation to its session (src/qid-core/src/models/admin.rs).

    The state is the account store, the admin tables, the audit log, the recorded PEP decisions and the
    two session caches.  A [World] gives every reading of the clock, every identifier and every outcome
    of a write.  An error is the answer [error_response] makes of it.  SHA-256, base64url, the text
    hashed for an audit event, the stored form of a client and the [Debug] text of a list are parameters. *)

From S2P Require Import Prelude Utf8 Json Request Push Tokens Accounts AuditChain OAuth.
Import Accounts Request.

Module Admin.

(** * Records (src/qid-core/src/models/admin.rs) *)

Record Admin : Type := { ad_id : string; ad_tenant_id : string; ad_subject : string; roles : list string; ad_created_at : N }.

Record AdminElevation : Type := {
  el_id : string; el_tenant_id : string; el_admin_id : string; source_session_id : option string; el_acr : option string;
  el_amr : list string; elevation_expires_at : N; el_created_at : N
}.

Record AdminApproval : Type := {
  ap_id : string; ap_tenant_id : string; approver_admin_id : string; target_admin_id : string; ap_reason : option string;
  approved_at : N; ap_expires_at : N; ap_consumed : bool
}.

(** [AdminSecurityConfig] of src/qid-core/src/config/runtime.rs. *)
Record AdminSecurityConfig : Type := {
  require_reason : bool; require_step_up : bool; required_acr : string; required_amr : list string; max_elevation_seconds : N;
  require_approval : bool; max_approval_age_seconds : N; breakglass_enabled : bool
}.

Definition validate_security (c : AdminSecurityConfig) : QidResult unit :=
  if require_step_up c && Utf8.blank (required_acr c)
  then Err (Config "admin.security.required_acr must not be empty when step-up is required")
  else if require_step_up c && bool_decide (required_amr c = [])
  then Err (Config "admin.security.required_amr must not be empty when step-up is required")
  else if require_step_up c && existsb Utf8.blank (required_amr c)
  then Err (Config "admin.security.required_amr must not contain empty values")
  else if max_elevation_seconds c =? 0 then Err (Config "admin.security.max_elevation_seconds must be greater than zero")
  else if require_approval c && (max_approval_age_seconds c =? 0)
  then Err (Config "admin.security.max_approval_age_seconds must be greater than zero when approval is required")
  else Ok tt.

(** What the handlers read of the configuration. *)
Record ConfiguredRealm : Type := { rc_id : string; rc_tenant_id : option string; rc_display_name : option string }.
Record Configuration : Type := {
  security : AdminSecurityConfig; audit_fail_closed : bool; config_realms : list ConfiguredRealm; emergency_read_only : bool
}.

Record PepDecisionRecord : Type := {
  decision_id : string; pd_realm : string; pd_decision : string; policy_id : option string; policy_tags : list string;
  request_id : option string; pd_created_at : N
}.

(** * The admin tables (src/qid-storage/src/file/admin.rs) *)

Record AdminStore : Type := {
  admins : gmap string Admin; admin_elevations : gmap string AdminElevation; admin_approvals : gmap string AdminApproval
}.

Definition of_identity (tenant subject : string) (s : AdminStore) : list Admin :=
  List.filter (fun a => String.eqb (ad_tenant_id a) tenant && String.eqb (ad_subject a) subject) (values (admins s)).

Definition get_admin (tenant subject : string) (s : AdminStore) : QidResult (option Admin) :=
  Tokens.unique_match (of_identity tenant subject s) "ambiguous admin identity".

Definition get_admin_by_id (id : string) (s : AdminStore) : option Admin := admins s !! id.

Definition with_roles (a : Admin) (rs : list string) : Admin :=
  {| ad_id := ad_id a; ad_tenant_id := ad_tenant_id a; ad_subject := ad_subject a; roles := rs; ad_created_at := ad_created_at a |}.

(** The incumbent is changed where it is stored. *)
Definition upsert_admin (saved : QidResult unit) (a : Admin) (s : AdminStore) : QidResult unit * AdminStore :=
  match Tokens.unique_match
          (List.filter (fun p => String.eqb (ad_tenant_id p.2) (ad_tenant_id a) && String.eqb (ad_subject p.2) (ad_subject a))
             (map_to_list (admins s))) "ambiguous admin identity" with
  | Err e => (Err e, s)
  | Ok found =>
      (saved, {| admins := match found with
                           | Some (k, incumbent) => <[k := with_roles incumbent (roles a)]> (admins s)
                           | None => <[ad_id a := a]> (admins s)
                           end;
                 admin_elevations := admin_elevations s; admin_approvals := admin_approvals s |})
  end.

Definition get_admin_elevation (id : string) (s : AdminStore) : option AdminElevation := admin_elevations s !! id.

Definition store_admin_elevation (saved : QidResult unit) (e : AdminElevation) (s : AdminStore) : QidResult unit * AdminStore :=
  match Tokens.reject_duplicate_id (Push.is_some (admin_elevations s !! el_id e))
          ("Admin elevation ID " +:+ el_id e +:+ " already exists") with
  | Err er => (Err er, s)
  | Ok _ => (saved, {| admins := admins s; admin_elevations := <[el_id e := e]> (admin_elevations s);
                       admin_approvals := admin_approvals s |})
  end.

Definition get_admin_approval (id : string) (s : AdminStore) : option AdminApproval := admin_approvals s !! id.

Definition store_admin_approval (saved : QidResult unit) (a : AdminApproval) (s : AdminStore) : QidResult unit * AdminStore :=
  match Tokens.reject_duplicate_id (Push.is_some (admin_approvals s !! ap_id a))
          ("Admin approval ID " +:+ ap_id a +:+ " already exists") with
  | Err er => (Err er, s)
  | Ok _ => (saved, {| admins := admins s; admin_elevations := admin_elevations s;
                       admin_approvals := <[ap_id a := a]> (admin_approvals s) |})
  end.

Definition consumed_approval (a : AdminApproval) : AdminApproval :=
  {| ap_id := ap_id a; ap_tenant_id := ap_tenant_id a; approver_admin_id := approver_admin_id a;
     target_admin_id := target_admin_id a; ap_reason := ap_reason a; approved_at := approved_at a;
     ap_expires_at := ap_expires_at a; ap_consumed := true |}.

Definition consume_admin_approval_if_unconsumed (saved : QidResult unit) (id : string) (s : AdminStore)
    : QidResult bool * AdminStore :=
  match Tokens.opt_filter (fun a => negb (ap_consumed a)) (admin_approvals s !! id) with
  | None => (Ok false, s)
  | Some a => (res_map (fun _ => true) saved,
               {| admins := admins s; admin_elevations := admin_elevations s;
                  admin_approvals := <[id := consumed_approval a]> (admin_approvals s) |})
  end.

(** * Roles and headers *)

Definition ADMIN_REASON_HEADER : string := "x-qid-admin-reason".
Definition ADMIN_SESSION_ID_HEADER : string := "x-qid-admin-session-id".
Definition ADMIN_APPROVAL_ID_HEADER : string := "x-qid-admin-approval-id".

(** The text of a header, [None] when it is absent or not text. *)
Definition HeaderMap : Type := string → option string.

Definition header_string (headers : HeaderMap) (name : string) : option string :=
  Tokens.opt_filter (fun v => negb (is_empty_str v)) (Utf8.trim_str <$> headers name).

Definition admin_reason (headers : HeaderMap) : QidResult string :=
  ok_or (header_string headers ADMIN_REASON_HEADER)
    (BadRequest (ADMIN_REASON_HEADER +:+ " header is required for admin mutation")).

Inductive AdminPermission : Type :=
| RealmAdmin | AppAdmin | DirectoryAdmin | SecurityAdmin | AuditRead | TenantAdmin | PlatformAdmin | PlatformSecurityAdmin
| PlatformAuditRead | BreakGlass.

#[global] Instance permission_eq_dec : EqDecision AdminPermission.
Proof. solve_decision. Defined.

Definition role_allows (permission : AdminPermission) (role : string) (sec : AdminSecurityConfig) : bool :=
  if String.eqb role "tenant.owner" then bool_decide (permission = TenantAdmin)
  else if breakglass_enabled sec && String.eqb role "breakglass" then true
  else
    match permission with
    | RealmAdmin => String.eqb role "realm.admin"
    | AppAdmin => String.eqb role "app.admin"
    | DirectoryAdmin => String.eqb role "directory.admin"
    | SecurityAdmin => String.eqb role "security.admin"
    | AuditRead => String.eqb role "auditor" || String.eqb role "security.admin"
    | TenantAdmin => String.eqb role "app.admin" || String.eqb role "realm.admin"
    | PlatformAdmin => String.eqb role "platform.admin"
    | PlatformSecurityAdmin => String.eqb role "platform.admin" || String.eqb role "platform.security.admin"
    | PlatformAuditRead =>
        String.eqb role "platform.admin" || String.eqb role "platform.security.admin" || String.eqb role "platform.auditor"
    | BreakGlass => false
    end.

Section Admin.
Context {Num : Type} `{JsonNumber Num}.
Abbreviation J := (Value Num).
Abbreviation Store := (Accounts.Store (J := J)).
Abbreviation Event := (AuditChain.AuditEvent (Num := Num)).
Abbreviation Log := (AuditChain.AuditLog (Num := Num)).

Definition source_session_is_valid (e : AdminElevation) (a : Admin) (x : Session (J := J)) (u : User) (realm_tenant : option string)
    (now : N) : bool :=
  match source_session_id e with Some id => negb (Utf8.blank id) && String.eqb id (s_id x) | None => false end
  && String.eqb (el_admin_id e) (ad_id a) && String.eqb (el_tenant_id e) (ad_tenant_id a)
  && String.eqb (ad_subject a) (s_user_id x) && String.eqb (s_user_id x) (u_id u) && String.eqb (s_realm_id x) (u_realm_id u)
  && bool_decide (realm_tenant = Some (ad_tenant_id a)) && is_active x now.

(** * State *)

Record World : Type := { w_now : nat → N; w_ulid : nat → string; w_saved : nat → QidResult unit }.

Record St : Type := {
  accounts : Store; tables : AdminStore; audit_log : Log; pep_decisions : list PepDecisionRecord;
  local_sessions : gmap string (list N); shared_cache : gmap string (list N); tick : nat
}.

Context (config : Configuration) (W : World) (flush_mode : Tokens.FileFlushMode).
Context (sha256 : string → list N) (to_vec : list (string * J) → option string) (base64url : list N → string)
  (client_value : OAuth.ClientBody → J) (debug_strings : list string → string).

Definition put_accounts (s : Store) (st : St) : St :=
  {| accounts := s; tables := tables st; audit_log := audit_log st; pep_decisions := pep_decisions st;
     local_sessions := local_sessions st; shared_cache := shared_cache st; tick := tick st |}.
Definition put_tables (t : AdminStore) (st : St) : St :=
  {| accounts := accounts st; tables := t; audit_log := audit_log st; pep_decisions := pep_decisions st;
     local_sessions := local_sessions st; shared_cache := shared_cache st; tick := tick st |}.
Definition put_audit (l : Log) (st : St) : St :=
  {| accounts := accounts st; tables := tables st; audit_log := l; pep_decisions := pep_decisions st;
     local_sessions := local_sessions st; shared_cache := shared_cache st; tick := tick st |}.
Definition next (st : St) : St :=
  {| accounts := accounts st; tables := tables st; audit_log := audit_log st; pep_decisions := pep_decisions st;
     local_sessions := local_sessions st; shared_cache := shared_cache st; tick := S (tick st) |}.

Definition now_seconds : M St N := fun st => (Ok (w_now W (tick st)), next st).
Definition new_ulid : M St string := fun st => (Ok (w_ulid W (tick st)), next st).
Definition read {A} (f : Store → A) : M St A := fun st => (Ok (f (accounts st)), st).
Definition read_tables {A} (f : AdminStore → A) : M St A := fun st => (Ok (f (tables st)), st).
Definition read_audit {A} (f : Log → A) : M St A := fun st => (Ok (f (audit_log st)), st).
Definition require {A} (o : option A) (e : QidError) : M St A := of_result (ok_or o e).
Definition guard (b : bool) (e : QidError) : M St unit := if b then throw e else ret tt.

(** A write of the repository, with the outcome of its save. *)
Definition write {A} (f : QidResult unit → Store → QidResult A * Store) : M St A :=
  fun st => let '(r, s) := f (w_saved W (tick st)) (accounts st) in (r, next (put_accounts s st)).
Definition write_tables {A} (f : QidResult unit → AdminStore → QidResult A * AdminStore) : M St A :=
  fun st => let '(r, t) := f (w_saved W (tick st)) (tables st) in (r, next (put_tables t st)).
Definition write_audit {A} (f : QidResult unit → Log → QidResult A * Log) : M St A :=
  fun st => let '(r, l) := f (w_saved W (tick st)) (audit_log st) in (r, next (put_audit l st)).

(** * Authorization (authz.rs) *)

Definition resolve_admin_approval (headers : HeaderMap) : M St (option AdminApproval) :=
  match header_string headers ADMIN_APPROVAL_ID_HEADER with
  | Some id => read_tables (get_admin_approval id)
  | None => ret None
  end.

Definition invalid_source : QidError := Unauthorized "admin source session is invalid".

(** The tenant of a realm: the stored binding, else the configured one. *)
Definition source_tenant (realm : string) (s : Store) : option string :=
  match get_realm_tenant realm s with
  | Some t => Some t
  | None => List.find (fun r => String.eqb (rc_id r) realm) (config_realms config) ≫= rc_tenant_id
  end.

Definition resolve_authenticated_admin (headers : HeaderMap) : M St (Admin * AdminElevation) :=
  let! session_id := require (header_string headers ADMIN_SESSION_ID_HEADER)
                       (Unauthorized (ADMIN_SESSION_ID_HEADER +:+ " header is required")) in
  let! found := read_tables (get_admin_elevation session_id) in
  let! elevation := require found (Unauthorized "admin elevation session not found") in
  let! found := read_tables (get_admin_by_id (el_admin_id elevation)) in
  let! admin := require found (Unauthorized "admin record for elevation not found") in
  let! source_id := require (Tokens.opt_filter (fun id => negb (Utf8.blank id)) (source_session_id elevation)) invalid_source in
  let! found := read (get_session source_id) in
  let! source := require found invalid_source in
  let! found := read (get_user_by_id (s_user_id source)) in
  let! user := require found invalid_source in
  let! tenant := read (source_tenant (s_realm_id source)) in
  if negb (String.eqb (el_id elevation) session_id) then throw invalid_source
  else
    let! now := now_seconds in
    let! _ := guard (negb (source_session_is_valid elevation admin source user tenant now)) invalid_source in
    ret (admin, elevation).

Definition enforce_admin_tenant_binding (realm : option string) (admin : Admin) (elevation : AdminElevation)
    (approval : option AdminApproval) : M St unit :=
  let! _ := guard (negb (String.eqb (ad_tenant_id admin) (el_tenant_id elevation)))
              (Unauthorized "admin elevation belongs to a different tenant") in
  let! _ := guard (match approval with Some a => negb (String.eqb (ap_tenant_id a) (ad_tenant_id admin)) | None => false end)
              (Unauthorized "admin approval belongs to a different tenant") in
  match realm with
  | None => ret tt
  | Some realm =>
      let! found := read (get_realm_tenant realm) in
      let! tenant := require found (Unauthorized "admin realm tenant binding was not found") in
      guard (negb (String.eqb tenant (ad_tenant_id admin))) (Unauthorized "admin tenant does not match realm tenant")
  end.

Definition enforce_admin_path_tenant_binding (admin : Admin) (tenant_id : string) : QidResult unit :=
  if negb (String.eqb (ad_tenant_id admin) tenant_id) then Err (Unauthorized "admin tenant does not match tenant path") else Ok tt.

(** The elevation carries the assurance the configuration demands. *)
Definition stepped_up (sec : AdminSecurityConfig) (elevation : AdminElevation) : bool :=
  bool_decide (el_acr elevation = Some (required_acr sec)) && existsb (fun m => str_in m (required_amr sec)) (el_amr elevation).

Definition authorize_admin (headers : HeaderMap) (permission : AdminPermission) (sec : AdminSecurityConfig)
    (realm : option string) : M St (Admin * AdminElevation) :=
  let! p := resolve_authenticated_admin headers in
  let '(admin, elevation) := p in
  let! _ := enforce_admin_tenant_binding realm admin elevation None in
  let! _ := guard (require_step_up sec && negb (stepped_up sec elevation))
              (Unauthorized ("admin step-up is required: ACR must be " +:+ required_acr sec +:+ " and AMR must include one of "
                             +:+ debug_strings (required_amr sec))) in
  let! now := now_seconds in
  let! _ := guard (elevation_expires_at elevation <=? now) (Unauthorized "admin elevation has expired") in
  let! _ := guard (max_elevation_seconds sec <? saturating_sub (elevation_expires_at elevation) now)
              (Unauthorized "admin elevation lifetime exceeds configured maximum") in
  let! _ := guard (negb (existsb (fun role => role_allows permission role sec) (roles admin)))
              (Unauthorized "admin role is not allowed for this operation") in
  ret (admin, elevation).

Definition authorize_admin_for_tenant (headers : HeaderMap) (permission : AdminPermission) (sec : AdminSecurityConfig)
    (tenant_id : string) : M St (Admin * AdminElevation) :=
  let! p := authorize_admin headers permission sec None in
  let! _ := of_result (enforce_admin_path_tenant_binding p.1 tenant_id) in
  ret p.

Definition already_consumed : QidError := Unauthorized "admin approval has already been consumed".

(** The approval a mutation presents, before the admin is authorized. *)
Definition check_approval (sec : AdminSecurityConfig) (stored : option AdminApproval) : M St unit :=
  match stored with
  | Some a =>
      if ap_consumed a then throw already_consumed
      else
        let! now := now_seconds in
        guard (ap_expires_at a <=? now) (Unauthorized "admin approval has expired")
  | None => guard (require_approval sec) (Unauthorized "admin approval is required but no approval record was found")
  end.

(** The approval is bound to the admin and spent. *)
Definition spend_approval (realm : option string) (admin : Admin) (elevation : AdminElevation) (stored : option AdminApproval)
    : M St unit :=
  match stored with
  | Some a =>
      let! _ := enforce_admin_tenant_binding realm admin elevation (Some a) in
      let! _ := guard (negb (String.eqb (target_admin_id a) (ad_id admin)))
                  (Unauthorized "admin approval targets a different admin") in
      let! consumed := write_tables (fun saved => consume_admin_approval_if_unconsumed saved (ap_id a)) in
      guard (negb consumed) already_consumed
  | None => ret tt
  end.

Definition authorize_admin_mutation (headers : HeaderMap) (permission : AdminPermission) (sec : AdminSecurityConfig)
    (realm : option string) : M St (Admin * AdminElevation) :=
  let! _ := (if require_reason sec then let! _ := of_result (admin_reason headers) in ret tt else ret tt) in
  let! stored := resolve_admin_approval headers in
  let! _ := check_approval sec stored in
  let! p := authorize_admin headers permission sec realm in
  let '(admin, elevation) := p in
  let! _ := spend_approval realm admin elevation stored in
  ret (admin, elevation).

Definition authorize_admin_mutation_for_tenant (headers : HeaderMap) (permission : AdminPermission) (sec : AdminSecurityConfig)
    (tenant_id : string) : M St (Admin * AdminElevation) :=
  let! p := authorize_admin_mutation headers permission sec None in
  let! _ := of_result (enforce_admin_path_tenant_binding p.1 tenant_id) in
  ret p.

Definition authorize_breakglass_mutation (headers : HeaderMap) (sec : AdminSecurityConfig) (realm : option string)
    : M St (Admin * AdminElevation) :=
  let! _ := guard (negb (breakglass_enabled sec)) (Unauthorized "break-glass operations are disabled") in
  let! _ := (if require_reason sec then let! _ := of_result (admin_reason headers) in ret tt else ret tt) in
  let! stored := resolve_admin_approval headers in
  let! _ := check_approval sec stored in
  let! p := authorize_admin headers BreakGlass sec realm in
  let '(admin, elevation) := p in
  let! _ := spend_approval realm admin elevation stored in
  ret (admin, elevation).

(** * The audit trail of the handlers (audit.rs) *)

Definition json_number (n : N) : J := VNumber (num_from_u64 n).
Definition json_list (l : list string) : J := VArray (map VString l).

Definition admin_session_metadata (admin : Admin) (elevation : AdminElevation) : J :=
  VObject [("acr", AuditChain.json_opt (el_acr elevation)); ("admin_id", VString (ad_id admin)); ("amr", json_list (el_amr elevation));
           ("elevation_expires_at", json_number (elevation_expires_at elevation)); ("roles", json_list (roles admin));
           ("subject", VString (ad_subject admin)); ("tenant_id", VString (ad_tenant_id admin))].

(** [admin_reason(headers).unwrap_or_else(|_| "not-required")] *)
Definition reason_or (headers : HeaderMap) : string := match admin_reason headers with Ok r => r | Err _ => "not-required" end.

Definition append_admin_audit (headers : HeaderMap) (admin : Admin) (elevation : AdminElevation) (realm_id : option string)
    (action target_type target_id : string) (metadata : J) : M St unit :=
  let! event_id := new_ulid in
  let! why := (if require_reason (security config) then of_result (admin_reason headers) else ret (reason_or headers)) in
  let! now := now_seconds in
  write_audit (fun saved => AuditChain.append_audit_event sha256 to_vec saved
    {| AuditChain.id := event_id; AuditChain.realm_id := realm_id; AuditChain.actor := ad_subject admin; AuditChain.action := action;
       AuditChain.target_type := target_type; AuditChain.target_id := target_id; AuditChain.reason := why;
       AuditChain.metadata_json := VObject [("admin_session", admin_session_metadata admin elevation); ("operation", metadata)];
       AuditChain.created_at := now; AuditChain.previous_hash := None; AuditChain.event_hash := None |}).

(** Degrades to a warning unless fail-closed is configured. *)
Definition record_admin_audit_or_warn (headers : HeaderMap) (admin : Admin) (elevation : AdminElevation) (realm_id : option string)
    (action target_type target_id : string) (metadata : J) : M St unit :=
  fun st =>
    match append_admin_audit headers admin elevation realm_id action target_type target_id metadata st with
    | (Ok _, st') => (Ok tt, st')
    | (Err e, st') =>
        if audit_fail_closed config
        then (Err (Internal ("admin mutation rejected because audit append failed: " +:+ error_message e)), st')
        else (Ok tt, st')
    end.

(** * Handlers: realms, users and clients (directory.rs) *)

(** What a handler answers: a status with a JSON body, or a typed body that is serialized. *)
Inductive Answer : Type :=
| Json (status : N) (v : J)
| NoContent
| Sessions (l : list (Session (J := J)))
| Families (l : list (Tokens.TokenFamily (J := J)))
| Decisions (l : list PepDecisionRecord)
| Retention (c : AuditChain.AuditRetentionConfig)
| RetentionPlan (p : AuditChain.AuditRetentionEnforcementPlan)
| Verification (v : AuditChain.AuditChainVerification).

Definition not_found (what : string) : Answer := Json 404 (VObject [("error", VString (what +:+ " not found"))]).

Definition admin_read (headers : HeaderMap) (permission : AdminPermission) (scope : option string) : M St (Admin * AdminElevation) :=
  authorize_admin headers permission (security config) scope.
Definition admin_mutation (headers : HeaderMap) (permission : AdminPermission) (scope : option string) : M St (Admin * AdminElevation) :=
  authorize_admin_mutation headers permission (security config) scope.

(** [audit_no_content]: the operation's error, else its audit event, then no content. *)
Definition audit_no_content (operation : M St unit) (headers : HeaderMap) (admin : Admin) (elevation : AdminElevation)
    (realm_id : option string) (action target_type target_id : string) (metadata : J) : M St Answer :=
  let! _ := operation in
  let! _ := append_admin_audit headers admin elevation realm_id action target_type target_id metadata in
  ret (Json 204 (VObject [])).

Definition list_realms (headers : HeaderMap) : M St Answer :=
  let! _ := admin_read headers RealmAdmin None in
  let! realms := read Accounts.list_realms in
  ret (Json 200 (VArray (map (fun p => VObject [("id", VString p.1); ("issuer", VString p.2)]) realms))).

Record CreateRealmRequest : Type := { cr_id : string; cr_issuer : string; cr_display_name : option string }.

Definition create_realm (headers : HeaderMap) (req : CreateRealmRequest) : M St Answer :=
  let! p := admin_mutation headers RealmAdmin None in
  let '(admin, elevation) := p in
  let! _ := write (fun saved => Accounts.create_realm flush_mode saved (ad_tenant_id admin) (cr_id req) (cr_issuer req)) in
  let! _ := append_admin_audit headers admin elevation (Some (cr_id req)) "realm.create" "realm" (cr_id req)
              (VObject [("display_name", AuditChain.json_opt (cr_display_name req)); ("issuer", VString (cr_issuer req))]) in
  ret (Json 201 (VObject [("id", VString (cr_id req)); ("issuer", VString (cr_issuer req))])).

Definition get_realm (headers : HeaderMap) (realm : string) : M St Answer :=
  let! _ := admin_read headers RealmAdmin (Some realm) in
  let! found := read (get_realm_issuer realm) in
  match found with
  | Some issuer =>
      ret (Json 200 (VObject [("display_name", AuditChain.json_opt
                                 (List.find (fun r => String.eqb (rc_id r) realm) (config_realms config) ≫= rc_display_name));
                              ("id", VString realm); ("issuer", VString issuer)]))
  | None => ret (not_found "realm")
  end.

Definition delete_realm (headers : HeaderMap) (realm : string) : M St Answer :=
  let! p := admin_mutation headers RealmAdmin (Some realm) in
  let '(admin, elevation) := p in
  audit_no_content (write (fun saved => Accounts.delete_realm flush_mode saved realm (ad_tenant_id admin)))
    headers admin elevation (Some realm) "realm.delete" "realm" realm (VObject []).

Record DirectoryListQuery : Type := { dq_limit : option nat; dq_offset : option nat }.

Definition directory_page (q : DirectoryListQuery) : nat * nat := (default 0%nat (dq_offset q), Nat.min (default 100%nat (dq_limit q)) 500).

Definition user_json (u : User) : J :=
  VObject [("display_name", AuditChain.json_opt (display_name u)); ("email", AuditChain.json_opt (email u));
           ("email_verified", VBool (email_verified u)); ("id", VString (u_id u)); ("realm_id", VString (u_realm_id u))].

Definition list_users (headers : HeaderMap) (realm : string) (q : DirectoryListQuery) : M St Answer :=
  let! _ := admin_read headers DirectoryAdmin (Some realm) in
  let '(offset, limit) := directory_page q in
  let! us := read (list_users_page realm offset limit) in
  ret (Json 200 (VArray (map user_json us))).

Record CreateUserRequest : Type := { cu_id : option string; cu_email : string; cu_display_name : option string }.

Definition create_user (headers : HeaderMap) (realm : string) (req : CreateUserRequest) : M St Answer :=
  let! p := admin_mutation headers DirectoryAdmin (Some realm) in
  let '(admin, elevation) := p in
  let! user_id := match cu_id req with Some id => ret id | None => new_ulid end in
  let user := {| u_id := user_id; u_realm_id := realm; email := Some (cu_email req); email_verified := false;
                 display_name := cu_display_name req; failed_login_attempts := 0; locked_until := None; org := None |} in
  let! _ := write (fun saved => Accounts.create_user saved user) in
  let! _ := append_admin_audit headers admin elevation (Some realm) "user.create" "user" user_id
              (VObject [("display_name", AuditChain.json_opt (display_name user)); ("email", AuditChain.json_opt (email user))]) in
  ret (Json 201 (user_json user)).

Definition get_user (headers : HeaderMap) (realm user_id : string) : M St Answer :=
  let! _ := admin_read headers DirectoryAdmin (Some realm) in
  let! found := read (get_user_by_id user_id) in
  match found with
  | Some u => if negb (String.eqb (u_realm_id u) realm) then throw (NotFound ("user " +:+ user_id)) else ret (Json 200 (user_json u))
  | None => ret (not_found "user")
  end.

Record UpdateUserRequest : Type := { uu_email : option string; uu_display_name : option string; uu_email_verified : option bool }.

Definition updated_user (req : UpdateUserRequest) (user_id : string) (existing : User) : User :=
  {| u_id := user_id; u_realm_id := u_realm_id existing;
     email := match uu_email req with Some e => Some e | None => email existing end;
     email_verified := default (email_verified existing) (uu_email_verified req);
     display_name := match uu_display_name req with Some n => Some n | None => display_name existing end;
     failed_login_attempts := failed_login_attempts existing; locked_until := locked_until existing; org := org existing |}.

Definition update_user (headers : HeaderMap) (realm user_id : string) (req : UpdateUserRequest) : M St Answer :=
  let! p := admin_mutation headers DirectoryAdmin (Some realm) in
  let '(admin, elevation) := p in
  let! found := read (get_user_by_id user_id) in
  match found with
  | None => ret (not_found "user")
  | Some existing =>
      let! _ := guard (negb (String.eqb (u_realm_id existing) realm)) (NotFound ("user " +:+ user_id)) in
      let updated := updated_user req user_id existing in
      let! _ := write (fun saved => Accounts.update_user saved updated (Some realm)) in
      let! _ := append_admin_audit headers admin elevation (Some realm) "user.update" "user" user_id
                  (VObject [("display_name_changed", VBool (Push.is_some (uu_display_name req)));
                            ("email_changed", VBool (Push.is_some (uu_email req)));
                            ("email_verified_changed", VBool (Push.is_some (uu_email_verified req)))]) in
      ret (Json 200 (user_json updated))
  end.

Definition delete_user (headers : HeaderMap) (realm user_id : string) : M St Answer :=
  let! p := admin_mutation headers DirectoryAdmin (Some realm) in
  let '(admin, elevation) := p in
  let! found := read (get_user_by_id user_id) in
  match found with
  | None => ret (not_found "user")
  | Some existing =>
      let! _ := guard (negb (String.eqb (u_realm_id existing) realm)) (NotFound ("user " +:+ user_id)) in
      audit_no_content (write (fun saved => Accounts.delete_user saved user_id (Some realm)))
        headers admin elevation (Some realm) "user.delete" "user" user_id (VObject [])
  end.

Context (client_of : J → OAuth.ClientBody).

Definition client_type_text (t : OAuth.ClientType) : string :=
  match t with OAuth.Public => "public" | OAuth.Confidential => "confidential" end.

Definition client_json (c : Client (J := J)) : J :=
  let b := client_of (c_body c) in
  VObject [("client_id", VString (client_id c)); ("client_type", VString (client_type_text (OAuth.client_type b)));
           ("grant_types", json_list (OAuth.grant_types b)); ("id", VString (c_id c)); ("realm_id", VString (c_realm_id c));
           ("redirect_uris", json_list (OAuth.redirect_uris b))].

Definition list_clients (headers : HeaderMap) (realm : string) (q : DirectoryListQuery) : M St Answer :=
  let! _ := admin_read headers TenantAdmin (Some realm) in
  let '(offset, limit) := directory_page q in
  let! cs := read (list_clients_page realm offset limit) in
  ret (Json 200 (VArray (map client_json cs))).

Record CreateClientRequest : Type := {
  cc_client_id : string; cc_client_type : OAuth.ClientType; cc_client_secret : option string; cc_redirect_uris : list string;
  cc_grant_types : list string
}.

(** The secret a client of that type is stored with. *)
Definition new_client_secret (req : CreateClientRequest) : QidResult (option string) :=
  match cc_client_type req, cc_client_secret req with
  | OAuth.Public, Some _ => Err (BadRequest "public clients must not declare client_secret")
  | OAuth.Public, None => Ok None
  | OAuth.Confidential, None => Err (BadRequest "confidential clients require client_secret")
  | OAuth.Confidential, Some secret => Ok (Some (OAuth.client_secret_hash_of sha256 base64url secret))
  end.

Definition new_client_body (req : CreateClientRequest) (secret : option string) : OAuth.ClientBody :=
  {| OAuth.client_type := cc_client_type req;
     OAuth.token_endpoint_auth_method := match cc_client_type req with OAuth.Public => "none" | OAuth.Confidential => "client_secret_basic" end;
     OAuth.client_secret_hash := secret; OAuth.mtls_certificate_thumbprints := []; OAuth.redirect_uris := cc_redirect_uris req;
     OAuth.grant_types := cc_grant_types req; OAuth.sector_identifier_uri := None; OAuth.subject_type := None |}.

Definition create_client (headers : HeaderMap) (realm : string) (req : CreateClientRequest) : M St Answer :=
  let! p := admin_mutation headers AppAdmin (Some realm) in
  let '(admin, elevation) := p in
  let! secret := of_result (new_client_secret req) in
  let! id := new_ulid in
  let c := {| c_id := id; c_realm_id := realm; client_id := cc_client_id req; c_body := client_value (new_client_body req secret) |} in
  let! _ := write (fun saved => Accounts.create_client saved c) in
  let! _ := append_admin_audit headers admin elevation (Some realm) "client.create" "client" (client_id c)
              (VObject [("client_type", VString (client_type_text (cc_client_type req)));
                        ("grant_types", json_list (cc_grant_types req)); ("redirect_uris", json_list (cc_redirect_uris req))]) in
  ret (Json 201 (VObject [("client_id", VString (client_id c)); ("client_type", VString (client_type_text (cc_client_type req)));
                          ("grant_types", json_list (cc_grant_types req)); ("id", VString id); ("realm_id", VString realm);
                          ("redirect_uris", json_list (cc_redirect_uris req))])).

Definition delete_client (headers : HeaderMap) (realm cid : string) : M St Answer :=
  let! p := admin_mutation headers AppAdmin (Some realm) in
  let '(admin, elevation) := p in
  let! found := read (get_client_by_client_id realm cid) in
  match found with
  | None => ret (not_found "client")
  | Some c =>
      audit_no_content (write (fun saved => Accounts.delete_client saved realm (c_id c)))
        headers admin elevation (Some realm) "client.delete" "client" cid (VObject [("client_internal_id", VString (c_id c))])
  end.

(** * Handlers: sessions and token families (identity.rs) *)

Definition list_sessions_handler (headers : HeaderMap) (realm : string) (user : option string) : M St Answer :=
  let! _ := admin_read headers SecurityAdmin (Some realm) in
  let! l := read (list_sessions realm user) in
  ret (Sessions l).

Definition list_token_families_handler (headers : HeaderMap) (realm : string) (user client : option string) : M St Answer :=
  let! _ := admin_read headers SecurityAdmin (Some realm) in
  let! r := read (fun s => Tokens.list_token_families realm user client (tokens s)) in
  let! l := of_result r in
  ret (Families l).

Definition MAX_DECISIONS : nat := 1000.

Definition record_pep_decision (r : PepDecisionRecord) (decisions : list PepDecisionRecord) : list PepDecisionRecord :=
  (if (MAX_DECISIONS <=? length decisions)%nat then tail decisions else decisions) ++ [r].

Definition list_pep_decisions_handler (headers : HeaderMap) (realm : string) (limit offset : option nat) : M St Answer :=
  let! _ := admin_read headers AuditRead (Some realm) in
  let! st := get_state in
  ret (Decisions (take (Nat.min (default 50%nat limit) 200)
                    (drop (default 0%nat offset) (List.filter (fun d => String.eqb (pd_realm d) realm) (pep_decisions st))))).

(** [SharedState::session_cache_delete] (src/qid-core/src/state.rs): both caches. *)
Definition SESSION_CACHE_NAMESPACE : string := "session".
Definition session_cache_delete (sid : string) : M St unit :=
  fun st => (Ok tt, {| accounts := accounts st; tables := tables st; audit_log := audit_log st; pep_decisions := pep_decisions st;
                       local_sessions := delete sid (local_sessions st);
                       shared_cache := delete (SESSION_CACHE_NAMESPACE +:+ ":" +:+ sid) (shared_cache st); tick := tick st |}).

Definition forced : J := VObject [("forced", VBool true)].

Definition revoke_session_handler (headers : HeaderMap) (realm session_id : string) : M St Answer :=
  let! p := admin_mutation headers SecurityAdmin (Some realm) in
  let '(admin, elevation) := p in
  let! found := read (get_session session_id) in
  let! _ := guard (match found with Some x => negb (String.eqb (s_realm_id x) realm) | None => true end)
              (NotFound ("session " +:+ session_id)) in
  let! _ := write (fun saved => revoke_session saved session_id (Some realm)) in
  let! _ := session_cache_delete session_id in
  let! _ := record_admin_audit_or_warn headers admin elevation (Some realm) "admin.session_revoke" "session" session_id forced in
  ret NoContent.

Definition revoke_token_family_handler (headers : HeaderMap) (realm family_id : string) : M St Answer :=
  let! p := admin_mutation headers SecurityAdmin (Some realm) in
  let '(admin, elevation) := p in
  let! r := read (fun s => Tokens.get_token_family family_id (tokens s)) in
  let! found := of_result r in
  let! _ := guard (match found with Some f => negb (String.eqb (Tokens.tf_realm_id f) realm) | None => true end)
              (NotFound ("token family " +:+ family_id)) in
  let! _ := write (fun saved s => let '(r, t) := Tokens.revoke_token_family saved family_id realm (tokens s) in (r, OAuth.set_tokens s t)) in
  let! _ := record_admin_audit_or_warn headers admin elevation (Some realm) "admin.token_family_revoke" "token_family" family_id forced in
  ret NoContent.

(** * Handlers: break-glass (ops.rs) *)

Definition breakglass_revoke_session (headers : HeaderMap) (session_id incident_id justification : string) : M St Answer :=
  let! p := authorize_breakglass_mutation headers (security config) None in
  let '(admin, elevation) := p in
  let! _ := guard (Utf8.blank incident_id || Utf8.blank justification)
              (BadRequest "break-glass incident_id and justification are required") in
  let! found := read (get_session session_id) in
  match found with
  | None => ret (not_found "session")
  | Some x =>
      let! bound := read (get_realm_tenant (s_realm_id x)) in
      let! tenant := require bound (Unauthorized "session realm tenant binding was not found") in
      let! _ := guard (negb (String.eqb tenant (ad_tenant_id admin)))
                  (Unauthorized "admin tenant does not match session realm tenant") in
      let! _ := write (fun saved => revoke_session saved session_id (Some (s_realm_id x))) in
      let! _ := session_cache_delete session_id in
      let! _ := append_admin_audit headers admin elevation (Some (s_realm_id x)) "breakglass.session_revoke" "session" session_id
                  (VObject [("breakglass", VBool true); ("emergency_read_only", VBool (emergency_read_only config));
                            ("incident_id", VString (Utf8.trim_str incident_id)); ("justification", VString (Utf8.trim_str justification));
                            ("target_realm_id", VString (s_realm_id x)); ("target_user_id", VString (s_user_id x))]) in
      ret (Json 200 (VObject [("incident_id", VString (Utf8.trim_str incident_id)); ("realm_id", VString (s_realm_id x));
                              ("revoked", VBool true); ("session_id", VString session_id); ("user_id", VString (s_user_id x))]))
  end.

(** * Handlers: the audit log (audit.rs) *)

Record AuditQuery : Type := { aq_limit : option nat; aq_include_metadata : option bool }.

Definition audit_limit (requested : option nat) : nat := Nat.min (Nat.max (default 100%nat requested) 1) 500.

Definition audit_event_json (e : Event) (include_metadata : bool) : J :=
  VObject [("action", VString (AuditChain.action e)); ("actor", VString (AuditChain.actor e));
           ("created_at", json_number (AuditChain.created_at e)); ("id", VString (AuditChain.id e));
           ("metadata", if include_metadata then AuditChain.metadata_json e else VObject []);
           ("realm_id", AuditChain.json_opt (AuditChain.realm_id e)); ("reason", VString (AuditChain.reason e));
           ("target_id", VString (AuditChain.target_id e)); ("target_type", VString (AuditChain.target_type e))].

(** The events of a scope: of a realm for its auditors, of all of them for the platform's. *)
Definition audit_items (scope : option string) (q : AuditQuery) : M St Answer :=
  let! events := read_audit (AuditChain.list_audit_events scope (audit_limit (aq_limit q))) in
  ret (Json 200 (VArray (map (fun e => audit_event_json e (default true (aq_include_metadata q))) events))).

Definition list_global_audit (headers : HeaderMap) (q : AuditQuery) : M St Answer :=
  let! _ := admin_read headers PlatformAuditRead None in audit_items None q.

Definition list_realm_audit (headers : HeaderMap) (realm : string) (q : AuditQuery) : M St Answer :=
  let! _ := admin_read headers AuditRead (Some realm) in audit_items (Some realm) q.

(** The walk of the chain gets fuel for each event once; a chain whose links form a cycle, on which the source's walk
    does not end, is answered with an error. *)
Definition verify_audit (scope : option string) : M St Answer :=
  let! v := read_audit (fun log => AuditChain.verify_audit_chain sha256 to_vec (S (length (AuditChain.audit_events log))) scope log) in
  match v with
  | Some v => ret (Verification v)
  | None => throw (Internal "the audit chain is not verified")
  end.

Definition verify_global_audit (headers : HeaderMap) : M St Answer :=
  let! _ := admin_read headers PlatformAuditRead None in verify_audit None.
Definition verify_realm_audit (headers : HeaderMap) (realm : string) : M St Answer :=
  let! _ := admin_read headers AuditRead (Some realm) in verify_audit (Some realm).

Definition audit_retention (scope : option string) : M St Answer :=
  let! found := read_audit (AuditChain.get_audit_retention_config scope) in
  ret (match found with Some c => Retention c | None => not_found "audit retention config" end).

Definition get_global_audit_retention (headers : HeaderMap) : M St Answer :=
  let! _ := admin_read headers PlatformSecurityAdmin None in audit_retention None.
Definition get_realm_audit_retention (headers : HeaderMap) (realm : string) : M St Answer :=
  let! _ := admin_read headers SecurityAdmin (Some realm) in audit_retention (Some realm).

Definition retention_plan (scope : option string) : M St Answer :=
  let! now := now_seconds in
  let! found := read_audit (AuditChain.plan_audit_retention scope now) in
  ret (match found with Some p => RetentionPlan p | None => not_found "audit retention config" end).

Definition plan_global_audit_retention (headers : HeaderMap) : M St Answer :=
  let! _ := admin_read headers PlatformSecurityAdmin None in retention_plan None.
Definition plan_realm_audit_retention (headers : HeaderMap) (realm : string) : M St Answer :=
  let! _ := admin_read headers SecurityAdmin (Some realm) in retention_plan (Some realm).

Definition put_audit_retention (headers : HeaderMap) (realm : option string) (days : N) (legal_hold : bool) : M St Answer :=
  let! p := admin_mutation headers (if Push.is_some realm then SecurityAdmin else PlatformSecurityAdmin) realm in
  let '(admin, elevation) := p in
  let! _ := guard (36500 <? days) (BadRequest "retention_days must be at most 36500") in
  let! now := now_seconds in
  let c := {| AuditChain.rc_realm_id := realm; AuditChain.rc_retention_days := days; AuditChain.rc_legal_hold := legal_hold;
              AuditChain.updated_by := ad_subject admin; AuditChain.rc_reason := reason_or headers; AuditChain.updated_at := now |} in
  let! _ := write_audit (fun saved => AuditChain.set_audit_retention_config saved c) in
  let! _ := append_admin_audit headers admin elevation realm "audit_retention.update" "audit_retention" (default "__global__" realm)
              (VObject [("legal_hold", VBool legal_hold); ("retention_days", json_number days)]) in
  ret (Retention c).

(** * Requests *)

Inductive AdminRequest : Type :=
| ListRealms | CreateRealm (req : CreateRealmRequest) | GetRealm (realm : string) | DeleteRealm (realm : string)
| ListUsers (realm : string) (q : DirectoryListQuery) | CreateUser (realm : string) (req : CreateUserRequest)
| GetUser (realm user : string) | UpdateUser (realm user : string) (req : UpdateUserRequest) | DeleteUser (realm user : string)
| ListClients (realm : string) (q : DirectoryListQuery) | CreateClient (realm : string) (req : CreateClientRequest)
| DeleteClient (realm cid : string)
| ListSessions (realm : string) (user : option string) | RevokeSession (realm sid : string)
| ListFamilies (realm : string) (user client : option string) | RevokeFamily (realm fid : string)
| ListDecisions (realm : string) (limit offset : option nat)
| BreakglassRevoke (sid incident justification : string)
| ListAudit (realm : option string) (q : AuditQuery) | VerifyAudit (realm : option string)
| GetRetention (realm : option string) | PlanRetention (realm : option string)
| PutRetention (realm : option string) (days : N) (hold : bool).

Definition handle (r : AdminRequest) (h : HeaderMap) : M St Answer :=
  match r with
  | ListRealms => list_realms h
  | CreateRealm req => create_realm h req
  | GetRealm realm => get_realm h realm
  | DeleteRealm realm => delete_realm h realm
  | ListUsers realm q => list_users h realm q
  | CreateUser realm req => create_user h realm req
  | GetUser realm user => get_user h realm user
  | UpdateUser realm user req => update_user h realm user req
  | DeleteUser realm user => delete_user h realm user
  | ListClients realm q => list_clients h realm q
  | CreateClient realm req => create_client h realm req
  | DeleteClient realm cid => delete_client h realm cid
  | ListSessions realm user => list_sessions_handler h realm user
  | RevokeSession realm sid => revoke_session_handler h realm sid
  | ListFamilies realm user client => list_token_families_handler h realm user client
  | RevokeFamily realm fid => revoke_token_family_handler h realm fid
  | ListDecisions realm limit offset => list_pep_decisions_handler h realm limit offset
  | BreakglassRevoke sid incident justification => breakglass_revoke_session h sid incident justification
  | ListAudit (Some realm) q => list_realm_audit h realm q
  | ListAudit None q => list_global_audit h q
  | VerifyAudit (Some realm) => verify_realm_audit h realm
  | VerifyAudit None => verify_global_audit h
  | GetRetention (Some realm) => get_realm_audit_retention h realm
  | GetRetention None => get_global_audit_retention h
  | PlanRetention (Some realm) => plan_realm_audit_retention h realm
  | PlanRetention None => plan_global_audit_retention h
  | PutRetention realm days hold => put_audit_retention h realm days hold
  end.

(** * Lemmas: running a request *)

Lemma guarded b e st u st' : guard b e st = (Ok u, st') → b = false ∧ st' = st.
Proof. unfold guard. destruct b; [done|]. by intros [= _ ->]. Qed.
Lemma required {A} (o : option A) e st a st' : require o e st = (Ok a, st') → o = Some a ∧ st' = st.
Proof. unfold require, of_result, ok_or. destruct o; [|done]. by intros [= -> ->]. Qed.
Lemma clock st n st' : now_seconds st = (Ok n, st') → n = w_now W (tick st) ∧ st' = next st.
Proof. by intros [= <- <-]. Qed.

Ltac run :=
  repeat match goal with
  | H : bind _ _ _ = (Ok _, _) |- _ =>
      let a := fresh "a" in let s := fresh "s" in let E := fresh "E" in apply bind_inv in H as (a & s & E & H)
  | H : guard _ _ _ = (Ok _, _) |- _ => apply guarded in H as [H ->]
  | H : require _ _ _ = (Ok _, _) |- _ => apply required in H as [H ->]
  | H : now_seconds _ = (Ok _, _) |- _ => apply clock in H as [-> ->]
  | H : of_result _ _ = (Ok _, _) |- _ => apply of_result_inv in H as [H ->]
  | H : read _ _ = (Ok _, _) |- _ => unfold read in H; injection H as <- <-
  | H : read_tables _ _ = (Ok _, _) |- _ => unfold read_tables in H; injection H as <- <-
  | H : read_audit _ _ = (Ok _, _) |- _ => unfold read_audit in H; injection H as <- <-
  | H : ret _ _ = (Ok _, _) |- _ => unfold ret in H; injection H as <- <-
  | H : throw _ _ = (Ok _, _) |- _ => discriminate H
  end.

(** The admin a request resolves to: the elevation its header names, whose source session is alive and belongs to the user
    the admin is, in a realm of the admin's tenant. *)
Definition elevated (h : HeaderMap) (a : Admin) (e : AdminElevation) (now : N) (st : St) : Prop :=
  ∃ sid src x u, header_string h ADMIN_SESSION_ID_HEADER = Some sid ∧ admin_elevations (tables st) !! sid = Some e ∧ el_id e = sid ∧
    admins (tables st) !! el_admin_id e = Some a ∧ ad_id a = el_admin_id e ∧ el_tenant_id e = ad_tenant_id a ∧
    source_session_id e = Some src ∧ sessions (accounts st) !! src = Some x ∧ s_id x = src ∧
    s_revoked x = false ∧ now ≤ absolute_expires_at x ∧ now ≤ idle_expires_at x ∧
    users (accounts st) !! s_user_id x = Some u ∧ u_id u = s_user_id x ∧ ad_subject a = s_user_id x ∧ u_realm_id u = s_realm_id x ∧
    match realm_tenants (accounts st) !! s_realm_id x with
    | Some t => t = ad_tenant_id a
    | None => ∃ r, r ∈ config_realms config ∧ rc_id r = s_realm_id x ∧ rc_tenant_id r = Some (ad_tenant_id a)
    end.

Lemma source_tenant_spec realm s t :
  source_tenant realm s = Some t →
  match realm_tenants s !! realm with
  | Some t' => t' = t
  | None => ∃ r, r ∈ config_realms config ∧ rc_id r = realm ∧ rc_tenant_id r = Some t
  end.
Proof.
  unfold source_tenant, get_realm_tenant. destruct (realm_tenants s !! realm) as [t'|]; [by intros [= ->]|].
  destruct (List.find _ _) as [r|] eqn:E; [|done]. cbn. intros Ht. apply List.find_some in E as [Hin Hid%String.eqb_eq].
  exists r. split_and!; [by apply list_elem_of_In|done|done].
Qed.

Lemma is_active_spec (x : Session (J := J)) now :
  is_active x now = true → s_revoked x = false ∧ now ≤ absolute_expires_at x ∧ now ≤ idle_expires_at x.
Proof. unfold is_active. rewrite !andb_true_iff, negb_true_iff, !N.leb_le. tauto. Qed.

Lemma resolved h st a e st' :
  resolve_authenticated_admin h st = (Ok (a, e), st') → elevated h a e (w_now W (tick st)) st ∧ st' = next st.
Proof.
  unfold resolve_authenticated_admin. intros Hr. run.
  destruct (String.eqb_spec (el_id a2) a0) as [Hid|]; [|discriminate Hr]. cbn [negb] in Hr. run.
  match goal with V : negb (source_session_is_valid _ _ _ _ _ _) = false |- _ => apply negb_false_iff in V; rename V into Hv end.
  match goal with V : Tokens.opt_filter _ _ = Some _ |- _ => unfold Tokens.opt_filter in V; rename V into Hsrc end.
  destruct (source_session_id a2) as [src|] eqn:Es; [|done]. destruct (negb (Utf8.blank src)); [|done]. injection Hsrc as <-.
  unfold source_session_is_valid in Hv. rewrite Es, !andb_true_iff, !String.eqb_eq, bool_decide_eq_true in Hv.
  destruct Hv as [[[[[[[[_ ?] ?] ?] ?] ?] ?] Htenant] Hactive]. split; [|by symmetry].
  apply source_tenant_spec in Htenant. apply is_active_spec in Hactive as (? & ? & ?).
  eexists _, _, _, _. split_and!; eauto; congruence.
Qed.

(** The roles a permission belongs to. *)
Definition granting_roles (permission : AdminPermission) : list string :=
  match permission with
  | RealmAdmin => ["realm.admin"]
  | AppAdmin => ["app.admin"]
  | DirectoryAdmin => ["directory.admin"]
  | SecurityAdmin => ["security.admin"]
  | AuditRead => ["auditor"; "security.admin"]
  | TenantAdmin => ["tenant.owner"; "app.admin"; "realm.admin"]
  | PlatformAdmin => ["platform.admin"]
  | PlatformSecurityAdmin => ["platform.admin"; "platform.security.admin"]
  | PlatformAuditRead => ["platform.admin"; "platform.security.admin"; "platform.auditor"]
  | BreakGlass => []
  end.

Lemma role_allows_spec permission role sec :
  role_allows permission role sec = true ↔
  role ∈ granting_roles permission ∨ (breakglass_enabled sec = true ∧ role = "breakglass").
Proof.
  unfold role_allows. destruct (String.eqb_spec role "tenant.owner") as [->|Hown].
  - rewrite bool_decide_eq_true. split; [intros ->; left; left|]. intros [Hin|[_ [=]]]. by destruct permission; cbn in Hin; set_unfold in Hin; naive_solver.
  - destruct (breakglass_enabled sec); destruct (String.eqb_spec role "breakglass") as [->|Hb]; cbn [andb]; [naive_solver|..];
      destruct permission; cbn; rewrite ?orb_true_iff, ?String.eqb_eq; set_solver.
Qed.

(** What authorization for a permission establishes, when its two readings of the clock are the [n]th and the one after. *)
Definition authorized_at (h : HeaderMap) (permission : AdminPermission) (sec : AdminSecurityConfig) (realm : option string)
    (a : Admin) (e : AdminElevation) (n : nat) (st : St) : Prop :=
  elevated h a e (w_now W n) st ∧ (∀ r, realm = Some r → realm_tenants (accounts st) !! r = Some (ad_tenant_id a)) ∧
  (require_step_up sec = true → el_acr e = Some (required_acr sec) ∧ ∃ m, m ∈ el_amr e ∧ m ∈ required_amr sec) ∧
  w_now W (S n) < elevation_expires_at e ∧ elevation_expires_at e ≤ w_now W (S n) + max_elevation_seconds sec ∧
  ∃ role, role ∈ roles a ∧ (role ∈ granting_roles permission ∨ (breakglass_enabled sec = true ∧ role = "breakglass")).

(** The same for a request that starts at [st]: the clock is read for the approval, if one is presented, and then for the
    session and the elevation. *)
Definition authorized (h : HeaderMap) (permission : AdminPermission) (sec : AdminSecurityConfig) (realm : option string)
    (a : Admin) (e : AdminElevation) (st : St) : Prop :=
  authorized_at h permission sec realm a e
    (match header_string h ADMIN_APPROVAL_ID_HEADER ≫= fun id => admin_approvals (tables st) !! id with
     | Some _ => S (tick st) | None => tick st end) st.

Lemma tenant_bound realm a e ap st u st' :
  enforce_admin_tenant_binding realm a e ap st = (Ok u, st') →
  st' = st ∧ (∀ r, realm = Some r → realm_tenants (accounts st) !! r = Some (ad_tenant_id a)) ∧
  (∀ x, ap = Some x → ap_tenant_id x = ad_tenant_id a).
Proof.
  unfold enforce_admin_tenant_binding. intros Hr. run.
  assert (∀ x, ap = Some x → ap_tenant_id x = ad_tenant_id a) as Hap.
  { intros x ->. by apply negb_false_iff, String.eqb_eq in E0. }
  destruct realm as [r|]; [|by run]. run. apply negb_false_iff, String.eqb_eq in Hr as ->. split_and!; [done| |done].
  by intros ? [= <-].
Qed.

Lemma stepped_up_spec sec e :
  stepped_up sec e = true → el_acr e = Some (required_acr sec) ∧ ∃ m, m ∈ el_amr e ∧ m ∈ required_amr sec.
Proof.
  unfold stepped_up. rewrite andb_true_iff, bool_decide_eq_true, existsb_elem_of. intros [? (m & Hm & Hin)].
  split; [done|]. exists m. split; [done|]. by apply str_in_spec.
Qed.

Lemma authorize_admin_inv h permission sec realm st a e st' :
  authorize_admin h permission sec realm st = (Ok (a, e), st') →
  authorized_at h permission sec realm a e (tick st) st ∧ st' = next (next st).
Proof.
  unfold authorize_admin. intros Hr. apply bind_inv in Hr as ([a0 e0] & s & E & Hr). apply resolved in E as [He ->]. run.
  apply tenant_bound in E as (-> & Hrealm & _). run. apply negb_false_iff, existsb_elem_of in E4 as (role & Hrole & Hallow%role_allows_spec).
  split; [|done]. apply N.leb_gt in E2. apply N.ltb_ge in E3. unfold saturating_sub in E3. cbn [tick next] in *.
  unfold authorized_at. split_and!; [done|done| |done|lia|by exists role].
  intros Hs. rewrite Hs in E0. by apply negb_false_iff, stepped_up_spec in E0.
Qed.

(** * Lemmas: approvals are spent for good *)

Definition approvals_keyed (t : AdminStore) : Prop := ∀ k x, admin_approvals t !! k = Some x → ap_id x = k.

(** Approvals keep their key, and a consumed one stays. *)
Definition spent_stays (t t' : AdminStore) : Prop :=
  (approvals_keyed t → approvals_keyed t') ∧
  ∀ k x, admin_approvals t !! k = Some x → ap_consumed x = true → ∃ y, admin_approvals t' !! k = Some y ∧ ap_consumed y = true.

#[local] Instance spent_stays_po : PreOrder spent_stays.
Proof.
  split; [by split; eauto|]. intros t1 t2 t3 [K1 S1] [K2 S2]. split; [auto|].
  intros k x Hx Hc. destruct (S1 k x Hx Hc) as (y & Hy & Hcy). eauto.
Qed.

Definition tables_move (st st' : St) : Prop := spent_stays (tables st) (tables st').

#[local] Instance tables_move_po : PreOrder tables_move.
Proof. split; [intros st; unfold tables_move; reflexivity|]. intros s1 s2 s3 H1 H2. unfold tables_move in *. by etransitivity. Qed.

Lemma same_tables st st' : tables st' = tables st → tables_move st st'.
Proof. unfold tables_move. intros ->. reflexivity. Qed.

Inductive TableOp : Type :=
| UpsertAdmin (a : Admin) | StoreElevation (e : AdminElevation) | StoreApproval (a : AdminApproval) | ConsumeApproval (id : string).

Definition run_table (o : TableOp) (saved : QidResult unit) (t : AdminStore) : AdminStore :=
  match o with
  | UpsertAdmin a => (upsert_admin saved a t).2
  | StoreElevation e => (store_admin_elevation saved e t).2
  | StoreApproval a => (store_admin_approval saved a t).2
  | ConsumeApproval id => (consume_admin_approval_if_unconsumed saved id t).2
  end.

Lemma consume_stays saved id t : spent_stays t (consume_admin_approval_if_unconsumed saved id t).2.
Proof.
  unfold consume_admin_approval_if_unconsumed. destruct (admin_approvals t !! id) as [a|] eqn:E; [|reflexivity].
  cbn [Tokens.opt_filter]. destruct (ap_consumed a) eqn:Ec; [reflexivity|]. cbn [negb]. cbn. split.
  - intros K k x. cbn. intros [[<- <-]|[_ Hx]]%lookup_insert_Some; [by apply (K id a)|]. by apply K.
  - intros k x Hx Hc. cbn. destruct (decide (k = id)) as [->|Hne]; [rewrite lookup_insert_eq; by eauto|].
    rewrite lookup_insert_ne by done. eauto.
Qed.

Lemma table_op_stays o saved t : spent_stays t (run_table o saved t).
Proof.
  destruct o; cbn [run_table]; [| | |apply consume_stays].
  - unfold upsert_admin. destruct (Tokens.unique_match _ _); [|reflexivity]. split; [done|]. by eauto.
  - unfold store_admin_elevation. destruct (Tokens.reject_duplicate_id _ _); [|reflexivity]. split; [done|]. by eauto.
  - unfold store_admin_approval. destruct (Tokens.reject_duplicate_id _ _) eqn:E; [|reflexivity].
    unfold Tokens.reject_duplicate_id in E. destruct (admin_approvals t !! ap_id a) eqn:Ea; [done|]. split.
    + intros K k x. cbn. intros [[<- <-]|[_ Hx]]%lookup_insert_Some; [done|]. by apply K.
    + intros k x Hx Hc. exists x. split; [|done]. cbn. rewrite lookup_insert_ne; [done|]. intros <-. congruence.
Qed.

Abbreviation moves := (preserves tables_move).

Lemma moves_now : moves now_seconds. Proof. intros st. by apply same_tables. Qed.
Lemma moves_ulid : moves new_ulid. Proof. intros st. by apply same_tables. Qed.
Lemma moves_read {A} (f : Store → A) : moves (read f). Proof. intros st. by apply same_tables. Qed.
Lemma moves_read_tables {A} (f : AdminStore → A) : moves (read_tables f). Proof. intros st. by apply same_tables. Qed.
Lemma moves_read_audit {A} (f : Log → A) : moves (read_audit f). Proof. intros st. by apply same_tables. Qed.
Lemma moves_require {A} (o : option A) e : moves (require o e). Proof. intros st. by apply same_tables. Qed.
Lemma moves_guard b e : moves (guard b e). Proof. intros st. unfold guard. destruct b; by apply same_tables. Qed.
Lemma moves_cache sid : moves (session_cache_delete sid). Proof. intros st. by apply same_tables. Qed.
Lemma moves_write {A} (f : QidResult unit → Store → QidResult A * Store) : moves (write f).
Proof. intros st. unfold write. destruct (f _ _). by apply same_tables. Qed.
Lemma moves_write_audit {A} (f : QidResult unit → Log → QidResult A * Log) : moves (write_audit f).
Proof. intros st. unfold write_audit. destruct (f _ _). by apply same_tables. Qed.
Lemma moves_consume id : moves (write_tables (fun saved => consume_admin_approval_if_unconsumed saved id)).
Proof.
  intros st. unfold write_tables. pose proof (consume_stays (w_saved W (tick st)) id (tables st)) as Hc.
  destruct (consume_admin_approval_if_unconsumed _ _ _) as [r t]. exact Hc.
Qed.

Create HintDb admin.
#[local] Hint Resolve moves_now moves_ulid moves_read moves_read_tables moves_read_audit moves_require moves_guard moves_cache
  moves_write moves_write_audit moves_consume : admin.

Ltac keeps :=
  repeat first
    [ solve [eauto 3 with admin]
    | progress intros
    | progress cbv zeta
    | apply preserves_bind; [exact tables_move_po|..]
    | apply preserves_ret | apply preserves_throw | apply preserves_of_result | apply preserves_get
    | match goal with |- preserves _ (match ?x with _ => _ end) => destruct x end ].

Lemma moves_authorize h p sec realm : moves (authorize_admin h p sec realm).
Proof. unfold authorize_admin, resolve_authenticated_admin, enforce_admin_tenant_binding. keeps. Qed.
#[local] Hint Resolve moves_authorize : admin.

Lemma moves_check_approval sec a : moves (check_approval sec a).
Proof. unfold check_approval. keeps. Qed.
Lemma moves_spend_approval realm a e ap : moves (spend_approval realm a e ap).
Proof. unfold spend_approval, enforce_admin_tenant_binding. keeps. Qed.
Lemma moves_resolve_approval h : moves (resolve_admin_approval h).
Proof. unfold resolve_admin_approval. keeps. Qed.
#[local] Hint Resolve moves_check_approval moves_spend_approval moves_resolve_approval : admin.

Lemma moves_mutation h p sec realm : moves (authorize_admin_mutation h p sec realm).
Proof. unfold authorize_admin_mutation. keeps. Qed.
Lemma moves_breakglass h sec realm : moves (authorize_breakglass_mutation h sec realm).
Proof. unfold authorize_breakglass_mutation. keeps. Qed.
Lemma moves_append h a e r x y z m : moves (append_admin_audit h a e r x y z m).
Proof. unfold append_admin_audit. keeps. Qed.
#[local] Hint Resolve moves_mutation moves_breakglass moves_append : admin.
Lemma moves_record h a e r x y z m : moves (record_admin_audit_or_warn h a e r x y z m).
Proof.
  intros st. unfold record_admin_audit_or_warn. pose proof (moves_append h a e r x y z m st) as Ha.
  destruct (append_admin_audit _ _ _ _ _ _ _ _ st) as [[] st']; [done|]. by destruct (audit_fail_closed config).
Qed.
Lemma moves_audited (m : M St unit) h a e r x y z v : moves m → moves (audit_no_content m h a e r x y z v).
Proof. unfold audit_no_content. intros Hm. keeps. Qed.
#[local] Hint Resolve moves_record moves_audited : admin.

Lemma moves_handle r h : moves (handle r h).
Proof.
  destruct r; cbn [handle];
    unfold list_realms, create_realm, get_realm, delete_realm, list_users, create_user, get_user, update_user, delete_user,
      list_clients, create_client, delete_client, list_sessions_handler, revoke_session_handler, list_token_families_handler,
      revoke_token_family_handler, list_pep_decisions_handler, breakglass_revoke_session, list_global_audit, list_realm_audit,
      verify_global_audit, verify_realm_audit, get_global_audit_retention, get_realm_audit_retention, plan_global_audit_retention,
      plan_realm_audit_retention, put_audit_retention, audit_items, verify_audit, audit_retention, retention_plan, admin_read,
      admin_mutation;
    keeps.
Qed.

(** Admin requests, changes of the admin tables and anything that leaves them alone, in any order. *)
Inductive admin_step : St → St → Prop :=
| StepRequest r h st : admin_step st (handle r h st).2
| StepTable o saved st : admin_step st (put_tables (run_table o saved (tables st)) st)
| StepOther st st' : tables st' = tables st → admin_step st st'.

Lemma steps_move st st' : rtc admin_step st st' → tables_move st st'.
Proof.
  induction 1 as [|s1 s2 s3 [r h st|o saved st|st st2 E] _ IH]; [reflexivity|..]; (etransitivity; [|exact IH]).
  - apply moves_handle.
  - apply table_op_stays.
  - by apply same_tables.
Qed.

Lemma resolve_approval_inv h st o st' :
  resolve_admin_approval h st = (Ok o, st') →
  o = (header_string h ADMIN_APPROVAL_ID_HEADER ≫= fun id => admin_approvals (tables st) !! id) ∧ st' = st.
Proof. unfold resolve_admin_approval. destruct (header_string _ _); intros Hr; by run. Qed.

(** An approval that is consumed authorizes nothing. *)
Lemma consumed_refused h p sec realm st id x :
  header_string h ADMIN_APPROVAL_ID_HEADER = Some id → admin_approvals (tables st) !! id = Some x → ap_consumed x = true →
  (∃ e, authorize_admin_mutation h p sec realm st = (Err e, st)) ∧ (∃ e, authorize_breakglass_mutation h sec realm st = (Err e, st)).
Proof.
  intros Hh Hx Hc.
  assert (∀ (k : option AdminApproval → M St (Admin * AdminElevation)), ∃ e,
    (let! stored := resolve_admin_approval h in let! _ := check_approval sec stored in k stored) st = (Err e, st)) as Hbad.
  { intros k. exists already_consumed. unfold resolve_admin_approval. rewrite Hh. unfold bind at 1. cbn.
    unfold get_admin_approval. rewrite Hx. unfold check_approval. rewrite Hc. done. }
  assert (∀ (m : M St (Admin * AdminElevation)), (∃ e, m st = (Err e, st)) →
    ∃ e, (let! _ := (if require_reason sec then let! _ := of_result (admin_reason h) in ret tt else ret tt) in m) st = (Err e, st)) as Hreason.
  { intros m [e Hm]. destruct (require_reason sec); [|by exists e]. unfold bind, of_result.
    destruct (admin_reason h) as [r|e']; [by exists e|by exists e']. }
  split; [apply Hreason, (Hbad (fun stored => _))|]. unfold authorize_breakglass_mutation. unfold bind at 1. unfold guard.
  destruct (breakglass_enabled sec); [|by eexists]. apply Hreason, (Hbad (fun stored => _)).
Qed.

(** What the approval of a mutation must be, and what becomes of it. *)
Definition approved (h : HeaderMap) (sec : AdminSecurityConfig) (a : Admin) (now : N) (t t' : AdminStore) : Prop :=
  match header_string h ADMIN_APPROVAL_ID_HEADER ≫= fun id => admin_approvals t !! id with
  | Some x =>
      ap_consumed x = false ∧ now < ap_expires_at x ∧ ap_tenant_id x = ad_tenant_id a ∧ target_admin_id x = ad_id a ∧
      t' = {| admins := admins t; admin_elevations := admin_elevations t;
              admin_approvals := <[ap_id x := consumed_approval x]> (admin_approvals t) |}
  | None => require_approval sec = false ∧ t' = t
  end.

Lemma check_approval_inv sec ap st u st' :
  check_approval sec ap st = (Ok u, st') →
  (∀ x, ap = Some x → ap_consumed x = false ∧ w_now W (tick st) < ap_expires_at x) ∧ (ap = None → require_approval sec = false) ∧
  accounts st' = accounts st ∧ tables st' = tables st ∧ audit_log st' = audit_log st ∧
  tick st' = match ap with Some _ => S (tick st) | None => tick st end.
Proof.
  unfold check_approval. destruct ap as [x|]; [|intros Hr; by run]. destruct (ap_consumed x) eqn:Ec; [done|]. intros Hr. run.
  apply N.leb_gt in Hr. split_and!; [|done..]. by intros ? [= <-].
Qed.

Lemma spend_approval_inv realm a e ap st u st' :
  spend_approval realm a e ap st = (Ok u, st') →
  accounts st' = accounts st ∧ audit_log st' = audit_log st ∧
  match ap with
  | Some x => ap_tenant_id x = ad_tenant_id a ∧ target_admin_id x = ad_id a ∧
      ∃ y, admin_approvals (tables st) !! ap_id x = Some y ∧ ap_consumed y = false ∧
        tables st' = {| admins := admins (tables st); admin_elevations := admin_elevations (tables st);
                        admin_approvals := <[ap_id x := consumed_approval y]> (admin_approvals (tables st)) |}
  | None => tables st' = tables st
  end.
Proof.
  unfold spend_approval. destruct ap as [x|]; [|intros Hr; by run]. intros Hr. run.
  apply tenant_bound in E as (-> & _ & Ht). apply negb_false_iff, String.eqb_eq in E0. apply negb_false_iff in Hr as ->.
  unfold write_tables, consume_admin_approval_if_unconsumed in E1.
  destruct (admin_approvals (tables st) !! ap_id x) as [y|] eqn:Ey; [|done]. cbn [Tokens.opt_filter] in E1.
  destruct (ap_consumed y) eqn:Ec; [done|]. cbn in E1. destruct (w_saved W (tick st)); [|done]. injection E1 as <-.
  split_and!; [done|done|by apply Ht|done|]. by exists y.
Qed.

Lemma mutation_inv h p sec realm st a e st' :
  authorize_admin_mutation h p sec realm st = (Ok (a, e), st') →
  (require_reason sec = true → ∃ why, header_string h ADMIN_REASON_HEADER = Some why) ∧
  authorized h p sec realm a e st ∧
  (approvals_keyed (tables st) → approved h sec a (w_now W (tick st)) (tables st) (tables st')) ∧
  accounts st' = accounts st ∧ audit_log st' = audit_log st.
Proof.
  unfold authorize_admin_mutation. intros Hr. apply bind_inv in Hr as (u & s0 & Ereason & Hr).
  assert (s0 = st ∧ (require_reason sec = true → ∃ why, header_string h ADMIN_REASON_HEADER = Some why)) as [-> Hwhy].
  { clear Hr. destruct (require_reason sec); [|by run]. run. split; [done|]. intros _. unfold admin_reason, ok_or in *.
    destruct (header_string h ADMIN_REASON_HEADER); [by eexists|done]. }
  apply bind_inv in Hr as (ap & s1 & E1 & Hr). apply resolve_approval_inv in E1 as [-> ->].
  apply bind_inv in Hr as (u2 & s2 & E2 & Hr). apply check_approval_inv in E2 as (Hap & Hno & Ha2 & Ht2 & Hl2 & Hn2).
  apply bind_inv in Hr as ([a0 e0] & s3 & E3 & Hr). apply authorize_admin_inv in E3 as [Hauth ->]. run.
  apply spend_approval_inv in E as (Ha & Hl & Hs). cbn [tables next accounts audit_log] in *.
  split_and!; [done| | |congruence|congruence].
  - unfold authorized, authorized_at, elevated in *. rewrite Ht2, Ha2 in Hauth. by rewrite <- Hn2.
  - intros Hk. unfold approved. destruct (header_string h ADMIN_APPROVAL_ID_HEADER ≫= _) as [x|] eqn:Ex.
    + destruct (Hap x eq_refl). destruct Hs as (Ht & Htg & y & Hy & Hcy & Hs). rewrite Ht2 in Hy, Hs.
      assert (y = x) as ->; [|split_and!; try done; congruence].
      destruct (header_string h _) as [id|]; [|done]. cbn in Ex. pose proof (Hk _ _ Ex) as <-. congruence.
    + split; [by apply Hno|congruence].
Qed.

(** C17: An admin mutation runs only with authority, and an approval authorizes one.  When the authorization of a mutation
    answers with an admin: a reason was given where one is required; the session header names an elevation of that admin whose
    source session, at the time the request reads from the clock, is neither revoked nor past its idle or absolute expiry,
    belongs to the very user the admin is and lies in a realm of the admin's tenant; the realm of the request, if there is one,
    is bound to that tenant; the elevation carries the assurance demanded and, at the next reading of the clock, has not expired
    and does not outlast the maximal lifetime; the admin has a role the permission belongs to, or the break-glass role where that
    is enabled; and an approval that is presented is unconsumed,
    unexpired, of that tenant and for that admin, and is consumed, or none is demanded.  Nothing but that approval changes.  And
    whatever requests and changes of the admin tables follow, no mutation and no break-glass operation that presents the
    approval again is authorized. *)
Theorem admin_mutation_authorized h p sec realm st a e st' :
  approvals_keyed (tables st) → authorize_admin_mutation h p sec realm st = (Ok (a, e), st') →
  ((require_reason sec = true → ∃ why, header_string h ADMIN_REASON_HEADER = Some why) ∧
   authorized h p sec realm a e st ∧ approved h sec a (w_now W (tick st)) (tables st) (tables st') ∧
   accounts st' = accounts st ∧ audit_log st' = audit_log st) ∧
  (∀ id x s1 h' p' sec' realm', header_string h ADMIN_APPROVAL_ID_HEADER = Some id → admin_approvals (tables st) !! id = Some x →
     rtc admin_step st' s1 → header_string h' ADMIN_APPROVAL_ID_HEADER = Some id →
     (∃ er, authorize_admin_mutation h' p' sec' realm' s1 = (Err er, s1)) ∧
     (∃ er, authorize_breakglass_mutation h' sec' realm' s1 = (Err er, s1))).
Proof.
  intros Hk Hr. destruct (mutation_inv h p sec realm st a e st' Hr) as (? & ? & Hap & ? & ?). specialize (Hap Hk). split; [done|].
  intros id x s1 h' p' sec' realm' Hid Hx Hs Hh'.
  unfold approved in Hap. rewrite Hid in Hap. cbn in Hap. rewrite Hx in Hap. destruct Hap as (_ & _ & _ & _ & Ht).
  destruct (steps_move _ _ Hs) as [_ Hspent]. destruct (Hspent id (consumed_approval x)) as (y & Hy & Hc); [|done|by eapply consumed_refused].
  rewrite Ht. cbn. rewrite <- (Hk _ _ Hx). apply lookup_insert_eq.
Qed.

(** * Lemmas: what a request does to the accounts *)

Definition same_accounts (st st' : St) : Prop := accounts st' = accounts st.

#[local] Instance same_accounts_po : PreOrder same_accounts.
Proof. split; [done|]. unfold same_accounts. intros s1 s2 s3. congruence. Qed.

Abbreviation quiet := (preserves same_accounts).

Lemma quiet_now : quiet now_seconds. Proof. done. Qed.
Lemma quiet_ulid : quiet new_ulid. Proof. done. Qed.
Lemma quiet_read {A} (f : Store → A) : quiet (read f). Proof. done. Qed.
Lemma quiet_read_tables {A} (f : AdminStore → A) : quiet (read_tables f). Proof. done. Qed.
Lemma quiet_read_audit {A} (f : Log → A) : quiet (read_audit f). Proof. done. Qed.
Lemma quiet_require {A} (o : option A) e : quiet (require o e). Proof. done. Qed.
Lemma quiet_guard b e : quiet (guard b e). Proof. intros st. by destruct b. Qed.
Lemma quiet_cache sid : quiet (session_cache_delete sid). Proof. done. Qed.
Lemma quiet_write_tables {A} (f : QidResult unit → AdminStore → QidResult A * AdminStore) : quiet (write_tables f).
Proof. intros st. unfold write_tables. by destruct (f _ _). Qed.
Lemma quiet_write_audit {A} (f : QidResult unit → Log → QidResult A * Log) : quiet (write_audit f).
Proof. intros st. unfold write_audit. by destruct (f _ _). Qed.

Create HintDb quiet_admin.
#[local] Hint Resolve quiet_now quiet_ulid quiet_read quiet_read_tables quiet_read_audit quiet_require quiet_guard quiet_cache
  quiet_write_tables quiet_write_audit : quiet_admin.

Ltac hush :=
  repeat first
    [ solve [eauto 3 with quiet_admin]
    | progress intros
    | progress cbv zeta
    | apply preserves_bind; [exact same_accounts_po|..]
    | apply preserves_ret | apply preserves_throw | apply preserves_of_result | apply preserves_get
    | match goal with |- preserves _ (match ?x with _ => _ end) => destruct x end ].

Lemma quiet_authorize h p sec realm : quiet (authorize_admin h p sec realm).
Proof. unfold authorize_admin, resolve_authenticated_admin, enforce_admin_tenant_binding. hush. Qed.
#[local] Hint Resolve quiet_authorize : quiet_admin.
Lemma quiet_mutation h p sec realm : quiet (authorize_admin_mutation h p sec realm).
Proof. unfold authorize_admin_mutation, resolve_admin_approval, check_approval, spend_approval, enforce_admin_tenant_binding. hush. Qed.
Lemma quiet_breakglass h sec realm : quiet (authorize_breakglass_mutation h sec realm).
Proof. unfold authorize_breakglass_mutation, resolve_admin_approval, check_approval, spend_approval, enforce_admin_tenant_binding. hush. Qed.
Lemma quiet_append h a e r x y z m : quiet (append_admin_audit h a e r x y z m).
Proof. unfold append_admin_audit. hush. Qed.
#[local] Hint Resolve quiet_mutation quiet_breakglass quiet_append : quiet_admin.
Lemma quiet_record h a e r x y z m : quiet (record_admin_audit_or_warn h a e r x y z m).
Proof.
  intros st. unfold record_admin_audit_or_warn. pose proof (quiet_append h a e r x y z m st) as Ha.
  destruct (append_admin_audit _ _ _ _ _ _ _ _ st) as [[] st']; [done|]. by destruct (audit_fail_closed config).
Qed.
#[local] Hint Resolve quiet_record : quiet_admin.

(** At a state, a computation leaves the accounts alone or changes them within [Q]. *)
Definition effect {A} (Q : Store → Store → Prop) (m : M St A) (st : St) : Prop :=
  accounts (m st).2 = accounts st ∨ Q (accounts st) (accounts (m st).2).

Lemma effect_quiet {A} Q (m : M St A) st : quiet m → effect Q m st.
Proof. intros Hm. left. apply Hm. Qed.

Lemma effect_bind {A B} Q (m : M St A) (k : A → M St B) st :
  quiet m → (∀ a st1, m st = (Ok a, st1) → effect Q (k a) st1) → effect Q (bind m k) st.
Proof.
  intros Hm Hk. specialize (Hm st). unfold effect, bind. unfold same_accounts in Hm. destruct (m st) as [[a|e] st1] eqn:E; cbn in Hm; [|by left].
  specialize (Hk a st1 eq_refl). unfold effect in Hk. by rewrite Hm in Hk.
Qed.

Lemma effect_read {A B} Q (f : Store → A) (k : A → M St B) st : effect Q (k (f (accounts st))) st → effect Q (bind (read f) k) st.
Proof. done. Qed.

Lemma effect_guard {B} Q b e (k : unit → M St B) st : (b = false → effect Q (k tt) st) → effect Q (bind (guard b e) k) st.
Proof. intros Hk. destruct b; [by left|]. by apply Hk. Qed.

Lemma effect_write {A B} (Q : Store → Store → Prop) (f : QidResult unit → Store → QidResult A * Store) (k : A → M St B) st :
  (∀ a, quiet (k a)) → (∀ saved, (f saved (accounts st)).2 = accounts st ∨ Q (accounts st) (f saved (accounts st)).2) →
  effect Q (bind (write f) k) st.
Proof.
  intros Hk Hf. specialize (Hf (w_saved W (tick st))). unfold effect, bind, write.
  destruct (f (w_saved W (tick st)) (accounts st)) as [[a|e] s'] eqn:E; cbn in Hf |- *; [|done].
  specialize (Hk a (next (put_accounts s' st))). unfold same_accounts in Hk. cbn in Hk. by rewrite Hk.
Qed.

(** The changes an admin of a tenant may make to the accounts. *)
Inductive account_change (tenant : string) (s : Store) : Store → Prop :=
| ChCreateRealm realm issuer :
    realm_tenants s !! realm = None → realm_issuers s !! realm = None → account_change tenant s (add_realm tenant realm issuer s)
| ChDeleteRealm realm : realm_tenants s !! realm = Some tenant → account_change tenant s (remove_realm realm s)
| ChUser u :
    realm_tenants s !! u_realm_id u = Some tenant → (∀ v, users s !! u_id u = Some v → u_realm_id v = u_realm_id u) →
    account_change tenant s (set_users s (<[u_id u := u]> (users s)))
| ChDeleteUser uid u :
    users s !! uid = Some u → realm_tenants s !! u_realm_id u = Some tenant → account_change tenant s (remove_auth_state {[ uid ]} None s)
| ChClient c :
    realm_tenants s !! c_realm_id c = Some tenant → clients s !! c_id c = None →
    account_change tenant s (set_clients s (<[c_id c := c]> (clients s)))
| ChDeleteClient k c :
    clients s !! k = Some c → realm_tenants s !! c_realm_id c = Some tenant → account_change tenant s (set_clients s (delete k (clients s)))
| ChRevokeSession k x :
    sessions s !! k = Some x → realm_tenants s !! s_realm_id x = Some tenant →
    account_change tenant s (set_sessions s (<[k := session_update x (idle_expires_at x) true]> (sessions s)))
| ChRevokeFamily k f :
    Tokens.token_families (tokens s) !! k = Some f → realm_tenants s !! Tokens.tf_realm_id f = Some tenant →
    account_change tenant s (OAuth.set_tokens s (Tokens.with_families (tokens s)
      (<[k := Tokens.family_or_revoked f true]> (Tokens.token_families (tokens s))))).

(** A change made with the authority of an admin of this request. *)
Definition authorized_change (h : HeaderMap) (st : St) (s s' : Store) : Prop :=
  ∃ a e p scope, authorized h p (security config) scope a e st ∧ account_change (ad_tenant_id a) s s'.

Lemma effect_mutation {B} h p scope Q (k : Admin * AdminElevation → M St B) st :
  (∀ a e st1, authorized h p (security config) scope a e st → accounts st1 = accounts st → effect Q (k (a, e)) st1) →
  effect Q (bind (admin_mutation h p scope) k) st.
Proof.
  intros Hk. apply effect_bind; [apply quiet_mutation|]. intros [a e] st1 Hm. apply mutation_inv in Hm as (_ & Ha & _ & Hs & _).
  by apply Hk.
Qed.

Lemma effect_breakglass {B} h Q (k : Admin * AdminElevation → M St B) st :
  (∀ a e st1, authorized h BreakGlass (security config) None a e st → accounts st1 = accounts st → effect Q (k (a, e)) st1) →
  effect Q (bind (authorize_breakglass_mutation h (security config) None) k) st.
Proof.
  intros Hk. apply effect_bind; [apply quiet_breakglass|]. intros [a e] st1 Hm. unfold authorize_breakglass_mutation in Hm.
  apply bind_inv in Hm as (? & ? & [_ ->]%guarded & Hm).
  change (authorize_admin_mutation h BreakGlass (security config) None st = (Ok (a, e), st1)) in Hm.
  apply mutation_inv in Hm as (_ & Ha & _ & Hs & _). by apply Hk.
Qed.

(** The tenant of the realm a scoped authorization names. *)
Lemma scope_tenant h p sec r a e st : authorized h p sec (Some r) a e st → realm_tenants (accounts st) !! r = Some (ad_tenant_id a).
Proof. intros (_ & Hr & _). by apply Hr. Qed.

Lemma effect_audited Q (m : M St unit) h a e r x y z v st :
  effect Q (bind m (fun _ => ret tt)) st → effect Q (audit_no_content m h a e r x y z v) st.
Proof.
  intros Hm. pose proof (preserves_bind same_accounts (append_admin_audit h a e r x y z v) (fun _ => ret (Json 204 (VObject [])))
    (quiet_append h a e r x y z v) (fun _ => preserves_ret _ _)) as Hq.
  unfold effect, audit_no_content in *. unfold bind at 1 3. unfold bind at 1 2 in Hm. destruct (m st) as [[[]|er] st1]; [|done].
  specialize (Hq st1). unfold same_accounts in Hq. by rewrite Hq.
Qed.

Ltac authority := eexists _, _, _, _; split; [eassumption|].

Lemma create_realm_effect h req st : effect (authorized_change h st) (create_realm h req) st.
Proof.
  apply effect_mutation. intros a e st1 Ha Hs. apply effect_write; [intros; hush|]. intros saved. rewrite Hs.
  unfold Accounts.create_realm, Tokens.reject_duplicate_id.
  destruct (_ || _) eqn:E; [by left|]. rewrite !orb_false_iff, !bool_decide_eq_false, <- !eq_None_not_Some in E. destruct E as [[Ei Et] _].
  assert (authorized_change h st (accounts st) (add_realm (ad_tenant_id a) (cr_id req) (cr_issuer req) (accounts st)))
    by (authority; by constructor).
  destruct flush_mode; [destruct saved; [|by left]|]; by right.
Qed.

Lemma delete_realm_effect h realm st : effect (authorized_change h st) (delete_realm h realm) st.
Proof.
  apply effect_mutation. intros a e st1 Ha Hs. apply effect_audited, effect_write; [intros; hush|]. intros saved. rewrite Hs.
  unfold Accounts.delete_realm. case_bool_decide as Et; cbn [negb]; [|by left].
  assert (authorized_change h st (accounts st) (remove_realm realm (accounts st))) by (authority; by constructor).
  destruct flush_mode; [destruct saved; [|by left]|]; by right.
Qed.

Lemma create_user_effect h realm req st : effect (authorized_change h st) (create_user h realm req) st.
Proof.
  apply effect_mutation. intros a e st1 Ha Hs. apply effect_bind; [destruct (cu_id req); hush|].
  intros uid st2 Hid. assert (accounts st2 = accounts st) as Hs2.
  { destruct (cu_id req); [unfold ret in Hid|unfold new_ulid in Hid]; injection Hid as _ <-; exact Hs. }
  cbv zeta. apply effect_write; [intros; hush|]. intros saved. rewrite Hs2. unfold Accounts.create_user.
  destruct (Tokens.insert_new _ _) as [m|] eqn:E; [|by left]. apply Tokens.insert_new_Ok in E as [Hn ->]. right. authority.
  apply (ChUser _ _ {| u_id := uid; u_realm_id := realm |}); [by apply scope_tenant in Ha|]. cbn in *. congruence.
Qed.

Lemma update_user_effect h realm uid req st : effect (authorized_change h st) (update_user h realm uid req) st.
Proof.
  apply effect_mutation. intros a e st1 Ha Hs. apply effect_read. rewrite Hs. unfold get_user_by_id.
  destruct (users (accounts st) !! uid) as [u|] eqn:Eu; [|apply effect_quiet; hush].
  apply effect_guard. intros Hr%negb_false_iff%String.eqb_eq. apply effect_write; [intros; hush|]. intros saved. rewrite Hs.
  unfold Accounts.update_user. cbn [u_id updated_user]. rewrite Eu. cbn [fmap option_fmap option_map].
  destruct (out_of_scope _ _); [by left|]. destruct (email_held_by_another _ _); [by left|]. right. authority.
  apply (ChUser _ _ (with_realm (updated_user req uid u) (u_realm_id u))); cbn.
  - rewrite Hr. by apply scope_tenant in Ha.
  - intros v Hv. congruence.
Qed.

Lemma delete_user_effect h realm uid st : effect (authorized_change h st) (delete_user h realm uid) st.
Proof.
  apply effect_mutation. intros a e st1 Ha Hs. apply effect_read. rewrite Hs. unfold get_user_by_id.
  destruct (users (accounts st) !! uid) as [u|] eqn:Eu; [|apply effect_quiet; hush].
  apply effect_guard. intros Hr%negb_false_iff%String.eqb_eq. apply effect_audited, effect_write; [intros; hush|]. intros saved. rewrite Hs.
  unfold Accounts.delete_user. destruct (out_of_scope _ _); [by left|]. right. authority.
  apply (ChDeleteUser _ _ uid u); [done|]. rewrite Hr. by apply scope_tenant in Ha.
Qed.

Lemma create_client_effect h realm req st : effect (authorized_change h st) (create_client h realm req) st.
Proof.
  apply effect_mutation. intros a e st1 Ha Hs. apply effect_bind; [hush|]. intros secret st2 [_ ->]%of_result_inv.
  apply effect_bind; [hush|]. intros cid st3 Hid. unfold new_ulid in Hid. injection Hid as <- <-. cbv zeta.
  apply effect_write; [intros; hush|]. intros saved. cbn [accounts next]. rewrite Hs. unfold Accounts.create_client.
  destruct (Tokens.insert_new _ _) as [m|] eqn:E; [|by left]. apply Tokens.insert_new_Ok in E as [Hn ->]. right. authority.
  apply (ChClient _ _ {| c_id := w_ulid W (tick st1); c_realm_id := realm |}); [by apply scope_tenant in Ha|done].
Qed.

Lemma delete_client_effect h realm cid st : effect (authorized_change h st) (delete_client h realm cid) st.
Proof.
  apply effect_mutation. intros a e st1 Ha Hs. apply effect_read. rewrite Hs.
  destruct (get_client_by_client_id realm cid (accounts st)) as [c|]; [|apply effect_quiet; hush].
  apply effect_audited, effect_write; [intros; hush|]. intros saved. rewrite Hs. unfold Accounts.delete_client. cbn [snd].
  destruct (clients (accounts st) !! c_id c) as [x|] eqn:Ex; [|by left].
  destruct (String.eqb_spec (c_realm_id x) realm) as [<-|]; [|by left]. right. authority.
  apply (ChDeleteClient _ _ _ x); [done|]. by apply scope_tenant in Ha.
Qed.

(** A session a scoped revocation changes. *)
Lemma revoke_change h st a tenant sid x saved :
  (∃ e p scope, authorized h p (security config) scope a e st) → sessions (accounts st) !! sid = Some x →
  realm_tenants (accounts st) !! s_realm_id x = Some tenant → tenant = ad_tenant_id a →
  (revoke_session saved sid (Some (s_realm_id x)) (accounts st)).2 = accounts st ∨
  authorized_change h st (accounts st) (revoke_session saved sid (Some (s_realm_id x)) (accounts st)).2.
Proof.
  intros (e & p & scope & Ha) Hx Ht ->. unfold revoke_session, session_in. rewrite Hx.
  unfold Tokens.opt_filter, Tokens.is_none_or. rewrite String.eqb_refl. destruct (s_revoked x); [by left|]. right.
  exists a, e, p, scope. split; [done|]. by apply ChRevokeSession.
Qed.

Lemma revoke_session_effect h realm sid st : effect (authorized_change h st) (revoke_session_handler h realm sid) st.
Proof.
  apply effect_mutation. intros a e st1 Ha Hs. apply effect_read. rewrite Hs. unfold get_session. apply effect_guard.
  destruct (sessions (accounts st) !! sid) as [x|] eqn:Ex; [|done]. intros <-%negb_false_iff%String.eqb_eq.
  apply effect_write; [intros; hush|]. intros saved. rewrite Hs. eapply revoke_change; [by eauto 10|done|by eapply scope_tenant|done].
Qed.

Lemma revoke_family_effect h realm fid st : effect (authorized_change h st) (revoke_token_family_handler h realm fid) st.
Proof.
  apply effect_mutation. intros a e st1 Ha Hs. apply effect_read. rewrite Hs. cbn [Tokens.get_token_family].
  apply effect_bind; [hush|]. intros found st2 [[= <-] ->]%of_result_inv. apply effect_guard.
  destruct (Tokens.token_families (tokens (accounts st)) !! fid) as [f|] eqn:Ef; [|done]. intros <-%negb_false_iff%String.eqb_eq.
  apply effect_write; [intros; hush|]. intros saved. rewrite Hs. unfold Tokens.revoke_token_family. rewrite Ef, String.eqb_refl.
  right. authority. apply ChRevokeFamily; [done|]. by eapply scope_tenant.
Qed.

Lemma breakglass_effect h sid incident why st : effect (authorized_change h st) (breakglass_revoke_session h sid incident why) st.
Proof.
  apply effect_breakglass. intros a e st1 Ha Hs. apply effect_guard. intros _. apply effect_read. rewrite Hs. unfold get_session.
  destruct (sessions (accounts st) !! sid) as [x|] eqn:Ex; [|apply effect_quiet; hush]. apply effect_read. rewrite Hs. unfold get_realm_tenant.
  apply effect_bind; [hush|]. intros tenant st2 [Ht ->]%required. apply effect_guard. intros He%negb_false_iff%String.eqb_eq.
  apply effect_write; [intros; hush|]. intros saved. rewrite Hs. eapply revoke_change; [by eauto 10|done..].
Qed.

(** The requests that may write the accounts. *)
Definition writes_accounts (r : AdminRequest) : bool :=
  match r with
  | CreateRealm _ | DeleteRealm _ | CreateUser _ _ | UpdateUser _ _ _ | DeleteUser _ _ | CreateClient _ _ | DeleteClient _ _
  | RevokeSession _ _ | RevokeFamily _ _ | BreakglassRevoke _ _ _ => true
  | _ => false
  end.

Lemma quiet_handle r h : writes_accounts r = false → quiet (handle r h).
Proof.
  destruct r; cbn [handle writes_accounts]; try discriminate; intros _;
    unfold list_realms, get_realm, list_users, get_user, list_clients, list_sessions_handler, list_token_families_handler,
      list_pep_decisions_handler, list_global_audit, list_realm_audit, verify_global_audit, verify_realm_audit,
      get_global_audit_retention, get_realm_audit_retention, plan_global_audit_retention, plan_realm_audit_retention,
      put_audit_retention, audit_items, verify_audit, audit_retention, retention_plan, admin_read, admin_mutation; hush.
Qed.

Lemma handle_effect r h st : effect (authorized_change h st) (handle r h) st.
Proof.
  destruct (writes_accounts r) eqn:E; [|by apply effect_quiet, quiet_handle].
  destruct r; try discriminate; cbn [handle]; [apply create_realm_effect|apply delete_realm_effect|apply create_user_effect
    |apply update_user_effect|apply delete_user_effect|apply create_client_effect|apply delete_client_effect
    |apply revoke_session_effect|apply revoke_family_effect|apply breakglass_effect].
Qed.

(** * Lemmas: a change stays in its tenant *)

(** What belongs to a realm: its bindings, its users, its clients, and the sessions of its users. *)
Record realm_kept (realm : string) (s s' : Store) : Prop := {
  rk_tenant : realm_tenants s' !! realm = realm_tenants s !! realm;
  rk_issuer : realm_issuers s' !! realm = realm_issuers s !! realm;
  rk_users : ∀ k u, u_realm_id u = realm → users s' !! k = Some u ↔ users s !! k = Some u;
  rk_clients : ∀ k c, c_realm_id c = realm → clients s' !! k = Some c ↔ clients s !! k = Some c;
  rk_sessions : ∀ k x u, s_realm_id x = realm → users s !! s_user_id x = Some u → u_realm_id u = realm →
    sessions s' !! k = Some x ↔ sessions s !! k = Some x
}.

Lemma realm_kept_refl realm s : realm_kept realm s s.
Proof. by constructor. Qed.

(** Rows are stored under their identifiers. *)
Definition rows_keyed (s : Store) : Prop := users_keyed s ∧ ∀ k x, sessions s !! k = Some x → s_id x = k.

(** Deleting users of other realms, and a realm that is not this one. *)
Lemma removal_kept realm gone other s :
  rows_keyed s → (∀ u, u ∈ gone → ∃ v, users s !! u = Some v ∧ u_realm_id v ≠ realm) → other ≠ Some realm →
  realm_kept realm s (remove_auth_state gone other s).
Proof.
  intros [Hk Hsk] Hg Ho. constructor; [done|done| |done|].
  - intros k u Hu. cbn. rewrite retain_lookup. split; [by intros [? _]|]. intros Hku. split; [done|].
    apply negb_true_iff, bool_decide_eq_false. intros Hin. destruct (Hg k Hin) as (v & Hv & Hne). congruence.
  - intros k x u Hx Hux Hu. cbn. rewrite retain_lookup. split; [by intros [? _]|]. intros Hkx. split; [done|].
    apply negb_true_iff, bool_decide_eq_false. unfold gone_sessions. rewrite elem_of_list_to_set, elem_of_map.
    intros (y & Hy & Hin). rewrite list_elem_of_In, List.filter_In, <- list_elem_of_In, values_elem in Hin.
    destruct Hin as [[k' Hk'] Hb]. assert (y = x) as ->.
    { pose proof (Hsk _ _ Hk') as Hid. assert (k' = k) as -> by congruence. congruence. }
    apply orb_true_iff in Hb as [Hb%bool_decide_eq_true|Hb%bool_decide_eq_true]; [|congruence].
    destruct (Hg _ Hb) as (v & Hv & Hne). congruence.
Qed.

Lemma remove_realm_kept realm r s : rows_keyed s → r ≠ realm → realm_kept realm s (remove_realm r s).
Proof.
  intros Hk Hne. set (gone := list_to_set (map u_id (List.filter (fun u => String.eqb (u_realm_id u) r) (values (users s)))) : gset string).
  destruct (removal_kept realm gone (Some r) s Hk) as [H1 H2 H3 H4 H5]; [|congruence|].
  - intros u. unfold gone. rewrite elem_of_list_to_set, elem_of_map. intros (v & -> & Hin).
    rewrite list_elem_of_In, List.filter_In, <- list_elem_of_In, values_elem, String.eqb_eq in Hin. destruct Hin as [[k Hv] Hr].
    exists v. rewrite (proj1 Hk _ _ Hv). split; [done|congruence].
  - constructor; cbn [remove_realm realm_tenants realm_issuers users clients sessions]; fold gone.
    + by rewrite lookup_delete_ne.
    + by rewrite lookup_delete_ne.
    + exact H3.
    + intros k c Hc. rewrite retain_lookup. split; [by intros [? _]|]. intros Hkc. split; [done|].
      apply negb_true_iff, String.eqb_neq. congruence.
    + exact H5.
Qed.

Lemma change_kept tenant s s' realm owner :
  account_change tenant s s' → rows_keyed s → realm_tenants s !! realm = Some owner → owner ≠ tenant → realm_kept realm s s'.
Proof.
  intros Hc Hk Ho Hne. destruct Hc as [r issuer Hn Hi|r Hr|u Hr Hv|uid u Hu Hr|c Hr Hn|k c Hc Hr|k x Hx Hr|k f Hf Hr].
  - assert (r ≠ realm) as Hrn by congruence. destruct (remove_realm_kept realm r s Hk Hrn) as [H1 H2 H3 H4 H5].
    constructor; cbn [add_realm realm_tenants realm_issuers users clients sessions]; [by rewrite lookup_insert_ne|by rewrite lookup_insert_ne|done..].
  - apply remove_realm_kept; [done|congruence].
  - constructor; [done|done| |done|done]. intros k v Hv'. cbn. rewrite lookup_insert_Some. split; [|].
    + intros [[<- <-]|[_ ?]]; [congruence|done].
    + intros Hkv. right. split; [|done]. intros <-. rewrite (Hv _ Hkv) in Hv'. congruence.
  - apply removal_kept; [done| |done]. intros ? ->%elem_of_singleton. exists u. split; [done|congruence].
  - constructor; [done|done|done| |done]. intros k v Hv. cbn. rewrite lookup_insert_Some. split.
    + intros [[<- <-]|[_ ?]]; [congruence|done].
    + intros Hkv. right. split; [|done]. intros <-. congruence.
  - constructor; [done|done|done| |done]. intros k' v Hv. cbn. rewrite lookup_delete_Some. split; [by intros [_ ?]|].
    intros Hkv. split; [|done]. intros <-. congruence.
  - constructor; [done..|]. intros k' y u Hy Hu Hur. cbn. rewrite lookup_insert_Some. split.
    + intros [[<- <-]|[_ ?]]; [cbn in Hy; congruence|done].
    + intros Hky. right. split; [|done]. intros <-. congruence.
  - by constructor.
Qed.

(** Whether the session header of a request stands for an admin of the tenant. *)
Definition acts_for (tenant : string) (h : HeaderMap) (st : St) : Prop :=
  ∃ sid e a, header_string h ADMIN_SESSION_ID_HEADER = Some sid ∧ admin_elevations (tables st) !! sid = Some e ∧
    admins (tables st) !! el_admin_id e = Some a ∧ ad_tenant_id a = tenant.

(** C18: An admin reaches only the realms of the own tenant.  Whatever request is served, whatever it answers, a realm bound to a
    tenant for which the request's session header names no admin keeps its tenant and issuer, exactly its users, exactly its
    clients and exactly the sessions of its users: realms are created and deleted, users and clients written and deleted, and
    sessions revoked, by break-glass too, only in realms of the acting admin's tenant. *)
Theorem admin_confined_to_tenant r h st realm tenant :
  rows_keyed (accounts st) → realm_tenants (accounts st) !! realm = Some tenant → ¬ acts_for tenant h st →
  realm_kept realm (accounts st) (accounts (handle r h st).2).
Proof.
  intros Hk Ht Hn. destruct (handle_effect r h st) as [->|(a & e & p & scope & Ha & Hc)]; [apply realm_kept_refl|].
  eapply change_kept; [done..|]. intros ->. apply Hn.
  destruct Ha as [(sid & src & x & u & Hh & He & _ & Hadm & _) _]. by exists sid, e, a.
Qed.

(** * Lemmas: the audit trail *)

Abbreviation events st := (AuditChain.audit_events (audit_log st)).

(** One event of that actor was added. *)
Definition audited (a : Admin) (st st' : St) : Prop :=
  ∃ ev, events st' = events st ++ [ev] ∧ AuditChain.actor ev = ad_subject a.

(** An event of the log has an identifier the world gives again. *)
Definition identifier_repeats (st : St) : Prop := ∃ i ev, ev ∈ events st ∧ AuditChain.id ev = w_ulid W i.

Lemma append_audit_cases h a e r x y z m st o st' :
  (require_reason (security config) = true → ∃ why, header_string h ADMIN_REASON_HEADER = Some why) →
  append_admin_audit h a e r x y z m st = (o, st') → audited a st st' ∨ (identifier_repeats st ∧ ∃ er, o = Err er).
Proof.
  intros Hwhy Hr.
  assert (∃ why, (if require_reason (security config) then of_result (admin_reason h) else ret (reason_or h)) (next st)
                 = (Ok why, next st)) as [why Ew].
  { destruct (require_reason (security config)); [|by eexists]. destruct (Hwhy eq_refl) as [why Hw]. exists why.
    unfold of_result, admin_reason. by rewrite Hw. }
  unfold append_admin_audit in Hr. rewrite (bind_ok _ _ _ _ _ (eq_refl : new_ulid st = (Ok (w_ulid W (tick st)), next st))) in Hr.
  rewrite (bind_ok _ _ _ _ _ Ew) in Hr.
  rewrite (bind_ok _ _ _ _ _ (eq_refl : now_seconds (next st) = (Ok (w_now W (tick (next st))), next (next st)))) in Hr.
  unfold write_audit, AuditChain.append_audit_event, Tokens.reject_duplicate_id in Hr. cbn [AuditChain.id] in Hr.
  destruct (existsb _ _) eqn:E.
  - right. injection Hr as <- <-. split; [|by eauto]. apply existsb_elem_of in E as (ev & Hin & Hid%String.eqb_eq).
    exists (tick st), ev. done.
  - left. injection Hr as _ <-. eexists. split; [done|]. by destruct (_ ≫= _).
Qed.

Lemma appended h a e r x y z m st u st' :
  (require_reason (security config) = true → ∃ why, header_string h ADMIN_REASON_HEADER = Some why) →
  append_admin_audit h a e r x y z m st = (Ok u, st') → audited a st st'.
Proof. intros Hw Hr. destruct (append_audit_cases _ _ _ _ _ _ _ _ _ _ _ Hw Hr) as [|[_ [? ?]]]; done. Qed.

Lemma recorded h a e r x y z m st u st' :
  (require_reason (security config) = true → ∃ why, header_string h ADMIN_REASON_HEADER = Some why) →
  record_admin_audit_or_warn h a e r x y z m st = (Ok u, st') →
  audited a st st' ∨ (audit_fail_closed config = false ∧ identifier_repeats st).
Proof.
  intros Hw. unfold record_admin_audit_or_warn. destruct (append_admin_audit h a e r x y z m st) as [[v|er] s] eqn:E.
  - intros [= _ <-]. left. by eapply appended.
  - destruct (audit_fail_closed config); [done|]. intros [= _ <-]. apply append_audit_cases in E as [?|[? _]]; auto.
Qed.

(** A successful write of the accounts leaves the log alone. *)
Lemma written {A} (f : QidResult unit → Store → QidResult A * Store) st a st' : write f st = (Ok a, st') → audit_log st' = audit_log st.
Proof. unfold write. destruct (f _ _). by intros [= _ <-]. Qed.

(** What a successful answer with changed accounts leaves behind. *)
Definition accounted (h : HeaderMap) (st st' : St) : Prop :=
  ∃ a e p scope, authorized h p (security config) scope a e st ∧
    (audited a st st' ∨ (audit_fail_closed config = false ∧ identifier_repeats st)).

Lemma accounted_mutation h p scope st a e st1 :
  admin_mutation h p scope st = (Ok (a, e), st1) →
  (require_reason (security config) = true → ∃ why, header_string h ADMIN_REASON_HEADER = Some why) ∧ audit_log st1 = audit_log st ∧
  ∀ st', (audited a st1 st' ∨ (audit_fail_closed config = false ∧ identifier_repeats st1)) → accounted h st st'.
Proof.
  intros (Hw & Ha & _ & _ & Hl)%mutation_inv. split; [done|]. split; [done|]. intros st' Ho.
  exists a, e, p, scope. split; [done|]. unfold audited, identifier_repeats in *. by rewrite Hl in Ho.
Qed.

Lemma breakglass_is_mutation h st r st1 :
  authorize_breakglass_mutation h (security config) None st = (Ok r, st1) → admin_mutation h BreakGlass None st = (Ok r, st1).
Proof. unfold authorize_breakglass_mutation. intros Hm. apply bind_inv in Hm as (? & ? & [_ ->]%guarded & Hm). exact Hm. Qed.

Lemma audited_after a st st1 st' : audit_log st1 = audit_log st → audited a st1 st' → audited a st st'.
Proof. unfold audited. by intros ->. Qed.
Lemma recorded_after a st st1 st' :
  audit_log st1 = audit_log st → audited a st1 st' ∨ (audit_fail_closed config = false ∧ identifier_repeats st1) →
  audited a st st' ∨ (audit_fail_closed config = false ∧ identifier_repeats st).
Proof. unfold audited, identifier_repeats. by intros ->. Qed.

(** A handler that authorizes, works, and ends with an audit event. *)
Ltac trail Hm :=
  apply accounted_mutation in Hm as (Hw & Hl & Hacc); apply Hacc;
  repeat match goal with
  | V : write _ _ = (Ok _, _) |- _ => apply written in V
  | V : append_admin_audit _ _ _ _ _ _ _ _ _ = (Ok _, _) |- _ => apply (appended _ _ _ _ _ _ _ _ _ _ _ Hw) in V
  | V : record_admin_audit_or_warn _ _ _ _ _ _ _ _ _ = (Ok _, _) |- _ => apply (recorded _ _ _ _ _ _ _ _ _ _ _ Hw) in V
  | V : session_cache_delete _ _ = (Ok _, _) |- _ => unfold session_cache_delete in V; injection V as _ <-
  | V : new_ulid _ = (Ok _, _) |- _ => unfold new_ulid in V; injection V as _ <-
  end;
  first [left; eapply audited_after; [|eassumption]; cbn [audit_log next put_accounts] in *; congruence
        |eapply recorded_after; [|eassumption]; cbn [audit_log next put_accounts] in *; congruence].

Lemma create_realm_audited h req st x st' : create_realm h req st = (Ok x, st') → accounted h st st'.
Proof. unfold create_realm. intros Hr. apply bind_inv in Hr as ([a e] & s1 & Hm & Hr). run. trail Hm. Qed.
Lemma delete_realm_audited h realm st x st' : delete_realm h realm st = (Ok x, st') → accounted h st st'.
Proof. unfold delete_realm, audit_no_content. intros Hr. apply bind_inv in Hr as ([a e] & s1 & Hm & Hr). run. trail Hm. Qed.
Lemma create_user_audited h realm req st x st' : create_user h realm req st = (Ok x, st') → accounted h st st'.
Proof.
  unfold create_user. intros Hr. apply bind_inv in Hr as ([a e] & s1 & Hm & Hr). apply bind_inv in Hr as (uid & s2 & Hid & Hr).
  cbv zeta in Hr. destruct (cu_id req); run; trail Hm.
Qed.
Lemma create_client_audited h realm req st x st' : create_client h realm req st = (Ok x, st') → accounted h st st'.
Proof.
  unfold create_client. intros Hr. apply bind_inv in Hr as ([a e] & s1 & Hm & Hr). apply bind_inv in Hr as (secret & s2 & [_ ->]%of_result_inv & Hr).
  apply bind_inv in Hr as (cid & s3 & Hid & Hr). cbv zeta in Hr. run. trail Hm.
Qed.

Lemma mutation_accounts h p scope st r st1 : admin_mutation h p scope st = (r, st1) → accounts st1 = accounts st.
Proof. intros Hm. pose proof (quiet_mutation h p (security config) scope st) as Hq. unfold admin_mutation in Hm. by rewrite Hm in Hq. Qed.

Lemma update_user_audited h realm uid req st x st' :
  update_user h realm uid req st = (Ok x, st') → accounts st' = accounts st ∨ accounted h st st'.
Proof.
  unfold update_user. intros Hr. apply bind_inv in Hr as ([a e] & s1 & Hm & Hr). apply bind_inv in Hr as (found & s2 & Hf & Hr).
  unfold read in Hf. injection Hf as <- <-. destruct (get_user_by_id uid (accounts s1)) as [u|].
  - right. run. trail Hm.
  - left. run. by eapply mutation_accounts.
Qed.
Lemma delete_user_audited h realm uid st x st' :
  delete_user h realm uid st = (Ok x, st') → accounts st' = accounts st ∨ accounted h st st'.
Proof.
  unfold delete_user, audit_no_content. intros Hr. apply bind_inv in Hr as ([a e] & s1 & Hm & Hr).
  apply bind_inv in Hr as (found & s2 & Hf & Hr). unfold read in Hf. injection Hf as <- <-.
  destruct (get_user_by_id uid (accounts s1)) as [u|].
  - right. run. trail Hm.
  - left. run. by eapply mutation_accounts.
Qed.
Lemma delete_client_audited h realm cid st x st' :
  delete_client h realm cid st = (Ok x, st') → accounts st' = accounts st ∨ accounted h st st'.
Proof.
  unfold delete_client, audit_no_content. intros Hr. apply bind_inv in Hr as ([a e] & s1 & Hm & Hr).
  apply bind_inv in Hr as (found & s2 & Hf & Hr). unfold read in Hf. injection Hf as <- <-.
  destruct (get_client_by_client_id realm cid (accounts s1)) as [c|].
  - right. run. trail Hm.
  - left. run. by eapply mutation_accounts.
Qed.
Lemma revoke_session_audited h realm sid st x st' : revoke_session_handler h realm sid st = (Ok x, st') → accounted h st st'.
Proof. unfold revoke_session_handler. intros Hr. apply bind_inv in Hr as ([a e] & s1 & Hm & Hr). run. trail Hm. Qed.
Lemma revoke_family_audited h realm fid st x st' : revoke_token_family_handler h realm fid st = (Ok x, st') → accounted h st st'.
Proof.
  unfold revoke_token_family_handler. intros Hr. apply bind_inv in Hr as ([a e] & s1 & Hm & Hr). run.
  match goal with V : Tokens.get_token_family _ _ = Ok _ |- _ => clear V end. trail Hm.
Qed.
Lemma breakglass_audited h sid i j st x st' :
  breakglass_revoke_session h sid i j st = (Ok x, st') → accounts st' = accounts st ∨ accounted h st st'.
Proof.
  unfold breakglass_revoke_session. intros Hr. apply bind_inv in Hr as ([a e] & s1 & Hm%breakglass_is_mutation & Hr).
  apply bind_inv in Hr as (u & s2 & [_ ->]%guarded & Hr). apply bind_inv in Hr as (found & s3 & Hf & Hr).
  unfold read in Hf. injection Hf as <- <-. destruct (get_session sid (accounts s1)) as [y|].
  - right. run. trail Hm.
  - left. run. by eapply mutation_accounts.
Qed.

(** C19: No admin changes an account unseen.  When a request answers without an error and the accounts changed, an admin of the
    request was authorized, and the audit log has gained exactly one event, whose actor is that admin's subject.  Only when a
    fresh event identifier is already in the log may a forced revocation go unrecorded, and only where audit failures are
    configured not to refuse the request. *)
Theorem admin_changes_audited r h st x st' :
  handle r h st = (Ok x, st') → accounts st' ≠ accounts st →
  ∃ a e p scope, authorized h p (security config) scope a e st ∧
    (audited a st st' ∨ (audit_fail_closed config = false ∧ identifier_repeats st)).
Proof.
  intros Hr Hne. change (accounted h st st'). destruct (writes_accounts r) eqn:E.
  - destruct r; try discriminate; cbn [handle] in Hr.
    + by eapply create_realm_audited.
    + by eapply delete_realm_audited.
    + by eapply create_user_audited.
    + by destruct (update_user_audited _ _ _ _ _ _ _ Hr).
    + by destruct (delete_user_audited _ _ _ _ _ _ Hr).
    + by eapply create_client_audited.
    + by destruct (delete_client_audited _ _ _ _ _ _ Hr).
    + by eapply revoke_session_audited.
    + by eapply revoke_family_audited.
    + by destruct (breakglass_audited _ _ _ _ _ _ _ Hr).
  - pose proof (quiet_handle r h E st) as Hq. unfold same_accounts in Hq. by rewrite Hr in Hq.
Qed.

End Admin.

(** * Witnesses *)

Abbreviation EJ := (Value SerdeNumber).

Definition ex_security : AdminSecurityConfig :=
  {| require_reason := true; require_step_up := true; required_acr := "phr"; required_amr := ["webauthn"]; max_elevation_seconds := 900;
     require_approval := true; max_approval_age_seconds := 600; breakglass_enabled := true |}.
Definition ex_config : Configuration :=
  {| security := ex_security; audit_fail_closed := true; config_realms := []; emergency_read_only := false |}.
Definition ex_world : World := {| w_now := fun _ => 100; w_ulid := fun i => "e" +:+ pretty i; w_saved := fun _ => Ok tt |}.

Definition ex_admin : Admin := {| ad_id := "a1"; ad_tenant_id := "t"; ad_subject := "u1"; roles := ["directory.admin"]; ad_created_at := 1 |}.
Definition ex_elevation : AdminElevation :=
  {| el_id := "el"; el_tenant_id := "t"; el_admin_id := "a1"; source_session_id := Some "s1"; el_acr := Some "phr"; el_amr := ["webauthn"];
     elevation_expires_at := 500; el_created_at := 1 |}.
Definition ex_approval : AdminApproval :=
  {| ap_id := "ap"; ap_tenant_id := "t"; approver_admin_id := "a2"; target_admin_id := "a1"; ap_reason := None; approved_at := 1;
     ap_expires_at := 500; ap_consumed := false |}.

Definition ex_user (k realm : string) : User :=
  {| u_id := k; u_realm_id := realm; email := None; email_verified := false; display_name := None; failed_login_attempts := 0;
     locked_until := None; org := None |}.
Definition ex_session : Session (J := EJ) :=
  {| s_id := "s1"; s_realm_id := "r"; s_user_id := "u1"; auth_time := 1; s_acr := None; s_amr := []; idle_expires_at := 900;
     absolute_expires_at := 900; s_revoked := false; s_created_at := 1; s_cnf := None |}.

Definition ex_accounts : Accounts.Store (J := EJ) :=
  {| push := Push.empty_push; tokens := Tokens.empty_store; realm_issuers := {["r" := "https://r"; "q" := "https://q"]};
     realm_tenants := {["r" := "t"; "q" := "other"]}; users := {["u1" := ex_user "u1" "r"; "v" := ex_user "v" "q"]};
     credentials_password := ∅; clients := ∅; sessions := {["s1" := ex_session]}; webauthn_credentials := ∅; totp_credentials := ∅;
     devices := ∅; ciam := fun _ => ∅; realm_tables := fun _ => ∅; hr_receipts := ∅; ssf_set_replay := ∅; oidc_continuations := ∅ |}.

Definition ex_state : St (Num := SerdeNumber) :=
  {| accounts := ex_accounts;
     tables := {| admins := {["a1" := ex_admin]}; admin_elevations := {["el" := ex_elevation]}; admin_approvals := {["ap" := ex_approval]} |};
     audit_log := {| AuditChain.audit_events := []; AuditChain.audit_retention_configs := ∅ |};
     pep_decisions := []; local_sessions := ∅; shared_cache := ∅; tick := 0 |}.

Definition ex_headers : HeaderMap := fun n =>
  if String.eqb n ADMIN_REASON_HEADER then Some "ticket 7"
  else if String.eqb n ADMIN_SESSION_ID_HEADER then Some "el"
  else if String.eqb n ADMIN_APPROVAL_ID_HEADER then Some "ap" else None.

Abbreviation ex_handle :=
  (handle ex_config ex_world Tokens.Immediate AuditChain.toy_sha AuditChain.toy_vec (fun _ => "") (fun _ => VNull) (String.concat ",")
    (fun _ => OAuth.Build_ClientBody OAuth.Public "none" None [] [] [] None None)).
Abbreviation ex_authorize := (authorize_admin_mutation ex_config ex_world (String.concat ",")).

Lemma ex_approvals_keyed : approvals_keyed (tables ex_state).
Proof. intros k x. cbn. intros [<- <-]%lookup_singleton_Some. done. Qed.

(** A mutation with an approval is authorized; a second one with the same approval is not. *)
Lemma admin_mutation_authorized_witness :
  ∃ st', ex_authorize ex_headers DirectoryAdmin ex_security (Some "r") ex_state = (Ok (ex_admin, ex_elevation), st') ∧
    ∃ er, ex_authorize ex_headers DirectoryAdmin ex_security (Some "r") st' = (Err er, st').
Proof.
  assert (∃ st', ex_authorize ex_headers DirectoryAdmin ex_security (Some "r") ex_state = (Ok (ex_admin, ex_elevation), st')) as [st' Hst].
  { eexists. vm_compute. reflexivity. }
  exists st'. split; [exact Hst|].
  refine (proj1 (proj2 (admin_mutation_authorized ex_config ex_world Tokens.Immediate AuditChain.toy_sha AuditChain.toy_vec (fun _ => "")
    (fun _ => VNull) (String.concat ",") (fun _ => OAuth.Build_ClientBody OAuth.Public "none" None [] [] [] None None)
    ex_headers DirectoryAdmin ex_security (Some "r") ex_state ex_admin ex_elevation st' ex_approvals_keyed Hst)
    "ap" ex_approval st' ex_headers DirectoryAdmin ex_security (Some "r") _ _ _ _)); [reflexivity|reflexivity|apply rtc_refl|reflexivity].
Defined.

Lemma ex_rows_keyed : rows_keyed (accounts ex_state).
Proof.
  split.
  - intros k u Hu. cbn in Hu. apply lookup_insert_Some in Hu as [[<- <-]|[_ [<- <-]%lookup_singleton_Some]]; done.
  - intros k x. cbn. intros [<- <-]%lookup_singleton_Some. done.
Qed.

Lemma ex_other_tenant : ¬ acts_for "other" ex_headers ex_state.
Proof.
  intros (sid & e & a & Hh & He & Ha & Ht). cbn in Ha. apply lookup_singleton_Some in Ha as [_ <-]. discriminate Ht.
Qed.

(** An admin of one tenant deletes a user of the own realm, and not the one of another tenant's realm. *)
Lemma admin_confined_to_tenant_witness :
  users (accounts (ex_handle (DeleteUser "r" "u1") ex_headers ex_state).2) !! "u1" = None ∧
  users (accounts (ex_handle (DeleteUser "q" "v") ex_headers ex_state).2) !! "v" = Some (ex_user "v" "q").
Proof.
  split; [vm_compute; reflexivity|].
  refine (proj2 (rk_users _ _ _ (admin_confined_to_tenant ex_config ex_world Tokens.Immediate AuditChain.toy_sha AuditChain.toy_vec
    (fun _ => "") (fun _ => VNull) (String.concat ",") (fun _ => OAuth.Build_ClientBody OAuth.Public "none" None [] [] [] None None)
    (DeleteUser "q" "v") ex_headers ex_state "q" "other" ex_rows_keyed eq_refl ex_other_tenant) "v" (ex_user "v" "q") eq_refl) _).
  reflexivity.
Defined.

(** The deletion of a user is in the audit log. *)
Lemma admin_changes_audited_witness :
  ∃ x st', ex_handle (DeleteUser "r" "u1") ex_headers ex_state = (Ok x, st') ∧ audited ex_admin ex_state st'.
Proof.
  assert (∃ x st', ex_handle (DeleteUser "r" "u1") ex_headers ex_state = (Ok x, st') ∧ users (accounts st') !! "u1" = None)
    as (x & st' & Hst & Hgone).
  { eexists _, _. split; [vm_compute; reflexivity|reflexivity]. }
  exists x, st'. split; [exact Hst|].
  destruct (admin_changes_audited ex_config ex_world Tokens.Immediate AuditChain.toy_sha AuditChain.toy_vec (fun _ => "")
    (fun _ => VNull) (String.concat ",") (fun _ => OAuth.Build_ClientBody OAuth.Public "none" None [] [] [] None None)
    (DeleteUser "r" "u1") ex_headers ex_state x st' Hst) as (a & e & p & scope & Ha & Hau).
  - intros Heq. rewrite Heq in Hgone. discriminate Hgone.
  - destruct Hau as [Hau|[Hf _]]; [|discriminate Hf].
    destruct Ha as [(sid & src & y & u & _ & _ & _ & Hadm & _) _].
    cbn in Hadm. apply lookup_singleton_Some in Hadm as [_ <-]. exact Hau.
Defined.

End Admin.
