(* ===== verification/Pep.v ===== *)
(** The decision point that proxies and gateways call (src/qid-proxy/src/pep_decision.rs and
    pep_decision/decision.rs): authentication of the calling registration, the policy of its realm, the
    risk advisory, obligations within the capabilities of the caller, the decision cache and the fail-open
    rule; and the policy bundles of the file repository (src/qid-storage/src/file/policy.rs).

    The state holds the stored bundles, the one cached bundle, the local decision cache and a shared cache
    (Replay.v).  A [World] gives the clock in seconds, the monotonic clock and the outcome of every read
    of the repository.  A result is an [option], [None] being a panic of a cache.  Token verification,
    JSON text, the derived codecs of the answer and of a bundle, and SHA-256 are parameters.  Metrics and
    tracing are left out. *)

From S2P Require Import Prelude Utf8 Json Push Tokens Policy Rebac Risk Replay OpsCache Accounts OAuth.
Import NativePolicy.
#[local] Existing Instance Rebac.FileStore_RebacRepository.

Module Pep.

(** * Configuration *)

Record PepDecisionCacheConfig : Type := { positive_ttl_seconds : N; negative_ttl_seconds : N }.

Definition default_cache_config : PepDecisionCacheConfig := {| positive_ttl_seconds := 30; negative_ttl_seconds := 5 |}.

Definition ttl_ms (c : PepDecisionCacheConfig) (class : DecisionCacheClass) : N :=
  saturating_mul64 (match class with Positive => positive_ttl_seconds c | Negative => negative_ttl_seconds c end) 1000.

Record PepRegistrationAuthConfig : Type := { replay_protection : bool; token_max_age_seconds : N; clock_skew_seconds : N }.

(** [pr_capabilities] are the effects of the configured capabilities. *)
Record PepRegistrationConfig : Type := {
  pr_name : string; pr_audience : option string; pr_capabilities : list string; fail_policy : string;
  pr_cache : PepDecisionCacheConfig; pr_auth : PepRegistrationAuthConfig
}.

Record RealmConfig : Type := {
  rl_id : string; rl_tenant_id : option string; pep_enabled : bool; registrations : list PepRegistrationConfig;
  policy_default_decision : string
}.

Definition served (r : RealmConfig) : list PepRegistrationConfig := if pep_enabled r then registrations r else [].

Section Pep.
Context {Num : Type} `{JsonNumber Num}.
Abbreviation J := (Value Num).

(** * Requests and answers *)

Record PepAuthAssertions : Type := { as_realm : option string; as_audience : option string; as_capabilities : list string }.

Record DecisionPrincipal : Type := {
  pn_id : option string; pn_groups : list string; pn_roles : list string; pn_entitlements : list string;
  pn_device_id : option string; pn_posture : list string; assurance_level : option string
}.
Definition default_principal : DecisionPrincipal :=
  {| pn_id := None; pn_groups := []; pn_roles := []; pn_entitlements := []; pn_device_id := None; pn_posture := []; assurance_level := None |}.
Record DecisionResource : Type := {
  rs_id : option string; rs_host : option string; rs_path : option string; rs_port : option N; rs_sni : option string
}.
Record DecisionOperation : Type := { op_name : string; op_method : option string }.
Record DecisionPep : Type := { registration : string; pep_capabilities : list string }.
Record DecisionRisk : Type := {
  rk_score : option N; rk_category : option string; rk_reputation : option string; rk_application : option string
}.

Record WirePepDecisionRequest : Type := {
  w_schema_id : option string; w_request_id : option string; w_traceparent : option string; w_principal : option DecisionPrincipal;
  w_resource : DecisionResource; w_operation : DecisionOperation; w_pep : DecisionPep; w_risk : option DecisionRisk;
  w_context : gmap string J; w_extensions : gmap string J; w_auth_assertions : option PepAuthAssertions
}.

Record ProxyInfo : Type := { proxy_name : string; px_action : option string }.
Record RequestInfo : Type := {
  dst_port : option N; ri_host : option string; ri_sni : option string; ri_method : option string; ri_path : option string
}.
Record IdentityInfo : Type := {
  id_user : option string; id_groups : list string; id_roles : list string; id_entitlements : list string;
  id_device_id : option string; id_posture : list string; auth_strength : option string
}.
Record DestinationInfo : Type := { di_category : option string; di_reputation : option string; di_application : option string }.

Record PepDecisionRequest : Type := {
  schema_id : string; request_id : option string; traceparent : option string; proxy : ProxyInfo; rq_request : option RequestInfo;
  identity : option IdentityInfo; destination : option DestinationInfo; rq_risk_score : option N; rq_context : gmap string J;
  rq_extensions : gmap string J; auth_assertions : option PepAuthAssertions; declared_capabilities : gset string;
  adapter_capabilities : gset string; adapter_realm_id : option string; adapter_tenant_id : option string
}.

Definition PEP_DECISION_REQUEST_SCHEMA_ID : string := "urn:qid:schema:pep-decision-request:v1".
Definition PEP_DECISION_RESPONSE_SCHEMA_ID : string := "urn:qid:schema:pep-decision-response:v1".

(** [normalize_capabilities], [normalize_string_capabilities] and [normalize_wire_capabilities]. *)
Definition normalize_capabilities (effects : list string) : gset string :=
  list_to_set (List.filter (fun c => negb (is_empty_str c)) (map (fun e => to_ascii_lowercase (Utf8.trim_str e)) effects)).

Definition wire_destination (risk : option DecisionRisk) : option DestinationInfo :=
  r ← risk;
  if Push.is_some (rk_category r) || Push.is_some (rk_reputation r) || Push.is_some (rk_application r)
  then Some {| di_category := rk_category r; di_reputation := rk_reputation r; di_application := rk_application r |} else None.

(** [TryFrom<WirePepDecisionRequest>] *)
Definition try_from (v : WirePepDecisionRequest) : result PepDecisionRequest string :=
  let sid := default PEP_DECISION_REQUEST_SCHEMA_ID (w_schema_id v) in
  if negb (String.eqb sid PEP_DECISION_REQUEST_SCHEMA_ID) then Err ("unsupported PEP decision request schema_id: " +:+ sid)
  else
    let reg := Utf8.trim_str (registration (w_pep v)) in
    if is_empty_str reg then Err "pep.registration must not be empty"
    else
      let op := Utf8.trim_str (op_name (w_operation v)) in
      if is_empty_str op then Err "operation.name must not be empty"
      else
        let p := default default_principal (w_principal v) in
        Ok {| schema_id := sid; request_id := w_request_id v; traceparent := w_traceparent v;
              proxy := {| proxy_name := reg; px_action := Some (to_ascii_lowercase op) |};
              rq_request := Some {| dst_port := rs_port (w_resource v);
                                    ri_host := match rs_host (w_resource v) with Some h => Some h | None => rs_id (w_resource v) end;
                                    ri_sni := rs_sni (w_resource v); ri_method := op_method (w_operation v); ri_path := rs_path (w_resource v) |};
              identity := Some {| id_user := pn_id p; id_groups := pn_groups p; id_roles := pn_roles p; id_entitlements := pn_entitlements p;
                                  id_device_id := pn_device_id p; id_posture := pn_posture p; auth_strength := assurance_level p |};
              destination := wire_destination (w_risk v); rq_risk_score := (fun s => N.min s 100) <$> (w_risk v ≫= rk_score);
              rq_context := w_context v; rq_extensions := w_extensions v; auth_assertions := w_auth_assertions v;
              declared_capabilities := normalize_capabilities (pep_capabilities (w_pep v)); adapter_capabilities := ∅;
              adapter_realm_id := None; adapter_tenant_id := None |}.

Record PepDecisionObligation : Type := { po_namespace : string; po_version : string; po_name : string; po_parameters : J }.

Record PepDecisionAuditInfo : Type := {
  severity : string; au_policy_id : string; au_policy_tags : list string; au_risk_score : option N
}.

Record PepDecisionResponse : Type := {
  rp_schema_id : string; rp_decision : string; decision_id : string; rp_policy_id : string; policy_revision : string; rp_ttl_ms : N;
  cacheable : bool; decision_scope : string; rp_obligations : list PepDecisionObligation; audit : PepDecisionAuditInfo;
  rp_extensions : gmap string J
}.

(** * The risk advisory (decision.rs) *)

Context (trig : Risk.Trig).

Definition underscore_dash (c : Ascii.ascii) : Ascii.ascii := if Ascii.eqb c (Ascii.ascii_of_N 95) then Ascii.ascii_of_N 45 else c.

Definition normalize_signal (v : string) : string :=
  String.string_of_list_ascii (map underscore_dash (String.list_ascii_of_string (to_ascii_lowercase (Utf8.trim_str v)))).

Definition destination_reputation_from_signal (v : string) : option Risk.DestinationReputation :=
  let n := normalize_signal v in
  if String.eqb n "known-good" then Some Risk.KnownGood
  else if String.eqb n "unknown" then Some Risk.Unknown
  else if String.eqb n "suspicious" then Some Risk.Suspicious
  else if String.eqb n "malicious" then Some Risk.Malicious else None.

Definition broken_posture (item : string) : bool := str_in (normalize_signal item) ["compromised"; "rooted"; "jailbroken"].

Definition device_trust_from_identity (o : option IdentityInfo) : Risk.DeviceTrustState :=
  match o with
  | None => Risk.UnknownDevice
  | Some i =>
      if existsb broken_posture (id_posture i) then Risk.Compromised
      else if Push.is_some (id_device_id i) && existsb (fun x => str_in (normalize_signal x) ["trusted"; "managed"]) (id_posture i)
      then Risk.Managed
      else if Push.is_some (id_device_id i) then Risk.Registered else Risk.UnknownDevice
  end.

Definition device_posture_signal_from_identity (i : IdentityInfo) : Risk.DevicePostureSignal :=
  let posture := map normalize_signal (id_posture i) in
  {| Risk.managed := existsb (fun x => str_in x ["managed"; "trusted"]) posture;
     Risk.encrypted := negb (str_in "unencrypted" posture);
     Risk.edr := negb (existsb (fun x => str_in x ["no-edr"; "edr-missing"]) posture);
     Risk.os_outdated := str_in "outdated-os" posture;
     Risk.jailbreak_or_root := existsb (fun x => str_in x ["compromised"; "rooted"; "jailbroken"]) posture |}.

Definition reputation_tags (reputation : string) : list string :=
  let n := normalize_signal reputation in
  if String.eqb n "unknown" then ["risk:unknown-destination"]
  else if String.eqb n "suspicious" then ["risk:suspicious-destination"]
  else if String.eqb n "malicious" then ["risk:malicious-destination"]
  else if negb (String.eqb n "known-good") then ["risk:destination-reputation:" +:+ n] else [].

Definition category_tags (category : string) : list string :=
  let n := normalize_signal category in
  if str_in n ["privacy"; "health"; "banking"] then ["risk:sensitive-category:" +:+ n]
  else if str_in n ["malware"; "phishing"; "command-and-control"] then ["risk:malicious-category:" +:+ n]
  else if str_in n ["newly-registered-domain"; "unknown"] then ["risk:unknown-category:" +:+ n] else [].

(** What [append_destination_risk_tags] appends. *)
Definition destination_risk_tags (o : option DestinationInfo) : list string :=
  match o with
  | None => []
  | Some d =>
      match di_reputation d with Some r => reputation_tags r | None => [] end
      ++ match di_category d with Some c => category_tags c | None => [] end
      ++ match di_application d with Some a => ["risk:application:" +:+ normalize_signal a] | None => [] end
  end.

Definition dedupe_strings (l : list string) : list string := Risk.dedupe_from [] l.

Record PepDecisionRiskAdvisory : Type := {
  ra_score : N; ra_force_inspect : option bool; ra_force_tunnel : option bool; ra_rate_limit_profile : option string;
  ra_cache_bypass : option bool; ra_policy_tags : list string
}.

Definition risk_input (req : PepDecisionRequest) : Risk.RiskInput :=
  let reputation := (destination req ≫= di_reputation) ≫= destination_reputation_from_signal in
  {| Risk.realm_id := None; Risk.subject := identity req ≫= id_user; Risk.previous_login := None; Risk.current_login := None;
     Risk.device_trust := device_trust_from_identity (identity req); Risk.high_risk_asn := false; Risk.anonymous_network := false;
     Risk.destination_reputation := default Risk.KnownGood reputation;
     Risk.phishing_resistant_mfa_satisfied := bool_decide (identity req ≫= auth_strength = Some "phr");
     Risk.step_up_succeeded := false; Risk.new_device := false; Risk.impossible_travel := false; Risk.unmanaged_device := false;
     Risk.malicious_destination := false;
     Risk.pep := Some {| Risk.edge_name := Some (proxy_name (proxy req)); Risk.route := None; Risk.host := rq_request req ≫= ri_host;
                         Risk.sni := rq_request req ≫= ri_sni; Risk.method := rq_request req ≫= ri_method;
                         Risk.pep_path := rq_request req ≫= ri_path; Risk.destination_category := destination req ≫= di_category;
                         Risk.pep_reputation := reputation; Risk.application := destination req ≫= di_application |};
     Risk.device_posture := device_posture_signal_from_identity <$> identity req; Risk.tenant_policy := None;
     Risk.token := Some {| Risk.sender_constrained := false; Risk.token_age_seconds := None; Risk.auth_time_age_seconds := None;
                           Risk.acr := identity req ≫= auth_strength;
                           Risk.amr := match identity req ≫= auth_strength with Some a => [a] | None => [] end |} |}.

(** One adjustment of the score, with its tag. *)
Definition adjust (b : bool) (n : N) (tag : string) (p : N * list string) : N * list string :=
  if b then (saturating_add64 p.1 n, p.2 ++ [tag]) else p.

Definition pep_decision_risk_advisory (req : PepDecisionRequest) : PepDecisionRiskAdvisory :=
  let e := Risk.evaluate_risk trig (risk_input req) in
  let p := (Risk.score e, map (fun l => "risk:" +:+ l) (Risk.labels e)) in
  let p := adjust (Push.is_none (identity req)) 25 "risk:anonymous" p in
  let p := adjust (match identity req with Some i => Push.is_none (id_device_id i) | None => false end) 10 "risk:missing-device" p in
  let p := adjust (match identity req with Some i => negb (bool_decide (auth_strength i = Some "phr")) | None => false end) 10
             "risk:non-phishing-resistant-auth" p in
  let refused := match Risk.outcome e with Risk.Deny | Risk.Quarantine => true | _ => false end in
  {| ra_score := N.min p.1 100;
     ra_force_inspect := if Risk.pep_force_inspect e || refused then Some true else if Risk.pep_force_tunnel e then Some false else None;
     ra_force_tunnel := if Risk.pep_force_tunnel e then Some true else None; ra_rate_limit_profile := Risk.rate_limit_profile e;
     ra_cache_bypass := match Risk.outcome e with Risk.Deny | Risk.Quarantine | Risk.ForceInspect => Some true | _ => None end;
     ra_policy_tags := dedupe_strings (p.2 ++ destination_risk_tags (destination req)) |}.

Definition merge_policy_tags (policy_tags risk_tags : list string) : list string := dedupe_strings (policy_tags ++ risk_tags).

(** * Obligations *)

Definition jopt (o : option string) : J := match o with Some s => VString s | None => VNull end.
Definition jstrs (l : list string) : J := VArray (map VString l).
Definition jnum (n : N) : J := VNumber (num_from_u64 n).

(** A map of strings as an object: keys in byte order. *)
Definition jheaders (m : gmap string string) : J :=
  VObject (map (fun k => (k, VString (default "" (m !! k)))) (btree_keys m)).

Definition qid_decision_obligation (n : string) (parameters : J) : PepDecisionObligation :=
  {| po_namespace := "urn:qid:decision:obligation:pep"; po_version := "1"; po_name := n; po_parameters := parameters |}.

Definition require_pep_capability (capabilities : gset string) (capability : string) : QidResult unit :=
  if bool_decide (capability ∈ capabilities) then Ok tt
  else Err (Unauthorized ("PEP registration lacks required decision capability " +:+ capability)).

Definition require_pep_capability_any (capabilities : gset string) (accepted : list string) : QidResult unit :=
  if existsb (fun c => bool_decide (c ∈ capabilities)) accepted then Ok tt
  else Err (Unauthorized ("PEP registration lacks required decision capability " +:+ String.concat "|" accepted)).

Definition pep_decision_wire_decision (d : Decision) : string :=
  match d with
  | Allow | AuditOnly => "allow"
  | Deny | Quarantine | Conditional => "deny"
  | StepUp | ConsentRequired => "challenge"
  | LocalResponse | ApprovalRequired => "local_response"
  end.

Definition pep_decision_policy_decision_label (d : Decision) : string :=
  match d with
  | Allow => "allow" | Deny => "deny" | StepUp => "step_up" | ConsentRequired => "consent_required"
  | LocalResponse => "local_response" | ApprovalRequired => "approval_required" | Quarantine => "quarantine"
  | AuditOnly => "audit_only" | Conditional => "conditional"
  end.

Definition local_response_status (d : Decision) : N * string :=
  match d with
  | Deny => (403, "access_denied")
  | StepUp => (302, "step_up_required")
  | ConsentRequired => (302, "consent_required")
  | LocalResponse => (403, "access_denied")
  | ApprovalRequired => (403, "approval_required")
  | Quarantine => (403, "quarantine_required")
  | Conditional => (403, "conditional_decision_unenforceable")
  | Allow | AuditOnly => (200, "ok")
  end.

Definition qid_local_response_payload (d : Decision) (id : string) : J :=
  let '(status, error) := local_response_status d in
  VObject [("body", VObject [("decision_id", VString id); ("error", VString error)]);
           ("content_type", VString "application/json"); ("status", jnum status)].

Definition audit_severity (d : Decision) : string :=
  match d with
  | Allow | AuditOnly | Quarantine => "normal"
  | StepUp | ConsentRequired | ApprovalRequired => "medium"
  | Deny | LocalResponse | Conditional => "high"
  end.

Definition opt_or {A} (a b : option A) : option A := match a with Some _ => a | None => b end.

(** The obligations of the policy itself. *)
Definition policy_obligations (caps : gset string) (l : list (TypedObligation (Num := Num))) : QidResult (list PepDecisionObligation) :=
  res_mapM (fun o =>
    match ob_capability o with Some c => require_pep_capability caps c | None => Ok tt end ?;
    Ok {| po_namespace := ob_namespace o; po_version := ob_version o; po_name := ob_name o; po_parameters := ob_payload o |}) l.

(** One optional obligation: the capability is required when there is something to oblige. *)
Definition oblige {A} (o : option A) (required : QidResult unit) (n : string) (payload : A → J) : QidResult (list PepDecisionObligation) :=
  match o with
  | Some a => required ?; Ok [qid_decision_obligation n (payload a)]
  | None => Ok []
  end.

Definition upstream_payload (p : PepPolicyActions) : J :=
  VObject [("mirror_upstreams", jstrs (mirror_upstreams p)); ("override_upstream", jopt (override_upstream p));
           ("timeout_override_ms", match timeout_override_ms p with Some n => jnum n | None => VNull end)].

Definition upstream_actions (p : PepPolicyActions) : option PepPolicyActions :=
  if Push.is_some (override_upstream p) || Push.is_some (timeout_override_ms p)
     || match mirror_upstreams p with [] => false | _ => true end
  then Some p else None.

Definition enabled_payload (b : bool) : J := VObject [("enabled", VBool b)].

(** The obligation that carries out a decision other than a grant. *)
Definition decision_obligation (d : Decision) (caps : gset string) (id : string) : QidResult (list PepDecisionObligation) :=
  match d with
  | StepUp | ConsentRequired =>
      require_pep_capability caps "challenge" ?;
      Ok [qid_decision_obligation "challenge"
            (VObject [("decision_id", VString id); ("reason", VString (pep_decision_policy_decision_label d))])]
  | Deny | LocalResponse | ApprovalRequired | Quarantine | Conditional =>
      require_pep_capability caps "local_response" ?;
      Ok [qid_decision_obligation "local_response" (qid_local_response_payload d id)]
  | Allow | AuditOnly => Ok []
  end.

Definition pep_decision_obligations (details : DecisionDetails Num) (risk : PepDecisionRiskAdvisory) (id : string)
    (caps : gset string) : QidResult (list PepDecisionObligation) :=
  let p := dd_pep details in
  let? own := policy_obligations caps (obligations details) in
  let? kind := decision_obligation (decision details) caps id in
  let? headers := oblige (dd_inject_headers details) (require_pep_capability caps "inject_headers") "inject_headers"
    (fun h => VObject [("request_add", VObject [("x-qid-decision-id", jstrs [id])]); ("request_set", jheaders h)]) in
  let? rate := oblige (opt_or (dd_rate_limit_profile details) (ra_rate_limit_profile risk))
    (require_pep_capability_any caps ["rate_limit_profile"; "rate_limit"]) "rate_limit_profile"
    (fun profile => VObject [("profile", VString profile)]) in
  let? upstream := oblige (upstream_actions p) (require_pep_capability caps "override_upstream") "override_upstream" upstream_payload in
  let? inspect := oblige (opt_or (force_inspect p) (ra_force_inspect risk)) (require_pep_capability caps "force_inspect")
    "force_inspect" enabled_payload in
  let? tunnel := oblige (opt_or (force_tunnel p) (ra_force_tunnel risk)) (require_pep_capability caps "force_tunnel")
    "force_tunnel" enabled_payload in
  let? bypass := oblige (opt_or (cache_bypass p) (ra_cache_bypass risk)) (require_pep_capability caps "cache_bypass")
    "cache_bypass" enabled_payload in
  Ok (own ++ kind ++ headers ++ rate ++ upstream ++ inspect ++ tunnel ++ bypass).

(** * The key of the decision cache *)

Context (sha256 : string → list N) (to_vec : J → option string) (from_slice : string → option J).
Context (response_to_value : PepDecisionResponse → option J) (response_from_value : J → option PepDecisionResponse).
Context (response_to_vec : PepDecisionResponse → option string) (bundle_from_value : J → result (PolicyBundle Num) string).

Definition cache_material (req : PepDecisionRequest) (revision : string) : J :=
  let rq := rq_request req in
  let d := destination req in
  let i := identity req in
  VObject
    [("identity", VObject
       [("auth_strength", jopt (i ≫= auth_strength)); ("device_id", jopt (i ≫= id_device_id));
        ("groups", jstrs (match i with Some x => id_groups x | None => [] end));
        ("posture", jstrs (match i with Some x => id_posture x | None => [] end)); ("user", jopt (i ≫= id_user))]);
     ("policy_revision", VString revision);
     ("proxy", VObject [("action", jopt (px_action (proxy req))); ("proxy_name", VString (proxy_name (proxy req)))]);
     ("request", VObject
       [("destination", VObject
          [("application", jopt (d ≫= di_application)); ("category", jopt (d ≫= di_category)); ("reputation", jopt (d ≫= di_reputation))]);
        ("dst_port", match rq ≫= dst_port with Some n => jnum n | None => VNull end);
        ("host", jopt (rq ≫= ri_host)); ("method", jopt (rq ≫= ri_method)); ("path", jopt (rq ≫= ri_path)); ("sni", jopt (rq ≫= ri_sni))])].

(** The text of an encoding error of [serde_json] is left out of the message. *)
Definition pep_decision_cache_key (req : PepDecisionRequest) (revision : string) : QidResult OpsCache.CacheKey :=
  if Utf8.blank revision then Err (BadRequest "policy revision must not be empty")
  else
    let? encoded := ok_or (to_vec (cache_material req revision)) (Internal "failed to encode pep_decision cache material") in
    OpsCache.new_key sha256 "pep_decision" encoded.

Definition div_ceil (a b : N) : N := (a + b - 1) / b.
Definition cache_ttl_seconds (ms : N) : N := N.max (div_ceil ms 1000) 1.

Definition pep_decision_cache_put (req : PepDecisionRequest) (response : PepDecisionResponse) (revision : string)
    : QidResult (option OpsCache.CachePut) :=
  if negb (cacheable response) then Ok None
  else if rp_ttl_ms response =? 0 then Ok None
  else
    let? text := ok_or (response_to_vec response) (Internal "failed to encode pep_decision cache response") in
    let? k := pep_decision_cache_key req revision in
    Ok (Some {| OpsCache.put_key := k; OpsCache.put_value := text; OpsCache.put_ttl := cache_ttl_seconds (rp_ttl_ms response) |}).

(** * The state of the server *)

(** [PolicyBundle] of src/qid-core/src/models/saas.rs. *)
Record StoredBundle : Type := {
  sb_id : string; sb_realm_id : string; sb_name : string; source_hash : string; compiled_json : J; sb_version : N; active : bool
}.

(** The trait [PolicyRepository], as the decision point uses it. *)
Class PolicyRepository (R : Type) : Type := {
  get_active_policy_bundle : R → string → QidResult (option StoredBundle)
}.

(** ** The file repository (src/qid-storage/src/file/policy.rs) *)

#[global] Instance bundle_identity : Tokens.InsertIdentity StoredBundle := {|
  Tokens.RECORD := "policy bundle"; Tokens.IDENTITY := "policy bundle"; Tokens.GLOBAL_IDENTITY := false;
  Tokens.ins_id := sb_id; Tokens.identity := fun b => Some (sb_realm_id b, sb_name b)
|}.

(** The policy bundles of the store, beside its relationship tuples. *)
Record PolicyFile : Type := { policy_bundles : gmap string StoredBundle; relationships : Rebac.FileStore }.

Definition with_bundles (f : PolicyFile) (m : gmap string StoredBundle) : PolicyFile :=
  {| policy_bundles := m; relationships := relationships f |}.

(** [saved] is the outcome of the save; the store in memory keeps the change. *)
Definition create_policy_bundle (saved : QidResult unit) (b : StoredBundle) (f : PolicyFile) : QidResult unit * PolicyFile :=
  match Tokens.insert_new (policy_bundles f) b with
  | Ok m => (saved, with_bundles f m)
  | Err e => (Err e, f)
  end.

(** [find] over the values of the table, in its order. *)
Definition file_get_active_policy_bundle (f : PolicyFile) (realm : string) : QidResult (option StoredBundle) :=
  Ok (List.find (fun b => String.eqb (sb_realm_id b) realm && active b) (map snd (map_to_list (policy_bundles f)))).

(** [sort_by_key] with [Reverse]: newest version first. *)
Definition list_policy_bundles (f : PolicyFile) (realm : string) : QidResult (list StoredBundle) :=
  Ok (sort_by (fun a b => sb_version b <=? sb_version a)
        (List.filter (fun b => String.eqb (sb_realm_id b) realm) (map snd (map_to_list (policy_bundles f))))).

Definition delete_policy_bundle (saved : QidResult unit) (id : string) (f : PolicyFile) : QidResult unit * PolicyFile :=
  (saved, with_bundles f (delete id (policy_bundles f))).

#[global] Instance file_policy_repository : PolicyRepository PolicyFile := {| get_active_policy_bundle := file_get_active_policy_bundle |}.

(** Relationship tuples are read from the same store. *)
#[global] Instance file_rebac_repository : Rebac.RebacRepository PolicyFile := {|
  Rebac.list_relationship_tuples f := Rebac.list_relationship_tuples (relationships f);
  Rebac.create_relationship_tuple t f :=
    let '(r, s) := Rebac.create_relationship_tuple t (relationships f) in (r, {| policy_bundles := policy_bundles f; relationships := s |});
  Rebac.delete_relationship_tuple t f :=
    let '(r, s) := Rebac.delete_relationship_tuple t (relationships f) in (r, {| policy_bundles := policy_bundles f; relationships := s |})
|}.

(** The claims of a registration token the code reads; [cl_realm_id] is the text of the extra claim. *)
Record RegistrationClaims : Type := { cl_sub : option string; cl_iat : option N; cl_jti : option string; cl_realm_id : option string }.

Record World : Type := {
  w_now : nat → N; w_instant : nat → N;
  w_decode_with_aud : nat → string → string → option RegistrationClaims
}.

Record DecisionCacheEntry : Type := { response_json : J; expires_at : N }.

Context {R : Type} `{Rebac.RebacRepository R, PolicyRepository R} {C : Type} `{SharedCache C}.
Context (instant_max : N) (realms : list RealmConfig) (w : World).

Record St : Type := {
  repo : R; policy_bundle_cache : option (string * J); decision_cache : gmap string DecisionCacheEntry;
  decision_poisoned : bool; shared_cache : C; tick : nat
}.

Definition P (A : Type) : Type := St → option (QidResult A) * St.
Definition lift {A} (r : QidResult A) : P A := fun st => (Some r, st).
Definition ret {A} (a : A) : P A := lift (Ok a).
Definition bind {A B} (m : P A) (k : A → P B) : P B :=
  fun st => match m st with
            | (Some (Ok a), st') => k a st'
            | (Some (Err e), st') => (Some (Err e), st')
            | (None, st') => (None, st')
            end.
Local Notation "'do!' x := m 'in' k" := (bind m (fun x => k)) (at level 10, x name, k at level 200).
Local Notation "'do!' '_' := m 'in' k" := (bind m (fun _ => k)) (at level 10, k at level 200).
Definition gets {A} (f : St → A) : P A := fun st => (Some (Ok (f st)), st).

Definition next (st : St) : St :=
  {| repo := repo st; policy_bundle_cache := policy_bundle_cache st; decision_cache := decision_cache st;
     decision_poisoned := decision_poisoned st; shared_cache := shared_cache st; tick := S (tick st) |}.
Definition now_seconds : P N := fun st => (Some (Ok (w_now w (tick st))), next st).
Definition instant_now : P N := fun st => (Some (Ok (w_instant w (tick st))), next st).
Definition decode_with_aud (token audience : string) : P (option RegistrationClaims) :=
  fun st => (Some (Ok (w_decode_with_aud w (tick st) token audience)), next st).

Definition with_shared (c : C) (st : St) : St :=
  {| repo := repo st; policy_bundle_cache := policy_bundle_cache st; decision_cache := decision_cache st;
     decision_poisoned := decision_poisoned st; shared_cache := c; tick := S (tick st) |}.

(** A call of the shared cache, at its instant. *)
Definition on_cache {A} (f : N → C → option (QidResult A) * C) : P A :=
  fun st => let '(r, c) := f (w_instant w (tick st)) (shared_cache st) in (r, with_shared c st).

Definition with_local (m : gmap string DecisionCacheEntry) (poisoned : bool) (st : St) : St :=
  {| repo := repo st; policy_bundle_cache := policy_bundle_cache st; decision_cache := m;
     decision_poisoned := poisoned; shared_cache := shared_cache st; tick := S (tick st) |}.

Definition put_bundle (b : string * J) : P unit :=
  fun st => (Some (Ok tt),
    {| repo := repo st; policy_bundle_cache := Some b; decision_cache := decision_cache st;
       decision_poisoned := decision_poisoned st; shared_cache := shared_cache st; tick := tick st |}).

(** * The decision cache of the shared state (src/qid-core/src/state.rs) *)

Definition MAX_DECISION_CACHE_ENTRIES : nat := N.to_nat 100000.
Definition DECISION_CACHE_NAMESPACE : string := "pep:decision".
Definition shared_key (digest : string) : string := DECISION_CACHE_NAMESPACE +:+ ":" +:+ digest.

Definition local_get (digest : string) : P (option J) :=
  do! poisoned := gets decision_poisoned in
  if poisoned : bool then ret None
  else
    do! m := gets decision_cache in
    match m !! digest with
    | None => ret None
    | Some e => do! t := instant_now in ret (if t <? expires_at e then Some (response_json e) else None)
    end.

Definition decision_cache_get (digest : string) : P (option J) :=
  do! local := local_get digest in
  match local with
  | Some v => ret (Some v)
  | None =>
      do! bytes := on_cache (fun t c => let '(r, c') := cache_get t (shared_key digest) c in (Some (Ok r), c')) in
      ret (bytes ≫= from_slice)
  end.

(** [retain] drops the first entries it visits; [map_to_list] stands for the order of the table. *)
Definition trim_entries (m : gmap string DecisionCacheEntry) : gmap string DecisionCacheEntry :=
  foldr delete m (take (size m - MAX_DECISION_CACHE_ENTRIES) (map_to_list m).*1).

(** The addition to the instant is made with the table locked for writing: an overflow poisons it. *)
Definition local_put (digest : string) (v : J) (ttl_seconds : N) : P unit :=
  fun st =>
    if decision_poisoned st then (Some (Ok tt), st)
    else
      match MemoryCache.instant_add instant_max (w_instant w (tick st)) ttl_seconds with
      | Some x =>
          (Some (Ok tt), with_local (trim_entries (<[digest := {| response_json := v; expires_at := x |}]> (decision_cache st))) false st)
      | None => (None, with_local (decision_cache st) true st)
      end.

Definition decision_cache_put (digest : string) (v : J) (ttl_seconds : N) : P unit :=
  do! _ := match to_vec v with
           | Some bytes => on_cache (fun t c => let '(r, c') := cache_set t (shared_key digest) bytes ttl_seconds c in (Ok <$> r, c'))
           | None => ret tt
           end in
  local_put digest v ttl_seconds.

Definition policy_revision_of (st : St) : string := match policy_bundle_cache st with Some (n, _) => n | None => "" end.

(** * The policy of a realm *)

Definition find_realm (realm : string) : option RealmConfig := List.find (fun r => String.eqb (rl_id r) realm) realms.

Definition fallback_bundle_for_realm (realm : string) : QidResult (PolicyBundle Num) :=
  let n := default "deny" (policy_default_decision <$> find_realm realm) in
  let? d := ok_or (decision_parse n) (Config ("realm " +:+ realm +:+ " has invalid policy default_decision: " +:+ n)) in
  Ok {| version := "1"; rules := []; default_decision := d |}.

Definition rebac_scope_for_realm (realm : string) : string := default realm (find_realm realm ≫= rl_tenant_id).

Definition new_engine (r : R) (realm : string) : NativePolicyEngine Num :=
  with_rebac_evaluator engine_new (Rebac.tenant_scoped_rebac_evaluator r (rebac_scope_for_realm realm)).

Definition cached_engine (st : St) (realm : string) : option (NativePolicyEngine Num) :=
  '(n, json) ← policy_bundle_cache st;
  if starts_with (realm +:+ ":") n then
    b ← res_ok (bundle_from_value json);
    Some (engine_load (new_engine (repo st) realm) b n)
  else None.

Definition load_policy_engine (realm : string) : P (NativePolicyEngine Num) :=
  do! hit := gets (fun st => cached_engine st realm) in
  match hit with
  | Some e => ret e
  | None =>
      do! e := gets (fun st => new_engine (repo st) realm) in
      do! found := (fun st => (Some (get_active_policy_bundle (repo st) realm), st)) in
      match found with
      | Some b =>
          do! policy := lift (map_err (fun err => Config ("invalid policy bundle: " +:+ err)) (bundle_from_value (compiled_json b))) in
          do! _ := put_bundle (realm +:+ ":" +:+ sb_name b, compiled_json b) in
          ret (engine_load e policy (sb_name b))
      | None => do! dflt := lift (fallback_bundle_for_realm realm) in ret (engine_load e dflt "default")
      end
  end.

(** * Authentication of the caller *)

Record AdapterAuthentication : Type := { aa_capabilities : gset string; aa_realm_id : string; aa_tenant_id : option string }.

Definition fail {A} (e : QidError) : P A := lift (Err e).

Definition pep_replay_key (realm registration_name jti : string) : string :=
  "pep-registration:" +:+ realm +:+ ":" +:+ registration_name +:+ ":" +:+ jti.

Definition record_registration_jti (auth : PepRegistrationAuthConfig) (iat now : N) (key : string) : P unit :=
  let expires := N.max (saturating_add64 (saturating_add64 iat (token_max_age_seconds auth)) (clock_skew_seconds auth))
                       (saturating_add64 now 1) in
  on_cache (fun t c =>
    let '(r, c') := Dpop.record_replay_key Dpop.assertion_replay key expires now "PEP registration token replay detected" t c in
    (map_err (fun err => Unauthorized (error_message err)) <$> r, c')).

Definition validate_pep_registration_token (claims : RegistrationClaims) (auth : PepRegistrationAuthConfig)
    (realm registration_name : string) : P unit :=
  do! now := now_seconds in
  let skew := clock_skew_seconds auth in
  match cl_iat claims with
  | None => fail (Unauthorized "PEP registration token must include iat")
  | Some iat =>
      if saturating_add64 now skew <? iat then fail (Unauthorized "PEP registration token iat is in the future")
      else if saturating_add64 (token_max_age_seconds auth) skew <? saturating_sub now iat
      then fail (Unauthorized "PEP registration token is too old")
      else if replay_protection auth then
        match cl_jti claims with
        | None => fail (Unauthorized "PEP registration token must include jti when replay protection is enabled")
        | Some jti => record_registration_jti auth iat now (pep_replay_key realm registration_name jti)
        end
      else ret tt
  end.

Definition differs (o : option string) (x : string) : bool := match o with Some y => negb (String.eqb y x) | None => false end.

Definition subset (a b : gset string) : bool := bool_decide (a ⊆ b).

Definition validate_pep_request_binding (req : PepDecisionRequest) (realm audience : string) (caps : gset string) : QidResult unit :=
  match auth_assertions req with
  | None => Ok tt
  | Some a =>
      if differs (as_realm a) realm
      then Err (Unauthorized "PEP request realm assertion does not match authenticated credential")
      else if differs (as_audience a) audience
      then Err (Unauthorized "PEP request audience assertion does not match authenticated credential")
      else if negb (subset (normalize_capabilities (as_capabilities a)) caps)
      then Err (Unauthorized "PEP request capability assertion exceeds authenticated credential")
      else Ok tt
  end.

Definition authentication (r : RealmConfig) (caps : gset string) : AdapterAuthentication :=
  {| aa_capabilities := caps; aa_realm_id := rl_id r; aa_tenant_id := rl_tenant_id r |}.

(** The body of the loop over the registrations: what it pushes on [matches], if anything. *)
Definition try_adapter (token : string) (req : PepDecisionRequest) (ra : RealmConfig * PepRegistrationConfig)
    : P (option AdapterAuthentication) :=
  let '(realm, adapter) := ra in
  let n := proxy_name (proxy req) in
  match pr_audience adapter with
  | None => fail (Config ("PEP registration " +:+ n +:+ " must declare audience"))
  | Some audience =>
      do! decoded := decode_with_aud token audience in
      match decoded with
      | None => ret None
      | Some claims =>
          if negb (bool_decide (cl_sub claims = Some n)) then ret None
          else if differs (cl_realm_id claims) (rl_id realm) then ret None
          else
            do! _ := validate_pep_registration_token claims (pr_auth adapter) (rl_id realm) (pr_name adapter) in
            let caps := normalize_capabilities (pr_capabilities adapter) in
            do! _ := lift (validate_pep_request_binding req (rl_id realm) audience caps) in
            if negb (subset (declared_capabilities req) caps) then ret None else ret (Some (authentication realm caps))
      end
  end.

Fixpoint collect {A B} (f : A → P (option B)) (l : list A) : P (list B) :=
  match l with
  | [] => ret []
  | a :: l' => do! o := f a in do! rest := collect f l' in ret (match o with Some b => b :: rest | None => rest end)
  end.

(** The registrations every realm serves, in the order of the nested loops. *)
Definition all_served : list (RealmConfig * PepRegistrationConfig) := concat (map (fun r => map (pair r) (served r)) realms).

Definition one_match (found : list AdapterAuthentication) (none many : QidError) : QidResult AdapterAuthentication :=
  match found with [a] => Ok a | [] => Err none | _ => Err many end.

Definition authenticate_pep_decision_adapter (authorization : option string) (req : PepDecisionRequest) : P AdapterAuthentication :=
  match Risk.bearer_token authorization with
  | None => fail (Unauthorized "PEP registration authentication token is required")
  | Some token =>
      let n := proxy_name (proxy req) in
      do! found := collect (try_adapter token req) (List.filter (fun ra => String.eqb (pr_name ra.2) n) all_served) in
      lift (one_match found (Unauthorized "invalid PEP registration authentication token")
              (Config ("PEP registration " +:+ n +:+ " authentication is ambiguous across realms")))
  end.

(** * The decision *)

Definition policy_context (req : PepDecisionRequest) (risk : PepDecisionRiskAdvisory) : PolicyContext :=
  let i := identity req in
  {| subject_id := i ≫= id_user; groups := match i with Some x => id_groups x | None => [] end;
     roles := match i with Some x => id_roles x | None => [] end; entitlements := match i with Some x => id_entitlements x | None => [] end;
     device_id := i ≫= id_device_id; posture := match i with Some x => id_posture x | None => [] end; acr := i ≫= auth_strength;
     auth_age_seconds := None; risk_score := Some (default (ra_score risk) (rq_risk_score req));
     resource_host := rq_request req ≫= ri_host; resource_action := px_action (proxy req);
     pep_registration := Some (proxy_name (proxy req)) |}.

Definition pep_decision_cache_config (realm reg : string) : PepDecisionCacheConfig :=
  default default_cache_config
    (pr_cache <$> (find_realm realm ≫= fun r => List.find (fun a => String.eqb (pr_name a) reg) (served r))).

(** The answer to a request on the details the engine gave, [revision] being the policy revision after the decision. *)
Definition build_response (req : PepDecisionRequest) (realm revision : string) (details : DecisionDetails Num) : QidResult PepDecisionResponse :=
  let risk := pep_decision_risk_advisory req in
  let ms := ttl_ms (pep_decision_cache_config realm (proxy_name (proxy req))) (decision_cache_class (decision details)) in
  let bypass := default false (opt_or (cache_bypass (dd_pep details)) (ra_cache_bypass risk)) in
  let? os := pep_decision_obligations details risk (policy_id details) (adapter_capabilities req) in
  Ok {| rp_schema_id := PEP_DECISION_RESPONSE_SCHEMA_ID; rp_decision := pep_decision_wire_decision (decision details);
        decision_id := policy_id details; rp_policy_id := policy_id details; policy_revision := revision; rp_ttl_ms := ms;
        cacheable := (0 <? ms) && negb bypass; decision_scope := "request"; rp_obligations := os;
        audit := {| severity := audit_severity (decision details); au_policy_id := policy_id details;
                    au_policy_tags := merge_policy_tags (policy_tags details) (ra_policy_tags risk);
                    au_risk_score := Some (default (ra_score risk) (rq_risk_score req)) |};
        rp_extensions := ∅ |}.

Definition cache_key_digest (st : St) (req : PepDecisionRequest) : option string :=
  let revision := policy_revision_of st in
  if is_empty_str revision then None else OpsCache.digest <$> res_ok (pep_decision_cache_key req revision).

Definition cached_response (digest : option string) : P (option PepDecisionResponse) :=
  match digest with
  | None => ret None
  | Some d =>
      do! found := decision_cache_get d in
      match found with
      | None => ret None
      | Some json =>
          do! r := lift (ok_or (response_from_value json) (Internal "failed to deserialize cached pep_decision decision")) in
          ret (Some r)
      end
  end.

Definition keep_response (digest : option string) (response : PepDecisionResponse) : P unit :=
  match digest with
  | Some d =>
      if cacheable response then
        match response_to_value response with
        | Some json => decision_cache_put d json (cache_ttl_seconds (rp_ttl_ms response))
        | None => ret tt
        end
      else ret tt
  | None => ret tt
  end.

Definition request_realm (req : PepDecisionRequest) : string := default (default "" (rl_id <$> head realms)) (adapter_realm_id req).

(** The answer on a miss of the cache. *)
Definition decide_fresh (req : PepDecisionRequest) : P PepDecisionResponse :=
  do! engine := load_policy_engine (request_realm req) in
  let details := engine_decide engine (policy_context req (pep_decision_risk_advisory req)) in
  do! revision := gets policy_revision_of in
  lift (build_response req (request_realm req) revision details).

Definition do_check (req : PepDecisionRequest) : P PepDecisionResponse :=
  do! digest := gets (fun st => cache_key_digest st req) in
  do! cached := cached_response digest in
  match cached with
  | Some r => ret r
  | None =>
      do! r := decide_fresh req in
      do! _ := keep_response digest r in
      ret r
  end.

(** * The endpoint *)

Inductive Reply : Type :=
| Decided (r : PepDecisionResponse)
| FailClosed
| Refused (e : QidError).

(** The body of [deny_response], answered with status 403. *)
Definition deny_body : J :=
  VObject
    [("audit", VObject [("policy_id", VString "fail-closed"); ("severity", VString "high")]);
     ("cacheable", VBool false); ("decision", VString "deny"); ("decision_id", VString "fail-closed");
     ("decision_scope", VString "request");
     ("obligations", VArray [VObject
        [("name", VString "local_response"); ("namespace", VString "urn:qid:decision:obligation:pep");
         ("parameters", VObject
            [("body", VObject [("decision_id", VString "fail-closed"); ("error", VString "access_denied")]);
             ("content_type", VString "application/json"); ("status", jnum 403)]);
         ("version", VString "1")]]);
     ("policy_id", VString "fail-closed"); ("policy_revision", VString ""); ("schema_id", VString PEP_DECISION_RESPONSE_SCHEMA_ID);
     ("ttl_ms", jnum 0)].

Definition fail_open_response : PepDecisionResponse :=
  {| rp_schema_id := PEP_DECISION_RESPONSE_SCHEMA_ID; rp_decision := "allow"; decision_id := "fail-open"; rp_policy_id := "fail-open";
     policy_revision := ""; rp_ttl_ms := 0; cacheable := false; decision_scope := "request"; rp_obligations := [];
     audit := {| severity := "high"; au_policy_id := "fail-open"; au_policy_tags := []; au_risk_score := None |}; rp_extensions := ∅ |}.

Definition system_failure (e : QidError) : bool := match e with Internal _ | Storage _ => true | _ => false end.

Definition pep_decision_fail_open (req : PepDecisionRequest) (realm : string) (e : QidError) : option PepDecisionResponse :=
  if negb (system_failure e) then None
  else
    r ← find_realm realm;
    if match List.find (fun reg => String.eqb (pr_name reg) (proxy_name (proxy req))) (registrations r) with
       | Some reg => String.eqb (fail_policy reg) "allow"
       | None => false
       end
    then Some fail_open_response else None.

Definition with_adapter (req : PepDecisionRequest) (a : AdapterAuthentication) : PepDecisionRequest :=
  {| schema_id := schema_id req; request_id := request_id req; traceparent := traceparent req; proxy := proxy req;
     rq_request := rq_request req; identity := identity req; destination := destination req; rq_risk_score := rq_risk_score req;
     rq_context := rq_context req; rq_extensions := rq_extensions req; auth_assertions := auth_assertions req;
     declared_capabilities := declared_capabilities req; adapter_capabilities := aa_capabilities a;
     adapter_realm_id := Some (aa_realm_id a); adapter_tenant_id := aa_tenant_id a |}.

(** [check]: the answer, [None] on a panic. *)
Definition check (authorization : option string) (req : PepDecisionRequest) (st : St) : option Reply * St :=
  match authenticate_pep_decision_adapter authorization req st with
  | (None, st1) => (None, st1)
  | (Some (Err e), st1) => (Some (Refused e), st1)
  | (Some (Ok auth), st1) =>
      let req := with_adapter req auth in
      match do_check req st1 with
      | (None, st2) => (None, st2)
      | (Some (Ok resp), st2) => (Some (Decided resp), st2)
      | (Some (Err e), st2) =>
          (Some (match pep_decision_fail_open req (aa_realm_id auth) e with Some resp => Decided resp | None => FailClosed end), st2)
      end
  end.

(** * The AuthZEN endpoint *)

Record AuthZenEntity : Type := { en_type : option string; en_id : option string; en_properties : gmap string J }.
Record AuthZenAction : Type := { az_name : string; az_properties : gmap string J }.
Record AuthZenEvaluationRequest : Type := {
  az_subject : AuthZenEntity; az_action : AuthZenAction; az_resource : AuthZenEntity; az_context : gmap string J
}.
Record AuthZenDecisionContext : Type := {
  az_decision_id : string; az_policy_id : string; az_reason : string; az_matched_rules : list string; az_policy_tags : list string;
  az_obligations : list PepDecisionObligation
}.
Record AuthZenEvaluationResponse : Type := { az_decision : bool; az_answer : AuthZenDecisionContext }.

Definition string_property (m : gmap string J) (n : string) : option string := m !! n ≫= value_str.

Definition string_array_property (m : gmap string J) (n : string) : list string :=
  match m !! n with Some v => omap value_str (value_items v) | None => [] end.

Definition value_u64 (v : J) : option N := match v with VNumber n => as_u64 n | _ => None end.

Definition authzen_policy_context (req : AuthZenEvaluationRequest) : QidResult PolicyContext :=
  if Utf8.blank (az_name (az_action req)) then Err (BadRequest "AuthZEN action.name must not be empty")
  else
    let s := en_properties (az_subject req) in
    let r := en_properties (az_resource req) in
    let c := az_context req in
    Ok {| subject_id := opt_or (opt_or (en_id (az_subject req)) (string_property s "sub")) (string_property s "user");
          groups := string_array_property s "groups"; roles := string_array_property s "roles";
          entitlements := string_array_property s "entitlements";
          device_id := opt_or (string_property s "device_id") (string_property c "device_id");
          posture := string_array_property s "posture" ++ string_array_property c "posture";
          acr := opt_or (string_property s "acr") ((c !! "auth" ≫= value_get "acr") ≫= value_str);
          auth_age_seconds := c !! "auth_age_seconds" ≫= value_u64;
          risk_score := opt_or (c !! "risk_score" ≫= value_u64) ((c !! "risk" ≫= value_get "score") ≫= value_u64);
          resource_host := opt_or (opt_or (string_property r "host") (string_property r "hostname")) (en_id (az_resource req));
          resource_action := Some (az_name (az_action req)); pep_registration := None |}.

Definition qid_pep_obligation (n : string) (parameters : J) : PepDecisionObligation :=
  {| po_namespace := "urn:qid:authzen:extension:qid:pep"; po_version := "1"; po_name := n; po_parameters := parameters |}.

Definition require_authzen_capability (capabilities : gset string) (capability : string) : QidResult unit :=
  if bool_decide (capability ∈ capabilities) then Ok tt
  else Err (Unauthorized ("AuthZEN adapter lacks required obligation capability " +:+ capability)).

Definition require_authzen_capability_any (capabilities : gset string) (accepted : list string) : QidResult unit :=
  if existsb (fun c => bool_decide (c ∈ capabilities)) accepted then Ok tt
  else Err (Unauthorized ("authenticated AuthZEN adapter does not advertise required capability " +:+ String.concat "|" accepted)).

Definition authzen_oblige {A} (o : option A) (required : QidResult unit) (n : string) (payload : A → J) : QidResult (list PepDecisionObligation) :=
  match o with
  | Some a => required ?; Ok [qid_pep_obligation n (payload a)]
  | None => Ok []
  end.

(** The name of a decision in its [Debug] form, in lower case. *)
Definition debug_lowercase (d : Decision) : string :=
  match d with
  | Allow => "allow" | Deny => "deny" | StepUp => "stepup" | ConsentRequired => "consentrequired" | LocalResponse => "localresponse"
  | ApprovalRequired => "approvalrequired" | Quarantine => "quarantine" | AuditOnly => "auditonly" | Conditional => "conditional"
  end.

(** The obligation of a decision: its name and payload. *)
Definition authzen_kind (d : Decision) : option (string * J) :=
  match d with
  | Quarantine => Some ("quarantine", VObject [])
  | AuditOnly => Some ("audit", VObject [("mode", VString "audit_only")])
  | StepUp => Some ("challenge", VObject [("type", VString "step_up")])
  | ConsentRequired => Some ("challenge", VObject [("type", VString "consent")])
  | LocalResponse | ApprovalRequired => Some ("local_response", VObject [("decision", VString (debug_lowercase d))])
  | Allow | Deny | Conditional => None
  end.

Definition authzen_own (caps : gset string) (l : list (TypedObligation (Num := Num))) : QidResult (list PepDecisionObligation) :=
  res_mapM (fun o =>
    match ob_capability o with Some c => require_authzen_capability caps c | None => Ok tt end ?;
    Ok {| po_namespace := ob_namespace o; po_version := ob_version o; po_name := ob_name o; po_parameters := ob_payload o |}) l.

Definition authzen_obligations (details : DecisionDetails Num) (caps : gset string) : QidResult (list PepDecisionObligation) :=
  let p := dd_pep details in
  let need := require_authzen_capability caps in
  let? own := authzen_own caps (obligations details) in
  let? kind := match authzen_kind (decision details) with
               | Some (n, payload) => need n ?; Ok [qid_pep_obligation n payload]
               | None => Ok []
               end in
  let? headers := authzen_oblige (dd_inject_headers details) (need "inject_headers") "inject_headers"
    (fun h => VObject [("request_set", jheaders h)]) in
  let? rate := authzen_oblige (dd_rate_limit_profile details) (require_authzen_capability_any caps ["rate_limit_profile"; "rate_limit"])
    "rate_limit_profile" (fun profile => VObject [("profile", VString profile)]) in
  let? upstream := authzen_oblige (upstream_actions p) (need "override_upstream") "override_upstream" upstream_payload in
  let? inspect := authzen_oblige (force_inspect p) (need "force_inspect") "force_inspect" enabled_payload in
  let? tunnel := authzen_oblige (force_tunnel p) (need "force_tunnel") "force_tunnel" enabled_payload in
  let? bypass := authzen_oblige (cache_bypass p) (need "cache_bypass") "cache_bypass" enabled_payload in
  let? tags := authzen_oblige (match policy_tags details with [] => None | l => Some l end) (need "policy_tags") "policy_tags"
    (fun l => VObject [("tags", jstrs l)]) in
  Ok (own ++ kind ++ headers ++ rate ++ upstream ++ inspect ++ tunnel ++ bypass ++ tags).

(** [is_err] of a call, whose effects stay. *)
Definition attempt {A} (m : P A) : P bool :=
  fun st => match m st with
            | (Some r, st') => (Some (Ok (is_ok r)), st')
            | (None, st') => (None, st')
            end.

Definition try_authzen_adapter (token : string) (ra : RealmConfig * PepRegistrationConfig) : P (option AdapterAuthentication) :=
  let '(realm, adapter) := ra in
  let caps := normalize_capabilities (pr_capabilities adapter) in
  if negb (bool_decide ("authzen" ∈ caps)) then ret None
  else
    match pr_audience adapter with
    | None => ret None
    | Some audience =>
        do! decoded := decode_with_aud token audience in
        match decoded with
        | None => ret None
        | Some claims =>
            if negb (bool_decide (cl_sub claims = Some (pr_name adapter))) then ret None
            else if differs (cl_realm_id claims) (rl_id realm) then ret None
            else
              do! valid := attempt (validate_pep_registration_token claims (pr_auth adapter) (rl_id realm) (pr_name adapter)) in
              ret (if valid then Some (authentication realm caps) else None)
        end
    end.

Definition authenticate_authzen_adapter (authorization : option string) : P AdapterAuthentication :=
  match Risk.bearer_token authorization with
  | None => fail (Unauthorized "AuthZEN adapter authentication token is required")
  | Some token =>
      do! found := collect (try_authzen_adapter token) all_served in
      lift (one_match found (Unauthorized "invalid AuthZEN adapter authentication token")
              (Config "AuthZEN adapter authentication is ambiguous across realms"))
  end.

Definition authzen_reason (d : Decision) : string := match d with StepUp => "challenge" | _ => pep_decision_policy_decision_label d end.

Definition do_authzen_evaluate (req : AuthZenEvaluationRequest) (auth : AdapterAuthentication) : P AuthZenEvaluationResponse :=
  do! engine := load_policy_engine (aa_realm_id auth) in
  do! ctx := lift (authzen_policy_context req) in
  let details := engine_decide engine ctx in
  do! os := lift (authzen_obligations details (aa_capabilities auth)) in
  ret {| az_decision := match decision details with Allow | AuditOnly => true | _ => false end;
         az_answer := {| az_decision_id := policy_id details; az_policy_id := policy_id details; az_reason := authzen_reason (decision details);
                         az_matched_rules := matched_rules details; az_policy_tags := policy_tags details; az_obligations := os |} |}.

Definition authzen_evaluate (authorization : option string) (req : AuthZenEvaluationRequest) : P AuthZenEvaluationResponse :=
  do! auth := authenticate_authzen_adapter authorization in do_authzen_evaluate req auth.

(** * Executions *)

Context {live : C → string → option (string * N)} `{!SharedCacheLaws C live}.

(** What the decision cache relies on beside [SharedCacheLaws]: a read gives what is live under its key. *)
Class SharedCacheReads : Prop := {
  get_live t k c v c' : cache_get t k c = (Some v, c') → ∃ e, live c k = Some (v, e);
  get_keeps t k c j : live (cache_get t k c).2 j = live c j ∨ live (cache_get t k c).2 j = None
}.
Context `{!SharedCacheReads}.

(** A call of the server, or a change by others of the repository or of the keys of the shared cache that
    are not decisions; an entry may also be lost. *)
Inductive Call : Type :=
| Checked (authorization : option string) (req : PepDecisionRequest)
| Evaluated (authorization : option string) (req : AuthZenEvaluationRequest)
| Elsewhere (r : R) (c : C).

Definition with_others (r : R) (c : C) (st : St) : St :=
  {| repo := r; policy_bundle_cache := policy_bundle_cache st; decision_cache := decision_cache st;
     decision_poisoned := decision_poisoned st; shared_cache := c; tick := tick st |}.

Definition perform (call : Call) (st : St) : St :=
  match call with
  | Checked a req => (check a req st).2
  | Evaluated a req => (authzen_evaluate a req st).2
  | Elsewhere r c => with_others r c st
  end.

Definition decisions_kept (c c' : C) : Prop :=
  ∀ d, live c' (shared_key d) = live c (shared_key d) ∨ live c' (shared_key d) = None.

Definition permitted (call : Call) (st : St) : Prop :=
  match call with Elsewhere _ c => decisions_kept (shared_cache st) c | _ => True end.

(** The states of an execution from empty caches, with the calls made in them, the last first. *)
Inductive reached : list (Call * St) → St → Prop :=
| reached_start st :
    policy_bundle_cache st = None → decision_cache st = ∅ → (∀ d, live (shared_cache st) (shared_key d) = None) → reached [] st
| reached_call h st call : reached h st → permitted call st → reached ((call, st) :: h) (perform call st).

(** ** What an answer rests on *)

(** The bundle [name] of the configured realm [owner], kept under their names joined by a colon, passes for one of [realm]: one
    of the two realms has a colon in its identifier. *)
Definition mistaken (owner name realm : string) : Prop :=
  (∃ r, r ∈ realms ∧ rl_id r = owner) ∧ (no_colon owner = false ∨ no_colon realm = false) ∧
  ∃ rest, owner +:+ ":" +:+ name = realm +:+ ":" +:+ rest.

(** The policy of [realm] at some point of the execution: a bundle that was active in it (or in a realm mistaken for it), or the
    realm's default. *)
Definition policy_of (h : list (Call * St)) (st : St) (realm : string) (b : PolicyBundle Num) : Prop :=
  (∃ st1 sb owner, st1 ∈ st :: map snd h ∧ (owner = realm ∨ mistaken owner (sb_name sb) realm) ∧
     get_active_policy_bundle (repo st1) owner = Ok (Some sb) ∧ bundle_from_value (compiled_json sb) = Ok b)
  ∨ (get_active_policy_bundle (repo st) realm = Ok None ∧ fallback_bundle_for_realm realm = Ok b).

(** The policy of the realm of [req] decides [req] as [resp] says. *)
Definition decided_by_policy (h : list (Call * St)) (st : St) (req : PepDecisionRequest) (resp : PepDecisionResponse) : Prop :=
  ∃ realm b id revision,
    adapter_realm_id req = Some realm ∧ policy_of h st realm b ∧
    build_response req realm revision
      (engine_decide (engine_load (new_engine (repo st) realm) b id) (policy_context req (pep_decision_risk_advisory req))) = Ok resp.

(** [auth] is what a token of a served registration gives, verified between [st] and [st']. *)
Definition vouched (st st' : St) (authorization : option string) (req : PepDecisionRequest) (auth : AdapterAuthentication) : Prop :=
  ∃ token r a aud claims iat n n',
    Risk.bearer_token authorization = Some token ∧ r ∈ realms ∧ a ∈ served r ∧ pr_name a = proxy_name (proxy req) ∧
    pr_audience a = Some aud ∧ w_decode_with_aud w n token aud = Some claims ∧ cl_sub claims = Some (pr_name a) ∧
    (cl_realm_id claims = None ∨ cl_realm_id claims = Some (rl_id r)) ∧ auth = authentication r (normalize_capabilities (pr_capabilities a)) ∧
    cl_iat claims = Some iat ∧ iat ≤ w_now w n' + clock_skew_seconds (pr_auth a) ∧
    w_now w n' ≤ iat + (token_max_age_seconds (pr_auth a) + clock_skew_seconds (pr_auth a)) ∧
    (tick st ≤ n)%nat ∧ (n < n')%nat ∧ (n' < tick st')%nat ∧ declared_capabilities req ⊆ aa_capabilities auth.

(** An earlier call of the execution that was answered by the policy of its realm, and looked up under [d]. *)
Definition earned (h : list (Call * St)) (d : string) (resp : PepDecisionResponse) : Prop :=
  ∃ h1 authorization req st auth st',
    suffix ((Checked authorization req, st) :: h1) h ∧ vouched st st' authorization req auth ∧
    cache_key_digest st (with_adapter req auth) = Some d ∧ decided_by_policy h1 st (with_adapter req auth) resp.

(** ** Frames *)

(** What authentication and the lookup of a decision leave alone. *)
Record frame (st st' : St) : Prop := {
  frame_repo : repo st' = repo st;
  frame_bundle : policy_bundle_cache st' = policy_bundle_cache st;
  frame_local : decision_cache st' = decision_cache st;
  frame_shared : decisions_kept (shared_cache st) (shared_cache st');
  frame_tick : (tick st ≤ tick st')%nat
}.

Lemma decisions_kept_refl c : decisions_kept c c.
Proof. by left. Qed.

Lemma decisions_kept_trans c1 c2 c3 : decisions_kept c1 c2 → decisions_kept c2 c3 → decisions_kept c1 c3.
Proof. intros H12 H23 d. destruct (H12 d), (H23 d); (try by right; congruence); left; congruence. Qed.

#[local] Instance frame_preorder : PreOrder frame.
Proof.
  split.
  - intros st. split; try done. apply decisions_kept_refl.
  - intros x y z [] []. split; try congruence; [by eapply decisions_kept_trans|lia].
Qed.

Definition frames {A} (m : P A) : Prop := ∀ st, frame st (m st).2.

Lemma frame_next st : frame st (next st).
Proof. split; try done; simpl; [apply decisions_kept_refl|lia]. Qed.

Lemma frames_lift {A} (r : QidResult A) : frames (lift r).
Proof. intros st. reflexivity. Qed.

Lemma frames_gets {A} (f : St → A) : frames (gets f).
Proof. intros st. reflexivity. Qed.

Lemma frames_bind {A B} (m : P A) (k : A → P B) : frames m → (∀ a, frames (k a)) → frames (bind m k).
Proof.
  intros Hm Hk st. unfold bind. specialize (Hm st).
  destruct (m st) as [[[a|e]|] st1]; simpl in *; [|done..]. etrans; [done|apply Hk].
Qed.

Lemma frames_on_cache {A} (f : N → C → option (QidResult A) * C) :
  (∀ t c, decisions_kept c (f t c).2) → frames (on_cache f).
Proof.
  intros Hf st. unfold on_cache. specialize (Hf (w_instant w (tick st)) (shared_cache st)).
  destruct (f _ _) as [r c]. split; try done. simpl. lia.
Qed.

Lemma shared_key_not_assertion d x : shared_key d ≠ Dpop.replay_namespace Dpop.assertion_replay +:+ ":" +:+ x.
Proof. intros Hk. discriminate Hk. Qed.

Lemma frames_record auth iat now key : frames (record_registration_jti auth iat now key).
Proof.
  apply frames_on_cache. intros t c d. unfold Dpop.record_replay_key.
  match goal with |- context [cache_set_if_absent t ?k ?v ?ttl c] =>
    pose proof (absent_other t k v ttl c (shared_key d) (shared_key_not_assertion d _)) as Ho;
    destruct (cache_set_if_absent t k v ttl c) as [r c'] end.
  left. exact Ho.
Qed.

Create HintDb pep.
#[local] Hint Resolve frames_lift frames_gets frames_bind frames_record : pep.
#[local] Hint Extern 1 (frames (ret _)) => apply frames_lift : pep.
#[local] Hint Extern 1 (frames (fail _)) => apply frames_lift : pep.
#[local] Hint Extern 1 (frames now_seconds) => (intros st; apply frame_next) : pep.
#[local] Hint Extern 1 (frames instant_now) => (intros st; apply frame_next) : pep.
#[local] Hint Extern 1 (frames (decode_with_aud _ _)) => (intros st; apply frame_next) : pep.

Ltac framing := intros; repeat (first [progress eauto 2 with pep | apply frames_bind; [|intros ?] | case_match]).

Lemma frames_validate claims auth realm reg : frames (validate_pep_registration_token claims auth realm reg).
Proof. unfold validate_pep_registration_token. framing. Qed.
#[local] Hint Resolve frames_validate : pep.

Lemma frames_try token req ra : frames (try_adapter token req ra).
Proof. unfold try_adapter. framing. Qed.

Lemma frames_attempt {A} (m : P A) : frames m → frames (attempt m).
Proof. intros Hm st. unfold attempt. specialize (Hm st). by destruct (m st) as [[[]|] ?]. Qed.
#[local] Hint Resolve frames_attempt : pep.

Lemma frames_try_authzen token ra : frames (try_authzen_adapter token ra).
Proof. unfold try_authzen_adapter. framing. Qed.

Lemma frames_collect {A B} (f : A → P (option B)) l : (∀ a, frames (f a)) → frames (collect f l).
Proof. intros Hf. induction l as [|a l IH]; simpl; framing. Qed.
#[local] Hint Resolve frames_try frames_try_authzen frames_collect : pep.

Lemma frames_authenticate authorization req : frames (authenticate_pep_decision_adapter authorization req).
Proof. unfold authenticate_pep_decision_adapter. framing. Qed.

Lemma frames_authenticate_authzen authorization : frames (authenticate_authzen_adapter authorization).
Proof. unfold authenticate_authzen_adapter. framing. Qed.

Lemma frames_local d : frames (local_get d).
Proof. unfold local_get. framing. Qed.
#[local] Hint Resolve frames_local : pep.

Lemma frames_get d : frames (decision_cache_get d).
Proof.
  unfold decision_cache_get. framing. apply frames_on_cache. intros t c x.
  pose proof (get_keeps t (shared_key d) c (shared_key x)) as Hk. by destruct (cache_get _ _ _).
Qed.

Lemma frames_cached d : frames (cached_response d).
Proof. unfold cached_response. pose proof frames_get. framing. Qed.

(** ** The policy that is loaded *)

Lemma load_effect realm st r st' :
  load_policy_engine realm st = (r, st') →
  repo st' = repo st ∧ decision_cache st' = decision_cache st ∧ shared_cache st' = shared_cache st ∧
  (policy_bundle_cache st' = policy_bundle_cache st
   ∨ ∃ sb, get_active_policy_bundle (repo st) realm = Ok (Some sb) ∧
           policy_bundle_cache st' = Some (realm +:+ ":" +:+ sb_name sb, compiled_json sb)).
Proof.
  unfold load_policy_engine, bind, gets, lift, ret, put_bundle.
  destruct (cached_engine st realm) as [e|]; [intros [= <- <-]; auto|].
  destruct (get_active_policy_bundle (repo st) realm) as [[sb|]|e] eqn:Eg; [| |intros [= <- <-]; auto].
  - destruct (bundle_from_value (compiled_json sb)); simpl; intros [= <- <-]; simpl; eauto 10.
  - destruct (fallback_bundle_for_realm realm); simpl; intros [= <- <-]; auto.
Qed.

Lemma load_ok realm st e st' :
  load_policy_engine realm st = (Some (Ok e), st') →
  ∃ b id, e = engine_load (new_engine (repo st) realm) b id ∧
    ((∃ rest json, id = realm +:+ ":" +:+ rest ∧ policy_bundle_cache st = Some (id, json) ∧ bundle_from_value json = Ok b)
     ∨ (∃ sb, get_active_policy_bundle (repo st) realm = Ok (Some sb) ∧ bundle_from_value (compiled_json sb) = Ok b)
     ∨ (get_active_policy_bundle (repo st) realm = Ok None ∧ fallback_bundle_for_realm realm = Ok b)).
Proof.
  unfold load_policy_engine, bind, gets, lift, ret, put_bundle.
  destruct (cached_engine st realm) as [e'|] eqn:Ec.
  - intros [= <- _]. unfold cached_engine in Ec. destruct (policy_bundle_cache st) as [[n json]|]; [|done]. simpl in Ec.
    destruct (starts_with (realm +:+ ":") n) eqn:Es; [|done].
    apply starts_with_spec in Es as [rest ->]. destruct (bundle_from_value json) as [b|] eqn:Ej; [|done].
    injection Ec as <-. exists b, ((realm +:+ ":") +:+ rest). split; [done|]. left. exists rest, json. by rewrite <- str_app_assoc.
  - destruct (get_active_policy_bundle (repo st) realm) as [[sb|]|e'] eqn:Eg; [| |done].
    + destruct (bundle_from_value (compiled_json sb)) as [b|] eqn:Ej; [|done]. simpl. intros [= <- _]. eauto 10.
    + destruct (fallback_bundle_for_realm realm) as [b|] eqn:Ef; [|done]. simpl. intros [= <- _]. eauto 10.
Qed.

(** ** Authentication *)

Lemma bind_Ok {A B} (m : P A) (k : A → P B) st b st' :
  bind m k st = (Some (Ok b), st') → ∃ a st1, m st = (Some (Ok a), st1) ∧ k a st1 = (Some (Ok b), st').
Proof. unfold bind. destruct (m st) as [[[a|e]|] st1]; [|done..]. eauto. Qed.

Lemma collect_Ok {A B} (f : A → P (option B)) l st bs st' :
  (∀ a, frames (f a)) → collect f l st = (Some (Ok bs), st') →
  ∀ b, b ∈ bs → ∃ a st1 st2, a ∈ l ∧ f a st1 = (Some (Ok (Some b)), st2) ∧ frame st st1 ∧ frame st2 st'.
Proof.
  intros Hf. revert st bs. induction l as [|a l IH]; intros st bs; simpl.
  - intros [= <- <-] b Hb. by apply not_elem_of_nil in Hb.
  - intros (o & st1 & Ha & (rest & st2 & Hr & Hret)%bind_Ok)%bind_Ok. injection Hret as <- <-.
    pose proof (Hf a st) as F1. rewrite Ha in F1. simpl in F1.
    pose proof (frames_collect f l Hf st1) as F2. rewrite Hr in F2. simpl in F2.
    assert (∀ b, b ∈ rest → ∃ a0 s1 s2, a0 ∈ a :: l ∧ f a0 s1 = (Some (Ok (Some b)), s2) ∧ frame st s1 ∧ frame s2 st2) as Hrest.
    { intros b Hb. destruct (IH _ _ Hr b Hb) as (a' & s1 & s2 & Hin & He & Hs1 & Hs2).
      exists a', s1, s2. split_and!; [by right|done|by etrans|done]. }
    intros b Hb. destruct o as [b0|]; [|auto]. apply elem_of_cons in Hb as [->|Hb]; [|auto].
    exists a, st, st1. split_and!; [by left|done|done|done].
Qed.

Lemma validate_token_Ok claims auth realm reg st u st' :
  validate_pep_registration_token claims auth realm reg st = (Some (Ok u), st') →
  ∃ iat, cl_iat claims = Some iat ∧ iat ≤ w_now w (tick st) + clock_skew_seconds auth ∧
    w_now w (tick st) ≤ iat + (token_max_age_seconds auth + clock_skew_seconds auth) ∧ (tick st < tick st')%nat.
Proof.
  intros Hv. pose proof (frames_validate claims auth realm reg st) as F.
  unfold validate_pep_registration_token in Hv. apply bind_Ok in Hv as (now & st1 & Hn & Hk).
  injection Hn as <- <-. destruct (cl_iat claims) as [iat|]; [|done].
  destruct (N.ltb_spec (saturating_add64 (w_now w (tick st)) (clock_skew_seconds auth)) iat) as [|Hv1]; [done|].
  destruct (N.ltb_spec (saturating_add64 (token_max_age_seconds auth) (clock_skew_seconds auth)) (saturating_sub (w_now w (tick st)) iat)) as [|Hv2]; [done|].
  exists iat. unfold saturating_add64, saturating_sub in *. split_and!; [done|lia|lia|].
  assert (frame (next st) st') as [_ _ _ _ Ht]; [|simpl in Ht; lia].
  destruct (replay_protection auth); [destruct (cl_jti claims) as [jti|]; [|done]|by injection Hk as <- <-].
  pose proof (frames_record auth iat (w_now w (tick st)) (pep_replay_key realm reg jti) (next st)) as Hf. by rewrite Hk in Hf.
Qed.

Lemma differs_false o x : differs o x = false → o = None ∨ o = Some x.
Proof. unfold differs. destruct o as [y|]; [|auto]. intros ->%negb_false_iff%String.eqb_eq. auto. Qed.

Lemma try_adapter_Ok token req r a st auth st' :
  try_adapter token req (r, a) st = (Some (Ok (Some auth)), st') →
  ∃ aud claims iat n n',
    pr_audience a = Some aud ∧ w_decode_with_aud w n token aud = Some claims ∧ cl_sub claims = Some (proxy_name (proxy req)) ∧
    (cl_realm_id claims = None ∨ cl_realm_id claims = Some (rl_id r)) ∧ auth = authentication r (normalize_capabilities (pr_capabilities a)) ∧
    cl_iat claims = Some iat ∧ iat ≤ w_now w n' + clock_skew_seconds (pr_auth a) ∧
    w_now w n' ≤ iat + (token_max_age_seconds (pr_auth a) + clock_skew_seconds (pr_auth a)) ∧
    (tick st ≤ n)%nat ∧ (n < n')%nat ∧ (n' < tick st')%nat ∧ declared_capabilities req ⊆ aa_capabilities auth.
Proof.
  unfold try_adapter. destruct (pr_audience a) as [aud|]; [|done].
  intros (decoded & st1 & Hd & Hk)%bind_Ok. injection Hd as <- <-.
  destruct (w_decode_with_aud w (tick st) token aud) as [claims|] eqn:Ed; [|done].
  case_bool_decide as Hsub; [|done]. simpl in Hk. destruct (differs _ _) eqn:Er; [done|].
  apply bind_Ok in Hk as (u & st2 & Hv & Hk). apply bind_Ok in Hk as (u' & st3 & Hb & Hk). injection Hb as _ <-.
  apply validate_token_Ok in Hv as (iat & Hi & Hv1 & Hv2 & Ht).
  unfold subset in Hk. case_bool_decide as Hc; [|done]. injection Hk as <- <-. simpl in Ht.
  exists aud, claims, iat, (tick st), (S (tick st)). split_and!; try done; [by apply differs_false|lia].
Qed.

Lemma authenticate_vouched authorization req st auth st' :
  authenticate_pep_decision_adapter authorization req st = (Some (Ok auth), st') → vouched st st' authorization req auth.
Proof.
  unfold authenticate_pep_decision_adapter, vouched. destruct (Risk.bearer_token authorization) as [token|] eqn:Et; [|done].
  intros (found & st1 & Hf & Hk)%bind_Ok. unfold lift, one_match in Hk. destruct found as [|x [|]]; [done| |done].
  injection Hk as <- <-.
  destruct (collect_Ok _ _ _ _ _ (frames_try token req) Hf x) as ([r a] & s1 & s2 & Hin & Hra & F1 & F2); [by left|].
  apply list_elem_of_In, filter_In in Hin as [Hin Hn%String.eqb_eq]. simpl in Hn.
  unfold all_served in Hin. apply in_concat in Hin as (l & Hl & Hin). apply in_map_iff in Hl as (r' & <- & Hr).
  apply in_map_iff in Hin as (a' & [= <- <-] & Ha).
  apply try_adapter_Ok in Hra as (aud & claims & iat & n & n' & Hv1 & Hv2 & Hv3 & Hv4 & Hv5 & Hv6 & Hv7 & Hv8 & Hv9 & Hv10 & Hv11 & Hv12).
  exists token, r', a', aud, claims, iat, n, n'. rewrite <- Hn in Hv3. pose proof (frame_tick _ _ F1). pose proof (frame_tick _ _ F2).
  rewrite !list_elem_of_In. split_and!; try done; try lia.
Qed.

(** ** The invariant of the caches *)

(** Documented behaviour of [serde_json] on answers. *)
Context (response_round_trip : ∀ r j, response_to_value r = Some j → response_from_value j = Some r).
Context (response_text_round_trip : ∀ r j s, response_to_value r = Some j → to_vec j = Some s → from_slice s = Some j).

Definition stored (st : St) (d : string) (j : J) : Prop :=
  (∃ e, decision_cache st !! d = Some e ∧ response_json e = j)
  ∨ (∃ bytes x, live (shared_cache st) (shared_key d) = Some (bytes, x) ∧ from_slice bytes = Some j).

Record caches_ok (h : list (Call * St)) (st : St) : Prop := {
  bundle_ok : ∀ n j, policy_bundle_cache st = Some (n, j) →
    ∃ r st1 sb, r ∈ realms ∧ st1 ∈ map snd h ∧ get_active_policy_bundle (repo st1) (rl_id r) = Ok (Some sb) ∧
      n = rl_id r +:+ ":" +:+ sb_name sb ∧ j = compiled_json sb;
  entries_ok : ∀ d j, stored st d j → ∃ resp, response_to_value resp = Some j ∧ earned h d resp
}.

Lemma earned_more h call st d resp : earned h d resp → earned ((call, st) :: h) d resp.
Proof.
  intros (h1 & a & req & st0 & auth & st' & Hs & Hrest). exists h1, a, req, st0, auth, st'. split; [|done].
  by apply suffix_cons_r.
Qed.

Lemma caches_more h st call st0 : caches_ok h st → caches_ok ((call, st0) :: h) st.
Proof.
  intros [Hb He]. split.
  - intros n j Hn. destruct (Hb n j Hn) as (r & st1 & sb & Hr & Hin & Hg & Hrest). exists r, st1, sb. split_and!; try done; [by right|apply Hrest..].
  - intros d j Hj. destruct (He d j Hj) as (resp & Hr & Hx). exists resp. split; [done|]. by apply earned_more.
Qed.

Lemma stored_frame st st' d j : frame st st' → stored st' d j → stored st d j.
Proof.
  intros [_ _ Hl Hs _] [(e & He & Hj)|(bytes & x & Hx & Hj)]; [left; rewrite <- Hl; eauto|right].
  destruct (Hs d) as [Heq|Heq]; rewrite Heq in Hx; [eauto|done].
Qed.

Lemma caches_frame h st st' : frame st st' → caches_ok h st → caches_ok h st'.
Proof.
  intros F [Hb He]. split.
  - intros n j. rewrite (frame_bundle _ _ F). apply Hb.
  - intros d j Hj. apply He. by eapply stored_frame.
Qed.

Lemma plain_prefix a b x y : no_colon a = true → no_colon b = true → a +:+ ":" +:+ x = b +:+ ":" +:+ y → a = b.
Proof. intros Ha Hb Heq. pose proof (f_equal before_colon Heq) as Hc. by rewrite !before_colon_app in Hc. Qed.

(** The policy the loaded engine holds is one of its own realm. *)
Lemma load_policy_of h st r e st' :
  r ∈ realms → caches_ok h st → load_policy_engine (rl_id r) st = (Some (Ok e), st') →
  ∃ b id, e = engine_load (new_engine (repo st) (rl_id r)) b id ∧ policy_of h st (rl_id r) b.
Proof.
  intros Hr Hok (b & id & -> & Hcase)%load_ok. exists b, id. split; [done|].
  destruct Hcase as [(rest & json & -> & Hc & Hj)|[(sb & Hg & Hj)|Hd]].
  - destruct (bundle_ok _ _ Hok _ _ Hc) as (r' & st1 & sb & Hr' & Hin & Hg & Heq & ->).
    left. exists st1, sb, (rl_id r'). split_and!; [by right| |done|done].
    destruct (no_colon (rl_id r')) eqn:E1; [destruct (no_colon (rl_id r)) eqn:E2|].
    + left. by eapply plain_prefix.
    + right. split_and!; [by exists r'|by right|by exists rest].
    + right. split_and!; [by exists r'|by left|by exists rest].
  - left. exists st, sb, (rl_id r). split_and!; [by left|by left|done..].
  - by right.
Qed.

(** A loaded policy keeps the invariant, in the history that holds the state it was loaded in. *)
Lemma load_caches h call st0 st r o st' :
  r ∈ realms → repo st0 = repo st → caches_ok h st → load_policy_engine (rl_id r) st = (o, st') → caches_ok ((call, st0) :: h) st'.
Proof.
  intros Hr Hrepo Hok (_ & Hl & Hs & Hb)%load_effect. destruct (caches_more h st call st0 Hok) as [Hb0 He0]. split.
  - intros n j Hn. destruct Hb as [Hb|(sb & Hg & Hb)]; rewrite Hb in Hn; [by apply Hb0|].
    injection Hn as <- <-. exists r, st0, sb. rewrite Hrepo. split_and!; [done|by left|done..].
  - intros d j Hj. apply He0. unfold stored in *. by rewrite Hl, Hs in Hj.
Qed.

Lemma trim_subseteq m : trim_entries m ⊆ m.
Proof. unfold trim_entries. induction (take _ _) as [|k l IH]; simpl; [done|]. etrans; [apply delete_subseteq|done]. Qed.

(** Storing an answer adds that answer only. *)
Lemma put_stored d j0 r0 ttl st d' j :
  response_to_value r0 = Some j0 →
  stored (decision_cache_put d j0 ttl st).2 d' j → stored st d' j ∨ (d' = d ∧ j = j0).
Proof.
  intros Hr0. unfold decision_cache_put, bind.
  set (m := match to_vec j0 with Some _ => _ | None => _ end).
  assert (∀ j1, stored (m st).2 d' j1 → stored st d' j1 ∨ (d' = d ∧ j1 = j0)) as Hm.
  { intros j1. unfold m. destruct (to_vec j0) as [bytes|] eqn:Et; [|by left]. unfold on_cache.
    destruct (cache_set (w_instant w (tick st)) (shared_key d) bytes ttl (shared_cache st)) as [r c'] eqn:Ec. simpl.
    intros [Hx|(bytes' & x & Hx & Hj)]; [left; by left|]. simpl in Hx.
    destruct (decide (d' = d)) as [->|Hne].
    - destruct (set_live _ _ _ _ _ _ _ Ec) as [[_ Hl]|[_ Hl]]; rewrite Hl in Hx; [|left; right; eauto].
      injection Hx as <- _. rewrite (response_text_round_trip _ _ _ Hr0 Et) in Hj. injection Hj as <-. by right.
    - left. right. exists bytes', x. split; [|done]. rewrite <- Hx.
      assert (shared_key d' ≠ shared_key d) as Hk by (unfold shared_key; intros Hk%Dpop.str_app_cancel%Dpop.str_app_cancel; done).
      pose proof (set_other (w_instant w (tick st)) _ bytes ttl (shared_cache st) _ Hk) as Ho. by rewrite Ec in Ho. }
  destruct (m st) as [[[u|e]|] st1]; simpl in Hm |- *; [|apply Hm..].
  unfold local_put. destruct (decision_poisoned st1); [apply Hm|].
  destruct (MemoryCache.instant_add _ _ _) as [x|]; simpl; [|intros Hs; apply Hm; exact Hs].
  intros [(e & He & Hj)|Hs]; simpl in *; [|apply Hm; by right].
  eapply lookup_weaken in He; [|apply trim_subseteq].
  apply lookup_insert_Some in He as [[<- <-]|[_ He]]; [right; by subst|]. apply Hm. left. eauto.
Qed.

Lemma put_bundle_kept d j ttl st : policy_bundle_cache (decision_cache_put d j ttl st).2 = policy_bundle_cache st.
Proof.
  unfold decision_cache_put, bind, local_put, on_cache. destruct (to_vec j); simpl.
  - destruct (cache_set _ _ _ _ _) as [[u|] c]; simpl; [|done]. repeat case_match; done.
  - repeat case_match; done.
Qed.

Lemma keep_caches h st digest resp :
  caches_ok h st → (∀ d, digest = Some d → earned h d resp) → caches_ok h (keep_response digest resp st).2.
Proof.
  intros [Hb He] Hearn. unfold keep_response. destruct digest as [d|]; [|done].
  destruct (cacheable resp); [|done]. destruct (response_to_value resp) as [json|] eqn:Ej; [|done]. split.
  - intros n j. rewrite put_bundle_kept. apply Hb.
  - intros d' j [Hs|[-> ->]]%(put_stored _ _ resp); [by apply He|eauto|done].
Qed.

Lemma cached_Some digest st r st' :
  cached_response digest st = (Some (Ok (Some r)), st') →
  ∃ d j, digest = Some d ∧ stored st d j ∧ response_from_value j = Some r.
Proof.
  unfold cached_response. destruct digest as [d|]; [|done]. intros (found & st1 & Hg & Hk)%bind_Ok.
  destruct found as [json|]; [|done]. apply bind_Ok in Hk as (r' & st2 & Hr & Hret). injection Hret as -> _.
  unfold lift in Hr. destruct (response_from_value json) as [r''|] eqn:Er; [|done]. injection Hr as -> _.
  exists d, json. split_and!; [done| |done]. unfold decision_cache_get in Hg. apply bind_Ok in Hg as (local & st3 & Hl & Hg).
  destruct local as [v|].
  - injection Hg as -> _. left. unfold local_get in Hl. apply bind_Ok in Hl as (p & st4 & Hp & Hl). injection Hp as <- <-.
    destruct (decision_poisoned st); [done|]. apply bind_Ok in Hl as (m & st5 & Hm & Hl). injection Hm as <- <-.
    destruct (decision_cache st !! d) as [e|]; [|done]. apply bind_Ok in Hl as (t & st6 & Ht & Hl).
    injection Hl as Hl _. destruct (t <? expires_at e); [|done]. injection Hl as <-. eauto.
  - apply bind_Ok in Hg as (bytes & st4 & Hc & Hret). injection Hret as Hret _. unfold on_cache in Hc.
    assert (frame st st3) as F.
    { pose proof (frames_local d st) as Hf. by rewrite Hl in Hf. }
    destruct (cache_get (w_instant w (tick st3)) (shared_key d) (shared_cache st3)) as [o c] eqn:Ec. injection Hc as -> _.
    destruct bytes as [bytes|]; [|done]. apply get_live in Ec as [x Hx]. apply (stored_frame _ _ _ _ F). right. eauto.
Qed.

Lemma digest_frame st st' req : frame st st' → cache_key_digest st' req = cache_key_digest st req.
Proof. intros F. unfold cache_key_digest, policy_revision_of. by rewrite (frame_bundle _ _ F). Qed.

Lemma policy_of_frame h st st' realm b : frame st st' → policy_of h st' realm b → policy_of h st realm b.
Proof.
  intros F. unfold policy_of. rewrite (frame_repo _ _ F). intros [(st1 & sb & owner & Hin & Ho & Hg & Hb)|Hd]; [left|by right].
  apply elem_of_cons in Hin as [->|Hin].
  - exists st, sb, owner. rewrite (frame_repo _ _ F) in Hg. split_and!; [by left|done..].
  - exists st1, sb, owner. split_and!; [by right|done..].
Qed.

(** A fresh answer is the decision of a policy of the caller's realm. *)
Lemma fresh_decided h st st1 req r resp st' :
  r ∈ realms → adapter_realm_id req = Some (rl_id r) → frame st st1 → caches_ok h st1 →
  decide_fresh req st1 = (Some (Ok resp), st') → decided_by_policy h st req resp.
Proof.
  intros Hr Hreq F Hok (e & st2 & Hl & Hk)%bind_Ok. unfold request_realm in *. rewrite Hreq in *. simpl in *.
  apply (load_policy_of h) in Hl as (b & id & -> & Hp); [|done..].
  apply bind_Ok in Hk as (revision & st3 & Hg & Hbuild). injection Hbuild as Hbuild _.
  exists (rl_id r), b, id, revision. rewrite <- (frame_repo _ _ F). split_and!; [done| |done].
  by eapply policy_of_frame.
Qed.

Lemma fresh_caches h call st st1 req r o st' :
  r ∈ realms → adapter_realm_id req = Some (rl_id r) → frame st st1 → caches_ok h st1 →
  decide_fresh req st1 = (o, st') → caches_ok ((call, st) :: h) st'.
Proof.
  intros Hr Hreq F Hok. unfold decide_fresh, bind, request_realm. rewrite Hreq. simpl.
  destruct (load_policy_engine (rl_id r) st1) as [oe st2] eqn:El.
  assert (caches_ok ((call, st) :: h) st2) as Hok2.
  { eapply load_caches; [done| |done|done]. symmetry. apply (frame_repo _ _ F). }
  destruct oe as [[e|e]|]; simpl; by intros [= _ <-].
Qed.

Lemma vouched_realm st st' authorization req auth :
  vouched st st' authorization req auth → ∃ r, r ∈ realms ∧ aa_realm_id auth = rl_id r.
Proof. intros (tok & r & a & aud & cl & iat & n & n' & _ & Hr & _ & _ & _ & _ & _ & _ & -> & _). eauto. Qed.

Lemma do_check_run req st :
  do_check req st =
    let digest := cache_key_digest st req in
    match cached_response digest st with
    | (Some (Ok (Some r)), st2) => (Some (Ok r), st2)
    | (Some (Ok None), st2) =>
        match decide_fresh req st2 with
        | (Some (Ok r), st3) =>
            match keep_response digest r st3 with
            | (Some (Ok _), st4) => (Some (Ok r), st4)
            | (Some (Err e), st4) => (Some (Err e), st4)
            | (None, st4) => (None, st4)
            end
        | (Some (Err e), st3) => (Some (Err e), st3)
        | (None, st3) => (None, st3)
        end
    | (Some (Err e), st2) => (Some (Err e), st2)
    | (None, st2) => (None, st2)
    end.
Proof.
  unfold do_check, bind, gets. destruct (cached_response _ st) as [[[[r|]|e]|] st2]; try done.
Qed.

(** What a call of the endpoint does, after authentication. *)
Lemma do_check_ok h st st1 authorization req auth :
  vouched st st1 authorization req auth → frame st st1 → caches_ok h st →
  caches_ok ((Checked authorization req, st) :: h) (do_check (with_adapter req auth) st1).2
  ∧ ∀ resp st', do_check (with_adapter req auth) st1 = (Some (Ok resp), st') →
      (∃ d, cache_key_digest st (with_adapter req auth) = Some d ∧ earned h d resp) ∨ decided_by_policy h st (with_adapter req auth) resp.
Proof.
  intros Hv F Hok. set (call := Checked authorization req). set (req1 := with_adapter req auth).
  destruct (vouched_realm _ _ _ _ _ Hv) as (r & Hr & Ha).
  assert (adapter_realm_id req1 = Some (rl_id r)) as Hreq by (simpl; by rewrite Ha).
  rewrite do_check_run. simpl. rewrite (digest_frame _ _ req1 F). set (digest := cache_key_digest st req1).
  pose proof (frames_cached digest st1) as F2. destruct (cached_response digest st1) as [oc st2] eqn:Ec. simpl in F2.
  assert (frame st st2) as F02 by (by etrans). pose proof (caches_frame h st st2 F02 Hok) as Hok2.
  destruct oc as [[[c|]|e]|]; simpl; [|..].
  - split; [by apply caches_more|]. intros resp st' [= <- _]. left. apply cached_Some in Ec as (d & j & Hd & Hs & Hj).
    apply (stored_frame _ _ _ _ F) in Hs. apply (entries_ok _ _ Hok) in Hs as (resp & Hto & Hearn).
    rewrite (response_round_trip _ _ Hto) in Hj. injection Hj as ->. eauto.
  - destruct (decide_fresh req1 st2) as [o st3] eqn:Ef.
    pose proof (fresh_caches h call st st2 req1 r o st3 Hr Hreq F02 Hok2 Ef) as Hok3.
    destruct o as [[resp|e]|]; simpl; [|by split..].
    pose proof (fresh_decided h st st2 req1 r resp st3 Hr Hreq F02 Hok2 Ef) as Hdec.
    assert (∀ d, digest = Some d → earned ((call, st) :: h) d resp) as Hearn.
    { intros d Hd. exists h, authorization, req, st, auth, st1. by split_and!. }
    pose proof (keep_caches _ _ digest resp Hok3 Hearn) as Hok4.
    destruct (keep_response digest resp st3) as [[[u|e]|] st4]; simpl in *; (split; [done|]); [|done..].
    intros resp' st' [= <- _]. by right.
  - split; [by apply caches_more|done].
  - split; [by apply caches_more|done].
Qed.

Lemma authzen_realm token ra st auth st' :
  try_authzen_adapter token ra st = (Some (Ok (Some auth)), st') → aa_realm_id auth = rl_id ra.1.
Proof.
  destruct ra as [r a]. unfold try_authzen_adapter. destruct (negb _); [done|]. destruct (pr_audience a) as [aud|]; [|done].
  intros (decoded & st1 & _ & Hk)%bind_Ok. destruct decoded as [claims|]; [|done].
  destruct (negb _); [done|]. destruct (differs _ _); [done|].
  apply bind_Ok in Hk as (valid & st2 & _ & Hk). injection Hk as Hk _. destruct valid; [|done]. by injection Hk as <-.
Qed.

Lemma authenticate_authzen_realm authorization st auth st' :
  authenticate_authzen_adapter authorization st = (Some (Ok auth), st') → ∃ r, r ∈ realms ∧ aa_realm_id auth = rl_id r.
Proof.
  unfold authenticate_authzen_adapter. destruct (Risk.bearer_token authorization) as [token|]; [|done].
  intros (found & st1 & Hf & Hk)%bind_Ok. unfold lift, one_match in Hk. destruct found as [|x [|]]; [done| |done].
  injection Hk as <- <-.
  destruct (collect_Ok _ _ _ _ _ (frames_try_authzen token) Hf x) as ([r a] & s1 & s2 & Hin & Hra & _ & _); [by left|].
  apply list_elem_of_In, in_concat in Hin as (l & Hl & Hin). apply in_map_iff in Hl as (r' & <- & Hr).
  apply in_map_iff in Hin as (a' & [= <- <-] & Ha). apply authzen_realm in Hra.
  exists r'. by rewrite list_elem_of_In.
Qed.

Lemma authzen_caches h st authorization req :
  caches_ok h st → caches_ok ((Evaluated authorization req, st) :: h) (authzen_evaluate authorization req st).2.
Proof.
  intros Hok. unfold authzen_evaluate, bind at 1. pose proof (frames_authenticate_authzen authorization st) as F.
  destruct (authenticate_authzen_adapter authorization st) as [o st1] eqn:Ea. simpl in F.
  pose proof (caches_frame h st st1 F Hok) as Hok1. destruct o as [[auth|e]|]; simpl; [|by apply caches_more..].
  apply authenticate_authzen_realm in Ea as (r & Hr & Hrealm). unfold do_authzen_evaluate, bind, lift, ret. rewrite Hrealm.
  destruct (load_policy_engine (rl_id r) st1) as [oe st2] eqn:El.
  assert (caches_ok ((Evaluated authorization req, st) :: h) st2) as Hok2.
  { eapply load_caches; [done| |done|done]. symmetry. apply (frame_repo _ _ F). }
  destruct oe as [[e|e]|]; simpl; [|done..]. destruct (authzen_policy_context req); [|done]. by destruct (authzen_obligations _ _).
Qed.

Lemma check_caches h st authorization req :
  caches_ok h st → caches_ok ((Checked authorization req, st) :: h) (check authorization req st).2.
Proof.
  intros Hok. unfold check. pose proof (frames_authenticate authorization req st) as F.
  destruct (authenticate_pep_decision_adapter authorization req st) as [o st1] eqn:Ea. simpl in F.
  pose proof (caches_frame h st st1 F Hok) as Hok1. destruct o as [[auth|e]|]; simpl; [|by apply caches_more..].
  apply authenticate_vouched in Ea. destruct (do_check_ok h st st1 authorization req auth Ea F Hok) as [Hok2 _].
  by destruct (do_check (with_adapter req auth) st1) as [[[]|] st2].
Qed.

Lemma reached_caches h st : reached h st → caches_ok h st.
Proof.
  induction 1 as [st Hb Hd Hs|h st call _ IH Hp].
  - split; [by rewrite Hb|]. intros d j [(e & He & _)|(bytes & x & Hx & _)]; [by rewrite Hd, lookup_empty in He|by rewrite Hs in Hx].
  - destruct call as [a req|a req|r c]; [by apply check_caches|by apply authzen_caches|].
    apply caches_more. destruct IH as [Hb He]. split; [apply Hb|]. intros d j [Hl|(bytes & x & Hx & Hj)]; apply He; [by left|right].
    destruct (Hp d) as [Heq|Heq]; simpl in Hx; rewrite Heq in Hx; [eauto|done].
Qed.

(** ** The decision of a policy *)

Definition granting (d : Decision) : bool := match d with Allow | AuditOnly => true | _ => false end.

(** The policy of the caller's realm grants the request. *)
Definition granted (h : list (Call * St)) (st : St) (req : PepDecisionRequest) : Prop :=
  ∃ realm b id, adapter_realm_id req = Some realm ∧ policy_of h st realm b ∧
    granting (decision (engine_decide (engine_load (new_engine (repo st) realm) b id) (policy_context req (pep_decision_risk_advisory req)))) = true.

Lemma build_response_decision req realm revision details resp :
  build_response req realm revision details = Ok resp → rp_decision resp = pep_decision_wire_decision (decision details).
Proof. unfold build_response. destruct (pep_decision_obligations _ _ _ _); [|done]. by intros [= <-]. Qed.

Lemma decided_granted h st req resp : decided_by_policy h st req resp → rp_decision resp = "allow" → granted h st req.
Proof.
  intros (realm & b & id & revision & Hr & Hp & Hb) Ha. exists realm, b, id. split_and!; [done..|].
  apply build_response_decision in Hb. rewrite Ha in Hb. by destruct (decision _).
Qed.

(** The registration the caller authenticated as lets failures of the server pass. *)
Definition fails_open (req : PepDecisionRequest) (auth : AdapterAuthentication) : Prop :=
  ∃ r reg, r ∈ realms ∧ rl_id r = aa_realm_id auth ∧ reg ∈ registrations r ∧ pr_name reg = proxy_name (proxy req) ∧ fail_policy reg = "allow".

Lemma fail_open_Some req auth e resp :
  pep_decision_fail_open (with_adapter req auth) (aa_realm_id auth) e = Some resp → system_failure e = true ∧ fails_open req auth.
Proof.
  unfold pep_decision_fail_open. destruct (system_failure e); [|done]. simpl. unfold find_realm.
  destruct (List.find _ realms) as [r|] eqn:Er; [|done]. simpl.
  destruct (List.find _ (registrations r)) as [reg|] eqn:Eg; [|done].
  destruct (String.eqb_spec (fail_policy reg) "allow") as [Hf|]; [|done]. intros _. split; [done|].
  apply find_some in Er as [Hr Hid%String.eqb_eq]. apply find_some in Eg as [Hg Hn%String.eqb_eq].
  exists r, reg. rewrite !list_elem_of_In. by split_and!.
Qed.

(** * Properties *)

(** C20: An allowance is earned.  On a server started with empty caches, whatever requests came before and however the
    repository and the other keys of the shared cache changed in between, a request is answered with [allow] only
    if the token of a served registration of the name it gives was verified, recent, and its capabilities cover the
    declared ones, and: a bundle that was active in the registration's realm at some point of the execution (or, with
    none active, the realm's default) grants the request, where, if a realm has a colon in its identifier, the bundle of another
    configured realm may stand in for it, when the names of that realm and its bundle, joined by a colon, begin with the
    registration's realm and a colon; or an earlier request, authenticated in the same way and
    with the same digest of cache key, was granted by the policy of its realm; or the decision failed with an
    internal or storage error and the registration is configured to fail open. *)
Theorem pep_allow_earned h st authorization req resp st' :
  reached h st → check authorization req st = (Some (Decided resp), st') → rp_decision resp = "allow" →
  ∃ auth st1, vouched st st1 authorization req auth ∧
    (granted h st (with_adapter req auth)
     ∨ (∃ h1 a0 req0 st0 auth0 st0',
          suffix ((Checked a0 req0, st0) :: h1) h ∧ vouched st0 st0' a0 req0 auth0 ∧ granted h1 st0 (with_adapter req0 auth0) ∧
          ∃ d, cache_key_digest st0 (with_adapter req0 auth0) = Some d ∧ cache_key_digest st (with_adapter req auth) = Some d)
     ∨ (fails_open req auth ∧ ∃ e st2, do_check (with_adapter req auth) st1 = (Some (Err e), st2) ∧ system_failure e = true)).
Proof.
  intros Hok%reached_caches Hc Ha. unfold check in Hc. pose proof (frames_authenticate authorization req st) as F.
  destruct (authenticate_pep_decision_adapter authorization req st) as [[[auth|e]|] st1] eqn:Ea; [|done..]. simpl in F.
  apply authenticate_vouched in Ea. exists auth, st1. split; [done|].
  destruct (do_check_ok h st st1 authorization req auth Ea F Hok) as [_ Hdec].
  destruct (do_check (with_adapter req auth) st1) as [[[r|e]|] st2] eqn:Ed; [| |done].
  - injection Hc as -> ->. destruct (Hdec resp st' eq_refl) as [(d & Hd & Hearn)|Hp]; [|left; by eapply decided_granted].
    right. left. destruct Hearn as (h1 & a0 & req0 & st0 & auth0 & st0' & Hs & Hv & Hd0 & Hp).
    exists h1, a0, req0, st0, auth0, st0'. split_and!; [done|done|by eapply decided_granted|eauto].
  - destruct (pep_decision_fail_open _ _ e) as [r|] eqn:Ef; [|done]. apply fail_open_Some in Ef as [Hs Ho].
    right. right. split; [done|]. by exists e, st2.
Qed.

(** ** Obligations *)

Definition held (caps : gset string) (n : string) : Prop := n ∈ caps ∨ (n = "rate_limit_profile" ∧ "rate_limit" ∈ caps).

Definition when {A} (o : option A) (n : string) (parameters : A → J) : list PepDecisionObligation :=
  match o with
  | Some a => [{| po_namespace := "urn:qid:decision:obligation:pep"; po_version := "1"; po_name := n; po_parameters := parameters a |}]
  | None => []
  end.

(** The first of two wishes that is there. *)
Definition first_of {A} (a b : option A) : option A := match a with Some x => Some x | None => b end.

Lemma first_of_or {A} (a b : option A) : first_of a b = opt_or a b.
Proof. by destruct a. Qed.

(** What a decision asks of the enforcement point: nothing for a grant, a challenge, or a local response. *)
Definition due_kind (d : Decision) (id : string) : list PepDecisionObligation :=
  let challenge reason := when (Some tt) "challenge" (fun _ => VObject [("decision_id", VString id); ("reason", VString reason)]) in
  let refusal error := when (Some tt) "local_response" (fun _ =>
    VObject [("body", VObject [("decision_id", VString id); ("error", VString error)]);
             ("content_type", VString "application/json"); ("status", VNumber (num_from_u64 403))]) in
  match d with
  | Allow | AuditOnly => []
  | StepUp => challenge "step_up"
  | ConsentRequired => challenge "consent_required"
  | Deny | LocalResponse => refusal "access_denied"
  | ApprovalRequired => refusal "approval_required"
  | Quarantine => refusal "quarantine_required"
  | Conditional => refusal "conditional_decision_unenforceable"
  end.

(** What the enforcement point has to do for the decision, with the parameters. *)
Definition due (details : DecisionDetails Num) (risk : PepDecisionRiskAdvisory) : list PepDecisionObligation :=
  let p := dd_pep details in
  let switch (b : bool) := VObject [("enabled", VBool b)] in
  due_kind (decision details) (policy_id details)
  ++ when (dd_inject_headers details) "inject_headers" (fun hs =>
       VObject [("request_add", VObject [("x-qid-decision-id", VArray [VString (policy_id details)])]); ("request_set", jheaders hs)])
  ++ when (first_of (dd_rate_limit_profile details) (ra_rate_limit_profile risk)) "rate_limit_profile" (fun profile =>
       VObject [("profile", VString profile)])
  ++ match override_upstream p, timeout_override_ms p, mirror_upstreams p with
     | None, None, [] => []
     | upstream, timeout, mirrors => when (Some tt) "override_upstream" (fun _ =>
         VObject [("mirror_upstreams", VArray (map VString mirrors));
                  ("override_upstream", match upstream with Some u => VString u | None => VNull end);
                  ("timeout_override_ms", match timeout with Some n => VNumber (num_from_u64 n) | None => VNull end)])
     end
  ++ when (first_of (force_inspect p) (ra_force_inspect risk)) "force_inspect" switch
  ++ when (first_of (force_tunnel p) (ra_force_tunnel risk)) "force_tunnel" switch
  ++ when (first_of (cache_bypass p) (ra_cache_bypass risk)) "cache_bypass" switch.

(** The obligations of [r] are those of [os], all within the capabilities; an error lacks one of them. *)
Definition obliges (caps : gset string) (os : list PepDecisionObligation) (r : QidResult (list PepDecisionObligation)) : Prop :=
  match r with
  | Ok os' => os' = os ∧ Forall (fun o => held caps (po_name o)) os
  | Err e => (∃ text, e = Unauthorized text) ∧ ∃ o, o ∈ os ∧ ¬ held caps (po_name o)
  end.

Lemma required_capability caps n text :
  n ≠ "rate_limit_profile" →
  match (if bool_decide (n ∈ caps) then Ok tt else Err (Unauthorized text)) : QidResult unit with
  | Ok _ => held caps n | Err e => (∃ t, e = Unauthorized t) ∧ ¬ held caps n end.
Proof. intros Hn. case_bool_decide; [by left|]. split; [eauto|]. by intros [?|[-> _]]. Qed.

Lemma obliges_one {A} caps (o : option A) required n payload :
  match required with Ok _ => held caps n | Err e => (∃ t, e = Unauthorized t) ∧ ¬ held caps n end →
  obliges caps (when o n payload) (oblige o required n payload).
Proof.
  intros Hr. destruct o as [a|]; simpl; [|by split]. destruct required as [[]|e]; simpl.
  - split; [done|]. by apply Forall_singleton.
  - destruct Hr as [He Hn]. split; [done|]. eexists. split; [by left|done].
Qed.

Lemma required_rate caps :
  match require_pep_capability_any caps ["rate_limit_profile"; "rate_limit"] with
  | Ok _ => held caps "rate_limit_profile" | Err e => (∃ t, e = Unauthorized t) ∧ ¬ held caps "rate_limit_profile" end.
Proof.
  unfold require_pep_capability_any, held. simpl. case_bool_decide as Hr; simpl; [by left|].
  case_bool_decide as Hl; simpl; [by right|]. split; [eauto|]. tauto.
Qed.

Lemma obliges_plain {A} caps (o : option A) n payload :
  n ≠ "rate_limit_profile" → obliges caps (when o n payload) (oblige o (require_pep_capability caps n) n payload).
Proof. intros Hn. apply obliges_one. by apply required_capability. Qed.

Lemma obliges_kind caps d id : obliges caps (due_kind d id) (decision_obligation d caps id).
Proof.
  assert (∀ n payload, n ≠ "rate_limit_profile" →
    obliges caps (when (Some tt) n (fun _ => payload)) (require_pep_capability caps n ?; Ok [qid_decision_obligation n payload])) as Hone.
  { intros n payload Hn. by apply (obliges_plain caps (Some tt) n (fun _ => payload)). }
  destruct d; simpl; try (by split); by apply Hone.
Qed.

Lemma obliges_upstream caps (p : PepPolicyActions) :
  obliges caps
    (match override_upstream p, timeout_override_ms p, mirror_upstreams p with
     | None, None, [] => []
     | upstream, timeout, mirrors => when (Some tt) "override_upstream" (fun _ =>
         VObject [("mirror_upstreams", VArray (map VString mirrors));
                  ("override_upstream", match upstream with Some u => VString u | None => VNull end);
                  ("timeout_override_ms", match timeout with Some n => VNumber (num_from_u64 n) | None => VNull end)])
     end)
    (oblige (upstream_actions p) (require_pep_capability caps "override_upstream") "override_upstream" upstream_payload).
Proof.
  pose proof (obliges_plain caps (upstream_actions p) "override_upstream" upstream_payload ltac:(done)) as Ho.
  unfold upstream_actions in *. destruct p as [[u|] [t|] [|m ms] ? ? ?]; exact Ho.
Qed.

(** Parts in sequence, the first error ending it. *)
Fixpoint in_sequence (rs : list (QidResult (list PepDecisionObligation))) : QidResult (list PepDecisionObligation) :=
  match rs with
  | [] => Ok []
  | r :: rs => let? os := r in let? rest := in_sequence rs in Ok (os ++ rest)
  end.

Lemma obliges_all caps oss rs :
  Forall2 (obliges caps) oss rs → obliges caps (concat oss) (in_sequence rs).
Proof.
  induction 1 as [|ns r nss rs Hr _ IH]; simpl; [by split|]. destruct r as [os|e]; simpl in *.
  - destruct Hr as [-> Hf]. destruct (in_sequence rs) as [oss|e]; simpl in *.
    + destruct IH as [-> Hf']. split; [done|]. by apply Forall_app.
    + destruct IH as [He (n & Hin & Hn')]. split; [done|]. exists n. split; [|done]. apply elem_of_app. by right.
  - destruct Hr as [He (n & Hin & Hn')]. split; [done|]. exists n. split; [|done]. apply elem_of_app. by left.
Qed.

Ltac transitivity_obliges rs :=
  match goal with |- obliges _ _ ?r => assert (r = in_sequence rs) as ->; [|apply obliges_all] end.

Lemma pep_obligations_spec details risk caps :
  obligations details = [] → obliges caps (due details risk) (pep_decision_obligations details risk (policy_id details) caps).
Proof.
  intros Hnone. unfold due, pep_decision_obligations. rewrite Hnone, !first_of_or.
  match goal with |- obliges _ (?a ++ ?b ++ ?c ++ ?d ++ ?e ++ ?f ++ ?g) _ =>
    replace (a ++ b ++ c ++ d ++ e ++ f ++ g) with (concat [a; b; c; d; e; f; g]) by (cbn [concat]; by rewrite app_nil_r) end.
  match goal with |- obliges _ _ (res_bind _ (fun own => res_bind ?a (fun ka => res_bind ?b (fun kb => res_bind ?c (fun kc =>
      res_bind ?d (fun kd => res_bind ?e (fun ke => res_bind ?f (fun kf => res_bind ?g _)))))))) =>
    transitivity_obliges [a; b; c; d; e; f; g] end.
  - simpl. repeat match goal with |- context [res_bind ?r _] => destruct r; simpl; [|reflexivity] end. by rewrite app_nil_r.
  - repeat apply Forall2_cons_2; [apply obliges_kind|by apply obliges_plain|apply obliges_one, required_rate|apply obliges_upstream
      |by apply obliges_plain..|apply Forall2_nil_2].
Qed.

Lemma decide_no_obligations (e : NativePolicyEngine Num) ctx : obligations (engine_decide e ctx) = [].
Proof. unfold engine_decide. repeat case_match; reflexivity. Qed.

(** What the policy [b] of a realm decides of a request. *)
Definition verdict_of (st : St) (req : PepDecisionRequest) (realm : string) (b : PolicyBundle Num) (id : string) : DecisionDetails Num :=
  engine_decide (engine_load (new_engine (repo st) realm) b id) (policy_context req (pep_decision_risk_advisory req)).

(** The answer carries out what a policy of the caller's realm decides, and the caller can do what it asks. *)
Definition carried_out (h : list (Call * St)) (st : St) (req : PepDecisionRequest) (resp : PepDecisionResponse) : Prop :=
  ∃ realm b id, adapter_realm_id req = Some realm ∧ policy_of h st realm b ∧
    let details := verdict_of st req realm b id in
    (rp_decision resp = "allow" ↔ granting (decision details) = true) ∧
    rp_obligations resp = due details (pep_decision_risk_advisory req) ∧
    Forall (fun o => held (adapter_capabilities req) (po_name o)) (rp_obligations resp) ∧
    (rp_decision resp = "allow" ∨
     ∃ o, head (rp_obligations resp) = Some o ∧ (po_name o = "challenge" ∨ po_name o = "local_response")).

Lemma decided_carried_out h st req resp : decided_by_policy h st req resp → carried_out h st req resp.
Proof.
  intros (realm & b & id & revision & Hr & Hp & Hb). exists realm, b, id. split_and!; [done..|]. cbv zeta. fold (verdict_of st req realm b id) in Hb.
  unfold build_response in Hb.
  pose proof (pep_obligations_spec (verdict_of st req realm b id) (pep_decision_risk_advisory req) (adapter_capabilities req)
    (decide_no_obligations _ _)) as Ho.
  destruct (pep_decision_obligations _ _ _ _) as [os|err]; simpl in *; [|done]. destruct Ho as [-> Hf].
  injection Hb as <-. simpl. split_and!; [by destruct (decision _)|done|done|].
  unfold due. destruct (decision (verdict_of st req realm b id)); simpl; eauto.
Qed.

(** An answer that is refused for want of a capability. *)
Lemma lacking_refused req realm revision (e : NativePolicyEngine Num) ctx :
  ¬ Forall (fun o => held (adapter_capabilities req) (po_name o)) (due (engine_decide e ctx) (pep_decision_risk_advisory req)) →
  ∃ text, build_response req realm revision (engine_decide e ctx) = Err (Unauthorized text).
Proof.
  intros Hn. unfold build_response.
  pose proof (pep_obligations_spec (engine_decide e ctx) (pep_decision_risk_advisory req) (adapter_capabilities req)
    (decide_no_obligations _ _)) as Ho.
  destruct (pep_decision_obligations _ _ _ _) as [os|err]; simpl in *; [by destruct Ho|]. destruct Ho as [[text ->] _]. by exists text.
Qed.

(** Without a kept answer, with a policy that asks for what the caller cannot do, the endpoint fails closed. *)
Lemma lacking_fails_closed authorization req st auth st1 st2 engine st3 :
  let req' := with_adapter req auth in
  authenticate_pep_decision_adapter authorization req st = (Some (Ok auth), st1) →
  cached_response (cache_key_digest st1 req') st1 = (Some (Ok None), st2) →
  load_policy_engine (aa_realm_id auth) st2 = (Some (Ok engine), st3) →
  ¬ Forall (fun o => held (aa_capabilities auth) (po_name o))
      (due (engine_decide engine (policy_context req' (pep_decision_risk_advisory req'))) (pep_decision_risk_advisory req')) →
  (check authorization req st).1 = Some FailClosed.
Proof.
  intros req' Ha Hc Hl Hn. unfold check. rewrite Ha. fold req'. rewrite do_check_run. cbv zeta. rewrite Hc.
  unfold decide_fresh, bind, gets, lift. change (request_realm req') with (aa_realm_id auth). rewrite Hl.
  destruct (lacking_refused req' (aa_realm_id auth) (policy_revision_of st3) engine
    (policy_context req' (pep_decision_risk_advisory req')) Hn) as [text ->]. reflexivity.
Qed.

(** When the endpoint fails closed although the failure is the server's own, a registration of the caller's name asks for it. *)
Lemma fail_open_None req auth e :
  pep_decision_fail_open (with_adapter req auth) (aa_realm_id auth) e = None →
  (∃ r, r ∈ realms ∧ rl_id r = aa_realm_id auth) →
  system_failure e = false ∨
  ∃ r, r ∈ realms ∧ rl_id r = aa_realm_id auth ∧
    ((∀ reg, reg ∈ registrations r → pr_name reg ≠ proxy_name (proxy req)) ∨
     ∃ reg, reg ∈ registrations r ∧ pr_name reg = proxy_name (proxy req) ∧ fail_policy reg ≠ "allow").
Proof.
  unfold pep_decision_fail_open. destruct (system_failure e); [|by left]. simpl. unfold find_realm. intros Hf (r0 & Hr0 & Hid0). right.
  destruct (List.find _ realms) as [r|] eqn:Er.
  - apply find_some in Er as [Hr Hid%String.eqb_eq]. exists r. rewrite !list_elem_of_In. split_and!; [done..|].
    simpl in Hf. destruct (List.find _ (registrations r)) as [reg|] eqn:Eg.
    + apply find_some in Eg as [Hg Hn%String.eqb_eq]. right. exists reg. rewrite list_elem_of_In. split_and!; [done..|].
      intros Ha. by rewrite Ha in Hf.
    + left. intros reg Hin%list_elem_of_In Hn. pose proof (find_none _ _ Eg reg Hin) as Hx. simpl in Hx. by rewrite Hn, String.eqb_refl in Hx.
  - apply list_elem_of_In in Hr0. pose proof (find_none _ _ Er r0 Hr0) as Hx. simpl in Hx. by rewrite Hid0, String.eqb_refl in Hx.
Qed.

(** C21: What the endpoint answers can be carried out.  On a server started with empty caches, an answer with a decision has
    exactly the obligations, with their parameters and in order, that the decision of a policy of the caller's realm, its
    policy actions and the risk advisory call for; it allows exactly when that policy grants, and otherwise starts with a
    challenge or a local response; and the caller holds the capability for each obligation.  For an answer from the cache all
    this holds of the earlier request with the same digest of cache key that it was made for (with that caller's
    capabilities), and the answer of a registration that fails open on a failure of the server allows and asks for nothing.
    A request whose decision, made afresh, asks for what the caller cannot do is answered with the fixed fail-closed
    refusal; and that refusal is given only on an error of the decision, which is not the server's own failure unless a
    registration of the name is not configured to fail open. *)
Theorem pep_answer_enforceable h st authorization req :
  reached h st →
  (∀ resp, (check authorization req st).1 = Some (Decided resp) →
     ∃ auth st1, vouched st st1 authorization req auth ∧
       (carried_out h st (with_adapter req auth) resp
        ∨ (∃ h1 a0 req0 st0 auth0 st0' d,
             suffix ((Checked a0 req0, st0) :: h1) h ∧ vouched st0 st0' a0 req0 auth0 ∧ carried_out h1 st0 (with_adapter req0 auth0) resp ∧
             cache_key_digest st0 (with_adapter req0 auth0) = Some d ∧ cache_key_digest st (with_adapter req auth) = Some d)
        ∨ (fails_open req auth ∧ rp_decision resp = "allow" ∧ rp_obligations resp = [] ∧ cacheable resp = false))) ∧
  (∀ auth st1 st2 engine st3,
     let req' := with_adapter req auth in
     authenticate_pep_decision_adapter authorization req st = (Some (Ok auth), st1) →
     cached_response (cache_key_digest st1 req') st1 = (Some (Ok None), st2) →
     load_policy_engine (aa_realm_id auth) st2 = (Some (Ok engine), st3) →
     ¬ Forall (fun o => held (aa_capabilities auth) (po_name o))
         (due (engine_decide engine (policy_context req' (pep_decision_risk_advisory req'))) (pep_decision_risk_advisory req')) →
     (check authorization req st).1 = Some FailClosed) ∧
  ((check authorization req st).1 = Some FailClosed →
     ∃ auth st1 e st2, vouched st st1 authorization req auth ∧ do_check (with_adapter req auth) st1 = (Some (Err e), st2) ∧
       (system_failure e = false ∨
        ∃ r, r ∈ realms ∧ rl_id r = aa_realm_id auth ∧
          ((∀ reg, reg ∈ registrations r → pr_name reg ≠ proxy_name (proxy req)) ∨
           ∃ reg, reg ∈ registrations r ∧ pr_name reg = proxy_name (proxy req) ∧ fail_policy reg ≠ "allow"))).
Proof.
  intros Hok%reached_caches. split; [|split; [intros auth st1 st2 engine st3 req'; apply lacking_fails_closed|]];
    unfold check; pose proof (frames_authenticate authorization req st) as F;
    destruct (authenticate_pep_decision_adapter authorization req st) as [[[auth|e]|] st1] eqn:Ea; try done; simpl in F;
    apply authenticate_vouched in Ea.
  - intros resp Hc. exists auth, st1. split; [done|].
    destruct (do_check_ok h st st1 authorization req auth Ea F Hok) as [_ Hdec].
    destruct (do_check (with_adapter req auth) st1) as [[[r|e]|] st2] eqn:Ed; [| |done].
    + injection Hc as ->. destruct (Hdec resp st2 eq_refl) as [(d & Hd & Hearn)|Hp]; [|left; by apply decided_carried_out].
      right. left. destruct Hearn as (h1 & a0 & req0 & st0 & auth0 & st0' & Hs & Hv & Hd0 & Hp).
      exists h1, a0, req0, st0, auth0, st0', d. split_and!; [done|done|by apply decided_carried_out|done|done].
    + simpl in Hc. destruct (pep_decision_fail_open _ _ e) as [r|] eqn:Ef; [|done]. injection Hc as ->.
      assert (resp = fail_open_response) as ->.
      { unfold pep_decision_fail_open in Ef. destruct (negb _); [done|]. destruct (find_realm _); [|done]. simpl in Ef.
        destruct (match List.find _ _ with Some _ => _ | None => _ end); [|done]. by injection Ef. }
      apply fail_open_Some in Ef as [_ Ho]. by right; right.
  - destruct (do_check (with_adapter req auth) st1) as [[[r|e]|] st2] eqn:Ed; [done| |done]. simpl. intros Hc.
    destruct (pep_decision_fail_open _ _ e) as [r|] eqn:Ef; [done|]. exists auth, st1, e, st2. split_and!; [done..|].
    apply fail_open_None in Ef; [done|]. destruct (vouched_realm _ _ _ _ _ Ea) as (r & Hr & Hid). by exists r.
Qed.

End Pep.

(** * Instances and examples *)

#[global] Instance memory_cache_reads instant_max :
  @SharedCacheReads MemoryCache.MemoryCache (MemoryCache.MemoryCache_SharedCache instant_max) MemoryCache.live.
Proof.
  split; simpl; intros t k c; unfold MemoryCache.get, MemoryCache.live; destruct (MemoryCache.store c !! k) as [e|] eqn:Ek.
  - intros v c'. destruct (t <? MemoryCache.expires_at e); intros [= <- <-]. simpl. eauto.
  - done.
  - intros j. destruct (t <? MemoryCache.expires_at e); simpl; [by left|]. destruct (decide (k = j)) as [<-|Hne].
    + right. by rewrite lookup_delete_eq.
    + left. by rewrite lookup_delete_ne.
  - by left.
Qed.

(** Numbers are [N]; an answer is the text of its encoding. *)
#[local] Instance pep_numbers : JsonNumber N := {|
  as_u64 n := Some n; as_i64 n := Some (Z.of_N n); as_f64 n := Some (z_to_f64 (Z.of_N n)); num_eqb := N.eqb; num_from_u64 n := n
|}.
Abbreviation EJ := (Value N).
Abbreviation EResponse := (PepDecisionResponse (Num := N)).

Definition obligation_tuple (o : PepDecisionObligation (Num := N)) := (po_namespace o, po_version o, po_name o, po_parameters o).
Definition tuple_obligation (t : string * string * string * EJ) : PepDecisionObligation :=
  let '(a, b, c, d) := t in {| po_namespace := a; po_version := b; po_name := c; po_parameters := d |}.

Definition response_tuple (r : EResponse) :=
  ((rp_schema_id r, rp_decision r, decision_id r, rp_policy_id r, policy_revision r, rp_ttl_ms r, cacheable r, decision_scope r),
   map obligation_tuple (rp_obligations r),
   (severity (audit r), au_policy_id (audit r), au_policy_tags (audit r), au_risk_score (audit r)), rp_extensions r).

Definition tuple_response
    (t : (string * string * string * string * string * N * bool * string) * list (string * string * string * EJ)
         * (string * string * list string * option N) * gmap string EJ) : EResponse :=
  let '((a, b, c, d, e, f, g, h), os, (sv, pid, tags, score), ext) := t in
  {| rp_schema_id := a; rp_decision := b; decision_id := c; rp_policy_id := d; policy_revision := e; rp_ttl_ms := f; cacheable := g;
     decision_scope := h; rp_obligations := map tuple_obligation os;
     audit := {| severity := sv; au_policy_id := pid; au_policy_tags := tags; au_risk_score := score |}; rp_extensions := ext |}.

Lemma tuple_response_tuple r : tuple_response (response_tuple r) = r.
Proof.
  destruct r as [a b c d e f g h os [sv pid tags score] ext]. unfold response_tuple, tuple_response. simpl. f_equal.
  rewrite map_map. rewrite <- (map_id os) at 2. apply map_ext. by intros [].
Qed.

Definition ex_to_value (r : EResponse) : option EJ := Some (VString (OAuth.pos_text (encode (response_tuple r)))).
Definition ex_from_value (j : EJ) : option EResponse :=
  match j with VString s => tuple_response <$> decode (OAuth.text_pos s) | _ => None end.
Definition ex_to_vec (j : EJ) : option string := Some (match j with VString s => s | _ => OAuth.pos_text (encode j) end).
Definition ex_from_slice (s : string) : option EJ := Some (VString s).

Lemma ex_round_trip r j : ex_to_value r = Some j → ex_from_value j = Some r.
Proof. intros [= <-]. unfold ex_from_value. rewrite OAuth.text_pos_text, decode_encode. cbn [fmap option_fmap option_map]. by rewrite tuple_response_tuple. Qed.

Lemma ex_text_round_trip r j s : ex_to_value r = Some j → ex_to_vec j = Some s → ex_from_slice s = Some j.
Proof. intros [= <-] [= <-]. done. Qed.

(** One realm whose policy allows administrators; one registration, able to carry out every obligation. *)
Definition ex_registration : PepRegistrationConfig :=
  {| pr_name := "edge"; pr_audience := Some "pep"; fail_policy := "deny"; pr_cache := default_cache_config;
     pr_capabilities := ["local_response"; "challenge"; "force_inspect"; "cache_bypass"; "rate_limit"; "force_tunnel"];
     pr_auth := {| replay_protection := true; token_max_age_seconds := 300; clock_skew_seconds := 30 |} |}.
Definition ex_realms : list RealmConfig :=
  [{| rl_id := "main"; rl_tenant_id := Some "acme"; pep_enabled := true; registrations := [ex_registration]; policy_default_decision := "deny" |}].

Definition ex_bundle : PolicyBundle N :=
  {| version := "1"; default_decision := Deny;
     rules := [{| name := "admins"; rule_type := RAllow; action := "*"; rule_resource_host := None;
                  conditions := [{| field := "roles"; op := "contains"; value := VString "admin" |}]; expression := None;
                  rate_limit_profile := None; inject_headers := None; pep := pep_default |}] |}.

Definition ex_stored : StoredBundle (Num := N) :=
  {| sb_id := "b1"; sb_realm_id := "main"; sb_name := "policy"; source_hash := ""; compiled_json := VNull; sb_version := 1; active := true |}.
Definition ex_repo : PolicyFile (Num := N) :=
  {| policy_bundles := {[ "b1" := ex_stored ]}; relationships := {| Rebac.relationship_tuples := []; Rebac.saves := [] |} |}.

Definition ex_max : N := 1000000000000000000000.

(** A token is its own identifier; the clock stands still. *)
Definition ex_world : World :=
  {| w_now _ := 1000; w_instant _ := 1000;
     w_decode_with_aud _ token _ := Some {| cl_sub := Some "edge"; cl_iat := Some 990; cl_jti := Some token; cl_realm_id := None |} |}.

Abbreviation ESt := (St (Num := N) (R := PolicyFile (Num := N)) (C := MemoryCache.MemoryCache)).
Definition ex_start : ESt :=
  {| repo := ex_repo; policy_bundle_cache := None; decision_cache := ∅; decision_poisoned := false;
     shared_cache := MemoryCache.new; tick := 0 |}.

Definition ex_wire (rs : list string) : WirePepDecisionRequest (Num := N) :=
  {| w_schema_id := None; w_request_id := None; w_traceparent := None;
     w_principal := Some {| pn_id := Some "ann"; pn_groups := []; pn_roles := rs; pn_entitlements := []; pn_device_id := Some "laptop";
                            pn_posture := ["managed"]; assurance_level := Some "phr" |};
     w_resource := {| rs_id := None; rs_host := Some "app"; rs_path := None; rs_port := None; rs_sni := None |};
     w_operation := {| op_name := "GET"; op_method := None |};
     w_pep := {| registration := "edge"; pep_capabilities := ["local_response"] |}; w_risk := None; w_context := ∅; w_extensions := ∅;
     w_auth_assertions := None |}.

Definition ex_request (rs : list string) : PepDecisionRequest (Num := N) :=
  match try_from (ex_wire rs) with
  | Ok r => r
  | Err _ => {| schema_id := ""; request_id := None; traceparent := None; proxy := {| proxy_name := ""; px_action := None |};
                rq_request := None; identity := None; destination := None; rq_risk_score := None; rq_context := ∅; rq_extensions := ∅;
                auth_assertions := None; declared_capabilities := ∅; adapter_capabilities := ∅; adapter_realm_id := None;
                adapter_tenant_id := None |}
  end.

#[local] Instance pep_cache : SharedCache MemoryCache.MemoryCache := MemoryCache.MemoryCache_SharedCache ex_max.
#[local] Instance ex_cache_laws : SharedCacheLaws MemoryCache.MemoryCache MemoryCache.live := MemoryCache.MemoryCache_laws ex_max.
#[local] Instance ex_cache_reads : SharedCacheReads (live := MemoryCache.live) := memory_cache_reads ex_max.

Definition ex_check (token : string) (rs : list string) (st : ESt) : option Reply * ESt :=
  check Risk.flat_trig OAuth.ex_bytes ex_to_vec ex_from_slice ex_to_value ex_from_value (fun _ => Ok ex_bundle) ex_max ex_realms ex_world
    (Some ("Bearer " +:+ token)) (ex_request rs) st.

Definition verdict (o : option (Reply (Num := N))) : string :=
  match o with Some (Decided r) => rp_decision r | Some FailClosed => "closed" | Some (Refused _) => "refused" | None => "panic" end.

(** Two requests of an administrator: the first loads the policy, the second is cached. *)
Definition ex_st1 : ESt := (ex_check "t1" ["admin"] ex_start).2.
Definition ex_st2 : ESt := (ex_check "t2" ["admin"] ex_st1).2.

(** The same server without its cached decisions. *)
Definition forget_decisions (st : ESt) : ESt :=
  {| repo := repo st; policy_bundle_cache := policy_bundle_cache st; decision_cache := ∅; decision_poisoned := decision_poisoned st;
     shared_cache := MemoryCache.new; tick := tick st |}.

(** A cached allowance outlives the role it was given for.  The policy of the realm allows administrators only.
    After two requests of a user as administrator, the same user's request without the role is allowed, though the
    same server without the cached decision denies it: the key of the decision cache names neither roles,
    entitlements nor the risk score of the request. *)
Theorem cached_allow_ignores_roles :
  verdict (ex_check "t3" [] ex_st2).1 = "allow" ∧ verdict (ex_check "t3" [] (forget_decisions ex_st2)).1 = "deny".
Proof. split; vm_compute; reflexivity. Qed.

Definition ex_call (token : string) (rs : list string) : Call (Num := N) (R := PolicyFile (Num := N)) (C := MemoryCache.MemoryCache) :=
  Checked (Some ("Bearer " +:+ token)) (ex_request rs).

Lemma verdict_allow o : verdict o = "allow" → ∃ r, o = Some (Decided r) ∧ rp_decision r = "allow".
Proof. destruct o as [[r| |e]|]; simpl; try done. eauto. Qed.

Lemma ex_reached : reached Risk.flat_trig OAuth.ex_bytes ex_to_vec ex_from_slice ex_to_value ex_from_value (fun _ => Ok ex_bundle)
  ex_max ex_realms ex_world (live := MemoryCache.live) [(ex_call "t2" ["admin"], ex_st1); (ex_call "t1" ["admin"], ex_start)] ex_st2.
Proof.
  eapply (reached_call _ _ _ _ _ _ _ _ _ _ _ ex_st1 (ex_call "t2" ["admin"])); [|done].
  eapply (reached_call _ _ _ _ _ _ _ _ _ _ _ ex_start (ex_call "t1" ["admin"])); [|done]. by apply reached_start.
Qed.

Lemma pep_allow_earned_witness :
  ∃ auth st1, vouched ex_realms ex_world ex_st2 st1 (Some "Bearer t3") (ex_request []) auth.
Proof.
  destruct (verdict_allow (ex_check "t3" [] ex_st2).1) as (r & Hr & Ha); [vm_compute; reflexivity|].
  destruct (pep_allow_earned Risk.flat_trig OAuth.ex_bytes ex_to_vec ex_from_slice ex_to_value ex_from_value (fun _ => Ok ex_bundle)
    ex_max ex_realms ex_world ex_round_trip ex_text_round_trip _ ex_st2 (Some "Bearer t3") (ex_request []) r
    (ex_check "t3" [] ex_st2).2 ex_reached) as (auth & st1 & Hv & _).
  - rewrite <- Hr. apply surjective_pairing.
  - exact Ha.
  - by exists auth, st1.
Defined.

(** An answer from the cache carries out what the policy decided of the earlier request. *)
Lemma pep_answer_enforceable_witness :
  ∃ r, (ex_check "t3" [] ex_st2).1 = Some (Decided r) ∧
    ∃ auth st1, vouched ex_realms ex_world ex_st2 st1 (Some "Bearer t3") (ex_request []) auth.
Proof.
  destruct (verdict_allow (ex_check "t3" [] ex_st2).1) as (r & Hr & Ha); [vm_compute; reflexivity|]. exists r. split; [exact Hr|].
  destruct (proj1 (pep_answer_enforceable Risk.flat_trig OAuth.ex_bytes ex_to_vec ex_from_slice ex_to_value ex_from_value
    (fun _ => Ok ex_bundle) ex_max ex_realms ex_world ex_round_trip ex_text_round_trip _ ex_st2 (Some "Bearer t3") (ex_request [])
    ex_reached) r Hr) as (auth & st1 & Hv & _).
  by exists auth, st1.
Defined.

End Pep.
