(* ===== verification/PushFactor.v ===== *)
(** The push second factor: its operations (src/qid-session/src/push.rs), the device's proofs
    (src/qid-mfa/src/push.rs), the routes that complete a password login with it
    (src/qid-session/src/api/push.rs) and the enrollment of devices (api/push_enrollment.rs), over
    the push tables (Push.v), the account store (Accounts.v) and sessions (Login.v).

    The state is the one every interactive route works on; Authorize.v uses it as well.  A [World]
    gives every reading of the clock, every random byte, every outcome of a write, every delivery
    slot and every answer of the notification provider, indexed by a counter in the state.  CBOR,
    ECDSA, SHA-256, base64, JSON text and URL parsing are parameters. *)

From S2P Require Import Prelude Utf8 Json Request RateLimit Push Tokens Cluster Accounts Continuation Login.
Import Accounts Request.

(** The crates [ciborium] and [p256], as the verification of a proof uses them. *)
Inductive Cbor : Type :=
| CText (s : string)
| CBytes (b : list N)
| CInteger (z : Z)
| CArray (items : list Cbor)
| CMap (entries : list (Cbor * Cbor))
| COther.

Class PushCrypto : Type := {
  VerifyingKey : Type;
  Signature : Type;
  cbor_write : Cbor → option (list N);
  cbor_read : list N → option (Cbor * list N);
  from_sec1_bytes : list N → option VerifyingKey;
  signature_from_slice : list N → option Signature;
  key_verify : VerifyingKey → list N → Signature → bool;
  sha256_digest : string → list N;
  base64url_encode : list N → string;
  base64url_decode : string → option (list N)
}.

Module PushFactor.

(** * Configuration and state *)

(** [PushConfig] of src/qid-core/src/config/auth.rs. *)
Record PushConfig : Type := {
  enabled : bool; ttl_seconds : N; pc_max_attempts : N; max_issuances_per_window : N; issuance_window_seconds : N;
  resend_cooldown_seconds : N; recent_reauth_seconds : N; max_destination_bytes : N; max_proof_bytes : N
}.

(** What the interactive routes read of [RuntimeRealm]. *)
Record RuntimeRealm : Type := {
  rr_login : Login.RuntimeRealm; rr_push : PushConfig; rr_issuer : string; pkce_required : bool;
  auth_code_ttl_seconds : N; oidc_default_scope : string; passkeys_enabled : bool; passkeys_preferred : bool;
  email_magic_link_enabled : bool
}.

Record Url : Type := {
  scheme : string; host_str : option string; username : string; url_password : option string;
  query : option string; fragment : option string
}.

Record NotificationConfig : Type := { provider : string; timeout_seconds : N }.

(** The parts of [SharedState] these routes read; [has_transport] tells whether a notification
    transport is installed. *)
Record SharedState : Type := {
  plan_realms : list RuntimeRealm; server_public_base_url : string; notification : option NotificationConfig;
  has_transport : bool
}.

Section PushFactor.
Context {Num : Type} `{JsonNumber Num}.
Abbreviation J := (Value Num).
Abbreviation Store := (Accounts.Store (J := J)).

Record NotificationRequest : Type := {
  nr_provider : string; recipient : string; nr_subject : option string; nr_body : string; data_json : J
}.

Record World : Type := {
  w_now : nat → N; w_ulid : nat → string; w_random : nat → nat → list N; w_saved : nat → QidResult unit;
  w_slot : nat → bool; w_sent : nat → NotificationRequest → bool
}.

Record St : Type := {
  store : Store; budget : RateLimit.FailureBudget.Budget; limiter : RateLimit.RateLimiter; tick : nat
}.

Context `{PushCrypto} `{CT : ConstantTimeEq}.
Context (state : SharedState) (W : World) (url_parse : string → option Url) (json_write : J → string).

Definition tick_by (n : nat) (st : St) : St :=
  {| store := store st; budget := budget st; limiter := limiter st; tick := (tick st + n)%nat |}.
Definition put_store (s : Store) (st : St) : St :=
  {| store := s; budget := budget st; limiter := limiter st; tick := tick st |}.

Definition now_seconds : M St N := fun st => (Ok (w_now W (tick st)), tick_by 1 st).
Definition random_bytes (n : nat) : M St (list N) := fun st => (Ok (w_random W (tick st) n), tick_by 1 st).
Definition read {A} (f : Store → A) : M St A := fun st => (Ok (f (store st)), st).
Definition require {A} (o : option A) (e : QidError) : M St A := of_result (ok_or o e).
Definition guard (b : bool) (e : QidError) : M St unit := if b then throw e else ret tt.

(** A write of the repository, with the outcome of its save. *)
Definition write {A} (f : QidResult unit → Store → QidResult A * Store) : M St A :=
  fun st => let '(r, s) := f (w_saved W (tick st)) (store st) in (r, tick_by 1 (put_store s st)).

Definition set_push (s : Store) (p : Push.PushStore) : Store :=
  {| push := p; tokens := tokens s; realm_issuers := realm_issuers s; realm_tenants := realm_tenants s;
     users := users s; credentials_password := credentials_password s; clients := clients s; sessions := sessions s;
     webauthn_credentials := webauthn_credentials s; totp_credentials := totp_credentials s;
     devices := devices s; ciam := ciam s; realm_tables := realm_tables s; hr_receipts := hr_receipts s;
     ssf_set_replay := ssf_set_replay s; oidc_continuations := oidc_continuations s |}.

(** The store as the push operations see it. *)
Definition push_view (s : Store) : Push.Store := {| Push.users := u_realm_id <$> users s; Push.push := push s |}.

Definition push_write {A} (f : QidResult unit → Push.Store → QidResult A * Push.Store) : M St A :=
  write (fun saved s => let '(r, p) := f saved (push_view s) in (r, set_push s (Push.push p))).
Definition push_read {A} (f : Push.Store → QidResult A) : M St A :=
  let! r := read (fun s => f (push_view s)) in of_result r.

(** A part of the password routes, on the store, the budget and the limiter; [saved] and the clock
    are read from the world. *)
Definition login_call {A} (m : (nat → QidResult unit) → (nat → N) → Login.M (J := J) A) : M St A :=
  fun st =>
    let '(r, s) := m (fun i => w_saved W (tick st + i)%nat) (fun i => w_now W (tick st + i)%nat)
                     {| Login.store := store st; Login.budget := budget st; Login.limiter := limiter st |} in
    (r, {| store := Login.store s; budget := Login.budget s; limiter := Login.limiter s; tick := (tick st + 8)%nat |}).

(** [SharedState::realm] and [require_realm]. *)
Definition find_realm (rid : string) : option RuntimeRealm :=
  List.find (fun r => String.eqb (Login.realm_id (rr_login r)) rid) (plan_realms state).
Definition require_realm (rid : string) : QidResult RuntimeRealm :=
  ok_or (find_realm rid) (NotFound ("realm " +:+ rid)).

Definition sha256_hex (s : string) : string := Cluster.hex_encode_lower (sha256_digest s).

(** Bytes compared as text. *)
Definition text_of (b : list N) : string := String.string_of_list_ascii (map Ascii.ascii_of_N b).

Definition len (s : string) : N := N.of_nat (String.length s).

(** * The device's proofs (src/qid-mfa/src/push.rs) *)

Definition MAX_PROOF_BYTES : N := 8192.

Definition invalid_proof : QidError := BadRequest "invalid push proof".

(** The coordinates of a key, 43 characters that encode 32 bytes canonically. *)
Definition coordinate (value : string) : QidResult (list N) :=
  if negb (len value =? 43) then Err invalid_proof
  else
    let? decoded := ok_or (base64url_decode value) invalid_proof in
    if negb (length decoded =? 32)%nat || negb (String.eqb (base64url_encode decoded) value) then Err invalid_proof
    else Ok decoded.

Definition validate_public_key (jwk : Push.PushPublicJwk) : QidResult VerifyingKey :=
  match jwk with
  | Push.EC crv x y =>
      if negb (String.eqb crv "P-256") then Err invalid_proof
      else
        let? xs := coordinate x in
        let? ys := coordinate y in
        ok_or (from_sec1_bytes (4 :: xs ++ ys)) invalid_proof
  | _ => Err invalid_proof
  end.

Definition cbor_encode (value : Cbor) : QidResult (list N) := ok_or (cbor_write value) invalid_proof.

Definition cbor_decode (bytes : list N) : QidResult Cbor :=
  match cbor_read bytes with
  | Some (value, []) => Ok value
  | _ => Err invalid_proof
  end.

Definition nonce_matches (nonce verifier : string) : QidResult unit :=
  if negb (len nonce =? 43) then Err invalid_proof
  else
    let? raw := ok_or (base64url_decode nonce) invalid_proof in
    if negb (length raw =? 32)%nat || negb (String.eqb (base64url_encode raw) nonce)
       || negb (constant_time_eq (sha256_hex nonce) verifier)
    then Err invalid_proof else Ok tt.

Definition bounded_ids (ids : list string) : QidResult unit :=
  if existsb (fun s => is_empty_str s || (256 <? len s)) ids then Err invalid_proof else Ok tt.

Definition registration_payload (c : Push.PushRegistrationChallenge) (nonce : string) : QidResult (list N) :=
  let a := Push.authenticator c in
  bounded_ids [Push.a_realm_id a; Push.a_user_id a; Push.a_id a] ?;
  if is_empty_str (Push.destination a) || (4096 <? len (Push.destination a)) then Err invalid_proof
  else
    nonce_matches nonce (Push.r_nonce_verifier c) ?;
    cbor_encode (CArray (map CText
      ["qid.push.registration.v1"; Push.a_realm_id a; Push.a_user_id a; "registration"; Push.a_id a; Push.a_id a; nonce;
       sha256_hex (Push.destination a)])).

Definition decision_text (d : Push.PushDecision) : string :=
  match d with Push.Approve => "approve" | Push.Deny => "deny" end.

Definition login_payload (c : Push.PushLoginChallenge) (nonce : string) (d : Push.PushDecision) : QidResult (list N) :=
  bounded_ids [Push.realm_id c; Push.user_id c; Push.authenticator_id c; Push.id c] ?;
  nonce_matches nonce (Push.nonce_verifier c) ?;
  cbor_encode (CArray (map CText
    ["qid.push.login.v1"; Push.realm_id c; Push.user_id c; Push.login_purpose_str (Push.purpose c);
     Push.authenticator_id c; Push.id c; nonce; decision_text d])).

(** [verify]: an untagged COSE_Sign1 with the one protected header [1: -7]. *)
Definition verify (jwk : Push.PushPublicJwk) (expected proof : list N) : QidResult unit :=
  if (length proof =? 0)%nat || (MAX_PROOF_BYTES <? N.of_nat (length proof)) then Err invalid_proof
  else
    let? value := cbor_decode proof in
    match value with
    | CArray [CBytes protected; CMap unprotected; CBytes payload; CBytes signature] =>
        let? headers := cbor_decode protected in
        match headers with
        | CMap entries =>
            match entries, unprotected with
            | [(CInteger 1, CInteger (-7))], [] =>
                if negb (constant_time_eq (text_of payload) (text_of expected)) then Err invalid_proof
                else
                  let? signed := cbor_encode (CArray [CText "Signature1"; CBytes protected; CBytes []; CBytes payload]) in
                  let? sig := ok_or (signature_from_slice signature) invalid_proof in
                  let? key := validate_public_key jwk in
                  if key_verify key signed sig then Ok tt else Err invalid_proof
            | _, _ => Err invalid_proof
            end
        | _ => Err invalid_proof
        end
    | _ => Err invalid_proof
    end.

Definition verify_registration (c : Push.PushRegistrationChallenge) (nonce : string) (proof : list N) : QidResult unit :=
  let? payload := registration_payload c nonce in
  verify (Push.public_jwk (Push.authenticator c)) payload proof.

Definition verify_login (c : Push.PushLoginChallenge) (a : Push.PushAuthenticator) (nonce : string)
    (d : Push.PushDecision) (proof : list N) : QidResult unit :=
  if negb (String.eqb (Push.a_realm_id a) (Push.realm_id c)) || negb (String.eqb (Push.a_user_id a) (Push.user_id c))
     || negb (String.eqb (Push.a_id a) (Push.authenticator_id c)) || Push.is_some (Push.revoked_at a)
  then Err invalid_proof
  else
    let? payload := login_payload c nonce d in
    verify (Push.public_jwk a) payload proof.

(** * The factor (src/qid-session/src/push.rs) *)

Definition invalid : QidError := Unauthorized "push authentication is not available".

Definition secret : M St string := let! bytes := random_bytes 32 in ret (base64url_encode bytes).

Definition secure_base (url : Url) : bool :=
  String.eqb (scheme url) "https" && Push.is_some (host_str url) && is_empty_str (username url)
  && Push.is_none (url_password url) && Push.is_none (query url) && Push.is_none (fragment url).

Definition available (rid : string) : QidResult RuntimeRealm :=
  let? realm := require_realm rid in
  if negb (enabled (rr_push realm)) || negb (Login.accepts_password_authentication (rr_login realm))
     || negb (match url_parse (server_public_base_url state) with Some url => secure_base url | None => false end)
     || Push.is_none (notification state) || negb (has_transport state)
  then Err invalid else Ok realm.

(** [u32::from_be_bytes] of the first four bytes of a digest, [{:06}] of its remainder. *)
Definition first_u32 (digest : list N) : N := foldl (fun n b => n * 256 + b) 0 (take 4 digest).

Definition pad6 (n : N) : string :=
  let s := pretty n in Nat.iter (6 - String.length s) (String.append "0") s.

Definition transaction_number (c : Push.PushLoginChallenge) : string :=
  pad6 (first_u32 (sha256_digest (Push.id c)) mod 1000000).

Definition num (n : N) : J := VNumber (num_from_u64 n).

Definition notification_request (c : Push.PushLoginChallenge) (nonce recipient_ provider_ : string) : NotificationRequest :=
  {| nr_provider := provider_; recipient := recipient_; nr_subject := Some "Approve sign-in";
     nr_body := "Compare the transaction number with your browser before approving on your registered device.";
     data_json := VObject [("authenticator_id", VString (Push.authenticator_id c)); ("challenge_id", VString (Push.id c));
                           ("expires_at", num (Push.expires_at c)); ("nonce", VString nonce);
                           ("purpose", VString "password_login"); ("realm_id", VString (Push.realm_id c));
                           ("transaction_number", VString (transaction_number c)); ("user_id", VString (Push.user_id c))] |}.

Record PendingDelivery : Type := { pd_challenge : Push.PushLoginChallenge; delivery : NotificationRequest }.

(** [notification_delivery_slots.try_acquire_owned()] *)
Definition acquire_slot : M St unit :=
  fun st => (if w_slot W (tick st) then Ok tt else Err invalid, tick_by 1 st).

Definition prepare (rid uid browser_binding_verifier : string) : M St PendingDelivery :=
  let! realm := of_result (available rid) in
  let policy := rr_push realm in
  let! note := require (notification state) invalid in
  let! _ := acquire_slot in
  let! rows := push_read (fun s => Push.list_push_authenticators s rid uid) in
  let! a := require (List.find (fun a => Push.is_none (Push.revoked_at a)) rows) invalid in
  let! _ := guard (is_empty_str (Push.destination a) || (max_destination_bytes policy <? len (Push.destination a))) invalid in
  let! now := now_seconds in
  let! nonce := secret in
  let! cid := secret in
  let c := {| Push.id := cid; Push.realm_id := rid; Push.user_id := uid; Push.authenticator_id := Push.a_id a;
              Push.purpose := Push.PasswordLogin; Push.nonce_verifier := sha256_hex nonce;
              Push.browser_binding_verifier := browser_binding_verifier; Push.resend_admitted_at := [];
              Push.created_at := now; Push.expires_at := add64 now (ttl_seconds policy);
              Push.max_attempts := pc_max_attempts policy; Push.attempt_count := 0; Push.decision := None;
              Push.decided_at := None; Push.consumed_at := None |} in
  let! sample := now_seconds in
  let! admitted := push_write (fun saved => Push.issue_push_login saved c (max_issuances_per_window policy)
                                              (issuance_window_seconds policy) sample) in
  let! _ := guard (negb admitted) invalid in
  ret {| pd_challenge := c; delivery := notification_request c nonce (Push.destination a) (provider note) |}.

(** The provider's answer to a request, [false] for an error and for a timeout as well. *)
Definition sent (d : NotificationRequest) : M St bool := fun st => (Ok (w_sent W (tick st) d), tick_by 1 st).

Definition send (p : PendingDelivery) : M St Push.PushLoginChallenge :=
  let! _ := require (notification state) invalid in
  let! _ := guard (negb (has_transport state)) invalid in
  let! ok := sent (delivery p) in
  let! _ := guard (negb ok) invalid in
  ret (pd_challenge p).

Record DecisionRequest : Type := {
  dr_realm_id : string; dr_user_id : string; dr_challenge_id : string; dr_nonce : string;
  dr_decision : Push.PushDecision; dr_proof : string
}.

(** The decoded proof, when its text is short enough to be one. *)
Definition bounded_proof (policy : PushConfig) (text : string) : option (list N) :=
  if len text <=? (max_proof_bytes policy + 2) / 3 * 4 then base64url_decode text else None.

Definition proof_accepted (policy : PushConfig) (text : string) (check : list N → QidResult unit) : bool :=
  match bounded_proof policy text with
  | Some proof => (N.of_nat (length proof) <=? max_proof_bytes policy) && is_ok (check proof)
  | None => false
  end.

Definition record_decision (req : DecisionRequest) : M St unit :=
  let! realm := of_result (available (dr_realm_id req)) in
  let policy := rr_push realm in
  let! found := push_read (fun s => Push.get_push_login s (dr_realm_id req) (dr_user_id req) (dr_challenge_id req)) in
  let! c := require found invalid in
  let! device := push_read (fun s => Push.get_push_authenticator s (dr_realm_id req) (dr_user_id req) (Push.authenticator_id c)) in
  let! a := require device invalid in
  let verified := proof_accepted policy (dr_proof req) (verify_login c a (dr_nonce req) (dr_decision req)) in
  let! now := now_seconds in
  let! accepted := push_write (fun saved => Push.attempt_push_login saved c
                                              (if verified then Some (dr_decision req) else None) now) in
  guard (negb accepted || negb verified) invalid.

Definition record_decision_in_realm (realm : string) (req : DecisionRequest) : M St unit :=
  if negb (String.eqb (dr_realm_id req) realm) then throw invalid else record_decision req.

Definition complete_password (c : Push.PushLoginChallenge) (browser_verifier : string) : M St Login.AuthResult :=
  let! _ := of_result (available (Push.realm_id c)) in
  let! found := read (get_user_by_id (Push.user_id c)) in
  let! user := require (Tokens.opt_filter (fun u => String.eqb (u_realm_id u) (Push.realm_id c)) found) invalid in
  let! now := now_seconds in
  let! redeemed := push_write (fun saved => Push.redeem_push_login saved c browser_verifier now) in
  let! _ := guard (negb redeemed) invalid in
  ret {| Login.user := user; Login.acr := "urn:qid:acr:password"; Login.amr := ["pwd"; "push"]; Login.session_id := None |}.

Definition resend (rid uid cid browser_verifier : string) : M St Push.PushLoginChallenge :=
  let! realm := of_result (available rid) in
  let policy := rr_push realm in
  let! note := require (notification state) invalid in
  let! _ := acquire_slot in
  let! found := push_read (fun s => Push.get_push_login s rid uid cid) in
  let! c := require found invalid in
  let! _ := guard (negb (constant_time_eq (Push.browser_binding_verifier c) browser_verifier)) invalid in
  let! device := push_read (fun s => Push.get_push_authenticator s rid uid (Push.authenticator_id c)) in
  let! a := require device invalid in
  let! _ := guard (is_empty_str (Push.destination a) || (max_destination_bytes policy <? len (Push.destination a))) invalid in
  let! nonce := secret in
  let! sample := now_seconds in
  let! again := push_write (fun saved => Push.resend_push_login saved c browser_verifier (sha256_hex nonce)
                              (max_issuances_per_window policy) (issuance_window_seconds policy)
                              (resend_cooldown_seconds policy) sample) in
  let! challenge := require again invalid in
  send {| pd_challenge := challenge;
          delivery := notification_request challenge nonce (Push.destination a) (provider note) |}.

(** * The direct login (src/qid-session/src/api/push.rs) *)

Definition COOKIE : string := "__Host-qid-password-push".

Definition direct_verifier (binding : string) : string := sha256_hex ("qid:session:password-push:v1:" +:+ binding).

(** No realm keeps its sessions in the cookie of a pending login. *)
Definition cookie_free (name : string) : bool :=
  negb (existsb (fun r => String.eqb (Login.cookie_name (Login.browser_session (rr_login r))) name) (plan_realms state)).

Definition check_cookie : QidResult unit := if cookie_free COOKIE then Ok tt else Err invalid.

(** A binding as it was drawn: 43 characters that decode to 32 bytes. *)
Definition well_formed_binding (v : string) : bool :=
  (len v =? 43) && match base64url_decode v with Some b => (length b =? 32)%nat | None => false end.

Definition cookie_binding (cookie_header : option string) (name : string) : QidResult string :=
  ok_or (Tokens.opt_filter well_formed_binding (Login.extract_cookie cookie_header name)) invalid.

(** [u64] subtraction of a release build. *)
Definition sub64 (a b : N) : N := (a + 18446744073709551616 - b) mod 18446744073709551616.

Definition binding_cookie (name binding : string) (c : Push.PushLoginChallenge) : QidResult string :=
  map_err (fun _ => invalid)
    (Login.header_value (name +:+ "=" +:+ binding +:+ "; HttpOnly; Secure; SameSite=Strict; Path=/; Max-Age="
                         +:+ pretty (sub64 (Push.expires_at c) (Push.created_at c)))).

(** The reply to a password that still needs its device: the challenge and the cookie that binds
    the browser. *)
Record PushReply : Type := { reply_challenge : Push.PushLoginChallenge; reply_number : string; reply_cookie : string }.

Definition start (auth : Login.AuthResult) : M St PushReply :=
  let! _ := of_result check_cookie in
  let! binding := secret in
  let! pending := prepare (u_realm_id (Login.user auth)) (u_id (Login.user auth)) (direct_verifier binding) in
  let! challenge := send pending in
  let! cookie := of_result (binding_cookie COOKIE binding challenge) in
  ret {| reply_challenge := challenge; reply_number := transaction_number challenge; reply_cookie := cookie |}.

Record CompleteRequest : Type := { cr_user_id : string; cr_challenge_id : string }.

Definition plan_login : list Login.RuntimeRealm := map rr_login (plan_realms state).

Definition establish_session (realm : string) (cookie_header : option string) (auth : Login.AuthResult)
    : M St (string * Session (J := J)) :=
  let! bytes := random_bytes 32 in
  login_call (fun saved now => Login.establish_session plan_login saved bytes (now 0%nat) realm cookie_header auth).

Definition finish (realm : string) (cookie_header : option string) (req : CompleteRequest)
    : M St (string * Session (J := J)) :=
  let! _ := of_result check_cookie in
  let! _ := of_result (available realm) in
  let! binding := of_result (cookie_binding cookie_header COOKIE) in
  let! found := push_read (fun s => Push.get_push_login s realm (cr_user_id req) (cr_challenge_id req)) in
  let! challenge := require found invalid in
  let! auth := complete_password challenge (direct_verifier binding) in
  establish_session realm cookie_header auth.

Definition resend_bound (realm : string) (cookie_header : option string) (req : CompleteRequest)
    : M St Push.PushLoginChallenge :=
  let! _ := of_result check_cookie in
  let! binding := of_result (cookie_binding cookie_header COOKIE) in
  resend realm (cr_user_id req) (cr_challenge_id req) (direct_verifier binding).

(** * Enrollment (src/qid-session/src/api/push_enrollment.rs) *)

Definition owner_session (realm : string) (cookie_header : option string) : M St (Session (J := J)) :=
  let! now := now_seconds in
  let! loaded := read (Login.load_browser_session plan_login realm cookie_header now) in
  let! ctx := of_result (map_err (fun _ => invalid) loaded) in
  let x := Login.ctx_session ctx in
  let! found := read (get_user_by_id (s_user_id x)) in
  let! _ := require (Tokens.opt_filter (fun u => String.eqb (u_realm_id u) realm) found) invalid in
  ret x.

(** The account holds a second factor, and the session was opened with it after it was added. *)
Definition stronger_method (x : Session (J := J)) (totp : option TotpCredential) (passkeys : list WebAuthnCredential) : bool :=
  match totp with Some c => (t_created_at c <=? auth_time x) && str_in "totp" (s_amr x) | None => false end
  || existsb (fun c => (wa_created_at c <=? auth_time x) && str_in "webauthn" (s_amr x)) passkeys.

Definition bootstrap_method (realm : string) (x : Session (J := J)) (user : User) (totp : option TotpCredential)
    (passkeys : list WebAuthnCredential) : bool :=
  let no_stronger_factor := Push.is_none totp && match passkeys with [] => true | _ => false end in
  (str_in "pwd" (s_amr x) && no_stronger_factor)
  || (str_in "email" (s_amr x) && no_stronger_factor && email_verified user
      && match find_realm realm with Some r => email_magic_link_enabled r | None => false end).

Definition recent_session (realm : string) (cookie_header : option string) : M St (Session (J := J)) :=
  let! config := of_result (require_realm realm) in
  let! x := owner_session realm cookie_header in
  let! found := read (get_user_by_id (s_user_id x)) in
  let! user := require (Tokens.opt_filter (fun u => String.eqb (u_realm_id u) realm) found) invalid in
  let! now := now_seconds in
  let! _ := guard ((now <? auth_time x) || (recent_reauth_seconds (rr_push config) <? now - auth_time x)) invalid in
  let! stored := read (get_totp_credential (s_user_id x)) in
  let totp := Tokens.opt_filter t_enabled stored in
  let! keys := read (get_webauthn_credentials (s_user_id x)) in
  let! passkeys := of_result keys in
  let! allowed := if stronger_method x totp passkeys then ret true
                  else if bootstrap_method realm x user totp passkeys
                  then let! r := read (fun s => Login.push_factor_satisfied s realm (s_user_id x) (s_amr x)) in of_result r
                  else ret false in
  let! _ := guard (negb allowed) invalid in
  ret x.

Definition DOT : Ascii.ascii := Ascii.ascii_of_N 46.

Definition bound_id (prefix : string) (x : Session (J := J)) : string :=
  prefix +:+ "." +:+ sha256_hex (json_write (VArray (map VString
    ["qid:push:registration:session:v1"; prefix; s_realm_id x; s_user_id x; s_id x]))).

Definition same_session (rid : string) (x : Session (J := J)) : bool :=
  match split_once DOT rid with
  | Some (prefix, _) => (len prefix =? 43) && (len rid =? 108) && constant_time_eq rid (bound_id prefix x)
  | None => false
  end.

(** What the list of devices shows: identifier, name, platform, time and whether it is active. *)
Definition list_devices (realm : string) (cookie_header : option string) : M St (list (string * string * string * N * bool)) :=
  let! x := owner_session realm cookie_header in
  let! rows := push_read (fun s => Push.list_push_authenticators s realm (s_user_id x)) in
  ret (map (fun a => (Push.a_id a, Push.device_name a, Push.device_platform a, Push.a_created_at a,
                      Push.is_none (Push.revoked_at a))) rows).

Record StartRequest : Type := {
  sr_destination : string; sr_device_name : string; sr_device_platform : string; sr_public_jwk : Push.PushPublicJwk
}.

Definition registration_notification (realm : string) (c : Push.PushRegistrationChallenge) (nonce provider_ : string)
    : NotificationRequest :=
  let a := Push.authenticator c in
  {| nr_provider := provider_; recipient := Push.destination a; nr_subject := Some "Register sign-in device";
     nr_body := "Confirm this device for push sign-in.";
     data_json := VObject [("expires_at", num (Push.r_expires_at c)); ("nonce", VString nonce);
                           ("purpose", VString "registration"); ("realm_id", VString realm);
                           ("registration_id", VString (Push.a_id a)); ("user_id", VString (Push.a_user_id a))] |}.

(** [start_inner]: the identifier and the deadline of the registration. *)
Definition enroll_start (realm : string) (cookie_header : option string) (req : StartRequest) : M St (string * N) :=
  let! x := recent_session realm cookie_header in
  let! config := of_result (available realm) in
  let policy := rr_push config in
  let! _ := guard (Utf8.blank (sr_destination req) || (max_destination_bytes policy <? len (sr_destination req))
                   || existsb Utf8.is_control (Utf8.chars (sr_destination req))
                   || negb (Push.valid_push_device_metadata (sr_device_name req))
                   || negb (Push.valid_push_device_metadata (sr_device_platform req))) invalid in
  let! _ := of_result (validate_public_key (sr_public_jwk req)) in
  let! _ := acquire_slot in
  let! now := now_seconds in
  let! nonce := secret in
  let! prefix := secret in
  let a := {| Push.a_id := bound_id prefix x; Push.a_realm_id := realm; Push.a_user_id := s_user_id x;
              Push.destination := sr_destination req; Push.device_name := sr_device_name req;
              Push.device_platform := sr_device_platform req; Push.public_jwk := sr_public_jwk req;
              Push.a_created_at := now; Push.revoked_at := None |} in
  let c := {| Push.authenticator := a; Push.r_nonce_verifier := sha256_hex nonce;
              Push.r_expires_at := add64 now (ttl_seconds policy); Push.r_max_attempts := pc_max_attempts policy;
              Push.r_attempt_count := 0 |} in
  let! sample := now_seconds in
  let! admitted := push_write (fun saved => Push.issue_push_registration saved c (max_issuances_per_window policy)
                                              (issuance_window_seconds policy) sample) in
  let! _ := guard (negb admitted) invalid in
  let! note := require (notification state) invalid in
  let! _ := guard (negb (has_transport state)) invalid in
  let! ok := sent (registration_notification realm c nonce (provider note)) in
  let! _ := guard (negb ok) invalid in
  ret (Push.a_id a, Push.r_expires_at c).

Record FinishRequest : Type := { fr_registration_id : string; fr_nonce : string; fr_proof : string }.

Definition enroll_finish (realm : string) (cookie_header : option string) (req : FinishRequest) : M St unit :=
  let! x := recent_session realm cookie_header in
  let! _ := guard (negb (same_session (fr_registration_id req) x)) invalid in
  let! found := push_read (fun s => Push.get_push_registration s realm (s_user_id x) (fr_registration_id req)) in
  let! c := require found invalid in
  let! config := of_result (available realm) in
  let policy := rr_push config in
  let verified := (len (fr_nonce req) =? 43)
                  && proof_accepted policy (fr_proof req) (verify_registration c (fr_nonce req)) in
  let! now := now_seconds in
  let! accepted := push_write (fun saved => Push.attempt_push_registration saved c verified now) in
  guard (negb accepted || negb verified) invalid.

Definition enroll_revoke (realm : string) (cookie_header : option string) (aid : string) : M St unit :=
  let! x := recent_session realm cookie_header in
  let! _ := guard (is_empty_str aid || (256 <? len aid)) invalid in
  let! now := now_seconds in
  let! revoked := push_write (fun saved => Push.revoke_push_authenticator saved realm (s_user_id x) aid now) in
  guard (negb revoked) invalid.

(** * Requests *)

Inductive Req : Type :=
| Start (auth : Login.AuthResult)
| Decision (realm : option string) (req : DecisionRequest)
| Complete (realm : string) (cookie : option string) (req : CompleteRequest)
| Resend (realm : string) (cookie : option string) (req : CompleteRequest)
| EnrollStart (realm : string) (cookie : option string) (req : StartRequest)
| EnrollFinish (realm : string) (cookie : option string) (req : FinishRequest)
| EnrollRevoke (realm : string) (cookie : option string) (aid : string).

(** The state a request leaves, whatever its reply. *)
Definition serve (r : Req) (st : St) : St :=
  match r with
  | Start auth => (start auth st).2
  | Decision (Some realm) req => (record_decision_in_realm realm req st).2
  | Decision None req => (record_decision req st).2
  | Complete realm cookie req => (finish realm cookie req st).2
  | Resend realm cookie req => (resend_bound realm cookie req st).2
  | EnrollStart realm cookie req => (enroll_start realm cookie req st).2
  | EnrollFinish realm cookie req => (enroll_finish realm cookie req st).2
  | EnrollRevoke realm cookie aid => (enroll_revoke realm cookie aid st).2
  end.

(** * Lemmas: what a step leaves *)

Create HintDb quiet.

Abbreviation logins st := (Push.logins (push (store st))).
Abbreviation enrolled_at st := (Push.authenticators (push (store st))).

(** A part of a request that reads: only the counter of the world moves. *)
Definition quiet (st st' : St) : Prop := ∃ n, st' = tick_by n st.

Lemma tick_by_add n m st : tick_by n (tick_by m st) = tick_by (m + n) st.
Proof. unfold tick_by. cbn. by rewrite Nat.add_assoc. Qed.
#[export] Instance quiet_po : PreOrder quiet.
Proof.
  split; [intros [s b l t]; exists 0%nat; unfold tick_by; cbn; by rewrite Nat.add_0_r|].
  intros a b c [n ->] [m ->]. exists (n + m)%nat. apply tick_by_add.
Qed.
Lemma quiet_tick n st : quiet st (tick_by n st).
Proof. by exists n. Qed.
Lemma quiet_store st st' : quiet st st' → store st' = store st.
Proof. by intros [n ->]. Qed.

Abbreviation quietly m := (preserves quiet m).

Lemma quietly_now : quietly now_seconds.
Proof. intros st. apply quiet_tick. Qed.
Lemma quietly_random n : quietly (random_bytes n).
Proof. intros st. apply quiet_tick. Qed.
Lemma quietly_read {A} (f : Store → A) : quietly (read f).
Proof. intros st. cbn. reflexivity. Qed.
Lemma quietly_require {A} (o : option A) e : quietly (require o e).
Proof. intros st. cbn. reflexivity. Qed.
Lemma quietly_guard b e : quietly (guard b e).
Proof. unfold guard. destruct b; intros st; cbn; reflexivity. Qed.
Lemma quietly_slot : quietly acquire_slot.
Proof. intros st. apply quiet_tick. Qed.
Lemma quietly_sent d : quietly (sent d).
Proof. intros st. apply quiet_tick. Qed.
#[local] Hint Resolve quietly_now quietly_random quietly_read quietly_require quietly_guard quietly_slot quietly_sent
  preserves_ret preserves_throw preserves_of_result quiet_po : quiet.
(** Decomposes a computation along its binds. *)
Ltac hush :=
  repeat first
    [ solve [eauto 3 with quiet]
    | progress intros
    | progress cbv zeta
    | apply preserves_bind; [exact quiet_po|..]
    | match goal with
      | |- preserves _ (match ?x with _ => _ end) => destruct x
      end ].

Lemma quietly_push_read {A} (f : Push.Store → QidResult A) : quietly (push_read f).
Proof. unfold push_read. hush. Qed.
#[local] Hint Resolve quietly_push_read : quiet.
Lemma quietly_secret : quietly secret.
Proof. unfold secret. hush. Qed.
Lemma quietly_send p : quietly (send p).
Proof. unfold send. hush. Qed.
Lemma quietly_owner realm hdr : quietly (owner_session realm hdr).
Proof. unfold owner_session. hush. Qed.
#[local] Hint Resolve quietly_secret quietly_send quietly_owner : quiet.
Lemma quietly_recent realm hdr : quietly (recent_session realm hdr).
Proof. unfold recent_session. hush. Qed.
#[local] Hint Resolve quietly_recent : quiet.

(** ** Inversion of the primitives *)

Lemma quiet_ok {A} (m : M St A) st r st' : quietly m → m st = (r, st') → quiet st st'.
Proof. intros Hq E. specialize (Hq st). by rewrite E in Hq. Qed.

Lemma require_yields {A} (o : option A) e st a st' : require o e st = (Ok a, st') → o = Some a ∧ st' = st.
Proof. unfold require, of_result. destruct o; [|done]. by intros [= -> ->]. Qed.
Lemma guard_yields b e st u st' : guard b e st = (Ok u, st') → b = false ∧ st' = st.
Proof. unfold guard. destruct b; [done|]. by intros [= _ ->]. Qed.
Lemma read_yields {A} (f : Store → A) st a st' : read f st = (Ok a, st') → a = f (store st) ∧ st' = st.
Proof. by intros [= <- <-]. Qed.
Lemma now_yields st a st' : now_seconds st = (Ok a, st') → a = w_now W (tick st) ∧ st' = tick_by 1 st.
Proof. by intros [= <- <-]. Qed.
Lemma push_read_inv {A} (f : Push.Store → QidResult A) st a st' :
  push_read f st = (Ok a, st') → f (push_view (store st)) = Ok a ∧ st' = st.
Proof. unfold push_read. intros (r & s1 & [-> ->]%read_yields & [Hr ->]%of_result_inv)%bind_inv. done. Qed.
Lemma push_write_inv {A} (f : QidResult unit → Push.Store → QidResult A * Push.Store) st r st' :
  push_write f st = (r, st') →
  ∃ p, f (w_saved W (tick st)) (push_view (store st)) = (r, p) ∧
       st' = tick_by 1 (put_store (set_push (store st) (Push.push p)) st).
Proof.
  unfold push_write, write. destruct (f _ _) as [r0 p]. intros [= <- <-]. by exists p.
Qed.

(** Takes a successful run of a computation apart. *)
Ltac run_inv :=
  repeat match goal with
  | H : bind _ _ _ = (Ok _, _) |- _ =>
      let a := fresh "a" in let s := fresh "s" in let E := fresh "E" in apply bind_inv in H as (a & s & E & H)
  | H : guard _ _ _ = (Ok _, _) |- _ => apply guard_yields in H as [H ->]
  | H : require _ _ _ = (Ok _, _) |- _ => apply require_yields in H as [H ->]
  | H : read _ _ = (Ok _, _) |- _ => apply read_yields in H as [-> ->]
  | H : push_read _ _ = (Ok _, _) |- _ => apply push_read_inv in H as [H ->]
  | H : now_seconds _ = (Ok _, _) |- _ => apply now_yields in H as [-> ->]
  | H : of_result _ _ = (Ok _, _) |- _ => apply of_result_inv in H as [H ->]
  | H : ret _ _ = (Ok _, _) |- _ => unfold ret in H; injection H as <- <-
  end.

(** ** What happens to the push tables

    Each request is a run of the operations of Push.v; outside of a decision none of them approves a
    challenge, and outside of the end of an enrollment none of them enrolls a device. *)

(** Every approval was there before. *)
Definition approvals_kept (p p' : Push.PushStore) : Prop :=
  ∀ k c', Push.logins p' !! k = Some c' → Push.decision c' = Some Push.Approve →
    ∃ c, Push.logins p !! k = Some c ∧ Push.decision c = Some Push.Approve.

(** Every device in force was there before. *)
Definition devices_kept (p p' : Push.PushStore) : Prop :=
  ∀ k a', Push.authenticators p' !! k = Some (Push.Enrolled a') → Push.revoked_at a' = None →
    ∃ a, Push.authenticators p !! k = Some (Push.Enrolled a) ∧ Push.revoked_at a = None.

Definition view_of (st : St) : Push.Store := push_view (store st).

(** [A] says whether a step may approve, [D] whether it may enroll. *)
Definition push_flow (A D : bool) (st st' : St) : Prop :=
  rtc Push.login_step (view_of st) (view_of st') ∧
  (A = false → approvals_kept (push (store st)) (push (store st'))) ∧
  (D = false → devices_kept (push (store st)) (push (store st'))).

#[export] Instance push_flow_po A D : PreOrder (push_flow A D).
Proof.
  split.
  - intros st. split_and!; [reflexivity|by intros _ k c; eauto|by intros _ k a; eauto].
  - intros a b c (H1 & A1 & D1) (H2 & A2 & D2). split_and!; [by etrans| |].
    + intros HA k c' Hc Ha. destruct (A2 HA k c' Hc Ha) as (y & Hy & Hya). by apply (A1 HA k y).
    + intros HD k a' Hc Ha. destruct (D2 HD k a' Hc Ha) as (y & Hy & Hya). by apply (D1 HD k y).
Qed.

Lemma same_push_flow A D st st' : view_of st' = view_of st → push_flow A D st st'.
Proof.
  intros Hv. assert (push (store st') = push (store st)) as Hp by by injection Hv.
  unfold push_flow. rewrite Hv, Hp. split_and!; [reflexivity|by intros _ k c; eauto|by intros _ k a; eauto].
Qed.
Lemma quiet_flow A D st st' : quiet st st' → push_flow A D st st'.
Proof. intros [n ->]. by apply same_push_flow. Qed.

(** The operations, by their step. *)
Lemma flow_write {R} (f : QidResult unit → Push.Store → QidResult R * Push.Store) (A D : bool) :
  (∀ saved s r s', f saved s = (r, s') → Push.login_step s s' ∧ Push.users s' = Push.users s ∧
     (A = false → approvals_kept (Push.push s) (Push.push s')) ∧ (D = false → devices_kept (Push.push s) (Push.push s'))) →
  preserves (push_flow A D) (push_write f).
Proof.
  intros Hf st. destruct (push_write f st) as [r st'] eqn:E. apply push_write_inv in E as (p & Ep & ->). cbn.
  destruct (Hf _ _ _ _ Ep) as (Hstep & Hu & HA & HD). split_and!; [|done..]. apply rtc_once.
  unfold view_of, push_view in *. cbn. destruct p as [us ps]. cbn in *. by subst us.
Qed.

Lemma approvals_moved p p' lid c c' :
  Push.login_moved p p' lid c c' → (Push.decision c' = Some Push.Approve → Push.decision c = Some Push.Approve) →
  approvals_kept p p'.
Proof.
  intros (Hl & _ & _ & ->) Hd k x. cbn. destruct (decide (k = lid)) as [->|Hne].
  - rewrite lookup_insert_eq. intros [= <-] Ha. eauto.
  - rewrite lookup_insert_ne by done. eauto.
Qed.

Lemma issued_undecided c : Push.validate_login c = Ok tt → Push.decision c = None.
Proof.
  unfold Push.validate_login, Push.is_some. destruct (Push.decision c); [|done]. cbn. by rewrite !orb_true_r.
Qed.

Lemma flow_issue c mx w sample : preserves (push_flow false false) (push_write (fun saved => Push.issue_push_login saved c mx w sample)).
Proof.
  apply flow_write. intros saved s r s' E. split; [by eapply Push.lstep_issue_login|].
  apply Push.issue_push_login_cases in E as [Hu [[_ Hp]|(_ & Hd%issued_undecided & _ & Hn & _ & Hp)]]; rewrite Hp;
    (split_and!; [done| |by intros _ k x; eauto]); [by intros _ k x; eauto|].
  intros _ k x. cbn. destruct (decide (k = Push.id c)) as [->|Hne].
  - rewrite lookup_insert_eq. intros [= <-]. by rewrite Hd.
  - rewrite lookup_insert_ne by done. eauto.
Qed.

Lemma flow_redeem c binding now : preserves (push_flow false false) (push_write (fun saved => Push.redeem_push_login saved c binding now)).
Proof.
  apply flow_write. intros saved s r s' E. split; [by eapply Push.lstep_redeem|].
  apply Push.redeem_push_login_cases in E as [Hu [[_ Hp]|(_ & _ & x & x' & Hr & Hm)]].
  - rewrite Hp. split_and!; [done|by intros _ k y; eauto|by intros _ k y; eauto].
  - split_and!; [done| |].
    + intros _. eapply approvals_moved; [done|]. by apply Push.redeem_true in Hr as (_ & _ & ? & _).
    + intros _. destruct Hm as (_ & _ & _ & ->). intros k y. cbn. eauto.
Qed.

Lemma flow_resend c binding nonce mx w cd sample :
  preserves (push_flow false false) (push_write (fun saved => Push.resend_push_login saved c binding nonce mx w cd sample)).
Proof.
  apply flow_write. intros saved s r s' E. split; [by eapply Push.lstep_resend|].
  apply Push.resend_push_login_cases in E as [Hu [[Hp _]|(x & x' & i & start & _ & _ & _ & _ & _ & Hr & Hl & _ & Hp)]];
    rewrite Hp; (split_and!; [done| |by intros _ k y; eauto]); [by intros _ k y; eauto|].
  intros _ k y. cbn. destruct (decide (k = Push.id c)) as [->|Hne].
  - rewrite lookup_insert_eq. intros [= <-]. unfold Push.resend in Hr. destruct (_ || _) in Hr; [done|]. injection Hr as <-. cbn. eauto.
  - rewrite lookup_insert_ne by done. eauto.
Qed.

Lemma flow_attempt c d now : d ≠ Some Push.Approve →
  preserves (push_flow false false) (push_write (fun saved => Push.attempt_push_login saved c d now)).
Proof.
  intros Hd. apply flow_write. intros saved s r s' E. split; [by eapply Push.lstep_attempt_login|].
  apply Push.attempt_push_login_cases in E as [Hu [[_ Hp]|(_ & _ & x & x' & Ha & Hm)]].
  - rewrite Hp. split_and!; [done|by intros _ k y; eauto|by intros _ k y; eauto].
  - split_and!; [done| |].
    + intros _. eapply approvals_moved; [done|]. unfold Push.login_attempt in Ha. destruct (_ || _) in Ha; [done|].
      injection Ha as <-. by destruct d as [[]|].
    + intros _. destruct Hm as (_ & _ & _ & ->). intros k y. cbn. eauto.
Qed.

Lemma flow_approve c d now : preserves (push_flow true false) (push_write (fun saved => Push.attempt_push_login saved c d now)).
Proof.
  apply flow_write. intros saved s r s' E. split; [by eapply Push.lstep_attempt_login|].
  apply Push.attempt_push_login_cases in E as [Hu [[_ Hp]|(_ & _ & x & x' & Ha & Hm)]].
  - rewrite Hp. split_and!; [done..|by intros _ k y; eauto].
  - split_and!; [done..|]. intros _. destruct Hm as (_ & _ & _ & ->). intros k y. cbn. eauto.
Qed.

Lemma flow_register c mx w sample :
  preserves (push_flow false false) (push_write (fun saved => Push.issue_push_registration saved c mx w sample)).
Proof.
  apply flow_write. intros saved s r s' E. split; [by eapply Push.lstep_issue_registration|].
  apply Push.issue_push_registration_cases in E as [Hu [[_ Hp]|(_ & _ & Hn & _ & Hp)]]; rewrite Hp;
    (split_and!; [done|by intros _ k y; eauto|]); [by intros _ k y; eauto|].
  intros _ k y. cbn. destruct (decide (k = Push.a_id (Push.authenticator c))) as [->|Hne].
  - by rewrite lookup_insert_eq.
  - rewrite lookup_insert_ne by done. eauto.
Qed.

Lemma flow_enroll c verified now :
  preserves (push_flow false verified) (push_write (fun saved => Push.attempt_push_registration saved c verified now)).
Proof.
  apply flow_write. intros saved s r s' E. split; [by eapply Push.lstep_attempt_registration|].
  apply Push.attempt_push_registration_cases in E as [Hu [[_ Hp]|(_ & row & row' & i & Hl & _ & _ & Ha & _ & Hp)]]; rewrite Hp;
    (split_and!; [done|by intros _ k y; eauto|]); [by intros _ k y; eauto|].
  intros -> k y. cbn. destruct (decide (k = Push.a_id (Push.authenticator c))) as [->|Hne].
  - rewrite lookup_insert_eq. intros [= ->]. unfold Push.registration_attempt in Ha. by repeat case_match.
  - rewrite lookup_insert_ne by done. eauto.
Qed.

Lemma flow_revoke realm uid aid now :
  preserves (push_flow false false) (push_write (fun saved => Push.revoke_push_authenticator saved realm uid aid now)).
Proof.
  apply flow_write. intros saved s r s' E. split; [by eapply Push.lstep_revoke|].
  apply Push.revoke_push_authenticator_cases in E as [Hu [[_ Hp]|(_ & a & Hl & _ & _ & _ & _ & _ & _ & Hp)]]; rewrite Hp;
    (split_and!; [done|by intros _ k y; eauto|]); [by intros _ k y; eauto|].
  intros _ k y. cbn. destruct (decide (k = aid)) as [->|Hne].
  - rewrite lookup_insert_eq. intros [= <-]. done.
  - rewrite lookup_insert_ne by done. eauto.
Qed.

Abbreviation flows A D m := (preserves (push_flow A D) m).

Lemma flow_weaken A D {R} (m : M St R) : flows false false m → flows A D m.
Proof. intros Hm st. destruct (Hm st) as (? & ? & ?). split_and!; auto. Qed.
Lemma flow_quiet A D {R} (m : M St R) : quietly m → flows A D m.
Proof. intros Hm st. apply quiet_flow, Hm. Qed.

Create HintDb flow.
#[local] Hint Resolve flow_issue flow_redeem flow_resend flow_register flow_revoke flow_enroll flow_approve : flow.
#[local] Hint Extern 2 (preserves (push_flow _ _) _) => (apply flow_quiet; solve [eauto 3 with quiet]) : flow.
Ltac flow :=
  repeat first
    [ solve [eauto 3 with flow]
    | progress intros
    | progress cbv zeta
    | apply preserves_bind; [apply push_flow_po|..]
    | match goal with
      | |- preserves _ (match ?x with _ => _ end) => destruct x
      end ].

Lemma flow_prepare rid uid v : flows false false (prepare rid uid v).
Proof. unfold prepare. flow. Qed.
#[local] Hint Resolve flow_prepare : flow.
Lemma flow_start auth : flows false false (start auth).
Proof. unfold start. flow. Qed.
Lemma flow_complete c v : flows false false (complete_password c v).
Proof. unfold complete_password. flow. Qed.
Lemma flow_resends rid uid cid v : flows false false (resend rid uid cid v).
Proof. unfold resend. flow. Qed.
#[local] Hint Resolve flow_complete flow_resends : flow.
Lemma flow_resend_bound realm hdr req : flows false false (resend_bound realm hdr req).
Proof. unfold resend_bound. flow. Qed.

(** A login on the side leaves the push tables and the realms of the users. *)
Definition login_keeps (a b : Login.St (J := J)) : Prop :=
  push_view (Login.store b) = push_view (Login.store a) ∧ tokens (Login.store b) = tokens (Login.store a) ∧
  oidc_continuations (Login.store b) = oidc_continuations (Login.store a).
#[local] Instance login_keeps_po : PreOrder login_keeps.
Proof. split; [done|]. intros a b c (H1 & H2 & H3) (H4 & H5 & H6). split_and!; congruence. Qed.

Lemma flow_login_call {R} (m : (nat → QidResult unit) → (nat → N) → Login.M (J := J) R) A D :
  (∀ saved now, preserves login_keeps (m saved now)) → flows A D (login_call m).
Proof.
  intros Hm st. apply same_push_flow. unfold login_call, view_of.
  specialize (Hm (fun i => w_saved W (tick st + i)) (fun i => w_now W (tick st + i))
                {| Login.store := store st; Login.budget := budget st; Login.limiter := limiter st |}).
  destruct (m _ _ _) as [r s]. apply Hm.
Qed.

Lemma keeps_call {R} (f : Store → QidResult R * Store) :
  (∀ s, push_view (f s).2 = push_view s ∧ tokens (f s).2 = tokens s ∧ oidc_continuations (f s).2 = oidc_continuations s) →
  preserves login_keeps (Login.call f).
Proof. intros Hf st. unfold Login.call, login_keeps. specialize (Hf (Login.store st)). by destruct (f _). Qed.

Lemma keeps_establish plan saved bytes now realm hdr auth :
  preserves login_keeps (Login.establish_session (J := J) plan saved bytes now realm hdr auth).
Proof.
  unfold Login.establish_session, Login.create_with_regeneration, Login.create.
  assert (∀ x, preserves login_keeps (Login.call (create_session (saved 5%nat) x))) as Hc.
  { intros x. apply keeps_call. intros s. unfold create_session. by destruct (sessions s !! _). }
  assert (∀ old, preserves login_keeps (Login.call (revoke_session (saved 4%nat) old (Some realm)))) as Hr.
  { intros old. apply keeps_call. intros s. unfold revoke_session. destruct (session_in _ _ _); [|done]. by destruct (s_revoked _). }
  apply preserves_bind; [exact login_keeps_po|..]; [apply preserves_of_result; exact login_keeps_po|]. intros config. cbv zeta.
  apply preserves_bind; [exact login_keeps_po|..].
  - apply preserves_bind; [exact login_keeps_po|..]; [|intros _; apply preserves_bind; [exact login_keeps_po|apply Hc|intros _; apply preserves_ret; exact login_keeps_po]].
    destruct (Login.extract_cookie _ _); [apply preserves_ignore, Hr|apply preserves_ret; exact login_keeps_po].
  - intros x. apply preserves_bind; [exact login_keeps_po|apply preserves_of_result; exact login_keeps_po|].
    intros cookie. apply preserves_ret; exact login_keeps_po.
Qed.

Lemma flow_establish realm hdr auth A D : flows A D (establish_session realm hdr auth).
Proof.
  unfold establish_session. apply preserves_bind; [apply push_flow_po|flow|]. intros bytes.
  apply flow_login_call. intros saved now. apply keeps_establish.
Qed.
#[local] Hint Resolve flow_establish : flow.
Lemma flow_finish realm hdr req : flows false false (finish realm hdr req).
Proof. unfold finish. flow. Qed.
Lemma flow_enroll_start realm hdr req : flows false false (enroll_start realm hdr req).
Proof. unfold enroll_start. flow. Qed.
Lemma flow_enroll_revoke realm hdr aid : flows false false (enroll_revoke realm hdr aid).
Proof. unfold enroll_revoke. flow. Qed.
Lemma flow_decision req : flows true false (record_decision req).
Proof. unfold record_decision. flow. Qed.
#[local] Hint Resolve flow_decision : flow.
Lemma flow_enroll_any c verified now :
  flows false true (push_write (fun saved => Push.attempt_push_registration saved c verified now)).
Proof. intros st. by destruct (flow_enroll c verified now st) as (? & ? & _). Qed.
#[local] Hint Resolve flow_enroll_any : flow.
Lemma flow_enroll_finish realm hdr req : flows false true (enroll_finish realm hdr req).
Proof. unfold enroll_finish. flow. Qed.

(** A request that fails while it reads has changed nothing. *)
Lemma bind_quiet {A B} (m : M St A) (k : A → M St B) st r st' :
  quietly m → bind m k st = (r, st') →
  quiet st st' ∨ ∃ a s1, m st = (Ok a, s1) ∧ quiet st s1 ∧ k a s1 = (r, st').
Proof.
  intros Hq. specialize (Hq st). unfold bind. destruct (m st) as [[a|e] s1] eqn:E; cbn in Hq.
  - intros Hk. right. by exists a, s1.
  - intros [= <- <-]. by left.
Qed.

(** Steps over a part [m] of a run that only reads, whose result is [a]; [tac] closes the goal when
    the run ends there. *)
Ltac skip_read H a tac :=
  let E := fresh "E" in let Hq := fresh "Hq" in
  apply bind_quiet in H as [H|(a & ? & E & Hq & H)]; [tac| |solve [hush]];
  lazymatch type of E with
  | guard _ _ _ = (Ok _, _) => apply guard_yields in E as [E ->]; clear Hq
  | require _ _ _ = (Ok _, _) => apply require_yields in E as [E ->]; clear Hq
  | push_read _ _ = (Ok _, _) => apply push_read_inv in E as [E ->]; clear Hq
  | of_result _ _ = (Ok _, _) => apply of_result_inv in E as [E ->]; clear Hq
  | read _ _ = (Ok _, _) => apply read_yields in E as [E ->]; clear Hq
  | now_seconds _ = (Ok _, _) => apply now_yields in E as [E ->]; clear Hq
  | _ => idtac
  end.

Lemma get_push_login_inv s realm uid cid c :
  Push.get_push_login s realm uid cid = Ok (Some c) →
  Push.logins (Push.push s) !! cid = Some c ∧ Push.id c = cid ∧ Push.realm_id c = realm ∧ Push.user_id c = uid.
Proof.
  unfold Push.get_push_login. destruct (Push.logins _ !! cid) as [x|] eqn:Hl; [|done].
  intros (u & _ & Hq)%res_bind_Ok. destruct (String.eqb_spec (Push.id x) cid); cbn in Hq; [|done].
  apply res_bind_Ok in Hq as (i & _ & Hq). destruct (String.eqb_spec (Push.realm_id x) realm), (String.eqb_spec (Push.user_id x) uid);
    cbn in Hq; try done. by injection Hq as ->.
Qed.

Lemma get_push_authenticator_inv s realm uid aid a :
  Push.get_push_authenticator s realm uid aid = Ok (Some a) →
  Push.authenticators (Push.push s) !! aid = Some (Push.Enrolled a) ∧ Push.a_realm_id a = realm ∧ Push.a_user_id a = uid.
Proof.
  unfold Push.get_push_authenticator. destruct (Push.authenticators _ !! aid) as [row|] eqn:Hl; [|done].
  intros (o & Ho & Hq)%res_bind_Ok. unfold Push.enrolled in Ho. apply res_bind_Ok in Ho as (x & Hx & [= <-]).
  destruct row as [c|a']; [done|].
  destruct (String.eqb_spec (Push.a_realm_id a') realm), (String.eqb_spec (Push.a_user_id a') uid); cbn in Hq; try done.
  by injection Hq as ->.
Qed.

Lemma record_decision_cases req st r st' :
  record_decision req st = (r, st') →
  push (store st') = push (store st) ∨
  ∃ realm c a saved now p, available (dr_realm_id req) = Ok realm ∧
    Push.get_push_login (view_of st) (dr_realm_id req) (dr_user_id req) (dr_challenge_id req) = Ok (Some c) ∧
    Push.get_push_authenticator (view_of st) (dr_realm_id req) (dr_user_id req) (Push.authenticator_id c) = Ok (Some a) ∧
    push (store st') = Push.push p ∧
    (Push.attempt_push_login saved c
      (if proof_accepted (rr_push realm) (dr_proof req) (verify_login c a (dr_nonce req) (dr_decision req))
       then Some (dr_decision req) else None) now (view_of st)).2 = p.
Proof.
  unfold record_decision. intros Hr.
  skip_read Hr realm ltac:(by left; rewrite (quiet_store _ _ Hr)).
  skip_read Hr found ltac:(by left; rewrite (quiet_store _ _ Hr)).
  skip_read Hr c ltac:(by left; rewrite (quiet_store _ _ Hr)). subst.
  skip_read Hr found ltac:(by left; rewrite (quiet_store _ _ Hr)).
  skip_read Hr a ltac:(by left; rewrite (quiet_store _ _ Hr)). cbv zeta in Hr. subst.
  skip_read Hr now ltac:(by left; rewrite (quiet_store _ _ Hr)).
  right. unfold bind in Hr. destruct (push_write _ _) as [rw s2] eqn:Ew in Hr. apply push_write_inv in Ew as (p & Ep & ->).
  exists realm, c, a, (w_saved W (tick (tick_by 1 st))), now, p. split_and!; [done..| |change (view_of st) with (push_view (store (tick_by 1 st))); by rewrite Ep].
  destruct rw as [acc|]; [|by injection Hr as _ <-]. unfold guard in Hr. destruct (_ || _) in Hr; by injection Hr as _ <-.
Qed.

(** What a verified proof is: a signature by the device's key over the payload that was expected. *)
Definition signed_by (jwk : Push.PushPublicJwk) (expected : list N) : Prop :=
  ∃ key protected payload signed sig,
    validate_public_key jwk = Ok key ∧ text_of payload = text_of expected ∧
    cbor_write (CArray [CText "Signature1"; CBytes protected; CBytes []; CBytes payload]) = Some signed ∧
    key_verify key signed sig = true.

Lemma ok_or_Ok {A E} (o : option A) (e : E) a : ok_or o e = Ok a → o = Some a.
Proof. destruct o; [|done]. by intros [= ->]. Qed.

Lemma verify_inv jwk expected proof :
  verify jwk expected proof = Ok tt → signed_by jwk expected.
Proof.
  unfold verify. destruct (_ || _); [done|]. intros (value & _ & Hv)%res_bind_Ok.
  destruct value as [| | |[|[| protected| | | |] [|[| | | |un|] [|[|payload| | | |] [|[|signature| | | |] [|]]]]]| |]; try done.
  apply res_bind_Ok in Hv as (headers & _ & Hv). destruct headers as [| | | |entries|]; try done.
  destruct entries as [|[[| |z1| | |] [| |z2| | |]] [|]]; try done.
  all: destruct z1 as [|[| |]|]; try done; destruct z2 as [| |[[[]| |]| |]]; try done.
  destruct un; [|done]. destruct (constant_time_eq _ _) eqn:Hc; cbn in Hv; [|done]. apply constant_time_eq_spec in Hc.
  apply res_bind_Ok in Hv as (signed & Hs%ok_or_Ok & Hv). apply res_bind_Ok in Hv as (sig & _ & Hv).
  apply res_bind_Ok in Hv as (key & Hk & Hv). destruct (key_verify key signed sig) eqn:Hkv; [|done].
  by exists key, protected, payload, signed, sig.
Qed.

Lemma verify_login_inv c a nonce d proof :
  verify_login c a nonce d proof = Ok tt →
  Push.a_realm_id a = Push.realm_id c ∧ Push.a_user_id a = Push.user_id c ∧ Push.a_id a = Push.authenticator_id c ∧
  Push.revoked_at a = None ∧ nonce_matches nonce (Push.nonce_verifier c) = Ok tt ∧
  ∃ payload, login_payload c nonce d = Ok payload ∧ signed_by (Push.public_jwk a) payload.
Proof.
  unfold verify_login. destruct (_ || _) eqn:Hg; [done|]. rewrite !orb_false_iff, !negb_false_iff, !String.eqb_eq in Hg.
  destruct Hg as [[[H1 H2] H3] H4]. unfold Push.is_some, Push.is_none in H4. destruct (Push.revoked_at a); [done|].
  intros (payload & Hp & Hv%verify_inv)%res_bind_Ok. split_and!; [done..| |by exists payload].
  unfold login_payload in Hp. apply res_bind_Ok in Hp as (? & _ & Hp). by apply res_bind_Ok in Hp as ([] & ? & _).
Qed.

Lemma proof_accepted_inv policy text check :
  proof_accepted policy text check = true → ∃ proof, base64url_decode text = Some proof ∧ check proof = Ok tt.
Proof.
  unfold proof_accepted, bounded_proof. destruct (_ <=? _); [|done]. destruct (base64url_decode text) as [proof|]; [|done].
  intros [_ Hc]%andb_true_iff. exists proof. destruct (check proof) as [[]|]; done.
Qed.

(** The challenge [c] of [req] was approved by a proof of its device. *)
Definition device_proof (st : St) (req : DecisionRequest) (c : Push.PushLoginChallenge) : Prop :=
  logins st !! dr_challenge_id req = Some c ∧ Push.decision c = None ∧ Push.id c = dr_challenge_id req ∧
  Push.realm_id c = dr_realm_id req ∧ Push.user_id c = dr_user_id req ∧
  ∃ a payload, enrolled_at st !! Push.authenticator_id c = Some (Push.Enrolled a) ∧ Push.revoked_at a = None ∧
    Push.a_realm_id a = Push.realm_id c ∧ Push.a_user_id a = Push.user_id c ∧
    nonce_matches (dr_nonce req) (Push.nonce_verifier c) = Ok tt ∧
    login_payload c (dr_nonce req) Push.Approve = Ok payload ∧ signed_by (Push.public_jwk a) payload.

Lemma attempt_approves saved c d now s k c' :
  Push.logins (Push.push (Push.attempt_push_login saved c d now s).2) !! k = Some c' →
  Push.decision c' = Some Push.Approve →
  (∃ x, Push.logins (Push.push s) !! k = Some x ∧ Push.decision x = Some Push.Approve) ∨
  (d = Some Push.Approve ∧ k = Push.id c ∧ ∃ x, Push.logins (Push.push s) !! k = Some x ∧ Push.decision x = None).
Proof.
  destruct (Push.attempt_push_login saved c d now s) as [r s'] eqn:E. cbn. intros Hl Ha.
  apply Push.attempt_push_login_cases in E as [_ [[_ Hp]|(_ & _ & x & x' & Hx & Hm)]]; [left; rewrite Hp in Hl; eauto|].
  destruct Hm as (Hlx & _ & _ & Hp). rewrite Hp in Hl. cbn in Hl.
  destruct (decide (k = Push.id c)) as [->|Hne]; [|left; rewrite lookup_insert_ne in Hl by done; eauto].
  rewrite lookup_insert_eq in Hl. injection Hl as ->. unfold Push.login_attempt in Hx.
  destruct (_ || _) eqn:Hg in Hx; [done|]. rewrite !orb_false_iff in Hg. destruct Hg as [[[_ Hd] _] _].
  unfold Push.is_some, Push.is_none in Hd. destruct (Push.decision x) as [|] eqn:Ex; [done|]. injection Hx as <-.
  destruct d as [d|]; cbn in Ha; [|done]. injection Ha as ->. right. split_and!; [done..|]. by exists x.
Qed.

Lemma approved_by_decision req st k c' :
  logins (record_decision req st).2 !! k = Some c' → Push.decision c' = Some Push.Approve →
  (∃ c, logins st !! k = Some c ∧ Push.decision c = Some Push.Approve) ∨
  (dr_challenge_id req = k ∧ dr_decision req = Push.Approve ∧ ∃ c, device_proof st req c).
Proof.
  destruct (record_decision req st) as [r st'] eqn:E. cbn. intros Hl Ha.
  apply record_decision_cases in E as [Hp|(realm & c & a & saved & now & p & _ & Hc & Hdev & Hp & <-)];
    [left; rewrite Hp in Hl; eauto|].
  rewrite Hp in Hl. apply get_push_login_inv in Hc as (Hlc & Hid & Hre & Hu).
  apply get_push_authenticator_inv in Hdev as (Hea & Har & Hau).
  destruct (attempt_approves _ _ _ _ _ _ _ Hl Ha) as [?|(Hd & -> & x & Hx & Hxd)]; [by left|]. right.
  rewrite Hid in Hx. rewrite Hlc in Hx. injection Hx as <-.
  destruct (proof_accepted _ _ _) eqn:Hpa; [|done]. injection Hd as Hd. rewrite Hd in Hpa.
  apply proof_accepted_inv in Hpa as (proof & _ & (H1 & H2 & _ & H4 & H5 & payload & H6 & H7)%verify_login_inv).
  split_and!; [done..|]. exists c. split_and!; [done..|]. by exists a, payload.
Qed.

(** C15: A sign-in is approved by the device and by nothing else.  Whatever request of the push factor
    is served (start, decision, completion, resend, enrollment, revocation), a challenge that is
    approved afterwards was approved before, or the request is a decision on it that says approve,
    the challenge was undecided and is the request's user's, and the request carries a signature by
    the key of that user's enrolled and unrevoked device over this challenge, the nonce that was
    sent to the device and the word approve ([device_proof]). *)
Theorem approval_needs_device_proof r st k c' :
  logins (serve r st) !! k = Some c' → Push.decision c' = Some Push.Approve →
  (∃ c, logins st !! k = Some c ∧ Push.decision c = Some Push.Approve) ∨
  ∃ rl req c, r = Decision rl req ∧ dr_challenge_id req = k ∧ dr_decision req = Push.Approve ∧ device_proof st req c.
Proof.
  intros Hl Ha. destruct r as [auth|rl req|realm hdr req|realm hdr req|realm hdr req|realm hdr req|realm hdr aid]; cbn in Hl.
  1: left; by eapply (flow_start auth st).
  2: left; by eapply (flow_finish realm hdr req st).
  2: left; by eapply (flow_resend_bound realm hdr req st).
  2: left; by eapply (flow_enroll_start realm hdr req st).
  2: left; by eapply (flow_enroll_finish realm hdr req st).
  2: left; by eapply (flow_enroll_revoke realm hdr aid st).
  assert (logins (record_decision req st).2 !! k = Some c' ∨ logins st !! k = Some c') as [Hl'|Hl']; [|..|by left; eauto].
  - destruct rl as [realm|]; [|by left]. unfold record_decision_in_realm in Hl. destruct (negb _); [by right|by left].
  - destruct (approved_by_decision req st k c' Hl' Ha) as [?|(? & ? & c & ?)]; [by left|right; by exists rl, req, c].
Qed.

(** ** Completion *)

(** What a completion that starts at [st] redeems: an approved and unredeemed challenge of the user,
    unexpired at a time the clock gives from then on, bound to the browser by [verifier], for a device
    that is still enrolled. *)
Definition redeemable (st : St) (c : Push.PushLoginChallenge) (verifier : string) : Prop :=
  logins st !! Push.id c = Some c ∧ Push.decision c = Some Push.Approve ∧ Push.consumed_at c = None ∧
  Push.browser_binding_verifier c = verifier ∧
  (∃ n, (tick st ≤ n)%nat ∧ Push.created_at c ≤ w_now W n ∧ w_now W n < Push.expires_at c) ∧
  ∃ a, enrolled_at st !! Push.authenticator_id c = Some (Push.Enrolled a) ∧ Push.revoked_at a = None.

Definition redeemed (st : St) (cid : string) : Prop :=
  ∃ c, logins st !! cid = Some c ∧ Push.consumed_at c ≠ None.

(** The result of a completed push login. *)
Definition push_result (u : User) : Login.AuthResult :=
  {| Login.user := u; Login.acr := "urn:qid:acr:password"; Login.amr := ["pwd"; "push"]; Login.session_id := None |}.

Lemma complete_password_inv c v st auth st' :
  logins st !! Push.id c = Some c → complete_password c v st = (Ok auth, st') →
  ∃ u p, redeemable st c v ∧ users (store st) !! Push.user_id c = Some u ∧ u_realm_id u = Push.realm_id c ∧
    auth = push_result u ∧ st' = tick_by 2 (put_store (set_push (store st) p) st) ∧ redeemed st' (Push.id c).
Proof.
  unfold complete_password. intros Hl Hok. run_inv. apply negb_false_iff in E4 as ->.
  unfold Tokens.opt_filter, get_user_by_id in E1. destruct (users (store st) !! _) as [u|] eqn:Hu; [|done].
  destruct (String.eqb_spec (u_realm_id u) (Push.realm_id c)); [|done]. injection E1 as <-.
  apply push_write_inv in E3 as (p & Ep & ->). exists u, (Push.push p).
  apply Push.redeem_requires_approval in Ep as (a0 & x & Ha & Hrev & _ & _ & _ & Hx & Hb & Hd & Hcon & _ & Hcr & Hex & Hp).
  cbn in Ha, Hx, Hp. rewrite Hl in Hx. injection Hx as <-. split_and!; [|done..| |].
  - split_and!; [done..|by exists (tick st)|by exists a0].
  - unfold tick_by, put_store. cbn. by rewrite <- Nat.add_assoc.
  - eexists. cbn. rewrite Hp. cbn. rewrite lookup_insert_eq. split; [done|]. done.
Qed.

Lemma cookie_binding_inv hdr name binding :
  cookie_binding hdr name = Ok binding → Login.extract_cookie hdr name = Some binding ∧ well_formed_binding binding = true.
Proof.
  unfold cookie_binding, Tokens.opt_filter. destruct (Login.extract_cookie hdr name) as [b|]; [|done].
  destruct (well_formed_binding b) eqn:Hw; [|done]. by intros [= ->].
Qed.

(** A session established on the side: the push tables stay. *)
Lemma establish_inv realm hdr auth st cookie x st' :
  establish_session realm hdr auth st = (Ok (cookie, x), st') →
  s_user_id x = u_id (Login.user auth) ∧ s_amr x = Login.amr auth ∧ s_realm_id x = realm ∧
  sessions (store st') !! s_id x = Some x ∧ view_of st' = view_of st.
Proof.
  unfold establish_session. intros (bytes & s1 & [= <- <-] & Hc)%bind_inv. unfold login_call in Hc.
  match type of Hc with (let '(r, s) := ?m in _) = _ => destruct m as [r s] eqn:Em end.
  injection Hc as -> <-.
  match type of Em with Login.establish_session _ ?sv ?b ?n _ _ _ ?s0 = _ =>
    pose proof (keeps_establish plan_login sv b n realm hdr auth s0) as [Hk _] end.
  rewrite Em in Hk. apply Login.establish_session_spec in Em as (config & _ & -> & Hs & _). done.
Qed.

Lemma finish_inv realm hdr req st cookie x st' :
  finish realm hdr req st = (Ok (cookie, x), st') →
  ∃ c u binding, Login.extract_cookie hdr COOKIE = Some binding ∧
    Push.id c = cr_challenge_id req ∧ Push.user_id c = cr_user_id req ∧ Push.realm_id c = realm ∧
    redeemable st c (direct_verifier binding) ∧ users (store st) !! Push.user_id c = Some u ∧ u_realm_id u = realm ∧
    s_user_id x = u_id u ∧ s_amr x = ["pwd"; "push"] ∧ s_realm_id x = realm ∧
    sessions (store st') !! s_id x = Some x ∧ redeemed st' (cr_challenge_id req).
Proof.
  unfold finish. intros Hok. run_inv. apply cookie_binding_inv in E1 as [Hck _]. subst.
  apply get_push_login_inv in E2 as (Hl & Hid & Hre & Hu). rewrite <- Hid in Hl.
  apply complete_password_inv in E4 as (u & p & Hr & Huser & Hur & -> & -> & Hred); [|done].
  apply establish_inv in Hok as (H1 & H2 & H3 & H4 & H5). exists a3, u, a1. split_and!; try done; [congruence|].
  destruct Hred as (z & Hz & Hzc). exists z. split; [|done]. rewrite <- Hid.
  assert (push (store st') = push (store (tick_by 2 (put_store (set_push (store st) p) st)))) as -> by by injection H5. done.
Qed.

(** ** Sequences of requests *)

Definition served (st st' : St) : Prop := ∃ r, st' = serve r st.

Lemma served_flow st st' : served st st' → rtc Push.login_step (view_of st) (view_of st').
Proof.
  intros [r ->]. destruct r as [auth|[realm|] req|realm hdr req|realm hdr req|realm hdr req|realm hdr req|realm hdr aid].
  - exact (proj1 (flow_start auth st)).
  - unfold serve, record_decision_in_realm. destruct (negb _); [reflexivity|exact (proj1 (flow_decision req st))].
  - exact (proj1 (flow_decision req st)).
  - exact (proj1 (flow_finish realm hdr req st)).
  - exact (proj1 (flow_resend_bound realm hdr req st)).
  - exact (proj1 (flow_enroll_start realm hdr req st)).
  - exact (proj1 (flow_enroll_finish realm hdr req st)).
  - exact (proj1 (flow_enroll_revoke realm hdr aid st)).
Qed.

Lemma redeemed_kept st st' cid : rtc Push.login_step (view_of st) (view_of st') → redeemed st cid → redeemed st' cid.
Proof.
  intros Hs (c & Hc & Hn). exists c. split; [|done]. change (Push.logins (Push.push (view_of st')) !! cid = Some c).
  change (Push.logins (Push.push (view_of st)) !! cid = Some c) in Hc.
  induction Hs as [s|s1 s2 s3 Hstep _ IH]; [done|]. apply IH. by eapply Push.login_step_keeps.
Qed.

(** C16: A push login opens one session, for the user whose device approved.  When a completion answers
    with a session, the browser's cookie holds the binding that was drawn for the challenge, the
    challenge is the request's user's in the realm, approved, unexpired and not redeemed before, the
    device is still enrolled and the user still exists in the realm; the stored session is that
    user's, with password and push as its methods; and whatever requests are served afterwards, no
    completion of the same challenge succeeds again. *)
Theorem push_login_sound realm hdr req st cookie x st' :
  finish realm hdr req st = (Ok (cookie, x), st') →
  (∃ c u binding, Login.extract_cookie hdr COOKIE = Some binding ∧
     Push.id c = cr_challenge_id req ∧ Push.user_id c = cr_user_id req ∧ Push.realm_id c = realm ∧
     redeemable st c (direct_verifier binding) ∧ users (store st) !! Push.user_id c = Some u ∧ u_realm_id u = realm ∧
     s_user_id x = u_id u ∧ s_amr x = ["pwd"; "push"] ∧ s_realm_id x = realm ∧ sessions (store st') !! s_id x = Some x) ∧
  ∀ st2 realm2 hdr2 req2, rtc served st' st2 → cr_challenge_id req2 = cr_challenge_id req →
    is_ok (finish realm2 hdr2 req2 st2).1 = false.
Proof.
  intros Hok. apply finish_inv in Hok as (c & u & binding & H1 & H2 & H3 & H4 & H5 & H6 & H7 & H8 & H9 & H10 & H11 & Hred).
  split; [by exists c, u, binding|]. intros st2 realm2 hdr2 req2 Hs Hid.
  assert (redeemed st2 (cr_challenge_id req)) as (y & Hy & Hyc).
  { clear -Hs Hred. induction Hs as [|s1 s2 s3 Hstep _ IH]; [done|]. apply IH. eapply redeemed_kept; [by apply served_flow|done]. }
  destruct (finish realm2 hdr2 req2 st2) as [[[cookie2 x2]|e] st3] eqn:E; [|done]. exfalso.
  apply finish_inv in E as (c2 & u2 & b2 & _ & Hc2 & _ & _ & (Hl2 & _ & Hcon & _) & _). rewrite Hc2, Hid, Hy in Hl2.
  by injection Hl2 as ->.
Qed.

(** ** Enrollment *)

(** A session that may manage devices: the browser's, live, of a user of the realm, opened recently,
    with a second factor the account holds, or with its password or mailbox when it holds none and no
    enrolled device is passed over. *)
Record strong_session (st : St) (realm : string) (hdr : option string) (x : Session (J := J)) : Prop := {
  ss_cookie : ∃ config sid, require_realm realm = Ok config ∧ sessions (store st) !! sid = Some x ∧
    Login.extract_cookie hdr (Login.cookie_name (Login.browser_session (rr_login config))) = Some sid ∧
    ∃ n, auth_time x ≤ w_now W n ∧ w_now W n - auth_time x ≤ recent_reauth_seconds (rr_push config);
  ss_live : s_realm_id x = realm ∧ ∃ n, is_active x (w_now W n) = true;
  ss_method : ∃ user passkeys, users (store st) !! s_user_id x = Some user ∧ u_realm_id user = realm ∧
    get_webauthn_credentials (s_user_id x) (store st) = Ok passkeys ∧
    let totp := Tokens.opt_filter t_enabled (get_totp_credential (s_user_id x) (store st)) in
    stronger_method x totp passkeys = true ∨
    (bootstrap_method realm x user totp passkeys = true ∧
     Login.push_factor_satisfied (store st) realm (s_user_id x) (s_amr x) = Ok true)
}.

Lemma require_login_realm rid config :
  Login.require_realm plan_login rid = Ok config → ∃ r, require_realm rid = Ok r ∧ rr_login r = config.
Proof.
  unfold Login.require_realm, require_realm, Login.find_realm, find_realm, plan_login.
  induction (plan_realms state) as [|r l IH]; cbn; [done|].
  destruct (String.eqb _ _); [|done]. cbn. intros [= <-]. by exists r.
Qed.

Lemma recent_session_inv realm hdr st x st' :
  recent_session realm hdr st = (Ok x, st') → strong_session st realm hdr x.
Proof.
  unfold recent_session, owner_session. intros Hok. run_inv. cbn in *.
  destruct (Login.load_browser_session _ _ _ _ _) as [ctx|] eqn:Hload in E12; [|done]. injection E12 as ->.
  apply Login.load_spec in Hload as (Hr & Hck & Hs & Hact & Hre).
  apply require_login_realm in Hr as (config & Hconf & Hlog). rewrite Hconf in E. injection E as ->. rewrite <- Hlog in Hck.
  apply orb_false_iff in E4 as [E4%N.ltb_ge E4'%N.ltb_ge]. apply negb_false_iff in E9 as ->.
  unfold Tokens.opt_filter, get_user_by_id in E2. destruct (users (store st) !! _) as [u|] eqn:Hu in E2; [|done].
  destruct (String.eqb_spec (u_realm_id u) realm) as [Hur|]; [|done]. injection E2 as <-. split.
  - exists a, (Login.ctx_session_id a12). split_and!; [done..|]. by eexists.
  - split; [done|]. by eexists.
  - exists u, a7. split_and!; [done..|]. cbv zeta. destruct (stronger_method _ _ _); [by left|right].
    destruct (bootstrap_method _ _ _ _ _); [|done]. run_inv. by split.
Qed.

Lemma get_push_registration_inv s realm uid rid c :
  Push.get_push_registration s realm uid rid = Ok (Some c) →
  Push.authenticators (Push.push s) !! rid = Some (Push.Pending c) ∧ Push.a_id (Push.authenticator c) = rid ∧
  Push.a_realm_id (Push.authenticator c) = realm ∧ Push.a_user_id (Push.authenticator c) = uid.
Proof.
  unfold Push.get_push_registration. destruct (Push.authenticators _ !! rid) as [row|] eqn:Hl; [|done].
  intros (a & Ha%Push.authenticator_record_Ok & Hq)%res_bind_Ok. destruct Ha as [-> Hid].
  destruct row as [c'|a']; cbn in *.
  - destruct (String.eqb_spec (Push.a_realm_id (Push.authenticator c')) realm),
      (String.eqb_spec (Push.a_user_id (Push.authenticator c')) uid); cbn in Hq; try done. by injection Hq as ->.
  - by destruct (_ || _) in Hq.
Qed.

Lemma verify_registration_inv c nonce proof :
  verify_registration c nonce proof = Ok tt →
  nonce_matches nonce (Push.r_nonce_verifier c) = Ok tt ∧
  ∃ payload, registration_payload c nonce = Ok payload ∧ signed_by (Push.public_jwk (Push.authenticator c)) payload.
Proof.
  unfold verify_registration. intros (payload & Hp & Hv%verify_inv)%res_bind_Ok. split; [|by exists payload].
  unfold registration_payload in Hp. cbv zeta in Hp. apply res_bind_Ok in Hp as (? & _ & Hp).
  destruct (_ || _) in Hp; [done|]. by apply res_bind_Ok in Hp as ([] & ? & _).
Qed.

(** The registration [c] of [req] was confirmed by the device whose key it names. *)
Definition device_confirmed (st : St) (realm : string) (x : Session (J := J)) (req : FinishRequest)
    (c : Push.PushRegistrationChallenge) : Prop :=
  enrolled_at st !! fr_registration_id req = Some (Push.Pending c) ∧
  Push.a_realm_id (Push.authenticator c) = realm ∧ Push.a_user_id (Push.authenticator c) = s_user_id x ∧
  same_session (fr_registration_id req) x = true ∧ nonce_matches (fr_nonce req) (Push.r_nonce_verifier c) = Ok tt ∧
  ∃ payload, registration_payload c (fr_nonce req) = Ok payload ∧ signed_by (Push.public_jwk (Push.authenticator c)) payload.

Lemma attempt_enrolls saved c verified now s k a' r s' :
  Push.authenticators (Push.push s) !! Push.a_id (Push.authenticator c) = Some (Push.Pending c) →
  Push.attempt_push_registration saved c verified now s = (r, s') →
  Push.authenticators (Push.push s') !! k = Some (Push.Enrolled a') →
  Push.authenticators (Push.push s) !! k = Some (Push.Enrolled a') ∨
  (verified = true ∧ k = Push.a_id (Push.authenticator c) ∧ a' = Push.with_a_created_at (Push.authenticator c) now).
Proof.
  intros Hc E Hl. apply Push.attempt_push_registration_cases in E as [_ [[_ Hp]|(_ & row & row' & i & Hrow & _ & _ & Ha & _ & Hp)]];
    rewrite Hp in Hl; [by left|]. cbn in Hl.
  destruct (decide (k = Push.a_id (Push.authenticator c))) as [->|Hne]; [|by rewrite lookup_insert_ne in Hl; [left|done]].
  rewrite lookup_insert_eq in Hl. injection Hl as ->. rewrite Hc in Hrow. injection Hrow as <-. cbn in Ha.
  destruct (_ || _) in Ha; [done|]. destruct verified; [|done]. injection Ha as <-. by right.
Qed.

Lemma enrolled_by_finish realm hdr req st k a' :
  enrolled_at (enroll_finish realm hdr req st).2 !! k = Some (Push.Enrolled a') → Push.revoked_at a' = None →
  (∃ a, enrolled_at st !! k = Some (Push.Enrolled a) ∧ Push.revoked_at a = None) ∨
  (fr_registration_id req = k ∧ ∃ x c now, strong_session st realm hdr x ∧ device_confirmed st realm x req c ∧
     a' = Push.with_a_created_at (Push.authenticator c) now).
Proof.
  destruct (enroll_finish realm hdr req st) as [r st'] eqn:Hr. intros Hl Ha. cbn in Hl. unfold enroll_finish in Hr.
  skip_read Hr x ltac:(by left; rewrite (quiet_store _ _ Hr) in Hl; eauto).
  apply recent_session_inv in E as Hss. apply quiet_store in Hq.
  skip_read Hr u ltac:(by left; rewrite (quiet_store _ _ Hr), Hq in Hl; eauto).
  skip_read Hr found ltac:(by left; rewrite (quiet_store _ _ Hr), Hq in Hl; eauto).
  skip_read Hr c ltac:(by left; rewrite (quiet_store _ _ Hr), Hq in Hl; eauto). subst.
  skip_read Hr config ltac:(by left; rewrite (quiet_store _ _ Hr), Hq in Hl; eauto).
  cbv zeta in Hr.
  skip_read Hr now ltac:(by left; rewrite (quiet_store _ _ Hr), Hq in Hl; eauto).
  unfold bind in Hr. destruct (push_write _ _) as [rw s2] eqn:Ew in Hr. apply push_write_inv in Ew as (p & Ep & Es2).
  assert (push (store st') = Push.push p) as Hp.
  { destruct rw as [acc|]; [|injection Hr as _ <-; by subst]. unfold guard in Hr.
    destruct (_ || _) in Hr; injection Hr as _ <-; by subst. }
  rewrite Hp in Hl. cbn in Ep. rewrite Hq in *. unfold view_of in *.
  apply get_push_registration_inv in E1 as (Hpend & Hid & Hre & Hu). cbn in Hpend. rewrite <- Hid in Hpend.
  destruct (attempt_enrolls _ _ _ _ (push_view (store st)) _ _ _ _ Hpend Ep Hl) as [?|([_ Hv]%andb_true_iff & -> & ->)]; [left; by eauto|right].
  split; [done|]. exists x, c, now. apply negb_false_iff in E0.
  apply proof_accepted_inv in Hv as (proof & _ & [Hn Hpay]%verify_registration_inv). rewrite Hid in Hpend.
  split_and!; [done| |done]. by split_and!.
Qed.

(** A device is enrolled by its owner and by its key.  Whatever request of the push factor is
    served, a device in force afterwards was in force before, or the request is the end of an
    enrollment: its browser holds a recent session of the device's user, opened with a second factor
    the account holds (with the password or the mailbox only when it holds none and no device is
    passed over), it is the session the registration was started in, the registration was pending,
    and the request carries a signature by the very key that is enrolled, over this registration,
    the nonce that was sent to its destination and the destination. *)
Theorem device_enrollment_sound r st k a' :
  enrolled_at (serve r st) !! k = Some (Push.Enrolled a') → Push.revoked_at a' = None →
  (∃ a, enrolled_at st !! k = Some (Push.Enrolled a) ∧ Push.revoked_at a = None) ∨
  ∃ realm hdr req x c now, r = EnrollFinish realm hdr req ∧ fr_registration_id req = k ∧
    strong_session st realm hdr x ∧ device_confirmed st realm x req c ∧
    a' = Push.with_a_created_at (Push.authenticator c) now.
Proof.
  intros Hl Ha. destruct r as [auth|rl req|realm hdr req|realm hdr req|realm hdr req|realm hdr req|realm hdr aid].
  - left. by eapply (flow_start auth st).
  - left. destruct rl as [realm|]; [|by eapply (flow_decision req st)]. unfold serve, record_decision_in_realm in Hl.
    destruct (negb _); [by exists a'|by eapply (flow_decision req st)].
  - left. by eapply (flow_finish realm hdr req st).
  - left. by eapply (flow_resend_bound realm hdr req st).
  - left. by eapply (flow_enroll_start realm hdr req st).
  - destruct (enrolled_by_finish realm hdr req st k a' Hl Ha) as [?|(? & x & c & now & ? & ? & ?)]; [by left|right].
    by exists realm, hdr, req, x, c, now.
  - left. by eapply (flow_enroll_revoke realm hdr aid st).
Qed.
End PushFactor.

(** * Witnesses

    A toy codec, digest and signature scheme in place of CBOR, base64, SHA-256 and ECDSA, and a realm
    in which a device is enrolled and approves a sign-in. *)

Definition ex_bytes (s : string) : list N := map Ascii.N_of_ascii (String.list_ascii_of_string s).
Definition ex_pad : string := "-----------".

Fixpoint ex_texts (items : list Cbor) : list N :=
  match items with
  | CText s :: rest => ex_bytes s ++ 0 :: ex_texts rest
  | CBytes b :: rest => b ++ 0 :: ex_texts rest
  | _ => []
  end.

Definition ex_cbor_read (b : list N) : option (Cbor * list N) :=
  match b with
  | [1] => Some (CMap [(CInteger 1, CInteger (-7))], [])
  | 9 :: payload => Some (CArray [CBytes [1]; CMap []; CBytes payload; CBytes [7]], [])
  | _ => None
  end.

#[local] Instance ex_crypto : PushCrypto := {|
  VerifyingKey := list N; Signature := list N;
  cbor_write v := match v with CArray items => Some (ex_texts items) | _ => None end;
  cbor_read := ex_cbor_read;
  from_sec1_bytes b := Some b;
  signature_from_slice b := Some b;
  key_verify _ _ sig := match sig with [7] => true | _ => false end;
  sha256_digest s := take 32 (ex_bytes s ++ repeat 0 32);
  base64url_encode b := text_of b +:+ ex_pad;
  base64url_decode s := ex_bytes <$> strip_suffix ex_pad s
|}.

#[local] Instance ex_ct : ConstantTimeEq := {|
  constant_time_eq := String.eqb; constant_time_eq_spec := String.eqb_eq
|}.
#[local] Instance ex_num : JsonNumber N := {|
  as_u64 n := Some n; as_i64 _ := None; as_f64 _ := None; num_eqb := N.eqb; num_from_u64 n := n
|}.

Definition ex_push : PushConfig :=
  {| enabled := true; ttl_seconds := 300; pc_max_attempts := 5; max_issuances_per_window := 5;
     issuance_window_seconds := 3600; resend_cooldown_seconds := 30; recent_reauth_seconds := 300;
     max_destination_bytes := 1024; max_proof_bytes := 4096 |}.

Definition ex_policy : RateLimit.PasswordPolicy := Login.ex_policy.
Definition ex_realm : RuntimeRealm :=
  {| rr_login := {| Login.realm_id := "r"; Login.password_enabled := true; Login.passwordless_only := false;
                    Login.password := ex_policy;
                    Login.browser_session := {| Login.cookie_name := "sid"; Login.same_site := "Lax";
                                                Login.idle_timeout_minutes := 30; Login.absolute_timeout_hours := 8 |} |};
     rr_push := ex_push; rr_issuer := "https://id.example"; pkce_required := true; auth_code_ttl_seconds := 600;
     oidc_default_scope := "openid"; passkeys_enabled := false; passkeys_preferred := false; email_magic_link_enabled := false |}.

Definition ex_state : SharedState :=
  {| plan_realms := [ex_realm]; server_public_base_url := "https://id.example";
     notification := Some {| provider := "apns"; timeout_seconds := 5 |}; has_transport := true |}.

Definition ex_url (s : string) : option Url :=
  Some {| scheme := "https"; host_str := Some "id.example"; username := ""; url_password := None; query := None; fragment := None |}.

Definition ex_W : World (Num := N) :=
  {| w_now := fun _ => 1000; w_ulid := fun n => pretty (N.of_nat n); w_random := fun n k => repeat (N.of_nat n + 65) k;
     w_saved := fun _ => Ok tt; w_slot := fun _ => true; w_sent := fun _ _ => true |}.

Definition ex_write (v : Value N) : string := "json".

Definition ex_session : Session (J := Value N) :=
  {| s_id := "s1"; s_realm_id := "r"; s_user_id := "u"; auth_time := 900; s_acr := None; s_amr := ["pwd"];
     idle_expires_at := 2000; absolute_expires_at := 3000; s_revoked := false; s_created_at := 900; s_cnf := None |}.

Definition ex_user : User := Accounts.ex_user "u" "r" (Some "a@x").

Definition ex_store : Accounts.Store (J := Value N) :=
  {| push := Push.empty_push; tokens := Tokens.empty_store; realm_issuers := ∅; realm_tenants := ∅;
     users := {["u" := ex_user]}; credentials_password := ∅; clients := ∅; sessions := {["s1" := ex_session]};
     webauthn_credentials := ∅; totp_credentials := ∅; devices := ∅; ciam := fun _ => ∅; realm_tables := fun _ => ∅;
     hr_receipts := ∅; ssf_set_replay := ∅; oidc_continuations := ∅ |}.

Definition ex_st0 : St (Num := N) :=
  {| store := ex_store; budget := Login.budget Login.ex_st; limiter := Login.limiter Login.ex_st;
     tick := 0 |}.

Abbreviation ex_serve := (serve ex_state ex_W ex_url ex_write).
Definition ex_coordinate : string := base64url_encode (repeat 120 32).

Definition ex_enroll : Req := EnrollStart "r" (Some "sid=s1")
  {| sr_destination := "device-1"; sr_device_name := "phone"; sr_device_platform := "ios";
     sr_public_jwk := Push.EC "P-256" ex_coordinate ex_coordinate |}.
Definition ex_st1 : St := ex_serve ex_enroll ex_st0.

(** The text that encodes 32 times the byte [b]. *)
Definition ex_secret (b : N) : string := base64url_encode (repeat b 32).
(** A signature over the payload, when there is one. *)
Definition ex_proof (payload : QidResult (list N)) : string :=
  base64url_encode (9 :: match payload with Ok p => p | Err _ => [] end).

Definition ex_rid : string := bound_id ex_write (ex_secret 70) ex_session.
Definition ex_pending : option Push.PushRegistrationChallenge :=
  match Push.authenticators (push (store ex_st1)) !! ex_rid with Some (Push.Pending c) => Some c | _ => None end.
Definition ex_finish : Req := EnrollFinish "r" (Some "sid=s1")
  {| fr_registration_id := ex_rid; fr_nonce := ex_secret 69;
     fr_proof := ex_proof (match ex_pending with Some c => registration_payload c (ex_secret 69) | None => Err invalid end) |}.
Definition ex_st2 : St := ex_serve ex_finish ex_st1.

Definition ex_auth : Login.AuthResult :=
  {| Login.user := ex_user; Login.acr := "urn:qid:acr:password"; Login.amr := ["pwd"]; Login.session_id := None |}.
Definition ex_st3 : St := ex_serve (Start ex_auth) ex_st2.

Definition ex_cid : string := ex_secret 82.
Definition ex_challenge : option Push.PushLoginChallenge := Push.logins (push (store ex_st3)) !! ex_cid.
Definition ex_decision : DecisionRequest :=
  {| dr_realm_id := "r"; dr_user_id := "u"; dr_challenge_id := ex_cid; dr_nonce := ex_secret 81; dr_decision := Push.Approve;
     dr_proof := ex_proof (match ex_challenge with Some c => login_payload c (ex_secret 81) Push.Approve | None => Err invalid end) |}.
Definition ex_st4 : St := ex_serve (Decision (Some "r") ex_decision) ex_st3.

Lemma ex_approved :
  ∃ c, Push.logins (push (store (ex_serve (Decision (Some "r") ex_decision) ex_st3))) !! ex_cid = Some c ∧ Push.decision c = Some Push.Approve.
Proof. eexists. split; vm_compute; reflexivity. Qed.

Lemma approval_needs_device_proof_witness : ∃ c, device_proof ex_st3 ex_decision c.
Proof.
  destruct ex_approved as (c & Hc & Hd).
  destruct (approval_needs_device_proof ex_state ex_W ex_url ex_write (Decision (Some "r") ex_decision) ex_st3 ex_cid c Hc Hd)
    as [(x & Hx & Hxd)|(rl & req & x & Hr & _ & _ & Hp)].
  - exfalso. clear Hc Hd. assert (Push.decision <$> Push.logins (push (store ex_st3)) !! ex_cid = Some None) as Hn
      by (vm_compute; reflexivity).
    rewrite Hx in Hn. cbn in Hn. rewrite Hxd in Hn. discriminate Hn.
  - exists x. injection Hr as _ <-. exact Hp.
Defined.

Definition ex_complete : CompleteRequest := {| cr_user_id := "u"; cr_challenge_id := ex_cid |}.
Definition ex_hdr : option string := Some (COOKIE +:+ "=" +:+ ex_secret 78).
Definition ex_done : QidResult (string * Session (J := Value N)) * St := finish ex_state ex_W ex_url "r" ex_hdr ex_complete ex_st4.
Definition ex_opened : string * Session (J := Value N) := match ex_done.1 with Ok p => p | Err _ => ("", ex_session) end.

Lemma ex_done_ok : ex_done = (Ok ex_opened, ex_done.2).
Proof. vm_compute. reflexivity. Qed.

Lemma push_login_sound_witness :
  s_user_id ex_opened.2 = "u" ∧ is_ok (finish ex_state ex_W ex_url "r" ex_hdr ex_complete ex_done.2).1 = false.
Proof.
  split; [vm_compute; reflexivity|].
  assert (finish ex_state ex_W ex_url "r" ex_hdr ex_complete ex_st4 = (Ok (ex_opened.1, ex_opened.2), ex_done.2)) as Hok
    by exact (eq_trans ex_done_ok (f_equal (fun p => (Ok p, ex_done.2)) (surjective_pairing ex_opened))).
  destruct (push_login_sound ex_state ex_W ex_url ex_write "r" ex_hdr ex_complete ex_st4 _ _ _ Hok) as [_ Honce].
  apply Honce; [apply rtc_refl|reflexivity].
Defined.

Lemma ex_enrolled :
  ∃ a, Push.authenticators (push (store (ex_serve ex_finish ex_st1))) !! ex_rid = Some (Push.Enrolled a) ∧ Push.revoked_at a = None.
Proof. eexists. split; vm_compute; reflexivity. Qed.

Lemma device_enrollment_sound_witness :
  ∃ x req, s_user_id x = "u" ∧ ∃ c, device_confirmed ex_write ex_st1 "r" x req c.
Proof.
  destruct ex_enrolled as (a & Ha & Hr).
  destruct (device_enrollment_sound ex_state ex_W ex_url ex_write ex_finish ex_st1 ex_rid a Ha Hr)
    as [(y & Hy & _)|(realm & hdr & req & x & c & now & Hreq & _ & Hs & Hc & _)].
  - exfalso. clear Ha Hr. assert ((fun row => match row with Push.Pending _ => true | Push.Enrolled _ => false end)
      <$> Push.authenticators (push (store ex_st1)) !! ex_rid = Some true) as Hn by (vm_compute; reflexivity).
    rewrite Hy in Hn. discriminate Hn.
  - injection Hreq as <- <- <-. exists x. eexists. split; [|exists c; exact Hc].
    destruct Hc as (Hp & _ & <- & _). clear Hs Ha Hr.
    assert ((fun row => Push.a_user_id (Push.row_authenticator row)) <$> Push.authenticators (push (store ex_st1)) !! ex_rid = Some "u") as Hn
      by (vm_compute; reflexivity).
    change (Push.authenticators (push (store ex_st1)) !! ex_rid = Some (Push.Pending c)) in Hp. rewrite Hp in Hn.
    cbn in Hn. injection Hn as ->. reflexivity.
Defined.

End PushFactor.
