(* ===== verification/Authorize.v ===== *)
(** The OpenID Connect authorization endpoint (src/qid-oidc/src/provider.rs) and its push continuation
    (src/qid-oidc/src/push.rs): the parameters of a request, merged from the query, a signed request
    object and a pushed authorization request; their validation; the reuse of a browser session, the
    password login and the push factor in front of a code; and the responses.

    It composes the accounts and sessions (Accounts.v, Login.v), the limiter (RateLimit.v), the push
    factor (PushFactor.v), the continuations (Continuation.v) and the token tables (Tokens.v); the
    codes it stores are the ones the token endpoint of OAuth.v redeems.  JOSE headers, signatures,
    the readers that serde derives, the text of JSON and the encoding of URLs are the fields of
    [Jose]. *)

From S2P Require Import Prelude Utf8 Json Request RateLimit Push Tokens Cluster Accounts Continuation Login OAuth PushFactor.
Import Accounts Request PushFactor.

Module Authorize.

(** * Configuration *)

(** What the endpoint reads of a realm's configuration. *)
Record OidcRealmConfig : Type := {
  oc_id : string; oidc_enabled : bool; authorization_code_enabled : bool; require_signed_request_object : bool;
  request_object_signing_alg_values : list string; require_pushed_authorization_requests : bool; jarm_enabled : bool
}.

Record OidcState : Type := {
  config_realms : list OidcRealmConfig; authorize_path : string; plan_public_base_url : string
}.

Inductive Algorithm : Type :=
| HS256 | HS384 | HS512 | RS256 | RS384 | RS512 | ES256 | ES384 | PS256 | PS384 | PS512 | EdDSA.

Definition alg_name (a : Algorithm) : string :=
  match a with
  | HS256 => "HS256" | HS384 => "HS384" | HS512 => "HS512" | RS256 => "RS256" | RS384 => "RS384" | RS512 => "RS512"
  | ES256 => "ES256" | ES384 => "ES384" | PS256 => "PS256" | PS384 => "PS384" | PS512 => "PS512" | EdDSA => "EdDSA"
  end.

Record JoseHeader : Type := { h_alg : Algorithm; h_kid : option string }.

Section Authorize.
Context {Num : Type} `{JsonNumber Num}.
Abbreviation J := (Value Num).
Abbreviation Store := (Accounts.Store (J := J)).
Abbreviation ClientJ := (Accounts.Client (J := J)).
Abbreviation StJ := (PushFactor.St (Num := Num)).

(** * Parameters *)

Record AuthorizeRequest : Type := {
  request : option string; rq_client_id : option string; rq_response_type : option string; rq_redirect_uri : option string;
  rq_scope : option string; rq_state : option string; rq_response_mode : option string; rq_code_challenge : option string;
  rq_code_challenge_method : option string; rq_resource : option string; rq_authorization_details : option J;
  rq_nonce : option string; rq_prompt : option string; rq_request_uri : option string; rq_max_age : option N;
  rq_acr_values : option string; rq_claims : option string
}.

Record AuthorizeParameters : Type := {
  ap_client_id : string; response_type : string; redirect_uri : string; scope : option string; ap_state : option string;
  response_mode : option string; code_challenge : option string; code_challenge_method : option string;
  resource : option string; authorization_details : option J; nonce : option string; prompt : option string;
  dpop_proof : option string; dpop_apv : option string; ap_request_uri : option string; max_age : option N;
  acr_values : option string; claims : option string
}.

(** The fields of a client beyond those the token endpoint reads. *)
Record ClientExtra : Type := { jwks : J; client_requires_par : bool }.

(** [Jwk] of src/qid-crypto/src/jwk.rs: its algorithm, and the rest as it came. *)
Record Jwk : Type := { jwk_alg : option string; jwk_value : J }.

(** [Envelope] of src/qid-oidc/src/push.rs. *)
Record Envelope : Type := { version : N; env_request : AuthorizeParameters; env_auth_time : N }.

Record Jose : Type := {
  decode_header : string → result JoseHeader string;
  json_from_slice : list N → result J string;
  json_from_str : string → option J;
  params_from_value : J → result AuthorizeRequest string;
  jwk_from_value : J → result Jwk string;
  verify_jwt_signature_with_jwk : string → Jwk → string → QidResult unit;
  dpop_jkt_from_proof : string → option string;
  urlencode : string → string;
  debug_strings : list string → string;
  base64_error : string → string;
  envelope_to_string : Envelope → option string;
  envelope_from_str : string → option Envelope;
  json_object : string → bool
}.

Context `{PushCrypto} `{CT : ConstantTimeEq}.
Context (state : SharedState) (oidc : OidcState) (W : World (Num := Num)) (url_parse : string → option Url)
  (json_write : J → string) (jose : Jose) (signer : OAuth.Signer (Num := Num)) (body : J → OAuth.ClientBody)
  (extra_of : J → ClientExtra) (credentials_of : string → QidResult Login.PasswordCredentials).

Definition body_of (c : ClientJ) : OAuth.ClientBody := body (c_body c).
Definition find_config (rid : string) : option OidcRealmConfig :=
  List.find (fun r => String.eqb (oc_id r) rid) (config_realms oidc).
Definition config_is (rid : string) (p : OidcRealmConfig → bool) : bool :=
  match find_config rid with Some r => p r | None => false end.

Definition now_seconds : M StJ N := PushFactor.now_seconds W.
Definition ulid : M StJ string := fun st => (Ok (w_ulid W (tick st)), tick_by 1 st).
Definition write_tokens {A} (f : QidResult unit → Tokens.Store (J := J) → QidResult A * Tokens.Store) : M StJ A :=
  PushFactor.write W (fun saved s => let '(r, t) := f saved (tokens s) in (r, OAuth.set_tokens s t)).
Definition read_tokens {A} (f : Tokens.Store (J := J) → QidResult A) : M StJ A :=
  let! r := read (fun s => f (tokens s)) in of_result r.
(** An operation on the continuations. *)
Abbreviation continuations st := (oidc_continuations (store st)).
Definition write_continuations {A}
    (f : QidResult unit → gmap string Continuation.StoredContinuation → QidResult A * gmap string Continuation.StoredContinuation)
    : M StJ A :=
  PushFactor.write W (fun saved s => let '(r, rows) := f saved (oidc_continuations s) in (r, set_continuations s rows)).

(** The outcome of a computation as a value, its effects kept. *)
Definition attempt {A} (m : M StJ A) : M StJ (QidResult A) := fun st => let '(r, st') := m st in (Ok r, st').

(** [str::split_ascii_whitespace] *)
Definition ascii_space (c : Ascii.ascii) : bool :=
  let n := Ascii.N_of_ascii c in (n =? 32) || (n =? 9) || (n =? 10) || (n =? 12) || (n =? 13).
Fixpoint ascii_words (cur : string) (s : string) : list string :=
  match s with
  | EmptyString => if is_empty_str cur then [] else [cur]
  | String c s' =>
      if ascii_space c then (if is_empty_str cur then ascii_words "" s' else cur :: ascii_words "" s')
      else ascii_words (cur +:+ String c "") s'
  end.
Definition split_ascii_whitespace (s : string) : list string := ascii_words "" s.

Definition prompt_has (p : option string) (word : string) : bool :=
  match p with Some p => str_in word (split_ascii_whitespace p) | None => false end.
Definition prompt_requires_login (p : option string) : bool := prompt_has p "login".

(** ** Merging *)

Definition conflicts {A} (name : string) : QidResult A := Err (BadRequest (name +:+ " conflicts with request_uri payload")).

Definition merge_authorize_param (target : string) (source : option string) (name : string) : QidResult string :=
  match source with
  | None => Ok target
  | Some source => if is_empty_str target then Ok source
                   else if negb (String.eqb target source) then conflicts name else Ok target
  end.

Definition merge_optional_authorize_param (target source : option string) (name : string) : QidResult (option string) :=
  match source with
  | None => Ok target
  | Some source =>
      match target with
      | Some current => if negb (String.eqb current source) then conflicts name else Ok target
      | None => Ok (Some source)
      end
  end.

Definition merge_optional_json_authorize_param (target source : option J) (name : string) : QidResult (option J) :=
  match source with
  | None => Ok target
  | Some source =>
      match target with
      | Some current => if negb (value_eqb current source) then conflicts name else Ok target
      | None => Ok (Some source)
      end
  end.

Definition claims_documents_conflict (first second : string) : bool :=
  match json_from_str jose first, json_from_str jose second with
  | Some a, Some b => negb (value_eqb a b)
  | _, _ => negb (String.eqb first second)
  end.

Definition merge_claims_param (target source : option string) : QidResult (option string) :=
  match source with
  | None => Ok target
  | Some source =>
      match target with
      | None => Ok (Some source)
      | Some current => if negb (claims_documents_conflict current source) then Ok target
                        else Err (BadRequest "claims conflicts with request_uri payload")
      end
  end.

Definition merge_max_age_param (target source : option N) : QidResult (option N) :=
  match source with
  | None => Ok target
  | Some source =>
      if match target with None => true | Some existing => existing =? source end then Ok (Some source)
      else Err (BadRequest "max_age conflicts with request_uri payload")
  end.

(** The parameters of the query alone. *)
Definition query_parameters (req : AuthorizeRequest) : AuthorizeParameters :=
  {| ap_client_id := default "" (rq_client_id req); response_type := default "" (rq_response_type req);
     redirect_uri := default "" (rq_redirect_uri req); scope := rq_scope req; ap_state := rq_state req;
     response_mode := rq_response_mode req; code_challenge := rq_code_challenge req;
     code_challenge_method := rq_code_challenge_method req; resource := rq_resource req;
     authorization_details := rq_authorization_details req; nonce := rq_nonce req; prompt := rq_prompt req;
     dpop_proof := None; dpop_apv := None; ap_request_uri := rq_request_uri req; max_age := rq_max_age req;
     acr_values := rq_acr_values req; claims := rq_claims req |}.

Definition request_object_string (claims_ : J) (name : string) : option string := value_get name claims_ ≫= value_str.

Definition claim_u64 (claims_ : J) (name : string) : option N :=
  value_get name claims_ ≫= fun v => match v with VNumber n => as_u64 n | _ => None end.

(** The client a request object names. *)
Definition request_object_identity (payload : J) : option string :=
  OAuth.or_else (request_object_string payload "client_id")
    (OAuth.or_else (request_object_string payload "sub") (request_object_string payload "iss")).

(** The parameters of a request object, in the order [merge_request_object] merges them. *)
Definition merge_object_parameters (m : AuthorizeParameters) (payload : J) : QidResult AuthorizeParameters :=
  let text name := request_object_string payload name in
  let? cid := merge_authorize_param (ap_client_id m) (request_object_identity payload) "client_id" in
  let? rt := merge_authorize_param (response_type m) (text "response_type") "response_type" in
  let? ru := merge_authorize_param (redirect_uri m) (text "redirect_uri") "redirect_uri" in
  let? sc := merge_optional_authorize_param (scope m) (text "scope") "scope" in
  let? stt := merge_optional_authorize_param (ap_state m) (text "state") "state" in
  let? rm := merge_optional_authorize_param (response_mode m) (text "response_mode") "response_mode" in
  let? cc := merge_optional_authorize_param (code_challenge m) (text "code_challenge") "code_challenge" in
  let? cm := merge_optional_authorize_param (code_challenge_method m) (text "code_challenge_method") "code_challenge_method" in
  let? rs := merge_optional_authorize_param (resource m) (text "resource") "resource" in
  let? ad := merge_optional_json_authorize_param (authorization_details m) (value_get "authorization_details" payload)
               "authorization_details" in
  let? nn := merge_optional_authorize_param (nonce m) (text "nonce") "nonce" in
  let? pr := merge_optional_authorize_param (prompt m) (text "prompt") "prompt" in
  let? ma := merge_max_age_param (max_age m) (claim_u64 payload "max_age") in
  let? av := merge_optional_authorize_param (acr_values m) (text "acr_values") "acr_values" in
  let? cl := merge_claims_param (claims m) (json_write <$> value_get "claims" payload) in
  Ok {| ap_client_id := cid; response_type := rt; redirect_uri := ru; scope := sc; ap_state := stt; response_mode := rm;
        code_challenge := cc; code_challenge_method := cm; resource := rs; authorization_details := ad; nonce := nn;
        prompt := pr; dpop_proof := dpop_proof m; dpop_apv := dpop_apv m; ap_request_uri := ap_request_uri m;
        max_age := ma; acr_values := av; claims := cl |}.

(** The parameters of a pushed request, in the order [resolve_authorize_request] merges them. *)
Definition merge_par_parameters (m : AuthorizeParameters) (p : AuthorizeRequest) : QidResult AuthorizeParameters :=
  let? cid := merge_authorize_param (ap_client_id m) (rq_client_id p) "client_id" in
  let? rt := merge_authorize_param (response_type m) (rq_response_type p) "response_type" in
  let? ru := merge_authorize_param (redirect_uri m) (rq_redirect_uri p) "redirect_uri" in
  let? sc := merge_optional_authorize_param (scope m) (rq_scope p) "scope" in
  let? stt := merge_optional_authorize_param (ap_state m) (rq_state p) "state" in
  let? rm := merge_optional_authorize_param (response_mode m) (rq_response_mode p) "response_mode" in
  let? cc := merge_optional_authorize_param (code_challenge m) (rq_code_challenge p) "code_challenge" in
  let? cm := merge_optional_authorize_param (code_challenge_method m) (rq_code_challenge_method p) "code_challenge_method" in
  let? rs := merge_optional_authorize_param (resource m) (rq_resource p) "resource" in
  let? ad := merge_optional_json_authorize_param (authorization_details m) (rq_authorization_details p)
               "authorization_details" in
  let? nn := merge_optional_authorize_param (nonce m) (rq_nonce p) "nonce" in
  let? pr := merge_optional_authorize_param (prompt m) (rq_prompt p) "prompt" in
  let? av := merge_optional_authorize_param (acr_values m) (rq_acr_values p) "acr_values" in
  let? cl := merge_claims_param (claims m) (rq_claims p) in
  let? ma := merge_max_age_param (max_age m) (rq_max_age p) in
  Ok {| ap_client_id := cid; response_type := rt; redirect_uri := ru; scope := sc; ap_state := stt; response_mode := rm;
        code_challenge := cc; code_challenge_method := cm; resource := rs; authorization_details := ad; nonce := nn;
        prompt := pr; dpop_proof := dpop_proof m; dpop_apv := dpop_apv m; ap_request_uri := ap_request_uri m;
        max_age := ma; acr_values := av; claims := cl |}.

Definition require_authorize_fields (m : AuthorizeParameters) : QidResult unit :=
  if is_empty_str (ap_client_id m) then Err (BadRequest "client_id required")
  else if is_empty_str (response_type m) then Err (BadRequest "response_type required")
  else if is_empty_str (redirect_uri m) then Err (BadRequest "redirect_uri required")
  else Ok tt.

(** ** Request objects *)

Definition DOT : Ascii.ascii := Ascii.ascii_of_N 46.
Definition SLASH : Ascii.ascii := Ascii.ascii_of_N 47.

Definition parse_request_object_payload (request_object : string) : QidResult J :=
  match split_on DOT request_object with
  | [_; part; _] =>
      match base64url_decode part with
      | None => Err (Unauthorized ("invalid request object payload encoding: " +:+ base64_error jose part))
      | Some payload => map_err (fun e => Unauthorized ("invalid request object payload: " +:+ e)) (json_from_slice jose payload)
      end
  | _ => Err (Unauthorized "invalid request object format")
  end.

Definition request_object_audience_matches_realm (rid : string) (claims_ : J) : bool :=
  match find_realm state rid with
  | None => false
  | Some realm =>
      let issuer := rr_issuer realm in
      let authorize_endpoint := OAuth.trim_end_char SLASH issuer +:+ authorize_path oidc in
      let is_ours aud := String.eqb aud issuer || String.eqb aud authorize_endpoint in
      match value_get "aud" claims_ with
      | Some (VString aud) => is_ours aud
      | Some (VArray values) => existsb (fun v => match value_str v with Some aud => is_ours aud | None => false end) values
      | _ => false
      end
  end.

Definition invalid_request_object : QidError := Unauthorized "invalid request object".

Definition configured_realm_ids : list string := map oc_id (config_realms oidc).

Definition find_request_object_client (claims_ : J) : M StJ ClientJ :=
  let! cid := require (request_object_identity claims_) (Unauthorized "request object missing client identity") in
  let! candidates := read (find_clients_by_client_id configured_realm_ids cid) in
  match List.filter (fun c => request_object_audience_matches_realm (c_realm_id c) claims_) candidates with
  | [client] => ret client
  | _ => throw invalid_request_object
  end.

Definition enforce_allowed_request_object_alg (rid alg : string) : QidResult unit :=
  let allowed := concat (map request_object_signing_alg_values
                           (List.filter (fun r => String.eqb (oc_id r) rid) (config_realms oidc))) in
  if str_in alg allowed then Ok tt
  else Err (Unauthorized ("request object signing algorithm '" +:+ alg +:+ "' is not allowed")).

(** [matching_jwk_candidates] of src/qid-crypto/src/jwk.rs. *)
Definition matching_jwk_candidates (keys : list J) (kid : option string) : list J :=
  List.filter (fun key => match kid with
                          | None => true
                          | Some expected => bool_decide (value_get "kid" key ≫= value_str = Some expected)
                          end) keys.

(** A key without an identifier gets the empty one. *)
Definition with_kid (key : J) : J :=
  match key with
  | VObject o => VObject (if obj_contains_key o "kid" then o else obj_insert "kid" (VString "") o)
  | _ => key
  end.

(** The loop over the candidate keys, with the text of the last failure. *)
Fixpoint try_keys (request_object alg : string) (candidates : list J) (last_error : string) : QidResult unit :=
  match candidates with
  | [] => Err (Unauthorized ("request object signature verification failed: " +:+ last_error))
  | candidate :: rest =>
      match jwk_from_value jose (with_kid candidate) with
      | Err err => try_keys request_object alg rest ("registered request object JWK is invalid: " +:+ err)
      | Ok jwk =>
          if match jwk_alg jwk with Some a => negb (String.eqb a alg) | None => false end
          then try_keys request_object alg rest "registered request object JWK alg does not match JWT alg"
          else match verify_jwt_signature_with_jwk jose request_object jwk alg with
               | Ok _ => Ok tt
               | Err err => try_keys request_object alg rest (error_message err)
               end
      end
  end.

Definition verify_request_object_signature (request_object : string) (header : JoseHeader) (client : ClientJ) (alg : string)
    : QidResult unit :=
  match value_get "keys" (jwks (extra_of (c_body client))) with
  | Some (VArray keys) =>
      match keys with
      | [] => Err (Unauthorized "request object client jwks has no keys")
      | _ =>
          match matching_jwk_candidates keys (h_kid header) with
          | [] => Err invalid_request_object
          | candidates => try_keys request_object alg candidates "no usable client key"
          end
      end
  | _ => Err (Unauthorized "request object client jwks is missing keys")
  end.

Definition validate_request_object_audience (rid : string) (claims_ : J) : QidResult unit :=
  if request_object_audience_matches_realm rid claims_ then Ok tt else Err invalid_request_object.

Fixpoint check_registered (claims_ : J) (cid : string) (names : list string) : QidResult unit :=
  match names with
  | [] => Ok tt
  | name :: rest =>
      match request_object_string claims_ name with
      | Some value => if negb (String.eqb value cid) then Err (Unauthorized ("request object " +:+ name +:+ " mismatch"))
                      else check_registered claims_ cid rest
      | None => check_registered claims_ cid rest
      end
  end.
Definition validate_request_object_registered_claims (claims_ : J) (cid : string) : QidResult unit :=
  check_registered claims_ cid ["client_id"; "iss"; "sub"].

Definition validate_request_object_time (claims_ : J) (now : N) : QidResult unit :=
  if match claim_u64 claims_ "exp" with Some exp => exp <=? now | None => false end
  then Err (Unauthorized "request object expired")
  else if match claim_u64 claims_ "nbf" with Some nbf => now <? nbf | None => false end
  then Err (Unauthorized "request object is not yet valid")
  else Ok tt.

Definition merge_request_object (m : AuthorizeParameters) (request_object : string) (known_client : option ClientJ)
    : M StJ (AuthorizeParameters * ClientJ) :=
  let! header := of_result (map_err (fun e => Unauthorized ("invalid request object header: " +:+ e))
                              (decode_header jose request_object)) in
  let alg := alg_name (h_alg header) in
  let! payload := of_result (parse_request_object_payload request_object) in
  let identity := request_object_identity payload in
  let! client := match known_client with
                 | Some c => if bool_decide (identity = Some (client_id c)) then ret c else find_request_object_client payload
                 | None => find_request_object_client payload
                 end in
  let! _ := of_result (enforce_allowed_request_object_alg (c_realm_id client) alg) in
  let! _ := of_result (verify_request_object_signature request_object header client alg) in
  let! _ := of_result (validate_request_object_audience (c_realm_id client) payload) in
  let! _ := of_result (validate_request_object_registered_claims payload (client_id client)) in
  let! now := now_seconds in
  let! _ := of_result (validate_request_object_time payload now) in
  let! merged := of_result (merge_object_parameters m payload) in
  ret (merged, client).

(** ** Resolution *)

Definition not_allowed : QidError := Unauthorized "authorization request is not allowed".

Definition find_client_across_realms (cid : string) : M StJ ClientJ :=
  let! found := read (find_clients_by_client_id configured_realm_ids cid) in
  match found with
  | [client] => ret client
  | _ => throw not_allowed
  end.

Definition resolve_client_by_id (cid : string) : M StJ (option ClientJ) :=
  if is_empty_str cid then ret None else let! c := find_client_across_realms cid in ret (Some c).

Definition client_realm_is (client : option ClientJ) (p : OidcRealmConfig → bool) : bool :=
  match client with Some c => config_is (c_realm_id c) p | None => false end.

Definition realm_requires_signed_request_object (client : option ClientJ) : bool :=
  client_realm_is client (fun r => oidc_enabled r && require_signed_request_object r).
Definition realm_requires_pushed_authorization_request (client : option ClientJ) : bool :=
  client_realm_is client require_pushed_authorization_requests.

(** Without a [request_uri]: the query and the request object alone. *)
Definition resolve_direct (req : AuthorizeRequest) (merged : AuthorizeParameters) (client : option ClientJ)
    : M StJ (AuthorizeParameters * ClientJ) :=
  let! client := match client with Some c => ret (Some c) | None => resolve_client_by_id (ap_client_id merged) end in
  let! _ := guard (Push.is_none (request req) && realm_requires_signed_request_object client)
              (BadRequest "signed request object is required for this realm") in
  let! _ := guard (match client with Some c => client_requires_par (extra_of (c_body c)) | None => false end)
              (BadRequest "pushed authorization request is required for this client") in
  let! _ := guard (realm_requires_pushed_authorization_request client)
              (BadRequest "pushed authorization request is required for this realm") in
  let! _ := of_result (require_authorize_fields merged) in
  let! c := require client (BadRequest "client_id required") in
  ret (merged, c).

Definition REQUEST_URI_PREFIX : string := "urn:ietf:params:oauth:request_uri:".

Definition resolve_pushed (uri : string) (merged : AuthorizeParameters) (client : option ClientJ) (consume_par : bool)
    : M StJ (AuthorizeParameters * ClientJ) :=
  let! _ := guard (negb (starts_with REQUEST_URI_PREFIX uri)) (BadRequest "invalid request_uri") in
  let! found := read_tokens (Tokens.get_par_request uri) in
  let! par := require found (Unauthorized "unknown request_uri") in
  let! now := now_seconds in
  let! _ := guard (Tokens.par_used par) (Unauthorized "request_uri already used") in
  let! _ := guard (Tokens.par_expires_at par <=? now) (Unauthorized "request_uri expired") in
  let! params := of_result (map_err (fun e => BadRequest ("invalid PAR payload: " +:+ e))
                              (params_from_value jose (Tokens.params_json par))) in
  let! both := match request params with
               | Some request_object => let! p := merge_request_object merged request_object client in ret (p.1, Some p.2)
               | None => ret (merged, client)
               end in
  let! merged := of_result (merge_par_parameters both.1 params) in
  let! _ := guard (negb (String.eqb (ap_client_id merged) (Tokens.par_client_id par))) (Unauthorized "request_uri client mismatch") in
  let! _ := of_result (require_authorize_fields merged) in
  let! _ := if consume_par then write_tokens (fun saved => Tokens.mark_par_request_used saved uri) else ret tt in
  let! client := match both.2 with
                 | Some c => ret c
                 | None => let! o := resolve_client_by_id (ap_client_id merged) in require o (BadRequest "client_id required")
                 end in
  ret (merged, client).

Definition resolve_authorize_request (req : AuthorizeRequest) (consume_par : bool) : M StJ (AuthorizeParameters * ClientJ) :=
  let! first := match request req with
                | Some request_object =>
                    let! p := merge_request_object (query_parameters req) request_object None in ret (p.1, Some p.2)
                | None => ret (query_parameters req, None)
                end in
  match rq_request_uri req with
  | None => resolve_direct req first.1 first.2
  | Some uri => resolve_pushed uri first.1 first.2 consume_par
  end.

(** ** Validation *)

Definition unavailable : QidError := Config "authorization request is not available".

Definition validate_authorize_request (m : AuthorizeParameters) (client : ClientJ) : QidResult unit :=
  let? config := ok_or (find_config (c_realm_id client)) unavailable in
  if negb (oidc_enabled config) || negb (authorization_code_enabled config)
  then Err (BadRequest "OIDC authorization code flow is disabled")
  else if negb (String.eqb (response_type m) "code") then Err (BadRequest "unsupported response_type")
  else if match response_mode m with Some mode => negb (str_in mode ["query"; "form_post"; "jwt"]) | None => false end
  then Err (BadRequest "unsupported response_mode")
  else if jarm_enabled config && negb (bool_decide (response_mode m = Some "jwt"))
  then Err (BadRequest "JARM response_mode=jwt is required")
  else if negb (str_in (redirect_uri m) (OAuth.redirect_uris (body_of client))) then Err not_allowed
  else if negb (str_in "authorization_code" (OAuth.grant_types (body_of client))) then Err (Unauthorized "grant type not allowed")
  else
    let? realm := ok_or (find_realm state (c_realm_id client)) (NotFound ("realm " +:+ c_realm_id client)) in
    if pkce_required realm && (is_empty_str (default "" (code_challenge m)) || negb (bool_decide (code_challenge_method m = Some "S256")))
    then Err (BadRequest "S256 PKCE is required")
    else match authorization_details m with
         | Some details => OAuth.validate_authorization_details details
         | None => Ok tt
         end.

Definition resolve_and_validate_authorize_request (req : AuthorizeRequest) (consume_par : bool)
    : M StJ (AuthorizeParameters * ClientJ) :=
  let! p := resolve_authorize_request req consume_par in
  let! _ := of_result (validate_authorize_request p.1 p.2) in
  ret p.

(** * Codes and responses *)

Definition SPACE : Ascii.ascii := Ascii.ascii_of_N 32.

(** The code that is stored for a request, from its identifier and the two readings of the clock. *)
Definition new_code (client : ClientJ) (auth : Login.AuthResult) (auth_time_ : N) (m : AuthorizeParameters) (code : string)
    (now created : N) : Tokens.AuthorizationCode (J := J) :=
  let realm := find_realm state (c_realm_id client) in
  {| Tokens.code_hash := base64url_encode (sha256_digest code); Tokens.ac_client_id := client_id client;
     Tokens.ac_user_id := u_id (Login.user auth); Tokens.ac_realm_id := c_realm_id client;
     Tokens.redirect_uri := redirect_uri m; Tokens.state := ap_state m; Tokens.ac_nonce := nonce m;
     Tokens.ac_auth_time := Some auth_time_; Tokens.ac_acr := Some (Login.acr auth); Tokens.ac_amr := Login.amr auth;
     Tokens.code_challenge := code_challenge m; Tokens.code_challenge_method := code_challenge_method m;
     Tokens.ac_scopes := match scope m with
                         | Some s => split_on SPACE s
                         | None => [match realm with Some r => oidc_default_scope r | None => "openid" end]
                         end;
     Tokens.ac_resource := match resource m with Some r => [r] | None => [] end;
     Tokens.ac_authorization_details := authorization_details m;
     Tokens.ac_expires_at := add64 now (match realm with Some r => auth_code_ttl_seconds r | None => 600 end);
     Tokens.ac_used := false; Tokens.ac_created_at := created; Tokens.ac_session_id := Login.session_id auth |}.

Definition issue_authorization_code (client : ClientJ) (auth : Login.AuthResult) (auth_time_ : N) (m : AuthorizeParameters)
    : M StJ string :=
  let! u := ulid in
  let code := "ac_" +:+ u in
  let! now := now_seconds in
  let! created := now_seconds in
  let! _ := write_tokens (fun saved => Tokens.create_authorization_code saved (new_code client auth auth_time_ m code now created)) in
  ret code.

Inductive Response : Type :=
| LoginChallenge (methods : list string) (client redirect : string) (state_ : option string)
| RedirectTo (url : string)
| FormPost (html : string)
| PushChallenge (reply : PushReply) (client : string)
| ErrorPage (e : QidError).

Definition DQ : string := String (Ascii.ascii_of_N 34) "".

Definition hidden_input (field : string * string) : string :=
  "<input type=" +:+ DQ +:+ "hidden" +:+ DQ +:+ " name=" +:+ DQ +:+ field.1 +:+ DQ +:+ " value=" +:+ DQ +:+ field.2 +:+ DQ +:+ " />".

Definition form_post_response (redirect : string) (params : list (string * string)) : Response :=
  FormPost ("<!doctype html><html><body><form method=" +:+ DQ +:+ "POST" +:+ DQ +:+ " action=" +:+ DQ +:+ redirect +:+ DQ +:+ ">"
            +:+ String.concat "" (map hidden_input params)
            +:+ "</form><script>document.forms[0].submit();</script></body></html>").

Definition form_post_error (redirect : string) (state_ : option string) (error description : string) : Response :=
  form_post_response redirect
    ([("error", error); ("error_description", description)] ++ match state_ with Some s => [("state", s)] | None => [] end).

(** [redirect_error] of src/qid-http/src/lib.rs. *)
Definition redirect_error (redirect : string) (state_ : option string) (error description : string) : Response :=
  RedirectTo (redirect +:+ "?error=" +:+ urlencode jose error +:+ "&error_description=" +:+ urlencode jose description
              +:+ match state_ with Some s => "&state=" +:+ urlencode jose s | None => "" end).

Definition response_issuer (client : ClientJ) : string :=
  match find_realm state (c_realm_id client) with Some r => rr_issuer r | None => plan_public_base_url oidc end.

Definition sign_jarm_response (m : AuthorizeParameters) (client : ClientJ) (entries : list (string * J)) : M StJ (string * string) :=
  let issuer := response_issuer client in
  let! now := now_seconds in
  let! u := ulid in
  let extra := foldl (fun e '(k, v) => <[k := v]> e) (∅ : gmap string J)
                 (entries ++ match ap_state m with Some s => [("state", VString s)] | None => [] end) in
  let! response := of_result (map_err (fun e => Crypto ("failed to sign authorization response: " +:+ e))
    (OAuth.sign signer {| OAuth.iss := Some issuer; OAuth.sub := None; OAuth.aud := Some (OAuth.Single (ap_client_id m));
                          OAuth.exp := Some (add64 now 60); OAuth.nbf := Some now; OAuth.iat := Some now;
                          OAuth.jti := Some ("jarm_" +:+ u); OAuth.extra := extra |})) in
  ret (issuer, response).

Definition jarm_redirect (m : AuthorizeParameters) (signed : string * string) : Response :=
  RedirectTo (redirect_uri m +:+ "?response=" +:+ urlencode jose signed.2 +:+ "&iss=" +:+ urlencode jose signed.1).

(** An error becomes the page that shows it. *)
Definition respond (k : M StJ Response) : M StJ Response :=
  fun st => let '(r, st') := k st in (Ok (match r with Ok resp => resp | Err e => ErrorPage e end), st').

Definition authorization_error_response (m : AuthorizeParameters) (client : ClientJ) (error description : string) : M StJ Response :=
  if bool_decide (response_mode m = Some "jwt") then
    respond (let! signed := sign_jarm_response m client [("error", VString error); ("error_description", VString description)] in
             ret (jarm_redirect m signed))
  else if bool_decide (response_mode m = Some "form_post") then ret (form_post_error (redirect_uri m) (ap_state m) error description)
  else ret (redirect_error (redirect_uri m) (ap_state m) error description).

(** [jwk_thumbprint]: the members of a key by its type, in the order of their names. *)
Definition thumbprint_members (kty : string) : option (list string) :=
  if String.eqb kty "EC" then Some ["crv"; "kty"; "x"; "y"]
  else if String.eqb kty "RSA" then Some ["e"; "kty"; "n"]
  else if String.eqb kty "OKP" then Some ["crv"; "kty"; "x"]
  else None.
Definition jwk_thumbprint (key : J) : option string :=
  kty ← request_object_string key "kty";
  names ← thumbprint_members kty;
  values ← mapM (fun n => v ← request_object_string key n; Some (n, VString v)) names;
  Some (base64url_encode (sha256_digest (json_write (VObject values)))).

Definition dpop_apv_for_request (client : ClientJ) (dpop_header : option string) : option string :=
  OAuth.or_else (dpop_header ≫= dpop_jkt_from_proof jose)
    (match value_get "keys" (jwks (extra_of (c_body client))) with
     | Some (VArray keys) => head (omap jwk_thumbprint keys)
     | _ => None
     end).

Definition authorization_response_redirect (m : AuthorizeParameters) (client : ClientJ) (code : string) (dpop_header : option string)
    : M StJ Response :=
  if bool_decide (response_mode m = Some "jwt") then
    let apv := OAuth.or_else (dpop_apv m) (dpop_apv_for_request client dpop_header) in
    let! signed := sign_jarm_response m client
                     (("code", VString code) :: match apv with Some a => [("apv", VString a)] | None => [] end) in
    ret (jarm_redirect m signed)
  else
    let issuer := response_issuer client in
    if bool_decide (response_mode m = Some "form_post") then
      ret (form_post_response (redirect_uri m)
             ([("code", code); ("iss", issuer)] ++ match ap_state m with Some s => [("state", s)] | None => [] end))
    else
      ret (RedirectTo (redirect_uri m +:+ "?code=" +:+ urlencode jose code +:+ "&iss=" +:+ urlencode jose issuer
                       +:+ match ap_state m with Some s => "&state=" +:+ urlencode jose s | None => "" end)).

Definition unmet_essential_acr (claims_json : option string) (session_acr : string) : option string :=
  text ← claims_json;
  value ← json_from_str jose text;
  acr_claim ← value_get "id_token" value ≫= value_get "acr";
  if negb (default false (value_get "essential" acr_claim ≫= value_bool)) then None
  else
    let requested := match value_get "value" acr_claim ≫= value_str with Some v => [v] | None => [] end
                     ++ match value_get "values" acr_claim with Some (VArray vs) => omap value_str vs | _ => [] end in
    match requested with
    | [] => None
    | _ => if str_in session_acr requested then None
           else Some ("essential acr claim requires " +:+ debug_strings jose requested +:+ ", session ACR is " +:+ session_acr)
    end.

(** * The push continuation (src/qid-oidc/src/push.rs) *)

Definition OIDC_COOKIE : string := "__Host-qid-oidc-push".

Definition oidc_verifier (binding client : string) : string :=
  sha256_hex (json_write (VArray [VString "qid:oidc:push:v1"; VString client; VString binding])).

(** The digest a continuation is bound to. *)
Definition binding_digest (binding : string) : string := text_of (sha256_digest binding).

(** The parameters that are kept: the thumbprint of a proof, never the proof. *)
Definition without_proof (m : AuthorizeParameters) (client : ClientJ) : AuthorizeParameters :=
  {| ap_client_id := ap_client_id m; response_type := response_type m; redirect_uri := redirect_uri m; scope := scope m;
     ap_state := ap_state m; response_mode := response_mode m; code_challenge := code_challenge m;
     code_challenge_method := code_challenge_method m; resource := resource m;
     authorization_details := authorization_details m; nonce := nonce m; prompt := prompt m; dpop_proof := None;
     dpop_apv := dpop_apv_for_request client (dpop_proof m); ap_request_uri := ap_request_uri m; max_age := max_age m;
     acr_values := acr_values m; claims := claims m |}.

Definition push_start (m : AuthorizeParameters) (client : ClientJ) (auth : Login.AuthResult) : M StJ Response :=
  let! _ := guard (negb (String.eqb (u_realm_id (Login.user auth)) (c_realm_id client)) || negb (cookie_free state OIDC_COOKIE)) invalid in
  let! binding := secret W in
  let! pending := prepare state W url_parse (c_realm_id client) (u_id (Login.user auth)) (oidc_verifier binding (client_id client)) in
  let c := pd_challenge pending in
  let envelope := {| version := 1; env_request := without_proof m client; env_auth_time := Push.created_at c |} in
  let! context := require (envelope_to_string jose envelope) invalid in
  let continuation := {| Continuation.id := Push.id c; Continuation.realm_id := c_realm_id client;
                         Continuation.user_id := u_id (Login.user auth); Continuation.client_id := client_id client;
                         Continuation.context_json := context; Continuation.browser_binding_sha256 := binding_digest binding;
                         Continuation.created_at := Push.created_at c; Continuation.expires_at := Push.expires_at c |} in
  let! _ := write_continuations (fun saved => Continuation.create_oidc_continuation (json_object jose) saved continuation (Push.created_at c)) in
  let! challenge := send state W pending in
  let! cookie := of_result (binding_cookie OIDC_COOKIE binding challenge) in
  ret (PushChallenge {| reply_challenge := challenge; reply_number := transaction_number challenge; reply_cookie := cookie |}
         (client_id client)).

Record OidcCompleteRequest : Type := {
  oc_realm_id : string; oc_user_id : string; oc_client_id : string; oc_challenge_id : string
}.

Definition resume (cookie_header : option string) (req : OidcCompleteRequest) : M StJ Response :=
  let! binding := of_result (cookie_binding cookie_header OIDC_COOKIE) in
  let! _ := of_result (available state url_parse (oc_realm_id req)) in
  let! _ := guard (negb (cookie_free state OIDC_COOKIE)) invalid in
  let! found := push_read (fun s => Push.get_push_login s (oc_realm_id req) (oc_user_id req) (oc_challenge_id req)) in
  let! c := require found invalid in
  let! t := now_seconds in
  let! _ := guard (negb (bool_decide (Push.decision c = Some Push.Approve)) || Push.is_some (Push.consumed_at c)
                   || (Push.expires_at c <=? t)
                   || negb (String.eqb (oidc_verifier binding (oc_client_id req)) (Push.browser_binding_verifier c))) invalid in
  let! t2 := now_seconds in
  let! consumed := write_continuations (fun saved =>
      Continuation.consume_oidc_continuation (json_object jose) saved (oc_realm_id req) (oc_user_id req) (oc_client_id req)
        (oc_challenge_id req) (binding_digest binding) t2) in
  let! record := require consumed invalid in
  let! envelope := require (envelope_from_str jose (Continuation.context_json record)) invalid in
  let m := env_request envelope in
  let! _ := guard (negb (version envelope =? 1) || negb (String.eqb (ap_client_id m) (oc_client_id req))
                   || negb (env_auth_time envelope =? Continuation.created_at record)
                   || negb (Push.created_at c =? Continuation.created_at record)
                   || negb (Push.expires_at c =? Continuation.expires_at record)) invalid in
  let! o := read (get_client_by_client_id (oc_realm_id req) (oc_client_id req)) in
  let! client := require o invalid in
  let! _ := of_result (validate_authorize_request m client) in
  let! auth := complete_password state W url_parse c (oidc_verifier binding (oc_client_id req)) in
  let! code := issue_authorization_code client auth (env_auth_time envelope) m in
  authorization_response_redirect m client code None.

Definition complete (cookie_header : option string) (req : OidcCompleteRequest) : M StJ Response := respond (resume cookie_header req).

Definition oidc_resend (cookie_header : option string) (req : OidcCompleteRequest) : M StJ Push.PushLoginChallenge :=
  let! _ := guard (negb (cookie_free state OIDC_COOKIE)) invalid in
  let! binding := of_result (cookie_binding cookie_header OIDC_COOKIE) in
  PushFactor.resend state W url_parse (oc_realm_id req) (oc_user_id req) (oc_challenge_id req) (oidc_verifier binding (oc_client_id req)).

(** * The endpoint *)

(** [parse_cookie] reads a cookie as [extract_cookie] of the session routes does. *)
Definition parse_cookie (cookie_header : option string) (name : string) : option string := Login.extract_cookie cookie_header name.

(** A session that is too old for the request's [max_age]. *)
Definition too_old (m : AuthorizeParameters) (authenticated now : N) : bool :=
  match max_age m with Some age => (age =? 0) || (add64 authenticated age <=? now) | None => false end.

Definition PASSWORD_ACR : string := "urn:qid:acr:password".

(** The result of a login that a session stands for. *)
Definition session_result (x : Session (J := J)) (sid : string) (user : User) : Login.AuthResult :=
  {| Login.user := user; Login.acr := default PASSWORD_ACR (s_acr x);
     Login.amr := match s_amr x with [] => ["pwd"] | l => l end; Login.session_id := Some sid |}.

(** The pushed request is used up once the session is accepted. *)
Definition spend_par (m : AuthorizeParameters) : M StJ unit :=
  match ap_request_uri m with
  | Some uri => write_tokens (fun saved => Tokens.mark_par_request_used saved uri)
  | None => ret tt
  end.

Definition authorize_with_browser_session (m : AuthorizeParameters) (client : ClientJ) (cookie_header : option string)
    : M StJ (option Response) :=
  let rid := c_realm_id client in
  let! realm := require (find_realm state rid) (NotFound ("realm " +:+ rid)) in
  match parse_cookie cookie_header (Login.cookie_name (Login.browser_session (rr_login realm))) with
  | None => ret None
  | Some sid =>
      let! found := read (get_session sid) in
      match found with
      | None => ret None
      | Some x =>
          let! now := now_seconds in
          if negb (String.eqb (s_realm_id x) rid) || negb (is_active x now) then ret None
          else if too_old m (auth_time x) now then ret None
          else if Push.is_some (unmet_essential_acr (claims m) (default PASSWORD_ACR (s_acr x))) then ret None
          else
            let! u := read (get_user_by_id (s_user_id x)) in
            match u with
            | None => ret None
            | Some user =>
                let! satisfied := if negb (String.eqb (u_realm_id user) rid) then ret false
                                  else let! r := read (fun s => Login.push_factor_satisfied s rid (u_id user) (s_amr x)) in of_result r in
                if negb satisfied then ret None
                else
                  let! _ := spend_par m in
                  let! code := issue_authorization_code client (session_result x sid user) (auth_time x) m in
                  let! response := authorization_response_redirect m client code (dpop_proof m) in
                  ret (Some response)
            end
      end
  end.

(** The methods in the order they are presented. *)
Definition login_methods (realm : RuntimeRealm) : list string :=
  let first := (if Login.accepts_password_authentication (rr_login realm) then ["password"] else [])
               ++ (if passkeys_enabled realm then ["webauthn"] else []) in
  (if passkeys_preferred realm then rev first else first)
  ++ (if email_magic_link_enabled realm then ["email_magic_link"] else []).

Definition login_challenge_response (m : AuthorizeParameters) (realm : RuntimeRealm) : Response :=
  LoginChallenge (login_methods realm) (ap_client_id m) (redirect_uri m) (ap_state m).

Definition with_proof (m : AuthorizeParameters) (proof : option string) : AuthorizeParameters :=
  {| ap_client_id := ap_client_id m; response_type := response_type m; redirect_uri := redirect_uri m; scope := scope m;
     ap_state := ap_state m; response_mode := response_mode m; code_challenge := code_challenge m;
     code_challenge_method := code_challenge_method m; resource := resource m;
     authorization_details := authorization_details m; nonce := nonce m; prompt := prompt m; dpop_proof := proof;
     dpop_apv := dpop_apv m; ap_request_uri := ap_request_uri m; max_age := max_age m; acr_values := acr_values m;
     claims := claims m |}.

Definition authorize_get (req : AuthorizeRequest) (dpop_header cookie_header : option string) : M StJ Response :=
  respond (
    let! p := resolve_and_validate_authorize_request req false in
    let client := p.2 in
    let! realm := of_result (require_realm state (c_realm_id client)) in
    let m := with_proof p.1 dpop_header in
    let! reused := if negb (prompt_requires_login (prompt m)) then authorize_with_browser_session m client cookie_header else ret None in
    match reused with
    | Some response => ret response
    | None =>
        if prompt_has (prompt m) "none"
        then authorization_error_response m client "login_required" "current authentication is required"
        else ret (login_challenge_response m realm)
    end).

Definition admit_login (rid e : string) (policy : RateLimit.PasswordPolicy) : M StJ bool :=
  login_call W (fun _ now =>
    let! st := get_state in
    let '(admitted, l) := RateLimit.password_admit (Login.limiter st) (now 0%nat) rid e policy in
    let! _ := Login.put_limiter l in ret admitted).

Definition succeeded (rid e : string) : M StJ unit :=
  login_call W (fun _ now =>
    let! st := get_state in
    Login.put_limiter (RateLimit.password_succeeded (Login.limiter st) (now 0%nat) (now 1%nat) rid e)).

(** The authentication context that was asked for and is not met, as the text of the refusal. *)
Definition unmet_acr (m : AuthorizeParameters) (session_acr : string) : option string :=
  match acr_values m with
  | Some values =>
      match OAuth.split_whitespace values with
      | [] => unmet_essential_acr (claims m) session_acr
      | requested =>
          if negb (str_in session_acr requested)
          then Some ("requested acr_values " +:+ values +:+ " does not match session ACR " +:+ session_acr)
          else unmet_essential_acr (claims m) session_acr
      end
  | None => unmet_essential_acr (claims m) session_acr
  end.

Definition BUSY : string := "too many password attempts, try again later".

(** [authorize_post] once its request is resolved: the login, then the code. *)
Definition post_login (m : AuthorizeParameters) (client : ClientJ) (e password_ : string) : M StJ Response :=
  let rid := c_realm_id client in
  let! realm := of_result (require_realm state rid) in
  if negb (Login.accepts_password_authentication (rr_login realm))
  then authorization_error_response m client "access_denied" "password authentication is disabled for this realm"
  else
    let policy := Login.password (rr_login realm) in
    let! admitted := admit_login rid e policy in
    if negb admitted then authorization_error_response m client "temporarily_unavailable" BUSY
    else
      let! creds := of_result (credentials_of rid) in
      let! outcome := attempt (login_call W (fun saved now =>
          Login.authenticate_password policy (Some creds) saved (now 0%nat) (now 1%nat) (now 2%nat) rid e password_)) in
      match outcome with
      | Err (AttemptBudgetSpent _) => authorization_error_response m client "temporarily_unavailable" BUSY
      | Err _ => authorization_error_response m client "access_denied" "invalid credentials"
      | Ok auth =>
          let! _ := succeeded rid e in
          match unmet_acr m (Login.acr auth) with
          | Some message => authorization_error_response m client "unmet_authentication_requirements" message
          | None =>
              let! r := read (fun s => Login.push_factor_satisfied s rid (u_id (Login.user auth)) (Login.amr auth)) in
              let! satisfied := of_result r in
              if negb satisfied then push_start m client auth
              else
                let! auth_time_ := now_seconds in
                let! code := issue_authorization_code client auth auth_time_ m in
                authorization_response_redirect m client code (dpop_proof m)
          end
      end.

Definition authorize_post (req : AuthorizeRequest) (dpop_header : option string) (e password_ : string) : M StJ Response :=
  respond (
    let! p := resolve_and_validate_authorize_request req true in
    post_login (with_proof p.1 dpop_header) p.2 e password_).

(** * Requests *)

Inductive Req : Type :=
| Get (req : AuthorizeRequest) (dpop cookie : option string)
| Post (req : AuthorizeRequest) (dpop : option string) (e password_ : string)
| Complete (cookie : option string) (req : OidcCompleteRequest)
| OidcResend (cookie : option string) (req : OidcCompleteRequest)
| Factor (r : PushFactor.Req).

Definition serve (r : Req) (st : StJ) : StJ :=
  match r with
  | Get req dpop cookie => (authorize_get req dpop cookie st).2
  | Post req dpop e p => (authorize_post req dpop e p st).2
  | Complete cookie req => (complete cookie req st).2
  | OidcResend cookie req => (oidc_resend cookie req st).2
  | Factor r => PushFactor.serve state W url_parse json_write r st
  end.

(** * Lemmas: what a request reads and writes *)

Abbreviation codes st := (Tokens.authorization_codes (tokens (store st))).
Abbreviation pars st := (Tokens.par_requests (tokens (store st))).
Abbreviation quietly m := (preserves quiet m).

Create HintDb reading discriminated.
#[export] Hint Constants Opaque : reading.
#[local] Hint Resolve quietly_now quietly_random quietly_read quietly_require quietly_guard quietly_push_read quietly_secret
  quietly_send preserves_ret preserves_throw preserves_of_result quiet_po : reading.
Lemma quietly_ulid : quietly ulid.
Proof. intros st. apply quiet_tick. Qed.
#[local] Hint Resolve quietly_ulid : reading.
Ltac hush :=
  repeat first
    [ solve [eauto 3 with reading]
    | progress intros
    | progress cbv zeta
    | apply preserves_bind; [exact quiet_po|..]
    | match goal with
      | |- preserves _ (match ?x with _ => _ end) => destruct x
      end ].
Lemma quietly_clock : quietly now_seconds.
Proof. apply quietly_now. Qed.
Lemma quietly_read_tokens {A} (f : Tokens.Store (J := J) → QidResult A) : quietly (read_tokens f).
Proof. unfold read_tokens. hush. Qed.
#[local] Hint Resolve quietly_clock quietly_read_tokens : reading.
Lemma quietly_find_client cid : quietly (find_client_across_realms cid).
Proof. unfold find_client_across_realms. hush. Qed.
#[local] Hint Resolve quietly_find_client : reading.
Lemma quietly_resolve_client cid : quietly (resolve_client_by_id cid).
Proof. unfold resolve_client_by_id. hush. Qed.
Lemma quietly_object_client v : quietly (find_request_object_client v).
Proof. unfold find_request_object_client. hush. Qed.
#[local] Hint Resolve quietly_resolve_client quietly_object_client : reading.
Lemma quietly_merge_object m ro known : quietly (merge_request_object m ro known).
Proof. unfold merge_request_object. hush. Qed.
#[local] Hint Resolve quietly_merge_object : reading.
Lemma quietly_direct req m c : quietly (resolve_direct req m c).
Proof. unfold resolve_direct. hush. Qed.
Lemma quietly_pushed uri m c : quietly (resolve_pushed uri m c false).
Proof. unfold resolve_pushed. hush. Qed.
#[local] Hint Resolve quietly_direct quietly_pushed : reading.
Lemma quietly_resolve req : quietly (resolve_authorize_request req false).
Proof. unfold resolve_authorize_request. hush. Qed.
#[local] Hint Resolve quietly_resolve : reading.
Lemma quietly_validated req : quietly (resolve_and_validate_authorize_request req false).
Proof. unfold resolve_and_validate_authorize_request. hush. Qed.
Lemma quietly_jarm m c e : quietly (sign_jarm_response m c e).
Proof. unfold sign_jarm_response. hush. Qed.
#[local] Hint Resolve quietly_validated quietly_jarm : reading.
Lemma respond_quiet k : quietly k → quietly (respond k).
Proof. intros Hk st. unfold respond. specialize (Hk st). by destruct (k st). Qed.
Lemma quietly_error m c e d : quietly (authorization_error_response m c e d).
Proof. unfold authorization_error_response. repeat case_bool_decide; [apply respond_quiet|..]; hush. Qed.
Lemma quietly_redirect m c code d : quietly (authorization_response_redirect m c code d).
Proof. unfold authorization_response_redirect. hush. Qed.
#[local] Hint Resolve quietly_error quietly_redirect : reading.

(** ** Effects on codes, pushed requests and continuations

    Codes and pushed requests only grow; a request that stores no code leaves the codes as they are
    ([C]), one that starts or resumes no push continuation the continuations ([K]). *)
Definition flow (C K : bool) (st st' : StJ) : Prop :=
  Tokens.store_grows (tokens (store st)) (tokens (store st')) ∧
  (C = false → codes st' = codes st) ∧ (K = false → continuations st' = continuations st).

Lemma store_grows_trans (a b c : Tokens.Store (J := J)) : Tokens.store_grows a b → Tokens.store_grows b c → Tokens.store_grows a c.
Proof.
  intros (H1 & H2 & H3 & H4) (H5 & H6 & H7 & H8).
  split_and!; intros k x Hx;
    [apply H1 in Hx as (y & Hy & ?); apply H5 in Hy as (z & Hz & ?)|apply H2 in Hx as (y & Hy & ?); apply H6 in Hy as (z & Hz & ?)
    |apply H3 in Hx as (y & Hy & ?); apply H7 in Hy as (z & Hz & ?)|apply H4 in Hx as (y & Hy & ?); apply H8 in Hy as (z & Hz & ?)];
    exists z; auto.
Qed.
#[local] Instance flow_po C K : PreOrder (flow C K).
Proof.
  split; [intros st; split_and!; [apply Tokens.store_grows_refl|done..]|].
  intros a b c (H1 & C1 & K1) (H2 & C2 & K2). split_and!; [by eapply store_grows_trans| |].
  - intros HC. by rewrite C2, C1.
  - intros HK. by rewrite K2, K1.
Qed.
Abbreviation flows C K m := (preserves (flow C K) m).

Lemma same_flow C K st st' : tokens (store st') = tokens (store st) → continuations st' = continuations st → flow C K st st'.
Proof. intros Ht Hc. unfold flow. rewrite Ht, Hc. split_and!; [apply Tokens.store_grows_refl|done..]. Qed.
Lemma quiet_flows C K st st' : quiet st st' → flow C K st st'.
Proof. intros [n ->]. by apply same_flow. Qed.
Lemma flows_quiet C K {A} (m : M StJ A) : quietly m → flows C K m.
Proof. intros Hm st. apply quiet_flows, Hm. Qed.
Lemma flows_weaken C K {A} (m : M StJ A) : flows false false m → flows C K m.
Proof. intros Hm st. destruct (Hm st) as (? & ? & ?). split_and!; auto. Qed.

Lemma flow_push_write C K {A} (f : QidResult unit → Push.Store → QidResult A * Push.Store) : flows C K (push_write W f).
Proof.
  intros st. destruct (push_write W f st) as [r st'] eqn:E. apply push_write_inv in E as (p & _ & ->). by apply same_flow.
Qed.

Lemma flow_login C K {A} (m : (nat → QidResult unit) → (nat → N) → Login.M (J := J) A) :
  (∀ saved now st, tokens (Login.store (m saved now st).2) = tokens (Login.store st) ∧
     oidc_continuations (Login.store (m saved now st).2) = oidc_continuations (Login.store st)) → flows C K (login_call W m).
Proof.
  intros Hm st. unfold login_call.
  specialize (Hm (fun i => w_saved W (tick st + i)) (fun i => w_now W (tick st + i))
                {| Login.store := store st; Login.budget := budget st; Login.limiter := limiter st |}).
  destruct (m _ _ _). destruct Hm. by apply same_flow.
Qed.

Lemma flow_mark_par uri C K : flows C K (write_tokens (fun saved => Tokens.mark_par_request_used saved uri)).
Proof.
  intros st. unfold write_tokens, PushFactor.write, Tokens.mark_par_request_used.
  destruct (pars st !! uri) as [p|] eqn:Ep; [|by apply same_flow]. destruct (Tokens.par_used p) eqn:Eu; [by apply same_flow|].
  split_and!; [|done..]. cbn. split_and!; try apply Tokens.flag_grows_refl. by eapply Tokens.flag_grows_update.
Qed.

Lemma flow_create_code c K : flows true K (write_tokens (fun saved => Tokens.create_authorization_code saved c)).
Proof.
  intros st. unfold write_tokens, PushFactor.write, Tokens.create_authorization_code.
  destruct (codes st !! _) as [p|] eqn:Ep; [by apply same_flow|].
  split_and!; [|done..]. cbn. split_and!; try apply Tokens.flag_grows_refl. by apply Tokens.flag_grows_new.
Qed.

Lemma flow_continuations {A} f C : flows C true (write_continuations (A := A) f).
Proof. intros st. unfold write_continuations, PushFactor.write. destruct (f _ _) as [r rows]. split_and!; [apply Tokens.store_grows_refl|done..]. Qed.

Create HintDb flowing discriminated.
#[export] Hint Constants Opaque : flowing.
#[local] Hint Resolve flow_push_write flow_mark_par flow_create_code flow_continuations : flowing.
#[local] Hint Extern 2 (preserves (flow _ _) _) => (apply flows_quiet; solve [eauto 3 with reading]) : flowing.
Ltac along :=
  repeat first
    [ solve [eauto 3 with flowing]
    | progress intros
    | progress cbv zeta
    | apply preserves_bind; [apply flow_po|..]
    | match goal with
      | |- preserves _ (match ?x with _ => _ end) => destruct x
      end ].

Lemma quietly_slot_ : quietly (acquire_slot W).
Proof. apply quietly_slot. Qed.
#[local] Hint Resolve quietly_slot_ : reading.
Lemma flows_prepare rid uid v C K : flows C K (prepare state W url_parse rid uid v).
Proof. unfold prepare. along. Qed.
Lemma flow_complete_password c v C K : flows C K (complete_password state W url_parse c v).
Proof. unfold complete_password. along. Qed.
Lemma flows_resend rid uid cid v C K : flows C K (PushFactor.resend state W url_parse rid uid cid v).
Proof. unfold PushFactor.resend. along. Qed.
Lemma flows_issue client auth t m K : flows true K (issue_authorization_code client auth t m).
Proof. unfold issue_authorization_code. along. Qed.
Lemma flow_pushed uri m c b C K : flows C K (resolve_pushed uri m c b).
Proof. unfold resolve_pushed. along. Qed.
#[local] Hint Resolve flows_prepare flow_complete_password flows_resend flows_issue flow_pushed : flowing.
Lemma flow_resolve req b C K : flows C K (resolve_authorize_request req b).
Proof. unfold resolve_authorize_request. along. Qed.
#[local] Hint Resolve flow_resolve : flowing.
Lemma flow_validated req b C K : flows C K (resolve_and_validate_authorize_request req b).
Proof. unfold resolve_and_validate_authorize_request. along. Qed.
Lemma flow_push_start m client auth C : flows C true (push_start m client auth).
Proof. unfold push_start. along. Qed.
Lemma flow_resume hdr req : flows true true (resume hdr req).
Proof. unfold resume. along. Qed.
Lemma flow_oidc_resend hdr req C K : flows C K (oidc_resend hdr req).
Proof. unfold oidc_resend. along. Qed.
Lemma flow_spend_par m C K : flows C K (spend_par m).
Proof. unfold spend_par. along. Qed.
#[local] Hint Resolve flow_spend_par : flowing.
Lemma flow_browser m client hdr K : flows true K (authorize_with_browser_session m client hdr).
Proof. unfold authorize_with_browser_session. along. Qed.
#[local] Hint Resolve flow_validated flow_push_start flow_resume flow_oidc_resend flow_browser : flowing.

(** ** Logins *)

Lemma flow_admit rid e policy C K : flows C K (admit_login rid e policy).
Proof.
  apply flow_login. intros saved now st. unfold bind, get_state. destruct (RateLimit.password_admit _ _ _ _ _). done.
Qed.
Lemma flow_succeeded rid e C K : flows C K (succeeded rid e).
Proof. by apply flow_login. Qed.

Definition same_tokens (a b : Login.St (J := J)) : Prop :=
  tokens (Login.store b) = tokens (Login.store a) ∧ oidc_continuations (Login.store b) = oidc_continuations (Login.store a).
#[local] Instance same_tokens_po : PreOrder same_tokens.
Proof. split; [done|]. intros a b c [] []. unfold same_tokens in *. split; congruence. Qed.
Lemma same_tokens_call {A} (f : Store → QidResult A * Store) :
  (∀ s, tokens (f s).2 = tokens s ∧ oidc_continuations (f s).2 = oidc_continuations s) → preserves same_tokens (Login.call f).
Proof. intros Hf st. unfold Login.call, same_tokens. specialize (Hf (Login.store st)). by destruct (f _). Qed.
Lemma same_tokens_update saved u scope_ : preserves same_tokens (Login.call (update_user (J := J) saved u scope_)).
Proof.
  apply same_tokens_call. intros s. unfold update_user. destruct (out_of_scope _ _); [done|]. by destruct (email_held_by_another _ _).
Qed.
Lemma same_tokens_failed policy saved realm u now tf : preserves same_tokens (Login.record_failed_attempt (J := J) policy saved realm u now tf).
Proof.
  unfold Login.record_failed_attempt. apply preserves_bind; [exact same_tokens_po|by intros st|]. intros s0.
  apply preserves_bind; [exact same_tokens_po|by intros st|]. intros _. apply same_tokens_update.
Qed.
Lemma same_tokens_authenticate policy creds saved tb now tf rid e p :
  preserves same_tokens (Login.authenticate_password (J := J) policy creds saved tb now tf rid e p).
Proof.
  unfold Login.authenticate_password. destruct creds as [creds|]; [|by intros st].
  apply preserves_bind; [exact same_tokens_po|by intros st|]. intros s0. destruct (RateLimit.FailureBudget.exhausted _ _ _ _ _); [by intros st|].
  apply preserves_bind; [exact same_tokens_po|by intros st|]. intros [u|]; [|by intros st].
  apply preserves_bind; [exact same_tokens_po| |intros _].
  { destruct (locked_until u); [|by intros st]. destruct (_ <? _); [by intros st|apply same_tokens_update]. }
  apply preserves_bind; [exact same_tokens_po|by intros st|]. intros s1. destruct (get_password_credential _ _) as [cred|].
  2:{ apply preserves_bind; [exact same_tokens_po|apply same_tokens_failed|]. by intros _ st. }
  destruct (Login.pc_verify creds p cred) as [[] rehash]; cbn [negb].
  2:{ apply preserves_bind; [exact same_tokens_po|apply same_tokens_failed|]. by intros _ st. }
  apply preserves_bind; [exact same_tokens_po| |intros _; apply preserves_bind; [exact same_tokens_po| |by intros _ st]].
  - destruct rehash; [|by intros st]. apply preserves_bind; [exact same_tokens_po|by intros st|]. intros h.
    apply same_tokens_call. intros s. unfold update_password_credential_in_realm. by destruct (_ || _).
  - destruct (_ || _); [apply same_tokens_update|by intros st].
Qed.
Lemma flow_authenticate policy creds rid e p C K :
  flows C K (login_call W (fun saved now => Login.authenticate_password policy creds saved (now 0%nat) (now 1%nat) (now 2%nat) rid e p)).
Proof. apply flow_login. intros saved now st. apply same_tokens_authenticate. Qed.
Lemma flows_attempt {A} (m : M StJ A) C K : flows C K m → flows C K (attempt m).
Proof. intros Hm st. unfold attempt. specialize (Hm st). by destruct (m st). Qed.
Lemma flow_respond k C K : flows C K k → flows C K (respond k).
Proof. intros Hk st. unfold respond. specialize (Hk st). by destruct (k st). Qed.
#[local] Hint Resolve flow_admit flow_succeeded flow_authenticate flows_attempt : flowing.

Lemma flow_get req dpop hdr K : flows true K (authorize_get req dpop hdr).
Proof. unfold authorize_get. apply flow_respond. along. Qed.
Lemma flow_post_login m client e p : flows true true (post_login m client e p).
Proof. unfold post_login. along. Qed.
#[local] Hint Resolve flow_post_login : flowing.
Lemma flow_post req dpop e p : flows true true (authorize_post req dpop e p).
Proof. unfold authorize_post. apply flow_respond. along. Qed.

(** The push factor on its own touches neither. *)
Lemma flows_establish realm hdr auth C K : flows C K (establish_session state W realm hdr auth).
Proof.
  unfold establish_session. apply preserves_bind; [apply flow_po|along|]. intros bytes.
  apply flow_login. intros saved now st. apply keeps_establish.
Qed.
#[local] Hint Resolve quietly_sent quietly_owner quietly_recent : reading.
#[local] Hint Resolve flows_establish : flowing.
Lemma flows_decision req C K : flows C K (record_decision state W url_parse req).
Proof. unfold record_decision. along. Qed.
Lemma flow_factor r C K st : flow C K st (PushFactor.serve state W url_parse json_write r st).
Proof.
  destruct r as [auth|[realm|] req|realm hdr req|realm hdr req|realm hdr req|realm hdr req|realm hdr aid]; unfold PushFactor.serve.
  - enough (flows C K (start state W url_parse auth)) as Hm by apply Hm. unfold start. along.
  - unfold record_decision_in_realm. destruct (negb _); [by apply same_flow|apply flows_decision].
  - apply flows_decision.
  - enough (flows C K (finish state W url_parse realm hdr req)) as Hm by apply Hm. unfold finish. along.
  - enough (flows C K (resend_bound state W url_parse realm hdr req)) as Hm by apply Hm. unfold resend_bound. along.
  - enough (flows C K (enroll_start state W url_parse json_write realm hdr req)) as Hm by apply Hm. unfold enroll_start. along.
  - enough (flows C K (enroll_finish state W url_parse json_write realm hdr req)) as Hm by apply Hm. unfold enroll_finish. along.
  - enough (flows C K (enroll_revoke state W realm hdr aid)) as Hm by apply Hm. unfold enroll_revoke. along.
Qed.

Definition served (st st' : StJ) : Prop := ∃ r, st' = serve r st.

Lemma served_grows st st' : rtc served st st' → Tokens.store_grows (tokens (store st)) (tokens (store st')).
Proof.
  induction 1 as [|s1 s2 s3 [r ->] _ IH]; [apply Tokens.store_grows_refl|]. eapply store_grows_trans; [|done].
  destruct r as [req dpop hdr|req dpop e p|hdr req|hdr req|r]; unfold serve.
  - apply (flow_get req dpop hdr true).
  - apply (flow_post req dpop e p).
  - apply (flow_respond (resume hdr req) true true), flow_resume.
  - apply (flow_oidc_resend hdr req true true).
  - apply (flow_factor r true true).
Qed.

(** ** Storing a code *)

(** The request stored [c], and no other code. *)
Definition stored (st st' : StJ) (c : Tokens.AuthorizationCode (J := J)) : Prop :=
  codes st !! Tokens.code_hash c = None ∧ codes st' = <[Tokens.code_hash c := c]> (codes st).

Lemma stored_between (a b c d : StJ) x : codes b = codes a → stored b c x → codes d = codes c → stored a d x.
Proof. intros Hab [Hn Hc] Hcd. unfold stored. by rewrite <- Hab, Hcd, Hc. Qed.

(** The codes that a request on [m] for [client] stores for [auth]. *)
Definition code_for (client : ClientJ) (auth : Login.AuthResult) (t : N) (m : AuthorizeParameters)
    (c : Tokens.AuthorizationCode (J := J)) : Prop :=
  ∃ code n1 n2, c = new_code client auth t m code (w_now W n1) (w_now W n2).

Lemma issue_cases client auth t m st r st' :
  issue_authorization_code client auth t m st = (r, st') →
  continuations st' = continuations st ∧ pars st' = pars st ∧
  (codes st' = codes st ∨ ∃ c, code_for client auth t m c ∧ stored st st' c).
Proof.
  unfold issue_authorization_code, now_seconds, PushFactor.now_seconds, ulid, write_tokens, PushFactor.write,
    Tokens.create_authorization_code, bind. cbn -[new_code].
  destruct (codes st !! _) as [old|] eqn:Ec.
  - intros [= <- <-]. split_and!; [done..|by left].
  - destruct (w_saved W _); intros [= <- <-]; (split_and!; [done..|]; right; eexists; split; [by eexists _, _, _|by split]).
Qed.

(** A part of a request that stores nothing, then the rest. *)
Lemma bind_flow {A B} (k : M StJ A) (f : A → M StJ B) C K st r st' :
  flows C K k → bind k f st = (r, st') →
  flow C K st st' ∨ ∃ a s1, k st = (Ok a, s1) ∧ flow C K st s1 ∧ f a s1 = (r, st').
Proof.
  intros Hk. specialize (Hk st). unfold bind. destruct (k st) as [[a|e] s1] eqn:E; cbn in Hk.
  - intros Hf. right. by exists a, s1.
  - intros [= <- <-]. by left.
Qed.
Lemma flow_codes K st st' : flow false K st st' → codes st' = codes st.
Proof. intros (_ & Hc & _). by apply Hc. Qed.
Lemma quiet_codes (st st' : StJ) : quiet st st' → codes st' = codes st.
Proof. by intros [n ->]. Qed.

(** ** Resolution and validation *)

(** What a validated request is. *)
Record validated (m : AuthorizeParameters) (client : ClientJ) : Prop := {
  v_enabled : ∃ config, find_config (c_realm_id client) = Some config ∧ oidc_enabled config = true ∧
    authorization_code_enabled config = true ∧ (jarm_enabled config = true → response_mode m = Some "jwt");
  v_type : response_type m = "code";
  v_redirect : redirect_uri m ∈ OAuth.redirect_uris (body_of client);
  v_grant : "authorization_code" ∈ OAuth.grant_types (body_of client);
  v_pkce : ∀ realm, find_realm state (c_realm_id client) = Some realm → pkce_required realm = true →
    ∃ challenge, code_challenge m = Some challenge ∧ challenge ≠ "" ∧ code_challenge_method m = Some "S256";
  v_details : ∀ d, authorization_details m = Some d → OAuth.validate_authorization_details d = Ok tt
}.

Lemma is_empty_str_spec s : is_empty_str s = true ↔ s = "".
Proof. by destruct s. Qed.

Lemma validate_inv m client : validate_authorize_request m client = Ok tt → validated m client.
Proof.
  unfold validate_authorize_request. intros (config & Hc%ok_or_Ok & Hv)%res_bind_Ok.
  destruct (_ || _) eqn:He in Hv; [done|]. rewrite orb_false_iff, !negb_false_iff in He. destruct He as [He1 He2].
  destruct (String.eqb_spec (response_type m) "code") as [Ht|]; cbn in Hv; [|done].
  destruct (match response_mode m with Some _ => _ | None => _ end); [done|].
  destruct (jarm_enabled config && _) eqn:Hj in Hv; [done|].
  destruct (str_in (redirect_uri m) _) eqn:Hr in Hv; cbn in Hv; [|done]. destruct (str_in "authorization_code" _) eqn:Hg in Hv; cbn in Hv; [|done].
  apply res_bind_Ok in Hv as (realm & Hre%ok_or_Ok & Hv). destruct (pkce_required realm && _) eqn:Hp in Hv; [done|].
  apply str_in_spec in Hr, Hg. split; try done.
  - exists config. split_and!; [done..|]. intros Hje. rewrite Hje in Hj. cbn in Hj. apply negb_false_iff in Hj. by apply bool_decide_eq_true in Hj.
  - intros realm' Hr' Hpk. rewrite Hre in Hr'. injection Hr' as <-. rewrite Hpk in Hp. cbn in Hp.
    apply orb_false_iff in Hp as [Hp1 Hp2]. apply negb_false_iff, bool_decide_eq_true in Hp2.
    destruct (code_challenge m) as [ch|]; [|done]. exists ch. split_and!; [done| |done]. by intros ->.
  - intros d Hd. by rewrite Hd in Hv.
Qed.

Definition registered (st : StJ) (client : ClientJ) : Prop :=
  ∃ k, clients (store st) !! k = Some client ∧ c_realm_id client ∈ configured_realm_ids.

Lemma found_clients realms cid s c :
  c ∈ find_clients_by_client_id (J := J) realms cid s →
  (∃ k, clients s !! k = Some c) ∧ client_id c = cid ∧ c_realm_id c ∈ realms.
Proof.
  unfold find_clients_by_client_id. intros Hc. apply list_elem_of_In, filter_In in Hc as [Hc Hp].
  apply list_elem_of_In, values_elem in Hc. apply andb_true_iff in Hp as [H1%String.eqb_eq H2%str_in_spec]. done.
Qed.

(** Takes a successful run of a computation apart. *)
Ltac run_inv :=
  repeat match goal with
  | Hr : bind _ _ _ = (Ok _, _) |- _ =>
      let a := fresh "a" in let s := fresh "s" in let E := fresh "E" in apply bind_inv in Hr as (a & s & E & Hr)
  | Hr : guard _ _ _ = (Ok _, _) |- _ => apply guard_yields in Hr as [Hr ->]
  | Hr : require _ _ _ = (Ok _, _) |- _ => apply require_yields in Hr as [Hr ->]
  | Hr : read _ _ = (Ok _, _) |- _ => apply read_yields in Hr as [-> ->]
  | Hr : push_read _ _ = (Ok _, _) |- _ => apply push_read_inv in Hr as [Hr ->]
  | Hr : now_seconds _ = (Ok _, _) |- _ => apply now_yields in Hr as [-> ->]
  | Hr : of_result _ _ = (Ok _, _) |- _ => apply of_result_inv in Hr as [Hr ->]
  | Hr : ret _ _ = (Ok _, _) |- _ => unfold ret in Hr; injection Hr as <- <-
  end.

Lemma found_client cid st c st' :
  find_client_across_realms cid st = (Ok c, st') → registered st c ∧ client_id c = cid.
Proof.
  unfold find_client_across_realms. intros Hok. run_inv. destruct (find_clients_by_client_id _ _ _) as [|x [|]] eqn:Hf in Hok; try done.
  run_inv. destruct (found_clients configured_realm_ids cid (store st) x) as ([k Hk] & Hid & Hr); [rewrite Hf; by left|].
  split; [by exists k|done].
Qed.

Lemma resolve_client_inv cid st o st' :
  resolve_client_by_id cid st = (Ok o, st') →
  match o with Some c => registered st c ∧ client_id c = cid | None => cid = "" end.
Proof.
  unfold resolve_client_by_id. destruct (is_empty_str cid) eqn:He; intros Hok; run_inv; [by apply is_empty_str_spec|].
  by apply found_client in E.
Qed.

Lemma object_client_inv payload st c st' :
  find_request_object_client payload st = (Ok c, st') →
  registered st c ∧ request_object_identity payload = Some (client_id c) ∧
  request_object_audience_matches_realm (c_realm_id c) payload = true.
Proof.
  unfold find_request_object_client. intros Hok. run_inv.
  destruct (List.filter _ _) as [|x [|]] eqn:Hf in Hok; try done. run_inv.
  assert (In x (List.filter (fun c => request_object_audience_matches_realm (c_realm_id c) payload)
    (find_clients_by_client_id configured_realm_ids a (store st)))) as Hx by (rewrite Hf; by left).
  apply filter_In in Hx as [Hx Ha]. apply list_elem_of_In, found_clients in Hx as ([k Hk] & Hid & Hr).
  split_and!; [by exists k|by rewrite Hid|done].
Qed.

Lemma merge_param_Some target x name v : merge_authorize_param target (Some x) name = Ok v → v = x.
Proof.
  unfold merge_authorize_param. destruct (is_empty_str target); [by intros [= <-]|].
  destruct (String.eqb_spec target x); cbn; [|done]. by intros [= <-].
Qed.
Lemma merge_param_kept target o name v : merge_authorize_param target o name = Ok v → target ≠ "" → v = target.
Proof.
  unfold merge_authorize_param. destruct o as [x|]; [|by intros [= <-]]. intros Hm Hne.
  destruct (is_empty_str target) eqn:He; [by apply is_empty_str_spec in He|].
  destruct (String.eqb target x); cbn in Hm; [|done]. by injection Hm as <-.
Qed.
Lemma merge_optional_Some target x name v : merge_optional_authorize_param target (Some x) name = Ok v → v = Some x.
Proof.
  unfold merge_optional_authorize_param. destruct target as [t|]; [|by intros [= <-]].
  destruct (String.eqb_spec t x) as [->|]; cbn; [|done]. by intros [= <-].
Qed.
Lemma merge_optional_kept t o name v : merge_optional_authorize_param (Some t) o name = Ok v → v = Some t.
Proof.
  unfold merge_optional_authorize_param. destruct o as [x|]; [|by intros [= <-]].
  destruct (String.eqb t x); cbn; [|done]. by intros [= <-].
Qed.
Lemma merge_max_age_Some target x v : merge_max_age_param target (Some x) = Ok v → v = Some x.
Proof. unfold merge_max_age_param. destruct (match target with Some _ => _ | None => _ end); [|done]. by intros [= <-]. Qed.
Lemma merge_max_age_kept t o v : merge_max_age_param (Some t) o = Ok v → v = Some t.
Proof.
  unfold merge_max_age_param. destruct o as [x|]; [|by intros [= <-]]. destruct (N.eqb_spec t x) as [->|]; [|done]. by intros [= <-].
Qed.

Lemma merge_json_Some target x name v :
  merge_optional_json_authorize_param target (Some x) name = Ok v → ∃ y, v = Some y ∧ (y = x ∨ value_eqb y x = true).
Proof.
  unfold merge_optional_json_authorize_param. destruct target as [t|]; [|intros [= <-]; by eauto].
  destruct (value_eqb t x) eqn:He; cbn; [|done]. intros [= <-]. eauto.
Qed.
Lemma merge_json_kept t o name v : merge_optional_json_authorize_param (Some t) o name = Ok v → v = Some t.
Proof.
  unfold merge_optional_json_authorize_param. destruct o as [x|]; [|by intros [= <-]].
  destruct (value_eqb t x); cbn; [|done]. by intros [= <-].
Qed.
Lemma merge_claims_Some target x v :
  merge_claims_param target (Some x) = Ok v → ∃ y, v = Some y ∧ (y = x ∨ claims_documents_conflict y x = false).
Proof.
  unfold merge_claims_param. destruct target as [t|]; [|intros [= <-]; by eauto].
  destruct (claims_documents_conflict t x) eqn:He; cbn; [done|]. intros [= <-]. eauto.
Qed.
Lemma merge_claims_kept t o v : merge_claims_param (Some t) o = Ok v → v = Some t.
Proof.
  unfold merge_claims_param. destruct o as [x|]; [|by intros [= <-]].
  destruct (claims_documents_conflict t x); cbn; [done|]. by intros [= <-].
Qed.

(** ** What a merge keeps

    [carried p m]: every parameter that [p] carries has its value in [m], documents up to equality of
    JSON.  [extends m m']: every parameter of [m] is still there. *)
Record carried (p : AuthorizeRequest) (m : AuthorizeParameters) : Prop := {
  k_client_id : ∀ x, rq_client_id p = Some x → ap_client_id m = x;
  k_response_type : ∀ x, rq_response_type p = Some x → response_type m = x;
  k_redirect_uri : ∀ x, rq_redirect_uri p = Some x → redirect_uri m = x;
  k_scope : ∀ x, rq_scope p = Some x → scope m = Some x;
  k_state : ∀ x, rq_state p = Some x → ap_state m = Some x;
  k_response_mode : ∀ x, rq_response_mode p = Some x → response_mode m = Some x;
  k_code_challenge : ∀ x, rq_code_challenge p = Some x → code_challenge m = Some x;
  k_code_challenge_method : ∀ x, rq_code_challenge_method p = Some x → code_challenge_method m = Some x;
  k_resource : ∀ x, rq_resource p = Some x → resource m = Some x;
  k_details : ∀ x, rq_authorization_details p = Some x →
    ∃ y, authorization_details m = Some y ∧ (y = x ∨ value_eqb y x = true);
  k_nonce : ∀ x, rq_nonce p = Some x → nonce m = Some x;
  k_prompt : ∀ x, rq_prompt p = Some x → prompt m = Some x;
  k_max_age : ∀ x, rq_max_age p = Some x → max_age m = Some x;
  k_acr_values : ∀ x, rq_acr_values p = Some x → acr_values m = Some x;
  k_claims : ∀ x, rq_claims p = Some x → ∃ y, claims m = Some y ∧ (y = x ∨ claims_documents_conflict y x = false)
}.

Record extends (m m' : AuthorizeParameters) : Prop := {
  x_client_id : ap_client_id m ≠ "" → ap_client_id m' = ap_client_id m;
  x_response_type : response_type m ≠ "" → response_type m' = response_type m;
  x_redirect_uri : redirect_uri m ≠ "" → redirect_uri m' = redirect_uri m;
  x_scope : ∀ x, scope m = Some x → scope m' = Some x;
  x_state : ∀ x, ap_state m = Some x → ap_state m' = Some x;
  x_response_mode : ∀ x, response_mode m = Some x → response_mode m' = Some x;
  x_code_challenge : ∀ x, code_challenge m = Some x → code_challenge m' = Some x;
  x_code_challenge_method : ∀ x, code_challenge_method m = Some x → code_challenge_method m' = Some x;
  x_resource : ∀ x, resource m = Some x → resource m' = Some x;
  x_details : ∀ x, authorization_details m = Some x → authorization_details m' = Some x;
  x_nonce : ∀ x, nonce m = Some x → nonce m' = Some x;
  x_prompt : ∀ x, prompt m = Some x → prompt m' = Some x;
  x_max_age : ∀ x, max_age m = Some x → max_age m' = Some x;
  x_acr_values : ∀ x, acr_values m = Some x → acr_values m' = Some x;
  x_claims : ∀ x, claims m = Some x → claims m' = Some x;
  x_request_uri : ap_request_uri m' = ap_request_uri m
}.

(** A request object as the parameters it carries. *)
Definition object_request (payload : J) : AuthorizeRequest :=
  let text name := request_object_string payload name in
  {| request := None; rq_client_id := request_object_identity payload; rq_response_type := text "response_type";
     rq_redirect_uri := text "redirect_uri"; rq_scope := text "scope"; rq_state := text "state";
     rq_response_mode := text "response_mode"; rq_code_challenge := text "code_challenge";
     rq_code_challenge_method := text "code_challenge_method"; rq_resource := text "resource";
     rq_authorization_details := value_get "authorization_details" payload; rq_nonce := text "nonce";
     rq_prompt := text "prompt"; rq_request_uri := None; rq_max_age := claim_u64 payload "max_age";
     rq_acr_values := text "acr_values"; rq_claims := json_write <$> value_get "claims" payload |}.

(** No required parameter of [p] is the empty string, which the merge takes for an absent one. *)
Definition solid (p : AuthorizeRequest) : Prop :=
  rq_client_id p ≠ Some "" ∧ rq_response_type p ≠ Some "" ∧ rq_redirect_uri p ≠ Some "".

Lemma extends_refl m : extends m m.
Proof. by split. Qed.

Lemma carried_extends p m m' : carried p m → solid p → extends m m' → carried p m'.
Proof.
  intros Hc (S1 & S2 & S3) Hx. split; intros x Hp.
  - rewrite (x_client_id _ _ Hx); rewrite (k_client_id _ _ Hc x Hp); congruence.
  - rewrite (x_response_type _ _ Hx); rewrite (k_response_type _ _ Hc x Hp); congruence.
  - rewrite (x_redirect_uri _ _ Hx); rewrite (k_redirect_uri _ _ Hc x Hp); congruence.
  - eapply x_scope, k_scope; done.
  - eapply x_state, k_state; done.
  - eapply x_response_mode, k_response_mode; done.
  - eapply x_code_challenge, k_code_challenge; done.
  - eapply x_code_challenge_method, k_code_challenge_method; done.
  - eapply x_resource, k_resource; done.
  - destruct (k_details _ _ Hc x Hp) as (y & Hy & ?). exists y. split; [by eapply x_details|done].
  - eapply x_nonce, k_nonce; done.
  - eapply x_prompt, k_prompt; done.
  - eapply x_max_age, k_max_age; done.
  - eapply x_acr_values, k_acr_values; done.
  - destruct (k_claims _ _ Hc x Hp) as (y & Hy & ?). exists y. split; [by eapply x_claims|done].
Qed.

Ltac merge_inv Hm :=
  repeat (let v := fresh "v" in let E := fresh "E" in apply res_bind_Ok in Hm as (v & E & Hm)); injection Hm as <-.
(** Closes a field of [carried] or [extends] by the merge that produced it. *)
Ltac by_merge :=
  repeat match goal with Hp : ?f ?p = Some _, E : context [?f ?p] |- _ => rewrite Hp in E end;
  first [ reflexivity | eapply merge_param_Some; eassumption | eapply merge_optional_Some; eassumption
        | eapply merge_max_age_Some; eassumption | eapply merge_json_Some; eassumption | eapply merge_claims_Some; eassumption
        | eapply merge_param_kept; eassumption | eapply merge_optional_kept; eassumption | eapply merge_json_kept; eassumption
        | eapply merge_claims_kept; eassumption | eapply merge_max_age_kept; eassumption ].

Lemma merge_par_carried m p m' : merge_par_parameters m p = Ok m' → carried p m' ∧ extends m m'.
Proof.
  unfold merge_par_parameters. intros Hm. merge_inv Hm. split; split; cbn; intros; by_merge.
Qed.

Lemma merge_object_carried m payload m' :
  merge_object_parameters m payload = Ok m' → carried (object_request payload) m' ∧ extends m m'.
Proof.
  unfold merge_object_parameters. cbv zeta. intros Hm. merge_inv Hm. split; split; cbn; intros; by_merge.
Qed.

(** The parameters of [ro] are in [m], and [ro] is signed by a key of [c]. *)
Definition signed_parameters (c : ClientJ) (ro : string) (m : AuthorizeParameters) : Prop :=
  ∃ header payload n, decode_header jose ro = Ok header ∧ parse_request_object_payload ro = Ok payload ∧
    verify_request_object_signature ro header c (alg_name (h_alg header)) = Ok tt ∧
    request_object_audience_matches_realm (c_realm_id c) payload = true ∧
    validate_request_object_time payload (w_now W n) = Ok tt ∧
    (solid (object_request payload) → carried (object_request payload) m).

Lemma signed_extends c ro m m' : signed_parameters c ro m → extends m m' → signed_parameters c ro m'.
Proof.
  intros (h & p & n & H1 & H2 & H3 & H4 & H5 & H6) Hx. exists h, p, n. split_and!; [done..|].
  intros Hs. eapply carried_extends; eauto.
Qed.

Lemma merge_object_inv m ro known st m' c st' :
  merge_request_object m ro known st = (Ok (m', c), st') →
  (registered st c ∨ known = Some c) ∧ client_id c = ap_client_id m' ∧ extends m m' ∧ signed_parameters c ro m'.
Proof.
  unfold merge_request_object. intros Hok. run_inv.
  assert ((registered st a1 ∨ known = Some a1) ∧ request_object_identity a0 = Some (client_id a1)) as [Hreg Hid].
  { assert (find_request_object_client a0 st = (Ok a1, s1) → (registered st a1 ∨ known = Some a1) ∧ request_object_identity a0 = Some (client_id a1)) as Hf.
    { intros (? & ? & _)%object_client_inv. by split; [left|]. }
    destruct known as [k|]; [|by apply Hf]. case_bool_decide as Hb; [|by apply Hf]. run_inv. by split; [right|]. }
  match goal with Hm : merge_object_parameters _ _ = Ok _ |- _ => apply merge_object_carried in Hm as [Hc Hx] end.
  destruct a3. split_and!; [done| |done|].
  - symmetry. by apply (k_client_id _ _ Hc).
  - destruct (decode_header jose ro) as [header|] eqn:Hd; [|done]. injection E as ->. eexists a, a0, _. split_and!; try done.
    + unfold validate_request_object_audience in E4. by destruct (request_object_audience_matches_realm _ _).
    + match goal with Ht : validate_request_object_time _ _ = Ok ?u |- _ => destruct u; exact Ht end.
Qed.

Record resolved (st : StJ) (req : AuthorizeRequest) (m : AuthorizeParameters) (client : ClientJ) : Prop := {
  r_registered : registered st client;
  r_named : client_id client ≠ "" → client_id client = ap_client_id m;
  r_query : extends (query_parameters req) m;
  r_signed : ∀ ro, request req = Some ro → ∃ c, signed_parameters c ro m;
  r_pushed : ∀ uri, rq_request_uri req = Some uri →
    ∃ par params n, pars st !! uri = Some par ∧ Tokens.par_used par = false ∧ w_now W n < Tokens.par_expires_at par ∧
      params_from_value jose (Tokens.params_json par) = Ok params ∧ carried params m ∧
      ap_client_id m = Tokens.par_client_id par ∧ ∀ ro, request params = Some ro → ∃ c, signed_parameters c ro m
}.

(** The pushed request of [m], if it has one, was unused in [st] and is used in [st']. *)
Definition par_spent (m : AuthorizeParameters) (st st' : StJ) : Prop :=
  ∀ uri, ap_request_uri m = Some uri →
    Tokens.spent (tokens (store st)) (Tokens.KPar uri) = false ∧ Tokens.spent (tokens (store st')) (Tokens.KPar uri) = true.

Lemma extends_trans a b c : extends a b → extends b c → extends a c.
Proof.
  intros Hab Hbc. split; intros.
  - rewrite (x_client_id _ _ Hbc); rewrite (x_client_id _ _ Hab); done.
  - rewrite (x_response_type _ _ Hbc); rewrite (x_response_type _ _ Hab); done.
  - rewrite (x_redirect_uri _ _ Hbc); rewrite (x_redirect_uri _ _ Hab); done.
  - eapply x_scope, x_scope; done.
  - eapply x_state, x_state; done.
  - eapply x_response_mode, x_response_mode; done.
  - eapply x_code_challenge, x_code_challenge; done.
  - eapply x_code_challenge_method, x_code_challenge_method; done.
  - eapply x_resource, x_resource; done.
  - eapply x_details, x_details; done.
  - eapply x_nonce, x_nonce; done.
  - eapply x_prompt, x_prompt; done.
  - eapply x_max_age, x_max_age; done.
  - eapply x_acr_values, x_acr_values; done.
  - eapply x_claims, x_claims; done.
  - rewrite (x_request_uri _ _ Hbc). apply (x_request_uri _ _ Hab).
Qed.

(** The client that is known so far, and the parameters it is known with. *)
Definition known_client (st : StJ) (client : option ClientJ) (m : AuthorizeParameters) : Prop :=
  ∀ c, client = Some c → registered st c ∧ client_id c = ap_client_id m.

Lemma registered_clients st st' c : clients (store st') = clients (store st) → registered st' c → registered st c.
Proof. intros Hc (k & Hk & Hr). exists k. by rewrite <- Hc. Qed.

Lemma read_tokens_yields {A} (f : Tokens.Store (J := J) → QidResult A) st a st' :
  read_tokens f st = (Ok a, st') → f (tokens (store st)) = Ok a ∧ st' = st.
Proof. unfold read_tokens. intros (r & s1 & [-> ->]%read_yields & [Hr ->]%of_result_inv)%bind_inv. done. Qed.

Lemma write_tokens_inv {A} (f : QidResult unit → Tokens.Store (J := J) → QidResult A * Tokens.Store) st r st' :
  write_tokens f st = (r, st') →
  ∃ t, f (w_saved W (tick st)) (tokens (store st)) = (r, t) ∧ st' = tick_by 1 (put_store (OAuth.set_tokens (store st) t) st).
Proof. unfold write_tokens, PushFactor.write. destruct (f _ _) as [r0 t]. intros [= <- <-]. by exists t. Qed.

Lemma direct_inv req m0 client st m c st' :
  known_client st client m0 → resolve_direct req m0 client st = (Ok (m, c), st') →
  m = m0 ∧ registered st c ∧ client_id c = ap_client_id m.
Proof.
  intros Hk. unfold resolve_direct. intros Hok. run_inv. subst. split; [done|].
  destruct client as [k|]; [run_inv; by apply Hk|]. by apply resolve_client_inv in E.
Qed.

(** What the parameters of a pushed request add: its own request object first. *)
Lemma pushed_object_inv m0 client params st both st' :
  known_client st client m0 →
  match request params with
  | Some ro => let! p := merge_request_object m0 ro client in ret (p.1, Some p.2)
  | None => ret (m0, client)
  end st = (Ok both, st') →
  quiet st st' ∧ known_client st both.2 both.1 ∧ extends m0 both.1 ∧
  ∀ ro, request params = Some ro → ∃ c, signed_parameters c ro both.1.
Proof.
  intros Hk Hok. destruct (request params) as [ro|].
  - run_inv. destruct a as [m1 c1]. apply quiet_ok in E as Hq; [|apply quietly_merge_object].
    apply merge_object_inv in E as (Hreg & Hid & Hx & Hs). split_and!; [done| |done|].
    + intros c [= <-]. split; [|done]. destruct Hreg as [?|Hreg]; [done|]. by apply (Hk c1).
    + intros ro' [= <-]. by exists c1.
  - run_inv. split_and!; [reflexivity|done|apply extends_refl|done].
Qed.

Lemma mark_par_inv uri st u st' :
  write_tokens (fun saved => Tokens.mark_par_request_used saved uri) st = (Ok u, st') →
  Tokens.spent (tokens (store st)) (Tokens.KPar uri) = false ∧ Tokens.spent (tokens (store st')) (Tokens.KPar uri) = true ∧
  (∃ t, st' = tick_by 1 (put_store (OAuth.set_tokens (store st) t) st)) ∧ codes st' = codes st.
Proof.
  intros (t & Ht & ->)%write_tokens_inv. unfold Tokens.mark_par_request_used in Ht.
  destruct (pars st !! uri) as [p|] eqn:Ep; [|done]. destruct (Tokens.par_used p) eqn:Eu; [done|].
  injection Ht as _ <-. cbn. rewrite Ep, lookup_insert_eq. split_and!; [done..|by eexists|done].
Qed.

Lemma pushed_inv uri m0 client b st m c st' :
  known_client st client m0 → resolve_pushed uri m0 client b st = (Ok (m, c), st') →
  registered st c ∧ (client_id c ≠ "" → client_id c = ap_client_id m) ∧ extends m0 m ∧
  ∃ par params n, pars st !! uri = Some par ∧ Tokens.par_used par = false ∧ w_now W n < Tokens.par_expires_at par ∧
    params_from_value jose (Tokens.params_json par) = Ok params ∧ carried params m ∧
    ap_client_id m = Tokens.par_client_id par ∧ (∀ ro, request params = Some ro → ∃ c, signed_parameters c ro m) ∧
    (b = true → Tokens.spent (tokens (store st')) (Tokens.KPar uri) = true).
Proof.
  intros Hk. unfold resolve_pushed. intros Hok. run_inv. apply read_tokens_yields in E0 as [E0 ->]. subst.
  apply pushed_object_inv in E6 as ([n Hq] & Hkn & Hx & Hs); [|done]. rewrite tick_by_add in Hq.
  apply merge_par_carried in E7 as [Hc Hx2]. apply negb_false_iff, String.eqb_eq in E8. apply N.leb_gt in E4.
  assert (clients (store s10) = clients (store st) ∧
          (b = true → Tokens.spent (tokens (store s10)) (Tokens.KPar uri) = true)) as [Hcl Hsp].
  { destruct b; [|run_inv; by subst]. apply mark_par_inv in E10 as (_ & ? & [t ->] & _). by subst. }
  assert (registered st a11 ∧ (client_id a11 ≠ "" → client_id a11 = ap_client_id a7) ∧ quiet s10 st') as (Hreg & Hid & Hq2).
  { destruct (a6.2) as [k|] eqn:Ek.
    - run_inv. destruct (Hkn k eq_refl) as [Hr1 Hr2]. split_and!; [done| |reflexivity].
      intros Hne. rewrite Hr2 in Hne |- *. symmetry. by apply (x_client_id _ _ Hx2).
    - apply quiet_ok in E11 as Hq2; [|hush]. run_inv. subst.
      match goal with Hc : resolve_client_by_id _ _ = _ |- _ => apply resolve_client_inv in Hc as [Hr1 Hr2] end.
      split_and!; [by eapply registered_clients|done|done]. }
  unfold Tokens.get_par_request in E0. injection E0 as E0. destruct (params_from_value _ _) as [ps|] eqn:Hps; [|done]. injection E5 as ->.
  split_and!; [done..|by eapply extends_trans|]. exists a1, a5, (tick st). split_and!; try done.
  - intros ro Hro. destruct (Hs ro Hro) as [c Hc']. exists c. by eapply signed_extends.
  - intros Hb. destruct Hq2 as [k ->]. by apply Hsp.
Qed.

Lemma resolve_inv req b st m c st' :
  resolve_authorize_request req b st = (Ok (m, c), st') → resolved st req m c ∧ (b = true → par_spent m st st').
Proof.
  unfold resolve_authorize_request. intros Hok. run_inv.
  assert (quiet st s ∧ known_client st a.2 a.1 ∧ extends (query_parameters req) a.1 ∧
          ∀ ro, request req = Some ro → ∃ c, signed_parameters c ro a.1) as (Hq & Hk & Hx & Hs).
  { destruct (request req) as [ro|].
    - run_inv. destruct a0 as [m1 c1]. apply quiet_ok in E0 as Hq; [|apply quietly_merge_object].
      apply merge_object_inv in E0 as ([Hreg|?] & Hid & Hx & Hs); [|done]. split_and!; [done| |done|].
      + by intros c2 [= <-].
      + intros ro' [= <-]. by exists c1.
    - run_inv. split_and!; [reflexivity|done|apply extends_refl|done]. }
  destruct Hq as [n ->]. destruct (rq_request_uri req) as [uri|] eqn:Hu.
  - apply pushed_inv in Hok as (Hr & Hn & Hx2 & par & params & i & H1 & H2 & H3 & H4 & H5 & H6 & H7 & Hsp); [|done].
    assert (extends (query_parameters req) m) as Hxm by by eapply extends_trans.
    split; [split; [done|done|done| |]|].
    + intros ro Hro. destruct (Hs ro Hro) as [c' Hc']. exists c'. by eapply signed_extends.
    + rewrite Hu. intros ? [= <-]. by exists par, params, i.
    + intros Hb uri' Hu'. rewrite (x_request_uri _ _ Hxm) in Hu'. cbn in Hu'. rewrite Hu in Hu'. injection Hu' as <-.
      split; [|by apply Hsp]. cbn in H1 |- *. by rewrite H1.
  - apply direct_inv in Hok as (-> & Hr & Hn); [|done]. split; [split; [done|done|done|done|by rewrite Hu]|].
    intros _ uri' Hu'. rewrite (x_request_uri _ _ Hx) in Hu'. cbn in Hu'. by rewrite Hu in Hu'.
Qed.

(** ** Who a code is issued for *)

(** The live session of the request's browser, recent and strong enough, of a user of the client's
    realm who owes no second factor. *)
Record session_in_force (st : StJ) (hdr : option string) (client : ClientJ) (m : AuthorizeParameters) (sid : string)
    (x : Session (J := J)) (user : User) : Prop := {
  sf_cookie : ∃ realm, find_realm state (c_realm_id client) = Some realm ∧
    Login.extract_cookie hdr (Login.cookie_name (Login.browser_session (rr_login realm))) = Some sid;
  sf_session : sessions (store st) !! sid = Some x ∧ s_realm_id x = c_realm_id client;
  sf_live : ∃ n, (tick st ≤ n)%nat ∧ is_active x (w_now W n) = true ∧ too_old m (auth_time x) (w_now W n) = false;
  sf_acr : unmet_essential_acr (claims m) (default PASSWORD_ACR (s_acr x)) = None;
  sf_user : users (store st) !! s_user_id x = Some user ∧ u_realm_id user = c_realm_id client;
  sf_push : Login.push_factor_satisfied (store st) (c_realm_id client) (u_id user) (s_amr x) = Ok true
}.

Lemma respond_inv k st r st' : respond k st = (r, st') → ∃ r0, k st = (r0, st').
Proof. unfold respond. destruct (k st) as [r0 s0]. intros [= _ <-]. by exists r0. Qed.

Lemma issued_then_redirected {B} client auth t m (f : Response → M StJ B) d st r st' :
  (∀ resp, quietly (f resp)) →
  (let! code := issue_authorization_code client auth t m in let! resp := authorization_response_redirect m client code d in f resp) st
    = (r, st') →
  continuations st' = continuations st ∧ pars st' = pars st ∧
  (codes st' = codes st ∨ ∃ c, code_for client auth t m c ∧ stored st st' c).
Proof.
  intros Hf. unfold bind at 1. destruct (issue_authorization_code client auth t m st) as [[code|e] s1] eqn:Ei.
  - intros Hr. apply issue_cases in Ei as (Hc & Hp & Hcodes).
    assert (quiet s1 st') as [n ->].
    { apply bind_quiet in Hr as [?|(resp & s2 & _ & Hq & Hr)]; [done| |apply quietly_redirect].
      transitivity s2; [done|]. specialize (Hf resp s2). by rewrite Hr in Hf. }
    split_and!; [done..|]. destruct Hcodes as [?|(c & Hfor & Hst)]; [by left|right]. by exists c.
  - intros [= _ <-]. by apply issue_cases in Ei.
Qed.

Lemma spend_par_inv m st u st' : spend_par m st = (Ok u, st') → par_spent m st st' ∧ codes st' = codes st.
Proof.
  unfold spend_par, par_spent. destruct (ap_request_uri m) as [uri|].
  - intros (H1 & H2 & _ & H4)%mark_par_inv. split; [|done]. by intros ? [= <-].
  - intros [= _ <-]. done.
Qed.

Lemma spent_tick n (st : StJ) k : Tokens.spent (tokens (store (tick_by n st))) k = Tokens.spent (tokens (store st)) k.
Proof. done. Qed.

Lemma spent_pars (st st' : StJ) uri : pars st' = pars st →
  Tokens.spent (tokens (store st')) (Tokens.KPar uri) = Tokens.spent (tokens (store st)) (Tokens.KPar uri).
Proof. intros Hp. cbn. by rewrite Hp. Qed.

(** Ends a branch in which the request has only read. *)
Ltac read_only :=
  left; first [by apply quiet_codes | by match goal with Hr : ret _ _ = _ |- _ => injection Hr as _ <- end].

Lemma browser_cases m client hdr st r st' :
  authorize_with_browser_session m client hdr st = (r, st') →
  codes st' = codes st ∨
  ∃ sid x user c, session_in_force st hdr client m sid x user ∧ par_spent m st st' ∧
    code_for client (session_result x sid user) (auth_time x) m c ∧ stored st st' c.
Proof.
  unfold authorize_with_browser_session. cbv zeta. intros Hr.
  apply bind_quiet in Hr as [?|(realm & s1 & [E1 ->]%require_yields & _ & Hr)]; [read_only| |hush].
  destruct (parse_cookie _ _) as [sid|] eqn:Ecookie; [|read_only].
  apply bind_quiet in Hr as [?|(found & s1 & [-> ->]%read_yields & _ & Hr)]; [read_only| |hush].
  destruct (get_session sid (store st)) as [x|] eqn:Ex; [|read_only].
  apply bind_quiet in Hr as [?|(now & s1 & [-> ->]%now_yields & _ & Hr)]; [read_only| |hush].
  destruct (_ || _) eqn:Hact in Hr; [read_only|].
  apply orb_false_iff in Hact as [Hre%negb_false_iff%String.eqb_eq Hlive%negb_false_iff].
  destruct (too_old _ _ _) eqn:Hold in Hr; [read_only|].
  destruct (unmet_essential_acr _ _) eqn:Hacr in Hr; cbn [Push.is_some Push.is_none negb] in Hr; [read_only|].
  apply bind_quiet in Hr as [Hq|(u & s1 & [-> ->]%read_yields & _ & Hr)]; [left; by apply quiet_codes in Hq| |hush].
  destruct (get_user_by_id _ _) as [user|] eqn:Eu in Hr; [|read_only].
  apply bind_quiet in Hr as [Hq|(sat & s1 & Es & Hq & Hr)]; [left; by apply quiet_codes in Hq| |hush].
  destruct Hq as [n ->]. destruct sat; cbn [negb] in Hr; [|read_only].
  destruct (String.eqb_spec (u_realm_id user) (c_realm_id client)) as [Hur|]; cbn [negb] in Es; [|done].
  assert (Login.push_factor_satisfied (store st) (c_realm_id client) (u_id user) (s_amr x) = Ok true) as Hpush
    by (unfold bind, read, of_result in Es; by injection Es).
  assert (session_in_force st hdr client m sid x user) as Hforce.
  { split; [by exists realm|done|exists (tick st); split; [lia|done]|done|done|done]. }
  rewrite tick_by_add in Hr. unfold bind at 1 in Hr.
  pose proof (flow_codes _ _ _ (flow_spend_par m false false (tick_by (1 + n) st))) as Hc.
  destruct (spend_par m _) as [[u|e] s2] eqn:Em in *; [|injection Hr as _ <-; by left].
  apply spend_par_inv in Em as [Hsp Hc2].
  apply issued_then_redirected in Hr as (_ & Hpars & Hcodes); [|hush].
  destruct Hcodes as [Hsame|(c & Hfor & Hst)]; [left; by rewrite Hsame|right].
  exists sid, x, user, c. split_and!; [done| |done|by eapply stored_between; [exact Hc2|done|done]].
  intros uri Hu. rewrite (spent_pars s2 st') by done. by apply Hsp.
Qed.

Lemma resolved_quiet st st' req m c : quiet st st' → resolved st' req m c → resolved st req m c.
Proof. intros [n ->] [H1 H2 H3 H4 H5]. by split. Qed.

Lemma validated_inv req b st m c st' :
  resolve_and_validate_authorize_request req b st = (Ok (m, c), st') →
  resolved st req m c ∧ validated m c ∧ (b = true → par_spent m st st').
Proof.
  unfold resolve_and_validate_authorize_request. intros ([m0 c0] & s1 & [? ?]%resolve_inv & Hok)%bind_inv.
  run_inv. subst. destruct a. by apply validate_inv in E.
Qed.

Lemma get_cases req dpop hdr st r st' :
  authorize_get req dpop hdr st = (r, st') →
  codes st' = codes st ∨
  ∃ m client sid x user c, resolved st req m client ∧ validated m client ∧ prompt_requires_login (prompt m) = false ∧
    session_in_force st hdr client m sid x user ∧ par_spent m st st' ∧
    code_for client (session_result x sid user) (auth_time x) m c ∧ stored st st' c.
Proof.
  unfold authorize_get. intros (r0 & Hr)%respond_inv.
  apply bind_quiet in Hr as [?|([m client] & s1 & Ev & [n ->] & Hr)]; [read_only| |apply quietly_validated].
  apply validated_inv in Ev as (Hres & Hval & _). cbv zeta in Hr. cbn [fst snd] in Hr.
  apply bind_quiet in Hr as [Hq|(realm & s1 & [E1 ->]%of_result_inv & _ & Hr)]; [left; by apply quiet_codes in Hq| |hush].
  unfold bind in Hr. destruct (prompt_requires_login (prompt (with_proof m dpop))) eqn:Hp; cbn [negb] in Hr.
  { left. cbn in Hr. destruct (prompt_has _ _).
    - apply quiet_ok in Hr; [|apply quietly_error]. by apply quiet_codes in Hr.
    - by injection Hr as _ <-. }
  destruct (authorize_with_browser_session _ _ _ _) as [[o|e] s2] eqn:Eb in Hr; apply browser_cases in Eb as Hb.
  - assert (quiet s2 st') as [k ->].
    { destruct o; [injection Hr as _ <-; reflexivity|]. destruct (prompt_has _ _).
      - apply quiet_ok in Hr; [done|apply quietly_error].
      - injection Hr as _ <-. reflexivity. }
    destruct Hb as [?|(sid & x & user & c & [F1 F2 (k2 & Hk2 & F3) F4 F5 F6] & Hsp & Hfor & Hst)]; [by left|right].
    exists m, client, sid, x, user, c. split_and!; [done|done|done| |done|done|done].
    split; try done. exists k2. cbn in Hk2. split; [lia|done].
  - injection Hr as _ <-. destruct Hb as [?|(sid & x & user & c & [F1 F2 (k2 & Hk2 & F3) F4 F5 F6] & Hsp & Hfor & Hst)]; [by left|right].
    exists m, client, sid, x, user, c. split_and!; [done|done|done| |done|done|done].
    split; try done. exists k2. cbn in Hk2. split; [lia|done].
Qed.

(** ** Logins with a password *)

(** Only the token tables differ. *)
Definition accounts_same (st st' : StJ) : Prop :=
  store st' = OAuth.set_tokens (store st) (tokens (store st')) ∧ (tick st ≤ tick st')%nat.
#[local] Instance accounts_same_po : PreOrder accounts_same.
Proof.
  split; [intros [s b l t]; split; [by destruct s|done]|]. intros a b c [Ha Ht] [Hb Ht']. split; [by rewrite Hb, Ha at 1|lia].
Qed.
Lemma accounts_quiet {A} (m : M StJ A) : quietly m → preserves accounts_same m.
Proof. intros Hm st. destruct (Hm st) as [n ->]. split; cbn; [by destruct (store st)|lia]. Qed.
Lemma accounts_write_tokens {A} (f : QidResult unit → Tokens.Store (J := J) → QidResult A * Tokens.Store) :
  preserves accounts_same (write_tokens f).
Proof. intros st. destruct (write_tokens f st) as [r st'] eqn:E. apply write_tokens_inv in E as (t & _ & ->). split; [done|]. cbn. lia. Qed.
Lemma accounts_pushed uri m c b : preserves accounts_same (resolve_pushed uri m c b).
Proof.
  unfold resolve_pushed.
  repeat first [ progress intros | progress cbv zeta | apply accounts_write_tokens | apply accounts_quiet; solve [hush]
               | apply preserves_bind; [exact accounts_same_po|..]
               | match goal with |- preserves _ (match ?x with _ => _ end) => destruct x end ].
Qed.
Lemma accounts_validated req b : preserves accounts_same (resolve_and_validate_authorize_request req b).
Proof.
  unfold resolve_and_validate_authorize_request, resolve_authorize_request.
  repeat first [ progress intros | progress cbv zeta | apply accounts_pushed | apply accounts_quiet; solve [hush]
               | apply preserves_bind; [exact accounts_same_po|..]
               | match goal with |- preserves _ (match ?x with _ => _ end) => destruct x end ].
Qed.

Lemma admit_store rid e policy st : store (admit_login rid e policy st).2 = store st.
Proof.
  unfold admit_login, login_call, bind, get_state. cbn. by destruct (RateLimit.password_admit _ _ _ _ _).
Qed.

Lemma admit_tick rid e policy st : (tick st ≤ tick (admit_login rid e policy st).2)%nat.
Proof.
  unfold admit_login, login_call, bind, get_state. cbn. destruct (RateLimit.password_admit _ _ _ _ _). cbn. lia.
Qed.

Lemma push_satisfied_push (s s' : Store) rid uid l : push s' = push s →
  Login.push_factor_satisfied (J := J) s' rid uid l = Login.push_factor_satisfied s rid uid l.
Proof. intros Hp. unfold Login.push_factor_satisfied. by rewrite Hp. Qed.

(** The password of an unlocked user of the client's realm, who owes no second factor. *)
Record password_verified (st : StJ) (client : ClientJ) (m : AuthorizeParameters) (e p : string) (user : User) : Prop := {
  pv_realm : ∃ realm, find_realm state (c_realm_id client) = Some realm ∧
    Login.accepts_password_authentication (rr_login realm) = true;
  pv_user : get_user_by_email (c_realm_id client) e (store st) = Ok (Some user);
  pv_unlocked : ∃ n, (tick st ≤ n)%nat ∧ ∀ until, locked_until user = Some until → until ≤ w_now W n;
  pv_password : ∃ creds cred, credentials_of (c_realm_id client) = Ok creds ∧
    get_password_credential (u_id user) (store st) = Some cred ∧ (Login.pc_verify creds p cred).1 = true;
  pv_acr : unmet_acr m PASSWORD_ACR = None;
  pv_push : Login.push_factor_satisfied (store st) (c_realm_id client) (u_id user) ["pwd"] = Ok true
}.

Definition password_result (user : User) : Login.AuthResult :=
  {| Login.user := user; Login.acr := PASSWORD_ACR; Login.amr := ["pwd"]; Login.session_id := None |}.

Lemma authenticate_inv policy creds rid e p st auth st' :
  login_call W (fun saved now => Login.authenticate_password policy (Some creds) saved (now 0%nat) (now 1%nat) (now 2%nat) rid e p) st
    = (Ok auth, st') →
  ∃ user cred n, (tick st ≤ n)%nat ∧ get_user_by_email rid e (store st) = Ok (Some user) ∧
    (∀ until, locked_until user = Some until → until ≤ w_now W n) ∧
    get_password_credential (u_id user) (store st) = Some cred ∧ (Login.pc_verify creds p cred).1 = true ∧
    auth = password_result user ∧ push (store st') = push (store st).
Proof.
  unfold login_call. match goal with |- (let '(r, s) := ?m in _) = _ → _ => destruct m as [r s] eqn:Em end.
  intros [= -> <-]. apply Login.authenticate_sound in Em as (_ & u & cred & H1 & H2 & H3 & H4 & -> & H5 & _).
  exists u, cred, (tick st + 1)%nat. split; [lia|done].
Qed.

(** A request that fails in a part that stores no code. *)
Lemma bind_codes {A B} (k : M StJ A) (f : A → M StJ B) st r st' :
  flows false true k → bind k f st = (r, st') →
  codes st' = codes st ∨ ∃ a s1, k st = (Ok a, s1) ∧ codes s1 = codes st ∧
    Tokens.store_grows (tokens (store st)) (tokens (store s1)) ∧ f a s1 = (r, st').
Proof.
  intros Hk Hr. apply (bind_flow _ _ false true) in Hr as [Hf|(a & s1 & Hk1 & Hf & Hr)]; [|right|done].
  - left. by apply flow_codes in Hf.
  - exists a, s1. split_and!; [done|by apply flow_codes in Hf|by destruct Hf|done].
Qed.

(** The end of a request: the code and its response. *)
Lemma issue_redirect_cases client auth t m d st r st' :
  (let! code := issue_authorization_code client auth t m in authorization_response_redirect m client code d) st = (r, st') →
  continuations st' = continuations st ∧ pars st' = pars st ∧
  (codes st' = codes st ∨ ∃ c, code_for client auth t m c ∧ stored st st' c).
Proof.
  intros Hr. apply (issued_then_redirected client auth t m ret d st r st'); [intros; apply preserves_ret, _|].
  revert Hr. unfold bind. destruct (issue_authorization_code _ _ _ _ _) as [[code|] s1]; [|done].
  by destruct (authorization_response_redirect _ _ _ _ _) as [[resp|] s2].
Qed.

Lemma post_login_cases m client e p st r st' :
  post_login m client e p st = (r, st') →
  codes st' = codes st ∨
  ∃ user t c, password_verified st client m e p user ∧ code_for client (password_result user) t m c ∧ stored st st' c.
Proof.
  unfold post_login. cbv zeta. intros Hr.
  apply bind_quiet in Hr as [?|(realm & s1 & [Er%ok_or_Ok ->]%of_result_inv & _ & Hr)]; [read_only| |hush].
  destruct (Login.accepts_password_authentication _) eqn:Hpw; cbn [negb] in Hr;
    [|left; apply quiet_ok in Hr; [by apply quiet_codes|apply quietly_error]].
  pose proof (admit_store (c_realm_id client) e (Login.password (rr_login realm)) st) as Hs1.
  pose proof (admit_tick (c_realm_id client) e (Login.password (rr_login realm)) st) as Ht1.
  apply bind_codes in Hr as [?|(ad & s1 & E1 & Hc1 & _ & Hr)]; [by left| |apply flow_admit]. rewrite E1 in Hs1, Ht1. cbn in Hs1, Ht1.
  destruct ad; cbn [negb] in Hr; [|left; apply quiet_ok in Hr; [rewrite <- Hc1; by apply quiet_codes|apply quietly_error]].
  apply bind_quiet in Hr as [Hq|(creds & s2 & [Ecr ->]%of_result_inv & _ & Hr)];
    [left; rewrite <- Hc1; by apply quiet_codes| |hush].
  apply bind_codes in Hr as [?|(out & s2 & E2 & Hc2 & _ & Hr)]; [left; congruence| |apply flows_attempt, flow_authenticate].
  destruct out as [auth|err];
    [|left; rewrite <- Hc1, <- Hc2; apply quiet_codes; destruct err; (apply quiet_ok in Hr; [done|apply quietly_error])].
  unfold attempt in E2. match type of E2 with (let '(r, s) := ?k in _) = _ => destruct k as [ro so] eqn:Ea end. injection E2 as -> ->.
  apply authenticate_inv in Ea as (user & cred & n & Hn & Hu & Hl & Hcred & Hv & -> & Hpush). rewrite Hs1 in Hu, Hcred, Hpush.
  apply bind_codes in Hr as [?|([] & s3 & E3 & Hc3 & _ & Hr)]; [left; congruence| |apply flow_succeeded].
  assert (store s3 = store s2) as Hs3 by by injection E3 as <-. cbn [Login.acr password_result] in Hr.
  destruct (unmet_acr m PASSWORD_ACR) eqn:Hacr;
    [left; rewrite <- Hc1, <- Hc2, <- Hc3; apply quiet_codes; apply quiet_ok in Hr; [done|apply quietly_error]|].
  apply bind_quiet in Hr as [Hq|(? & s4 & [-> ->]%read_yields & _ & Hr)];
    [left; rewrite <- Hc1, <- Hc2, <- Hc3; by apply quiet_codes| |hush].
  apply bind_quiet in Hr as [Hq|(sat & s4 & [Esat ->]%of_result_inv & _ & Hr)];
    [left; rewrite <- Hc1, <- Hc2, <- Hc3; by apply quiet_codes| |hush].
  rewrite Hs3, (push_satisfied_push (store st)) in Esat by done.
  destruct sat; cbn [negb] in Hr.
  2:{ left. rewrite <- Hc1, <- Hc2, <- Hc3. apply (flow_codes true). specialize (flow_push_start m client (password_result user) false s3).
      by rewrite Hr. }
  apply bind_quiet in Hr as [Hq|(t & s4 & [-> ->]%now_yields & _ & Hr)];
    [left; rewrite <- Hc1, <- Hc2, <- Hc3; by apply quiet_codes| |hush].
  apply issue_redirect_cases in Hr as (_ & _ & [Hsame|(c & Hfor & Hst)]); [left; rewrite Hsame; cbn; congruence|right].
  eexists user, _, c. split_and!; [|done|eapply stored_between; [|done|done]; cbn; congruence].
  split; [by exists realm|done|exists n; split; [lia|done]|by exists creds, cred|done|done].
Qed.

Lemma post_cases req dpop e p st r st' :
  authorize_post req dpop e p st = (r, st') →
  (codes st' = codes st ∧ continuations st' = continuations st) ∨
  ∃ m client, resolved st req m client ∧ validated m client ∧ par_spent m st st' ∧
    (codes st' = codes st ∨
     ∃ user t c, password_verified st client m e p user ∧ code_for client (password_result user) t m c ∧ stored st st' c).
Proof.
  unfold authorize_post. intros (r0 & Hr)%respond_inv.
  pose proof (accounts_validated req true st) as Hacc.
  apply (bind_flow _ _ false false) in Hr as [(_ & ? & ?)|([m client] & s1 & E1 & (Hg & Hc & _) & Hr)]; [left; auto|right|apply flow_validated].
  rewrite E1 in Hacc. cbn in Hacc. apply validated_inv in E1 as (Hres & Hval & Hsp). exists m, client. cbn [fst snd] in Hr.
  pose proof (flow_post_login (with_proof m dpop) client e p s1) as (Hg2 & _). rewrite Hr in Hg2. cbn in Hg2.
  split_and!; [done|done| |].
  - intros uri Hu. destruct (Hsp eq_refl uri Hu) as [H1 H2]. split; [done|]. by eapply Tokens.store_grows_spent.
  - apply post_login_cases in Hr as [Hsame|(user & t & c & [P1 P2 P3 P4 P5 P6] & Hfor & Hst)]; [left; rewrite Hsame; auto|right].
    exists user, t, c. split_and!; [|done|eapply stored_between; [|done|done]; auto].
    destruct Hacc as [Hacc Ht]. rewrite Hacc in P2, P4, P6. destruct P3 as (n & Hn & Hl). split; try done. exists n. split; [lia|done].
Qed.

(** ** Push completions *)

(** The browser that started the push login is back with the approval of its user's device: the
    challenge and the continuation of the request are its own, and neither was used. *)
Record push_approved (st : StJ) (hdr : option string) (req : OidcCompleteRequest) (client : ClientJ) (m : AuthorizeParameters)
    (t : N) (user : User) : Prop := {
  pa_challenge : ∃ binding c, Login.extract_cookie hdr OIDC_COOKIE = Some binding ∧
    Push.id c = oc_challenge_id req ∧ Push.realm_id c = oc_realm_id req ∧ Push.user_id c = oc_user_id req ∧
    redeemable W st c (oidc_verifier binding (oc_client_id req)) ∧
    ∃ x envelope, continuations st !! oc_challenge_id req = Some {| Continuation.record := x; Continuation.consumed := false |} ∧
      Continuation.browser_binding_sha256 x = binding_digest binding ∧ Continuation.realm_id x = oc_realm_id req ∧
      Continuation.user_id x = oc_user_id req ∧ Continuation.client_id x = oc_client_id req ∧
      envelope_from_str jose (Continuation.context_json x) = Some envelope ∧ env_request envelope = m ∧
      t = env_auth_time envelope ∧ t = Continuation.created_at x ∧ t = Push.created_at c;
  pa_client : get_client_by_client_id (oc_realm_id req) (oc_client_id req) (store st) = Some client ∧
    ap_client_id m = oc_client_id req;
  pa_user : users (store st) !! oc_user_id req = Some user ∧ u_realm_id user = oc_realm_id req
}.

(** The continuation that a completion used up. *)
Definition completed (st : StJ) (cid : string) : Prop :=
  ∃ row, continuations st !! cid = Some row ∧ Continuation.consumed row = true.

Lemma write_continuations_inv {A} f st (r : QidResult A) st' :
  write_continuations f st = (r, st') →
  ∃ rows, f (w_saved W (tick st)) (continuations st) = (r, rows) ∧ continuations st' = rows ∧ store st' = set_continuations (store st) rows ∧
    (tick st ≤ tick st')%nat.
Proof.
  unfold write_continuations, PushFactor.write. destruct (f _ _) as [r0 rows]. intros [= <- <-]. exists rows. split_and!; try done. cbn. lia.
Qed.

(** What a completion has established when it issues the code. *)
Lemma redeemable_same (st st' : StJ) c v :
  push (store st') = push (store st) → (tick st ≤ tick st')%nat → redeemable W st' c v → redeemable W st c v.
Proof.
  intros Hs Ht. unfold redeemable. rewrite Hs. intros (? & ? & ? & ? & (n & Hn & Ht1) & ?). split_and!; try done.
  exists n. split; [lia|done].
Qed.

Ltac codes_step Hr a s :=
  let E := fresh "E" in let Hc := fresh "Hc" in
  apply bind_codes in Hr as [?|(a & s & E & Hc & _ & Hr)]; [left; congruence| |solve [along]].

Lemma resume_cases hdr req st r st' :
  resume hdr req st = (r, st') →
  codes st' = codes st ∨
  ∃ m client user t c, push_approved st hdr req client m t user ∧ validated m client ∧ completed st' (oc_challenge_id req) ∧
    code_for client (push_result user) t m c ∧ stored st st' c.
Proof.
  unfold resume. intros Hr. codes_step Hr binding s1. codes_step Hr u1 s2. codes_step Hr u2 s3. codes_step Hr found s4.
  codes_step Hr c s5. codes_step Hr t1 s6. codes_step Hr u3 s7. codes_step Hr t2 s8. codes_step Hr consumed s9.
  codes_step Hr x s10. codes_step Hr envelope s11. cbv zeta in Hr. codes_step Hr u4 s12. codes_step Hr o s13. codes_step Hr client s14.
  codes_step Hr u5 s15. codes_step Hr auth s16.
  apply issue_redirect_cases in Hr as (Hk & _ & [Hsame|(code & Hfor & Hst)]); [left; congruence|right].
  assert (codes s16 = codes st) as Hc16 by congruence.
  repeat match goal with Hc : codes _ = codes _ |- _ => first [constr_eq Hc Hc16; fail 1 | clear Hc] end.
  run_inv. destruct u5. subst.
  match goal with Hb : cookie_binding _ _ = _ |- _ => apply cookie_binding_inv in Hb as [Hck _] end.
  match goal with Hg : Push.get_push_login _ _ _ _ = _ |- _ => apply get_push_login_inv in Hg as (Hl & Hid & Hre & Hu) end.
  match goal with Hw : write_continuations _ _ = _ |- _ => apply write_continuations_inv in Hw as (rows & Hcon & Hrows & Hstore & Htick) end.
  apply Continuation.consume_Some in Hcon as (Hx & -> & Hxid & Hxr & Hxu & Hxc & Hxb & _). cbn in Hx, Hrows, Hstore.
  match goal with Hp : complete_password _ _ _ _ _ _ = _ |- _ =>
    apply complete_password_inv in Hp as (user & p & Hred & Huser & Hur & -> & -> & _); [|by rewrite Hstore, Hid] end.
  cbn in Hk. rewrite Hstore in Huser. apply (redeemable_same st) in Hred; [|by rewrite Hstore|cbn in Htick; lia].
  match goal with Hg : context [version] |- _ => repeat (apply orb_false_iff in Hg as [Hg ?]) end.
  repeat match goal with Hb : negb _ = false |- _ => apply negb_false_iff in Hb end.
  repeat match goal with Hb : String.eqb _ _ = true |- _ => apply String.eqb_eq in Hb | Hb : (_ =? _) = true |- _ => apply N.eqb_eq in Hb end.
  exists (env_request envelope), client, user, (env_auth_time envelope), code. split_and!.
  - split; [|by rewrite Hstore in *|by rewrite <- Hu, <- Hre].
    exists binding, c. split_and!; [done..|]. exists x, envelope. split_and!; congruence.
  - by apply validate_inv.
  - eexists. rewrite Hk. cbn. rewrite Hrows, lookup_insert_eq. by split.
  - done.
  - by eapply stored_between.
Qed.

(** ** Who a code is for *)

(** [authorized st r client m auth t]: request [r], served in [st], lets [client] have a code on the
    parameters [m] for the authentication [auth] of the time [t]. *)
Inductive authorized (st : StJ) : Req → ClientJ → AuthorizeParameters → Login.AuthResult → N → Prop :=
| by_session req dpop hdr client m sid x user :
    resolved st req m client → par_spent m st (serve (Get req dpop hdr) st) → prompt_requires_login (prompt m) = false →
    session_in_force st hdr client m sid x user →
    authorized st (Get req dpop hdr) client m (session_result x sid user) (auth_time x)
| by_password req dpop e p client m user t :
    resolved st req m client → par_spent m st (serve (Post req dpop e p) st) → password_verified st client m e p user →
    authorized st (Post req dpop e p) client m (password_result user) t
| by_push hdr req client m t user :
    push_approved st hdr req client m t user → completed (serve (Complete hdr req) st) (oc_challenge_id req) →
    authorized st (Complete hdr req) client m (push_result user) t.

Lemma serve_cases r st :
  codes (serve r st) = codes st ∨
  ∃ client m auth t c, authorized st r client m auth t ∧ validated m client ∧ code_for client auth t m c ∧ stored st (serve r st) c.
Proof.
  destruct r as [req dpop hdr|req dpop e p|hdr req|hdr req|r].
  - destruct (authorize_get req dpop hdr st) as [o st'] eqn:E. pose proof (f_equal snd E : serve (Get _ _ _) st = st') as Hs.
    apply get_cases in E as [?|(m & client & sid & x & user & c & H1 & H2 & H3 & H4 & H5 & H6 & H7)]; [left; by rewrite Hs|right].
    rewrite <- Hs in *. eexists client, m, _, _, c. split_and!; [by apply (by_session st req dpop hdr)|done..].
  - destruct (authorize_post req dpop e p st) as [o st'] eqn:E. pose proof (f_equal snd E : serve (Post _ _ _ _) st = st') as Hs.
    apply post_cases in E as [[? _]|(m & client & H1 & H2 & H3 & [?|(user & t & c & H4 & H5 & H6)])]; [left; by rewrite Hs..|right].
    rewrite <- Hs in *. eexists client, m, _, t, c. split_and!; [by apply (by_password st req dpop e p)|done..].
  - destruct (complete hdr req st) as [o st'] eqn:E. pose proof (f_equal snd E : serve (Complete _ _) st = st') as Hs.
    apply respond_inv in E as (o' & E).
    apply resume_cases in E as [?|(m & client & user & t & c & H1 & H2 & H3 & H4 & H5)]; [left; by rewrite Hs|right].
    rewrite <- Hs in *. eexists client, m, _, t, c. split_and!; [by apply by_push|done..].
  - left. apply (flow_codes true), flow_oidc_resend.
  - left. apply (flow_codes true), flow_factor.
Qed.

(** The pushed request that [r] names. *)
Definition names (r : Req) (uri : string) : Prop :=
  match r with Get req _ _ | Post req _ _ _ => rq_request_uri req = Some uri | _ => False end.

(** [r] stores a code or starts the push continuation of one. *)
Definition productive (r : Req) (st : StJ) : Prop :=
  codes (serve r st) ≠ codes st ∨ continuations (serve r st) ≠ continuations st.

Lemma named_uri st req m client uri : resolved st req m client → rq_request_uri req = Some uri → ap_request_uri m = Some uri.
Proof. intros Hr Hu. by rewrite (x_request_uri _ _ (r_query _ _ _ _ Hr)). Qed.

Lemma productive_spends r st uri : names r uri → productive r st →
  Tokens.spent (tokens (store st)) (Tokens.KPar uri) = false ∧ Tokens.spent (tokens (store (serve r st))) (Tokens.KPar uri) = true.
Proof.
  destruct r as [req dpop hdr|req dpop e p|hdr req|hdr req|r]; [..|done|done|done]; cbn [names]; intros Hu Hp.
  - destruct (authorize_get req dpop hdr st) as [o st'] eqn:E. pose proof (f_equal snd E : serve (Get _ _ _) st = st') as Hs.
    apply get_cases in E as [Hsame|(m & client & sid & x & user & c & H1 & _ & _ & _ & H5 & _)].
    + exfalso. rewrite <- Hs in Hsame. destruct Hp as [?|Hp]; [done|]. apply Hp.
      destruct (flow_get req dpop hdr false st) as (_ & _ & Hk). by apply Hk.
    + rewrite Hs. apply H5. by eapply named_uri.
  - destruct (authorize_post req dpop e p st) as [o st'] eqn:E. pose proof (f_equal snd E : serve (Post _ _ _ _) st = st') as Hs.
    unfold productive in Hp. rewrite Hs in *.
    apply post_cases in E as [[? ?]|(m & client & H1 & _ & H3 & _)]; [by destruct Hp|]. apply H3. by eapply named_uri.
Qed.

(** ** Continuations are kept *)

Definition keeps_completed (st st' : StJ) : Prop := ∀ cid, completed st cid → completed st' cid.
#[local] Instance keeps_completed_po : PreOrder keeps_completed.
Proof. split; [intros st cid Hx; exact Hx|]. intros a b c Hab Hbc cid Hx. apply Hbc, Hab, Hx. Qed.

Lemma keeps_flow {A} (k : M StJ A) : flows true false k → preserves keeps_completed k.
Proof. intros Hk st cid. destruct (Hk st) as (_ & _ & Hc). unfold completed. by rewrite Hc. Qed.
Lemma keeps_create c now :
  preserves keeps_completed (write_continuations (fun saved => Continuation.create_oidc_continuation (json_object jose) saved c now)).
Proof.
  intros st cid (row & Hr & Hc). unfold write_continuations, PushFactor.write, completed.
  destruct (Continuation.create_oidc_continuation _ _ _ _ _) as [r rows] eqn:E. cbn. exists row. split; [|done].
  unfold Continuation.create_oidc_continuation in E. destruct (Continuation.validate_creation _ _ _) as [|]; [|by injection E as _ <-].
  destruct (Continuation.mutate_oidc_continuation _ _ _) as [r0 rs] eqn:Em. injection E as _ <-.
  apply Continuation.mutate_continuation_cases in Em as [[-> _]|(o & Ho & _)]; [done|]. case_bool_decide as Hn; [done|].
  injection Ho as _ <-. rewrite lookup_insert_ne; [done|]. intros Heq. apply Hn. rewrite Heq, Hr. eauto.
Qed.
Lemma keeps_consume realm user client cid0 b now :
  preserves keeps_completed (write_continuations (fun saved =>
    Continuation.consume_oidc_continuation (json_object jose) saved realm user client cid0 b now)).
Proof.
  intros st cid (row & Hr & Hc). unfold write_continuations, PushFactor.write, completed.
  destruct (Continuation.consume_oidc_continuation _ _ _ _ _ _ _ _ _) as [r rows] eqn:E. cbn. exists row. split; [|done].
  destruct r as [[x|]|]; [|apply Continuation.consume_quiet in E as ->; done..].
  apply Continuation.consume_Some in E as (Hx & -> & _). rewrite lookup_insert_ne; [done|]. intros <-. rewrite Hr in Hx. by injection Hx as ->.
Qed.

Ltac keep :=
  repeat first
    [ apply keeps_create
    | apply keeps_consume
    | apply keeps_flow; solve [eauto 3 with flowing]
    | progress intros
    | progress cbv zeta
    | apply preserves_bind; [exact keeps_completed_po|..]
    | match goal with |- preserves _ (match ?x with _ => _ end) => destruct x end ].

Lemma keeps_push_start m client auth : preserves keeps_completed (push_start m client auth).
Proof. unfold push_start. keep. Qed.
Lemma keeps_resume hdr req : preserves keeps_completed (resume hdr req).
Proof. unfold resume. keep. Qed.
Lemma keeps_post_login m client e p : preserves keeps_completed (post_login m client e p).
Proof. unfold post_login. repeat first [apply keeps_push_start | progress keep]. Qed.
Lemma keeps_respond k : preserves keeps_completed k → preserves keeps_completed (respond k).
Proof. intros Hk st. unfold respond. specialize (Hk st). by destruct (k st). Qed.
Lemma keeps_post req dpop e p : preserves keeps_completed (authorize_post req dpop e p).
Proof. apply keeps_respond. repeat first [apply keeps_post_login | progress keep]. Qed.

Lemma served_completed st st' cid : rtc served st st' → completed st cid → completed st' cid.
Proof.
  induction 1 as [|s1 s2 s3 [r ->] _ IH]; [done|]. intros Hc. apply IH.
  destruct r as [req dpop hdr|req dpop e p|hdr req|hdr req|r].
  - by apply (keeps_flow _ (flow_get req dpop hdr false)).
  - by apply keeps_post.
  - by apply (keeps_respond _ (keeps_resume hdr req)).
  - by apply (keeps_flow _ (flow_oidc_resend hdr req true false)).
  - destruct (flow_factor r true false s1) as (_ & _ & Hk). unfold completed. cbn [serve]. by rewrite Hk.
Qed.

(** * Theorems *)

(** C14: Every authorization code is authorized.  Serving any request of the authorization endpoint or
    of the push factor, a code that was not stored before is stored for a validated request
    (authorization code flow enabled, registered redirection URI and grant type, PKCE where the realm
    asks for it) of a registered client, and for a user who was authenticated by that very request: by
    the live session of the browser that is recent and strong enough and was not to be renewed, by the
    password of an unlocked account that owes no second factor, or by the approval of the user's device
    for the login that this browser started.  The code carries that request's parameters. *)
Theorem code_issued_soundly r st k c :
  codes (serve r st) !! k = Some c → codes st !! k = None →
  ∃ client m auth t, authorized st r client m auth t ∧ validated m client ∧ code_for client auth t m c ∧ k = Tokens.code_hash c.
Proof.
  intros Hc Hn. destruct (serve_cases r st) as [Hs|(client & m & auth & t & c' & H1 & H2 & H3 & [_ Hs])]; rewrite Hs in Hc; [congruence|].
  destruct (decide (k = Tokens.code_hash c')) as [->|Hne].
  - rewrite lookup_insert_eq in Hc. injection Hc as <-. by exists client, m, auth, t.
  - rewrite lookup_insert_ne in Hc by done. congruence.
Qed.

(** A pushed authorization request is used once.  When a request that names a pushed request stores
    a code or starts a push login, the pushed request was unused and is used afterwards; and whatever
    is served then, no request that names it stores a code or starts a push login again. *)
Theorem pushed_request_used_once r r' uri st st' :
  names r uri → names r' uri → productive r st → rtc served (serve r st) st' →
  Tokens.spent (tokens (store st)) (Tokens.KPar uri) = false ∧ ¬ productive r' st'.
Proof.
  intros Hr Hr' Hp Hs. apply (productive_spends r st uri Hr) in Hp as [H1 H2]. split; [done|]. intros Hp'.
  apply (productive_spends r' st' uri Hr') in Hp' as [H3 _]. apply served_grows in Hs. 
  apply (Tokens.store_grows_spent _ _ (Tokens.KPar uri)) in Hs; [congruence|done].
Qed.

(** A push login answers one authorization request.  When the completion of a push challenge stores
    a code, its continuation was unused and is used up, and no completion that names the challenge
    stores a code again, whatever is served in between. *)
Theorem push_code_once hdr hdr' req req' st st' :
  codes (serve (Complete hdr req) st) ≠ codes st → oc_challenge_id req' = oc_challenge_id req →
  rtc served (serve (Complete hdr req) st) st' →
  ¬ completed st (oc_challenge_id req) ∧ codes (serve (Complete hdr' req') st') = codes st'.
Proof.
  assert (∀ h q s, codes (serve (Complete h q) s) ≠ codes s →
    ¬ completed s (oc_challenge_id q) ∧ completed (serve (Complete h q) s) (oc_challenge_id q)) as Hone.
  { intros h q s Hne. destruct (serve_cases (Complete h q) s) as [?|(client & m & auth & t & c & Hauth & _)]; [done|].
    inversion Hauth as [| |? ? ? ? ? ? Hap Hdone]; subst. split; [|done]. intros (row & Hrow & Hcon).
    destruct (pa_challenge _ _ _ _ _ _ _ Hap) as (b & ch & _ & _ & _ & _ & _ & x & env & Hx & _).
    rewrite Hx in Hrow. by injection Hrow as <-. }
  intros Hne Hid Hs. destruct (Hone _ _ _ Hne) as [H1 H2]. split; [done|].
  destruct (serve_cases (Complete hdr' req') st') as [?|(client & m & auth & t & c & Hauth & _)]; [done|].
  inversion Hauth as [| |? ? ? ? ? ? Hap _]; subst.
  destruct (pa_challenge _ _ _ _ _ _ _ Hap) as (b & ch & _ & _ & _ & _ & _ & x & env & Hx & _).
  eapply served_completed in H2 as (row & Hrow & Hcon); [|done]. rewrite Hid, Hrow in Hx. by injection Hx as ->.
Qed.

(** A pushed request binds the code.  When a request that names a pushed request stores a code,
    whatever the query carries besides: the pushed request was unused and unexpired, the code is for
    the client that pushed it, and its redirection URI, state, nonce, code challenge, scopes, resource
    and authorization details are the pushed ones where those were pushed. *)
Theorem pushed_parameters_bind r uri st k c :
  names r uri → codes (serve r st) !! k = Some c → codes st !! k = None → Tokens.ac_client_id c ≠ "" →
  ∃ par params n, pars st !! uri = Some par ∧ Tokens.par_used par = false ∧ w_now W n < Tokens.par_expires_at par ∧
    params_from_value jose (Tokens.params_json par) = Ok params ∧ Tokens.ac_client_id c = Tokens.par_client_id par ∧
    (∀ x, rq_redirect_uri params = Some x → Tokens.redirect_uri c = x) ∧
    (∀ x, rq_state params = Some x → Tokens.state c = Some x) ∧
    (∀ x, rq_nonce params = Some x → Tokens.ac_nonce c = Some x) ∧
    (∀ x, rq_code_challenge params = Some x → Tokens.code_challenge c = Some x) ∧
    (∀ x, rq_code_challenge_method params = Some x → Tokens.code_challenge_method c = Some x) ∧
    (∀ x, rq_scope params = Some x → Tokens.ac_scopes c = split_on SPACE x) ∧
    (∀ x, rq_resource params = Some x → Tokens.ac_resource c = [x]) ∧
    (∀ x, rq_authorization_details params = Some x →
       ∃ y, Tokens.ac_authorization_details c = Some y ∧ (y = x ∨ value_eqb y x = true)).
Proof.
  intros Hr Hc Hn Hcid. destruct (serve_cases r st) as [Hs|(client & m & auth & t & c' & H1 & _ & H3 & [_ Hs])]; rewrite Hs in Hc; [congruence|].
  assert (c' = c) as ->.
  { destruct (decide (k = Tokens.code_hash c')) as [->|]; [rewrite lookup_insert_eq in Hc; by injection Hc|].
    rewrite lookup_insert_ne in Hc by done. congruence. }
  assert (∃ req, resolved st req m client ∧ rq_request_uri req = Some uri) as (req & Hres & Hu) by (inversion H1; subst; eauto; done).
  destruct (r_pushed _ _ _ _ Hres uri Hu) as (par & params & n & P1 & P2 & P3 & P4 & P5 & P6 & _).
  exists par, params, n. destruct H3 as (code & n1 & n2 & ->). cbn in Hcid |- *.
  split_and!; [done..|by rewrite (r_named _ _ _ _ Hres Hcid)| | | | | | | |]; intros x Hx.
  - by apply (k_redirect_uri _ _ P5).
  - by apply (k_state _ _ P5).
  - by apply (k_nonce _ _ P5).
  - by apply (k_code_challenge _ _ P5).
  - by apply (k_code_challenge_method _ _ P5).
  - by rewrite (k_scope _ _ P5 x Hx).
  - by rewrite (k_resource _ _ P5 x Hx).
  - by apply (k_details _ _ P5).
Qed.

(** Every stored code comes from an authorized request. *)
Lemma code_origin st0 st k c :
  codes st0 = ∅ → rtc served st0 st → codes st !! k = Some c →
  ∃ s r client m auth t, rtc served st0 s ∧ authorized s r client m auth t ∧ validated m client ∧ code_for client auth t m c.
Proof.
  intros Hnone Hs. revert k c. pattern st. eapply rtc_ind_r; [intros k c; by rewrite Hnone, lookup_empty| |exact Hs].
  clear st Hs. intros s1 s2 Hs [r ->] IH k c Hc.
  destruct (serve_cases r s1) as [Hsame|(client & m & auth & t & c' & H1 & H2 & H3 & [_ Hst])].
  - apply (IH k). by rewrite <- Hsame.
  - rewrite Hst in Hc. destruct (decide (k = Tokens.code_hash c')) as [->|]; [|apply (IH k); by rewrite lookup_insert_ne in Hc].
    rewrite lookup_insert_eq in Hc. injection Hc as <-. by exists s1, r, client, m, auth, t.
Qed.

(** The token endpoint, on the same store and with the same hash and encoding. *)
Section Exchange.
Context (tstate : OAuth.SharedState) (tW : OAuth.World) (hmac_sha256 : string → string → list N) (url_host : string → option string).

Definition exchange : OAuth.TokenRequest → ClientJ → option J → M (OAuth.St (Num := Num)) OAuth.TokenResponse :=
  OAuth.authorization_code_grant tstate signer tW body sha256_digest hmac_sha256 base64url_encode url_host.

(** C13: The authorization code flow, end to end.  Start from a store without codes, serve any requests
    of the authorization endpoint and the push factor, then let the token endpoint redeem a code on the
    resulting store.  The code was stored by a request that was authorized when it was served; it is
    redeemed by the client of that request, with its redirection URI and, where the realm requires
    PKCE, with a verifier whose SHA-256 is the request's challenge; and it names the user who was
    authenticated then. *)
Theorem code_flow_end_to_end st0 st (ts ts' : OAuth.St (Num := Num)) req client cnf resp :
  codes st0 = ∅ → rtc served st0 st → OAuth.store ts = store st → OAuth.keyed ts → exchange req client cnf ts = (Ok resp, ts') →
  ∃ s r client0 m auth t ac, rtc served st0 s ∧ authorized s r client0 m auth t ∧ validated m client0 ∧
    code_for client0 auth t m ac ∧ OAuth.code_accepted tW sha256_digest base64url_encode req client cnf ts ac (default "" (OAuth.rq_code req)) ∧
    client_id client = client_id client0 ∧ c_realm_id client = c_realm_id client0 ∧
    OAuth.rq_redirect_uri req = Some (redirect_uri m) ∧ Tokens.ac_user_id ac = u_id (Login.user auth) ∧
    (∀ realm, find_realm state (c_realm_id client0) = Some realm → pkce_required realm = true →
       code_challenge m = Some (base64url_encode (sha256_digest (default "" (OAuth.code_verifier req))))).
Proof.
  intros Hc0 Hs Hts Hk Hok. apply (OAuth.code_grant_inv _ _ _ _ _ _ _ _ (fun _ => "")) in Hok as (ac & code & Hacc & _); [|done].
  pose proof (OAuth.ca_found _ _ _ _ _ _ _ _ _ Hacc) as Hf. rewrite Hts in Hf.
  destruct (code_origin st0 st _ ac Hc0 Hs Hf) as (s & r & cl & m & auth & t & H1 & H2 & H3 & H4).
  exists s, r, cl, m, auth, t, ac. pose proof (OAuth.ca_code _ _ _ _ _ _ _ _ _ Hacc) as Hcode. rewrite Hcode. split_and!; try done.
  all: destruct H4 as (id0 & n1 & n2 & ->); destruct Hacc as [_ _ _ _ Hr [Hcl Hre] Hp]; cbn in *; try done.
  intros realm Hre' Hpk. destruct (v_pkce _ _ H3 realm Hre' Hpk) as (ch & Hch & _ & Hm).
  destruct (Hp ch Hch) as [_ <-]. done.
Qed.

End Exchange.

End Authorize.

(** * Witnesses

    The realm, device and toy primitives of the push factor, with a client, a password and a pushed
    request. *)

#[local] Existing Instances PushFactor.ex_crypto PushFactor.ex_ct PushFactor.ex_num.

Definition ex_oidc : OidcState :=
  {| config_realms := [{| oc_id := "r"; oidc_enabled := true; authorization_code_enabled := true;
                          require_signed_request_object := false; request_object_signing_alg_values := ["ES256"];
                          require_pushed_authorization_requests := false; jarm_enabled := false |}];
     authorize_path := "/authorize"; plan_public_base_url := "https://id.example" |}.

Definition ex_json (v : Value N) : string :=
  match v with VArray items => String.concat ";" (omap value_str items) | _ => "json" end.

Definition ex_verifier : string := "verifier".
Definition ex_challenge : string := base64url_encode (sha256_digest ex_verifier).

Definition ex_request : AuthorizeRequest (Num := N) :=
  {| request := None; rq_client_id := Some "app"; rq_response_type := Some "code"; rq_redirect_uri := Some "https://app/cb";
     rq_scope := Some "read write"; rq_state := Some "xyz"; rq_response_mode := None; rq_code_challenge := Some ex_challenge;
     rq_code_challenge_method := Some "S256"; rq_resource := Some "https://api"; rq_authorization_details := None; rq_nonce := Some "n-1";
     rq_prompt := None; rq_request_uri := None; rq_max_age := None; rq_acr_values := None; rq_claims := None |}.

Definition ex_uri : string := "urn:ietf:params:oauth:request_uri:1".

(** A query that names the pushed request and nothing else. *)
Definition ex_named : AuthorizeRequest (Num := N) :=
  {| request := None; rq_client_id := None; rq_response_type := None; rq_redirect_uri := None; rq_scope := None; rq_state := None;
     rq_response_mode := None; rq_code_challenge := None; rq_code_challenge_method := None; rq_resource := None;
     rq_authorization_details := None; rq_nonce := None; rq_prompt := None; rq_request_uri := Some ex_uri; rq_max_age := None;
     rq_acr_values := None; rq_claims := None |}.

Definition ex_par : Tokens.ParRequest (J := Value N) :=
  {| Tokens.request_uri := ex_uri; Tokens.par_client_id := "app"; Tokens.par_realm_id := "r"; Tokens.params_json := VString "pushed";
     Tokens.par_expires_at := 1060; Tokens.par_used := false; Tokens.par_created_at := 970 |}.

(** The parameters as JSON: one document is the pushed request, the text of an envelope its time. *)
Definition ex_jose : Jose (Num := N) :=
  {| decode_header := fun _ => Err "header"; json_from_slice := fun _ => Err "json"; json_from_str := fun _ => None;
     params_from_value := fun v => match v with VString "pushed" => Ok ex_request | _ => Err "params" end;
     jwk_from_value := fun _ => Err "jwk"; verify_jwt_signature_with_jwk := fun _ _ _ => Err (Unauthorized "signature");
     dpop_jkt_from_proof := fun _ => None; urlencode := fun s => s; debug_strings := String.concat ","; base64_error := fun _ => "base64";
     envelope_to_string := fun e => if env_auth_time e =? 1000 then Some "envelope" else None;
     envelope_from_str := fun s => if String.eqb s "envelope"
       then Some {| version := 1; env_request := query_parameters ex_request; env_auth_time := 1000 |} else None;
     json_object := fun _ => true |}.

Definition ex_client : Accounts.Client (J := Value N) := {| c_id := "c1"; c_realm_id := "r"; client_id := "app"; c_body := VString "app" |}.
Definition ex_extra (v : Value N) : ClientExtra (Num := N) := {| jwks := VNull; client_requires_par := false |}.
Definition ex_creds (_ : string) : QidResult Login.PasswordCredentials :=
  Ok {| Login.pc_hash := Ok; Login.pc_verify := fun p cred => (String.eqb p (pw_hash cred), false) |}.

Definition ex_add (s : Accounts.Store (J := Value N)) : Accounts.Store :=
  {| push := push s; tokens := Tokens.with_pars Tokens.empty_store {[ ex_uri := ex_par ]};
     realm_issuers := realm_issuers s; realm_tenants := realm_tenants s; users := users s;
     credentials_password := {[ "u" := {| pw_user_id := "u"; pw_hash := "secret"; pw_algorithm := "argon2id" |} ]};
     clients := {[ "c1" := ex_client ]}; sessions := sessions s; webauthn_credentials := webauthn_credentials s;
     totp_credentials := totp_credentials s; devices := devices s; ciam := ciam s; realm_tables := realm_tables s;
     hr_receipts := hr_receipts s; ssf_set_replay := ssf_set_replay s; oidc_continuations := oidc_continuations s |}.

(** Before and after a device is enrolled. *)
Definition ex_st : PushFactor.St (Num := N) := put_store (ex_add (store PushFactor.ex_st0)) PushFactor.ex_st0.
Definition ex_st_device : PushFactor.St (Num := N) := put_store (ex_add (store PushFactor.ex_st2)) PushFactor.ex_st2.

Abbreviation ex_serve := (serve PushFactor.ex_state ex_oidc PushFactor.ex_W PushFactor.ex_url ex_json ex_jose OAuth.ex_signer
                            OAuth.ex_body ex_extra ex_creds).
Definition ex_get : Req := Get ex_named None (Some "sid=s1").
Definition ex_st1 : PushFactor.St := ex_serve ex_get ex_st.
Abbreviation codes_of st := (Tokens.authorization_codes (tokens (store st))).
Definition ex_hash : string := base64url_encode (sha256_digest "ac_3").

Lemma code_issued_soundly_witness :
  codes_of (ex_serve ex_get ex_st) !! ex_hash ≠ None ∧
  ∃ client m auth t, validated PushFactor.ex_state ex_oidc OAuth.ex_body m client ∧ client_id client = "app" ∧
    authorized PushFactor.ex_state ex_oidc PushFactor.ex_W PushFactor.ex_url ex_json ex_jose OAuth.ex_signer OAuth.ex_body ex_extra ex_creds
      ex_st ex_get client m auth t.
Proof.
  assert (∃ c, codes_of (ex_serve ex_get ex_st) !! ex_hash = Some c ∧ Tokens.ac_client_id c = "app") as (c & Hc & Hcl)
    by (eexists; split; vm_compute; reflexivity).
  split; [rewrite Hc; discriminate|].
  destruct (code_issued_soundly PushFactor.ex_state ex_oidc PushFactor.ex_W PushFactor.ex_url ex_json ex_jose OAuth.ex_signer OAuth.ex_body
    ex_extra ex_creds ex_get ex_st ex_hash c Hc) as (client & m & auth & t & Ha & Hv & Hf & _); [vm_compute; reflexivity|].
  exists client, m, auth, t. split; [exact Hv|]. split; [|exact Ha]. destruct Hf as (code & n1 & n2 & ->). exact Hcl.
Defined.

Lemma ex_get_productive :
  productive PushFactor.ex_state ex_oidc PushFactor.ex_W PushFactor.ex_url ex_json ex_jose OAuth.ex_signer OAuth.ex_body ex_extra ex_creds
    ex_get ex_st.
Proof.
  left. intros Heq. apply (f_equal (fun m => bool_decide (m = ∅))) in Heq. vm_compute in Heq. discriminate Heq.
Qed.

Lemma pushed_request_used_once_witness :
  ¬ productive PushFactor.ex_state ex_oidc PushFactor.ex_W PushFactor.ex_url ex_json ex_jose OAuth.ex_signer OAuth.ex_body ex_extra ex_creds
      (Post ex_named None "a@x" "secret") (ex_serve ex_get ex_st).
Proof.
  apply (pushed_request_used_once PushFactor.ex_state ex_oidc PushFactor.ex_W PushFactor.ex_url ex_json ex_jose OAuth.ex_signer OAuth.ex_body
    ex_extra ex_creds ex_get (Post ex_named None "a@x" "secret") ex_uri ex_st (ex_serve ex_get ex_st) eq_refl eq_refl ex_get_productive
    (rtc_refl _ _)).
Defined.

Lemma pushed_parameters_bind_witness :
  ∃ c, codes_of (ex_serve ex_get ex_st) !! ex_hash = Some c ∧ Tokens.redirect_uri c = "https://app/cb" ∧
    Tokens.code_challenge c = Some ex_challenge.
Proof.
  assert (∃ c, codes_of (ex_serve ex_get ex_st) !! ex_hash = Some c ∧ Tokens.ac_client_id c ≠ "") as (c & Hc & Hcl)
    by (eexists; split; [vm_compute; reflexivity|discriminate]).
  exists c. split; [exact Hc|].
  destruct (pushed_parameters_bind PushFactor.ex_state ex_oidc PushFactor.ex_W PushFactor.ex_url ex_json ex_jose OAuth.ex_signer OAuth.ex_body
    ex_extra ex_creds ex_get ex_uri ex_st ex_hash c eq_refl Hc) as (par & params & n & Hpar & _ & _ & Hps & _ & Hr & _ & _ & Hch & _);
    [vm_compute; reflexivity|exact Hcl|]. clear Hc.
  assert (Tokens.par_requests (tokens (store ex_st)) !! ex_uri = Some ex_par) as Hp by (vm_compute; reflexivity).
  assert (par = ex_par) as -> by (rewrite Hp in Hpar; by injection Hpar).
  cbn in Hps. injection Hps as <-. split; [by apply Hr|by apply Hch].
Defined.

(** The password, then the approval of the device, then the completion. *)
Definition ex_post : Req := Post ex_request None "a@x" "secret".
Definition ex_st2 : PushFactor.St := ex_serve ex_post ex_st_device.
Definition ex_cid : string := PushFactor.ex_secret 106.
Definition ex_decision : DecisionRequest :=
  {| dr_realm_id := "r"; dr_user_id := "u"; dr_challenge_id := ex_cid; dr_nonce := PushFactor.ex_secret 105; dr_decision := Push.Approve;
     dr_proof := PushFactor.ex_proof (match Push.logins (push (store ex_st2)) !! ex_cid with
                                      | Some c => login_payload c (PushFactor.ex_secret 105) Push.Approve
                                      | None => Err invalid
                                      end) |}.
Definition ex_st3 : PushFactor.St := ex_serve (Factor (Decision (Some "r") ex_decision)) ex_st2.
Definition ex_hdr : option string := Some (OIDC_COOKIE +:+ "=" +:+ PushFactor.ex_secret 102).
Definition ex_completion : OidcCompleteRequest :=
  {| oc_realm_id := "r"; oc_user_id := "u"; oc_client_id := "app"; oc_challenge_id := ex_cid |}.

Lemma ex_completion_stores : codes_of (ex_serve (Complete ex_hdr ex_completion) ex_st3) ≠ codes_of ex_st3.
Proof. intros Heq. apply (f_equal (fun m => size m)) in Heq. vm_compute in Heq. discriminate Heq. Qed.

Lemma push_code_once_witness :
  codes_of (ex_serve (Complete ex_hdr ex_completion) ex_st3) ≠ codes_of ex_st3 ∧
  codes_of (ex_serve (Complete ex_hdr ex_completion) (ex_serve (Complete ex_hdr ex_completion) ex_st3))
    = codes_of (ex_serve (Complete ex_hdr ex_completion) ex_st3).
Proof.
  split; [exact ex_completion_stores|].
  apply (push_code_once PushFactor.ex_state ex_oidc PushFactor.ex_W PushFactor.ex_url ex_json ex_jose OAuth.ex_signer OAuth.ex_body
    ex_extra ex_creds ex_hdr ex_hdr ex_completion ex_completion ex_st3 _ ex_completion_stores eq_refl (rtc_refl _ _)).
Defined.

(** The token endpoint on the store the session's code is in. *)
Definition ex_ts : OAuth.St (Num := N) := {| OAuth.store := store (ex_serve ex_get ex_st); OAuth.service_accounts := ∅; OAuth.tick := 0 |}.
Definition ex_exchange : OAuth.TokenRequest (Num := N) := {|
  OAuth.grant_type := "authorization_code"; OAuth.rq_code := Some "ac_3"; OAuth.rq_redirect_uri := Some "https://app/cb";
  OAuth.code_verifier := Some ex_verifier; OAuth.rq_client_id := Some "app"; OAuth.rq_client_secret := None; OAuth.rq_scope := None;
  OAuth.rq_refresh_token := None; OAuth.client_assertion := None; OAuth.client_assertion_type := None; OAuth.device_code := None;
  OAuth.auth_req_id := None; OAuth.assertion := None; OAuth.subject_token := None; OAuth.subject_token_type := None;
  OAuth.actor_token := None; OAuth.actor_token_type := None; OAuth.requested_token_type := None; OAuth.rq_audience := None;
  OAuth.rq_resource := None; OAuth.rq_authorization_details := None |}.
Abbreviation ex_redeem := (exchange OAuth.ex_signer OAuth.ex_body OAuth.ex_state OAuth.ex_W (fun k m => sha256_digest (k +:+ m)) (fun _ => None)).

Lemma ex_ts_keyed : OAuth.keyed ex_ts.
Proof.
  assert (Tokens.token_families (tokens (OAuth.store ex_ts)) = ∅) as Hf by (vm_compute; reflexivity).
  assert (Forall (fun p => Tokens.code_hash p.2 = p.1) (map_to_list (Tokens.authorization_codes (tokens (OAuth.store ex_ts))))) as Hc
    by (vm_compute; repeat constructor).
  split; intros k x Hx; [rewrite Hf, lookup_empty in Hx; discriminate Hx|].
  apply elem_of_map_to_list in Hx. rewrite Forall_forall in Hc. exact (Hc _ Hx).
Qed.

Lemma ex_redeemed : ∃ resp ts, ex_redeem ex_exchange ex_client None ex_ts = (Ok resp, ts).
Proof. eexists _, _. vm_compute. reflexivity. Qed.

Lemma code_flow_end_to_end_witness :
  codes_of ex_st = ∅ ∧ ∃ resp ts m, ex_redeem ex_exchange ex_client None ex_ts = (Ok resp, ts) ∧
    code_challenge m = Some (base64url_encode (sha256_digest ex_verifier)) ∧ redirect_uri (Num := N) m = "https://app/cb".
Proof.
  split; [vm_compute; reflexivity|]. destruct ex_redeemed as (resp & ts & Hok). exists resp, ts.
  destruct (code_flow_end_to_end PushFactor.ex_state ex_oidc PushFactor.ex_W PushFactor.ex_url ex_json ex_jose OAuth.ex_signer OAuth.ex_body
    ex_extra ex_creds OAuth.ex_state OAuth.ex_W (fun k m => sha256_digest (k +:+ m)) (fun _ => None) ex_st (ex_serve ex_get ex_st) ex_ts ts
    ex_exchange ex_client None resp) as (s & r & cl & m & auth & t & ac & _ & _ & _ & _ & _ & _ & Hre & Hr & _ & Hp).
  - vm_compute. reflexivity.
  - apply rtc_once. exists ex_get. reflexivity.
  - reflexivity.
  - exact ex_ts_keyed.
  - exact Hok.
  - exists m. split; [exact Hok|]. split; [apply (Hp PushFactor.ex_realm); [rewrite <- Hre; vm_compute; reflexivity|reflexivity]|].
    cbn in Hr. by injection Hr as ->.
Defined.

End Authorize.
