(* ===== verification/Dcr.v ===== *)
(** Dynamic client registration (src/qid-oauth/src/endpoints/dcr.rs): the validation of client metadata,
    registration with an initial access token or in the open, and the management of a registered client
    with its registration access token or its secret.

    The store, the signer, the [World] and the checks of clients are those of OAuth.v.  The stored form of
    a client beyond its identity is a parameter, with the codec that reads it; URL parsing and base64url
    decoding are parameters.  A client's record is [ClientFields]; [Descriptive] holds the fields that a
    request, a record and an answer have in common. *)

From S2P Require Import Prelude Utf8 Request Json Risk Tokens Accounts OAuth.
Import Accounts Request.

Module Dcr.

(** [str::replace]: [skip] characters are still to be dropped. *)
Fixpoint replace_from (pat by_ : string) (skip : nat) (s : string) : string :=
  match s with
  | EmptyString => EmptyString
  | String c s' =>
      match skip with
      | S k => replace_from pat by_ k s'
      | O => match strip_prefix pat s with
             | Some _ => by_ +:+ replace_from pat by_ (String.length pat - 1) s'
             | None => String c (replace_from pat by_ 0 s')
             end
      end
  end.

(** What the routes read of the protocols of a realm, and of the paths of the server. *)
Record DcrConfig : Type := { dcr_enabled : bool; allow_open_registration : bool; par_enabled : bool }.
Record DcrPaths : Type := { dynamic_client_registration_path : string; dynamic_client_registration_management_path : string }.

Section Dcr.
Context {Num : Type} `{JsonNumber Num}.
Abbreviation J := (Value Num).
Abbreviation St := (OAuth.St (Num := Num)).
Abbreviation Store := (Accounts.Store (J := J)).
Abbreviation ClientJ := (Accounts.Client (J := J)).

Record Descriptive : Type := {
  redirect_uris : list string; mtls_certificate_thumbprints : list string; jwks : J; client_name : option string;
  client_uri : option string; logo_uri : option string; contacts : list string; post_logout_redirect_uris : list string;
  default_max_age : option N; require_auth_time : bool; sector_identifier_uri : option string; subject_type : option string;
  backchannel_client_notification_endpoint : option string; require_pushed_authorization_requests : bool
}.

Record DynamicClientRegistrationRequest : Type := {
  rq_client_id : option string; rq_grant_types : list string; rq_token_endpoint_auth_method : option string;
  rq_metadata : Descriptive; rq_backchannel_logout_uri : option string; rq_frontchannel_logout_uri : option string
}.

Record ClientFields : Type := {
  cf_client_type : OAuth.ClientType; cf_auth_method : string; cf_client_secret_hash : option string; cf_grant_types : list string;
  cf_metadata : Descriptive; cf_backchannel_logout_uri : option string; cf_frontchannel_logout_uri : option string
}.

Record DynamicClientRegistrationResponse : Type := {
  rs_client_id : string; client_id_issued_at : N; registration_access_token : option string; registration_client_uri : option string;
  rs_client_secret : option string; rs_grant_types : list string; rs_token_endpoint_auth_method : string; rs_metadata : Descriptive
}.

Record DynamicClientMetadata : Type := { client_type : OAuth.ClientType; auth_method : string; grant_types : list string }.

(** The stored form of a client, and what the other endpoints read of it. *)
Context (client_value : ClientFields → J) (client_fields : J → ClientFields).

Definition client_body (j : J) : OAuth.ClientBody :=
  let f := client_fields j in
  {| OAuth.client_type := cf_client_type f; OAuth.token_endpoint_auth_method := cf_auth_method f;
     OAuth.client_secret_hash := cf_client_secret_hash f; OAuth.mtls_certificate_thumbprints := mtls_certificate_thumbprints (cf_metadata f);
     OAuth.redirect_uris := redirect_uris (cf_metadata f); OAuth.grant_types := cf_grant_types f;
     OAuth.sector_identifier_uri := sector_identifier_uri (cf_metadata f); OAuth.subject_type := subject_type (cf_metadata f) |}.

(** * Client metadata *)

(** [url_parse]: the scheme of a URL and its host, empty when it has none. *)
Context (url_parse : string → option (string * string)) (base64url_decode : string → result (list N) string).

Definition is_localhost (host : string) : bool :=
  str_in host ["localhost"; "127.0.0.1"; "::1"] || starts_with "127." host || String.eqb host "[::1]".

Definition validate_redirect_uri (uri : string) : QidResult unit :=
  let? p := ok_or (url_parse uri) (BadRequest ("redirect_uri " +:+ uri +:+ " is not a valid URL")) in
  let '(scheme, host) := p in
  if negb (String.eqb scheme "https") && negb (String.eqb scheme "http" && is_localhost host)
  then Err (BadRequest ("redirect_uri " +:+ uri +:+ " has no scheme")) else Ok tt.

Fixpoint drop_zeros (bytes : list N) : list N :=
  match bytes with
  | b :: rest => if b =? 0 then drop_zeros rest else bytes
  | [] => []
  end.

(** [8 - leading_zeros] of a byte is its length in bits. *)
Definition rsa_modulus_bit_len (encoded : string) : QidResult N :=
  let? modulus := map_err (fun e => BadRequest ("RSA JWK modulus is not valid base64url: " +:+ e)) (base64url_decode encoded) in
  match drop_zeros modulus with
  | [] => Ok 0
  | first :: rest => Ok (N.of_nat (length rest) * 8 + N.size first)
  end.

Definition key_label (idx : nat) : string := "jwks.keys[" +:+ pretty (N.of_nat idx) +:+ "]".

Definition obj_str (o : list (string * J)) (k : string) : option string := obj_get o k ≫= value_str.

Definition validate_jwk (idx : nat) (key : J) : QidResult unit :=
  match key with
  | VObject o =>
      match obj_str o "kty" with
      | None => Err (BadRequest (key_label idx +:+ " missing kty"))
      | Some kty =>
          if String.eqb kty "RSA" then
            let? n_bits := match obj_str o "n" with Some n => rsa_modulus_bit_len n | None => Ok 0 end in
            if n_bits <? 2048
            then Err (BadRequest (key_label idx +:+ " RSA key size " +:+ pretty n_bits +:+ " is too small, minimum 2048 bits")) else Ok tt
          else if String.eqb kty "EC" then
            match obj_str o "crv" with
            | Some crv => if str_in crv ["P-256"; "P-384"; "P-521"] then Ok tt
                          else Err (BadRequest (key_label idx +:+ " EC curve " +:+ crv +:+ " is unsupported, minimum P-256"))
            | None => Err (BadRequest (key_label idx +:+ " EC missing crv"))
            end
          else if String.eqb kty "OKP" then Ok tt
          else Err (BadRequest (key_label idx +:+ ".kty is unsupported: " +:+ kty))
      end
  | _ => Err (BadRequest (key_label idx +:+ " must be an object"))
  end.

Fixpoint validate_keys (idx : nat) (keys : list J) : QidResult unit :=
  match keys with
  | [] => Ok tt
  | k :: rest => validate_jwk idx k ?; validate_keys (S idx) rest
  end.

Definition validate_client_jwks (v : J) : QidResult unit :=
  match value_get "keys" v with
  | Some (VArray []) => Err (BadRequest "private_key_jwt clients require at least one JWK")
  | Some (VArray keys) => validate_keys 0 keys
  | _ => Err (BadRequest "private_key_jwt clients require jwks.keys")
  end.

Definition AUTH_METHODS : list string :=
  ["none"; "client_secret_basic"; "client_secret_post"; "private_key_jwt"; "tls_client_auth"; "self_signed_tls_client_auth"].

Definition reject (b : bool) (message : string) : QidResult unit := if b then Err (BadRequest message) else Ok tt.

Definition requested_grants (req : DynamicClientRegistrationRequest) : list string :=
  match rq_grant_types req with [] => ["authorization_code"] | l => l end.

Definition validate_dynamic_client_metadata (req : DynamicClientRegistrationRequest) : QidResult DynamicClientMetadata :=
  let m := rq_metadata req in
  let? _ := res_mapM validate_redirect_uri (redirect_uris m) in
  let method := default "client_secret_basic" (rq_token_endpoint_auth_method req) in
  reject (negb (str_in method AUTH_METHODS)) "unsupported token_endpoint_auth_method" ?;
  let type := if String.eqb method "none" then OAuth.Public else OAuth.Confidential in
  let grants := requested_grants req in
  reject (existsb (fun g => str_in g ["implicit"; "password"]) grants) "implicit and password grants are forbidden for new clients" ?;
  reject (String.eqb method "none" && str_in "client_credentials" grants) "public clients cannot use client_credentials" ?;
  reject (str_in method ["tls_client_auth"; "self_signed_tls_client_auth"]
          && match mtls_certificate_thumbprints m with [] => true | _ => false end)
    "mTLS clients require mtls_certificate_thumbprints" ?;
  (if String.eqb method "private_key_jwt" then validate_client_jwks (jwks m) else Ok tt) ?;
  reject (match subject_type m with Some t => negb (str_in t ["public"; "pairwise"]) | None => false end) "unsupported subject_type" ?;
  Ok {| client_type := type; auth_method := method; grant_types := grants |}.

(** * The routes *)

Context (state : OAuth.SharedState) (dcr_of : OAuth.OAuthRealmConfig → DcrConfig) (paths : DcrPaths).
Context (signer : OAuth.Signer (Num := Num)) (W : OAuth.World) (sha256 : string → list N) (base64url : list N → string).
Context `{CT : Push.ConstantTimeEq}.

Definition M (A : Type) : Type := Request.M St A.
Definition now_seconds : M N := OAuth.now_seconds W.
Definition new_ulid : M string := fun st => (Ok (OAuth.w_ulid W (OAuth.tick st)), OAuth.bump st).
Definition read {A} (f : Store → A) : M A := OAuth.read f.
Definition write {A} (f : QidResult unit → Store → QidResult A * Store) : M A := OAuth.write W f.
Definition require {A} (o : option A) (e : QidError) : M A := OAuth.require o e.
Definition guard (b : bool) (e : QidError) : M unit := OAuth.guard b e.

(** The authentication of a request: the [Authorization] header, and what [extract_basic_client_auth] reads of it. *)
Record Headers : Type := { authorization : option string; basic : option OAuth.BasicClientAuth }.

Inductive Reply : Type :=
| Registration (r : DynamicClientRegistrationResponse)
| UnsupportedPar
| NoContent.

Definition oauth_feature_enabled (realm : string) (p : DcrConfig → bool) : bool :=
  match OAuth.find_config state realm with Some r => p (dcr_of r) | None => false end.

Definition SLASH : Ascii.ascii := Ascii.ascii_of_N 47.

Definition dcr_registration_client_uri (cid : string) : string :=
  OAuth.trim_end_char SLASH (OAuth.public_base_url state)
  +:+ replace_from ":client_id" cid 0 (dynamic_client_registration_management_path paths).

Definition sign_dcr_registration_access_token (issuer cid uri : string) : M string :=
  let! now := now_seconds in
  let! id := new_ulid in
  of_result (map_err (fun e => Crypto ("failed to sign DCR registration access token: " +:+ e))
    (OAuth.sign signer
       {| OAuth.iss := Some issuer; OAuth.sub := Some cid; OAuth.aud := Some (OAuth.Single uri); OAuth.exp := Some (add64 now 3600);
          OAuth.nbf := Some now; OAuth.iat := Some now; OAuth.jti := Some ("rat_" +:+ id); OAuth.extra := ∅ |})).

Definition build_dynamic_client_registration_response (issuer cid : string) (secret : option string) (grants : list string)
    (method : string) (m : Descriptive) : M DynamicClientRegistrationResponse :=
  let uri := dcr_registration_client_uri cid in
  let! token := sign_dcr_registration_access_token issuer cid uri in
  let! now := now_seconds in
  ret {| rs_client_id := cid; client_id_issued_at := now; registration_access_token := Some token; registration_client_uri := Some uri;
         rs_client_secret := secret; rs_grant_types := grants; rs_token_endpoint_auth_method := method; rs_metadata := m |}.

(** ** Registration *)

Definition dcr_url (c : OAuth.JwtClaims (Num := Num)) : string :=
  OAuth.trim_end_char SLASH (default "" (OAuth.iss c)) +:+ dynamic_client_registration_path paths.

Definition find_issuer (issuer : string) : option OAuth.PlanRealm :=
  List.find (fun r => String.eqb (OAuth.pr_issuer r) issuer) (OAuth.plan_realms state).

Definition unauthorized (m : string) : QidError := Unauthorized m.

(** The realm an initial access token admits to. *)
Definition token_realm (token : string) : M OAuth.PlanRealm :=
  let! c := of_result (map_err (fun _ => unauthorized "invalid initial access token") (OAuth.decode_signature_only signer token)) in
  let! now := now_seconds in
  let! exp := require (OAuth.exp c) (unauthorized "initial access token must have an exp claim") in
  let! _ := guard (exp <=? now) (unauthorized "initial access token has expired") in
  let! _ := guard (match OAuth.nbf c with Some nbf => add64 now 60 <? nbf | None => false end)
              (unauthorized "initial access token is not yet valid") in
  let! aud := require (OAuth.aud c) (unauthorized "initial access token must have an aud claim") in
  let! _ := guard (negb (OAuth.audience_contains aud (dcr_url c))) (unauthorized "initial access token audience mismatch") in
  let! realm := require (find_issuer (default "" (OAuth.iss c))) (unauthorized "invalid initial access token issuer") in
  let! _ := guard (negb (oauth_feature_enabled (OAuth.pr_id realm) dcr_enabled)) (BadRequest "dynamic client registration is disabled") in
  ret realm.

Definition open_realms : list OAuth.OAuthRealmConfig :=
  List.filter (fun r => dcr_enabled (dcr_of r) && allow_open_registration (dcr_of r)) (OAuth.config_realms state).

(** The one realm open to registration. *)
Definition open_realm : M OAuth.PlanRealm :=
  match open_realms with
  | [] =>
      throw (if negb (existsb (fun r => dcr_enabled (dcr_of r)) (OAuth.config_realms state))
             then BadRequest "dynamic client registration is disabled"
             else unauthorized "initial access token is required for dynamic client registration")
  | [r] => require (OAuth.find_plan state (OAuth.oc_id r)) (Config ("realm " +:+ OAuth.oc_id r +:+ " is not available at runtime"))
  | _ => throw (unauthorized "initial access token is required when multiple realms allow open registration")
  end.

Definition registration_realm (h : Headers) : M OAuth.PlanRealm :=
  match Risk.bearer_token (authorization h) with
  | Some token => if negb (is_empty_str token) then token_realm token else open_realm
  | None => open_realm
  end.

Definition is_confidential (t : OAuth.ClientType) : bool := match t with OAuth.Confidential => true | OAuth.Public => false end.

Definition uses_secret (md : DynamicClientMetadata) : bool :=
  is_confidential (client_type md) && str_in (auth_method md) ["client_secret_basic"; "client_secret_post"].

(** [cond.then(|| format!("secret_{}", Ulid::new()))] *)
Definition new_secret (cond : bool) : M (option string) :=
  if cond then let! u := new_ulid in ret (Some ("secret_" +:+ u)) else ret None.

Definition client_secret_hash (secret : string) : string := OAuth.client_secret_hash_of sha256 base64url secret.

Definition fields_of (req : DynamicClientRegistrationRequest) (md : DynamicClientMetadata) (hash : option string) : ClientFields :=
  {| cf_client_type := client_type md; cf_auth_method := auth_method md; cf_client_secret_hash := hash; cf_grant_types := grant_types md;
     cf_metadata := rq_metadata req; cf_backchannel_logout_uri := rq_backchannel_logout_uri req;
     cf_frontchannel_logout_uri := rq_frontchannel_logout_uri req |}.

(** src/qid-storage/src/traits.rs *)
Definition ensure_client_id_unambiguous (served : list string) (cid target : string) : M unit :=
  if negb (str_in target served) then ret tt
  else
    let! holders := read (find_clients_by_client_id served cid) in
    match List.find (fun c => negb (String.eqb (c_realm_id c) target)) holders with
    | Some holder => throw (Conflict ("client id " +:+ cid +:+ " already exists in realm " +:+ c_realm_id holder))
    | None => ret tt
    end.

Definition requires_par (req : DynamicClientRegistrationRequest) (realm : string) : bool :=
  require_pushed_authorization_requests (rq_metadata req) && negb (oauth_feature_enabled realm par_enabled).

Definition chosen_client_id (req : DynamicClientRegistrationRequest) : M string :=
  match rq_client_id req with Some cid => ret cid | None => let! u := new_ulid in ret ("client_" +:+ u) end.

Definition dynamic_client_registration (h : Headers) (req : DynamicClientRegistrationRequest) : M Reply :=
  let! realm := registration_realm h in
  let! md := of_result (validate_dynamic_client_metadata req) in
  if requires_par req (OAuth.pr_id realm) then ret UnsupportedPar
  else
    let! cid := chosen_client_id req in
    let! secret := new_secret (uses_secret md) in
    let! u := new_ulid in
    let c := {| c_id := "cl_" +:+ u; c_realm_id := OAuth.pr_id realm; client_id := cid;
                c_body := client_value (fields_of req md (client_secret_hash <$> secret)) |} in
    let! _ := ensure_client_id_unambiguous (map OAuth.oc_id (OAuth.config_realms state)) cid (c_realm_id c) in
    let! _ := write (fun saved => Accounts.create_client saved c) in
    let! r := build_dynamic_client_registration_response (OAuth.pr_issuer realm) cid secret (grant_types md) (auth_method md) (rq_metadata req) in
    ret (Registration r).

(** ** Management *)

Definition validate_dcr_registration_access_token (token cid : string) : M unit :=
  let! c := of_result (map_err (fun e => unauthorized ("invalid registration access token: " +:+ e)) (OAuth.decode_signature_only signer token)) in
  let! _ := guard (negb (bool_decide (OAuth.sub c = Some cid))) (unauthorized "registration access token subject mismatch") in
  let! _ := guard (negb (match OAuth.aud c with Some a => OAuth.audience_contains a (dcr_registration_client_uri cid) | None => false end))
              (unauthorized "registration access token audience mismatch") in
  let! now := now_seconds in
  let! _ := guard (match OAuth.exp c with Some exp => exp <=? now | None => true end) (unauthorized "registration access token expired") in
  guard (match OAuth.nbf c with Some nbf => add64 now 60 <? nbf | None => false end) (unauthorized "registration access token is not yet valid").

Definition known_client (realm cid : string) : M ClientJ :=
  let! found := read (get_client_by_client_id realm cid) in require found (unauthorized "unknown client").

Definition authenticate_dcr_management_client (h : Headers) (realm cid : string) : M ClientJ :=
  match Risk.bearer_token (authorization h) with
  | Some token => let! _ := validate_dcr_registration_access_token token cid in known_client realm cid
  | None =>
      let! b := require (basic h) (unauthorized "DCR management requires client authentication") in
      let! _ := guard (negb (String.eqb (OAuth.ba_client_id b) cid)) (unauthorized "DCR management client_id must match path") in
      let! client := known_client realm cid in
      let! _ := guard (negb (is_confidential (OAuth.client_type (client_body (c_body client)))))
                  (unauthorized "DCR management requires a confidential client") in
      let! _ := of_result (OAuth.verify_client_secret client_body sha256 base64url client (Some (OAuth.ba_client_secret b))) in
      ret client
  end.

Definition not_found (cid : string) : QidError := NotFound ("client " +:+ cid).

(** The realm of the one served client with this identifier; every error is [NotFound]. *)
Definition managed_realm (cid : string) : M string :=
  fun st => match OAuth.find_client_across_realms state cid st with
            | (Ok client, st') => (Ok (c_realm_id client), st')
            | (Err _, st') => (Err (not_found cid), st')
            end.

Definition dynamic_client_registration_context (cid : string) : M (string * string) :=
  let! realm := managed_realm cid in
  let! plan := require (OAuth.find_plan state realm) (NotFound ("realm " +:+ realm)) in
  ret (realm, OAuth.pr_issuer plan).

Definition require_enabled (realm : string) : M unit :=
  guard (negb (oauth_feature_enabled realm dcr_enabled)) (BadRequest "dynamic client registration is disabled").

Definition stored_client (realm cid : string) : M ClientJ :=
  let! found := read (get_client_by_client_id realm cid) in require found (not_found cid).

Definition dynamic_client_registration_get (h : Headers) (cid : string) : M Reply :=
  let! ctx := dynamic_client_registration_context cid in
  let! _ := require_enabled ctx.1 in
  let! _ := authenticate_dcr_management_client h ctx.1 cid in
  let! client := stored_client ctx.1 cid in
  let f := client_fields (c_body client) in
  let! r := build_dynamic_client_registration_response ctx.2 (client_id client) None (cf_grant_types f) (cf_auth_method f) (cf_metadata f) in
  ret (Registration r).

Definition dynamic_client_registration_update (h : Headers) (cid : string) (req : DynamicClientRegistrationRequest) : M Reply :=
  let! _ := guard (match rq_client_id req with Some b => negb (String.eqb b cid) | None => false end)
              (BadRequest "client_id in request body must match management path") in
  let! md := of_result (validate_dynamic_client_metadata req) in
  let! ctx := dynamic_client_registration_context cid in
  let! _ := require_enabled ctx.1 in
  let! _ := authenticate_dcr_management_client h ctx.1 cid in
  if requires_par req ctx.1 then ret UnsupportedPar
  else
    let! existing := stored_client ctx.1 cid in
    let kept := cf_client_secret_hash (client_fields (c_body existing)) in
    let! secret := new_secret (uses_secret md && match kept with None => true | Some _ => false end) in
    let hash := if uses_secret md then match client_secret_hash <$> secret with Some x => Some x | None => kept end else None in
    let updated := {| c_id := c_id existing; c_realm_id := ctx.1; client_id := client_id existing;
                      c_body := client_value (fields_of req md hash) |} in
    let! _ := write (fun saved => Accounts.update_client saved updated) in
    let! r := build_dynamic_client_registration_response ctx.2 cid secret (grant_types md) (auth_method md) (rq_metadata req) in
    ret (Registration r).

Definition dynamic_client_registration_delete (h : Headers) (cid : string) : M Reply :=
  let! realm := managed_realm cid in
  let! _ := require_enabled realm in
  let! _ := authenticate_dcr_management_client h realm cid in
  let! client := stored_client realm cid in
  let! _ := write (fun saved => Accounts.delete_client saved realm (c_id client)) in
  ret NoContent.

(** * Requests and what they may do *)

Inductive DcrOp : Type :=
| Register (h : Headers) (req : DynamicClientRegistrationRequest)
| Get (h : Headers) (cid : string)
| Update (h : Headers) (cid : string) (req : DynamicClientRegistrationRequest)
| Delete (h : Headers) (cid : string).

Definition serve (op : DcrOp) : M Reply :=
  match op with
  | Register h req => dynamic_client_registration h req
  | Get h cid => dynamic_client_registration_get h cid
  | Update h cid req => dynamic_client_registration_update h cid req
  | Delete h cid => dynamic_client_registration_delete h cid
  end.

(** A token verified while the clock was read in between [st] and [st']. *)
Definition token_live (st st' : St) (c : OAuth.JwtClaims (Num := Num)) : Prop :=
  ∃ n exp, OAuth.exp c = Some exp ∧ OAuth.w_now W n < exp ∧ (∀ nbf, OAuth.nbf c = Some nbf → nbf ≤ OAuth.w_now W n + 60) ∧
    (OAuth.tick st ≤ n)%nat ∧ (n < OAuth.tick st')%nat.

(** Who may register a client in a realm. *)
Definition may_register (st st' : St) (h : Headers) (realm : string) : Prop :=
  (∃ token c aud r, Risk.bearer_token (authorization h) = Some token ∧ OAuth.decode_signature_only signer token = Ok c ∧
     token_live st st' c ∧ OAuth.aud c = Some aud ∧ OAuth.audience_contains aud (dcr_url c) = true ∧
     find_issuer (default "" (OAuth.iss c)) = Some r ∧ OAuth.pr_id r = realm ∧ oauth_feature_enabled realm dcr_enabled = true)
  ∨ (Risk.bearer_token (authorization h) = None ∧ ∃ r, open_realms = [r] ∧ OAuth.oc_id r = realm).

(** Who may manage a client. *)
Definition may_manage (st st' : St) (h : Headers) (client : ClientJ) : Prop :=
  (∃ token c aud, Risk.bearer_token (authorization h) = Some token ∧ OAuth.decode_signature_only signer token = Ok c ∧
     OAuth.sub c = Some (client_id client) ∧ OAuth.aud c = Some aud ∧
     OAuth.audience_contains aud (dcr_registration_client_uri (client_id client)) = true ∧ token_live st st' c)
  ∨ (Risk.bearer_token (authorization h) = None ∧ ∃ b, basic h = Some b ∧ OAuth.ba_client_id b = client_id client ∧
       OAuth.ba_client_secret b ≠ "" ∧ cf_client_type (client_fields (c_body client)) = OAuth.Confidential ∧
       cf_client_secret_hash (client_fields (c_body client)) = Some (client_secret_hash (OAuth.ba_client_secret b))).

(** The clients the server looks at. *)
Definition served (realm : string) : Prop := realm ∈ map OAuth.oc_id (OAuth.config_realms state).

Abbreviation clients_of st := (clients (OAuth.store st)).

(** ** Parts that only read *)

Definition ticks (st st' : St) : Prop :=
  OAuth.store st' = OAuth.store st ∧ OAuth.service_accounts st' = OAuth.service_accounts st ∧ (OAuth.tick st ≤ OAuth.tick st')%nat.

#[local] Instance ticks_preorder : PreOrder ticks.
Proof. split; [by intros st|]. intros a b c (H1 & H2 & H3) (H4 & H5 & H6). split_and!; [congruence..|lia]. Qed.

Abbreviation reading m := (preserves ticks m).

Lemma dcr_reading_now : reading now_seconds.
Proof. intros st. split_and!; cbn; [done..|lia]. Qed.
Lemma reading_ulid : reading new_ulid.
Proof. intros st. split_and!; cbn; [done..|lia]. Qed.
Lemma dcr_reading_read {A} (f : Store → A) : reading (read f).
Proof. intros st. reflexivity. Qed.
Lemma dcr_reading_require {A} (o : option A) e : reading (require o e).
Proof. intros st. reflexivity. Qed.
Lemma dcr_reading_guard b e : reading (guard b e).
Proof. intros st. by destruct b. Qed.

Create HintDb dcr.
#[local] Hint Resolve preserves_ret preserves_throw preserves_of_result dcr_reading_now reading_ulid dcr_reading_read dcr_reading_require
  dcr_reading_guard : dcr.

Ltac readonly :=
  repeat first
    [ solve [eauto 3 with dcr typeclass_instances]
    | progress cbv zeta
    | match goal with
      | |- preserves _ (bind _ _) => apply preserves_bind; [exact ticks_preorder| |intros]
      | |- preserves _ (match ?x with _ => _ end) => destruct x
      end ].

Lemma reading_token_realm token : reading (token_realm token).
Proof. unfold token_realm. readonly. Qed.
Lemma reading_open : reading open_realm.
Proof. unfold open_realm. readonly. Qed.
#[local] Hint Resolve reading_token_realm reading_open : dcr.
Lemma reading_realm h : reading (registration_realm h).
Proof. unfold registration_realm. readonly. Qed.
Lemma reading_secret b : reading (new_secret b).
Proof. unfold new_secret. readonly. Qed.
Lemma reading_cid req : reading (chosen_client_id req).
Proof. unfold chosen_client_id. readonly. Qed.
Lemma reading_unambiguous l cid target : reading (ensure_client_id_unambiguous l cid target).
Proof. unfold ensure_client_id_unambiguous. readonly. Qed.
Lemma reading_response i cid s g m d : reading (build_dynamic_client_registration_response i cid s g m d).
Proof. unfold build_dynamic_client_registration_response, sign_dcr_registration_access_token. readonly. Qed.
Lemma reading_validate t cid : reading (validate_dcr_registration_access_token t cid).
Proof. unfold validate_dcr_registration_access_token. readonly. Qed.
Lemma reading_known realm cid : reading (known_client realm cid).
Proof. unfold known_client. readonly. Qed.
#[local] Hint Resolve reading_realm reading_secret reading_cid reading_unambiguous reading_response reading_validate reading_known : dcr.
Lemma reading_authenticate h realm cid : reading (authenticate_dcr_management_client h realm cid).
Proof. unfold authenticate_dcr_management_client. readonly. Qed.
Lemma reading_managed cid : reading (managed_realm cid).
Proof.
  intros st. unfold managed_realm, OAuth.find_client_across_realms, OAuth.find_client_across_realms_with_messages, OAuth.read, bind, get_state, ret.
  destruct (find_clients_by_client_id _ _ _) as [|c [|]]; reflexivity.
Qed.
#[local] Hint Resolve reading_authenticate reading_managed : dcr.
Lemma reading_context cid : reading (dynamic_client_registration_context cid).
Proof. unfold dynamic_client_registration_context. readonly. Qed.
Lemma reading_stored realm cid : reading (stored_client realm cid).
Proof. unfold stored_client. readonly. Qed.
Lemma reading_enabled realm : reading (require_enabled realm).
Proof. unfold require_enabled. readonly. Qed.
#[local] Hint Resolve reading_context reading_stored reading_enabled : dcr.

(** ** Inversion *)

Lemma dcr_guard_inv b e st u st' : guard b e st = (Ok u, st') → b = false ∧ st' = st.
Proof. unfold guard, OAuth.guard. destruct b; [done|]. by intros [= _ <-]. Qed.
Lemma dcr_require_inv {A} (o : option A) e st a st' : require o e st = (Ok a, st') → o = Some a ∧ st' = st.
Proof. unfold require, OAuth.require. destruct o; [|done]. by intros [= -> <-]. Qed.
Lemma dcr_read_inv {A} (f : Store → A) st a st' : read f st = (Ok a, st') → a = f (OAuth.store st) ∧ st' = st.
Proof. by intros [= <- <-]. Qed.
Lemma dcr_now_inv st n st' : now_seconds st = (Ok n, st') → n = OAuth.w_now W (OAuth.tick st) ∧ st' = OAuth.bump st.
Proof. by intros [= <- <-]. Qed.

Ltac unstep :=
  repeat match goal with
  | E : bind _ _ _ = (Ok _, _) |- _ =>
      let a := fresh "a" in let s := fresh "s" in let F := fresh "E" in apply bind_inv in E as (a & s & F & E)
  | E : guard _ _ _ = (Ok _, _) |- _ => apply dcr_guard_inv in E as [E ->]
  | E : require _ _ _ = (Ok _, _) |- _ => apply dcr_require_inv in E as [E ->]
  | E : read _ _ = (Ok _, _) |- _ => apply dcr_read_inv in E as [E ->]
  | E : now_seconds _ = (Ok _, _) |- _ => apply dcr_now_inv in E as [-> ->]
  | E : of_result _ _ = (Ok _, _) |- _ => apply of_result_inv in E as [E ->]
  | E : ret _ _ = (Ok _, _) |- _ => unfold ret in E; injection E as <- <-
  end.

Lemma map_err_Ok {A E F} (f : E → F) (r : result A E) a : map_err f r = Ok a → r = Ok a.
Proof. destruct r; [|done]. by intros [= ->]. Qed.

Lemma feature_served realm p : oauth_feature_enabled realm p = true → served realm.
Proof.
  unfold oauth_feature_enabled, OAuth.find_config, served. destruct (List.find _ _) as [r|] eqn:Er; [|done]. intros _.
  apply find_some in Er as [Hr <-%String.eqb_eq]. by apply list_elem_of_In, in_map.
Qed.

Lemma add64_le a b : add64 a b ≤ a + b.
Proof. unfold add64. apply N.Div0.mod_le. Qed.

Lemma token_live_intro st st' (c : OAuth.JwtClaims (Num := Num)) exp :
  OAuth.exp c = Some exp → (exp <=? OAuth.w_now W (OAuth.tick st)) = false →
  match OAuth.nbf c with Some nbf => add64 (OAuth.w_now W (OAuth.tick st)) 60 <? nbf | None => false end = false →
  (OAuth.tick st < OAuth.tick st')%nat → token_live st st' c.
Proof.
  intros He Hexp Hnbf Ht. exists (OAuth.tick st), exp. apply N.leb_gt in Hexp. split_and!; [done|done| |lia|done].
  intros nbf Hn. rewrite Hn in Hnbf. apply N.ltb_ge in Hnbf. pose proof (add64_le (OAuth.w_now W (OAuth.tick st)) 60). lia.
Qed.

Lemma bearer_nonempty o token : Risk.bearer_token o = Some token → is_empty_str token = false.
Proof.
  unfold Risk.bearer_token. intros (v & _ & (s & _ & ([scheme t] & _ & Ht)%bind_Some)%bind_Some)%bind_Some.
  destruct (negb (eq_ignore_ascii_case scheme "Bearer")); [done|]. cbv zeta in Ht.
  destruct (negb (is_empty_str (Utf8.trim_str t)) && _) eqn:En; [|done]. injection Ht as <-.
  apply andb_true_iff in En as [En _]. by apply negb_true_iff in En.
Qed.

Lemma registration_realm_inv h st realm st1 :
  registration_realm h st = (Ok realm, st1) → may_register st st1 h (OAuth.pr_id realm) ∧ served (OAuth.pr_id realm).
Proof.
  unfold registration_realm.
  assert (∀ st0, open_realm st0 = (Ok realm, st1) → ∃ r, open_realms = [r] ∧ OAuth.oc_id r = OAuth.pr_id realm ∧ served (OAuth.pr_id realm)) as Hopen.
  { intros st0. unfold open_realm. destruct open_realms as [|r [|]] eqn:Eo; [done| |done]. intros Hr. unstep.
    unfold OAuth.find_plan in Hr. apply find_some in Hr as [_ Hid%String.eqb_eq]. exists r. split_and!; [done..|].
    rewrite Hid. unfold served. apply list_elem_of_In, in_map. unfold open_realms in Eo.
    assert (r ∈ [r]) as Hin by (by left). rewrite <- Eo in Hin. by apply list_elem_of_In, filter_In in Hin as [Hin _]. }
  destruct (Risk.bearer_token (authorization h)) as [token|] eqn:Eb.
  - rewrite (bearer_nonempty _ _ Eb). simpl.
    intros Ht. unfold token_realm in Ht. unstep. apply map_err_Ok in E. apply negb_false_iff in E5, E7.
    split; [|by apply feature_served in E7]. left. exists token, a, a4, a6. split_and!; try done.
    eapply token_live_intro; [done..|]. simpl. lia.
  - intros Ho. destruct (Hopen _ Ho) as (r & Hr & Hid & Hs). split; [|done]. right. eauto.
Qed.

Lemma get_client_spec realm cid (s : Store) c :
  get_client_by_client_id realm cid s = Some c → (∃ k, clients s !! k = Some c) ∧ c_realm_id c = realm ∧ client_id c = cid.
Proof.
  unfold get_client_by_client_id. intros Hc%elem_of_head%list_elem_of_In%filter_In. destruct Hc as [Hin [Hr Hi]%andb_true_iff].
  apply String.eqb_eq in Hr, Hi. split_and!; [|done..]. unfold values in Hin. apply in_map_iff in Hin as ([k x] & <- & Hin).
  exists k. by apply elem_of_map_to_list, list_elem_of_In.
Qed.

Lemma validate_token_inv token cid st u st' :
  validate_dcr_registration_access_token token cid st = (Ok u, st') →
  ∃ c aud, OAuth.decode_signature_only signer token = Ok c ∧ OAuth.sub c = Some cid ∧ OAuth.aud c = Some aud ∧
    OAuth.audience_contains aud (dcr_registration_client_uri cid) = true ∧ token_live st st' c ∧ ticks st st'.
Proof.
  intros Hv. pose proof (reading_validate token cid st) as Hread. rewrite Hv in Hread. simpl in Hread.
  unfold validate_dcr_registration_access_token in Hv. unstep. apply map_err_Ok in E. rename a into c.
  apply negb_false_iff in E0, E1. apply bool_decide_eq_true in E0. destruct (OAuth.aud c) as [aud|] eqn:Ea; [|done].
  destruct (OAuth.exp c) as [exp|] eqn:Ee; [|done]. exists c, aud. do 4 (split; [done|]). split; [|exact Hread].
  eapply token_live_intro; [done..|]. simpl. lia.
Qed.

Lemma dcr_authenticate_inv h realm cid st client st' :
  authenticate_dcr_management_client h realm cid st = (Ok client, st') →
  get_client_by_client_id realm cid (OAuth.store st) = Some client ∧ may_manage st st' h client ∧ ticks st st'.
Proof.
  intros Ha. pose proof (reading_authenticate h realm cid st) as Hread. rewrite Ha in Hread. simpl in Hread.
  unfold authenticate_dcr_management_client, known_client in Ha.
  destruct (Risk.bearer_token (authorization h)) as [token|] eqn:Eb; unstep.
  - apply validate_token_inv in E as (c & aud & Hd & Hsub & Haud & Hin & (n & exp & He & Hlt & Hn & Hlo & Hhi) & (Hs & _ & _)).
    rewrite Hs in *. symmetry in E0. rewrite Ha in E0. destruct (get_client_spec _ _ _ _ E0) as (_ & _ & Hid).
    split; [done|]. split; [|exact Hread]. left. exists token, c, aud. rewrite Hid. do 5 (split; [done|]). by exists n, exp.
  - symmetry in E4. rewrite E1 in E4. destruct (get_client_spec _ _ _ _ E4) as (_ & _ & Hid). destruct a3.
    apply OAuth.verify_secret_ok in E3 as (secret & [= <-] & Hne & Hhash). apply negb_false_iff, String.eqb_eq in E0.
    split; [done|]. split; [|exact Hread]. right. split; [done|]. exists a. rewrite Hid. split_and!; try done.
    simpl in E2. by destruct (cf_client_type _).
Qed.

Lemma stored_inv realm cid st c st' :
  stored_client realm cid st = (Ok c, st') → get_client_by_client_id realm cid (OAuth.store st) = Some c ∧ st' = st.
Proof. unfold stored_client. intros Hs. unstep. by subst. Qed.

Lemma managed_inv cid st realm st' :
  managed_realm cid st = (Ok realm, st') →
  st' = st ∧ ∃ c, find_clients_by_client_id (map OAuth.oc_id (OAuth.config_realms state)) cid (OAuth.store st) = [c] ∧ c_realm_id c = realm.
Proof.
  unfold managed_realm, OAuth.find_client_across_realms, OAuth.find_client_across_realms_with_messages, OAuth.read, bind, get_state, ret, throw.
  destruct (find_clients_by_client_id _ _ _) as [|c [|]]; [done| |done]. intros [= <- <-]. eauto.
Qed.

(** ** The change a request makes *)

(** The record a request registers or stores, with the hash of its secret. *)
Definition new_record (req : DynamicClientRegistrationRequest) (c : ClientJ) : Prop :=
  ∃ md hash, validate_dynamic_client_metadata req = Ok md ∧ c_body c = client_value (fields_of req md hash) ∧
    (uses_secret md = true → is_Some hash) ∧ (uses_secret md = false → hash = None).

Inductive change (st st' : St) : DcrOp → Prop :=
| no_change op : ticks st st' → change st st' op
| registered h req c st1 :
    may_register st st1 h (c_realm_id c) → served (c_realm_id c) → new_record req c →
    (∀ cid, rq_client_id req = Some cid → client_id c = cid) →
    (∀ k c', clients_of st !! k = Some c' → client_id c' = client_id c → ¬ served (c_realm_id c')) →
    clients_of st !! c_id c = None →
    OAuth.store st' = set_clients (OAuth.store st) (<[c_id c := c]> (clients_of st)) → change st st' (Register h req)
| updated h cid req old c st1 :
    get_client_by_client_id (c_realm_id old) cid (OAuth.store st) = Some old → may_manage st st1 h old → new_record req c →
    c_id c = c_id old → c_realm_id c = c_realm_id old → client_id c = client_id old →
    OAuth.store st' = set_clients (OAuth.store st) (<[c_id c := c]> (clients_of st)) → change st st' (Update h cid req)
| deleted h cid old st1 :
    get_client_by_client_id (c_realm_id old) cid (OAuth.store st) = Some old → may_manage st st1 h old →
    OAuth.store st' = set_clients (OAuth.store st) (delete (c_id old) (clients_of st)) → change st st' (Delete h cid).

Lemma change_ticks st st1 st2 op : ticks st1 st2 → change st st1 op → change st st2 op.
Proof.
  intros Ht Hc. pose proof Ht as (Hs & _). destruct Hc as [op Ht1|h req c sx|h cid req old c sx|h cid old sx].
  - apply no_change. by etrans.
  - eapply registered; eauto. congruence.
  - eapply updated; eauto. congruence.
  - eapply deleted; eauto. congruence.
Qed.

Lemma dcr_create_client_effect saved (c : ClientJ) (s : Store) :
  (create_client saved c s).2 = s
  ∨ ((create_client saved c s).2 = set_clients s (<[c_id c := c]> (clients s)) ∧ (create_client saved c s).1 = saved
     ∧ clients s !! c_id c = None ∧ ∀ k x, clients s !! k = Some x → c_realm_id x = c_realm_id c → client_id x ≠ client_id c).
Proof.
  unfold create_client. destruct (Tokens.insert_new (clients s) c) as [m|e] eqn:Ei; [|by left]. right.
  destruct (Tokens.insert_new_Ok _ _ _ Ei) as [Hn ->]. split_and!; [done..|]. intros k x Hx Hr Hi.
  eapply insert_new_identity in Ei; [|exact Hx|done]. apply Ei. cbn. congruence.
Qed.

Lemma update_client_effect saved (c : ClientJ) (s : Store) :
  (update_client saved c s).2 = s
  ∨ ((update_client saved c s).2 = set_clients s (<[c_id c := c]> (clients s)) ∧ (update_client saved c s).1 = saved).
Proof. unfold update_client. destruct (ensure_same_binding _ _ _); [by right|by left]. Qed.

Lemma unambiguous_inv cid target st u st' :
  served target → ensure_client_id_unambiguous (map OAuth.oc_id (OAuth.config_realms state)) cid target st = (Ok u, st') →
  ∀ k c, clients_of st !! k = Some c → client_id c = cid → served (c_realm_id c) → c_realm_id c = target.
Proof.
  intros Hserved. unfold ensure_client_id_unambiguous. apply str_in_spec in Hserved as Hin. rewrite Hin. simpl.
  intros He k c Hk Hid Hs. unstep. destruct (List.find _ a) eqn:Ef; [done|]. apply (find_none _ _) with (x := c) in Ef.
  - by apply negb_false_iff, String.eqb_eq in Ef.
  - subst a. unfold find_clients_by_client_id. apply filter_In. split.
    + unfold values. apply in_map_iff. exists (k, c). split; [done|]. by apply list_elem_of_In, elem_of_map_to_list.
    + rewrite Hid, String.eqb_refl. simpl. by apply str_in_spec.
Qed.

Lemma ticks_store st st' : ticks st st' → OAuth.store st' = OAuth.store st.
Proof. by intros (Hs & _). Qed.

(** A write that leaves the store alone. *)
Lemma write_same st st1 (f : QidResult unit → Store → QidResult unit * Store) op :
  ticks st st1 → (f (OAuth.w_saved W (OAuth.tick st1)) (OAuth.store st1)).2 = OAuth.store st1 → change st (write f st1).2 op.
Proof.
  intros Ht Hf. apply no_change. etrans; [done|]. unfold write, OAuth.write.
  destruct (f _ _) as [r s]. simpl in *. subst s. split_and!; [done..|simpl; lia].
Qed.

Lemma write_store st (f : QidResult unit → Store → QidResult unit * Store) :
  OAuth.store (write f st).2 = (f (OAuth.w_saved W (OAuth.tick st)) (OAuth.store st)).2.
Proof. unfold write, OAuth.write. by destruct (f _ _). Qed.

(** A part that only reads comes first: it fails, and nothing changes, or the rest goes on from where it ended. *)
Lemma skip {A B} (m : M A) (k : A → M B) st s1 op :
  reading m → ticks st s1 → (∀ a s2, m s1 = (Ok a, s2) → ticks st s2 → change st (k a s2).2 op) → change st (bind m k s1).2 op.
Proof.
  intros Hm Ht Hk. specialize (Hm s1). unfold bind. destruct (m s1) as [[a|e] s2] eqn:Em; simpl in *.
  - apply Hk; [done|by etrans].
  - apply no_change. by etrans.
Qed.

(** Parts that only read may come last as well. *)
Lemma last_reading {A B} (m : M A) (k : A → M B) st s1 op :
  (∀ a, reading (k a)) → change st (m s1).2 op → change st (bind m k s1).2 op.
Proof.
  intros Hk Hm. unfold bind. destruct (m s1) as [[a|e] s2]; simpl in *; [|done]. eapply change_ticks; [|done]. apply Hk.
Qed.

Ltac reads := solve [readonly].
Ltac skip_to a s E T := apply skip; [reads|assumption|intros a s E T].

Lemma new_secret_inv b st o st' : new_secret b st = (Ok o, st') → (b = true → is_Some o) ∧ (b = false → o = None).
Proof. unfold new_secret, bind, new_ulid, ret. destruct b; intros [= <- _]; (split; [|done]); [by eexists|done]. Qed.

Lemma may_manage_earlier st s1 s2 h c : ticks st s1 → may_manage s1 s2 h c → may_manage st s2 h c.
Proof.
  intros (_ & _ & Ht) [(token & cl & aud & Hb & Hd & Hs & Ha & Hi & (n & exp & He & Hlt & Hn & Hlo & Hhi))|Hb]; [left|by right].
  exists token, cl, aud. do 5 (split; [done|]). exists n, exp. split_and!; try done. lia.
Qed.

Lemma cid_inv req st cid st' : chosen_client_id req st = (Ok cid, st') → ∀ x, rq_client_id req = Some x → cid = x.
Proof. unfold chosen_client_id. intros He x Hx. rewrite Hx in He. by injection He. Qed.

Lemma register_change h req st : change st (dynamic_client_registration h req st).2 (Register h req).
Proof.
  assert (ticks st st) as T0 by reflexivity. unfold dynamic_client_registration.
  skip_to realm s1 E1 T1. apply registration_realm_inv in E1 as [Hmay Hserved].
  skip_to md s2 E2 T2. apply of_result_inv in E2 as [Hmd _].
  destruct (requires_par req (OAuth.pr_id realm)); [by apply no_change|].
  skip_to cid s3 E3 T3. pose proof (cid_inv _ _ _ _ E3) as Hcid.
  skip_to sec s4 E4 T4. apply new_secret_inv in E4 as [Hsome Hnone].
  skip_to u s5 E5 T5. cbv zeta. set (c := {| c_id := _ |}).
  skip_to v s6 E6 T6. apply last_reading; [intros r0; reads|].
  destruct (dcr_create_client_effect (OAuth.w_saved W (OAuth.tick s6)) c (OAuth.store s6)) as [Hs|(Hs & _ & Hnew & Hid)]; [by apply write_same|].
  rewrite (ticks_store _ _ T6) in *. eapply (registered _ _ h req c s1); simpl; try done.
  - exists md, (client_secret_hash <$> sec). split_and!; try done.
    + intros Hu. destruct (Hsome Hu) as [x ->]. done.
    + intros Hu. by rewrite (Hnone Hu).
  - intros k c' Hk Hc' Hsv. apply (Hid k c' Hk); [|done].
    eapply unambiguous_inv in E6; [exact E6|done| |done|done]. by rewrite (ticks_store _ _ T5).
  - rewrite write_store. rewrite (ticks_store _ _ T6). exact Hs.
Qed.

Lemma update_change h cid req st : change st (dynamic_client_registration_update h cid req st).2 (Update h cid req).
Proof.
  assert (ticks st st) as T0 by reflexivity. unfold dynamic_client_registration_update.
  skip_to g s1 E1 T1. skip_to md s2 E2 T2. apply of_result_inv in E2 as [Hmd _]. skip_to ctx s3 E3 T3. skip_to en s4 E4 T4.
  skip_to auth s5 E5 T5. apply dcr_authenticate_inv in E5 as (Hget & Hmay & _). rewrite (ticks_store _ _ T4) in Hget.
  destruct (requires_par req ctx.1); [by apply no_change|].
  skip_to old s6 E6 T6. apply stored_inv in E6 as [Hold _]. rewrite (ticks_store _ _ T5) in Hold.
  rewrite Hget in Hold. injection Hold as ->. destruct (get_client_spec _ _ _ _ Hget) as (_ & Hrealm & Hcid).
  skip_to sec s7 E7 T7. apply new_secret_inv in E7 as [Hsome Hnone]. cbv zeta. set (c := {| c_id := _ |}).
  apply last_reading; [intros r0; reads|].
  destruct (update_client_effect (OAuth.w_saved W (OAuth.tick s7)) c (OAuth.store s7)) as [Hs|(Hs & _)]; [by apply write_same|].
  rewrite (ticks_store _ _ T7) in *. eapply (updated _ _ h cid req old c s5); simpl; try done.
  - by rewrite Hrealm.
  - exact (may_manage_earlier _ _ _ _ _ T4 Hmay).
  - eexists md, _. split_and!; [done|reflexivity| |].
    + intros Hu. rewrite Hu in *. simpl in *. destruct (cf_client_secret_hash (client_fields (c_body old))).
      * destruct sec; simpl; eauto.
      * destruct (Hsome eq_refl) as [x ->]. simpl. eauto.
    + intros Hu. by rewrite Hu.
  - rewrite write_store. rewrite (ticks_store _ _ T7). exact Hs.
Qed.

(** Records are stored under their own identifier. *)
Definition clients_keyed (st : St) : Prop := ∀ k c, clients_of st !! k = Some c → c_id c = k.

Lemma delete_change h cid st : clients_keyed st → change st (dynamic_client_registration_delete h cid st).2 (Delete h cid).
Proof.
  intros Hkeyed. assert (ticks st st) as T0 by reflexivity. unfold dynamic_client_registration_delete.
  skip_to realm s1 E1 T1. skip_to en s2 E2 T2. skip_to auth s3 E3 T3.
  apply dcr_authenticate_inv in E3 as (Hget & Hmay & _). rewrite (ticks_store _ _ T2) in Hget.
  skip_to old s4 E4 T4. apply stored_inv in E4 as [Hold _]. rewrite (ticks_store _ _ T3) in Hold.
  rewrite Hget in Hold. injection Hold as ->. destruct (get_client_spec _ _ _ _ Hget) as ((k & Hk) & Hrealm & Hcid).
  apply last_reading; [intros r0; reads|]. eapply (deleted _ _ h cid old s3); [by rewrite Hrealm|exact (may_manage_earlier _ _ _ _ _ T2 Hmay)|].
  rewrite write_store. rewrite (ticks_store _ _ T4). unfold delete_client. simpl.
  pose proof (Hkeyed k old Hk) as ->. rewrite Hk. by rewrite Hrealm, String.eqb_refl.
Qed.

Lemma serve_change op st : clients_keyed st → change st (serve op st).2 op.
Proof.
  intros Hk. destruct op as [h req|h cid|h cid req|h cid]; simpl;
    [apply register_change| |apply update_change|by apply delete_change].
  apply no_change. assert (reading (dynamic_client_registration_get h cid)) as Hr by (unfold dynamic_client_registration_get; readonly). apply Hr.
Qed.

(** * Registered clients *)

(** The number a big-endian byte string denotes. *)
Definition be_value (bytes : list N) : N := fold_left (fun acc b => acc * 256 + b) bytes 0.

Definition strong_key (key : J) : Prop :=
  ∃ o, key = VObject o ∧
    ((obj_str o "kty" = Some "RSA" ∧ ∃ n bytes, obj_str o "n" = Some n ∧ base64url_decode n = Ok bytes ∧ 2 ^ 2047 ≤ be_value bytes)
     ∨ (obj_str o "kty" = Some "EC" ∧ ∃ crv, obj_str o "crv" = Some crv ∧ crv ∈ ["P-256"; "P-384"; "P-521"])
     ∨ obj_str o "kty" = Some "OKP").

Definition safe_redirect (uri : string) : Prop :=
  ∃ scheme host, url_parse uri = Some (scheme, host) ∧ (scheme = "https" ∨ (scheme = "http" ∧ is_localhost host = true)).

Record sound_client (f : ClientFields) : Prop := {
  sound_redirects : ∀ u, u ∈ redirect_uris (cf_metadata f) → safe_redirect u;
  sound_method : cf_auth_method f ∈ AUTH_METHODS;
  sound_type : cf_client_type f = OAuth.Public ↔ cf_auth_method f = "none";
  sound_grants : cf_grant_types f ≠ [] ∧ (∀ g, g ∈ cf_grant_types f → g ∉ ["implicit"; "password"]);
  sound_public : cf_client_type f = OAuth.Public → "client_credentials" ∉ cf_grant_types f;
  sound_mtls : cf_auth_method f ∈ ["tls_client_auth"; "self_signed_tls_client_auth"] → mtls_certificate_thumbprints (cf_metadata f) ≠ [];
  sound_keys : cf_auth_method f = "private_key_jwt" →
    ∃ keys, value_get "keys" (jwks (cf_metadata f)) = Some (VArray keys) ∧ keys ≠ [] ∧ Forall strong_key keys;
  sound_subject : ∀ t, subject_type (cf_metadata f) = Some t → t ∈ ["public"; "pairwise"];
  sound_secret : is_Some (cf_client_secret_hash f) ↔ cf_auth_method f ∈ ["client_secret_basic"; "client_secret_post"]
}.

(** ** Metadata *)

Lemma reject_inv b m u : reject b m = Ok u → b = false.
Proof. unfold reject. by destruct b. Qed.

Lemma res_mapM_each {A B E} (f : A → result B E) l ys : res_mapM f l = Ok ys → ∀ x, x ∈ l → is_ok (f x) = true.
Proof.
  revert ys. induction l as [|a l IH]; intros ys; simpl; [intros _ x Hx; by apply not_elem_of_nil in Hx|].
  intros (y & Hy & (ys' & Hys & _)%res_bind_Ok)%res_bind_Ok x [->|Hx]%elem_of_cons; [by rewrite Hy|by eapply IH].
Qed.

Lemma fold_value_ge bytes acc : acc * 256 ^ N.of_nat (length bytes) ≤ fold_left (fun acc b => acc * 256 + b) bytes acc.
Proof.
  revert acc. induction bytes as [|b bytes IH]; intros acc; simpl length.
  - simpl. lia.
  - cbn [fold_left]. etrans; [|apply IH]. rewrite Nat2N.inj_succ, N.pow_succ_r'. nia.
Qed.

Lemma drop_zeros_value bytes : be_value (drop_zeros bytes) = be_value bytes.
Proof. unfold be_value. induction bytes as [|b bytes IH]; [done|]. simpl. destruct (N.eqb_spec b 0) as [->|]; [by rewrite IH|done]. Qed.

(** The length of a modulus in bits bounds the number from below. *)
Lemma modulus_bits encoded n :
  rsa_modulus_bit_len encoded = Ok n → 0 < n → ∃ bytes, base64url_decode encoded = Ok bytes ∧ 2 ^ (n - 1) ≤ be_value bytes.
Proof.
  unfold rsa_modulus_bit_len. intros (bytes & Hb%map_err_Ok & Hk)%res_bind_Ok Hn. exists bytes. split; [done|].
  rewrite <- drop_zeros_value. destruct (drop_zeros bytes) as [|first rest] eqn:Ed; [injection Hk as <-; lia|]. injection Hk as <-.
  assert (first ≠ 0) as Hf.
  { clear -Ed. induction bytes as [|b bytes IH]; [done|]. simpl in Ed. destruct (N.eqb_spec b 0); [by apply IH|]. by injection Ed as -> ->. }
  unfold be_value. cbn [fold_left]. rewrite N.add_0_l. etrans; [|apply fold_value_ge].
  change 256 with (2 ^ 8). rewrite <- N.pow_mul_r. rewrite (N.size_log2 first Hf).
  replace (N.of_nat (length rest) * 8 + N.succ (N.log2 first) - 1) with (N.log2 first + 8 * N.of_nat (length rest)) by lia.
  rewrite N.pow_add_r. apply N.mul_le_mono_r. apply N.log2_spec. lia.
Qed.

Lemma validate_jwk_strong idx key : validate_jwk idx key = Ok tt → strong_key key.
Proof.
  unfold validate_jwk. destruct key as [| | | | |o]; try done. destruct (obj_str o "kty") as [kty|] eqn:Ek; [|done].
  intros Hv. exists o. split; [done|].
  destruct (String.eqb_spec kty "RSA") as [->|]; [|destruct (String.eqb_spec kty "EC") as [->|]; [|destruct (String.eqb_spec kty "OKP") as [->|]; [|done]]].
  - left. split; [done|]. apply res_bind_Ok in Hv as (bits & Hb & Hsize). destruct (N.ltb_spec bits 2048) as [|Hge]; [done|].
    destruct (obj_str o "n") as [n|] eqn:En; [|injection Hb as <-; lia].
    destruct (modulus_bits n bits Hb) as (bytes & Hd & Hle); [lia|]. exists n, bytes. split_and!; [done..|].
    etrans; [|exact Hle]. apply N.pow_le_mono_r; lia.
  - right. left. split; [done|]. destruct (obj_str o "crv") as [crv|]; [|done]. exists crv. split; [done|].
    destruct (str_in crv ["P-256"; "P-384"; "P-521"]) eqn:Ec; [|done]. by apply str_in_spec.
  - by right; right.
Qed.

Lemma validate_keys_strong idx keys : validate_keys idx keys = Ok tt → Forall strong_key keys.
Proof.
  revert idx. induction keys as [|k keys IH]; intros idx; simpl; [by constructor|].
  intros ([] & Hk & Hr)%res_bind_Ok. constructor; [by eapply validate_jwk_strong|by eapply IH].
Qed.

Lemma validate_redirect_safe uri : is_ok (validate_redirect_uri uri) = true → safe_redirect uri.
Proof.
  unfold validate_redirect_uri. destruct (url_parse uri) as [[scheme host]|] eqn:Eu; [|done]. simpl.
  destruct (String.eqb_spec scheme "https") as [->|]; simpl; [intros _; exists "https", host; auto|].
  destruct (String.eqb_spec scheme "http") as [->|]; simpl; [|done].
  destruct (is_localhost host) eqn:Eh; [|done]. intros _. exists "http", host. auto.
Qed.

Lemma not_in_str x l : str_in x l = false → x ∉ l.
Proof. intros Hs Hx. apply str_in_spec in Hx. congruence. Qed.

Lemma existsb_none {A} (f : A → bool) l x : existsb f l = false → x ∈ l → f x = false.
Proof. intros He Hx. destruct (f x) eqn:Ef; [|done]. assert (existsb f l = true); [|congruence]. apply existsb_exists. exists x. by rewrite <- list_elem_of_In. Qed.

(** What passes validation is a sound client. *)
Lemma validated_sound req md hash :
  validate_dynamic_client_metadata req = Ok md → (uses_secret md = true → is_Some hash) → (uses_secret md = false → hash = None) →
  sound_client (fields_of req md hash).
Proof.
  unfold validate_dynamic_client_metadata. intros Hv Hsome Hnone.
  apply res_bind_Ok in Hv as (us & Huri & Hv). apply res_bind_Ok in Hv as (? & Hm%reject_inv & Hv).
  apply res_bind_Ok in Hv as (? & Hg%reject_inv & Hv). apply res_bind_Ok in Hv as (? & Hcc%reject_inv & Hv).
  apply res_bind_Ok in Hv as (? & Htls%reject_inv & Hv). apply res_bind_Ok in Hv as ([] & Hjwk & Hv).
  apply res_bind_Ok in Hv as (? & Hsub%reject_inv & Hv). injection Hv as <-.
  apply negb_false_iff, str_in_spec in Hm. set (method := default "client_secret_basic" (rq_token_endpoint_auth_method req)) in *.
  unfold uses_secret in Hsome, Hnone. split; cbn [fields_of cf_metadata cf_auth_method cf_client_type cf_grant_types cf_client_secret_hash client_type auth_method grant_types] in *.
  - intros u Hu. apply validate_redirect_safe. by eapply res_mapM_each.
  - done.
  - destruct (String.eqb_spec method "none"); split; done.
  - split; [unfold requested_grants; by destruct (rq_grant_types req)|]. intros g Hin. apply (existsb_none _ _ g) in Hg; [|done]. exact (not_in_str g ["implicit"; "password"] Hg).
  - destruct (String.eqb_spec method "none"); [|done]. intros _. by apply not_in_str.
  - intros Ht Hnil. apply str_in_spec in Ht. rewrite Ht, Hnil in Htls. done.
  - intros Hp. rewrite Hp in Hjwk. simpl in Hjwk. unfold validate_client_jwks in Hjwk.
    destruct (value_get "keys" (jwks (rq_metadata req))) as [[| | | |[|k keys]|]|] eqn:Ev; try done.
    exists (k :: keys). split_and!; [done|done|]. by eapply validate_keys_strong.
  - intros t Ht. rewrite Ht in Hsub. apply negb_false_iff in Hsub. by apply str_in_spec.
  - destruct (String.eqb_spec method "none") as [Hn|]; cbn [is_confidential andb] in *.
    + rewrite (Hnone eq_refl). rewrite Hn. split; [by intros [? ?]|]. intros Hx. apply str_in_spec in Hx. done.
    + destruct (str_in method ["client_secret_basic"; "client_secret_post"]) eqn:Es.
      * split; [|auto]. intros _. by apply str_in_spec.
      * rewrite (Hnone eq_refl). split; [by intros [? ?]|]. intros Hx. apply str_in_spec in Hx. congruence.
Qed.

(** ** The invariant *)

(** The documented behaviour of the codec of client records. *)
Context (client_round_trip : ∀ f, client_fields (client_value f) = f).

Record well_formed (st : St) : Prop := {
  wf_keyed : clients_keyed st;
  wf_sound : ∀ k c, clients_of st !! k = Some c → sound_client (client_fields (c_body c));
  wf_unambiguous : ∀ k k' c c', clients_of st !! k = Some c → clients_of st !! k' = Some c' → client_id c = client_id c' →
    served (c_realm_id c) → served (c_realm_id c') → k = k'
}.

Definition run (ops : list DcrOp) (st : St) : St := fold_left (fun s op => (serve op s).2) ops st.

Lemma new_record_sound req c : new_record req c → sound_client (client_fields (c_body c)).
Proof. intros (md & hash & Hv & -> & Hsome & Hnone). rewrite client_round_trip. by eapply validated_sound. Qed.

Lemma clients_set (s : Store) m : clients (set_clients s m) = m.
Proof. done. Qed.

(** Putting a sound client in place keeps the invariant, when its identifier is no other served client's. *)
Lemma insert_well_formed st st' c :
  well_formed st → sound_client (client_fields (c_body c)) → clients_of st' = <[c_id c := c]> (clients_of st) →
  (∀ k c', clients_of st !! k = Some c' → k ≠ c_id c → client_id c' = client_id c → served (c_realm_id c) → ¬ served (c_realm_id c')) →
  well_formed st'.
Proof.
  intros [Hk Hs Hu] Hc Hst Hfresh. split; [unfold clients_keyed| |]; rewrite Hst.
  - intros k x [[<- <-]|[_ Hx]]%lookup_insert_Some; [done|by apply Hk].
  - intros k x [[<- <-]|[_ Hx]]%lookup_insert_Some; [done|by eapply Hs].
  - intros k k' x x' [[<- <-]|[Hne Hx]]%lookup_insert_Some [[<- <-]|[Hne' Hx']]%lookup_insert_Some Hid Hsv Hsv'.
    + done.
    + exfalso. eapply Hfresh; [exact Hx'|done|done|exact Hsv|exact Hsv'].
    + exfalso. eapply Hfresh; [exact Hx|done|done|exact Hsv'|exact Hsv].
    + by eapply Hu.
Qed.

Lemma change_well_formed st st' op : well_formed st → change st st' op → well_formed st'.
Proof.
  intros Hwf Hc. pose proof Hwf as [Hk Hs Hu].
  destruct Hc as [op (Hst & _)|h req c sx _ _ Hn%new_record_sound _ Hfresh _ Hst|h cid req old c sx Hget _ Hn%new_record_sound Hi Hr Hid Hst|h cid old sx Hget _ Hst].
  - split; [unfold clients_keyed| |]; rewrite Hst; eauto.
  - eapply insert_well_formed; [done|done|by rewrite Hst|]. intros k c' Hc' _ Hid _. by eapply Hfresh.
  - eapply insert_well_formed; [done|done|by rewrite Hst|]. intros k c' Hc' Hne Hid' Hsv Hsv'. apply Hne.
    destruct (get_client_spec _ _ _ _ Hget) as ((k0 & Hk0) & _ & _). rewrite Hi, (Hk _ _ Hk0).
    eapply Hu; [exact Hc'|exact Hk0|congruence|done|by rewrite <- Hr].
  - split; [unfold clients_keyed| |]; rewrite Hst, clients_set.
    + intros k x [_ Hx]%lookup_delete_Some. by apply Hk.
    + intros k x [_ Hx]%lookup_delete_Some. by eapply Hs.
    + intros k k' x x' [_ Hx]%lookup_delete_Some [_ Hx']%lookup_delete_Some. by apply Hu.
Qed.

(** * Properties *)

(** C22: Registrations are authorized.  Whatever a registration or management request answers, also with an error, it
    changes nothing but the client table, and there at most one record: a new client of a served realm, under an
    identifier no served client has, of a bearer of a live initial access token for that realm or of anyone when it is
    the one realm open to registration; the record of an existing client, whose identity stays, or its removal, by
    a bearer of a live registration access token of that very client or with its secret. *)
Theorem dcr_changes_authorized op st : clients_keyed st → change st (serve op st).2 op.
Proof. apply serve_change. Qed.

(** C23: Registered clients are sound.  Every sequence of registration and management requests keeps these: each client
    has an authentication method it can use (a secret exactly with the secret methods, certificates, or keys: RSA
    keys of at least 2048 bits, EC keys on an approved curve, or OKP keys of any curve), public clients have no client credentials, no client has the implicit or password
    grant or a redirection URI that is neither https nor a loopback one, and a client identifier names one client of
    the served realms. *)
Theorem dcr_clients_sound ops st : well_formed st → well_formed (run ops st).
Proof.
  revert st. induction ops as [|op ops IH]; intros st Hwf; [done|]. apply IH.
  eapply change_well_formed; [done|]. apply serve_change. apply Hwf.
Qed.

(** ** Reading a registration back *)

Definition registration_claims (issuer cid : string) (n m : nat) : OAuth.JwtClaims (Num := Num) :=
  {| OAuth.iss := Some issuer; OAuth.sub := Some cid; OAuth.aud := Some (OAuth.Single (dcr_registration_client_uri cid));
     OAuth.exp := Some (add64 (OAuth.w_now W n) 3600); OAuth.nbf := Some (OAuth.w_now W n); OAuth.iat := Some (OAuth.w_now W n);
     OAuth.jti := Some ("rat_" +:+ OAuth.w_ulid W m); OAuth.extra := ∅ |}.

Lemma response_inv issuer cid sec grants method m st r st' :
  build_dynamic_client_registration_response issuer cid sec grants method m st = (Ok r, st') →
  rs_client_id r = cid ∧ rs_client_secret r = sec ∧ rs_grant_types r = grants ∧ rs_token_endpoint_auth_method r = method ∧ rs_metadata r = m ∧
  ticks st st' ∧ ∃ token n, registration_access_token r = Some token ∧
    OAuth.sign signer (registration_claims issuer cid n (S n)) = Ok token ∧ (OAuth.tick st ≤ n)%nat ∧ (n < OAuth.tick st')%nat.
Proof.
  intros Hr. pose proof (reading_response issuer cid sec grants method m st) as Hread. rewrite Hr in Hread. simpl in Hread.
  unfold build_dynamic_client_registration_response, sign_dcr_registration_access_token in Hr. unstep.
  unfold new_ulid in E2. injection E2 as <- <-. apply map_err_Ok in E. simpl.
  do 5 (split; [done|]). split; [exact Hread|]. exists a, (OAuth.tick st). split_and!; [done|exact E|lia|lia].
Qed.

Lemma response_Ok issuer cid sec grants method m st :
  (∀ c, is_ok (OAuth.sign signer c) = true) →
  ∃ r st', build_dynamic_client_registration_response issuer cid sec grants method m st = (Ok r, st').
Proof.
  intros Hsign. unfold build_dynamic_client_registration_response, sign_dcr_registration_access_token, bind, now_seconds, OAuth.now_seconds, new_ulid, of_result, ret.
  match goal with |- context [OAuth.sign signer ?c] => specialize (Hsign c); destruct (OAuth.sign signer c) as [t|]; [|done] end. simpl. eauto.
Qed.

(** The realm a registration goes to is served, enabled and planned. *)
Definition planned (realm : string) : Prop :=
  is_Some (OAuth.find_plan state realm) ∧ ∃ cfg, cfg ∈ OAuth.config_realms state ∧ OAuth.oc_id cfg = realm ∧ dcr_enabled (dcr_of cfg) = true.

Lemma find_is_Some {A} (f : A → bool) l x : In x l → f x = true → is_Some (List.find f l).
Proof. intros Hx Hf. destruct (List.find f l) eqn:E; [eauto|]. apply (find_none _ _ E) in Hx. congruence. Qed.

Lemma registration_realm_planned h st realm st1 : registration_realm h st = (Ok realm, st1) → planned (OAuth.pr_id realm).
Proof.
  unfold registration_realm.
  assert (open_realm st = (Ok realm, st1) → planned (OAuth.pr_id realm)) as Hopen.
  { unfold open_realm. destruct open_realms as [|r [|]] eqn:Eo; [done| |done]. intros Hr. unstep.
    assert (r ∈ [r]) as Hin by (by left). rewrite <- Eo in Hin. apply list_elem_of_In, filter_In in Hin as [Hin [He _]%andb_true_iff].
    pose proof Hr as Hr'. unfold OAuth.find_plan in Hr'. apply find_some in Hr' as [_ Hid%String.eqb_eq]. rewrite Hid.
    split; [by rewrite Hr|]. exists r. by rewrite list_elem_of_In. }
  destruct (Risk.bearer_token (authorization h)) as [token|]; [|done]. destruct (negb (is_empty_str token)); [|done].
  intros Ht. unfold token_realm in Ht. unstep. apply negb_false_iff in E7. split.
  - unfold find_issuer in E6. apply find_some in E6 as [Hin _]. eapply find_is_Some; [exact Hin|apply String.eqb_refl].
  - unfold oauth_feature_enabled, OAuth.find_config in E7. destruct (List.find _ _) as [cfg|] eqn:Ec; [|done].
    apply find_some in Ec as [Hin Hid%String.eqb_eq]. exists cfg. by rewrite list_elem_of_In.
Qed.

(** A new secret is not empty. *)
Lemma new_secret_not_empty b st sec st' : new_secret b st = (Ok (Some sec), st') → is_empty_str sec = false.
Proof. unfold new_secret, bind, new_ulid, ret. destruct b; [|done]. by intros [= <- _]. Qed.

Lemma register_inv h req st r st' :
  dynamic_client_registration h req st = (Ok (Registration r), st') →
  ∃ c md sec issuer token n,
    validate_dynamic_client_metadata req = Ok md ∧ planned (c_realm_id c) ∧ client_id c = rs_client_id r ∧
    c_body c = client_value (fields_of req md (client_secret_hash <$> sec)) ∧ rs_client_secret r = sec ∧ (∀ s, sec = Some s → is_empty_str s = false) ∧ rs_grant_types r = grant_types md ∧
    rs_token_endpoint_auth_method r = auth_method md ∧ rs_metadata r = rq_metadata req ∧
    clients_of st' = <[c_id c := c]> (clients_of st) ∧ registration_access_token r = Some token ∧
    OAuth.sign signer (registration_claims issuer (rs_client_id r) n (S n)) = Ok token ∧ (OAuth.tick st ≤ n)%nat ∧ (n < OAuth.tick st')%nat.
Proof.
  intros Hd. unfold dynamic_client_registration in Hd. apply bind_inv in Hd as (realm & s1 & E1 & Hd).
  pose proof (registration_realm_planned _ _ _ _ E1) as Hplan.
  assert (ticks st s1) as T1 by (pose proof (reading_realm h st) as R; by rewrite E1 in R).
  apply bind_inv in Hd as (md & s2 & [Hmd ->]%of_result_inv & Hd). destruct (requires_par _ _); [done|].
  apply bind_inv in Hd as (cid & s3 & E3 & Hd). assert (ticks s1 s3) as T3 by (pose proof (reading_cid req s1) as R; by rewrite E3 in R).
  apply bind_inv in Hd as (sec & s4 & E4 & Hd). assert (ticks s3 s4) as T4 by (pose proof (reading_secret (uses_secret md) s3) as R; by rewrite E4 in R).
  apply bind_inv in Hd as (u & s5 & E5 & Hd). assert (ticks s4 s5) as T5 by (pose proof (reading_ulid s4) as R; by rewrite E5 in R).
  cbv zeta in Hd. set (c := {| c_id := _ |}) in Hd.
  apply bind_inv in Hd as (v & s6 & E6 & Hd).
  assert (ticks s5 s6) as T6 by (pose proof (reading_unambiguous (map OAuth.oc_id (OAuth.config_realms state)) cid (c_realm_id c) s5) as R; by rewrite E6 in R).
  apply bind_inv in Hd as (x & s7 & E7 & Hd). apply bind_inv in Hd as (r0 & s8 & E8 & Hret). injection Hret as -> ->.
  assert (ticks st s6) as T by (etrans; [exact T1|]; etrans; [exact T3|]; etrans; [exact T4|]; etrans; [exact T5|exact T6]).
  assert (OAuth.store s7 = set_clients (OAuth.store s6) (<[c_id c := c]> (clients_of s6)) ∧ (OAuth.tick s6 ≤ OAuth.tick s7)%nat) as [Hs7 T7].
  { unfold write, OAuth.write in E7. pose proof (dcr_create_client_effect (OAuth.w_saved W (OAuth.tick s6)) c (OAuth.store s6)) as Heff.
    unfold create_client in *. destruct (Tokens.insert_new (clients (OAuth.store s6)) c) as [m|e] eqn:Ei; [|done].
    injection E7 as _ <-. simpl. split; [|lia]. by destruct (Tokens.insert_new_Ok _ _ _ Ei) as [_ ->]. }
  apply response_inv in E8 as (H1 & H2 & H3 & H4 & H5 & T8 & token & n & H6 & H7 & H8 & H9).
  exists c, md, sec, (OAuth.pr_issuer realm), token, n. rewrite H1. destruct T as (Hst & _ & Ht).
  split_and!; try done.
  - intros s ->. by eapply new_secret_not_empty.
  - rewrite (ticks_store _ _ T8), Hs7, clients_set, Hst. done.
  - lia.
Qed.

(** Both lookups find the one served client of an identifier. *)
Lemma served_client_found st k c :
  well_formed st → clients_of st !! k = Some c → served (c_realm_id c) →
  find_clients_by_client_id (map OAuth.oc_id (OAuth.config_realms state)) (client_id c) (OAuth.store st) = [c] ∧
  get_client_by_client_id (c_realm_id c) (client_id c) (OAuth.store st) = Some c.
Proof.
  intros [_ _ Hu] Hk Hs. split.
  - eapply filter_values_one; [exact Hk| |].
    + rewrite String.eqb_refl. by apply str_in_spec.
    + intros k' c' Hc' [Hid%String.eqb_eq Hsv%str_in_spec]%andb_true_iff. by eapply Hu.
  - unfold get_client_by_client_id. erewrite filter_values_one; [done|exact Hk|by rewrite !String.eqb_refl|].
    intros k' c' Hc' [Hr%String.eqb_eq Hid%String.eqb_eq]%andb_true_iff. eapply Hu; [done..|by rewrite Hr|done].
Qed.

Lemma planned_enabled realm :
  NoDup (map OAuth.oc_id (OAuth.config_realms state)) → planned realm → oauth_feature_enabled realm dcr_enabled = true ∧ served realm.
Proof.
  intros Hnd [_ (cfg & Hin & Hid & He)]. assert (oauth_feature_enabled realm dcr_enabled = true) as Hf; [|split; [done|by eapply feature_served]].
  unfold oauth_feature_enabled, OAuth.find_config.
  assert (List.find (fun r => String.eqb (OAuth.oc_id r) realm) (OAuth.config_realms state) = Some cfg) as ->; [|done].
  clear He. induction (OAuth.config_realms state) as [|x l IH]; [by apply not_elem_of_nil in Hin|]. simpl in *.
  apply NoDup_cons in Hnd as [Hnot Hnd]. apply elem_of_cons in Hin as [<-|Hin]; [by rewrite Hid, String.eqb_refl|].
  destruct (String.eqb_spec (OAuth.oc_id x) realm) as [Hx|]; [|auto]. exfalso. apply Hnot. rewrite Hx, <- Hid.
  by apply (list_elem_of_fmap_2 OAuth.oc_id l cfg).
Qed.

(** A live registration token of the client passes. *)
Lemma dcr_validate_token_Ok issuer cid token n m st :
  OAuth.decode_signature_only signer token = Ok (registration_claims issuer cid n m) →
  OAuth.w_now W n ≤ OAuth.w_now W (OAuth.tick st) → OAuth.w_now W (OAuth.tick st) < OAuth.w_now W n + 3600 →
  OAuth.w_now W n + 7200 ≤ u64_max →
  validate_dcr_registration_access_token token cid st = (Ok tt, OAuth.bump st).
Proof.
  intros Hd Hlo Hhi Hmax. unfold validate_dcr_registration_access_token, bind, of_result. rewrite Hd. simpl.
  rewrite bool_decide_eq_true_2 by done. simpl. rewrite String.eqb_refl. simpl.
  assert (∀ a b, a + b ≤ u64_max → add64 a b = a + b) as Hadd by (intros a b Hab; apply N.mod_small; unfold u64_max in Hab; lia).
  unfold guard, OAuth.guard, now_seconds, OAuth.now_seconds, ret. rewrite !Hadd by lia.
  destruct (N.leb_spec (OAuth.w_now W n + 3600) (OAuth.w_now W (OAuth.tick st))); [lia|].
  destruct (N.ltb_spec (OAuth.w_now W (OAuth.tick st) + 60) (OAuth.w_now W n)); [lia|done].
Qed.

(** C24: A registration can be used.  With the documented behaviour of the codec and the signer, from a well-formed table:
    after a registration was answered, its registration access token, presented within the hour while the clock runs
    forward, reads the client back with the same identifier, grants, authentication method and metadata, and the secret
    in the answer, if there is one, is accepted as the client's. *)
Theorem registration_roundtrip h req st r st1 h2 token :
  (∀ c t, OAuth.sign signer c = Ok t → OAuth.decode_signature_only signer t = Ok c) → (∀ c, is_ok (OAuth.sign signer c) = true) →
  NoDup (map OAuth.oc_id (OAuth.config_realms state)) → well_formed st →
  serve (Register h req) st = (Ok (Registration r), st1) → registration_access_token r = Some token →
  Risk.bearer_token (authorization h2) = Some token →
  (∀ i j, (OAuth.tick st ≤ i ≤ j)%nat → (j ≤ OAuth.tick st1)%nat → OAuth.w_now W i ≤ OAuth.w_now W j < OAuth.w_now W i + 3600) →
  OAuth.w_now W (OAuth.tick st1) + 7200 ≤ u64_max →
  ∃ r' st2, serve (Get h2 (rs_client_id r)) st1 = (Ok (Registration r'), st2) ∧
    rs_client_id r' = rs_client_id r ∧ rs_grant_types r' = rs_grant_types r ∧
    rs_token_endpoint_auth_method r' = rs_token_endpoint_auth_method r ∧ rs_metadata r' = rs_metadata r ∧
    ∀ secret, rs_client_secret r = Some secret → ∃ k c, clients_of st1 !! k = Some c ∧ client_id c = rs_client_id r ∧
      OAuth.verify_client_secret client_body sha256 base64url c (Some secret) = Ok tt.
Proof.
  intros Hsign Htotal Hnd Hwf Hreg Htok Hb Hclock Hmax.
  assert (well_formed st1) as Hwf1.
  { eapply change_well_formed; [done|]. pose proof (serve_change (Register h req) st (wf_keyed _ Hwf)) as Hc. by rewrite Hreg in Hc. }
  apply register_inv in Hreg as (c & md & sec & issuer & token' & n & Hmd & Hplan & Hid & Hbody & Hsec & Hne & Hg & Hm & Hmeta & Hcl & Htok' & Hs & Hlo & Hhi).
  rewrite Htok in Htok'. injection Htok' as <-. apply Hsign in Hs.
  destruct (planned_enabled _ Hnd Hplan) as [Hen Hserved].
  assert (clients_of st1 !! c_id c = Some c) as Hin by (rewrite Hcl; apply lookup_insert_eq).
  destruct (served_client_found st1 _ c Hwf1 Hin Hserved) as [Hfind Hget]. rewrite Hid in *.
  destruct Hplan as [[plan Hp] _].
  destruct (response_Ok (OAuth.pr_issuer plan) (client_id c) None (cf_grant_types (client_fields (c_body c))) (cf_auth_method (client_fields (c_body c)))
    (cf_metadata (client_fields (c_body c))) (OAuth.bump st1) Htotal) as (r' & st2 & Hresp).
  exists r', st2. rewrite Hbody, client_round_trip in Hresp.
  pose proof (response_inv _ _ _ _ _ _ _ _ _ Hresp) as (H1 & _ & H3 & H4 & H5 & _).
  split; [|split_and!; [by rewrite H1|by rewrite H3, Hg|by rewrite H4, Hm|by rewrite H5, Hmeta|]].
  - assert (dynamic_client_registration_context (rs_client_id r) st1 = (Ok (c_realm_id c, OAuth.pr_issuer plan), st1)) as Hctx.
    { unfold dynamic_client_registration_context. rewrite (bind_ok _ _ _ (c_realm_id c) st1).
      - unfold require, OAuth.require. by rewrite Hp.
      - unfold managed_realm, OAuth.find_client_across_realms, OAuth.find_client_across_realms_with_messages, OAuth.read, bind, get_state, ret.
        by rewrite Hfind. }
    assert (authenticate_dcr_management_client h2 (c_realm_id c) (rs_client_id r) st1 = (Ok c, OAuth.bump st1)) as Hauth.
    { unfold authenticate_dcr_management_client. rewrite Hb.
      rewrite (bind_ok _ _ _ tt (OAuth.bump st1)).
      - unfold known_client, read, OAuth.read, require, OAuth.require, bind, get_state, ret, of_result. simpl. by rewrite Hget.
      - eapply dcr_validate_token_Ok; [exact Hs|apply Hclock; lia|apply Hclock; lia|].
        assert (OAuth.w_now W n ≤ OAuth.w_now W (OAuth.tick st1)) by (apply Hclock; lia). lia. }
    unfold serve, dynamic_client_registration_get. rewrite (bind_ok _ _ _ _ _ Hctx). cbn [fst snd].
    rewrite (bind_ok _ _ _ tt st1) by (unfold require_enabled, guard, OAuth.guard; by rewrite Hen).
    rewrite (bind_ok _ _ _ _ _ Hauth).
    rewrite (bind_ok _ _ _ c (OAuth.bump st1)) by (unfold stored_client, read, OAuth.read, require, OAuth.require, bind, get_state, ret, of_result; simpl; by rewrite Hget).
    cbv zeta. rewrite Hbody, client_round_trip. rewrite (bind_ok _ _ _ _ _ Hresp). done.
  - intros secret Hsome. exists (c_id c), c. split_and!; [done..|].
    rewrite Hsec in Hsome. apply Hne in Hsome as Hfull. unfold OAuth.verify_client_secret. simpl.
    rewrite Hfull. unfold client_body. rewrite Hbody, client_round_trip, Hsome. cbn.
    by rewrite (proj2 (Push.constant_time_eq_spec _ _) eq_refl).
Qed.

End Dcr.

(** * A small deployment *)

#[local] Instance dcr_numbers : JsonNumber N := {|
  as_u64 n := Some n; as_i64 n := Some (Z.of_N n); as_f64 n := Some (z_to_f64 (Z.of_N n)); num_eqb := N.eqb; num_from_u64 n := n
|}.
#[local] Instance dcr_constant_time : Push.ConstantTimeEq := {|
  Push.constant_time_eq := String.eqb; Push.constant_time_eq_spec := String.eqb_eq |}.
Abbreviation EJ := (Value N).
Abbreviation EFields := (ClientFields (Num := N)).
Abbreviation ESt := (OAuth.St (Num := N)).

(** The stored form of a client is the array of its encoded fields. *)
Definition put_field {A} `{Countable A} (a : A) : EJ := VString (OAuth.pos_text (encode a)).
Definition pick_field {A} `{Countable A} (d : A) (j : EJ) : A := match j with VString s => default d (decode (OAuth.text_pos s)) | _ => d end.

Lemma pick_put_field {A} `{Countable A} (d a : A) : pick_field d (put_field a) = a.
Proof. unfold pick_field, put_field. by rewrite OAuth.text_pos_text, decode_encode. Qed.

Definition ex_descriptive : Descriptive (Num := N) := {|
  redirect_uris := ["https://app/cb"]; mtls_certificate_thumbprints := []; jwks := VNull; client_name := Some "App"; client_uri := None;
  logo_uri := None; contacts := []; post_logout_redirect_uris := []; default_max_age := None; require_auth_time := false;
  sector_identifier_uri := None; subject_type := None; backchannel_client_notification_endpoint := None;
  require_pushed_authorization_requests := false |}.
Definition ex_fields : EFields := {|
  cf_client_type := OAuth.Public; cf_auth_method := "none"; cf_client_secret_hash := None; cf_grant_types := []; cf_metadata := ex_descriptive;
  cf_backchannel_logout_uri := None; cf_frontchannel_logout_uri := None |}.

Definition ex_client_value (f : EFields) : EJ :=
  let m := cf_metadata f in
  VArray [put_field (is_confidential (cf_client_type f)); put_field (cf_auth_method f); put_field (cf_client_secret_hash f); put_field (cf_grant_types f);
          put_field (cf_backchannel_logout_uri f); put_field (cf_frontchannel_logout_uri f);
          put_field (redirect_uris m); put_field (mtls_certificate_thumbprints m); jwks m; put_field (client_name m); put_field (client_uri m); put_field (logo_uri m);
          put_field (contacts m); put_field (post_logout_redirect_uris m); put_field (default_max_age m); put_field (require_auth_time m);
          put_field (sector_identifier_uri m); put_field (subject_type m); put_field (backchannel_client_notification_endpoint m);
          put_field (require_pushed_authorization_requests m)].
Definition ex_client_fields (j : EJ) : EFields :=
  match j with
  | VArray [a1; a2; a3; a4; a5; a6; b1; b2; b3; b4; b5; b6; b7; b8; b9; c1; c2; c3; c4; c5] =>
      {| cf_client_type := if pick_field false a1 then OAuth.Confidential else OAuth.Public; cf_auth_method := pick_field "" a2;
         cf_client_secret_hash := pick_field None a3; cf_grant_types := pick_field [] a4; cf_backchannel_logout_uri := pick_field None a5;
         cf_frontchannel_logout_uri := pick_field None a6;
         cf_metadata := {| redirect_uris := pick_field [] b1; mtls_certificate_thumbprints := pick_field [] b2; jwks := b3; client_name := pick_field None b4;
           client_uri := pick_field None b5; logo_uri := pick_field None b6; contacts := pick_field [] b7; post_logout_redirect_uris := pick_field [] b8;
           default_max_age := pick_field None b9; require_auth_time := pick_field false c1; sector_identifier_uri := pick_field None c2;
           subject_type := pick_field None c3; backchannel_client_notification_endpoint := pick_field None c4;
           require_pushed_authorization_requests := pick_field false c5 |} |}
  | _ => ex_fields
  end.

Lemma ex_client_round_trip f : ex_client_fields (ex_client_value f) = f.
Proof.
  unfold ex_client_fields, ex_client_value. rewrite !pick_put_field. destruct f as [t ? ? ? [] ? ?]. by destruct t.
Qed.

(** A signer: a token is its encoded claims, each followed by a comma. *)
Definition COMMA : Ascii.ascii := Ascii.ascii_of_N 44.
Definition field_text {A} `{Countable A} (a : A) (rest : string) : string := OAuth.pos_text (encode a) +:+ String COMMA rest.

Fixpoint before_comma (s : string) : string * string :=
  match s with
  | EmptyString => ("", "")
  | String c s' => if Ascii.eqb c COMMA then ("", s') else let '(a, b) := before_comma s' in (String c a, b)
  end.

Definition read_field {A} `{Countable A} (s : string) : result (A * string) string :=
  let '(t, rest) := before_comma s in
  match decode (OAuth.text_pos t) with Some a => Ok (a, rest) | None => Err "malformed" end.

Lemma before_comma_text p rest : before_comma (OAuth.pos_text p +:+ String COMMA rest) = (OAuth.pos_text p, rest).
Proof. induction p as [p IH|p IH|]; [simpl; change (String.append ?a ?b) with (a +:+ b); by rewrite IH..|done]. Qed.

Lemma read_field_text {A} `{Countable A} (a : A) rest : read_field (field_text a rest) = Ok (a, rest).
Proof. unfold read_field, field_text. by rewrite before_comma_text, OAuth.text_pos_text, decode_encode. Qed.

Definition ex_sign (c : OAuth.JwtClaims (Num := N)) : result string string :=
  Ok (field_text (OAuth.iss c) (field_text (OAuth.sub c) (field_text (OAuth.audience_sum <$> OAuth.aud c) (field_text (OAuth.exp c)
     (field_text (OAuth.nbf c) (field_text (OAuth.iat c) (field_text (OAuth.jti c) (field_text (OAuth.extra c) "")))))))).

Definition ex_decode (s : string) : result (OAuth.JwtClaims (Num := N)) string :=
  let? p1 := read_field s in let? p2 := read_field p1.2 in let? p3 := read_field p2.2 in let? p4 := read_field p3.2 in
  let? p5 := read_field p4.2 in let? p6 := read_field p5.2 in let? p7 := read_field p6.2 in let? p8 := read_field p7.2 in
  Ok {| OAuth.iss := p1.1; OAuth.sub := p2.1; OAuth.aud := OAuth.sum_audience <$> (p3.1 : option (string + list string)); OAuth.exp := p4.1;
        OAuth.nbf := p5.1; OAuth.iat := p6.1; OAuth.jti := p7.1; OAuth.extra := p8.1 |}.

Definition ex_signer : OAuth.Signer (Num := N) :=
  {| OAuth.sign := ex_sign; OAuth.sign_with_typ := fun c _ => ex_sign c; OAuth.decode_signature_only := ex_decode |}.

Lemma ex_signed_decodes c s : ex_sign c = Ok s → ex_decode s = Ok c.
Proof.
  intros [= <-]. unfold ex_decode. do 8 (rewrite read_field_text; cbn [res_bind fst snd]).
  destruct c as [? ? [[]|] ? ? ? ? ?]; done.
Qed.

(** One realm, open to registration. *)
Definition ex_dcr (_ : OAuth.OAuthRealmConfig) : DcrConfig := {| dcr_enabled := true; allow_open_registration := true; par_enabled := true |}.
Definition ex_paths : DcrPaths :=
  {| dynamic_client_registration_path := "/register"; dynamic_client_registration_management_path := "/register/:client_id" |}.
Definition ex_url_parse (u : string) : option (string * string) := if starts_with "https://" u then Some ("https", "app") else None.
Definition ex_decode64 (s : string) : result (list N) string := Ok (OAuth.ex_bytes s).

Definition ex_start : ESt := {| OAuth.store := OAuth.ex_empty; OAuth.service_accounts := ∅; OAuth.tick := 0 |}.

Abbreviation ex_serve := (serve ex_client_value ex_client_fields ex_url_parse ex_decode64 OAuth.ex_state ex_dcr ex_paths ex_signer OAuth.ex_W
  OAuth.ex_bytes OAuth.ex_text).

Definition no_auth : Headers := {| authorization := None; basic := None |}.
Definition ex_bearer (token : string) : Headers := {| authorization := Some ("Bearer " +:+ token); basic := None |}.
Definition ex_req : DynamicClientRegistrationRequest (Num := N) := {|
  rq_client_id := Some "app"; rq_grant_types := []; rq_token_endpoint_auth_method := None; rq_metadata := ex_descriptive;
  rq_backchannel_logout_uri := None; rq_frontchannel_logout_uri := None |}.

Definition ex_registered := ex_serve (Register no_auth ex_req) ex_start.

Definition registration_of (o : QidResult (Reply (Num := N))) : option DynamicClientRegistrationResponse :=
  match o with Ok (Registration r) => Some r | _ => None end.
Definition ex_token_of (o : QidResult (Reply (Num := N))) : string := default "" (registration_of o ≫= registration_access_token).
Definition ex_token : string := ex_token_of ex_registered.1.

Lemma registration_of_Some (p : QidResult (Reply (Num := N)) * ESt) r :
  registration_of p.1 = Some r → p = (Ok (Registration r), p.2).
Proof. destruct p as [[[]|] s]; simpl; try done. by intros [= ->]. Qed.

Lemma ex_no_clients k : clients (OAuth.store ex_start) !! k = None.
Proof. apply (lookup_empty (M := gmap string) k). Qed.

Lemma ex_start_well_formed : well_formed ex_client_fields ex_url_parse ex_decode64 OAuth.ex_state ex_start.
Proof. split; [intros k c Hk|intros k c Hk|intros k k' c c' Hk]; by rewrite ex_no_clients in Hk. Qed.

Definition count_clients (st : ESt) : nat := size (clients (OAuth.store st)).
Definition is_no_content (o : QidResult (Reply (Num := N))) : bool := match o with Ok NoContent => true | _ => false end.

Definition ex_removed : ESt := (ex_serve (Delete (ex_bearer ex_token) "app") ex_registered.2).2.
Definition ex_again : ESt := (ex_serve (Register no_auth ex_req) ex_removed).2.
Definition ex_removed_again := ex_serve (Delete (ex_bearer ex_token) "app") ex_again.

(** A registration token outlives its client.  A client registers under an identifier of its choice and is removed; the
    identifier is registered again by someone else.  The first registration's token, which is bound to the identifier
    alone, still removes the second client. *)
Theorem old_token_manages_new_client :
  count_clients ex_removed = 0%nat ∧ count_clients ex_again = 1%nat ∧
  is_no_content ex_removed_again.1 = true ∧ count_clients ex_removed_again.2 = 0%nat.
Proof. split_and!; vm_compute; reflexivity. Qed.

Lemma dcr_changes_authorized_witness :
  count_clients ex_registered.2 = 1%nat ∧
  change ex_client_value ex_client_fields ex_url_parse ex_decode64 OAuth.ex_state ex_dcr ex_paths ex_signer OAuth.ex_W
    OAuth.ex_bytes OAuth.ex_text ex_start ex_registered.2 (Register no_auth ex_req).
Proof.
  split; [vm_compute; reflexivity|].
  apply (dcr_changes_authorized ex_client_value ex_client_fields ex_url_parse ex_decode64 OAuth.ex_state ex_dcr ex_paths ex_signer
    OAuth.ex_W OAuth.ex_bytes OAuth.ex_text (Register no_auth ex_req) ex_start).
  intros k c Hk. by rewrite ex_no_clients in Hk.
Defined.

Definition ex_ops : list (DcrOp (Num := N)) :=
  [Register no_auth ex_req; Update (ex_bearer ex_token) "app" ex_req; Register no_auth ex_req].

Lemma dcr_clients_sound_witness :
  well_formed ex_client_fields ex_url_parse ex_decode64 OAuth.ex_state
    (run ex_client_value ex_client_fields ex_url_parse ex_decode64 OAuth.ex_state ex_dcr ex_paths ex_signer OAuth.ex_W
       OAuth.ex_bytes OAuth.ex_text ex_ops ex_start) ∧
  count_clients (run ex_client_value ex_client_fields ex_url_parse ex_decode64 OAuth.ex_state ex_dcr ex_paths ex_signer
    OAuth.ex_W OAuth.ex_bytes OAuth.ex_text ex_ops ex_start) = 1%nat.
Proof.
  split; [|vm_compute; reflexivity].
  apply (dcr_clients_sound ex_client_value ex_client_fields ex_url_parse ex_decode64 OAuth.ex_state ex_dcr ex_paths ex_signer
    OAuth.ex_W OAuth.ex_bytes OAuth.ex_text ex_client_round_trip ex_ops ex_start), ex_start_well_formed.
Defined.

Definition ex_answer : DynamicClientRegistrationResponse (Num := N) :=
  default {| rs_client_id := ""; client_id_issued_at := 0; registration_access_token := None; registration_client_uri := None;
             rs_client_secret := None; rs_grant_types := []; rs_token_endpoint_auth_method := ""; rs_metadata := ex_descriptive |}
    (registration_of ex_registered.1).

Lemma registration_roundtrip_witness :
  rs_client_secret ex_answer = Some "secret_0" ∧
  ∃ r' st2, ex_serve (Get (ex_bearer ex_token) "app") ex_registered.2 = (Ok (Registration r'), st2) ∧ rs_client_id r' = "app".
Proof.
  split; [vm_compute; reflexivity|].
  destruct (registration_roundtrip ex_client_value ex_client_fields ex_url_parse ex_decode64 OAuth.ex_state ex_dcr ex_paths ex_signer
    OAuth.ex_W OAuth.ex_bytes OAuth.ex_text ex_client_round_trip no_auth ex_req ex_start ex_answer ex_registered.2 (ex_bearer ex_token) ex_token)
    as (r' & st2 & Hget & Hid & _).
  - exact ex_signed_decodes.
  - done.
  - repeat constructor. apply not_elem_of_nil.
  - exact ex_start_well_formed.
  - apply registration_of_Some. vm_compute. reflexivity.
  - vm_compute. reflexivity.
  - vm_compute. reflexivity.
  - intros i j _ _. vm_compute. by split.
  - vm_compute. done.
  - exists r', st2. split; [exact Hget|]. rewrite Hid. vm_compute. reflexivity.
Defined.

End Dcr.
